(* ===== verification/_CoqProject ===== *)
-Q . S2P
Prelude.v
RustStr.v
SortedList.v
Json.v
JsonModel.v
ToolNames.v
Permissions.v
PermissionEnforcer.v
BashValidation.v
Conversation.v
BTree.v
TurnInput.v
InputQueue.v
CoordinatorMode.v
ToolRegistry.v
RegistrySafety.v
ShellFlags.v
ToolConcurrency.v
Background.v
SessionInputs.v
HistoryGraph.v
HistoryInvariant.v
HistoryModel.v
HistoryLog.v
HistoryLogSafety.v
HistoryLogModel.v
CursorFence.v
CursorSafety.v
Sse.v
JsonText.v
Utf8.v
Compaction.v
CompactionScope.v
CompactionBudget.v
SummaryCompression.v
UsageAccounting.v
UsageSafety.v
Cron.v
CronScheduler.v
CronSafety.v
WorkerScreen.v
WorkerBoot.v
WorkerSafety.v
Lanes.v
LaneSafety.v
LaneEvents.v
McpLifecycle.v
AssistantMessage.v
ProviderStream.v
InlineSafety.v
SessionCodec.v
SessionRoundtrip.v
SessionRecord.v
SessionRecordSafety.v
StreamCollect.v
EngineStream.v
EngineSafety.v
CollectSafety.v
EngineReading.v
Transcript.v
CompactionText.v
CompactionRun.v
SessionLog.v
SessionLogSafety.v
SessionBranches.v
SessionLive.v
SessionDemo.v
ToolHistory.v
ToolHistorySafety.v
ContextHistory.v
ContextSafety.v
ContextModel.v
ToolScheduler.v
SchedulerSafety.v
ConcurrencySafety.v
ResponseLoop.v
ResponseSafety.v
TurnLoop.v
CompactionRunSafety.v
TurnSafety.v
