(* ===== verification/Prelude.v ===== *)
(** * Sudo Code: a verification development

    Sudo Code is a coding agent: a conversation loop that sends a transcript to
    a model, runs the tools the model asks for, and keeps the transcript durable
    while several front ends (terminal, editor protocol, sub-agents) feed it.  This
    library models, from the Rust sources under src/rust/crates, the parts of it that
    decide and remember: who may run a tool and which tools run together, which input
    reaches which turn, how a turn and its responses proceed, what a transcript is and
    which of its writers wins, how it is compacted, billed and restored from its file, when
    scheduled work fires, and how bytes are read.  Every
    definition follows the code branch by branch and can be evaluated; the theorems
    are about those definitions.

    ** Parts, files and sources

    Foundations
    - Prelude (this file): [result] for Rust's Result, [run] for calls that may panic
      or that recurse without a structural argument, machine integers, tactics.
    - RustStr: the [str] methods the code calls, on UTF-8 bytes.
    - SortedList: insertion into sorted lists, removal of duplicates.
    - BTree: [BTreeMap<u64, V>] as its sorted list of entries.
    - Json, JsonModel: serde_json, a dependency, as the interface [SerdeJson] with
      its laws, and a tree model that satisfies them.
    - JsonText (runtime/src/json.rs): the session store's own JSON values,
      renderer and recursive descent parser; what a torn line parses as.
    - Utf8: strings as chars, and their encoding.
    - Conversation (runtime/src/session.rs and others): messages and content blocks.

    Tools: which tool is it, may it run, and next to what?
    - ToolNames (runtime/src/tool_names.rs): canonical tool names.
    - ToolRegistry, RegistrySafety (tools/src/lib.rs, engine-host/src/tool_executor.rs):
      built-in, plugin and discovered tools, the array a model sees, the requirements
      given to the policy, allow lists, dispatch and its gates.
    - ShellFlags, ToolConcurrency (runtime/src/tool_concurrency.rs and its modules): the
      option parser and the classifier of calls that may overlap.
    - Permissions (runtime/src/permissions.rs): modes, the rule language, evaluation
      with deny, ask and allow rules and hook overrides, the two ways to authorise.
    - PermissionEnforcer (runtime/src/permission_enforcer.rs): the gate without a
      prompter: tools, file writes, shell commands.
    - BashValidation (runtime/src/bash_validation.rs): the checks on command text.

    Inputs: which prompt reaches which turn?
    - TurnInput (runtime/src/turn_input.rs): the steering inbox of a running turn.
    - InputQueue (engine-core/src/input_queue.rs): the coordinator of one session's
      queue, steered inputs and turn phase.
    - CoordinatorMode (runtime/src/coordinator_mode.rs): the coordinator's tool gate
      and the task notification written into a prompt.
    - Background (runtime/src/background_tasks.rs, engine-core/src/
      background_completion.rs): finished tasks, each reported once.
    - SessionInputs (engine-core/src/session_inputs.rs): the session's state around the
      coordinator: receipts, deduplication by client id, leases, the lifecycle fence,
      pause and resume.  It calls InputQueue, TurnInput and Background.

    Turns: what happens between a prompt and its answer?
    - ProviderStream, InlineSafety (api/src/types.rs, providers/openai_compat.rs,
      inline_reasoning.rs): the chunks of a chat-completions stream as events, with tool
      calls assembled and inline reasoning split off.
    - StreamCollect, CollectSafety (api/src/stream_collect.rs, client.rs): events collected
      into one response.
    - EngineStream, EngineSafety, EngineReading (engine-core/src/engine_client.rs): the
      engine's reading of a provider stream, its retries and its end.
    - AssistantMessage (runtime/src/conversation.rs): the fold from streamed events to
      one message, the errors of a turn, hook feedback.
    - Transcript (runtime/src/session.rs, session_history.rs): identities of messages,
      appending and updating them with the store as environment.
    - ToolHistory, ToolHistorySafety (runtime/src/session.rs, api/src/completion.rs): the
      repair of calls without results and results without calls, in a session and in
      what a provider is sent.
    - ToolScheduler, SchedulerSafety (runtime/src/conversation/tool_execution.rs): the
      calls of one response, from the stream to their results.  ConcurrencySafety joins
      the scheduler with the executor's classifier.
    - ResponseLoop, ResponseSafety (runtime/src/conversation/response.rs): one provider
      response and its tools, polled together.
    - TurnLoop, TurnSafety (runtime/src/conversation/turn.rs, tool_context.rs): one turn,
      from its committed input to its summary, with what is expected of its environment, if
      anything, as a parameter of its runs.

    History: what is the transcript?
    - HistoryGraph (runtime/src/session/history.rs, history/graph.rs): the log's
      records, their validation and the fold that builds contexts, commits and
      projections, and the sessions read from it.  Its interfaces are [SerdeJson],
      the message codec [SessionCodec] and the digests [HistoryDigests].
    - HistoryInvariant: the invariant of a folded log and what readers rely on.
    - HistoryModel: a concrete codec, the theorems at concrete logs, and a log on
      which one record's validation is too weak for a later one.
    - HistoryLog, HistoryLogSafety, HistoryLogModel (runtime/src/session/history.rs,
      fs_backend/record_log.rs): reading and committing over a shared log, as programs
      over the calls of the transport, and the system of its clients.
    - ContextHistory, ContextSafety, ContextModel (runtime/src/session/history/
      context.rs): one runtime's continuation of the history, from opening it to
      completing its turns.  It calls HistoryLog, HistoryGraph and ToolHistory.
    - Compaction (runtime/src/compact.rs, usage.rs): token estimates and budgets, the
      boundary between summarised and kept messages, the plan of a compaction, and the
      usage it carries over.
    - CompactionScope, CompactionBudget (runtime/src/compaction_scope.rs): the budget and
      the receipts that all requests of one compaction share.
    - CompactionText (runtime/src/compact.rs): pruning of tool results, prompts and messages
      of a summary request, the checks of its answer, local summaries and their merging.
    - CompactionRun (runtime/src/compact.rs, conversation.rs, agent_description.rs): one
      request, the attempts of a run, its report, and the replacement of the live session.
      It calls Compaction, CompactionText, CompactionScope and UsageAccounting.
    - CompactionRunSafety: what a compaction keeps of a transcript, the attempts a turn may
      see ([compacts]), and a run by evaluation.
    - SummaryCompression (runtime/src/summary_compression.rs): texts cut to a budget.
    - UsageAccounting, UsageSafety (runtime/src/usage.rs, session.rs): the tracker of a
      session's bill, its receipts, and the bill of a restored session.
    - SessionCodec, SessionRoundtrip, SessionRecord, SessionRecordSafety (runtime/src/
      session.rs, session_history.rs, prompt.rs): messages and sessions as JSON and back.
    - SessionLog, SessionLogSafety, SessionBranches, SessionLive, SessionDemo
      (runtime/src/session_history.rs, session.rs): the lines of a session's file, their
      replay and the projection of a branch, and the session a restart reads.

    Unattended work: when does it run, and what becomes of it?
    - Cron, CronScheduler, CronSafety (runtime/src/cron_registry.rs, cron_schedule.rs,
      cron_service.rs, cron_scheduler.rs): the job store, schedules, and the pass that
      claims and fires due jobs, with crashes and competing processes: labelled steps for
      what fires, what is triggered by hand and what moves a job's next time.
    - WorkerScreen, WorkerBoot, WorkerSafety (runtime/src/worker_boot.rs): the registry
      of workers as a state machine over what their screens show.
    - Lanes, LaneSafety (runtime/src/policy_engine.rs, recovery_recipes.rs and the other
      lane files): policies, recovery, test contracts, freshness, lock collisions.
    - LaneEvents (runtime/src/lane_events.rs): events and their duplicate removal.
    - McpLifecycle (runtime/src/mcp_lifecycle_hardened.rs, plugin_lifecycle.rs): phases
      of a tool server and of a plugin.

    Delivery: how far has a reader read, and how are bytes read?
    - CursorFence (runtime/src/cursor_fence.rs): claim and commit of a reader's
      register as programs of storage calls (a free monad over [Call]).
    - CursorSafety: any number of readers, interleaved call by call, over a storage of each
      kind the code tells apart (a lock that excludes the previous holder, an expiring lock
      and an atomic conditional write, or neither), writes that land late and processes
      that die: a step relation, and weakest preconditions for the programs whose soundness
      gives the invariants of every reachable system.
    - Sse (runtime/src/sse.rs): the incremental server-sent event parser.

    ** How the model corresponds to the code

    A method that mutates its receiver takes the state and returns the new one with
    the result.  Types behind a mutex ([SessionInputs], [TurnInputInbox]) lock for a
    whole method body, so one method is one atomic step and interleavings are
    sequences of steps; [Arc::make_mut] copies before it writes, so shared chunks are
    values.  Where a body is not atomic (CursorFence) every storage call is a step of
    its own.  An async loop that polls several futures (ToolScheduler, ResponseLoop) is
    a step relation with one constructor per arm of its select, so every interleaving
    of stream, tools, inputs and cancellation is a run of it.  What answers the code
    (provider, hooks, prompter, executor, store, clock, the outcome of a compaction) is an
    argument of the step, arbitrary unless a theorem says otherwise; where a theorem is about
    what led to a step (SchedulerSafety's starts, CronScheduler's runs) the runs carry their
    history.  A hash map is a [gmap], with a
    theorem or a sorted order wherever iteration order could show; a [BTreeMap] is a
    sorted list.  Counters wrap at their width or saturate, as the code says; [usize]
    and [u64] counters that index memory are natural numbers.  Slices that can panic
    return [run], or [None] where the rest of the function is an [option].

    ** What the theorems show

    - Tools: a matching deny rule is absolute; exactly when a call runs without
      a question; that a tool which starts was admitted after its hook, under a rule, a mode
      or the yes of that admission's prompter; that both entry
      points agree; rule text round trips; read-only shell checks block the commands
      they name; a call is authorised as the tool that runs, unless a plugin takes the
      name of an alias; calls that overlap only read, and unsafe calls run alone.
    - Inputs: every accepted input is owned exactly once, by the queue, by steering or
      by a receipt; submission is idempotent per client id; a lease takes the whole
      queue in order; the lifecycle fence and pause hold until released; an inbox
      loses nothing when it is sealed; a notification's text round trips through its
      escaping.
    - Turns: a message keeps everything that was streamed, in order; every call is
      saved before it may run and answered exactly once, also on cancellation and
      failure; every request carries a transcript in which calls are followed by their
      results, if the turn starts with one, inputs hold no tool blocks, tool outputs attach no
      results and reloaded sessions are such; a turn keeps to its limits and is never stuck,
      whatever answers it; a damaged history is repaired in one pass, and what a provider is
      sent answers every call in the next message, if the batches are answered in place; the
      text a provider sends is delivered, however it is cut into chunks, but for what an inline
      filter holds back when a native reasoning follows; a stream is read to its end.
    - History: completed turns are immutable; any log, however malformed, keeps the
      graph well formed and never panics; of two writers that expect one revision one
      is rejected; redelivery and replay are idempotent; ancestry terminates; clients of one log never
      disagree on an outcome that was returned, and a write that succeeded was applied (a turn
      without uncommitted messages is completed by writing nothing);
      a writer with an unknown outcome answers nothing more; a
      compaction never separates a tool call from its result and keeps the largest
      such boundary.
    - Compaction: a run ends within four requests, two responses and two retries, whatever
      the provider answers; a transcript with answered calls and no repeated ids stays such a
      one, if a session reloaded after a changed source is; it installs at most half of what
      was there, or keeps the messages, or takes those of the reloaded session;
      pruning is one pass; a structural compaction always answers and its headers do not
      nest; a compressed text keeps to its budget.
    - Sessions: a session is read back from its file in the form the file stores; an append is kept whole or
      not at all when the process dies; an append keeps every other branch; what a live
      session holds is what a restart reads; the restored bill is the live one.
    - Unattended work: an accepted job fires, a run fires again only as often as its job's next
      time was moved back (a one-shot enabled again is), the store keeps valid
      jobs only, the tick refines its steps; the worker registry keeps its invariant;
      a failed lane is recovered once and then escalated.
    - Delivery: under an exclusive lock or conditional writes a takeover resumes after
      everything acknowledged; with conditional writes a register never moves back and a
      fenced-out holder acknowledges nothing more; with neither it does; chunk boundaries
      never show in events; well-formed events and JSON values come back as sent.
    - Some theorems record surprises: textual path checks, gaps of the read-only
      validation, a lease that names the context of another input, a record that
      blocks every later resume, a job store that cannot be written and fires again, a
      plugin tool that lowers the requirement of the shell, a stray result that moves the
      results of a batch out of the message after its calls, fragments of parallel calls
      that lose the first, a receipt that keeps a stale total, a response that repeats a
      call's id and can be split by a compaction, a summary with its tags out of order, a
      replacement measured without its todo list, a one-shot job that fires again when it is
      enabled again, a held-back text that a native reasoning drops.

    ** Fuel

    Fuel bounds the loops without a structural argument: environment assignments and
    nested sudo in BashValidation (one unrolling per byte), the line loop of Sse (one
    per byte of the buffer), the JSON parser (two per char plus two), the ancestry
    walk (one per revision), the boundary search (one per message), hexadecimal digits
    (sixteen), the refresh of a log (the code's own 256 batches), the polls of an
    observation (its clock), the scheduler's drain (one per pending update) and drive
    ([work_left] of the state), the results of a response (one per call plus one), the
    compactions of a request (nine, one more than the limit), the requests of an
    iteration (two), the projection of a branch (one more than the nodes), the attempts of a
    compaction (its summary budget plus six, as a rejected candidate shrinks it), the merge
    headers of a summary (its lines).  For each a theorem shows the fuel is enough:
    [extract_first_command_total], [read_only_validation_fuel], [drain_lines_ref],
    [parse_total], [ancestry_is_total], [boundary_loop_spec], [drain_ok],
    [scheduler_always_finishes], [response_concludes], [turn_moves_on], [walk_ends],
    [loop_ends], [flatten_total].

    ** Not modelled

    I/O and wiring: the other provider dialects, HTTP and MCP transports, processes and
    sandboxes, the terminal interface, the ACP server, plugins and hooks as processes,
    configuration files, telemetry, storage backends (their contracts are in CursorSafety
    and HistoryLog), the queue and the backups of a session's writer, async wake-ups (they
    carry no data), and wall-clock time.  Of a turn: observers, trace records, file tracking
    and the context lines injected into a prompt.  Of a compaction: the fingerprint's
    formatting and the model catalogue, which are arguments.  A turn's compactions are its
    environment: TurnLoop takes what an attempt returns, and TurnSafety lets it be any outcome
    of CompactionRun's [compact_in_place] on the turn's messages.  Of the readers' lock: only
    what it excludes.  Of a session's file: the cut of
    an incomplete character at its end, and the codecs serde derives, which are arguments
    with their laws.  Other dependencies are parameters: serde_json, SHA-256, number
    formatting, the Bash grammar, the shell word splitter.  The call stack is unbounded.

    ** Order of further work

    The completion journal of sub-agents; the merge order of configuration; the writer and
    the backups of a session. *)
From Stdlib Require Export Ascii String.
From stdpp Require Export base list gmap strings pretty option numbers.

#[global] Open Scope string_scope.
#[global] Open Scope list_scope.
#[global] Open Scope nat_scope.

(** ** Errors: Rust's [Result] *)

Inductive result (E A : Type) : Type :=
| Ok (a : A)
| Err (e : E).
Arguments Ok {E A} a.
Arguments Err {E A} e.

#[export] Instance result_ret {E} : MRet (result E) := fun A a => Ok a.
#[export] Instance result_bind {E} : MBind (result E) := fun A B f m =>
  match m with Ok a => f a | Err e => Err e end.
#[export] Instance result_fmap {E} : FMap (result E) := fun A B f m =>
  match m with Ok a => Ok (f a) | Err e => Err e end.
#[export] Instance result_eq_dec {E A} `{EqDecision E, EqDecision A} : EqDecision (result E A).
Proof. solve_decision. Defined.

(** [Option::ok_or]. *)
Definition ok_or {E A} (o : option A) (e : E) : result E A :=
  match o with Some a => Ok a | None => Err e end.

(** [Option::map_or]. *)
Definition map_or {A B} (d : B) (f : A -> B) (o : option A) : B :=
  match o with Some a => f a | None => d end.

Lemma result_bind_Ok {E A B} (m : result E A) (f : A -> result E B) b :
  m ≫= f = Ok b <-> exists a, m = Ok a /\ f a = Ok b.
Proof. destruct m; cbn; naive_solver. Qed.

(** ** Computations that may also abort: a Rust function that can panic, or a
    recursion without a structural argument run with fuel. *)

Inductive run (A : Type) : Type :=
| Ret (a : A)      (* the call returned [a] *)
| Panic            (* the call panicked *)
| NoFuel.          (* the recursion was not finished within the fuel *)
Arguments Ret {A} a.
Arguments Panic {A}.
Arguments NoFuel {A}.

#[export] Instance run_ret : MRet run := fun A a => Ret a.
#[export] Instance run_bind : MBind run := fun A B f m =>
  match m with Ret a => f a | Panic => Panic | NoFuel => NoFuel end.
#[export] Instance run_eq_dec {A} `{EqDecision A} : EqDecision (run A).
Proof. solve_decision. Defined.

Lemma run_bind_Ret {A B} (m : run A) (f : A -> run B) b :
  m ≫= f = Ret b <-> exists a, m = Ret a /\ f a = Ret b.
Proof. destruct m; cbn; naive_solver. Qed.

Lemma Ret_inj {A} (a b : A) : Ret a = Ret b -> a = b.
Proof. by intros [= ->]. Qed.

(** ** Machine integers: [u32], [u64] and [usize] are [N]; additions wrap at the
    width, as they do in the release profile the crate ships with. *)

Definition u64_mod : N := 18446744073709551616%N.
Definition u64_max : N := 18446744073709551615%N.
Definition u32_mod : N := 4294967296%N.
Definition u64_add (a b : N) : N := ((a + b) mod u64_mod)%N.
Definition u32_add (a b : N) : N := ((a + b) mod u32_mod)%N.
Definition u64_saturating_add (a b : N) : N := N.min (a + b) u64_max.
Definition u64_saturating_sub (a b : N) : N := (a - b)%N.

Lemma u64_add_small a b : (a + b < u64_mod)%N -> u64_add a b = (a + b)%N.
Proof. intros H. apply N.mod_small, H. Qed.

Lemma u32_add_small a b : (a + b < u32_mod)%N -> u32_add a b = (a + b)%N.
Proof. intros H. apply N.mod_small, H. Qed.

(** ** [List.filter], the boolean filter of Rust's [Iterator::filter] *)

Lemma filter_all_true {A} (p : A -> bool) l : (forall x, p x = true) -> List.filter p l = l.
Proof. intros H. induction l as [|x l IH]; cbn; [done|]. by rewrite H, IH. Qed.

Lemma sublist_filter_bool {A} (p : A -> bool) l : sublist (List.filter p l) l.
Proof. induction l as [|x l IH]; cbn; [constructor|]. destruct (p x); by constructor. Qed.

(** ** Shared automation *)

Create HintDb rust discriminated.

(** Splits every boolean connective that occurs as an equation. *)
Ltac bool_hyps :=
  repeat match goal with
  | H : _ && _ = true |- _ => apply andb_true_iff in H as [? ?]
  | H : _ || _ = false |- _ => apply orb_false_iff in H as [? ?]
  | H : negb _ = true |- _ => apply negb_true_iff in H
  | H : negb _ = false |- _ => apply negb_false_iff in H
  | H : bool_decide _ = true |- _ => apply bool_decide_eq_true_1 in H
  | H : bool_decide _ = false |- _ => apply bool_decide_eq_false_1 in H
  end.

(** Case analysis on the scrutinee of a [match] or [if] in the goal. *)
Ltac case_goal :=
  match goal with
  | |- context [match ?x with _ => _ end] => destruct x eqn:?
  end.

(** The same in a hypothesis. *)
Ltac case_hyp H :=
  match type of H with
  | context [match ?x with _ => _ end] => destruct x eqn:?
  end.
