(* ===== verification/RustStr.v ===== *)
(** * Rust string slices

    The [str] operations the modelled code calls, on strings as the sequences
    of their UTF-8 bytes ([Stdlib] strings), so that lengths and offsets are
    Rust's byte lengths and offsets.  [char::is_whitespace] is the Unicode
    [White_Space] property: every white-space scalar value is recognised by its
    one, two or three byte encoding, which is exact on valid UTF-8.  Slicing
    with an offset that is out of range or inside a character panics, so the
    slices that can do so live in [run]. *)
From S2P Require Import Prelude.
#[global] Arguments String.append !_ _ / : simpl nomatch.

Definition code (a : ascii) : nat := nat_of_ascii a.

(** ** Prefixes, suffixes, substrings *)

Fixpoint str_skip (n : nat) (s : string) : string :=
  match n, s with
  | S n', String _ r => str_skip n' r
  | _, _ => s
  end.

Fixpoint str_take (n : nat) (s : string) : string :=
  match n, s with
  | S n', String a r => String a (str_take n' r)
  | _, _ => EmptyString
  end.

Notation len := String.length (only parsing).
Definition is_empty (s : string) : bool :=
  match s with EmptyString => true | _ => false end.

Fixpoint is_prefix (p s : string) {struct p} : bool :=
  match p, s with
  | EmptyString, _ => true
  | String a p', String b s' => Ascii.eqb a b && is_prefix p' s'
  | String _ _, EmptyString => false
  end.

Definition starts_with (s p : string) : bool := is_prefix p s.

Definition ends_with (s p : string) : bool :=
  (len p <=? len s) && String.eqb (str_skip (len s - len p) s) p.

Definition strip_suffix (s p : string) : option string :=
  if ends_with s p then Some (str_take (len s - len p) s) else None.

Definition strip_prefix (s p : string) : option string :=
  if starts_with s p then Some (str_skip (len p) s) else None.

Fixpoint contains (s p : string) : bool :=
  is_prefix p s ||
  match s with EmptyString => false | String _ r => contains r p end.

(** [str::find] for a substring: the byte offset of its first occurrence. *)
Fixpoint find_str (s p : string) : option nat :=
  if is_prefix p s then Some 0
  else match s with EmptyString => None | String _ r => S <$> find_str r p end.

(** [str::find] for an ASCII character given by a byte predicate. *)
Fixpoint find_byte (s : string) (p : ascii -> bool) : option nat :=
  match s with
  | EmptyString => None
  | String a r => if p a then Some 0 else S <$> find_byte r p
  end.

Fixpoint all_bytes (p : ascii -> bool) (s : string) : bool :=
  match s with EmptyString => true | String a r => p a && all_bytes p r end.

Fixpoint byte_at (s : string) (i : nat) : option ascii :=
  match s, i with
  | EmptyString, _ => None
  | String a _, 0 => Some a
  | String _ r, S i' => byte_at r i'
  end.

(** ** Characters *)

(** A continuation byte of a multi-byte UTF-8 character. *)
Definition is_cont (a : ascii) : bool := (128 <=? code a) && (code a <? 192).
Definition is_ascii (a : ascii) : bool := code a <? 128.

Definition is_char_boundary (s : string) (i : nat) : bool :=
  match byte_at s i with
  | Some a => (i =? 0) || negb (is_cont a)
  | None => i =? len s
  end.

(** [&s[i..]]. *)
Definition slice_from (s : string) (i : nat) : run string :=
  if is_char_boundary s i then Ret (str_skip i s) else Panic.

(** [&s[..i]]. *)
Definition slice_to (s : string) (i : nat) : run string :=
  if is_char_boundary s i then Ret (str_take i s) else Panic.

(** [char::is_whitespace] for characters of one, two and three bytes. *)
Definition ws1 (a : ascii) : bool :=
  ((9 <=? code a) && (code a <=? 13)) || (code a =? 32).
Definition ws2 (a b : ascii) : bool :=
  (code a =? 194) && ((code b =? 133) || (code b =? 160)).
Definition ws3 (a b c : ascii) : bool :=
  ((code a =? 225) && (code b =? 154) && (code c =? 128)) ||
  ((code a =? 226) && (code b =? 128) &&
     (((128 <=? code c) && (code c <=? 138)) || (code c =? 168) || (code c =? 169)
      || (code c =? 175))) ||
  ((code a =? 226) && (code b =? 129) && (code c =? 159)) ||
  ((code a =? 227) && (code b =? 128) && (code c =? 128)).

(** [u8::is_ascii_whitespace]: space, tab, LF, FF and CR, but not VT. *)
Definition is_ascii_whitespace (a : ascii) : bool :=
  (code a =? 32) || (code a =? 9) || (code a =? 10) || (code a =? 12) || (code a =? 13).

Definition is_ascii_digit (a : ascii) : bool := (48 <=? code a) && (code a <=? 57).
Definition is_ascii_upper (a : ascii) : bool := (65 <=? code a) && (code a <=? 90).
Definition is_ascii_lower (a : ascii) : bool := (97 <=? code a) && (code a <=? 122).
Definition is_ascii_alphanumeric (a : ascii) : bool :=
  is_ascii_digit a || is_ascii_upper a || is_ascii_lower a.

(** Length in bytes of the white-space character [s] starts with, else 0. *)
Definition ws_len (s : string) : nat :=
  match s with
  | EmptyString => 0
  | String a r =>
      if ws1 a then 1
      else match r with
           | EmptyString => 0
           | String b r2 =>
               if ws2 a b then 2
               else match r2 with
                    | EmptyString => 0
                    | String c _ => if ws3 a b c then 3 else 0
                    end
           end
  end.

(** [str::find(char::is_whitespace)]. *)
Fixpoint find_whitespace (s : string) : option nat :=
  match s with
  | EmptyString => None
  | String _ r => if 0 <? ws_len s then Some 0 else S <$> find_whitespace r
  end.

(** ** Trimming *)

Fixpoint trim_start (s : string) : string :=
  match s with
  | EmptyString => EmptyString
  | String a r =>
      if ws1 a then trim_start r
      else match r with
           | EmptyString => s
           | String b r2 =>
               if ws2 a b then trim_start r2
               else match r2 with
                    | EmptyString => s
                    | String c r3 => if ws3 a b c then trim_start r3 else s
                    end
           end
  end.

Fixpoint str_rev_onto (s acc : string) : string :=
  match s with EmptyString => acc | String a r => str_rev_onto r (String a acc) end.
Definition str_rev (s : string) : string := str_rev_onto s EmptyString.

(** The same scan from the end, on the reversed bytes. *)
Fixpoint trim_start_rev (s : string) : string :=
  match s with
  | EmptyString => EmptyString
  | String a r =>
      if ws1 a then trim_start_rev r
      else match r with
           | EmptyString => s
           | String b r2 =>
               if ws2 b a then trim_start_rev r2
               else match r2 with
                    | EmptyString => s
                    | String c r3 => if ws3 c b a then trim_start_rev r3 else s
                    end
           end
  end.

Definition trim_end (s : string) : string := str_rev (trim_start_rev (str_rev s)).
Definition trim (s : string) : string := trim_end (trim_start s).

Fixpoint skip_byte (c : ascii) (s : string) : string :=
  match s with
  | String a r => if Ascii.eqb a c then skip_byte c r else s
  | EmptyString => EmptyString
  end.
(** [trim_end_matches] for an ASCII character. *)
Definition trim_end_matches (s : string) (c : ascii) : string :=
  str_rev (skip_byte c (str_rev s)).

(** ** Splitting *)

Definition flush_token (cur : string) (rest : list string) : list string :=
  if is_empty cur then rest else str_rev cur :: rest.

(** [cur] holds the bytes of the current token, reversed. *)
Fixpoint split_ws_aux (s cur : string) : list string :=
  match s with
  | EmptyString => flush_token cur []
  | String a r =>
      if ws1 a then flush_token cur (split_ws_aux r EmptyString)
      else match r with
           | EmptyString => flush_token (String a cur) []
           | String b r2 =>
               if ws2 a b then flush_token cur (split_ws_aux r2 EmptyString)
               else match r2 with
                    | EmptyString => split_ws_aux r (String a cur)
                    | String c r3 =>
                        if ws3 a b c then flush_token cur (split_ws_aux r3 EmptyString)
                        else split_ws_aux r (String a cur)
                    end
           end
  end.

Definition split_whitespace (s : string) : list string := split_ws_aux s EmptyString.

(** [split(c)] for an ASCII character: always at least one piece. *)
Fixpoint split_byte_aux (c : ascii) (s cur : string) : list string :=
  match s with
  | EmptyString => [str_rev cur]
  | String a r =>
      if Ascii.eqb a c then str_rev cur :: split_byte_aux c r EmptyString
      else split_byte_aux c r (String a cur)
  end.
Definition split_byte (s : string) (c : ascii) : list string := split_byte_aux c s EmptyString.

(** ** Rewriting *)

(** [str::replace] with a non-empty pattern; [skip] counts the bytes of a match
    that are still to be dropped. *)
Fixpoint replace_aux (pat to s : string) (skip : nat) : string :=
  match s with
  | EmptyString => EmptyString
  | String a r =>
      match skip with
      | S k => replace_aux pat to r k
      | 0 => if is_prefix pat s then (to ++ replace_aux pat to r (len pat - 1))%string
             else String a (replace_aux pat to r 0)
      end
  end.
Definition replace (s pat to : string) : string := replace_aux pat to s 0.

Definition ascii_lower (a : ascii) : ascii :=
  if is_ascii_upper a then ascii_of_nat (code a + 32) else a.
Fixpoint to_ascii_lowercase (s : string) : string :=
  match s with
  | EmptyString => EmptyString
  | String a r => String (ascii_lower a) (to_ascii_lowercase r)
  end.

(** [join] of a list of strings. *)
Fixpoint join (sep : string) (l : list string) : string :=
  match l with
  | [] => ""
  | [x] => x
  | x :: r => (x ++ sep ++ join sep r)%string
  end.

(** [contains] on a slice of string literals. *)
Definition str_in (x : string) (l : list string) : bool := existsb (String.eqb x) l.

(** ** [str::parse::<u64>] *)

Fixpoint u64_digits (s : string) (acc : N) : option N :=
  match s with
  | EmptyString => Some acc
  | String a r =>
      if is_ascii_digit a then
        let n := (acc * 10 + N.of_nat (code a - 48))%N in
        if (n <=? u64_max)%N then u64_digits r n else None
      else None
  end.

Definition parse_u64 (s : string) : option N :=
  let digits := default s (strip_prefix s "+") in
  if is_empty digits then None else u64_digits digits 0.

(** [rsplit(c).next()]: the text after the last [c], or the whole text. *)
Definition rsplit_next (s : string) (c : ascii) : string := default "" (list.last (split_byte s c)).

(** ** Hexadecimal: [{:08x}] *)
Definition hex_digit (d : N) : ascii :=
  ascii_of_N (if (d <? 10)%N then 48 + d else 87 + d)%N.

Fixpoint hex_digits (fuel : nat) (n : N) (acc : string) : string :=
  match fuel with
  | 0 => acc
  | S fuel =>
      if (n =? 0)%N then acc
      else hex_digits fuel (N.shiftr n 4) (String (hex_digit (N.land n 15)) acc)
  end.

Fixpoint pad_zeros (n : nat) (s : string) : string :=
  match n with 0 => s | S n => String "0" (pad_zeros n s) end.

Definition hex08 (n : N) : string :=
  let s := hex_digits 16 n "" in pad_zeros (8 - String.length s) s.

(** ** Lines, characters and paths *)

(** [str::lines]: a piece that ends in a newline loses a carriage return in front of it;
    the last piece is a line unless it is empty. *)
Fixpoint lines_of (pieces : list string) : list string :=
  match pieces with
  | [] => []
  | [last] => if is_empty last then [] else [last]
  | piece :: rest => default piece (strip_suffix piece (String "013" "")) :: lines_of rest
  end.
Definition lines (s : string) : list string := lines_of (split_byte s "010").

(** [chars().count()] and [chars().take(n)]: a character starts at each byte that is not
    a continuation byte. *)
Fixpoint chars_count (s : string) : nat :=
  match s with
  | EmptyString => 0
  | String a r => if is_cont a then chars_count r else S (chars_count r)
  end.
Fixpoint chars_take (n : nat) (s : string) : string :=
  match s with
  | EmptyString => EmptyString
  | String a r =>
      if is_cont a then String a (chars_take n r)
      else match n with 0 => EmptyString | S n => String a (chars_take n r) end
  end.

Fixpoint trim_start_matches (s : string) (c : ascii) : string :=
  match s with
  | String a r => if Ascii.eqb a c then trim_start_matches r c else s
  | EmptyString => s
  end.
Definition trim_matches (s : string) (c : ascii) : string :=
  trim_end_matches (trim_start_matches s c) c.

(** [Path::components] on Unix: the root, then every piece that is not empty and not
    [.]; a relative path keeps a leading [.]. *)
Inductive Component := RootDir | CurDir | ParentDir | Normal (name : string).

#[export] Instance Component_eq_dec : EqDecision Component.
Proof. solve_decision. Defined.

Definition component (piece : string) : list Component :=
  if is_empty piece || String.eqb piece "." then []
  else if String.eqb piece ".." then [ParentDir] else [Normal piece].

Definition components (path : string) : list Component :=
  let pieces := split_byte path "/" in
  match pieces with
  | first :: rest =>
      if starts_with path "/" then RootDir :: flat_map component pieces
      else (if String.eqb first "." then [CurDir] else component first) ++ flat_map component rest
  | [] => []
  end.

(** [==], [Path::starts_with] and [Path::file_name] compare components. *)
Definition path_eqb (a b : string) : bool := bool_decide (components a = components b).
Definition path_starts_with (a b : string) : bool :=
  bool_decide (components b = take (length (components b)) (components a)).
Definition file_name (path : string) : option string :=
  match rev (components path) with
  | Normal name :: _ => Some name
  | _ => None
  end.

(** ** Lemmas *)

Lemma str_app_assoc (a b c : string) : ((a ++ b) ++ c = a ++ (b ++ c))%string.
Proof. induction a; cbn; congruence. Qed.

Lemma str_app_nil_r (a : string) : (a ++ "" = a)%string.
Proof. induction a; cbn; congruence. Qed.

Lemma len_app (a b : string) : len (a ++ b)%string = len a + len b.
Proof. induction a; cbn; auto. Qed.

#[export] Hint Rewrite str_app_assoc str_app_nil_r len_app : rust.

Lemma str_skip_app (a b : string) : str_skip (len a) (a ++ b)%string = b.
Proof. induction a; cbn; auto. Qed.

Lemma str_take_app (a b : string) : str_take (len a) (a ++ b)%string = a.
Proof. induction a; cbn; auto; congruence. Qed.

Lemma str_take_skip n s : (str_take n s ++ str_skip n s = s)%string.
Proof. revert s; induction n; intros [|a s]; cbn; auto. by rewrite IHn. Qed.

Lemma len_skip n s : len (str_skip n s) = len s - n.
Proof.
  revert s; induction n; intros [|a s]; cbn; auto.
Qed.

Lemma len_take n s : len (str_take n s) = Nat.min n (len s).
Proof. revert s; induction n; intros [|a s]; cbn; auto. Qed.

Lemma prefix_app p s : is_prefix p s = true <-> exists r, s = (p ++ r)%string.
Proof.
  revert s; induction p as [|a p IH]; intros s; cbn; [naive_solver|].
  destruct s as [|b s]; [naive_solver|].
  rewrite andb_true_iff, Ascii.eqb_eq, IH. naive_solver.
Qed.

Lemma starts_with_iff s p : starts_with s p = true <-> exists r, s = (p ++ r)%string.
Proof. apply prefix_app. Qed.

Lemma contains_iff s p :
  contains s p = true <-> exists a b, s = (a ++ p ++ b)%string.
Proof.
  induction s as [|c s IH]; cbn [contains]; rewrite orb_true_iff, prefix_app.
  - split.
    + intros [[r Hr]|]; [|done]. exists "", r. done.
    + intros (a & b & E). left. destruct a; [|done]. by exists b.
  - rewrite IH. split.
    + intros [[r Hr]|(a & b & E)].
      * by exists "", r.
      * exists (String c a), b. by rewrite E.
    + intros (a & b & E). destruct a as [|d a]; cbn in E.
      * left. by exists b.
      * right. exists a, b. congruence.
Qed.

Lemma contains_app_l a s p : contains s p = true -> contains (a ++ s)%string p = true.
Proof.
  rewrite !contains_iff. intros (x & y & ->).
  exists (a ++ x)%string, y. by rewrite str_app_assoc.
Qed.

Lemma find_str_spec s p i :
  find_str s p = Some i -> exists r, s = (str_take i s ++ p ++ r)%string /\ i <= len s.
Proof.
  revert i; induction s as [|c s IH]; intros i; cbn [find_str].
  - destruct (is_prefix p "") eqn:E; [|done].
    intros [= <-]. apply prefix_app in E as [r Hr]. exists r. cbn. split; [done|lia].
  - destruct (is_prefix p (String c s)) eqn:E.
    + intros [= <-]. apply prefix_app in E as [r Hr]. exists r. cbn. split; [done|lia].
    + destruct (find_str s p) as [j|]; cbn; [|done]. intros [= <-].
      destruct (IH j eq_refl) as (r & Hr & Hl). exists r. cbn. split; [congruence|lia].
Qed.

Lemma find_byte_spec s p i :
  find_byte s p = Some i ->
  i < len s /\ (exists a, byte_at s i = Some a /\ p a = true) /\
  all_bytes (fun a => negb (p a)) (str_take i s) = true.
Proof.
  revert i; induction s as [|a s IH]; intros i; cbn [find_byte]; [done|].
  destruct (p a) eqn:E.
  - intros [= <-]. cbn. split; [lia|]. split; [eauto|done].
  - destruct (find_byte s p) as [j|]; cbn; [|done]. intros [= <-].
    destruct (IH j eq_refl) as (? & ? & ?). cbn. rewrite E. cbn. split; [lia|done].
Qed.

Lemma str_in_In x l : str_in x l = true <-> In x l.
Proof.
  unfold str_in. rewrite existsb_exists. split.
  - intros (y & Hy & E). apply String.eqb_eq in E. by subst.
  - intros H. exists x. split; [done|]. apply String.eqb_refl.
Qed.

Lemma byte_at_length s i : byte_at s i = None <-> len s <= i.
Proof.
  revert i; induction s as [|a s IH]; intros [|i]; cbn; try (split; [lia|done]).
  - split; [done|lia].
  - rewrite IH. lia.
Qed.

Lemma ends_with_iff s p : ends_with s p = true <-> exists r, s = (r ++ p)%string.
Proof.
  unfold ends_with. rewrite andb_true_iff, Nat.leb_le, String.eqb_eq. split.
  - intros [Hl E]. exists (str_take (len s - len p) s).
    rewrite <- E at 2. by rewrite str_take_skip.
  - intros [r ->]. rewrite len_app. split; [lia|].
    replace (len r + len p - len p) with (len r) by lia. apply str_skip_app.
Qed.

Lemma strip_suffix_iff s p r : strip_suffix s p = Some r <-> s = (r ++ p)%string.
Proof.
  unfold strip_suffix. split.
  - destruct (ends_with s p) eqn:E; [|done]. intros [= <-].
    apply ends_with_iff in E as [q ->]. rewrite len_app.
    replace (len q + len p - len p) with (len q) by lia. by rewrite str_take_app.
  - intros ->. rewrite (proj2 (ends_with_iff _ _)) by eauto. rewrite len_app.
    replace (len r + len p - len p) with (len r) by lia. by rewrite str_take_app.
Qed.

(** *** Reversal and trimming *)

Lemma str_rev_onto_app s acc : str_rev_onto s acc = (str_rev s ++ acc)%string.
Proof.
  unfold str_rev. revert acc. induction s as [|a s IH]; intros acc; cbn [str_rev_onto]; [done|].
  rewrite IH, (IH (String a "")), str_app_assoc. done.
Qed.

Lemma str_rev_cons a s : str_rev (String a s) = (str_rev s ++ String a "")%string.
Proof. unfold str_rev at 1. cbn [str_rev_onto]. apply str_rev_onto_app. Qed.

Lemma str_rev_app s t : str_rev (s ++ t) = (str_rev t ++ str_rev s)%string.
Proof.
  induction s as [|a s IH]; cbn [String.append].
  - unfold str_rev at 3. cbn. by rewrite str_app_nil_r.
  - by rewrite !str_rev_cons, IH, str_app_assoc.
Qed.

Lemma str_rev_involutive s : str_rev (str_rev s) = s.
Proof.
  induction s as [|a s IH]; [done|]. rewrite str_rev_cons, str_rev_app, IH. done.
Qed.

Lemma all_bytes_app p s t : all_bytes p (s ++ t) = all_bytes p s && all_bytes p t.
Proof. induction s; cbn; [done|]. by rewrite IHs, andb_assoc. Qed.

Lemma all_bytes_rev p s : all_bytes p (str_rev s) = all_bytes p s.
Proof.
  induction s as [|a s IH]; [done|]. rewrite str_rev_cons, all_bytes_app, IH. cbn.
  by rewrite andb_true_r, andb_comm.
Qed.

Lemma all_bytes_impl (p q : ascii -> bool) s :
  (forall a, p a = true -> q a = true) -> all_bytes p s = true -> all_bytes q s = true.
Proof. intros H. induction s; cbn; [done|]. rewrite !andb_true_iff. naive_solver. Qed.

(** An ASCII byte that is not white space: it stops both trims. *)
Definition ascii_solid (a : ascii) : bool := is_ascii a && negb (ws1 a).

Lemma ascii_not_lead a n : is_ascii a = true -> 128 <= n -> (code a =? n) = false.
Proof. unfold is_ascii. rewrite Nat.ltb_lt, Nat.eqb_neq. lia. Qed.

Lemma ws2_ascii_l a b : is_ascii a = true -> ws2 a b = false.
Proof. intros H. unfold ws2. by rewrite (ascii_not_lead a) by (done || lia). Qed.

Lemma ws2_ascii_r a b : is_ascii b = true -> ws2 a b = false.
Proof.
  intros H. unfold ws2. rewrite !(ascii_not_lead b) by (done || lia). apply andb_false_r.
Qed.

Lemma ws3_ascii_l a b c : is_ascii a = true -> ws3 a b c = false.
Proof. intros H. unfold ws3. by rewrite !(ascii_not_lead a) by (done || lia). Qed.

Lemma ws3_ascii_r a b c : is_ascii c = true -> ws3 a b c = false.
Proof.
  intros H. unfold ws3. rewrite !(ascii_not_lead c) by (done || lia).
  assert (128 <=? code c = false) as ->.
  { unfold is_ascii in H. apply Nat.ltb_lt in H. apply Nat.leb_gt. lia. }
  rewrite !andb_false_l, !orb_false_l, !andb_false_r. done.
Qed.

Lemma trim_start_solid a r : ascii_solid a = true -> trim_start (String a r) = String a r.
Proof.
  unfold ascii_solid. intros H. bool_hyps. cbn [trim_start]. rewrite H0.
  destruct r as [|b [|c r]]; [done|..]; rewrite ?ws2_ascii_l, ?ws3_ascii_l by done; done.
Qed.

Lemma trim_start_rev_solid a r :
  ascii_solid a = true -> trim_start_rev (String a r) = String a r.
Proof.
  unfold ascii_solid. intros H. bool_hyps. cbn [trim_start_rev]. rewrite H0.
  destruct r as [|b [|c r]]; [done|..]; rewrite ?ws2_ascii_r, ?ws3_ascii_r by done; done.
Qed.

Lemma trim_end_solid r a : ascii_solid a = true -> trim_end (r ++ String a "") = (r ++ String a "")%string.
Proof.
  intros H. unfold trim_end. rewrite str_rev_app. cbn [str_rev str_rev_onto String.append].
  rewrite trim_start_rev_solid by done.
  rewrite str_rev_cons, str_rev_involutive. done.
Qed.

Lemma trim_solid_ends a r b :
  ascii_solid a = true -> ascii_solid b = true ->
  trim (String a (r ++ String b "")) = String a (r ++ String b "").
Proof.
  intros Ha Hb. unfold trim. rewrite trim_start_solid by done.
  by apply (trim_end_solid (String a r)).
Qed.

Lemma str_snoc_cases s : s = "" \/ exists r a, s = (r ++ String a "")%string.
Proof.
  induction s as [|a s [->|(r & b & ->)]]; [by left| |]; right.
  - by exists "", a.
  - by exists (String a r), b.
Qed.

Lemma trim_solid s : all_bytes ascii_solid s = true -> trim s = s.
Proof.
  intros H. destruct s as [|a s]; [done|].
  unfold trim. cbn in H. apply andb_true_iff in H as [Ha Hs].
  rewrite trim_start_solid by done.
  destruct (str_snoc_cases (String a s)) as [->|(r & b & E)]; [done|].
  rewrite E. apply trim_end_solid.
  assert (all_bytes ascii_solid (String a s) = true) as Hall by (cbn; by rewrite Ha, Hs).
  rewrite E, all_bytes_app in Hall. cbn in Hall. bool_hyps. done.
Qed.

(** *** Replacement *)

Lemma replace_aux_skip pat to a r k : replace_aux pat to (String a r) (S k) = replace_aux pat to r k.
Proof. done. Qed.

Lemma replace_aux_hit pat to a r :
  is_prefix pat (String a r) = true ->
  replace_aux pat to (String a r) 0 = (to ++ replace_aux pat to r (len pat - 1))%string.
Proof. intros H. cbn [replace_aux]. by rewrite H. Qed.

Lemma replace_aux_miss pat to a r :
  is_prefix pat (String a r) = false ->
  replace_aux pat to (String a r) 0 = String a (replace_aux pat to r 0).
Proof. intros H. cbn [replace_aux]. by rewrite H. Qed.

(** No occurrence of the first byte of the pattern: nothing is replaced. *)
Lemma replace_absent p pat to s :
  all_bytes (fun a => negb (Ascii.eqb a p)) s = true -> replace s (String p pat) to = s.
Proof.
  unfold replace. induction s as [|a s IH]; intros H; [done|].
  cbn [all_bytes] in H. bool_hyps. apply Ascii.eqb_neq in H.
  rewrite replace_aux_miss; [by rewrite IH|].
  cbn. rewrite Ascii.eqb_sym. destruct (Ascii.eqb_spec a p); [congruence|done].
Qed.

(** *** Slices and scans *)

Lemma slice_from_Ret s i r : slice_from s i = Ret r -> r = str_skip i s /\ i <= len s.
Proof.
  unfold slice_from, is_char_boundary. destruct (byte_at s i) eqn:E.
  - destruct (_ || _); [|done]. intros [= <-]. split; [done|].
    destruct (Nat.le_gt_cases i (len s)) as [|H]; [done|].
    assert (byte_at s i = None) by (apply byte_at_length; lia). congruence.
  - destruct (Nat.eqb_spec i (len s)) as [->|]; [|done]. intros [= <-]. auto.
Qed.

Lemma slice_from_NoFuel s i : slice_from s i <> NoFuel.
Proof. unfold slice_from. by destruct (is_char_boundary s i). Qed.

Lemma slice_to_NoFuel s i : slice_to s i <> NoFuel.
Proof. unfold slice_to. by destruct (is_char_boundary s i). Qed.

Lemma all_bytes_at p s i a : all_bytes p s = true -> byte_at s i = Some a -> p a = true.
Proof.
  revert i; induction s as [|b s IH]; intros [|i]; cbn; try done;
    rewrite andb_true_iff; naive_solver.
Qed.

Lemma is_ascii_not_cont a : is_ascii a = true -> is_cont a = false.
Proof.
  unfold is_ascii, is_cont. rewrite Nat.ltb_lt. intros H.
  apply andb_false_iff. left. apply Nat.leb_gt. lia.
Qed.

Lemma ascii_boundary s i :
  all_bytes is_ascii s = true -> i <= len s -> is_char_boundary s i = true.
Proof.
  intros Ha Hi. unfold is_char_boundary. destruct (byte_at s i) eqn:E.
  - rewrite (is_ascii_not_cont a) by (by eapply all_bytes_at). apply orb_true_r.
  - apply Nat.eqb_eq. apply byte_at_length in E. lia.
Qed.

Lemma slice_to_ascii s i :
  all_bytes is_ascii s = true -> i <= len s -> slice_to s i = Ret (str_take i s).
Proof. intros. unfold slice_to. by rewrite ascii_boundary. Qed.

Lemma slice_from_ascii s i :
  all_bytes is_ascii s = true -> i <= len s -> slice_from s i = Ret (str_skip i s).
Proof. intros. unfold slice_from. by rewrite ascii_boundary. Qed.

Lemma all_bytes_skip p n s : all_bytes p s = true -> all_bytes p (str_skip n s) = true.
Proof.
  revert s; induction n; intros [|a s]; cbn; auto. rewrite andb_true_iff. naive_solver.
Qed.

Fixpoint trim_start_suffix s {struct s} : exists n, trim_start s = str_skip n s /\ n <= len s.
Proof.
  destruct s as [|a r]; [by exists 0|].
  cbn [trim_start]. destruct (ws1 a).
  - destruct (trim_start_suffix r) as (n & E & Hn). exists (S n). split; [done|cbn; lia].
  - destruct r as [|b r2]; [exists 0; split; [done|lia]|]. destruct (ws2 a b).
    + destruct (trim_start_suffix r2) as (n & E & Hn). exists (S (S n)). split; [done|cbn; lia].
    + destruct r2 as [|c r3]; [exists 0; split; [done|lia]|].
      destruct (ws3 a b c); [|exists 0; split; [done|lia]].
      destruct (trim_start_suffix r3) as (n & E & Hn). exists (S (S (S n))).
      split; [done|cbn; lia].
Qed.

Lemma len_trim_start s : len (trim_start s) <= len s.
Proof. destruct (trim_start_suffix s) as (n & -> & _). rewrite len_skip. lia. Qed.

Lemma all_bytes_trim_start p s : all_bytes p s = true -> all_bytes p (trim_start s) = true.
Proof. destruct (trim_start_suffix s) as (n & -> & _). apply all_bytes_skip. Qed.

Fixpoint trim_start_rev_suffix s {struct s} :
  exists n, trim_start_rev s = str_skip n s /\ n <= len s.
Proof.
  destruct s as [|a r]; [by exists 0|].
  cbn [trim_start_rev]. destruct (ws1 a).
  - destruct (trim_start_rev_suffix r) as (n & E & Hn). exists (S n). split; [done|cbn; lia].
  - destruct r as [|b r2]; [exists 0; split; [done|lia]|]. destruct (ws2 b a).
    + destruct (trim_start_rev_suffix r2) as (n & E & Hn). exists (S (S n)).
      split; [done|cbn; lia].
    + destruct r2 as [|c r3]; [exists 0; split; [done|lia]|].
      destruct (ws3 c b a); [|exists 0; split; [done|lia]].
      destruct (trim_start_rev_suffix r3) as (n & E & Hn). exists (S (S (S n))).
      split; [done|cbn; lia].
Qed.

Lemma all_bytes_trim p s : all_bytes p s = true -> all_bytes p (trim s) = true.
Proof.
  intros H. unfold trim, trim_end. rewrite all_bytes_rev.
  destruct (trim_start_rev_suffix (str_rev (trim_start s))) as (n & -> & _).
  apply all_bytes_skip. rewrite all_bytes_rev. by apply all_bytes_trim_start.
Qed.

Lemma find_whitespace_lt s i : find_whitespace s = Some i -> i < len s.
Proof.
  revert i; induction s as [|a s IH]; intros i; cbn [find_whitespace]; [done|].
  destruct (0 <? _); [intros [= <-]; cbn; lia|].
  destruct (find_whitespace s) as [j|]; cbn; [|done]. intros [= <-].
  specialize (IH j eq_refl). lia.
Qed.

Lemma find_eqb_str_in f l :
  match List.find (String.eqb f) l with
  | Some x => x = f /\ str_in f l = true
  | None => str_in f l = false
  end.
Proof.
  unfold str_in. induction l as [|x l IH]; cbn; [done|].
  destruct (String.eqb_spec f x) as [->|]; cbn; [done|]. apply IH.
Qed.

(** ** Decimal numbers *)

Lemma pretty_digit_char d : (d < 10)%N ->
  is_ascii_digit (pretty_N_char d) = true /\ N.of_nat (code (pretty_N_char d) - 48) = d.
Proof.
  intros H. assert (exists k, d = N.of_nat k /\ k < 10) as (k & -> & Hk)
    by (exists (N.to_nat d); lia).
  do 10 (destruct k as [|k]; [by split|]). lia.
Qed.

Lemma u64_digits_pretty_go n : forall s, (n <= u64_max)%N ->
  u64_digits (pretty_N_go n s) 0 = u64_digits s n.
Proof.
  induction (N.lt_wf_0 n) as [n _ IH]; intros s Hn.
  destruct (decide (n = 0)%N) as [->|Hz]; [by rewrite pretty_N_go_0|].
  rewrite pretty_N_go_step by lia.
  assert (n `div` 10 < n)%N by (apply N.div_lt; lia).
  rewrite IH by lia. cbn [u64_digits].
  destruct (pretty_digit_char (n `mod` 10)) as [-> ->]; [by apply N.mod_lt|].
  assert ((n `div` 10 * 10 + n `mod` 10)%N = n) as ->
    by (rewrite N.mul_comm; symmetry; by apply N.div_mod).
  by apply N.leb_le in Hn as ->.
Qed.

Lemma pretty_N_digits (n : N) : all_bytes is_ascii_digit (pretty n) = true /\ is_empty (pretty n) = false.
Proof.
  enough (forall m s, all_bytes is_ascii_digit s = true ->
            all_bytes is_ascii_digit (pretty_N_go m s) = true
            /\ (is_empty s = false \/ m <> 0%N -> is_empty (pretty_N_go m s) = false)) as G.
  { unfold pretty, pretty_N. case_decide as E; [by split|].
    destruct (G n "" eq_refl) as [? Hne]. split; [done|]. by apply Hne; right. }
  intros m. induction (N.lt_wf_0 m) as [m _ IH]; intros s Hs.
  destruct (decide (m = 0)%N) as [->|Hz].
  - rewrite pretty_N_go_0. split; [done|intros [?|?]; done].
  - rewrite pretty_N_go_step by lia.
    destruct (pretty_digit_char (m `mod` 10)) as [Hd _]; [by apply N.mod_lt|].
    destruct (IH (m `div` 10)%N) with (s := String (pretty_N_char (m `mod` 10)) s) as [? ?];
      [apply N.div_lt; lia| |auto]. cbn [all_bytes]. by rewrite Hd, Hs.
Qed.

Lemma parse_u64_pretty (n : N) : (n <= u64_max)%N -> parse_u64 (pretty n) = Some n.
Proof.
  intros Hn. destruct (pretty_N_digits n) as [Hd He].
  assert (strip_prefix (pretty n) "+" = None) as Hp.
  { destruct (pretty n) as [|a r]; [done|]. cbn in Hd. apply andb_true_iff in Hd as [Ha _].
    unfold strip_prefix, starts_with. cbn [is_prefix]. case_match eqn:E; [|done].
    apply andb_true_iff in E as [<-%Ascii.eqb_eq _]. discriminate. }
  unfold parse_u64. rewrite Hp. cbn [default]. rewrite He.
  unfold pretty, pretty_N. case_decide as E; [by subst|].
  by rewrite u64_digits_pretty_go.
Qed.

Lemma u64_digits_bound s : forall acc n, u64_digits s acc = Some n -> (acc <= u64_max)%N -> (n <= u64_max)%N.
Proof.
  induction s as [|a r IH]; intros acc n; cbn [u64_digits]; [by intros [= ->]|].
  destruct (is_ascii_digit a); [|done].
  destruct (N.leb_spec (acc * 10 + N.of_nat (code a - 48)) u64_max); [|done]. eauto.
Qed.

Lemma parse_u64_bound s n : parse_u64 s = Some n -> (n <= u64_max)%N.
Proof.
  unfold parse_u64. case_match; [done|]. intros H'. by eapply u64_digits_bound.
Qed.

Lemma split_byte_aux_app c s t : forall cur,
  list.last (split_byte_aux c (s ++ String c t) cur) = list.last (split_byte_aux c t "").
Proof.
  assert (forall x, split_byte_aux c t x <> []) as Hne.
  { induction t as [|a t IH]; intros x; cbn; [done|]. destruct (Ascii.eqb a c); [done|apply IH]. }
  assert (forall x l, l <> [] -> list.last (x :: l) = list.last (l : list string)) as Hl.
  { intros x [|y l]; done. }
  assert (forall u x, split_byte_aux c u x <> []) as Hne2.
  { induction u as [|a u IH]; intros x; cbn; [done|]. destruct (Ascii.eqb a c); [done|apply IH]. }
  induction s as [|a s IH]; intros cur; cbn.
  - by rewrite Ascii.eqb_refl, Hl.
  - destruct (Ascii.eqb a c); [rewrite Hl by apply Hne2|]; apply IH.
Qed.

Lemma split_byte_aux_none c s : forall cur, all_bytes (fun a => negb (Ascii.eqb a c)) s = true ->
  split_byte_aux c s cur = [(str_rev cur ++ s)%string].
Proof.
  induction s as [|a s IH]; intros cur; cbn; [by rewrite str_app_nil_r|].
  intros [Ha Hs]%andb_true_iff. apply negb_true_iff in Ha as ->. rewrite IH by done.
  by rewrite str_rev_cons, str_app_assoc.
Qed.

Lemma rsplit_next_app c s t : all_bytes (fun a => negb (Ascii.eqb a c)) t = true ->
  rsplit_next (s ++ String c t) c = t.
Proof.
  intros Ht. unfold rsplit_next, split_byte.
  by rewrite split_byte_aux_app, split_byte_aux_none by done.
Qed.

(** ** Counting characters *)

Lemma chars_count_app s t : chars_count (s ++ t) = chars_count s + chars_count t.
Proof. induction s as [|a s IH]; [done|]. cbn. rewrite IH. by destruct (is_cont a). Qed.

Lemma chars_count_take n s : chars_count (chars_take n s) = Nat.min n (chars_count s).
Proof.
  revert n. induction s as [|a s IH]; intros n; [by rewrite Nat.min_0_r|]. cbn [chars_take chars_count].
  destruct (is_cont a) eqn:E; [cbn; by rewrite E, IH|]. destruct n as [|n]; [done|]. cbn. rewrite E, IH. lia.
Qed.
