(* ===== verification/SortedList.v ===== *)
(** * Sorting and deduplicating lists (Rust's [sort_by], [sort_by_key] and [dedup])

    The standard library's sorts are stable; any stable sort by a total preorder returns
    the same list, so insertion sort stands for them.  [dedup] drops an element equal to
    the one kept before it.  The orders used are those of numbers, of strings by bytes,
    and of lists and pairs lexicographically. *)
From S2P Require Import Prelude.
From stdpp Require Import list sorting.

Section Sort.
Context {A : Type} (le : A -> A -> bool).

(** Inserts [x] in front of the first element that is not smaller: stable when elements
    are inserted from the right. *)
Fixpoint insert_by (x : A) (l : list A) : list A :=
  match l with
  | [] => [x]
  | y :: r => if le x y then x :: l else y :: insert_by x r
  end.

Definition sort_by (l : list A) : list A := foldr insert_by [] l.

Definition sorted (l : list A) : Prop := StronglySorted (fun x y => le x y = true) l.

Lemma insert_by_Permutation x l : insert_by x l ≡ₚ x :: l.
Proof.
  induction l as [|y r IH]; cbn; [done|]. destruct (le x y); [done|].
  rewrite IH. apply Permutation_swap.
Qed.

Lemma sort_by_Permutation l : sort_by l ≡ₚ l.
Proof. induction l as [|x l IH]; cbn; [done|]. by rewrite insert_by_Permutation, IH. Qed.

Lemma elem_of_sort_by x l : x ∈ sort_by l <-> x ∈ l.
Proof. by rewrite sort_by_Permutation. Qed.

Hypothesis le_total : forall x y, le x y = true \/ le y x = true.
Hypothesis le_trans : forall x y z, le x y = true -> le y z = true -> le x z = true.

Lemma insert_by_sorted x l : sorted l -> sorted (insert_by x l).
Proof.
  induction 1 as [|y r Hr IH Hall]; cbn; [repeat constructor|].
  destruct (le x y) eqn:E.
  - constructor; [by constructor|]. constructor; [done|].
    eapply Forall_impl; [exact Hall|]. intros z. by apply le_trans.
  - constructor; [done|]. rewrite insert_by_Permutation. constructor; [|done].
    destruct (le_total x y); [congruence|done].
Qed.

Lemma sort_by_sorted l : sorted (sort_by l).
Proof. induction l; cbn; [constructor|by apply insert_by_sorted]. Qed.

(** Dropping elements before or after sorting makes no difference. *)
Lemma insert_by_filter (p : A -> bool) x l :
  sorted l ->
  List.filter p (insert_by x l) = if p x then insert_by x (List.filter p l) else List.filter p l.
Proof.
  induction 1 as [|y r Hr IH Hall]; cbn; [by destruct (p x)|].
  destruct (le x y) eqn:E; cbn.
  - destruct (p x) eqn:Ex, (p y) eqn:Ey; cbn; try done; [by rewrite E|].
    destruct (List.filter p r) as [|z q] eqn:Eq; [done|]. cbn.
    assert (le x z = true) as ->; [|done].
    apply le_trans with y; [done|]. rewrite Forall_forall in Hall. apply Hall.
    assert (z ∈ List.filter p r) as Hz by (rewrite Eq; left).
    rewrite list_elem_of_In, filter_In, <- list_elem_of_In in Hz. apply Hz.
  - rewrite IH. destruct (p x) eqn:Ex, (p y) eqn:Ey; cbn; try done. by rewrite E.
Qed.

Lemma sort_by_filter (p : A -> bool) l : List.filter p (sort_by l) = sort_by (List.filter p l).
Proof.
  induction l as [|x l IH]; [done|].
  change (sort_by (x :: l)) with (insert_by x (sort_by l)). cbn [List.filter].
  rewrite insert_by_filter by apply sort_by_sorted. rewrite IH. by destruct (p x).
Qed.

(** Sorting is stable: elements that tie with [x] keep their order. *)
Definition tie (x y : A) : bool := le x y && le y x.

Lemma sort_by_sorted_id l : sorted l -> sort_by l = l.
Proof.
  induction 1 as [|x r Hr IH Hall]; [done|].
  change (sort_by (x :: r)) with (insert_by x (sort_by r)). rewrite IH.
  destruct Hall as [|y r Hy]; cbn; [done|]. by rewrite Hy.
Qed.

Lemma sort_by_stable x l : List.filter (tie x) (sort_by l) = List.filter (tie x) l.
Proof.
  rewrite sort_by_filter. apply sort_by_sorted_id.
  induction l as [|y l IH]; cbn; [constructor|]. destruct (tie x y) eqn:E; [|done].
  constructor; [done|]. apply Forall_forall. intros z Hz.
  rewrite list_elem_of_In, filter_In in Hz. destruct Hz as [_ Hz].
  apply andb_true_iff in E as [E1 E2], Hz as [Hz1 Hz2]. by apply le_trans with x.
Qed.

(** Permutations of elements that never tie sort to the same list. *)
Lemma sorted_unique l k :
  sorted l -> sorted k -> l ≡ₚ k ->
  (forall x y, x ∈ l -> y ∈ l -> le x y = true -> le y x = true -> x = y) -> l = k.
Proof.
  intros Hl. revert k. induction Hl as [|x r Hr IH Hall]; intros k Hk HP Hanti.
  - by apply Permutation_nil_l in HP.
  - destruct Hk as [|y q Hq Hyq]; [by apply Permutation_nil_r in HP|].
    assert (x = y) as ->.
    { assert (x ∈ y :: q) as Hx by (rewrite <- HP; left).
      assert (y ∈ x :: r) as Hy by (rewrite HP; left).
      apply Hanti; [left|done| |].
      - apply elem_of_cons in Hy as [->|Hy]; [by destruct (le_total x x)|].
        rewrite Forall_forall in Hall. by apply Hall.
      - apply elem_of_cons in Hx as [->|Hx]; [by destruct (le_total y y)|].
        rewrite Forall_forall in Hyq. by apply Hyq. }
    f_equal. apply IH; [done|by apply Permutation_cons_inv in HP|].
    intros a b Ha Hb. apply Hanti; by right.
Qed.

Lemma sort_by_unique l k :
  l ≡ₚ k -> (forall x y, x ∈ l -> y ∈ l -> le x y = true -> le y x = true -> x = y) ->
  sort_by l = sort_by k.
Proof.
  intros HP Hanti. apply sorted_unique; [apply sort_by_sorted|apply sort_by_sorted| |].
  { by rewrite (sort_by_Permutation l), (sort_by_Permutation k). }
  intros x y. rewrite !elem_of_sort_by. apply Hanti.
Qed.

End Sort.

(** ** [dedup] *)

Section Dedup.
Context {A : Type} `{EqDecision A}.

Fixpoint dedup_from (x : A) (l : list A) : list A :=
  match l with
  | [] => [x]
  | y :: r => if bool_decide (x = y) then dedup_from x r else x :: dedup_from y r
  end.

Definition dedup (l : list A) : list A :=
  match l with [] => [] | x :: r => dedup_from x r end.

Lemma elem_of_dedup_from z l : forall x, z ∈ dedup_from x l <-> z = x \/ z ∈ l.
Proof.
  induction l as [|y r IH]; intros x; cbn.
  { split; [intros ->%list_elem_of_singleton; by left|].
    intros [->|Hz]; [left|by apply elem_of_nil in Hz]. }
  rewrite elem_of_cons. case_bool_decide as E; rewrite ?elem_of_cons, IH; [subst y|]; tauto.
Qed.

Lemma elem_of_dedup z l : z ∈ dedup l <-> z ∈ l.
Proof. destruct l as [|x r]; cbn; [done|]. by rewrite elem_of_dedup_from, elem_of_cons. Qed.

Lemma dedup_from_sorted (le : A -> A -> bool) l :
  (forall x y, le x y = true -> le y x = true -> x = y) ->
  forall x, sorted le (x :: l) -> sorted le (dedup_from x l) /\ NoDup (dedup_from x l).
Proof.
  intros Hanti. induction l as [|y r IH]; intros x Hs; cbn.
  - split; [done|apply NoDup_singleton].
  - apply StronglySorted_inv in Hs as [Hyr Hall]. apply Forall_cons in Hall as [Hxy Hxr].
    apply StronglySorted_inv in Hyr as Hyr'. destruct Hyr' as [Hr Hyr'].
    case_bool_decide as E.
    + subst y. apply IH. by constructor.
    + destruct (IH y Hyr) as [Hs' Hn]. split.
      * constructor; [done|]. apply Forall_forall. intros z.
        rewrite elem_of_dedup_from. rewrite Forall_forall in Hxr. intros [->|Hz]; auto.
      * apply NoDup_cons. split; [|done]. rewrite elem_of_dedup_from. intros [?|Hx]; [done|].
        apply E, Hanti; [done|]. rewrite Forall_forall in Hyr'. auto.
Qed.

(** Sorting and then deduplicating lists every element once, in order. *)
Lemma sort_dedup_spec (le : A -> A -> bool) l :
  (forall x y, le x y = true \/ le y x = true) ->
  (forall x y z, le x y = true -> le y z = true -> le x z = true) ->
  (forall x y, le x y = true -> le y x = true -> x = y) ->
  sorted le (dedup (sort_by le l)) /\ NoDup (dedup (sort_by le l))
  /\ forall z, z ∈ dedup (sort_by le l) <-> z ∈ l.
Proof.
  intros Ht Htr Ha. pose proof (sort_by_sorted le Ht Htr l) as Hs. split_and!.
  - destruct (sort_by le l); cbn; [constructor|]. by apply dedup_from_sorted.
  - destruct (sort_by le l); cbn; [constructor|]. by apply (dedup_from_sorted le).
  - intros z. by rewrite elem_of_dedup, elem_of_sort_by.
Qed.

End Dedup.

(** ** Orders *)

(** A total order given by its three-way comparison. *)
Class Compare (A : Type) := {
  cmp : A -> A -> comparison;
  cmp_eq x y : cmp x y = Eq <-> x = y;
  cmp_antisym x y : cmp y x = CompOpp (cmp x y);
  cmp_lt_trans x y z : cmp x y = Lt -> cmp y z = Lt -> cmp x z = Lt
}.

Definition leb_of {A} `{Compare A} (x y : A) : bool :=
  match cmp x y with Gt => false | _ => true end.

Section Orders.
Context {A : Type} `{Compare A}.

Lemma leb_of_total (x y : A) : leb_of x y = true \/ leb_of y x = true.
Proof. unfold leb_of. rewrite (cmp_antisym x y). destruct (cmp x y); auto. Qed.

Lemma leb_of_antisym (x y : A) : leb_of x y = true -> leb_of y x = true -> x = y.
Proof.
  unfold leb_of. rewrite (cmp_antisym x y). destruct (cmp x y) eqn:E; try done.
  intros _ _. by apply cmp_eq.
Qed.

Lemma leb_of_trans (x y z : A) : leb_of x y = true -> leb_of y z = true -> leb_of x z = true.
Proof.
  unfold leb_of. destruct (cmp x y) eqn:E1; [| |done].
  - by apply cmp_eq in E1 as ->.
  - destruct (cmp y z) eqn:E2; [| |done].
    + apply cmp_eq in E2 as <-. by rewrite E1.
    + by rewrite (cmp_lt_trans x y z).
Qed.

End Orders.

#[export] Instance N_compare : Compare N.
Proof.
  refine {| cmp := N.compare |}; intros *;
    [apply N.compare_eq_iff|apply N.compare_antisym|rewrite !N.compare_lt_iff; lia].
Defined.

#[export] Instance ascii_compare : Compare ascii.
Proof.
  refine {| cmp := fun a b => N.compare (N_of_ascii a) (N_of_ascii b) |}; intros *.
  - rewrite N.compare_eq_iff. split; [|by intros ->].
    intros E. by rewrite <- (ascii_N_embedding x), E, ascii_N_embedding.
  - apply N.compare_antisym.
  - rewrite !N.compare_lt_iff. lia.
Defined.

Section Lexicographic.
Context {A : Type} `{Compare A}.

Fixpoint lex (x y : list A) : comparison :=
  match x, y with
  | [], [] => Eq
  | [], _ => Lt
  | _, [] => Gt
  | a :: x, b :: y => match cmp a b with Eq => lex x y | c => c end
  end.

#[export] Instance list_compare : Compare (list A).
Proof.
  refine {| cmp := lex |}.
  - intros x. induction x as [|a x IH]; intros [|b y]; cbn; try done.
    destruct (cmp a b) eqn:E.
    + apply cmp_eq in E as ->. rewrite IH. split; [by intros ->|by intros [= ->]].
    + split; [done|]. intros [= -> ->]. assert (cmp b b = Eq) by (by apply cmp_eq). congruence.
    + split; [done|]. intros [= -> ->]. assert (cmp b b = Eq) by (by apply cmp_eq). congruence.
  - intros x. induction x as [|a x IH]; intros [|b y]; cbn; try done.
    rewrite (cmp_antisym a b). destruct (cmp a b); cbn; auto.
  - intros x. induction x as [|a x IH]; intros [|b y] [|c z]; cbn; try done.
    destruct (cmp a b) eqn:E1; [apply cmp_eq in E1 as ->| |done].
    + destruct (cmp b c); [apply IH|done|done].
    + destruct (cmp b c) eqn:E2; [apply cmp_eq in E2 as <-; by rewrite E1| |done].
      by rewrite (cmp_lt_trans a b c).
Defined.

#[export] Instance prod_compare {B} `{Compare B} : Compare (A * B).
Proof.
  refine {| cmp := fun p q => match cmp p.1 q.1 with Eq => cmp p.2 q.2 | c => c end |}.
  - intros [a b] [a' b']; cbn. destruct (cmp a a') eqn:E.
    + apply cmp_eq in E as ->. rewrite cmp_eq. naive_solver.
    + split; [done|]. intros [= -> ->]. assert (cmp a' a' = Eq) by (by apply cmp_eq). congruence.
    + split; [done|]. intros [= -> ->]. assert (cmp a' a' = Eq) by (by apply cmp_eq). congruence.
  - intros [a b] [a' b']; cbn. rewrite (cmp_antisym a a'). destruct (cmp a a'); cbn; auto using cmp_antisym.
  - intros [a b] [a' b'] [a'' b'']; cbn.
    destruct (cmp a a') eqn:E1; [apply cmp_eq in E1 as ->| |done].
    + destruct (cmp a' a''); [apply cmp_lt_trans|done|done].
    + destruct (cmp a' a'') eqn:E2; [apply cmp_eq in E2 as <-; by rewrite E1| |done].
      by rewrite (cmp_lt_trans a a' a'').
Defined.

End Lexicographic.

(** [str] compares by its bytes. *)
#[export] Instance string_compare : Compare string.
Proof.
  refine {| cmp := fun s t => lex (list_ascii_of_string s) (list_ascii_of_string t) |}.
  - intros x y. change (cmp (list_ascii_of_string x) (list_ascii_of_string y) = Eq <-> x = y).
    rewrite cmp_eq. split; [|by intros ->].
    intros E. by rewrite <- (string_of_list_ascii_of_string x), E, string_of_list_ascii_of_string.
  - intros x y. exact (cmp_antisym (list_ascii_of_string x) (list_ascii_of_string y)).
  - intros x y z. exact (cmp_lt_trans (list_ascii_of_string x) (list_ascii_of_string y) (list_ascii_of_string z)).
Defined.
