(* ===== verification/Json.v ===== *)
(** * The JSON library the program calls

    [serde_json] is a dependency, not part of the repository: its values and the
    operations the modelled code calls are the fields of one class, and what the
    code relies on is stated as the laws of [SerdeJsonLaws], each a documented
    behaviour of the crate. *)
From S2P Require Import Prelude.

Class SerdeJson := {
  Value : Type;
  (** [PartialEq for Value] *)
  Value_eq_dec :: EqDecision Value;
  (** [serde_json::from_str::<Value>(text).ok()] *)
  from_str : string -> option Value;
  (** [matches!(value, Value::Object(_))] *)
  is_object : Value -> bool;
  (** [Value::get] with a string key: [None] unless the value is an object that
      has the key *)
  get : Value -> string -> option Value;
  (** [Value::as_str] and [Value::as_u64] *)
  as_str : Value -> option string;
  as_u64 : Value -> option N;
  (** [value[key] = field] on an object *)
  set_field : Value -> string -> Value -> Value;
  (** [object.remove(key)] on an object *)
  remove_field : Value -> string -> Value;
  (** [Value::from(u64)] and [Value::Array] *)
  of_u64 : N -> Value;
  of_array : list Value -> Value
}.

Class SerdeJsonLaws `{SerdeJson} := {
  get_set_eq v k x : is_object v = true -> get (set_field v k x) k = Some x;
  get_set_ne v k k' x : is_object v = true -> k <> k' -> get (set_field v k x) k' = get v k';
  is_object_set v k x : is_object v = true -> is_object (set_field v k x) = true;
  get_remove_eq v k : is_object v = true -> get (remove_field v k) k = None;
  get_remove_ne v k k' : is_object v = true -> k <> k' -> get (remove_field v k) k' = get v k';
  is_object_remove v k : is_object v = true -> is_object (remove_field v k) = true;
  as_u64_of_u64 n : as_u64 (of_u64 n) = Some n
}.
