(* ===== verification/JsonModel.v ===== *)
(** * A concrete model of the JSON interface

    A value is a finite tree; an object is a node whose children alternate keys
    and fields.  It satisfies [SerdeJsonLaws], so the theorems that assume the
    laws are not vacuous, and the witnesses evaluate on it.  Text is not parsed:
    [from_str] reads every text as "not JSON". *)
From S2P Require Import Prelude Json.
From stdpp Require Import countable.

Abbreviation tree := (gen_tree (N + string)).

Definition t_num (n : N) : tree := GenLeaf (inl n).
Definition t_str (s : string) : tree := GenLeaf (inr s).
Definition t_arr (l : list tree) : tree := GenNode 0 l.
Definition t_key (k : string) : tree := GenLeaf (inr k).

Fixpoint flatten_fields (l : list (string * tree)) : list tree :=
  match l with [] => [] | (k, v) :: r => t_key k :: v :: flatten_fields r end.
Definition t_obj (l : list (string * tree)) : tree := GenNode 1 (flatten_fields l).

Fixpoint fields_get (l : list tree) (k : string) : option tree :=
  match l with
  | key :: v :: r => if bool_decide (key = t_key k) then Some v else fields_get r k
  | _ => None
  end.

Fixpoint fields_remove (l : list tree) (k : string) : list tree :=
  match l with
  | key :: v :: r =>
      if bool_decide (key = t_key k) then fields_remove r k else key :: v :: fields_remove r k
  | _ => []
  end.

Definition t_is_object (v : tree) : bool := match v with GenNode 1 _ => true | _ => false end.
Definition t_get (v : tree) (k : string) : option tree :=
  match v with GenNode 1 l => fields_get l k | _ => None end.
Definition t_remove (v : tree) (k : string) : tree :=
  match v with GenNode 1 l => GenNode 1 (fields_remove l k) | _ => v end.
Definition t_set (v : tree) (k : string) (x : tree) : tree :=
  match v with GenNode 1 l => GenNode 1 (t_key k :: x :: fields_remove l k) | _ => v end.

#[export] Instance tree_json : SerdeJson := {|
  Value := tree;
  from_str := fun _ => None;
  is_object := t_is_object;
  get := t_get;
  as_str := fun v => match v with GenLeaf (inr s) => Some s | _ => None end;
  as_u64 := fun v => match v with GenLeaf (inl n) => Some n | _ => None end;
  set_field := t_set;
  remove_field := t_remove;
  of_u64 := t_num;
  of_array := t_arr
|}.

Fixpoint fields_remove_get l k k' {struct l} :
  fields_get (fields_remove l k) k' =
  if bool_decide (k = k') then None else fields_get l k'.
Proof.
  destruct l as [|key [|v r]]; [by case_bool_decide..|]. cbn.
  specialize (fields_remove_get r k k').
  destruct (decide (key = t_key k)) as [->|E1].
  1: rewrite (bool_decide_eq_true_2 (t_key k = t_key k)) by done.
  2: rewrite (bool_decide_eq_false_2 (key = t_key k)) by done.
  all: cbn; rewrite fields_remove_get.
  - destruct (decide (k = k')) as [->|Hne].
    + by rewrite !bool_decide_eq_true_2.
    + rewrite !(bool_decide_eq_false_2 (k = k')) by done.
      rewrite bool_decide_eq_false_2; [done|]. unfold t_key. congruence.
  - destruct (decide (k = k')) as [->|Hne].
    + rewrite (bool_decide_eq_false_2 (key = t_key k')) by done. done.
    + by rewrite !(bool_decide_eq_false_2 (k = k')) by done.
Qed.

#[export] Instance tree_json_laws : SerdeJsonLaws.
Proof.
  split; cbn; try done; intros v; destruct v as [|[|[|?]] ?]; cbn; intros; try done.
  - by rewrite bool_decide_eq_true_2.
  - rewrite bool_decide_eq_false_2 by (unfold t_key; congruence).
    by rewrite fields_remove_get, bool_decide_eq_false_2.
  - by rewrite fields_remove_get, bool_decide_eq_true_2.
  - by rewrite fields_remove_get, bool_decide_eq_false_2.
Qed.
