(* ===== verification/ToolNames.v ===== *)
(** * Tool names (runtime/src/tool_names.rs)

    The alias table and the canonical spelling of a tool name. *)
From S2P Require Import Prelude RustStr.

Definition TOOL_ALIASES : list (string * string) :=
  [("bash", "bash");
   ("read", "read_file");
   ("write", "write_file");
   ("edit", "edit_file");
   ("glob", "glob_search");
   ("grep", "grep_search");
   ("sendmessage", "send");
   ("send_message", "send");
   ("agent", "agent_spawn")].

Definition normalize_tool_name (value : string) : string :=
  to_ascii_lowercase (replace (trim value) "-" "_").

Fixpoint first_alias (normalized : string) (aliases : list (string * string)) : option string :=
  match aliases with
  | [] => None
  | (alias, canonical) :: rest =>
      if String.eqb normalized alias then Some canonical else first_alias normalized rest
  end.

Definition canonicalize_tool_name (name : string) : string :=
  match first_alias (normalize_tool_name name) TOOL_ALIASES with
  | Some canonical => canonical
  | None => name
  end.

Definition tool_aliases : list (string * string) := TOOL_ALIASES.
