(* ===== verification/Permissions.v ===== *)
(** * Permission policy (runtime/src/permissions.rs)

    The permission modes, the rule language ([PermissionRule::parse],
    [PermissionRule::matches]), the policy and its evaluation, and the two ways
    a caller authorises a tool call.  The JSON reader is the [SerdeJson]
    interface; a prompter is any pair of decision functions. *)
From S2P Require Import Prelude RustStr Json JsonModel ToolNames.

(** ** Data *)

Inductive PermissionMode :=
| ReadOnly | WorkspaceWrite | DangerFullAccess | ModePrompt | ModeAllow.

#[export] Instance PermissionMode_eq_dec : EqDecision PermissionMode.
Proof. solve_decision. Defined.

(** The derived [Ord]: declaration order. *)
Definition mode_rank (m : PermissionMode) : nat :=
  match m with
  | ReadOnly => 0 | WorkspaceWrite => 1 | DangerFullAccess => 2 | ModePrompt => 3 | ModeAllow => 4
  end.
Definition mode_ge (a b : PermissionMode) : bool := mode_rank b <=? mode_rank a.

Definition mode_as_str (m : PermissionMode) : string :=
  match m with
  | ReadOnly => "read-only"
  | WorkspaceWrite => "workspace-write"
  | DangerFullAccess => "danger-full-access"
  | ModePrompt => "prompt"
  | ModeAllow => "allow"
  end.

Inductive PermissionOverride := OverrideAllow | OverrideDeny | OverrideAsk.

Record PermissionContext := {
  override_decision : option PermissionOverride;
  override_reason : option string
}.
Definition default_context : PermissionContext :=
  {| override_decision := None; override_reason := None |}.

Record PermissionRequest := {
  req_tool_name : string;
  req_input : string;
  req_current_mode : PermissionMode;
  req_required_mode : PermissionMode;
  req_reason : option string
}.

Inductive PermissionPromptDecision :=
| DecisionAllow
| DecisionDeny (reason : string).

(** An owned reply future: awaiting it runs it. *)
Definition PromptReply (T : Type) : Type := unit -> T.
Definition ready {T} (x : T) : PromptReply T := fun _ => x.
Definition await {T} (r : PromptReply T) : T := r tt.

(** The trait: [begin_decision] has a default body in terms of [decide]. *)
Record PermissionPrompter := {
  decide_prompt : PermissionRequest -> PermissionPromptDecision;
  begin_decision : PermissionRequest -> PromptReply PermissionPromptDecision
}.
Definition default_prompter (decide : PermissionRequest -> PermissionPromptDecision) :
  PermissionPrompter :=
  {| decide_prompt := decide; begin_decision := fun request => ready (decide request) |}.

(** [PermissionPromptSink]: both entry points go through the owned route. *)
Definition prompt_sink (request : PermissionRequest -> PromptReply PermissionPromptDecision) :
  PermissionPrompter :=
  {| decide_prompt := fun r => await (request r); begin_decision := request |}.

Inductive PermissionOutcome :=
| OutcomeAllow
| OutcomeDeny (reason : string).

Inductive PermissionEvaluation :=
| EvalAllow
| EvalDeny (reason : string)
| EvalPrompt (request : PermissionRequest).

Definition evaluation_prompt (tool_name input : string) (current required : PermissionMode)
    (reason : option string) : PermissionEvaluation :=
  EvalPrompt {| req_tool_name := tool_name; req_input := input;
                req_current_mode := current; req_required_mode := required;
                req_reason := reason |}.

Inductive PermissionRuleMatcher :=
| MatchAny
| MatchExact (expected : string)
| MatchPrefix (prefix : string).

Record PermissionRule := {
  rule_raw : string;
  rule_tool_name : string;
  rule_matcher : PermissionRuleMatcher
}.

(** [RuntimePermissionRuleConfig] (runtime/src/config.rs). *)
Record RuntimePermissionRuleConfig := {
  cfg_allow : list string;
  cfg_deny : list string;
  cfg_ask : list string
}.

Record PermissionPolicy := {
  active_mode : PermissionMode;
  tool_requirements : gmap string PermissionMode;
  allow_rules : list PermissionRule;
  memory_allow_rules : list PermissionRule;
  deny_rules : list PermissionRule;
  ask_rules : list PermissionRule
}.

(** ** The rule language *)

Definition backslash : ascii := "\"%char.
Definition open_paren : ascii := "("%char.
Definition close_paren : ascii := ")"%char.

(** The scan over [char_indices], with the running index and the flag. *)
Fixpoint find_first_loop (needle : ascii) (chars : list ascii) (idx : nat) (escaped : bool) :
  option nat :=
  match chars with
  | [] => None
  | ch :: rest =>
      if Ascii.eqb ch backslash then find_first_loop needle rest (S idx) (negb escaped)
      else if Ascii.eqb ch needle && negb escaped then Some idx
      else find_first_loop needle rest (S idx) false
  end.
Definition find_first_unescaped (value : string) (needle : ascii) : option nat :=
  find_first_loop needle (list_ascii_of_string value) 0 false.

(** Backslashes directly before a position; [before] is [chars[..pos]] reversed. *)
Fixpoint count_backslashes (before : list ascii) : nat :=
  match before with
  | c :: r => if Ascii.eqb c backslash then S (count_backslashes r) else 0
  | [] => 0
  end.

(** The scan from the end; [rev_chars] is [chars[..=pos]] reversed. *)
Fixpoint find_last_loop (needle : ascii) (rev_chars : list ascii) : option nat :=
  match rev_chars with
  | [] => None
  | ch :: before =>
      if negb (Ascii.eqb ch needle) then find_last_loop needle before
      else if Nat.even (count_backslashes before) then Some (length before)
      else find_last_loop needle before
  end.
Definition find_last_unescaped (value : string) (needle : ascii) : option nat :=
  find_last_loop needle (rev (list_ascii_of_string value)).

Definition unescape_rule_content (content : string) : string :=
  replace (replace (replace content "\(" "(") "\)" ")") "\\" "\".

Definition parse_rule_matcher (content : string) : PermissionRuleMatcher :=
  let unescaped := unescape_rule_content (trim content) in
  if is_empty unescaped || String.eqb unescaped "*" then MatchAny
  else match strip_suffix unescaped ":*" with
       | Some prefix => MatchPrefix prefix
       | None => MatchExact unescaped
       end.

Definition any_rule (trimmed : string) : PermissionRule :=
  {| rule_raw := trimmed; rule_tool_name := trimmed; rule_matcher := MatchAny |}.

Definition parse_rule (raw : string) : PermissionRule :=
  let trimmed := trim raw in
  match find_first_unescaped trimmed open_paren, find_last_unescaped trimmed close_paren with
  | Some open, Some close =>
      if (close =? len trimmed - 1) && (open <? close) then
        let tool_name := trim (str_take open trimmed) in
        let content := str_skip (S open) (str_take close trimmed) in
        if negb (is_empty tool_name) then
          {| rule_raw := trimmed; rule_tool_name := tool_name;
             rule_matcher := parse_rule_matcher content |}
        else any_rule trimmed
      else any_rule trimmed
  | _, _ => any_rule trimmed
  end.

Definition subject_keys : list string :=
  ["command"; "path"; "file_path"; "filePath"; "notebook_path"; "notebookPath"; "url";
   "pattern"; "code"; "message"].

Section Rules.
Context {J : SerdeJson}.

(** The first of the keys whose value is a string. *)
Fixpoint first_string_field (object : Value) (keys : list string) : option string :=
  match keys with
  | [] => None
  | key :: rest =>
      match get object key ≫= as_str with
      | Some value => Some value
      | None => first_string_field object rest
      end
  end.

Definition extract_permission_subject (input : string) : option string :=
  let fallback := if negb (is_empty (trim input)) then Some input else None in
  match from_str input with
  | Some parsed =>
      if is_object parsed then
        match first_string_field parsed subject_keys with
        | Some value => Some value
        | None => fallback
        end
      else fallback
  | None => fallback
  end.

Definition rule_matches (rule : PermissionRule) (tool_name input : string) : bool :=
  if negb (String.eqb (rule_tool_name rule) tool_name) then false
  else match rule_matcher rule with
       | MatchAny => true
       | MatchExact expected =>
           map_or false (fun candidate => String.eqb candidate expected)
             (extract_permission_subject input)
       | MatchPrefix prefix =>
           map_or false (fun candidate => starts_with candidate prefix)
             (extract_permission_subject input)
       end.

Definition find_matching_rule (rules : list PermissionRule) (tool_name input : string) :
  option PermissionRule :=
  List.find (fun rule => rule_matches rule tool_name input) rules.
End Rules.

(** ** The policy *)

Definition policy_new (mode : PermissionMode) : PermissionPolicy :=
  {| active_mode := mode; tool_requirements := ∅; allow_rules := []; memory_allow_rules := [];
     deny_rules := []; ask_rules := [] |}.

Definition with_tool_requirement (p : PermissionPolicy) (tool_name : string)
    (required_mode : PermissionMode) : PermissionPolicy :=
  {| active_mode := active_mode p;
     tool_requirements := <[tool_name := required_mode]> (tool_requirements p);
     allow_rules := allow_rules p; memory_allow_rules := memory_allow_rules p;
     deny_rules := deny_rules p; ask_rules := ask_rules p |}.

Definition with_permission_rules (p : PermissionPolicy) (config : RuntimePermissionRuleConfig) :
  PermissionPolicy :=
  {| active_mode := active_mode p; tool_requirements := tool_requirements p;
     allow_rules := map parse_rule (cfg_allow config);
     memory_allow_rules := memory_allow_rules p;
     deny_rules := map parse_rule (cfg_deny config);
     ask_rules := map parse_rule (cfg_ask config) |}.

(** [Path::join] with the empty path (Unix): a separator is added unless the path
    is empty or ends with one. *)
Definition path_join_empty (dir : string) : string :=
  if is_empty dir || ends_with dir "/" then dir else (dir ++ "/")%string.

Definition memory_rule (prefix tool : string) : PermissionRule :=
  {| rule_raw := (tool ++ "(" ++ prefix ++ ":*)")%string;
     rule_tool_name := tool; rule_matcher := MatchPrefix prefix |}.

Definition memory_rules_for (memory_dir : string) : list PermissionRule :=
  let portable := (trim_end_matches memory_dir "/"%char ++ "/")%string in
  let native := path_join_empty memory_dir in
  let native := if is_empty native then portable else native in
  let prefixes := native :: (if String.eqb native portable then [] else [portable]) in
  flat_map (fun prefix => map (memory_rule prefix) ["write_file"; "edit_file"]) prefixes.

Definition with_memory_allow_rules (p : PermissionPolicy) (memory_dir : string) :
  PermissionPolicy :=
  {| active_mode := active_mode p; tool_requirements := tool_requirements p;
     allow_rules := allow_rules p;
     memory_allow_rules := memory_allow_rules p ++ memory_rules_for memory_dir;
     deny_rules := deny_rules p; ask_rules := ask_rules p |}.

Definition set_active_mode (p : PermissionPolicy) (mode : PermissionMode) : PermissionPolicy :=
  {| active_mode := mode; tool_requirements := tool_requirements p;
     allow_rules := allow_rules p; memory_allow_rules := memory_allow_rules p;
     deny_rules := deny_rules p; ask_rules := ask_rules p |}.

Definition required_mode_for (p : PermissionPolicy) (tool_name : string) : PermissionMode :=
  match tool_requirements p !! tool_name with
  | Some m => m
  | None => default DangerFullAccess (tool_requirements p !! canonicalize_tool_name tool_name)
  end.

Definition resolve_permission (request : PermissionRequest)
    (decision : option PermissionPromptDecision) : PermissionOutcome :=
  match decision with
  | Some DecisionAllow => OutcomeAllow
  | Some (DecisionDeny reason) => OutcomeDeny reason
  | None =>
      OutcomeDeny
        (default ("tool '" ++ req_tool_name request ++
                  "' requires approval to run while mode is " ++
                  mode_as_str (req_current_mode request))%string
           (req_reason request))
  end.

Section Policy.
Context {J : SerdeJson}.

Definition matching_allow_rule (p : PermissionPolicy) (tool_name input : string) :
  option PermissionRule :=
  match find_matching_rule (allow_rules p) tool_name input with
  | Some rule => Some rule
  | None =>
      if bool_decide (active_mode p = ReadOnly) then None
      else find_matching_rule (memory_allow_rules p) tool_name input
  end.

Definition mode_permits (current required : PermissionMode) : bool :=
  bool_decide (current = ModeAllow) ||
  (negb (bool_decide (current = ModePrompt)) && mode_ge current required).

Definition evaluate (p : PermissionPolicy) (tool_name input : string)
    (context : PermissionContext) : PermissionEvaluation :=
  match find_matching_rule (deny_rules p) tool_name input with
  | Some rule =>
      EvalDeny ("Permission to use " ++ tool_name ++ " has been denied by rule '" ++
                rule_raw rule ++ "'")%string
  | None =>
    let current_mode := active_mode p in
    let required_mode := required_mode_for p tool_name in
    let ask_rule := find_matching_rule (ask_rules p) tool_name input in
    let allow_rule := matching_allow_rule p tool_name input in
    let prompt reason :=
      evaluation_prompt tool_name input current_mode required_mode (Some reason) in
    let ask_reason (rule : PermissionRule) :=
      ("tool '" ++ tool_name ++ "' requires approval due to ask rule '" ++
       rule_raw rule ++ "'")%string in
    let rest :=
      match ask_rule with
      | Some rule => prompt (ask_reason rule)
      | None =>
          if bool_decide (is_Some allow_rule) || mode_permits current_mode required_mode
          then EvalAllow
          else if bool_decide (current_mode = ModePrompt) ||
                  (bool_decide (current_mode = WorkspaceWrite) &&
                   bool_decide (required_mode = DangerFullAccess))
          then prompt ("tool '" ++ tool_name ++ "' requires approval to escalate from " ++
                       mode_as_str current_mode ++ " to " ++ mode_as_str required_mode)%string
          else EvalDeny ("tool '" ++ tool_name ++ "' requires " ++ mode_as_str required_mode ++
                         " permission; current mode is " ++ mode_as_str current_mode)%string
      end in
    match override_decision context with
    | Some OverrideDeny =>
        EvalDeny (default ("tool '" ++ tool_name ++ "' denied by hook")%string
                    (override_reason context))
    | Some OverrideAsk =>
        prompt (default ("tool '" ++ tool_name ++
                         "' requires approval due to hook guidance")%string
                  (override_reason context))
    | Some OverrideAllow =>
        match ask_rule with
        | Some rule => prompt (ask_reason rule)
        | None =>
            if bool_decide (is_Some allow_rule) || mode_permits current_mode required_mode
            then EvalAllow
            else rest
        end
    | None => rest
    end
  end.

Definition authorize_with_context (p : PermissionPolicy) (tool_name input : string)
    (context : PermissionContext) (prompter : option PermissionPrompter) : PermissionOutcome :=
  match evaluate p tool_name input context with
  | EvalAllow => OutcomeAllow
  | EvalDeny reason => OutcomeDeny reason
  | EvalPrompt request =>
      resolve_permission request ((fun pr => decide_prompt pr request) <$> prompter)
  end.

Definition authorize (p : PermissionPolicy) (tool_name input : string)
    (prompter : option PermissionPrompter) : PermissionOutcome :=
  authorize_with_context p tool_name input default_context prompter.

Definition begin_authorization (p : PermissionPolicy) (tool_name input : string)
    (context : PermissionContext) (prompter : option PermissionPrompter) :
  PromptReply PermissionOutcome :=
  match evaluate p tool_name input context with
  | EvalAllow => ready OutcomeAllow
  | EvalDeny reason => ready (OutcomeDeny reason)
  | EvalPrompt request =>
      let reply := (fun pr => begin_decision pr request) <$> prompter in
      fun _ =>
        let decision := match reply with Some r => Some (await r) | None => None end in
        resolve_permission request decision
  end.
End Policy.

(** ** Reference notions for the statements *)

(** An occurrence that an even number of backslashes precedes. *)
Definition unescaped_at (needle : ascii) (chars : list ascii) (i : nat) : Prop :=
  chars !! i = Some needle /\ Nat.even (count_backslashes (rev (take i chars))) = true.

Definition first_unescaped (needle : ascii) (chars : list ascii) (o : option nat) : Prop :=
  match o with
  | Some i => unescaped_at needle chars i /\ forall j, unescaped_at needle chars j -> i <= j
  | None => forall j, ~ unescaped_at needle chars j
  end.

Definition last_unescaped (needle : ascii) (chars : list ascii) (o : option nat) : Prop :=
  match o with
  | Some i => unescaped_at needle chars i /\ forall j, unescaped_at needle chars j -> j <= i
  | None => forall j, ~ unescaped_at needle chars j
  end.

(** ** Lemmas: the unescaped scans *)

Lemma count_backslashes_snoc before ch :
  count_backslashes (rev (before ++ [ch])) =
  if Ascii.eqb ch backslash then S (count_backslashes (rev before)) else 0.
Proof. by rewrite rev_app_distr. Qed.

Lemma unescaped_at_app needle before ch rest :
  unescaped_at needle (before ++ ch :: rest) (length before) <->
  ch = needle /\ Nat.even (count_backslashes (rev before)) = true.
Proof.
  unfold unescaped_at. rewrite list_lookup_middle by done.
  rewrite take_app_length. naive_solver.
Qed.

Lemma cons_middle_assoc {A} (l : list A) x r : l ++ x :: r = (l ++ [x]) ++ r.
Proof. by rewrite <- app_assoc. Qed.

Lemma find_first_loop_spec needle rest : needle <> backslash -> forall before,
  match find_first_loop needle rest (length before)
          (Nat.odd (count_backslashes (rev before))) with
  | Some i => unescaped_at needle (before ++ rest) i /\ length before <= i /\
      forall j, unescaped_at needle (before ++ rest) j -> length before <= j -> i <= j
  | None => forall j, unescaped_at needle (before ++ rest) j -> j < length before
  end.
Proof.
  intros Hn. induction rest as [|ch rest IH]; intros before; cbn [find_first_loop].
  - intros j [Hj _]. rewrite app_nil_r in Hj. by apply lookup_lt_Some in Hj.
  - assert (Hnext : forall P : nat -> Prop,
       (~ unescaped_at needle (before ++ ch :: rest) (length before)) ->
       (forall j, unescaped_at needle (before ++ ch :: rest) j -> S (length before) <= j -> P j) ->
       forall j, unescaped_at needle (before ++ ch :: rest) j -> length before <= j -> P j).
    { intros P Hno H j Hj Hle. destruct (decide (j = length before)) as [->|]; [done|].
      apply H; [done|lia]. }
    specialize (IH (before ++ [ch])). rewrite count_backslashes_snoc, length_app in IH.
    rewrite Nat.add_1_r in IH. rewrite <- cons_middle_assoc in IH.
    assert (Hskip : (~ unescaped_at needle (before ++ ch :: rest) (length before)) ->
      forall b, b = Nat.odd (if Ascii.eqb ch backslash
                             then S (count_backslashes (rev before)) else 0) ->
      match find_first_loop needle rest (S (length before)) b with
      | Some i => unescaped_at needle (before ++ ch :: rest) i /\ length before <= i /\
          forall j, unescaped_at needle (before ++ ch :: rest) j -> length before <= j -> i <= j
      | None => forall j, unescaped_at needle (before ++ ch :: rest) j -> j < length before
      end).
    { intros Hno b ->. destruct (find_first_loop _ _ _ _) as [i|].
      - destruct IH as (Hi & Hle & Hmin). split; [done|]. split; [lia|].
        apply Hnext; [done|]. intros j Hj Hl. by apply Hmin.
      - intros j Hj. specialize (IH j Hj).
        destruct (decide (j = length before)) as [->|]; [done|lia]. }
    rewrite unescaped_at_app in Hskip.
    destruct (Ascii.eqb_spec ch backslash) as [->|Hb].
    + apply Hskip; [naive_solver|]. by rewrite Nat.odd_succ, Nat.negb_odd.
    + destruct (Ascii.eqb_spec ch needle) as [->|Hne]; cbn [andb].
      * destruct (Nat.odd (count_backslashes (rev before))) eqn:Ho; cbn [negb andb].
        -- apply Hskip; [|done]. rewrite <- Nat.negb_odd, Ho. naive_solver.
        -- split; [|split; [done|]].
           ++ apply unescaped_at_app. split; [done|]. by rewrite <- Nat.negb_odd, Ho.
           ++ auto.
      * apply Hskip; [naive_solver|done].
Qed.

Lemma find_last_loop_spec needle before rest :
  match find_last_loop needle (rev before) with
  | Some i => unescaped_at needle (before ++ rest) i /\ i < length before /\
      forall j, unescaped_at needle (before ++ rest) j -> j < length before -> j <= i
  | None => forall j, unescaped_at needle (before ++ rest) j -> length before <= j
  end.
Proof.
  revert rest. induction before as [|ch before IH] using rev_ind; intros rest.
  - cbn. lia.
  - rewrite rev_app_distr. cbn [rev app find_last_loop].
    rewrite <- cons_middle_assoc. rewrite length_app. cbn [length].
    specialize (IH (ch :: rest)).
    assert (Hskip : (~ unescaped_at needle (before ++ ch :: rest) (length before)) ->
      match find_last_loop needle (rev before) with
      | Some i => unescaped_at needle (before ++ ch :: rest) i /\ i < length before + 1 /\
          forall j, unescaped_at needle (before ++ ch :: rest) j -> j < length before + 1 -> j <= i
      | None => forall j, unescaped_at needle (before ++ ch :: rest) j -> length before + 1 <= j
      end).
    { intros Hno. destruct (find_last_loop _ _) as [i|].
      - destruct IH as (Hi & Hlt & Hmax). split; [done|]. split; [lia|].
        intros j Hj Hl. destruct (decide (j = length before)) as [->|]; [done|].
        apply Hmax; [done|lia].
      - intros j Hj. specialize (IH j Hj).
        destruct (decide (j = length before)) as [->|]; [done|lia]. }
    rewrite unescaped_at_app in Hskip.
    destruct (Ascii.eqb_spec ch needle) as [->|Hne]; cbn [negb].
    + destruct (Nat.even (count_backslashes (rev before))) eqn:He.
      * rewrite length_rev. split; [by apply unescaped_at_app|]. split; lia.
      * apply Hskip. naive_solver.
    + apply Hskip. naive_solver.
Qed.

(** ** Lemmas: rendering and parsing a rule *)

(** The text of a rule for [content]: parentheses are escaped. *)
Fixpoint escape_parens (content : string) : string :=
  match content with
  | EmptyString => EmptyString
  | String a r =>
      if Ascii.eqb a open_paren || Ascii.eqb a close_paren
      then String backslash (String a (escape_parens r))
      else String a (escape_parens r)
  end.

(** After the first [replace] only the closing parentheses are escaped. *)
Fixpoint escape_close (content : string) : string :=
  match content with
  | EmptyString => EmptyString
  | String a r =>
      if Ascii.eqb a close_paren then String backslash (String a (escape_close r))
      else String a (escape_close r)
  end.

Definition render_rule (tool content : string) : string :=
  (tool ++ "(" ++ escape_parens content ++ ")")%string.

(** What the matcher of a rule with this (unescaped) content should be. *)
Definition matcher_for (content : string) : PermissionRuleMatcher :=
  if is_empty content || String.eqb content "*" then MatchAny
  else match strip_suffix content ":*" with
       | Some prefix => MatchPrefix prefix
       | None => MatchExact content
       end.

Definition not_backslash (a : ascii) : bool := negb (Ascii.eqb a backslash).
Definition tool_byte (a : ascii) : bool := is_ascii_alphanumeric a || Ascii.eqb a "_".

Lemma tool_byte_cases a :
  tool_byte a = true ->
  ascii_solid a = true /\ Ascii.eqb a backslash = false /\ Ascii.eqb a open_paren = false.
Proof.
  destruct a as [[] [] [] [] [] [] [] []]; vm_compute; intros H;
    solve [discriminate H | repeat split].
Qed.

Lemma no_prefix_backslash a p x :
  not_backslash a = true -> is_prefix (String backslash p) (String a x) = false.
Proof.
  unfold not_backslash. intros H. apply negb_true_iff in H. cbn [is_prefix].
  by rewrite Ascii.eqb_sym, H.
Qed.

Lemma replace_escape_open c :
  all_bytes not_backslash c = true ->
  replace_aux "\(" "(" (escape_parens c) 0 = escape_close c.
Proof.
  induction c as [|a c IH]; intros H; [done|]. cbn [all_bytes] in H. bool_hyps.
  specialize (IH ltac:(done)). cbn [escape_parens escape_close].
  destruct (Ascii.eqb_spec a open_paren) as [->|Ho]; cbn [orb].
  - rewrite replace_aux_hit by done. cbn [String.length Nat.sub].
    rewrite replace_aux_skip, IH. done.
  - destruct (Ascii.eqb_spec a close_paren) as [->|Hc].
    + rewrite replace_aux_miss by done. by rewrite replace_aux_miss, IH by done.
    + by rewrite replace_aux_miss, IH by by apply no_prefix_backslash.
Qed.

Lemma replace_escape_close c :
  all_bytes not_backslash c = true -> replace_aux "\)" ")" (escape_close c) 0 = c.
Proof.
  induction c as [|a c IH]; intros H; [done|]. cbn [all_bytes] in H. bool_hyps.
  specialize (IH ltac:(done)). cbn [escape_close].
  destruct (Ascii.eqb_spec a close_paren) as [->|Hc].
  - rewrite replace_aux_hit by done. cbn [String.length Nat.sub].
    rewrite replace_aux_skip, IH. done.
  - by rewrite replace_aux_miss, IH by by apply no_prefix_backslash.
Qed.

Lemma unescape_escape c :
  all_bytes not_backslash c = true -> unescape_rule_content (escape_parens c) = c.
Proof.
  intros H. unfold unescape_rule_content, replace.
  rewrite replace_escape_open, replace_escape_close by done.
  by apply (replace_absent backslash "\" "\").
Qed.

Lemma list_ascii_app s t :
  list_ascii_of_string (s ++ t) = list_ascii_of_string s ++ list_ascii_of_string t.
Proof. induction s; cbn; [done|]. by rewrite IHs. Qed.

Lemma length_list_ascii s : length (list_ascii_of_string s) = len s.
Proof. induction s; cbn; auto. Qed.

Lemma find_first_loop_tool tool rest idx :
  all_bytes tool_byte tool = true ->
  find_first_loop open_paren (list_ascii_of_string tool ++ open_paren :: rest) idx false =
  Some (idx + len tool).
Proof.
  revert idx. induction tool as [|a tool IH]; intros idx H; cbn.
  - f_equal. lia.
  - cbn in H. bool_hyps. apply tool_byte_cases in H as (_ & -> & Ho).
    rewrite Ho. cbn. rewrite IH by done. f_equal. lia.
Qed.

Lemma count_backslashes_rev_last l :
  list.last l <> Some backslash -> count_backslashes (rev l) = 0.
Proof.
  intros H. destruct (rev l) as [|x r] eqn:E; [done|]. cbn.
  destruct (Ascii.eqb_spec x backslash) as [->|]; [|done]. exfalso. apply H.
  rewrite <- (rev_involutive l), E. cbn. by rewrite last_snoc.
Qed.

Lemma last_escape_parens c l :
  all_bytes not_backslash c = true -> list.last l <> Some backslash ->
  list.last (l ++ list_ascii_of_string (escape_parens c)) <> Some backslash.
Proof.
  revert l. induction c as [|a c IH]; intros l H Hl; cbn [escape_parens].
  - cbn. by rewrite app_nil_r.
  - cbn [all_bytes] in H. bool_hyps. unfold not_backslash in H. apply negb_true_iff in H.
    apply Ascii.eqb_neq in H.
    assert (Hl' : forall l', list.last (l' ++ [a]) <> Some backslash).
    { intros l'. rewrite last_snoc. congruence. }
    destruct (_ || _); cbn [list_ascii_of_string].
    + rewrite (cons_middle_assoc l), cons_middle_assoc. by apply IH.
    + rewrite cons_middle_assoc. by apply IH.
Qed.

Lemma find_last_render tool content :
  all_bytes not_backslash content = true ->
  find_last_unescaped (render_rule tool content) close_paren =
  Some (len tool + 1 + len (escape_parens content)).
Proof.
  intros Hc. unfold find_last_unescaped, render_rule.
  rewrite !list_ascii_app. cbn [list_ascii_of_string app].
  rewrite app_comm_cons, app_assoc, rev_app_distr. cbn [rev app find_last_loop].
  rewrite Ascii.eqb_refl. cbn [negb].
  rewrite cons_middle_assoc, count_backslashes_rev_last.
  - cbn. f_equal. rewrite length_rev, !length_app, !length_list_ascii. cbn. lia.
  - apply last_escape_parens; [done|]. by rewrite last_snoc.
Qed.

Lemma trim_render tool content :
  tool <> "" -> all_bytes tool_byte tool = true ->
  trim (render_rule tool content) = render_rule tool content.
Proof.
  intros Hne Ht. destruct tool as [|a tool]; [done|]. cbn in Ht. bool_hyps.
  unfold render_rule. cbn [String.append].
  replace (tool ++ String "(" (escape_parens content ++ ")"))%string
    with ((tool ++ "(" ++ escape_parens content) ++ ")")%string
    by (rewrite !str_app_assoc; done).
  apply trim_solid_ends; [|done]. by apply tool_byte_cases.
Qed.

Lemma parse_render tool content :
  tool <> "" -> all_bytes tool_byte tool = true ->
  all_bytes not_backslash content = true ->
  trim (escape_parens content) = escape_parens content ->
  parse_rule (render_rule tool content) =
  {| rule_raw := render_rule tool content; rule_tool_name := tool;
     rule_matcher := matcher_for content |}.
Proof.
  intros Hne Ht Hc Hws. unfold parse_rule. rewrite trim_render by done.
  assert (find_first_unescaped (render_rule tool content) open_paren = Some (len tool)) as ->.
  { unfold find_first_unescaped, render_rule. rewrite list_ascii_app.
    by apply find_first_loop_tool. }
  rewrite find_last_render by done.
  assert (len (render_rule tool content) = len tool + (1 + (len (escape_parens content) + 1)))
    as Hl by (unfold render_rule; rewrite !len_app; done).
  rewrite Hl.
  rewrite (proj2 (Nat.eqb_eq _ _)) by lia. rewrite (proj2 (Nat.ltb_lt _ _)) by lia.
  cbn [andb].
  assert (str_take (len tool) (render_rule tool content) = tool) as ->
    by apply str_take_app.
  rewrite (trim_solid tool)
    by (eapply all_bytes_impl; [|exact Ht]; intros; by apply tool_byte_cases).
  assert (is_empty tool = false) as -> by (destruct tool; done). cbn [negb].
  f_equal. unfold parse_rule_matcher, matcher_for.
  assert (str_skip (S (len tool)) (str_take (len tool + 1 + len (escape_parens content))
            (render_rule tool content)) = escape_parens content) as ->.
  { unfold render_rule.
    replace (tool ++ "(" ++ escape_parens content ++ ")")%string
      with (((tool ++ "(") ++ escape_parens content) ++ ")")%string
      by (rewrite !str_app_assoc; done).
    replace (len tool + 1 + len (escape_parens content))
      with (len ((tool ++ "(") ++ escape_parens content)) by (rewrite !len_app; done).
    rewrite str_take_app.
    replace (S (len tool)) with (len (tool ++ "(")) by (rewrite len_app; cbn; lia).
    apply str_skip_app. }
  by rewrite Hws, unescape_escape.
Qed.

(** ** Lemmas: evaluation *)

Section PolicyLemmas.
Context {J : SerdeJson}.

Lemma evaluate_denied p tool input ctx rule :
  find_matching_rule (deny_rules p) tool input = Some rule ->
  evaluate p tool input ctx =
    EvalDeny ("Permission to use " ++ tool ++ " has been denied by rule '" ++
              rule_raw rule ++ "'").
Proof. intros H. unfold evaluate. by rewrite H. Qed.

Lemma evaluate_allow_cases p tool input ctx :
  evaluate p tool input ctx = EvalAllow <->
  find_matching_rule (deny_rules p) tool input = None /\
  find_matching_rule (ask_rules p) tool input = None /\
  override_decision ctx <> Some OverrideDeny /\ override_decision ctx <> Some OverrideAsk /\
  (is_Some (matching_allow_rule p tool input) \/
   mode_permits (active_mode p) (required_mode_for p tool) = true).
Proof.
  unfold evaluate, evaluation_prompt.
  rewrite <- (bool_decide_eq_true (is_Some (matching_allow_rule p tool input))).
  rewrite <- orb_true_iff.
  destruct (find_matching_rule (deny_rules p) tool input); [naive_solver|].
  destruct (find_matching_rule (ask_rules p) tool input).
  - destruct (override_decision ctx) as [[]|]; naive_solver.
  - destruct (_ || mode_permits _ _) eqn:E.
    + destruct (override_decision ctx) as [[]|]; naive_solver.
    + destruct (override_decision ctx) as [[]|]; repeat case_goal; naive_solver.
Qed.

Lemma evaluate_prompt_request p tool input ctx request :
  evaluate p tool input ctx = EvalPrompt request ->
  req_tool_name request = tool /\ req_input request = input /\
  req_current_mode request = active_mode p /\
  req_required_mode request = required_mode_for p tool.
Proof.
  unfold evaluate, evaluation_prompt. repeat case_goal; intros H; simplify_eq; done.
Qed.

Lemma matching_allow_rule_upgrade p tool input m :
  m <> ReadOnly -> is_Some (matching_allow_rule p tool input) ->
  is_Some (matching_allow_rule (set_active_mode p m) tool input).
Proof.
  unfold matching_allow_rule, set_active_mode.
  cbn [allow_rules memory_allow_rules active_mode]. intros Hm H.
  rewrite (bool_decide_eq_false_2 (m = ReadOnly)) by done.
  destruct (find_matching_rule (allow_rules p) tool input); [done|].
  case_bool_decide; [by destruct H|done].
Qed.

Lemma mode_permits_upgrade m1 m2 required :
  mode_ge m2 m1 = true -> m2 <> ModePrompt ->
  mode_permits m1 required = true -> mode_permits m2 required = true.
Proof. destruct m1, m2, required; cbn; done. Qed.
End PolicyLemmas.

(** ** Properties *)

Section Properties.
Context {J : SerdeJson}.

(** C10. A matching deny rule is absolute: whatever the hook override, the
    mode, the allow and ask rules and the prompter, the call is refused and
    the refusal names the first matching deny rule. *)
Theorem deny_rule_is_absolute p tool input ctx prompter rule
    (Hdeny : find_matching_rule (deny_rules p) tool input = Some rule) :
  authorize_with_context p tool input ctx prompter =
    OutcomeDeny ("Permission to use " ++ tool ++ " has been denied by rule '" ++
                 rule_raw rule ++ "'").
Proof. unfold authorize_with_context. by rewrite (evaluate_denied _ _ _ _ _ Hdeny). Qed.

(** Exactly when a call runs without asking anybody: no deny and no ask
    rule matches, no hook denied or asked, and an allow rule (a memory rule
    only outside read-only mode) matches or the mode is [allow] or a
    non-prompt mode at least as strong as the tool requires. *)
Theorem unprompted_allow_iff p tool input ctx :
  evaluate p tool input ctx = EvalAllow <->
  find_matching_rule (deny_rules p) tool input = None /\
  find_matching_rule (ask_rules p) tool input = None /\
  override_decision ctx <> Some OverrideDeny /\ override_decision ctx <> Some OverrideAsk /\
  (is_Some (find_matching_rule (allow_rules p) tool input) \/
   (active_mode p <> ReadOnly /\
    is_Some (find_matching_rule (memory_allow_rules p) tool input)) \/
   active_mode p = ModeAllow \/
   (active_mode p <> ModePrompt /\
    mode_rank (required_mode_for p tool) <= mode_rank (active_mode p))).
Proof.
  rewrite evaluate_allow_cases. unfold mode_permits, mode_ge, matching_allow_rule.
  rewrite orb_true_iff, andb_true_iff, negb_true_iff, bool_decide_eq_true,
    bool_decide_eq_false, Nat.leb_le.
  destruct (find_matching_rule (allow_rules p) tool input); [naive_solver|].
  case_bool_decide; naive_solver.
Qed.

(** No silent escalation: when a call is authorised, either the policy
    allows it unprompted or the prompter was shown a request that carries the
    very tool, input, current mode and required mode, and answered allow.
    Without a prompter only the first is possible. *)
Theorem authorized_needs_policy_or_approval p tool input ctx prompter
    (Hallow : authorize_with_context p tool input ctx prompter = OutcomeAllow) :
  evaluate p tool input ctx = EvalAllow \/
  exists pr request, prompter = Some pr /\ decide_prompt pr request = DecisionAllow /\
    req_tool_name request = tool /\ req_input request = input /\
    req_current_mode request = active_mode p /\
    req_required_mode request = required_mode_for p tool.
Proof.
  unfold authorize_with_context in Hallow.
  destruct (evaluate p tool input ctx) as [|reason|request] eqn:E; [by left|done|right].
  destruct prompter as [pr|]; cbn in Hallow; [|done].
  destruct (decide_prompt pr request) eqn:Ed; cbn in Hallow; [|done].
  exists pr, request. by apply evaluate_prompt_request in E.
Qed.

(** The awaited form agrees with the blocking one for every prompter whose
    owned reply, when awaited, is its decision. *)
Theorem begin_authorization_refines p tool input ctx prompter
    (Hreply : forall pr request, prompter = Some pr ->
       await (begin_decision pr request) = decide_prompt pr request) :
  await (begin_authorization p tool input ctx prompter) =
  authorize_with_context p tool input ctx prompter.
Proof.
  unfold begin_authorization, authorize_with_context.
  destruct (evaluate p tool input ctx) as [| |request]; [done..|].
  destruct prompter as [pr|]; [|done]. cbn. by rewrite <- (Hreply pr request eq_refl).
Qed.

(** Raising the mode (to anything but [prompt]) never takes away a call
    that ran unprompted. *)
Theorem mode_upgrade_keeps_allowed p tool input ctx m
    (Hge : mode_ge m (active_mode p) = true) (Hm : m <> ModePrompt)
    (Hallow : evaluate p tool input ctx = EvalAllow) :
  evaluate (set_active_mode p m) tool input ctx = EvalAllow.
Proof.
  apply evaluate_allow_cases in Hallow as (? & ? & ? & ? & Hor).
  apply evaluate_allow_cases. do 4 (split; [done|]).
  destruct Hor as [Hr|Hp].
  - destruct (decide (m = ReadOnly)) as [->|]; [|left; by apply matching_allow_rule_upgrade].
    left. destruct p as [[] ? ? ? ? ?]; cbn in *; done.
  - right. by eapply mode_permits_upgrade.
Qed.
End Properties.

(** The two scans of the rule parser agree on what "unescaped" means: the
    forward scan, which toggles a flag, returns the first and the backward scan,
    which counts backslashes, the last occurrence preceded by an even number of
    backslashes. *)
Theorem unescaped_scans_correct value needle (Hn : needle <> backslash) :
  first_unescaped needle (list_ascii_of_string value) (find_first_unescaped value needle) /\
  last_unescaped needle (list_ascii_of_string value) (find_last_unescaped value needle).
Proof.
  unfold find_first_unescaped, find_last_unescaped, first_unescaped, last_unescaped.
  split.
  - pose proof (find_first_loop_spec needle (list_ascii_of_string value) Hn []) as H.
    cbn [rev length app count_backslashes Nat.odd] in H.
    destruct (find_first_loop _ _ _ _) as [i|].
    + destruct H as (Hu & _ & Hmin). split; [done|]. intros j Hj. apply Hmin; [done|lia].
    + intros j Hj. apply H in Hj. lia.
  - pose proof (find_last_loop_spec needle (list_ascii_of_string value) []) as H.
    rewrite app_nil_r in H.
    assert (forall j, unescaped_at needle (list_ascii_of_string value) j ->
                      j < length (list_ascii_of_string value)) as Hlt
      by (intros j [Hj _]; by apply lookup_lt_Some in Hj).
    destruct (find_last_loop _ _) as [i|].
    + destruct H as (Hu & _ & Hmax). auto.
    + intros j Hj. specialize (H j Hj). specialize (Hlt j Hj). lia.
Qed.

(** Rule text round trip: a rule written as [tool(content)] with the
    parentheses of the content escaped parses back to that tool and to the
    matcher its content stands for (any, prefix for a [:*] suffix, else exact). *)
Theorem rule_text_roundtrip tool content
    (Htool : tool <> "" /\ all_bytes tool_byte tool = true)
    (Hcontent : all_bytes not_backslash content = true)
    (Htrim : trim (escape_parens content) = escape_parens content) :
  parse_rule (render_rule tool content) =
  {| rule_raw := render_rule tool content; rule_tool_name := tool;
     rule_matcher := matcher_for content |}.
Proof. destruct Htool. by apply parse_render. Qed.

(** ** Witnesses *)

Definition yes_prompter : PermissionPrompter := default_prompter (fun _ => DecisionAllow).
Definition hook_allows : PermissionContext :=
  {| override_decision := Some OverrideAllow; override_reason := None |}.
Definition sample_policy : PermissionPolicy :=
  with_tool_requirement
    (with_permission_rules (policy_new WorkspaceWrite)
       {| cfg_allow := ["bash(git status)"]; cfg_deny := ["bash(rm -rf:*)"];
          cfg_ask := ["bash(git push:*)"] |})
    "bash" DangerFullAccess.

Lemma deny_rule_is_absolute_witness :
  authorize_with_context sample_policy "bash" "rm -rf /srv" hook_allows (Some yes_prompter) =
  OutcomeDeny "Permission to use bash has been denied by rule 'bash(rm -rf:*)'".
Proof.
  apply (deny_rule_is_absolute sample_policy "bash" "rm -rf /srv" hook_allows
           (Some yes_prompter) (parse_rule "bash(rm -rf:*)")).
  vm_compute. reflexivity.
Defined.

Lemma authorized_needs_policy_or_approval_witness :
  evaluate sample_policy "bash" "git push" default_context = EvalAllow \/
  exists pr request, Some yes_prompter = Some pr /\ decide_prompt pr request = DecisionAllow /\
    req_tool_name request = "bash" /\ req_input request = "git push" /\
    req_current_mode request = WorkspaceWrite /\
    req_required_mode request = required_mode_for sample_policy "bash".
Proof.
  apply (authorized_needs_policy_or_approval sample_policy "bash" "git push" default_context
           (Some yes_prompter)).
  vm_compute. reflexivity.
Defined.

Lemma begin_authorization_refines_witness :
  await (begin_authorization sample_policy "bash" "git push" default_context
           (Some (prompt_sink (fun _ => ready DecisionAllow)))) =
  authorize_with_context sample_policy "bash" "git push" default_context
    (Some (prompt_sink (fun _ => ready DecisionAllow))).
Proof.
  apply begin_authorization_refines. intros pr request [= <-]. reflexivity.
Defined.

Lemma mode_upgrade_keeps_allowed_witness :
  evaluate (set_active_mode sample_policy DangerFullAccess) "bash" "git status" default_context
  = EvalAllow.
Proof.
  apply (mode_upgrade_keeps_allowed sample_policy); [reflexivity|discriminate|].
  vm_compute. reflexivity.
Defined.

Lemma unescaped_scans_correct_witness :
  first_unescaped open_paren (list_ascii_of_string "bash(echo \(x\))") (Some 4) /\
  last_unescaped open_paren (list_ascii_of_string "bash(echo \(x\))") (Some 4).
Proof. apply (unescaped_scans_correct "bash(echo \(x\))" open_paren). discriminate. Defined.

Lemma rule_text_roundtrip_witness :
  parse_rule "bash(print\(1\):*)" =
  {| rule_raw := "bash(print\(1\):*)"; rule_tool_name := "bash";
     rule_matcher := MatchPrefix "print(1)" |}.
Proof.
  apply (rule_text_roundtrip "bash" "print(1):*");
    [split; [discriminate|reflexivity] | reflexivity | vm_compute; reflexivity].
Defined.
