(* ===== verification/PermissionEnforcer.v ===== *)
(** * Permission enforcement (runtime/src/permission_enforcer.rs)

    The prompter-less gate in front of tool execution: the policy check, the
    check with a dynamically required mode, the workspace boundary and the
    read-only command heuristic. *)
From S2P Require Import Prelude RustStr Json JsonModel ToolNames Permissions.

Inductive EnforcementResult :=
| Allowed
| Denied (tool active_mode required_mode reason : string).

#[export] Instance EnforcementResult_eq_dec : EqDecision EnforcementResult.
Proof. solve_decision. Defined.

Record PermissionEnforcer := { policy : PermissionPolicy }.

Definition enforcer_new (p : PermissionPolicy) : PermissionEnforcer := {| policy := p |}.

Definition enforcer_active_mode (e : PermissionEnforcer) : PermissionMode :=
  active_mode (policy e).

(** ** The policy checks *)

Section Check.
Context {J : SerdeJson}.

Definition check (e : PermissionEnforcer) (tool_name input : string) : EnforcementResult :=
  if bool_decide (active_mode (policy e) = ModePrompt) then Allowed
  else
    match authorize (policy e) tool_name input None with
    | OutcomeAllow => Allowed
    | OutcomeDeny reason =>
        Denied tool_name (mode_as_str (active_mode (policy e)))
          (mode_as_str (required_mode_for (policy e) tool_name)) reason
    end.

Definition is_allowed (e : PermissionEnforcer) (tool_name input : string) : bool :=
  match check e tool_name input with Allowed => true | _ => false end.
End Check.

Definition check_with_required_mode (e : PermissionEnforcer) (tool_name input : string)
    (required_mode : PermissionMode) : EnforcementResult :=
  if bool_decide (active_mode (policy e) = ModePrompt) then Allowed
  else
    let mode := active_mode (policy e) in
    if mode_ge mode required_mode then Allowed
    else
      Denied tool_name (mode_as_str mode) (mode_as_str required_mode)
        ("'" ++ tool_name ++ "' with input '" ++ input ++ "' requires '" ++
         mode_as_str required_mode ++ "' permission, but current mode is '" ++
         mode_as_str mode ++ "'").

(** ** File writes *)

Definition is_within_workspace (path workspace_root : string) : bool :=
  let normalized :=
    if starts_with path "/" then path else (workspace_root ++ "/" ++ path)%string in
  let root :=
    if ends_with workspace_root "/" then workspace_root else (workspace_root ++ "/")%string in
  starts_with normalized root ||
  String.eqb normalized (trim_end_matches workspace_root "/"%char).

Definition check_file_write (e : PermissionEnforcer) (path workspace_root : string) :
  EnforcementResult :=
  let mode := active_mode (policy e) in
  match mode with
  | ReadOnly =>
      Denied "write_file" (mode_as_str mode) (mode_as_str WorkspaceWrite)
        ("file writes are not allowed in '" ++ mode_as_str mode ++ "' mode")
  | WorkspaceWrite =>
      if is_within_workspace path workspace_root then Allowed
      else
        Denied "write_file" (mode_as_str mode) (mode_as_str DangerFullAccess)
          ("path '" ++ path ++ "' is outside workspace root '" ++ workspace_root ++ "'")
  | ModeAllow | DangerFullAccess => Allowed
  | ModePrompt =>
      Denied "write_file" (mode_as_str mode) (mode_as_str WorkspaceWrite)
        "file write requires confirmation in prompt mode"
  end.

(** ** Shell commands *)

Definition read_only_tokens : list string :=
  ["cat"; "head"; "tail"; "less"; "more"; "wc"; "ls"; "find"; "grep"; "rg"; "awk"; "sed";
   "echo"; "printf"; "which"; "where"; "whoami"; "pwd"; "env"; "printenv"; "date"; "cal";
   "df"; "du"; "free"; "uptime"; "uname"; "file"; "stat"; "diff"; "sort"; "uniq"; "tr"; "cut";
   "paste"; "tee"; "xargs"; "test"; "true"; "false"; "type"; "readlink"; "realpath";
   "basename"; "dirname"; "sha256sum"; "md5sum"; "b3sum"; "xxd"; "hexdump"; "od"; "strings";
   "tree"; "jq"; "yq"; "python3"; "python"; "node"; "ruby"; "cargo"; "rustc"; "git"; "gh"].

(** [rsplit('/').next()]: the part after the last separator. *)
Definition last_component (s : string) : string :=
  default "" (list.last (split_byte s "/"%char)).

Definition is_read_only_command (command : string) : bool :=
  let first_token := last_component (default "" (head (split_whitespace command))) in
  str_in first_token read_only_tokens &&
  negb (contains command "-i ") && negb (contains command "--in-place") &&
  negb (contains command " > ") && negb (contains command " >> ").

Definition check_bash (e : PermissionEnforcer) (command : string) : EnforcementResult :=
  let mode := active_mode (policy e) in
  match mode with
  | ReadOnly =>
      if is_read_only_command command then Allowed
      else
        Denied "bash" (mode_as_str mode) (mode_as_str WorkspaceWrite)
          ("command may modify state; not allowed in '" ++ mode_as_str mode ++ "' mode")
  | ModePrompt =>
      Denied "bash" (mode_as_str mode) (mode_as_str DangerFullAccess)
        "bash requires confirmation in prompt mode"
  | _ => Allowed
  end.

(** ** Lemmas *)

(** The absolute form of a path, and a directory's prefix, as the check builds them. *)
Definition absolute_path (path root : string) : string :=
  if starts_with path "/" then path else (root ++ "/" ++ path)%string.
Definition directory_prefix (root : string) : string :=
  if ends_with root "/" then root else (root ++ "/")%string.

Lemma directory_prefix_slash root : exists r, directory_prefix root = (r ++ "/")%string.
Proof.
  unfold directory_prefix. destruct (ends_with root "/") eqn:E; [|by exists root].
  by apply ends_with_iff in E.
Qed.

(** ** Properties *)

(** Outside prompt mode the enforcer lets a call through exactly when the
    policy allows it without asking, and a refusal reports the session's mode and
    the mode the tool requires; in prompt mode it always defers. *)
Theorem enforcer_check_agrees_with_policy `{SerdeJson} e tool input :
  (enforcer_active_mode e = ModePrompt -> check e tool input = Allowed) /\
  (enforcer_active_mode e <> ModePrompt ->
     (check e tool input = Allowed <->
        evaluate (policy e) tool input default_context = EvalAllow) /\
     (check e tool input = Allowed \/ exists reason,
        check e tool input =
          Denied tool (mode_as_str (enforcer_active_mode e))
            (mode_as_str (required_mode_for (policy e) tool)) reason)).
Proof.
  unfold check, enforcer_active_mode, authorize, authorize_with_context. split.
  - intros ->. by rewrite bool_decide_eq_true_2.
  - intros Hm. rewrite bool_decide_eq_false_2 by done.
    destruct (evaluate _ _ _ _) as [| |request]; cbn; naive_solver.
Qed.

(** Workspace boundary: in workspace-write mode a write passes exactly when
    its absolute path continues the root directory (the root followed by a
    separator, so a sibling that shares the root's name as a prefix is outside)
    or is the root itself; read-only and prompt mode refuse every write. *)
Theorem file_write_boundary e path root :
  match enforcer_active_mode e with
  | ReadOnly | ModePrompt => check_file_write e path root <> Allowed
  | WorkspaceWrite =>
      check_file_write e path root = Allowed <->
      (exists rest, absolute_path path root = (directory_prefix root ++ rest)%string) \/
      absolute_path path root = trim_end_matches root "/"%char
  | DangerFullAccess | ModeAllow => check_file_write e path root = Allowed
  end.
Proof.
  unfold enforcer_active_mode, check_file_write.
  destruct (active_mode (policy e)); try done.
  change (is_within_workspace path root) with
    (starts_with (absolute_path path root) (directory_prefix root) ||
     String.eqb (absolute_path path root) (trim_end_matches root "/"%char)).
  rewrite <- starts_with_iff, <- String.eqb_eq.
  destruct (starts_with _ _), (String.eqb _ _); cbn; naive_solver.
Qed.

(** The boundary is textual: with [..] in the path, a write outside the
    workspace is let through; and in read-only mode [tee], which writes its
    operands, passes the read-only heuristic. *)
Theorem boundary_checks_are_textual :
  check_file_write (enforcer_new (policy_new WorkspaceWrite)) "/workspace/../etc/passwd" "/workspace"
    = Allowed /\
  check_file_write (enforcer_new (policy_new WorkspaceWrite)) "/workspacex/f" "/workspace"
    <> Allowed /\
  check_bash (enforcer_new (policy_new ReadOnly)) "tee out.txt" = Allowed.
Proof. vm_compute. repeat split; discriminate. Qed.
