(* ===== verification/BashValidation.v ===== *)
(** * Bash command validation (runtime/src/bash_validation.rs)

    The read-only, mode, sed, destructive and path checks, the command
    classifier and the pipeline that runs them.  [extract_first_command] loops
    over environment assignments and [validate_read_only] recurses into the
    command behind [sudo]; both are run with fuel, and slices of the command may
    panic, so these functions return [run]. *)
From S2P Require Import Prelude RustStr Permissions.

(** ** Data *)

Inductive ValidationResult :=
| VAllow
| VBlock (reason : string)
| VWarn (message : string).

#[export] Instance ValidationResult_eq_dec : EqDecision ValidationResult.
Proof. solve_decision. Defined.

Inductive CommandIntent :=
| IReadOnly | IWrite | IDestructive | INetwork | IProcessManagement | IPackageManagement
| ISystemAdmin | IUnknown.

#[export] Instance CommandIntent_eq_dec : EqDecision CommandIntent.
Proof. solve_decision. Defined.

Definition WRITE_COMMANDS : list string :=
  ["cp"; "mv"; "rm"; "mkdir"; "rmdir"; "touch"; "chmod"; "chown"; "chgrp"; "ln"; "install";
   "tee"; "truncate"; "shred"; "mkfifo"; "mknod"; "dd"].

Definition STATE_MODIFYING_COMMANDS : list string :=
  ["apt"; "apt-get"; "yum"; "dnf"; "pacman"; "brew"; "pip"; "pip3"; "npm"; "yarn"; "pnpm";
   "bun"; "cargo"; "gem"; "go"; "rustup"; "docker"; "systemctl"; "service"; "mount"; "umount";
   "kill"; "pkill"; "killall"; "reboot"; "shutdown"; "halt"; "poweroff"; "useradd"; "userdel";
   "usermod"; "groupadd"; "groupdel"; "crontab"; "at"].

Definition WRITE_REDIRECTIONS : list string := [">"; ">>"; ">&"].

Definition GIT_READ_ONLY_SUBCOMMANDS : list string :=
  ["status"; "log"; "diff"; "show"; "branch"; "tag"; "stash"; "remote"; "fetch"; "ls-files";
   "ls-tree"; "cat-file"; "rev-parse"; "describe"; "shortlog"; "blame"; "bisect"; "reflog";
   "config"].

Definition DESTRUCTIVE_PATTERNS : list (string * string) :=
  [("rm -rf /", "Recursive forced deletion at root — this will destroy the system");
   ("rm -rf ~", "Recursive forced deletion of home directory");
   ("rm -rf *", "Recursive forced deletion of all files in current directory");
   ("rm -rf .", "Recursive forced deletion of current directory");
   ("mkfs", "Filesystem creation will destroy existing data on the device");
   ("dd if=", "Direct disk write — can overwrite partitions or devices");
   ("> /dev/sd", "Writing to raw disk device");
   ("chmod -R 777", "Recursively setting world-writable permissions");
   ("chmod -R 000", "Recursively removing all permissions");
   (":(){ :|:& };:", "Fork bomb — will crash the system")].

Definition ALWAYS_DESTRUCTIVE_COMMANDS : list string := ["shred"; "wipefs"].

Definition SEMANTIC_READ_ONLY_COMMANDS : list string :=
  ["ls"; "cat"; "head"; "tail"; "less"; "more"; "wc"; "sort"; "uniq"; "grep"; "egrep"; "fgrep";
   "find"; "which"; "whereis"; "whatis"; "man"; "info"; "file"; "stat"; "du"; "df"; "free";
   "uptime"; "uname"; "hostname"; "whoami"; "id"; "groups"; "env"; "printenv"; "echo"; "printf";
   "date"; "cal"; "bc"; "expr"; "test"; "true"; "false"; "pwd"; "tree"; "diff"; "cmp"; "md5sum";
   "sha256sum"; "sha1sum"; "xxd"; "od"; "hexdump"; "strings"; "readlink"; "realpath";
   "basename"; "dirname"; "seq"; "yes"; "tput"; "column"; "jq"; "yq"; "xargs"; "tr"; "cut";
   "paste"; "awk"; "sed"].

Definition NETWORK_COMMANDS : list string :=
  ["curl"; "wget"; "ssh"; "scp"; "rsync"; "ftp"; "sftp"; "nc"; "ncat"; "telnet"; "ping";
   "traceroute"; "dig"; "nslookup"; "host"; "whois"; "ifconfig"; "ip"; "netstat"; "ss"; "nmap"].

Definition PROCESS_COMMANDS : list string :=
  ["kill"; "pkill"; "killall"; "ps"; "top"; "htop"; "bg"; "fg"; "jobs"; "nohup"; "disown";
   "wait"; "nice"; "renice"].

Definition PACKAGE_COMMANDS : list string :=
  ["apt"; "apt-get"; "yum"; "dnf"; "pacman"; "brew"; "pip"; "pip3"; "npm"; "yarn"; "pnpm"; "bun";
   "cargo"; "gem"; "go"; "rustup"; "snap"; "flatpak"].

Definition SYSTEM_ADMIN_COMMANDS : list string :=
  ["sudo"; "su"; "chroot"; "mount"; "umount"; "fdisk"; "parted"; "lsblk"; "blkid"; "systemctl";
   "service"; "journalctl"; "dmesg"; "modprobe"; "insmod"; "rmmod"; "iptables"; "ufw";
   "firewall-cmd"; "sysctl"; "crontab"; "at"; "useradd"; "userdel"; "usermod"; "groupadd";
   "groupdel"; "passwd"; "visudo"].

Definition system_paths : list string :=
  ["/etc/"; "/usr/"; "/var/"; "/boot/"; "/sys/"; "/proc/"; "/dev/"; "/sbin/"; "/lib/"; "/opt/"].

(** ** Helpers: the first command *)

Definition double_quote : ascii := ascii_of_nat 34.
Definition single_quote : ascii := ascii_of_nat 39.

(** The inner loop after the closing quote: offset of the next white space. *)
Fixpoint skip_to_ws (s : string) (i : nat) : option nat :=
  match s with
  | EmptyString => None
  | String a r => if is_ascii_whitespace a then Some i else skip_to_ws r (S i)
  end.

(** The loop over a quoted value; [prev] is the byte at [i - 1]. *)
Fixpoint find_quote_end (quote prev : ascii) (s : string) (i : nat) : option nat :=
  match s with
  | EmptyString => None
  | String a r =>
      if Ascii.eqb a quote && negb (Ascii.eqb prev backslash) then skip_to_ws r (S i)
      else find_quote_end quote a r (S i)
  end.

Definition find_end_of_value (s : string) : option nat :=
  match trim_start s with
  | EmptyString => None
  | String first r =>
      if Ascii.eqb first double_quote || Ascii.eqb first single_quote
      then find_quote_end first first r 1
      else find_whitespace (String first r)
  end.

Definition env_name_byte (a : ascii) : bool := is_ascii_alphanumeric a || Ascii.eqb a "_".

(** The loop that skips [KEY=value] assignments.  [Ret None] is the early return
    of an empty command, [Ret (Some r)] leaves the loop with [r] remaining. *)
Fixpoint skip_assignments (fuel : nat) (remaining : string) : run (option string) :=
  match fuel with
  | 0 => NoFuel
  | S fuel' =>
      let next := trim_start remaining in
      match find_byte next (Ascii.eqb "=") with
      | Some eq_pos =>
          before_eq ← slice_to next eq_pos;
          if negb (is_empty before_eq) && all_bytes env_name_byte before_eq then
            after_eq ← slice_from next (eq_pos + 1);
            match find_end_of_value after_eq with
            | Some space =>
                rest ← slice_from after_eq space;
                skip_assignments fuel' rest
            | None => mret None
            end
          else mret (Some remaining)
      | None => mret (Some remaining)
      end
  end.

Definition extract_first_command (command : string) : run string :=
  let trimmed := trim command in
  r ← skip_assignments (S (len trimmed)) trimmed;
  mret match r with
       | None => ""
       | Some remaining => default "" (head (split_whitespace remaining))
       end.

(** The first word after [sudo] that is not a flag. *)
Fixpoint after_sudo (parts : list string) : option string :=
  match parts with
  | [] => None
  | p :: rest =>
      if String.eqb p "sudo" then List.find (fun q => negb (starts_with q "-")) rest
      else after_sudo rest
  end.

Definition extract_sudo_inner (command : string) : run string :=
  match after_sudo (split_whitespace command) with
  | Some part => slice_from command (default 0 (find_str command part))
  | None => mret ""
  end.

(** ** Read-only validation *)

Definition git_subcommand (command : string) : option string :=
  List.find (fun p => negb (starts_with p "-")) (drop 1 (split_whitespace command)).

Definition validate_git_read_only (command : string) : ValidationResult :=
  match git_subcommand command with
  | Some sub =>
      if str_in sub GIT_READ_ONLY_SUBCOMMANDS then VAllow
      else VBlock ("Git subcommand '" ++ sub ++
                   "' modifies repository state and is not allowed in read-only mode")
  | None => VAllow
  end.

Fixpoint validate_read_only (fuel : nat) (command : string) (mode : PermissionMode) :
  run ValidationResult :=
  match fuel with
  | 0 => NoFuel
  | S fuel' =>
      if negb (bool_decide (mode = ReadOnly)) then mret VAllow else
      first_command ← extract_first_command command;
      match List.find (String.eqb first_command) WRITE_COMMANDS with
      | Some write_cmd =>
          mret (VBlock ("Command '" ++ write_cmd ++
                        "' modifies the filesystem and is not allowed in read-only mode"))
      | None =>
      match List.find (String.eqb first_command) STATE_MODIFYING_COMMANDS with
      | Some state_cmd =>
          mret (VBlock ("Command '" ++ state_cmd ++
                        "' modifies system state and is not allowed in read-only mode"))
      | None =>
      inner_result ←
        (if String.eqb first_command "sudo" then
           inner ← extract_sudo_inner command;
           if is_empty inner then mret VAllow else validate_read_only fuel' inner mode
         else mret VAllow);
      if negb (bool_decide (inner_result = VAllow)) then mret inner_result else
      match List.find (contains command) WRITE_REDIRECTIONS with
      | Some redir =>
          mret (VBlock ("Command contains write redirection '" ++ redir ++
                        "' which is not allowed in read-only mode"))
      | None =>
          if String.eqb first_command "git" then mret (validate_git_read_only command)
          else mret VAllow
      end
      end
      end
  end.

(** ** Destructive commands *)

Definition check_destructive (command : string) : run ValidationResult :=
  match List.find (fun pw => contains command (fst pw)) DESTRUCTIVE_PATTERNS with
  | Some (_, warning) => mret (VWarn ("Destructive command detected: " ++ warning))
  | None =>
      first ← extract_first_command command;
      match List.find (String.eqb first) ALWAYS_DESTRUCTIVE_COMMANDS with
      | Some cmd =>
          mret (VWarn ("Command '" ++ cmd ++
                       "' is inherently destructive and may cause data loss"))
      | None =>
          if contains command "rm " && contains command "-r" && contains command "-f" then
            mret (VWarn "Recursive forced deletion detected — verify the target path is correct")
          else mret VAllow
      end
  end.

(** ** Mode, sed and path validation *)

Definition command_targets_outside_workspace (command : string) : run bool :=
  first ← extract_first_command command;
  let is_write_cmd := str_in first WRITE_COMMANDS || str_in first STATE_MODIFYING_COMMANDS in
  if negb is_write_cmd then mret false
  else mret (existsb (contains command) system_paths).

Definition validate_mode (fuel : nat) (command : string) (mode : PermissionMode) :
  run ValidationResult :=
  match mode with
  | ReadOnly => validate_read_only fuel command mode
  | WorkspaceWrite =>
      outside ← command_targets_outside_workspace command;
      if (outside : bool) then
        mret (VWarn "Command appears to target files outside the workspace — requires elevated permission")
      else mret VAllow
  | DangerFullAccess | ModeAllow | ModePrompt => mret VAllow
  end.

Definition validate_sed (command : string) (mode : PermissionMode) : run ValidationResult :=
  first ← extract_first_command command;
  if negb (String.eqb first "sed") then mret VAllow
  else if bool_decide (mode = ReadOnly) && contains command " -i" then
    mret (VBlock "sed -i (in-place editing) is not allowed in read-only mode")
  else mret VAllow.

Definition validate_paths (command workspace : string) : ValidationResult :=
  if contains command "../" && negb (contains command workspace) then
    VWarn "Command contains directory traversal pattern '../' — verify the target path resolves within the workspace"
  else if contains command "~/" || contains command "$HOME" then
    VWarn "Command references home directory — verify it stays within the workspace scope"
  else VAllow.

(** ** Command semantics *)

Definition classify_git_command (command : string) : CommandIntent :=
  match git_subcommand command with
  | Some sub => if str_in sub GIT_READ_ONLY_SUBCOMMANDS then IReadOnly else IWrite
  | None => IWrite
  end.

Definition classify_by_first_command (first command : string) : CommandIntent :=
  if str_in first SEMANTIC_READ_ONLY_COMMANDS then
    if String.eqb first "sed" && contains command " -i" then IWrite else IReadOnly
  else if str_in first ALWAYS_DESTRUCTIVE_COMMANDS || String.eqb first "rm" then IDestructive
  else if str_in first WRITE_COMMANDS then IWrite
  else if str_in first NETWORK_COMMANDS then INetwork
  else if str_in first PROCESS_COMMANDS then IProcessManagement
  else if str_in first PACKAGE_COMMANDS then IPackageManagement
  else if str_in first SYSTEM_ADMIN_COMMANDS then ISystemAdmin
  else if String.eqb first "git" then classify_git_command command
  else IUnknown.

Definition classify_command (command : string) : run CommandIntent :=
  first ← extract_first_command command;
  mret (classify_by_first_command first command).

(** ** The pipeline *)

Definition validate_command (fuel : nat) (command : string) (mode : PermissionMode)
    (workspace : string) : run ValidationResult :=
  result ← validate_mode fuel command mode;
  if negb (bool_decide (result = VAllow)) then mret result else
  result ← validate_sed command mode;
  if negb (bool_decide (result = VAllow)) then mret result else
  result ← check_destructive command;
  if negb (bool_decide (result = VAllow)) then mret result else
  mret (validate_paths command workspace).

(** ** Lemmas: the first command *)

Lemma skip_to_ws_bound s i j : skip_to_ws s i = Some j -> i <= j < i + len s.
Proof.
  revert i; induction s as [|a s IH]; intros i; cbn; [done|].
  destruct (is_ascii_whitespace a); [intros [= <-]; lia|].
  intros H. apply IH in H. lia.
Qed.

Lemma find_quote_end_bound q p s i j : find_quote_end q p s i = Some j -> i < j < i + len s.
Proof.
  revert p i; induction s as [|a s IH]; intros p i; cbn; [done|].
  destruct (_ && _).
  - intros H. apply skip_to_ws_bound in H. lia.
  - intros H. apply IH in H. lia.
Qed.

Lemma find_end_of_value_bound s i : find_end_of_value s = Some i -> i < len s.
Proof.
  unfold find_end_of_value. pose proof (len_trim_start s) as Hl.
  destruct (trim_start s) as [|a r] eqn:E; [done|]. cbn in Hl.
  destruct (_ || _); intros H.
  - apply find_quote_end_bound in H. lia.
  - apply find_whitespace_lt in H. cbn in H. lia.
Qed.

Lemma skip_assignments_fuel fuel r : len r < fuel -> skip_assignments fuel r <> NoFuel.
Proof.
  revert r; induction fuel as [|fuel IH]; intros r Hl; [lia|].
  cbn [skip_assignments]. pose proof (len_trim_start r) as Ht.
  destruct (find_byte (trim_start r) _) as [eq_pos|] eqn:Ef; [|done].
  apply find_byte_spec in Ef as (Hlt & _ & _).
  destruct (slice_to _ _) eqn:E1; cbn; [|done|by apply slice_to_NoFuel in E1].
  destruct (_ && _); [|done].
  destruct (slice_from (trim_start r) _) eqn:E2; cbn; [|done|by apply slice_from_NoFuel in E2].
  apply slice_from_Ret in E2 as [-> Hle].
  destruct (find_end_of_value _) as [sp|] eqn:Ev; [|done].
  apply find_end_of_value_bound in Ev.
  destruct (slice_from _ sp) eqn:E3; cbn; [|done|by apply slice_from_NoFuel in E3].
  apply slice_from_Ret in E3 as [-> _]. apply IH. rewrite !len_skip in *. lia.
Qed.

Lemma extract_first_fuel command : extract_first_command command <> NoFuel.
Proof.
  unfold extract_first_command.
  pose proof (skip_assignments_fuel (S (len (trim command))) (trim command)
                (Nat.lt_succ_diag_r _)).
  by destruct (skip_assignments _ _) as [[]| |].
Qed.

Lemma skip_assignments_ascii fuel r :
  all_bytes is_ascii r = true -> skip_assignments fuel r <> Panic.
Proof.
  revert r; induction fuel as [|fuel IH]; intros r Ha; [done|].
  cbn [skip_assignments].
  assert (Hn : all_bytes is_ascii (trim_start r) = true) by by apply all_bytes_trim_start.
  destruct (find_byte (trim_start r) _) as [eq_pos|] eqn:Ef; [|done].
  apply find_byte_spec in Ef as (Hlt & _ & _).
  rewrite slice_to_ascii by (done || lia). cbn [mbind run_bind].
  destruct (_ && _); [|done].
  rewrite slice_from_ascii by (done || lia). cbn [mbind run_bind].
  assert (Hs : all_bytes is_ascii (str_skip (eq_pos + 1) (trim_start r)) = true)
    by by apply all_bytes_skip.
  destruct (find_end_of_value _) as [sp|] eqn:Ev; [|done].
  apply find_end_of_value_bound in Ev.
  rewrite slice_from_ascii by (done || lia). cbn [mbind run_bind].
  apply IH. by apply all_bytes_skip.
Qed.

Lemma extract_first_ascii command :
  all_bytes is_ascii command = true -> exists f, extract_first_command command = Ret f.
Proof.
  intros Ha. pose proof (extract_first_fuel command) as Hf.
  unfold extract_first_command in *.
  pose proof (skip_assignments_ascii (S (len (trim command))) (trim command)
                (all_bytes_trim _ _ Ha)).
  destruct (skip_assignments _ _) as [[]| |]; cbn in *; eauto; done.
Qed.

Lemma extract_sudo_inner_fuel command : extract_sudo_inner command <> NoFuel.
Proof.
  unfold extract_sudo_inner. destruct (after_sudo _); [|done]. apply slice_from_NoFuel.
Qed.

(** The inner command is the command itself or strictly shorter. *)
Lemma extract_sudo_inner_shorter command inner :
  extract_sudo_inner command = Ret inner -> is_empty inner = false ->
  inner = command \/ len inner < len command.
Proof.
  unfold extract_sudo_inner. destruct (after_sudo _) as [part|]; [|by intros [= <-]].
  intros H Hne. apply slice_from_Ret in H as [-> Hle].
  destruct (find_str command part) as [[|i]|]; cbn in *; [by left|right|by left].
  destruct command as [|a c]; [done|]. cbn in *. rewrite len_skip. lia.
Qed.

(** ** Lemmas: read-only validation *)

(** One level of [validate_read_only], with the recursive call abstracted. *)
Definition read_only_step (rec : string -> run ValidationResult) (command : string) :
  run ValidationResult :=
  first_command ← extract_first_command command;
  match List.find (String.eqb first_command) WRITE_COMMANDS with
  | Some write_cmd =>
      mret (VBlock ("Command '" ++ write_cmd ++
                    "' modifies the filesystem and is not allowed in read-only mode"))
  | None =>
  match List.find (String.eqb first_command) STATE_MODIFYING_COMMANDS with
  | Some state_cmd =>
      mret (VBlock ("Command '" ++ state_cmd ++
                    "' modifies system state and is not allowed in read-only mode"))
  | None =>
  inner_result ←
    (if String.eqb first_command "sudo" then
       inner ← extract_sudo_inner command;
       if is_empty inner then mret VAllow else rec inner
     else mret VAllow);
  if negb (bool_decide (inner_result = VAllow)) then mret inner_result else
  match List.find (contains command) WRITE_REDIRECTIONS with
  | Some redir =>
      mret (VBlock ("Command contains write redirection '" ++ redir ++
                    "' which is not allowed in read-only mode"))
  | None =>
      if String.eqb first_command "git" then mret (validate_git_read_only command)
      else mret VAllow
  end
  end
  end.

Lemma validate_read_only_step fuel command :
  validate_read_only (S fuel) command ReadOnly =
  read_only_step (fun inner => validate_read_only fuel inner ReadOnly) command.
Proof. reflexivity. Qed.

(** A step depends on the recursive call only at the inner command. *)
Lemma read_only_step_ext rec1 rec2 command :
  (forall inner, extract_sudo_inner command = Ret inner -> is_empty inner = false ->
     rec1 inner = NoFuel \/ rec1 inner = rec2 inner) ->
  read_only_step rec1 command = NoFuel \/ read_only_step rec1 command = read_only_step rec2 command.
Proof.
  intros H. unfold read_only_step.
  destruct (extract_first_command command) as [f| |]; cbn [mbind run_bind mret run_ret]; [|by right..].
  destruct (List.find _ WRITE_COMMANDS); [by right|].
  destruct (List.find _ STATE_MODIFYING_COMMANDS); [by right|].
  destruct (String.eqb f "sudo"); [|by right].
  destruct (extract_sudo_inner command) as [inner| |] eqn:Ei; cbn [mbind run_bind mret run_ret]; [|by right..].
  destruct (is_empty inner) eqn:Ee; [by right|].
  destruct (H inner eq_refl Ee) as [->| ->]; [by left|by right].
Qed.

Lemma read_only_step_NoFuel rec command :
  read_only_step rec command = NoFuel ->
  exists inner, extract_sudo_inner command = Ret inner /\ is_empty inner = false /\
    rec inner = NoFuel /\
    forall rec', rec' inner = NoFuel -> read_only_step rec' command = NoFuel.
Proof.
  unfold read_only_step.
  destruct (extract_first_command command) as [f| |] eqn:Ef; cbn [mbind run_bind mret run_ret];
    [|done|by apply extract_first_fuel in Ef].
  destruct (List.find _ WRITE_COMMANDS); [done|].
  destruct (List.find _ STATE_MODIFYING_COMMANDS); [done|].
  destruct (String.eqb f "sudo"); cbn [mbind run_bind mret run_ret].
  - destruct (extract_sudo_inner command) as [inner| |] eqn:Ei; cbn [mbind run_bind mret run_ret];
      [|done|by apply extract_sudo_inner_fuel in Ei].
    destruct (is_empty inner) eqn:Ee; cbn [mbind run_bind mret run_ret]; [by repeat case_goal|].
    destruct (rec inner) as [v| |] eqn:Er; cbn [mbind run_bind mret run_ret]; [by repeat case_goal|done|].
    intros _. exists inner. repeat split; try done. by intros rec' ->.
  - by repeat case_goal.
Qed.

Lemma validate_read_only_mono fuel command mode :
  validate_read_only fuel command mode = NoFuel \/
  validate_read_only fuel command mode = validate_read_only (S fuel) command mode.
Proof.
  revert command; induction fuel as [|fuel IH]; intros command; [by left|].
  destruct (decide (mode = ReadOnly)) as [->|Hm].
  - rewrite !validate_read_only_step. apply read_only_step_ext. auto.
  - right. cbn. by rewrite bool_decide_eq_false_2.
Qed.

Lemma validate_read_only_mono_le n m command mode :
  n <= m -> validate_read_only n command mode <> NoFuel ->
  validate_read_only m command mode = validate_read_only n command mode.
Proof.
  induction 1 as [|m Hle IH]; [done|]. intros Hn. specialize (IH Hn).
  destruct (validate_read_only_mono m command mode) as [E|E]; congruence.
Qed.

(** If [S (len command)] levels are not enough, no number of levels is. *)
Lemma validate_read_only_diverges command :
  validate_read_only (S (len command)) command ReadOnly = NoFuel ->
  forall fuel, validate_read_only fuel command ReadOnly = NoFuel.
Proof.
  remember (len command) as n eqn:En. revert command En.
  induction n as [n IH] using lt_wf_ind. intros command En H.
  rewrite validate_read_only_step in H.
  apply read_only_step_NoFuel in H as (inner & Ei & Ee & Hr & Hrec).
  destruct (extract_sudo_inner_shorter _ _ Ei Ee) as [->|Hlt].
  - induction fuel as [|fuel IHf]; [done|]. rewrite validate_read_only_step. by apply Hrec.
  - intros [|fuel]; [done|]. rewrite validate_read_only_step. apply Hrec.
    apply (IH (len inner)); [lia|done|].
    destruct (validate_read_only (S (len inner)) inner ReadOnly) eqn:E; try done;
      rewrite (validate_read_only_mono_le (S (len inner)) n) in Hr by (lia || congruence);
      congruence.
Qed.

Lemma read_only_first_blocked fuel command f :
  extract_first_command command = Ret f ->
  str_in f WRITE_COMMANDS || str_in f STATE_MODIFYING_COMMANDS = true ->
  exists reason, validate_read_only (S fuel) command ReadOnly = Ret (VBlock reason).
Proof.
  intros Ef Hin. rewrite validate_read_only_step. unfold read_only_step. rewrite Ef. cbn [mbind run_bind].
  pose proof (find_eqb_str_in f WRITE_COMMANDS) as Hw.
  destruct (List.find _ WRITE_COMMANDS) as [w|]; [eauto|].
  pose proof (find_eqb_str_in f STATE_MODIFYING_COMMANDS) as Hs.
  destruct (List.find _ STATE_MODIFYING_COMMANDS) as [s|]; [eauto|].
  rewrite Hw, Hs in Hin. done.
Qed.

(** What a command that read-only validation lets through looks like. *)
Lemma read_only_allowed fuel command :
  validate_read_only fuel command ReadOnly = Ret VAllow ->
  exists f, extract_first_command command = Ret f /\
    str_in f WRITE_COMMANDS = false /\ str_in f STATE_MODIFYING_COMMANDS = false /\
    contains command ">" = false /\
    (f = "git" -> validate_git_read_only command = VAllow).
Proof.
  destruct fuel as [|fuel]; [done|]. rewrite validate_read_only_step. unfold read_only_step.
  destruct (extract_first_command command) as [f| |]; cbn [mbind run_bind mret run_ret]; [|done..].
  pose proof (find_eqb_str_in f WRITE_COMMANDS) as Hw.
  destruct (List.find _ WRITE_COMMANDS); [done|].
  pose proof (find_eqb_str_in f STATE_MODIFYING_COMMANDS) as Hs.
  destruct (List.find _ STATE_MODIFYING_COMMANDS); [done|].
  match goal with |- context [ @mbind _ _ _ _ ?k ?m ] => destruct m as [r| |]; cbn [mbind run_bind mret run_ret]; [|done..] end.
  destruct (bool_decide (r = VAllow)) eqn:Er; cbn [negb]; [|intros [= ->]; done].
  unfold WRITE_REDIRECTIONS. cbn [List.find].
  destruct (contains command ">") eqn:Eg; [done|].
  destruct (contains command ">>"); [done|]. destruct (contains command ">&"); [done|].
  intros H. exists f. repeat split; try done.
  intros ->. by injection H.
Qed.

(** [check_destructive] lets a command through only if its first word is not one
    of the always-destructive ones. *)
Lemma check_destructive_allowed command f :
  extract_first_command command = Ret f -> check_destructive command = Ret VAllow ->
  str_in f ALWAYS_DESTRUCTIVE_COMMANDS = false.
Proof.
  intros Ef. unfold check_destructive. rewrite Ef.
  destruct (List.find _ DESTRUCTIVE_PATTERNS) as [[]|]; [done|]. cbn [mbind run_bind].
  pose proof (find_eqb_str_in f ALWAYS_DESTRUCTIVE_COMMANDS) as Hd.
  by destruct (List.find _ ALWAYS_DESTRUCTIVE_COMMANDS).
Qed.

Lemma validate_sed_allowed command f :
  extract_first_command command = Ret f -> validate_sed command ReadOnly = Ret VAllow ->
  String.eqb f "sed" && contains command " -i" = false.
Proof.
  intros Ef. unfold validate_sed. rewrite Ef. cbn [mbind run_bind].
  destruct (String.eqb f "sed"); cbn [negb andb]; [|done].
  rewrite bool_decide_eq_true_2 by done. by destruct (contains command " -i").
Qed.

(** The pipeline allows a command only if every stage does. *)
Lemma validate_command_stages fuel command mode ws :
  validate_command fuel command mode ws = Ret VAllow <->
  validate_mode fuel command mode = Ret VAllow /\ validate_sed command mode = Ret VAllow /\
  check_destructive command = Ret VAllow /\ validate_paths command ws = VAllow.
Proof.
  assert (Hstage : forall (m : run ValidationResult) (k : run ValidationResult),
    (result ← m; if negb (bool_decide (result = VAllow)) then mret result else k) = Ret VAllow
    <-> m = Ret VAllow /\ k = Ret VAllow).
  { intros m k. destruct m as [r| |]; cbn [mbind run_bind mret run_ret];
      [|split; [done|by intros [? _]]..].
    destruct (decide (r = VAllow)) as [->|Hr].
    - rewrite bool_decide_eq_true_2 by done. cbn [negb]. tauto.
    - rewrite bool_decide_eq_false_2 by done. cbn [negb].
      split; [intros [= ->]; done|]. intros [[= ->] _]; done. }
  unfold validate_command. rewrite !Hstage. cbn [mret run_ret].
  assert (Ret (validate_paths command ws) = Ret VAllow <-> validate_paths command ws = VAllow)
    as -> by (split; congruence).
  done.
Qed.

(** A command whose first word is neither a write nor an always-destructive
    command, nor an in-place [sed], is not classified as destructive, and as a
    write only through [git]. *)
Lemma classify_harmless f command :
  str_in f WRITE_COMMANDS = false -> str_in f ALWAYS_DESTRUCTIVE_COMMANDS = false ->
  String.eqb f "sed" && contains command " -i" = false ->
  classify_by_first_command f command <> IDestructive /\
  (classify_by_first_command f command = IWrite ->
     f = "git" /\ classify_git_command command = IWrite).
Proof.
  intros Hw Hd Hs. unfold classify_by_first_command. rewrite Hw, Hd, Hs.
  assert (String.eqb f "rm" = false) as ->.
  { destruct (String.eqb_spec f "rm") as [->|]; [discriminate Hw|done]. }
  destruct (str_in f SEMANTIC_READ_ONLY_COMMANDS); [done|]. cbn [orb].
  destruct (str_in f NETWORK_COMMANDS); [done|].
  destruct (str_in f PROCESS_COMMANDS); [done|].
  destruct (str_in f PACKAGE_COMMANDS); [done|].
  destruct (str_in f SYSTEM_ADMIN_COMMANDS); [done|].
  destruct (String.eqb_spec f "git"); [|done]. split; [|done].
  unfold classify_git_command. by repeat case_goal.
Qed.

(** ** Properties *)

(** The environment-assignment loop terminates on every command, and on an
    ASCII command no slice panics: the first command is always produced. *)
Theorem extract_first_command_total command :
  extract_first_command command <> NoFuel /\
  (all_bytes is_ascii command = true -> exists first, extract_first_command command = Ret first).
Proof. split; [apply extract_first_fuel | apply extract_first_ascii]. Qed.

(** Termination of read-only validation is decided by one unrolling per byte:
    with more levels than the command has bytes, either the validator returns
    the result it returns with any larger fuel, or it diverges with every fuel. *)
Theorem read_only_validation_fuel command fuel (Hfuel : len command < fuel) :
  (validate_read_only fuel command ReadOnly <> NoFuel /\
   forall more, fuel <= more ->
     validate_read_only more command ReadOnly = validate_read_only fuel command ReadOnly) \/
  (forall any, validate_read_only any command ReadOnly = NoFuel).
Proof.
  destruct (validate_read_only fuel command ReadOnly) eqn:E.
  1, 2: left; split; [done|]; intros more Hle;
    rewrite <- E; apply validate_read_only_mono_le; [done|congruence].
  right. apply validate_read_only_diverges.
  destruct (validate_read_only (S (len command)) command ReadOnly) eqn:E2; try done;
    rewrite (validate_read_only_mono_le (S (len command)) fuel) in E by (lia || congruence);
    congruence.
Qed.

(** In read-only mode a command whose first word writes files or modifies
    system state is blocked by the whole pipeline. *)
Theorem read_only_blocks_write_commands fuel command ws first
    (Hfirst : extract_first_command command = Ret first)
    (Hwrite : In first WRITE_COMMANDS \/ In first STATE_MODIFYING_COMMANDS) :
  exists reason, validate_command (S fuel) command ReadOnly ws = Ret (VBlock reason).
Proof.
  destruct (read_only_first_blocked fuel command first Hfirst) as [reason E].
  { rewrite orb_true_iff, !str_in_In. done. }
  exists reason. unfold validate_command, validate_mode. by rewrite E.
Qed.

(** A command the pipeline allows in read-only mode contains no [>], is not
    classified as destructive, and is classified as a write only when it is a
    [git] invocation without a subcommand. *)
Theorem read_only_allowed_is_harmless fuel command ws
    (Hallow : validate_command fuel command ReadOnly ws = Ret VAllow) :
  contains command ">" = false /\
  exists intent, classify_command command = Ret intent /\ intent <> IDestructive /\
    (intent = IWrite -> git_subcommand command = None).
Proof.
  apply validate_command_stages in Hallow as (Hm & Hs & Hd & _). cbn [validate_mode] in Hm.
  apply read_only_allowed in Hm as (f & Ef & Hw & _ & Hr & Hg).
  split; [done|]. exists (classify_by_first_command f command).
  unfold classify_command. rewrite Ef. split; [done|].
  destruct (classify_harmless f command) as [Hnd Hgit];
    [done|by eapply check_destructive_allowed|by eapply validate_sed_allowed|].
  split; [done|]. intros Hi. apply Hgit in Hi as [-> Hc]. specialize (Hg eq_refl).
  unfold validate_git_read_only in Hg. unfold classify_git_command in Hc.
  destruct (git_subcommand command) as [sub|]; [|done]. by destruct (str_in sub _).
Qed.

(** Gaps of read-only validation: [sudo sudo ls] is its own inner command, so
    the validator recurses without end; an empty assignment or a [sudo] flag with
    a value hides a removal; [git -C] is blocked although its subcommand is
    read-only; and an empty assignment before a non-ASCII word panics. *)
Theorem read_only_validation_gaps ws :
  (forall fuel, validate_read_only fuel "sudo sudo ls" ReadOnly = NoFuel) /\
  validate_command 2 "A= rm notes" ReadOnly ws = Ret VAllow /\
  validate_command 2 "sudo -u root rm notes" ReadOnly ws = Ret VAllow /\
  (exists reason, validate_command 2 "git -C repo status" ReadOnly ws = Ret (VBlock reason)) /\
  extract_first_command "A= é x" = Panic.
Proof.
  split; [|split; [|split; [|split]]]; [|vm_compute; reflexivity..| |vm_compute; reflexivity].
  - induction fuel as [|fuel IH]; [done|]. rewrite validate_read_only_step.
    assert (extract_first_command "sudo sudo ls" = Ret "sudo") as Ef by (vm_compute; done).
    assert (extract_sudo_inner "sudo sudo ls" = Ret "sudo sudo ls") as Ei
      by (vm_compute; done).
    unfold read_only_step. rewrite Ef, Ei. cbn [mbind run_bind is_empty].
    rewrite IH. vm_compute. done.
  - eexists. vm_compute. reflexivity.
Qed.

(** ** Witnesses *)

Lemma read_only_validation_fuel_witness :
  (validate_read_only 40 "sudo ls -la" ReadOnly <> NoFuel /\
   forall more, 40 <= more ->
     validate_read_only more "sudo ls -la" ReadOnly = validate_read_only 40 "sudo ls -la" ReadOnly) \/
  (forall any, validate_read_only any "sudo ls -la" ReadOnly = NoFuel).
Proof. apply (read_only_validation_fuel "sudo ls -la" 40). cbn. lia. Defined.

Lemma read_only_blocks_write_commands_witness :
  exists reason, validate_command 1 "LANG=C rm -r build" ReadOnly "/w" = Ret (VBlock reason).
Proof.
  apply (read_only_blocks_write_commands 0 "LANG=C rm -r build" "/w" "rm").
  - vm_compute. reflexivity.
  - left. cbn. auto.
Defined.

Lemma read_only_allowed_is_harmless_witness :
  contains "git log -n 3" ">" = false /\
  exists intent, classify_command "git log -n 3" = Ret intent /\ intent <> IDestructive /\
    (intent = IWrite -> git_subcommand "git log -n 3" = None).
Proof.
  apply (read_only_allowed_is_harmless 1 "git log -n 3" "/w"). vm_compute. reflexivity.
Defined.
