(* ===== verification/Conversation.v ===== *)
(** * Conversation data (runtime/src/session.rs, runtime/src/session_history.rs)

    The message types every component that handles a transcript shares. *)
From S2P Require Import Prelude.

Inductive MessageRole := RSystem | RUser | RAssistant | RTool.

Inductive ContentBlock :=
| Text (text : string)
| Image (data mime_type : string)
| Thinking (thinking : string) (signature : option string)
| RedactedThinking (data : string)
| ToolUse (id name input : string) (thought_signature : option string)
| ToolResult (tool_use_id tool_name output : string) (is_error : bool).

#[export] Instance MessageRole_eq_dec : EqDecision MessageRole.
Proof. solve_decision. Defined.
#[export] Instance ContentBlock_eq_dec : EqDecision ContentBlock.
Proof. solve_decision. Defined.

(** [TokenUsage] and its currency (runtime/src/usage.rs): the counters of one message. *)
Inductive UsageCostCurrency := SudoPoint.

Record TokenUsage := {
  reported_total_tokens : option N;
  input_tokens : N;
  output_tokens : N;
  cache_creation_input_tokens : N;
  cache_read_input_tokens : N;
  cost_units : option N;
  cost_currency : option UsageCostCurrency
}.

Record MessageIdentity := {
  identity_id : string;
  identity_parent_id : option string;
  identity_tool_origins : gmap string string
}.

Record ConversationMessage := {
  history : option MessageIdentity;
  role : MessageRole;
  blocks : list ContentBlock;
  usage : option TokenUsage;
  model : option string;
  duration_ms : option N
}.

Definition is_tool_use (block : ContentBlock) : bool :=
  match block with ToolUse _ _ _ _ => true | _ => false end.
Definition tool_use_id_of (block : ContentBlock) : option string :=
  match block with ToolUse id _ _ _ => Some id | _ => None end.

(** [ContextRef] (runtime/src/subagent_completion.rs): a committed revision of a session. *)
Record ContextRef := {
  ctx_session_id : string;
  ctx_revision : N;
  ctx_digest : string;
  ctx_last_trace_id : string
}.

#[export] Instance ContextRef_eq_dec : EqDecision ContextRef.
Proof. solve_decision. Defined.
