(* ===== verification/BTree.v ===== *)
(** * [BTreeMap<u64, V>]

    The ordered map as its in-order list of entries: iteration order is visible
    to the program, so the map is kept sorted by key. *)
From S2P Require Import Prelude.
From stdpp Require Import sorting.

Section BTree.
Context {V : Type}.

Fixpoint bt_insert (k : N) (v : V) (m : list (N * V)) : list (N * V) :=
  match m with
  | [] => [(k, v)]
  | (k', v') :: r =>
      if (k <? k')%N then (k, v) :: m
      else if (k =? k')%N then (k, v) :: r
      else (k', v') :: bt_insert k v r
  end.

Fixpoint bt_get (k : N) (m : list (N * V)) : option V :=
  match m with
  | [] => None
  | (k', v') :: r => if (k =? k')%N then Some v' else bt_get k r
  end.

Fixpoint bt_remove (k : N) (m : list (N * V)) : list (N * V) :=
  match m with
  | [] => []
  | (k', v') :: r => if (k =? k')%N then r else (k', v') :: bt_remove k r
  end.

Definition bt_values (m : list (N * V)) : list V := map snd m.
Definition bt_keys (m : list (N * V)) : list N := map fst m.

Definition bt_sorted (m : list (N * V)) : Prop := StronglySorted N.lt (bt_keys m).

Implicit Types m : list (N * V).

Lemma bt_keys_insert k v m x : In x (bt_keys (bt_insert k v m)) <-> x = k \/ In x (bt_keys m).
Proof.
  unfold bt_keys. induction m as [|[k' v'] m IH]; cbn; [naive_solver|].
  destruct (N.ltb_spec k k'); cbn; [naive_solver|].
  destruct (N.eqb_spec k k'); cbn; [subst; naive_solver|]. rewrite IH. naive_solver.
Qed.

Lemma bt_insert_sorted k v m : bt_sorted m -> bt_sorted (bt_insert k v m).
Proof.
  unfold bt_sorted. induction m as [|[k' v'] m IH]; cbn; intros Hs.
  - repeat constructor.
  - inversion Hs as [|? ? Hs' Hall]; subst.
    destruct (N.ltb_spec k k'); cbn; [|destruct (N.eqb_spec k k'); cbn].
    + constructor; [done|]. constructor; [done|].
      eapply Forall_impl; [exact Hall|]. cbn. lia.
    + subst. by constructor.
    + constructor; [by apply IH|]. apply Forall_forall. intros x Hx.
      apply list_elem_of_In, bt_keys_insert in Hx as [->|Hx]; [lia|].
      rewrite Forall_forall in Hall. by apply Hall, list_elem_of_In.
Qed.

(** Inserting above every key appends. *)
Lemma bt_insert_last k v m :
  Forall (fun x => (x < k)%N) (bt_keys m) -> bt_insert k v m = m ++ [(k, v)].
Proof.
  induction m as [|[k' v'] m IH]; cbn; intros Hall; [done|].
  inversion Hall; subst.
  destruct (N.ltb_spec k k'); [lia|]. destruct (N.eqb_spec k k'); [lia|].
  by rewrite IH.
Qed.

Lemma bt_insert_perm k v m :
  ~ In k (bt_keys m) -> bt_insert k v m ≡ₚ (k, v) :: m.
Proof.
  induction m as [|[k' v'] m IH]; cbn; intros Hn; [done|].
  destruct (N.ltb_spec k k'); [done|]. destruct (N.eqb_spec k k'); [naive_solver|].
  rewrite IH by naive_solver. apply Permutation_swap.
Qed.

Lemma bt_get_In k v m : bt_get k m = Some v -> In (k, v) m.
Proof.
  induction m as [|[k' v'] m IH]; cbn; [done|].
  destruct (N.eqb_spec k k'); [intros [= ->]; subst; by left|auto].
Qed.

Lemma bt_get_None k m : bt_get k m = None <-> ~ In k (bt_keys m).
Proof.
  induction m as [|[k' v'] m IH]; cbn; [naive_solver|].
  destruct (N.eqb_spec k k'); [subst; naive_solver|]. rewrite IH. naive_solver.
Qed.

Lemma bt_remove_perm k v m : bt_get k m = Some v -> m ≡ₚ (k, v) :: bt_remove k m.
Proof.
  induction m as [|[k' v'] m IH]; cbn; [done|].
  destruct (N.eqb_spec k k'); [intros [= ->]; by subst|].
  intros H. rewrite (IH H) at 1. apply Permutation_swap.
Qed.

Lemma bt_remove_sublist k m : bt_remove k m `sublist_of` m.
Proof.
  induction m as [|[k' v'] m IH]; cbn; [done|].
  destruct (k =? k')%N; [by apply sublist_cons|by apply sublist_skip].
Qed.

Lemma bt_remove_keys k m x : In x (bt_keys (bt_remove k m)) -> In x (bt_keys m).
Proof.
  induction m as [|[k' v'] m IH]; cbn; [done|].
  destruct (k =? k')%N; cbn; naive_solver.
Qed.

Lemma bt_remove_sorted k m : bt_sorted m -> bt_sorted (bt_remove k m).
Proof.
  unfold bt_sorted. induction m as [|[k' v'] m IH]; cbn; intros Hs; [done|].
  inversion Hs as [|? ? Hs' Hall]; subst. destruct (k =? k')%N; [done|].
  constructor; [by apply IH|]. rewrite Forall_forall in *. intros x Hx.
  apply Hall, list_elem_of_In. apply list_elem_of_In in Hx. by eapply bt_remove_keys.
Qed.

Lemma bt_sorted_NoDup m : bt_sorted m -> NoDup (bt_keys m).
Proof.
  unfold bt_sorted. generalize (bt_keys m). induction 1 as [|k l Hs IH Hall]; constructor; [|done].
  rewrite Forall_forall in Hall. intros Hk. specialize (Hall _ Hk). lia.
Qed.

Lemma bt_get_insert k j v m : bt_get j (bt_insert k v m) = if (j =? k)%N then Some v else bt_get j m.
Proof.
  induction m as [|[k' v'] m IH]; cbn; [done|].
  destruct (N.ltb_spec k k'); cbn; [done|].
  destruct (N.eqb_spec k k') as [->|]; cbn; [by destruct (j =? k')%N|].
  rewrite IH. destruct (N.eqb_spec j k'), (N.eqb_spec j k); congruence.
Qed.

(** Sorted maps with the same entries are equal. *)
Lemma bt_ext m m' : bt_sorted m -> bt_sorted m' -> (forall k, bt_get k m = bt_get k m') -> m = m'.
Proof.
  assert (forall k v (m : list (N * V)), bt_sorted ((k, v) :: m) ->
    bt_sorted m /\ forall j, (j <= k)%N -> bt_get j m = None) as Htail.
  { intros k v l. unfold bt_sorted. cbn. intros Hs. inversion Hs as [|? ? Hl Hall]; subst. split; [done|].
    intros j Hj. apply bt_get_None. intros Hin%list_elem_of_In. rewrite Forall_forall in Hall. specialize (Hall _ Hin). lia. }
  revert m'. induction m as [|[k v] m IH]; intros [|[k' v'] m'] Hs Hs' Hget; [done|..].
  - specialize (Hget k'). cbn in Hget. by rewrite N.eqb_refl in Hget.
  - specialize (Hget k). cbn in Hget. by rewrite N.eqb_refl in Hget.
  - destruct (Htail _ _ _ Hs) as [Hm Hlow], (Htail _ _ _ Hs') as [Hm' Hlow'].
    assert (k = k') as <-.
    { pose proof (Hget k) as H1. pose proof (Hget k') as H2. cbn in H1, H2. rewrite N.eqb_refl in H1, H2.
      destruct (N.eqb_spec k k'); [done|]. destruct (N.lt_trichotomy k k') as [|[|]]; [|done|].
      - rewrite Hlow' in H1 by lia. done.
      - destruct (N.eqb_spec k' k); [done|]. rewrite Hlow in H2 by lia. done. }
    assert (v = v') as <- by (pose proof (Hget k) as K; cbn in K; rewrite N.eqb_refl in K; congruence).
    f_equal. apply IH; [done..|]. intros j. specialize (Hget j). cbn in Hget.
    destruct (N.eqb_spec j k) as [E|]; [|done]. subst j. by rewrite Hlow, Hlow'.
Qed.
End BTree.

#[global] Arguments bt_values {V} m : simpl never.
#[global] Arguments bt_keys {V} m : simpl never.
