(* ===== verification/TurnInput.v ===== *)
(** * Turn inputs and the steering inbox (runtime/src/turn_input.rs)

    The input types and the inbox of one running turn.  The inbox is a mutex
    around its state, so each operation is one atomic step on that state; the
    wake-up notifications carry no data and are not modelled. *)
From S2P Require Import Prelude Conversation.

Inductive InputDelivery := Steer | Queue.
Definition is_steer (d : InputDelivery) : bool := match d with Steer => true | Queue => false end.

Inductive InputSource := Human | Peer | Subagent | Background | Scheduled.

#[export] Instance InputDelivery_eq_dec : EqDecision InputDelivery.
Proof. solve_decision. Defined.
#[export] Instance InputSource_eq_dec : EqDecision InputSource.
Proof. solve_decision. Defined.

Record TurnInput := {
  ti_id : N;
  ti_text : string;
  ti_display : string;
  ti_source : InputSource;
  ti_attachments : list ContentBlock
}.

Record InputView := {
  view_id : N;
  view_display : string;
  view_source : InputSource
}.

Definition view (i : TurnInput) : InputView :=
  {| view_id := ti_id i; view_display := ti_display i; view_source := ti_source i |}.

Definition with_id (i : TurnInput) (id : N) : TurnInput :=
  {| ti_id := id; ti_text := ti_text i; ti_display := ti_display i; ti_source := ti_source i;
     ti_attachments := ti_attachments i |}.

(** ** The inbox *)

Record Inbox := { inbox_open : bool; inbox_pending : list TurnInput }.

Definition inbox_default : Inbox := {| inbox_open := false; inbox_pending := [] |}.

(** [begin] opens the inbox; the assertion that nothing is pending is a debug one. *)
Definition inbox_begin (b : Inbox) : Inbox :=
  {| inbox_open := true; inbox_pending := inbox_pending b |}.

Definition inbox_admit (b : Inbox) (inputs : list TurnInput) : Inbox * result (list TurnInput) unit :=
  if negb (inbox_open b) then (b, Err inputs)
  else ({| inbox_open := inbox_open b; inbox_pending := inbox_pending b ++ inputs |}, Ok tt).

Definition inbox_has_pending (b : Inbox) : bool :=
  match inbox_pending b with [] => false | _ => true end.

Definition inbox_batch (b : Inbox) : list TurnInput := inbox_pending b.

Definition inbox_committed (b : Inbox) (id : N) : Inbox :=
  {| inbox_open := inbox_open b;
     inbox_pending := List.filter (fun i => negb (ti_id i =? id)%N) (inbox_pending b) |}.

Definition inbox_seal_if_empty (b : Inbox) : Inbox * bool :=
  if inbox_has_pending b then (b, false)
  else ({| inbox_open := false; inbox_pending := inbox_pending b |}, true).

Definition inbox_finish (b : Inbox) : Inbox * list TurnInput :=
  ({| inbox_open := false; inbox_pending := [] |}, inbox_pending b).

(** ** Correctness: the inbox as a ledger

    A run of the inbox is a sequence of operations.  The ledger records what the
    engine handed over ([admitted]), what the conversation loop consumed
    ([applied]) and what [finish] gave back ([returned]). *)

Inductive InboxOp :=
| OpBegin
| OpAdmit (inputs : list TurnInput)
| OpCommitted (id : N)
| OpSealIfEmpty
| OpFinish.

Record Ledger := {
  admitted : list TurnInput;
  applied : list TurnInput;
  returned : list TurnInput
}.

Definition inbox_step (s : Inbox * Ledger) (op : InboxOp) : Inbox * Ledger :=
  let '(b, l) := s in
  match op with
  | OpBegin => (inbox_begin b, l)
  | OpAdmit inputs =>
      match inbox_admit b inputs with
      | (b, Ok tt) => (b, {| admitted := admitted l ++ inputs; applied := applied l; returned := returned l |})
      | (b, Err refused) =>
          (b, {| admitted := admitted l ++ inputs; applied := applied l;
                 returned := returned l ++ refused |})
      end
  | OpCommitted id =>
      (inbox_committed b id,
       {| admitted := admitted l;
          applied := applied l ++ List.filter (fun i => (ti_id i =? id)%N) (inbox_pending b);
          returned := returned l |})
  | OpSealIfEmpty => (fst (inbox_seal_if_empty b), l)
  | OpFinish =>
      let '(b, rest) := inbox_finish b in
      (b, {| admitted := admitted l; applied := applied l; returned := returned l ++ rest |})
  end.

Definition inbox_run (ops : list InboxOp) : Inbox * Ledger :=
  fold_left inbox_step ops (inbox_default, {| admitted := []; applied := []; returned := [] |}).

Definition ledger_balanced (s : Inbox * Ledger) : Prop :=
  admitted (snd s) ≡ₚ applied (snd s) ++ returned (snd s) ++ inbox_pending (fst s) /\
  (inbox_open (fst s) = false -> inbox_pending (fst s) = []).

Lemma filter_split {A} (f : A -> bool) (l : list A) :
  l ≡ₚ List.filter f l ++ List.filter (fun x => negb (f x)) l.
Proof.
  induction l as [|x l IH]; cbn; [done|]. destruct (f x); cbn.
  - by rewrite <- IH.
  - by rewrite <- Permutation_middle, <- IH.
Qed.

Lemma ledger_step s op : ledger_balanced s -> ledger_balanced (inbox_step s op).
Proof.
  destruct s as [[o p] [ad ap re]]. unfold ledger_balanced. cbn. intros [Hp Hc].
  destruct op as [| inputs | id | |]; cbn.
  - done.
  - unfold inbox_admit; cbn. destruct o; cbn; (split; [|done || auto]).
    + rewrite Hp, <- !app_assoc. done.
    + specialize (Hc eq_refl) as ->. rewrite Hp. rewrite !app_nil_r, <- app_assoc. done.
  - split; [|intros ->; by rewrite Hc].
    rewrite Hp, <- app_assoc. apply Permutation_app_head.
    rewrite (filter_split (fun i => (ti_id i =? id)%N) p) at 1.
    rewrite !app_assoc. apply Permutation_app_tail, Permutation_app_comm.
  - unfold inbox_seal_if_empty, inbox_has_pending. destruct p; cbn; [split; done|split; done].
  - split; [|done]. by rewrite Hp, app_nil_r.
Qed.

(** The steering inbox never loses or duplicates an input: after any sequence
    of [begin], [admit], [committed], [seal_if_empty] and [finish], the inputs the
    engine tried to admit are exactly (as a multiset) the ones applied, the ones
    handed back (refused, or returned by [finish]) and the ones still pending, and
    a closed inbox holds nothing, so the assertion of [begin] holds whenever the
    inbox was closed. *)
Theorem inbox_never_loses_inputs (ops : list InboxOp) :
  let '(b, l) := inbox_run ops in
  admitted l ≡ₚ applied l ++ returned l ++ inbox_pending b /\
  (inbox_open b = false -> inbox_pending b = []).
Proof.
  assert (ledger_balanced (inbox_run ops)) as H; [|by destruct (inbox_run ops)].
  unfold inbox_run. assert (ledger_balanced (inbox_default, {| admitted := []; applied := []; returned := [] |}))
    as Hi by (by split).
  revert Hi. generalize (inbox_default, {| admitted := []; applied := []; returned := [] |}).
  induction ops as [|op ops IH]; intros s Hs; cbn; [done|]. by apply IH, ledger_step.
Qed.

(** Sealing and admission cannot race: when [seal_if_empty] decides that the
    turn has no more work, every later admission is refused and gives back all its
    inputs, until [begin] opens the inbox for the next turn. *)
Theorem sealed_inbox_refuses (b : Inbox) (ops : list InboxOp) (inputs : list TurnInput) :
  snd (inbox_seal_if_empty b) = true ->
  ~ In OpBegin ops ->
  let b' := fst (fold_left inbox_step ops
                   (fst (inbox_seal_if_empty b), {| admitted := []; applied := []; returned := [] |})) in
  inbox_admit b' inputs = (b', Err inputs).
Proof.
  unfold inbox_seal_if_empty. destruct (inbox_has_pending b); [done|]. intros _. cbn [fst].
  generalize (inbox_pending b), {| admitted := []; applied := []; returned := [] |}.
  induction ops as [|op ops IH]; intros p l Hn; cbn [fold_left]; [done|].
  destruct op as [| ins | id | |]; [destruct Hn; by left|..];
    (assert (~ In OpBegin ops) as Hn' by (intros ?; apply Hn; by right)); cbn; try by apply IH.
  unfold inbox_seal_if_empty. destruct (inbox_has_pending _); by apply IH.
Qed.

Lemma sealed_inbox_refuses_witness :
  let b := {| inbox_open := true; inbox_pending := [] |} in
  let i := {| ti_id := 4%N; ti_text := "late"; ti_display := "late"; ti_source := Human; ti_attachments := [] |} in
  let b' := fst (fold_left inbox_step [OpAdmit [i]; OpCommitted 4%N]
                   (fst (inbox_seal_if_empty b), {| admitted := []; applied := []; returned := [] |})) in
  inbox_admit b' [i] = (b', Err [i]).
Proof.
  apply sealed_inbox_refuses; [reflexivity|]. cbn. intros [H|[H|H]]; [discriminate|discriminate|exact H].
Defined.
