(* ===== verification/InputQueue.v ===== *)
(** * The turn input coordinator (engine-core/src/input_queue.rs)

    The scheduling policy of one session: explicitly queued inputs, inputs
    steered into the running turn and not yet durably consumed, the id counter
    and the turn phase.  [R] is the transport receipt. *)
From S2P Require Import Prelude.
From stdpp Require Import list sorting.
From S2P Require Import RustStr Conversation BTree TurnInput.

Definition newline : string := String (ascii_of_nat 10) "".

(** ** Queue mode *)

Inductive QueueMode := QOff | QQueue.

Definition queue_mode_from_str (s : string) : option QueueMode :=
  let v := to_ascii_lowercase (trim s) in
  if String.eqb v "off" || String.eqb v "" then Some QOff
  else if String.eqb v "queue" then Some QQueue
  else None.

(** [from_env]: [var] is the environment variable when it is set. *)
Definition queue_mode_from_env (var : option string) : QueueMode :=
  default QQueue (var ≫= queue_mode_from_str).

Definition queue_mode_to_u8 (m : QueueMode) : N := match m with QOff => 0%N | QQueue => 1%N end.
Definition queue_mode_from_u8 (v : N) : QueueMode := if (v =? 0)%N then QOff else QQueue.
Definition queue_enabled (m : QueueMode) : bool := match m with QQueue => true | QOff => false end.

(** ** Data *)

Inductive Phase :=
| Idle
| Preparing
| Running
| Cancelling (resume_requested : bool)
| Paused.

Inductive SubmitOutcome := SubmitQueued | SubmitRejected.

(** The command [turn_started] asks the engine for. *)
Inductive TurnCommand :=
| CommandSteer (inputs : list TurnInput)
| CommandCancel.

Section Coordinator.
Context {R : Type}.

Record QueuedInput := { input : TurnInput; receipt : option R }.

Definition queued_new (text display : string) (source : InputSource) (r : option R) :
  QueuedInput :=
  {| input := {| ti_id := 0%N; ti_text := text; ti_display := display; ti_source := source;
                 ti_attachments := [] |};
     receipt := r |}.
Definition queued_human (text display : string) : QueuedInput := queued_new text display Human None.
Definition queued_peer (text display : string) : QueuedInput := queued_new text display Peer None.

Record NextTurn := {
  prompt : string;
  echoes : list InputView;
  consumed : nat;
  receipts : list R
}.

Record Coordinator := {
  queue : list QueuedInput;
  steering : list (N * QueuedInput);
  next_id : N;
  phase : Phase
}.

Definition coordinator_new : Coordinator :=
  {| queue := []; steering := []; next_id := 0%N; phase := Idle |}.

Definition set_phase (c : Coordinator) (p : Phase) : Coordinator :=
  {| queue := queue c; steering := steering c; next_id := next_id c; phase := p |}.

(** ** Phase predicates and transitions *)

Definition can_start (c : Coordinator) : bool :=
  match phase c with Idle => true | _ => false end.
Definition can_steer (c : Coordinator) : bool :=
  match phase c with Preparing | Running => true | _ => false end.
Definition can_deliver (c : Coordinator) : bool :=
  match phase c with Running => true | _ => false end.
Definition is_running (c : Coordinator) : bool :=
  match phase c with Preparing | Running | Cancelling _ => true | _ => false end.
Definition has_idle_queue (c : Coordinator) : bool :=
  negb (is_running c) && negb (match queue c with [] => true | _ => false end).
Definition is_paused (c : Coordinator) : bool :=
  match phase c with Cancelling false | Paused => true | _ => false end.

Definition start_turn (c : Coordinator) : Coordinator := set_phase c Preparing.

Definition turn_started (c : Coordinator) : Coordinator * option TurnCommand :=
  match phase c with
  | Preparing =>
      let inputs := map input (bt_values (steering c)) in
      (set_phase c Running,
       match inputs with [] => None | _ => Some (CommandSteer inputs) end)
  | Cancelling _ => (c, Some CommandCancel)
  | _ => (c, None)
  end.

Definition cancel_turn (c : Coordinator) : Coordinator := set_phase c (Cancelling false).

Definition resume (c : Coordinator) : Coordinator :=
  match phase c with
  | Cancelling _ => set_phase c (Cancelling true)
  | Paused => set_phase c Idle
  | _ => c
  end.

(** ** Ownership *)

Definition identify (c : Coordinator) (i : TurnInput) : Coordinator * TurnInput :=
  if (ti_id i =? 0)%N then
    let id := u64_add (next_id c) 1 in
    ({| queue := queue c; steering := steering c; next_id := id; phase := phase c |},
     with_id i id)
  else (c, i).

Definition enqueue (c : Coordinator) (q : QueuedInput) : Coordinator * InputView :=
  let '(c, i) := identify c (input q) in
  ({| queue := queue c ++ [{| input := i; receipt := receipt q |}];
      steering := steering c; next_id := next_id c; phase := phase c |},
   view i).

Definition steer (c : Coordinator) (q : QueuedInput) : Coordinator * TurnInput :=
  let '(c, message) := identify c (input q) in
  ({| queue := queue c;
      steering := bt_insert (ti_id message) {| input := message; receipt := receipt q |}
                    (steering c);
      next_id := next_id c; phase := phase c |},
   message).

Fixpoint steer_all (c : Coordinator) (queued : list QueuedInput) : Coordinator * list TurnInput :=
  match queued with
  | [] => (c, [])
  | q :: rest =>
      let '(c, message) := steer c q in
      let '(c, messages) := steer_all c rest in
      (c, message :: messages)
  end.

Definition flush (c : Coordinator) : Coordinator * list TurnInput :=
  steer_all {| queue := []; steering := steering c; next_id := next_id c; phase := phase c |}
    (queue c).

Definition has_pending_input (c : Coordinator) : bool :=
  match queue c, steering c with [], [] => false | _, _ => true end.

Definition committed (c : Coordinator) (id : N) : Coordinator * option R :=
  ({| queue := queue c; steering := bt_remove id (steering c);
      next_id := next_id c; phase := phase c |},
   bt_get id (steering c) ≫= receipt).

Definition defer (c : Coordinator) (id : N) : Coordinator * bool :=
  match bt_get id (steering c) with
  | Some q =>
      ({| queue := queue c ++ [q]; steering := bt_remove id (steering c);
          next_id := next_id c; phase := phase c |}, true)
  | None => (c, false)
  end.

(** [push_front] of the pending entries in reverse key order. *)
Definition recover_uncommitted (c : Coordinator) : Coordinator :=
  {| queue := fold_left (fun q item => item :: q) (rev (bt_values (steering c))) (queue c);
     steering := []; next_id := next_id c; phase := phase c |}.

Definition finish_turn (c : Coordinator) : Coordinator :=
  let paused := is_paused c in
  let c := recover_uncommitted c in
  set_phase c (if paused && negb (match queue c with [] => true | _ => false end)
               then Paused else Idle).

Definition previews (c : Coordinator) : list InputView :=
  map (fun q => view (input q)) (queue c).

Definition entries (c : Coordinator) : list (QueuedInput * InputDelivery) :=
  map (fun q => (q, Queue)) (queue c) ++ map (fun q => (q, Steer)) (bt_values (steering c)).

Definition is_human (q : QueuedInput) : bool := bool_decide (ti_source (input q) = Human).

Definition set_queue (c : Coordinator) (l : list QueuedInput) : Coordinator :=
  {| queue := l; steering := steering c; next_id := next_id c; phase := phase c |}.

Definition recall_human (c : Coordinator) : Coordinator * list QueuedInput :=
  (set_queue c (List.filter (fun q => negb (is_human q)) (queue c)),
   List.filter is_human (queue c)).

(** ** Submission and draining *)

Definition submit_when_idle (c : Coordinator) (q : QueuedInput) : NextTurn :=
  {| prompt := ti_text (input q); echoes := []; consumed := 1;
     receipts := option_list (receipt q) |}.

Definition submit_during_turn (c : Coordinator) (q : QueuedInput) (mode : QueueMode) :
  Coordinator * SubmitOutcome :=
  if queue_enabled mode then (fst (enqueue c q), SubmitQueued) else (c, SubmitRejected).

Definition drain_next (c : Coordinator) : Coordinator * option NextTurn :=
  match queue c with
  | [] => (c, None)
  | q :: rest =>
      let items := q :: rest in
      (set_queue c [],
       Some {| prompt := join (newline ++ newline)%string (map (fun i => ti_text (input i)) items);
               echoes := map (fun i => view (input i)) items;
               consumed := length items;
               receipts := flat_map (fun i => option_list (receipt i)) items |})
  end.

Definition dequeue_all_human (c : Coordinator) : Coordinator * option string :=
  if negb (existsb is_human (queue c)) then (c, None)
  else (set_queue c (List.filter (fun q => negb (is_human q)) (queue c)),
        Some (join newline (map (fun q => ti_text (input q)) (List.filter is_human (queue c))))).

Definition clear (c : Coordinator) : Coordinator :=
  {| queue := []; steering := []; next_id := next_id c; phase := phase c |}.
End Coordinator.

Arguments QueuedInput : clear implicits.
Arguments NextTurn : clear implicits.
Arguments Coordinator : clear implicits.

(** ** Correctness

    [owned] is everything the coordinator is responsible for.  The invariant
    [coord_wf] says that steering is keyed by the input's own id and that the
    ids of the owned inputs are pairwise distinct, non-zero and already
    allocated. *)

Section Correctness.
Context {R : Type}.
Implicit Types c : Coordinator R.
Implicit Types q : QueuedInput R.

Definition qid q : N := ti_id (input q).
Definition owned c : list (QueuedInput R) := queue c ++ bt_values (steering c).
Definition owned_ids c : list N := map qid (owned c).

Record coord_wf c : Prop := {
  wf_sorted : bt_sorted (steering c);
  wf_keyed : Forall (fun e => qid (snd e) = fst e) (steering c);
  wf_alloc : Forall (fun id => (0 < id <= next_id c)%N) (owned_ids c);
  wf_nodup : NoDup (owned_ids c)
}.

Lemma new_wf : coord_wf coordinator_new.
Proof. split; repeat constructor. Qed.

Lemma keyed_keys (m : list (N * QueuedInput R)) :
  Forall (fun e => qid (snd e) = fst e) m -> map qid (bt_values m) = bt_keys m.
Proof.
  unfold bt_values, bt_keys. induction 1 as [|[k v] m Hk _ IH]; cbn in *; [done|].
  by rewrite IH, Hk.
Qed.

Lemma bt_values_perm (m m' : list (N * QueuedInput R)) :
  m ≡ₚ m' -> bt_values m ≡ₚ bt_values m'.
Proof. apply Permutation_map. Qed.

(** The invariant only depends on the owned multiset, the counter and the shape of
    steering. *)
Lemma wf_transfer c c' :
  coord_wf c -> owned c' ≡ₚ owned c -> (next_id c <= next_id c')%N ->
  bt_sorted (steering c') -> Forall (fun e => qid (snd e) = fst e) (steering c') ->
  coord_wf c'.
Proof.
  intros [Hs Hk Ha Hn] Hp Hle Hs' Hk'.
  assert (owned_ids c' ≡ₚ owned_ids c) as Hids by (by apply Permutation_map).
  split; [done|done|rewrite Hids|by rewrite Hids].
  eapply Forall_impl; [exact Ha|]. cbn. lia.
Qed.

Lemma wf_phase c p : coord_wf c -> coord_wf (set_phase c p).
Proof. by intros [? ? ? ?]. Qed.

(** Taking items away keeps the invariant. *)
Lemma wf_sub c c' :
  coord_wf c -> owned c' ⊆+ owned c -> next_id c' = next_id c ->
  bt_sorted (steering c') -> Forall (fun e => qid (snd e) = fst e) (steering c') ->
  coord_wf c'.
Proof.
  intros [Hs Hk Ha Hn] [l Hp]%submseteq_Permutation Heq Hs' Hk'.
  assert (owned_ids c ≡ₚ owned_ids c' ++ map qid l) as Hids.
  { unfold owned_ids at 1. by rewrite Hp, map_app. }
  rewrite Hids in Ha, Hn. apply Forall_app in Ha as [Ha _]. apply NoDup_app in Hn as [Hn _].
  split; [done|done| |done]. by rewrite Heq.
Qed.

(** *** Allocation *)

Definition fresh_input c q : QueuedInput R :=
  {| input := with_id (input q) (next_id c + 1); receipt := receipt q |}.

Definition bump c : Coordinator R :=
  {| queue := queue c; steering := steering c; next_id := next_id c + 1; phase := phase c |}.

Lemma identify_fresh c (i : TurnInput) :
  ti_id i = 0%N -> (next_id c < u64_max)%N ->
  identify c i = (bump c, with_id i (next_id c + 1)).
Proof.
  intros H0 Hmax. unfold identify. rewrite H0. cbn.
  rewrite u64_add_small by (unfold u64_max, u64_mod in *; lia). done.
Qed.

Lemma wf_bump_add c c' q :
  coord_wf c -> owned c' ≡ₚ fresh_input c q :: owned c -> next_id c' = (next_id c + 1)%N ->
  bt_sorted (steering c') -> Forall (fun e => qid (snd e) = fst e) (steering c') ->
  coord_wf c'.
Proof.
  intros [Hs Hk Ha Hn] Hp Heq Hs' Hk'.
  assert (owned_ids c' ≡ₚ (next_id c + 1)%N :: owned_ids c) as Hids.
  { unfold owned_ids. by rewrite Hp. }
  split; [done|done|rewrite Hids, Heq|rewrite Hids].
  - constructor; [lia|]. eapply Forall_impl; [exact Ha|]. cbn. lia.
  - constructor; [|done]. rewrite Forall_forall in Ha. intros Hin. specialize (Ha _ Hin). lia.
Qed.

Lemma enqueue_fresh c q :
  ti_id (input q) = 0%N -> (next_id c < u64_max)%N ->
  enqueue c q =
    ({| queue := queue c ++ [fresh_input c q]; steering := steering c;
        next_id := next_id c + 1; phase := phase c |}, view (input (fresh_input c q))).
Proof. intros H0 Hmax. unfold enqueue. by rewrite identify_fresh. Qed.

Lemma enqueue_wf c q :
  coord_wf c -> ti_id (input q) = 0%N -> (next_id c < u64_max)%N ->
  coord_wf (fst (enqueue c q)) /\ owned (fst (enqueue c q)) ≡ₚ fresh_input c q :: owned c.
Proof.
  intros Hwf H0 Hmax. rewrite enqueue_fresh by done. cbn [fst].
  assert (owned {| queue := queue c ++ [fresh_input c q]; steering := steering c;
        next_id := next_id c + 1; phase := phase c |} ≡ₚ fresh_input c q :: owned c) as Hp.
  { unfold owned; cbn. rewrite <- app_assoc. cbn. by rewrite <- Permutation_middle. }
  split; [|done]. by eapply wf_bump_add; try apply Hp; try apply Hwf.
Qed.

(** Inserting an unused key into steering. *)
Lemma steer_insert_owned c q :
  coord_wf c -> ~ In (qid q) (bt_keys (steering c)) ->
  bt_values (bt_insert (qid q) q (steering c)) ≡ₚ q :: bt_values (steering c).
Proof. intros Hwf Hn. by rewrite (bt_values_perm _ _ (bt_insert_perm _ q _ Hn)). Qed.

Lemma insert_keyed q (m : list (N * QueuedInput R)) :
  Forall (fun e => qid (snd e) = fst e) m ->
  Forall (fun e => qid (snd e) = fst e) (bt_insert (qid q) q m).
Proof.
  induction 1 as [|[k v] m Hk Hm IH]; cbn; [by repeat constructor|].
  destruct (qid q <? k)%N; [by repeat constructor|].
  destruct (qid q =? k)%N; by repeat constructor.
Qed.

Lemma steering_keys_owned c k : coord_wf c -> In k (bt_keys (steering c)) -> In k (owned_ids c).
Proof.
  intros Hwf Hk. unfold owned_ids, owned. rewrite map_app. apply in_or_app. right.
  rewrite keyed_keys; [done|apply Hwf].
Qed.

Lemma steer_fresh_wf c q :
  coord_wf c -> ti_id (input q) = 0%N -> (next_id c < u64_max)%N ->
  steer c q =
    ({| queue := queue c;
        steering := steering c ++ [((next_id c + 1)%N, fresh_input c q)];
        next_id := next_id c + 1; phase := phase c |}, input (fresh_input c q))
  /\ coord_wf (fst (steer c q)) /\ owned (fst (steer c q)) ≡ₚ fresh_input c q :: owned c.
Proof.
  intros Hwf H0 Hmax. unfold steer. rewrite identify_fresh by done. cbn.
  fold (fresh_input c q).
  assert (Forall (fun x => (x < next_id c + 1)%N) (bt_keys (steering c))) as Hlt.
  { apply Forall_forall. intros x Hx%list_elem_of_In. apply steering_keys_owned in Hx; [|done].
    pose proof (wf_alloc _ Hwf) as Ha. rewrite Forall_forall in Ha.
    apply list_elem_of_In in Hx. specialize (Ha _ Hx). lia. }
  assert (~ In (next_id c + 1)%N (bt_keys (steering c))) as Hni.
  { intros Hx%list_elem_of_In. rewrite Forall_forall in Hlt. specialize (Hlt _ Hx). lia. }
  set (q' := fresh_input c q).
  assert (queue c ++ bt_values (bt_insert (qid q') q' (steering c)) ≡ₚ q' :: owned c) as Hp.
  { rewrite steer_insert_owned by done. by rewrite <- Permutation_middle. }
  split_and!.
  - by rewrite bt_insert_last.
  - apply (wf_bump_add c _ q); [done|exact Hp|done|cbn..].
    + apply bt_insert_sorted, Hwf.
    + apply (insert_keyed q'), Hwf.
  - exact Hp.
Qed.

(** *** Flush *)

Lemma steer_owned c q :
  qid q <> 0%N ->
  steer c q =
    ({| queue := queue c; steering := bt_insert (qid q) q (steering c);
        next_id := next_id c; phase := phase c |}, input q).
Proof.
  intros H0. unfold steer, identify. unfold qid in H0.
  destruct (N.eqb_spec (ti_id (input q)) 0); [done|]. by destruct q.
Qed.

Fixpoint insert_all (l : list (QueuedInput R)) (m : list (N * QueuedInput R)) :=
  match l with [] => m | q :: l => insert_all l (bt_insert (qid q) q m) end.

Lemma steer_all_owned l c :
  Forall (fun q => qid q <> 0%N) l ->
  steer_all c l =
    ({| queue := queue c; steering := insert_all l (steering c);
        next_id := next_id c; phase := phase c |}, map input l).
Proof.
  intros H. revert c. induction H as [|q l Hq _ IH]; intros c; cbn [steer_all insert_all].
  - by destruct c.
  - rewrite steer_owned by done. rewrite IH. done.
Qed.

Lemma insert_all_sorted l (m : list (N * QueuedInput R)) :
  bt_sorted m -> bt_sorted (insert_all l m).
Proof. revert m. induction l; intros m Hm; cbn; [done|]. by apply IHl, bt_insert_sorted. Qed.

Lemma insert_all_keyed l (m : list (N * QueuedInput R)) :
  Forall (fun e => qid (snd e) = fst e) m ->
  Forall (fun e => qid (snd e) = fst e) (insert_all l m).
Proof. revert m. induction l; intros m Hm; cbn; [done|]. by apply IHl, insert_keyed. Qed.

Lemma insert_all_perm l (m : list (N * QueuedInput R)) :
  NoDup (map qid l ++ bt_keys m) -> bt_values (insert_all l m) ≡ₚ l ++ bt_values m.
Proof.
  revert m. induction l as [|q l IH]; intros m Hn; cbn [insert_all map app] in *; [done|].
  inversion Hn as [|? ? Hq Hn']; subst.
  assert (~ In (qid q) (bt_keys m)) as Hqm.
  { intros Hi%list_elem_of_In. apply Hq. set_solver. }
  assert (bt_keys (bt_insert (qid q) q m) ≡ₚ qid q :: bt_keys m) as Hk.
  { unfold bt_keys. by rewrite (bt_insert_perm _ q _ Hqm). }
  rewrite IH.
  - rewrite (bt_values_perm _ _ (bt_insert_perm _ q _ Hqm)). unfold bt_values. cbn [map snd].
    by rewrite <- Permutation_middle.
  - rewrite Hk. rewrite <- Permutation_middle. done.
Qed.

Lemma owned_ids_nonzero c : coord_wf c -> Forall (fun q => qid q <> 0%N) (queue c).
Proof.
  intros Hwf. pose proof (wf_alloc _ Hwf) as Ha. unfold owned_ids, owned in Ha.
  rewrite map_app in Ha. apply Forall_app in Ha as [Ha _]. rewrite Forall_map in Ha.
  eapply Forall_impl; [exact Ha|]. cbn. lia.
Qed.

Lemma flush_owned c :
  coord_wf c ->
  flush c = ({| queue := []; steering := insert_all (queue c) (steering c);
                next_id := next_id c; phase := phase c |}, map input (queue c)).
Proof. intros Hwf. unfold flush. rewrite steer_all_owned by (by apply owned_ids_nonzero). done. Qed.

Lemma flush_keeps c :
  coord_wf c ->
  coord_wf (fst (flush c)) /\ owned (fst (flush c)) ≡ₚ owned c /\ queue (fst (flush c)) = [].
Proof.
  intros Hwf. rewrite flush_owned by done. cbn [fst queue].
  assert (owned {| queue := []; steering := insert_all (queue c) (steering c);
                next_id := next_id c; phase := phase c |} ≡ₚ owned c) as Hp.
  { unfold owned; cbn. apply insert_all_perm.
    rewrite <- (keyed_keys (steering c)) by apply Hwf. rewrite <- map_app. apply (wf_nodup _ Hwf). }
  split_and!; [|done|done].
  eapply wf_transfer; [done|done|cbn; lia|cbn..].
  - apply insert_all_sorted, Hwf.
  - apply insert_all_keyed, Hwf.
Qed.
(** *** Giving back *)

Lemma push_front_rev {A} (l acc : list A) :
  fold_left (fun front item => item :: front) (rev l) acc = l ++ acc.
Proof. induction l as [|x l IH] in acc |- *; cbn; [done|]. by rewrite fold_left_app, IH. Qed.

Lemma recover_queue c : queue (recover_uncommitted c) = bt_values (steering c) ++ queue c.
Proof. apply push_front_rev. Qed.

Lemma recover_keeps c :
  coord_wf c ->
  coord_wf (recover_uncommitted c) /\ owned (recover_uncommitted c) ≡ₚ owned c.
Proof.
  intros Hwf. assert (owned (recover_uncommitted c) ≡ₚ owned c) as Hp.
  { unfold owned. rewrite recover_queue. cbn. by rewrite app_nil_r, Permutation_app_comm. }
  split; [|done]. eapply wf_transfer; [done|done|cbn; lia|constructor|constructor].
Qed.

Lemma bt_remove_keyed k (m : list (N * QueuedInput R)) :
  Forall (fun e => qid (snd e) = fst e) m ->
  Forall (fun e => qid (snd e) = fst e) (bt_remove k m).
Proof.
  induction 1 as [|[k' v] m Hk Hm IH]; cbn; [done|]. destruct (k =? k')%N; [done|by constructor].
Qed.

Lemma steering_removed c k q :
  bt_get k (steering c) = Some q ->
  owned c ≡ₚ q :: (queue c ++ bt_values (bt_remove k (steering c))).
Proof.
  intros Hk. unfold owned. rewrite (bt_values_perm _ _ (bt_remove_perm _ _ _ Hk)).
  unfold bt_values. cbn [map snd]. by rewrite <- Permutation_middle.
Qed.

Lemma bt_remove_absent k (m : list (N * QueuedInput R)) :
  bt_get k m = None -> bt_remove k m = m.
Proof.
  induction m as [|[k' v] m IH]; cbn; [done|]. destruct (k =? k')%N; [done|].
  intros H. by rewrite IH.
Qed.

Lemma committed_keeps c id :
  coord_wf c ->
  coord_wf (fst (committed c id)) /\
  owned c ≡ₚ option_list (bt_get id (steering c)) ++ owned (fst (committed c id)).
Proof.
  intros Hwf.
  assert (owned c ≡ₚ option_list (bt_get id (steering c)) ++ owned (fst (committed c id))) as Hp.
  { destruct (bt_get id (steering c)) as [q|] eqn:Hk; cbn [option_list app].
    - exact (steering_removed _ _ _ Hk).
    - unfold owned; cbn. by rewrite bt_remove_absent. }
  split; [|done]. eapply wf_sub; [exact Hwf| |done|..]; cbn.
  - rewrite Hp. apply submseteq_inserts_l. done.
  - apply bt_remove_sorted, Hwf.
  - apply bt_remove_keyed, Hwf.
Qed.

Lemma defer_keeps c id :
  coord_wf c -> coord_wf (fst (defer c id)) /\ owned (fst (defer c id)) ≡ₚ owned c.
Proof.
  intros Hwf. unfold defer. destruct (bt_get id (steering c)) as [q|] eqn:Hk; [|done].
  assert (owned {| queue := queue c ++ [q]; steering := bt_remove id (steering c);
                   next_id := next_id c; phase := phase c |} ≡ₚ owned c) as Hp.
  { rewrite (steering_removed _ _ _ Hk). unfold owned; cbn. rewrite <- app_assoc. cbn.
    by rewrite <- Permutation_middle. }
  split; [|done]. eapply wf_transfer; [done|done|cbn; lia|cbn..].
  - apply bt_remove_sorted, Hwf.
  - apply bt_remove_keyed, Hwf.
Qed.

Lemma finish_keeps c :
  coord_wf c -> coord_wf (finish_turn c) /\ owned (finish_turn c) ≡ₚ owned c.
Proof. intros [? ?]%recover_keeps. split; [by apply wf_phase|done]. Qed.

(** Dropping items from the queue. *)
Lemma set_queue_keeps c (l gone : list (QueuedInput R)) :
  coord_wf c -> queue c ≡ₚ gone ++ l ->
  coord_wf (set_queue c l) /\ owned c ≡ₚ gone ++ owned (set_queue c l).
Proof.
  intros Hwf Hq. assert (owned c ≡ₚ gone ++ owned (set_queue c l)) as Hp.
  { unfold owned; cbn. by rewrite Hq, app_assoc. }
  split; [|done]. eapply wf_sub; [exact Hwf| |done|apply Hwf|apply Hwf].
  rewrite Hp. apply submseteq_inserts_l. done.
Qed.

(** *** Runs of the coordinator *)

Inductive CoordOp :=
| OpStartTurn | OpTurnStarted | OpCancelTurn | OpResume | OpFinishTurn
| OpEnqueue (q : QueuedInput R) | OpSteer (q : QueuedInput R) | OpFlush
| OpCommit (id : N) | OpDefer (id : N) | OpRecover
| OpRecallHuman | OpSubmitDuringTurn (q : QueuedInput R) (mode : QueueMode)
| OpDrainNext | OpDequeueAllHuman | OpClear.

(** What the coordinator took responsibility for, and what it handed over:
    durably consumed, recalled, drained into a turn or cleared. *)
Record Books := { accepted_inputs : list (QueuedInput R); handed_over : list (QueuedInput R) }.

Definition stored q (id : N) : QueuedInput R :=
  {| input := with_id (input q) id; receipt := receipt q |}.

Definition accept (b : Books) (l : list (QueuedInput R)) : Books :=
  {| accepted_inputs := accepted_inputs b ++ l; handed_over := handed_over b |}.
Definition hand_over (b : Books) (l : list (QueuedInput R)) : Books :=
  {| accepted_inputs := accepted_inputs b; handed_over := handed_over b ++ l |}.

(** The inputs a drained turn carries: all of them, when its prompt is their texts and its echoes
    are theirs. *)
Definition carried (t : NextTurn R) (items : list (QueuedInput R)) : list (QueuedInput R) :=
  if bool_decide (prompt t = join (newline ++ newline)%string (map (fun q => ti_text (input q)) items)
                  /\ map view_id (echoes t) = map qid items /\ consumed t = length items)
  then items else [].
(** The inputs a recalled text holds. *)
Definition recalled (text : string) (items : list (QueuedInput R)) : list (QueuedInput R) :=
  if bool_decide (text = join newline (map (fun q => ti_text (input q)) items)) then items else [].

Definition coord_step (s : Coordinator R * Books) (op : CoordOp) : Coordinator R * Books :=
  let '(c, b) := s in
  match op with
  | OpStartTurn => (start_turn c, b)
  | OpTurnStarted => (fst (turn_started c), b)
  | OpCancelTurn => (cancel_turn c, b)
  | OpResume => (resume c, b)
  | OpFinishTurn => (finish_turn c, b)
  | OpEnqueue q => let '(c', v) := enqueue c q in (c', accept b [stored q (view_id v)])
  | OpSteer q => let '(c', i) := steer c q in (c', accept b [stored q (ti_id i)])
  | OpFlush => (fst (flush c), b)
  | OpCommit id => (fst (committed c id), hand_over b (option_list (bt_get id (steering c))))
  | OpDefer id => (fst (defer c id), b)
  | OpRecover => (recover_uncommitted c, b)
  | OpRecallHuman => let '(c', l) := recall_human c in (c', hand_over b l)
  | OpSubmitDuringTurn q mode =>
      match submit_during_turn c q mode with
      | (c', SubmitQueued) => (c', accept b [stored q (next_id c')])
      | (c', SubmitRejected) => (c', b)
      end
  | OpDrainNext =>
      match drain_next c with
      | (c', Some t) => (c', hand_over b (carried t (queue c)))
      | (c', None) => (c', b)
      end
  | OpDequeueAllHuman =>
      match dequeue_all_human c with
      | (c', Some text) => (c', hand_over b (recalled text (List.filter is_human (queue c))))
      | (c', None) => (c', b)
      end
  | OpClear => (clear c, hand_over b (owned c))
  end.

(** Inputs reach the coordinator without an identity. *)
Definition op_fresh (op : CoordOp) : Prop :=
  match op with
  | OpEnqueue q | OpSteer q | OpSubmitDuringTurn q _ => ti_id (input q) = 0%N
  | _ => True
  end.

Definition coord_run (ops : list CoordOp) : Coordinator R * Books :=
  fold_left coord_step ops (coordinator_new, {| accepted_inputs := []; handed_over := [] |}).

Record books_ok (n : N) (s : Coordinator R * Books) : Prop := {
  bo_wf : coord_wf (fst s);
  bo_balance : accepted_inputs (snd s) ≡ₚ handed_over (snd s) ++ owned (fst s);
  bo_unique : NoDup (map qid (accepted_inputs (snd s)));
  bo_alloc : Forall (fun id => (0 < id <= next_id (fst s))%N) (map qid (accepted_inputs (snd s)));
  bo_count : (next_id (fst s) <= n)%N
}.

Lemma books_move n c b c' gone :
  books_ok n (c, b) -> coord_wf c' -> owned c ≡ₚ gone ++ owned c' -> next_id c' = next_id c ->
  books_ok (n + 1) (c', hand_over b gone).
Proof.
  intros [Hwf Hb Hu Ha Hc] Hwf' Hp Hid. cbn in *. split; cbn; [done| |done| |].
  - by rewrite Hb, Hp, app_assoc.
  - by rewrite Hid.
  - lia.
Qed.

Lemma books_same n c b c' :
  books_ok n (c, b) -> coord_wf c' -> owned c' ≡ₚ owned c -> next_id c' = next_id c ->
  books_ok (n + 1) (c', b).
Proof.
  intros H Hwf Hp Hid. apply (books_move n c b c' []) in H; [|done..].
  destruct b as [a h]. unfold hand_over in H. cbn in H. by rewrite app_nil_r in H.
Qed.

Lemma books_new n c b c' q :
  books_ok n (c, b) -> coord_wf c' -> owned c' ≡ₚ fresh_input c q :: owned c ->
  next_id c' = (next_id c + 1)%N ->
  books_ok (n + 1) (c', accept b [fresh_input c q]).
Proof.
  intros [Hwf Hb Hu Ha Hc] Hwf' Hp Hid. cbn in *.
  assert (map qid (accepted_inputs b ++ [fresh_input c q]) ≡ₚ
          (next_id c + 1)%N :: map qid (accepted_inputs b)) as Hids.
  { rewrite map_app. cbn. by rewrite Permutation_app_comm. }
  split; cbn; [done| |rewrite Hids|rewrite Hids|].
  - rewrite Hb, Hp, <- app_assoc. apply Permutation_app_head. by rewrite Permutation_app_comm.
  - constructor; [|done]. intros Hin. rewrite Forall_forall in Ha. specialize (Ha _ Hin). lia.
  - rewrite Hid. constructor; [lia|]. eapply Forall_impl; [exact Ha|]. cbn. lia.
  - lia.
Qed.

Lemma books_phase n c b p : books_ok n (c, b) -> books_ok (n + 1) (set_phase c p, b).
Proof. intros H. eapply books_same; [done|apply wf_phase, H|done|done]. Qed.

Lemma books_later n s : books_ok n s -> books_ok (n + 1) s.
Proof. intros [? ? ? ? ?]. split; [done..|lia]. Qed.

Lemma books_enqueue n c b q :
  books_ok n (c, b) -> ti_id (input q) = 0%N -> (n + 1 <= u64_max)%N ->
  books_ok (n + 1) (fst (enqueue c q), accept b [fresh_input c q]).
Proof.
  intros H H0 Hn. pose proof (bo_count _ _ H) as Hc. cbn in Hc.
  destruct (enqueue_wf c q) as [Hwf Hp]; [apply H|done|lia|].
  eapply books_new; [done|done|done|]. by rewrite enqueue_fresh by (done || lia).
Qed.

Lemma coord_step_ok n s op :
  books_ok n s -> op_fresh op -> (n + 1 <= u64_max)%N -> books_ok (n + 1) (coord_step s op).
Proof.
  destruct s as [c b]. intros H Hop Hn. pose proof (bo_wf _ _ H) as Hwf. cbn in Hwf.
  pose proof (bo_count _ _ H) as Hc. cbn in Hc.
  destruct op; cbn [coord_step op_fresh] in *.
  - by apply books_phase.
  - unfold turn_started. destruct (phase c); cbn; (by apply books_phase) || (by apply books_later).
  - by apply books_phase.
  - unfold resume. destruct (phase c); (by apply books_phase) || (by apply books_later).
  - destruct (finish_keeps c) as [? ?]; [done|]. by eapply books_same.
  - pose proof (books_enqueue n c b q H Hop Hn) as He. rewrite enqueue_fresh in * by (done || lia).
    exact He.
  - destruct (steer_fresh_wf c q) as (Heq & Hwf' & Hp); [done|done|lia|].
    rewrite Heq in Hwf', Hp |- *. by eapply books_new.
  - destruct (flush_keeps c) as (? & ? & _); [done|]. eapply books_same; [done|done|done|].
    by rewrite flush_owned.
  - destruct (committed_keeps c id) as [? ?]; [done|]. by eapply books_move.
  - destruct (defer_keeps c id) as [? ?]; [done|]. eapply books_same; [done|done|done|].
    unfold defer. by case_goal.
  - destruct (recover_keeps c) as [? ?]; [done|]. by eapply books_same.
  - unfold recall_human. destruct (set_queue_keeps c
      (List.filter (fun q => negb (is_human q)) (queue c)) (List.filter is_human (queue c)))
      as [? ?]; [done|apply filter_split|]. by eapply books_move.
  - unfold submit_during_turn. destruct (queue_enabled mode); [|by apply books_later].
    pose proof (books_enqueue n c b q H Hop Hn) as He. rewrite enqueue_fresh in * by (done || lia).
    exact He.
  - destruct (set_queue_keeps c [] (queue c)) as [? ?]; [done|by rewrite app_nil_r|].
    unfold drain_next. destruct (queue c) as [|q rest] eqn:Hq; [by apply books_later|].
    unfold carried. rewrite bool_decide_eq_true_2; [by eapply books_move|]. split_and!; [done| |done].
    cbn [echoes]. by rewrite map_map.
  - unfold dequeue_all_human. destruct (existsb is_human (queue c)) eqn:He; cbn [negb]; [|by apply books_later].
    unfold recalled. rewrite bool_decide_eq_true_2 by done. destruct (set_queue_keeps c
      (List.filter (fun q => negb (is_human q)) (queue c)) (List.filter is_human (queue c)))
      as [? ?]; [done|apply filter_split|]. by eapply books_move.
  - eapply books_move; [done| |by rewrite app_nil_r|done].
    split; repeat constructor.
Qed.

Lemma coord_run_ok ops n s :
  books_ok n s -> Forall op_fresh ops -> (n + N.of_nat (length ops) <= u64_max)%N ->
  books_ok (n + N.of_nat (length ops)) (fold_left coord_step ops s).
Proof.
  revert n s. induction ops as [|op ops IH]; intros n s Hs Hf Hn; cbn [fold_left length] in *.
  - by rewrite N.add_0_r.
  - inversion Hf; subst. replace (n + N.of_nat (S (length ops)))%N
      with ((n + 1) + N.of_nat (length ops))%N by lia.
    apply IH; [|done|lia]. apply coord_step_ok; [done|done|lia].
Qed.

(** C23. Exactly-once ownership: after any sequence of coordinator operations on
    inputs that arrive without an identity (fewer than [2^64] operations), every
    input it accepted is either handed over exactly once (durably consumed,
    recalled, in the prompt and echoes of a drained turn, in the text of the
    dequeued human inputs, or cleared) or still owned exactly once (queued
    or steered and unacknowledged); the ids it assigned are pairwise distinct and
    non-zero, and steering stays sorted and keyed by those ids. *)
Theorem coordinator_owns_exactly_once (ops : list CoordOp) :
  Forall op_fresh ops -> (N.of_nat (length ops) <= u64_max)%N ->
  let '(c, b) := coord_run ops in
  accepted_inputs b ≡ₚ handed_over b ++ owned c /\
  NoDup (map qid (accepted_inputs b)) /\
  Forall (fun id => (0 < id <= next_id c)%N) (map qid (accepted_inputs b)) /\
  coord_wf c.
Proof.
  intros Hf Hn. assert (books_ok (0 + N.of_nat (length ops)) (coord_run ops)) as [? ? ? ? _].
  { apply coord_run_ok; [|done|lia]. split; cbn; try done; [apply new_wf|constructor]. }
  by destruct (coord_run ops).
Qed.

Definition id_lt (q q' : QueuedInput R) : Prop := (qid q < qid q')%N.

Lemma steering_values_ordered c : coord_wf c -> StronglySorted id_lt (bt_values (steering c)).
Proof.
  intros Hwf. pose proof (wf_sorted _ Hwf) as Hs. unfold bt_sorted in Hs.
  rewrite <- keyed_keys in Hs by apply Hwf. unfold id_lt.
  induction (bt_values (steering c)) as [|q l IH]; [constructor|]. cbn in Hs.
  inversion Hs as [|? ? Hs' Hall]; subst. constructor; [by apply IH|].
  by rewrite Forall_map in Hall.
Qed.

Lemma insert_all_ordered l (m : list (N * QueuedInput R)) :
  StronglySorted id_lt l ->
  Forall (fun q => Forall (fun x => (x < qid q)%N) (bt_keys m)) l ->
  insert_all l m = m ++ map (fun q => (qid q, q)) l.
Proof.
  intros Hs. revert m. induction Hs as [|q l Hs IH Hall]; intros m Hm; cbn [insert_all map].
  - by rewrite app_nil_r.
  - inversion Hm as [|? ? Hq Hm']; subst. rewrite bt_insert_last by done.
    rewrite IH; [by rewrite <- app_assoc|].
    rewrite Forall_forall in Hm', Hall |- *. intros q' Hq'. unfold bt_keys. rewrite map_app.
    apply Forall_app. split; [by apply Hm'|]. repeat constructor. by apply Hall.
Qed.

(** Flushing and recovering is the identity on an idle coordinator whose queue
    is in submission order: after a failed or cancelled turn the leased batch is
    back in the queue, every item and receipt in its old position. *)
Theorem flush_recover_roundtrip c :
  coord_wf c -> steering c = [] -> StronglySorted id_lt (queue c) ->
  recover_uncommitted (fst (flush c)) = c.
Proof.
  intros Hwf Hst Hs. rewrite flush_owned by done. cbn [fst].
  rewrite Hst, insert_all_ordered by (done || by apply Forall_forall; repeat constructor).
  destruct c as [q s n p]; cbn in *; subst. unfold recover_uncommitted. cbn.
  rewrite push_front_rev, app_nil_r. f_equal. unfold bt_values. rewrite map_map. apply map_id.
Qed.

(** Whatever happened before, recovery leaves steering empty and puts the
    unacknowledged inputs in front of the queue in id order, ahead of everything
    queued during the turn; a turn that was cancelled with work left parks the
    session in [Paused] until it is resumed, and otherwise it is idle again. *)
Theorem finish_turn_recovers c :
  coord_wf c ->
  exists front,
    queue (finish_turn c) = front ++ queue c /\
    front ≡ₚ bt_values (steering c) /\ StronglySorted id_lt front /\
    steering (finish_turn c) = [] /\ next_id (finish_turn c) = next_id c /\
    (phase (finish_turn c) = Paused <-> is_paused c = true /\ owned c <> []) /\
    (phase (finish_turn c) = Idle <-> is_paused c = false \/ owned c = []).
Proof.
  intros Hwf. exists (bt_values (steering c)). split_and!; try done.
  - apply recover_queue.
  - by apply steering_values_ordered.
  - cbn. fold (queue (recover_uncommitted c)).
    change (fold_left _ _ _) with (queue (recover_uncommitted c)). rewrite recover_queue.
    unfold owned. destruct (is_paused c); cbn; [|naive_solver].
    destruct (bt_values (steering c)), (queue c); cbn; naive_solver.
  - cbn. change (fold_left _ _ _) with (queue (recover_uncommitted c)). rewrite recover_queue.
    unfold owned. destruct (is_paused c); cbn; [|naive_solver].
    destruct (bt_values (steering c)), (queue c); cbn; naive_solver.
Qed.
End Correctness.

(** ** The theorems at concrete sessions *)

Definition sample_run : list (@CoordOp unit) :=
  [OpEnqueue (queued_human "one" "one"); OpEnqueue (queued_peer "two" "two"); OpStartTurn; OpFlush;
   OpTurnStarted; OpSteer (queued_human "three" "three"); OpCommit 1%N; OpCancelTurn; OpFinishTurn].

Definition sample_queue : Coordinator unit :=
  {| queue := [stored (queued_human "one" "one") 1%N; stored (queued_peer "two" "two") 2%N];
     steering := []; next_id := 2%N; phase := Idle |}.

Definition sample_running : Coordinator unit :=
  {| queue := [stored (queued_human "late" "late") 3%N];
     steering := [(1%N, stored (queued_human "one" "one") 1%N)]; next_id := 3%N;
     phase := Cancelling false |}.

Lemma sample_queue_wf : coord_wf sample_queue.
Proof.
  split; [constructor|constructor| |].
  - change (owned_ids sample_queue) with [1%N; 2%N]. repeat (constructor; [cbn; lia|]). constructor.
  - change (owned_ids sample_queue) with [1%N; 2%N]. apply (bool_decide_unpack _); vm_compute; exact I.
Qed.

Lemma sample_running_wf : coord_wf sample_running.
Proof.
  split.
  - repeat constructor.
  - repeat constructor.
  - change (owned_ids sample_running) with [3%N; 1%N]. repeat (constructor; [cbn; lia|]). constructor.
  - change (owned_ids sample_running) with [3%N; 1%N]. apply (bool_decide_unpack _); vm_compute; exact I.
Qed.

Lemma coordinator_owns_exactly_once_witness :
  length (handed_over (snd (coord_run sample_run))) = 1 /\
  length (owned (fst (coord_run sample_run))) = 2 /\
  let '(c, b) := coord_run sample_run in
  accepted_inputs b ≡ₚ handed_over b ++ owned c /\
  NoDup (map qid (accepted_inputs b)) /\
  Forall (fun id => (0 < id <= next_id c)%N) (map qid (accepted_inputs b)) /\
  coord_wf c.
Proof.
  split; [reflexivity|]. split; [reflexivity|].
  apply coordinator_owns_exactly_once; [repeat constructor|discriminate].
Defined.

Lemma flush_recover_roundtrip_witness :
  length (bt_values (steering (fst (flush sample_queue)))) = 2 /\
  recover_uncommitted (fst (flush sample_queue)) = sample_queue.
Proof.
  split; [reflexivity|].
  apply flush_recover_roundtrip; [apply sample_queue_wf|reflexivity|repeat constructor].
Defined.

Lemma finish_turn_recovers_witness :
  exists front,
    queue (finish_turn sample_running) = front ++ queue sample_running /\
    front ≡ₚ bt_values (steering sample_running) /\ StronglySorted id_lt front /\
    steering (finish_turn sample_running) = [] /\
    next_id (finish_turn sample_running) = next_id sample_running /\
    (phase (finish_turn sample_running) = Paused <->
       is_paused sample_running = true /\ owned sample_running <> []) /\
    (phase (finish_turn sample_running) = Idle <->
       is_paused sample_running = false \/ owned sample_running = []).
Proof. apply (finish_turn_recovers sample_running), sample_running_wf. Defined.
