(* ===== verification/CoordinatorMode.v ===== *)
(** * Coordinator mode and task notifications (runtime/src/coordinator_mode.rs)

    The tool gate of coordinator mode and the writer of the
    [<task-notification>] block, the one shape in which the outcome of background
    work reaches the model.  Markup characters are ASCII, so escaping char by
    char and byte by byte agree. *)
From S2P Require Import Prelude.
From stdpp Require Import list.
From S2P Require Import RustStr ToolNames.

(** ** The tool gate *)

Definition coordinator_allowed_tools : list string :=
  ["agent_spawn"; "send"; "pid_kill"; "pid_status"; "pid_output"; "pid_fork";
   "Skill"; "WebSearch"; "WebFetch";
   "read_file"; "read_tool_output"; "glob_search"; "grep_search";
   "TodoWrite"; "set_tip"; "AskUserQuestion"; "StructuredOutput"; "ToolSearch"].

(** [mode] is the value of [is_coordinator_mode()], an experiment flag. *)
Definition is_tool_allowed_in_coordinator_mode (mode : bool) (tool_name : string) : bool :=
  if negb mode then true
  else str_in (canonicalize_tool_name tool_name) coordinator_allowed_tools.

(** ** Notifications *)

Definition nl : string := String (ascii_of_nat 10) "".
Definition dquote : ascii := ascii_of_nat 34.
Definition squote : ascii := ascii_of_nat 39.

Record TaskNotificationView := {
  tn_agent_id : string;
  tn_status : string;
  tn_summary : string;
  tn_result : option string;
  tn_color : option string;
  tn_duration_ms : option N;
  tn_tool_uses : option N;
  tn_total_tokens : option N
}.

Definition normalize_task_notification_status (status : string) : string :=
  let lowered := to_ascii_lowercase (trim status) in
  if str_in lowered ["completed"; "success"; "succeeded"; "done"; "finished"] then "completed"
  else if str_in lowered ["killed"; "stopped"; "aborted"; "cancelled"; "canceled"] then "killed"
  else "failed".

Definition xml_entity (ch : ascii) : string :=
  if Ascii.eqb ch "&" then "&amp;"
  else if Ascii.eqb ch "<" then "&lt;"
  else if Ascii.eqb ch ">" then "&gt;"
  else if Ascii.eqb ch dquote then "&quot;"
  else if Ascii.eqb ch squote then "&apos;"
  else String ch "".

Fixpoint xml_escaped (s : string) : string :=
  match s with
  | EmptyString => ""
  | String ch r => xml_entity ch ++ xml_escaped r
  end%string.

Definition push_xml_escaped (out s : string) : string := (out ++ xml_escaped s)%string.

(** [TaskNotificationWriter::{new, element, finish}] on the writer's buffer. *)
Definition writer_element (output name value : string) : string :=
  (push_xml_escaped (output ++ "<" ++ name ++ ">") value ++ "</" ++ name ++ ">" ++ nl)%string.

Definition writer_new (task_id status : string) : string :=
  let output := ("<task-notification>" ++ nl)%string in
  let output := writer_element output "task-id" task_id in
  writer_element output "status" status.

Definition writer_finish (output : string) : string := (output ++ "</task-notification>")%string.

Definition counter (name : string) (n : option N) : string :=
  match n with
  | Some n => ("<" ++ name ++ ">" ++ pretty n ++ "</" ++ name ++ ">")%string
  | None => ""
  end.

Definition opt_element (output name : string) (value : option string) : string :=
  match value with Some v => writer_element output name v | None => output end.

Definition has_usage (v : TaskNotificationView) : bool :=
  bool_decide (is_Some (tn_duration_ms v)) || bool_decide (is_Some (tn_tool_uses v))
  || bool_decide (is_Some (tn_total_tokens v)).

Definition render_task_notification (v : TaskNotificationView) : string :=
  let out := writer_new (tn_agent_id v) (tn_status v) in
  let out := writer_element out "summary" (tn_summary v) in
  let out := opt_element out "result" (tn_result v) in
  let out := opt_element out "color" (tn_color v) in
  let out :=
    if has_usage v then
      (out ++ "<usage>" ++ counter "total_tokens" (tn_total_tokens v)
        ++ counter "tool_uses" (tn_tool_uses v)
        ++ counter "duration_ms" (tn_duration_ms v) ++ "</usage>" ++ nl)%string
    else out in
  writer_finish out.

Definition render_terminal_task_notification (task_id status metadata output : string) : string :=
  let out := writer_new task_id status in
  let out := writer_element out "terminal" metadata in
  let out := writer_element out "result" output in
  writer_finish out.

Definition render_task_notification_if_enabled (mode : bool) (v : TaskNotificationView) :
  option string :=
  if mode then Some (render_task_notification v) else None.

(** ** A reader of the block

    The format the coordinator prompt documents, read back element by element:
    the reference the writer is checked against. *)

Fixpoint xml_unescaped_from (s : string) (skip : nat) : string :=
  match s with
  | EmptyString => ""
  | String c r =>
      match skip with
      | S k => xml_unescaped_from r k
      | 0 =>
          if Ascii.eqb c "&" then
            if is_prefix "amp;" r then String "&" (xml_unescaped_from r 4)
            else if is_prefix "lt;" r then String "<" (xml_unescaped_from r 3)
            else if is_prefix "gt;" r then String ">" (xml_unescaped_from r 3)
            else if is_prefix "quot;" r then String dquote (xml_unescaped_from r 5)
            else if is_prefix "apos;" r then String squote (xml_unescaped_from r 5)
            else String c (xml_unescaped_from r 0)
          else String c (xml_unescaped_from r 0)
      end
  end.
Definition xml_unescaped (s : string) : string := xml_unescaped_from s 0.

Definition read_element (s : string) : option (string * string * string) :=
  r ← strip_prefix s "<";
  i ← find_byte r (fun c => Ascii.eqb c ">");
  let name := str_take i r in
  let body := str_skip (S i) r in
  j ← find_byte body (fun c => Ascii.eqb c "<");
  rest ← strip_prefix (str_skip j body) ("</" ++ name ++ ">" ++ nl)%string;
  Some (name, xml_unescaped (str_take j body), rest).

Fixpoint read_elements (fuel : nat) (s : string) : list (string * string) * string :=
  match fuel with
  | 0 => ([], s)
  | S fuel =>
      match read_element s with
      | Some (name, value, rest) =>
          let '(l, t) := read_elements fuel rest in ((name, value) :: l, t)
      | None => ([], s)
      end
  end.

Definition read_notification (s : string) : option (list (string * string) * string) :=
  r ← strip_prefix s ("<task-notification>" ++ nl)%string; Some (read_elements (len r) r).

(** ** The writer and the reader agree *)

Lemma xml_unescaped_entity (ch : ascii) (r : string) :
  xml_unescaped_from (xml_entity ch ++ r)%string 0 = String ch (xml_unescaped_from r 0).
Proof.
  unfold xml_entity.
  repeat match goal with |- context [Ascii.eqb ch ?c] =>
    destruct (Ascii.eqb_spec ch c); [subst; reflexivity|] end.
  cbn. destruct (Ascii.eqb_spec ch "&"); [done|]. done.
Qed.

Lemma xml_unescaped_escaped (s : string) : xml_unescaped (xml_escaped s) = s.
Proof.
  unfold xml_unescaped. induction s as [|ch s IH]; [done|]. cbn [xml_escaped].
  by rewrite xml_unescaped_entity, IH.
Qed.

Definition not_markup (c : ascii) : bool := negb (Ascii.eqb c "<") && negb (Ascii.eqb c ">").

Lemma xml_escaped_no_markup (s : string) : all_bytes not_markup (xml_escaped s) = true.
Proof.
  induction s as [|ch s IH]; [done|]. cbn [xml_escaped]. rewrite all_bytes_app, IH, andb_true_r.
  unfold xml_entity.
  repeat match goal with |- context [Ascii.eqb ch ?c] =>
    destruct (Ascii.eqb_spec ch c); [subst; reflexivity|] end.
  cbn. unfold not_markup.
  destruct (Ascii.eqb_spec ch "<"); [done|]. by destruct (Ascii.eqb_spec ch ">").
Qed.

Lemma find_byte_app (p : ascii -> bool) (a : string) (c : ascii) (b : string) :
  all_bytes (fun c => negb (p c)) a = true -> p c = true ->
  find_byte (a ++ String c b)%string p = Some (len a).
Proof.
  intros Ha Hc. induction a as [|x a IH]; cbn in *; [by rewrite Hc|].
  apply andb_true_iff in Ha as [Hx Ha]. apply negb_true_iff in Hx. rewrite Hx, IH by done. done.
Qed.

Lemma strip_prefix_app (p r : string) : strip_prefix (p ++ r)%string p = Some r.
Proof.
  unfold strip_prefix, starts_with.
  replace (is_prefix p (p ++ r)%string) with true by (symmetry; apply prefix_app; eauto).
  by rewrite str_skip_app.
Qed.

Lemma str_skip_past (a : string) (c : ascii) (b : string) :
  str_skip (S (len a)) (a ++ String c b)%string = b.
Proof. induction a as [|x a IH]; [done|]. exact IH. Qed.

Definition element (name value : string) : string :=
  ("<" ++ name ++ ">" ++ xml_escaped value ++ "</" ++ name ++ ">" ++ nl)%string.

Lemma writer_element_app (output name value : string) :
  writer_element output name value = (output ++ element name value)%string.
Proof. unfold writer_element, push_xml_escaped, element. by rewrite !str_app_assoc. Qed.

Lemma read_element_element (name value rest : string) :
  all_bytes not_markup name = true ->
  read_element (element name value ++ rest)%string = Some (name, value, rest).
Proof.
  intros Hn. unfold read_element, element.
  rewrite str_app_assoc, strip_prefix_app. cbn [mbind option_bind].
  rewrite !str_app_assoc. change (">" ++ ?x)%string with (String ">" x).
  rewrite find_byte_app; [cbn [mbind option_bind]| |done].
  2: { eapply all_bytes_impl; [|exact Hn]. intros c [_ ?]%andb_true_iff. done. }
  rewrite str_take_app, str_skip_past.
  change ("</" ++ name ++ ">" ++ nl ++ rest)%string
    with (String "<" (String "/" (name ++ ">" ++ nl ++ rest)))%string.
  rewrite find_byte_app; [cbn [mbind option_bind]| |done].
  2: { eapply all_bytes_impl; [|apply (xml_escaped_no_markup value)]. intros c [? _]%andb_true_iff. done. }
  rewrite str_take_app, str_skip_app, xml_unescaped_escaped.
  replace (String "<" (String "/" (name ++ ">" ++ nl ++ rest)))%string
    with (("</" ++ name ++ String ">" nl) ++ rest)%string by (by rewrite !str_app_assoc).
  by rewrite strip_prefix_app.
Qed.

Definition elements (l : list (string * string)) (rest : string) : string :=
  fold_right (fun e acc => (element (fst e) (snd e) ++ acc)%string) rest l.

Lemma len_elements l rest : length l + len rest <= len (elements l rest).
Proof.
  induction l as [|[n v] l IH]; cbn [elements fold_right length]; [lia|].
  fold (elements l rest). rewrite len_app. unfold element at 1. rewrite len_app.
  change (len "<") with 1. lia.
Qed.

Lemma read_elements_elements l rest fuel :
  forallb (fun e => all_bytes not_markup (fst e)) l = true ->
  read_element rest = None -> length l < fuel ->
  read_elements fuel (elements l rest) = (l, rest).
Proof.
  intros Hl Hr. revert fuel. induction l as [|[n v] l IH]; intros [|fuel] Hf; cbn in Hf; try lia.
  - cbn. by rewrite Hr.
  - cbn in Hl. apply andb_true_iff in Hl as [Hn Hl].
    cbn [elements fold_right fst snd read_elements]. rewrite read_element_element by done.
    fold (elements l rest). rewrite IH by (done || lia). done.
Qed.

Definition usage_text (v : TaskNotificationView) : string :=
  if has_usage v then
    ("<usage>" ++ counter "total_tokens" (tn_total_tokens v)
      ++ counter "tool_uses" (tn_tool_uses v)
      ++ counter "duration_ms" (tn_duration_ms v) ++ "</usage>" ++ nl)%string
  else "".

Definition opt_field (name : string) (o : option string) : list (string * string) :=
  match o with Some v => [(name, v)] | None => [] end.

Definition notification_fields (v : TaskNotificationView) : list (string * string) :=
  [("task-id", tn_agent_id v); ("status", tn_status v); ("summary", tn_summary v)]
  ++ opt_field "result" (tn_result v) ++ opt_field "color" (tn_color v).

Lemma usage_not_element v : read_element (usage_text v ++ "</task-notification>")%string = None.
Proof.
  unfold usage_text, has_usage.
  destruct v as [? ? ? ? ? [d|] [t|] [k|]]; cbn [tn_duration_ms tn_tool_uses tn_total_tokens];
    reflexivity.
Qed.

Lemma elements_app l l' rest : elements (l ++ l') rest = elements l (elements l' rest).
Proof. apply fold_right_app. Qed.

Lemma render_elements v :
  render_task_notification v =
    ("<task-notification>" ++ nl
      ++ elements (notification_fields v) (usage_text v ++ "</task-notification>"))%string.
Proof.
  unfold render_task_notification, writer_finish, writer_new, notification_fields, usage_text.
  rewrite elements_app, elements_app. cbn [elements fold_right fst snd].
  rewrite !writer_element_app.
  destruct (tn_result v), (tn_color v), (has_usage v);
    cbn [opt_element opt_field elements fold_right fst snd];
    rewrite ?writer_element_app, !str_app_assoc; reflexivity.
Qed.

(** The notification block is unambiguous: whatever the task id, status,
    summary, result and color are (markup, quotes and ampersands included), a
    reader of the documented format gets exactly those fields back, in order, and
    stops at the usage block; so the output of a task cannot forge the status or
    the identity of another one. *)
Theorem notification_roundtrip (v : TaskNotificationView) :
  read_notification (render_task_notification v) =
    Some (notification_fields v, (usage_text v ++ "</task-notification>")%string).
Proof.
  rewrite render_elements. unfold read_notification.
  rewrite <- str_app_assoc, strip_prefix_app. cbn [mbind option_bind].
  f_equal. apply read_elements_elements.
  - unfold notification_fields. by destruct (tn_result v), (tn_color v).
  - apply usage_not_element.
  - pose proof (len_elements (notification_fields v) (usage_text v ++ "</task-notification>")) as H.
    rewrite len_app in H. change (len "</task-notification>") with 20 in H. lia.
Qed.

(** The terminal envelope has the same guarantee. *)
Lemma terminal_notification_roundtrip task_id status metadata output :
  read_notification (render_terminal_task_notification task_id status metadata output) =
    Some ([("task-id", task_id); ("status", status); ("terminal", metadata); ("result", output)],
          "</task-notification>").
Proof.
  unfold render_terminal_task_notification, writer_finish, writer_new.
  rewrite !writer_element_app, !str_app_assoc. unfold read_notification.
  rewrite <- str_app_assoc, strip_prefix_app. cbn [mbind option_bind]. f_equal.
  apply (read_elements_elements
    [("task-id", task_id); ("status", status); ("terminal", metadata); ("result", output)]);
    [done|done|].
  match goal with |- _ < len ?s => pose proof (len_elements
    [("task-id", task_id); ("status", status); ("terminal", metadata); ("result", output)]
    "</task-notification>") as H end.
  cbn [elements fold_right fst snd length] in H. change (len "</task-notification>") with 20 in H.
  cbn [length]. lia.
Qed.

(** Status normalisation only ever produces the three documented words. *)
Lemma normalized_status_documented s :
  In (normalize_task_notification_status s) ["completed"; "killed"; "failed"].
Proof. unfold normalize_task_notification_status. repeat case_goal; cbn; tauto. Qed.
