(* ===== verification/ToolRegistry.v ===== *)
(** * The tool registry (tools/src/lib.rs, engine-host/src/tool_executor.rs)

    The tools of a process are the built-in ones, the tools of its plugins and the tools it
    discovered at run time.  From one registry come the array of definitions a model sees,
    the requirements of the permission policy, the names an allow list may contain, and the
    tool a call runs.  Descriptions and schemas are static text: the parameters [description]
    and [schema] of a built-in name.  What a tool does is the environment's. *)
From S2P Require Import Prelude.
From stdpp Require Import list gmap strings.
From S2P Require Import RustStr Json JsonModel ToolNames Permissions PermissionEnforcer CoordinatorMode.

(** ** Tools *)

(** plugins/src/lib.rs *)
Inductive PluginToolPermission := PluginReadOnly | PluginWorkspaceWrite | PluginDangerFullAccess.
Definition plugin_permission_as_str (p : PluginToolPermission) : string :=
  match p with
  | PluginReadOnly => "read-only"
  | PluginWorkspaceWrite => "workspace-write"
  | PluginDangerFullAccess => "danger-full-access"
  end.

Definition permission_mode_from_plugin (value : string) : result string PermissionMode :=
  if String.eqb value "read-only" then Ok ReadOnly
  else if String.eqb value "workspace-write" then Ok WorkspaceWrite
  else if String.eqb value "danger-full-access" then Ok DangerFullAccess
  else Err ("unsupported plugin permission: " ++ value)%string.

(** Names and permissions of [mvp_tool_specs], in its order. *)
Definition BUILTIN_TOOLS : list (string * PermissionMode) :=
  [("bash", DangerFullAccess); ("Monitor", DangerFullAccess); ("read_file", ReadOnly); ("read_tool_output", ReadOnly);
   ("write_file", WorkspaceWrite); ("edit_file", WorkspaceWrite); ("glob_search", ReadOnly); ("grep_search", ReadOnly);
   ("WebFetch", ReadOnly); ("WebSearch", ReadOnly); ("Skill", ReadOnly); ("agent_spawn", ReadOnly);
   ("ToolSearch", ReadOnly); ("Sleep", ReadOnly); ("Config", WorkspaceWrite); ("write_plan", WorkspaceWrite);
   ("StructuredOutput", ReadOnly); ("PowerShell", DangerFullAccess); ("AskUserQuestion", ReadOnly);
   ("TodoWrite", WorkspaceWrite); ("set_tip", ReadOnly); ("pid_kill", DangerFullAccess); ("pid_status", ReadOnly);
   ("pid_output", ReadOnly); ("agent_list", ReadOnly); ("pid_fork", DangerFullAccess); ("CronCreate", DangerFullAccess);
   ("CronDelete", DangerFullAccess); ("CronList", ReadOnly); ("send", WorkspaceWrite)].

Definition CORE_TOOLS : list string :=
  ["set_tip"; "bash"; "read_file"; "read_tool_output"; "write_file"; "edit_file"; "glob_search"; "grep_search"; "Sleep";
   "Skill"; "agent_spawn"; "pid_output"; "pid_fork"; "ToolSearch"; "AskUserQuestion"; "send"; "agent_list"; "write_plan";
   "WebSearch"; "WebFetch"].
Definition is_core_tool (name : string) : bool := str_in (canonicalize_tool_name name) CORE_TOOLS.

Definition is_cron_tool (name : string) : bool := str_in name ["CronCreate"; "CronDelete"; "CronList"].

(** [declared]: the reason of [declare_no_cron_ticker]; [env]: the variable of the host. *)
Definition cron_tools_disabled (declared env : option string) : bool :=
  match declared with Some _ => true | None => false end
  || match env with
     | Some v =>
         let v := trim v in
         negb (is_empty v) && negb (String.eqb v "0") && negb (String.eqb (to_ascii_lowercase v) "false")
     | None => false
     end.

Section Registry.
Context {J : SerdeJson}.

Record ToolSpec := {
  spec_name : string; spec_description : string; spec_schema : Value; spec_permission : PermissionMode
}.
Record PluginTool := {
  pt_name : string; pt_description : option string; pt_schema : Value; pt_permission : PluginToolPermission
}.
Record RuntimeToolDefinition := {
  rt_name : string; rt_description : option string; rt_schema : Value; rt_permission : PermissionMode;
  rt_is_concurrency_safe : bool
}.
Record GlobalToolRegistry := {
  plugin_tools : list PluginTool;
  runtime_tools : list RuntimeToolDefinition;
  enforcer : option PermissionEnforcer
}.
Record ToolDefinition := {
  def_name : string; def_description : option string; def_schema : Value; defer_loading : bool
}.

Context (description : string -> string) (schema : string -> Value).
(** Whether the cron tools are disabled on this host, and whether coordinator mode is on. *)
Context (no_cron coordinator : bool).

Definition mvp_tool_specs : list ToolSpec :=
  let specs := map (fun '(name, permission) =>
                      {| spec_name := name; spec_description := description name; spec_schema := schema name;
                         spec_permission := permission |}) BUILTIN_TOOLS in
  if no_cron then List.filter (fun s => negb (is_cron_tool (spec_name s))) specs else specs.

Definition builtin_names : list string := map spec_name mvp_tool_specs.

(** ** Building a registry *)

Definition registry_builtin : GlobalToolRegistry :=
  {| plugin_tools := []; runtime_tools := []; enforcer := None |}.

Fixpoint check_plugin_names (seen : list string) (l : list PluginTool) : result string unit :=
  match l with
  | [] => Ok tt
  | tool :: rest =>
      if str_in (pt_name tool) builtin_names then
        Err ("plugin tool `" ++ pt_name tool ++ "` conflicts with a built-in tool name")%string
      else if str_in (pt_name tool) seen then Err ("duplicate plugin tool name `" ++ pt_name tool ++ "`")%string
      else check_plugin_names (pt_name tool :: seen) rest
  end.

Definition with_plugin_tools (tools : list PluginTool) : result string GlobalToolRegistry :=
  match check_plugin_names [] tools with
  | Err e => Err e
  | Ok _ => Ok {| plugin_tools := tools; runtime_tools := []; enforcer := None |}
  end.

Fixpoint check_runtime_names (seen : list string) (l : list RuntimeToolDefinition) : result string unit :=
  match l with
  | [] => Ok tt
  | tool :: rest =>
      if str_in (rt_name tool) seen then
        Err ("runtime tool `" ++ rt_name tool ++ "` conflicts with an existing tool name")%string
      else check_runtime_names (rt_name tool :: seen) rest
  end.

Definition with_runtime_tools (tools : list RuntimeToolDefinition) (r : GlobalToolRegistry)
  : result string GlobalToolRegistry :=
  match check_runtime_names (builtin_names ++ map pt_name (plugin_tools r)) tools with
  | Err e => Err e
  | Ok _ => Ok {| plugin_tools := plugin_tools r; runtime_tools := tools; enforcer := enforcer r |}
  end.

Definition set_enforcer (e : PermissionEnforcer) (r : GlobalToolRegistry) : GlobalToolRegistry :=
  {| plugin_tools := plugin_tools r; runtime_tools := runtime_tools r; enforcer := Some e |}.

(** ** What the model sees *)

Definition is_allowed_name (allowed : option (gset string)) (name : string) : bool :=
  match allowed with None => true | Some allowed => bool_decide (name ∈ allowed) end.
Definition shown (allowed : option (gset string)) (name : string) : bool :=
  is_allowed_name allowed name && is_tool_allowed_in_coordinator_mode coordinator name.

Definition spec_definition (deferred : string -> bool) (s : ToolSpec) : ToolDefinition :=
  {| def_name := spec_name s; def_description := Some (spec_description s); def_schema := spec_schema s;
     defer_loading := deferred (spec_name s) |}.
Definition runtime_definition (deferred : string -> bool) (t : RuntimeToolDefinition) : ToolDefinition :=
  {| def_name := rt_name t; def_description := rt_description t; def_schema := rt_schema t;
     defer_loading := deferred (rt_name t) |}.
Definition plugin_definition (deferred : string -> bool) (t : PluginTool) : ToolDefinition :=
  {| def_name := pt_name t; def_description := pt_description t; def_schema := pt_schema t;
     defer_loading := deferred (pt_name t) |}.

Definition definitions_with (deferred : string -> bool) (r : GlobalToolRegistry) (allowed : option (gset string))
  : list ToolDefinition :=
  map (spec_definition deferred) (List.filter (fun s => shown allowed (spec_name s)) mvp_tool_specs)
  ++ map (runtime_definition deferred) (List.filter (fun t => shown allowed (rt_name t)) (runtime_tools r))
  ++ map (plugin_definition deferred) (List.filter (fun t => shown allowed (pt_name t)) (plugin_tools r)).

Definition definitions : GlobalToolRegistry -> option (gset string) -> list ToolDefinition :=
  definitions_with (fun _ => false).

Definition anything_discovered (discovered : option (gset string)) : bool :=
  match discovered with None => false | Some names => negb (bool_decide (names = ∅)) end.
Definition core_definitions (r : GlobalToolRegistry) (allowed discovered : option (gset string)) : list ToolDefinition :=
  definitions_with (fun name => negb (is_core_tool name || anything_discovered discovered)) r allowed.

Definition deferred_tool_listing (r : GlobalToolRegistry) : list (string * string) :=
  map (fun s => (spec_name s, spec_description s)) (List.filter (fun s => negb (is_core_tool (spec_name s))) mvp_tool_specs)
  ++ map (fun t => (rt_name t, default "" (rt_description t)))
       (List.filter (fun t => negb (is_core_tool (rt_name t))) (runtime_tools r))
  ++ map (fun t => (pt_name t, default "" (pt_description t)))
       (List.filter (fun t => negb (is_core_tool (pt_name t))) (plugin_tools r)).

(** ** Permissions *)

Definition plugin_spec (t : PluginTool) : result string (string * PermissionMode) :=
  match permission_mode_from_plugin (plugin_permission_as_str (pt_permission t)) with
  | Ok permission => Ok (pt_name t, permission)
  | Err e => Err e
  end.
Fixpoint plugin_specs (l : list PluginTool) : result string (list (string * PermissionMode)) :=
  match l with
  | [] => Ok []
  | t :: rest => match plugin_spec t with
                 | Err e => Err e
                 | Ok s => match plugin_specs rest with Ok l => Ok (s :: l) | Err e => Err e end
                 end
  end.

Definition permission_specs (r : GlobalToolRegistry) (allowed : option (gset string))
  : result string (list (string * PermissionMode)) :=
  let builtin := map (fun s => (spec_name s, spec_permission s))
                   (List.filter (fun s => is_allowed_name allowed (spec_name s)) mvp_tool_specs) in
  let runtime := map (fun t => (rt_name t, rt_permission t))
                   (List.filter (fun t => is_allowed_name allowed (rt_name t)) (runtime_tools r)) in
  match plugin_specs (List.filter (fun t => is_allowed_name allowed (pt_name t)) (plugin_tools r)) with
  | Err e => Err e
  | Ok plugin => Ok (builtin ++ runtime ++ plugin)
  end.

(** The end of [permission_policy]: [base] has the mode and the rules. *)
Definition registry_policy (base : PermissionPolicy) (r : GlobalToolRegistry) : result string PermissionPolicy :=
  match permission_specs r None with
  | Err e => Err e
  | Ok specs => Ok (foldl (fun p '(name, permission) => with_tool_requirement p name permission) base specs)
  end.

(** ** Allow lists *)

Definition canonical_names (r : GlobalToolRegistry) : list string :=
  builtin_names ++ map pt_name (plugin_tools r) ++ map rt_name (runtime_tools r).

Definition name_map (r : GlobalToolRegistry) : gmap string string :=
  let spelled := foldl (fun m name => <[normalize_tool_name name := name]> m) ∅ (canonical_names r) in
  foldl (fun m '(alias, canonical) => match m !! alias with Some _ => m | None => <[alias := canonical]> m end)
    spelled tool_aliases.

Definition allow_tokens (value : string) : list string :=
  List.filter (fun token => negb (is_empty token)) (flat_map split_whitespace (split_byte value ",")).

Fixpoint allow_loop (names : gmap string string) (expected : string) (tokens : list string) (allowed : gset string)
  : result string (gset string) :=
  match tokens with
  | [] => Ok allowed
  | token :: rest =>
      match names !! normalize_tool_name token with
      | Some canonical => allow_loop names expected rest ({[canonical]} ∪ allowed)
      | None => Err ("unsupported tool in --allowedTools: " ++ token ++ " (expected one of: " ++ expected ++ ")")%string
      end
  end.

Definition EMPTY_ALLOW_LIST : string :=
  "--allowedTools was provided but contained no valid tool names. Pass specific tool names (e.g. --allowedTools bash,read_file) or omit the flag entirely for unrestricted access.".

Definition normalize_allowed_tools (r : GlobalToolRegistry) (values : list string)
  : result string (option (gset string)) :=
  match values with
  | [] => Ok None
  | _ =>
      match allow_loop (name_map r) (join ", " (canonical_names r)) (flat_map allow_tokens values) ∅ with
      | Err e => Err e
      | Ok allowed => if bool_decide (allowed = ∅) then Err EMPTY_ALLOW_LIST else Ok (Some allowed)
      end
  end.

(** ** Dispatch *)

Definition has_runtime_tool (r : GlobalToolRegistry) (name : string) : bool :=
  existsb (fun tool => String.eqb (rt_name tool) name) (runtime_tools r).
Definition runtime_tool_is_concurrency_safe (r : GlobalToolRegistry) (name : string) : bool :=
  existsb (fun tool => String.eqb (rt_name tool) name && rt_is_concurrency_safe tool) (runtime_tools r).

(** [CliToolExecutor::check_allowed_tool]: either spelling is enough. *)
Definition check_allowed_tool (allowed : option (gset string)) (name : string) : result string unit :=
  if is_allowed_name allowed name || is_allowed_name allowed (canonicalize_tool_name name) then Ok tt
  else Err ("tool `" ++ name ++ "` is not enabled by the current --allowedTools setting")%string.

(** The arms of [execute_tool_with_enforcer]: those that ask the enforcer first, and the
    others. *)
Definition CHECKED_ARMS : list string :=
  ["read_file"; "read_tool_output"; "write_file"; "edit_file"; "glob_search"; "grep_search"; "set_tip"].
Definition OTHER_ARMS : list string :=
  ["bash"; "Monitor"; "WebFetch"; "WebSearch"; "Skill"; "agent_spawn"; "pid_fork"; "ToolSearch"; "Sleep"; "Config";
   "write_plan"; "StructuredOutput"; "PowerShell"; "AskUserQuestion"; "TodoWrite"; "pid_kill"; "pid_status"; "pid_output";
   "agent_list"; "CronCreate"; "CronDelete"; "CronList"; "send"].

(** What the code asks of JSON here beyond [SerdeJson], the finite task mode of the process,
    the reason of a refused cron call, and what a tool does. *)
Context (as_bool : Value -> option bool) (to_json : Value -> string) (finite_task : bool) (cron_refusal : string).
Context (run_builtin : string -> Value -> result string string).
Context (run_plugin : PluginTool -> Value -> result string string).

Definition enforce_finite_task_mode (name : string) (input : Value) : result string unit :=
  let defaults_background := str_in name ["agent_spawn"; "pid_fork"] in
  let background := match get input "run_in_background" with
                    | Some v => default defaults_background (as_bool v)
                    | None => defaults_background
                    end in
  if finite_task && (defaults_background || str_in name ["bash"; "PowerShell"]) && background then
    Err "background jobs are unavailable in print mode; retry with run_in_background: false"
  else Ok tt.

Definition maybe_enforce_permission_check (e : option PermissionEnforcer) (name : string) (input : Value)
  : result string unit :=
  match e with
  | None => Ok tt
  | Some e => match check e name (to_json input) with
              | Allowed => Ok tt
              | Denied _ _ _ reason => Err reason
              end
  end.

Definition dispatch_arm (e : option PermissionEnforcer) (name : string) (input : Value) : result string string :=
  if str_in name CHECKED_ARMS then
    match maybe_enforce_permission_check e name input with Ok _ => run_builtin name input | Err error => Err error end
  else if is_cron_tool name && no_cron then Err cron_refusal
  else if str_in name OTHER_ARMS then run_builtin name input
  else Err ("unsupported tool: " ++ name)%string.

Definition execute_tool_with_enforcer (e : option PermissionEnforcer) (name : string) (input : Value)
  : result string string :=
  let name := canonicalize_tool_name name in
  match enforce_finite_task_mode name input with
  | Err error => Err error
  | Ok _ =>
      if negb (is_tool_allowed_in_coordinator_mode coordinator name) then
        Err ("tool `" ++ name ++ "` is not available in coordinator mode; delegate write-side work to a worker via `agent_spawn(...)` (or use `send` to continue an existing worker).")%string
      else dispatch_arm e name input
  end.

Definition registry_execute (r : GlobalToolRegistry) (name : string) (input : Value) : result string string :=
  if str_in (canonicalize_tool_name name) builtin_names then execute_tool_with_enforcer (enforcer r) name input
  else match List.find (fun tool => String.eqb (pt_name tool) name) (plugin_tools r) with
       | Some tool => run_plugin tool input
       | None => Err ("unsupported tool: " ++ name)%string
       end.

(** The tool [CliToolExecutor::execute_with_attachments] runs a call with: it canonicalises
    the name once, asks the discovered tools first, and leaves the rest to the registry. *)
Inductive Route :=
| ToRuntime (tool : string)
| ToBuiltin (name : string)
| ToPlugin (tool : PluginTool)
| ToNothing.

Definition executor_route (r : GlobalToolRegistry) (name : string) : Route :=
  let name := canonicalize_tool_name name in
  if has_runtime_tool r name then ToRuntime name
  else if str_in (canonicalize_tool_name name) builtin_names then ToBuiltin (canonicalize_tool_name name)
  else match List.find (fun tool => String.eqb (pt_name tool) name) (plugin_tools r) with
       | Some tool => ToPlugin tool
       | None => ToNothing
       end.

End Registry.
