(* ===== verification/RegistrySafety.v ===== *)
(** * What the tool registry guarantees

    Names are unique, the array a model sees changes once, and a call is authorised as the tool
    that it runs, unless a plugin tool has the name of an alias. *)
From S2P Require Import Prelude.
From stdpp Require Import list gmap strings.
From S2P Require Import RustStr Json JsonModel ToolNames Permissions PermissionEnforcer CoordinatorMode ToolRegistry.

Lemma first_alias_in name aliases canonical :
  first_alias name aliases = Some canonical -> In canonical (map snd aliases).
Proof.
  induction aliases as [|[a c] rest IH]; cbn; [done|].
  destruct (String.eqb name a); [intros [= ->]; by left|right; auto].
Qed.

Lemma canonicalize_idempotent name : canonicalize_tool_name (canonicalize_tool_name name) = canonicalize_tool_name name.
Proof.
  unfold canonicalize_tool_name at 2 3. destruct (first_alias (normalize_tool_name name) TOOL_ALIASES) as [c|] eqn:E.
  - apply first_alias_in in E. repeat (destruct E as [<-|E]; [vm_compute; reflexivity|]). done.
  - unfold canonicalize_tool_name. by rewrite E.
Qed.

Lemma builtin_canonical name : In name (map fst BUILTIN_TOOLS) -> canonicalize_tool_name name = name.
Proof.
  assert (forallb (fun n => String.eqb (canonicalize_tool_name n) n) (map fst BUILTIN_TOOLS) = true) as H
    by (vm_compute; reflexivity).
  rewrite forallb_forall in H. intros Hin. by apply String.eqb_eq, H.
Qed.

Lemma NoDup_filter {A B} (f : A -> B) (p : A -> bool) l : NoDup (map f l) -> NoDup (map f (List.filter p l)).
Proof.
  induction l as [|x l IH]; cbn; [done|]. inversion_clear 1 as [|? ? Hx Hl].
  destruct (p x); cbn; [|by apply IH]. constructor; [|by apply IH].
  intros Hin. apply Hx. apply list_elem_of_In, in_map_iff in Hin as (y & Hy & Hin).
  apply filter_In in Hin as [Hin _]. apply list_elem_of_In, in_map_iff. eauto.
Qed.

Section Registry.
Context {J : SerdeJson} (description : string -> string) (schema : string -> Value).
Context (no_cron coordinator : bool).

Notation specs := (mvp_tool_specs description schema no_cron).
Notation builtins := (builtin_names description schema no_cron).
Notation names := (canonical_names description schema no_cron).

(** ** Registries *)

Inductive built : GlobalToolRegistry -> Prop :=
| built_builtin : built registry_builtin
| built_plugins tools r : with_plugin_tools description schema no_cron tools = Ok r -> built r
| built_runtime tools r r' : built r -> with_runtime_tools description schema no_cron tools r = Ok r' -> built r'
| built_enforcer e r : built r -> built (set_enforcer e r).

Lemma spec_in s : In s specs -> In (spec_name s, spec_permission s) BUILTIN_TOOLS.
Proof.
  unfold mvp_tool_specs. intros Hin. assert (In s (map (fun '(name, permission) =>
    {| spec_name := name; spec_description := description name; spec_schema := schema name;
       spec_permission := permission |}) BUILTIN_TOOLS)) as H by (destruct no_cron; [by apply filter_In in Hin as [? _]|done]).
  apply in_map_iff in H as ([name permission] & <- & H). done.
Qed.

Lemma builtin_in name : In name builtins -> In name (map fst BUILTIN_TOOLS).
Proof.
  intros (s & <- & Hs)%in_map_iff. apply spec_in in Hs. apply in_map_iff. by exists (spec_name s, spec_permission s).
Qed.

Lemma builtins_nodup : NoDup builtins.
Proof.
  unfold builtin_names, mvp_tool_specs.
  set (l := map _ BUILTIN_TOOLS). assert (map spec_name l = map fst BUILTIN_TOOLS) as Hl by reflexivity.
  assert (NoDup (map fst BUILTIN_TOOLS)) as H by (apply (bool_decide_unpack _); vm_compute; exact I).
  destruct no_cron; [apply NoDup_filter|]; by rewrite Hl.
Qed.

Lemma check_plugin_names_ok seen l :
  check_plugin_names description schema no_cron seen l = Ok tt ->
  NoDup (map pt_name l) /\ (forall n, n ∈ map pt_name l -> n ∉ builtins /\ n ∉ seen).
Proof.
  revert seen. induction l as [|t l IH]; intros seen; cbn [check_plugin_names map].
  { intros _. split; [constructor|]. by intros n ?%elem_of_nil. }
  destruct (str_in (pt_name t) builtins) eqn:Eb; [done|]. destruct (str_in (pt_name t) seen) eqn:Es; [done|].
  intros H. destruct (IH _ H) as [Hnd Hnot].
  assert (forall x m, str_in x m = false -> x ∉ m) as Hout.
  { intros x m Hm Hin. apply list_elem_of_In, str_in_In in Hin. congruence. }
  split.
  - constructor; [|done]. intros Hin. apply Hnot in Hin as [_ Hin]. apply Hin. by left.
  - intros n [->|Hin]%elem_of_cons; [auto|]. apply Hnot in Hin as [H1 H2]. split; [done|].
    intros Hs. apply H2. by right.
Qed.

Lemma check_runtime_names_ok seen l :
  check_runtime_names seen l = Ok tt ->
  NoDup (map rt_name l) /\ (forall n, n ∈ map rt_name l -> n ∉ seen).
Proof.
  revert seen. induction l as [|t l IH]; intros seen; cbn [check_runtime_names map].
  { intros _. split; [constructor|]. by intros n ?%elem_of_nil. }
  destruct (str_in (rt_name t) seen) eqn:Es; [done|].
  intros H. destruct (IH _ H) as [Hnd Hnot]. split.
  - constructor; [|done]. intros Hin. apply Hnot in Hin. apply Hin. by left.
  - intros n [->|Hin]%elem_of_cons.
    + intros Hin. apply list_elem_of_In, str_in_In in Hin. congruence.
    + intros Hs. apply (Hnot n Hin). by right.
Qed.

Lemma plugins_ok_nodup tools :
  check_plugin_names description schema no_cron [] tools = Ok tt -> NoDup (builtins ++ map pt_name tools).
Proof.
  intros H. apply check_plugin_names_ok in H as [Hnd Hnot]. apply NoDup_app.
  split_and!; [apply builtins_nodup| |done]. intros n Hb Hp. by apply Hnot in Hp as [Hp _].
Qed.

Lemma built_nodup r : built r -> NoDup (names r) /\ NoDup (builtins ++ map pt_name (plugin_tools r)).
Proof.
  unfold canonical_names. induction 1 as [|tools r H|tools r r' _ [_ IH] H|e r _ IH]; cbn.
  - rewrite !app_nil_r. split; apply builtins_nodup.
  - unfold with_plugin_tools in H. destruct (check_plugin_names _ _ _ _ _) as [[]|] eqn:E; [|done].
    injection H as <-. cbn. rewrite app_nil_r. split; by apply plugins_ok_nodup.
  - unfold with_runtime_tools in H. destruct (check_runtime_names _ _) as [[]|] eqn:E; [|done].
    injection H as <-. cbn. split; [|done]. apply check_runtime_names_ok in E as [Hnd Hnot].
    rewrite app_assoc. apply NoDup_app. split_and!; [done| |done].
    intros n Hin Hr. by apply (Hnot n Hr).
  - done.
Qed.

(** ** The array *)

Definition wire (d : ToolDefinition) : string * option string * Value := (def_name d, def_description d, def_schema d).

Lemma definitions_wire deferred deferred' r allowed :
  map wire (definitions_with description schema no_cron coordinator deferred r allowed)
  = map wire (definitions_with description schema no_cron coordinator deferred' r allowed).
Proof. unfold definitions_with. rewrite !map_app, !map_map. done. Qed.

Lemma definitions_deferred deferred r allowed :
  Forall (fun d => defer_loading d = deferred (def_name d))
    (definitions_with description schema no_cron coordinator deferred r allowed).
Proof.
  unfold definitions_with. rewrite !Forall_app. split_and!; apply Forall_forall; intros d Hin;
    apply list_elem_of_In, in_map_iff in Hin as (t & <- & _); done.
Qed.

Lemma definitions_names deferred r allowed :
  map def_name (definitions_with description schema no_cron coordinator deferred r allowed)
  = map spec_name (List.filter (fun s => shown coordinator allowed (spec_name s)) specs)
    ++ map rt_name (List.filter (fun t => shown coordinator allowed (rt_name t)) (runtime_tools r))
    ++ map pt_name (List.filter (fun t => shown coordinator allowed (pt_name t)) (plugin_tools r)).
Proof. unfold definitions_with. by rewrite !map_app, !map_map. Qed.

Lemma names_in_filter {A} (f : A -> string) (p : A -> bool) l n : n ∈ map f (List.filter p l) -> n ∈ map f l.
Proof.
  intros Hin. apply list_elem_of_In, in_map_iff in Hin as (x & Hx & Hin). apply filter_In in Hin as [Hin _].
  apply list_elem_of_In, in_map_iff. eauto.
Qed.

Lemma definitions_nodup deferred r allowed :
  built r -> NoDup (map def_name (definitions_with description schema no_cron coordinator deferred r allowed)).
Proof.
  intros [H _]%built_nodup. rewrite definitions_names. unfold canonical_names in H.
  apply NoDup_app in H as (Hb & Hbd & Hpr). apply NoDup_app in Hpr as (Hp & Hpd & Hr).
  apply NoDup_app. split_and!; [by apply NoDup_filter| |].
  - intros n Hn%names_in_filter Hin. apply elem_of_app in Hin as [Hin|Hin]; apply names_in_filter in Hin;
      eapply Hbd; [exact Hn| |exact Hn|]; apply elem_of_app; auto.
  - apply NoDup_app. split_and!; [by apply NoDup_filter| |by apply NoDup_filter].
    intros n Hn%names_in_filter Hin%names_in_filter. by eapply Hpd.
Qed.

(** ** Requirements *)

Definition plugin_mode (p : PluginToolPermission) : PermissionMode :=
  match p with
  | PluginReadOnly => ReadOnly
  | PluginWorkspaceWrite => WorkspaceWrite
  | PluginDangerFullAccess => DangerFullAccess
  end.

Lemma plugin_specs_ok l : plugin_specs l = Ok (map (fun t => (pt_name t, plugin_mode (pt_permission t))) l).
Proof. induction l as [|t l IH]; [done|]. cbn [plugin_specs map]. rewrite IH. unfold plugin_spec. by destruct (pt_permission t). Qed.

Definition declared (r : GlobalToolRegistry) : list (string * PermissionMode) :=
  map (fun s => (spec_name s, spec_permission s)) specs
  ++ map (fun t => (rt_name t, rt_permission t)) (runtime_tools r)
  ++ map (fun t => (pt_name t, plugin_mode (pt_permission t))) (plugin_tools r).

Lemma filter_true {A} (l : list A) : List.filter (fun _ => true) l = l.
Proof. induction l as [|x l IH]; cbn; [done|]. by rewrite IH. Qed.

Lemma permission_specs_all r : permission_specs description schema no_cron r None = Ok (declared r).
Proof. unfold permission_specs, is_allowed_name. rewrite !filter_true, plugin_specs_ok. done. Qed.

Lemma requirements_fold l base name :
  NoDup (map fst l) ->
  tool_requirements (foldl (fun p '(name, permission) => with_tool_requirement p name permission) base l) !! name
  = match List.find (fun e => String.eqb (fst e) name) l with
    | Some (_, permission) => Some permission
    | None => tool_requirements base !! name
    end.
Proof.
  revert base. induction l as [|[n m] l IH]; intros base; cbn [foldl map List.find fst]; [done|].
  inversion_clear 1 as [|? ? Hn Hl]. rewrite IH by done. cbn [tool_requirements with_tool_requirement].
  destruct (String.eqb_spec n name) as [->|Hne].
  - destruct (List.find _ l) as [[n' m']|] eqn:E; [|by rewrite lookup_insert_eq].
    apply find_some in E as [Hin Heq]. cbn in Heq. apply String.eqb_eq in Heq as ->.
    exfalso. apply Hn. apply list_elem_of_In, in_map_iff. by exists (name, m').
  - destruct (List.find _ l) as [[n' m']|]; [done|]. by rewrite lookup_insert_ne.
Qed.

Lemma declared_names r : map fst (declared r) = builtins ++ map rt_name (runtime_tools r) ++ map pt_name (plugin_tools r).
Proof. unfold declared, builtin_names. by rewrite !map_app, !map_map. Qed.

Lemma declared_nodup r : built r -> NoDup (map fst (declared r)).
Proof.
  intros [H _]%built_nodup. rewrite declared_names. unfold canonical_names in H.
  assert (Permutation (builtins ++ map rt_name (runtime_tools r) ++ map pt_name (plugin_tools r))
            (builtins ++ map pt_name (plugin_tools r) ++ map rt_name (runtime_tools r))) as Hp
    by (apply Permutation_app_head, Permutation_app_comm).
  by rewrite Hp.
Qed.

(** The requirement declared under a name. *)
Definition declared_mode (r : GlobalToolRegistry) (name : string) : option PermissionMode :=
  snd <$> List.find (fun e => String.eqb (fst e) name) (declared r).

Lemma declared_mode_in r name mode : built r -> In (name, mode) (declared r) -> declared_mode r name = Some mode.
Proof.
  intros Hb Hin. unfold declared_mode. destruct (List.find _ (declared r)) as [[n m]|] eqn:E.
  - apply find_some in E as [Hin' Heq]. cbn in Heq. apply String.eqb_eq in Heq as ->. cbn.
    pose proof (declared_nodup r Hb) as Hnd.
    apply list_elem_of_In, list_elem_of_lookup in Hin as [i Hi]. apply list_elem_of_In, list_elem_of_lookup in Hin' as [j Hj].
    assert (i = j) as ->.
    { eapply NoDup_lookup; [exact Hnd| |]; rewrite list_lookup_fmap; [rewrite Hi|rewrite Hj]; done. }
    congruence.
  - exfalso. apply (find_none _ _ E) in Hin. cbn in Hin. by rewrite String.eqb_refl in Hin.
Qed.

Lemma declared_mode_none r name : ~ In name (map fst (declared r)) -> declared_mode r name = None.
Proof.
  intros Hn. unfold declared_mode. destruct (List.find _ (declared r)) as [[n m]|] eqn:E; [|done].
  apply find_some in E as [Hin Heq]. cbn in Heq. apply String.eqb_eq in Heq as ->.
  exfalso. apply Hn, in_map_iff. by exists (name, m).
Qed.

Lemma required_by_registry base r p name :
  built r -> tool_requirements base = ∅ -> registry_policy description schema no_cron base r = Ok p ->
  required_mode_for p name =
  default DangerFullAccess
    (match declared_mode r name with Some m => Some m | None => declared_mode r (canonicalize_tool_name name) end).
Proof.
  intros Hb Hbase H. unfold registry_policy in H. rewrite permission_specs_all in H. injection H as <-.
  unfold required_mode_for. rewrite !requirements_fold by (by apply declared_nodup). rewrite Hbase, !lookup_empty.
  unfold declared_mode.
  destruct (List.find (fun e => String.eqb e.1 name) (declared r)) as [[n m]|]; [done|]. cbn.
  by destruct (List.find _ (declared r)) as [[n m]|].
Qed.

(** ** Dispatch *)

(** No tool of a plugin or a server has the name of an alias. *)
Definition alias_free (r : GlobalToolRegistry) : Prop :=
  Forall (fun n => canonicalize_tool_name n = n) (map pt_name (plugin_tools r) ++ map rt_name (runtime_tools r)).

Lemma declared_canonical r name : alias_free r -> In name (map fst (declared r)) -> canonicalize_tool_name name = name.
Proof.
  intros Hfree Hin. rewrite declared_names in Hin. unfold alias_free in Hfree. rewrite Forall_forall in Hfree.
  apply in_app_or in Hin as [Hin|Hin]; [by apply builtin_canonical, builtin_in|].
  apply Hfree, elem_of_app. apply in_app_or in Hin as [Hin|Hin]; [right|left]; by apply list_elem_of_In.
Qed.

Definition routed_mode (route : Route) (r : GlobalToolRegistry) : option PermissionMode :=
  match route with
  | ToRuntime n | ToBuiltin n => declared_mode r n
  | ToPlugin t => Some (plugin_mode (pt_permission t))
  | ToNothing => None
  end.

Lemma routed_declared r name :
  built r -> routed_mode (executor_route description schema no_cron r name) r = declared_mode r (canonicalize_tool_name name).
Proof.
  intros Hb. unfold executor_route. destruct (has_runtime_tool r _) eqn:Er; [done|].
  rewrite canonicalize_idempotent. destruct (str_in _ builtins) eqn:Eb; [done|].
  destruct (List.find _ (plugin_tools r)) as [t|] eqn:Ep; cbn [routed_mode].
  - apply find_some in Ep as [Hin Heq]. apply String.eqb_eq in Heq as <-. symmetry.
    apply declared_mode_in; [done|]. unfold declared. rewrite !in_app_iff. right; right.
    apply in_map_iff. by exists t.
  - symmetry. apply declared_mode_none. rewrite declared_names, !in_app_iff. intros [Hin|[Hin|Hin]].
    + apply str_in_In in Hin. congruence.
    + apply in_map_iff in Hin as (t & Ht & Hin). unfold has_runtime_tool in Er.
      assert (existsb (fun tool => String.eqb (rt_name tool) (canonicalize_tool_name name)) (runtime_tools r) = true)
        by (apply existsb_exists; exists t; by rewrite Ht, String.eqb_refl). congruence.
    + apply in_map_iff in Hin as (t & Ht & Hin). apply (find_none _ _ Ep) in Hin. cbn in Hin.
      by rewrite Ht, String.eqb_refl in Hin.
Qed.

(** ** Claims *)

(** C12. A call is authorised as the tool that it runs.  In every registry the code can build, if
    no plugin or server tool has the name of an alias, then for every name a model may call, in
    whatever spelling, the mode the policy requires is the one declared by the very tool that the
    call is dispatched to, and a name without a tool requires full access. *)
Theorem call_is_authorized_as_the_tool_it_runs base r p name
    (Hbuilt : built r) (Halias : alias_free r) (Hbase : tool_requirements base = ∅)
    (Hpolicy : registry_policy description schema no_cron base r = Ok p) :
  required_mode_for p name
  = default DangerFullAccess (routed_mode (executor_route description schema no_cron r name) r).
Proof.
  rewrite routed_declared by done. rewrite (required_by_registry base r p name) by done.
  destruct (declared_mode r name) as [m|] eqn:E; [|done].
  assert (In name (map fst (declared r))) as Hin.
  { unfold declared_mode in E. destruct (List.find _ (declared r)) as [[n m']|] eqn:Ef; [|done].
    apply find_some in Ef as [Hin Heq]. cbn in Heq. apply String.eqb_eq in Heq as <-.
    apply in_map_iff. by exists (n, m'). }
  by rewrite (declared_canonical r name), E.
Qed.

(** The tool array changes once in a session.  Whatever was discovered, the array has the same
    tools, in the same order, with the same descriptions and schemas, each name once; before the
    first discovery exactly the core tools are active, and from the first discovery on, whichever
    names it returned, the array is the plain one with every tool active. *)
Theorem first_discovery_reveals_every_tool r allowed discovered (Hbuilt : built r) :
  let array := core_definitions description schema no_cron coordinator r allowed discovered in
  NoDup (map def_name array)
  /\ map wire array = map wire (definitions description schema no_cron coordinator r allowed)
  /\ (anything_discovered discovered = false ->
        Forall (fun d => defer_loading d = negb (is_core_tool (def_name d))) array)
  /\ (anything_discovered discovered = true -> array = definitions description schema no_cron coordinator r allowed).
Proof.
  unfold core_definitions, definitions. cbn zeta. split_and!.
  - by apply definitions_nodup.
  - apply definitions_wire.
  - intros Hd. eapply Forall_impl; [apply definitions_deferred|]. cbn. intros d ->. by rewrite Hd, orb_false_r.
  - intros Hd. unfold definitions_with. rewrite Hd.
    f_equal; [|f_equal]; apply map_ext; intros t; unfold spec_definition, runtime_definition, plugin_definition;
      by rewrite orb_true_r.
Qed.

(** A built-in tool that the schema hides is refused when a model calls it anyway. *)
Lemma hidden_builtin_is_refused as_bool to_json finite refusal run_builtin run_plugin r name input :
  In (canonicalize_tool_name name) builtins ->
  is_tool_allowed_in_coordinator_mode coordinator name = false ->
  exists e, registry_execute description schema no_cron coordinator as_bool to_json finite refusal run_builtin run_plugin
              r name input = Err e.
Proof.
  intros Hin Hgate. unfold registry_execute. apply str_in_In in Hin. rewrite Hin. unfold execute_tool_with_enforcer.
  destruct (enforce_finite_task_mode _ _ _ _) as [|e]; [|by exists e].
  assert (is_tool_allowed_in_coordinator_mode coordinator (canonicalize_tool_name name) = false) as ->.
  { unfold is_tool_allowed_in_coordinator_mode in *. by rewrite canonicalize_idempotent. }
  by eexists.
Qed.

End Registry.

(** ** Concrete registries *)

Definition plain_description (name : string) : string := name.
Definition plain_schema (name : string) : Value := t_obj [].
Definition plugin_tool (name : string) (p : PluginToolPermission) : PluginTool :=
  {| pt_name := name; pt_description := None; pt_schema := t_obj []; pt_permission := p |}.

(** A plugin with one tool of a name of its own. *)
Definition weather_registry : GlobalToolRegistry :=
  {| plugin_tools := [plugin_tool "weather" PluginWorkspaceWrite]; runtime_tools := []; enforcer := None |}.
(** A plugin whose tool has the name under which models also call the shell. *)
Definition bash_registry : GlobalToolRegistry :=
  {| plugin_tools := [plugin_tool "Bash" PluginReadOnly]; runtime_tools := []; enforcer := None |}.

Definition policy_of (r : GlobalToolRegistry) : PermissionPolicy :=
  match registry_policy plain_description plain_schema false (policy_new ReadOnly) r with
  | Ok p => p
  | Err _ => policy_new ReadOnly
  end.

Lemma weather_built : built plain_description plain_schema false weather_registry.
Proof. apply (built_plugins _ _ _ [plugin_tool "weather" PluginWorkspaceWrite]). vm_compute. reflexivity. Qed.

Lemma call_is_authorized_as_the_tool_it_runs_witness :
  required_mode_for (policy_of weather_registry) "Read" = ReadOnly
  /\ required_mode_for (policy_of weather_registry) "weather" = WorkspaceWrite
  /\ required_mode_for (policy_of weather_registry) "unknown" = DangerFullAccess.
Proof.
  assert (registry_policy plain_description plain_schema false (policy_new ReadOnly) weather_registry
          = Ok (policy_of weather_registry)) as Hp by (vm_compute; reflexivity).
  assert (alias_free weather_registry) as Ha by (repeat constructor).
  split; [|split].
  - rewrite (call_is_authorized_as_the_tool_it_runs plain_description plain_schema false (policy_new ReadOnly) _ _ "Read" weather_built Ha
      eq_refl Hp). vm_compute. reflexivity.
  - rewrite (call_is_authorized_as_the_tool_it_runs plain_description plain_schema false (policy_new ReadOnly) _ _ "weather" weather_built Ha
      eq_refl Hp). vm_compute. reflexivity.
  - rewrite (call_is_authorized_as_the_tool_it_runs plain_description plain_schema false (policy_new ReadOnly) _ _ "unknown" weather_built Ha
      eq_refl Hp). vm_compute. reflexivity.
Defined.

Lemma first_discovery_reveals_every_tool_witness :
  core_definitions plain_description plain_schema false false weather_registry None (Some {["CronList"]})
  = definitions plain_description plain_schema false false weather_registry None.
Proof.
  apply (first_discovery_reveals_every_tool plain_description plain_schema false false weather_registry None
    (Some {["CronList"]}) weather_built). vm_compute. reflexivity.
Defined.

(** A plugin tool may take the name of an alias, and then the policy and the dispatcher differ:
    the registry accepts a read-only plugin tool called Bash, a call of that name is authorised
    without a question in read-only mode, and what it runs is the built-in shell, which under its
    own name requires full access; the plugin tool is run under no name at all. *)
Theorem plugin_alias_runs_the_shell_as_read_only :
  with_plugin_tools plain_description plain_schema false [plugin_tool "Bash" PluginReadOnly] = Ok bash_registry
  /\ required_mode_for (policy_of bash_registry) "bash" = DangerFullAccess
  /\ (forall input, evaluate (policy_of bash_registry) "Bash" input
                      {| override_decision := None; override_reason := None |} = EvalAllow)
  /\ executor_route plain_description plain_schema false bash_registry "Bash" = ToBuiltin "bash"
  /\ (forall name tool, executor_route plain_description plain_schema false bash_registry name <> ToPlugin tool).
Proof.
  split; [vm_compute; reflexivity|]. split; [vm_compute; reflexivity|]. split; [intros input; vm_compute; reflexivity|].
  split; [vm_compute; reflexivity|]. intros name tool. unfold executor_route.
  rewrite canonicalize_idempotent. cbn [has_runtime_tool runtime_tools bash_registry existsb].
  destruct (str_in (canonicalize_tool_name name) _) eqn:Eb; [done|]. cbn [plugin_tools bash_registry List.find].
  destruct (String.eqb_spec (pt_name (plugin_tool "Bash" PluginReadOnly)) (canonicalize_tool_name name)) as [E|]; [|done].
  cbn in E. pose proof (canonicalize_idempotent name) as H. rewrite <- E in H. vm_compute in H. discriminate.
Qed.

(** In coordinator mode a plugin tool is hidden from the schema but still runs. *)
Lemma hidden_plugin_still_runs run_builtin run_plugin input :
  definitions plain_description plain_schema false true weather_registry (Some {["weather"]}) = []
  /\ registry_execute plain_description plain_schema false true (fun _ => None) (fun _ => "") false "" run_builtin run_plugin
       weather_registry "weather" input = run_plugin (plugin_tool "weather" PluginWorkspaceWrite) input.
Proof. split; vm_compute; reflexivity. Qed.

(** Thirty built-in tools, ten of them deferred. *)
Lemma builtin_counts :
  length (mvp_tool_specs plain_description plain_schema false) = 30
  /\ length (deferred_tool_listing plain_description plain_schema false registry_builtin) = 10.
Proof. split; vm_compute; reflexivity. Qed.
