(* ===== verification/ShellFlags.v ===== *)
(** * Options of read-only commands (runtime/src/tool_concurrency/flags.rs)

    A command family lists its options: switches, options with a value, options whose value
    must be attached.  [parse] reads an argument list against such a table, [getopt] is the
    grammar of the lists it accepts. *)
From S2P Require Import Prelude RustStr.
From stdpp Require Import list.

(** ** Text *)

(** [char_indices], without the offsets: the characters, each as its bytes. *)
Fixpoint char_strings (s : string) : list string :=
  match s with
  | EmptyString => []
  | String a r =>
      match r with
      | String b _ =>
          if is_cont b then
            match char_strings r with
            | c :: cs => String a c :: cs
            | [] => [String a ""]
            end
          else String a "" :: char_strings r
      | EmptyString => [String a ""]
      end
  end.

Fixpoint split_ascii_ws_aux (s cur : string) : list string :=
  match s with
  | EmptyString => flush_token cur []
  | String a r =>
      if is_ascii_whitespace a then flush_token cur (split_ascii_ws_aux r EmptyString)
      else split_ascii_ws_aux r (String a cur)
  end.
Definition split_ascii_whitespace (s : string) : list string := split_ascii_ws_aux s EmptyString.

(** [split_once] with an ASCII character. *)
Definition split_once (s : string) (c : ascii) : option (string * string) :=
  i ← find_byte s (fun a => Ascii.eqb a c); Some (str_take i s, str_skip (S i) s).

(** ** The table and the parser *)

Record Flags := { switches : string; values : string; attached : string }.
Record Parsed := { positional : list string; flags : list string }.

Definition flags_contains (list flag : string) : bool := str_in flag (split_ascii_whitespace list).

Definition parsed_empty : Parsed := {| positional := []; flags := [] |}.
Definition add_positional (arg : string) (p : Parsed) : Parsed :=
  {| positional := arg :: positional p; flags := flags p |}.
Definition add_flags (l : list string) (p : Parsed) : Parsed :=
  {| positional := positional p; flags := l ++ flags p |}.

Section Parse.
Context (f : Flags).

(** A long option: its name, and whether the next argument is its value. *)
Definition long_option (arg : string) : option (list string * bool) :=
  let '(flag, value) := match split_once arg "=" with
                        | Some (name, v) => (name, Some v)
                        | None => (arg, None)
                        end in
  if flags_contains (values f) flag then
    Some ([flag], match value with None => true | Some _ => false end)
  else if flags_contains (attached f) flag then Some ([flag], false)
  else if negb (flags_contains (switches f) flag) || match value with Some _ => true | None => false end then None
  else Some ([flag], false).

Definition dash (character : string) : string := String "-" character.

(** A cluster of short options; [offset] is that of [cs] behind the dash, [total] the length
    of the argument. *)
Fixpoint short_options (total offset : nat) (cs : list string) : option (list string * bool) :=
  match cs with
  | [] => Some ([], false)
  | character :: rest =>
      let flag := dash character in
      if flags_contains (values f) flag then Some ([flag], offset + 1 + len character =? total)
      else if negb (flags_contains (switches f) flag) then None
      else '(l, next) ← short_options total (offset + len character) rest; Some (flag :: l, next)
  end.

Definition option_word (arg : string) : option (list string * bool) :=
  if starts_with arg "--" then long_option arg
  else short_options (len arg) 0 (char_strings (str_skip 1 arg)).

Definition is_operand (arg : string) : bool := String.eqb arg "-" || negb (starts_with arg "-").

Fixpoint parse (args : list string) : option Parsed :=
  match args with
  | [] => Some parsed_empty
  | arg :: rest =>
      if String.eqb arg "--" then Some {| positional := rest; flags := [] |}
      else if is_operand arg then add_positional arg <$> parse rest
      else
        match option_word arg with
        | None => None
        | Some (l, true) => match rest with
                            | [] => None
                            | _ :: rest => add_flags l <$> parse rest
                            end
        | Some (l, false) => add_flags l <$> parse rest
        end
  end.

(** ** The grammar *)

(** One option argument, the options it names, and whether its value is the next argument. *)
Inductive names_options : string -> list string -> bool -> Prop :=
| long_switch name :
    starts_with name "--" = true -> contains name "=" = false -> flags_contains (switches f) name = true ->
    names_options name [name] false
| long_attached name :
    starts_with name "--" = true -> contains name "=" = false -> flags_contains (attached f) name = true ->
    names_options name [name] false
| long_value name :
    starts_with name "--" = true -> contains name "=" = false -> flags_contains (values f) name = true ->
    names_options name [name] true
| long_spelled name v :
    starts_with (name ++ "=" ++ v)%string "--" = true -> contains name "=" = false ->
    flags_contains (values f) name = true \/ flags_contains (attached f) name = true ->
    names_options (name ++ "=" ++ v)%string [name] false
| short_switches text :
    starts_with text "-" = false -> Forall (fun c => flags_contains (switches f) (dash c) = true) (char_strings text) ->
    names_options (dash text) (map dash (char_strings text)) false
| short_value text before c :
    starts_with text "-" = false -> char_strings text = before ++ [c] ->
    Forall (fun c => flags_contains (switches f) (dash c) = true) before ->
    flags_contains (values f) (dash c) = true ->
    names_options (dash text) (map dash (before ++ [c])) true
| short_joined text before c d after :
    starts_with text "-" = false -> char_strings text = before ++ c :: d :: after ->
    Forall (fun c => flags_contains (switches f) (dash c) = true) before ->
    flags_contains (values f) (dash c) = true ->
    names_options (dash text) (map dash (before ++ [c])) false.

(** Arguments, the operands and options they are made of. *)
Inductive getopt : list string -> list string -> list string -> Prop :=
| go_end : getopt [] [] []
| go_operands rest : getopt ("--" :: rest) rest []
| go_operand arg args ops fl :
    arg <> "--" -> is_operand arg = true -> getopt args ops fl -> getopt (arg :: args) (arg :: ops) fl
| go_option arg l args ops fl :
    arg <> "--" -> is_operand arg = false -> names_options arg l false -> getopt args ops fl ->
    getopt (arg :: args) ops (l ++ fl)
| go_option_value arg l value args ops fl :
    arg <> "--" -> is_operand arg = false -> names_options arg l true -> getopt args ops fl ->
    getopt (arg :: value :: args) ops (l ++ fl).

(** No option is in two of the lists. *)
Definition disjoint_flags : Prop :=
  forall flag, flags_contains (values f) flag = true ->
    flags_contains (attached f) flag = false /\ flags_contains (switches f) flag = false.

End Parse.

(** ** Lemmas on text *)

Definition concat_strings (l : list string) : string := foldr append "" l.

Lemma char_strings_concat s : concat_strings (char_strings s) = s.
Proof.
  induction s as [|a [|b s] IH]; [done|done|].
  change (char_strings (String a (String b s))) with
    (if is_cont b then match char_strings (String b s) with c :: cs => String a c :: cs | [] => [String a ""] end
     else String a "" :: char_strings (String b s)).
  destruct (is_cont b); [|cbn [concat_strings foldr append]; by f_equal].
  destruct (char_strings (String b s)) as [|c cs]; [done|]. cbn [concat_strings foldr append]. by f_equal.
Qed.

Lemma char_strings_nonempty s : Forall (fun c => 0 < len c) (char_strings s).
Proof.
  induction s as [|a [|b s] IH]; [done|repeat constructor; cbn; lia|].
  change (char_strings (String a (String b s))) with
    (if is_cont b then match char_strings (String b s) with c :: cs => String a c :: cs | [] => [String a ""] end
     else String a "" :: char_strings (String b s)).
  destruct (is_cont b); [|constructor; [cbn; lia|done]]. revert IH.
  destruct (char_strings (String b s)) as [|c cs]; [repeat constructor; cbn; lia|].
  inversion_clear 1. constructor; [cbn; lia|done].
Qed.

Lemma len_concat_nil l : Forall (fun c => 0 < len c) l -> len (concat_strings l) = 0 <-> l = [].
Proof.
  intros H. split; [|by intros ->]. destruct H as [|c l Hc _]; [done|].
  cbn [concat_strings foldr]. rewrite len_app. lia.
Qed.

Lemma concat_strings_app l k : concat_strings (l ++ k) = (concat_strings l ++ concat_strings k)%string.
Proof. unfold concat_strings. induction l as [|c l IH]; cbn; [done|]. by rewrite IH, str_app_assoc. Qed.

Lemma contains_byte_cons a s c :
  contains (String a s) (String c "") = Ascii.eqb c a || contains s (String c "").
Proof. cbn. by destruct (Ascii.eqb c a). Qed.

Lemma split_once_cons a s c :
  split_once (String a s) c =
  if Ascii.eqb a c then Some ("", s) else '(x, y) ← split_once s c; Some (String a x, y).
Proof.
  unfold split_once. cbn [find_byte]. destruct (Ascii.eqb a c); [by cbn|].
  by destruct (find_byte s _).
Qed.

Lemma split_once_None s c : split_once s c = None <-> contains s (String c "") = false.
Proof.
  induction s as [|a s IH]; [done|]. rewrite split_once_cons, contains_byte_cons, (Ascii.eqb_sym c a).
  destruct (Ascii.eqb a c); [done|]. cbn [orb]. rewrite <- IH.
  by destruct (split_once s c) as [[x y]|].
Qed.

Lemma split_once_Some s c x y :
  split_once s c = Some (x, y) <-> s = (x ++ String c y)%string /\ contains x (String c "") = false.
Proof.
  revert x; induction s as [|a s IH]; intros x.
  { split; [done|]. intros [H _]. by destruct x. }
  rewrite split_once_cons. destruct (Ascii.eqb_spec a c) as [->|Hne].
  - split; [by intros [= <- <-]|]. intros [H Hx]. destruct x as [|b x]; [by injection H as <-|].
    injection H as <- _. by rewrite contains_byte_cons, Ascii.eqb_refl in Hx.
  - split.
    + destruct (split_once s c) as [[x' y']|]; [|done]. cbn. intros [= <- <-].
      destruct (proj1 (IH x') eq_refl) as [-> Hx']. split; [done|].
      rewrite contains_byte_cons, Hx', orb_false_r. apply Ascii.eqb_neq. congruence.
    + intros [H Hx]. destruct x as [|b x]; [by injection H as ->|]. injection H as <- ->.
      rewrite contains_byte_cons in Hx. apply orb_false_iff in Hx as [_ Hx].
      by rewrite (proj2 (IH x)).
Qed.

(** ** The parser is its grammar *)

Section Grammar.
Context (f : Flags) (Hdisjoint : disjoint_flags f).

Notation switch c := (flags_contains (switches f) (dash c) = true) (only parsing).
Notation valued c := (flags_contains (values f) (dash c) = true) (only parsing).

Lemma switch_not_valued c : switch c -> flags_contains (values f) (dash c) = false.
Proof.
  intros H. destruct (flags_contains (values f) (dash c)) eqn:E; [|done].
  apply Hdisjoint in E as [_ E]. congruence.
Qed.

Lemma short_options_switches total offset cs :
  Forall (fun c => switch c) cs -> short_options f total offset cs = Some (map dash cs, false).
Proof.
  intros H. revert offset. induction H as [|c cs Hc _ IH]; intros offset; cbn; [done|].
  by rewrite (switch_not_valued c), Hc, IH.
Qed.

Lemma short_options_value total offset before c after :
  Forall (fun c => switch c) before -> valued c ->
  short_options f total offset (before ++ c :: after)
  = Some (map dash (before ++ [c]), offset + len (concat_strings before) + 1 + len c =? total).
Proof.
  intros H Hc. revert offset. induction H as [|d before Hd _ IH]; intros offset; cbn.
  - rewrite Hc. by rewrite Nat.add_0_r.
  - rewrite (switch_not_valued d), Hd, IH by done. cbn [mbind option_bind]. rewrite len_app.
    by rewrite (Nat.add_assoc offset).
Qed.

Lemma short_options_cases total offset cs l next :
  short_options f total offset cs = Some (l, next) ->
  Forall (fun c => switch c) cs
  \/ exists before c after, cs = before ++ c :: after /\ Forall (fun c => switch c) before /\ valued c.
Proof.
  revert offset l. induction cs as [|c cs IH]; intros offset l; [by left|]. cbn.
  destruct (flags_contains (values f) (dash c)) eqn:Ev; [intros _; right; by exists [], c, cs|].
  destruct (flags_contains (switches f) (dash c)) eqn:Es; [|done]. cbn [negb].
  destruct (short_options f total (offset + len c) cs) as [[l' next']|] eqn:E; [|done].
  intros [= <- ->]. destruct (IH _ _ E) as [H|(before & d & after & -> & Hb & Hd)]; [left; by constructor|].
  right. exists (c :: before), d, after. split_and!; [done|by constructor|done].
Qed.

Lemma option_word_short text l next :
  starts_with text "-" = false ->
  option_word f (dash text) = Some (l, next) <-> names_options f (dash text) l next.
Proof.
  intros Htext. assert (starts_with (dash text) "--" = false) as Hdash by exact Htext.
  pose proof (char_strings_concat text) as Hconcat. pose proof (char_strings_nonempty text) as Hfull.
  assert (forall name v, (name ++ "=" ++ v)%string = dash text -> starts_with (name ++ "=" ++ v)%string "--" = true -> False)
    as Hlong by (intros name v ->; congruence).
  assert (len (dash text) = S (len (concat_strings (char_strings text)))) as Hlen by (by rewrite Hconcat).
  assert (option_word f (dash text) = short_options f (len (dash text)) 0 (char_strings text)) as ->
    by (unfold option_word; by rewrite Hdash).
  rewrite Hlen. split.
  - intros H. destruct (short_options_cases _ _ _ _ _ H) as [Hall|(before & c & after & Hcs & Hb & Hc)].
    + rewrite short_options_switches in H by done. injection H as <- <-. by constructor.
    + rewrite Hcs, short_options_value in H by done. injection H as <- <-.
      rewrite Hcs in Hfull. apply Forall_app in Hfull as [_ Hfull]. inversion_clear Hfull as [|? ? _ Hafter].
      rewrite concat_strings_app. cbn [concat_strings foldr]. fold (concat_strings after). rewrite !len_app.
      destruct after as [|d after].
      * rewrite (proj2 (Nat.eqb_eq _ _)) by (cbn; lia). by apply (short_value f text before c).
      * rewrite (proj2 (Nat.eqb_neq _ _)); [by apply (short_joined f text before c d after)|].
        inversion_clear Hafter. cbn [concat_strings foldr]. rewrite len_app. lia.
  - intros H. inversion H as [n Hn|n Hn|n Hn|n v Hn|t Ht Hall|t before c Ht Hcs Hb Hc|t before c d after Ht Hcs Hb Hc];
      subst; try congruence;
      try match goal with E : _ = dash text |- _ => exfalso; eapply Hlong; [exact E|eassumption] end.
    + by rewrite short_options_switches.
    + rewrite Hcs, short_options_value by done. rewrite concat_strings_app, len_app. cbn.
      do 2 f_equal. apply Nat.eqb_eq. rewrite str_app_nil_r. lia.
    + rewrite Hcs, short_options_value by done. rewrite concat_strings_app, len_app. cbn [concat_strings foldr].
      do 2 f_equal. apply Nat.eqb_neq. rewrite !len_app.
      rewrite Hcs in Hfull. apply Forall_app in Hfull as [_ Hfull].
      inversion_clear Hfull as [|? ? _ Hafter]. inversion_clear Hafter. lia.
Qed.

Lemma option_word_long arg l next :
  starts_with arg "--" = true ->
  option_word f arg = Some (l, next) <-> names_options f arg l next.
Proof.
  intros Harg. unfold option_word. rewrite Harg. unfold long_option. split.
  - destruct (split_once arg "=") as [[name v]|] eqn:E.
    + apply split_once_Some in E as [-> Hname].
      destruct (flags_contains (values f) name) eqn:Ev; [intros [= <- <-]; constructor; auto|].
      destruct (flags_contains (attached f) name) eqn:Ea; [intros [= <- <-]; constructor; auto|].
      by rewrite orb_true_r.
    + apply split_once_None in E.
      destruct (flags_contains (values f) arg) eqn:Ev; [intros [= <- <-]; by constructor|].
      destruct (flags_contains (attached f) arg) eqn:Ea; [intros [= <- <-]; by constructor|].
      destruct (flags_contains (switches f) arg) eqn:Es; [|done]. intros [= <- <-]. by constructor.
  - intros H. inversion H as [n Hn Hc Hs|n Hn Hc Ha|n Hn Hc Hv|n v Hn Hc Hva|t Ht Hall|t before c Ht Hcs Hb Hc|t before c d after Ht Hcs Hb Hc];
      subst; try (cbn in Harg; unfold starts_with in Ht; cbn in Ht; congruence);
      try apply split_once_None in Hc.
    + rewrite Hc. destruct (flags_contains (values f) arg) eqn:Ev.
      { apply Hdisjoint in Ev as [_ Ev]. congruence. }
      by rewrite Hs; destruct (flags_contains (attached f) arg).
    + rewrite Hc, Ha. destruct (flags_contains (values f) arg) eqn:Ev; [|done].
      apply Hdisjoint in Ev as [Ev _]. congruence.
    + by rewrite Hc, Hv.
    + rewrite (proj2 (split_once_Some (n ++ "=" ++ v) "=" n v)) by (split; [done|by apply split_once_None]).
      destruct Hva as [Hv|Ha]; [by rewrite Hv|]. rewrite Ha.
      by destruct (flags_contains (values f) n).
Qed.

Lemma option_word_iff arg l next :
  is_operand arg = false -> option_word f arg = Some (l, next) <-> names_options f arg l next.
Proof.
  intros Hop. destruct (starts_with arg "--") eqn:E; [by apply option_word_long|].
  unfold is_operand in Hop. apply orb_false_iff in Hop as [_ Hop]. apply negb_false_iff in Hop.
  apply starts_with_iff in Hop as [text ->]. by apply option_word_short.
Qed.

Lemma parse_getopt args ops fl :
  parse f args = Some {| positional := ops; flags := fl |} <-> getopt f args ops fl.
Proof.
  split.
  - revert ops fl. induction args as [args IH] using (induction_ltof1 _ (@length _)). unfold ltof in IH.
    intros ops fl. destruct args as [|arg rest]; cbn [parse]; [intros [= <- <-]; constructor|].
    destruct (String.eqb_spec arg "--") as [->|Hne]; [intros [= <- <-]; constructor|].
    destruct (is_operand arg) eqn:Hop.
    { destruct (parse f rest) as [[ops' fl']|] eqn:E; [|done]. intros [= <- <-].
      constructor; [done..|]. apply IH; [cbn; lia|done]. }
    destruct (option_word f arg) as [[l next]|] eqn:Ew; [|done]. apply option_word_iff in Ew; [|done].
    destruct next.
    + destruct rest as [|v rest]; [done|]. destruct (parse f rest) as [[ops' fl']|] eqn:E; [|done].
      intros [= <- <-]. constructor; [done..|]. apply IH; [cbn; lia|done].
    + destruct (parse f rest) as [[ops' fl']|] eqn:E; [|done].
      intros [= <- <-]. constructor; [done..|]. apply IH; [cbn; lia|done].
  - induction 1 as [|rest|arg args ops fl Hne Hop _ IH|arg l args ops fl Hne Hop Hw _ IH
      |arg l v args ops fl Hne Hop Hw _ IH]; cbn [parse]; [done|done|..];
      rewrite (proj2 (String.eqb_neq _ _)) by done; rewrite Hop.
    + by rewrite IH.
    + rewrite (proj2 (option_word_iff _ _ _ Hop) Hw). by rewrite IH.
    + rewrite (proj2 (option_word_iff _ _ _ Hop) Hw). by rewrite IH.
Qed.

End Grammar.
