(* ===== verification/ToolConcurrency.v ===== *)
(** * Which calls may overlap (runtime/src/tool_concurrency.rs, tool_concurrency/commands.rs,
    engine-host/src/tool_executor.rs)

    A call of a built-in tool may overlap with another if its name is on a fixed list, or if
    it is a shell command made of literal, read-only programs.  The shell grammar
    (tree-sitter-bash) and the word splitter (shell-words) are dependencies: the tree of a
    command is a [Node], [parser] returns it, [shell_split] splits the text of a word. *)
From S2P Require Import Prelude.
From stdpp Require Import list.
From S2P Require Import RustStr Json ToolNames ToolRegistry ShellFlags.

(** ** Command families (tool_concurrency/commands.rs) *)

Definition BRANCH_FLAGS : Flags := {|
  switches := "-l --list -a --all -r --remotes -v --verbose --no-color --no-column --no-abbrev --show-current -i --ignore-case";
  values := "--contains --no-contains --points-at --sort";
  attached := "--color --column --abbrev --merged --no-merged"
|}.
Definition FD_FLAGS : Flags := {|
  switches := "-h --help -V --version -H --hidden -I --no-ignore --no-ignore-vcs --no-ignore-parent -s --case-sensitive -i --ignore-case -g --glob --regex -F --fixed-strings -a --absolute-path -L --follow -p --full-path -0 --print0 --strip-cwd-prefix --show-errors --one-file-system --no-require-git --exactly --quiet -q";
  values := "-d --max-depth --min-depth --exact-depth -t --type -e --extension -S --size --changed-within --changed-before -o --owner -E --exclude --ignore-file -c --color -j --threads --max-results --path-separator --search-path --base-directory";
  attached := ""
|}.
Definition DIFF_FLAGS : Flags := {|
  switches := "-q --brief -s --report-identical-files -c -u -e --ed -n --rcs -y --side-by-side --left-column --suppress-common-lines -p --show-c-function -t --expand-tabs -T --initial-tab --suppress-blank-empty -r --recursive -N --new-file --unidirectional-new-file --ignore-file-name-case --no-ignore-file-name-case -a --text --strip-trailing-cr -i --ignore-case -E --ignore-tab-expansion -Z --ignore-trailing-space -b --ignore-space-change -w --ignore-all-space -B --ignore-blank-lines -d --minimal --speed-large-files --help -v --version";
  values := "-C -U -W --width --tabsize -F --show-function-line --label -x --exclude -X --exclude-from -S --starting-file --from-file --to-file -I --ignore-matching-lines --horizon-lines";
  attached := "--color --context --unified"
|}.
Definition GH_LIST : Flags := {|
  switches := "--draft --help";
  values := "--state -s --author --assignee --label --limit -L --base --head --search --json --app --repo -R --milestone";
  attached := ""
|}.
Definition GH_VIEW : Flags := {| switches := "--comments --help"; values := "--json --repo -R"; attached := "" |}.
Definition GH_DIFF : Flags := {| switches := "--name-only --patch --help"; values := "--color --repo -R"; attached := "" |}.
Definition GH_CHECKS : Flags := {|
  switches := "--watch --required --fail-fast --help"; values := "--json --interval --repo -R"; attached := ""
|}.
Definition GH_REPO : Flags := {| switches := "--help"; values := "--json --branch -b"; attached := "" |}.

Definition accepts (f : Flags) (args : list string) : bool := match parse f args with Some _ => true | None => false end.

Definition branch (args : list string) : bool :=
  match parse BRANCH_FLAGS args with
  | Some p => match positional p with
              | [] => true
              | _ => existsb (fun f => str_in f ["--list"; "-l"; "--merged"; "--no-merged"]) (flags p)
              end
  | None => false
  end.
Definition fd (args : list string) : bool := accepts FD_FLAGS args.
Definition diff (args : list string) : bool := accepts DIFF_FLAGS args.

Definition gh_flags (group command : string) : option Flags :=
  if str_in group ["pr"; "issue"] && String.eqb command "list" then Some GH_LIST
  else if str_in group ["pr"; "issue"] && String.eqb command "view" then Some GH_VIEW
  else if String.eqb group "pr" && String.eqb command "diff" then Some GH_DIFF
  else if String.eqb group "pr" && String.eqb command "checks" then Some GH_CHECKS
  else if String.eqb group "repo" && String.eqb command "view" then Some GH_REPO
  else None.
Definition gh (args : list string) : bool :=
  match args with
  | group :: command :: rest => match gh_flags group command with Some f => accepts f rest | None => false end
  | _ => false
  end.

Definition accepts_globs (command : string) : bool :=
  str_in command ["ls"; "cat"; "head"; "tail"; "wc"; "stat"; "grep"; "egrep"; "fgrep"; "diff"; "du"; "df"; "echo";
    "strings"; "hexdump"; "od"; "nl"; "cut"; "column"; "tr"; "tac"; "rev"; "cmp"; "basename"; "dirname"; "realpath";
    "readlink"; "sha256sum"; "sha1sum"; "md5sum"; "cd"].

(** ** Programs (tool_concurrency.rs) *)

Definition before_equals (arg : string) : string := default "" (List.hd_error (split_byte arg "=")).
Definition short_with_o (flag : string) : bool :=
  starts_with flag "-" && negb (starts_with flag "--") && contains flag "o".

Definition GIT_READERS : list string :=
  ["status"; "diff"; "log"; "show"; "blame"; "ls-files"; "ls-tree"; "rev-parse"; "describe"; "shortlog"].
Definition GIT_UNSAFE : list string := ["--output"; "--ext-diff"; "--textconv"; "--open-files-in-pager"; "--exec"].

Definition git_arg_unsafe (arg : string) : bool :=
  let flag := before_equals arg in
  (starts_with flag "--" && negb (String.eqb flag "--") && existsb (fun unsafe_flag => starts_with unsafe_flag flag) GIT_UNSAFE)
  || short_with_o flag.

Definition git_is_read_only (args : list string) : bool :=
  match args with
  | [] => false
  | subcommand :: args =>
      if String.eqb subcommand "branch" then branch args
      else str_in subcommand GIT_READERS && negb (existsb git_arg_unsafe args)
  end.

Definition READERS : list string :=
  ["cat"; "head"; "tail"; "ls"; "pwd"; "wc"; "cut"; "tr"; "comm"; "basename"; "dirname"; "readlink"; "realpath";
   "stat"; "du"; "df"; "uname"; "whoami"; "id"; "true"; "false"; "echo"; "sleep"; "cd"; "grep"].
Definition FIND_ACTIONS : list string :=
  ["-delete"; "-exec"; "-execdir"; "-ok"; "-okdir"; "-fprint"; "-fprint0"; "-fprintf"; "-fls"].

Definition sort_arg_unsafe (arg : string) : bool :=
  let flag := before_equals arg in
  (starts_with flag "--" && (starts_with "--output" flag || starts_with "--compress-program" flag)) || short_with_o flag.
Definition rg_arg_unsafe (arg : string) : bool := starts_with arg "--pre" || starts_with arg "--hostname-bin".

Definition sed_range_char (c : ascii) : bool := is_ascii_digit c || Ascii.eqb c "," || Ascii.eqb c "$".
Definition sed_previews (args : list string) : bool :=
  match args with
  | option_n :: script :: rest =>
      String.eqb option_n "-n"
      && match strip_suffix script "p" with
         | Some range => negb (is_empty range) && all_bytes sed_range_char range
         | None => false
         end
      && forallb (fun arg => negb (starts_with arg "-")) rest
  | _ => false
  end.

(** [None] is a panic: [args[0]] of an empty command. *)
Definition command_is_read_only (args : list string) : option bool :=
  match args with
  | [] => None
  | command :: args =>
      Some (if str_in command READERS then true
            else if String.eqb command "printf" then negb (existsb (fun arg => starts_with arg "-v") args)
            else if String.eqb command "sort" then negb (existsb sort_arg_unsafe args)
            else if String.eqb command "rg" then negb (existsb rg_arg_unsafe args)
            else if String.eqb command "find" then negb (existsb (fun arg => str_in arg FIND_ACTIONS) args)
            else if String.eqb command "sed" then sed_previews args
            else if String.eqb command "git" then git_is_read_only args
            else if str_in command ["fd"; "fdfind"] then fd args
            else if String.eqb command "diff" then diff args
            else if String.eqb command "gh" then gh args
            else false)
  end.

(** ** Syntax trees *)

(** A node: its kind, whether it is named, the source it spans, its children. *)
Inductive Node := node (kind : string) (is_named : bool) (source : string) (children : list Node).
Definition kind (n : Node) : string := let 'node k _ _ _ := n in k.
Definition is_named (n : Node) : bool := let 'node _ b _ _ := n in b.
Definition source (n : Node) : string := let 'node _ _ s _ := n in s.
Definition children (n : Node) : list Node := let 'node _ _ _ l := n in l.
Definition named_children (n : Node) : list Node := List.filter is_named (children n).

Definition contains_any (s chars : string) : bool :=
  existsb (fun c => contains s (String c "")) (list_ascii_of_string chars).

Fixpoint literal_syntax (n : Node) : bool :=
  match n with
  | node kind _ source children =>
      if String.eqb kind "raw_string" then true
      else if str_in kind ["command_name"; "string"; "concatenation"] then
        forallb (fun child => negb (is_named child) || literal_syntax child) children
      else if str_in kind ["word"; "string_content"; "number"] then
        negb (String.eqb kind "word" && contains_any source "{}~")
      else false
  end.

Fixpoint has_glob (n : Node) : bool :=
  match n with
  | node kind _ source children =>
      if str_in kind ["raw_string"; "string"] then false
      else if String.eqb kind "word" && contains_any source "*?[]" then true
      else existsb (fun child => is_named child && has_glob child) children
  end.

Section Classify.
Context (shell_split : string -> option (list string)).

Definition literal_word (n : Node) : option string :=
  if negb (literal_syntax n) then None
  else match shell_split (source n) with
       | Some [word] => Some word
       | _ => None
       end.

Definition SAFE_REDIRECTS : list string := ["2>&1"; "1>&2"; ">&2"; ">/dev/null"; "1>/dev/null"; "2>/dev/null"].

Definition device (word : string) : bool := starts_with word "/dev/tcp/" || starts_with word "/dev/udp/".

(** [chars().filter(|c| !c.is_whitespace())] *)
Definition without_whitespace (s : string) : string := concat_strings (split_whitespace s).

Definition input_path (raw : string) : option string :=
  match strip_prefix raw "<" with
  | Some path => if existsb (starts_with path) ["<"; ">"; "&"] then None else Some path
  | None => None
  end.

Definition read_only_redirect (n : Node) : bool :=
  match input_path (trim (source n)) with
  | Some path =>
      match shell_split (trim path) with
      | Some [word] => negb (device word) && forallb literal_syntax (named_children n)
      | _ => false
      end
  | None => str_in (without_whitespace (source n)) SAFE_REDIRECTS
  end.

(** The words of a command node. *)
Fixpoint command_words (l : list Node) : option (list string) :=
  match l with
  | [] => Some []
  | child :: rest =>
      if String.eqb (kind child) "file_redirect" then
        if read_only_redirect child then command_words rest else None
      else word ← literal_word child; words ← command_words rest; Some (word :: words)
  end.

Definition newline_text : string := String "010" "".
Definition SEPARATORS : list string := [";"; newline_text; "&&"; "||"; "|"; "|&"].
Definition STATEMENTS : list string := ["program"; "list"; "pipeline"; "redirected_statement"].

Section Each.
Context (f : Node -> option (list (list string))).
Fixpoint collect_children (l : list Node) : option (list (list string)) :=
  match l with
  | [] => Some []
  | child :: rest =>
      commands ← (if is_named child then f child
                  else if str_in (kind child) SEPARATORS then Some [] else None);
      more ← collect_children rest;
      Some (commands ++ more)
  end.
End Each.

(** The commands of a tree, or [None] for [false]. *)
Fixpoint collect_commands (n : Node) : option (list (list string)) :=
  match n with
  | node kind _ _ children =>
      if str_in kind STATEMENTS then collect_children collect_commands children
      else if String.eqb kind "command" then
        match command_words (List.filter is_named children) with
        | Some (program :: args) =>
            if has_glob n && negb (accepts_globs program) then None else Some [program :: args]
        | _ => None
        end
      else if String.eqb kind "file_redirect" then if read_only_redirect n then Some [] else None
      else if String.eqb kind "comment" then Some [] else None
  end.

(** [commands.iter().any(|args| args[0] == name)] and [all(command_is_read_only)]. *)
Fixpoint any_program (name : string) (commands : list (list string)) : option bool :=
  match commands with
  | [] => Some false
  | [] :: _ => None
  | (program :: _) :: rest => if String.eqb program name then Some true else any_program name rest
  end.
Fixpoint all_read_only (commands : list (list string)) : option bool :=
  match commands with
  | [] => Some true
  | args :: rest => match command_is_read_only args with
                    | Some true => all_read_only rest
                    | answer => answer
                    end
  end.

Context (parser : string -> option Node) (has_error : Node -> bool).

(** [None] is a panic. *)
Definition bash_is_read_only (command : string) : option bool :=
  if is_empty command || (65536 <? N.of_nat (len command))%N then Some false
  else match parser command with
       | None => Some false
       | Some root =>
           if has_error root then Some false
           else match collect_commands root with
                | None | Some [] => Some false
                | Some commands =>
                    has_cd ← any_program "cd" commands;
                    has_git ← any_program "git" commands;
                    if has_cd && has_git then Some false else all_read_only commands
                end
       end.

Context {J : SerdeJson}.

Definition SAFE_TOOLS : list string :=
  ["read_file"; "read_tool_output"; "glob_search"; "grep_search"; "ToolSearch"; "WebFetch"; "WebSearch"; "pid_status";
   "pid_output"; "agent_list"; "agent_spawn"; "pid_fork"; "CronList"; "AskUserQuestion"].

Definition builtin_is_concurrency_safe (name input : string) : option bool :=
  match from_str input with
  | None => Some false
  | Some input =>
      let tool := canonicalize_tool_name name in
      if String.eqb tool "bash" then
        match get input "command" with
        | Some command => match as_str command with Some command => bash_is_read_only command | None => Some false end
        | None => Some false
        end
      else Some (str_in tool SAFE_TOOLS)
  end.

(** ** The executor of a process (engine-host/src/tool_executor.rs)

    A discovered tool has the capability of its transport. *)
Definition mcp_target (input : string) : option string :=
  match from_str input with
  | Some v => match get v "qualifiedName" with
              | Some name => as_str name
              | None => match get v "tool" with Some name => as_str name | None => None end
              end
  | None => None
  end.

Definition executor_is_concurrency_safe (r : GlobalToolRegistry) (name input : string) : option bool :=
  let name := canonicalize_tool_name name in
  if has_runtime_tool r name then
    let target := if String.eqb name "MCPTool" then mcp_target input else Some name in
    Some (match target with
          | Some target => runtime_tool_is_concurrency_safe r target
          | None => false
          end)
  else builtin_is_concurrency_safe name input.

End Classify.

(** ** What a read-only command is *)

Definition FAMILIES : list (list string * Flags) :=
  [(["fd"], FD_FLAGS); (["fdfind"], FD_FLAGS); (["diff"], DIFF_FLAGS); (["gh"; "pr"; "list"], GH_LIST);
   (["gh"; "issue"; "list"], GH_LIST); (["gh"; "pr"; "view"], GH_VIEW); (["gh"; "issue"; "view"], GH_VIEW);
   (["gh"; "pr"; "diff"], GH_DIFF); (["gh"; "pr"; "checks"], GH_CHECKS); (["gh"; "repo"; "view"], GH_REPO)].

(** An argument that asks for a long option, possibly abbreviated, possibly with a value. *)
Definition asks_for (arg option : string) : Prop :=
  exists name, 2 < len name /\ contains name "=" = false /\ starts_with option name = true
    /\ (arg = name \/ exists v, arg = (name ++ "=" ++ v)%string).
Definition asks_for_o (arg : string) : Prop :=
  starts_with arg "-" = true /\ starts_with arg "--" = false /\ contains (before_equals arg) "o" = true.

(** The lines [sed -n] prints: the option, a script of line numbers, files. *)
Definition prints_lines (args : list string) : Prop :=
  exists range files, args = "-n" :: (range ++ "p")%string :: files /\ range <> ""
    /\ all_bytes sed_range_char range = true /\ Forall (fun file => starts_with file "-" = false) files.

(** Every reason a command may do more than read. *)
Inductive may_write : list string -> Prop :=
| printf_variable args arg : In arg args -> starts_with arg "-v" = true -> may_write ("printf" :: args)
| sort_writes args arg option :
    In arg args -> In option ["--output"; "--compress-program"] -> asks_for arg option -> may_write ("sort" :: args)
| sort_writes_short args arg : In arg args -> asks_for_o arg -> may_write ("sort" :: args)
| rg_runs args arg option :
    In arg args -> In option ["--pre"; "--hostname-bin"] -> starts_with arg option = true -> may_write ("rg" :: args)
| find_acts args arg : In arg args -> In arg FIND_ACTIONS -> may_write ("find" :: args)
| sed_edits args : ~ prints_lines args -> may_write ("sed" :: args)
| git_alone : may_write ["git"]
| git_changes subcommand args :
    ~ In subcommand ("branch" :: GIT_READERS) -> may_write ("git" :: subcommand :: args)
| git_option subcommand args arg option :
    In subcommand GIT_READERS -> In arg args -> In option GIT_UNSAFE -> asks_for arg option ->
    may_write ("git" :: subcommand :: args)
| git_output_short subcommand args arg :
    In subcommand GIT_READERS -> In arg args -> asks_for_o arg -> may_write ("git" :: subcommand :: args)
| git_branch_undeclared args :
    (forall ops fl, ~ getopt BRANCH_FLAGS args ops fl) -> may_write ("git" :: "branch" :: args)
| git_branch_named args name ops fl :
    getopt BRANCH_FLAGS args (name :: ops) fl ->
    (forall flag, In flag fl -> ~ In flag ["--list"; "-l"; "--merged"; "--no-merged"]) ->
    may_write ("git" :: "branch" :: args)
| undeclared_option words f args :
    In (words, f) FAMILIES -> (forall ops fl, ~ getopt f args ops fl) -> may_write (words ++ args)
| gh_other args : (forall words f rest, In (words, f) FAMILIES -> "gh" :: args <> words ++ rest) -> may_write ("gh" :: args)
| unknown_program program args :
    ~ In program (READERS ++ ["printf"; "sort"; "rg"; "find"; "sed"; "git"; "fd"; "fdfind"; "diff"; "gh"]) ->
    may_write (program :: args).

Definition disjointb (f : Flags) : bool :=
  forallb (fun flag => negb (flags_contains (attached f) flag) && negb (flags_contains (switches f) flag))
    (split_ascii_whitespace (values f)).

Lemma not_in_list x l : str_in x l = false -> ~ In x l.
Proof. intros H Hin. apply str_in_In in Hin. congruence. Qed.

Lemma disjointb_spec f : disjointb f = true -> disjoint_flags f.
Proof.
  intros H flag Hv. apply str_in_In in Hv. unfold disjointb in H. rewrite forallb_forall in H.
  apply H in Hv. by apply andb_true_iff in Hv as [->%negb_true_iff ->%negb_true_iff].
Qed.

Lemma family_disjoint words f : In (words, f) ((["git"; "branch"], BRANCH_FLAGS) :: FAMILIES) -> disjoint_flags f.
Proof.
  assert (forallb (fun e => disjointb e.2) ((["git"; "branch"], BRANCH_FLAGS) :: FAMILIES) = true) as H
    by (vm_compute; reflexivity).
  rewrite forallb_forall in H. intros Hin. by apply disjointb_spec, (H (words, f)).
Qed.

Lemma accepts_getopt f args : disjoint_flags f -> accepts f args = true <-> exists ops fl, getopt f args ops fl.
Proof.
  intros Hf. unfold accepts. split.
  - destruct (parse f args) as [[ops fl]|] eqn:E; [|done]. intros _. exists ops, fl. by apply parse_getopt.
  - intros (ops & fl & H). apply parse_getopt in H; [|done]. by rewrite H.
Qed.

Lemma before_equals_plain arg : contains arg "=" = false -> before_equals arg = arg.
Proof.
  intros H. unfold before_equals, split_byte. rewrite split_byte_aux_none; [done|].
  induction arg as [|a arg IH]; [done|]. rewrite contains_byte_cons in H. apply orb_false_iff in H as [Ha H].
  cbn [all_bytes]. rewrite (Ascii.eqb_sym a), Ha. by apply IH.
Qed.

Lemma before_equals_spelled name v : contains name "=" = false -> before_equals (name ++ "=" ++ v) = name.
Proof.
  intros H. unfold before_equals, split_byte.
  assert (forall s cur, contains s "=" = false ->
    List.hd_error (split_byte_aux "=" (s ++ String "=" v) cur) = Some (str_rev cur ++ s)%string) as Haux.
  { induction s as [|a s IH]; intros cur Hs; [by rewrite str_app_nil_r|]. rewrite contains_byte_cons in Hs.
    apply orb_false_iff in Hs as [Ha Hs]. cbn [append split_byte_aux]. rewrite (Ascii.eqb_sym a), Ha, IH by done.
    by rewrite str_rev_cons, str_app_assoc. }
  change ("=" ++ v)%string with (String "=" v). by rewrite Haux.
Qed.

Lemma asks_for_flag arg option :
  asks_for arg option -> 2 < len (before_equals arg) /\ starts_with option (before_equals arg) = true.
Proof.
  intros (name & Hlen & Hname & Hop & [->|[v ->]]); [rewrite before_equals_plain by done|rewrite before_equals_spelled by done]; done.
Qed.

Lemma starts_with_dashes option flag :
  In option (["--output"; "--compress-program"] ++ GIT_UNSAFE) -> 2 < len flag -> starts_with option flag = true ->
  starts_with flag "--" = true /\ String.eqb flag "--" = false.
Proof.
  intros Hin Hlen H. apply starts_with_iff in H as [r Hr].
  assert (exists t, option = ("--" ++ t)%string) as [t Ht].
  { repeat (destruct Hin as [<-|Hin]; [by eexists|]). by destruct Hin. }
  rewrite Ht in Hr. destruct flag as [|a [|b [|c flag]]]; cbn in Hlen; try lia.
  injection Hr as <- <- _. split; [done|]. by apply String.eqb_neq.
Qed.

Lemma asks_for_o_flag arg : asks_for_o arg -> short_with_o (before_equals arg) = true.
Proof.
  intros (H1 & H2 & H3). unfold short_with_o. rewrite H3, andb_true_r.
  apply starts_with_iff in H1 as [text ->].
  destruct (split_once text "=") as [[name v]|] eqn:E.
  - apply split_once_Some in E as [-> Hname].
    change (before_equals ("-" ++ name ++ String "=" v)) with (before_equals ((String "-" name) ++ "=" ++ v)).
    rewrite before_equals_spelled by exact Hname.
    destruct name as [|a name]; [done|].
    change (negb (Ascii.eqb "-" a && true) = true). change (Ascii.eqb "-" a && true = false) in H2. by rewrite H2.
  - apply split_once_None in E. rewrite before_equals_plain by exact E. by rewrite H2.
Qed.

Lemma not_existsb {A} (p : A -> bool) l x : negb (existsb p l) = true -> In x l -> p x = false.
Proof.
  intros H Hin. apply negb_true_iff in H. destruct (p x) eqn:E; [|done].
  assert (existsb p l = true) by (apply existsb_exists; eauto). congruence.
Qed.

Lemma sort_asked arg option :
  In option ["--output"; "--compress-program"] -> asks_for arg option -> sort_arg_unsafe arg = true.
Proof.
  intros Hin Hask. apply asks_for_flag in Hask as [Hlen Hpre].
  destruct (starts_with_dashes option (before_equals arg)) as [Hd _]; [apply in_or_app; by left|done..|].
  unfold sort_arg_unsafe. rewrite Hd. apply orb_true_iff; left. apply andb_true_iff; split; [done|].
  apply orb_true_iff. destruct Hin as [<-|[<-|[]]]; auto.
Qed.

Lemma git_asked arg option : In option GIT_UNSAFE -> asks_for arg option -> git_arg_unsafe arg = true.
Proof.
  intros Hin Hask. apply asks_for_flag in Hask as [Hlen Hpre].
  destruct (starts_with_dashes option (before_equals arg)) as [Hd Hne]; [apply in_or_app; by right|done..|].
  unfold git_arg_unsafe. rewrite Hd, Hne. apply orb_true_iff; left. apply andb_true_iff; split; [done|].
  apply existsb_exists. eauto.
Qed.

Lemma sed_previews_spec args : sed_previews args = true -> prints_lines args.
Proof.
  destruct args as [|option_n [|script files]]; [done|done|]. cbn [sed_previews].
  intros [[Hn Hs]%andb_true_iff Hf]%andb_true_iff. apply String.eqb_eq in Hn as ->.
  destruct (strip_suffix script "p") as [range|] eqn:E; [|done]. apply strip_suffix_iff in E as ->.
  apply andb_true_iff in Hs as [He Hr]. exists range, files. split_and!; [done|by destruct range|done|].
  rewrite forallb_forall in Hf. apply Forall_forall. intros file Hin. apply list_elem_of_In, Hf in Hin.
  by apply negb_true_iff in Hin.
Qed.

Lemma git_only_reads args : git_is_read_only args = true -> ~ may_write ("git" :: args).
Proof.
  assert (disjoint_flags BRANCH_FLAGS) as Hdis by (apply (family_disjoint ["git"; "branch"]); by left).
  assert (forall subcommand rest, In subcommand GIT_READERS ->
    git_is_read_only (subcommand :: rest) = true -> negb (existsb git_arg_unsafe rest) = true) as Hreader.
  { intros subcommand rest Hin H. cbn [git_is_read_only] in H. destruct (String.eqb_spec subcommand "branch") as [->|].
    - by apply str_in_In in Hin.
    - by apply andb_true_iff in H as [_ H]. }
  intros H Hw. inversion Hw as [| | | | | | |sub rest Hnot|sub rest arg option Hin Ha Ho Hask|sub rest arg Hin Ha Hask
    |rest Hund|rest name ops fl Hgo Hfl|words f rest Hin Hund| |p rest Hnot]; subst; try done.
  - cbn [git_is_read_only] in H. destruct (String.eqb_spec sub "branch") as [->|]; [apply Hnot; by left|].
    apply andb_true_iff in H as [H _]. apply str_in_In in H. apply Hnot. by right.
  - apply (Hreader _ _ Hin), not_existsb with (x := arg) in H; [|done]. by rewrite (git_asked arg option) in H.
  - apply (Hreader _ _ Hin), not_existsb with (x := arg) in H; [|done].
    unfold git_arg_unsafe in H. rewrite asks_for_o_flag in H by done. by rewrite orb_true_r in H.
  - cbn in H. unfold branch in H. destruct (parse BRANCH_FLAGS rest) as [[ops fl]|] eqn:E; [|done].
    apply (Hund ops fl). by apply parse_getopt.
  - cbn in H. unfold branch in H. apply parse_getopt in Hgo; [|done]. rewrite Hgo in H. cbn [positional flags] in H.
    apply existsb_exists in H as (flag & Hin & Hflag). apply (Hfl flag); [done|]. by apply str_in_In.
  - repeat (destruct Hin as [[= <- <-]|Hin]; [done|]). done.
  - apply Hnot. apply str_in_In. reflexivity.
Qed.

Lemma family_only_reads words f args :
  In (words, f) FAMILIES -> command_is_read_only (words ++ args) = Some (accepts f args).
Proof. intros Hin. repeat (destruct Hin as [[= <- <-]|Hin]; [reflexivity|]). done. Qed.

Lemma gh_family args : gh args = true -> exists words f rest, In (words, f) FAMILIES /\ "gh" :: args = words ++ rest.
Proof.
  destruct args as [|group [|command rest]]; [done|done|]. cbn [gh].
  destruct (gh_flags group command) as [f|] eqn:E; [|done]. intros _.
  exists ["gh"; group; command], f, rest. split; [|done]. revert E. unfold gh_flags.
  repeat match goal with
  | |- (if ?b then _ else _) = _ -> _ => destruct b eqn:?; [intros [= <-]|]
  end; [| | | | |done];
  repeat match goal with
  | E : (_ && _)%bool = true |- _ => apply andb_true_iff in E as [? ?]
  | E : String.eqb _ _ = true |- _ => apply String.eqb_eq in E as ->
  | E : str_in _ _ = true |- _ => apply str_in_In in E as [<-|[<-|[]]]
  end; cbn; tauto.
Qed.

Lemma command_only_reads args : command_is_read_only args = Some true -> ~ may_write args.
Proof.
  intros H Hw. inversion Hw as [rest arg Ha Hv|rest arg option Ha Ho Hask|rest arg Ha Hask|rest arg option Ha Ho Hs
    |rest arg Ha Hact|rest Hnot| |sub rest Hnot|sub rest arg option Hin Ha Ho Hask|sub rest arg Hin Ha Hask
    |rest Hund|rest name ops fl Hgo Hfl|words f rest Hin Hund|rest Hother|p rest Hnot]; subst;
    try (apply (inj Some) in H; by apply (git_only_reads _ H)).
  - change (Some (negb (existsb (fun arg => starts_with arg "-v") rest)) = Some true) in H. apply (inj Some) in H.
    apply (not_existsb _ _ arg) in H; [|done]. congruence.
  - change (Some (negb (existsb sort_arg_unsafe rest)) = Some true) in H. apply (inj Some) in H.
    apply (not_existsb _ _ arg) in H; [|done]. by rewrite (sort_asked arg option) in H.
  - change (Some (negb (existsb sort_arg_unsafe rest)) = Some true) in H. apply (inj Some) in H.
    apply (not_existsb _ _ arg) in H; [|done]. unfold sort_arg_unsafe in H. rewrite asks_for_o_flag in H by done.
    by rewrite orb_true_r in H.
  - change (Some (negb (existsb rg_arg_unsafe rest)) = Some true) in H. apply (inj Some) in H.
    apply (not_existsb _ _ arg) in H; [|done]. unfold rg_arg_unsafe in H. apply orb_false_iff in H as [H1 H2].
    destruct Ho as [<-|[<-|[]]]; congruence.
  - change (Some (negb (existsb (fun arg => str_in arg FIND_ACTIONS) rest)) = Some true) in H. apply (inj Some) in H.
    apply (not_existsb _ _ arg) in H; [|done]. apply str_in_In in Hact. congruence.
  - apply Hnot, sed_previews_spec. by apply (inj Some) in H.
  - rewrite (family_only_reads words f) in H by done. apply (inj Some) in H.
    apply accepts_getopt in H as (ops & fl & H); [by apply (Hund ops fl)|].
    apply (family_disjoint words). by right.
  - change (Some (gh rest) = Some true) in H. apply (inj Some) in H.
    apply gh_family in H as (words & f & more & Hin & Heq). by apply (Hother words f more).
  - apply Hnot. cbn [command_is_read_only] in H. apply (inj Some) in H. apply in_or_app.
    destruct (str_in p READERS) eqn:E; [left; by apply str_in_In|right].
    repeat match type of H with
    | (if String.eqb p ?s then _ else _) = true => destruct (String.eqb_spec p s) as [->|]; [cbn; tauto|]
    | (if str_in p ?l then _ else _) = true =>
        destruct (str_in p l) eqn:E2; [apply str_in_In in E2 as [<-|[<-|[]]]; cbn; tauto|]
    end. done.
Qed.

(** ** What a read-only tree is *)

Section Trees.
Context (shell_split : string -> option (list string)).

(** The nodes that make a difference: those reached from the root through named nodes, but
    not below a word, a quoted text or a redirection to the null device. *)
Definition opens (n : Node) : Prop :=
  In (kind n) (STATEMENTS ++ ["command"; "command_name"; "string"; "concatenation"])
  \/ kind n = "file_redirect" /\ input_path (trim (source n)) <> None.

Inductive reaches (root : Node) : Node -> Prop :=
| reach_root : reaches root root
| reach_child n c : reaches root n -> opens n -> In c (named_children n) -> reaches root c.

(** A redirection of descriptors or to the null device, or input from one literal word that
    is not a network device. *)
Definition quiet_redirect (n : Node) : Prop :=
  In (without_whitespace (source n)) SAFE_REDIRECTS
  \/ exists path word, input_path (trim (source n)) = Some path /\ shell_split (trim path) = Some [word]
       /\ starts_with word "/dev/tcp/" = false /\ starts_with word "/dev/udp/" = false.

(** No expansion, substitution, assignment, subshell, function or loop is among these. *)
Definition plain_node (n : Node) : Prop :=
  In (kind n) (STATEMENTS ++ ["command"; "file_redirect"; "comment"; "command_name"; "string"; "concatenation";
                              "raw_string"; "word"; "string_content"; "number"])
  /\ (kind n = "word" -> contains_any (source n) "{}~" = false)
  /\ (kind n = "file_redirect" -> quiet_redirect n)
  /\ (In (kind n) STATEMENTS -> forall c, In c (children n) -> is_named c = false -> In (kind c) SEPARATORS).

Lemma in_named_children n c : In c (named_children n) <-> In c (children n) /\ is_named c = true.
Proof. apply filter_In. Qed.

Lemma redirect_quiet n : read_only_redirect shell_split n = true -> quiet_redirect n.
Proof.
  unfold read_only_redirect, quiet_redirect. destruct (input_path (trim (source n))) as [path|].
  - destruct (shell_split (trim path)) as [[|word [|]]|] eqn:E; try done.
    intros [H _]%andb_true_iff. apply negb_true_iff, orb_false_iff in H as [H1 H2].
    right. by exists path, word.
  - intros H. left. by apply str_in_In.
Qed.

Lemma redirect_literal n c :
  read_only_redirect shell_split n = true -> input_path (trim (source n)) <> None -> In c (named_children n) ->
  literal_syntax c = true.
Proof.
  unfold read_only_redirect. destruct (input_path (trim (source n))) as [path|]; [|done].
  destruct (shell_split (trim path)) as [[|word [|]]|]; try done.
  intros [_ H]%andb_true_iff _ Hin. rewrite forallb_forall in H. by apply H.
Qed.

(** A node that passed one of the checks; the commands it contributed are among [all]. *)
Inductive checked (all : list (list string)) (n : Node) : Prop :=
| checked_statement cmds : collect_commands shell_split n = Some cmds -> incl cmds all -> checked all n
| checked_literal : literal_syntax n = true -> checked all n.

Lemma literal_kind n :
  literal_syntax n = true ->
  In (kind n) ["raw_string"; "command_name"; "string"; "concatenation"; "word"; "string_content"; "number"]
  /\ (kind n = "word" -> contains_any (source n) "{}~" = false).
Proof.
  destruct n as [k b s l]. cbn [literal_syntax kind source].
  destruct (String.eqb_spec k "raw_string") as [->|]; [split; [by left|done]|].
  destruct (str_in k ["command_name"; "string"; "concatenation"]) eqn:E.
  { apply str_in_In in E. intros _. split; [cbn in *; tauto|]. intros ->. by destruct E as [|[|[|]]]. }
  destruct (str_in k ["word"; "string_content"; "number"]) eqn:E2; [|done].
  apply str_in_In in E2. intros H. split; [cbn in *; tauto|]. intros ->.
  apply negb_true_iff in H. by cbn [String.eqb andb] in H.
Qed.

Lemma literal_child n c :
  literal_syntax n = true -> opens n -> In c (named_children n) -> literal_syntax c = true.
Proof.
  intros H Hop Hin. destruct n as [k b s l]. apply in_named_children in Hin as [Hin Hnamed].
  cbn [children] in Hin.
  destruct (literal_kind _ H) as [Hk _]. cbn [kind] in Hk. unfold opens in Hop. cbn [kind] in Hop.
  assert (In k ["command_name"; "string"; "concatenation"]) as Hk3.
  { destruct Hop as [Hop|[-> _]]; [|cbn in Hk; repeat (destruct Hk as [Hk|Hk]; [done|]); done].
    repeat (destruct Hk as [<-|Hk]; [first [cbn; tauto | exfalso; by apply not_in_list in Hop]|]). done. }
  cbn [literal_syntax] in H. apply str_in_In in Hk3.
  destruct (String.eqb_spec k "raw_string") as [->|]; [by cbn in Hk3|]. rewrite Hk3 in H.
  rewrite forallb_forall in H. specialize (H _ Hin). by rewrite Hnamed in H.
Qed.

Lemma collect_children_spec f l cmds c :
  collect_children f l = Some cmds -> In c l ->
  (is_named c = true -> exists k, f c = Some k /\ incl k cmds) /\ (is_named c = false -> In (kind c) SEPARATORS).
Proof.
  revert cmds. induction l as [|d l IH]; intros cmds; [done|]. cbn [collect_children].
  destruct (if is_named d then f d else if str_in (kind d) SEPARATORS then Some [] else None) as [k|] eqn:Ek; [|done].
  cbn [mbind option_bind]. destruct (collect_children f l) as [more|] eqn:Em; [|done]. intros [= <-] [<-|Hin].
  - split; intros Hn; rewrite Hn in Ek.
    + exists k. split; [done|]. apply incl_appl, incl_refl.
    + destruct (str_in (kind d) SEPARATORS) eqn:E; [|done]. by apply str_in_In.
  - destruct (IH more eq_refl Hin) as [H1 H2]. split; [|done]. intros Hn. destruct (H1 Hn) as (k' & Hk' & Hincl).
    exists k'. split; [done|]. by apply incl_appr.
Qed.

Lemma command_words_spec l words c :
  command_words shell_split l = Some words -> In c l ->
  (kind c = "file_redirect" /\ read_only_redirect shell_split c = true) \/ literal_syntax c = true.
Proof.
  revert words. induction l as [|d l IH]; intros words; [done|]. cbn [command_words]. intros H [<-|Hin].
  - destruct (String.eqb_spec (kind d) "file_redirect").
    + left. by destruct (read_only_redirect shell_split d).
    + right. unfold literal_word in H. by destruct (literal_syntax d).
  - destruct (String.eqb_spec (kind d) "file_redirect").
    + destruct (read_only_redirect shell_split d); [|done]. by apply (IH words).
    + destruct (literal_word shell_split d) as [w|]; [|done]. cbn [mbind option_bind] in H.
      destruct (command_words shell_split l) as [ws|] eqn:E; [|done]. by apply (IH ws).
Qed.

(** The four shapes of a collected node. *)
Inductive statement_shape (n : Node) (cmds : list (list string)) : Prop :=
| shape_statement :
    In (kind n) STATEMENTS -> collect_children (collect_commands shell_split) (children n) = Some cmds ->
    statement_shape n cmds
| shape_command program args :
    kind n = "command" -> command_words shell_split (named_children n) = Some (program :: args) ->
    cmds = [program :: args] -> statement_shape n cmds
| shape_redirect :
    kind n = "file_redirect" -> read_only_redirect shell_split n = true -> statement_shape n cmds
| shape_comment : kind n = "comment" -> statement_shape n cmds.

Lemma collect_shape n cmds : collect_commands shell_split n = Some cmds -> statement_shape n cmds.
Proof.
  destruct n as [k b s l]. cbn [collect_commands].
  destruct (str_in k STATEMENTS) eqn:E.
  { apply str_in_In in E. intros H. by constructor. }
  destruct (String.eqb_spec k "command") as [->|].
  { destruct (command_words shell_split (List.filter is_named l)) as [[|program args]|] eqn:Ew; try done.
    destruct (has_glob _ && _); [done|]. intros [= <-]. by eapply shape_command. }
  destruct (String.eqb_spec k "file_redirect") as [->|].
  { destruct (read_only_redirect shell_split _) eqn:Er; [|done]. intros _. by apply shape_redirect. }
  destruct (String.eqb_spec k "comment") as [->|]; [|done]. intros _. by apply shape_comment.
Qed.

Lemma redirect_checked all c :
  kind c = "file_redirect" -> read_only_redirect shell_split c = true -> checked all c.
Proof.
  intros Hk Hr. apply (checked_statement _ _ []); [|by intros x []]. destruct c as [k b s l]. cbn [kind] in Hk. subst k.
  cbn [collect_commands]. change (str_in "file_redirect" STATEMENTS) with false. cbn match.
  change (String.eqb "file_redirect" "command") with false. rewrite String.eqb_refl. by rewrite Hr.
Qed.

Lemma checked_child all n c : checked all n -> opens n -> In c (named_children n) -> checked all c.
Proof.
  intros [cmds Hc Hincl|Hl] Hop Hin; [|by right; eapply literal_child].
  destruct (collect_shape _ _ Hc) as [Hk Hch|program args Hk Hw _|Hk Hr|Hk].
  - apply in_named_children in Hin as [Hin Hn].
    destruct (proj1 (collect_children_spec _ _ _ _ Hch Hin) Hn) as (k & Hk' & Hsub).
    apply (checked_statement _ _ k); [done|]. by eapply incl_tran.
  - destruct (command_words_spec _ _ _ Hw Hin) as [[Hkc Hr]|Hl]; [by apply redirect_checked|by right].
  - right. apply (redirect_literal n); [done| |done]. destruct Hop as [Hop|[_ Hop]]; [|done].
    rewrite Hk in Hop. by apply not_in_list in Hop.
  - exfalso. destruct Hop as [Hop|[Hop _]]; [|congruence]. rewrite Hk in Hop. by apply not_in_list in Hop.
Qed.

Lemma reached_checked all root n : checked all root -> reaches root n -> checked all n.
Proof. intros Hroot. induction 1 as [|n c _ IH Hop Hin]; [done|]. by eapply checked_child. Qed.

Lemma checked_plain all n : checked all n -> plain_node n.
Proof.
  intros [cmds Hc Hincl|Hl].
  - destruct (collect_shape _ _ Hc) as [Hk Hch|program args Hk Hw _|Hk Hr|Hk]; unfold plain_node.
    + split_and!; [apply in_or_app; by left|intros E; rewrite E in Hk; by apply not_in_list in Hk
        |intros E; rewrite E in Hk; by apply not_in_list in Hk|].
      intros _ c Hin Hn. by apply (proj2 (collect_children_spec _ _ _ _ Hch Hin)).
    + rewrite Hk. split_and!; [apply str_in_In; reflexivity|done|done|]. intros Hin. by apply not_in_list in Hin.
    + rewrite Hk. split_and!; [apply str_in_In; reflexivity|done|by intros _; apply redirect_quiet|].
      intros Hin. by apply not_in_list in Hin.
    + rewrite Hk. split_and!; [apply str_in_In; reflexivity|done|done|]. intros Hin. by apply not_in_list in Hin.
  - destruct (literal_kind _ Hl) as [Hk Hw]. unfold plain_node. split_and!; [|done| |].
    + apply in_or_app. right. do 3 right. cbn in Hk |- *. tauto.
    + intros E. rewrite E in Hk. by apply not_in_list in Hk.
    + intros Hin. exfalso. repeat (destruct Hin as [E|Hin]; [rewrite <- E in Hk; by apply not_in_list in Hk|]). done.
Qed.

Lemma checked_command all n :
  checked all n -> kind n = "command" ->
  exists program args, command_words shell_split (named_children n) = Some (program :: args) /\ In (program :: args) all.
Proof.
  intros [cmds Hc Hincl|Hl] Hk.
  - destruct (collect_shape _ _ Hc) as [Hk' _|program args _ Hw ->|Hk' _|Hk'];
      [rewrite Hk in Hk'; by apply not_in_list in Hk'| |congruence|congruence].
    exists program, args. split; [done|]. apply Hincl. by left.
  - destruct (literal_kind _ Hl) as [Hk' _]. rewrite Hk in Hk'. by apply not_in_list in Hk'.
Qed.

(** ** Answers *)

Definition program_of (words : list string) : option string := List.hd_error words.

Lemma any_program_spec name l :
  Forall (fun words => words <> []) l ->
  any_program name l = Some (existsb (fun words => match words with p :: _ => String.eqb p name | [] => false end) l).
Proof.
  induction 1 as [|words l Hne _ IH]; cbn; [done|]. destruct words as [|p words]; [done|].
  destruct (String.eqb p name); [done|]. by rewrite IH.
Qed.

Lemma all_read_only_spec l :
  Forall (fun words => words <> []) l ->
  exists b, all_read_only l = Some b /\ (b = true -> forall words, In words l -> command_is_read_only words = Some true).
Proof.
  induction 1 as [|words l Hne _ (b & E & Hb)]; cbn; [by exists true|].
  destruct words as [|p words]; [done|]. destruct (command_is_read_only (p :: words)) as [[|]|] eqn:Ec; [| |done].
  - exists b. split; [done|]. intros -> w [<-|Hin]; [done|]. by apply Hb.
  - exists false. done.
Qed.

Fixpoint node_induction (P : Node -> Prop) (H : forall k b s l, Forall P l -> P (node k b s l)) (n : Node) : P n :=
  match n with
  | node k b s l =>
      H k b s l ((fix each (l : list Node) : Forall P l :=
                    match l with [] => Forall_nil_2 P | c :: l => Forall_cons_2 P c l (node_induction P H c) (each l) end) l)
  end.

Lemma collected_nonempty n cmds : collect_commands shell_split n = Some cmds -> Forall (fun words => words <> []) cmds.
Proof.
  revert cmds. induction n as [k b s l IH] using node_induction. intros cmds H.
  destruct (collect_shape _ _ H) as [Hk Hch|program args _ _ ->|Hk _|Hk]; [|by repeat constructor| |].
  - cbn [children] in Hch. clear H. revert cmds Hch. induction IH as [|c l Hc _ IH]; intros cmds; [by intros [= <-]|].
    cbn [collect_children]. destruct (is_named c); [|destruct (str_in (kind c) SEPARATORS); [|done]].
    + destruct (collect_commands shell_split c) as [k1|] eqn:E; [|done]. cbn [mbind option_bind].
      destruct (collect_children (collect_commands shell_split) l) as [k2|]; [|done]. intros [= <-].
      apply Forall_app. split; [by apply Hc|by apply IH].
    + cbn [mbind option_bind].
      destruct (collect_children (collect_commands shell_split) l) as [k2|]; [|done]. intros [= <-]. by apply IH.
  - cbn [kind] in Hk. subst k. cbn [collect_commands] in H. by destruct (read_only_redirect shell_split _); [injection H as <-|].
  - cbn [kind] in Hk. subst k. by injection H as <-.
Qed.

Section Commands.
Context (parser : string -> option Node) (has_error : Node -> bool).

Lemma bash_is_read_only_total command : exists b, bash_is_read_only shell_split parser has_error command = Some b.
Proof.
  unfold bash_is_read_only. destruct (_ || _); [by eexists|]. destruct (parser command) as [root|]; [|by eexists].
  destruct (has_error root); [by eexists|].
  destruct (collect_commands shell_split root) as [cmds|] eqn:E; [|by eexists].
  apply collected_nonempty in E. destruct cmds as [|words cmds]; [by eexists|].
  rewrite !any_program_spec by done. cbn [mbind option_bind]. destruct (_ && _); [by eexists|].
  destruct (all_read_only_spec _ E) as (b & -> & _). by eexists.
Qed.

(** The tree behind a positive answer, its commands and what is known of them. *)
Lemma bash_is_read_only_inv command :
  bash_is_read_only shell_split parser has_error command = Some true ->
  exists root cmds, parser command = Some root /\ has_error root = false
    /\ collect_commands shell_split root = Some cmds
    /\ (forall words, In words cmds -> command_is_read_only words = Some true)
    /\ ~ (exists a b, In ("cd" :: a) cmds /\ In ("git" :: b) cmds).
Proof.
  unfold bash_is_read_only. destruct (_ || _); [done|]. destruct (parser command) as [root|]; [|done].
  destruct (has_error root) eqn:Ee; [done|].
  destruct (collect_commands shell_split root) as [cmds|] eqn:E; [|done].
  pose proof (collected_nonempty _ _ E) as Hne. intros H. exists root, cmds. split_and!; [done..| |].
  - destruct cmds as [|words cmds]; [done|]. rewrite !any_program_spec in H by done. cbn [mbind option_bind] in H.
    destruct (_ && _); [done|]. destruct (all_read_only_spec _ Hne) as (b & Eb & Hb). rewrite Eb in H.
    injection H as ->. by apply Hb.
  - intros (a & b & Ha & Hb). destruct cmds as [|words cmds]; [done|].
    rewrite !any_program_spec in H by done. cbn [mbind option_bind] in H.
    match type of H with (if ?x && ?y then _ else _) = _ => assert (x = true) as Hx; [|assert (y = true) as Hy] end.
    + apply existsb_exists. by exists ("cd" :: a).
    + apply existsb_exists. by exists ("git" :: b).
    + by rewrite Hx, Hy in H.
Qed.

(** A shell command that may overlap with other calls only reads.  Every node of its syntax
    tree is a statement, a command, a literal word or a quiet redirection: nothing is expanded,
    substituted, assigned or put in the background; every command in it is one of the known
    readers, with no option or script by which that program could write, run another program or
    change a repository; and no command changes the directory of a [git] command. *)
Theorem shared_commands_only_read command
    (Hshared : bash_is_read_only shell_split parser has_error command = Some true) :
  exists root, parser command = Some root /\ has_error root = false
    /\ (forall n, reaches root n -> plain_node n)
    /\ (forall n, reaches root n -> kind n = "command" ->
          exists words, command_words shell_split (named_children n) = Some words /\ ~ may_write words)
    /\ (forall n m a b, reaches root n -> reaches root m -> kind n = "command" -> kind m = "command" ->
          command_words shell_split (named_children n) = Some ("cd" :: a) ->
          command_words shell_split (named_children m) <> Some ("git" :: b)).
Proof.
  destruct (bash_is_read_only_inv _ Hshared) as (root & cmds & Hp & He & Hc & Hread & Hcd).
  assert (checked cmds root) as Hroot by (by apply (checked_statement _ _ cmds); [|apply incl_refl]).
  exists root. split_and!; [done..| | |].
  - intros n Hn. by eapply checked_plain, reached_checked.
  - intros n Hn Hk. destruct (checked_command cmds n) as (program & args & Hw & Hin); [by eapply reached_checked|done|].
    exists (program :: args). split; [done|]. by apply command_only_reads, Hread.
  - intros n m a b Hn Hm Hkn Hkm Hwa Hwb. apply Hcd. exists a, b.
    destruct (checked_command cmds n) as (p1 & a1 & Hw1 & Hin1); [by eapply reached_checked|done|].
    destruct (checked_command cmds m) as (p2 & a2 & Hw2 & Hin2); [by eapply reached_checked|done|].
    rewrite Hwa in Hw1. rewrite Hwb in Hw2. injection Hw1 as -> ->. by injection Hw2 as -> ->.
Qed.

End Commands.

End Trees.

(** C30. The option parser is its grammar: for every table of the read-only commands, it accepts
    exactly the argument lists made of operands and declared options, each followed by the value
    its kind asks for, and it returns those operands and those options in their order. *)
Theorem option_parser_is_its_grammar words f args ops fl
    (Htable : In (words, f) ((["git"; "branch"], BRANCH_FLAGS) :: FAMILIES)) :
  parse f args = Some {| positional := ops; flags := fl |} <-> getopt f args ops fl.
Proof. apply parse_getopt. by apply (family_disjoint words). Qed.

(** ** Concrete commands *)

Definition text_node (k s : string) : Node := node k true s [].
Definition token (s : string) : Node := node s false s [].
Definition command_node (s : string) (l : list Node) : Node := node "command" true s l.

(** [cat notes | sort -r 2>&1] *)
Definition sample_tree : Node :=
  node "program" true "cat notes | sort -r 2>&1"
    [node "pipeline" true "cat notes | sort -r 2>&1"
       [command_node "cat notes" [node "command_name" true "cat" [text_node "word" "cat"]; text_node "word" "notes"];
        token "|";
        node "redirected_statement" true "sort -r 2>&1"
          [command_node "sort -r" [node "command_name" true "sort" [text_node "word" "sort"]; text_node "word" "-r"];
           node "file_redirect" true "2>&1" [text_node "file_descriptor" "2"; token ">&"; text_node "number" "1"]]]].
(** The same pipeline ending in [sort -o notes]. *)
Definition writing_tree : Node :=
  node "program" true "sort -o notes"
    [command_node "sort -o notes" [node "command_name" true "sort" [text_node "word" "sort"]; text_node "word" "-o";
                                   text_node "word" "notes"]].

Definition sample_split (s : string) : option (list string) := Some (split_whitespace s).
Definition sample_parser (command : string) : option Node :=
  if String.eqb command "sort -o notes" then Some writing_tree else Some sample_tree.
Definition no_error (n : Node) : bool := false.

Lemma sample_answers :
  bash_is_read_only sample_split sample_parser no_error "cat notes | sort -r 2>&1" = Some true
  /\ bash_is_read_only sample_split sample_parser no_error "sort -o notes" = Some false.
Proof. split; vm_compute; reflexivity. Qed.

Lemma shared_commands_only_read_witness :
  exists root, sample_parser "cat notes | sort -r 2>&1" = Some root
    /\ (forall n, reaches root n -> plain_node sample_split n)
    /\ ~ may_write ["sort"; "-r"].
Proof.
  assert (bash_is_read_only sample_split sample_parser no_error "cat notes | sort -r 2>&1" = Some true) as H
    by (vm_compute; reflexivity).
  destruct (shared_commands_only_read sample_split sample_parser no_error "cat notes | sort -r 2>&1" H)
    as (root & Hp & _ & Hplain & Hcmd & _).
  exists root. split; [exact Hp|]. split; [exact Hplain|].
  assert (root = sample_tree) as -> by (vm_compute in Hp; injection Hp as <-; reflexivity).
  destruct (Hcmd (command_node "sort -r" [node "command_name" true "sort" [text_node "word" "sort"]; text_node "word" "-r"]))
    as (words & Hw & Hno).
  - eapply reach_child; [eapply reach_child; [eapply reach_child; [apply reach_root|..]|..]|..];
      [left; apply str_in_In; reflexivity|left; reflexivity|left; apply str_in_In; reflexivity
      |right; left; reflexivity|left; apply str_in_In; reflexivity|left; reflexivity].
  - reflexivity.
  - vm_compute in Hw. injection Hw as <-. exact Hno.
Defined.

Lemma option_parser_is_its_grammar_witness :
  getopt BRANCH_FLAGS ["-av"; "--sort"; "name"; "--"; "-x"] ["-x"] ["-a"; "-v"; "--sort"].
Proof.
  apply (option_parser_is_its_grammar ["git"; "branch"] BRANCH_FLAGS); [left; reflexivity|vm_compute; reflexivity].
Defined.
