(* ===== verification/Background.v ===== *)
(** * Background tasks and their completions
    (runtime/src/background_tasks.rs, engine-core/src/background_completion.rs)

    The task record every producer publishes, and the session's memory of which
    finished tasks the model has already been told about. *)
From S2P Require Import Prelude.
From stdpp Require Import list.
From S2P Require Import RustStr CoordinatorMode.

Inductive BackgroundTaskKind := Terminal | Agent.

Inductive BackgroundTaskStatus :=
| BRunning | BStopping | BExecutionUnconfirmed | BCompleted | BFailed | BCancelled.

#[export] Instance BackgroundTaskKind_eq_dec : EqDecision BackgroundTaskKind.
Proof. solve_decision. Defined.

Definition is_active (s : BackgroundTaskStatus) : bool :=
  match s with BRunning | BStopping => true | _ => false end.

Definition status_label (s : BackgroundTaskStatus) : string :=
  match s with
  | BRunning => "running"
  | BStopping => "stopping"
  | BExecutionUnconfirmed => "execution_unconfirmed"
  | BCompleted => "completed"
  | BFailed => "failed"
  | BCancelled => "cancelled"
  end.

Record BackgroundTask := {
  bt_id : string;
  bt_kind : BackgroundTaskKind;
  bt_title : string;
  bt_command : option string;
  bt_parent_id : option string;
  bt_background : bool;
  bt_status : BackgroundTaskStatus;
  bt_started_ms : N;
  bt_elapsed_ms : N;
  bt_exit_code : option Z;
  bt_output_path : option string;
  bt_output : string;
  bt_activity : string
}.

Inductive BackgroundTaskEvent :=
| Updated (task : BackgroundTask)
| Removed (id : string).

(** ** Completions *)

Record Finished := { fin_id : string; fin_prompt : string; fin_display : string }.

Record Completions := { notified : gset string }.

Definition completions_default : Completions := {| notified := ∅ |}.

Definition render_finished (task : BackgroundTask) : Finished :=
  let status := normalize_task_notification_status (status_label (bt_status task)) in
  let label :=
    if is_empty (trim (bt_title task)) then default (bt_id task) (bt_command task)
    else bt_title task in
  let summary :=
    match bt_exit_code task with
    | Some code =>
        ("Background task " ++ String dquote label ++ String dquote " " ++ status
          ++ " (exit " ++ pretty code ++ ")")%string
    | None => ("Background task " ++ String dquote label ++ String dquote " " ++ status)%string
    end in
  let result := if is_empty (trim (bt_output task)) then None else Some (bt_output task) in
  let prompt :=
    render_task_notification
      {| tn_agent_id := bt_id task; tn_status := status; tn_summary := summary;
         tn_result := result; tn_color := None; tn_duration_ms := Some (bt_elapsed_ms task);
         tn_tool_uses := None; tn_total_tokens := None |} in
  {| fin_id := bt_id task; fin_prompt := prompt; fin_display := summary |}.

Definition completions_observe (c : Completions) (event : BackgroundTaskEvent) :
  Completions * option Finished :=
  match event with
  | Removed _ => (c, None)
  | Updated task =>
      if negb (bool_decide (bt_kind task = Terminal)) then (c, None)
      else if is_active (bt_status task) then (c, None)
      else if bool_decide (bt_id task ∈ notified c) then (c, None)
      else ({| notified := {[bt_id task]} ∪ notified c |}, Some (render_finished task))
  end.

Fixpoint observe_all (c : Completions) (events : list BackgroundTaskEvent) : list Finished :=
  match events with
  | [] => []
  | e :: rest =>
      let '(c, f) := completions_observe c e in option_list f ++ observe_all c rest
  end.

(** ** The specification: the first terminal update of each shell task *)

Definition finished_task (event : BackgroundTaskEvent) : option BackgroundTask :=
  match event with
  | Updated task =>
      if bool_decide (bt_kind task = Terminal) && negb (is_active (bt_status task))
      then Some task else None
  | Removed _ => None
  end.

Fixpoint first_by_id (seen : list string) (tasks : list BackgroundTask) : list BackgroundTask :=
  match tasks with
  | [] => []
  | t :: rest =>
      if bool_decide (bt_id t ∈ seen) then first_by_id seen rest
      else t :: first_by_id (bt_id t :: seen) rest
  end.

Lemma observe_all_spec events c seen :
  (forall x, x ∈ notified c <-> x ∈ seen) ->
  observe_all c events = map render_finished (first_by_id seen (omap finished_task events)).
Proof.
  revert c seen. induction events as [|e events IH]; intros c seen Hs; [done|].
  destruct e as [task|id]; cbn [observe_all completions_observe omap list_omap finished_task];
    [|by apply IH].
  case_bool_decide as Hk; cbn [negb andb]; [|by apply IH].
  destruct (is_active (bt_status task)); cbn [negb]; [by apply IH|].
  cbn [first_by_id]. destruct (decide (bt_id task ∈ seen)) as [Hin|Hin].
  - rewrite (bool_decide_eq_true_2 (_ ∈ notified c)) by (by apply Hs).
    rewrite (bool_decide_eq_true_2 (_ ∈ seen)) by done. by apply IH.
  - rewrite (bool_decide_eq_false_2 (_ ∈ notified c)) by (by rewrite Hs).
    rewrite (bool_decide_eq_false_2 (_ ∈ seen)) by done. cbn. f_equal. apply IH.
    intros x. cbn. set_solver.
Qed.

(** A finished shell is reported to the model exactly once: over any event
    stream (repeated terminal updates, output growth, removals, sub-agent entries)
    the notifications are, in order, those of the first terminal update of each
    shell task, and nothing else. *)
Theorem completion_reported_once (events : list BackgroundTaskEvent) :
  observe_all completions_default events =
    map render_finished (first_by_id [] (omap finished_task events)) /\
  NoDup (map fin_id (observe_all completions_default events)) /\
  (forall e t, In e events -> finished_task e = Some t ->
     In (bt_id t) (map fin_id (observe_all completions_default events))).
Proof.
  assert (observe_all completions_default events =
    map render_finished (first_by_id [] (omap finished_task events))) as Heq.
  { apply observe_all_spec. intros x. cbn. set_solver. }
  rewrite Heq, map_map. cbn [render_finished fin_id].
  assert (forall seen tasks,
    NoDup (map bt_id (first_by_id seen tasks)) /\
    (forall x, x ∈ map bt_id (first_by_id seen tasks) -> x ∉ seen) /\
    (forall t, t ∈ tasks -> bt_id t ∈ seen \/ bt_id t ∈ map bt_id (first_by_id seen tasks))) as Hf.
  { clear. intros seen tasks. revert seen. induction tasks as [|t tasks IH]; intros seen; cbn.
    - split_and!; [constructor|set_solver|set_solver].
    - case_bool_decide as Hin; cbn.
      + destruct (IH seen) as (? & ? & ?). split_and!; [done|done|]. set_solver.
      + destruct (IH (bt_id t :: seen)) as (Hn & Hs & Hc). split_and!.
        * constructor; [|done]. intros Hx. specialize (Hs _ Hx). set_solver.
        * intros x Hx. apply elem_of_cons in Hx as [->|Hx]; [done|]. specialize (Hs _ Hx). set_solver.
        * intros t' Ht'. apply elem_of_cons in Ht' as [->|Ht']; [right; by left|].
          specialize (Hc _ Ht'). set_solver. }
  split; [done|]. destruct (Hf [] (omap finished_task events)) as (Hn & _ & Hc).
  split; [done|]. intros e t He Ht. apply list_elem_of_In. destruct (Hc t) as [H|H]; [|set_solver|done].
  apply list_elem_of_omap. exists e. split; [by apply list_elem_of_In|done].
Qed.
