(* ===== verification/SessionInputs.v ===== *)
(** * Session-owned input delivery (engine-core/src/session_inputs.rs)

    The queue, the receipts, the lifecycle fence and the prompt lease of one
    session.  [SessionInputs] is a mutex around [State]; every public method
    takes the lock for its whole body, so each is one atomic step here.  The
    inbox a step may admit into has a lock of its own and is threaded through.

    [Value] is [serde_json::Value] and [pair_json] is the serialization of a
    pair of strings ([serde_json::to_string]), both outside the repository. *)
From S2P Require Import Prelude.
From stdpp Require Import list sorting.
From S2P Require Import RustStr Conversation BTree TurnInput InputQueue CoordinatorMode Background.

(** ** Types of the command and event boundary (engine-events/src/lib.rs) *)

Inductive ImageInputPolicy := NativeImages | DescribeUnsupported.

Record PromptContext := {
  trace_id : string;
  expected_context : option ContextRef;
  image_policy : ImageInputPolicy;
  input_views : list InputView
}.

Definition prompt_context_default : PromptContext :=
  {| trace_id := ""; expected_context := None; image_policy := NativeImages; input_views := [] |}.

Record PendingInput := {
  pending_id : N;
  pending_client_id : string;
  pending_display : string;
  pending_source : InputSource;
  pending_delivery : InputDelivery
}.

Record InputState := {
  is_revision : N;
  is_active_turn_id : option N;
  is_state_running : bool;
  is_state_paused : bool;
  is_pending : list PendingInput
}.

(** ** Sub-agent lifecycle reports (runtime/src/subagent_events.rs) *)

Inductive SubagentPhase := Started | FinishedPhase.

Record SubagentIdentity := {
  agent_id : string;
  agent_name : string;
  agent_description : string;
  agent_subagent_type : option string;
  agent_model : option string;
  agent_color : option string;
  agent_background : bool
}.

Section SessionInputs.
Context {Value : Type}.
Variable pair_json : string -> string -> string.

Record SubagentLifecycle := {
  tool_call_id : string;
  assistant_message_id : option string;
  sub_phase : SubagentPhase;
  sub_seq : N;
  sub_agent : SubagentIdentity;
  sub_status : option string;
  started_at : option string;
  completed_at : option string;
  raw_output : option Value;
  completion_notification : option string
}.

Definition tool_source_key (assistant_message_id : option string) (call_id : string) : string :=
  match assistant_message_id with
  | None => call_id
  | Some assistant => pair_json assistant call_id
  end.

Definition source_key (l : SubagentLifecycle) : string :=
  tool_source_key (assistant_message_id l) (tool_call_id l).

Inductive InputAction :=
| Submit (client_id : string) (draft : option Value) (input : TurnInput)
         (delivery : InputDelivery) (context : option PromptContext)
| Flush
| FlushOrCancel
| Recall
| Snapshot
| AcquireLifecycle (token : N) (allow_inputs : bool)
| ReleaseLifecycle (token : N).

(** The events the queue reacts to; every other constructor is [OtherEvent]. *)
Inductive EngineEvent :=
| TurnStarted
| TurnComplete (cancelled : bool)
| TurnFailed
| PromptRejected
| InputCommitted (input : InputView)
| InputDeferred (inputs : list TurnInput)
| BackgroundTaskEv (event : BackgroundTaskEvent)
| SubagentCompletionReady (finished : SubagentLifecycle)
| OtherEvent.

(** ** State *)

Record Receipt := {
  client_id : string;
  draft : option Value;
  context : option PromptContext
}.

Record State := {
  st_queue : Coordinator Receipt;
  accepted : gmap string N;
  revision : N;
  native : bool;
  background_watched : bool;
  background : Completions;
  lifecycle_held : option (N * bool);
  active_turn_id : option N
}.

Definition state_default : State :=
  {| st_queue := coordinator_new; accepted := ∅; revision := 0%N; native := false;
     background_watched := false; background := completions_default;
     lifecycle_held := None; active_turn_id := None |}.

Definition set_st_queue (s : State) (q : Coordinator Receipt) : State :=
  {| st_queue := q; accepted := accepted s; revision := revision s; native := native s;
     background_watched := background_watched s; background := background s;
     lifecycle_held := lifecycle_held s; active_turn_id := active_turn_id s |}.
Definition set_accepted (s : State) (a : gmap string N) : State :=
  {| st_queue := st_queue s; accepted := a; revision := revision s; native := native s;
     background_watched := background_watched s; background := background s;
     lifecycle_held := lifecycle_held s; active_turn_id := active_turn_id s |}.
Definition bump_revision (s : State) : State :=
  {| st_queue := st_queue s; accepted := accepted s; revision := u64_add (revision s) 1;
     native := native s; background_watched := background_watched s;
     background := background s; lifecycle_held := lifecycle_held s;
     active_turn_id := active_turn_id s |}.
Definition set_native (s : State) : State :=
  {| st_queue := st_queue s; accepted := accepted s; revision := revision s; native := true;
     background_watched := background_watched s; background := background s;
     lifecycle_held := lifecycle_held s; active_turn_id := active_turn_id s |}.
Definition set_background (s : State) (b : Completions) : State :=
  {| st_queue := st_queue s; accepted := accepted s; revision := revision s;
     native := native s; background_watched := background_watched s; background := b;
     lifecycle_held := lifecycle_held s; active_turn_id := active_turn_id s |}.
Definition set_watched (s : State) : State :=
  {| st_queue := st_queue s; accepted := accepted s; revision := revision s;
     native := native s; background_watched := true; background := background s;
     lifecycle_held := lifecycle_held s; active_turn_id := active_turn_id s |}.
Definition set_lifecycle (s : State) (h : option (N * bool)) : State :=
  {| st_queue := st_queue s; accepted := accepted s; revision := revision s;
     native := native s; background_watched := background_watched s;
     background := background s; lifecycle_held := h; active_turn_id := active_turn_id s |}.
Definition set_active (s : State) (t : option N) : State :=
  {| st_queue := st_queue s; accepted := accepted s; revision := revision s;
     native := native s; background_watched := background_watched s;
     background := background s; lifecycle_held := lifecycle_held s; active_turn_id := t |}.

(** ** Snapshot *)

Definition pending_of (e : QueuedInput Receipt * InputDelivery) : option PendingInput :=
  let '(item, delivery) := e in
  match receipt item with
  | Some r =>
      Some {| pending_id := ti_id (input item); pending_client_id := client_id r;
              pending_display := ti_display (input item);
              pending_source := ti_source (input item); pending_delivery := delivery |}
  | None => None
  end.

Definition pending_le (a b : PendingInput) : Prop := (pending_id a <= pending_id b)%N.
#[local] Instance pending_le_dec : RelDecision pending_le.
Proof. intros a b. unfold pending_le. apply _. Defined.

Definition snapshot (s : State) : InputState :=
  {| is_revision := revision s;
     is_active_turn_id := active_turn_id s;
     is_state_running := is_running (st_queue s);
     is_state_paused := is_paused (st_queue s);
     is_pending := merge_sort pending_le (omap pending_of (entries (st_queue s))) |}.

(** ** Admission into the running turn *)

Fixpoint defer_all (q : Coordinator Receipt) (ids : list N) : Coordinator Receipt :=
  match ids with [] => q | id :: rest => defer_all (fst (defer q id)) rest end.

Definition admit_inputs (s : State) (inputs : list TurnInput) (inbox : option Inbox) :
  State * option Inbox :=
  match inbox with
  | Some b =>
      match inbox_admit b inputs with
      | (b, Ok _) => (s, Some b)
      | (b, Err refused) => (set_st_queue s (defer_all (st_queue s) (map ti_id refused)), Some b)
      end
  | None => (set_st_queue s (defer_all (st_queue s) (map ti_id inputs)), None)
  end.

Definition wants_resume (i : TurnInput) (delivery : InputDelivery) : bool :=
  bool_decide (ti_source i = Human) && is_steer delivery.

Definition submit (s : State) (cid : string) (drft : option Value) (i : TurnInput)
  (delivery : InputDelivery) (ctx : option PromptContext) (inbox : option Inbox) :
  State * option Inbox * result string N :=
  if is_empty cid then (s, inbox, Err "clientId must not be empty")
  else if is_empty (trim (ti_text i))
          && match ti_attachments i with [] => true | _ => false end
  then (s, inbox, Err "input must contain text or an attachment")
  else match accepted s !! cid with
  | Some id => (s, inbox, Ok id)
  | None =>
      let item := {| input := with_id i 0;
                     receipt := Some {| client_id := cid; draft := drft; context := ctx |} |} in
      let s := if wants_resume i delivery then set_st_queue s (resume (st_queue s)) else s in
      if is_steer delivery && can_deliver (st_queue s) then
        let '(q, message) := steer (st_queue s) item in
        let '(s, inbox) := admit_inputs (set_st_queue s q) [message] inbox in
        (set_accepted s (<[cid := ti_id message]> (accepted s)), inbox, Ok (ti_id message))
      else
        let '(q, v) := enqueue (st_queue s) item in
        let s := set_st_queue s q in
        (set_accepted s (<[cid := view_id v]> (accepted s)), inbox, Ok (view_id v))
  end.

(** ** Completions that become inputs *)

Definition notification_of (s : State) (event : EngineEvent) :
  State * option (string * string * string * InputSource) :=
  match event with
  | BackgroundTaskEv e =>
      if native s then
        let '(b, f) := completions_observe (background s) e in
        (set_background s b,
         match f with
         | Some f => Some (("background:" ++ fin_id f)%string, fin_prompt f, fin_display f, Background)
         | None => None
         end)
      else (s, None)
  | SubagentCompletionReady f =>
      if native s then
        (s, match completion_notification f with
            | Some p =>
                Some (("subagent:" ++ source_key f)%string, p,
                      ("Sub-agent " ++ agent_description (sub_agent f) ++ ": "
                        ++ default "finished" (sub_status f))%string, Subagent)
            | None => None
            end)
      else (s, None)
  | _ => (s, None)
  end.

Definition observe_notification (s : State) (event : EngineEvent) : State * bool :=
  let '(s, notification) := notification_of s event in
  match notification with
  | Some (cid, text, display, source) =>
      match accepted s !! cid with
      | Some _ => (s, false)
      | None =>
          let item := {| input := {| ti_id := 0%N; ti_text := text; ti_display := display;
                                     ti_source := source; ti_attachments := [] |};
                         receipt := Some {| client_id := cid; draft := None; context := None |} |} in
          let '(q, v) := enqueue (st_queue s) item in
          let s := set_st_queue s q in
          (set_accepted s (<[cid := view_id v]> (accepted s)), true)
      end
  | None => (s, false)
  end.

(** ** Actions *)

Inductive RecalledContent :=
| RecalledText (text : string)
| RecalledImage (data mime_type : string).

Record Recalled := {
  recalled_client_id : string;
  recalled_content : list RecalledContent;
  recalled_draft : option Value
}.

(** The fields of the JSON receipt; absent fields are [None]. *)
Record ActionReceipt := {
  receipt_id : option N;
  receipt_cancelled : option bool;
  receipt_recalled : option (list Recalled);
  receipt_state : InputState
}.

Definition image_content (b : ContentBlock) : option RecalledContent :=
  match b with Image data mime => Some (RecalledImage data mime) | _ => None end.

(** The loop of [Recall]: [expect("session input receipt")] panics on an item
    without one. *)
Fixpoint recall_items (acc : gmap string N) (items : list (QueuedInput Receipt)) :
  run (gmap string N * list Recalled) :=
  match items with
  | [] => Ret (acc, [])
  | item :: rest =>
      match receipt item with
      | None => Panic
      | Some meta =>
          '(acc, l) ← recall_items (delete (client_id meta) acc) rest;
          Ret (acc, {| recalled_client_id := client_id meta;
                       recalled_content := RecalledText (ti_text (input item))
                         :: omap image_content (ti_attachments (input item));
                       recalled_draft := draft meta |} :: l)
      end
  end.

Definition fences_input (a : InputAction) : bool :=
  match a with Submit _ _ _ _ _ | Flush | FlushOrCancel => true | _ => false end.
Definition is_lifecycle (a : InputAction) : bool :=
  match a with AcquireLifecycle _ _ | ReleaseLifecycle _ => true | _ => false end.
Definition is_flush_or_cancel (a : InputAction) : bool :=
  match a with FlushOrCancel => true | _ => false end.
Definition input_fenced (s : State) : bool :=
  match lifecycle_held s with Some (_, allow_inputs) => negb allow_inputs | None => false end.

Definition Reply : Type := ActionReceipt * option InputState * bool.

(** The tail every successful action shares. *)
Definition reply (s : State) (id : option N) (cancelled : option bool)
  (recalled : option (list Recalled)) (cancel : bool) : State * Reply :=
  let s := bump_revision s in
  let snap := snapshot s in
  (s, ({| receipt_id := id; receipt_cancelled := cancelled; receipt_recalled := recalled;
          receipt_state := snap |},
       if native s then Some snap else None, cancel)).

Definition flush_or_cancel (s : State) (inbox : option Inbox) (may_cancel : bool) :
  State * option Inbox * bool :=
  if has_pending_input (st_queue s) then
    let s := set_st_queue s (resume (st_queue s)) in
    if can_deliver (st_queue s) then
      let '(q, inputs) := flush (st_queue s) in
      let '(s, inbox) := admit_inputs (set_st_queue s q) inputs inbox in (s, inbox, false)
    else (s, inbox, false)
  else if may_cancel then
    let cancel := is_running (st_queue s) in
    if cancel then (set_st_queue s (cancel_turn (st_queue s)), inbox, true)
    else (s, inbox, false)
  else (s, inbox, false).

Definition action (s : State) (a : InputAction) (inbox : option Inbox) :
  run (State * option Inbox * result string Reply) :=
  if input_fenced s && fences_input a then
    Ret (s, inbox, Err "Session control is changing; input was not admitted")
  else
  let s := if negb (is_lifecycle a) then set_native s else s in
  match a with
  | Submit cid drft i delivery ctx =>
      match submit s cid drft i delivery ctx inbox with
      | (s, inbox, Err e) => Ret (s, inbox, Err e)
      | (s, inbox, Ok id) =>
          let '(s, r) := reply s (Some id) None None false in Ret (s, inbox, Ok r)
      end
  | Flush | FlushOrCancel =>
      let '(s, inbox, cancel) := flush_or_cancel s inbox (is_flush_or_cancel a) in
      let '(s, r) := reply s None (Some cancel) None cancel in Ret (s, inbox, Ok r)
  | Recall =>
      let '(q, items) := recall_human (st_queue s) in
      '(acc, l) ← recall_items (accepted s) items;
      let '(s, r) := reply (set_accepted (set_st_queue s q) acc) None None (Some l) false in
      Ret (s, inbox, Ok r)
  | Snapshot => let '(s, r) := reply s None None None false in Ret (s, inbox, Ok r)
  | AcquireLifecycle token allow_inputs =>
      if bool_decide (is_Some (lifecycle_held s)) || is_running (st_queue s) then
        Ret (s, inbox, Err "Session is busy; wait for the current turn or cancel it first")
      else
        let '(s, r) := reply (set_lifecycle s (Some (token, allow_inputs))) None None None false in
        Ret (s, inbox, Ok r)
  | ReleaseLifecycle token =>
      let s := match lifecycle_held s with
               | Some (held, _) => if (held =? token)%N then set_lifecycle s None else s
               | None => s
               end in
      let '(s, r) := reply s None None None false in Ret (s, inbox, Ok r)
  end.

Definition watch_background (s : State) : State * bool :=
  if negb (native s) || background_watched s then (s, false) else (set_watched s, true).

Definition publish (s : State) : State * option InputState :=
  let s := bump_revision s in (s, if native s then Some (snapshot s) else None).

Definition cancel (s : State) : State * option InputState :=
  let s :=
    if is_running (st_queue s) then set_st_queue s (cancel_turn (st_queue s))
    else if has_pending_input (st_queue s) then
      set_st_queue s (finish_turn (cancel_turn (st_queue s)))
    else s in
  publish s.

Definition observe (s : State) (event : EngineEvent) : State * option InputState :=
  match event with
  | OtherEvent => (s, None)
  | BackgroundTaskEv _ | SubagentCompletionReady _ =>
      let '(s, admitted) := observe_notification s event in
      if admitted then publish s else (s, None)
  | TurnStarted =>
      let q := st_queue s in
      let q := if can_start q then start_turn q else q in
      publish (set_st_queue s (fst (turn_started q)))
  | InputCommitted i => publish (set_st_queue s (fst (committed (st_queue s) (view_id i))))
  | InputDeferred inputs =>
      publish (set_st_queue s (defer_all (st_queue s) (map ti_id inputs)))
  | TurnComplete cancelled =>
      let s := set_active s None in
      let q := st_queue s in
      let q := if cancelled then cancel_turn q else q in
      publish (set_st_queue s (finish_turn q))
  | TurnFailed | PromptRejected =>
      let s := set_active s None in
      publish (set_st_queue s (finish_turn (cancel_turn (st_queue s))))
  end.

(** ** Leasing a prompt *)

Record PromptCommand := { prompt_blocks : list ContentBlock; prompt_context : PromptContext }.

Definition context_of_first (q : Coordinator Receipt) : PromptContext :=
  match entries q with
  | (item, _) :: _ =>
      match receipt item with
      | Some r =>
          match context r with
          | Some c => c
          | None => {| trace_id := client_id r; expected_context := None;
                       image_policy := NativeImages; input_views := [] |}
          end
      | None => prompt_context_default
      end
  | [] => prompt_context_default
  end.

Definition with_views (c : PromptContext) (views : list InputView) : PromptContext :=
  {| trace_id := trace_id c; expected_context := expected_context c;
     image_policy := image_policy c; input_views := views |}.

Definition next_prompt (s : State) : State * option (PromptCommand * InputState) :=
  if bool_decide (is_Some (lifecycle_held s)) || negb (can_start (st_queue s))
     || negb (has_idle_queue (st_queue s))
  then (s, None)
  else
    let '(q, inputs) := flush (st_queue s) in
    let s := set_active (set_st_queue s q) (ti_id <$> head inputs) in
    let ctx := with_views (context_of_first (st_queue s)) (map view inputs) in
    let blocks := flat_map (fun i => Text (ti_text i) :: ti_attachments i) inputs in
    let s := bump_revision (set_st_queue s (start_turn (st_queue s))) in
    (s, Some ({| prompt_blocks := blocks; prompt_context := ctx |}, snapshot s)).

(** ** The session invariant

    Besides the coordinator's own invariant: steering is empty whenever no turn
    runs, every owned input carries a receipt whose client id is mapped to its
    session id, and distinct client ids have distinct session ids. *)

Implicit Types q : Coordinator Receipt.
Implicit Types acc : gmap string N.
Implicit Types s : State.

Record queue_ok q acc : Prop := {
  qo_wf : coord_wf q;
  qo_settled : phase q = Idle \/ phase q = Paused -> steering q = [];
  qo_receipts : forall item, item ∈ owned q ->
    exists r, receipt item = Some r /\ acc !! client_id r = Some (qid item);
  qo_alloc : forall cid id, acc !! cid = Some id -> (0 < id <= next_id q)%N;
  qo_inj : forall c c' id, acc !! c = Some id -> acc !! c' = Some id -> c = c'
}.

(** A step that only moves or removes owned inputs. *)
Lemma queue_ok_sub q q' acc :
  queue_ok q acc -> coord_wf q' -> (forall item, item ∈ owned q' -> item ∈ owned q) ->
  next_id q' = next_id q -> (phase q' = Idle \/ phase q' = Paused -> steering q' = []) ->
  queue_ok q' acc.
Proof.
  intros [? ? Hr Ha ?] Hwf Hsub Hid Hset. split; [done|done| | |done].
  - intros item Hi. apply Hr. by apply Hsub.
  - intros cid id Hc. rewrite Hid. by eapply Ha.
Qed.

Lemma queue_ok_same q q' acc :
  queue_ok q acc -> coord_wf q' -> owned q' ≡ₚ owned q -> next_id q' = next_id q ->
  (phase q' = Idle \/ phase q' = Paused -> steering q' = []) -> queue_ok q' acc.
Proof. intros ? ? Hp ? ?. eapply queue_ok_sub; eauto. intros item. by rewrite Hp. Qed.

(** A step that takes in a fresh input. *)
Lemma queue_ok_add q q' acc item r :
  queue_ok q acc -> coord_wf q' -> owned q' ≡ₚ fresh_input q item :: owned q ->
  next_id q' = (next_id q + 1)%N -> receipt item = Some r -> acc !! client_id r = None ->
  (phase q' = Idle \/ phase q' = Paused -> steering q' = []) ->
  queue_ok q' (<[client_id r := (next_id q + 1)%N]> acc).
Proof.
  intros [? ? Hr Ha Hi] Hwf Hp Hid Hrec Hnone Hset. split; [done|done| | |].
  - intros it. rewrite Hp, elem_of_cons. intros [->|Hit].
    + exists r. split; [done|]. by rewrite lookup_insert_eq.
    + destruct (Hr _ Hit) as (r' & ? & Hacc). exists r'. split; [done|].
      rewrite lookup_insert_ne; [done|]. intros Heq. congruence.
  - intros cid id. rewrite Hid. intros [[_ <-]|[_ Hc]]%lookup_insert_Some; [lia|].
    specialize (Ha _ _ Hc). lia.
  - assert (forall c, acc !! c <> Some (next_id q + 1)%N) as Hnew.
    { intros c Hc. specialize (Ha _ _ Hc). lia. }
    intros c c' id [[<- <-]|[? Hc]]%lookup_insert_Some [[<- H2]|[? Hc']]%lookup_insert_Some;
      [done|by apply Hnew in Hc'|subst; by apply Hnew in Hc|by eapply Hi].
Qed.

Lemma queue_ok_phase q acc p :
  queue_ok q acc -> (p = Idle \/ p = Paused -> steering q = []) -> queue_ok (set_phase q p) acc.
Proof. intros H Hs. eapply queue_ok_same; [done|apply wf_phase, H|done|done|done]. Qed.

Lemma queue_ok_resume q acc : queue_ok q acc -> queue_ok (resume q) acc.
Proof.
  intros H. unfold resume. destruct (phase q) eqn:Hp; try done; apply queue_ok_phase; try done.
  - naive_solver.
  - intros _. apply (qo_settled _ _ H). by right.
Qed.

Lemma queue_ok_cancel q acc : queue_ok q acc -> queue_ok (cancel_turn q) acc.
Proof. intros H. apply queue_ok_phase; [done|naive_solver]. Qed.

Lemma queue_ok_finish q acc : queue_ok q acc -> queue_ok (finish_turn q) acc.
Proof.
  intros H. destruct (finish_keeps q) as [? ?]; [apply H|]. by eapply queue_ok_same.
Qed.

Lemma queue_ok_committed q acc id : queue_ok q acc -> queue_ok (fst (committed q id)) acc.
Proof.
  intros H. destruct (committed_keeps q id) as [? Hp]; [apply H|].
  eapply queue_ok_sub; [done|done| |done|].
  - intros item Hi. rewrite Hp. set_solver.
  - cbn. intros Hph. by rewrite (qo_settled _ _ H Hph).
Qed.

Lemma defer_all_keeps q ids :
  coord_wf q ->
  coord_wf (defer_all q ids) /\ owned (defer_all q ids) ≡ₚ owned q /\
  next_id (defer_all q ids) = next_id q /\ phase (defer_all q ids) = phase q /\
  (steering q = [] -> steering (defer_all q ids) = []).
Proof.
  revert q. induction ids as [|id ids IH]; intros q Hwf; cbn; [done|].
  destruct (defer_keeps q id Hwf) as [Hwf' Hp].
  destruct (IH _ Hwf') as (? & Hp' & Hid & Hph & Hs). split_and!; [done| | | |].
  - by rewrite Hp'.
  - rewrite Hid. unfold defer. by destruct (bt_get id (steering q)).
  - rewrite Hph. unfold defer. by destruct (bt_get id (steering q)).
  - intros Hst. apply Hs. unfold defer. by rewrite Hst.
Qed.

Lemma queue_ok_defer_all q acc ids : queue_ok q acc -> queue_ok (defer_all q ids) acc.
Proof.
  intros H. destruct (defer_all_keeps q ids) as (? & ? & ? & Hph & Hs); [apply H|].
  eapply queue_ok_same; [done..|]. rewrite Hph. intros Hp. by apply Hs, (qo_settled _ _ H).
Qed.

Lemma queue_ok_flush q acc :
  queue_ok q acc -> ~ (phase q = Idle \/ phase q = Paused) -> queue_ok (fst (flush q)) acc.
Proof.
  intros H Hp. destruct (flush_keeps q) as (? & ? & _); [apply H|].
  eapply queue_ok_same; [done|done|done| |]; rewrite flush_owned by apply H; done.
Qed.

(** *** Recall *)

Definition client_ids (items : list (QueuedInput Receipt)) : list string :=
  omap (fun item => client_id <$> receipt item) items.

Lemma recall_items_total acc items :
  (forall item, item ∈ items -> is_Some (receipt item)) ->
  exists l, recall_items acc items = Ret (fold_left (fun a c => delete c a)
    (client_ids items) acc, l) /\ length l = length items.
Proof.
  revert acc. induction items as [|item items IH]; intros acc Hr; cbn [recall_items client_ids omap].
  - by exists [].
  - destruct (Hr item) as [r Hi]; [set_solver|]. rewrite Hi. cbn.
    destruct (IH (delete (client_id r) acc)) as (l & -> & Hl); [set_solver|]. rewrite Hi. cbn.
    eexists. split; [done|]. cbn. by rewrite Hl.
Qed.

Lemma lookup_delete_all acc cids c :
  fold_left (fun a c => delete c a) cids acc !! c
    = if bool_decide (c ∈ cids) then None else acc !! c.
Proof.
  revert acc. induction cids as [|c' cids IH]; intros acc; cbn; [done|]. rewrite IH.
  destruct (decide (c = c')) as [->|Hne].
  - rewrite lookup_delete_eq. rewrite (bool_decide_eq_true_2 (c' ∈ c' :: cids)) by set_solver.
    by case_bool_decide.
  - rewrite lookup_delete_ne by done. destruct (decide (c ∈ cids)).
    + by rewrite !bool_decide_eq_true_2 by set_solver.
    + rewrite (bool_decide_eq_false_2 (c ∈ cids)) by done.
      by rewrite (bool_decide_eq_false_2 (c ∈ c' :: cids)) by set_solver.
Qed.

Lemma owned_client_unique q acc item item' r r' :
  queue_ok q acc -> item ∈ owned q -> item' ∈ owned q ->
  receipt item = Some r -> receipt item' = Some r' -> client_id r = client_id r' -> item = item'.
Proof.
  intros H Hi Hi' Hr Hr' Hc.
  destruct (qo_receipts _ _ H _ Hi) as (x & Hx & Ha), (qo_receipts _ _ H _ Hi') as (x' & Hx' & Ha').
  simplify_eq. rewrite Hc in Ha. rewrite Ha in Ha'. injection Ha' as Hid.
  pose proof (wf_nodup _ (qo_wf _ _ H)) as Hn. unfold owned_ids in Hn.
  apply list_elem_of_lookup in Hi as [i Hi], Hi' as [j Hj].
  assert (i = j) as ->; [|congruence].
  eapply NoDup_lookup; [exact Hn| |].
  - by rewrite list_lookup_fmap, Hi.
  - by rewrite list_lookup_fmap, Hj, Hid.
Qed.

Lemma queue_ok_recall q acc :
  queue_ok q acc ->
  exists acc' l, recall_items acc (snd (recall_human q)) = Ret (acc', l) /\
    queue_ok (fst (recall_human q)) acc' /\
    (forall c, acc' !! c =
       if bool_decide (c ∈ client_ids (snd (recall_human q))) then None else acc !! c).
Proof.
  intros H. set (hs := snd (recall_human q)).
  assert (queue q ≡ₚ hs ++ List.filter (fun x => negb (is_human x)) (queue q)) as Hq
    by apply filter_split.
  destruct (set_queue_keeps q _ _ (qo_wf _ _ H) Hq) as [Hwf Hp].
  assert (forall item, item ∈ hs -> item ∈ owned q) as Hsub by (intros; rewrite Hp; set_solver).
  destruct (recall_items_total acc hs) as (l & Hl & _).
  { intros item Hi. destruct (qo_receipts _ _ H item) as (r & -> & _); [auto|done]. }
  eexists _, l. split; [exact Hl|].
  assert (forall c, fold_left (fun a c => delete c a) (client_ids hs) acc !! c =
     if bool_decide (c ∈ client_ids hs) then None else acc !! c) as Hlk
    by (intros; apply lookup_delete_all).
  split; [|done]. fold hs in Hp. split; [done|apply (qo_settled _ _ H)| | |].
  - intros item Hi. assert (item ∈ owned q) as Hi' by (rewrite Hp; set_solver).
    destruct (qo_receipts _ _ H _ Hi') as (r & Hr & Ha). exists r. split; [done|].
    rewrite Hlk. rewrite bool_decide_eq_false_2; [done|]. intros Hc.
    apply list_elem_of_omap in Hc as (item' & Hh & Hr'). apply fmap_Some in Hr' as (r' & Hr' & Hc).
    assert (item = item') as <- by (eapply owned_client_unique; eauto).
    pose proof (wf_nodup _ (qo_wf _ _ H)) as Hn. unfold owned_ids in Hn. rewrite Hp, map_app in Hn.
    apply NoDup_app in Hn as (_ & Hn & _). apply (Hn (qid item)); by apply list_elem_of_fmap_2.
  - intros cid id. rewrite Hlk. case_bool_decide; [done|]. apply (qo_alloc _ _ H).
  - intros c c' id. rewrite !Hlk. repeat case_bool_decide; try done. apply (qo_inj _ _ H).
Qed.

(** *** The state invariant *)

Record session_ok (n : N) s : Prop := {
  so_queue : queue_ok (st_queue s) (accepted s);
  so_count : (next_id (st_queue s) <= n)%N
}.

Lemma session_ok_queue n s q :
  session_ok n s -> queue_ok q (accepted s) -> next_id q = next_id (st_queue s) ->
  session_ok n (set_st_queue s q).
Proof. intros [? ?] ? Hid. split; [done|]. cbn. by rewrite Hid. Qed.

Lemma session_ok_later n s : session_ok n s -> session_ok (n + 1) s.
Proof. intros [? ?]. split; [done|lia]. Qed.

(** Only the queue and the accepted ids matter. *)
Lemma session_ok_same n s s' :
  session_ok n s -> st_queue s' = st_queue s -> accepted s' = accepted s -> session_ok n s'.
Proof. intros [? ?] Hq Ha. split; by rewrite Hq, ?Ha. Qed.

Lemma next_id_defer_all q ids : next_id (defer_all q ids) = next_id q.
Proof.
  revert q. induction ids as [|id ids IH]; intros q; cbn; [done|]. rewrite IH.
  unfold defer. by destruct (bt_get id (steering q)).
Qed.

(** [admit_inputs] only moves inputs between steering and the queue. *)
Lemma admit_spec s inputs inbox s' inbox' :
  admit_inputs s inputs inbox = (s', inbox') ->
  exists ids, s' = set_st_queue s (defer_all (st_queue s) ids).
Proof.
  unfold admit_inputs. intros H. destruct inbox as [b|].
  - destruct (inbox_admit b inputs) as [b' [[]|refused]]; injection H as <- <-.
    + exists []. by destruct s.
    + by eexists.
  - injection H as <- <-. by eexists.
Qed.

Lemma session_ok_defer_all n s ids :
  session_ok n s -> session_ok n (set_st_queue s (defer_all (st_queue s) ids)).
Proof.
  intros H. apply session_ok_queue; [done|apply queue_ok_defer_all, H|apply next_id_defer_all].
Qed.

(** The shape of taking in a fresh input under a new client id. *)
Definition fresh_item (cid : string) (i : TurnInput) (d : option Value) (c : option PromptContext) :
  QueuedInput Receipt :=
  {| input := with_id i 0; receipt := Some {| client_id := cid; draft := d; context := c |} |}.

Lemma session_ok_enqueue n s cid i d c :
  session_ok n s -> accepted s !! cid = None -> (n + 1 <= u64_max)%N ->
  session_ok (n + 1)
    (set_accepted (set_st_queue s (fst (enqueue (st_queue s) (fresh_item cid i d c))))
       (<[cid := view_id (snd (enqueue (st_queue s) (fresh_item cid i d c)))]> (accepted s))).
Proof.
  intros [Hq Hn] Hc Hmax. destruct (enqueue_wf (st_queue s) (fresh_item cid i d c)) as [Hwf Hp];
    [apply Hq|done|lia|].
  rewrite enqueue_fresh in * by (done || lia). cbn [fst snd] in *. split; cbn; [|lia].
  apply (queue_ok_add (st_queue s) _ _ (fresh_item cid i d c)
    {| client_id := cid; draft := d; context := c |}); try done. cbn. apply (qo_settled _ _ Hq).
Qed.

Lemma session_ok_steer n s cid i d c inbox s' inbox' :
  session_ok n s -> accepted s !! cid = None -> (n + 1 <= u64_max)%N ->
  can_deliver (st_queue s) = true ->
  admit_inputs (set_st_queue s (fst (steer (st_queue s) (fresh_item cid i d c))))
    [snd (steer (st_queue s) (fresh_item cid i d c))] inbox = (s', inbox') ->
  session_ok (n + 1)
    (set_accepted s' (<[cid := ti_id (snd (steer (st_queue s) (fresh_item cid i d c)))]> (accepted s'))).
Proof.
  intros [Hq Hn] Hc Hmax Hd Hadm. apply admit_spec in Hadm as [ids ->]. cbn [accepted set_st_queue].
  destruct (steer_fresh_wf (st_queue s) (fresh_item cid i d c)) as (Heq & Hwf & Hp);
    [apply Hq|done|lia|]. rewrite Heq in *. cbn [fst snd] in *.
  split; cbn; [|rewrite next_id_defer_all; cbn; lia].
  apply queue_ok_defer_all.
  apply (queue_ok_add (st_queue s) _ _ (fresh_item cid i d c)
    {| client_id := cid; draft := d; context := c |}); try done. cbn.
  unfold can_deliver in Hd. destruct (phase (st_queue s)); naive_solver.
Qed.

Lemma submit_ok n s cid d i dl c inbox s' inbox' r :
  session_ok n s -> (n + 1 <= u64_max)%N ->
  submit s cid d i dl c inbox = (s', inbox', r) -> session_ok (n + 1) s'.
Proof.
  intros H Hmax. unfold submit.
  destruct (is_empty cid); [intros [= <- <- <-]; by apply session_ok_later|].
  destruct (_ && _); [intros [= <- <- <-]; by apply session_ok_later|].
  destruct (accepted s !! cid) as [id|] eqn:Ha; [intros [= <- <- <-]; by apply session_ok_later|].
  fold (fresh_item cid i d c).
  set (s1 := if wants_resume i dl then _ else s).
  assert (session_ok n s1 /\ accepted s1 = accepted s) as [H1 Ha1].
  { unfold s1. destruct (wants_resume i dl); [|done]. split; [|done].
    apply session_ok_queue; [done|apply queue_ok_resume, H|]. unfold resume. by case_goal. }
  rewrite <- Ha1 in Ha. clearbody s1.
  destruct (is_steer dl && can_deliver (st_queue s1)) eqn:Hd.
  - apply andb_true_iff in Hd as [_ Hd].
    pose proof (session_ok_steer n s1 cid i d c inbox) as Hs.
    destruct (steer (st_queue s1) (fresh_item cid i d c)) as [q message]. cbn [fst snd] in Hs.
    destruct (admit_inputs (set_st_queue s1 q) [message] inbox) as [s2 inbox2] eqn:Hadm.
    intros [= <- <- <-]. by eapply Hs.
  - pose proof (session_ok_enqueue n s1 cid i d c H1 Ha Hmax) as Hs.
    destruct (enqueue (st_queue s1) (fresh_item cid i d c)) as [q v]. by intros [= <- <- <-].
Qed.

Lemma notification_of_same s e s' o :
  notification_of s e = (s', o) ->
  st_queue s' = st_queue s /\ accepted s' = accepted s /\ lifecycle_held s' = lifecycle_held s.
Proof.
  unfold notification_of. intros H. destruct e; try (injection H as <- <-; done).
  - destruct (native s); [|by injection H as <- <-].
    destruct (completions_observe _ _) as [b f]. by injection H as <- <-.
  - destruct (native s); by injection H as <- <-.
Qed.

Lemma observe_notification_ok n s e s' b :
  session_ok n s -> (n + 1 <= u64_max)%N ->
  observe_notification s e = (s', b) -> session_ok (n + 1) s'.
Proof.
  intros H Hmax. unfold observe_notification.
  destruct (notification_of s e) as [s1 o] eqn:Hn.
  apply notification_of_same in Hn as (Hq & Ha & _).
  assert (session_ok n s1) as H1 by (by eapply session_ok_same). clear H Hq Ha s.
  destruct o as [[[[cid text] display] source]|];
    [|intros [= <- <-]; by apply session_ok_later].
  destruct (accepted s1 !! cid) as [id|] eqn:Hacc; [intros [= <- <-]; by apply session_ok_later|].
  set (i := {| ti_id := 0%N; ti_text := text; ti_display := display; ti_source := source;
               ti_attachments := [] |}).
  pose proof (session_ok_enqueue n s1 cid i None None H1 Hacc Hmax) as Hs.
  change {| input := i; receipt := _ |} with (fresh_item cid i None None).
  destruct (enqueue _ _) as [q v]. by intros [= <- <-].
Qed.

Lemma publish_ok n s : session_ok n s -> session_ok n (fst (publish s)).
Proof. intros H. by eapply session_ok_same. Qed.

Lemma finish_next_id q : next_id (finish_turn q) = next_id q.
Proof. done. Qed.

Lemma turn_started_ok q acc : queue_ok q acc -> queue_ok (fst (turn_started q)) acc.
Proof.
  intros H. unfold turn_started. destruct (phase q); cbn; try done.
  apply queue_ok_phase; [done|naive_solver].
Qed.

Lemma observe_ok n s e :
  session_ok n s -> (n + 1 <= u64_max)%N -> session_ok (n + 1) (fst (observe s e)).
Proof.
  intros H Hmax. pose proof (so_queue _ _ H) as Hq. destruct e; cbn [observe fst].
  1-6: apply publish_ok, session_ok_later.
  - apply session_ok_queue; [done| |].
    + apply turn_started_ok. destruct (can_start (st_queue s)); [|done].
      apply queue_ok_phase; [done|naive_solver].
    + unfold turn_started. by destruct (can_start _), (phase _).
  - apply (session_ok_queue n (set_active s None)); [by eapply session_ok_same| |].
    + apply queue_ok_finish. destruct cancelled; [by apply queue_ok_cancel|done].
    + by destruct cancelled.
  - apply (session_ok_queue n (set_active s None)); [by eapply session_ok_same| |done].
    by apply queue_ok_finish, queue_ok_cancel.
  - apply (session_ok_queue n (set_active s None)); [by eapply session_ok_same| |done].
    by apply queue_ok_finish, queue_ok_cancel.
  - apply session_ok_queue; [done|by apply queue_ok_committed|done].
  - by apply session_ok_defer_all.
  - destruct (observe_notification s (BackgroundTaskEv event)) as [s' b] eqn:Ho.
    apply (observe_notification_ok n) in Ho; [|done|done]. destruct b; [by apply publish_ok|done].
  - destruct (observe_notification s (SubagentCompletionReady finished)) as [s' b] eqn:Ho.
    apply (observe_notification_ok n) in Ho; [|done|done]. destruct b; [by apply publish_ok|done].
  - by apply session_ok_later.
Qed.

Lemma cancel_ok n s : session_ok n s -> session_ok n (fst (cancel s)).
Proof.
  intros H. unfold cancel. apply publish_ok. pose proof (so_queue _ _ H) as Hq.
  destruct (is_running (st_queue s)); [|destruct (has_pending_input (st_queue s)); [|done]];
    apply session_ok_queue; try done; [by apply queue_ok_cancel|by apply queue_ok_finish, queue_ok_cancel].
Qed.

Lemma flush_or_cancel_ok n s inbox may s' inbox' b :
  session_ok n s -> flush_or_cancel s inbox may = (s', inbox', b) -> session_ok n s'.
Proof.
  intros H. unfold flush_or_cancel. destruct (has_pending_input (st_queue s)).
  - set (s1 := set_st_queue s _). assert (session_ok n s1) as H1.
    { apply session_ok_queue; [done|apply queue_ok_resume, H|]. unfold resume. by case_goal. }
    clearbody s1. destruct (can_deliver (st_queue s1)) eqn:Hd; [|by intros [= <- <- <-]].
    assert (session_ok n (set_st_queue s1 (fst (flush (st_queue s1))))) as H2.
    { apply session_ok_queue; [done|apply queue_ok_flush; [apply H1|]|].
      - unfold can_deliver in Hd. destruct (phase (st_queue s1)); naive_solver.
      - by rewrite flush_owned by apply H1. }
    destruct (flush (st_queue s1)) as [q inputs]. cbn [fst] in H2.
    destruct (admit_inputs (set_st_queue s1 q) inputs inbox) as [s2 inbox2] eqn:Ha.
    apply admit_spec in Ha as [ids ->]. intros [= <- <- <-]. by apply session_ok_defer_all.
  - destruct may; [|by intros [= <- <- <-]].
    destruct (is_running (st_queue s)); intros [= <- <- <-]; [|done].
    apply session_ok_queue; [done|apply queue_ok_cancel, H|done].
Qed.

Lemma reply_ok n s id c r k s' rep :
  session_ok n s -> reply s id c r k = (s', rep) -> session_ok n s'.
Proof. intros H [= <- <-]. by eapply session_ok_same. Qed.

Lemma action_ok n s a inbox :
  session_ok n s -> (n + 1 <= u64_max)%N ->
  exists s' inbox' r, action s a inbox = Ret (s', inbox', r) /\ session_ok (n + 1) s'.
Proof.
  intros H Hmax. unfold action.
  destruct (input_fenced s && fences_input a); [eexists _, _, _; split; [done|by apply session_ok_later]|].
  set (s1 := if negb (is_lifecycle a) then set_native s else s).
  assert (session_ok n s1) as H1 by (unfold s1; case_goal; by eapply session_ok_same).
  clearbody s1. clear H s. destruct a; cbn [is_flush_or_cancel].
  - destruct (submit s1 client_id0 draft0 input delivery context0 inbox) as [[s2 ib] [id|e]] eqn:Hs;
      apply (submit_ok n) in Hs; [|done|done| |done|done].
    + destruct (reply s2 (Some id) None None false) as [s3 rep] eqn:Hr.
      eexists _, _, _. split; [done|]. by eapply reply_ok in Hr.
    + eexists _, _, _. by split.
  - destruct (flush_or_cancel s1 inbox false) as [[s2 ib] k] eqn:Hf.
    apply (flush_or_cancel_ok n) in Hf; [|done].
    destruct (reply s2 None (Some k) None k) as [s3 rep] eqn:Hr.
    eexists _, _, _. split; [done|]. apply session_ok_later. by eapply reply_ok in Hr.
  - destruct (flush_or_cancel s1 inbox true) as [[s2 ib] k] eqn:Hf.
    apply (flush_or_cancel_ok n) in Hf; [|done].
    destruct (reply s2 None (Some k) None k) as [s3 rep] eqn:Hr.
    eexists _, _, _. split; [done|]. apply session_ok_later. by eapply reply_ok in Hr.
  - destruct (queue_ok_recall (st_queue s1) (accepted s1)) as (acc & l & Hl & Hq & _); [apply H1|].
    unfold recall_human in *. cbn [fst snd] in *. rewrite Hl. cbn [mbind run_bind].
    destruct (reply _ None None (Some l) false) as [s3 rep] eqn:Hr.
    eexists _, _, _. split; [done|]. apply session_ok_later. eapply reply_ok in Hr; [done|].
    split; [done|]. apply H1.
  - destruct (reply s1 None None None false) as [s3 rep] eqn:Hr.
    eexists _, _, _. split; [done|]. apply session_ok_later. by eapply reply_ok in Hr.
  - destruct (_ || _).
    + eexists _, _, _. split; [done|]. by apply session_ok_later.
    + destruct (reply _ None None None false) as [s3 rep] eqn:Hr.
      eexists _, _, _. split; [done|]. apply session_ok_later. eapply reply_ok in Hr; [done|].
      by eapply session_ok_same.
  - destruct (reply _ None None None false) as [s3 rep] eqn:Hr.
    eexists _, _, _. split; [done|]. apply session_ok_later. eapply reply_ok in Hr; [done|].
    destruct (lifecycle_held s1) as [[held ?]|]; [|done]. case_goal; by eapply session_ok_same.
Qed.

Lemma can_start_idle q : can_start q = true <-> phase q = Idle.
Proof. unfold can_start. destruct (phase q); naive_solver. Qed.

Lemma next_prompt_ok n s : session_ok n s -> session_ok n (fst (next_prompt s)).
Proof.
  intros H. unfold next_prompt.
  destruct (bool_decide _); cbn [orb]; [done|].
  destruct (can_start (st_queue s)) eqn:Hs; cbn [negb orb]; [|done].
  destruct (has_idle_queue (st_queue s)); cbn [negb]; [|done].
  destruct (flush_keeps (st_queue s)) as (Hwf & Hp & _); [apply H|].
  rewrite flush_owned in * by apply H. cbn [fst] in *.
  split; cbn; [|apply H].
  eapply queue_ok_same; [apply H|by apply wf_phase|done|done|naive_solver].
Qed.

(** ** Runs of a session: any interleaving of its entry points *)

Inductive Label :=
| LAction (a : InputAction) (inbox : option Inbox)
| LCancel
| LObserve (e : EngineEvent)
| LWatch
| LNextPrompt.

Definition session_step s (l : Label) : run State :=
  match l with
  | LAction a inbox => '(s', _, _) ← action s a inbox; Ret s'
  | LCancel => Ret (fst (cancel s))
  | LObserve e => Ret (fst (observe s e))
  | LWatch => Ret (fst (watch_background s))
  | LNextPrompt => Ret (fst (next_prompt s))
  end.

Fixpoint session_run s (ls : list Label) : run State :=
  match ls with
  | [] => Ret s
  | l :: ls => s' ← session_step s l; session_run s' ls
  end.

Lemma session_step_ok n s l :
  session_ok n s -> (n + 1 <= u64_max)%N ->
  exists s', session_step s l = Ret s' /\ session_ok (n + 1) s'.
Proof.
  intros H Hmax. destruct l as [a inbox| |e| |]; cbn [session_step].
  - destruct (action_ok n s a inbox) as (s' & ib & r & -> & ?); [done|done|]. by exists s'.
  - eexists. split; [done|]. by apply session_ok_later, cancel_ok.
  - eexists. split; [done|]. by apply observe_ok.
  - eexists. split; [done|]. apply session_ok_later. unfold watch_background.
    case_goal; by eapply session_ok_same.
  - eexists. split; [done|]. by apply session_ok_later, next_prompt_ok.
Qed.

Lemma session_default_ok : session_ok 0 state_default.
Proof.
  split; [|done]. split; [apply new_wf|done| | |]; cbn.
  - intros item Hi. by apply elem_of_nil in Hi.
  - intros cid id Hc. by rewrite lookup_empty in Hc.
  - intros c c' id Hc. by rewrite lookup_empty in Hc.
Qed.

Lemma session_run_ok ls n s :
  session_ok n s -> (n + N.of_nat (length ls) <= u64_max)%N ->
  exists s', session_run s ls = Ret s' /\ session_ok (n + N.of_nat (length ls)) s'.
Proof.
  revert n s. induction ls as [|l ls IH]; intros n s H Hn; cbn [session_run length] in *.
  - rewrite N.add_0_r. by exists s.
  - destruct (session_step_ok n s l) as (s' & -> & H'); [done|lia|]. cbn [mbind run_bind].
    replace (n + N.of_nat (S (length ls)))%N with ((n + 1) + N.of_nat (length ls))%N by lia.
    apply IH; [done|lia].
Qed.

Lemma reachable_ok ls :
  (N.of_nat (length ls) <= u64_max)%N ->
  exists s, session_run state_default ls = Ret s /\ session_ok (N.of_nat (length ls)) s.
Proof. intros Hn. apply (session_run_ok ls 0 _ session_default_ok). lia. Qed.

(** *** The published snapshot *)

Definition pending_row (item : QueuedInput Receipt) (d : InputDelivery) (r : Receipt) : PendingInput :=
  {| pending_id := qid item; pending_client_id := client_id r;
     pending_display := ti_display (input item); pending_source := ti_source (input item);
     pending_delivery := d |}.

Lemma pending_ids (l : list (QueuedInput Receipt * InputDelivery)) :
  (forall e, e ∈ l -> is_Some (receipt e.1)) ->
  map pending_id (omap pending_of l) = map (fun e => qid e.1) l.
Proof.
  induction l as [|[item d] l IH]; intros Hr; [done|].
  destruct (Hr (item, d)) as [r Hi]; [set_solver|]. cbn in Hi.
  cbn [omap list_omap pending_of]. rewrite Hi. cbn [map fst]. f_equal. apply IH. set_solver.
Qed.

Lemma entries_owned q : map fst (entries q) = owned q.
Proof.
  unfold entries, owned. rewrite map_app, !map_map. cbn. by rewrite !map_id.
Qed.

#[local] Instance pending_le_total : Total pending_le.
Proof. intros a b. unfold pending_le. lia. Qed.
#[local] Instance pending_le_trans : Transitive pending_le.
Proof. intros a b c. unfold pending_le. lia. Qed.

Lemma snapshot_ids s :
  queue_ok (st_queue s) (accepted s) ->
  map pending_id (is_pending (snapshot s)) ≡ₚ owned_ids (st_queue s).
Proof.
  intros H. cbn [snapshot is_pending]. rewrite merge_sort_Permutation, pending_ids.
  - unfold owned_ids. by rewrite <- entries_owned, map_map.
  - intros e He. destruct (qo_receipts _ _ H e.1) as (r & -> & _); [|done].
    rewrite <- entries_owned. by apply list_elem_of_fmap_2.
Qed.

Lemma snapshot_sorted s :
  queue_ok (st_queue s) (accepted s) ->
  StronglySorted N.lt (map pending_id (is_pending (snapshot s))).
Proof.
  intros H. assert (NoDup (map pending_id (is_pending (snapshot s)))) as Hn.
  { rewrite snapshot_ids by done. apply (wf_nodup _ (qo_wf _ _ H)). }
  assert (StronglySorted pending_le (is_pending (snapshot s))) as Hs
    by (apply (StronglySorted_merge_sort pending_le _)).
  induction Hs as [|x l Hs IH Hall]; cbn in *; [constructor|].
  inversion Hn as [|? ? Hx Hn']; subst. constructor; [by apply IH|].
  rewrite Forall_map. rewrite Forall_forall in Hall |- *. intros y Hy. specialize (Hall _ Hy).
  unfold pending_le in Hall.
  assert (pending_id x <> pending_id y); [|lia]. intros Heq. apply Hx. rewrite Heq.
  by apply list_elem_of_fmap_2.
Qed.

(** C9. Whatever clients, events and leases do to a session (fewer than [2^64]
    steps in any order, each with an open, closed or absent inbox), no step panics;
    every accepted input that is still owned carries its receipt under a unique
    client id and session id; the published snapshot lists exactly the owned
    inputs, each once, in id order; and nothing is left in steering while no turn
    runs. *)
Theorem session_invariant (ls : list Label) :
  (N.of_nat (length ls) <= u64_max)%N ->
  exists s, session_run state_default ls = Ret s /\
    map pending_id (is_pending (snapshot s)) ≡ₚ owned_ids (st_queue s) /\
    StronglySorted N.lt (map pending_id (is_pending (snapshot s))) /\
    (forall item, item ∈ owned (st_queue s) ->
       exists r, receipt item = Some r /\ accepted s !! client_id r = Some (qid item)) /\
    (forall c c' id, accepted s !! c = Some id -> accepted s !! c' = Some id -> c = c') /\
    (is_running (st_queue s) = false -> steering (st_queue s) = []).
Proof.
  intros Hn. destruct (reachable_ok ls Hn) as (s & Hrun & [Hq _]). exists s.
  split_and!; [done|by apply snapshot_ids|by apply snapshot_sorted|apply Hq|apply Hq|].
  intros Hr. apply (qo_settled _ _ Hq). unfold is_running in Hr. destruct (phase (st_queue s)); (discriminate || auto).
Qed.

(** A prompt is leased exactly when the session is idle, unfenced and has
    queued input; the lease then carries the whole queue in FIFO order (texts,
    attachments and views), names the first input as the active turn, and keeps
    ownership: every leased input is still owned, now as unacknowledged steering of
    the turn being prepared. *)
Theorem next_prompt_leases_whole_queue (ls : list Label) s :
  (N.of_nat (length ls) <= u64_max)%N -> session_run state_default ls = Ret s ->
  match next_prompt s with
  | (s', Some (cmd, snap)) =>
      lifecycle_held s = None /\ phase (st_queue s) = Idle /\ queue (st_queue s) <> [] /\
      prompt_blocks cmd = flat_map (fun item => Text (ti_text (input item))
                                      :: ti_attachments (input item)) (queue (st_queue s)) /\
      input_views (prompt_context cmd) = previews (st_queue s) /\
      active_turn_id s' = qid <$> head (queue (st_queue s)) /\
      queue (st_queue s') = [] /\ phase (st_queue s') = Preparing /\
      bt_values (steering (st_queue s')) ≡ₚ queue (st_queue s) /\
      accepted s' = accepted s /\ snap = snapshot s'
  | (s', None) =>
      s' = s /\
      (lifecycle_held s <> None \/ phase (st_queue s) <> Idle \/ queue (st_queue s) = [])
  end.
Proof.
  intros Hn Hrun. destruct (reachable_ok ls Hn) as (s0 & Hrun0 & [Hq _]).
  rewrite Hrun in Hrun0. injection Hrun0 as <-. unfold next_prompt.
  destruct (bool_decide (is_Some (lifecycle_held s))) eqn:Hl; cbn [orb].
  { apply bool_decide_eq_true_1 in Hl as [x Hx]. split; [done|]. left. by rewrite Hx. }
  assert (lifecycle_held s = None) as Hnone.
  { destruct (lifecycle_held s); [|done]. apply bool_decide_eq_false_1 in Hl. by destruct Hl. }
  destruct (can_start (st_queue s)) eqn:Hs; cbn [negb orb].
  2: { split; [done|]. right; left. intros ?%can_start_idle. congruence. }
  apply can_start_idle in Hs. unfold has_idle_queue, is_running. rewrite Hs.
  destruct (queue (st_queue s)) as [|item rest] eqn:Hqueue; cbn [negb andb]; [tauto|].
  destruct (flush_keeps (st_queue s)) as (_ & Hp & _); [apply Hq|].
  rewrite flush_owned in * by apply Hq. cbn [fst] in Hp.
  assert (steering (st_queue s) = []) as Hst by (apply (qo_settled _ _ Hq); by left).
  assert (bt_values (insert_all (queue (st_queue s)) (steering (st_queue s)))
            ≡ₚ queue (st_queue s)) as Hsteer.
  { unfold owned in Hp. cbn [queue steering app] in Hp. rewrite Hp, Hst.
    unfold bt_values; cbn. by rewrite app_nil_r. }
  rewrite <- Hqueue. cbn -[insert_all with_views context_of_first].
  split_and!; try done.
  - by rewrite Hqueue.
  - generalize (queue (st_queue s)). intros l. induction l as [|x l IH]; cbn; [done|]. by rewrite IH.
  - unfold with_views, previews. cbn. by rewrite map_map.
  - by rewrite Hqueue.
Qed.

(** *** Receipts are idempotent *)

Definition is_recall (l : Label) : bool :=
  match l with LAction Recall _ => true | _ => false end.

Definition keeps_accepted s s' : Prop :=
  forall c id, accepted s !! c = Some id -> accepted s' !! c = Some id.

Lemma keeps_insert_after s s1 s' (c : string) (id : N) :
  accepted s1 = accepted s -> accepted s' = <[c := id]> (accepted s1) ->
  accepted s1 !! c = None -> keeps_accepted s s'.
Proof.
  intros H1 Hs Hn c' id' Hc. rewrite <- H1 in Hc. rewrite Hs, lookup_insert_ne; congruence.
Qed.

Lemma submit_keeps s cid d i dl c inbox s' inbox' r :
  submit s cid d i dl c inbox = (s', inbox', r) ->
  keeps_accepted s s' /\ lifecycle_held s' = lifecycle_held s /\
  (forall id, r = Ok id -> accepted s' !! cid = Some id).
Proof.
  assert (forall e : string, keeps_accepted s s /\ lifecycle_held s = lifecycle_held s /\
    (forall id : N, Err e = Ok id -> accepted s !! cid = Some id)) as Hrefused
    by (intros e; split_and!; [by intros ???|done|done]).
  unfold submit. destruct (is_empty cid); [intros [= <- <- <-]; apply Hrefused|].
  destruct (_ && _); [intros [= <- <- <-]; apply Hrefused|]. clear Hrefused.
  destruct (accepted s !! cid) as [id|] eqn:Ha.
  { intros [= <- <- <-]. split_and!; [by intros ???|done|]. by intros ? [= <-]. }
  fold (fresh_item cid i d c).
  set (s1 := if wants_resume i dl then _ else s).
  assert (accepted s1 = accepted s /\ lifecycle_held s1 = lifecycle_held s) as [Ha1 Hl1]
    by (unfold s1; by destruct (wants_resume i dl)).
  clearbody s1. rewrite <- Ha1 in Ha. rewrite <- Hl1.
  destruct (is_steer dl && can_deliver (st_queue s1)).
  - destruct (steer (st_queue s1) (fresh_item cid i d c)) as [q message].
    destruct (admit_inputs (set_st_queue s1 q) [message] inbox) as [s2 inbox2] eqn:Hadm.
    apply admit_spec in Hadm as [ids ->]. intros [= <- <- <-]. split_and!; [|done|].
    + apply (keeps_insert_after s s1 _ cid (ti_id message)); done.
    + intros id [= <-]. cbn. by rewrite lookup_insert_eq.
  - destruct (enqueue (st_queue s1) (fresh_item cid i d c)) as [q v]. intros [= <- <- <-].
    split_and!; [|done|].
    + apply (keeps_insert_after s s1 _ cid (view_id v)); done.
    + intros id [= <-]. cbn. by rewrite lookup_insert_eq.
Qed.

Lemma observe_keeps s e :
  keeps_accepted s (fst (observe s e)) /\ lifecycle_held (fst (observe s e)) = lifecycle_held s.
Proof.
  assert (forall ev s' b, observe_notification s ev = (s', b) ->
    keeps_accepted s s' /\ lifecycle_held s' = lifecycle_held s) as Hobs.
  { intros ev s' b. unfold observe_notification.
    destruct (notification_of s ev) as [s1 o] eqn:Hn. apply notification_of_same in Hn as (_ & Ha & Hl).
    destruct o as [[[[cid text] display] source]|].
    - destruct (accepted s1 !! cid) as [id|] eqn:Hacc.
      + intros [= <- <-]. split; [|done]. intros c id'. by rewrite Ha.
      + destruct (enqueue _ _) as [q v]. intros [= <- <-]. split; [|done].
        by apply (keeps_insert_after s s1 _ cid (view_id v)).
    - intros [= <- <-]. split; [|done]. intros c id'. by rewrite Ha. }
  destruct e; cbn [observe]; try (split; [by intros ???|done]).
  - destruct (observe_notification s (BackgroundTaskEv event)) as [s' b] eqn:Ho.
    apply Hobs in Ho as [? ?]. by destruct b.
  - destruct (observe_notification s (SubagentCompletionReady finished)) as [s' b] eqn:Ho.
    apply Hobs in Ho as [? ?]. by destruct b.
Qed.

Lemma flush_or_cancel_keeps s inbox may s' inbox' b :
  flush_or_cancel s inbox may = (s', inbox', b) ->
  accepted s' = accepted s /\ lifecycle_held s' = lifecycle_held s.
Proof.
  unfold flush_or_cancel. destruct (has_pending_input (st_queue s)).
  - destruct (can_deliver _); [|by intros [= <- <- <-]].
    destruct (flush _) as [q inputs]. destruct (admit_inputs _ inputs inbox) as [s2 inbox2] eqn:Ha.
    apply admit_spec in Ha as [ids ->]. by intros [= <- <- <-].
  - destruct may; [|by intros [= <- <- <-]]. destruct (is_running _); by intros [= <- <- <-].
Qed.

Lemma keeps_same s s' (P Q : Prop) :
  accepted s' = accepted s -> lifecycle_held s' = lifecycle_held s ->
  (P -> keeps_accepted s s') /\ (Q -> lifecycle_held s' = lifecycle_held s).
Proof. intros Ha Hl. split; [|done]. intros _ c id. by rewrite Ha. Qed.

(** What an action does to the receipts and to the fence. *)
Lemma action_keeps s a inbox s' inbox' r :
  action s a inbox = Ret (s', inbox', r) ->
  (is_recall (LAction a inbox) = false -> keeps_accepted s s') /\
  (is_lifecycle a = false -> lifecycle_held s' = lifecycle_held s).
Proof.
  unfold action. destruct (_ && _); [intros [= <- <- <-]; by apply keeps_same|].
  set (s1 := if negb (is_lifecycle a) then set_native s else s).
  assert (accepted s1 = accepted s /\ lifecycle_held s1 = lifecycle_held s) as [Ha1 Hl1]
    by (unfold s1; by destruct (is_lifecycle a)).
  unfold keeps_accepted. rewrite <- Ha1, <- Hl1. clearbody s1. clear Ha1 Hl1.
  fold (keeps_accepted s1 s').
  destruct a; cbn [is_flush_or_cancel is_recall is_lifecycle].
  - destruct (submit _ _ _ _ _ _ _) as [[s2 ib] res] eqn:Hs. apply submit_keeps in Hs as (? & ? & _).
    destruct res; [|by intros [= <- <- <-]]. by intros [= <- <- <-].
  - destruct (flush_or_cancel s1 inbox false) as [[s2 ib] k] eqn:Hf.
    apply flush_or_cancel_keeps in Hf as [Ha Hl]. intros [= <- <- <-]. by apply keeps_same.
  - destruct (flush_or_cancel s1 inbox true) as [[s2 ib] k] eqn:Hf.
    apply flush_or_cancel_keeps in Hf as [Ha Hl]. intros [= <- <- <-]. by apply keeps_same.
  - unfold recall_human. cbn. destruct (recall_items _ _) as [[acc l]| |]; cbn; try done.
    by intros [= <- <- <-].
  - intros [= <- <- <-]. by apply keeps_same.
  - destruct (_ || _); intros [= <- <- <-]; [by apply keeps_same|].
    split; [|done]. by intros _ c id.
  - intros [= <- <- <-]. split; [|done]. intros _ c id. cbn.
    destruct (lifecycle_held s1) as [[held ?]|]; [|done]. by destruct (held =? token)%N.
Qed.

Lemma next_prompt_keeps s :
  accepted (fst (next_prompt s)) = accepted s /\
  lifecycle_held (fst (next_prompt s)) = lifecycle_held s.
Proof. unfold next_prompt. destruct (_ || _); [done|]. by destruct (flush _). Qed.

Lemma cancel_keeps s :
  accepted (fst (cancel s)) = accepted s /\ lifecycle_held (fst (cancel s)) = lifecycle_held s.
Proof. unfold cancel. by destruct (is_running (st_queue s)), (has_pending_input (st_queue s)). Qed.

Lemma session_step_keeps s l s' :
  session_step s l = Ret s' -> is_recall l = false -> keeps_accepted s s'.
Proof.
  destruct l as [a inbox| |e| |]; cbn [session_step]; intros H Hl.
  - destruct (action s a inbox) as [[[s1 ib] r]| |] eqn:Ha; try done. injection H as <-.
    by apply action_keeps in Ha as [? _]; auto.
  - apply Ret_inj in H as <-. unfold keeps_accepted. by rewrite (proj1 (cancel_keeps s)).
  - apply Ret_inj in H as <-. apply observe_keeps.
  - apply Ret_inj in H as <-. unfold watch_background. destruct (_ || _); by intros ???.
  - apply Ret_inj in H as <-. unfold keeps_accepted. by rewrite (proj1 (next_prompt_keeps s)).
Qed.

Lemma session_run_keeps s ls s' :
  session_run s ls = Ret s' -> forallb (fun l => negb (is_recall l)) ls = true -> keeps_accepted s s'.
Proof.
  revert s. induction ls as [|l ls IH]; intros s; cbn; [intros [= <-] _; by intros ???|].
  intros (s1 & Hs & Hrun)%run_bind_Ret [Hl Hls]%andb_true_iff. apply negb_true_iff in Hl.
  intros c id Hc. eapply IH; [done|done|]. by eapply session_step_keeps.
Qed.

(** Submission is idempotent per client id: once a submission is receipted, a
    retry under the same client id, however much later and with whatever payload,
    either is refused outright or gets the original session id back; it never
    touches the queue, the receipts or the inbox, unless a recall gave the input
    back in between. *)
Theorem submit_idempotent s cid d i dl c ib s1 ib1 r ls s2 d' i' dl' c' ib2 :
  action s (Submit cid d i dl c) ib = Ret (s1, ib1, Ok r) ->
  session_run s1 ls = Ret s2 -> forallb (fun l => negb (is_recall l)) ls = true ->
  exists s3 res,
    action s2 (Submit cid d' i' dl' c') ib2 = Ret (s3, ib2, res) /\
    st_queue s3 = st_queue s2 /\ accepted s3 = accepted s2 /\
    (forall r', res = Ok r' -> receipt_id (fst (fst r')) = receipt_id (fst (fst r))).
Proof.
  intros Hact Hrun Hls.
  assert (exists id, accepted s1 !! cid = Some id /\ receipt_id (fst (fst r)) = Some id) as (id & Hid & Hr).
  { unfold action in Hact. destruct (_ && _); [done|]. cbn [negb is_lifecycle] in Hact.
    destruct (submit _ _ _ _ _ _ _) as [[s' ib'] res] eqn:Hs.
    apply submit_keeps in Hs as (_ & _ & Hok). destruct res as [id|]; [|done].
    injection Hact as <- <- <-. exists id. split; [|done]. by apply Hok. }
  apply (session_run_keeps _ _ _ Hrun Hls) in Hid. rewrite Hr. clear Hact Hrun Hr.
  unfold action. destruct (_ && _); [by eexists _, _|]. cbn [negb is_lifecycle].
  unfold submit. destruct (is_empty cid); [by eexists _, _|].
  destruct (_ && _); [by eexists _, _|].
  change (accepted (set_native s2)) with (accepted s2). rewrite Hid.
  eexists _, _. split_and!; [reflexivity|done|done|]. by intros r' [= <-].
Qed.

(** *** The lifecycle fence *)

Definition is_release (token : N) (l : Label) : bool :=
  match l with LAction (ReleaseLifecycle t) _ => (t =? token)%N | _ => false end.

Lemma session_step_fence s l s' token allow :
  session_step s l = Ret s' -> is_release token l = false ->
  lifecycle_held s = Some (token, allow) -> lifecycle_held s' = Some (token, allow).
Proof.
  destruct l as [a inbox| |e| |]; cbn [session_step]; intros H Hl Hh.
  - destruct (action s a inbox) as [[[s1 ib] r]| |] eqn:Ha; try done. injection H as <-.
    destruct (is_lifecycle a) eqn:Hlc; [|by rewrite (proj2 (action_keeps _ _ _ _ _ _ Ha) Hlc)].
    unfold action in Ha. destruct (_ && _) in Ha; [by injection Ha as <- <- <-|].
    rewrite Hlc in Ha. cbn [negb] in Ha. destruct a; try done.
    + rewrite Hh in Ha. rewrite bool_decide_eq_true_2 in Ha by done. cbn in Ha.
      by injection Ha as <- <- <-.
    + cbn in Hl. rewrite Hh in Ha. rewrite N.eqb_sym, Hl in Ha. by injection Ha as <- <- <-.
  - apply Ret_inj in H as <-. by rewrite (proj2 (cancel_keeps s)).
  - apply Ret_inj in H as <-. by rewrite (proj2 (observe_keeps s e)).
  - apply Ret_inj in H as <-. unfold watch_background. by destruct (_ || _).
  - apply Ret_inj in H as <-. by rewrite (proj2 (next_prompt_keeps s)).
Qed.

(** The lifecycle fence: it is granted only while no turn runs, and from then
    until it is released with its own token, whatever else happens (other tokens,
    events, completions), no prompt is leased, and, for a fence that does not allow
    inputs, every submission and flush is refused with the state and the inbox
    untouched. *)
Theorem lifecycle_fence_holds s token allow ib s1 ib1 r ls s2 :
  action s (AcquireLifecycle token allow) ib = Ret (s1, ib1, Ok r) ->
  session_run s1 ls = Ret s2 -> forallb (fun l => negb (is_release token l)) ls = true ->
  is_running (st_queue s) = false /\
  next_prompt s2 = (s2, None) /\
  (allow = false -> forall a inbox, fences_input a = true ->
     action s2 a inbox = Ret (s2, inbox, Err "Session control is changing; input was not admitted")).
Proof.
  intros Hact Hrun Hls.
  assert (is_running (st_queue s) = false /\ lifecycle_held s1 = Some (token, allow)) as [Hr Hh].
  { unfold action in Hact. rewrite andb_false_r in Hact. cbn [negb is_lifecycle] in Hact.
    destruct (_ || _) eqn:Hb in Hact; [done|]. apply orb_false_iff in Hb as [_ ?].
    by injection Hact as <- <- <-. }
  split; [done|]. clear Hact.
  assert (lifecycle_held s2 = Some (token, allow)) as Hh2.
  { revert s1 Hh Hrun. induction ls as [|l ls IH]; intros s1 Hh; cbn; [by intros [= <-]|].
    cbn in Hls. apply andb_true_iff in Hls as [Hl Hls]. apply negb_true_iff in Hl.
    intros (s' & Hs & Hrun)%run_bind_Ret. eapply IH; [done| |done]. by eapply session_step_fence. }
  split.
  - unfold next_prompt. by rewrite Hh2.
  - intros -> a inbox Ha. unfold action, input_fenced. by rewrite Hh2, Ha.
Qed.

(** *** Pausing *)

Definition resumes (l : Label) : bool :=
  match l with
  | LAction (Submit _ _ i dl _) _ => wants_resume i dl
  | LAction Flush _ | LAction FlushOrCancel _ => true
  | _ => false
  end.
Definition ends_turn (l : Label) : bool :=
  match l with
  | LObserve (TurnComplete _) | LObserve TurnFailed | LObserve PromptRejected => true
  | _ => false
  end.

Lemma phase_enqueue q item : phase (fst (enqueue q item)) = phase q.
Proof. unfold enqueue, identify. by destruct (_ =? _)%N. Qed.

Lemma finish_paused q :
  is_paused q = true -> phase (finish_turn q) = Paused \/ queue q = [].
Proof.
  intros Hp. cbn. rewrite Hp. cbn [andb].
  change (fold_left _ _ _) with (queue (recover_uncommitted q)). rewrite recover_queue.
  destruct (queue q) as [|x l]; [by right|left]. by destruct (bt_values (steering q)).
Qed.

Lemma observe_notification_phase s e s' b :
  observe_notification s e = (s', b) -> phase (st_queue s') = phase (st_queue s).
Proof.
  unfold observe_notification. destruct (notification_of s e) as [s1 o] eqn:Hn.
  apply notification_of_same in Hn as (Hq & _ & _). rewrite <- Hq.
  destruct o as [[[[cid text] display] source]|]; [|by intros [= <- <-]].
  destruct (accepted s1 !! cid); [by intros [= <- <-]|].
  match goal with |- context [enqueue ?q ?i] => pose proof (phase_enqueue q i) as Hp end.
  destruct (enqueue _ _) as [q v]. by intros [= <- <-].
Qed.

Lemma submit_paused s cid d i dl c ib s' ib' r :
  phase (st_queue s) = Paused -> wants_resume i dl = false ->
  submit s cid d i dl c ib = (s', ib', r) -> phase (st_queue s') = Paused.
Proof.
  intros Hp Hw. unfold submit. destruct (is_empty cid); [by intros [= <- <- <-]|].
  destruct (_ && _); [by intros [= <- <- <-]|].
  destruct (accepted s !! cid); [by intros [= <- <- <-]|]. rewrite Hw.
  unfold can_deliver. rewrite Hp, andb_false_r.
  match goal with |- context [enqueue ?q ?i] => pose proof (phase_enqueue q i) as Hq end.
  destruct (enqueue _ _) as [q v]. cbn [fst] in Hq. intros [= <- <- <-]. cbn. congruence.
Qed.

(** A paused session stays paused: it leases no prompt, and only a steering
    submission by a human, a flush, or the end of a turn that left nothing queued
    takes it out of [Paused]; queued submissions, background and sub-agent
    completions, snapshots, recalls and cancellations do not. *)
Theorem paused_until_resumed s l s' :
  phase (st_queue s) = Paused -> session_step s l = Ret s' ->
  next_prompt s = (s, None) /\
  (phase (st_queue s') = Paused \/ resumes l = true \/
   (ends_turn l = true /\ queue (st_queue s) = [])).
Proof.
  intros Hp Hs. split.
  { unfold next_prompt, can_start. rewrite Hp. by destruct (bool_decide _). }
  destruct l as [a ib| |e| |]; cbn [session_step] in Hs.
  - destruct (action s a ib) as [[[s1 ib1] r]| |] eqn:Ha; try done. injection Hs as <-.
    unfold action in Ha. destruct (_ && _) in Ha; [injection Ha as <- <- <-; by left|].
    destruct a; cbn [is_lifecycle negb is_flush_or_cancel resumes] in *; try by (right; left).
    + destruct (wants_resume input delivery) eqn:Hw; [by (right; left)|left].
      destruct (submit _ _ _ _ _ _ _) as [[s2 ib2] res] eqn:Hsub.
      apply submit_paused in Hsub; [|done|done]. destruct res; by injection Ha as <- <- <-.
    + left. unfold recall_human in Ha. cbn in Ha.
      destruct (recall_items _ _) as [[acc l]| |]; [|done|done]. by injection Ha as <- <- <-.
    + left. by injection Ha as <- <- <-.
    + left. destruct (_ || _) in Ha; by injection Ha as <- <- <-.
    + left. injection Ha as <- <- <-. cbn. destruct (lifecycle_held s) as [[held ?]|]; [|done].
      by destruct (held =? token)%N.
  - apply Ret_inj in Hs as <-. left. unfold cancel, is_running. rewrite Hp.
    destruct (has_pending_input (st_queue s)) eqn:Hpend; [|done]. cbn [publish fst st_queue bump_revision set_st_queue].
    cbn. change (fold_left _ _ _) with (queue (recover_uncommitted (st_queue s))). rewrite recover_queue.
    unfold has_pending_input in Hpend. destruct (queue (st_queue s)), (steering (st_queue s)); done.
  - apply Ret_inj in Hs as <-. destruct e; cbn [observe].
    + left. unfold can_start. rewrite Hp. cbn. unfold turn_started. by rewrite Hp.
    + destruct (finish_paused (if cancelled then cancel_turn (st_queue s) else st_queue s)) as [H|H].
      * destruct cancelled; [done|]. unfold is_paused. by rewrite Hp.
      * left. by destruct cancelled.
      * right; right. split; [done|]. by destruct cancelled.
    + destruct (finish_paused (cancel_turn (st_queue s))) as [H|H]; [done|by left|by right; right].
    + destruct (finish_paused (cancel_turn (st_queue s))) as [H|H]; [done|by left|by right; right].
    + by left.
    + left. cbn. rewrite <- Hp. generalize (st_queue s) (map ti_id inputs). clear.
      intros q ids. revert q. induction ids as [|id ids IH]; intros q; cbn; [done|]. rewrite IH.
      unfold defer. by destruct (bt_get id (steering q)).
    + left. destruct (observe_notification s (BackgroundTaskEv event)) as [s1 b] eqn:Ho.
      apply observe_notification_phase in Ho. destruct b; cbn; congruence.
    + left. destruct (observe_notification s (SubagentCompletionReady finished)) as [s1 b] eqn:Ho.
      apply observe_notification_phase in Ho. destruct b; cbn; congruence.
    + by left.
  - apply Ret_inj in Hs as <-. left. unfold watch_background. by destruct (_ || _).
  - apply Ret_inj in Hs as <-. left. unfold next_prompt, can_start. rewrite Hp.
    by destruct (bool_decide _).
Qed.
End SessionInputs.

(** ** Concrete sessions *)

Definition sample_pair (a b : string) : string := (a ++ "/" ++ b)%string.

Definition sample_input (text : string) : TurnInput :=
  {| ti_id := 0%N; ti_text := text; ti_display := text; ti_source := Human; ti_attachments := [] |}.

Definition sample_submit (cid : string) (d : InputDelivery) : @InputAction unit :=
  Submit cid None (sample_input cid) d None.

Definition open_inbox : option Inbox := Some {| inbox_open := true; inbox_pending := [] |}.

(** A turn that answers [first], is steered with [a] (deferred at its end) while [b]
    is queued. *)
Definition sample_labels : list (@Label unit) :=
  [LAction (sample_submit "first" Steer) None; LNextPrompt; LObserve TurnStarted;
   LObserve (InputCommitted {| view_id := 1%N; view_display := "first"; view_source := Human |});
   LAction (sample_submit "a" Steer) open_inbox;
   LAction (sample_submit "b" Queue) open_inbox;
   LObserve (InputDeferred [with_id (sample_input "a") 2]);
   LObserve (TurnComplete false)].

Definition run_or {A} (d : A) (r : run A) : A := match r with Ret a => a | _ => d end.
Definition sample_state : @State unit := run_or state_default (session_run sample_pair state_default sample_labels).

(** The batch a lease hands out and the turn context it carries can belong to
    different inputs: when a deferred steering input was re-queued behind a younger
    one, the lease names the queue's head as the active turn but takes the trace id
    and the expected context from the input with the smallest id. *)
Theorem lease_context_of_another_input :
  session_run sample_pair state_default sample_labels = Ret sample_state /\
  map qid (queue (st_queue sample_state)) = [3%N; 2%N] /\
  exists cmd snap,
    snd (next_prompt sample_state) = Some (cmd, snap) /\
    active_turn_id (fst (next_prompt sample_state)) = Some 3%N /\
    accepted sample_state !! "b" = Some 3%N /\
    trace_id (prompt_context cmd) = "a" /\ accepted sample_state !! "a" = Some 2%N.
Proof.
  split; [vm_compute; reflexivity|]. split; [vm_compute; reflexivity|].
  eexists _, _. split; [vm_compute; reflexivity|]. split_and!; vm_compute; reflexivity.
Qed.

Lemma session_invariant_witness :
  exists s, session_run sample_pair state_default sample_labels = Ret s /\
    map pending_id (is_pending (snapshot s)) ≡ₚ owned_ids (st_queue s) /\
    StronglySorted N.lt (map pending_id (is_pending (snapshot s))) /\
    (forall item, item ∈ owned (st_queue s) ->
       exists r, receipt item = Some r /\ accepted s !! client_id r = Some (qid item)) /\
    (forall c c' id, accepted s !! c = Some id -> accepted s !! c' = Some id -> c = c') /\
    (is_running (st_queue s) = false -> steering (st_queue s) = []).
Proof. apply session_invariant. discriminate. Defined.

Lemma next_prompt_leases_whole_queue_witness :
  match next_prompt sample_state with
  | (s', Some (cmd, snap)) =>
      lifecycle_held sample_state = None /\ phase (st_queue sample_state) = Idle /\
      queue (st_queue sample_state) <> [] /\
      prompt_blocks cmd = flat_map (fun item => Text (ti_text (input item))
                                      :: ti_attachments (input item)) (queue (st_queue sample_state)) /\
      input_views (prompt_context cmd) = previews (st_queue sample_state) /\
      active_turn_id s' = qid <$> head (queue (st_queue sample_state)) /\
      queue (st_queue s') = [] /\ phase (st_queue s') = Preparing /\
      bt_values (steering (st_queue s')) ≡ₚ queue (st_queue sample_state) /\
      accepted s' = accepted sample_state /\ snap = snapshot s'
  | (s', None) =>
      s' = sample_state /\
      (lifecycle_held sample_state <> None \/ phase (st_queue sample_state) <> Idle \/
       queue (st_queue sample_state) = [])
  end.
Proof.
  apply (next_prompt_leases_whole_queue sample_pair sample_labels); [discriminate|].
  vm_compute; reflexivity.
Defined.

(** The state after one receipted submission, and after a fence was granted. *)
Definition sample_submitted : @State unit * option Inbox * result string (@Reply unit) :=
  run_or (state_default, None, Err "") (action state_default (sample_submit "c" Queue) None).
Definition sample_reply (x : @State unit * option Inbox * result string (@Reply unit)) : @Reply unit :=
  match snd x with
  | Ok r => r
  | Err _ => ({| receipt_id := None; receipt_cancelled := None; receipt_recalled := None;
                 receipt_state := snapshot (@state_default unit) |}, None, false)
  end.
Definition sample_fenced : @State unit * option Inbox * result string (@Reply unit) :=
  run_or (state_default, None, Err "") (action state_default (AcquireLifecycle 7 false) None).

Lemma submit_idempotent_witness :
  exists s3 res,
    action (fst (fst sample_submitted)) (sample_submit "c" Steer) open_inbox = Ret (s3, open_inbox, res) /\
    st_queue s3 = st_queue (fst (fst sample_submitted)) /\
    accepted s3 = accepted (fst (fst sample_submitted)) /\
    (forall r', res = Ok r' ->
       receipt_id (fst (fst r')) = receipt_id (fst (fst (sample_reply sample_submitted)))).
Proof.
  apply (submit_idempotent sample_pair state_default "c" None (sample_input "c") Queue None None
           (fst (fst sample_submitted)) None (sample_reply sample_submitted) []);
    vm_compute; reflexivity.
Defined.

Lemma lifecycle_fence_holds_witness :
  is_running (st_queue (@state_default unit)) = false /\
  next_prompt (fst (fst sample_fenced)) = (fst (fst sample_fenced), None) /\
  (false = false -> forall a inbox, fences_input a = true ->
     action (fst (fst sample_fenced)) a inbox =
       Ret (fst (fst sample_fenced), inbox,
            Err "Session control is changing; input was not admitted")).
Proof.
  apply (lifecycle_fence_holds sample_pair state_default 7 false None
           (fst (fst sample_fenced)) None (sample_reply sample_fenced) []);
    vm_compute; reflexivity.
Defined.

Definition sample_paused : @State unit :=
  run_or state_default
    (session_run sample_pair state_default
       [LAction (sample_submit "p" Queue) None; LCancel]).

Lemma paused_until_resumed_witness :
  phase (st_queue sample_paused) = Paused /\
  next_prompt sample_paused = (sample_paused, None) /\
  (phase (st_queue (fst (watch_background sample_paused))) = Paused \/
   resumes (@LWatch unit) = true \/
   (ends_turn (@LWatch unit) = true /\ queue (st_queue sample_paused) = [])).
Proof.
  split; [vm_compute; reflexivity|].
  apply (paused_until_resumed sample_pair); [vm_compute; reflexivity|reflexivity].
Defined.
