(* ===== verification/HistoryGraph.v ===== *)
(** * The history graph (runtime/src/session/history.rs, session/history/graph.rs)

    A session's transcript is an append-only log of records.  The graph is the
    fold of that log: message nodes, the continuations ("contexts") that extend
    them, and the completed turns ("commits") that froze a prefix.

    Three things are parameters of the model: the JSON library ([SerdeJson]),
    the session and message codec of runtime/src/session.rs ([SessionCodec]) and
    the SHA-256 digests of serialized records ([HistoryDigests]).  A shared
    chunk ([Arc]) is copied before it is changed ([Arc::make_mut]), so chains are
    values here. *)
From S2P Require Import Prelude.
From stdpp Require Import list.
From S2P Require Import RustStr Json Conversation.

(** ** Records *)

Section Records.
Context `{SerdeJson}.

Record ProjectionMessage := { pm_id : string; pm_message : option Value }.

Inductive HistoryEvent :=
| Initialize (session : Value)
| OpenContext (source_commit : option string)
| OpenCompletedContext
| Message (id : string) (parent_id : option string) (message : Value)
| AssistantUpdate (message_id : string) (message : Value)
| Metadata (metadata : Value)
| ProjectionEvent (metadata : Value) (messages : list ProjectionMessage)
| CommitTurn (trace_id : string).

Record HistoryRecord := {
  rec_version : N;
  rec_id : string;
  rec_context_id : string;
  rec_expected_revision : option string;
  rec_timestamp_ms : N;
  rec_event : HistoryEvent
}.

(** [HistoryRecord::new]; [uuid] and [now] are the random id and the clock. *)
Definition record_new (uuid : string) (now : N) (context_id : string)
  (expected_revision : option string) (event : HistoryEvent) : HistoryRecord :=
  {| rec_version := 3%N; rec_id := uuid; rec_context_id := context_id;
     rec_expected_revision := expected_revision; rec_timestamp_ms := now; rec_event := event |}.

Definition record_branch (uuid uuid_context : string) (now : N) (source_commit : string) :
  HistoryRecord := record_new uuid now uuid_context None (OpenContext (Some source_commit)).
Definition record_branch_latest (uuid uuid_context : string) (now : N) : HistoryRecord :=
  record_new uuid now uuid_context None (OpenContext None).
Definition record_branch_latest_completed (uuid uuid_context : string) (now : N) : HistoryRecord :=
  record_new uuid now uuid_context None OpenCompletedContext.

Definition record_message_id (r : HistoryRecord) : option string :=
  match rec_event r with Message id _ _ => Some id | _ => None end.
End Records.

Inductive RecordOutcome := Applied | Rejected (reason : string).
#[export] Instance RecordOutcome_eq_dec : EqDecision RecordOutcome.
Proof. solve_decision. Defined.

(** ** Interfaces *)

(** The codec of runtime/src/session.rs, and what [HistoryRecord::initialize] reads. *)
Class SessionCodec `{SerdeJson} := {
  Session : Type;
  session_from_value : Value -> result string Session;
  session_id_of : Session -> string;
  session_messages : Session -> list ConversationMessage;
  with_history_head : Session -> option string -> Session;
  message_from_value : Value -> result string ConversationMessage;
  to_value : ConversationMessage -> result string Value;
  identity_value : MessageIdentity -> Value;
  metadata_value : Session -> result string Value
}.

(** SHA-256 over serialized JSON: the digest of a record, and the hexadecimal
    digests that derive the identities of resumed and of legacy messages. *)
Class HistoryDigests `{SerdeJson} := {
  digest : HistoryRecord -> string;
  resume_digest : string -> nat -> string -> string;
  legacy_digest : string -> nat -> Value -> string
}.

(** ** Message chains *)

Inductive MessageChain := Chain (prefix : option MessageChain) (tail : list string).

Definition chain_default : MessageChain := Chain None [].
Definition chain_tail (c : MessageChain) : list string := match c with Chain _ t => t end.

Definition chain_append (c : MessageChain) (id : string) : MessageChain :=
  match c with
  | Chain prefix tail =>
      if length tail =? 64 then Chain (Some c) [id] else Chain prefix (tail ++ [id])
  end.

(** The chunks of [ids], the newest first. *)
Fixpoint chain_chunks (c : MessageChain) : list (list string) :=
  match c with
  | Chain None tail => [tail]
  | Chain (Some prefix) tail => tail :: chain_chunks prefix
  end.
Definition chain_ids (c : MessageChain) : list string := concat (rev (chain_chunks c)).

(** [chain.tail.last()] *)
Definition chain_head (c : MessageChain) : option string := list.last (chain_tail c).

(** ** State *)

Record MessageNode := {
  node_message : ConversationMessage;
  node_parent : option string;
  node_tool_origins : gmap string string
}.

(** How an operation that validates before it changes anything stops early. *)
Inductive Stop :=
| StopReject (reason : string)
| StopInvalid (message : string)
| StopPanic.

Definition invalid {A} (message : string) : result Stop A := Err (StopInvalid message).
Definition rejected {A} (reason : string) : result Stop A := Err (StopReject reason).
(** [?] on an [io::Result] *)
Definition or_invalid {A} (r : result string A) : result Stop A :=
  match r with Ok a => Ok a | Err e => Err (StopInvalid e) end.
(** [let Ok(..) = .. else { return Ok(rejected(reason)) }] *)
Definition or_rejected {A} (reason : string) (r : result string A) : result Stop A :=
  match r with Ok a => Ok a | Err _ => Err (StopReject reason) end.
(** [expect] *)
Definition or_panic {A} (o : option A) : result Stop A :=
  match o with Some a => Ok a | None => Err StopPanic end.
Definition guard_reject (b : bool) (reason : string) : result Stop unit :=
  if b then Err (StopReject reason) else Ok tt.

Section Graph.
Context `{SerdeJson}.

Record Projection := { proj_chain : MessageChain; proj_metadata : Value }.

Record Context := {
  ctx_rev : string;
  ctx_base_commit : string;
  ctx_projection : Projection;
  ctx_unsealed : gset string;
  ctx_open_tools : gmap string string;
  ctx_inherited_unfinished : bool
}.

Record CompletedProjection := { cp_projection : Projection; cp_turn_id : string }.

Record HistoryGraph := {
  g_session_id : option string;
  g_messages : gmap string MessageNode;
  g_contexts : gmap string Context;
  g_commits : gmap string CompletedProjection;
  g_latest_commit : option string;
  g_latest_context : option string;
  g_seen : gmap string (string * RecordOutcome);
  g_parents : gmap string (option string)
}.

Definition graph_default : HistoryGraph :=
  {| g_session_id := None; g_messages := ∅; g_contexts := ∅; g_commits := ∅;
     g_latest_commit := None; g_latest_context := None; g_seen := ∅; g_parents := ∅ |}.
End Graph.

(** ** Validation *)

Definition valid_id (id : string) : bool :=
  negb (is_empty id) && (len id <=? 128)
  && all_bytes (fun b => is_ascii_alphanumeric b || Ascii.eqb b "-" || Ascii.eqb b "_") id.

Fixpoint tool_blocks (r : MessageRole) (assistant_id : string) (bs : list ContentBlock)
  (open origins : gmap string string) (calls : gset string) :
  result string (gmap string string * gmap string string) :=
  match bs with
  | [] => Ok (open, origins)
  | ToolUse id _ _ _ :: rest =>
      if negb (bool_decide (r = RAssistant)) || is_empty id || (512 <? len id)
         || bool_decide (id ∈ calls)
      then Err "invalid or duplicate tool call"
      else if match open !! id with Some origin => negb (String.eqb origin assistant_id) | None => false end
      then Err "tool call identity already pending for another assistant"
      else tool_blocks r assistant_id rest (<[id := assistant_id]> open) origins ({[id]} ∪ calls)
  | ToolResult id _ _ _ :: rest =>
      match r with
      | RAssistant | RSystem => Err "tool result has an invalid speaker role"
      | _ =>
          match open !! id with
          | Some origin =>
              tool_blocks r assistant_id rest (delete id open) (<[id := origin]> origins) calls
          | None => Err "tool result has no open originating assistant"
          end
      end
  | _ :: rest => tool_blocks r assistant_id rest open origins calls
  end.

Definition tool_changes (message : ConversationMessage) (assistant_id : string)
  (open : gmap string string) : result string (gmap string string * gmap string string) :=
  tool_blocks (role message) assistant_id (blocks message) open ∅ ∅.

Section Operations.
Context `{SJ : SerdeJson} `{SC : !SessionCodec} `{HD : !HistoryDigests}.

Definition clear_history (m : ConversationMessage) : ConversationMessage :=
  {| history := None; role := role m; blocks := blocks m; usage := usage m; model := model m;
     duration_ms := duration_ms m |}.

Definition decode_message (value : Value) : result string ConversationMessage :=
  clear_history <$> message_from_value value.

Definition touch (p : Projection) (timestamp : N) : Projection :=
  let before := default 0%N (get (proj_metadata p) "updated_at_ms" ≫= as_u64) in
  {| proj_chain := proj_chain p;
     proj_metadata := set_field (proj_metadata p) "updated_at_ms" (of_u64 (N.max before timestamp)) |}.

Definition metadata_snapshot (metadata source : Value) : result string (option Value) :=
  if negb (is_object metadata)
     || existsb (fun field => negb (bool_decide (get metadata field = get source field)))
          ["session_id"; "created_at_ms"; "identity"]
     || bool_decide (is_Some (get metadata "messages"))
  then Ok None
  else
    _ ← session_from_value (set_field metadata "messages" (of_array []));
    Ok (Some metadata).

Definition is_error_result (b : ContentBlock) : bool :=
  match b with ToolResult _ _ _ true => true | _ => false end.

Fixpoint is_recovery_projection (messages : list ProjectionMessage) (retained : list string) :
  result string bool :=
  match messages with
  | [] => Ok match retained with [] => true | _ => false end
  | entry :: rest =>
      match pm_message entry with
      | Some value =>
          m ← decode_message value;
          if negb (bool_decide (role m = RTool \/ role m = RUser))
             || match blocks m with [] => true | _ => false end
             || negb (forallb is_error_result (blocks m))
          then Ok false
          else is_recovery_projection rest retained
      | None =>
          match retained with
          | id :: retained =>
              if String.eqb id (pm_id entry) then is_recovery_projection rest retained else Ok false
          | [] => Ok false
          end
      end
  end.

(** ** Queries *)

Definition latest_commit (g : HistoryGraph) : option string := g_latest_commit g.
Definition graph_revision (g : HistoryGraph) (context : string) : option string :=
  ctx_rev <$> g_contexts g !! context.
Definition graph_tool_origin (g : HistoryGraph) (message call : string) : option string :=
  node ← g_messages g !! message; node_tool_origins node !! call.
Definition graph_parent (g : HistoryGraph) (message : string) : option string :=
  node ← g_messages g !! message; node_parent node.

Definition outcome (g : HistoryGraph) (record : HistoryRecord) : result string (option RecordOutcome) :=
  match g_seen g !! rec_id record with
  | Some (known, o) =>
      if String.eqb known (digest record) then Ok (Some o)
      else Err "history record ID reused with different contents"
  | None => Ok None
  end.

Definition find_context {A} (g : HistoryGraph) (context : string) (f : Context -> A) : result string A :=
  match g_contexts g !! context with Some c => Ok (f c) | None => Err "context missing" end.

Definition message_ids (g : HistoryGraph) (context : string) : result string (list string) :=
  find_context g context (fun c => chain_ids (proj_chain (ctx_projection c))).
Definition message_head (g : HistoryGraph) (context : string) : result string (option string) :=
  find_context g context (fun c => chain_head (proj_chain (ctx_projection c))).
Definition context_metadata (g : HistoryGraph) (context : string) : result string Value :=
  find_context g context (fun c => proj_metadata (ctx_projection c)).
Definition has_open_tools (g : HistoryGraph) (context : string) : result string bool :=
  find_context g context (fun c => negb (bool_decide (ctx_open_tools c = ∅))).
Definition has_uncommitted_messages (g : HistoryGraph) (context : string) : result string bool :=
  find_context g context (fun c => negb (bool_decide (ctx_unsealed c = ∅))).

(** The loop walks [parents]; the fuel bounds its length. *)
Fixpoint ancestry_from (fuel : nat) (g : HistoryGraph) (next : option string) :
  run (result string (list string)) :=
  match next with
  | None => Ret (Ok [])
  | Some id =>
      match fuel with
      | 0 => NoFuel
      | S fuel =>
          match g_parents g !! id with
          | None => Ret (Err "history revision missing")
          | Some parent =>
              r ← ancestry_from fuel g parent;
              Ret match r with Ok l => Ok (id :: l) | Err e => Err e end
          end
      end
  end.
Definition ancestry (fuel : nat) (g : HistoryGraph) (revision : string) :
  run (result string (list string)) := ancestry_from fuel g (Some revision).

(** ** Opening a context *)

Definition resume_id (context : string) (index : nat) (original : string) : string :=
  ("resume-" ++ resume_digest context index original)%string.

(** The loop that copies a context with uncommitted messages: from the first
    mutable message on, every message gets an identity of its own. *)
Fixpoint copy_tail (messages : gmap string MessageNode) (context : string) (mutable : gset string)
  (originals : list string) (index : nat) (copied : bool) (open : gmap string string)
  (chain : MessageChain) (nodes : list (string * MessageNode)) :
  result Stop (gmap string string * MessageChain * list (string * MessageNode)) :=
  match originals with
  | [] => Ok (open, chain, nodes)
  | original :: rest =>
      node ← or_panic (messages !! original);
      let message := node_message node in
      let copied := copied || bool_decide (original ∈ mutable) in
      let id := if copied then resume_id context index original else original in
      '(open, origins) ← or_invalid (tool_changes message id open);
      _ ← guard_reject (copied && bool_decide (is_Some (messages !! id))) "message_identity_conflict";
      let nodes :=
        if copied then
          nodes ++ [(id, {| node_message := message; node_parent := chain_head chain;
                            node_tool_origins := origins |})]
        else nodes in
      copy_tail messages context mutable rest (S index) copied open (chain_append chain id) nodes
  end.

(** [HashMap::extend] *)
Definition extend_nodes (messages : gmap string MessageNode) (nodes : list (string * MessageNode)) :
  gmap string MessageNode := fold_left (fun m e => <[fst e := snd e]> m) nodes messages.

Definition open_context (g : HistoryGraph) (record : HistoryRecord) (source : option string) :
  result Stop HistoryGraph :=
  _ ← guard_reject (bool_decide (is_Some (g_contexts g !! rec_context_id record)))
        "context_already_exists";
  '(projection, mutable, base_commit, inherited, open) ←
    match source with
    | Some commit =>
        match g_commits g !! commit with
        | None => rejected "source_turn_not_committed"
        | Some src => Ok (cp_projection src, ∅, commit, false, ∅)
        end
    | None =>
        match g_latest_context g ≫= (fun id => g_contexts g !! id) with
        | None => invalid "resume context missing"
        | Some src =>
            Ok (ctx_projection src, ctx_unsealed src, ctx_base_commit src,
                ctx_inherited_unfinished src || negb (bool_decide (ctx_unsealed src = ∅)),
                ctx_open_tools src)
        end
    end;
  '(open, chain, nodes) ←
    (if bool_decide (mutable = ∅) then Ok (open, proj_chain projection, [])
     else copy_tail (g_messages g) (rec_context_id record) mutable (chain_ids (proj_chain projection))
            0 false ∅ chain_default []);
  Ok {| g_session_id := g_session_id g;
        g_messages := extend_nodes (g_messages g) nodes;
        g_contexts := <[rec_context_id record :=
          {| ctx_rev := rec_id record; ctx_base_commit := base_commit;
             ctx_projection := {| proj_chain := chain; proj_metadata := proj_metadata projection |};
             ctx_unsealed := ∅; ctx_open_tools := open; ctx_inherited_unfinished := inherited |}]>
          (g_contexts g);
        g_commits := g_commits g; g_latest_commit := g_latest_commit g;
        g_latest_context := g_latest_context g; g_seen := g_seen g; g_parents := g_parents g |}.

(** ** Initialization *)

Definition legacy_id (session_id : string) (index : nat) (m : ConversationMessage) (value : Value) :
  string :=
  match history m with
  | None => ("legacy-" ++ legacy_digest session_id index value)%string
  | Some identity => identity_id identity
  end.

Fixpoint initial_nodes (session_id : string) (messages : list ConversationMessage) (index : nat)
  (open : gmap string string) (chain : MessageChain) (nodes : gmap string MessageNode) :
  result Stop (gmap string string * MessageChain * gmap string MessageNode) :=
  match messages with
  | [] => Ok (open, chain, nodes)
  | message :: rest =>
      value ← or_invalid (to_value message);
      let id := legacy_id session_id index message value in
      _ ← guard_reject (negb (valid_id id) || bool_decide (is_Some (nodes !! id)))
            "initial_message_identity_conflict";
      '(open, origins) ← or_rejected "initial_tool_association_invalid" (tool_changes message id open);
      value ← or_invalid (to_value message);
      decoded ← or_invalid (decode_message value);
      initial_nodes session_id rest (S index) open (chain_append chain id)
        (<[id := {| node_message := decoded; node_parent := chain_head chain;
                    node_tool_origins := origins |}]> nodes)
  end.

Definition initialize (g : HistoryGraph) (record : HistoryRecord) (value : Value) :
  result Stop HistoryGraph :=
  _ ← guard_reject (bool_decide (is_Some (g_session_id g))) "history_already_initialized";
  session ← or_invalid (session_from_value value);
  _ ← (if negb (valid_id (session_id_of session)) then invalid "invalid durable session identity"
       else Ok tt);
  _ ← (if negb (is_object value) then invalid "session metadata must be an object" else Ok tt);
  let metadata := remove_field value "messages" in
  '(open, chain, nodes) ←
    initial_nodes (session_id_of session) (session_messages session) 0 ∅ chain_default ∅;
  _ ← guard_reject (negb (bool_decide (open = ∅))) "initial_context_has_unfinished_tools";
  let projection := {| proj_chain := chain; proj_metadata := metadata |} in
  Ok {| g_session_id := Some (session_id_of session);
        g_messages := nodes;
        g_contexts := <[rec_context_id record :=
          {| ctx_rev := rec_id record; ctx_base_commit := rec_id record; ctx_projection := projection;
             ctx_unsealed := ∅; ctx_open_tools := ∅; ctx_inherited_unfinished := false |}]>
          (g_contexts g);
        g_commits := <[rec_id record := {| cp_projection := projection; cp_turn_id := rec_id record |}]>
          (g_commits g);
        g_latest_commit := Some (rec_id record);
        g_latest_context := Some (rec_context_id record);
        g_seen := g_seen g; g_parents := g_parents g |}.

(** ** Changing a context: one function per event, from the node table and the
    context to their new values *)

Definition Changed : Type := gmap string MessageNode * Context.

Definition with_projection (c : Context) (p : Projection) : Context :=
  {| ctx_rev := ctx_rev c; ctx_base_commit := ctx_base_commit c; ctx_projection := p;
     ctx_unsealed := ctx_unsealed c; ctx_open_tools := ctx_open_tools c;
     ctx_inherited_unfinished := ctx_inherited_unfinished c |}.
Definition with_unsealed (c : Context) (u : gset string) : Context :=
  {| ctx_rev := ctx_rev c; ctx_base_commit := ctx_base_commit c; ctx_projection := ctx_projection c;
     ctx_unsealed := u; ctx_open_tools := ctx_open_tools c;
     ctx_inherited_unfinished := ctx_inherited_unfinished c |}.
Definition with_open_tools (c : Context) (o : gmap string string) : Context :=
  {| ctx_rev := ctx_rev c; ctx_base_commit := ctx_base_commit c; ctx_projection := ctx_projection c;
     ctx_unsealed := ctx_unsealed c; ctx_open_tools := o;
     ctx_inherited_unfinished := ctx_inherited_unfinished c |}.

Definition change_message (messages : gmap string MessageNode) (c : Context)
  (id : string) (parent_id : option string) (value : Value) : result Stop Changed :=
  let p := ctx_projection c in
  _ ← guard_reject (negb (valid_id id) || bool_decide (is_Some (messages !! id)))
        "message_identity_conflict";
  _ ← guard_reject (negb (bool_decide (parent_id = chain_head (proj_chain p))))
        "message_parent_changed";
  message ← or_invalid (decode_message value);
  '(open, origins) ← or_rejected "tool_association_invalid"
                       (tool_changes message id (ctx_open_tools c));
  Ok (<[id := {| node_message := message; node_parent := parent_id; node_tool_origins := origins |}]>
        messages,
      with_open_tools
        (with_unsealed
           (with_projection c {| proj_chain := chain_append (proj_chain p) id;
                                 proj_metadata := proj_metadata p |})
           ({[id]} ∪ ctx_unsealed c))
        open).

Definition tool_calls (m : ConversationMessage) : list string := omap tool_use_id_of (blocks m).

Definition with_blocks (m : ConversationMessage) (bs : list ContentBlock) : ConversationMessage :=
  {| history := history m; role := role m; blocks := bs; usage := usage m; model := model m;
     duration_ms := duration_ms m |}.

Definition streamed_calls_changed (old new : ConversationMessage) : bool :=
  negb (forallb (fun id => bool_decide (id ∈ tool_calls new)) (tool_calls old))
  || negb (size (list_to_set (tool_calls new) : gset string)
             =? length (List.filter is_tool_use (blocks new)))
  || existsb (fun b => negb (bool_decide (b ∈ blocks new))) (List.filter is_tool_use (blocks old)).

Definition new_call (old_calls : list string) (b : ContentBlock) : bool :=
  match tool_use_id_of b with Some id => negb (bool_decide (id ∈ old_calls)) | None => false end.

Definition change_assistant (messages : gmap string MessageNode) (c : Context)
  (message_id : string) (value : Value) : result Stop Changed :=
  _ ← guard_reject (negb (bool_decide (message_id ∈ ctx_unsealed c)))
        "assistant_already_committed_or_inherited";
  node ← match messages !! message_id with
         | Some node => Ok node
         | None => invalid "assistant update target missing"
         end;
  message ← or_invalid (decode_message value);
  let old := node_message node in
  _ ← guard_reject (negb (bool_decide (role old = RAssistant))
                    || negb (bool_decide (role message = RAssistant)))
        "update_target_is_not_assistant";
  _ ← guard_reject (streamed_calls_changed old message) "streamed_tool_call_changed";
  let additions :=
    with_blocks message (List.filter (new_call (tool_calls old)) (blocks message)) in
  '(open, _) ← or_rejected "tool_association_invalid"
                 (tool_changes additions message_id (ctx_open_tools c));
  Ok (<[message_id := {| node_message := message; node_parent := node_parent node;
                         node_tool_origins := node_tool_origins node |}]> messages,
      with_open_tools c open).

Definition change_metadata (messages : gmap string MessageNode) (c : Context) (metadata : Value) :
  result Stop Changed :=
  m ← or_invalid (metadata_snapshot metadata (proj_metadata (ctx_projection c)));
  match m with
  | None => rejected "metadata_session_identity_changed"
  | Some metadata =>
      Ok (messages, with_projection c {| proj_chain := proj_chain (ctx_projection c);
                                         proj_metadata := metadata |})
  end.

(** The loop over the entries of a projection. *)
Fixpoint project_entries (messages : gmap string MessageNode) (source : gset string)
  (entries : list ProjectionMessage) (ids : gset string) (nodes : list (string * MessageNode))
  (chain : MessageChain) (open : gmap string string) :
  result Stop (gset string * list (string * MessageNode) * MessageChain * gmap string string) :=
  match entries with
  | [] => Ok (ids, nodes, chain, open)
  | entry :: rest =>
      let id := pm_id entry in
      _ ← guard_reject (negb (valid_id id) || bool_decide (id ∈ ids))
            "projection_message_identity_conflict";
      message ← match pm_message entry with
                | Some value =>
                    if bool_decide (is_Some (messages !! id))
                    then rejected "projection_source_message_changed"
                    else or_invalid (decode_message value)
                | None =>
                    if bool_decide (id ∈ source) then node_message <$> or_panic (messages !! id)
                    else rejected "projection_source_message_changed"
                end;
      '(open, origins) ← or_rejected "projection_tool_association_invalid"
                           (tool_changes message id open);
      _ ← match pm_message entry with
          | Some _ => Ok tt
          | None =>
              node ← or_panic (messages !! id);
              guard_reject (negb (bool_decide (node_tool_origins node = origins)))
                "projection_tool_association_changed"
          end;
      let nodes :=
        match pm_message entry with
        | Some _ => nodes ++ [(id, {| node_message := message; node_parent := chain_head chain;
                                      node_tool_origins := origins |})]
        | None => nodes
        end in
      project_entries messages source rest ({[id]} ∪ ids) nodes (chain_append chain id) open
  end.

Definition change_projection (messages : gmap string MessageNode) (c : Context) (metadata : Value)
  (entries : list ProjectionMessage) : result Stop Changed :=
  let source := chain_ids (proj_chain (ctx_projection c)) in
  preserving ← (if bool_decide (ctx_open_tools c = ∅) then Ok true
                else or_invalid (is_recovery_projection entries source));
  _ ← guard_reject (negb preserving) "unfinished_context_requires_preserving_recovery";
  m ← or_invalid (metadata_snapshot metadata (proj_metadata (ctx_projection c)));
  match m with
  | None => rejected "projection_session_identity_changed"
  | Some metadata =>
      '(ids, nodes, chain, open) ←
        project_entries messages (list_to_set source) entries ∅ [] chain_default ∅;
      _ ← guard_reject (negb (bool_decide (open = ∅))) "projection_has_unfinished_tools";
      Ok (extend_nodes messages nodes,
          with_open_tools
            (with_unsealed
               (with_projection c {| proj_chain := chain; proj_metadata := metadata |})
               (list_to_set (map fst nodes) ∪ (ctx_unsealed c ∩ ids)))
            open)
  end.

Definition change_commit (messages : gmap string MessageNode) (c : Context) (trace_id : string) :
  result Stop Changed :=
  _ ← guard_reject (is_empty trace_id || (512 <? len trace_id)) "completed_turn_identity_invalid";
  _ ← guard_reject (negb (bool_decide (ctx_open_tools c = ∅))) "context_has_unfinished_tools";
  Ok (messages, c).

(** [unreachable!()] for the three events [apply] handles itself. *)
Definition change_event (messages : gmap string MessageNode) (c : Context) (event : HistoryEvent) :
  result Stop Changed :=
  match event with
  | Message id parent_id value => change_message messages c id parent_id value
  | AssistantUpdate message_id value => change_assistant messages c message_id value
  | Metadata metadata => change_metadata messages c metadata
  | ProjectionEvent metadata entries => change_projection messages c metadata entries
  | CommitTurn trace_id => change_commit messages c trace_id
  | Initialize _ | OpenContext _ | OpenCompletedContext => Err StopPanic
  end.

(** ** Applying a record *)

Definition is_metadata (e : HistoryEvent) : bool := match e with Metadata _ => true | _ => false end.
Definition is_commit (e : HistoryEvent) : bool := match e with CommitTurn _ => true | _ => false end.
Definition is_refresh (e : HistoryEvent) : bool :=
  match e with Metadata _ | ProjectionEvent _ _ => true | _ => false end.

Definition was_completed (c : Context) : bool :=
  bool_decide (ctx_unsealed c = ∅) && bool_decide (ctx_open_tools c = ∅)
  && negb (ctx_inherited_unfinished c).

(** The context after an accepted event: clock and revision advanced. *)
Definition advance (c : Context) (record : HistoryRecord) : Context :=
  {| ctx_rev := rec_id record; ctx_base_commit := ctx_base_commit c;
     ctx_projection := touch (ctx_projection c) (rec_timestamp_ms record);
     ctx_unsealed := ctx_unsealed c; ctx_open_tools := ctx_open_tools c;
     ctx_inherited_unfinished := ctx_inherited_unfinished c |}.

(** The context after its projection was sealed as a commit. *)
Definition seal (c : Context) (commit : string) (inherited : bool) : Context :=
  {| ctx_rev := ctx_rev c; ctx_base_commit := commit; ctx_projection := ctx_projection c;
     ctx_unsealed := ∅; ctx_open_tools := ctx_open_tools c; ctx_inherited_unfinished := inherited |}.

Definition update_graph (g : HistoryGraph) (messages : gmap string MessageNode)
  (context_id : string) (c : Context) (commits : gmap string CompletedProjection)
  (latest_commit latest_context : option string) : HistoryGraph :=
  {| g_session_id := g_session_id g; g_messages := messages;
     g_contexts := <[context_id := c]> (g_contexts g); g_commits := commits;
     g_latest_commit := latest_commit; g_latest_context := latest_context;
     g_seen := g_seen g; g_parents := g_parents g |}.

(** The second half of [change], after the event was validated and merged into the
    context.  Its only failure comes after the context has been changed. *)
Definition change_finish (g : HistoryGraph) (record : HistoryRecord) (completed : bool)
  (messages : gmap string MessageNode) (c : Context) : HistoryGraph * result string RecordOutcome :=
  let c := advance c record in
  let cid := rec_context_id record in
  let latest_context :=
    if is_metadata (rec_event record) then g_latest_context g else Some cid in
  if is_commit (rec_event record) then
    (update_graph g messages cid (seal c (rec_id record) false)
       (<[rec_id record := {| cp_projection := ctx_projection c; cp_turn_id := rec_id record |}]>
          (g_commits g))
       (Some (rec_id record)) latest_context, Ok Applied)
  else if completed && is_refresh (rec_event record) then
    match g_commits g !! ctx_base_commit c with
    | None =>
        (update_graph g messages cid c (g_commits g) (g_latest_commit g) latest_context,
         Err "completed context source missing")
    | Some base =>
        let turn_id := cp_turn_id base in
        let is_selected_turn :=
          match g_latest_commit g ≫= (fun id => g_commits g !! id) with
          | Some selected => String.eqb (cp_turn_id selected) turn_id
          | None => false
          end in
        (update_graph g messages cid (seal c (rec_id record) (ctx_inherited_unfinished c))
           (<[rec_id record := {| cp_projection := ctx_projection c; cp_turn_id := turn_id |}]>
              (g_commits g))
           (if is_selected_turn then Some (rec_id record) else g_latest_commit g) latest_context,
         Ok Applied)
    end
  else
    (update_graph g messages cid c (g_commits g) (g_latest_commit g) latest_context, Ok Applied).

(** An operation that stopped early left the graph as it was. *)
Definition settle (g : HistoryGraph) (r : result Stop (HistoryGraph * result string RecordOutcome)) :
  run (HistoryGraph * result string RecordOutcome) :=
  match r with
  | Ok x => Ret x
  | Err (StopReject reason) => Ret (g, Ok (Rejected reason))
  | Err (StopInvalid message) => Ret (g, Err message)
  | Err StopPanic => Panic
  end.

Definition change (g : HistoryGraph) (record : HistoryRecord) :
  result Stop (HistoryGraph * result string RecordOutcome) :=
  match g_contexts g !! rec_context_id record with
  | None => rejected "context_missing"
  | Some c =>
      _ ← guard_reject (negb (bool_decide (rec_expected_revision record = Some (ctx_rev c))))
            "context_revision_changed";
      '(messages, c') ← change_event (g_messages g) c (rec_event record);
      Ok (change_finish g record (was_completed c) messages c')
  end.

Definition opens (e : HistoryEvent) : bool :=
  match e with Initialize _ | OpenContext _ | OpenCompletedContext => true | _ => false end.

(** The revision the record continues, as [apply] computes it before dispatching. *)
Definition record_parent (g : HistoryGraph) (record : HistoryRecord) : option string :=
  match rec_event record with
  | Initialize _ => None
  | OpenCompletedContext => g_latest_commit g
  | OpenContext source_commit =>
      match source_commit with
      | Some c => Some c
      | None => g_latest_context g ≫= graph_revision g
      end
  | _ => rec_expected_revision record
  end.

Definition dispatch (g : HistoryGraph) (record : HistoryRecord) :
  result Stop (HistoryGraph * result string RecordOutcome) :=
  match rec_event record with
  | Initialize session => g' ← initialize g record session; Ok (g', Ok Applied)
  | OpenContext source_commit => g' ← open_context g record source_commit; Ok (g', Ok Applied)
  | OpenCompletedContext =>
      source ← match g_latest_commit g with
               | Some c => Ok c
               | None => invalid "no completed context"
               end;
      g' ← open_context g record (Some source); Ok (g', Ok Applied)
  | _ => change g record
  end.

Definition with_parent (g : HistoryGraph) (id : string) (parent : option string) : HistoryGraph :=
  {| g_session_id := g_session_id g; g_messages := g_messages g; g_contexts := g_contexts g;
     g_commits := g_commits g; g_latest_commit := g_latest_commit g;
     g_latest_context := g_latest_context g; g_seen := g_seen g;
     g_parents := <[id := parent]> (g_parents g) |}.
Definition with_seen (g : HistoryGraph) (id dig : string) (o : RecordOutcome) : HistoryGraph :=
  {| g_session_id := g_session_id g; g_messages := g_messages g; g_contexts := g_contexts g;
     g_commits := g_commits g; g_latest_commit := g_latest_commit g;
     g_latest_context := g_latest_context g; g_seen := <[id := (dig, o)]> (g_seen g);
     g_parents := g_parents g |}.

(** The end of [apply]: remember the outcome, and the parent of an applied record. *)
Definition record_outcome (g : HistoryGraph) (record : HistoryRecord) (parent : option string)
  (r : result string RecordOutcome) : HistoryGraph * result string RecordOutcome :=
  match r with
  | Err e => (g, Err e)
  | Ok o =>
      let g := if bool_decide (o = Applied) then with_parent g (rec_id record) parent else g in
      (with_seen g (rec_id record) (digest record) o, Ok o)
  end.

Definition apply (g : HistoryGraph) (record : HistoryRecord) :
  run (HistoryGraph * result string RecordOutcome) :=
  if negb (rec_version record =? 3)%N || negb (valid_id (rec_id record))
     || negb (valid_id (rec_context_id record))
  then Ret (g, Err "unsupported history record version or identity")
  else if bool_decide (is_Some (rec_expected_revision record)) && opens (rec_event record)
  then Ret (g, Err "initialization and context opening cannot replace a revision")
  else
    match outcome g record with
    | Err e => Ret (g, Err e)
    | Ok (Some o) => Ret (g, Ok o)
    | Ok None =>
        '(g', r) ← settle g (dispatch g record);
        Ret (record_outcome g' record (record_parent g record) r)
    end.

(** Folding a log: [apply(&record)?] in a loop stops at the first error. *)
Fixpoint apply_all (g : HistoryGraph) (records : list HistoryRecord) :
  run (HistoryGraph * result string unit) :=
  match records with
  | [] => Ret (g, Ok tt)
  | record :: rest =>
      '(g, r) ← apply g record;
      match r with Ok _ => apply_all g rest | Err e => Ret (g, Err e) end
  end.

(** ** Reading sessions back *)

Fixpoint collect {A} (l : list (result Stop A)) : result Stop (list A) :=
  match l with
  | [] => Ok []
  | Ok a :: rest => l ← collect rest; Ok (a :: l)
  | Err e :: _ => Err e
  end.

Definition message_value (g : HistoryGraph) (id : string) : result Stop Value :=
  node ← or_panic (g_messages g !! id);
  value ← or_invalid (to_value (node_message node));
  Ok (set_field value "history"
        (identity_value {| identity_id := id; identity_parent_id := node_parent node;
                           identity_tool_origins := node_tool_origins node |})).

Definition graph_session (g : HistoryGraph) (p : Projection) : result Stop Session :=
  messages ← collect (map (message_value g) (chain_ids (proj_chain p)));
  or_invalid (session_from_value (set_field (proj_metadata p) "messages" (of_array messages))).

Definition completed_session (g : HistoryGraph) (commit : option string) : result Stop Session :=
  match (match commit with Some c => Some c | None => g_latest_commit g end) with
  | None => invalid "no completed context"
  | Some commit =>
      match g_commits g !! commit with
      | None => invalid "completed context missing"
      | Some cp =>
          session ← graph_session g (cp_projection cp);
          Ok (with_history_head session (Some commit))
      end
  end.

Definition context_session (g : HistoryGraph) (context : string) : result Stop Session :=
  match g_contexts g !! context with
  | None => invalid "context missing"
  | Some c =>
      session ← graph_session g (ctx_projection c);
      Ok (with_history_head session (graph_revision g context))
  end.

Definition resume_session (g : HistoryGraph) : result Stop Session :=
  match g_latest_context g with
  | None => invalid "no resume context"
  | Some c => context_session g c
  end.

(** [find] over a hash map: the order is unspecified; [order] is the one used. *)
Definition revision_session (order : list string) (g : HistoryGraph) (revision : string) :
  result Stop Session :=
  if bool_decide (is_Some (g_commits g !! revision)) then completed_session g (Some revision)
  else
    match List.find (fun id => bool_decide (graph_revision g id = Some revision)) order with
    | None => invalid "history revision has no current context"
    | Some context => context_session g context
    end.

(** ** Preparing records *)

Definition prepare_message (uuid uuid_message : string) (now : N) (g : HistoryGraph)
  (context : string) (message : ConversationMessage) : result Stop HistoryRecord :=
  match g_contexts g !! context with
  | None => invalid "context missing"
  | Some current =>
      let parent_id := chain_head (proj_chain (ctx_projection current)) in
      if match history message with
         | Some identity => negb (bool_decide (identity_parent_id identity = parent_id))
         | None => false
         end
      then invalid "message parent changed"
      else
        value ← or_invalid (to_value message);
        Ok (record_new uuid now context (Some (ctx_rev current))
              (Message (match history message with
                        | Some identity => identity_id identity
                        | None => uuid_message
                        end) parent_id value))
  end.

Definition prepare_metadata (uuid : string) (now : N) (g : HistoryGraph) (context : string)
  (session : Session) : result Stop HistoryRecord :=
  match g_contexts g !! context with
  | None => invalid "context missing"
  | Some current =>
      metadata ← or_invalid (metadata_value session);
      Ok (record_new uuid now context (Some (ctx_rev current)) (Metadata metadata))
  end.

(** The loop of [prepare_projection]; [uuids] supplies the random message ids. *)
Fixpoint bind_messages (uuids : nat -> string) (messages : gmap string MessageNode)
  (source : gset string) (pairs : list (ConversationMessage * option string)) (used : gset string)
  (index : nat) : result Stop (list ProjectionMessage) :=
  match pairs with
  | [] => Ok []
  | (message, retained) :: rest =>
      payload ← or_invalid (to_value message);
      '(entry, used) ←
        match retained with
        | Some id =>
            if bool_decide (id ∈ source) && negb (bool_decide (id ∈ used)) then
              original ← or_panic (messages !! id);
              value ← or_invalid (to_value (node_message original));
              if bool_decide (value = payload)
              then Ok ({| pm_id := id; pm_message := None |}, {[id]} ∪ used)
              else invalid "retained projection message changed"
            else invalid "retained projection message is not a unique source"
        | None =>
            Ok ({| pm_id := match history message with
                            | Some identity => identity_id identity
                            | None => uuids index
                            end;
                   pm_message := Some payload |}, used)
        end;
      entries ← bind_messages uuids messages source rest used (S index);
      Ok (entry :: entries)
  end.

Definition prepare_projection (uuid : string) (uuids : nat -> string) (now : N) (g : HistoryGraph)
  (context source_revision : string) (session : Session) (retained_ids : list (option string)) :
  result Stop HistoryRecord :=
  match g_contexts g !! context with
  | None => invalid "context missing"
  | Some current =>
      if negb (String.eqb (ctx_rev current) source_revision)
      then invalid "compaction source context changed"
      else if negb (length retained_ids =? length (session_messages session))
      then invalid "projection message identity count differs"
      else
        entries ← bind_messages uuids (g_messages g)
                    (list_to_set (chain_ids (proj_chain (ctx_projection current))))
                    (combine (session_messages session) retained_ids) ∅ 0;
        metadata ← or_invalid (metadata_value session);
        Ok (record_new uuid now context (Some source_revision) (ProjectionEvent metadata entries))
  end.
End Operations.
