(* ===== verification/HistoryInvariant.v ===== *)
(** * Correctness of the history graph

    The invariant of a folded log, its preservation by every record, and what
    follows for readers: completed turns never change, replay is idempotent,
    concurrent continuations cannot both win, ancestry is well founded. *)
From S2P Require Import Prelude.
From stdpp Require Import list.
From S2P Require Import RustStr Json Conversation HistoryGraph.

(** ** Chains are lists *)

Fixpoint chain_ok (c : MessageChain) : Prop :=
  match c with
  | Chain None tail => length tail <= 64
  | Chain (Some p) tail => tail <> [] /\ length tail <= 64 /\ chain_ok p
  end.

Lemma chain_ids_append c id : chain_ids (chain_append c id) = chain_ids c ++ [id].
Proof.
  unfold chain_ids. destruct c as [[p|] tail]; cbn [chain_append];
    destruct (length tail =? 64); cbn [chain_chunks rev]; rewrite ?concat_app; cbn;
    by rewrite ?app_nil_r, ?app_assoc.
Qed.

Lemma chain_append_ok c id : chain_ok c -> chain_ok (chain_append c id).
Proof.
  destruct c as [p tail]; cbn [chain_append]. destruct (Nat.eqb_spec (length tail) 64).
  - intros H. cbn. split_and!; [done|lia|done].
  - destruct p as [p|]; cbn; rewrite length_app; cbn; [|lia].
    intros (? & ? & ?). split_and!; [by destruct tail|lia|done].
Qed.

Lemma chain_head_last c : chain_ok c -> chain_head c = list.last (chain_ids c).
Proof.
  unfold chain_head, chain_ids. destruct c as [[p|] tail]; cbn [chain_ok chain_tail chain_chunks rev].
  - intros (Hne & _). rewrite concat_app. cbn. rewrite app_nil_r, last_app.
    destruct (list.last tail) eqn:Hl; [done|]. by apply last_None in Hl.
  - intros _. cbn. by rewrite app_nil_r.
Qed.

Lemma chain_ids_default : chain_ids chain_default = [].
Proof. done. Qed.

(** A message chain of 64-element chunks behaves as the list of its ids: after
    appending [l], [ids] is [l], the cached head is its last element (so the parent of
    the next message is right on every chunk boundary), and no chunk exceeds 64. *)
Theorem message_chain_refines_list (l : list string) :
  let c := fold_left chain_append l chain_default in
  chain_ids c = l /\ chain_head c = list.last l /\ Forall (fun t => length t <= 64) (chain_chunks c).
Proof.
  assert (forall l c, chain_ok c ->
    chain_ids (fold_left chain_append l c) = chain_ids c ++ l /\
    chain_ok (fold_left chain_append l c)) as H.
  { clear. induction l as [|id l IH]; intros c Hc; cbn [fold_left]; [by rewrite app_nil_r|].
    destruct (IH _ (chain_append_ok _ id Hc)) as [-> ?]. split; [|done].
    by rewrite chain_ids_append, <- app_assoc. }
  intros c. destruct (H l chain_default) as [Hids Hok]; [cbn; lia|]. fold c in Hids, Hok.
  rewrite chain_ids_default in Hids. cbn in Hids. split_and!; [done|by rewrite chain_head_last, Hids|].
  revert Hok. generalize c. clear.
  fix IH 1. intros [[p|] tail]; cbn; [|intros Hok; by constructor].
  intros (_ & ? & ?). constructor; [done|by apply IH].
Qed.

#[local] Arguments chain_ids : simpl never.
#[local] Arguments chain_append : simpl never.

(** ** The invariant *)

Section Invariant.
Context `{SJ : SerdeJson} `{SC : !SessionCodec} `{HD : !HistoryDigests}.

Implicit Types g : HistoryGraph.
Implicit Types c : Context.
Implicit Types ms : gmap string MessageNode.

Definition ctx_ids c : list string := chain_ids (proj_chain (ctx_projection c)).
Definition cp_ids (cp : CompletedProjection) : list string :=
  chain_ids (proj_chain (cp_projection cp)).

(** A projection whose messages are all indexed. *)
Definition proj_ok ms (p : Projection) : Prop :=
  chain_ok (proj_chain p) /\ (forall id, id ∈ chain_ids (proj_chain p) -> is_Some (ms !! id)).

Record ctx_ok g c : Prop := {
  co_proj : proj_ok (g_messages g) (ctx_projection c);
  co_unsealed : forall id, id ∈ ctx_unsealed c -> id ∈ ctx_ids c;
  co_base : is_Some (g_commits g !! ctx_base_commit c);
  co_rev : is_Some (g_parents g !! ctx_rev c)
}.

(** Every parent is an earlier applied record. *)
Definition parents_ok (ps : gmap string (option string)) : Prop :=
  exists rank : string -> nat,
    (forall id p, ps !! id = Some p -> rank id < size ps) /\
    (forall id p, ps !! id = Some (Some p) -> is_Some (ps !! p) /\ rank p < rank id).

Record graph_ok g : Prop := {
  go_empty : g_session_id g = None ->
    g_messages g = ∅ /\ g_contexts g = ∅ /\ g_commits g = ∅ /\ g_latest_commit g = None /\
    g_latest_context g = None;
  go_ctx : forall cid c, g_contexts g !! cid = Some c -> ctx_ok g c;
  go_commit : forall id cp, g_commits g !! id = Some cp ->
    proj_ok (g_messages g) (cp_projection cp) /\ is_Some (g_parents g !! id);
  go_separate : forall cid c cid' c', g_contexts g !! cid = Some c -> g_contexts g !! cid' = Some c' ->
    cid <> cid' -> forall id, id ∈ ctx_ids c -> id ∉ ctx_unsealed c';
  go_sealed : forall cm cp cid c, g_commits g !! cm = Some cp -> g_contexts g !! cid = Some c ->
    forall id, id ∈ cp_ids cp -> id ∉ ctx_unsealed c;
  go_latest_commit : forall id, g_latest_commit g = Some id -> is_Some (g_commits g !! id);
  go_latest_context : forall id, g_latest_context g = Some id -> is_Some (g_contexts g !! id);
  go_revisions : forall cid c cid' c', g_contexts g !! cid = Some c -> g_contexts g !! cid' = Some c' ->
    ctx_rev c = ctx_rev c' -> cid = cid';
  go_seen : forall id, is_Some (g_parents g !! id) -> is_Some (g_seen g !! id);
  go_rank : parents_ok (g_parents g)
}.

Lemma graph_default_ok : graph_ok graph_default.
Proof.
  split; cbn; try done; try (intros *; by rewrite lookup_empty).
  exists (fun _ => 0). split; intros *; by rewrite lookup_empty.
Qed.

(** ** What an event does to the nodes and to its own context *)

Record event_ok ms c ms' c' : Prop := {
  ev_keep : forall id n, ms !! id = Some n -> id ∉ ctx_unsealed c -> ms' !! id = Some n;
  ev_grow : forall id, is_Some (ms !! id) -> is_Some (ms' !! id);
  ev_proj : proj_ok ms' (ctx_projection c');
  ev_ids : forall id, id ∈ ctx_ids c' -> id ∈ ctx_ids c \/ ms !! id = None;
  ev_unsealed : forall id, id ∈ ctx_unsealed c' -> id ∈ ctx_unsealed c \/ ms !! id = None;
  ev_unsealed_ids : forall id, id ∈ ctx_unsealed c' -> id ∈ ctx_ids c';
  ev_base : ctx_base_commit c' = ctx_base_commit c
}.

Lemma guard_ok b reason (x : unit) : guard_reject b reason = Ok x -> b = false.
Proof. by destruct b. Qed.

Lemma result_bind_ok {E A B} (m : result E A) (f : A -> result E B) b :
  m ≫= f = Ok b -> exists a, m = Ok a /\ f a = Ok b.
Proof. apply result_bind_Ok. Qed.

Lemma or_rejected_ok {A} reason (r : result string A) a : or_rejected reason r = Ok a -> r = Ok a.
Proof. destruct r; cbn; congruence. Qed.
Lemma or_invalid_ok {A} (r : result string A) a : or_invalid r = Ok a -> r = Ok a.
Proof. destruct r; cbn; congruence. Qed.

Lemma not_some_none {A} (o : option A) : bool_decide (is_Some o) = false -> o = None.
Proof. intros H%bool_decide_eq_false_1. destruct o; [|done]. by destruct H. Qed.

Lemma insert_grow {A} (m : gmap string A) k v id : is_Some (m !! id) -> is_Some (<[k := v]> m !! id).
Proof. intros H. destruct (decide (id = k)) as [->|]; [by rewrite lookup_insert_eq|by rewrite lookup_insert_ne]. Qed.

Lemma proj_ok_mono ms ms' p :
  proj_ok ms p -> (forall id, is_Some (ms !! id) -> is_Some (ms' !! id)) -> proj_ok ms' p.
Proof. intros [? H] Hm. split; [done|]. intros id Hid. by apply Hm, H. Qed.

Lemma event_message ms c id parent value ms' c' :
  proj_ok ms (ctx_projection c) -> (forall id, id ∈ ctx_unsealed c -> id ∈ ctx_ids c) ->
  change_message ms c id parent value = Ok (ms', c') -> event_ok ms c ms' c'.
Proof.
  intros [Hc Hp] Hu Hch. unfold change_message in Hch.
  apply result_bind_ok in Hch as ([] & Hg & Hch). apply guard_ok in Hg. bool_hyps.
  assert (ms !! id = None) as Hfresh by (destruct (ms !! id); [naive_solver|done]).
  apply result_bind_ok in Hch as ([] & _ & Hch).
  apply result_bind_ok in Hch as (message & _ & Hch).
  apply result_bind_ok in Hch as ([open origins] & _ & [= <- <-]).
  split; unfold ctx_ids; cbn.
  - intros id' n Hn _. rewrite lookup_insert_ne; [done|]. congruence.
  - intros id'. apply insert_grow.
  - split; cbn [proj_chain]; [by apply chain_append_ok|]. intros id'. rewrite chain_ids_append.
    intros [Hid| ->%list_elem_of_singleton]%elem_of_app; [by apply insert_grow, Hp|].
    by rewrite lookup_insert_eq.
  - intros id'. rewrite chain_ids_append. set_solver.
  - set_solver.
  - intros id'. rewrite chain_ids_append. intros [->%elem_of_singleton|Hid]%elem_of_union; [set_solver|].
    apply elem_of_app. left. by apply Hu.
  - done.
Qed.

Lemma event_assistant ms c id value ms' c' :
  proj_ok ms (ctx_projection c) -> (forall id, id ∈ ctx_unsealed c -> id ∈ ctx_ids c) ->
  change_assistant ms c id value = Ok (ms', c') -> event_ok ms c ms' c'.
Proof.
  intros Hp Hu Hch. unfold change_assistant in Hch.
  apply result_bind_ok in Hch as ([] & Hg & Hch). apply guard_ok in Hg. bool_hyps.
  apply result_bind_ok in Hch as (node & Hn & Hch).
  destruct (ms !! id) as [n|] eqn:Hid; [|done]. injection Hn as ->.
  apply result_bind_ok in Hch as (message & _ & Hch).
  apply result_bind_ok in Hch as ([] & _ & Hch). apply result_bind_ok in Hch as ([] & _ & Hch).
  apply result_bind_ok in Hch as ([open origins] & _ & [= <- <-]).
  split; unfold ctx_ids; cbn.
  - intros id' n Hn Hns. rewrite lookup_insert_ne; [done|]. intros ->. by apply Hns.
  - intros id'. apply insert_grow.
  - eapply proj_ok_mono; [exact Hp|]. intros id'. apply insert_grow.
  - by left.
  - by left.
  - exact Hu.
  - done.
Qed.

Lemma event_metadata ms c metadata ms' c' :
  proj_ok ms (ctx_projection c) -> (forall id, id ∈ ctx_unsealed c -> id ∈ ctx_ids c) ->
  change_metadata ms c metadata = Ok (ms', c') -> event_ok ms c ms' c'.
Proof.
  intros Hp Hu Hch. unfold change_metadata in Hch.
  apply result_bind_ok in Hch as ([m|] & _ & Hch); [|done]. injection Hch as <- <-.
  split; unfold ctx_ids; cbn; auto.
Qed.

Lemma event_commit ms c trace ms' c' :
  proj_ok ms (ctx_projection c) -> (forall id, id ∈ ctx_unsealed c -> id ∈ ctx_ids c) ->
  change_commit ms c trace = Ok (ms', c') ->
  event_ok ms c ms' c' /\ ctx_open_tools c' = ∅.
Proof.
  intros Hp Hu Hch. unfold change_commit in Hch.
  apply result_bind_ok in Hch as ([] & _ & Hch).
  apply result_bind_ok in Hch as ([] & Hg & [= <- <-]). apply guard_ok in Hg. bool_hyps.
  split; [|done]. split; auto.
Qed.

(** *** Projections *)

Lemma extend_other ms nodes id : id ∉ map fst nodes -> extend_nodes ms nodes !! id = ms !! id.
Proof.
  unfold extend_nodes. revert ms. induction nodes as [|[k n] nodes IH]; intros ms Hid; cbn; [done|].
  rewrite IH by set_solver. rewrite lookup_insert_ne; [done|set_solver].
Qed.

Lemma extend_new ms nodes id : id ∈ map fst nodes -> is_Some (extend_nodes ms nodes !! id).
Proof.
  revert ms. induction nodes as [|[k n] nodes IH]; intros ms Hid; [cbn in Hid; set_solver|].
  change (extend_nodes ms ((k, n) :: nodes)) with (extend_nodes (<[k := n]> ms) nodes). cbn in Hid.
  destruct (decide (id ∈ map fst nodes)) as [Hin|Hout]; [by apply IH|].
  rewrite (extend_other (<[k := n]> ms) nodes id Hout).
  assert (id = k) as -> by set_solver. by rewrite lookup_insert_eq.
Qed.

Lemma extend_grow ms nodes id : is_Some (ms !! id) -> is_Some (extend_nodes ms nodes !! id).
Proof.
  intros Hs. destruct (decide (id ∈ map fst nodes)); [by apply extend_new|by rewrite extend_other].
Qed.

(** The accumulators of [project_entries]. *)
Record entries_ok ms (source ids : gset string) (nodes : list (string * MessageNode))
  (chain : MessageChain) : Prop := {
  en_chain : chain_ok chain;
  en_ids : forall id, id ∈ chain_ids chain <-> id ∈ ids;
  en_from : forall id, id ∈ ids -> id ∈ source \/ id ∈ map fst nodes;
  en_nodes : forall id, id ∈ map fst nodes -> id ∈ ids /\ ms !! id = None
}.

Lemma entries_add ms source ids nodes chain id extra :
  entries_ok ms source ids nodes chain ->
  (extra = [] /\ id ∈ source \/ exists n, extra = [(id, n)] /\ ms !! id = None) ->
  entries_ok ms source ({[id]} ∪ ids) (nodes ++ extra) (chain_append chain id).
Proof.
  intros [Hc Hids Hfrom Hn] Hx. split.
  - by apply chain_append_ok.
  - intros id'. rewrite chain_ids_append. set_solver.
  - intros id'. rewrite map_app. destruct Hx as [[-> ?]|(n & -> & ?)]; cbn; set_solver.
  - intros id'. rewrite map_app. destruct Hx as [[-> ?]|(n & -> & ?)]; cbn.
    + rewrite app_nil_r. intros Hid. destruct (Hn _ Hid). set_solver.
    + intros [Hid| ->%list_elem_of_singleton]%elem_of_app; [destruct (Hn _ Hid); set_solver|set_solver].
Qed.

Lemma project_entries_ok ms source entries ids nodes chain open ids' nodes' chain' open' :
  project_entries ms source entries ids nodes chain open = Ok (ids', nodes', chain', open') ->
  entries_ok ms source ids nodes chain -> entries_ok ms source ids' nodes' chain'.
Proof.
  revert ids nodes chain open. induction entries as [|entry rest IH]; intros ids nodes chain open;
    cbn [project_entries]; [by intros [= <- <- <- <-]|].
  intros Hp Hok. apply result_bind_ok in Hp as ([] & _ & Hp).
  apply result_bind_ok in Hp as (message & Hm & Hp).
  apply result_bind_ok in Hp as ([open1 origins] & _ & Hp).
  apply result_bind_ok in Hp as ([] & _ & Hp).
  eapply IH; [exact Hp|]. destruct (pm_message entry) as [value|].
  - apply entries_add; [done|]. right. eexists. split; [done|].
    destruct (bool_decide (is_Some (ms !! pm_id entry))) eqn:Hb; [done|]. by apply not_some_none.
  - destruct (bool_decide (pm_id entry ∈ source)) eqn:Hb; [|done]. apply bool_decide_eq_true_1 in Hb.
    rewrite <- (app_nil_r nodes). apply entries_add; [done|]. by left.
Qed.

Lemma event_projection ms c metadata entries ms' c' :
  proj_ok ms (ctx_projection c) -> (forall id, id ∈ ctx_unsealed c -> id ∈ ctx_ids c) ->
  change_projection ms c metadata entries = Ok (ms', c') ->
  event_ok ms c ms' c' /\ ctx_open_tools c' = ∅.
Proof.
  intros [_ Hp] Hu Hch. unfold change_projection in Hch.
  apply result_bind_ok in Hch as (preserving & _ & Hch).
  apply result_bind_ok in Hch as ([] & _ & Hch).
  apply result_bind_ok in Hch as ([m|] & _ & Hch); [|done].
  apply result_bind_ok in Hch as ([[[ids nodes] chain] open] & Hen & Hch).
  apply result_bind_ok in Hch as ([] & Hg & [= <- <-]). apply guard_ok in Hg. bool_hyps.
  apply project_entries_ok in Hen as [Hc Hids Hfrom Hn].
  2: { split; [cbn; lia|set_solver|set_solver|set_solver]. }
  assert (forall id, id ∈ map fst nodes -> ms !! id = None) as Hfresh by (intros id ?; by apply Hn).
  split; [|done]. split; unfold ctx_ids; cbn.
  - intros id n Hid _. rewrite extend_other; [done|]. intros Hin. apply Hfresh in Hin. congruence.
  - intros id. apply extend_grow.
  - split; [done|]. intros id Hid. cbn in Hid. apply Hids, Hfrom in Hid as [Hid|Hid].
    + apply extend_grow, Hp. by apply elem_of_list_to_set in Hid.
    + by apply extend_new.
  - intros id Hid. apply Hids, Hfrom in Hid as [Hid|Hid]; [|right; by apply Hfresh].
    left. by apply elem_of_list_to_set in Hid.
  - intros id [Hid%elem_of_list_to_set|[Hid _]%elem_of_intersection]%elem_of_union;
      [right; by apply Hfresh|by left].
  - intros id [Hid%elem_of_list_to_set|[_ Hid]%elem_of_intersection]%elem_of_union; apply Hids;
      [by apply Hn|done].
  - done.
Qed.

Lemma change_event_ok ms c e ms' c' :
  proj_ok ms (ctx_projection c) -> (forall id, id ∈ ctx_unsealed c -> id ∈ ctx_ids c) ->
  change_event ms c e = Ok (ms', c') -> event_ok ms c ms' c'.
Proof.
  intros Hp Hu. destruct e; cbn [change_event]; try done.
  - by apply event_message.
  - by apply event_assistant.
  - by apply event_metadata.
  - intros Hch. by eapply event_projection.
  - intros Hch. by eapply event_commit.
Qed.

(** *** No event panics on an indexed context *)

Definition no_panic {A} (r : result Stop A) : Prop := r <> Err StopPanic.

Lemma no_panic_bind {A B} (m : result Stop A) (f : A -> result Stop B) :
  no_panic m -> (forall a, m = Ok a -> no_panic (f a)) -> no_panic (m ≫= f).
Proof. intros Hm Hf. destruct m as [a|e]; [by apply Hf|]. intros [= ->]. by apply Hm. Qed.

Lemma no_panic_ok {A} (a : A) : no_panic (Ok a).
Proof. done. Qed.
Lemma no_panic_guard b reason : no_panic (guard_reject b reason).
Proof. by destruct b. Qed.
Lemma no_panic_or_invalid {A} (r : result string A) : no_panic (or_invalid r).
Proof. by destruct r. Qed.
Lemma no_panic_or_rejected {A} reason (r : result string A) : no_panic (or_rejected reason r).
Proof. by destruct r. Qed.
Lemma no_panic_rejected {A} reason : no_panic (@rejected A reason).
Proof. done. Qed.
Lemma no_panic_invalid {A} message : no_panic (@invalid A message).
Proof. done. Qed.
Lemma no_panic_or_panic {A} (o : option A) : is_Some o -> no_panic (or_panic o).
Proof. by intros [a ->]. Qed.
Lemma no_panic_fmap {A B} (f : A -> B) (m : result Stop A) : no_panic m -> no_panic (f <$> m).
Proof. destruct m; cbn; [done|]. intros H [= ->]. by apply H. Qed.

#[local] Hint Resolve no_panic_ok no_panic_guard no_panic_or_invalid no_panic_or_rejected
  no_panic_rejected no_panic_invalid no_panic_or_panic no_panic_fmap : rust.

(** Walks a monadic operation; what remains are the [expect]s. *)
Ltac no_panic_steps :=
  repeat match goal with
  | |- no_panic (_ ≫= _) => apply no_panic_bind; [|intros ?; intros ?]
  | |- no_panic (match ?x with _ => _ end) => destruct x eqn:?
  | |- no_panic _ => solve [auto with rust]
  end.

Lemma project_entries_no_panic ms (source : gset string) entries ids nodes chain open :
  (forall id, id ∈ source -> is_Some (ms !! id)) ->
  no_panic (project_entries ms source entries ids nodes chain open).
Proof.
  intros Hs. revert ids nodes chain open. induction entries as [|entry rest IH];
    intros ids nodes chain open; cbn [project_entries]; [apply no_panic_ok|].
  destruct (pm_message entry) as [value|]; no_panic_steps; try apply IH; bool_hyps.
  - apply no_panic_fmap, no_panic_or_panic, Hs. done.
  - apply no_panic_or_panic, Hs.
    match goal with Hx : (if ?b then _ else _) = Ok _ |- _ => destruct b eqn:Hb; [|done] end. by bool_hyps.
Qed.

Lemma is_recovery_projection_total entries retained :
  no_panic (or_invalid (is_recovery_projection entries retained)).
Proof. apply no_panic_or_invalid. Qed.

Lemma change_event_no_panic ms c e :
  proj_ok ms (ctx_projection c) -> opens e = false -> no_panic (change_event ms c e).
Proof.
  intros [_ Hp] Ho. destruct e; try done; cbn [change_event].
  - unfold change_message. no_panic_steps.
  - unfold change_assistant. no_panic_steps.
  - unfold change_metadata. no_panic_steps.
  - unfold change_projection. no_panic_steps.
    apply project_entries_no_panic. intros id Hid. apply Hp. by apply elem_of_list_to_set in Hid.
  - unfold change_commit. no_panic_steps.
Qed.

(** *** Preservation *)

Lemma parents_ok_insert ps id parent :
  parents_ok ps -> ps !! id = None -> (forall p, parent = Some p -> is_Some (ps !! p)) ->
  parents_ok (<[id := parent]> ps).
Proof.
  intros (rank & Hsize & Hrank) Hfresh Hparent.
  exists (fun x => if bool_decide (x = id) then size ps else rank x).
  rewrite map_size_insert_None by done. split.
  - intros x p [[<- <-]|[Hne Hx]]%lookup_insert_Some.
    + rewrite bool_decide_eq_true_2 by done. lia.
    + rewrite bool_decide_eq_false_2 by done. specialize (Hsize _ _ Hx). lia.
  - intros x p [[<- Hp]|[Hne Hx]]%lookup_insert_Some.
    + destruct (Hparent p Hp) as [y Hy]. assert (p <> id) as Hpid by congruence.
      rewrite lookup_insert_ne by done. split; [by eexists|].
      rewrite bool_decide_eq_false_2, bool_decide_eq_true_2 by done. by eapply Hsize.
    + destruct (Hrank _ _ Hx) as [[y Hy] Hlt]. assert (p <> id) as Hpid by congruence.
      rewrite lookup_insert_ne by done. split; [by eexists|].
      by rewrite !bool_decide_eq_false_2 by done.
Qed.

Lemma parents_fresh g id : graph_ok g -> g_seen g !! id = None -> g_parents g !! id = None.
Proof.
  intros Hg Hs. destruct (g_parents g !! id) eqn:Hp; [|done].
  destruct (go_seen _ Hg id) as [x Hx]; [by eexists|]. congruence.
Qed.

Lemma commits_fresh g id : graph_ok g -> g_seen g !! id = None -> g_commits g !! id = None.
Proof.
  intros Hg Hs. destruct (g_commits g !! id) eqn:Hc; [|done].
  apply (go_commit _ Hg) in Hc as [_ [p Hp]]. by rewrite (parents_fresh g id Hg Hs) in Hp.
Qed.

Lemma unsealed_indexed g cid c id :
  graph_ok g -> g_contexts g !! cid = Some c -> id ∈ ctx_unsealed c -> is_Some (g_messages g !! id).
Proof.
  intros Hg Hc Hid. destruct (go_ctx _ Hg _ _ Hc) as [[_ Hp] Hu _ _]. by apply Hp, Hu.
Qed.

Lemma ctx_ok_mono g g' c :
  ctx_ok g c ->
  (forall id, is_Some (g_messages g !! id) -> is_Some (g_messages g' !! id)) ->
  (forall id, is_Some (g_commits g !! id) -> is_Some (g_commits g' !! id)) ->
  (forall id, is_Some (g_parents g !! id) -> is_Some (g_parents g' !! id)) ->
  ctx_ok g' c.
Proof. intros [? ? ? ?] Hm Hc Hp. split; [by eapply proj_ok_mono|done|auto|auto]. Qed.

(** Settling a record under a fresh id, for a graph whose contexts gained or
    replaced the one named [cid] by [c'], continuing [parent]. *)
Definition settled g (rid dig : string) (parent : option string) : HistoryGraph :=
  with_seen (with_parent g rid parent) rid dig Applied.

Lemma settled_ok g rid dig parent cid c' ms' commits' lc lx sid :
  graph_ok g -> g_seen g !! rid = None -> sid <> None ->
  (forall p, parent = Some p -> is_Some (g_parents g !! p)) ->
  (forall id, is_Some (g_messages g !! id) -> is_Some (ms' !! id)) ->
  proj_ok ms' (ctx_projection c') -> (forall id, id ∈ ctx_unsealed c' -> id ∈ ctx_ids c') ->
  is_Some (commits' !! ctx_base_commit c') -> ctx_rev c' = rid ->
  (forall cid1 c1 id, cid1 <> cid -> g_contexts g !! cid1 = Some c1 -> id ∈ ctx_ids c' ->
     id ∉ ctx_unsealed c1) ->
  (forall cid1 c1 id, cid1 <> cid -> g_contexts g !! cid1 = Some c1 -> id ∈ ctx_ids c1 ->
     id ∉ ctx_unsealed c') ->
  (forall cm cp id, g_commits g !! cm = Some cp -> id ∈ cp_ids cp -> id ∉ ctx_unsealed c') ->
  (commits' = g_commits g \/
   exists cp, commits' = <[rid := cp]> (g_commits g) /\
     proj_chain (cp_projection cp) = proj_chain (ctx_projection c') /\ ctx_unsealed c' = ∅) ->
  (forall id, lc = Some id -> is_Some (commits' !! id)) ->
  (forall id, lx = Some id -> is_Some (<[cid := c']> (g_contexts g) !! id)) ->
  graph_ok (settled {| g_session_id := sid; g_messages := ms';
    g_contexts := <[cid := c']> (g_contexts g); g_commits := commits'; g_latest_commit := lc;
    g_latest_context := lx; g_seen := g_seen g; g_parents := g_parents g |} rid dig parent).
Proof.
  intros Hg Hfresh Hsid Hparent Hms Hproj Hun Hbase Hrev Hsep1 Hsep2 Hseal Hcommits Hlc Hlx.
  pose proof (parents_fresh g rid Hg Hfresh) as Hpf.
  assert (forall id, is_Some (g_commits g !! id) -> is_Some (commits' !! id)) as Hcg.
  { intros id Hid. destruct Hcommits as [->|(cp & -> & _)]; [done|by apply insert_grow]. }
  split; cbn.
  - done.
  - intros cid1 c1 [[<- <-]|[Hne Hc1]]%lookup_insert_Some.
    + split; cbn; [done|done|done|]. rewrite Hrev, lookup_insert_eq. done.
    + eapply ctx_ok_mono; [by eapply go_ctx|done|done|]. intros id. apply insert_grow.
  - assert (forall id cp, g_commits g !! id = Some cp ->
      proj_ok ms' (cp_projection cp) /\ is_Some (<[rid := parent]> (g_parents g) !! id)) as Hold.
    { intros id cp Hcp. destruct (go_commit _ Hg _ _ Hcp) as [? ?].
      split; [by eapply proj_ok_mono|by apply insert_grow]. }
    intros id cp Hcp. destruct Hcommits as [->|(cp' & -> & Hch & _)]; [by apply Hold|].
    apply lookup_insert_Some in Hcp as [[<- <-]|[_ Hcp]]; [|by apply Hold].
    split; [|by rewrite lookup_insert_eq]. unfold proj_ok. by rewrite Hch.
  - intros cid1 c1 cid2 c2 [[<- <-]|[Hne1 Hc1]]%lookup_insert_Some
      [[<- <-]|[Hne2 Hc2]]%lookup_insert_Some Hd id Hid; [done|..].
    + eapply Hsep1; [|done|done]. congruence.
    + eapply Hsep2; [|done|done]. congruence.
    + by eapply (go_separate _ Hg cid1 c1 cid2 c2).
  - intros cm cp cid1 c1 Hcp [[<- <-]|[Hne Hc1]]%lookup_insert_Some id Hid;
      (destruct Hcommits as [->|(cp' & -> & Hch & Hu)]; [|apply lookup_insert_Some in Hcp as [[<- <-]|[_ Hcp]]]).
    + by eapply Hseal.
    + rewrite Hu. apply not_elem_of_empty.
    + rewrite Hu. apply not_elem_of_empty.
    + by eapply (go_sealed _ Hg cm cp).
    + eapply Hsep1; [by apply not_eq_sym|done|]. unfold cp_ids in Hid. unfold ctx_ids. by rewrite <- Hch.
    + by eapply (go_sealed _ Hg cm cp).
  - done.
  - done.
  - intros cid1 c1 cid2 c2 [[<- <-]|[Hne1 Hc1]]%lookup_insert_Some
      [[<- <-]|[Hne2 Hc2]]%lookup_insert_Some Heq; [done|..].
    + destruct (co_rev _ _ (go_ctx _ Hg _ _ Hc2)) as [x Hx]. congruence.
    + destruct (co_rev _ _ (go_ctx _ Hg _ _ Hc1)) as [x Hx]. congruence.
    + by eapply (go_revisions _ Hg).
  - intros id [p Hp]. apply lookup_insert_Some in Hp as [[<- _]|[Hne Hp]].
    + by rewrite lookup_insert_eq.
    + apply insert_grow, (go_seen _ Hg). by eexists.
  - by apply parents_ok_insert; [apply Hg| |].
Qed.

(** What readers of completed turns, ancestry and outcomes rely on. *)
Record evolves g g' : Prop := {
  ev_commits : forall cm cp, g_commits g !! cm = Some cp -> g_commits g' !! cm = Some cp;
  ev_messages : forall cm cp id, g_commits g !! cm = Some cp -> id ∈ cp_ids cp ->
    g_messages g' !! id = g_messages g !! id;
  ev_parents : forall id p, g_parents g !! id = Some p -> g_parents g' !! id = Some p;
  ev_seen : forall id x, g_seen g !! id = Some x -> g_seen g' !! id = Some x
}.

Lemma evolves_refl g : evolves g g.
Proof. by split. Qed.

Lemma evolves_trans g1 g2 g3 : evolves g1 g2 -> evolves g2 g3 -> evolves g1 g3.
Proof.
  intros [C1 M1 P1 S1] [C2 M2 P2 S2]. split; eauto.
  intros cm cp id Hcm Hid. rewrite (M2 cm cp id), (M1 cm cp id); auto.
Qed.

Lemma with_seen_ok g rid dig o :
  graph_ok g -> g_seen g !! rid = None ->
  graph_ok (with_seen g rid dig o) /\ evolves g (with_seen g rid dig o).
Proof.
  intros Hg Hf. split.
  - destruct Hg. split; cbn; try done.
    + intros cid c Hc. by eapply ctx_ok_mono; [by eapply go_ctx0|auto..].
    + intros id Hp. apply insert_grow. by apply go_seen0.
  - split; cbn; try done. intros id x Hx. rewrite lookup_insert_ne; [done|]. congruence.
Qed.

(** A settled graph evolves the one before when messages and commits do. *)
Lemma settled_evolves g g1 rid dig parent :
  graph_ok g -> g_seen g !! rid = None ->
  g_seen g1 = g_seen g -> g_parents g1 = g_parents g ->
  (forall cm cp, g_commits g !! cm = Some cp -> g_commits g1 !! cm = Some cp) ->
  (forall cm cp id, g_commits g !! cm = Some cp -> id ∈ cp_ids cp ->
     g_messages g1 !! id = g_messages g !! id) ->
  evolves g (settled g1 rid dig parent).
Proof.
  intros Hg Hf Hs Hp Hc Hm. split; cbn; [done|done| |].
  - intros id p Hid. rewrite Hp, lookup_insert_ne; [done|].
    intros <-. by rewrite (parents_fresh g rid Hg Hf) in Hid.
  - intros id x Hid. rewrite Hs, lookup_insert_ne; [done|]. congruence.
Qed.

Lemma session_initialized g cid c : graph_ok g -> g_contexts g !! cid = Some c -> g_session_id g <> None.
Proof.
  intros Hg Hc Hn. destruct (go_empty _ Hg Hn) as (_ & Hempty & _).
  by rewrite Hempty, lookup_empty in Hc.
Qed.

Lemma touch_chain p t : proj_chain (touch p t) = proj_chain p.
Proof. done. Qed.

(** Messages a commit lists are untouched by an event of an existing context. *)
Lemma event_keeps_commits g cid c ms' c' :
  graph_ok g -> g_contexts g !! cid = Some c -> event_ok (g_messages g) c ms' c' ->
  forall cm cp id, g_commits g !! cm = Some cp -> id ∈ cp_ids cp -> ms' !! id = g_messages g !! id.
Proof.
  intros Hg Hc He cm cp id Hcm Hid.
  destruct (go_commit _ Hg _ _ Hcm) as [[_ Hp] _]. destruct (Hp id Hid) as [n Hn]. rewrite Hn.
  apply (ev_keep _ _ _ _ He _ _ Hn). by eapply (go_sealed _ Hg).
Qed.

(** The side conditions about an empty set of mutable messages. *)
Ltac sealed_side :=
  first [ intros ? Hin; by apply elem_of_empty in Hin
        | intros; apply not_elem_of_empty ].

Lemma change_ok g record g' r dig :
  graph_ok g -> g_seen g !! rec_id record = None -> change g record = Ok (g', r) ->
  r = Ok Applied /\
  graph_ok (settled g' (rec_id record) dig (rec_expected_revision record)) /\
  evolves g (settled g' (rec_id record) dig (rec_expected_revision record)) /\
  exists c c', g_contexts g !! rec_context_id record = Some c /\
    rec_expected_revision record = Some (ctx_rev c) /\
    g_contexts g' = <[rec_context_id record := c']> (g_contexts g) /\ ctx_rev c' = rec_id record.
Proof.
  intros Hg Hfresh Hch. unfold change in Hch.
  destruct (g_contexts g !! rec_context_id record) as [c|] eqn:Hc; [|done].
  apply result_bind_ok in Hch as ([] & Hrev & Hch). apply guard_ok in Hrev. bool_hyps.
  apply result_bind_ok in Hch as ([ms' c1] & Hev & Hch). injection Hch as Hch.
  pose proof (go_ctx _ Hg _ _ Hc) as [Hproj Hun Hbase Hcrev].
  apply change_event_ok in Hev; [|done|done]. destruct Hev as [Hkeep Hgrow Hp' Hids Huns Hui Hb].
  pose proof (event_keeps_commits g _ _ _ _ Hg Hc (Build_event_ok _ _ _ _ Hkeep Hgrow Hp' Hids Huns Hui Hb)) as Hmsg.
  assert (forall cid1 c2 id, cid1 <> rec_context_id record -> g_contexts g !! cid1 = Some c2 ->
    id ∈ ctx_ids c1 -> id ∉ ctx_unsealed c2) as Hsep1.
  { intros cid1 c2 id Hne Hc2 Hid Hin. destruct (Hids _ Hid) as [Hold|Hnew].
    - by eapply (go_separate _ Hg _ _ _ _ Hc Hc2 (not_eq_sym Hne) id).
    - destruct (unsealed_indexed g cid1 c2 id Hg Hc2 Hin) as [n Hn]. congruence. }
  assert (forall cid1 c2 id, cid1 <> rec_context_id record -> g_contexts g !! cid1 = Some c2 ->
    id ∈ ctx_ids c2 -> id ∉ ctx_unsealed c1) as Hsep2.
  { intros cid1 c2 id Hne Hc2 Hid Hin. destruct (Huns _ Hin) as [Hold|Hnew].
    - by eapply (go_separate _ Hg _ _ _ _ Hc2 Hc Hne id).
    - destruct (co_proj _ _ (go_ctx _ Hg _ _ Hc2)) as [_ Hi]. destruct (Hi id Hid) as [n Hn]. congruence. }
  assert (forall cm cp id, g_commits g !! cm = Some cp -> id ∈ cp_ids cp -> id ∉ ctx_unsealed c1) as Hseal.
  { intros cm cp id Hcm Hid Hin. destruct (Huns _ Hin) as [Hold|Hnew].
    - by eapply (go_sealed _ Hg cm cp _ _ Hcm Hc).
    - destruct (go_commit _ Hg _ _ Hcm) as [[_ Hi] _]. destruct (Hi id Hid) as [n Hn]. congruence. }
  rewrite <- Hb in Hbase.
  assert (forall p : string, rec_expected_revision record = Some p -> is_Some (g_parents g !! p)) as Hpar
    by (intros p Hp; congruence).
  pose proof (session_initialized g _ _ Hg Hc) as Hsid.
  pose proof (commits_fresh g _ Hg Hfresh) as Hcf.
  assert (forall (lx : option string) (c2 : Context),
    (lx = g_latest_context g \/ lx = Some (rec_context_id record)) -> forall id, lx = Some id ->
    is_Some (<[rec_context_id record := c2]> (g_contexts g) !! id)) as Hlx.
  { intros lx c2 [->| ->] id Hid; [by apply insert_grow, (go_latest_context _ Hg)|].
    injection Hid as <-. by rewrite lookup_insert_eq. }
  assert (forall cm cp x, g_commits g !! cm = Some cp ->
    <[rec_id record := x]> (g_commits g) !! cm = Some cp) as Hci
    by (intros cm cp x Hcm; rewrite lookup_insert_ne; [done|congruence]).
  set (lx := if is_metadata (rec_event record) then g_latest_context g else Some (rec_context_id record)) in *.
  assert (lx = g_latest_context g \/ lx = Some (rec_context_id record)) as Hlx'
    by (unfold lx; case_goal; auto).
  unfold change_finish in Hch. fold lx in Hch.
  destruct (is_commit (rec_event record)).
  { injection Hch as <- <-. split_and!; [done| | |].
    - apply settled_ok; cbn; try done; try (by rewrite lookup_insert_eq); try sealed_side.
      + right. by eexists.
      + intros id [= <-]. by rewrite lookup_insert_eq.
      + by apply Hlx.
    - apply settled_evolves; cbn; auto.
    - eexists _, _. by split_and!. }
  destruct (was_completed c && is_refresh (rec_event record)).
  { cbn [advance ctx_base_commit] in Hch.
    destruct (g_commits g !! ctx_base_commit c1) as [base|] eqn:Hbc; [|by destruct Hbase].
    injection Hch as <- <-. split_and!; [done| | |].
    - apply settled_ok; cbn; try done; try (by rewrite lookup_insert_eq); try sealed_side.
      + right. by eexists.
      + intros id. destruct (match _ with Some _ => _ | None => _ end).
        * intros [= <-]. by rewrite lookup_insert_eq.
        * intros Hid. by apply insert_grow, (go_latest_commit _ Hg).
      + by apply Hlx.
    - apply settled_evolves; cbn; auto.
    - eexists _, _. by split_and!. }
  injection Hch as <- <-. split_and!; [done| | |].
  - apply settled_ok; cbn; try done.
    + by left.
    + apply (go_latest_commit _ Hg).
    + by apply Hlx.
  - apply settled_evolves; cbn; auto.
  - eexists _, _. by split_and!.
Qed.

(** *** Opening a context *)

(** The accumulators of [copy_tail]: every id of the new chain is either a message
    the source context can no longer change, or new. *)
Record copy_ok ms (mutable : gset string) (originals : list string)
  (chain : MessageChain) (nodes : list (string * MessageNode)) : Prop := {
  cy_chain : chain_ok chain;
  cy_ids : forall id, id ∈ chain_ids chain ->
    (id ∈ originals /\ id ∉ mutable) \/ id ∈ map fst nodes;
  cy_nodes : forall id, id ∈ map fst nodes -> ms !! id = None
}.

Lemma copy_tail_ok ms context mutable all originals index copied open chain nodes open' chain' nodes' :
  (forall id, id ∈ originals -> id ∈ all) ->
  copy_tail ms context mutable originals index copied open chain nodes = Ok (open', chain', nodes') ->
  copy_ok ms mutable all chain nodes -> copy_ok ms mutable all chain' nodes'.
Proof.
  revert index copied open chain nodes. induction originals as [|original rest IH];
    intros index copied open chain nodes Hall; cbn [copy_tail]; [by intros [= <- <- <-]|].
  intros Hcp Hok. apply result_bind_ok in Hcp as (node & _ & Hcp).
  apply result_bind_ok in Hcp as ([open1 origins] & _ & Hcp).
  apply result_bind_ok in Hcp as ([] & Hg & Hcp). apply guard_ok in Hg.
  eapply IH; [|exact Hcp|]; [intros id ?; apply Hall; set_solver|].
  destruct Hok as [Hc Hids Hn].
  destruct (copied || bool_decide (original ∈ mutable)) eqn:Hcopy; cbn in Hg.
  - apply not_some_none in Hg. split.
    + by apply chain_append_ok.
    + intros id. rewrite chain_ids_append, map_app. cbn. specialize (Hids id). set_solver.
    + intros id. rewrite map_app. cbn.
      intros [Hid| ->%list_elem_of_singleton]%elem_of_app; [by apply Hn|done].
  - apply orb_false_iff in Hcopy as [_ Hm]. apply bool_decide_eq_false_1 in Hm. split.
    + by apply chain_append_ok.
    + intros id. rewrite chain_ids_append. specialize (Hids id).
      intros [Hid| ->%list_elem_of_singleton]%elem_of_app; [by apply Hids|]. left.
      split; [|done]. apply Hall. set_solver.
    + done.
Qed.

Lemma open_context_ok g record source g1 dig parent :
  graph_ok g -> g_seen g !! rec_id record = None ->
  (forall p, parent = Some p -> is_Some (g_parents g !! p)) ->
  open_context g record source = Ok g1 ->
  graph_ok (settled g1 (rec_id record) dig parent) /\
  evolves g (settled g1 (rec_id record) dig parent) /\
  g_contexts g !! rec_context_id record = None /\
  exists c', g_contexts g1 = <[rec_context_id record := c']> (g_contexts g) /\
    ctx_rev c' = rec_id record /\ ctx_unsealed c' = ∅.
Proof.
  intros Hg Hfresh Hpar Hop. unfold open_context in Hop.
  apply result_bind_ok in Hop as ([] & Hcid & Hop). apply guard_ok, not_some_none in Hcid.
  apply result_bind_ok in Hop as ([[[[projection mutable] base] inherited] open] & Hsrc & Hop).
  apply result_bind_ok in Hop as ([[open1 chain] nodes] & Hcopy & [= <-]).
  (* the source is an indexed projection whose other messages nobody can change *)
  assert (proj_ok (g_messages g) projection /\ is_Some (g_commits g !! base) /\
    g_session_id g <> None /\
    (forall cid c id, g_contexts g !! cid = Some c -> id ∈ chain_ids (proj_chain projection) ->
       id ∉ mutable -> id ∉ ctx_unsealed c)) as (Hproj & Hbase & Hsid & Hsafe).
  { destruct source as [cm|].
    - destruct (g_commits g !! cm) as [cp|] eqn:Hcm; [|done]. injection Hsrc as <- <- <- <- <-.
      destruct (go_commit _ Hg _ _ Hcm) as [? _]. split_and!; [done|by rewrite Hcm| |].
      + intros Hn. destruct (go_empty _ Hg Hn) as (_ & _ & Hempty & _).
        by rewrite Hempty, lookup_empty in Hcm.
      + intros cid c id Hc Hid _. by eapply (go_sealed _ Hg cm cp).
    - destruct (g_latest_context g ≫= fun id => g_contexts g !! id) as [src|] eqn:Hl; [|done].
      injection Hsrc as <- <- <- <- <-. destruct (g_latest_context g) as [lid|]; [|done]. cbn in Hl.
      destruct (go_ctx _ Hg _ _ Hl) as [Hp Hu Hb _]. split_and!; [done|done| |].
      + by eapply session_initialized.
      + intros cid c id Hc Hid Hm Hin. destruct (decide (lid = cid)) as [<-|Hne]; [congruence|].
        by eapply (go_separate _ Hg lid src cid c). }
  assert (copy_ok (g_messages g) mutable (chain_ids (proj_chain projection)) chain nodes) as Hok.
  { destruct (bool_decide (mutable = ∅)) eqn:Hm.
    - injection Hcopy as <- <- <-. apply bool_decide_eq_true_1 in Hm as ->. destruct Hproj.
      split; [done| |set_solver]. intros id Hid. left. split; [done|apply not_elem_of_empty].
    - eapply copy_tail_ok; [|exact Hcopy|]; [done|]. split; [cbn; lia|set_solver|set_solver]. }
  destruct Hok as [Hchain Hids Hnodes].
  assert (forall cid c id, g_contexts g !! cid = Some c -> id ∈ chain_ids chain ->
    id ∉ ctx_unsealed c) as Hsep.
  { intros cid c id Hc Hid Hin. destruct (Hids _ Hid) as [[Hold Hm]|Hnew].
    - by eapply Hsafe.
    - destruct (unsealed_indexed g cid c id Hg Hc Hin) as [n Hn]. rewrite (Hnodes _ Hnew) in Hn. done. }
  split_and!; [| |done|eexists; by split_and!].
  - apply settled_ok; cbn; try done; try sealed_side.
    + intros id. apply extend_grow.
    + split; cbn; [done|]. intros id Hid. destruct (Hids _ Hid) as [[Hold _]|Hnew].
      * apply extend_grow. by apply Hproj.
      * by apply extend_new.
    + intros cid1 c1 id _ Hc1 Hid. by eapply Hsep.
    + by left.
    + apply (go_latest_commit _ Hg).
    + intros id Hid. by apply insert_grow, (go_latest_context _ Hg).
  - apply settled_evolves; cbn; auto. intros cm cp id Hcm Hid. apply extend_other.
    intros Hin. destruct (go_commit _ Hg _ _ Hcm) as [[_ Hi] _]. destruct (Hi id Hid) as [n Hn].
    rewrite (Hnodes _ Hin) in Hn. done.
Qed.

(** *** Initialization *)

Lemma initial_nodes_ok sid messages index open chain nodes open' chain' nodes' :
  initial_nodes sid messages index open chain nodes = Ok (open', chain', nodes') ->
  chain_ok chain -> (forall id, id ∈ chain_ids chain -> is_Some (nodes !! id)) ->
  chain_ok chain' /\ (forall id, id ∈ chain_ids chain' -> is_Some (nodes' !! id)).
Proof.
  revert index open chain nodes. induction messages as [|message rest IH];
    intros index open chain nodes; cbn [initial_nodes]; [by intros [= <- <- <-]|].
  intros Hi Hc Hn. apply result_bind_ok in Hi as (value & _ & Hi).
  apply result_bind_ok in Hi as ([] & _ & Hi). apply result_bind_ok in Hi as ([open1 origins] & _ & Hi).
  apply result_bind_ok in Hi as (value2 & _ & Hi). apply result_bind_ok in Hi as (decoded & _ & Hi).
  eapply IH; [exact Hi|by apply chain_append_ok|]. intros id. rewrite chain_ids_append.
  intros [Hid| ->%list_elem_of_singleton]%elem_of_app; [by apply insert_grow, Hn|].
  by rewrite lookup_insert_eq.
Qed.

Lemma initialize_ok g record value g1 dig :
  graph_ok g -> g_seen g !! rec_id record = None -> initialize g record value = Ok g1 ->
  graph_ok (settled g1 (rec_id record) dig None) /\
  evolves g (settled g1 (rec_id record) dig None) /\
  g_contexts g = ∅ /\
  exists c', g_contexts g1 = <[rec_context_id record := c']> (g_contexts g) /\
    ctx_rev c' = rec_id record /\ ctx_unsealed c' = ∅.
Proof.
  intros Hg Hfresh Hin. unfold initialize in Hin.
  apply result_bind_ok in Hin as ([] & Hs & Hin). apply guard_ok, not_some_none in Hs.
  destruct (go_empty _ Hg Hs) as (Hms & Hctx & Hcm & Hlc & Hlx).
  apply result_bind_ok in Hin as (session & _ & Hin). apply result_bind_ok in Hin as ([] & _ & Hin).
  apply result_bind_ok in Hin as ([] & _ & Hin).
  apply result_bind_ok in Hin as ([[open chain] nodes] & Hn & Hin).
  apply result_bind_ok in Hin as ([] & _ & [= <-]).
  apply initial_nodes_ok in Hn as [Hc Hi]; [|cbn; lia|intros id; rewrite chain_ids_default; set_solver].
  split_and!; [| |done|eexists; by split_and!].
  - apply settled_ok; cbn; try done; try sealed_side; try (by rewrite lookup_insert_eq).
    + intros id [x Hx]. by rewrite Hms, lookup_empty in Hx.
    + intros cid1 c1 id _ Hc1. by rewrite Hctx, lookup_empty in Hc1.
    + right. by eexists.
    + intros id [= <-]. by rewrite lookup_insert_eq.
    + intros id [= <-]. by rewrite lookup_insert_eq.
  - apply settled_evolves; cbn; auto.
    + intros cm cp Hcp. by rewrite Hcm, lookup_empty in Hcp.
    + intros cm cp id Hcp. by rewrite Hcm, lookup_empty in Hcp.
Qed.

(** *** [apply] *)

Lemma copy_tail_no_panic ms context mutable originals index copied open chain nodes :
  (forall id, id ∈ originals -> is_Some (ms !! id)) ->
  no_panic (copy_tail ms context mutable originals index copied open chain nodes).
Proof.
  revert index copied open chain nodes. induction originals as [|original rest IH];
    intros index copied open chain nodes Hs; cbn [copy_tail]; [apply no_panic_ok|].
  no_panic_steps; [apply no_panic_or_panic, Hs; set_solver|]. apply IH. intros id ?. apply Hs. set_solver.
Qed.

Lemma initial_nodes_no_panic sid messages index open chain nodes :
  no_panic (initial_nodes sid messages index open chain nodes).
Proof.
  revert index open chain nodes. induction messages as [|message rest IH];
    intros index open chain nodes; cbn [initial_nodes]; [apply no_panic_ok|].
  no_panic_steps; apply IH.
Qed.

Lemma dispatch_no_panic g record : graph_ok g -> no_panic (dispatch g record).
Proof.
  intros Hg.
  assert (forall source, no_panic (open_context g record source)) as Hopen.
  { intros source. unfold open_context.
    apply no_panic_bind; [apply no_panic_guard|intros [] _].
    apply no_panic_bind; [destruct source; no_panic_steps|].
    intros [[[[projection mutable] base] inherited] open] Hsrc.
    assert (proj_ok (g_messages g) projection) as [_ Hp].
    { destruct source as [cm|].
      - destruct (g_commits g !! cm) as [cp|] eqn:Hcm; [|done]. injection Hsrc as <- <- <- <- <-.
        by apply (go_commit _ Hg _ _ Hcm).
      - destruct (g_latest_context g ≫= fun id => g_contexts g !! id) as [src|] eqn:Hl; [|done].
        injection Hsrc as <- <- <- <- <-. destruct (g_latest_context g) as [lid|]; [|done]. cbn in Hl.
        apply (go_ctx _ Hg _ _ Hl). }
    no_panic_steps. by apply copy_tail_no_panic. }
  assert (opens (rec_event record) = false -> no_panic (change g record)) as Hchange.
  { intros Ho. unfold change.
    destruct (g_contexts g !! rec_context_id record) as [c|] eqn:Hc; [|apply no_panic_rejected].
    apply no_panic_bind; [apply no_panic_guard|intros [] _].
    apply no_panic_bind; [apply change_event_no_panic; [|done]; by eapply go_ctx|].
    intros [? ?] _. apply no_panic_ok. }
  unfold dispatch. destruct (rec_event record) eqn:He; try (apply Hchange; by rewrite ?He).
  - apply no_panic_bind; [|intros; apply no_panic_ok]. unfold initialize. no_panic_steps.
    apply initial_nodes_no_panic.
  - apply no_panic_bind; [apply Hopen|intros; apply no_panic_ok].
  - apply no_panic_bind; [no_panic_steps|intros c _]. apply no_panic_bind; [apply Hopen|].
    intros; apply no_panic_ok.
Qed.

(** The state a record may not touch unless it is applied. *)
Definition same_state g g' : Prop :=
  g_session_id g' = g_session_id g /\ g_messages g' = g_messages g /\
  g_contexts g' = g_contexts g /\ g_commits g' = g_commits g /\
  g_latest_commit g' = g_latest_commit g /\ g_latest_context g' = g_latest_context g /\
  g_parents g' = g_parents g.

(** What an applied record did to the contexts. *)
Definition advanced g record g' : Prop :=
  exists c', g_contexts g' = <[rec_context_id record := c']> (g_contexts g) /\
    ctx_rev c' = rec_id record /\ g_seen g !! rec_id record = None /\
    match g_contexts g !! rec_context_id record with
    | Some c => rec_expected_revision record = Some (ctx_rev c) /\ opens (rec_event record) = false
    | None => opens (rec_event record) = true /\ ctx_unsealed c' = ∅
    end.

Lemma settle_cases {g} {r : result Stop (HistoryGraph * result string RecordOutcome)} {x} :
  settle g r = Ret x -> r = Ok x \/ fst x = g /\ snd x <> Ok Applied.
Proof.
  destruct r as [y|[reason|message|]]; cbn; try done.
  - intros [= ->]. by left.
  - intros [= <-]. by right.
  - intros [= <-]. by right.
Qed.

Lemma settle_total g r : no_panic r -> exists x, settle g r = Ret x.
Proof. destruct r as [x|[reason|message|]]; cbn; eauto. intros H. by destruct H. Qed.

(** An accepted dispatch applied the record. *)
Lemma dispatch_ok g record g1 r dig :
  graph_ok g -> g_seen g !! rec_id record = None -> dispatch g record = Ok (g1, r) ->
  let g' := settled g1 (rec_id record) dig (record_parent g record) in
  r = Ok Applied /\ graph_ok g' /\ evolves g g' /\ advanced g record g'.
Proof.
  intros Hg Hf Hd. cbn zeta.
  assert (opens (rec_event record) = false -> change g record = Ok (g1, r) ->
    record_parent g record = rec_expected_revision record ->
    r = Ok Applied /\ graph_ok (settled g1 (rec_id record) dig (record_parent g record)) /\
    evolves g (settled g1 (rec_id record) dig (record_parent g record)) /\
    advanced g record (settled g1 (rec_id record) dig (record_parent g record))) as Hchange.
  { intros Ho Hch ->. destruct (change_ok _ _ _ _ dig Hg Hf Hch) as (-> & ? & ? & c & c' & Hc & He & Hctx & Hr).
    split_and!; [done|done|done|]. exists c'. cbn. by rewrite Hc. }
  assert (forall source, open_context g record source = Ok g1 -> r = Ok Applied ->
    opens (rec_event record) = true ->
    (forall p, record_parent g record = Some p -> is_Some (g_parents g !! p)) ->
    r = Ok Applied /\ graph_ok (settled g1 (rec_id record) dig (record_parent g record)) /\
    evolves g (settled g1 (rec_id record) dig (record_parent g record)) /\
    advanced g record (settled g1 (rec_id record) dig (record_parent g record))) as Hopen.
  { intros source Hop -> Ho Hpar.
    destruct (open_context_ok _ _ _ _ dig _ Hg Hf Hpar Hop) as (? & ? & Hnone & c' & ? & ? & ?).
    split_and!; [done|done|done|]. exists c'. cbn. by rewrite Hnone. }
  assert (forall cm, is_Some (g_commits g !! cm) -> is_Some (g_parents g !! cm)) as Hcp.
  { intros cm [cp Hcm]. by apply (go_commit _ Hg _ _ Hcm). }
  unfold dispatch in Hd. destruct (rec_event record) eqn:He;
    try (apply Hchange; [done|done|unfold record_parent; by rewrite He]).
  - apply result_bind_ok in Hd as (g2 & Hi & [= <- <-]).
    destruct (initialize_ok _ _ _ _ dig Hg Hf Hi) as (? & ? & Hempty & c' & ? & ? & ?).
    unfold record_parent. rewrite He. split_and!; [done|done|done|]. exists c'. cbn.
    split_and!; [done|done|done|]. rewrite Hempty, lookup_empty, He. done.
  - apply result_bind_ok in Hd as (g2 & Hop & [= <- <-]). eapply Hopen; [done..|].
    intros p. unfold record_parent. rewrite He. unfold open_context in Hop.
    apply result_bind_ok in Hop as ([] & _ & Hop). apply result_bind_ok in Hop as (src & Hsrc & _).
    destruct source_commit as [cm|].
    + intros [= <-]. apply Hcp. destruct (g_commits g !! cm); [done|done].
    + destruct (g_latest_context g) as [lid|]; [|done]. cbn. unfold graph_revision.
      destruct (g_contexts g !! lid) as [c|] eqn:Hc; [|done]. intros [= <-]. by apply (go_ctx _ Hg _ _ Hc).
  - apply result_bind_ok in Hd as (cm & Hcm & Hd). apply result_bind_ok in Hd as (g2 & Hop & [= <- <-]).
    eapply Hopen; [done..|]. intros p. unfold record_parent. rewrite He. intros Hp.
    by apply Hcp, (go_latest_commit _ Hg).
Qed.

Lemma apply_cases g record :
  graph_ok g ->
  exists g' r, apply g record = Ret (g', r) /\ graph_ok g' /\ evolves g g' /\
    (forall o, r = Ok o -> g_seen g' !! rec_id record = Some (digest record, o)) /\
    (same_state g g' \/ r = Ok Applied /\ advanced g record g').
Proof.
  intros Hg. unfold apply.
  assert (forall e : string, exists g' (r : result string RecordOutcome), Ret (g, Err e) = Ret (g', r) /\ graph_ok g' /\ evolves g g' /\
    (forall o, r = Ok o -> g_seen g' !! rec_id record = Some (digest record, o)) /\
    (same_state g g' \/ r = Ok Applied /\ advanced g record g')) as Herr.
  { intros e. exists g, (Err e). split_and!; [done|done|apply evolves_refl|done|by left]. }
  destruct (_ || _); [apply Herr|]. destruct (_ && _); [apply Herr|]. unfold outcome.
  destruct (g_seen g !! rec_id record) as [[known o]|] eqn:Hs.
  { destruct (String.eqb_spec known (digest record)) as [->|]; [|apply Herr].
    exists g, (Ok o). split_and!; [done|done|apply evolves_refl| |by left]. by intros o' [= <-]. }
  destruct (settle_total g (dispatch g record)) as [[g1 r] Hset]; [by apply dispatch_no_panic|].
  rewrite Hset. cbn [mbind run_bind].
  destruct (settle_cases Hset) as [Hd|[Hsame Hna]].
  - destruct (dispatch_ok g record g1 r (digest record) Hg Hs Hd) as (-> & ? & ? & ?).
    eexists _, _. split; [done|]. cbn [record_outcome]. rewrite bool_decide_eq_true_2 by done.
    split_and!; [done|done| |by right]. intros o [= <-]. cbn. by rewrite lookup_insert_eq.
  - cbn in Hsame, Hna. subst g1. destruct r as [o|e]; [|apply Herr]. cbn [record_outcome].
    rewrite bool_decide_eq_false_2 by congruence.
    destruct (with_seen_ok g (rec_id record) (digest record) o Hg Hs) as [? ?].
    eexists _, _. split; [done|]. split_and!; [done|done| |by left].
    intros o' [= <-]. cbn. by rewrite lookup_insert_eq.
Qed.

(** ** Logs *)

(** Folding a log record by record, whatever the outcomes. *)
Fixpoint fold_log g (records : list HistoryRecord) : run HistoryGraph :=
  match records with
  | [] => Ret g
  | record :: rest => '(g, _) ← apply g record; fold_log g rest
  end.

Lemma fold_log_ok g records :
  graph_ok g -> exists g', fold_log g records = Ret g' /\ graph_ok g' /\ evolves g g'.
Proof.
  revert g. induction records as [|record rest IH]; intros g Hg; cbn.
  - exists g. split_and!; [done|done|apply evolves_refl].
  - destruct (apply_cases g record Hg) as (g1 & r & -> & Hg1 & He & _). cbn.
    destruct (IH g1 Hg1) as (g2 & -> & ? & ?). exists g2. split_and!; [done|done|].
    by eapply evolves_trans.
Qed.

Lemma fold_log_reached records :
  exists g, fold_log graph_default records = Ret g /\ graph_ok g.
Proof.
  destruct (fold_log_ok graph_default records graph_default_ok) as (g & ? & ? & _). by exists g.
Qed.

(** C15. Folding any log (stale, malformed, duplicated and reordered records
    included) panics nowhere and keeps the graph well formed: every message a context
    or a completed turn lists is indexed, the latest turn and context exist, contexts
    have distinct revisions, every revision descends from earlier ones, and a message
    a context may still change is listed by no other context and by no completed turn. *)
Theorem history_invariant (records : list HistoryRecord) :
  exists g, fold_log graph_default records = Ret g /\ graph_ok g.
Proof. apply fold_log_reached. Qed.

Lemma graph_session_same g g' p :
  (forall id, id ∈ chain_ids (proj_chain p) -> g_messages g' !! id = g_messages g !! id) ->
  graph_session g' p = graph_session g p.
Proof.
  intros Hm. unfold graph_session. f_equal. f_equal. apply map_ext_in. intros id Hid%list_elem_of_In.
  unfold message_value. by rewrite Hm.
Qed.

(** C1. Completed turns are immutable: once a turn is committed, reading it back
    gives the same session for ever, whatever is streamed, projected, resumed,
    branched or committed afterwards in any context. *)
Theorem completed_turns_are_immutable before after g g' commit :
  fold_log graph_default before = Ret g -> fold_log g after = Ret g' ->
  is_Some (g_commits g !! commit) ->
  completed_session g' (Some commit) = completed_session g (Some commit).
Proof.
  intros Hb Ha [cp Hcp]. destruct (fold_log_reached before) as (g0 & Hb' & Hg).
  rewrite Hb in Hb'. injection Hb' as <-.
  destruct (fold_log_ok g after Hg) as (g1 & Ha' & _ & He). rewrite Ha in Ha'. injection Ha' as <-.
  unfold completed_session. rewrite (ev_commits _ _ He _ _ Hcp), Hcp.
  rewrite (graph_session_same g g'); [done|]. intros id Hid. by eapply (ev_messages _ _ He).
Qed.

Lemma apply_seen g record o :
  g_seen g !! rec_id record = Some (digest record, o) ->
  rec_version record = 3%N -> valid_id (rec_id record) = true ->
  valid_id (rec_context_id record) = true ->
  bool_decide (is_Some (rec_expected_revision record)) && opens (rec_event record) = false ->
  apply g record = Ret (g, Ok o).
Proof.
  intros Hs Hv Hi Hc He. unfold apply, outcome. rewrite Hv, Hi, Hc, He, Hs.
  by rewrite String.eqb_refl.
Qed.

Lemma apply_checked {g record g' o} :
  apply g record = Ret (g', Ok o) ->
  rec_version record = 3%N /\ valid_id (rec_id record) = true /\
  valid_id (rec_context_id record) = true /\
  bool_decide (is_Some (rec_expected_revision record)) && opens (rec_event record) = false.
Proof.
  unfold apply. destruct (_ || _) eqn:Hb; [done|]. destruct (_ && _) eqn:Hc; [done|]. intros _.
  apply orb_false_iff in Hb as [[Hv Hi]%orb_false_iff Hx].
  apply negb_false_iff in Hv, Hi, Hx. apply N.eqb_eq in Hv. done.
Qed.

Lemma apply_again g record g' o records g'' :
  graph_ok g -> apply g record = Ret (g', Ok o) -> fold_log g' records = Ret g'' ->
  apply g'' record = Ret (g'', Ok o).
Proof.
  intros Hg Ha Hf. destruct (apply_checked Ha) as (? & ? & ? & ?).
  destruct (apply_cases g record Hg) as (g1 & r & Ha' & Hg1 & _ & Hseen & _).
  rewrite Ha in Ha'. injection Ha' as <- <-.
  destruct (fold_log_ok g' records Hg1) as (g2 & Hf' & _ & He). rewrite Hf in Hf'. injection Hf' as <-.
  apply apply_seen; [|done..]. by apply (ev_seen _ _ He), Hseen.
Qed.

(** Delivery is idempotent: a record that was settled once, applied or rejected,
    keeps its outcome for ever; delivering it again, after any other records, returns
    that outcome and changes nothing, so an ambiguous append can be retried safely. *)
Theorem redelivery_is_idempotent before records g record g' o g'' :
  fold_log graph_default before = Ret g ->
  apply g record = Ret (g', Ok o) -> fold_log g' records = Ret g'' ->
  apply g'' record = Ret (g'', Ok o).
Proof.
  intros Hb. destruct (fold_log_reached before) as (g0 & Hb' & Hg). rewrite Hb in Hb'.
  injection Hb' as <-. by apply apply_again.
Qed.

Lemma apply_all_fold g records g' r :
  apply_all g records = Ret (g', r) ->
  exists prefix rest, records = prefix ++ rest /\ fold_log g prefix = Ret g' /\ (r = Ok tt -> rest = []).
Proof.
  revert g. induction records as [|record records IH]; intros g; cbn.
  - intros [= <- <-]. by exists [], [].
  - intros ([g1 r1] & Ha & Hrest)%run_bind_Ret. destruct r1 as [o|e].
    + destruct (IH g1 Hrest) as (prefix & rest & -> & Hf & Hr).
      exists (record :: prefix), rest. split; [done|]. split; [|done]. cbn. by rewrite Ha.
    + injection Hrest as <- <-. exists [record], records. split; [done|]. split; [|done].
      cbn. by rewrite Ha.
Qed.

(** Replaying a folded log is a no-op: when a batch was folded without an error,
    folding the same batch again (the cursor was not advanced, or the transport
    delivered it twice), from the resulting graph or any later one, succeeds and
    leaves the graph exactly as it is. *)
Theorem log_replay_is_noop before g batch g' later g'' :
  fold_log graph_default before = Ret g ->
  apply_all g batch = Ret (g', Ok tt) -> fold_log g' later = Ret g'' ->
  apply_all g'' batch = Ret (g'', Ok tt).
Proof.
  intros Hb. destruct (fold_log_reached before) as (g0 & Hb' & Hg). rewrite Hb in Hb'.
  injection Hb' as <-. clear Hb. revert g Hg. induction batch as [|record batch IH]; intros g Hg; cbn; [done|].
  intros ([g1 r1] & Ha & Hrest)%run_bind_Ret Hl. destruct r1 as [o|e]; [|done].
  destruct (apply_cases g record Hg) as (g2 & r2 & Ha2 & Hg2 & _). rewrite Ha in Ha2.
  injection Ha2 as <- <-.
  destruct (apply_all_fold _ _ _ _ Hrest) as (prefix & rest & Heq & Hf & Hr).
  rewrite (Hr eq_refl), app_nil_r in Heq. subst prefix.
  assert (fold_log g1 (batch ++ later) = Ret g'') as Hall.
  { clear -Hf Hl. revert g1 Hf. induction batch as [|x batch IH]; intros g1; cbn.
    - by intros [= ->].
    - intros ([g2 r2] & -> & Hf)%run_bind_Ret. cbn. by apply IH. }
  rewrite (apply_again g record g1 o _ g'' Hg Ha Hall). cbn. by apply (IH g1).
Qed.

(** The context has left the revision [rev] for good. *)
Definition moved_past g (cid rev : string) : Prop :=
  exists c, g_contexts g !! cid = Some c /\ ctx_rev c <> rev /\ is_Some (g_parents g !! rev).

Lemma moved_past_apply g record g' r cid rev :
  graph_ok g -> apply g record = Ret (g', r) -> moved_past g cid rev -> moved_past g' cid rev.
Proof.
  intros Hg Ha (c & Hc & Hne & [p Hp]).
  destruct (apply_cases g record Hg) as (g1 & r1 & Ha' & _ & He & _ & Hs).
  rewrite Ha in Ha'. injection Ha' as <- <-.
  assert (is_Some (g_parents g' !! rev)) as Hp' by (eexists; by apply (ev_parents _ _ He)).
  destruct Hs as [(_ & _ & Hctx & _)|(_ & c' & Hctx & Hrev & Hf & _)].
  - exists c. rewrite Hctx. done.
  - destruct (decide (cid = rec_context_id record)) as [->|Hd].
    + exists c'. rewrite Hctx, lookup_insert_eq. split_and!; [done| |done]. rewrite Hrev.
      intros <-. destruct (go_seen _ Hg (rec_id record)) as [x Hx]; [by eexists|]. congruence.
    + exists c. rewrite Hctx, lookup_insert_ne by done. done.
Qed.

Lemma moved_past_fold g records g' cid rev :
  graph_ok g -> fold_log g records = Ret g' -> moved_past g cid rev -> moved_past g' cid rev.
Proof.
  revert g. induction records as [|record records IH]; intros g Hg; cbn; [intros [= <-]; done|].
  intros ([g1 r] & Ha & Hf)%run_bind_Ret Hm.
  destruct (apply_cases g record Hg) as (g2 & r2 & Ha2 & Hg2 & _). rewrite Ha in Ha2.
  injection Ha2 as <- <-. eapply IH; [exact Hg2|exact Hf|].
  exact (moved_past_apply g record g1 r cid rev Hg Ha Hm).
Qed.

Lemma apply_unseen g record :
  rec_version record = 3%N -> valid_id (rec_id record) = true ->
  valid_id (rec_context_id record) = true ->
  bool_decide (is_Some (rec_expected_revision record)) && opens (rec_event record) = false ->
  g_seen g !! rec_id record = None ->
  apply g record =
    '(g', r) ← settle g (dispatch g record);
    Ret (record_outcome g' record (record_parent g record) r).
Proof.
  intros Hv Hi Hc He Hs. unfold apply, outcome. by rewrite Hv, Hi, Hc, He, Hs.
Qed.

Lemma apply_applied g record g1 :
  graph_ok g -> g_seen g !! rec_id record = None -> apply g record = Ret (g1, Ok Applied) ->
  advanced g record g1.
Proof.
  intros Hg Hs Ha. destruct (apply_checked Ha) as (? & ? & ? & ?).
  rewrite apply_unseen in Ha by done. apply run_bind_Ret in Ha as ([g2 r] & Hset & Ha).
  apply Ret_inj in Ha. destruct r as [o|e]; [|done]. cbn [record_outcome] in Ha.
  injection Ha as Ha ->. rewrite bool_decide_eq_true_2 in Ha by done. subst g1.
  destruct (settle_cases Hset) as [Hd|[_ Hna]]; [|by destruct Hna].
  by apply (dispatch_ok g record g2 _ (digest record) Hg Hs Hd).
Qed.

Lemma continuation_once before g r1 g1 between g2 r2 cid rev :
  fold_log graph_default before = Ret g ->
  rec_context_id r1 = cid -> rec_expected_revision r1 = Some rev -> g_seen g !! rec_id r1 = None ->
  apply g r1 = Ret (g1, Ok Applied) -> fold_log g1 between = Ret g2 ->
  rec_context_id r2 = cid -> rec_expected_revision r2 = Some rev -> g_seen g2 !! rec_id r2 = None ->
  rec_version r2 = 3%N -> valid_id (rec_id r2) = true -> opens (rec_event r2) = false ->
  exists g3, apply g2 r2 = Ret (g3, Ok (Rejected "context_revision_changed")) /\ same_state g2 g3.
Proof.
  intros Hb Hc1 Hrev1 Hs1 Ha Hf Hc2 Hrev2 Hs2 Hv Hid Ho.
  destruct (fold_log_reached before) as (g0 & Hb' & Hg). rewrite Hb in Hb'. injection Hb' as <-.
  destruct (apply_cases g r1 Hg) as (g' & r & Ha' & Hg1 & He & _ & _).
  rewrite Ha in Ha'. injection Ha' as <- <-.
  destruct (apply_checked Ha) as (_ & _ & Hvc & Hno).
  destruct (apply_applied g r1 g1 Hg Hs1 Ha) as (c' & Hctx & Hr & _ & Hold).
  rewrite Hc1, Hrev1 in *. cbn in Hno.
  destruct (g_contexts g !! cid) as [c|] eqn:Hc; [|destruct Hold; congruence].
  destruct Hold as [[= ->] _]. destruct (co_rev _ _ (go_ctx _ Hg _ _ Hc)) as [p Hp].
  assert (moved_past g1 cid (ctx_rev c)) as Hm.
  { exists c'. rewrite Hctx, lookup_insert_eq, Hr. split_and!; [done| |].
    - intros Heq. destruct (go_seen _ Hg (rec_id r1)) as [x Hx]; [rewrite Heq; by eexists|]. congruence.
    - eexists. by apply (ev_parents _ _ He). }
  destruct (moved_past_fold _ _ _ _ _ Hg1 Hf Hm) as (c2 & Hc2' & Hne & _).
  rewrite apply_unseen; try done; [|by rewrite Hc2|by rewrite Ho, andb_false_r].
  assert (dispatch g2 r2 = rejected "context_revision_changed") as ->.
  { transitivity (change g2 r2); [unfold dispatch; by destruct (rec_event r2)|].
    unfold change. rewrite Hc2, Hc2', Hrev2. rewrite bool_decide_eq_false_2 by congruence. done. }
  eexists. split; [reflexivity|]. by cbn.
Qed.

(** Concurrent writers cannot both extend one revision: after a record that
    expected revision [rev] of a context was applied, every other record that expects
    [rev] of that context is rejected as stale, however many records lie between, and
    its rejection changes nothing but the memory of its outcome. *)
Theorem one_continuation_wins before g r1 g1 between g2 r2 cid rev :
  fold_log graph_default before = Ret g ->
  rec_context_id r1 = cid -> rec_expected_revision r1 = Some rev -> g_seen g !! rec_id r1 = None ->
  apply g r1 = Ret (g1, Ok Applied) -> fold_log g1 between = Ret g2 ->
  rec_context_id r2 = cid -> rec_expected_revision r2 = Some rev -> g_seen g2 !! rec_id r2 = None ->
  rec_version r2 = 3%N -> valid_id (rec_id r2) = true -> opens (rec_event r2) = false ->
  exists g3, apply g2 r2 = Ret (g3, Ok (Rejected "context_revision_changed")) /\ same_state g2 g3.
Proof. apply continuation_once. Qed.

(** Ancestry terminates: from every applied revision the walk over parents
    reaches the initialization without repeating a revision or missing one, within as
    many steps as there are applied records, so the unbounded loop of the code ends. *)
Theorem ancestry_is_total records g revision :
  fold_log graph_default records = Ret g -> is_Some (g_parents g !! revision) ->
  exists path, ancestry (S (size (g_parents g))) g revision = Ret (Ok path) /\
    NoDup path /\ head path = Some revision /\
    Forall (fun id => is_Some (g_parents g !! id)) path /\
    (exists last, list.last path = Some last /\ g_parents g !! last = Some None).
Proof.
  intros Hf Hrev. destruct (fold_log_reached records) as (g0 & Hf' & Hg).
  rewrite Hf in Hf'. injection Hf' as <-. destruct (go_rank _ Hg) as (rank & Hsize & Hrank).
  assert (forall fuel id, is_Some (g_parents g !! id) -> rank id < fuel ->
    exists path, ancestry_from fuel g (Some id) = Ret (Ok (id :: path)) /\
      Forall (fun x => is_Some (g_parents g !! x) /\ rank x < rank id) path /\ NoDup (id :: path) /\
      (exists last, list.last (id :: path) = Some last /\ g_parents g !! last = Some None)) as Hwalk.
  { induction fuel as [|fuel IH]; intros id [p Hp] Hlt; [lia|]. cbn [ancestry_from]. rewrite Hp.
    destruct p as [parent|].
    - destruct (Hrank _ _ Hp) as [Hps Hr]. destruct (IH parent Hps) as (path & -> & Hall & Hn & last & Hl & Hlast); [lia|].
      exists (parent :: path). cbn [mbind run_bind]. split_and!; [done| | |].
      + constructor; [done|]. eapply Forall_impl; [exact Hall|]. cbn. intros x [? ?]. split; [done|lia].
      + constructor; [|done]. intros [->|Hin]%elem_of_cons; [lia|].
        rewrite Forall_forall in Hall. destruct (Hall _ Hin). lia.
      + by exists last.
    - exists []. destruct fuel; cbn; (split_and!; [done|done|apply NoDup_singleton|by exists id]). }
  destruct Hrev as [p Hp]. destruct (Hwalk (S (size (g_parents g))) revision) as (path & Ha & Hall & Hn & Hl).
  { by eexists. } { specialize (Hsize _ _ Hp). lia. }
  exists (revision :: path). split_and!; [done|done|done| |done].
  constructor; [by eexists|]. eapply Forall_impl; [exact Hall|]. by intros x [? ?].
Qed.

(** A revision names at most one current context, so looking it up does not
    depend on the iteration order of the hash map of contexts. *)
Theorem revision_session_order_independent records g revision order order' :
  fold_log graph_default records = Ret g ->
  (forall cid, In cid order <-> is_Some (g_contexts g !! cid)) ->
  (forall cid, In cid order' <-> is_Some (g_contexts g !! cid)) ->
  revision_session order g revision = revision_session order' g revision.
Proof.
  intros Hf Ho Ho'. destruct (fold_log_reached records) as (g0 & Hf' & Hg).
  rewrite Hf in Hf'. injection Hf' as <-. unfold revision_session.
  destruct (bool_decide _); [done|].
  set (f := fun id => bool_decide (graph_revision g id = Some revision)).
  assert (List.find f order = List.find f order') as ->; [|done].
  assert (forall x y, f x = true -> f y = true -> x = y) as Huniq.
  { unfold f. intros x y Hx%bool_decide_eq_true_1 Hy%bool_decide_eq_true_1. unfold graph_revision in *.
    destruct (g_contexts g !! x) as [cx|] eqn:Hcx, (g_contexts g !! y) as [cy|] eqn:Hcy; try done.
    cbn in *. eapply (go_revisions _ Hg); [done|done|congruence]. }
  destruct (List.find f order) as [x|] eqn:Hx, (List.find f order') as [y|] eqn:Hy.
  - apply find_some in Hx as [_ Hx], Hy as [_ Hy]. by rewrite (Huniq x y).
  - apply find_some in Hx as [Hin Hx]. apply Ho, Ho' in Hin.
    by rewrite (find_none _ _ Hy _ Hin) in Hx.
  - apply find_some in Hy as [Hin Hy]. apply Ho', Ho in Hin.
    by rewrite (find_none _ _ Hx _ Hin) in Hy.
  - done.
Qed.
End Invariant.
