(* ===== verification/HistoryModel.v ===== *)
(** * A concrete codec, and the history theorems at concrete logs

    An instance of [SessionCodec] and [HistoryDigests] over the tree model of
    JSON, so that the history theorems apply to logs that evaluate, and a log on
    which one event's validation is too weak for a later one. *)
From S2P Require Import Prelude.
From stdpp Require Import list.
From S2P Require Import RustStr Json JsonModel Conversation HistoryGraph HistoryInvariant.

Definition t_role (r : MessageRole) : tree :=
  t_num match r with RSystem => 0 | RUser => 1 | RAssistant => 2 | RTool => 3 end%N.
Definition role_of (v : tree) : option MessageRole :=
  match v with
  | GenLeaf (inl 0%N) => Some RSystem
  | GenLeaf (inl 1%N) => Some RUser
  | GenLeaf (inl 2%N) => Some RAssistant
  | GenLeaf (inl 3%N) => Some RTool
  | _ => None
  end.

(** Text, tool calls and tool results are enough for the logs below. *)
Definition t_block (b : ContentBlock) : tree :=
  match b with
  | ToolUse id name input _ => t_arr [t_num 1; t_str id; t_str name; t_str input]
  | ToolResult id name output is_error =>
      t_arr [t_num (if is_error then 3 else 2)%N; t_str id; t_str name; t_str output]
  | Text text => t_arr [t_num 0; t_str text]
  | _ => t_arr []
  end.
Definition block_of (v : tree) : option ContentBlock :=
  match v with
  | GenNode 0 [GenLeaf (inl 0%N); GenLeaf (inr text)] => Some (Text text)
  | GenNode 0 [GenLeaf (inl 1%N); GenLeaf (inr id); GenLeaf (inr name); GenLeaf (inr input)] =>
      Some (ToolUse id name input None)
  | GenNode 0 [GenLeaf (inl 2%N); GenLeaf (inr id); GenLeaf (inr name); GenLeaf (inr output)] =>
      Some (ToolResult id name output false)
  | GenNode 0 [GenLeaf (inl 3%N); GenLeaf (inr id); GenLeaf (inr name); GenLeaf (inr output)] =>
      Some (ToolResult id name output true)
  | _ => None
  end.

Definition plain_message (r : MessageRole) (bs : list ContentBlock) : ConversationMessage :=
  {| history := None; role := r; blocks := bs; usage := None; model := None; duration_ms := None |}.

Definition t_message (m : ConversationMessage) : tree :=
  t_obj [("role", t_role (role m)); ("blocks", t_arr (map t_block (blocks m)))].
Definition message_of (v : tree) : result string ConversationMessage :=
  match t_get v "role" ≫= role_of, t_get v "blocks" with
  | Some r, Some (GenNode 0 bs) =>
      match mapM block_of bs with
      | Some bs => Ok (plain_message r bs)
      | None => Err "invalid block"
      end
  | _, _ => Err "invalid message"
  end.

Record TreeSession := {
  ts_id : string;
  ts_messages : list ConversationMessage;
  ts_head : option string
}.

Definition session_of (v : tree) : result string TreeSession :=
  match t_get v "session_id", t_get v "messages" with
  | Some (GenLeaf (inr id)), Some (GenNode 0 ms) =>
      (fix go ms acc := match ms with
        | [] => Ok {| ts_id := id; ts_messages := acc; ts_head := None |}
        | m :: rest => match message_of m with Ok m => go rest (acc ++ [m]) | Err e => Err e end
        end) ms []
  | _, _ => Err "invalid session"
  end.

#[export] Instance tree_codec : SessionCodec := {|
  Session := TreeSession;
  session_from_value := session_of;
  session_id_of := ts_id;
  session_messages := ts_messages;
  with_history_head s h := {| ts_id := ts_id s; ts_messages := ts_messages s; ts_head := h |};
  message_from_value := message_of;
  to_value m := Ok (t_message m);
  identity_value i := t_obj [("id", t_str (identity_id i))];
  metadata_value s := Ok (t_obj [("session_id", t_str (ts_id s))])
|}.

#[export] Instance tree_digests : HistoryDigests := {|
  digest r := rec_id r;
  resume_digest context index original := (context ++ pretty (N.of_nat index))%string;
  legacy_digest session_id index value := (session_id ++ pretty (N.of_nat index))%string
|}.

(** ** A session with one completed turn and one turn in progress *)

Definition rec (id cid : string) (expected : option string) (e : HistoryEvent) : HistoryRecord :=
  record_new id 7%N cid expected e.

Definition seed : tree := t_obj [("session_id", t_str "s"); ("messages", t_arr [])].
Definition user_hi : tree := t_message (plain_message RUser [Text "hi"]).
Definition assistant_call : tree :=
  t_message (plain_message RAssistant [ToolUse "t1" "bash" "ls" None]).
Definition assistant_text : tree := t_message (plain_message RAssistant [Text "thinking"]).

Definition r_init : HistoryRecord := rec "r0" "c0" None (Initialize seed).
Definition r_user : HistoryRecord := rec "r1" "c0" (Some "r0") (Message "m1" None user_hi).
Definition r_commit : HistoryRecord := rec "r2" "c0" (Some "r1") (CommitTurn "trace").
Definition r_stream : HistoryRecord :=
  rec "r3" "c0" (Some "r2") (Message "m2" (Some "m1") assistant_text).
Definition r_call : HistoryRecord := rec "r4" "c0" (Some "r3") (AssistantUpdate "m2" assistant_call).
Definition r_stale : HistoryRecord := rec "r5" "c0" (Some "r3") (CommitTurn "other").
Definition r_resume : HistoryRecord := rec "r6" "c1" None (OpenContext None).

Definition sample_log : list HistoryRecord := [r_init; r_user; r_commit].
Definition sample_later : list HistoryRecord := [r_stream; r_call; r_stale; r_resume].

Definition ret_or {A} (d : A) (r : run A) : A := match r with Ret a => a | _ => d end.
Definition log_graph (records : list HistoryRecord) : HistoryGraph :=
  ret_or graph_default (fold_log graph_default records).

Lemma log_graph_fold records : fold_log graph_default records = Ret (log_graph records).
Proof. unfold log_graph. by destruct (fold_log_reached records) as (g & -> & _). Qed.

Lemma fold_log_app g l l' :
  fold_log g (l ++ l') = (g' ← fold_log g l; fold_log g' l').
Proof.
  revert g. induction l as [|r l IH]; intros g; cbn; [done|].
  destruct (apply g r) as [[g' o]| |]; cbn; [apply IH|done|done].
Qed.

Lemma log_graph_app l l' : fold_log (log_graph l) l' = Ret (log_graph (l ++ l')).
Proof.
  pose proof (log_graph_fold (l ++ l')) as H. rewrite fold_log_app, log_graph_fold in H. exact H.
Qed.

(** ** A log nobody can fold *)

Definition assistant_with_result : tree :=
  t_message (plain_message RAssistant [Text "thinking"; ToolResult "t9" "bash" "out" false]).
Definition r_update : HistoryRecord :=
  rec "r4" "c0" (Some "r3") (AssistantUpdate "m2" assistant_with_result).

(** An applied record can make the log unreadable from the next resume on: an
    assistant update is checked for its new tool calls only, so an update that carries
    a tool result is applied; the next resume of that context then fails on the copied
    message with an error instead of a rejection, and since the record is already in
    the log, every reader's fold stops there and no later record is ever seen. *)
Theorem assistant_update_blocks_resume :
  let g := log_graph (sample_log ++ [r_stream; r_update]) in
  apply_all graph_default (sample_log ++ [r_stream; r_update]) = Ret (g, Ok tt) /\
    forall rest : list HistoryRecord,
      apply_all graph_default (sample_log ++ [r_stream; r_update] ++ r_resume :: rest)
        = Ret (g, Err "tool result has an invalid speaker role").
Proof. split; [vm_compute; reflexivity|]. intros rest. vm_compute. reflexivity. Qed.

(** ** The theorems at concrete logs *)

Lemma completed_turns_are_immutable_witness :
  g_commits (log_graph sample_log) !! "r2" <> None /\
  completed_session (log_graph (sample_log ++ sample_later)) (Some "r2") =
    completed_session (log_graph sample_log) (Some "r2").
Proof.
  split; [vm_compute; discriminate|].
  apply (completed_turns_are_immutable sample_log sample_later);
    [apply log_graph_fold|apply log_graph_app|]. vm_compute. eexists; reflexivity.
Defined.

Definition stale_graph : HistoryGraph := log_graph (sample_log ++ [r_stream; r_call]).

Lemma redelivery_is_idempotent_witness :
  apply (log_graph (sample_log ++ sample_later)) r_stale =
    Ret (log_graph (sample_log ++ sample_later), Ok (Rejected "context_revision_changed")).
Proof.
  apply (redelivery_is_idempotent (sample_log ++ [r_stream; r_call]) [r_resume] stale_graph r_stale
           (log_graph (sample_log ++ [r_stream; r_call; r_stale]))).
  - apply log_graph_fold.
  - vm_compute. reflexivity.
  - rewrite log_graph_app. reflexivity.
Defined.

Lemma log_replay_is_noop_witness :
  apply_all (log_graph (sample_log ++ sample_later)) [r_user; r_commit] =
    Ret (log_graph (sample_log ++ sample_later), Ok tt).
Proof.
  apply (log_replay_is_noop [r_init] (log_graph [r_init]) [r_user; r_commit]
           (log_graph sample_log) sample_later).
  - apply log_graph_fold.
  - vm_compute. reflexivity.
  - apply log_graph_app.
Defined.

Lemma one_continuation_wins_witness :
  exists g3, apply stale_graph r_stale = Ret (g3, Ok (Rejected "context_revision_changed")) /\
    same_state stale_graph g3.
Proof.
  apply (one_continuation_wins (sample_log ++ [r_stream]) (log_graph (sample_log ++ [r_stream]))
           r_call stale_graph [] stale_graph r_stale "c0" "r3");
    vm_compute; reflexivity.
Defined.

Lemma ancestry_is_total_witness :
  let g := log_graph (sample_log ++ sample_later) in
  exists path, ancestry (S (size (g_parents g))) g "r6" = Ret (Ok path) /\
    NoDup path /\ head path = Some "r6" /\
    Forall (fun id => is_Some (g_parents g !! id)) path /\
    (exists last, list.last path = Some last /\ g_parents g !! last = Some None).
Proof.
  apply (ancestry_is_total (sample_log ++ sample_later)); [apply log_graph_fold|].
  vm_compute. eexists; reflexivity.
Defined.

Lemma revision_session_order_independent_witness :
  revision_session ["c0"; "c1"] (log_graph (sample_log ++ sample_later)) "r4" =
    revision_session ["c1"; "c0"] (log_graph (sample_log ++ sample_later)) "r4".
Proof.
  assert (forall cid, is_Some (g_contexts (log_graph (sample_log ++ sample_later)) !! cid) ->
    cid = "c0" \/ cid = "c1") as Hdom.
  { intros cid [c Hc]. apply elem_of_map_to_list in Hc.
    apply (list_elem_of_fmap_2 fst) in Hc. apply list_elem_of_In in Hc.
    assert (forall keys, fst <$> map_to_list (g_contexts (log_graph (sample_log ++ sample_later))) = keys ->
      In cid keys) as Hk by (intros keys <-; exact Hc).
    cbn [fst] in Hk. specialize (Hk _ ltac:(vm_compute; reflexivity)). cbn in Hk.
    destruct Hk as [<-|[<-|[]]]; auto. }
  apply (revision_session_order_independent (sample_log ++ sample_later)); [apply log_graph_fold|..];
    intros cid; (split; [intros Hin; cbn in Hin; destruct Hin as [<-|[<-|[]]]; vm_compute; eexists; reflexivity
                        |intros [->| ->]%Hdom; cbn; tauto]).
Defined.
