(* ===== verification/HistoryLog.v ===== *)
(** * The log behind a history (runtime/src/session/history.rs)

    A [HistoryLog] folds a shared append-only log of records into its graph.  The transport
    ([RecordLog]) is used one call at a time, so a method is a program over its calls.  A
    position counts records: a frame is what [serde_json] makes of one line, the record or the
    error, and the record the code appends is read back as itself.  Errors are their messages.
    The clock of [observe] is its number of polls before the deadline. *)
From S2P Require Import Prelude.
From stdpp Require Import list.
From S2P Require Import RustStr Json Conversation HistoryGraph.

Section Log.
Context `{SessionCodec} `{!HistoryDigests}.

Definition Frame : Type := result string HistoryRecord.

(** ** Programs over the transport *)

Inductive Prog (A : Type) : Type :=
| Done (a : A)
| Crash
| Read (cursor : nat) (k : result string (list Frame * nat) -> Prog A)
| Append (record : HistoryRecord) (k : result string nat -> Prog A).
Arguments Done {A} a.
Arguments Crash {A}.
Arguments Read {A} cursor k.
Arguments Append {A} record k.

Fixpoint prog_bind {A B} (p : Prog A) (f : A -> Prog B) : Prog B :=
  match p with
  | Done a => f a
  | Crash => Crash
  | Read cursor k => Read cursor (fun x => prog_bind (k x) f)
  | Append record k => Append record (fun x => prog_bind (k x) f)
  end.

Record HistoryLog := { hl_cursor : nat; hl_graph : HistoryGraph }.
Definition log_new : HistoryLog := {| hl_cursor := 0; hl_graph := graph_default |}.

(** A method: the log it leaves and its result. *)
Definition Method (A : Type) : Type := Prog (HistoryLog * result string A).

(** ** Folding *)

(** The lines of one batch, up to the first that does not decode or apply. *)
Fixpoint apply_lines (g : HistoryGraph) (lines : list Frame) : run (HistoryGraph * result string unit) :=
  match lines with
  | [] => Ret (g, Ok tt)
  | Err e :: _ => Ret (g, Err e)
  | Ok record :: rest =>
      '(g, r) ← apply g record;
      match r with Ok _ => apply_lines g rest | Err e => Ret (g, Err e) end
  end.

Definition CURSOR_STUCK : string := "history cursor did not advance".

Fixpoint refresh_loop (rounds : nat) (h : HistoryLog) : Method unit :=
  match rounds with
  | O => Done (h, Ok tt)
  | S rounds =>
      Read (hl_cursor h) (fun answer =>
        match answer with
        | Err e => Done (h, Err e)
        | Ok ([], _) => Done (h, Ok tt)
        | Ok (lines, next) =>
            if next <=? hl_cursor h then Done (h, Err CURSOR_STUCK)
            else match apply_lines (hl_graph h) lines with
                 | Ret (g, Ok _) => refresh_loop rounds {| hl_cursor := next; hl_graph := g |}
                 | Ret (g, Err e) => Done ({| hl_cursor := hl_cursor h; hl_graph := g |}, Err e)
                 | _ => Crash
                 end
        end)
  end.

Definition refresh : HistoryLog -> Method unit := refresh_loop 256.

(** ** Committing a record *)

Definition NOT_OBSERVED : string := "committed history record not yet observed".

Fixpoint observe (polls : nat) (record : HistoryRecord) (after : nat) (h : HistoryLog) : Method RecordOutcome :=
  prog_bind (refresh h) (fun '(h, refreshed) =>
    match refreshed with
    | Err e => Done (h, Err e)
    | Ok _ =>
        let again := match polls with
                     | O => Done (h, Err NOT_OBSERVED)
                     | S polls => observe polls record after h
                     end in
        match outcome (hl_graph h) record with
        | Err e => Done (h, Err e)
        | Ok (Some o) => if after <=? hl_cursor h then Done (h, Ok o) else again
        | Ok None => again
        end
    end).

(** [encode_error]: the error of [serde_json::to_vec] on a record, if any. *)
Context (encode_error : HistoryRecord -> option string).

Definition commit (polls : nat) (record : HistoryRecord) (h : HistoryLog) : Method RecordOutcome :=
  prog_bind (refresh h) (fun '(h, refreshed) =>
    match refreshed with
    | Err e => Done (h, Err e)
    | Ok _ =>
        match outcome (hl_graph h) record with
        | Err e => Done (h, Err e)
        | Ok (Some o) => Done (h, Ok o)
        | Ok None =>
            match encode_error record with
            | Some e => Done (h, Err e)
            | None =>
                Append record (fun appended =>
                  match appended with
                  | Ok after => observe polls record after h
                  | Err error =>
                      prog_bind (refresh h) (fun '(h, refreshed) =>
                        match refreshed with
                        | Err e => Done (h, Err e)
                        | Ok _ => match outcome (hl_graph h) record with
                                  | Err e => Done (h, Err e)
                                  | Ok (Some o) => Done (h, Ok o)
                                  | Ok None => Done (h, Err error)
                                  end
                        end)
                  end)
            end
        end
    end).

(** ** The transport

    Its contract ([RecordLog]): the log only grows; a read returns the records from its
    cursor up to some later position, or nothing, as a follower may lag, or it fails; a
    successful append is in the log and returns the position after it; a failed one may be in
    the log, now, later or never. *)
Definition read_answer (log : list Frame) (cursor : nat) (answer : result string (list Frame * nat)) : Prop :=
  match answer with
  | Err _ => True
  | Ok ([], _) => True
  | Ok (lines, next) => cursor < next /\ next <= length log /\ lines = take (next - cursor) (drop cursor log)
  end.

Inductive prog_step {A} : list Frame -> Prog A -> list Frame -> Prog A -> Prop :=
| step_read log cursor answer k : read_answer log cursor answer -> prog_step log (Read cursor k) log (k answer)
| step_append log record k :
    prog_step log (Append record k) (log ++ [Ok record]) (k (Ok (S (length log))))
| step_append_failed log record e k : prog_step log (Append record k) log (k (Err e)).

(** ** Clients of one log *)

Inductive Client :=
| Idle (h : HistoryLog)
| Committing (record : HistoryRecord) (p : Method RecordOutcome)
| Crashed.

(** The log, the clients, and the outcomes that were returned to a caller. *)
Record System := {
  sys_log : list Frame;
  sys_clients : list Client;
  sys_acks : list (HistoryRecord * RecordOutcome)
}.

Definition acknowledged (record : HistoryRecord) (r : result string RecordOutcome) : list (HistoryRecord * RecordOutcome) :=
  match r with Ok o => [(record, o)] | Err _ => [] end.

(** One step: a client opens the log, starts a commit, performs a call of it, or returns; or
    anyone else appends, a failed append that lands late included. *)
Inductive sys_step (s : System) : System -> Prop :=
| client_opens :
    sys_step s {| sys_log := sys_log s; sys_clients := sys_clients s ++ [Idle log_new]; sys_acks := sys_acks s |}
| client_commits i h polls record :
    sys_clients s !! i = Some (Idle h) ->
    sys_step s {| sys_log := sys_log s;
                  sys_clients := <[i := Committing record (commit polls record h)]> (sys_clients s);
                  sys_acks := sys_acks s |}
| client_calls i record p log' p' :
    sys_clients s !! i = Some (Committing record p) -> prog_step (sys_log s) p log' p' ->
    sys_step s {| sys_log := log'; sys_clients := <[i := Committing record p']> (sys_clients s); sys_acks := sys_acks s |}
| client_returns i record h r :
    sys_clients s !! i = Some (Committing record (Done (h, r))) ->
    sys_step s {| sys_log := sys_log s; sys_clients := <[i := Idle h]> (sys_clients s);
                  sys_acks := sys_acks s ++ acknowledged record r |}
| client_crashes i record :
    sys_clients s !! i = Some (Committing record Crash) ->
    sys_step s {| sys_log := sys_log s; sys_clients := <[i := Crashed]> (sys_clients s); sys_acks := sys_acks s |}
| log_grows frame :
    sys_step s {| sys_log := sys_log s ++ [frame]; sys_clients := sys_clients s; sys_acks := sys_acks s |}.

Inductive sys_reachable : System -> Prop :=
| sys_start log : sys_reachable {| sys_log := log; sys_clients := []; sys_acks := [] |}
| sys_next s s' : sys_reachable s -> sys_step s s' -> sys_reachable s'.

End Log.
Arguments Done {_ A} a.
Arguments Crash {_ A}.
Arguments Read {_ A} cursor k.
Arguments Append {_ A} record k.
