(* ===== verification/HistoryLogSafety.v ===== *)
(** * What the clients of one log agree on

    Every client's graph is the fold of a prefix of the log, whatever batches it read and
    however its appends failed.  So an outcome returned to one client is the outcome of every
    client that reads as far, and of two records that extend one revision at most one is
    acknowledged as applied. *)
From S2P Require Import Prelude.
From stdpp Require Import list.
From S2P Require Import RustStr Json Conversation HistoryGraph HistoryInvariant HistoryLog.

Section Safety.
Context `{SessionCodec} `{!HistoryDigests} (encode_error : HistoryRecord -> option string).

(** ** Folds *)

Lemma apply_error g record g' e : graph_ok g -> apply g record = Ret (g', Err e) -> g' = g.
Proof.
  intros Hg. unfold apply. destruct (_ || _); [by intros [= <- _]|]. destruct (_ && _); [by intros [= <- _]|].
  destruct (outcome g record) as [[o|]|e'] eqn:Eo; [done| |by intros [= <- _]].
  assert (g_seen g !! rec_id record = None) as Hs.
  { revert Eo. unfold outcome. destruct (g_seen g !! rec_id record) as [[known o]|]; [|done].
    by destruct (String.eqb known (digest record)). }
  destruct (settle g (dispatch g record)) as [[g1 r]| |] eqn:E; [|done|done]. cbn [mbind run_bind]. intros Hr.
  apply Ret_inj in Hr. destruct r as [o|e1]; [done|]. cbn in Hr. injection Hr as <- _.
  destruct (settle_cases E) as [Hd|[Hsame _]]; [|done].
  by destruct (dispatch_ok g record g1 _ "" Hg Hs Hd) as (? & _).
Qed.

(** The records of a log prefix and the graph that folds them without an error. *)
Definition folds (rs : list HistoryRecord) (g : HistoryGraph) : Prop := apply_all graph_default rs = Ret (g, Ok tt).

Lemma apply_all_app g rs rs' g' :
  apply_all g rs = Ret (g', Ok tt) -> apply_all g (rs ++ rs') = apply_all g' rs'.
Proof.
  revert g. induction rs as [|r rs IH]; intros g; cbn; [by intros [= <-]|].
  intros ([g1 [o|e]] & Ha & Hr)%run_bind_Ret; [|done]. rewrite Ha. cbn. by apply IH.
Qed.

Lemma folds_fold_log rs g : folds rs g -> fold_log graph_default rs = Ret g.
Proof. intros (prefix & rest & -> & Hf & Hr)%apply_all_fold. by rewrite (Hr eq_refl), app_nil_r. Qed.

Lemma folds_split rs rs' g : folds (rs ++ rs') g -> exists g1, folds rs g1 /\ apply_all g1 rs' = Ret (g, Ok tt).
Proof.
  unfold folds. generalize graph_default as g0. induction rs as [|r rs IH]; intros g0; cbn; [eauto|].
  intros ([g1 [o|e]] & Ha & Hr)%run_bind_Ret; [|done]. destruct (IH _ Hr) as (g2 & K2 & K3).
  exists g2. rewrite Ha. done.
Qed.

Lemma folds_snoc rs g record g' o : folds rs g -> apply g record = Ret (g', Ok o) -> folds (rs ++ [record]) g'.
Proof. intros Hf Ha. unfold folds. rewrite (apply_all_app _ _ _ _ Hf). cbn. by rewrite Ha. Qed.

Lemma folds_ok rs g : folds rs g -> graph_ok g.
Proof.
  intros K1%folds_fold_log. destruct (fold_log_reached rs) as (g' & K2 & K3). rewrite K1 in K2. by injection K2 as ->.
Qed.

(** Folding a part of what was folded again changes nothing. *)
Lemma folds_replay rs g c d :
  folds rs g -> apply_all g (take d (drop c rs)) = Ret (g, Ok tt).
Proof.
  intros Hf. rewrite <- (take_drop c rs) in Hf. destruct (folds_split _ _ _ Hf) as (g1 & K1 & K2).
  rewrite <- (take_drop d (drop c rs)) in K2.
  assert (exists g2, apply_all g1 (take d (drop c rs)) = Ret (g2, Ok tt) /\ apply_all g2 (drop d (drop c rs)) = Ret (g, Ok tt))
    as (g2 & K3 & K4).
  { revert K2. generalize (take d (drop c rs)) as l, (drop d (drop c rs)) as l'. intros l l'. clear.
    revert g1. induction l as [|r l IH]; intros g1; cbn; [eauto|].
    intros ([g3 [o|e]] & Ha & Hr)%run_bind_Ret; [|done]. destruct (IH _ Hr) as (g4 & ? & ?). exists g4. by rewrite Ha. }
  assert (fold_log g2 (drop d (drop c rs)) = Ret g) as K5.
  { apply apply_all_fold in K4 as (prefix & rest & Heq & Hfold & Hrest). rewrite (Hrest eq_refl), app_nil_r in Heq. by rewrite Heq. }
  by apply (log_replay_is_noop _ _ _ _ _ _ (folds_fold_log _ _ K1) K3 K5).
Qed.

(** ** What a client has read *)

(** The graph folds a prefix of the log that reaches at least to the cursor. *)
Definition folded (log : list Frame) (h : HistoryLog) : Prop :=
  exists rs, map Ok rs `prefix_of` log /\ folds rs (hl_graph h) /\ hl_cursor h <= length rs.

Definition settled (log : list Frame) (record : HistoryRecord) (o : RecordOutcome) : Prop :=
  exists rs g, map Ok rs `prefix_of` log /\ folds rs g /\ outcome g record = Ok (Some o).

Lemma folded_mono log log' h : log `prefix_of` log' -> folded log h -> folded log' h.
Proof. intros Hl (rs & Hp & Hrest). exists rs. split; [by etrans|done]. Qed.

Lemma settled_mono log log' r o : log `prefix_of` log' -> settled log r o -> settled log' r o.
Proof. intros Hl (rs & g & Hp & Hrest). exists rs, g. split; [by etrans|done]. Qed.

Lemma folded_new log : folded log log_new.
Proof. exists []. split_and!; [apply prefix_nil|done|done]. Qed.

Lemma folded_settled log h r o : folded log h -> outcome (hl_graph h) r = Ok (Some o) -> settled log r o.
Proof. intros (rs & Hp & Hf & _) Ho. by exists rs, (hl_graph h). Qed.

(** Lines that continue a folded prefix keep it folded, up to the first that fails. *)
Lemma apply_lines_new lines : forall log rs g,
  map Ok rs ++ lines `prefix_of` log -> folds rs g ->
  exists g' r rs', apply_lines g lines = Ret (g', r) /\ map Ok (rs ++ rs') `prefix_of` log /\ folds (rs ++ rs') g'
    /\ (r = Ok tt -> length rs' = length lines).
Proof.
  induction lines as [|line lines IH]; intros log rs g Hp Hf.
  - exists g, (Ok tt), []. rewrite app_nil_r in Hp. rewrite app_nil_r. done.
  - destruct line as [record|e]; cbn [apply_lines].
    + destruct (apply_cases g record (folds_ok _ _ Hf)) as (g1 & r1 & Ha & _). rewrite Ha. cbn [mbind run_bind].
      destruct r1 as [o|e].
      * destruct (IH log (rs ++ [record]) g1) as (g' & r & rs' & E & Hp' & Hf' & Hlen).
        { rewrite map_app, <- app_assoc. exact Hp. }
        { by eapply folds_snoc. }
        rewrite <- app_assoc in Hp', Hf'. exists g', r, (record :: rs'). split_and!; [done|done|done|].
        intros ->. cbn. by rewrite Hlen.
      * apply apply_error in Ha as ->; [|by eapply folds_ok]. exists g, (Err e), []. rewrite app_nil_r.
        split_and!; [done| |done|done]. etrans; [by apply prefix_app_r|exact Hp].
    + exists g, (Err e), []. rewrite app_nil_r. split_and!; [done| |done|done].
      etrans; [by apply prefix_app_r|exact Hp].
Qed.

Lemma apply_lines_records g rs g' : apply_all g rs = Ret (g', Ok tt) -> apply_lines g (map Ok rs) = Ret (g', Ok tt).
Proof.
  revert g. induction rs as [|r rs IH]; intros g; cbn; [done|].
  intros ([g1 [o|e]] & Ha & Hr)%run_bind_Ret; [|done]. rewrite Ha. cbn. by apply IH.
Qed.

Lemma apply_lines_app g l l' g' :
  apply_lines g l = Ret (g', Ok tt) -> apply_lines g (l ++ l') = apply_lines g' l'.
Proof.
  revert g. induction l as [|[r|e] l IH]; intros g; cbn; [by intros [= <-]| |done].
  intros ([g1 [o|e]] & Ha & Hr)%run_bind_Ret; [|done]. rewrite Ha. cbn. by apply IH.
Qed.

(** A batch from the cursor: what was folded before changes nothing, the rest is folded. *)
Lemma batch_folded log h lines next :
  folded log h -> lines <> [] -> read_answer log (hl_cursor h) (Ok (lines, next)) ->
  exists g r, apply_lines (hl_graph h) lines = Ret (g, r)
    /\ folded log {| hl_cursor := match r with Ok _ => next | Err _ => hl_cursor h end; hl_graph := g |}.
Proof.
  intros (rs & Hp & Hf & Hc) Hne Ha. destruct lines as [|x lines]; [done|].
  cbn [read_answer] in Ha. destruct Ha as (Hlt & Hlen & Hlines). rewrite Hlines. clear Hlines x lines Hne.
  set (c := hl_cursor h) in *. destruct Hp as [rest ->]. unfold Frame in *.
  assert (drop c (map Ok rs ++ rest) = map Ok (drop c rs) ++ rest) as ->.
  { rewrite skipn_app, length_map, skipn_map. by replace (c - length rs) with 0 by lia. }
  rewrite firstn_app, length_map, firstn_map, length_skipn.
  set (again := take (next - c) (drop c rs)). set (new := take (next - c - (length rs - c)) rest).
  assert (apply_lines (hl_graph h) (map Ok again) = Ret (hl_graph h, Ok tt)) as Hagain
    by (by apply apply_lines_records, folds_replay).
  pose proof (apply_lines_app _ _ new _ Hagain) as Happ. unfold Frame in Happ. rewrite Happ.
  destruct (apply_lines_new new (map Ok rs ++ rest) rs (hl_graph h)) as (g' & r & rs' & E & Hp' & Hf' & Hok);
    [exists (drop (next - c - (length rs - c)) rest); unfold new; by rewrite <- app_assoc, take_drop|done|].
  exists g', r. split; [done|]. exists (rs ++ rs'). cbn [hl_graph hl_cursor]. split_and!; [done|done|].
  rewrite length_app. destruct r as [[]|e]; [|lia]. rewrite Hok by done. unfold new. rewrite length_take.
  rewrite length_app, length_map in Hlen. lia.
Qed.

(** ** Programs *)

(** What holds when a program returns, whatever the log did meanwhile. *)
Fixpoint wp {A} (p : Prog A) (log : list Frame) (Q : A -> list Frame -> Prop) : Prop :=
  match p with
  | Done a => Q a log
  | Crash => False
  | Read cursor k =>
      forall log' answer, log `prefix_of` log' -> read_answer log' cursor answer -> wp (k answer) log' Q
  | Append record k =>
      forall log', log `prefix_of` log' ->
        wp (k (Ok (S (length log')))) (log' ++ [Ok record]) Q /\ (forall e, wp (k (Err e)) log' Q)
  end.

Lemma wp_conseq {A} (p : Prog A) log (Q Q' : A -> list Frame -> Prop) :
  (forall a log', log `prefix_of` log' -> Q a log' -> Q' a log') -> wp p log Q -> wp p log Q'.
Proof.
  revert log. induction p as [a| |cursor k IH|record k IH]; intros log HQ; cbn [wp]; [by apply HQ|done| |].
  - intros Hwp log' answer Hl Ha. apply IH; [|by apply Hwp]. intros a l Hl' HQa. apply HQ; [by etrans|done].
  - intros Hwp log' Hl. destruct (Hwp log' Hl) as [Hok Herr]. split.
    + apply IH; [|done]. intros a l Hl' HQa. apply HQ; [|done]. etrans; [exact Hl|]. etrans; [|exact Hl']. by eexists.
    + intros e. apply IH; [|done]. intros a l Hl' HQa. apply HQ; [by etrans|done].
Qed.

Lemma log_wp_bind {A B} (p : Prog A) (f : A -> Prog B) log Q :
  wp p log (fun a log' => wp (f a) log' Q) -> wp (prog_bind p f) log Q.
Proof.
  revert log. induction p as [a| |cursor k IH|record k IH]; intros log; cbn [wp prog_bind]; [done|done| |].
  - intros Hwp log' answer Hl Ha. by apply IH, Hwp.
  - intros Hwp log' Hl. destruct (Hwp log' Hl) as [Hok Herr]. split; [by apply IH|]. intros e. by apply IH.
Qed.

(** The log may have grown before the program goes on. *)
Lemma log_wp_mono {A} (p : Prog A) log log' (Q : A -> list Frame -> Prop) :
  (forall a l l', l `prefix_of` l' -> Q a l -> Q a l') -> log `prefix_of` log' -> wp p log Q -> wp p log' Q.
Proof.
  intros HQ Hl. destruct p as [a| |cursor k|record k]; cbn [wp]; [by apply HQ|done| |].
  - intros Hwp l answer Hl' Ha. apply Hwp; [by etrans|done].
  - intros Hwp l Hl'. apply Hwp. by etrans.
Qed.

Lemma wp_step {A} (p p' : Prog A) log log' Q : prog_step log p log' p' -> wp p log Q -> wp p' log' Q.
Proof.
  destruct 1 as [log cursor answer k Ha|log record k|log record e k]; cbn [wp]; intros Hwp.
  - by apply Hwp.
  - by apply (Hwp log).
  - by apply (Hwp log).
Qed.

(** A method that keeps the log folded, with [Q] of its results. *)
Definition keeps {A} (Q : A -> list Frame -> Prop) (x : HistoryLog * result string A) (log : list Frame) : Prop :=
  folded log x.1 /\ forall a, x.2 = Ok a -> Q a log.

Lemma refresh_loop_ok rounds h log :
  folded log h -> wp (refresh_loop rounds h) log (keeps (fun _ _ => True)).
Proof.
  revert h log. induction rounds as [|rounds IH]; intros h log Hh; [by split|].
  cbn [refresh_loop wp]. intros log' answer Hl Ha. apply (folded_mono _ log') in Hh; [|done].
  destruct answer as [[[|line lines] next]|e]; [by split| |by split].
  destruct (next <=? hl_cursor h); [by split|].
  destruct (batch_folded log' h (line :: lines) next Hh) as (g & r & E & Hf); [done|done|]. rewrite E.
  destruct r as [[]|e]; [by apply IH|by split].
Qed.

Lemma refresh_ok h log : folded log h -> wp (refresh h) log (keeps (fun _ _ => True)).
Proof. apply refresh_loop_ok. Qed.

Lemma observe_folds polls record after h log :
  folded log h -> wp (observe polls record after h) log (keeps (fun o l => settled l record o)).
Proof.
  revert h log. induction polls as [|polls IH]; intros h log Hh; cbn [observe]; apply log_wp_bind;
    (eapply wp_conseq; [|by apply refresh_ok]); intros [h' r] log' Hl [Hf _]; cbn [fst] in Hf;
    (destruct r as [[]|e]; [|by split]);
    (destruct (outcome (hl_graph h') record) as [[o|]|e] eqn:Eo; [| |by split]);
    try (destruct (after <=? hl_cursor h'));
    try (by split); try (by apply IH);
    (split; [done|]; intros a [= <-]; by eapply folded_settled).
Qed.

Lemma commit_ok polls record h log :
  folded log h -> wp (commit encode_error polls record h) log (keeps (fun o l => settled l record o)).
Proof.
  intros Hh. unfold commit. apply log_wp_bind. eapply wp_conseq; [|by apply refresh_ok].
  intros [h1 r1] l1 _ [Hf1 _]. cbn [fst] in Hf1. destruct r1 as [[]|e]; [|by split].
  destruct (outcome (hl_graph h1) record) as [[o|]|e] eqn:Eo; [|..|by split].
  { split; [done|]. intros a [= <-]. by eapply folded_settled. }
  destruct (encode_error record) as [e|]; [by split|]. cbn [wp]. intros l2 Hl2. split.
  - apply observe_folds. eapply folded_mono; [|exact Hf1]. etrans; [exact Hl2|]. by eexists.
  - intros e. apply log_wp_bind. eapply wp_conseq; [|apply refresh_ok; by eapply folded_mono].
    intros [h3 r3] l3 _ [Hf3 _]. cbn [fst] in Hf3. destruct r3 as [[]|e3]; [|by split].
    destruct (outcome (hl_graph h3) record) as [[o|]|e3] eqn:Eo3; [|by split|by split].
    split; [done|]. intros a [= <-]. by eapply folded_settled.
Qed.

(** ** Systems *)

Definition client_ok (log : list Frame) (c : Client) : Prop :=
  match c with
  | Idle h => folded log h
  | Committing record p => wp p log (keeps (fun o l => settled l record o))
  | Crashed => False
  end.

Definition sys_ok (s : System) : Prop :=
  Forall (client_ok (sys_log s)) (sys_clients s)
  /\ Forall (fun a => settled (sys_log s) a.1 a.2) (sys_acks s).

Lemma keeps_mono {A} (Q : A -> list Frame -> Prop) x l l' :
  (forall a m m', m `prefix_of` m' -> Q a m -> Q a m') -> l `prefix_of` l' -> keeps Q x l -> keeps Q x l'.
Proof. intros HQ Hl [Hf Ha]. split; [by eapply folded_mono|]. intros a E. by eapply HQ, Ha. Qed.

Lemma client_mono log log' c : log `prefix_of` log' -> client_ok log c -> client_ok log' c.
Proof.
  destruct c as [h|record p|]; cbn; [by apply folded_mono| |done].
  intros Hl. apply log_wp_mono; [|done]. intros a l l'. apply keeps_mono. intros o m m'. apply settled_mono.
Qed.

Lemma step_grows {A} log (p : Prog A) log' p' : prog_step log p log' p' -> log `prefix_of` log'.
Proof. destruct 1; try done. by eexists. Qed.

Lemma sys_grows s s' : sys_step encode_error s s' -> sys_log s `prefix_of` sys_log s'.
Proof. destruct 1; cbn; try done; [by eapply step_grows|by eexists]. Qed.

Lemma sys_step_ok s s' : sys_step encode_error s s' -> sys_ok s -> sys_ok s'.
Proof.
  intros Hstep [Hc Ha]. pose proof (sys_grows _ _ Hstep) as Hl.
  assert (Forall (client_ok (sys_log s')) (sys_clients s)) as Hc'.
  { eapply Forall_impl; [exact Hc|]. intros c. by apply client_mono. }
  assert (Forall (fun a => settled (sys_log s') a.1 a.2) (sys_acks s)) as Ha'.
  { eapply Forall_impl; [exact Ha|]. intros a. by apply settled_mono. }
  assert (forall i c, sys_clients s !! i = Some c -> client_ok (sys_log s) c) as Hat.
  { intros i c Hi. rewrite Forall_lookup in Hc. by eapply Hc. }
  destruct Hstep as [|i h polls record Hi|i record p log' p' Hi Hs|i record h r Hi|i record Hi|frame];
    cbn in *; split; try done; try (by apply Forall_insert).
  - apply Forall_app. split; [done|]. constructor; [apply folded_new|done].
  - apply Forall_insert; [done|]. apply commit_ok. exact (Hat i _ Hi).
  - apply Forall_insert; [done|]. cbn. eapply wp_step; [exact Hs|]. exact (Hat i _ Hi).
  - apply Forall_insert; [done|]. by destruct (Hat i _ Hi).
  - apply Forall_app. split; [done|]. destruct (Hat i _ Hi) as [_ Hr]. cbn in Hr.
    destruct r as [o|e]; [|done]. constructor; [by apply Hr|done].
  - by destruct (Hat i _ Hi).
Qed.

Lemma sys_reachable_ok s : sys_reachable encode_error s -> sys_ok s.
Proof. induction 1 as [log|s s' _ IH Hs]; [by split|]. by eapply sys_step_ok. Qed.

(** ** Agreement *)

Lemma folds_evolves rs rs' g g' : folds rs g -> folds (rs ++ rs') g' -> evolves g g'.
Proof.
  intros Hg Hg'. destruct (folds_split _ _ _ Hg') as (g1 & K1 & K2).
  assert (g1 = g) as -> by (unfold folds in *; congruence).
  destruct (apply_all_fold _ _ _ _ K2) as (prefix & rest & Heq & Hf & Hr).
  rewrite (Hr eq_refl), app_nil_r in Heq. subst prefix.
  destruct (fold_log_ok g rs' (folds_ok _ _ Hg)) as (g2 & Hf2 & _ & He). rewrite Hf in Hf2. by injection Hf2 as <-.
Qed.

Lemma folds_later rs rs' g g' record o :
  folds rs g -> folds (rs ++ rs') g' -> outcome g record = Ok (Some o) -> outcome g' record = Ok (Some o).
Proof.
  intros Hg Hg' Ho. pose proof (folds_evolves _ _ _ _ Hg Hg') as He.
  unfold outcome in *. destruct (g_seen g !! rec_id record) as [[known o']|] eqn:Es; [|done].
  by rewrite (ev_seen _ _ He _ _ Es).
Qed.

Lemma prefixes_comparable (rs1 rs2 : list HistoryRecord) (log : list Frame) :
  map Ok rs1 `prefix_of` log -> map Ok rs2 `prefix_of` log -> rs1 `prefix_of` rs2 \/ rs2 `prefix_of` rs1.
Proof.
  assert (forall a b : list HistoryRecord, map (Ok (E := string)) a `prefix_of` map Ok b -> a `prefix_of` b) as Hinj.
  { intros a b [k Hk]. exists (drop (length a) b). symmetry. rewrite <- (take_drop (length a) b) at 2. f_equal.
    assert (map (Ok (E := string)) (take (length a) b) = map Ok a) as Hm.
    { rewrite <- firstn_map, Hk, take_app_length'; [done|by rewrite length_map]. }
    revert Hm. generalize (take (length a) b). clear. revert a.
    intros a l. revert a. induction l as [|x l IH]; intros [|y a]; cbn; try done. intros [= -> K]. f_equal. by apply IH. }
  intros K1 K2. destruct (prefix_weak_total _ _ _ K1 K2) as [K|K]; [left|right]; by apply Hinj.
Qed.

Lemma settled_common log r1 o1 r2 o2 :
  settled log r1 o1 -> settled log r2 o2 ->
  exists rs g, map Ok rs `prefix_of` log /\ folds rs g /\ outcome g r1 = Ok (Some o1) /\ outcome g r2 = Ok (Some o2).
Proof.
  intros (rs1 & g1 & Hp1 & Hf1 & Ho1) (rs2 & g2 & Hp2 & Hf2 & Ho2).
  destruct (prefixes_comparable rs1 rs2 log Hp1 Hp2) as [[k ->]|[k ->]].
  - exists (rs1 ++ k), g2. split_and!; [done|done| |done]. by apply (folds_later rs1 k g1 g2).
  - exists (rs2 ++ k), g1. split_and!; [done|done|done|]. by apply (folds_later rs2 k g2 g1).
Qed.

(** ** Where an outcome comes from *)

Lemma outcome_seen g record o :
  outcome g record = Ok (Some o) -> g_seen g !! rec_id record = Some (digest record, o).
Proof.
  unfold outcome. destruct (g_seen g !! rec_id record) as [[known o']|]; [|done].
  destruct (String.eqb_spec known (digest record)) as [->|]; [|done]. by intros [= ->].
Qed.

(** An outcome some prefix settled is what every folded graph holds, once it reads as far. *)
Lemma folded_agrees log h record o :
  folded log h -> settled log record o ->
  outcome (hl_graph h) record = Ok None \/ outcome (hl_graph h) record = Ok (Some o).
Proof.
  intros (rs & Hp & Hf & _) (rs' & g & Hp' & Hf' & Ho).
  destruct (prefixes_comparable rs rs' log Hp Hp') as [[k ->]|[k ->]].
  - unfold outcome. destruct (g_seen (hl_graph h) !! rec_id record) as [x|] eqn:Es; [|by left].
    apply (ev_seen _ _ (folds_evolves _ _ _ _ Hf Hf')) in Es. apply outcome_seen in Ho. rewrite Ho in Es.
    injection Es as <-. rewrite String.eqb_refl. by right.
  - right. by apply (folds_later rs' k g (hl_graph h)).
Qed.

Lemma dispatch_seen g record g1 r : dispatch g record = Ok (g1, r) -> g_seen g1 = g_seen g.
Proof.
  assert (forall source g2, open_context g record source = Ok g2 -> g_seen g2 = g_seen g) as Hopen.
  { intros source g2. unfold open_context. intros ([] & _ & Ho)%result_bind_ok.
    apply result_bind_ok in Ho as ([[[[p m] b] i] o] & _ & Ho). apply result_bind_ok in Ho as ([[op ch] ns] & _ & Ho).
    by injection Ho as <-. }
  assert (change g record = Ok (g1, r) -> g_seen g1 = g_seen g) as Hchange.
  { unfold change. destruct (g_contexts g !! rec_context_id record) as [c|]; [|done].
    intros ([] & _ & Ho)%result_bind_ok. apply result_bind_ok in Ho as ([ms c'] & _ & Ho).
    injection Ho as Ho. revert Ho. unfold change_finish. repeat case_match; by intros [= <- _]. }
  unfold dispatch. destruct (rec_event record); try exact Hchange.
  - intros (g2 & Hi & [= <- <-])%result_bind_ok. revert Hi. unfold initialize.
    intros ([] & _ & Ho)%result_bind_ok. do 3 apply result_bind_ok in Ho as (? & _ & Ho). apply result_bind_ok in Ho as ([[op ch] ns] & _ & Ho).
    apply result_bind_ok in Ho as ([] & _ & Ho). by injection Ho as <-.
  - intros (g2 & Ho & [= <- <-])%result_bind_ok. by eapply Hopen.
  - intros (src & _ & Ho)%result_bind_ok. apply result_bind_ok in Ho as (g2 & Ho & [= <- <-]). by eapply Hopen.
Qed.

(** A record changes what is remembered of its own id only, and of an unknown id only. *)
Lemma apply_seen_origin g record g' o id x :
  apply g record = Ret (g', Ok o) -> g_seen g' !! id = Some x ->
  g_seen g !! id = Some x \/ g_seen g !! rec_id record = None /\ id = rec_id record /\ x = (digest record, o).
Proof.
  intros Ha Hx. destruct (apply_checked Ha) as (Hv & Hi & Hc & He).
  destruct (outcome g record) as [[o'|]|e] eqn:Eo.
  - pose proof (apply_seen g record o' (outcome_seen _ _ _ Eo) Hv Hi Hc He) as Hs. rewrite Ha in Hs.
    injection Hs as -> _. by left.
  - assert (g_seen g !! rec_id record = None) as Hs.
    { revert Eo. unfold outcome. destruct (g_seen g !! rec_id record) as [[known o']|]; [|done]. by destruct (String.eqb known (digest record)). }
    rewrite apply_unseen in Ha by done. apply run_bind_Ret in Ha as ([g1 r] & Hset & Ha). apply Ret_inj in Ha.
    destruct r as [o1|e]; [|done]. cbn in Ha. injection Ha as <- ->.
    assert (g_seen g1 = g_seen g) as Hg1.
    { destruct (settle_cases Hset) as [Hd|[Hd _]]; [by eapply dispatch_seen|cbn in Hd; congruence]. }
    cbn in Hx. destruct (decide (id = rec_id record)) as [->|Hne].
    + right. rewrite lookup_insert_eq in Hx. by injection Hx as <-.
    + left. rewrite lookup_insert_ne in Hx by done. rewrite <- Hg1. revert Hx. by case_match.
  - exfalso. revert Ha. unfold apply. do 2 (case_match; [done|]). by rewrite Eo.
Qed.

(** [record] was new, and settled as [o], at the end of the prefix [before]. *)
Definition settles_at (before : list HistoryRecord) (record : HistoryRecord) (o : RecordOutcome)
  (after : list HistoryRecord) (g : HistoryGraph) : Prop :=
  exists g0 g1, folds before g0 /\ g_seen g0 !! rec_id record = None /\ apply g0 record = Ret (g1, Ok o)
    /\ apply_all g1 after = Ret (g, Ok tt).

Lemma apply_all_trans g a g' b x : apply_all g a = Ret (g', Ok tt) -> apply_all g' b = x -> apply_all g (a ++ b) = x.
Proof. intros Ha <-. by apply apply_all_app. Qed.

Lemma seen_origin rs g id d o :
  folds rs g -> g_seen g !! id = Some (d, o) ->
  exists before record after, rs = before ++ record :: after /\ rec_id record = id /\ digest record = d
    /\ settles_at before record o after g.
Proof.
  revert g. induction rs as [|r rs IH] using rev_ind; intros g Hf Hs; [by injection Hf as <-|].
  destruct (folds_split _ _ _ Hf) as (g1 & K1 & K2). cbn in K2.
  apply run_bind_Ret in K2 as ([g2 [o1|e]] & Ha & K3); [|done]. injection K3 as ->.
  destruct (apply_seen_origin _ _ _ _ _ _ Ha Hs) as [Hold|(Hn & -> & [= -> ->])].
  - destruct (IH g1 K1 Hold) as (before & x & after & -> & Hid & Hd & g3 & g4 & W1 & W2 & W3 & W4).
    exists before, x, (after ++ [r]). split_and!; [by rewrite <- app_assoc|done|done|].
    exists g3, g4. split_and!; [done|done|done|]. eapply apply_all_trans; [exact W4|]. cbn. by rewrite Ha.
  - exists rs, r, []. split_and!; [done|done|done|]. exists g1, g. done.
Qed.

(** Two places of one list: the same, or one before the other. *)
Lemma first_of_two {A} (a1 a2 : list A) x1 x2 b1 b2 :
  a1 ++ x1 :: b1 = a2 ++ x2 :: b2 ->
  x1 = x2 \/ (exists mid, a2 = a1 ++ x1 :: mid) \/ (exists mid, a1 = a2 ++ x2 :: mid).
Proof.
  revert a2. induction a1 as [|y a1 IH]; intros [|z a2]; cbn.
  - intros [= -> _]. by left.
  - intros [= <- _]. right. left. by exists a2.
  - intros [= -> _]. right. right. by exists a1.
  - intros [= -> K]. destruct (IH a2 K) as [->|[[mid ->]|[mid ->]]]; eauto.
Qed.

Lemma no_second_winner a mid x1 x2 b1 b2 g rev :
  settles_at a x1 Applied b1 g -> settles_at (a ++ x1 :: mid) x2 Applied b2 g ->
  rec_context_id x1 = rec_context_id x2 ->
  rec_expected_revision x1 = Some rev -> rec_expected_revision x2 = Some rev -> False.
Proof.
  intros (g0 & g1 & W1 & W2 & W3 & _) (g2 & g3 & K1 & K2 & K3 & _) Hc Hr1 Hr2.
  destruct (folds_split _ _ _ K1) as (g0' & Hf & Hm).
  assert (g0' = g0) as -> by (unfold folds in *; congruence).
  cbn in Hm. rewrite W3 in Hm. cbn in Hm.
  destruct (apply_all_fold _ _ _ _ Hm) as (prefix & rest & Heq & Hfold & Hrest).
  rewrite (Hrest eq_refl), app_nil_r in Heq. subst prefix.
  destruct (apply_checked K3) as (? & ? & _ & Hno). rewrite Hr2 in Hno.
  destruct (continuation_once a g0 x1 g1 mid g2 x2 (rec_context_id x2) rev) as (g4 & K4 & _); try done.
  - by apply folds_fold_log.
  - congruence.
Qed.

(** C16. No client ever disagrees with an outcome that was returned.

    Whatever the clients of one log do, and however reads lag, fail or repeat and appends
    fail, land late or are lost, no client panics; and once a commit returned an outcome,
    every other commit that returns one for that record id returns the same, and every
    client's graph has either not reached the record yet or holds that outcome for it. *)
Theorem acknowledged_outcomes_agree s :
  sys_reachable encode_error s ->
  (forall i, sys_clients s !! i <> Some Crashed) /\
  forall record o, (record, o) ∈ sys_acks s ->
    (forall record' o', (record', o') ∈ sys_acks s -> rec_id record' = rec_id record -> o' = o) /\
    (forall i h, sys_clients s !! i = Some (Idle h) ->
       outcome (hl_graph h) record = Ok None \/ outcome (hl_graph h) record = Ok (Some o)).
Proof.
  intros [Hc Ha]%sys_reachable_ok. rewrite Forall_lookup in Hc. rewrite Forall_forall in Ha. split.
  { intros i Hi. exact (Hc i _ Hi). }
  intros record o Hin. pose proof (Ha _ Hin) as Ho. cbn in Ho. split.
  - intros record' o' Hin' Hid. pose proof (Ha _ Hin') as Ho'. cbn in Ho'.
    destruct (settled_common _ _ _ _ _ Ho Ho') as (rs & g & _ & _ & K1 & K2).
    apply outcome_seen in K1. apply outcome_seen in K2. rewrite Hid in K2. congruence.
  - intros i h Hi. apply (Hc i) in Hi. by eapply folded_agrees.
Qed.

(** C8. Of the records that extend one revision, at most one is acknowledged as applied.

    Two clients that commit different records extending the same revision of the same
    context never both return that theirs was applied, wherever the records land in the log
    and however often they are redelivered; provided equal digests are of records that
    extend the same revision of the same context. *)
Theorem one_acknowledged_continuation s r1 r2 rev :
  (forall r r', digest r = digest r' ->
     rec_context_id r = rec_context_id r' /\ rec_expected_revision r = rec_expected_revision r') ->
  sys_reachable encode_error s ->
  (r1, Applied) ∈ sys_acks s -> (r2, Applied) ∈ sys_acks s ->
  rec_context_id r1 = rec_context_id r2 ->
  rec_expected_revision r1 = Some rev -> rec_expected_revision r2 = Some rev ->
  rec_id r1 = rec_id r2.
Proof.
  intros Hinj [_ Ha]%sys_reachable_ok K1 K2 Hc Hr1 Hr2. rewrite Forall_forall in Ha.
  apply Ha in K1, K2. cbn in K1, K2.
  destruct (settled_common _ _ _ _ _ K1 K2) as (rs & g & _ & Hf & Ho1 & Ho2).
  destruct (seen_origin _ _ _ _ _ Hf (outcome_seen _ _ _ Ho1)) as (a1 & x1 & b1 & Hx1 & <- & [E1 E1']%Hinj & W1).
  destruct (seen_origin _ _ _ _ _ Hf (outcome_seen _ _ _ Ho2)) as (a2 & x2 & b2 & Hx2 & <- & [E2 E2']%Hinj & W2).
  destruct (first_of_two a1 a2 x1 x2 b1 b2) as [<-|[(mid & ->)|(mid & ->)]]; [congruence|done|..]; exfalso.
  - apply (no_second_winner a1 mid x1 x2 b1 b2 g rev); congruence.
  - apply (no_second_winner a2 mid x2 x1 b2 b1 g rev); congruence.
Qed.
End Safety.
