(* ===== verification/HistoryLogModel.v ===== *)
(** * Two clients of one log

    The agreement theorems at a concrete log: two clients commit the same record, the second
    with another timestamp, and then one commits a rival of it. *)
From S2P Require Import Prelude.
From stdpp Require Import list countable.
From S2P Require Import RustStr Json JsonModel Conversation HistoryGraph HistoryInvariant HistoryModel HistoryLog HistoryLogSafety.

(** ** Digests that tell records apart *)

Fixpoint bits (p : positive) : string :=
  match p with
  | xH => EmptyString
  | xO p => String "0" (bits p)
  | xI p => String "1" (bits p)
  end.

Lemma bits_inj p q : bits p = bits q -> p = q.
Proof. revert q. induction p as [p IH|p IH|]; intros [q|q|]; cbn; try done; intros [= K]; by rewrite (IH _ K). Qed.

#[export] Instance binding_digests : HistoryDigests := {|
  digest r := bits (encode (rec_id r, rec_context_id r, rec_expected_revision r));
  resume_digest context index original := (context ++ pretty (N.of_nat index))%string;
  legacy_digest session_id index value := (session_id ++ pretty (N.of_nat index))%string
|}.

Lemma digest_binds r r' :
  digest r = digest r' ->
  rec_context_id r = rec_context_id r' /\ rec_expected_revision r = rec_expected_revision r'.
Proof. intros K%bits_inj. apply (inj encode) in K. by injection K as _ K1 K2. Qed.

(** ** A transport that always answers *)

Definition full_answer (log : list Frame) (cursor : nat) : result string (list Frame * nat) :=
  if cursor <? length log then Ok (drop cursor log, length log) else Ok ([], cursor).

Lemma full_answer_allowed log cursor : read_answer log cursor (full_answer log cursor).
Proof.
  unfold full_answer. destruct (cursor <? length log) eqn:E; [|done]. apply Nat.ltb_lt in E. unfold read_answer.
  destruct (drop cursor log) as [|x l] eqn:Ed; [done|]. rewrite <- Ed. unfold Frame in *.
  split_and!; [done|done|]. rewrite take_ge; [done|]. rewrite length_skipn. lia.
Qed.

Fixpoint play {A} (log : list Frame) (p : Prog A) : option (list Frame * A) :=
  match p with
  | Done a => Some (log, a)
  | Crash => None
  | Read cursor k => play log (k (full_answer log cursor))
  | Append record k => play (log ++ [Ok record]) (k (Ok (S (length log))))
  end.

Definition encodes (_ : HistoryRecord) : option string := None.

Lemma play_reachable i record p log' h r s :
  sys_reachable encodes s -> sys_clients s !! i = Some (Committing record p) ->
  play (sys_log s) p = Some (log', (h, r)) ->
  sys_reachable encodes {| sys_log := log'; sys_clients := <[i := Idle h]> (sys_clients s);
                           sys_acks := sys_acks s ++ acknowledged record r |}.
Proof.
  revert s. induction p as [x| |cursor k IH|record' k IH]; intros s Hs Hi; cbn [play]; [|done|..].
  - intros [= <- ->]. eapply sys_next; [exact Hs|]. by apply client_returns.
  - intros Hp. pose proof (sys_next encodes _ _ Hs (client_calls encodes s i record _ _ _ Hi
      (step_read (sys_log s) cursor _ k (full_answer_allowed _ _)))) as Hn.
    pose proof (fun Hi => IH _ _ Hn Hi Hp) as K. cbn in K. rewrite list_insert_insert_eq in K. apply K.
    apply list_lookup_insert_eq. by eapply lookup_lt_Some.
  - intros Hp. pose proof (sys_next encodes _ _ Hs (client_calls encodes s i record _ _ _ Hi
      (step_append (sys_log s) record' k))) as Hn.
    pose proof (fun Hi => IH _ _ Hn Hi Hp) as K. cbn in K. rewrite list_insert_insert_eq in K. apply K.
    apply list_lookup_insert_eq. by eapply lookup_lt_Some.
Qed.

(** Client [i] commits [record] with nobody else on the log. *)
Definition commits (s : System) (i : nat) (record : HistoryRecord) : System :=
  match sys_clients s !! i with
  | Some (Idle h) =>
      match play (sys_log s) (commit encodes 3 record h) with
      | Some (log, (h, r)) =>
          {| sys_log := log; sys_clients := <[i := Idle h]> (sys_clients s);
             sys_acks := sys_acks s ++ acknowledged record r |}
      | None => s
      end
  | _ => s
  end.

Lemma commits_reachable s i record : sys_reachable encodes s -> sys_reachable encodes (commits s i record).
Proof.
  intros Hs. unfold commits. destruct (sys_clients s !! i) as [[h| |]|] eqn:Hi; try done.
  destruct (play _ _) as [[log [h' r]]|] eqn:Hp; [|done].
  pose proof (sys_next encodes _ _ Hs (client_commits encodes s i h 3 record Hi)) as Hn.
  pose proof (fun Hi => play_reachable i record _ log h' r _ Hn Hi Hp) as Hr. cbn in Hr.
  rewrite list_insert_insert_eq in Hr. apply Hr, list_lookup_insert_eq. by eapply lookup_lt_Some.
Qed.

(** ** A retry and a rival *)

Definition r_retry : HistoryRecord :=
  record_new "r3" 8%N "c0" (Some "r2") (Message "m2" (Some "m1") assistant_text).
Definition r_rival : HistoryRecord := rec "r9" "c0" (Some "r2") (Message "m9" (Some "m1") assistant_text).

Definition two_clients : System :=
  {| sys_log := map Ok sample_log; sys_clients := [Idle log_new; Idle log_new]; sys_acks := [] |}.
Definition sample_system : System :=
  commits (commits (commits two_clients 0 r_stream) 1 r_retry) 1 r_rival.

Lemma sample_system_reachable : sys_reachable encodes sample_system.
Proof.
  do 3 apply commits_reachable.
  pose proof (sys_next encodes _ _ (sys_start encodes (map Ok sample_log)) (client_opens encodes _)) as K1.
  exact (sys_next encodes _ _ K1 (client_opens encodes _)).
Qed.

Lemma sample_acks :
  sys_acks sample_system =
    [(r_stream, Applied); (r_retry, Applied); (r_rival, Rejected "context_revision_changed")].
Proof. vm_compute. reflexivity. Qed.

Lemma acknowledged_outcomes_agree_witness :
  (r_rival, Rejected "context_revision_changed") ∈ sys_acks sample_system /\
  forall i h, sys_clients sample_system !! i = Some (Idle h) ->
    outcome (hl_graph h) r_rival = Ok None \/
    outcome (hl_graph h) r_rival = Ok (Some (Rejected "context_revision_changed")).
Proof.
  assert ((r_rival, Rejected "context_revision_changed") ∈ sys_acks sample_system) as Hin
    by (rewrite sample_acks; do 2 apply list_elem_of_further; apply list_elem_of_here).
  split; [exact Hin|].
  exact (proj2 (proj2 (acknowledged_outcomes_agree encodes sample_system sample_system_reachable) _ _ Hin)).
Defined.

Lemma one_acknowledged_continuation_witness :
  sys_acks sample_system !! 2 = Some (r_rival, Rejected "context_revision_changed") /\
  r_stream <> r_retry /\ rec_id r_stream = rec_id r_retry.
Proof.
  split; [by rewrite sample_acks|]. split; [discriminate|].
  apply (one_acknowledged_continuation encodes sample_system r_stream r_retry "r2" digest_binds
    sample_system_reachable); try reflexivity; rewrite sample_acks.
  - apply list_elem_of_here.
  - apply list_elem_of_further, list_elem_of_here.
Defined.
