(* ===== verification/CursorFence.v ===== *)
(** * Durable reader cursors (runtime/src/cursor_fence.rs)

    A reader records how far it has read in a register that several holders may
    try to write.  The code runs against a storage backend (the [FsBackend]
    trait); a method is here a program that performs backend calls one at a time,
    so that calls of different holders interleave between any two of them.

    [parse] and [encode] are [serde_json] on the register; a version token is an
    opaque byte string. *)
From S2P Require Import Prelude.
From stdpp Require Import list.
From S2P Require Import RustStr.

(** ** Data *)

Inductive IoKind := NotFound | Unsupported | OtherKind.
Record IoError := { io_kind : IoKind; io_message : string }.

Definition VersionToken : Type := string.

Inductive WriteOutcome :=
| Committed (token : VersionToken)
| Conflict (current : option VersionToken)
| Unknown.

Record ReaderRegister := { rr_holder : string; read_offset : N; rr_epoch : N }.

#[export] Instance ReaderRegister_eq_dec : EqDecision ReaderRegister.
Proof. solve_decision. Defined.

Definition register_default : ReaderRegister :=
  {| rr_holder := ""; read_offset := 0%N; rr_epoch := 0%N |}.

Inductive CursorGuarantee := Fenced | FencedCas | AtLeastOnce.

Definition guarantee_as_str (g : CursorGuarantee) : string :=
  match g with Fenced => "fenced" | FencedCas => "fenced_cas" | AtLeastOnce => "at_least_once" end.

Record RegisterCursor := {
  cur_holder : string;
  cur_epoch : N;
  cur_token : option VersionToken;
  cur_guarantee : CursorGuarantee
}.

(** ** Backend calls and programs *)

Inductive Call : Type -> Type :=
| FencedLocks : Call bool
| ReadVersioned : Call (result IoError (option (string * VersionToken)))
| WriteIfVersion (expected : option VersionToken) (data : string) : Call (result IoError WriteOutcome)
| ReadPlain : Call (result IoError string)
| CreateDirAll (dir : string) : Call (result IoError unit)
| WriteAtomic (data : string) : Call (result IoError unit).

Inductive prog (A : Type) : Type :=
| Done (a : A)
| Vis (X : Type) (c : Call X) (k : X -> prog A).
Arguments Done {A} a.
Arguments Vis {A X} c k.

Fixpoint prog_bind_def {A B} (f : A -> prog B) (p : prog A) : prog B :=
  match p with Done a => f a | Vis c k => Vis c (fun x => prog_bind_def f (k x)) end.
#[export] Instance prog_ret : MRet prog := fun A a => Done a.
#[export] Instance prog_bind : MBind prog := fun A B f p => prog_bind_def f p.

Definition call {X} (c : Call X) : prog X := Vis c Done.

Section Cursor.
Variable parse_register : string -> result string ReaderRegister.
Variable encode_register : ReaderRegister -> result string string.
Variable path : string.

Definition parse (raw : string) : result string (option ReaderRegister) :=
  if is_empty raw then Ok None
  else match parse_register raw with
       | Ok r => Ok (Some r)
       | Err e => Err ("reader register " ++ path ++ ": " ++ e)%string
       end.

Definition encode (r : ReaderRegister) : result string string :=
  match encode_register r with
  | Ok raw => Ok raw
  | Err e => Err ("encode reader register " ++ path ++ ": " ++ e)%string
  end.

Definition same_holder (a b : ReaderRegister) : bool :=
  String.eqb (rr_holder a) (rr_holder b) && (rr_epoch a =? rr_epoch b)%N.

Definition same_fence (stored fence : ReaderRegister) : bool :=
  same_holder stored fence && (read_offset stored =? read_offset fence)%N.

(** [path.rsplit_once('/')], the part before the separator. *)
Definition parent_dir : option string :=
  match find_byte (str_rev path) (fun c => Ascii.eqb c "/") with
  | Some i => Some (str_take (len path - S i) path)
  | None => None
  end.

Definition load_plain : prog (result string (option ReaderRegister)) :=
  r ← call ReadPlain;
  mret match r with
       | Ok raw => parse raw
       | Err e =>
           match io_kind e with
           | NotFound => Ok None
           | _ => Err ("read reader register " ++ path ++ ": " ++ io_message e)%string
           end
       end.

Definition read_back : prog (result string (option (ReaderRegister * VersionToken))) :=
  r ← call ReadVersioned;
  mret match r with
       | Err e => Err ("re-read reader register " ++ path ++ ": " ++ io_message e)%string
       | Ok None => Ok None
       | Ok (Some (raw, token)) =>
           match parse raw with
           | Err e => Err e
           | Ok None => Ok None
           | Ok (Some register) => Ok (Some (register, token))
           end
       end.

Definition store_plain (c : RegisterCursor) (offset : N) : prog (result string unit) :=
  made ← match parent_dir with
         | None => mret (Ok tt)
         | Some dir =>
             r ← call (CreateDirAll dir);
             mret match r with
                  | Ok _ => Ok tt
                  | Err e => Err ("create reader directory " ++ dir ++ ": " ++ io_message e)%string
                  end
         end;
  match made with
  | Err e => mret (Err e)
  | Ok _ =>
      match encode {| rr_holder := cur_holder c; read_offset := offset; rr_epoch := 0%N |} with
      | Err e => mret (Err e)
      | Ok data =>
          r ← call (WriteAtomic data);
          mret match r with
               | Ok _ => Ok tt
               | Err e => Err ("write reader register " ++ path ++ ": " ++ io_message e)%string
               end
      end
  end.

Definition Claimed : Type := result string (option (RegisterCursor * N)).

Definition claim_plain (holder : string) (guarantee : CursorGuarantee) : prog Claimed :=
  r ← load_plain;
  match r with
  | Err e => mret (Err e)
  | Ok register =>
      let offset := map_or 0%N read_offset register in
      let cursor := {| cur_holder := holder; cur_epoch := 0%N; cur_token := None;
                       cur_guarantee := guarantee |} in
      stored ← store_plain cursor offset;
      mret match stored with Ok _ => Ok (Some (cursor, offset)) | Err e => Err e end
  end.

(** The fence and what its write's outcome means. *)
Definition claim_fence (holder : string) (previous : ReaderRegister)
  (expected : option VersionToken) : prog Claimed :=
  if (rr_epoch previous =? u64_max)%N then
    mret (Err ("reader register " ++ path ++ ": claim epoch exhausted")%string)
  else
    let fence := {| rr_holder := holder; read_offset := read_offset previous;
                    rr_epoch := rr_epoch previous + 1 |} in
    let claimed token : Claimed :=
      Ok (Some ({| cur_holder := holder; cur_epoch := rr_epoch fence; cur_token := Some token;
                   cur_guarantee := FencedCas |}, read_offset fence)) in
    match encode fence with
    | Err e => mret (Err e)
    | Ok data =>
        r ← call (WriteIfVersion expected data);
        match r with
        | Err e => mret (Err ("fence reader register " ++ path ++ ": " ++ io_message e)%string)
        | Ok (Committed token) => mret (claimed token)
        | Ok (Conflict _) => mret (Ok None)
        | Ok Unknown =>
            back ← read_back;
            mret match back with
                 | Err e => Err e
                 | Ok (Some (register, token)) =>
                     if same_fence register fence then claimed token else Ok None
                 | Ok None => Ok None
                 end
        end
    end.

Definition claim (holder : string) : prog Claimed :=
  fenced ← call FencedLocks;
  if (fenced : bool) then claim_plain holder Fenced
  else
    current ← call ReadVersioned;
    match current with
    | Err e =>
        match io_kind e with
        | Unsupported => claim_plain holder AtLeastOnce
        | _ => mret (Err ("read reader register " ++ path ++ ": " ++ io_message e)%string)
        end
    | Ok None => claim_fence holder register_default None
    | Ok (Some (raw, token)) =>
        match parse raw with
        | Err e => mret (Err e)
        | Ok previous => claim_fence holder (default register_default previous) (Some token)
        end
    end.

Definition fenced_out : string :=
  ("reader " ++ path ++ " was fenced out by a newer holder; delivery remains unacknowledged")%string.

Definition with_token (c : RegisterCursor) (token : VersionToken) : RegisterCursor :=
  {| cur_holder := cur_holder c; cur_epoch := cur_epoch c; cur_token := Some token;
     cur_guarantee := cur_guarantee c |}.

(** [commit] returns the cursor it leaves behind with its result. *)
Definition commit (c : RegisterCursor) (offset : N) : prog (RegisterCursor * result string unit) :=
  match cur_token c with
  | None => r ← store_plain c offset; mret (c, r)
  | Some expected =>
      let register := {| rr_holder := cur_holder c; read_offset := offset; rr_epoch := cur_epoch c |} in
      match encode register with
      | Err e => mret (c, Err e)
      | Ok data =>
          r ← call (WriteIfVersion (Some expected) data);
          match r with
          | Err e => mret (c, Err ("write reader register " ++ path ++ ": " ++ io_message e)%string)
          | Ok (Committed token) => mret (with_token c token, Ok tt)
          | Ok (Conflict _) => mret (c, Err fenced_out)
          | Ok Unknown =>
              back ← read_back;
              mret match back with
                   | Err e => (c, Err e)
                   | Ok back =>
                       let unknown : RegisterCursor * result string unit :=
                         (c, Err ("reader register " ++ path ++ ": commit outcome unknown and not "
                                  ++ "visible; delivery remains unacknowledged")%string) in
                       match back with
                       | Some (stored, token) =>
                           if bool_decide (stored = register) then (with_token c token, Ok tt)
                           else if negb (same_holder stored register) then (c, Err fenced_out)
                           else unknown
                       | None => unknown
                       end
                   end
          end
      end
  end.
End Cursor.
