(* ===== verification/CursorSafety.v ===== *)
(** * Reader cursors under takeover (runtime/src/cursor_fence.rs)

    Any number of processes claim and commit the same register through a backend of
    each of the three kinds: with a lock that excludes the previous holder, with an
    expiring lease and an atomic conditional write, or with neither.  The system is a
    step relation: between two backend calls of one process any other may run, a
    conditional write whose outcome was lost may land at any later time, and a process may
    die at any point.  A weakest precondition over the programs of CursorFence, with
    the committed versions as its ghost state, gives the invariant of the conditional
    writes; a lock leaves one process at a time, and plain stores are enough.  Without
    either the cursor may move back, as the module's documentation says. *)
From S2P Require Import Prelude.
From stdpp Require Import list gmap sorting relations.
From S2P Require Import RustStr CursorFence.

(** ** The storage *)

(** One committed version of the register: its token and its bytes. *)
Definition version : Type := VersionToken * string.

Record store := {
  trace : list version;                              (* newest first *)
  in_flight : list (option VersionToken * string)    (* writes that may still land *)
}.

Definition head_token (T : list version) : option VersionToken := fst <$> head T.

(** The replies of a backend, by what it protects a register with: its locks exclude a previous
    holder until it exits ([Fenced]), it has an atomic conditional write ([FencedCas]), or it
    answers [Unsupported] to both ([AtLeastOnce]).  A conditional write that failed, or whose
    outcome is unknown, may have committed, now or later; a plain write that failed may have been
    done. *)
Definition reply (backend : CursorGuarantee) {X} (s : store) (c : Call X) (s' : store) : X -> Prop :=
  let lost {A} (x : result IoError A) := s' = s /\ match x with Err e => io_kind e = Unsupported | Ok _ => False end in
  let landed data := exists t, t ∉ (trace s).*1 /\
    s' = {| trace := (t, data) :: trace s; in_flight := in_flight s |} in
  match c in Call X return X -> Prop with
  | FencedLocks => fun x => x = match backend with Fenced => true | _ => false end /\ s' = s
  | ReadVersioned => fun x =>
      match backend with
      | FencedCas => s' = s /\
          match x with
          | Err e => io_kind e <> Unsupported
          | Ok v => v = prod_swap <$> head (trace s)
          end
      | _ => lost x
      end
  | WriteIfVersion expected data => fun x =>
      match backend with
      | FencedCas =>
          match x with
          | Ok (Committed t) =>
              head_token (trace s) = expected /\ t ∉ (trace s).*1 /\
              s' = {| trace := (t, data) :: trace s; in_flight := in_flight s |}
          | Ok (Conflict current) =>
              head_token (trace s) <> expected /\ current = head_token (trace s) /\ s' = s
          | Ok Unknown | Err _ =>
              s' = {| trace := trace s; in_flight := (expected, data) :: in_flight s |}
          end
      | _ => lost x
      end
  | ReadPlain => fun x => s' = s /\
      match x with
      | Ok raw => snd <$> head (trace s) = Some raw
      | Err e => io_kind e = NotFound -> trace s = []
      end
  | CreateDirAll _ => fun x => s' = s
  | WriteAtomic data => fun x => match x with Ok _ => landed data | Err _ => s' = s \/ landed data end
  end.

(** A write still in flight lands if the register is at the version it expects. *)
Definition lands (s s' : store) : Prop :=
  exists expected data t, (expected, data) ∈ in_flight s /\ head_token (trace s) = expected /\
    t ∉ (trace s).*1 /\ s' = {| trace := (t, data) :: trace s; in_flight := in_flight s |}.

(** ** The processes *)

Inductive client :=
| Claiming (p : prog Claimed)
| Holding (c : RegisterCursor) (offset : N)
| Committing (c : RegisterCursor) (pos offset : N) (p : prog (RegisterCursor * result string unit)).

Record system := {
  storage : store;
  clients : gmap nat client;
  acknowledged : list (nat * ReaderRegister)   (* what [commit] reported as recorded *)
}.

Definition register_of (c : RegisterCursor) (offset : N) : ReaderRegister :=
  {| rr_holder := cur_holder c; read_offset := offset; rr_epoch := cur_epoch c |}.

Section Safety.
Variable parse_register : string -> result string ReaderRegister.
Variable encode_register : ReaderRegister -> result string string.
Variable path : string.

#[local] Notation parse := (CursorFence.parse parse_register path).
#[local] Notation encode := (CursorFence.encode encode_register path).
#[local] Notation claim := (CursorFence.claim parse_register encode_register path).
#[local] Notation commit := (CursorFence.commit parse_register encode_register path).

Section System.
Variable backend : CursorGuarantee.

(** One step of the system.  A claim is made while holding the reader's lock: one that excludes
    a previous holder until it exits leaves nobody else.  A reader commits offsets at or after
    the one it resumed from. *)
Inductive step : system -> system -> Prop :=
| step_claim s m a i holder :
    m !! i = None -> (backend = Fenced -> m = ∅) ->
    step {| storage := s; clients := m; acknowledged := a |}
         {| storage := s; clients := <[i := Claiming (claim holder)]> m; acknowledged := a |}
| step_claim_call s s' m a i X (c : Call X) k x :
    m !! i = Some (Claiming (Vis c k)) -> reply backend s c s' x ->
    step {| storage := s; clients := m; acknowledged := a |}
         {| storage := s'; clients := <[i := Claiming (k x)]> m; acknowledged := a |}
| step_claimed s m a i c offset :
    m !! i = Some (Claiming (Done (Ok (Some (c, offset))))) ->
    step {| storage := s; clients := m; acknowledged := a |}
         {| storage := s; clients := <[i := Holding c offset]> m; acknowledged := a |}
| step_commit s m a i c pos offset :
    m !! i = Some (Holding c pos) -> (pos <= offset)%N ->
    step {| storage := s; clients := m; acknowledged := a |}
         {| storage := s; clients := <[i := Committing c pos offset (commit c offset)]> m;
            acknowledged := a |}
| step_commit_call s s' m a i c0 pos offset X (c : Call X) k x :
    m !! i = Some (Committing c0 pos offset (Vis c k)) -> reply backend s c s' x ->
    step {| storage := s; clients := m; acknowledged := a |}
         {| storage := s'; clients := <[i := Committing c0 pos offset (k x)]> m;
            acknowledged := a |}
| step_committed s m a i c pos offset c' u :
    m !! i = Some (Committing c pos offset (Done (c', Ok u))) ->
    step {| storage := s; clients := m; acknowledged := a |}
         {| storage := s; clients := <[i := Holding c' offset]> m;
            acknowledged := (i, register_of c offset) :: a |}
| step_refused s m a i c pos offset c' e :
    m !! i = Some (Committing c pos offset (Done (c', Err e))) ->
    step {| storage := s; clients := m; acknowledged := a |}
         {| storage := s; clients := <[i := Holding c' pos]> m; acknowledged := a |}
| step_stop s m a i :
    step {| storage := s; clients := m; acknowledged := a |}
         {| storage := s; clients := delete i m; acknowledged := a |}
| step_land s s' m a :
    lands s s' ->
    step {| storage := s; clients := m; acknowledged := a |}
         {| storage := s'; clients := m; acknowledged := a |}.

(** The register does not exist yet, or holds whatever an earlier life left. *)
Definition initial (w : system) : Prop :=
  length (trace (storage w)) <= 1 /\ in_flight (storage w) = [] /\ clients w = ∅ /\
  acknowledged w = [].

Definition reachable (w : system) : Prop := exists w0, initial w0 /\ rtc step w0 w.
End System.

(** ** The order of committed versions *)

(** [r] is a position at or after [p]: of a newer claim, or of the same one. *)
Definition later (p r : ReaderRegister) : Prop :=
  (read_offset p <= read_offset r)%N /\
  ((rr_epoch p < rr_epoch r)%N \/ (rr_epoch p = rr_epoch r /\ rr_holder p = rr_holder r)).

(** The register the bytes [raw] stand for, an empty file being the default. *)
Definition reads (raw : string) (r : ReaderRegister) : Prop :=
  exists o, parse raw = Ok o /\ r = default register_default o.

Definition follow (old new : string) : Prop :=
  exists p r, reads old p /\ reads new r /\ later p r.

Definition ordered (T : list version) : Prop :=
  NoDup T.*1 /\ StronglySorted (fun new old => follow old.2 new.2) T.

Definition extends (T T' : list version) : Prop := (exists l, T' = l ++ T) /\ ordered T'.

(** A write is valid if it follows the version it expects. *)
Definition valid_write (T : list version) (expected : option VersionToken) (data : string) : Prop :=
  match expected with
  | None => True
  | Some t => exists raw, (t, raw) ∈ T /\ follow raw data
  end.

Lemma reads_fun raw r r' : reads raw r -> reads raw r' -> r = r'.
Proof. intros (o & E & ->) (o' & E' & ->). congruence. Qed.

Lemma later_trans p q r : later p q -> later q r -> later p r.
Proof. unfold later. intros [? [?|[??]]] [? [?|[??]]]; split; try lia; [left; lia..|right; split; congruence]. Qed.

Lemma follow_trans a b c : follow a b -> follow b c -> follow a c.
Proof.
  intros (p & q & ? & ? & ?) (q' & r & ? & ? & ?).
  assert (q = q') as -> by eauto using reads_fun.
  exists p, r. eauto using later_trans.
Qed.

Lemma extends_refl T : ordered T -> extends T T.
Proof. split; [by exists []|done]. Qed.

Lemma extends_trans T1 T2 T3 : extends T1 T2 -> extends T2 T3 -> extends T1 T3.
Proof. intros [[l1 ->] _] [[l2 ->] ?]. split; [exists (l2 ++ l1); by rewrite app_assoc|done]. Qed.

Lemma extends_in T T' v : extends T T' -> v ∈ T -> v ∈ T'.
Proof. intros [[l ->] _] ?. by apply elem_of_app; right. Qed.

Lemma valid_write_extends T T' ex d : extends T T' -> valid_write T ex d -> valid_write T' ex d.
Proof. destruct ex; [|done]. intros ? (raw & ? & ?). exists raw. eauto using extends_in. Qed.

Lemma ordered_follow T t0 raw0 v :
  ordered ((t0, raw0) :: T) -> v ∈ (t0, raw0) :: T -> v.2 = raw0 \/ follow v.2 raw0.
Proof.
  intros [_ S] Hin. apply StronglySorted_inv in S as [_ S]. rewrite Forall_forall in S.
  apply elem_of_cons in Hin as [->|Hin]; [by left|]. right. by apply (S v).
Qed.

(** The bytes a token names are determined. *)
Lemma ordered_token T t raw raw' : ordered T -> (t, raw) ∈ T -> (t, raw') ∈ T -> raw = raw'.
Proof.
  intros [D _]. induction T as [|[t0 r0] T IH]; [by intros ?%elem_of_nil|].
  cbn in D. apply NoDup_cons in D as [Hn D].
  intros [E1|H1]%elem_of_cons [E2|H2]%elem_of_cons; [congruence| | |eauto].
  all: exfalso; apply Hn; apply list_elem_of_fmap; simplify_eq; eexists; split; [|eassumption]; done.
Qed.

(** Where a valid write lands the order is kept. *)
Lemma ordered_write T ex d t :
  ordered T -> head_token T = ex -> valid_write T ex d -> t ∉ T.*1 -> ordered ((t, d) :: T).
Proof.
  intros O Hh V Hn. split; [cbn; apply NoDup_cons; split; [done|apply O]|].
  constructor; [apply O|]. apply Forall_forall. intros v Hv. cbn.
  destruct T as [|[t0 raw0] T]; [by apply elem_of_nil in Hv|].
  cbn in Hh. subst ex. destruct V as (raw & Hin & F).
  assert (raw = raw0) as -> by (eapply ordered_token; [exact O|exact Hin|left]).
  destruct (ordered_follow _ _ _ _ O Hv) as [->|?]; [done|eauto using follow_trans].
Qed.

Lemma extends_write T ex d t :
  ordered T -> head_token T = ex -> valid_write T ex d -> t ∉ T.*1 -> extends T ((t, d) :: T).
Proof. intros. split; [by exists [(t, d)]|eauto using ordered_write]. Qed.

(** ** A weakest precondition for programs of backend calls *)

(** [wp Q p T]: started after the versions [T], however other processes extend
    them between its calls, [p] only performs valid writes and no unconditional
    one, and a result [a] it returns after [T'] has [Q T' a]. *)
Fixpoint wp {A} (Q : list version -> A -> Prop) (p : prog A) (T : list version) : Prop :=
  match p with
  | Done a => forall T', extends T T' -> Q T' a
  | @Vis _ X c k => forall T', extends T T' ->
      match c in Call X return (X -> list version -> Prop) -> Prop with
      | FencedLocks => fun K => K false T'
      | ReadVersioned => fun K =>
          (forall e, io_kind e <> Unsupported -> K (Err e) T') /\ K (Ok (prod_swap <$> head T')) T'
      | WriteIfVersion expected data => fun K =>
          valid_write T' expected data /\
          (forall t, head_token T' = expected -> t ∉ T'.*1 -> K (Ok (Committed t)) ((t, data) :: T')) /\
          (forall current, head_token T' <> expected -> K (Ok (Conflict current)) T') /\
          K (Ok Unknown) T' /\ (forall e, K (Err e) T')
      | ReadPlain => fun K => forall x, K x T'
      | CreateDirAll _ => fun K => forall x, K x T'
      | WriteAtomic _ => fun K => False
      end (fun x => wp Q (k x))
  end.

Definition store_ok (s : store) : Prop :=
  ordered (trace s) /\ Forall (fun w => valid_write (trace s) w.1 w.2) (in_flight s).

Lemma wp_extends {A} (Q : list version -> A -> Prop) p T T' :
  extends T T' -> wp Q p T -> wp Q p T'.
Proof. destruct p; cbn; intros E W T'' E'; apply W; by eapply extends_trans. Qed.

Lemma wp_ret {A} (Q : list version -> A -> Prop) a T :
  (forall T', extends T T' -> Q T' a) -> wp Q (mret a) T.
Proof. done. Qed.

Lemma wp_mono {A} (Q Q' : list version -> A -> Prop) p T :
  wp Q p T -> (forall T' a, extends T T' -> Q T' a -> Q' T' a) -> wp Q' p T.
Proof.
  revert T. induction p as [a|X c k IH]; cbn; [by eauto|]. intros T W QQ T' E. specialize (W T' E).
  assert (Hk : forall x T'', extends T' T'' -> wp Q (k x) T'' -> wp Q' (k x) T'').
  { intros x T'' E' Wk. apply (IH x _ Wk). eauto using extends_trans. }
  assert (E0 : extends T' T') by (apply extends_refl, E).
  destruct c; try by eauto.
  - destruct W as [We Wo]. split; eauto.
  - destruct W as (V & Wc & Wf & Wu & We). split_and!; eauto.
    intros t Hh Hn. apply Hk; [apply (extends_write _ _ _ _ (proj2 E) Hh V Hn)|by apply Wc].
Qed.

Lemma wp_bind {A B} (Q : list version -> B -> Prop) (p : prog A) (f : A -> prog B) T :
  wp (fun T' a => wp Q (f a) T') p T -> wp Q (p ≫= f) T.
Proof.
  revert T. induction p as [a|X c k IH]; intros T; cbn.
  - intros W. change (wp Q (f a) T). destruct (f a) eqn:Ef; cbn in *.
    + intros T' E. apply (W T' E). by apply extends_refl, E.
    + intros T' E. apply (W T' E). by apply extends_refl, E.
  - intros W T' E. specialize (W T' E).
    assert (Hk : forall x T'', wp (fun T' a => wp Q (f a) T') (k x) T'' ->
                               wp Q (prog_bind_def f (k x)) T'') by exact IH.
    destruct c; try by auto.
    + destruct W as [? ?]. split; auto.
    + destruct W as (? & ? & ? & ? & ?). split_and!; auto.
Qed.

(** A reply keeps the storage and the precondition of the caller. *)
Lemma wp_reply {A} (Q : list version -> A -> Prop) {X} (c : Call X) k s s' x :
  store_ok s -> wp Q (Vis c k) (trace s) -> reply FencedCas s c s' x ->
  store_ok s' /\ extends (trace s) (trace s') /\ wp Q (k x) (trace s').
Proof.
  intros SO W R. pose proof SO as [O F]. cbn in W. specialize (W _ (extends_refl _ O)).
  assert (E0 := extends_refl _ O).
  destruct c; cbn in R, W.
  - by destruct R as [-> ->].
  - destruct R as [-> R]. destruct W as [We Wo]. destruct x as [v|e]; [subst v|]; auto.
  - destruct W as (V & Wc & Wf & Wu & We).
    destruct x as [[t|cur|]|e].
    + destruct R as (Hh & Hn & ->). cbn. assert (E := extends_write _ _ _ _ O Hh V Hn).
      split_and!; [split|exact E|by apply Wc]; cbn; [apply E|].
      eapply Forall_impl; [exact F|]. intros w. by apply valid_write_extends.
    + destruct R as (Hh & -> & ->). auto.
    + subst s'. cbn. split_and!; [split; [done|by constructor]|done|done].
    + subst s'. cbn. split_and!; [split; [done|by constructor]|done|by apply We].
  - destruct R as [-> _]. auto.
  - subst. auto.
  - done.
Qed.

Lemma lands_ok s s' : store_ok s -> lands s s' -> store_ok s' /\ extends (trace s) (trace s').
Proof.
  intros [O F] (ex & d & t & Hin & Hh & Hn & ->). cbn.
  assert (V : valid_write (trace s) ex d).
  { rewrite Forall_forall in F. exact (F _ Hin). }
  assert (E := extends_write _ _ _ _ O Hh V Hn). split; [split; [apply E|]|done].
  eapply Forall_impl; [exact F|]. intros w. by apply valid_write_extends.
Qed.

(** ** What [claim] and [commit] establish *)

(** [serde_json] reads back the register it wrote, and writes no empty file. *)
Hypothesis serde_register : forall r d,
  encode_register r = Ok d -> is_empty d = false /\ parse_register d = Ok r.

(** The version [c] writes against records [offset] for [c]'s claim. *)
Definition holds (T : list version) (c : RegisterCursor) (offset : N) : Prop :=
  exists t raw, cur_token c = Some t /\ (t, raw) ∈ T /\ parse raw = Ok (Some (register_of c offset)).

(** [c] resumes at or after every position in [T0]. *)
Definition resumes_after (T0 : list version) (c : RegisterCursor) (offset : N) : Prop :=
  forall v p, v ∈ T0 -> reads v.2 p -> later p (register_of c offset).

(** [c]'s claim has been followed by a newer one. *)
Definition overtaken (T : list version) (c : RegisterCursor) : Prop :=
  exists v p, v ∈ T /\ reads v.2 p /\ (cur_epoch c < rr_epoch p)%N.

Lemma encode_parse r d : encode r = Ok d -> parse d = Ok (Some r).
Proof.
  unfold CursorFence.encode, CursorFence.parse. destruct (encode_register r) as [raw|] eqn:E; [|done].
  intros [= ->]. by destruct (serde_register _ _ E) as [-> ->].
Qed.

Lemma parse_reads raw r : parse raw = Ok (Some r) -> reads raw r.
Proof. by exists (Some r). Qed.

Lemma later_refl r : later r r.
Proof. split; [lia|by right]. Qed.

Lemma holds_extends T T' c o : extends T T' -> holds T c o -> holds T' c o.
Proof. intros E (t & raw & ? & ? & ?). exists t, raw. eauto using extends_in. Qed.

Lemma overtaken_extends T T' c : extends T T' -> overtaken T c -> overtaken T' c.
Proof. intros E (v & p & ? & ? & ?). exists v, p. eauto using extends_in. Qed.

(** Every version is at or before the newest one. *)
Lemma head_latest T t raw v p r :
  ordered T -> head T = Some (t, raw) -> v ∈ T -> reads v.2 p -> reads raw r -> later p r.
Proof.
  intros O Hh Hv Rp Rr. destruct T as [|[t0 raw0] T]; [done|]. injection Hh as -> ->.
  destruct (ordered_follow _ _ _ _ O Hv) as [Ev|(p' & r' & Rp' & Rr' & L)].
  - rewrite Ev in Rp. rewrite (reads_fun _ _ _ Rp Rr). apply later_refl.
  - by rewrite (reads_fun _ _ _ Rp Rp'), (reads_fun _ _ _ Rr Rr').
Qed.

Lemma head_token_head T t : head_token T = Some t -> exists raw, head T = Some (t, raw) /\ (t, raw) ∈ T.
Proof. destruct T as [|[t0 raw] T]; [done|]. intros [= ->]. exists raw. split; [done|left]. Qed.

Lemma head_in T (v : version) : head T = Some v -> v ∈ T.
Proof. destruct T; [done|]. intros [= ->]. left. Qed.

(** An overtaken holder's version is not the newest. *)
Lemma overtaken_head T c t raw pos :
  ordered T -> overtaken T c -> head T = Some (t, raw) -> ~ reads raw (register_of c pos).
Proof.
  intros O (v & p & Hv & Rp & Lt) Hh Rr.
  destruct (head_latest _ _ _ _ _ _ O Hh Hv Rp Rr) as [_ [?|[? _]]]; cbn in *; lia.
Qed.

Lemma same_fence_eq a b : same_fence a b = true -> a = b.
Proof.
  unfold same_fence, same_holder. rewrite !andb_true_iff.
  intros [[H1%String.eqb_eq H2%N.eqb_eq] H3%N.eqb_eq]. destruct a, b; cbn in *; congruence.
Qed.

Lemma wp_read_back {A} (Q : list version -> A -> Prop) f T :
  (forall T' T'', extends T T' -> extends T' T'' ->
    (forall e, wp Q (f (Err e)) T'') /\ wp Q (f (Ok None)) T'' /\
    forall t raw r, head T' = Some (t, raw) -> parse raw = Ok (Some r) ->
      wp Q (f (Ok (Some (r, t)))) T'') ->
  wp Q (read_back parse_register path ≫= f) T.
Proof.
  intros HQ. apply wp_bind. intros T' E. cbn. split.
  - intros e _ T'' E'. by apply (HQ T' T'').
  - destruct (head T') as [[t raw]|] eqn:Hh; cbn.
    + intros T'' E'. destruct (HQ T' T'' E E') as (He & Hn & Hs).
      destruct (parse raw) as [[r|]|e] eqn:P; eauto.
    + intros T'' E'. by apply (HQ T' T'').
Qed.

Definition claim_post (T0 T : list version) (r : Claimed) : Prop :=
  forall c offset, r = Ok (Some (c, offset)) -> holds T c offset /\ resumes_after T0 c offset.

(** What a claimer read: the version its fence will be conditional on. *)
Definition claim_reads (T0 T : list version) (expected : option VersionToken)
  (previous : ReaderRegister) : Prop :=
  match expected with
  | None => T0 = []
  | Some t => exists raw, (t, raw) ∈ T /\ reads raw previous /\
                          forall v p, v ∈ T0 -> reads v.2 p -> later p previous
  end.

Lemma claim_post_err T0 T e : claim_post T0 T (Err e).
Proof. by intros ??. Qed.

Lemma claim_post_none T0 T : claim_post T0 T (Ok None).
Proof. by intros ??. Qed.

Lemma claim_post_some T0 T T' c offset :
  extends T T' -> holds T c offset -> resumes_after T0 c offset ->
  claim_post T0 T' (Ok (Some (c, offset))).
Proof. intros E H R c' o' [= <- <-]. eauto using holds_extends. Qed.

Lemma claim_fence_wp T0 T holder previous expected :
  claim_reads T0 T expected previous ->
  wp (claim_post T0) (claim_fence parse_register encode_register path holder previous expected) T.
Proof.
  intros CR. unfold claim_fence. destruct (N.eqb_spec (rr_epoch previous) u64_max) as [_|Hmax].
  { intros T' _. apply claim_post_err. }
  set (fence := {| rr_holder := holder; read_offset := read_offset previous;
                   rr_epoch := rr_epoch previous + 1 |}). cbn zeta.
  assert (L : forall p, later p previous -> later p fence).
  { intros p [? Hp]. split; [done|]. left. cbn. destruct Hp as [?|[? _]]; lia. }
  destruct (encode fence) as [d|e] eqn:Enc; [|intros T' _; apply claim_post_err].
  apply encode_parse in Enc. intros T' E.
  assert (RA : forall t, resumes_after T0 {| cur_holder := holder; cur_epoch := rr_epoch fence;
                                 cur_token := t; cur_guarantee := FencedCas |} (read_offset fence)).
  { intros t v p Hv Rp. change (later p fence). destruct expected as [x|]; cbn in CR.
    - destruct CR as (raw & _ & _ & CR). eauto.
    - subst T0. by apply elem_of_nil in Hv. }
  split_and!.
  - destruct expected as [t|]; [|done]. destruct CR as (raw & Hin & Rr & _).
    exists raw. split; [by eapply extends_in|].
    exists previous, fence. eauto using parse_reads, later_refl.
  - intros t Hh Hn T'' E'. eapply claim_post_some; [exact E'| |apply RA].
    exists t, d. split_and!; [done|left|done].
  - intros cur Hne T'' E'. apply claim_post_none.
  - apply (wp_read_back (claim_post T0)). intros T1 T2 E1 E2. split_and!.
    + intros e T3 _. apply claim_post_err.
    + intros T3 _. apply claim_post_none.
    + intros t raw r Hh P. cbn. destruct (same_fence r fence) eqn:SF; cbn; intros T3 E3;
        [|apply claim_post_none].
      apply same_fence_eq in SF as ->. eapply claim_post_some; [exact E3| |apply RA].
      exists t, raw. split_and!; [done|by eapply extends_in, head_in|done].
  - intros e T'' _. apply claim_post_err.
Qed.

#[local] Arguments claim_fence : simpl never.

(** A claim resumes after everything committed before it started. *)
Lemma claim_wp T holder : wp (claim_post T) (claim holder) T.
Proof.
  unfold CursorFence.claim. apply wp_bind. intros T1 E1 T2 E2. cbn match.
  apply wp_bind. intros T3 E3. split.
  { intros e Hk T4 _. destruct e as [[]]; cbn in *; [| |]; try done; by intros T5 _; apply claim_post_err. }
  intros T4 E4. assert (E : extends T T3) by eauto using extends_trans.
  destruct (head T3) as [[t raw]|] eqn:Hh; cbn.
  - destruct (parse raw) as [previous|e] eqn:P; [|intros T5 _; apply claim_post_err].
    assert (R : reads raw (default register_default previous)) by (by exists previous).
    apply claim_fence_wp. exists raw. split_and!; [by eapply extends_in, head_in|done|].
    intros v p Hv Rp. eapply head_latest; [apply E3|exact Hh|by eapply extends_in|done|done].
  - apply claim_fence_wp. cbn. destruct T3; [|done].
    destruct E as [[l El] _]. symmetry in El. by apply app_nil in El as [_ ->].
Qed.

Definition commit_post (c : RegisterCursor) (pos offset : N) (T : list version)
  (x : RegisterCursor * result string unit) : Prop :=
  cur_holder x.1 = cur_holder c /\ cur_epoch x.1 = cur_epoch c /\
  holds T x.1 (match x.2 with Ok _ => offset | Err _ => pos end).

(** An overtaken holder is refused. *)
Definition refused_post (T : list version) (x : RegisterCursor * result string unit) : Prop :=
  exists e, x.2 = Err e.

Lemma commit_wp T c pos offset :
  holds T c pos -> (pos <= offset)%N -> wp (commit_post c pos offset) (commit c offset) T.
Proof.
  intros HT Hle. pose proof HT as (t & raw & Ht & Hin & Pr). unfold CursorFence.commit. rewrite Ht.
  cbn zeta. fold (register_of c offset).
  assert (Fail : forall T' e, extends T T' -> commit_post c pos offset T' (c, Err e)).
  { intros T' e E. split_and!; eauto using holds_extends. }
  assert (Win : forall T' t' raw', (t', raw') ∈ T' -> parse raw' = Ok (Some (register_of c offset)) ->
                  commit_post c pos offset T' (with_token c t', Ok tt)).
  { intros T' t' raw' ??. split_and!; [done..|]. exists t', raw'. done. }
  destruct (encode (register_of c offset)) as [d|e] eqn:Enc; [|intros T' E; by apply Fail].
  apply encode_parse in Enc. intros T' E. split_and!.
  - exists raw. split; [by eapply extends_in|]. exists (register_of c pos), (register_of c offset).
    split_and!; [by apply parse_reads|by apply parse_reads|split; [done|by right]].
  - intros t' Hh Hn T'' E'. eapply Win; [eapply extends_in; [exact E'|left]|done].
  - intros cur Hne T'' E'. apply Fail. eauto using extends_trans.
  - apply (wp_read_back (commit_post c pos offset)). intros T1 T2 E1 E2.
    assert (E02 : extends T T2) by eauto using extends_trans. split_and!.
    + intros e T3 E3. apply Fail. eauto using extends_trans.
    + intros T3 E3. apply Fail. eauto using extends_trans.
    + intros t' raw' r Hh P. cbn. case_bool_decide as Eq; [|destruct (negb _)];
        intros T3 E3; [|apply Fail; eauto using extends_trans..].
      subst r. eapply Win; [|done]. eapply extends_in; [exact E3|].
      eapply extends_in; [exact E2|by apply head_in].
  - intros e T'' E'. apply Fail. eauto using extends_trans.
Qed.

Lemma commit_overtaken_wp T c pos offset :
  holds T c pos -> (pos <= offset)%N -> overtaken T c -> wp refused_post (commit c offset) T.
Proof.
  intros (t & raw & Ht & Hin & Pr) Hle OT. unfold CursorFence.commit. rewrite Ht. cbn zeta.
  fold (register_of c offset).
  assert (Fail : forall T' e, refused_post T' (c, Err e)) by (intros T' e; by exists e).
  destruct (encode (register_of c offset)) as [d|e] eqn:Enc; [|intros T' E; apply Fail].
  apply encode_parse in Enc. intros T' E. split_and!.
  - exists raw. split; [by eapply extends_in|]. exists (register_of c pos), (register_of c offset).
    split_and!; [by apply parse_reads|by apply parse_reads|split; [done|by right]].
  - intros t' Hh Hn. exfalso. apply head_token_head in Hh as (raw' & Hh & Hin').
    assert (raw' = raw) as -> by (eapply ordered_token; [apply E|done|by eapply extends_in]).
    eapply overtaken_head; [apply E|by eapply overtaken_extends|exact Hh|by apply parse_reads].
  - intros cur Hne T'' E'. apply Fail.
  - apply (wp_read_back refused_post). intros T1 T2 E1 E2. split_and!.
    + intros e T3 E3. apply Fail.
    + intros T3 E3. apply Fail.
    + intros t' raw' r Hh P. cbn. case_bool_decide as Eq; [|destruct (negb _)];
        intros T3 E3; [|apply Fail..]. subst r. exfalso.
      eapply (overtaken_head T1); [apply E1| |exact Hh|by apply parse_reads].
      eapply overtaken_extends; [exact E1|by eapply overtaken_extends].
  - intros e T'' E'. apply Fail.
Qed.

(** ** The invariant of the system *)

Definition client_ok (T : list version) (cl : client) : Prop :=
  match cl with
  | Claiming p => wp (claim_post []) p T
  | Holding c pos => holds T c pos
  | Committing c pos offset p =>
      (pos <= offset)%N /\ wp (commit_post c pos offset) p T
  end.

Record inv (w : system) : Prop := {
  inv_store : store_ok (storage w);
  inv_clients i cl : clients w !! i = Some cl -> client_ok (trace (storage w)) cl;
  inv_acknowledged i r : (i, r) ∈ acknowledged w ->
    exists v, v ∈ trace (storage w) /\ reads v.2 r
}.

Lemma client_ok_extends T T' cl : extends T T' -> client_ok T cl -> client_ok T' cl.
Proof. destruct cl; cbn; naive_solver eauto using wp_extends, holds_extends. Qed.

Lemma wp_done {A} (Q : list version -> A -> Prop) a T : ordered T -> wp Q (Done a) T -> Q T a.
Proof. intros O W. by apply W, extends_refl. Qed.

Lemma claim_post_nil T0 T r : claim_post T0 T r -> claim_post [] T r.
Proof.
  intros C c o E. destruct (C c o E) as [H _]. split; [done|].
  by intros v p ?%elem_of_nil.
Qed.

Lemma initial_inv w : initial w -> inv w.
Proof.
  intros (Hl & Hf & Hc & Ha). split.
  - split; [|rewrite Hf; constructor]. destruct (trace (storage w)) as [|v [|]]; cbn in *; [| |lia].
    + split; [constructor|constructor].
    + split; cbn; [apply NoDup_singleton|repeat constructor].
  - intros i cl. by rewrite Hc.
  - intros i r. rewrite Ha. by intros ?%elem_of_nil.
Qed.

(** A step on the client [i] that keeps or extends the storage. *)
Lemma inv_update s s' m a a' i cl :
  inv {| storage := s; clients := m; acknowledged := a |} ->
  store_ok s' -> extends (trace s) (trace s') -> client_ok (trace s') cl ->
  (forall j r, (j, r) ∈ a' -> (j, r) ∈ a \/ exists v, v ∈ trace s' /\ reads v.2 r) ->
  inv {| storage := s'; clients := <[i := cl]> m; acknowledged := a' |}.
Proof.
  intros I SO E CO HA. split; cbn; [done| |].
  - intros j cl'. rewrite lookup_insert_Some. intros [[<- <-]|[_ Hj]]; [done|].
    apply (client_ok_extends _ _ _ E). by apply (inv_clients _ I j).
  - intros j r [Hr|?]%HA; [|done]. destruct (inv_acknowledged _ I _ _ Hr) as (v & Hv & R).
    exists v. split; [by eapply extends_in|done].
Qed.

Lemma inv_step w w' : inv w -> step FencedCas w w' -> inv w' /\ extends (trace (storage w)) (trace (storage w')).
Proof.
  intros I S. pose proof (inv_store _ I) as SO. pose proof (proj1 SO) as O.
  pose proof (extends_refl _ O) as E0. pose proof (inv_clients _ I) as IC.
  destruct S; cbn in *;
    try match goal with H : ?m !! ?i = Some _ |- _ => specialize (IC _ _ H); cbn in IC end.
  - split; [|done]. apply (inv_update s s m a a); auto.
    eapply wp_mono; [apply claim_wp|eauto using claim_post_nil].
  - destruct (wp_reply _ _ _ _ _ _ SO IC H0) as (SO' & E & W).
    split; [|done]. apply (inv_update s s' m a a); auto.
  - split; [|done]. apply (inv_update s s m a a); auto.
    apply (wp_done _ _ _ O IC c offset eq_refl).
  - split; [|done]. apply (inv_update s s m a a); auto.
    split; [done|]. by apply commit_wp.
  - destruct IC as [Hle IC]. destruct (wp_reply _ _ _ _ _ _ SO IC H0) as (SO' & E & W).
    split; [|done]. apply (inv_update s s' m a a); auto. by split.
  - destruct IC as [Hle IC]. apply (wp_done _ _ _ O) in IC as (Hh & He & Ho). cbn in *.
    split; [|done]. apply (inv_update s s m a); auto.
    intros j r [[= -> ->]|?]%elem_of_cons; [right|by left].
    destruct Ho as (t & raw & _ & Hin & P). exists (t, raw). split; [done|]. apply parse_reads.
    cbn in *. rewrite P. unfold register_of. by rewrite Hh, He.
  - destruct IC as [Hle IC]. apply (wp_done _ _ _ O) in IC as (Hh & He & Ho).
    split; [|done]. apply (inv_update s s m a a); auto.
  - split; [|done]. split; cbn; [done| |apply (inv_acknowledged _ I)].
    intros j cl. rewrite lookup_delete_Some. intros [_ Hj]. by apply IC in Hj.
  - destruct (lands_ok _ _ SO H) as [SO' E]. split; [|done]. split; cbn; [done| |].
    + intros j cl Hj. apply (client_ok_extends _ _ _ E). by apply (IC j).
    + intros j r Hr. destruct (inv_acknowledged _ I _ _ Hr) as (v & Hv & R).
      exists v. split; [by eapply extends_in|done].
Qed.

Lemma inv_rtc w w' : inv w -> rtc (step FencedCas) w w' ->
  inv w' /\ extends (trace (storage w)) (trace (storage w')).
Proof.
  intros I R. induction R as [w|w1 w2 w3 S R IH].
  - split; [done|]. apply extends_refl, I.
  - destruct (inv_step _ _ I S) as [I2 E]. destruct (IH I2) as [I3 E'].
    eauto using extends_trans.
Qed.

Lemma reachable_inv w : reachable FencedCas w -> inv w.
Proof. intros (w0 & I & R). by apply (inv_rtc w0 w); [apply initial_inv|]. Qed.

(** A predicate every step keeps holds at the end of a run. *)
Lemma rtc_keeps (P : system -> Prop) T w w' :
  inv w -> rtc (step FencedCas) w w' -> extends T (trace (storage w)) ->
  (forall w1 w2, extends T (trace (storage w1)) -> inv w1 -> step FencedCas w1 w2 -> P w1 -> P w2) ->
  P w -> P w'.
Proof.
  intros I R E K Pw. induction R as [w|w1 w2 w3 S R IH]; [done|].
  destruct (inv_step _ _ I S) as [I2 E']. apply IH; eauto using extends_trans.
Qed.

(** ** How one process changes in a step of the system *)

Inductive evolves (T T' : list version) : option client -> client -> Prop :=
| ev_same cl : evolves T T' (Some cl) cl
| ev_claim holder : evolves T T' None (Claiming (claim holder))
| ev_claiming p p' :
    (forall Q, wp Q p T -> wp Q p' T') -> evolves T T' (Some (Claiming p)) (Claiming p')
| ev_claimed c offset :
    evolves T T' (Some (Claiming (Done (Ok (Some (c, offset)))))) (Holding c offset)
| ev_commit c pos offset :
    holds T c pos -> (pos <= offset)%N ->
    evolves T T' (Some (Holding c pos)) (Committing c pos offset (commit c offset))
| ev_committing c pos offset p p' :
    (forall Q, wp Q p T -> wp Q p' T') ->
    evolves T T' (Some (Committing c pos offset p)) (Committing c pos offset p')
| ev_committed c pos offset c' r :
    evolves T T' (Some (Committing c pos offset (Done (c', r))))
      (Holding c' match r with Ok _ => offset | Err _ => pos end).

Lemma step_evolves w w' i cl' :
  inv w -> step FencedCas w w' -> clients w' !! i = Some cl' ->
  evolves (trace (storage w)) (trace (storage w')) (clients w !! i) cl'.
Proof.
  intros I S. pose proof (inv_store _ I) as SO. pose proof (inv_clients _ I) as IC.
  destruct S as [s m a j h H|s s' m a j X c k x H R|s m a j c o H|s m a j c pos o H Hle
                |s s' m a j c0 pos o X c k x H R|s m a j c pos o c' u H|s m a j c pos o c' e H
                |s m a j|s s' m a L]; cbn in *;
    try (rewrite lookup_insert_Some; intros [[-> <-]|[_ Hi]]; [rewrite H|rewrite Hi; constructor]).
  - constructor.
  - constructor. intros Q W. by apply (wp_reply _ _ _ _ _ _ SO W R).
  - constructor.
  - constructor; [apply (IC _ _ H)|done].
  - constructor. intros Q W. by apply (wp_reply _ _ _ _ _ _ SO W R).
  - apply (ev_committed _ _ _ _ _ _ (Ok u)).
  - apply (ev_committed _ _ _ _ _ _ (Err e)).
  - rewrite lookup_delete_Some. intros [_ ->]. constructor.
  - intros ->. constructor.
Qed.

Lemma step_acknowledges w w' i r :
  step FencedCas w w' -> (i, r) ∈ acknowledged w' ->
  (i, r) ∈ acknowledged w \/
  exists c pos offset c' u, clients w !! i = Some (Committing c pos offset (Done (c', Ok u))) /\
    r = register_of c offset.
Proof.
  intros S. destruct S; cbn; auto.
  intros [[= -> ->]|?]%elem_of_cons; [right|by left]. by eexists _, _, _, _, _.
Qed.

Lemma commit_done w i c pos offset c' r :
  inv w -> clients w !! i = Some (Committing c pos offset (Done (c', r))) ->
  (pos <= offset)%N /\ commit_post c pos offset (trace (storage w)) (c', r).
Proof.
  intros I H. destruct (inv_clients _ I _ _ H) as [Hle W].
  split; [done|]. by apply (wp_done _ _ _ (proj1 (inv_store _ I))) in W.
Qed.

Lemma resumes_after_forward T0 c pos c' pos' :
  resumes_after T0 c pos -> cur_holder c' = cur_holder c -> cur_epoch c' = cur_epoch c ->
  (pos <= pos')%N -> resumes_after T0 c' pos'.
Proof.
  intros RA Hh He Hle v p Hv Rp. specialize (RA v p Hv Rp). unfold later in *; cbn in *.
  rewrite Hh, He. destruct RA as [? ?]. split; [lia|done].
Qed.

(** The process [i] holds nothing, or resumes after [T0]. *)
Definition resuming (T0 : list version) (i : nat) (w : system) : Prop :=
  forall cl, clients w !! i = Some cl ->
    match cl with
    | Claiming p => wp (claim_post T0) p (trace (storage w))
    | Holding c pos | Committing c pos _ _ => resumes_after T0 c pos
    end.

Lemma resuming_step T0 i w w' :
  extends T0 (trace (storage w)) -> inv w -> step FencedCas w w' -> resuming T0 i w -> resuming T0 i w'.
Proof.
  intros E0 I S P cl Hcl. pose proof (inv_step _ _ I S) as [I' E].
  pose proof (step_evolves _ _ _ _ I S Hcl) as EV. unfold resuming in P.
  destruct (clients w !! i) as [cl0|] eqn:H0; [specialize (P _ eq_refl)|];
    inversion EV; subst; clear EV; try done.
  - destruct cl; [by eapply wp_extends|done|done].
  - auto.
  - by apply (wp_done _ _ _ (proj1 (inv_store _ I)) P c offset eq_refl).
  - destruct (commit_done _ _ _ _ _ _ _ I H0) as (Hle & Hh & He & _).
    eapply resumes_after_forward; [exact P|done|done|]. destruct r; [done|lia].
  - eapply wp_extends; [exact E|]. eapply wp_mono; [apply claim_wp|].
    intros T' a _ C c o Ea. destruct (C c o Ea) as [? RA]. split; [done|].
    intros v p Hv. apply RA. by eapply extends_in.
Qed.

(** [c]'s claim, once overtaken: [i] has acknowledged nothing under it but [a]. *)
Definition silenced (c : RegisterCursor) (i : nat) (a : list (nat * ReaderRegister)) (w : system) : Prop :=
  (forall c0 pos offset p, clients w !! i = Some (Committing c0 pos offset p) ->
    cur_epoch c0 = cur_epoch c -> wp refused_post p (trace (storage w))) /\
  (forall r, (i, r) ∈ acknowledged w -> rr_epoch r = cur_epoch c -> (i, r) ∈ a).

Lemma silenced_step c i a w w' :
  overtaken (trace (storage w)) c -> inv w -> step FencedCas w w' -> silenced c i a w -> silenced c i a w'.
Proof.
  intros OT I S [P Q]. pose proof (inv_step _ _ I S) as [I' E]. split.
  - intros c0 pos offset p Hcl He. pose proof (step_evolves _ _ _ _ I S Hcl) as EV.
    destruct (clients w !! i) as [cl0|] eqn:H0; inversion EV; subst; clear EV.
    + eapply wp_extends; [exact E|]. by apply (P _ _ _ _ eq_refl).
    + eapply wp_extends; [exact E|]. apply (commit_overtaken_wp _ _ pos); [done|done|].
      destruct OT as (v & q & ? & ? & ?). exists v, q. by rewrite He.
    + match goal with H : forall Q, _ |- _ => apply H end. by apply (P _ _ _ _ eq_refl).
  - intros r Hr He. destruct (step_acknowledges _ _ _ _ S Hr) as [?|(c0 & pos & o & c' & u & H0 & ->)].
    + by apply Q.
    + apply P in H0; [|done]. apply (wp_done _ _ _ (proj1 (inv_store _ I))) in H0 as [e H0]. done.
Qed.

(** ** Under a lock that excludes the previous holder

    One process at a time, its plain stores: the newest version covers what was acknowledged. *)

Definition below (a : list (nat * ReaderRegister)) (offset : N) : Prop :=
  forall j r, (j, r) ∈ a -> (read_offset r <= offset)%N.

Definition records (s : store) (offset : N) : Prop :=
  exists v p, head (trace s) = Some v /\ reads v.2 p /\ read_offset p = offset.

Record covers (a : list (nat * ReaderRegister)) (s : store) : Prop := {
  cov_landed : in_flight s = [];
  cov_head : a <> [] -> exists offset, records s offset /\ below a offset;
  cov_epoch j r : (j, r) ∈ a -> rr_epoch r = 0%N
}.

Definition locked (c : RegisterCursor) : Prop := cur_token c = None /\ cur_epoch c = 0%N.

(** [lwp a Q p s]: run alone from [s], [p] keeps [a] covered and ends with [Q]. *)
Fixpoint lwp {A} (a : list (nat * ReaderRegister)) (Q : store -> A -> Prop) (p : prog A) (s : store) : Prop :=
  match p with
  | Done x => Q s x
  | Vis c k => forall s' x, reply Fenced s c s' x -> covers a s' /\ lwp a Q (k x) s'
  end.

Lemma lwp_bind {A B} a (Q : store -> B -> Prop) (p : prog A) (f : A -> prog B) s :
  lwp a (fun s' x => lwp a Q (f x) s') p s -> lwp a Q (p ≫= f) s.
Proof.
  revert s. induction p as [x|X c k IH]; intros s; cbn; [done|].
  intros W s' x R. destruct (W s' x R) as [? ?]. split; [done|]. by apply IH.
Qed.

Lemma covers_write a s t d r :
  covers a s -> parse d = Ok (Some r) -> below a (read_offset r) ->
  covers a {| trace := (t, d) :: trace s; in_flight := in_flight s |}.
Proof.
  intros [H1 H2 H3] P B. split; [done| |done]. intros _. exists (read_offset r). split; [|done].
  exists (t, d), r. split_and!; [done|by apply parse_reads|done].
Qed.

Lemma store_plain_lwp a s c offset :
  covers a s -> below a offset ->
  lwp a (fun s' r => forall u, r = Ok u -> records s' offset)
    (store_plain encode_register path c offset) s.
Proof.
  intros C B. unfold store_plain. apply lwp_bind.
  assert (forall made : result string unit, lwp a (fun s' r => forall u, r = Ok u -> records s' offset)
    (match made with
     | Err e => mret (Err e)
     | Ok _ => match encode {| rr_holder := cur_holder c; read_offset := offset; rr_epoch := 0%N |} with
               | Err e => mret (Err e)
               | Ok data => r ← call (WriteAtomic data);
                   mret match r with
                        | Ok _ => Ok tt
                        | Err e => Err ("write reader register " ++ path ++ ": " ++ io_message e)%string
                        end
               end
     end) s) as Hwrite.
  { intros [u|e]; [|done]. set (r := {| rr_holder := _ |}). destruct (encode r) as [d|e] eqn:Enc; [|done].
    apply encode_parse in Enc. cbn. intros s' [x|e] R.
    - destruct R as (t & _ & ->). split; [by apply (covers_write a s t d r)|].
      intros _ _. exists (t, d), r. split_and!; [done|by apply parse_reads|done].
    - split; [|done]. destruct R as [->|(t & _ & ->)]; [done|by apply (covers_write a s t d r)]. }
  destruct (parent_dir path) as [dir|]; [|exact (Hwrite (Ok tt))].
  intros s' x ->. split; [done|]. destruct x as [u|e]; [exact (Hwrite (Ok tt))|exact (Hwrite (Err _))].
Qed.

Definition claimed_after (a : list (nat * ReaderRegister)) (s : store) (r : Claimed) : Prop :=
  forall c offset, r = Ok (Some (c, offset)) -> locked c /\ below a offset.

(** An equality of programs' ends carries a precondition over. *)
Lemma lwp_map {A B} a (Q : store -> A -> Prop) (Q' : store -> B -> Prop) (f : A -> B) (p : prog A) s :
  (forall s' x, Q s' x -> Q' s' (f x)) -> lwp a Q p s -> lwp a Q' (r ← p; mret (f r)) s.
Proof.
  intros H W. apply lwp_bind. revert s W. induction p as [x|X c k IH]; intros s W; cbn in *; [by apply H|].
  intros s' y Ry. destruct (W s' y Ry) as [? ?]. split; [done|]. by apply IH.
Qed.

Lemma claim_lwp a s holder : covers a s -> lwp a (claimed_after a) (claim holder) s.
Proof.
  intros C. intros s1 fenced [-> ->]. split; [done|]. intros s2 x [-> R]. split; [done|].
  set (cursor := {| cur_holder := holder; cur_epoch := 0%N; cur_token := None; cur_guarantee := Fenced |}).
  assert (forall loaded, (forall register, loaded = Ok register -> below a (map_or 0%N read_offset register)) ->
    lwp a (claimed_after a)
      match loaded with
      | Err e => mret (Err e)
      | Ok register =>
          stored ← store_plain encode_register path cursor (map_or 0%N read_offset register);
          mret match stored with Ok _ => Ok (Some (cursor, map_or 0%N read_offset register)) | Err e => Err e end
      end s) as Hload.
  { intros [register|e] B; [|done]. specialize (B register eq_refl).
    eapply lwp_map; [|by apply store_plain_lwp]. intros s' [u|e] _; [|done]. by intros c o [= <- <-]. }
  eapply (Hload (match x with
                 | Ok raw => parse raw
                 | Err e => match io_kind e with NotFound => Ok None | _ => Err _ end
                 end)).
  intros register. destruct x as [raw|e].
  - intros P j r Hj.
    destruct (cov_head _ _ C) as (offset & (v & p & Hv & Rp & <-) & B); [by intros ->; apply elem_of_nil in Hj|].
    rewrite Hv in R. injection R as <-.
    rewrite (reads_fun _ _ _ Rp (ex_intro _ register (conj P eq_refl))) in B. specialize (B j r Hj). by destruct register.
  - destruct (io_kind e) eqn:K; [|done..]. intros [= <-] j r Hj. specialize (R eq_refl).
    destruct (cov_head _ _ C) as (offset & (v & p & Hv & _) & _); [by intros ->; apply elem_of_nil in Hj|].
    by rewrite R in Hv.
Qed.

Definition committed_after (offset : N) (s : store) (x : RegisterCursor * result string unit) : Prop :=
  locked x.1 /\ forall u, x.2 = Ok u -> records s offset.

Lemma commit_lwp a s c offset :
  covers a s -> locked c -> below a offset -> lwp a (committed_after offset) (commit c offset) s.
Proof.
  intros C L B. unfold CursorFence.commit. rewrite (proj1 L).
  eapply lwp_map; [|by apply store_plain_lwp]. by intros s' r H.
Qed.

Definition alone (a : list (nat * ReaderRegister)) (s : store) (cl : client) : Prop :=
  match cl with
  | Claiming p => lwp a (claimed_after a) p s
  | Holding c pos => locked c /\ below a pos
  | Committing c pos offset p => locked c /\ below a pos /\ (pos <= offset)%N /\ lwp a (committed_after offset) p s
  end.

Record locked_inv (w : system) : Prop := {
  li_covers : covers (acknowledged w) (storage w);
  li_one i j cl cl' : clients w !! i = Some cl -> clients w !! j = Some cl' -> i = j;
  li_client i cl : clients w !! i = Some cl -> alone (acknowledged w) (storage w) cl
}.

Lemma locked_update s s' m a i cl0 cl :
  locked_inv {| storage := s; clients := m; acknowledged := a |} -> m !! i = Some cl0 ->
  covers a s' -> alone a s' cl -> locked_inv {| storage := s'; clients := <[i := cl]> m; acknowledged := a |}.
Proof.
  intros [_ I2 I3] Hi C A. cbn in *. split; cbn; [done| |].
  - intros j k x y [[<- <-]|[_ Hj]]%lookup_insert_Some [[<- <-]|[_ Hk]]%lookup_insert_Some; eauto.
  - intros j x [[<- <-]|[Hn Hj]]%lookup_insert_Some; [done|]. by destruct Hn; apply (I2 _ _ _ _ Hi Hj).
Qed.

Lemma locked_step w w' : locked_inv w -> step Fenced w w' -> locked_inv w'.
Proof.
  intros I S. pose proof (li_covers _ I) as IC. pose proof (li_client _ I) as IA. pose proof (li_one _ I) as I1.
  destruct S as [s m a j h H Hm|s s' m a j X c k x H R|s m a j c o H|s m a j c pos o H Hle
                |s s' m a j c0 pos o X c k x H R|s m a j c pos o c' u H|s m a j c pos o c' e H
                |s m a j|s s' m a L]; cbn in *; try (pose proof (IA _ _ H) as Ij; cbn in Ij).
  - rewrite (Hm eq_refl). split; cbn; [done| |].
    + by intros i k cl cl' [<- _]%lookup_singleton_Some [<- _]%lookup_singleton_Some.
    + intros i cl [<- <-]%lookup_singleton_Some. by apply claim_lwp.
  - destruct (Ij s' x R) as [C W]. by eapply locked_update.
  - eapply locked_update; [done..|]. by apply Ij.
  - eapply locked_update; [done..|]. destruct Ij as [L B]. split_and!; [done..|]. apply commit_lwp; [done..|].
    intros i r Hr. specialize (B i r Hr). lia.
  - destruct Ij as (L & B & Hle & W). destruct (W s' x R) as [C W']. by eapply locked_update.
  - destruct Ij as (L & B & Hle & L' & HQ). specialize (HQ u eq_refl). cbn in L'.
    assert (covers ((j, register_of c o) :: a) s) as C.
    { split; [apply IC| |].
      - intros _. exists o. split; [done|]. intros i r [[= -> ->]|Hr]%elem_of_cons; [done|]. specialize (B i r Hr). lia.
      - intros i r [[= -> ->]|Hr]%elem_of_cons; [apply L|by apply (cov_epoch _ _ IC i)]. }
    split; cbn; [done| |].
    + intros i k x y [[<- <-]|[_ Hi]]%lookup_insert_Some [[<- <-]|[_ Hk]]%lookup_insert_Some; eauto.
    + intros i x [[<- <-]|[Hn Hi]]%lookup_insert_Some; [|by destruct Hn; apply (I1 _ _ _ _ H Hi)].
      split; [done|]. intros i r [[= -> ->]|Hr]%elem_of_cons; [done|]. specialize (B i r Hr). lia.
  - destruct Ij as (L & B & Hle & L' & _). eapply locked_update; [done..|]. by split.
  - split; cbn; [done| |].
    + intros i k x y [_ Hi]%lookup_delete_Some [_ Hk]%lookup_delete_Some. eauto.
    + intros i x [_ Hi]%lookup_delete_Some. by apply (IA i).
  - destruct L as (ex & d & t & Hin & _). rewrite (cov_landed _ _ IC) in Hin. by apply elem_of_nil in Hin.
Qed.

Lemma locked_rtc w w' : locked_inv w -> rtc (step Fenced) w w' -> locked_inv w'.
Proof. intros I R. induction R as [|w1 w2 w3 S R IH]; [done|]. apply IH. by eapply locked_step. Qed.

Lemma reachable_locked w : reachable Fenced w -> locked_inv w.
Proof.
  intros (w0 & (Hl & Hf & Hc & Ha) & R). eapply locked_rtc; [|exact R]. split; rewrite ?Ha, ?Hc; try done.
  split; [done|done|]. by intros j r ?%elem_of_nil.
Qed.

(** What is acknowledged stays so. *)
Lemma acknowledged_stay backend w w' :
  rtc (step backend) w w' -> forall x, x ∈ acknowledged w -> x ∈ acknowledged w'.
Proof.
  induction 1 as [|w1 w2 w3 S R IH]; [done|]. intros x Hx. apply IH. destruct S; cbn in *; try done. by right.
Qed.

(** ** The guarantees *)

(** With conditional writes the register never moves back: of any two
    versions ever committed the newer has an offset at least as large, and it was
    written by a newer claim or by the same holder in the same claim. *)
Theorem register_never_moves_back w T1 new T2 old T3 :
  reachable FencedCas w -> trace (storage w) = T1 ++ new :: T2 ++ old :: T3 ->
  exists p r, reads old.2 p /\ reads new.2 r /\ (read_offset p <= read_offset r)%N /\
    ((rr_epoch p < rr_epoch r)%N \/ (rr_epoch p = rr_epoch r /\ rr_holder p = rr_holder r)).
Proof.
  intros R E. destruct (inv_store _ (reachable_inv _ R)) as [[_ S] _]. rewrite E in S.
  assert (H : follow old.2 new.2); [|destruct H as (p & r & ? & ? & ? & ?); eauto 10].
  clear E R. induction T1 as [|v T1 IH]; cbn in S; apply StronglySorted_inv in S as [S1 S2]; [|auto].
  rewrite Forall_forall in S2. apply (S2 old). apply elem_of_app. right. left.
Qed.

(** C20. A takeover never reads again what a previous holder acknowledged.  On a backend whose
    lock excludes the previous holder until it exits, or that has an atomic conditional write, a
    process that claims the register resumes at or after every position any process had
    acknowledged before the claim began, however claims, commits that do not go back behind the
    position they continue from, deaths and lost writes interleave.  (Without either guarantee
    the cursor may move back: [at_least_once_moves_back].) *)
Theorem takeover_resumes_after_acknowledged backend w w' i j c pos r :
  backend <> AtLeastOnce ->
  reachable backend w -> (j, r) ∈ acknowledged w -> clients w !! i = None -> rtc (step backend) w w' ->
  clients w' !! i = Some (Holding c pos) ->
  (read_offset r <= pos)%N /\ (rr_epoch r <= cur_epoch c)%N.
Proof.
  intros Hb R Hr Hn S Hc. destruct backend; [|clear Hb|done].
  - pose proof (locked_rtc _ _ (reachable_locked _ R) S) as I. pose proof (acknowledged_stay _ _ _ S _ Hr) as Hr'.
    destruct (li_client _ I _ _ Hc) as [_ B]. split; [by apply (B j)|].
    rewrite (cov_epoch _ _ (li_covers _ I) j r Hr'). lia.
  - pose proof (reachable_inv _ R) as I.
    destruct (inv_acknowledged _ I _ _ Hr) as (v & Hv & Rr).
    assert (P : resuming (trace (storage w)) i w').
    { apply (rtc_keeps _ (trace (storage w)) w); [done|done|apply extends_refl, I| |by intros cl; rewrite Hn].
      intros w1 w2 E I1 S1. by apply resuming_step. }
    destruct (P _ Hc v r Hv Rr) as [? [?|[? _]]]; cbn in *; lia.
Qed.

(** C29. A holder that has been fenced out records nothing more.  On a backend with an atomic
    conditional write, once a version of a newer claim is committed, a process still holding the
    older claim never has another commit of that claim acknowledged, whatever writes are still in
    flight and whatever the storage replies.  (On a backend with neither guarantee the old
    holder's plain store is acknowledged: [at_least_once_moves_back].) *)
Theorem fenced_out_holder_acknowledges_nothing w w' i c pos v p r :
  reachable FencedCas w -> clients w !! i = Some (Holding c pos) ->
  v ∈ trace (storage w) -> reads v.2 p -> (cur_epoch c < rr_epoch p)%N -> rtc (step FencedCas) w w' ->
  (i, r) ∈ acknowledged w' -> rr_epoch r = cur_epoch c -> (i, r) ∈ acknowledged w.
Proof.
  intros R Hc Hv Rp Lt S Hr He. pose proof (reachable_inv _ R) as I.
  assert (P : silenced c i (acknowledged w) w'); [|by apply P].
  apply (rtc_keeps _ (trace (storage w)) w); [done|done|apply extends_refl, I| |split; [intros ????; by rewrite Hc|done]].
  intros w1 w2 E I1 S1. apply silenced_step; [|done|done].
  apply (overtaken_extends _ _ _ E). by exists v, p.
Qed.
End Safety.

(** ** A concrete run *)

(** A codec for the runs below: the bits of the register's code. *)
Fixpoint bits_to_string (p : positive) : string :=
  match p with
  | xH => "h"
  | xO p => String "o" (bits_to_string p)
  | xI p => String "i" (bits_to_string p)
  end%positive.

Fixpoint string_to_bits (s : string) : option positive :=
  match s with
  | String "h" "" => Some xH
  | String "o" s => xO <$> string_to_bits s
  | String "i" s => xI <$> string_to_bits s
  | _ => None
  end.

Definition bits_encode (r : ReaderRegister) : result string string :=
  Ok (bits_to_string (countable.encode (rr_holder r, read_offset r, rr_epoch r))).

Definition bits_parse (raw : string) : result string ReaderRegister :=
  match string_to_bits raw ≫= countable.decode with
  | Some (h, o, e) => Ok {| rr_holder := h; read_offset := o; rr_epoch := e |}
  | None => Err "expected value"
  end.

Lemma string_to_bits_to_string p : string_to_bits (bits_to_string p) = Some p.
Proof.
  induction p as [p IH|p IH|]; cbn; [..|done].
  all: by rewrite IH.
Qed.

Lemma bits_codec r d : bits_encode r = Ok d -> is_empty d = false /\ bits_parse d = Ok r.
Proof.
  intros [= <-]. split; [by destruct (countable.encode _)|].
  unfold bits_parse. rewrite string_to_bits_to_string. cbn. rewrite decode_encode. by destruct r.
Qed.

Definition bits_of (r : ReaderRegister) : string :=
  match bits_encode r with Ok d => d | Err _ => "" end.

Definition demo_cursor (holder : string) (epoch : N) (token : string) : RegisterCursor :=
  {| cur_holder := holder; cur_epoch := epoch; cur_token := Some token; cur_guarantee := FencedCas |}.

(** [a] claims and acknowledges 5; [b] takes over; [a] is refused. *)
Definition demo_trace : list version :=
  [ ("t3", bits_of (register_of (demo_cursor "b" 2 "") 5));
    ("t2", bits_of (register_of (demo_cursor "a" 1 "") 5));
    ("t1", bits_of (register_of (demo_cursor "a" 1 "") 0)) ].

Definition demo_empty : system :=
  {| storage := {| trace := []; in_flight := [] |}; clients := ∅; acknowledged := [] |}.
Definition demo_acknowledged : system :=
  {| storage := {| trace := drop 1 demo_trace; in_flight := [] |};
     clients := {[1 := Holding (demo_cursor "a" 1 "t2") 5]};
     acknowledged := [(1, register_of (demo_cursor "a" 1 "t2") 5)] |}.
Definition demo_taken_over : system :=
  {| storage := {| trace := demo_trace; in_flight := [] |};
     clients := {[1 := Holding (demo_cursor "a" 1 "t2") 5; 2 := Holding (demo_cursor "b" 2 "t3") 5]};
     acknowledged := [(1, register_of (demo_cursor "a" 1 "t2") 5)] |}.

Lemma demo_run_1 : rtc (step bits_parse bits_encode "r" FencedCas) demo_empty demo_acknowledged.
Proof.
  eapply rtc_l; [apply (step_claim _ _ _ _ _ _ _ 1 "a"); [reflexivity|intros [=]]|].
  eapply rtc_l; [eapply (step_claim_call _ _ _ _ _ _ _ _ 1 _ FencedLocks _ false); [reflexivity|by split]|].
  eapply rtc_l; [eapply (step_claim_call _ _ _ _ _ _ _ _ 1 _ ReadVersioned _ (Ok None)); [reflexivity|by split]|].
  eapply rtc_l; [eapply (step_claim_call _ _ _ _ _ _ _ _ 1 _ (WriteIfVersion _ _) _ (Ok (Committed "t1")));
    [reflexivity|split_and!; [done|apply not_elem_of_nil|done]]|].
  eapply rtc_l; [eapply (step_claimed _ _ _ _ _ _ _ 1); reflexivity|].
  eapply rtc_l; [eapply (step_commit _ _ _ _ _ _ _ 1 _ _ 5); [reflexivity|done]|].
  eapply rtc_l; [eapply (step_commit_call _ _ _ _ _ _ _ _ 1 _ _ _ _ (WriteIfVersion _ _) _ (Ok (Committed "t2")));
    [reflexivity|split_and!; [done|apply (bool_decide_unpack _); reflexivity|done]]|].
  eapply rtc_l; [eapply (step_committed _ _ _ _ _ _ _ 1); reflexivity|].
  apply rtc_refl.
Qed.

Lemma demo_run_2 : rtc (step bits_parse bits_encode "r" FencedCas) demo_acknowledged demo_taken_over.
Proof.
  eapply rtc_l; [apply (step_claim _ _ _ _ _ _ _ 2 "b"); [reflexivity|intros [=]]|].
  eapply rtc_l; [eapply (step_claim_call _ _ _ _ _ _ _ _ 2 _ FencedLocks _ false); [reflexivity|by split]|].
  eapply rtc_l; [eapply (step_claim_call _ _ _ _ _ _ _ _ 2 _ ReadVersioned _
    (Ok (prod_swap <$> head (drop 1 demo_trace)))); [reflexivity|by split]|].
  eapply rtc_l; [eapply (step_claim_call _ _ _ _ _ _ _ _ 2 _ (WriteIfVersion _ _) _ (Ok (Committed "t3")));
    [reflexivity|split_and!; [done|apply (bool_decide_unpack _); reflexivity|done]]|].
  eapply rtc_l; [eapply (step_claimed _ _ _ _ _ _ _ 2); reflexivity|].
  apply rtc_refl.
Qed.

Lemma demo_reachable_1 : reachable bits_parse bits_encode "r" FencedCas demo_acknowledged.
Proof. exists demo_empty. split; [split_and!; cbn; (lia || done)|apply demo_run_1]. Qed.

Lemma demo_reachable_2 : reachable bits_parse bits_encode "r" FencedCas demo_taken_over.
Proof.
  exists demo_empty. split; [split_and!; cbn; (lia || done)|].
  etrans; [apply demo_run_1|apply demo_run_2].
Qed.

(** After the takeover [a] tries to commit 9: the write meets a newer version. *)
Lemma demo_run_3 : rtc (step bits_parse bits_encode "r" FencedCas) demo_taken_over demo_taken_over.
Proof.
  eapply rtc_l; [eapply (step_commit _ _ _ _ _ _ _ 1 _ _ 9); [reflexivity|done]|].
  eapply rtc_l; [eapply (step_commit_call _ _ _ _ _ _ _ _ 1 _ _ _ _ (WriteIfVersion _ _) _ (Ok (Conflict (Some "t3"))));
    [reflexivity|split_and!; done]|].
  eapply rtc_l; [eapply (step_refused _ _ _ _ _ _ _ 1); reflexivity|].
  apply rtc_refl.
Qed.

Lemma register_never_moves_back_witness :
  exists p r, reads bits_parse "r" (bits_of (register_of (demo_cursor "a" 1 "") 0)) p /\
    reads bits_parse "r" (bits_of (register_of (demo_cursor "b" 2 "") 5)) r /\
    (read_offset p <= read_offset r)%N /\
    ((rr_epoch p < rr_epoch r)%N \/ (rr_epoch p = rr_epoch r /\ rr_holder p = rr_holder r)).
Proof.
  eapply (register_never_moves_back bits_parse bits_encode "r" bits_codec demo_taken_over
            [] ("t3", _) [("t2", _)] ("t1", _) []); [apply demo_reachable_2|reflexivity].
Defined.

Lemma fenced_out_holder_acknowledges_nothing_witness :
  (1, register_of (demo_cursor "a" 1 "t2") 5) ∈ acknowledged demo_taken_over.
Proof.
  apply (fenced_out_holder_acknowledges_nothing bits_parse bits_encode "r" bits_codec
           demo_taken_over demo_taken_over 1 (demo_cursor "a" 1 "t2") 5
           ("t3", bits_of (register_of (demo_cursor "b" 2 "") 5)) (register_of (demo_cursor "b" 2 "") 5));
    [apply demo_reachable_2|reflexivity|left| |done|apply demo_run_3|left|reflexivity].
  exists (Some (register_of (demo_cursor "b" 2 "") 5)). split; vm_compute; reflexivity.
Defined.

(** ** Under a lock

    [a] acknowledges 5 and exits; [b] takes over. *)

Definition plain_cursor (guarantee : CursorGuarantee) (holder : string) : RegisterCursor :=
  {| cur_holder := holder; cur_epoch := 0; cur_token := None; cur_guarantee := guarantee |}.
Definition plain_bits (holder : string) (offset : N) : string := bits_of (register_of (plain_cursor Fenced holder) offset).
Definition not_found : IoError := {| io_kind := NotFound; io_message := "missing" |}.
Definition unsupported : IoError := {| io_kind := Unsupported; io_message := "backend has no conditional write" |}.

#[local] Ltac written t := exists t; split; [apply (bool_decide_unpack _); vm_compute; exact I|reflexivity].
(** Client [i] claims as [holder]: what the plain read answers, and the new version's token. *)
#[local] Ltac claims i holder answer t :=
  eapply rtc_l; [apply (step_claim _ _ _ _ _ _ _ i holder); [reflexivity|intros [=]; reflexivity]|];
  (eapply rtc_l; [eapply (step_claim_call _ _ _ _ _ _ _ _ i _ FencedLocks); [reflexivity|split; reflexivity]|]);
  try (eapply rtc_l; [eapply (step_claim_call _ _ _ _ _ _ _ _ i _ ReadVersioned _ (Err unsupported)); [reflexivity|by split]|]);
  (eapply rtc_l; [eapply (step_claim_call _ _ _ _ _ _ _ _ i _ ReadPlain _ answer); [reflexivity|by split]|]);
  (eapply rtc_l; [eapply (step_claim_call _ _ _ _ _ _ _ _ i _ (WriteAtomic _) _ (Ok tt)); [vm_compute; reflexivity|written t]|]);
  (eapply rtc_l; [eapply (step_claimed _ _ _ _ _ _ _ i); vm_compute; reflexivity|]).
#[local] Ltac commits i offset t :=
  (eapply rtc_l; [eapply (step_commit _ _ _ _ _ _ _ i _ _ offset); [vm_compute; reflexivity|done]|]);
  (eapply rtc_l; [eapply (step_commit_call _ _ _ _ _ _ _ _ i _ _ _ _ (WriteAtomic _) _ (Ok tt)); [vm_compute; reflexivity|written t]|]);
  (eapply rtc_l; [eapply (step_committed _ _ _ _ _ _ _ i); vm_compute; reflexivity|]).

Definition locked_acknowledged : system :=
  {| storage := {| trace := [("t2", plain_bits "a" 5); ("t1", plain_bits "a" 0)]; in_flight := [] |}; clients := ∅;
     acknowledged := [(1, register_of (plain_cursor Fenced "a") 5)] |}.
Definition locked_taken_over : system :=
  {| storage := {| trace := ("t3", plain_bits "b" 5) :: trace (storage locked_acknowledged); in_flight := [] |};
     clients := {[2 := Holding (plain_cursor Fenced "b") 5]}; acknowledged := acknowledged locked_acknowledged |}.

Lemma locked_run_1 : rtc (step bits_parse bits_encode "r" Fenced) demo_empty locked_acknowledged.
Proof.
  claims 1 "a" (@Err _ string not_found) "t1". commits 1 5%N "t2".
  eapply rtc_l; [eapply (step_stop _ _ _ _ _ _ _ 1)|]. vm_compute. apply rtc_refl.
Qed.

Lemma locked_run_2 : rtc (step bits_parse bits_encode "r" Fenced) locked_acknowledged locked_taken_over.
Proof. claims 2 "b" (@Ok IoError _ (plain_bits "a" 5)) "t3". vm_compute. apply rtc_refl. Qed.

Lemma takeover_resumes_after_acknowledged_witness :
  ((read_offset (register_of (demo_cursor "a" 1 "t2") 5) <= 5)%N /\
   (rr_epoch (register_of (demo_cursor "a" 1 "t2") 5) <= cur_epoch (demo_cursor "b" 2 "t3"))%N) /\
  ((read_offset (register_of (plain_cursor Fenced "a") 5) <= 5)%N /\
   (rr_epoch (register_of (plain_cursor Fenced "a") 5) <= cur_epoch (plain_cursor Fenced "b"))%N).
Proof.
  split.
  - apply (takeover_resumes_after_acknowledged bits_parse bits_encode "r" bits_codec
             FencedCas demo_acknowledged demo_taken_over 2 1);
      [done|apply demo_reachable_1|left|reflexivity|apply demo_run_2|reflexivity].
  - apply (takeover_resumes_after_acknowledged bits_parse bits_encode "r" bits_codec
             Fenced locked_acknowledged locked_taken_over 2 1);
      [done| |left|reflexivity|apply locked_run_2|reflexivity].
    exists demo_empty. split; [split_and!; cbn; (lia || done)|apply locked_run_1].
Defined.

(** ** Neither guarantee

    A backend that answers [Unsupported]: [a] acknowledges 5; [b] takes over at 5 and acknowledges
    9; then [a], which still holds its cursor, acknowledges 6, and [c] resumes there. *)

Example at_least_once_moves_back :
  exists w c, reachable bits_parse bits_encode "r" AtLeastOnce w
    /\ (2, register_of (plain_cursor AtLeastOnce "b") 9) ∈ acknowledged w
    /\ clients w !! 3 = Some (Holding c 6).
Proof.
  eexists _, _. split; [|split].
  - exists demo_empty. split; [split_and!; cbn; (lia || done)|].
    claims 1 "a" (@Err _ string not_found) "t1".
    commits 1 5%N "t2".
    claims 2 "b" (@Ok IoError _ (plain_bits "a" 5)) "t3".
    commits 2 9%N "t4".
    commits 1 6%N "t5".
    claims 3 "c" (@Ok IoError _ (plain_bits "a" 6)) "t6".
    apply rtc_refl.
  - cbn. right. left.
  - reflexivity.
Qed.
