(* ===== verification/Sse.v ===== *)
(** * Incremental server-sent events (runtime/src/sse.rs)

    The parser that the MCP transports feed with raw byte chunks.  [push_chunk]
    and [finish] are the code's loops; the theorems say that how the bytes are cut
    into chunks never shows, and what a well-formed event is read back as.

    [utf8_lossy] is [String::from_utf8_lossy] on bytes: each maximal ill-formed
    prefix of a character becomes U+FFFD. *)
From S2P Require Import Prelude.
From stdpp Require Import list.
From S2P Require Import RustStr.

(** ** [String::from_utf8_lossy] *)

Definition byte_in (a : ascii) (lo hi : nat) : bool := (lo <=? code a) && (code a <=? hi).

(** U+FFFD. *)
Definition replacement (r : string) : string :=
  String (ascii_of_nat 239) (String (ascii_of_nat 191) (String (ascii_of_nat 189) r)).

(** The second byte of a three or four byte character after the lead [a]. *)
Definition second_ok (a b : ascii) : bool :=
  if code a =? 224 then byte_in b 160 191
  else if code a =? 237 then byte_in b 128 159
  else if code a =? 240 then byte_in b 144 191
  else if code a =? 244 then byte_in b 128 143
  else is_cont b.

Fixpoint utf8_lossy (s : string) : string :=
  match s with
  | EmptyString => EmptyString
  | String a r =>
      if is_ascii a then String a (utf8_lossy r)
      else if byte_in a 194 223 then
        match r with
        | String b r1 => if is_cont b then String a (String b (utf8_lossy r1))
                         else replacement (utf8_lossy r)
        | EmptyString => replacement EmptyString
        end
      else if byte_in a 224 239 then
        match r with
        | String b r1 =>
            if second_ok a b then
              match r1 with
              | String c r2 => if is_cont c then String a (String b (String c (utf8_lossy r2)))
                               else replacement (utf8_lossy r1)
              | EmptyString => replacement EmptyString
              end
            else replacement (utf8_lossy r)
        | EmptyString => replacement EmptyString
        end
      else if byte_in a 240 244 then
        match r with
        | String b r1 =>
            if second_ok a b then
              match r1 with
              | String c r2 =>
                  if is_cont c then
                    match r2 with
                    | String d r3 =>
                        if is_cont d then String a (String b (String c (String d (utf8_lossy r3))))
                        else replacement (utf8_lossy r2)
                    | EmptyString => replacement EmptyString
                    end
                  else replacement (utf8_lossy r1)
              | EmptyString => replacement EmptyString
              end
            else replacement (utf8_lossy r)
        | EmptyString => replacement EmptyString
        end
      else replacement (utf8_lossy r)
  end.

(** ** The parser *)

Record SseEvent := {
  ev_event : option string;
  ev_data : string;
  ev_id : option string;
  ev_retry : option N
}.

#[export] Instance SseEvent_eq_dec : EqDecision SseEvent.
Proof. solve_decision. Defined.

Record IncrementalSseParser := {
  buffer : string;
  event_name : option string;
  data_lines : list string;
  last_id : option string;
  retry : option N
}.

Definition parser_new : IncrementalSseParser :=
  {| buffer := ""; event_name := None; data_lines := []; last_id := None; retry := None |}.

Definition set_buffer (p : IncrementalSseParser) (b : string) : IncrementalSseParser :=
  {| buffer := b; event_name := event_name p; data_lines := data_lines p; last_id := last_id p;
     retry := retry p |}.

Definition newline : ascii := ascii_of_nat 10.
Definition carriage_return : ascii := ascii_of_nat 13.

Definition strip_last (c : ascii) (s : string) : string :=
  default s (strip_suffix s (String c "")).

Definition line_to_str (line_bytes : string) : string :=
  utf8_lossy (strip_last carriage_return (strip_last newline line_bytes)).

(** [line.split_once(':')]. *)
Definition split_once (s : string) (c : ascii) : option (string * string) :=
  match find_byte s (Ascii.eqb c) with
  | Some i => Some (str_take i s, str_skip (S i) s)
  | None => None
  end.

Definition take_event (p : IncrementalSseParser) : IncrementalSseParser * option SseEvent :=
  if match data_lines p with [] => true | _ => false end
     && bool_decide (event_name p = None) && bool_decide (last_id p = None)
     && bool_decide (retry p = None)
  then (p, None)
  else ({| buffer := buffer p; event_name := None; data_lines := []; last_id := None;
           retry := None |},
        Some {| ev_event := event_name p; ev_data := join (String newline "") (data_lines p);
                ev_id := last_id p; ev_retry := retry p |}).

Definition process_field (p : IncrementalSseParser) (field value : string) : IncrementalSseParser :=
  if String.eqb field "event" then
    {| buffer := buffer p; event_name := Some value; data_lines := data_lines p;
       last_id := last_id p; retry := retry p |}
  else if String.eqb field "data" then
    {| buffer := buffer p; event_name := event_name p; data_lines := data_lines p ++ [value];
       last_id := last_id p; retry := retry p |}
  else if String.eqb field "id" then
    {| buffer := buffer p; event_name := event_name p; data_lines := data_lines p;
       last_id := Some value; retry := retry p |}
  else if String.eqb field "retry" then
    {| buffer := buffer p; event_name := event_name p; data_lines := data_lines p;
       last_id := last_id p; retry := parse_u64 value |}
  else p.

Definition process_line (p : IncrementalSseParser) (line : string) (events : list SseEvent)
  : IncrementalSseParser * list SseEvent :=
  if is_empty line then
    let '(p, event) := take_event p in (p, events ++ option_list event)
  else if starts_with line ":" then (p, events)
  else
    let '(field, value) := match split_once line ":" with
                           | Some (field, value) => (field, default value (strip_prefix value " "))
                           | None => (line, "")
                           end in
    (process_field p field value, events).

(** The [while let] loop of [push_chunk]. *)
Fixpoint drain_lines (fuel : nat) (p : IncrementalSseParser) (events : list SseEvent)
  : run (IncrementalSseParser * list SseEvent) :=
  match fuel with
  | 0 => NoFuel
  | S fuel =>
      match find_byte (buffer p) (Ascii.eqb newline) with
      | None => Ret (p, events)
      | Some index =>
          let line := line_to_str (str_take (S index) (buffer p)) in
          let '(p, events) := process_line (set_buffer p (str_skip (S index) (buffer p))) line events in
          drain_lines fuel p events
      end
  end.

(** Every iteration removes a byte, so the buffer's length bounds the loop. *)
Definition push_chunk (p : IncrementalSseParser) (chunk : string)
  : run (IncrementalSseParser * list SseEvent) :=
  let p := set_buffer p (buffer p ++ chunk)%string in
  drain_lines (S (len (buffer p))) p [].

Definition finish (p : IncrementalSseParser) : IncrementalSseParser * list SseEvent :=
  let '(p, events) :=
    if is_empty (buffer p) then (p, [])
    else process_line (set_buffer p "") (line_to_str (buffer p)) [] in
  let '(p, event) := take_event p in
  (p, events ++ option_list event).

(** A stream of chunks, the events in the order they are returned. *)
Fixpoint push_chunks (p : IncrementalSseParser) (chunks : list string)
  : run (IncrementalSseParser * list SseEvent) :=
  match chunks with
  | [] => Ret (p, [])
  | chunk :: chunks =>
      '(p, events) ← push_chunk p chunk;
      '(p, more) ← push_chunks p chunks;
      Ret (p, events ++ more)
  end.

#[local] Arguments push_chunk : simpl never.

(** ** Reference: the lines of the whole stream *)

(** The complete lines of [s], terminators included, and what follows the last. *)
Fixpoint lines_of (s cur : string) : list string * string :=
  match s with
  | EmptyString => ([], cur)
  | String a r =>
      let cur := (cur ++ String a "")%string in
      if Ascii.eqb newline a then let '(ls, rest) := lines_of r "" in (cur :: ls, rest)
      else lines_of r cur
  end.

Fixpoint process_lines (p : IncrementalSseParser) (ls : list string) (events : list SseEvent)
  : IncrementalSseParser * list SseEvent :=
  match ls with
  | [] => (p, events)
  | l :: ls => let '(p, events) := process_line p (line_to_str l) events in process_lines p ls events
  end.

Lemma lines_of_app a b cur :
  lines_of (a ++ b) cur =
  let '(la, ra) := lines_of a cur in let '(lb, rb) := lines_of b ra in (la ++ lb, rb).
Proof.
  revert cur. induction a as [|c a IH]; intros cur; cbn.
  - by destruct (lines_of b cur).
  - destruct (Ascii.eqb newline c).
    + rewrite IH. destruct (lines_of a "") as [la ra]. by destruct (lines_of b ra).
    + apply IH.
Qed.

Lemma lines_of_cur s cur : find_byte s (Ascii.eqb newline) = None -> lines_of s cur = ([], (cur ++ s)%string).
Proof.
  revert cur. induction s as [|a s IH]; intros cur; cbn.
  - by rewrite str_app_nil_r.
  - destruct (Ascii.eqb newline a); [done|]. destruct (find_byte s _); [done|]. intros _.
    rewrite IH by done. by rewrite str_app_assoc.
Qed.

Lemma lines_of_hit s cur i :
  find_byte s (Ascii.eqb newline) = Some i ->
  lines_of s cur =
  let '(ls, r) := lines_of (str_skip (S i) s) "" in ((cur ++ str_take (S i) s)%string :: ls, r).
Proof.
  revert cur i. induction s as [|a s IH]; intros cur i; cbn [find_byte lines_of]; [done|].
  destruct (Ascii.eqb newline a).
  - intros [= <-]. cbn. by destruct s.
  - destruct (find_byte s _) as [j|] eqn:E; cbn [fmap option_fmap option_map]; [|done]. intros [= <-].
    rewrite (IH _ j) by done. cbn [str_skip]. destruct (lines_of _ "") as [ls r].
    cbn [str_take]. by rewrite str_app_assoc.
Qed.

Lemma process_field_buffer p b f v :
  process_field (set_buffer p b) f v = set_buffer (process_field p f v) b.
Proof. unfold process_field. by repeat case_match. Qed.

Lemma take_event_buffer p b :
  take_event (set_buffer p b) = (set_buffer (take_event p).1 b, (take_event p).2).
Proof. unfold take_event. cbn [set_buffer data_lines event_name last_id retry]. by case_match. Qed.

(** Lines are processed without a look at the buffer. *)
Lemma process_line_buffer p b line events :
  process_line (set_buffer p b) line events =
  (set_buffer (process_line p line events).1 b, (process_line p line events).2).
Proof.
  unfold process_line. rewrite take_event_buffer. destruct (is_empty line); [by destruct (take_event p)|].
  destruct (starts_with line ":"); [done|].
  destruct (split_once line ":") as [[f v]|]; by rewrite process_field_buffer.
Qed.

Lemma process_lines_buffer p b ls events :
  process_lines (set_buffer p b) ls events =
  (set_buffer (process_lines p ls events).1 b, (process_lines p ls events).2).
Proof.
  revert p events. induction ls as [|l ls IH]; intros p events; cbn; [done|].
  rewrite process_line_buffer. by destruct (process_line p (line_to_str l) events) as [p1 e1].
Qed.

Lemma process_line_events p line events :
  process_line p line events =
  ((process_line p line []).1, events ++ (process_line p line []).2).
Proof.
  unfold process_line. destruct (is_empty line); [by destruct (take_event p)|].
  destruct (starts_with line ":"); [by rewrite app_nil_r|].
  destruct (split_once line ":") as [[f v]|]; by rewrite app_nil_r.
Qed.

Lemma process_lines_events p ls events :
  process_lines p ls events =
  ((process_lines p ls []).1, events ++ (process_lines p ls []).2).
Proof.
  revert p events. induction ls as [|l ls IH]; intros p events; cbn; [by rewrite app_nil_r|].
  rewrite process_line_events. destruct (process_line p (line_to_str l) []) as [p1 e1]. cbn.
  rewrite IH, (IH p1 e1). cbn. by rewrite app_assoc.
Qed.

Lemma process_lines_app p ls ls' events :
  process_lines p (ls ++ ls') events =
  let '(p, events) := process_lines p ls events in process_lines p ls' events.
Proof.
  revert p events. induction ls as [|l ls IH]; intros p events; cbn; [done|].
  destruct (process_line p (line_to_str l) events). apply IH.
Qed.

(** The loop reads every complete line and leaves the rest in the buffer. *)
Lemma drain_lines_ref fuel p events :
  len (buffer p) < fuel ->
  drain_lines fuel p events =
  let '(ls, rest) := lines_of (buffer p) "" in
  Ret (set_buffer (process_lines p ls events).1 rest, (process_lines p ls events).2).
Proof.
  revert p events. induction fuel as [|fuel IH]; intros p events Hf; [lia|]. cbn [drain_lines].
  destruct (find_byte (buffer p) (Ascii.eqb newline)) as [i|] eqn:E.
  - rewrite (lines_of_hit _ _ _ E). apply find_byte_spec in E as [Hi _].
    rewrite process_line_buffer. set (line := str_take (S i) (buffer p)).
    destruct (process_line p (line_to_str line) events) as [p1 e1] eqn:E1. cbn [fst snd].
    rewrite IH by (change (len (str_skip (S i) (buffer p)) < fuel); rewrite len_skip; lia).
    cbn [set_buffer buffer].
    destruct (lines_of (str_skip (S i) (buffer p)) "") as [ls r].
    rewrite process_lines_buffer. cbn [process_lines fst snd]. change ("" ++ line)%string with line.
    rewrite E1. done.
  - rewrite lines_of_cur by done. by destruct p.
Qed.

Lemma push_chunk_ref p chunk :
  push_chunk p chunk =
  let '(ls, rest) := lines_of (buffer p ++ chunk) "" in
  Ret (set_buffer (process_lines p ls []).1 rest, (process_lines p ls []).2).
Proof.
  unfold push_chunk. rewrite drain_lines_ref by (cbn; lia). cbn [set_buffer buffer].
  destruct (lines_of (buffer p ++ chunk) "") as [ls r]. by rewrite process_lines_buffer.
Qed.

Lemma lines_of_rest s cur ls rest : lines_of s cur = (ls, rest) -> find_byte cur (Ascii.eqb newline) = None ->
  find_byte rest (Ascii.eqb newline) = None.
Proof.
  revert cur ls rest. induction s as [|a s IH]; intros cur ls rest; cbn; [by intros [= <- <-]|].
  destruct (Ascii.eqb newline a) eqn:Ea.
  - destruct (lines_of s "") as [ls' r'] eqn:E. intros [= <- <-] _. by apply (IH _ _ _ E).
  - intros E Hc. apply (IH _ _ _ E). clear -Hc Ea. induction cur as [|c cur IH]; cbn in *; [by rewrite Ea|].
    destruct (Ascii.eqb newline c); [done|]. destruct (find_byte cur _); [done|]. by rewrite IH.
Qed.

(** The state a stream leaves: no complete line stays in the buffer. *)
Definition drained (p : IncrementalSseParser) : Prop := find_byte (buffer p) (Ascii.eqb newline) = None.

(** Two chunks in turn are their concatenation at once. *)
Lemma push_chunk_app p a b :
  drained p ->
  push_chunk p (a ++ b) =
  ('(p, events) ← push_chunk p a; '(p, more) ← push_chunk p b; Ret (p, events ++ more)).
Proof.
  intros D. rewrite !push_chunk_ref, <- str_app_assoc, (lines_of_app (buffer p ++ a)).
  destruct (lines_of (buffer p ++ a) "") as [la ra] eqn:Ea. cbn.
  rewrite push_chunk_ref. cbn [buffer set_buffer].
  rewrite lines_of_app. 
  assert (Hr : lines_of ra "" = ([], ra)).
  { rewrite lines_of_cur; [done|]. eapply lines_of_rest; [exact Ea|done]. }
  rewrite Hr. destruct (lines_of b ra) as [lb rb]. cbn.
  rewrite process_lines_app, !process_lines_buffer.
  destruct (process_lines p la []) as [p1 e1]. cbn.
  rewrite process_lines_events. by destruct p1.
Qed.

Lemma push_chunk_drained p chunk p' events : push_chunk p chunk = Ret (p', events) -> drained p'.
Proof.
  rewrite push_chunk_ref. destruct (lines_of _ "") as [ls r] eqn:E. intros [= <- _].
  unfold drained. cbn. eapply lines_of_rest; [exact E|done].
Qed.

Lemma push_chunks_concat p chunks :
  drained p -> push_chunks p chunks = push_chunk p (foldr String.append "" chunks).
Proof.
  revert p. induction chunks as [|c chunks IH]; intros p D; cbn.
  - rewrite push_chunk_ref, str_app_nil_r, lines_of_cur by done. by destruct p.
  - rewrite push_chunk_app by done. destruct (push_chunk p c) as [[p1 e1]| |] eqn:E; cbn; [|done..].
    rewrite IH by (by eapply push_chunk_drained). done.
Qed.

(** C39. How a byte stream is cut into chunks never shows: pushing the chunks one
    by one returns the same events, in the same order, and leaves the same parser
    as pushing the whole stream at once, wherever a line, a CRLF or a UTF-8
    character is cut. *)
Theorem sse_chunking_is_invisible chunks chunks' :
  foldr String.append "" chunks = foldr String.append "" chunks' ->
  exists p events, push_chunks parser_new chunks = Ret (p, events) /\
    push_chunks parser_new chunks' = Ret (p, events).
Proof.
  intros E. rewrite !push_chunks_concat, <- E, push_chunk_ref by done.
  destruct (lines_of _ "") as [ls r]. eauto.
Qed.

Lemma sse_chunking_is_invisible_witness : exists p events,
  push_chunks parser_new ["data: "; String (ascii_of_nat 228) (String (ascii_of_nat 184) "");
    String (ascii_of_nat 173) (String carriage_return ""); String newline (String newline "")]
    = Ret (p, events) /\
  push_chunks parser_new ["data: " ++ String (ascii_of_nat 228) (String (ascii_of_nat 184)
    (String (ascii_of_nat 173) (String carriage_return (String newline (String newline "")))))]%string
    = Ret (p, events).
Proof. apply sse_chunking_is_invisible. vm_compute. reflexivity. Defined.

(** ** Reading back a well-formed event *)

(** A field value a line can carry: well-formed UTF-8, no line end. *)
Definition clean (v : string) : Prop :=
  utf8_lossy v = v /\ find_byte v (Ascii.eqb newline) = None /\
  ends_with v (String carriage_return "") = false.

Definition field_line (field value : string) : string := (field ++ ": " ++ value ++ String newline "")%string.

(** An event in the wire format: one [data] line per line of its data. *)
Definition render_event (name : option string) (data : list string) (id : option string) : string :=
  (from_option (field_line "event") "" name
   ++ foldr (fun l s => field_line "data" l ++ s) "" data
   ++ from_option (field_line "id") "" id ++ String newline "")%string.

Lemma find_byte_app_none a b p :
  find_byte a p = None -> find_byte (a ++ b) p = (Nat.add (len a)) <$> find_byte b p.
Proof.
  induction a as [|c a IH]; cbn [String.append find_byte]; [by destruct (find_byte b p)|].
  destruct (p c); [done|]. destruct (find_byte a p); [done|]. intros _. rewrite IH by done.
  by destruct (find_byte b p).
Qed.

Lemma lines_of_line v r :
  find_byte v (Ascii.eqb newline) = None ->
  lines_of (v ++ String newline r) "" =
  let '(ls, rest) := lines_of r "" in ((v ++ String newline "")%string :: ls, rest).
Proof.
  intros Hv. rewrite lines_of_app, lines_of_cur by done. cbn [String.append lines_of].
  by destruct (lines_of r "").
Qed.

Lemma strip_last_snoc c v : strip_last c (v ++ String c "")%string = v.
Proof.
  unfold strip_last. assert (H : strip_suffix (v ++ String c "")%string (String c "") = Some v)
    by by apply strip_suffix_iff. by rewrite H.
Qed.

Lemma strip_last_none c v : ends_with v (String c "") = false -> strip_last c v = v.
Proof.
  intros H. unfold strip_last. destruct (strip_suffix v (String c "")) as [r|] eqn:E; [|done].
  apply strip_suffix_iff in E. exfalso. assert (T : ends_with v (String c "") = true)
    by (apply ends_with_iff; eauto). congruence.
Qed.

Lemma ends_with_spaced a v c : Ascii.eqb c " " = false ->
  ends_with v (String c "") = false -> ends_with (a ++ String " " v) (String c "") = false.
Proof.
  intros Hc Hv. apply not_true_iff_false. intros [r E]%ends_with_iff.
  destruct (str_snoc_cases v) as [->|(q & d & ->)].
  - apply (f_equal str_rev) in E. rewrite !str_rev_app in E. cbn in E.
    injection E as E _. by rewrite <- E, Ascii.eqb_refl in Hc.
  - assert (d = c) as ->.
    { change (String " " (q ++ String d "")) with (String " " q ++ String d "")%string in E.
      rewrite <- str_app_assoc in E. apply (f_equal str_rev) in E. rewrite !str_rev_app in E. cbn in E. by injection E. }
    assert (T : ends_with (q ++ String c "") (String c "") = true) by (apply ends_with_iff; eauto).
    congruence.
Qed.

Lemma find_byte_spaced a v : find_byte a (Ascii.eqb newline) = None ->
  find_byte v (Ascii.eqb newline) = None -> find_byte (a ++ v) (Ascii.eqb newline) = None.
Proof. intros Ha Hv. rewrite find_byte_app_none by done. by rewrite Hv. Qed.

(** What the parser makes of one field line. *)
Lemma process_field_line p field v events :
  field = "event" \/ field = "data" \/ field = "id" -> clean v ->
  find_byte (field ++ ": " ++ v) (Ascii.eqb newline) = None /\
  process_line p (line_to_str (field_line field v)) events = (process_field p field v, events).
Proof.
  intros F (HL & HN & HR). split.
  { apply find_byte_spaced; [by destruct F as [->|[->| ->]]|]. by apply find_byte_spaced. }
  unfold line_to_str, field_line. rewrite <- !str_app_assoc, strip_last_snoc.
  assert (E : ((field ++ ": ") ++ v = (field ++ ":") ++ String " " v)%string)
    by (by autorewrite with rust).
  rewrite strip_last_none by (rewrite E; by apply ends_with_spaced).
  assert (U : utf8_lossy ((field ++ ": ") ++ v) = ((field ++ ": ") ++ v)%string).
  { rewrite <- HL at 2. by destruct F as [->|[->| ->]]. }
  rewrite U. by destruct F as [->|[->| ->]].
Qed.

Lemma field_line_lines field v r :
  find_byte (field ++ ": " ++ v) (Ascii.eqb newline) = None ->
  lines_of (field_line field v ++ r) "" =
  let '(ls, rest) := lines_of r "" in (field_line field v :: ls, rest).
Proof.
  intros Hv. pose proof (lines_of_line (field ++ ": " ++ v) r Hv) as E. unfold field_line.
  rewrite !str_app_assoc in *. cbn [String.append] in *. exact E.
Qed.

(** A field line in front of a stream is processed first. *)
Lemma process_lines_field p field v r :
  field = "event" \/ field = "data" \/ field = "id" -> clean v ->
  (let '(ls, rest) := lines_of (field_line field v ++ r) "" in (process_lines p ls [], rest)) =
  (let '(ls, rest) := lines_of r "" in (process_lines (process_field p field v) ls [], rest)).
Proof.
  intros F C. destruct (process_field_line p field v [] F C) as [HN HP].
  rewrite field_line_lines by done. destruct (lines_of r "") as [ls rest]. cbn [process_lines].
  by rewrite HP.
Qed.

Definition with_data (p : IncrementalSseParser) (data : list string) : IncrementalSseParser :=
  {| buffer := buffer p; event_name := event_name p; data_lines := data_lines p ++ data;
     last_id := last_id p; retry := retry p |}.

Lemma process_lines_data p data r :
  Forall clean data ->
  (let '(ls, rest) := lines_of (foldr (fun l s => field_line "data" l ++ s)%string "" data ++ r) "" in
   (process_lines p ls [], rest)) =
  (let '(ls, rest) := lines_of r "" in (process_lines (with_data p data) ls [], rest)).
Proof.
  intros C. revert p. induction C as [|l data Cl C IH]; intros p; cbn [foldr].
  - unfold with_data. rewrite app_nil_r. by destruct p.
  - rewrite str_app_assoc, process_lines_field by auto. rewrite IH. unfold with_data; cbn.
    by rewrite <- app_assoc.
Qed.

Lemma process_lines_option p field v r :
  field = "event" \/ field = "id" -> (forall n, v = Some n -> clean n) ->
  (let '(ls, rest) := lines_of (from_option (field_line field) "" v ++ r) "" in
   (process_lines p ls [], rest)) =
  (let '(ls, rest) := lines_of r "" in
   (process_lines (from_option (process_field p field) p v) ls [], rest)).
Proof.
  intros F C. destruct v as [v|]; cbn [from_option]; [|done].
  apply process_lines_field; [destruct F as [->| ->]; auto|by apply C].
Qed.

(** A well-formed event comes back as it was sent: whatever chunks its bytes
    arrive in, a fresh parser returns exactly that event and is fresh again. *)
Theorem sse_event_roundtrip name data id chunks :
  (data <> [] \/ name <> None \/ id <> None) ->
  Forall clean data -> (forall n, name = Some n -> clean n) -> (forall i, id = Some i -> clean i) ->
  foldr String.append "" chunks = render_event name data id ->
  push_chunks parser_new chunks =
  Ret (parser_new, [{| ev_event := name; ev_data := join (String newline "") data;
                       ev_id := id; ev_retry := None |}]).
Proof.
  intros Hd Cd Cn Ci E. rewrite push_chunks_concat, E, push_chunk_ref by done. unfold render_event.
  change (buffer parser_new ++ ?x)%string with x.
  set (p1 := from_option (process_field parser_new "event") parser_new name).
  set (p2 := with_data p1 data). set (p3 := from_option (process_field p2 "id") p2 id).
  assert (H : (let '(ls, rest) := lines_of (from_option (field_line "event") "" name ++
      foldr (fun l s => field_line "data" l ++ s)%string "" data ++
      from_option (field_line "id") "" id ++ String newline "") "" in
      (process_lines parser_new ls [], rest)) = (process_line p3 "" [], "")).
  { rewrite process_lines_option by auto. rewrite process_lines_data by done.
    rewrite process_lines_option by auto. fold p1 p2 p3.
    change (lines_of (String newline "") "") with ([String newline ""], ""). cbn [process_lines].
    change (line_to_str (String newline "")) with "". by destruct (process_line p3 "" []). }
  destruct (lines_of _ "") as [ls rest]. injection H as H ->. rewrite H.
  unfold process_line, take_event; cbn [is_empty].
  destruct name, id, data; cbn; try done. by destruct Hd as [?|[?|?]].
Qed.

Lemma sse_event_roundtrip_witness :
  push_chunks parser_new
    ["event: mess"; ("age" ++ String newline "data: a")%string; String newline "data: b: c";
     (String newline "" ++ String newline "")%string] =
  Ret (parser_new, [{| ev_event := Some "message"; ev_data := ("a" ++ String newline "b: c")%string;
                       ev_id := None; ev_retry := None |}]).
Proof.
  apply (sse_event_roundtrip (Some "message") ["a"; "b: c"] None).
  - left. discriminate.
  - repeat constructor.
  - intros n [= <-]. repeat split.
  - discriminate.
  - vm_compute. reflexivity.
Defined.
