(* ===== verification/JsonText.v ===== *)
(** * The session file's JSON (runtime/src/json.rs)

    The value type of the session store, its renderer and its recursive descent
    parser.  A [char] is its Unicode scalar value and a [String] the list of its
    chars, as in the code's [Vec<char>]; the parser's position is the list of the
    chars still to be read.  A [BTreeMap] is the list of its entries in key order,
    and keys are ordered as strings are: by scalar value, which is the order of
    the UTF-8 bytes.

    [serde_json::Number], for numbers outside [i64], is a parameter.  The recursion
    of the parser and its loops run with fuel; [parse_total] shows that the fuel
    [parse] gives is always enough.  The depth of the call stack is not bounded by
    the code and not modelled. *)
From S2P Require Import Prelude.
From stdpp Require Import list sorting.

(** ** Chars and text *)

Definition char : Type := N.
Definition text : Type := list N.

Definition ch (a : ascii) : char := N_of_ascii a.
Definition txt (s : string) : text := map ch (list_ascii_of_string s).

Definition quote : char := 34%N.
Definition backslash : char := 92%N.

Definition char_in (c : char) (lo hi : N) : bool := (lo <=? c)%N && (c <=? hi)%N.

(** [char::is_control]: general category Cc. *)
Definition is_control (c : char) : bool := (c <? 32)%N || char_in c 127 159.

(** A Unicode scalar value. *)
Definition is_scalar (c : char) : bool := (c <? 0xD800)%N || char_in c 0xE000 0x10FFFF.

(** [char::to_digit(16)]. *)
Definition to_digit16 (c : char) : option N :=
  if char_in c 48 57 then Some (c - 48)%N
  else if char_in c 97 102 then Some (c - 87)%N
  else if char_in c 65 70 then Some (c - 55)%N
  else None.

Definition is_digit (c : char) : bool := char_in c 48 57.

(** The order of [String]. *)
Fixpoint text_lt (a b : text) : bool :=
  match a, b with
  | [], [] => false
  | [], _ :: _ => true
  | _ :: _, [] => false
  | x :: a, y :: b => (x <? y)%N || ((x =? y)%N && text_lt a b)
  end.

(** [i64]'s [Display]. *)
Fixpoint show_digits (fuel : nat) (n : N) (acc : text) : text :=
  match fuel with
  | 0 => acc
  | S fuel =>
      let acc := (48 + n mod 10)%N :: acc in
      if (n / 10 =? 0)%N then acc else show_digits fuel (n / 10)%N acc
  end.

Definition show_i64 (z : Z) : text :=
  if (z <? 0)%Z then ch "-" :: show_digits 20 (Z.to_N (- z)) []
  else show_digits 20 (Z.to_N z) [].

Definition i64_range (z : Z) : Prop := (-9223372036854775808 <= z <= 9223372036854775807)%Z.

(** ** The number library *)

Class SerdeNumber := {
  Number : Type;
  (** [str::parse::<serde_json::Number>(..).ok()] *)
  number_parse : text -> option Number;
  (** [Number::as_i64] *)
  number_as_i64 : Number -> option Z;
  (** [Display] *)
  number_show : Number -> text
}.

(** A decimal integer in the range of [i64] is parsed to a number with that value. *)
Class SerdeNumberLaws `{SerdeNumber} := {
  number_parse_i64 z : i64_range z ->
    exists n, number_parse (show_i64 z) = Some n /\ number_as_i64 n = Some z
}.

(** ** Values *)

Section Values.
Context `{SN : SerdeNumber}.

Inductive JsonValue :=
| JNull
| JBool (value : bool)
| JNumber (value : Z)
| JNumberValue (value : Number)
| JString (value : text)
| JArray (values : list JsonValue)
| JObject (entries : list (text * JsonValue)).

(** [BTreeMap::insert] *)
Fixpoint entries_insert (k : text) (v : JsonValue) (m : list (text * JsonValue))
  : list (text * JsonValue) :=
  match m with
  | [] => [(k, v)]
  | (k', v') :: r =>
      if text_lt k k' then (k, v) :: m
      else if bool_decide (k = k') then (k, v) :: r
      else (k', v') :: entries_insert k v r
  end.

Definition as_object (v : JsonValue) : option (list (text * JsonValue)) :=
  match v with JObject m => Some m | _ => None end.
Definition as_array (v : JsonValue) : option (list JsonValue) :=
  match v with JArray l => Some l | _ => None end.
Definition as_str (v : JsonValue) : option text :=
  match v with JString s => Some s | _ => None end.
Definition as_bool (v : JsonValue) : option bool :=
  match v with JBool b => Some b | _ => None end.
Definition as_i64 (v : JsonValue) : option Z :=
  match v with JNumber z => Some z | _ => None end.

(** ** Rendering *)

Definition hex_digit (nibble : N) : char :=
  if (nibble <? 10)%N then (48 + nibble)%N else (87 + nibble)%N.

Definition push_unicode_escape (c : char) : text :=
  txt "\u" ++ map (fun shift => hex_digit (N.land (N.shiftr c shift) 0xF)) [12; 8; 4; 0]%N.

Definition render_char (c : char) : text :=
  if (c =? quote)%N then [backslash; quote]
  else if (c =? backslash)%N then [backslash; backslash]
  else if (c =? 10)%N then txt "\n"
  else if (c =? 13)%N then txt "\r"
  else if (c =? 9)%N then txt "\t"
  else if (c =? 8)%N then txt "\b"
  else if (c =? 12)%N then txt "\f"
  else if is_control c then push_unicode_escape c
  else [c].

Definition render_string (value : text) : text :=
  quote :: concat (map render_char value) ++ [quote].

(** [join(",")]. *)
Fixpoint join_comma (l : list text) : text :=
  match l with
  | [] => []
  | [x] => x
  | x :: r => x ++ ch "," :: join_comma r
  end.

Fixpoint render (v : JsonValue) : text :=
  match v with
  | JNull => txt "null"
  | JBool true => txt "true"
  | JBool false => txt "false"
  | JNumber z => show_i64 z
  | JNumberValue n => number_show n
  | JString s => render_string s
  | JArray values => ch "[" :: join_comma (map render values) ++ [ch "]"]
  | JObject entries =>
      ch "{" :: join_comma (map (fun e => render_string e.1 ++ ch ":" :: render e.2) entries)
        ++ [ch "}"]
  end.

(** ** Parsing *)

(** A parser call: the value and the chars still to be read, or the error. *)
Definition parsed (A : Type) : Type := run (result text (A * text)).

Definition fail {A} (message : text) : parsed A := Ret (Err message).
Definition got {A} (a : A) (rest : text) : parsed A := Ret (Ok (a, rest)).

(** The [?] operator. *)
Definition try_ {A B} (p : parsed A) (k : A -> text -> parsed B) : parsed B :=
  match p with
  | Ret (Ok (a, rest)) => k a rest
  | Ret (Err e) => Ret (Err e)
  | Panic => Panic
  | NoFuel => NoFuel
  end.

Definition is_space (c : char) : bool :=
  (c =? 32)%N || (c =? 10)%N || (c =? 13)%N || (c =? 9)%N.

Fixpoint skip_whitespace (cs : text) : text :=
  match cs with
  | c :: r => if is_space c then skip_whitespace r else cs
  | [] => []
  end.

Definition expect (expected : char) (cs : text) : parsed unit :=
  match cs with
  | actual :: r =>
      if (actual =? expected)%N then got tt r
      else fail (txt "expected '" ++ [expected] ++ txt "', found '" ++ [actual] ++ txt "'")
  | [] => fail (txt "expected '" ++ [expected] ++ txt "', found end of input")
  end.

(** [try_consume], the rest when it succeeds. *)
Definition try_consume (expected : char) (cs : text) : option text :=
  match cs with
  | c :: r => if (c =? expected)%N then Some r else None
  | [] => None
  end.

Fixpoint parse_literal_chars (expected all : text) (value : JsonValue) (cs : text) : parsed JsonValue :=
  match expected with
  | [] => got value cs
  | e :: es =>
      match cs with
      | c :: r => if (c =? e)%N then parse_literal_chars es all value r
                  else fail (txt "invalid literal: expected " ++ all)
      | [] => fail (txt "invalid literal: expected " ++ all)
      end
  end.

Definition parse_literal (expected : text) (value : JsonValue) (cs : text) : parsed JsonValue :=
  parse_literal_chars expected expected value cs.

(** [n] hexadecimal digits after [value]. *)
Fixpoint parse_quad_chars (n : nat) (value : N) (cs : text) : parsed N :=
  match n with
  | 0 => got value cs
  | S n =>
      match cs with
      | [] => fail (txt "unexpected end of input in unicode escape")
      | c :: r =>
          match to_digit16 c with
          | None => fail (txt "invalid unicode escape")
          | Some d => parse_quad_chars n (N.lor (N.shiftl value 4) d) r
          end
      end
  end.

Definition parse_unicode_quad (cs : text) : parsed N := parse_quad_chars 4 0 cs.

Definition from_u32 (value : N) (cs : text) : parsed char :=
  if is_scalar value then got value cs else fail (txt "invalid unicode scalar value").

Definition parse_unicode_escape (cs : text) : parsed char :=
  try_ (parse_unicode_quad cs) (fun value cs =>
  if char_in value 0xD800 0xDBFF then
    try_ (expect backslash cs) (fun _ cs =>
    try_ (expect (ch "u") cs) (fun _ cs =>
    try_ (parse_unicode_quad cs) (fun low cs =>
    if negb (char_in low 0xDC00 0xDFFF) then fail (txt "invalid unicode surrogate pair")
    else from_u32 (0x10000 + N.shiftl (value - 0xD800) 10 + low - 0xDC00)%N cs)))
  else from_u32 value cs).

Definition parse_escape (cs : text) : parsed char :=
  match cs with
  | [] => fail (txt "unexpected end of input in escape sequence")
  | c :: r =>
      if (c =? quote)%N then got quote r
      else if (c =? backslash)%N then got backslash r
      else if (c =? ch "/")%N then got (ch "/") r
      else if (c =? ch "b")%N then got 8%N r
      else if (c =? ch "f")%N then got 12%N r
      else if (c =? ch "n")%N then got 10%N r
      else if (c =? ch "r")%N then got 13%N r
      else if (c =? ch "t")%N then got 9%N r
      else if (c =? ch "u")%N then parse_unicode_escape r
      else fail (txt "invalid escape sequence: " ++ [c])
  end.

(** The loop of [parse_string]; [value] is what has been pushed. *)
Fixpoint string_loop (fuel : nat) (value cs : text) : parsed text :=
  match fuel with
  | 0 => NoFuel
  | S fuel =>
      match cs with
      | [] => fail (txt "unterminated string")
      | c :: r =>
          if (c =? quote)%N then got value r
          else if (c =? backslash)%N then
            try_ (parse_escape r) (fun c r => string_loop fuel (value ++ [c]) r)
          else string_loop fuel (value ++ [c]) r
      end
  end.

Definition parse_string (cs : text) : parsed text :=
  try_ (expect quote cs) (fun _ cs => string_loop (S (length cs)) [] cs).

Fixpoint take_digits (cs : text) : text * text :=
  match cs with
  | c :: r => if is_digit c then let '(ds, rest) := take_digits r in (c :: ds, rest) else ([], cs)
  | [] => ([], [])
  end.

(** The chars a fraction, an exponent and a tail take, and what is left. *)
Definition skip_fraction (cs : text) : text * text :=
  match try_consume (ch ".") cs with
  | Some r => let '(ds, r) := take_digits r in (ch "." :: ds, r)
  | None => ([], cs)
  end.

Definition skip_sign (cs : text) : text * text :=
  match cs with
  | s :: r => if (s =? ch "+")%N || (s =? ch "-")%N then ([s], r) else ([], cs)
  | [] => ([], [])
  end.

Definition skip_exponent (cs : text) : text * text :=
  match cs with
  | e :: r =>
      if (e =? ch "e")%N || (e =? ch "E")%N then
        let '(sign, r) := skip_sign r in
        let '(ds, r) := take_digits r in (e :: sign ++ ds, r)
      else ([], cs)
  | [] => ([], [])
  end.

Definition skip_number_tail (cs : text) : text * text :=
  let '(fraction, cs) := skip_fraction cs in
  let '(exponent, cs) := skip_exponent cs in
  (fraction ++ exponent, cs).

Definition skip_minus (cs : text) : text * text :=
  match try_consume (ch "-") cs with Some r => ([ch "-"], r) | None => ([], cs) end.

Definition parse_number (cs : text) : parsed JsonValue :=
  let '(minus, cs) := skip_minus cs in
  let '(digits, cs) := take_digits cs in
  if match digits with [] => true | _ => false end then fail (txt "invalid number")
  else
    let '(tail, cs) := skip_number_tail cs in
    match number_parse (minus ++ digits ++ tail) with
    | None => fail (txt "invalid JSON number")
    | Some number =>
        got (match number_as_i64 number with Some z => JNumber z | None => JNumberValue number end) cs
    end.

(** [parse_value] with the loops of [parse_array] and [parse_object], whose opening
    bracket [parse_value] has just seen. *)
Fixpoint parse_value (fuel : nat) (cs : text) {struct fuel} : parsed JsonValue :=
  match fuel with
  | 0 => NoFuel
  | S fuel =>
      let cs := skip_whitespace cs in
      match cs with
      | [] => fail (txt "unexpected end of input")
      | c :: r =>
          if (c =? ch "n")%N then parse_literal (txt "null") JNull cs
          else if (c =? ch "t")%N then parse_literal (txt "true") (JBool true) cs
          else if (c =? ch "f")%N then parse_literal (txt "false") (JBool false) cs
          else if (c =? quote)%N then try_ (parse_string cs) (fun s cs => got (JString s) cs)
          else if (c =? ch "[")%N then array_loop fuel [] r
          else if (c =? ch "{")%N then object_loop fuel [] r
          else if (c =? ch "-")%N || is_digit c then parse_number cs
          else fail (txt "unexpected character: " ++ [c])
      end
  end
with array_loop (fuel : nat) (values : list JsonValue) (cs : text) {struct fuel} : parsed JsonValue :=
  match fuel with
  | 0 => NoFuel
  | S fuel =>
      let cs := skip_whitespace cs in
      match try_consume (ch "]") cs with
      | Some cs => got (JArray values) cs
      | None =>
          try_ (parse_value fuel cs) (fun v cs =>
          let values := values ++ [v] in
          let cs := skip_whitespace cs in
          match try_consume (ch "]") cs with
          | Some cs => got (JArray values) cs
          | None => try_ (expect (ch ",") cs) (fun _ cs => array_loop fuel values cs)
          end)
      end
  end
with object_loop (fuel : nat) (entries : list (text * JsonValue)) (cs : text) {struct fuel}
  : parsed JsonValue :=
  match fuel with
  | 0 => NoFuel
  | S fuel =>
      let cs := skip_whitespace cs in
      match try_consume (ch "}") cs with
      | Some cs => got (JObject entries) cs
      | None =>
          try_ (parse_string cs) (fun key cs =>
          try_ (expect (ch ":") (skip_whitespace cs)) (fun _ cs =>
          try_ (parse_value fuel cs) (fun value cs =>
          let entries := entries_insert key value entries in
          let cs := skip_whitespace cs in
          match try_consume (ch "}") cs with
          | Some cs => got (JObject entries) cs
          | None => try_ (expect (ch ",") cs) (fun _ cs => object_loop fuel entries cs)
          end)))
      end
  end.

Definition parse (source : text) : run (result text JsonValue) :=
  match parse_value (2 * length source + 2) source with
  | Ret (Ok (value, cs)) =>
      match skip_whitespace cs with
      | [] => Ret (Ok value)
      | _ :: _ => Ret (Err (txt "unexpected trailing content"))
      end
  | Ret (Err e) => Ret (Err e)
  | Panic => Panic
  | NoFuel => NoFuel
  end.

(** ** The parser is total *)

(** [p] has an answer, and a success leaves fewer than [n] chars. *)
Definition within {A} (p : parsed A) (n : nat) : Prop :=
  match p with
  | Ret (Ok (_, rest)) => length rest < n
  | Ret (Err _) => True
  | Panic | NoFuel => False
  end.

Lemma within_fail {A} m n : within (@fail A m) n.
Proof. done. Qed.

Lemma within_mono {A} (p : parsed A) n m : within p n -> n <= m -> within p m.
Proof. destruct p as [[[a r]|e]| |]; cbn; [lia|done..]. Qed.

Lemma within_try {A B} (p : parsed A) (k : A -> text -> parsed B) n m :
  within p n -> (forall a r, length r < n -> within (k a r) m) -> within (try_ p k) m.
Proof. destruct p as [[[a r]|e]| |]; cbn; auto. Qed.

Lemma skip_whitespace_length cs : length (skip_whitespace cs) <= length cs.
Proof. induction cs as [|c cs IH]; cbn; [done|]. destruct (is_space c); cbn; lia. Qed.

Lemma try_consume_length c cs r : try_consume c cs = Some r -> length cs = S (length r).
Proof. destruct cs as [|a cs]; cbn; [done|]. case_match; [|done]. by intros [= ->]. Qed.

Lemma expect_within c cs : within (expect c cs) (length cs).
Proof. destruct cs; cbn; [done|]. case_match; cbn; [lia|done]. Qed.

Lemma literal_within e all v cs : within (parse_literal_chars e all v cs) (S (length cs)).
Proof.
  revert cs. induction e as [|x e IH]; intros cs; cbn; [lia|].
  destruct cs as [|c cs]; [done|]. case_match; [|done].
  eapply within_mono; [apply IH|]. cbn; lia.
Qed.

Lemma parse_literal_within e v cs : e <> [] -> within (parse_literal e v cs) (length cs).
Proof.
  destruct e as [|x e]; [done|]. intros _. unfold parse_literal. cbn.
  destruct cs as [|c cs]; [done|]. case_match; [|done]. apply literal_within.
Qed.

Lemma quad_within n v cs : within (parse_quad_chars n v cs) (S (length cs)).
Proof.
  revert v cs. induction n as [|n IH]; intros v cs; cbn; [lia|].
  destruct cs as [|c cs]; [done|]. case_match; [|done].
  eapply within_mono; [apply IH|]. cbn; lia.
Qed.

Lemma from_u32_within v cs : within (from_u32 v cs) (S (length cs)).
Proof. unfold from_u32. case_match; cbn; [lia|done]. Qed.

Lemma unicode_escape_within cs : within (parse_unicode_escape cs) (S (length cs)).
Proof.
  unfold parse_unicode_escape.
  eapply within_try; [apply quad_within|]. intros v r Hr. case_match;
    [|eapply within_mono; [apply from_u32_within|lia]].
  eapply within_try; [apply expect_within|]. intros _ r1 H1.
  eapply within_try; [apply expect_within|]. intros _ r2 H2.
  eapply within_try; [apply quad_within|]. intros low r3 H3. case_match; [done|].
  eapply within_mono; [apply from_u32_within|lia].
Qed.

Lemma escape_within cs : within (parse_escape cs) (length cs).
Proof.
  destruct cs as [|c cs]; cbn [parse_escape]; [done|].
  repeat (case_match; [cbn; lia|]). case_match; [|done]. apply unicode_escape_within.
Qed.

Lemma string_loop_within fuel v cs : length cs < fuel -> within (string_loop fuel v cs) (length cs).
Proof.
  revert v cs. induction fuel as [|fuel IH]; intros v cs Hf; [lia|]. cbn.
  destruct cs as [|c cs]; [done|]. cbn in Hf. case_match; [cbn; lia|]. case_match.
  - eapply within_try; [apply escape_within|]. intros a r Hr.
    eapply within_mono; [apply IH; lia|cbn; lia].
  - eapply within_mono; [apply IH; lia|cbn; lia].
Qed.

Lemma parse_string_within cs : within (parse_string cs) (length cs).
Proof.
  unfold parse_string. eapply within_try; [apply expect_within|]. intros _ r Hr.
  eapply within_mono; [apply string_loop_within; lia|lia].
Qed.

Lemma take_digits_length cs : length (take_digits cs).1 + length (take_digits cs).2 = length cs.
Proof.
  induction cs as [|c cs IH]; cbn; [done|]. case_match; [|done].
  destruct (take_digits cs); cbn in *; lia.
Qed.

Lemma skip_minus_length cs : length (skip_minus cs).2 <= length cs.
Proof.
  unfold skip_minus. destruct (try_consume _ cs) as [r|] eqn:E; [|done].
  apply try_consume_length in E. cbn; lia.
Qed.

Lemma skip_sign_length cs : length (skip_sign cs).2 <= length cs.
Proof. destruct cs; cbn; [lia|]. case_match; cbn; lia. Qed.

Lemma skip_number_tail_length cs : length (skip_number_tail cs).2 <= length cs.
Proof.
  unfold skip_number_tail.
  assert (H1 : length (skip_fraction cs).2 <= length cs).
  { unfold skip_fraction. destruct (try_consume _ cs) as [r|] eqn:E; [|done].
    apply try_consume_length in E. pose proof (take_digits_length r).
    destruct (take_digits r); cbn in *; lia. }
  destruct (skip_fraction cs) as [f cs1]. cbn in H1.
  destruct cs1 as [|e r]; cbn in *; [lia|]. destruct (_ || _); [|cbn; lia].
  pose proof (skip_sign_length r). destruct (skip_sign r) as [sg r1].
  pose proof (take_digits_length r1). destruct (take_digits r1); cbn in *; lia.
Qed.

Lemma parse_number_within cs : within (parse_number cs) (length cs).
Proof.
  unfold parse_number. pose proof (skip_minus_length cs) as H1.
  destruct (skip_minus cs) as [minus cs1]. cbn in H1.
  pose proof (take_digits_length cs1) as H2. destruct (take_digits cs1) as [ds cs2]. cbn in H2.
  pose proof (skip_number_tail_length cs2) as H3. destruct ds as [|d ds]; [done|].
  destruct (skip_number_tail cs2) as [tl cs3]. cbn in *. case_match; cbn; [lia|done].
Qed.

Lemma parse_within fuel :
  (forall cs, 2 * length cs + 1 <= fuel -> within (parse_value fuel cs) (length cs)) /\
  (forall vs cs, 2 * length cs + 2 <= fuel -> within (array_loop fuel vs cs) (length cs)) /\
  (forall es cs, 2 * length cs + 2 <= fuel -> within (object_loop fuel es cs) (length cs)).
Proof.
  induction fuel as [|fuel (IHv & IHa & IHo)]; [split_and!; intros; lia|].
  split_and!.
  - intros cs Hf. cbn [parse_value]. pose proof (skip_whitespace_length cs) as Hs.
    destruct (skip_whitespace cs) as [|c r]; [done|]. cbn in Hs.
    repeat (case_match; [solve
      [ eapply within_mono; [by apply parse_literal_within|cbn; lia]
      | eapply within_try; [apply parse_string_within|]; cbn; intros; lia
      | eapply within_mono; [apply IHa; lia|lia]
      | eapply within_mono; [apply IHo; lia|lia]
      | eapply within_mono; [apply parse_number_within|cbn; lia] ]|]). done.
  - intros vs cs Hf. cbn [array_loop]. pose proof (skip_whitespace_length cs) as Hs.
    destruct (try_consume _ (skip_whitespace cs)) as [r|] eqn:E; [apply try_consume_length in E; cbn; lia|].
    eapply within_try; [apply IHv; lia|]. intros v r Hr. cbn zeta.
    pose proof (skip_whitespace_length r) as Hs'.
    destruct (try_consume _ (skip_whitespace r)) as [r'|] eqn:E'; [apply try_consume_length in E'; cbn; lia|].
    eapply within_try; [apply expect_within|]. intros _ r' Hr'.
    eapply within_mono; [apply IHa; lia|lia].
  - intros es cs Hf. cbn [object_loop]. pose proof (skip_whitespace_length cs) as Hs.
    destruct (try_consume _ (skip_whitespace cs)) as [r|] eqn:E; [apply try_consume_length in E; cbn; lia|].
    eapply within_try; [apply parse_string_within|]. intros k r Hr.
    pose proof (skip_whitespace_length r) as Hsr.
    eapply within_try; [apply expect_within|]. intros _ r1 Hr1.
    eapply within_try; [apply IHv; lia|]. intros v r2 Hr2. cbn zeta.
    pose proof (skip_whitespace_length r2) as Hs'.
    destruct (try_consume _ (skip_whitespace r2)) as [r'|] eqn:E'; [apply try_consume_length in E'; cbn; lia|].
    eapply within_try; [apply expect_within|]. intros _ r' Hr'.
    eapply within_mono; [apply IHo; lia|lia].
Qed.

(** The parser terminates on every input: the fuel [parse] gives is enough for
    any text, so it always answers with a value or an error. *)
Theorem parse_total source : exists r, parse source = Ret r.
Proof.
  unfold parse. destruct (parse_within (2 * length source + 2)) as (W & _ & _).
  specialize (W source). destruct (parse_value _ source) as [[[v cs]|e]| |]; [|by eexists|exfalso; apply W; lia..].
  destruct (skip_whitespace cs); by eexists.
Qed.

(** ** Strings are read back *)

Definition scalars (s : text) : Prop := Forall (fun c => is_scalar c = true) s.

(** The value of four digits, [None] if one is not a digit. *)
Definition quad_value (a b c d : char) : option N :=
  a ← to_digit16 a; b ← to_digit16 b; c ← to_digit16 c; d ← to_digit16 d;
  Some (N.lor (N.shiftl (N.lor (N.shiftl (N.lor (N.shiftl (N.lor (N.shiftl 0 4) a) 4) b) 4) c) 4) d).

Lemma parse_quad_value a b c d n r :
  quad_value a b c d = Some n -> parse_unicode_quad (a :: b :: c :: d :: r) = got n r.
Proof.
  unfold quad_value, parse_unicode_quad. cbn [parse_quad_chars].
  destruct (to_digit16 a); [|done]. destruct (to_digit16 b); [|done].
  destruct (to_digit16 c); [|done]. destruct (to_digit16 d); [|done].
  cbn [mbind option_bind]. by intros [= ->].
Qed.

Lemma hex_quad c r : (c < 160)%N ->
  parse_unicode_quad (map (fun shift => hex_digit (N.land (N.shiftr c shift) 0xF)) [12; 8; 4; 0]%N ++ r)
  = got c r.
Proof.
  intros Hc. apply parse_quad_value.
  set (P := fun n => let d s := hex_digit (N.land (N.shiftr (N.of_nat n) s) 0xF) in
    bool_decide (quad_value (d 12%N) (d 8%N) (d 4%N) (d 0%N) = Some (N.of_nat n))).
  assert (H : forallb P (seq 0 160) = true) by (vm_compute; reflexivity).
  rewrite forallb_forall in H. specialize (H (N.to_nat c)). unfold P in H.
  rewrite N2Nat.id in H. rewrite bool_decide_eq_true in H. apply H, in_seq. lia.
Qed.

(** One iteration of the loop reads what one char was rendered as. *)
Lemma string_loop_char fuel v c r :
  is_scalar c = true ->
  string_loop (S fuel) v (render_char c ++ r) = string_loop fuel (v ++ [c]) r.
Proof.
  intros Sc. unfold render_char.
  destruct (N.eqb_spec c quote) as [->|Hq]; [done|].
  destruct (N.eqb_spec c backslash) as [->|Hb]; [done|].
  destruct (N.eqb_spec c 10) as [->|_]; [done|].
  destruct (N.eqb_spec c 13) as [->|_]; [done|].
  destruct (N.eqb_spec c 9) as [->|_]; [done|].
  destruct (N.eqb_spec c 8) as [->|_]; [done|].
  destruct (N.eqb_spec c 12) as [->|_]; [done|].
  destruct (is_control c) eqn:Ctl.
  - assert (Hc : (c < 160)%N) by
      (apply orb_true_iff in Ctl as [?%N.ltb_lt|[_ ?%N.leb_le]%andb_true_iff]; lia).
    unfold push_unicode_escape. cbn [string_loop]. rewrite <- app_assoc.
    change (txt "\u" ++ ?x) with (backslash :: ch "u" :: x).
    change (backslash =? quote)%N with false. change (backslash =? backslash)%N with true. cbn match.
    change (parse_escape (ch "u" :: ?x)) with (parse_unicode_escape x).
    unfold parse_unicode_escape. rewrite hex_quad by done. cbn [got try_].
    assert (R : char_in c 0xD800 0xDBFF = false) by (apply andb_false_iff; left; apply N.leb_gt; lia).
    rewrite R. unfold from_u32. by rewrite Sc.
  - cbn [string_loop app]. apply N.eqb_neq in Hq as ->. by apply N.eqb_neq in Hb as ->.
Qed.

Lemma string_loop_render fuel v s r :
  scalars s -> length s < fuel ->
  string_loop fuel v (concat (map render_char s) ++ quote :: r) = got (v ++ s) r.
Proof.
  intros Hs. revert fuel v. induction Hs as [|c s Hc Hs IH]; intros fuel v Hf.
  - destruct fuel; [lia|]. cbn. by rewrite app_nil_r.
  - destruct fuel as [|fuel]; [lia|]. cbn [map concat]. rewrite <- app_assoc, string_loop_char by done.
    rewrite IH by (cbn in Hf; lia). by rewrite <- app_assoc.
Qed.

Lemma render_char_nonempty c : 1 <= length (render_char c).
Proof. unfold render_char. repeat case_match; cbn; lia. Qed.

Lemma render_chars_length s : length s <= length (concat (map render_char s)).
Proof.
  induction s as [|c s IH]; cbn; [lia|]. rewrite length_app. pose proof (render_char_nonempty c). lia.
Qed.

Lemma parse_string_render s r :
  scalars s -> parse_string (render_string s ++ r) = got s r.
Proof.
  intros Hs. unfold parse_string, render_string. cbn [app expect]. change (quote =? quote)%N with true.
  cbn [got try_]. rewrite <- app_assoc. cbn [app]. apply (string_loop_render _ [] s r Hs).
  rewrite length_app. pose proof (render_chars_length s). cbn. unfold char in *. lia.
Qed.

(** ** Numbers are read back *)

(** What may follow a value in a rendered text. *)
Definition stops (r : text) : Prop :=
  match r with [] => True | c :: _ => c = ch "," \/ c = ch "]" \/ c = ch "}" end.

Lemma stops_digit r : stops r -> match r with [] => True | c :: _ => is_digit c = false end.
Proof. destruct r; cbn; [done|]. by intros [->|[->| ->]]. Qed.

Lemma take_digits_app t r : stops r ->
  take_digits (t ++ r) = ((take_digits t).1, (take_digits t).2 ++ r).
Proof.
  intros Hr%stops_digit. induction t as [|c t IH]; cbn.
  - destruct r as [|c r]; [done|]. cbn. by rewrite Hr.
  - destruct (is_digit c); [|done]. rewrite IH. by destruct (take_digits t).
Qed.

Lemma try_consume_app c t r :
  (match r with [] => True | d :: _ => d <> c end) ->
  try_consume c (t ++ r) = (fun x => x ++ r) <$> try_consume c t.
Proof.
  destruct t as [|d t]; cbn; [|by destruct (d =? c)%N].
  destruct r as [|d r]; [done|]. cbn. intros H%N.eqb_neq. by rewrite H.
Qed.

Lemma skip_fraction_app t r : stops r ->
  skip_fraction (t ++ r) = ((skip_fraction t).1, (skip_fraction t).2 ++ r).
Proof.
  intros Hr. unfold skip_fraction.
  rewrite try_consume_app by (destruct r; [done|]; by destruct Hr as [->|[->| ->]]).
  destruct (try_consume (ch ".") t) as [t'|]; cbn [fmap option_fmap option_map]; [|done].
  rewrite take_digits_app by done. by destruct (take_digits t').
Qed.

Lemma skip_sign_app t r : stops r -> skip_sign (t ++ r) = ((skip_sign t).1, (skip_sign t).2 ++ r).
Proof.
  intros Hr. destruct t as [|s t]; cbn; [|by destruct (_ || _)].
  destruct r as [|c r]; [done|]. by destruct Hr as [->|[->| ->]].
Qed.

Lemma skip_exponent_app t r : stops r ->
  skip_exponent (t ++ r) = ((skip_exponent t).1, (skip_exponent t).2 ++ r).
Proof.
  intros Hr. destruct t as [|e t]; cbn.
  - destruct r as [|c r]; [done|]. by destruct Hr as [->|[->| ->]].
  - destruct (_ || _); [|done]. rewrite skip_sign_app by done. destruct (skip_sign t) as [sg t1].
    cbn [fst snd]. rewrite take_digits_app by done. by destruct (take_digits t1).
Qed.

Lemma skip_number_tail_app t r : stops r ->
  skip_number_tail (t ++ r) = ((skip_number_tail t).1, (skip_number_tail t).2 ++ r).
Proof.
  intros Hr. unfold skip_number_tail. rewrite skip_fraction_app by done.
  destruct (skip_fraction t) as [f t1]. cbn [fst snd]. rewrite skip_exponent_app by done.
  by destruct (skip_exponent t1).
Qed.

Lemma skip_minus_app t r : stops r -> skip_minus (t ++ r) = ((skip_minus t).1, (skip_minus t).2 ++ r).
Proof.
  intros Hr. unfold skip_minus.
  rewrite try_consume_app by (destruct r; [done|]; by destruct Hr as [->|[->| ->]]).
  by destruct (try_consume (ch "-") t).
Qed.

(** A number that is all of a text is the number in front of what follows it. *)
Lemma parse_number_app t r v : stops r -> parse_number t = got v [] -> parse_number (t ++ r) = got v r.
Proof.
  intros Hr. unfold parse_number. rewrite skip_minus_app by done.
  destruct (skip_minus t) as [minus t1]. cbn [fst snd]. rewrite take_digits_app by done.
  destruct (take_digits t1) as [ds t2]. cbn [fst snd]. destruct ds as [|d ds]; [done|].
  rewrite skip_number_tail_app by done. destruct (skip_number_tail t2) as [tl t3]. cbn [fst snd].
  destruct (number_parse _); [|done]. unfold got. by intros [= -> ->].
Qed.

Lemma show_digits_spec fuel n acc :
  0 < fuel -> exists d ds, show_digits fuel n acc = d :: ds ++ acc /\ is_digit d = true /\
    Forall (fun c => is_digit c = true) ds.
Proof.
  revert n acc. induction fuel as [|fuel IH]; intros n acc Hf; [lia|]. cbn [show_digits].
  assert (D : is_digit (48 + n mod 10)%N = true).
  { pose proof (N.mod_lt n 10 ltac:(lia)) as Hm. revert Hm. generalize (n mod 10)%N. intros m Hm.
    apply andb_true_iff. split; apply N.leb_le; lia. }
  destruct (n / 10 =? 0)%N; [by exists (48 + n mod 10)%N, []|].
  destruct fuel as [|fuel]; [by exists (48 + n mod 10)%N, []|].
  destruct (IH (n / 10)%N ((48 + n mod 10)%N :: acc) ltac:(lia)) as (d & ds & E & Hd & Hds).
  exists d, (ds ++ [(48 + n mod 10)%N]). rewrite E, <- app_assoc. split_and!; [done|done|].
  apply Forall_app. by split; [|repeat constructor].
Qed.

Lemma take_all_digits ds : Forall (fun c => is_digit c = true) ds -> take_digits ds = (ds, []).
Proof. induction 1 as [|c ds Hc _ IH]; cbn; [done|]. by rewrite Hc, IH. Qed.

(** A digit starts a number and no other token. *)
Lemma digit_other d c : is_digit d = true -> is_digit c = false -> (d =? c)%N = false.
Proof. intros Hd Hc. apply N.eqb_neq. intros ->. congruence. Qed.

Lemma parse_show_i64 `{SL : !SerdeNumberLaws} z : i64_range z -> parse_number (show_i64 z) = got (JNumber z) [].
Proof.
  intros Hz. destruct (number_parse_i64 z Hz) as (n & Hn & Hi).
  unfold parse_number. set (t := show_i64 z) in *.
  assert (H : exists minus d ds, skip_minus t = (minus, d :: ds) /\ t = minus ++ d :: ds /\
                Forall (fun c => is_digit c = true) (d :: ds)).
  { unfold t, show_i64. destruct (z <? 0)%Z.
    - destruct (show_digits_spec 20 (Z.to_N (- z)) [] ltac:(lia)) as (d & ds & -> & Hd & Hds).
      rewrite app_nil_r. exists [ch "-"], d, ds. split_and!; [done|done|by constructor].
    - destruct (show_digits_spec 20 (Z.to_N z) [] ltac:(lia)) as (d & ds & -> & Hd & Hds).
      rewrite app_nil_r. exists [], d, ds. split_and!; [|done|by constructor].
      unfold skip_minus. cbn [try_consume]. by rewrite (digit_other d (ch "-")). }
  destruct H as (minus & d & ds & -> & Et & Hds). rewrite (take_all_digits _ Hds).
  cbn [skip_number_tail skip_fraction try_consume skip_exponent app]. rewrite app_nil_r, <- Et, Hn.
  by rewrite Hi.
Qed.

(** The literal grammar the parser hands to the number library. *)
Definition number_literal (t : text) : Prop :=
  let '(_, cs) := skip_minus t in
  let '(digits, cs) := take_digits cs in
  digits <> [] /\ (skip_number_tail cs).2 = [].

Lemma skip_minus_split t : (skip_minus t).1 ++ (skip_minus t).2 = t.
Proof.
  unfold skip_minus. destruct (try_consume _ t) as [r|] eqn:E; [|done].
  destruct t as [|c t]; [done|]. cbn [try_consume] in E. destruct (N.eqb_spec c (ch "-")) as [->|]; [|done].
  by injection E as ->.
Qed.

Lemma take_digits_split t : (take_digits t).1 ++ (take_digits t).2 = t.
Proof.
  induction t as [|c t IH]; cbn; [done|]. destruct (is_digit c); [|done].
  destruct (take_digits t); cbn in *. by rewrite IH.
Qed.

Lemma skip_number_tail_split t : (skip_number_tail t).1 ++ (skip_number_tail t).2 = t.
Proof.
  unfold skip_number_tail.
  assert (F : (skip_fraction t).1 ++ (skip_fraction t).2 = t).
  { unfold skip_fraction. destruct (try_consume _ t) as [r|] eqn:E; [|done].
    destruct t as [|c t]; [done|]. cbn [try_consume] in E. destruct (N.eqb_spec c (ch ".")) as [->|]; [|done].
    injection E as ->. pose proof (take_digits_split r). destruct (take_digits r); cbn in *. congruence. }
  destruct (skip_fraction t) as [f t1]. cbn in F.
  assert (E : (skip_exponent t1).1 ++ (skip_exponent t1).2 = t1).
  { destruct t1 as [|e r]; cbn; [done|]. destruct (_ || _); [|done].
    assert (S : (skip_sign r).1 ++ (skip_sign r).2 = r).
    { destruct r as [|c r]; cbn; [done|]. by destruct (_ || _). }
    destruct (skip_sign r) as [sg r1]. cbn in S. pose proof (take_digits_split r1).
    destruct (take_digits r1); cbn in *. rewrite <- app_assoc. congruence. }
  destruct (skip_exponent t1) as [x t2]. cbn in *. rewrite <- app_assoc. congruence.
Qed.

Lemma parse_number_value n :
  number_literal (number_show n) -> number_parse (number_show n) = Some n ->
  number_as_i64 n = None -> parse_number (number_show n) = got (JNumberValue n) [].
Proof.
  unfold number_literal, parse_number. intros L P I. set (t := number_show n) in *.
  pose proof (skip_minus_split t) as E1. destruct (skip_minus t) as [minus t1]. cbn in E1.
  pose proof (take_digits_split t1) as E2. destruct (take_digits t1) as [ds t2]. cbn in E2.
  destruct L as [Hd Ht]. destruct ds as [|d ds]; [done|].
  pose proof (skip_number_tail_split t2) as E3. destruct (skip_number_tail t2) as [tl t3]. cbn in *.
  subst t3. rewrite app_nil_r in E3. subst tl. rewrite E2, E1, P. by rewrite I.
Qed.

(** ** Values are read back *)

(** The values a session file holds: text of scalar values, integers of [i64],
    numbers the library reads back from what it displays, and objects as
    [BTreeMap]s, sorted by key. *)
Inductive well_formed : JsonValue -> Prop :=
| wf_null : well_formed JNull
| wf_bool b : well_formed (JBool b)
| wf_number z : i64_range z -> well_formed (JNumber z)
| wf_number_value n :
    number_literal (number_show n) -> number_parse (number_show n) = Some n ->
    number_as_i64 n = None -> well_formed (JNumberValue n)
| wf_string s : scalars s -> well_formed (JString s)
| wf_array vs : Forall well_formed vs -> well_formed (JArray vs)
| wf_object es :
    Forall (fun e => scalars e.1 /\ well_formed e.2) es ->
    StronglySorted (fun a b => text_lt a b = true) (map fst es) -> well_formed (JObject es).

(** Induction over values with the elements of arrays and objects. *)
Lemma JsonValue_nested_ind (P : JsonValue -> Prop) :
  P JNull -> (forall b, P (JBool b)) -> (forall z, P (JNumber z)) -> (forall n, P (JNumberValue n)) ->
  (forall s, P (JString s)) -> (forall vs, Forall P vs -> P (JArray vs)) ->
  (forall es, Forall (fun e => P e.2) es -> P (JObject es)) -> forall v, P v.
Proof.
  intros Hn Hb Hz Hv Hs Ha Ho. fix IH 1. intros [|b|z|n|s|vs|es];
    [apply Hn|apply Hb|apply Hz|apply Hv|apply Hs| |].
  - apply Ha. induction vs as [|v vs IHvs]; constructor; [apply IH|exact IHvs].
  - apply Ho. induction es as [|e es IHes]; constructor; [apply IH|exact IHes].
Qed.

(** What a rendered value starts with. *)
Definition value_start (t : text) : Prop :=
  match t with
  | c :: _ => is_space c = false /\ (c =? ch "]")%N = false
  | [] => False
  end.

Lemma digit_start c t : is_digit c = true -> value_start (c :: t).
Proof.
  intros Hc. split; [|by apply digit_other]. unfold is_space.
  by rewrite !(digit_other c) by done.
Qed.

Lemma number_start t v : parse_number t = got v [] -> value_start t.
Proof.
  unfold parse_number. destruct t as [|c t]; [done|]. unfold skip_minus. cbn [try_consume].
  destruct (N.eqb_spec c (ch "-")) as [->|_]; [done|]. cbn [take_digits].
  destruct (is_digit c) eqn:D; [by intros; apply digit_start|done].
Qed.

Context `{SL : !SerdeNumberLaws}.

(** A number is reached from [parse_value] by its first char. *)
Lemma parse_value_number fuel t v r :
  stops r -> parse_number t = got v [] -> parse_value (S fuel) (t ++ r) = got v r.
Proof.
  intros Hr Hn. pose proof (parse_number_app _ _ _ Hr Hn) as E.
  unfold parse_number in Hn. destruct t as [|c t]; [done|]. unfold skip_minus in Hn. cbn [try_consume] in Hn.
  assert (Hc : c = ch "-" \/ is_digit c = true).
  { destruct (N.eqb_spec c (ch "-")) as [->|_]; [by left|]. right. cbn [take_digits] in Hn.
    by destruct (is_digit c). }
  cbn [parse_value app skip_whitespace].
  destruct Hc as [->|Hc]; [exact E|]. destruct (digit_start c t Hc) as [-> _].
  rewrite !(digit_other c) by done. rewrite Hc. exact E.
Qed.

Lemma render_start v t : well_formed v -> value_start (render v ++ t).
Proof.
  assert (A : forall t' : text, value_start t' -> value_start (t' ++ t)) by by intros [|c t'].
  destruct 1 as [|[]|z Hz|n L P I|s Hs|vs _|es _ _]; try done; apply A.
  - by eapply number_start, parse_show_i64.
  - by eapply number_start, parse_number_value.
Qed.

Lemma text_lt_irrefl a : text_lt a a = false.
Proof. induction a as [|x a IH]; cbn; [done|]. by rewrite N.ltb_irrefl, N.eqb_refl, IH. Qed.

Lemma text_lt_asym a b : text_lt a b = true -> text_lt b a = false.
Proof.
  revert b. induction a as [|x a IH]; intros [|y b]; cbn; try done.
  destruct (N.ltb_spec x y), (N.ltb_spec y x), (N.eqb_spec x y), (N.eqb_spec y x); cbn; try lia; auto.
Qed.

(** Inserting a key above all others appends it. *)
Lemma entries_insert_last k v es :
  Forall (fun e : text * JsonValue => text_lt e.1 k = true) es -> entries_insert k v es = es ++ [(k, v)].
Proof.
  induction 1 as [|[k' v'] es Hk _ IH]; cbn; [done|]. cbn in Hk. rewrite (text_lt_asym _ _ Hk).
  case_bool_decide as E; [subst; by rewrite text_lt_irrefl in Hk|]. by rewrite IH.
Qed.

(** The statement proved by induction on the value. *)
Definition reads_back (v : JsonValue) : Prop := forall fuel r,
  well_formed v -> stops r -> 2 * length (render v ++ r) + 1 <= fuel ->
  parse_value fuel (render v ++ r) = got v r.

Lemma skip_value_start t : value_start t -> skip_whitespace t = t.
Proof. destruct t as [|c t]; [done|]. intros [H _]. cbn. by rewrite H. Qed.

Lemma consume_value_start t : value_start t -> try_consume (ch "]") t = None.
Proof. destruct t as [|c t]; [done|]. intros [_ H]. cbn [try_consume]. by rewrite H. Qed.

Lemma array_loop_render vs fuel acc r :
  Forall reads_back vs -> Forall well_formed vs ->
  2 * length (join_comma (map render vs) ++ ch "]" :: r) + 2 <= fuel ->
  array_loop fuel acc (join_comma (map render vs) ++ ch "]" :: r) = got (JArray (acc ++ vs)) r.
Proof.
  intros RB. revert fuel acc. induction RB as [|v vs Rv RB IH]; intros fuel acc WF Hf.
  - destruct fuel; [lia|]. cbn. by rewrite app_nil_r.
  - apply Forall_cons in WF as [Wv WF]. destruct fuel as [|fuel]; [lia|]. cbn [array_loop].
    set (rest := match vs with [] => ch "]" :: r
                 | _ => ch "," :: join_comma (map render vs) ++ ch "]" :: r end).
    assert (E : join_comma (map render (v :: vs)) ++ ch "]" :: r = render v ++ rest).
    { unfold rest. destruct vs as [|v' vs]; [done|]. cbn [map join_comma]. by rewrite <- app_assoc. }
    rewrite E in *. pose proof (render_start v rest Wv) as St.
    rewrite (skip_value_start _ St), (consume_value_start _ St).
    rewrite (Rv fuel rest Wv); [|unfold rest; destruct vs; cbn; auto|lia].
    cbn [got try_]. cbn zeta. unfold rest in *. destruct vs as [|v' vs]; [done|].
    change (skip_whitespace (ch "," :: ?x)) with (ch "," :: x).
    change (try_consume (ch "]") (ch "," :: ?x)) with (@None text). cbn match.
    change (expect (ch ",") (ch "," :: ?x)) with (got tt x). cbn [got try_].
    rewrite IH; [by rewrite <- app_assoc|done|]. rewrite length_app in Hf. cbn [length] in Hf.
    unfold char in *. lia.
Qed.

Definition render_entry (e : text * JsonValue) : text := render_string e.1 ++ ch ":" :: render e.2.

Lemma sorted_last (acc es : list (text * JsonValue)) k v :
  StronglySorted (fun a b => text_lt a b = true) (map fst (acc ++ (k, v) :: es)) ->
  Forall (fun e => text_lt e.1 k = true) acc.
Proof.
  induction acc as [|e acc IH]; cbn; intros S; [constructor|].
  apply StronglySorted_inv in S as [S F]. constructor; [|by apply IH].
  rewrite Forall_forall in F. apply F. rewrite map_app. apply elem_of_app. right. left.
Qed.

Lemma object_loop_render es fuel acc r :
  Forall (fun e => reads_back e.2) es -> Forall (fun e => scalars e.1 /\ well_formed e.2) es ->
  StronglySorted (fun a b => text_lt a b = true) (map fst (acc ++ es)) ->
  2 * length (join_comma (map render_entry es) ++ ch "}" :: r) + 2 <= fuel ->
  object_loop fuel acc (join_comma (map render_entry es) ++ ch "}" :: r) = got (JObject (acc ++ es)) r.
Proof.
  intros RB. revert fuel acc. induction RB as [|[k v] es Rv RB IH]; intros fuel acc WF Sd Hf.
  - destruct fuel; [lia|]. cbn. by rewrite app_nil_r.
  - apply Forall_cons in WF as [[Wk Wv] WF]. cbn [fst snd] in *. destruct fuel as [|fuel]; [lia|].
    cbn [object_loop].
    set (rest := match es with [] => ch "}" :: r
                 | _ => ch "," :: join_comma (map render_entry es) ++ ch "}" :: r end).
    assert (E : join_comma (map render_entry ((k, v) :: es)) ++ ch "}" :: r =
                render_string k ++ ch ":" :: render v ++ rest).
    { unfold rest. destruct es as [|e' es]; cbn [map join_comma];
        change (render_entry (k, v)) with (render_string k ++ ch ":" :: render v);
        (rewrite <- ?app_assoc; cbn [app]; by rewrite <- ?app_assoc). }
    rewrite E in *.
    change (skip_whitespace (render_string k ++ ?x)) with (render_string k ++ x).
    change (try_consume (ch "}") (render_string k ++ ?x)) with (@None text). cbn match.
    rewrite parse_string_render by done. cbn [got try_].
    change (skip_whitespace (ch ":" :: ?x)) with (ch ":" :: x).
    change (expect (ch ":") (ch ":" :: ?x)) with (got tt x). cbn [got try_].
    rewrite length_app in Hf. cbn [length] in Hf.
    rewrite (Rv fuel rest Wv); [|unfold rest; destruct es; cbn; auto|unfold char in *; lia].
    cbn [got try_]. cbn zeta. rewrite entries_insert_last by (by eapply sorted_last).
    unfold rest in *. destruct es as [|e' es]; [done|].
    change (skip_whitespace (ch "," :: ?x)) with (ch "," :: x).
    change (try_consume (ch "}") (ch "," :: ?x)) with (@None text). cbn match.
    change (expect (ch ",") (ch "," :: ?x)) with (got tt x). cbn [got try_].
    rewrite IH; [by rewrite <- app_assoc|done|by rewrite <- app_assoc|].
    rewrite length_app in Hf. cbn [length] in Hf. unfold char in *. lia.
Qed.

Lemma value_reads_back v : reads_back v.
Proof.
  induction v as [|b|z|n|s|vs IH|es IH] using JsonValue_nested_ind; intros fuel r W Hr Hf;
    inversion W as [| |? Hz|? L P I|? Hs|? Ha|? Ho Sd]; subst; (destruct fuel as [|fuel]; [lia|]).
  - done.
  - by destruct b.
  - by apply parse_value_number, parse_show_i64.
  - by apply parse_value_number, parse_number_value.
  - cbn [render parse_value].
    change (skip_whitespace (render_string s ++ r)) with (render_string s ++ r).
    change (render_string s ++ r) with (quote :: (concat (map render_char s) ++ [quote]) ++ r) at 1.
    cbn match. change (quote =? ch "n")%N with false. change (quote =? ch "t")%N with false.
    change (quote =? ch "f")%N with false. change (quote =? quote)%N with true. cbn match.
    by rewrite parse_string_render.
  - cbn [render] in *. rewrite <- app_comm_cons, <- app_assoc in *. cbn [app] in *.
    change (array_loop fuel [] (join_comma (map render vs) ++ ch "]" :: r) = got (JArray vs) r).
    apply (array_loop_render vs fuel []); [done|done|]. cbn [length] in Hf. unfold char in *. lia.
  - cbn [render] in *. rewrite <- app_comm_cons, <- app_assoc in *. cbn [app] in *.
    change (object_loop fuel [] (join_comma (map render_entry es) ++ ch "}" :: r) = got (JObject es) r).
    apply (object_loop_render es fuel []); [done|done|done|].
    change (map _ es) with (map render_entry es) in Hf. cbn [length] in Hf. unfold char in *. lia.
Qed.

Lemma parse_of_render v : well_formed v -> parse (render v) = Ret (Ok v).
Proof.
  intros W. unfold parse. pose proof (value_reads_back v (2 * length (render v) + 2) [] W I) as E.
  rewrite app_nil_r in E. rewrite E by lia. done.
Qed.
(** What the session store writes it reads back: the parser returns every
    well-formed value from its rendering, control characters, quotes, non-ASCII
    text and nested arrays and objects included. *)
Theorem json_roundtrip v : well_formed v -> parse (render v) = Ret (Ok v).
Proof. apply parse_of_render. Qed.
End Values.

(** ** A concrete number library: integers of any size *)

Definition decimal (acc : N) (c : char) : N := (acc * 10 + (c - 48))%N.

Definition int_parse (t : text) : option Z :=
  let digits := match try_consume (ch "-") t with Some r => r | None => t end in
  if forallb is_digit digits && negb (bool_decide (digits = [])) then
    let n := Z.of_N (fold_left decimal digits 0%N) in
    Some (match try_consume (ch "-") t with Some _ => (- n)%Z | None => n end)
  else None.

#[export] Instance IntNumber : SerdeNumber := {
  Number := Z;
  number_parse := int_parse;
  number_as_i64 z := if bool_decide (i64_range z) then Some z else None;
  number_show := show_i64
}.

Lemma decimal_digits fuel n acc :
  (n < 10 ^ N.of_nat fuel)%N -> 0 < fuel ->
  fold_left decimal (show_digits fuel n acc) 0%N = fold_left decimal acc n.
Proof.
  revert n acc. induction fuel as [|fuel IH]; intros n acc Hn Hf; [lia|]. cbn [show_digits].
  pose proof (N.div_mod n 10 ltac:(done)) as E.
  destruct (N.eqb_spec (n / 10) 0) as [Z|Z].
  - cbn [fold_left]. f_equal. unfold decimal. rewrite Z in E. revert E. generalize (n mod 10)%N. lia.
  - rewrite Nat2N.inj_succ, N.pow_succ_r' in Hn.
    assert (Hd : (n / 10 < 10 ^ N.of_nat fuel)%N) by (apply N.Div0.div_lt_upper_bound; exact Hn).
    destruct fuel as [|fuel]; [by apply N.lt_1_r in Hd|]. rewrite IH by (done || lia). cbn [fold_left]. f_equal.
    unfold decimal. revert E. generalize (n mod 10)%N. intros m E. rewrite E at 2. lia.
Qed.

#[export] Instance IntNumberLaws : SerdeNumberLaws.
Proof.
  split. intros z Hz. exists z. split; [|by cbn; rewrite bool_decide_eq_true_2].
  cbn. unfold int_parse, show_i64.
  assert (D : forall n, (n < 10 ^ 20)%N ->
    let t := show_digits 20 n [] in t <> [] /\ forallb is_digit t = true /\
    try_consume (ch "-") t = None /\ fold_left decimal t 0%N = n).
  { intros n Hn. cbn zeta. rewrite decimal_digits by (done || lia).
    destruct (show_digits_spec 20 n [] ltac:(lia)) as (d & ds & -> & Hd & Hds).
    rewrite app_nil_r. split_and!; [done| | |done].
    - cbn. rewrite Hd. cbn. clear -Hds. induction Hds as [|c ds Hc _ IH]; cbn; [done|]. by rewrite Hc.
    - cbn [try_consume]. by rewrite (digit_other d (ch "-")). }
  unfold i64_range in Hz. destruct (Z.ltb_spec z 0) as [Hs|Hs].
  - destruct (D (Z.to_N (- z)) ltac:(lia)) as (Hne & Hall & _ & Hv).
    cbn [try_consume]. change (ch "-" =? ch "-")%N with true. cbn match.
    rewrite Hall, bool_decide_eq_false_2, Hv by done. cbn. f_equal. lia.
  - destruct (D (Z.to_N z) ltac:(lia)) as (Hne & Hall & -> & Hv).
    rewrite Hall, bool_decide_eq_false_2, Hv by done. cbn. f_equal. lia.
Qed.

(** An object of an array of numbers and an object, with a control character and
    a non-ASCII character in its keys and a quote and a line end in its text. *)
Definition demo_value : JsonValue :=
  JObject [(txt "a", JArray [JNumber (-42); JNumberValue 18446744073709551615%Z; JNull]);
           (txt "b" ++ [1%N], JObject [([233%N], JString [quote; 10%N])])].

Lemma demo_well_formed : well_formed demo_value.
Proof.
  apply wf_object; [|repeat (constructor || reflexivity)].
  apply Forall_cons; split; [split; [repeat constructor|]|apply Forall_singleton; split; [repeat constructor|]].
  - apply wf_array. apply Forall_cons; split; [|apply Forall_cons; split; [|apply Forall_singleton]].
    + apply wf_number. by split.
    + apply wf_number_value; vm_compute; [split; [discriminate|reflexivity]|reflexivity|reflexivity].
    + apply wf_null.
  - apply wf_object; [|repeat constructor]. apply Forall_singleton. split; [repeat constructor|].
    apply wf_string. repeat constructor.
Qed.

Lemma json_roundtrip_witness : parse (render demo_value) = Ret (Ok demo_value).
Proof. apply json_roundtrip. apply demo_well_formed. Defined.

(** ** Torn texts

    What is left of a record when its writer stopped in the middle of it: the parser's answers do
    not depend on what follows the chars it read, so no proper prefix of a rendered object parses. *)
Section Torn.
Context `{SN : SerdeNumber}.

Lemma try_inv {A B} (p : parsed A) (k : A -> text -> parsed B) b rest :
  try_ p k = got b rest -> exists a r, p = got a r /\ k a r = got b rest.
Proof. destruct p as [[[a r]|]| |]; cbn; try done. by exists a, r. Qed.

(** [q] answers as [p] does, with [r] still to be read after what [p] left. *)
Definition extends {A} (r : text) (p q : parsed A) : Prop := forall a rest, p = got a rest -> q = got a (rest ++ r).

Lemma extends_try {A B} r (p q : parsed A) (k l : A -> text -> parsed B) :
  extends r p q -> (forall a rest, p = got a rest -> extends r (k a rest) (l a (rest ++ r))) -> extends r (try_ p k) (try_ q l).
Proof.
  intros E K b rest H. apply try_inv in H as (a & r1 & Hp & Hk). rewrite (E _ _ Hp). cbn. by apply (K a r1).
Qed.

Lemma extends_got {A} r (a : A) rest : extends r (got a rest) (got a (rest ++ r)).
Proof. intros b rest' H. by injection H as -> ->. Qed.

Lemma extends_fail {A} r m (q : parsed A) : extends r (fail m) q.
Proof. intros b rest H. done. Qed.

Lemma expect_extends r c cs : extends r (expect c cs) (expect c (cs ++ r)).
Proof. destruct cs as [|d cs]; cbn; [apply extends_fail|]. destruct (d =? c)%N; [apply extends_got|apply extends_fail]. Qed.

Lemma literal_extends r e all v cs : extends r (parse_literal_chars e all v cs) (parse_literal_chars e all v (cs ++ r)).
Proof.
  revert cs. induction e as [|x e IH]; intros cs; cbn; [apply extends_got|].
  destruct cs as [|c cs]; cbn; [apply extends_fail|]. destruct (c =? x)%N; [apply IH|apply extends_fail].
Qed.

Lemma quad_extends r n v cs : extends r (parse_quad_chars n v cs) (parse_quad_chars n v (cs ++ r)).
Proof.
  revert v cs. induction n as [|n IH]; intros v cs; cbn; [apply extends_got|].
  destruct cs as [|c cs]; cbn; [apply extends_fail|]. destruct (to_digit16 c); [apply IH|apply extends_fail].
Qed.

Lemma from_u32_extends r v cs : extends r (from_u32 v cs) (from_u32 v (cs ++ r)).
Proof. unfold from_u32. destruct (is_scalar v); [apply extends_got|apply extends_fail]. Qed.

Lemma unicode_extends r cs : extends r (parse_unicode_escape cs) (parse_unicode_escape (cs ++ r)).
Proof.
  unfold parse_unicode_escape, parse_unicode_quad. apply extends_try; [apply quad_extends|]. intros v cs1 _.
  destruct (char_in v _ _); [|apply from_u32_extends].
  apply extends_try; [apply expect_extends|]. intros _ cs2 _. apply extends_try; [apply expect_extends|]. intros _ cs3 _.
  apply extends_try; [apply quad_extends|]. intros low cs4 _.
  destruct (negb _); [apply extends_fail|apply from_u32_extends].
Qed.

Lemma escape_extends r cs : extends r (parse_escape cs) (parse_escape (cs ++ r)).
Proof.
  destruct cs as [|c cs]; cbn [parse_escape app]; [apply extends_fail|].
  repeat (match goal with |- context [if ?b then _ else _] => destruct b end; [apply extends_got || apply unicode_extends|]).
  apply extends_fail.
Qed.

Lemma string_loop_extends r fuel fuel' v cs :
  fuel <= fuel' -> extends r (string_loop fuel v cs) (string_loop fuel' v (cs ++ r)).
Proof.
  revert fuel' v cs. induction fuel as [|fuel IH]; intros fuel' v cs Hf; [by intros ? ?|].
  destruct fuel' as [|fuel']; [lia|]. cbn [string_loop]. destruct cs as [|c cs]; cbn [app]; [apply extends_fail|].
  destruct (c =? quote)%N; [apply extends_got|]. destruct (c =? backslash)%N; [|apply IH; lia].
  apply extends_try; [apply escape_extends|]. intros x cs1 _. apply IH. lia.
Qed.

Lemma string_extends r cs : extends r (parse_string cs) (parse_string (cs ++ r)).
Proof.
  unfold parse_string. apply extends_try; [apply expect_extends|]. intros _ cs1 _.
  apply string_loop_extends. rewrite length_app. lia.
Qed.

(** ** Numbers, when something is left *)

Definition extends_split (f : text -> text * text) : Prop :=
  forall cs r, (f cs).2 <> [] -> f (cs ++ r) = ((f cs).1, (f cs).2 ++ r).

Lemma take_digits_extends : extends_split take_digits.
Proof.
  intros cs r. induction cs as [|c cs IH]; [done|]. cbn [take_digits app]. destruct (is_digit c); [|done].
  destruct (take_digits cs) as [ds rest]. cbn [fst snd] in *. intros H. by rewrite (IH H).
Qed.

Lemma skip_minus_extends : extends_split skip_minus.
Proof. intros [|c cs] r; [done|]. unfold skip_minus. cbn [app try_consume]. by destruct (c =? ch "-")%N. Qed.

Lemma skip_fraction_extends : extends_split skip_fraction.
Proof.
  intros [|c cs] r; [done|]. unfold skip_fraction. cbn [app try_consume]. destruct (c =? ch ".")%N; [|done].
  pose proof (take_digits_extends cs r) as K. destruct (take_digits cs) as [ds rest]. cbn [fst snd] in *.
  intros H. by rewrite (K H).
Qed.

Lemma skip_sign_extends : extends_split skip_sign.
Proof. intros [|c cs] r; [done|]. unfold skip_sign. cbn [app]. by destruct (_ || _). Qed.

Lemma take_digits_left cs : (take_digits cs).2 <> [] -> cs <> [].
Proof. by destruct cs. Qed.

Lemma skip_exponent_extends : extends_split skip_exponent.
Proof.
  intros [|c cs] r; [done|]. unfold skip_exponent. cbn [app]. destruct (_ || _); [|done].
  pose proof (skip_sign_extends cs r) as K. destruct (skip_sign cs) as [sign cs1]. cbn [fst snd] in K.
  pose proof (take_digits_extends cs1 r) as D. pose proof (take_digits_left cs1) as L.
  destruct (take_digits cs1) as [ds rest]. cbn [fst snd] in *. intros H. rewrite (K (L H)). by rewrite (D H).
Qed.

Lemma skip_exponent_left cs : (skip_exponent cs).2 <> [] -> cs <> [].
Proof. by destruct cs. Qed.

Lemma skip_tail_extends : extends_split skip_number_tail.
Proof.
  intros cs r. unfold skip_number_tail. pose proof (skip_fraction_extends cs r) as F.
  destruct (skip_fraction cs) as [f cs1]. cbn [fst snd] in F.
  pose proof (skip_exponent_extends cs1 r) as E. pose proof (skip_exponent_left cs1) as L.
  destruct (skip_exponent cs1) as [e rest]. cbn [fst snd] in *. intros H. rewrite (F (L H)). by rewrite (E H).
Qed.

Lemma skip_tail_left cs : (skip_number_tail cs).2 <> [] -> cs <> [].
Proof. by destruct cs. Qed.

Lemma number_extends cs r v rest :
  parse_number cs = got v rest -> rest <> [] -> parse_number (cs ++ r) = got v (rest ++ r).
Proof.
  unfold parse_number. intros H Hr. pose proof (skip_minus_extends cs r) as M.
  destruct (skip_minus cs) as [minus cs1]. cbn [fst snd] in M.
  pose proof (take_digits_extends cs1 r) as D. pose proof (take_digits_left cs1) as L.
  destruct (take_digits cs1) as [digits cs2]. cbn [fst snd] in *.
  destruct digits as [|d digits]; [done|]. pose proof (skip_tail_extends cs2 r) as T. pose proof (skip_tail_left cs2) as L2.
  destruct (skip_number_tail cs2) as [tail cs3]. cbn [fst snd] in *.
  destruct (number_parse _) as [n|] eqn:En; [|done]. injection H as <- <-.
  rewrite (M (L (L2 Hr))), (D (L2 Hr)), (T Hr), En. done.
Qed.

(** ** Values *)

Lemma skip_whitespace_extends cs r : skip_whitespace cs <> [] -> skip_whitespace (cs ++ r) = skip_whitespace cs ++ r.
Proof. induction cs as [|c cs IH]; cbn; [done|]. by destruct (is_space c). Qed.

Definition is_number (v : JsonValue) : bool := match v with JNumber _ | JNumberValue _ => true | _ => false end.

(** A value is closed when chars are left, or when it is no number. *)
Definition extends_value (r : text) (p q : parsed JsonValue) : Prop :=
  forall v rest, p = got v rest -> rest <> [] \/ is_number v = false -> q = got v (rest ++ r).

Lemma closed_value r p q : extends r p q -> extends_value r p q.
Proof. intros E v rest H _. by apply E. Qed.

(** After an element: the closing bracket, or a comma and more. *)
Lemma after_element {A} (close : char) (done_ : A) (k l : text -> parsed A) r cs :
  (forall cs, extends r (k cs) (l (cs ++ r))) ->
  extends r
    (match try_consume close (skip_whitespace cs) with
     | Some cs => got done_ cs
     | None => try_ (expect (ch ",") (skip_whitespace cs)) (fun _ cs => k cs)
     end)
    (match try_consume close (skip_whitespace (cs ++ r)) with
     | Some cs => got done_ cs
     | None => try_ (expect (ch ",") (skip_whitespace (cs ++ r))) (fun _ cs => l cs)
     end).
Proof.
  intros K. destruct (skip_whitespace cs) as [|c t] eqn:E; [by intros ? ?|].
  rewrite skip_whitespace_extends by (by rewrite E). rewrite E. cbn [app try_consume].
  destruct (c =? close)%N; [apply extends_got|]. apply extends_try; [apply (expect_extends r _ (c :: t))|].
  intros _ cs1 _. apply K.
Qed.

(** An element that is followed by something is read as it stands. *)
Lemma followed {A} r (p q : parsed JsonValue) (k l : JsonValue -> text -> parsed A) :
  extends_value r p q -> (forall v a rest, k v [] <> got a rest) ->
  (forall v rest, extends r (k v rest) (l v (rest ++ r))) -> extends r (try_ p k) (try_ q l).
Proof.
  intros E N K b rest H. apply try_inv in H as (v & r1 & Hp & Hk).
  assert (r1 <> []) by (intros ->; by apply N in Hk).
  rewrite (E _ _ Hp) by by left. cbn. by apply (K v r1).
Qed.

Lemma value_extends r fuel : forall fuel', fuel <= fuel' ->
  (forall cs, extends_value r (parse_value fuel cs) (parse_value fuel' (cs ++ r))) /\
  (forall vs cs, extends r (array_loop fuel vs cs) (array_loop fuel' vs (cs ++ r))) /\
  (forall es cs, extends r (object_loop fuel es cs) (object_loop fuel' es (cs ++ r))).
Proof.
  induction fuel as [|fuel IH]; intros fuel' Hf; [split_and!; intros; intros ? ?; done|].
  destruct fuel' as [|fuel']; [lia|]. destruct (IH fuel' ltac:(lia)) as (PV & AL & OL). split_and!.
  - intros cs. cbn [parse_value]. destruct (skip_whitespace cs) as [|c t] eqn:E; [by intros ? ?|].
    rewrite skip_whitespace_extends by (by rewrite E). rewrite E. cbn [app].
    destruct (c =? ch "n")%N; [apply closed_value, (literal_extends r _ _ _ (c :: t))|].
    destruct (c =? ch "t")%N; [apply closed_value, (literal_extends r _ _ _ (c :: t))|].
    destruct (c =? ch "f")%N; [apply closed_value, (literal_extends r _ _ _ (c :: t))|].
    destruct (c =? quote)%N.
    { apply closed_value, extends_try; [apply (string_extends r (c :: t))|]. intros s rest _. apply extends_got. }
    destruct (c =? ch "[")%N; [apply closed_value, AL|]. destruct (c =? ch "{")%N; [apply closed_value, OL|].
    destruct (_ || _); [|by intros ? ?]. intros v rest H [Hr|Hn]; [by apply (number_extends (c :: t))|].
    unfold parse_number in H. destruct (skip_minus _), (take_digits _), (skip_number_tail _).
    destruct (match _ with [] => true | _ => false end); [done|]. destruct (number_parse _) as [n|]; [|done].
    injection H as <- <-. by destruct (number_as_i64 n).
  - intros vs cs. cbn [array_loop]. destruct (skip_whitespace cs) as [|c t] eqn:E.
    { cbn [try_consume]. intros a rest H. apply try_inv in H as (v & r1 & Hp & _). by destruct fuel. }
    rewrite skip_whitespace_extends by (by rewrite E). rewrite E. cbn [app try_consume].
    destruct (c =? ch "]")%N; [apply extends_got|]. change (c :: t ++ r) with ((c :: t) ++ r).
    apply followed; [apply PV|by intros|]. intros v rest. cbv zeta. apply after_element. intros cs1. apply AL.
  - intros es cs. cbn [object_loop]. destruct (skip_whitespace cs) as [|c t] eqn:E; [by intros ? ?|].
    rewrite skip_whitespace_extends by (by rewrite E). rewrite E. cbn [app try_consume].
    destruct (c =? ch "}")%N; [apply extends_got|]. change (c :: t ++ r) with ((c :: t) ++ r).
    apply extends_try; [apply string_extends|]. intros key cs1 _.
    destruct (skip_whitespace cs1) as [|c2 t2] eqn:E2; [by intros ? ?|].
    rewrite skip_whitespace_extends by (by rewrite E2). rewrite E2.
    apply extends_try; [apply (expect_extends r _ (c2 :: t2))|]. intros _ cs3 _.
    apply followed; [apply PV|by intros|]. intros v rest. cbv zeta. apply after_element. intros cs4. apply OL.
Qed.

(** An object is closed. *)
Lemma object_loop_object fuel es cs v rest : object_loop fuel es cs = got v rest -> is_number v = false.
Proof.
  revert es cs. induction fuel as [|fuel IH]; intros es cs; cbn [object_loop]; [done|].
  destruct (try_consume _ _); [by intros [= <- <-]|]. intros (k & r1 & _ & H)%try_inv.
  apply try_inv in H as ([] & r2 & _ & H). apply try_inv in H as (w & r3 & _ & H).
  destruct (try_consume _ _); [by injection H as <- <-|]. apply try_inv in H as ([] & r4 & _ & H). by eapply IH.
Qed.

Context `{SL : !SerdeNumberLaws}.

(** No proper prefix of an object's text is a value. *)
Lemma torn_object m t r :
  well_formed (JObject m) -> t ++ r = render (JObject m) -> r <> [] -> forall v, parse t <> Ret (Ok v).
Proof.
  intros W E Hr v Hp. unfold parse in Hp.
  destruct (parse_value (2 * length t + 2) t) as [[[w rest]|]| |] eqn:P; try done.
  assert (Hn : is_number w = false).
  { destruct t as [|c t]; [done|]. cbn [render app] in E. assert (c = ch "{") as -> by congruence.
    rewrite Nat.add_comm in P. cbn [Nat.add parse_value] in P.
    change (skip_whitespace (ch "{" :: t)) with (ch "{" :: t) in P. cbn match in P.
    change (ch "{" =? ch "n")%N with false in P. change (ch "{" =? ch "t")%N with false in P.
    change (ch "{" =? ch "f")%N with false in P. change (ch "{" =? quote)%N with false in P.
    change (ch "{" =? ch "[")%N with false in P. change (ch "{" =? ch "{")%N with true in P. cbn match in P.
    by eapply object_loop_object. }
  pose proof (value_reads_back (JObject m) (2 * length (render (JObject m)) + 1) [] W I) as B.
  rewrite app_nil_r in B. specialize (B ltac:(lia)). rewrite <- E in B.
  destruct (value_extends r (2 * length t + 2) (2 * length (t ++ r) + 1)) as (PV & _).
  { rewrite length_app. destruct r; [done|]. cbn. lia. }
  assert (K : parse_value (2 * length (t ++ r) + 1) (t ++ r) = got w (rest ++ r)) by (by apply PV; [|right]).
  rewrite K in B. injection B as _ B. by apply app_eq_nil in B as [_ B].
Qed.

(** White space after an object is skipped. *)
Lemma parse_object_app m r :
  well_formed (JObject m) -> skip_whitespace r = [] -> parse (render (JObject m) ++ r) = Ret (Ok (JObject m)).
Proof.
  intros W Hr. unfold parse. set (t := render (JObject m)).
  pose proof (value_reads_back (JObject m) (2 * length t + 1) [] W I) as B. rewrite app_nil_r in B.
  specialize (B ltac:(unfold t; lia)).
  destruct (value_extends r (2 * length t + 1) (2 * length (t ++ r) + 2)) as (PV & _); [rewrite length_app; lia|].
  pose proof (PV t _ _ B (or_intror eq_refl)) as K. rewrite K. cbn. by rewrite Hr.
Qed.
End Torn.
