(* ===== verification/Utf8.v ===== *)
(** * Strings as chars

    A Rust [String] is the UTF-8 encoding of Unicode scalar values.  Strings are bytes here and
    the session store's JSON works on chars; [chars] decodes and [utf8] encodes, and they are
    inverse on strings and on scalar values. *)
From S2P Require Import Prelude.
From stdpp Require Import list.
From S2P Require Import JsonText.

Definition byte (n : N) : ascii := ascii_of_N n.

(** A continuation byte with six bits of [n]. *)
Definition cont (n : N) : ascii := byte (128 + n mod 64).

Definition encode_char (c : char) : list ascii :=
  if (c <? 0x80)%N then [byte c]
  else if (c <? 0x800)%N then [byte (0xC0 + c / 64); cont c]
  else if (c <? 0x10000)%N then [byte (0xE0 + c / 4096); cont (c / 64); cont c]
  else [byte (0xF0 + c / 262144); cont (c / 4096); cont (c / 64); cont c].

Fixpoint utf8_bytes (t : text) : list ascii :=
  match t with [] => [] | c :: t => encode_char c ++ utf8_bytes t end.

Definition utf8 (t : text) : string := string_of_list_ascii (utf8_bytes t).

Definition low (a : ascii) : N := (N_of_ascii a - 128)%N.

(** [str::chars], on the bytes of a valid string. *)
Fixpoint decode_chars (l : list ascii) : text :=
  match l with
  | [] => []
  | a :: r =>
      let n := N_of_ascii a in
      if (n <? 0x80)%N then n :: decode_chars r
      else match r with
           | [] => []
           | b :: r =>
               if (n <? 0xE0)%N then ((n - 0xC0) * 64 + low b)%N :: decode_chars r
               else match r with
                    | [] => []
                    | c :: r =>
                        if (n <? 0xF0)%N then ((n - 0xE0) * 4096 + low b * 64 + low c)%N :: decode_chars r
                        else match r with
                             | [] => []
                             | d :: r => ((n - 0xF0) * 262144 + low b * 4096 + low c * 64 + low d)%N :: decode_chars r
                             end
                    end
           end
  end.

Definition chars (s : string) : text := decode_chars (list_ascii_of_string s).

(** What a [String] is. *)
Definition rust_string (s : string) : Prop := utf8 (chars s) = s /\ scalars (chars s).

(** [std::str::from_utf8], as a test. *)
Definition is_utf8 (s : string) : bool := String.eqb (utf8 (chars s)) s && forallb is_scalar (chars s).

Lemma is_utf8_spec s : is_utf8 s = true <-> rust_string s.
Proof.
  unfold is_utf8, rust_string, scalars. rewrite andb_true_iff, String.eqb_eq, forallb_forall, Forall_forall.
  setoid_rewrite list_elem_of_In. done.
Qed.

(** ** Inverse *)

Lemma byte_value n : (n < 256)%N -> N_of_ascii (byte n) = n.
Proof. intros Hn. unfold byte. by apply N_ascii_embedding. Qed.

Lemma low_cont n : low (cont n) = (n mod 64)%N.
Proof.
  unfold low, cont. pose proof (N.mod_lt n 64 ltac:(done)) as K. revert K. generalize (n mod 64)%N. intros m K.
  rewrite byte_value; lia.
Qed.

Lemma scalar_bound c : is_scalar c = true -> (c < 0x110000)%N.
Proof.
  unfold is_scalar, char_in. rewrite orb_true_iff, andb_true_iff, N.ltb_lt, !N.leb_le. lia.
Qed.

(** A number in digits of base 64. *)
Lemma split64 c : c = (c / 64 * 64 + c mod 64)%N.
Proof. rewrite (N.mul_comm _ 64). by apply N.div_mod. Qed.

Lemma decode_encode c l : (c < 0x110000)%N -> decode_chars (encode_char c ++ l) = c :: decode_chars l.
Proof.
  intros Hc. unfold encode_char.
  destruct (N.ltb_spec c 0x80) as [H1|H1].
  { cbn [app decode_chars]. rewrite byte_value by lia. by rewrite (proj2 (N.ltb_lt c 0x80) H1). }
  pose proof (split64 c) as E1. pose proof (split64 (c / 64)) as E2. pose proof (split64 (c / 64 / 64)) as E3.
  rewrite !N.Div0.div_div in *. change (64 * 64)%N with 4096%N in *. change (64 * 4096)%N with 262144%N in *.
  change (4096 * 64)%N with 262144%N in *.
  pose proof (N.mod_lt c 64 ltac:(done)) as M1. pose proof (N.mod_lt (c / 64) 64 ltac:(done)) as M2.
  pose proof (N.mod_lt (c / 4096) 64 ltac:(done)) as M3.
  destruct (N.ltb_spec c 0x800) as [H2|H2].
  { assert (c / 64 < 32)%N by (apply N.Div0.div_lt_upper_bound; lia).
    cbn [app decode_chars]. rewrite byte_value, low_cont by lia.
    destruct (N.ltb_spec (0xC0 + c / 64) 0x80); [lia|]. destruct (N.ltb_spec (0xC0 + c / 64) 0xE0); [|lia].
    f_equal. lia. }
  destruct (N.ltb_spec c 0x10000) as [H3|H3].
  { assert (c / 4096 < 16)%N by (apply N.Div0.div_lt_upper_bound; lia).
    cbn [app decode_chars]. rewrite byte_value, !low_cont by lia.
    destruct (N.ltb_spec (0xE0 + c / 4096) 0x80); [lia|]. destruct (N.ltb_spec (0xE0 + c / 4096) 0xE0); [lia|].
    destruct (N.ltb_spec (0xE0 + c / 4096) 0xF0); [|lia]. f_equal. lia. }
  assert (c / 262144 < 5)%N by (apply N.Div0.div_lt_upper_bound; lia).
  cbn [app decode_chars]. rewrite byte_value, !low_cont by lia.
  destruct (N.ltb_spec (0xF0 + c / 262144) 0x80); [lia|]. destruct (N.ltb_spec (0xF0 + c / 262144) 0xE0); [lia|].
  destruct (N.ltb_spec (0xF0 + c / 262144) 0xF0); [lia|]. f_equal. lia.
Qed.

Lemma chars_utf8 t : scalars t -> chars (utf8 t) = t.
Proof.
  intros Ht. unfold chars, utf8. rewrite list_ascii_of_string_of_list_ascii.
  induction Ht as [|c t Hc _ IH]; [done|]. cbn [utf8_bytes]. rewrite decode_encode by (by apply scalar_bound). by rewrite IH.
Qed.

Lemma utf8_rust t : scalars t -> rust_string (utf8 t).
Proof. intros Ht. split; rewrite chars_utf8 by done; done. Qed.

Lemma utf8_chars s : rust_string s -> utf8 (chars s) = s.
Proof. by intros [K _]. Qed.

Lemma chars_scalars s : rust_string s -> scalars (chars s).
Proof. by intros [_ K]. Qed.

Lemma chars_inj s s' : rust_string s -> rust_string s' -> chars s = chars s' -> s = s'.
Proof. intros [E _] [E' _] K. by rewrite <- E, <- E', K. Qed.
