(* ===== verification/Compaction.v ===== *)
(** * Context compaction (runtime/src/compact.rs, runtime/src/usage.rs)

    What a compaction keeps: the token estimates, the budget arithmetic, the
    retained suffix, the boundary between what is summarised and what is kept, the
    plan of one compaction, and the usage carried over from the removed messages.
    The summary itself is a request to a model.

    Token counts of one session are far below [usize] and are natural numbers;
    [UsageAggregation] saturates at [u32] and [u64] as the code does. *)
From S2P Require Import Prelude.
From stdpp Require Import list gmap.
From S2P Require Import RustStr Conversation.

#[local] Notation nl := (String (ascii_of_nat 10) "").

(** ** Token estimates *)

Definition estimate_image_tokens (base64_len : nat) : nat :=
  let n := N.of_nat base64_len in
  if (n <? 50000)%N then 85
  else if (n <? 200000)%N then 256
  else if (n <? 500000)%N then 512
  else 1000.

Definition estimate_single_block_tokens (block : ContentBlock) : nat :=
  match block with
  | Text text => len text / 4 + 1
  | Image data _ => estimate_image_tokens (len data)
  | ToolUse _ name input _ => (len name + len input) / 4 + 1
  | ToolResult _ tool_name output _ => (len tool_name + len output) / 4 + 1
  | Thinking thinking signature => len thinking / 4 + map_or 0 (fun v => len v / 4 + 1) signature
  | RedactedThinking data => len data / 4 + 1
  end.

Definition estimate_message_tokens (message : ConversationMessage) : nat :=
  sum_list (map estimate_single_block_tokens (blocks message)).

Definition estimate_session_tokens (messages : list ConversationMessage) : nat :=
  sum_list (map estimate_message_tokens messages).

(** ** The context budget *)

Record ContextBudget := {
  context_limit : N;
  max_output_tokens : N;
  overhead_tokens : N;
  buffer_tokens : N
}.

Definition history_budget (b : ContextBudget) : N :=
  u64_saturating_sub (context_limit b)
    (u64_add (u64_add (max_output_tokens b) (overhead_tokens b)) (buffer_tokens b)).

Definition u64_checked_add (a b : N) : option N :=
  if (a + b <=? u64_max)%N then Some (a + b)%N else None.

Definition fits_buffered (b : ContextBudget) (history_tokens : N) : bool :=
  let tokens : option N :=
    t ← u64_checked_add history_tokens (max_output_tokens b);
    t ← u64_checked_add t (overhead_tokens b);
    u64_checked_add t (buffer_tokens b) in
  match tokens with
  | Some tokens => (tokens <=? context_limit b)%N
  | None => false
  end.

Definition reported_context_budget (b : ContextBudget) : N :=
  u64_saturating_sub (context_limit b) (u64_add (max_output_tokens b) (buffer_tokens b)).

Definition fits (b : ContextBudget) (estimated_tokens : N) : bool :=
  (u64_add (u64_add estimated_tokens (overhead_tokens b)) (max_output_tokens b) <=? context_limit b)%N.

(** ** The retained suffix *)

Record CompactionConfig := {
  preserve_recent_messages : nat;
  max_estimated_tokens : nat
}.

Definition config_default : CompactionConfig :=
  {| preserve_recent_messages := 4; max_estimated_tokens := N.to_nat 10000 |}.

(** [take_while(..).count()] over the messages from the last one. *)
Fixpoint retained_count (tokens accumulated : nat) (rev_messages : list ConversationMessage) : nat :=
  match rev_messages with
  | [] => 0
  | message :: rest =>
      if tokens <=? accumulated then 0
      else S (retained_count tokens (accumulated + estimate_message_tokens message) rest)
  end.

Definition with_token_retention (c : CompactionConfig) (messages : list ConversationMessage)
  (tokens : nat) : CompactionConfig :=
  {| preserve_recent_messages :=
       Nat.max (preserve_recent_messages c) (retained_count tokens 0 (rev messages));
     max_estimated_tokens := max_estimated_tokens c |}.

(** ** The boundary *)

(** [session_history::tool_origin]. *)
Definition tool_origin (message : ConversationMessage) (call_id : string) : option string :=
  identity ← history message;
  match role message with
  | RAssistant => Some (identity_id identity)
  | _ => identity_tool_origins identity !! call_id
  end.

Definition call_key : Type := option string * string.

(** The calls without a result, each with the index of its message. *)
Definition pending_block (index : nat) (message : ConversationMessage)
  (pending : gmap call_key nat) (block : ContentBlock) : gmap call_key nat :=
  match block with
  | ToolUse id _ _ _ => <[(tool_origin message id, id) := index]> pending
  | ToolResult tool_use_id _ _ _ => delete (tool_origin message tool_use_id, tool_use_id) pending
  | _ => pending
  end.

Definition pending_message (pending : gmap call_key nat) (entry : nat * ConversationMessage)
  : gmap call_key nat :=
  fold_left (pending_block entry.1 entry.2) (blocks entry.2) pending.

Definition pending_calls (messages : list ConversationMessage) : gmap call_key nat :=
  fold_left pending_message (imap pair messages) ∅.

(** [pending.values().min()]. *)
Definition min_value (pending : gmap call_key nat) : option nat :=
  match (map_to_list pending).*2 with
  | [] => None
  | v :: vs => Some (fold_left Nat.min vs v)
  end.

Fixpoint boundary_loop (fuel : nat) (messages : list ConversationMessage)
  (boundary compacted_prefix_len : nat) : run nat :=
  match fuel with
  | 0 => NoFuel
  | S fuel =>
      match min_value (pending_calls (take boundary messages)) with
      | None => Ret boundary
      | Some start =>
          if start <=? compacted_prefix_len then Ret compacted_prefix_len
          else boundary_loop fuel messages start compacted_prefix_len
      end
  end.

(** Every iteration lowers the boundary, so its start bounds the loop. *)
Definition find_safe_compaction_boundary (messages : list ConversationMessage)
  (raw_keep_from compacted_prefix_len : nat) : run nat :=
  let boundary := Nat.min raw_keep_from (length messages) in
  boundary_loop (S boundary) messages boundary compacted_prefix_len.

(** ** The text a compaction puts in front *)

Definition COMPACT_CONTINUATION_PREAMBLE : string :=
  ("This session is being continued from a previous conversation that ran out of context. The summary below covers the earlier portion of the conversation."
   ++ nl ++ nl)%string.
Definition COMPACT_RECENT_MESSAGES_NOTE : string := "Recent messages are preserved verbatim.".
Definition COMPACT_DIRECT_RESUME_INSTRUCTION : string :=
  "Continue the conversation from where it left off without asking the user any further questions. Resume directly — do not acknowledge the summary, do not recap what was happening, and do not preface with continuation text.".

(** [str::lines]: the pieces between line feeds, without a carriage return at the
    end and without an empty last piece. *)
Definition strip_cr (l : string) : string := default l (strip_suffix l (String (ascii_of_nat 13) "")).
Definition lines (s : string) : list string :=
  let pieces := split_byte s (ascii_of_nat 10) in
  let complete := removelast pieces in
  match List.last pieces "" with
  | EmptyString => map strip_cr complete
  | tail => map strip_cr complete ++ [tail]
  end.

Definition extract_tag_block (content tag : string) : option string :=
  let start := ("<" ++ tag ++ ">")%string in
  let stop := ("</" ++ tag ++ ">")%string in
  i ← find_str content start;
  let rest := str_skip (i + len start) content in
  j ← find_str rest stop;
  Some (str_take j rest).

Definition strip_tag_block (content tag : string) : string :=
  let start := ("<" ++ tag ++ ">")%string in
  let stop := ("</" ++ tag ++ ">")%string in
  match find_str content start, find_str content stop with
  | Some i, Some j => (str_take i content ++ str_skip (j + len stop) content)%string
  | _, _ => content
  end.

Fixpoint collapse_lines (last_blank : bool) (ls : list string) : string :=
  match ls with
  | [] => ""
  | line :: ls =>
      let is_blank := is_empty (trim line) in
      if is_blank && last_blank then collapse_lines last_blank ls
      else (line ++ nl ++ collapse_lines is_blank ls)%string
  end.

Definition collapse_blank_lines (content : string) : string := collapse_lines false (lines content).

Definition format_compact_summary (summary : string) : string :=
  let without_analysis := strip_tag_block summary "analysis" in
  let formatted :=
    match extract_tag_block without_analysis "summary" with
    | Some content =>
        replace without_analysis ("<summary>" ++ content ++ "</summary>")%string
          ("Summary:" ++ nl ++ trim content)%string
    | None => without_analysis
    end in
  trim (collapse_blank_lines formatted).

(** [todo] is the todo block read from the store, where the caller reads it. *)
Definition get_compact_continuation_message (summary : string)
  (suppress_follow_up_questions recent_messages_preserved : bool) (todo : option string) : string :=
  (COMPACT_CONTINUATION_PREAMBLE ++ format_compact_summary summary
   ++ match todo with Some block => nl ++ nl ++ block | None => "" end
   ++ (if recent_messages_preserved then nl ++ nl ++ COMPACT_RECENT_MESSAGES_NOTE else "")
   ++ (if suppress_follow_up_questions then nl ++ COMPACT_DIRECT_RESUME_INSTRUCTION else ""))%string.

Definition frozen_continuation (summary : string) (todo : option string) (recent : bool) : string :=
  (get_compact_continuation_message summary false false None
   ++ match todo with Some todo => nl ++ nl ++ todo | None => "" end
   ++ (if recent then nl ++ nl ++ COMPACT_RECENT_MESSAGES_NOTE else "")
   ++ nl ++ COMPACT_DIRECT_RESUME_INSTRUCTION)%string.

(** The summary an earlier compaction put in front of the session. *)
Definition first_text_block (message : ConversationMessage) : option string :=
  head (omap (fun block => match block with
                           | Text text => if is_empty (trim text) then None else Some text
                           | _ => None
                           end) (blocks message)).

Definition before (s pattern : string) : string :=
  match find_str s pattern with Some i => str_take i s | None => s end.

Definition extract_existing_compacted_summary (message : ConversationMessage) : option string :=
  match role message with
  | RSystem =>
      text ← first_text_block message;
      summary ← strip_prefix text COMPACT_CONTINUATION_PREAMBLE;
      let summary := before summary (nl ++ nl ++ COMPACT_RECENT_MESSAGES_NOTE)%string in
      let summary := before summary (nl ++ COMPACT_DIRECT_RESUME_INSTRUCTION)%string in
      Some (trim summary)
  | _ => None
  end.

Definition compacted_summary_prefix_len (messages : list ConversationMessage) : nat :=
  match head messages ≫= extract_existing_compacted_summary with Some _ => 1 | None => 0 end.

Definition should_compact (messages : list ConversationMessage) (config : CompactionConfig) : bool :=
  let compactable := drop (compacted_summary_prefix_len messages) messages in
  (preserve_recent_messages config <? length compactable)
  && (max_estimated_tokens config <=? estimate_session_tokens compactable).

(** ** The plan of a compaction *)

(** The transcript and the agent description a plan also carries are its inputs. *)
Record PreparedCompaction := {
  keep_from : nat;
  plan_todo : option string;
  raw_summary_budget : nat;
  ideal_summary_budget : nat
}.

Definition MIN_SUMMARY_HEADROOM : nat := 512.

Definition user_text (text : string) : ConversationMessage :=
  {| history := None; role := RUser; blocks := [Text text]; usage := None; model := None;
     duration_ms := None |}.

Definition is_image (block : ContentBlock) : bool :=
  match block with Image _ _ => true | _ => false end.

Definition fixed_cost (messages : list ConversationMessage) (todo : option string) (boundary : nat)
  : nat :=
  estimate_message_tokens (user_text (frozen_continuation "" todo (boundary <? length messages)))
  + estimate_session_tokens (drop boundary messages).

(** The [for] loop over the candidate boundaries. *)
Fixpoint relax_floor (messages : list ConversationMessage) (todo : option string) (target : nat)
  (candidates : list nat) (keep fixed : nat) : run (nat * nat) :=
  match candidates with
  | [] => Ret (keep, fixed)
  | candidate :: candidates =>
      b ← find_safe_compaction_boundary messages candidate 0;
      if negb (b =? candidate) then relax_floor messages todo target candidates keep fixed
      else
        let fixed := fixed_cost messages todo candidate in
        if fixed + (32 + MIN_SUMMARY_HEADROOM) <? target then Ret (candidate, fixed)
        else relax_floor messages todo target candidates candidate fixed
  end.

Definition prepare (messages : list ConversationMessage) (todo : option string)
  (config : CompactionConfig) (target ideal : nat) : run PreparedCompaction :=
  keep ← find_safe_compaction_boundary messages
           (length messages - preserve_recent_messages config) 0;
  let fixed := fixed_cost messages todo keep in
  latest_exchange ← find_safe_compaction_boundary messages (length messages - 1) 0;
  let has_retained_image := existsb (fun m => existsb is_image (blocks m)) (drop keep messages) in
  '(keep, fixed) ←
    (if has_retained_image && (target <=? fixed + (32 + MIN_SUMMARY_HEADROOM))
     then relax_floor messages todo target (seq (S keep) (latest_exchange - keep)) keep fixed
     else Ret (keep, fixed));
  Ret {| keep_from := keep; plan_todo := todo;
         raw_summary_budget := target - (fixed + 32);
         ideal_summary_budget := ideal - (fixed + 32) |}.

Definition has_source (p : PreparedCompaction) : bool := 0 <? keep_from p.

(** ** Usage carried over *)

Definition u32_max : N := 4294967295%N.
Definition u32_saturating_add (a b : N) : N := N.min (a + b) u32_max.

Definition usage_default : TokenUsage :=
  {| reported_total_tokens := None; input_tokens := 0%N; output_tokens := 0%N;
     cache_creation_input_tokens := 0%N; cache_read_input_tokens := 0%N; cost_units := None;
     cost_currency := None |}.

Definition known_total_tokens (u : TokenUsage) : N :=
  u32_saturating_add
    (u32_saturating_add (u32_saturating_add (input_tokens u) (output_tokens u))
       (cache_creation_input_tokens u))
    (cache_read_input_tokens u).

Definition total_tokens (u : TokenUsage) : N :=
  N.max (default 0%N (reported_total_tokens u)) (known_total_tokens u).

Definition add_assign_token_counts (u other : TokenUsage) : TokenUsage :=
  let reported_total :=
    match reported_total_tokens u, reported_total_tokens other with
    | None, None => None
    | _, _ => Some (u32_saturating_add (total_tokens u) (total_tokens other))
    end in
  {| reported_total_tokens := reported_total;
     input_tokens := u32_saturating_add (input_tokens u) (input_tokens other);
     output_tokens := u32_saturating_add (output_tokens u) (output_tokens other);
     cache_creation_input_tokens :=
       u32_saturating_add (cache_creation_input_tokens u) (cache_creation_input_tokens other);
     cache_read_input_tokens :=
       u32_saturating_add (cache_read_input_tokens u) (cache_read_input_tokens other);
     cost_units := cost_units u;
     cost_currency := cost_currency u |}.

Record UsageCostAggregation := {
  usage_count : nat;
  cost_count : nat;
  invalid_cost_count : nat;
  cost_units_sum : N
}.

Definition cost_default : UsageCostAggregation :=
  {| usage_count := 0; cost_count := 0; invalid_cost_count := 0; cost_units_sum := 0%N |}.

Definition cost_push (c : UsageCostAggregation) (usage : TokenUsage) : UsageCostAggregation :=
  match cost_units usage, cost_currency usage with
  | Some units, Some SudoPoint =>
      {| usage_count := S (usage_count c); cost_count := S (cost_count c);
         invalid_cost_count := invalid_cost_count c;
         cost_units_sum := u64_saturating_add (cost_units_sum c) units |}
  | None, None =>
      {| usage_count := S (usage_count c); cost_count := cost_count c;
         invalid_cost_count := invalid_cost_count c; cost_units_sum := cost_units_sum c |}
  | _, _ =>
      {| usage_count := S (usage_count c); cost_count := cost_count c;
         invalid_cost_count := S (invalid_cost_count c); cost_units_sum := cost_units_sum c |}
  end.

Definition cost_apply_to (c : UsageCostAggregation) (u : TokenUsage) : TokenUsage :=
  let complete := (0 <? usage_count c) && (cost_count c =? usage_count c)
                  && (invalid_cost_count c =? 0) in
  {| reported_total_tokens := reported_total_tokens u; input_tokens := input_tokens u;
     output_tokens := output_tokens u;
     cache_creation_input_tokens := cache_creation_input_tokens u;
     cache_read_input_tokens := cache_read_input_tokens u;
     cost_units := if complete then Some (cost_units_sum c) else None;
     cost_currency := if complete then Some SudoPoint else None |}.

Record UsageAggregation := { agg_total : TokenUsage; agg_cost : UsageCostAggregation }.

Definition agg_default : UsageAggregation :=
  {| agg_total := usage_default; agg_cost := cost_default |}.

Definition agg_push (a : UsageAggregation) (usage : TokenUsage) : UsageAggregation :=
  {| agg_total := add_assign_token_counts (agg_total a) usage;
     agg_cost := cost_push (agg_cost a) usage |}.

Definition agg_finish (a : UsageAggregation) : TokenUsage := cost_apply_to (agg_cost a) (agg_total a).

(** The [for] loop: the total so far and whether a usage was found. *)
Definition aggregate_message (state : UsageAggregation * bool) (message : ConversationMessage)
  : UsageAggregation * bool :=
  match role message with
  | RAssistant =>
      match usage message with
      | Some usage => (agg_push state.1 usage, true)
      | None => state
      end
  | _ => state
  end.

Definition aggregate_compaction_usage (existing_usage : option TokenUsage)
  (removed_messages : list ConversationMessage) : option TokenUsage :=
  let start := match existing_usage with
               | Some usage => (agg_push agg_default usage, true)
               | None => (agg_default, false)
               end in
  let '(total, found) := fold_left aggregate_message removed_messages start in
  if (found : bool) then Some (agg_finish total) else None.

(** ** Open calls *)

Lemma pending_calls_snoc messages n m :
  messages !! n = Some m ->
  pending_calls (take (S n) messages) = pending_message (pending_calls (take n messages)) (n, m).
Proof.
  intros Hm. unfold pending_calls. rewrite (take_S_r _ _ _ Hm), imap_app, fold_left_app. cbn.
  rewrite length_take, Nat.add_0_r. f_equal. f_equal. apply lookup_lt_Some in Hm. lia.
Qed.

(** A message only touches entries it stores under its own index. *)
Lemma pending_message_other pending n m k s :
  pending_message pending (n, m) !! k = Some s -> s <> n -> pending !! k = Some s.
Proof.
  unfold pending_message. cbn. generalize (blocks m) as bs. intros bs. revert pending.
  induction bs as [|b bs IH]; intros pending H Hs; cbn in H; [done|]. specialize (IH _ H Hs).
  destruct b; cbn in IH; try done.
  - apply lookup_insert_Some in IH as [[_ <-]|[_ ?]]; done.
  - by apply lookup_delete_Some in IH as [_ ?].
Qed.

Lemma pending_calls_bound messages n k s :
  n <= length messages -> pending_calls (take n messages) !! k = Some s -> s < n.
Proof.
  induction n as [|n IH]; intros Hn H; [done|].
  destruct (lookup_lt_is_Some_2 messages n ltac:(lia)) as [m Hm].
  rewrite (pending_calls_snoc _ _ _ Hm) in H.
  destruct (decide (s = n)) as [->|Hs]; [lia|].
  apply pending_message_other in H; [|done]. specialize (IH ltac:(lia) H). lia.
Qed.

(** A call open at [n] has been open since its message. *)
Lemma pending_calls_since messages n n' k s :
  n <= length messages -> pending_calls (take n messages) !! k = Some s -> s < n' -> n' <= n ->
  pending_calls (take n' messages) !! k = Some s.
Proof.
  induction n as [|n IH]; intros Hn H Hs Hn'; [done|].
  destruct (decide (n' = S n)) as [->|Hne]; [done|].
  destruct (lookup_lt_is_Some_2 messages n ltac:(lia)) as [m Hm].
  rewrite (pending_calls_snoc _ _ _ Hm) in H. apply IH; [lia| |done|lia].
  apply (pending_message_other _ _ _ _ _ H). lia.
Qed.

Lemma fold_min_le vs v : fold_left Nat.min vs v <= v.
Proof. revert v. induction vs as [|x vs IH]; intros v; cbn; [lia|]. specialize (IH (Nat.min v x)). lia. Qed.

Lemma fold_min_in vs v : fold_left Nat.min vs v ∈ v :: vs.
Proof.
  revert v. induction vs as [|x vs IH]; intros v; cbn; [left|].
  specialize (IH (Nat.min v x)). apply elem_of_cons in IH as [IH|IH].
  - rewrite IH. destruct (Nat.min_spec v x) as [[_ ->]|[_ ->]]; [left|right; left].
  - right. by right.
Qed.

Lemma min_value_None p : min_value p = None -> p = ∅.
Proof.
  unfold min_value. destruct (map_to_list p) as [|[k v] l] eqn:E; [|done]. intros _.
  by apply map_to_list_empty_iff.
Qed.

Lemma min_value_empty : min_value ∅ = None.
Proof. done. Qed.

Lemma min_value_Some p s : min_value p = Some s -> exists k, p !! k = Some s.
Proof.
  unfold min_value. destruct ((map_to_list p).*2) as [|v vs] eqn:E; [done|]. intros [= <-].
  pose proof (fold_min_in vs v) as H. rewrite <- E in H.
  apply list_elem_of_fmap in H as ([k s] & Es & H). exists k.
  apply elem_of_map_to_list in H. cbn in Es. by rewrite Es.
Qed.

(** The loop finds the largest boundary without an open call, unless that lies
    inside the prefix. *)
Lemma boundary_loop_spec messages prefix fuel b :
  b < fuel -> b <= length messages ->
  exists r, boundary_loop fuel messages b prefix = Ret r /\
    (r = prefix \/ (r <= b /\ pending_calls (take r messages) = ∅)) /\
    forall b', r < b' -> b' <= b -> pending_calls (take b' messages) <> ∅.
Proof.
  revert b. induction fuel as [|fuel IH]; intros b Hf Hb; [lia|]. cbn [boundary_loop].
  destruct (min_value _) as [start|] eqn:E.
  - apply min_value_Some in E as [k Hk]. pose proof (pending_calls_bound _ _ _ _ Hb Hk) as Hs.
    assert (Open : forall b', start < b' -> b' <= b -> pending_calls (take b' messages) <> ∅).
    { intros b' H1 H2 He. pose proof (pending_calls_since _ _ b' _ _ Hb Hk H1 H2) as H. by rewrite He in H. }
    destruct (Nat.leb_spec start prefix) as [Hp|Hp].
    + exists prefix. split_and!; [done|by left|]. intros b' H1 H2. apply Open; lia.
    + destruct (IH start ltac:(lia) ltac:(lia)) as (r & -> & Hr & Hmax). exists r. split_and!; [done| |].
      * destruct Hr as [?|[? ?]]; [by left|right; split; [lia|done]].
      * intros b' H1 H2. destruct (decide (b' <= start)); [apply Hmax; lia|apply Open; lia].
  - exists b. split_and!; [done|right; split; [done|by apply min_value_None]|]. intros; lia.
Qed.

Lemma find_boundary_spec messages raw prefix :
  exists b, find_safe_compaction_boundary messages raw prefix = Ret b /\
    (b = prefix \/ (b <= Nat.min raw (length messages) /\ pending_calls (take b messages) = ∅)) /\
    forall b', b < b' -> b' <= Nat.min raw (length messages) -> pending_calls (take b' messages) <> ∅.
Proof. apply boundary_loop_spec; lia. Qed.

(** ** Exchanges *)

(** Every tool call before [b] has its result before [b], in its own message or a
    later one. *)
Definition exchanges_whole (messages : list ConversationMessage) (b : nat) : Prop :=
  forall i m id name input sig, i < b -> messages !! i = Some m -> ToolUse id name input sig ∈ blocks m ->
    exists j m' tool output err, i <= j /\ j < b /\ messages !! j = Some m' /\
      ToolResult id tool output err ∈ blocks m' /\ tool_origin m' id = tool_origin m id.

Definition call_result (m : ConversationMessage) (k : call_key) : Prop :=
  exists tool output err, ToolResult k.2 tool output err ∈ blocks m /\ tool_origin m k.2 = k.1.

Lemma pending_block_open pending n m b k :
  is_Some (pending !! k) ->
  is_Some (pending_block n m pending b !! k) \/
  exists tool output err, b = ToolResult k.2 tool output err /\ tool_origin m k.2 = k.1.
Proof.
  intros H. destruct b as [| | | |id name input sig|id tool output err]; cbn; auto.
  - left. apply lookup_insert_is_Some'. by right.
  - destruct (decide ((tool_origin m id, id) = k)) as [<-|Hne].
    + right. by exists tool, output, err.
    + left. by rewrite lookup_delete_ne.
Qed.

(** A call stays open until its result. *)
Lemma pending_message_open pending n m k :
  is_Some (pending !! k) \/
  (exists name input sig, ToolUse k.2 name input sig ∈ blocks m /\ tool_origin m k.2 = k.1) ->
  is_Some (pending_message pending (n, m) !! k) \/ call_result m k.
Proof.
  unfold pending_message, call_result. cbn [fst snd]. generalize (blocks m) as bs. intros bs. revert pending.
  induction bs as [|b bs IH]; intros pending H; cbn [fold_left].
  - destruct H as [H|(? & ? & ? & H & _)]; [by left|by apply elem_of_nil in H].
  - assert (C : (is_Some (pending_block n m pending b !! k) \/
                 exists name input sig, ToolUse k.2 name input sig ∈ bs /\ tool_origin m k.2 = k.1) \/
                exists tool output err, b = ToolResult k.2 tool output err /\ tool_origin m k.2 = k.1).
    { destruct H as [H|(name & input & sig & [H|H]%elem_of_cons & E)].
      - destruct (pending_block_open pending n m b k H); auto.
      - left. left. subst b. cbn. rewrite E. destruct k. by rewrite lookup_insert_eq.
      - left. right. eauto. }
    destruct C as [C|(t & o & e & -> & E)]; [|right; exists t, o, e; split; [left|done]].
    destruct (IH _ C) as [?|(t & o & e & ? & ?)]; [by left|].
    right. exists t, o, e. split; [by right|done].
Qed.

Lemma no_open_calls_whole messages b :
  b <= length messages -> pending_calls (take b messages) = ∅ -> exchanges_whole messages b.
Proof.
  intros Hb He i m id name input sig Hi Hm Hu. set (k := (tool_origin m id, id)).
  assert (W : forall n, i < n -> n <= length messages ->
    is_Some (pending_calls (take n messages) !! k) \/
    exists j m', i <= j /\ j < n /\ messages !! j = Some m' /\ call_result m' k).
  { induction n as [|n IH]; intros Hin Hn; [lia|].
    destruct (lookup_lt_is_Some_2 messages n ltac:(lia)) as [mn Hmn].
    rewrite (pending_calls_snoc _ _ _ Hmn).
    assert (S : (is_Some (pending_calls (take n messages) !! k) \/
                 exists name input sig, ToolUse k.2 name input sig ∈ blocks mn /\ tool_origin mn k.2 = k.1) \/
                exists j m', i <= j /\ j < n /\ messages !! j = Some m' /\ call_result m' k).
    { destruct (decide (i = n)) as [->|Hne].
      - left. right. rewrite Hm in Hmn. injection Hmn as <-. by exists name, input, sig.
      - destruct (IH ltac:(lia) ltac:(lia)); auto. }
    destruct S as [S|(j & m' & ? & ? & ? & ?)]; [|right; exists j, m'; split_and!; auto].
    destruct (pending_message_open _ n mn k S) as [?|R]; [by left|].
    right. exists n, mn. split_and!; auto; lia. }
  destruct (W b Hi Hb) as [H|(j & m' & ? & ? & ? & t & o & e & ? & ?)].
  - rewrite He in H. by destruct H.
  - exists j, m', t, o, e. done.
Qed.

(** The boundary of a compaction never splits a tool exchange: the search
    always ends; unless it falls back to the summary of an earlier compaction,
    every call before the boundary has its result before it too; and no later
    boundary up to the requested one is free of open calls. *)
Theorem compaction_boundary_is_safe messages raw_keep_from prefix :
  exists b, find_safe_compaction_boundary messages raw_keep_from prefix = Ret b /\
    (b = prefix \/ (b <= raw_keep_from /\ b <= length messages /\ exchanges_whole messages b)) /\
    forall b', b < b' -> b' <= raw_keep_from -> b' <= length messages ->
      pending_calls (take b' messages) <> ∅.
Proof.
  destruct (find_boundary_spec messages raw_keep_from prefix) as (b & -> & Hb & Hmax).
  exists b. split_and!; [done| |intros; apply Hmax; lia].
  destruct Hb as [?|[? ?]]; [by left|]. right. split_and!; [lia|lia|].
  apply no_open_calls_whole; [lia|done].
Qed.

(** ** The plan *)

Definition whole_or_nothing (messages : list ConversationMessage) (b : nat) : Prop :=
  b <= length messages /\ exchanges_whole messages b.

Lemma whole_nothing messages : whole_or_nothing messages 0.
Proof. split; [lia|]. intros i; lia. Qed.

Lemma find_boundary_whole messages raw : exists b,
  find_safe_compaction_boundary messages raw 0 = Ret b /\ whole_or_nothing messages b.
Proof.
  destruct (find_boundary_spec messages raw 0) as (b & E & Hb & _). exists b. split; [done|].
  destruct Hb as [->|[? ?]]; [apply whole_nothing|]. split; [lia|]. apply no_open_calls_whole; [lia|done].
Qed.

Lemma relax_floor_spec messages todo target candidates keep :
  whole_or_nothing messages keep ->
  exists keep', relax_floor messages todo target candidates keep (fixed_cost messages todo keep)
                = Ret (keep', fixed_cost messages todo keep') /\
    whole_or_nothing messages keep' /\ (keep' = keep \/ keep' ∈ candidates).
Proof.
  revert keep. induction candidates as [|c cs IH]; intros keep W; cbn [relax_floor].
  - exists keep. auto.
  - destruct (find_boundary_whole messages c) as (b & -> & Wb). cbn [mbind run_bind].
    destruct (Nat.eqb_spec b c) as [->|_]; cbn [negb].
    + destruct (_ <? target).
      * exists c. split_and!; [done|done|right; left].
      * destruct (IH c Wb) as (keep' & -> & ? & Hk). exists keep'. split_and!; [done|done|].
        right. destruct Hk as [->|?]; [left|by right].
    + destruct (IH keep W) as (keep' & -> & ? & Hk). exists keep'. split_and!; [done|done|].
      destruct Hk as [?|?]; [by left|right; by right].
Qed.

Lemma prepare_whole messages todo config target ideal :
  exists p, prepare messages todo config target ideal = Ret p /\ whole_or_nothing messages (keep_from p) /\
    plan_todo p = todo /\
    raw_summary_budget p = target - (fixed_cost messages todo (keep_from p) + 32) /\
    ideal_summary_budget p = ideal - (fixed_cost messages todo (keep_from p) + 32).
Proof.
  unfold prepare.
  destruct (find_boundary_whole messages (length messages - preserve_recent_messages config)) as (keep & -> & W).
  destruct (find_boundary_whole messages (length messages - 1)) as (latest & -> & _). cbn [mbind run_bind].
  destruct (_ && _); [|cbn [mbind run_bind]; by eexists].
  destruct (relax_floor_spec messages todo target (seq (S keep) (latest - keep)) keep W) as (keep' & -> & W' & _).
  cbn [mbind run_bind]. by eexists.
Qed.

(** A compaction plan exists for every transcript and keeps every tool exchange
    on one side of its boundary, also when the retained floor is relaxed for
    images; its summary budgets are what the target leaves after the text in front
    and the messages it keeps. *)
Theorem prepared_compaction_keeps_exchanges messages todo config target ideal :
  exists p, prepare messages todo config target ideal = Ret p /\
    keep_from p <= length messages /\ exchanges_whole messages (keep_from p) /\
    raw_summary_budget p = target - (fixed_cost messages todo (keep_from p) + 32) /\
    ideal_summary_budget p = ideal - (fixed_cost messages todo (keep_from p) + 32).
Proof.
  destruct (prepare_whole messages todo config target ideal) as (p & -> & [Hk Hw] & _ & Hr & Hi).
  exists p. by split_and!.
Qed.

(** ** The retained suffix is priced *)

Lemma sum_list_app' (a b : list nat) : sum_list (a ++ b) = sum_list a + sum_list b.
Proof. induction a as [|x a IH]; cbn; [done|]. unfold sum_list in *. lia. Qed.

Lemma estimate_session_app a b :
  estimate_session_tokens (a ++ b) = estimate_session_tokens a + estimate_session_tokens b.
Proof. unfold estimate_session_tokens. by rewrite map_app, sum_list_app'. Qed.

Lemma estimate_session_rev l : estimate_session_tokens (rev l) = estimate_session_tokens l.
Proof.
  induction l as [|m l IH]; cbn [rev]; [done|]. rewrite estimate_session_app, IH.
  change (m :: l) with ([m] ++ l). rewrite estimate_session_app. lia.
Qed.

(** The last [n] messages, priced from the end. *)
Lemma estimate_last n l : n <= length l ->
  estimate_session_tokens (drop (length l - n) l) = estimate_session_tokens (take n (rev l)).
Proof. intros Hn. by rewrite firstn_rev, estimate_session_rev. Qed.

Lemma retained_count_spec tokens acc l :
  retained_count tokens acc l <= length l /\
  (retained_count tokens acc l = length l \/
   tokens <= acc + estimate_session_tokens (take (retained_count tokens acc l) l)) /\
  forall k, k < retained_count tokens acc l -> acc + estimate_session_tokens (take k l) < tokens.
Proof.
  revert acc. induction l as [|m l IH]; intros acc; cbn [retained_count].
  - split_and!; [done|by left|intros; lia].
  - destruct (Nat.leb_spec tokens acc) as [H|H].
    + split_and!; [lia|right; cbn; lia|intros; lia].
    + destruct (IH (acc + estimate_message_tokens m)) as (Hl & Hs & Hk). cbn [length].
      assert (E : forall k, estimate_session_tokens (take (S k) (m :: l)) =
                  estimate_message_tokens m + estimate_session_tokens (take k l)) by done.
      split_and!; [lia| |].
      * rewrite E. destruct Hs; [left; lia|right; lia].
      * intros [|k] Hk'; [cbn; lia|]. rewrite E. specialize (Hk k ltac:(lia)). lia.
Qed.

(** The retained suffix is the shortest one worth the requested tokens: the
    messages it adds to the configured floor are worth at least that much, unless
    they are the whole transcript, and any shorter suffix is worth less. *)
Theorem token_retention_is_tight config messages tokens :
  exists n, n <= length messages /\
    preserve_recent_messages (with_token_retention config messages tokens) =
      Nat.max (preserve_recent_messages config) n /\
    (n = length messages \/
     tokens <= estimate_session_tokens (drop (length messages - n) messages)) /\
    forall k, k < n -> estimate_session_tokens (drop (length messages - k) messages) < tokens.
Proof.
  destruct (retained_count_spec tokens 0 (rev messages)) as (Hl & Hs & Hk).
  rewrite length_rev in *. exists (retained_count tokens 0 (rev messages)). split_and!; [done|done| |].
  - rewrite estimate_last by done. exact Hs.
  - intros k Hlt. rewrite estimate_last by lia. by apply Hk.
Qed.

(** ** Usage is carried over *)

(** The usages a compaction carries over. *)
Definition carried (existing : option TokenUsage) (removed : list ConversationMessage) : list TokenUsage :=
  option_list existing ++ omap (fun m => match role m with RAssistant => usage m | _ => None end) removed.

Definition sum_N (l : list N) : N := foldr N.add 0%N l.

Lemma aggregate_fold removed total found :
  fold_left aggregate_message removed (total, found) =
  (fold_left agg_push (carried None removed) total,
   found || match carried None removed with [] => false | _ => true end).
Proof.
  revert total found. unfold carried. cbn [option_list app].
  induction removed as [|m removed IH]; intros total found; cbn; [by rewrite orb_false_r|].
  unfold aggregate_message at 2. cbn [fst].
  destruct (role m); rewrite ?IH; try done. destruct (usage m) as [u|]; rewrite IH; [|done].
  cbn. by rewrite orb_true_r.
Qed.

Lemma aggregate_carried existing removed :
  aggregate_compaction_usage existing removed =
  match carried existing removed with
  | [] => None
  | us => Some (agg_finish (fold_left agg_push us agg_default))
  end.
Proof.
  unfold aggregate_compaction_usage. destruct existing as [u|]; rewrite aggregate_fold.
  - done.
  - cbn [orb]. by destruct (carried None removed).
Qed.

(** A counter that is added with saturation. *)
Lemma fold_counter (f : TokenUsage -> N) (g : UsageAggregation -> N) us a :
  (forall a u, g (agg_push a u) = u32_saturating_add (g a) (f u)) ->
  (g a <= u32_max)%N -> g (fold_left agg_push us a) = N.min (g a + sum_N (map f us)) u32_max.
Proof.
  intros Hp. revert a. induction us as [|u us IH]; intros a Ha; [cbn; lia|].
  cbn [fold_left map]. change (sum_N (f u :: ?l)) with (f u + sum_N l)%N.
  rewrite IH; rewrite Hp; unfold u32_saturating_add; lia.
Qed.

Definition has_cost (u : TokenUsage) : bool :=
  match cost_units u, cost_currency u with Some _, Some SudoPoint => true | _, _ => false end.
Definition cost_of (u : TokenUsage) : N := if has_cost u then default 0%N (cost_units u) else 0%N.

Lemma fold_cost us a c :
  agg_cost a = c -> cost_count c + invalid_cost_count c <= usage_count c ->
  (cost_units_sum c <= u64_max)%N ->
  let c' := agg_cost (fold_left agg_push us a) in
  usage_count c' = usage_count c + length us /\
  cost_count c' = cost_count c + length (List.filter has_cost us) /\
  cost_count c' + invalid_cost_count c' <= usage_count c' /\
  cost_units_sum c' = N.min (cost_units_sum c + sum_N (map cost_of us)) u64_max.
Proof.
  revert a c. induction us as [|u us IH]; intros a c Ea Hc Hs.
  - cbn. rewrite Ea. split_and!; lia.
  - cbn [fold_left map List.filter]. cbn zeta. change (sum_N (cost_of u :: ?l)) with (cost_of u + sum_N l)%N.
    assert (P : forall c1, cost_push c u = c1 ->
      usage_count c1 = S (usage_count c) /\
      cost_count c1 = (if has_cost u then 1 else 0) + cost_count c /\
      cost_count c1 + invalid_cost_count c1 <= usage_count c1 /\
      cost_units_sum c1 = N.min (cost_units_sum c + cost_of u) u64_max).
    { unfold cost_push, cost_of, has_cost, u64_saturating_add. intros c1 <-.
      destruct (cost_units u), (cost_currency u) as [[]|]; cbn; split_and!; lia. }
    destruct (P _ eq_refl) as (P1 & P2 & P3 & P4).
    destruct (IH (agg_push a u) (cost_push c u)) as (H1 & H2 & H3 & H4); [by cbn; rewrite Ea|done|lia|].
    cbn zeta in *. rewrite H1, H2, H4, P1, P2, P4 in *. split_and!; [cbn; lia| | |lia].
    + destruct (has_cost u); cbn; lia.
    + destruct (has_cost u); cbn in *; lia.
Qed.

Lemma filter_length_all {A} (f : A -> bool) l : length (List.filter f l) = length l <-> forallb f l = true.
Proof.
  induction l as [|x l IH]; cbn; [done|]. pose proof (filter_length_le f l).
  destruct (f x); cbn; [rewrite <- IH; lia|]. split; [lia|done].
Qed.

(** The usage a compaction carries over: nothing when neither the session nor a
    removed assistant message reported any; otherwise each counter is the sum of the
    reported ones, capped at the width of the counter, and a cost is stated only when
    every usage states one, as their capped sum. *)
Theorem compaction_usage_is_sum existing removed :
  let us := carried existing removed in
  match aggregate_compaction_usage existing removed with
  | None => us = []
  | Some u =>
      us <> [] /\
      input_tokens u = N.min (sum_N (map input_tokens us)) u32_max /\
      output_tokens u = N.min (sum_N (map output_tokens us)) u32_max /\
      cache_creation_input_tokens u = N.min (sum_N (map cache_creation_input_tokens us)) u32_max /\
      cache_read_input_tokens u = N.min (sum_N (map cache_read_input_tokens us)) u32_max /\
      cost_units u = if forallb has_cost us then Some (N.min (sum_N (map cost_of us)) u64_max) else None
  end.
Proof.
  cbn zeta. rewrite aggregate_carried. destruct (carried existing removed) as [|u0 us'] eqn:E; [done|].
  rewrite <- E. set (us := carried existing removed) in *. set (a := fold_left agg_push us agg_default).
  assert (C : forall (f : TokenUsage -> N), (forall a u, f (agg_total (agg_push a u)) =
      u32_saturating_add (f (agg_total a)) (f u)) -> f usage_default = 0%N ->
      f (agg_total a) = N.min (sum_N (map f us)) u32_max).
  { intros f Hf H0. unfold a. rewrite (fold_counter f (fun a => f (agg_total a))) by
      (done || (cbn; rewrite H0; lia)). cbn. by rewrite H0. }
  split_and!; [by rewrite E| | | | |]; cbn [agg_finish cost_apply_to input_tokens output_tokens
    cache_creation_input_tokens cache_read_input_tokens cost_units]; try by apply C.
  destruct (fold_cost us agg_default cost_default eq_refl ltac:(cbn; lia) ltac:(cbn; lia)) as (H1 & H2 & H3 & H4).
  fold a in H1, H2, H3, H4. cbn in H1, H2, H4.
  pose proof (filter_length_all has_cost us) as F. pose proof (f_equal length E) as L. cbn in L.
  assert (K : (0 <? usage_count (agg_cost a)) && (cost_count (agg_cost a) =? usage_count (agg_cost a))
              && (invalid_cost_count (agg_cost a) =? 0) = forallb has_cost us).
  { destruct (forallb has_cost us) eqn:Ef.
    - pose proof (proj2 F eq_refl). rewrite !andb_true_iff, Nat.ltb_lt, !Nat.eqb_eq. lia.
    - destruct (Nat.eqb_spec (cost_count (agg_cost a)) (usage_count (agg_cost a))) as [Eq|];
        [|by rewrite andb_false_r]. exfalso. assert (false = true) by (apply F; lia). done. }
  rewrite K, H4. done.
Qed.

(** A boundary asked for between a call and its result moves in front of the call. *)
Definition demo_message (r : MessageRole) (b : ContentBlock) : ConversationMessage :=
  {| history := None; role := r; blocks := [b]; usage := None; model := None; duration_ms := None |}.

Definition demo_transcript : list ConversationMessage :=
  [ demo_message RUser (Text "list the files");
    demo_message RAssistant (ToolUse "call-1" "bash" "ls" None);
    demo_message RTool (ToolResult "call-1" "bash" "a.txt" false);
    demo_message RAssistant (Text "one file") ].

Example demo_boundary : map (fun raw => find_safe_compaction_boundary demo_transcript raw 0) [1; 2; 3; 4]
  = [Ret 1; Ret 1; Ret 3; Ret 4].
Proof. vm_compute. reflexivity. Qed.
