(* ===== verification/CompactionScope.v ===== *)
(** * The budget of a compaction (runtime/src/compaction_scope.rs)

    Every provider request of one compaction runs in one scope: it bounds the attempts, the
    completed responses and the outer retries, and keeps a receipt per attempt, onto which
    the cumulative usage frames of the response are merged. *)
From S2P Require Import Prelude.
From stdpp Require Import list gmap.
From S2P Require Import Conversation.

Definition MAX_REQUEST_ATTEMPTS : N := 4.
Definition MAX_COMPLETED_RESPONSES : N := 2.
Definition MAX_OUTER_RETRIES : N := 2.

(** [MaintenanceUsageReceipt] (runtime/src/session.rs): one HTTP attempt; no usage means that
    the provider reported none. *)
Record MaintenanceUsageReceipt := {
  rc_run_id : string;
  rc_attempt_id : N;
  rc_usage : option TokenUsage
}.

Inductive CompactionBudgetExceeded := RequestAttempts | CompletedResponses.

Record ScopeState := {
  sc_run_id : string;
  sc_attempts : N;
  sc_completed_responses : N;
  sc_outer_retries : N;
  sc_receipts : list MaintenanceUsageReceipt;
  sc_completed_attempts : gset N
}.

Definition scope_new (run_id : string) : ScopeState :=
  {| sc_run_id := run_id; sc_attempts := 0; sc_completed_responses := 0; sc_outer_retries := 0;
     sc_receipts := []; sc_completed_attempts := ∅ |}.

Definition set_receipts (l : list MaintenanceUsageReceipt) (s : ScopeState) : ScopeState :=
  {| sc_run_id := sc_run_id s; sc_attempts := sc_attempts s; sc_completed_responses := sc_completed_responses s;
     sc_outer_retries := sc_outer_retries s; sc_receipts := l; sc_completed_attempts := sc_completed_attempts s |}.
Definition set_completed (n : N) (done_ : gset N) (s : ScopeState) : ScopeState :=
  {| sc_run_id := sc_run_id s; sc_attempts := sc_attempts s; sc_completed_responses := n;
     sc_outer_retries := sc_outer_retries s; sc_receipts := sc_receipts s; sc_completed_attempts := done_ |}.

Definition reserve (s : ScopeState) : ScopeState * result CompactionBudgetExceeded N :=
  if (MAX_COMPLETED_RESPONSES <=? sc_completed_responses s)%N then (s, Err CompletedResponses)
  else if (MAX_REQUEST_ATTEMPTS <=? sc_attempts s)%N then (s, Err RequestAttempts)
  else
    let attempt_id := (sc_attempts s + 1)%N in
    ({| sc_run_id := sc_run_id s; sc_attempts := attempt_id; sc_completed_responses := sc_completed_responses s;
        sc_outer_retries := sc_outer_retries s;
        sc_receipts := sc_receipts s ++ [{| rc_run_id := sc_run_id s; rc_attempt_id := attempt_id; rc_usage := None |}];
        sc_completed_attempts := sc_completed_attempts s |}, Ok attempt_id).

Definition complete_response (s : ScopeState) : ScopeState * result CompactionBudgetExceeded unit :=
  let attempt := sc_attempts s in
  if (0 <? attempt)%N && bool_decide (attempt ∈ sc_completed_attempts s) then (s, Ok tt)
  else if (MAX_COMPLETED_RESPONSES <=? sc_completed_responses s)%N then (s, Err CompletedResponses)
  else (set_completed (sc_completed_responses s + 1)
          (if (0 <? attempt)%N then {[ attempt ]} ∪ sc_completed_attempts s else sc_completed_attempts s) s, Ok tt).

(** A later frame onto the usage an attempt has. *)
Definition merge_frame (existing u : TokenUsage) : TokenUsage :=
  {| reported_total_tokens := reported_total_tokens existing;
     input_tokens := N.max (input_tokens existing) (input_tokens u);
     output_tokens := N.max (output_tokens existing) (output_tokens u);
     cache_creation_input_tokens := N.max (cache_creation_input_tokens existing) (cache_creation_input_tokens u);
     cache_read_input_tokens := N.max (cache_read_input_tokens existing) (cache_read_input_tokens u);
     cost_units :=
       match cost_units u with
       | Some units => Some (N.max (default 0%N (cost_units existing)) units)
       | None => cost_units existing
       end;
     cost_currency :=
       match cost_units u, cost_currency u with
       | Some _, Some c => Some c
       | _, _ => cost_currency existing
       end |}.

Definition receive_frame (u : TokenUsage) (r : MaintenanceUsageReceipt) : MaintenanceUsageReceipt :=
  {| rc_run_id := rc_run_id r; rc_attempt_id := rc_attempt_id r;
     rc_usage := Some match rc_usage r with Some existing => merge_frame existing u | None => u end |}.

(** Only the last receipt, that of the latest attempt, receives frames. *)
Fixpoint update_last (u : TokenUsage) (l : list MaintenanceUsageReceipt) : list MaintenanceUsageReceipt :=
  match l with
  | [] => []
  | [r] => [receive_frame u r]
  | r :: l => r :: update_last u l
  end.

Definition update_usage (u : TokenUsage) (s : ScopeState) : ScopeState :=
  set_receipts (update_last u (sc_receipts s)) s.

Definition retry (s : ScopeState) : ScopeState * bool :=
  if (MAX_OUTER_RETRIES <=? sc_outer_retries s)%N || (MAX_REQUEST_ATTEMPTS <=? sc_attempts s)%N
     || (MAX_COMPLETED_RESPONSES <=? sc_completed_responses s)%N
  then (s, false)
  else ({| sc_run_id := sc_run_id s; sc_attempts := sc_attempts s;
           sc_completed_responses := sc_completed_responses s; sc_outer_retries := sc_outer_retries s + 1;
           sc_receipts := sc_receipts s; sc_completed_attempts := sc_completed_attempts s |}, true).

(** The method of a scope that is held: a legacy client's completion. *)
Definition record_completion (u : option TokenUsage) (s : ScopeState) :
  ScopeState * result CompactionBudgetExceeded unit :=
  complete_response (match u with Some u => update_usage u s | None => s end).

(** ** The scope of the task, if it runs in one *)

Definition Active : Type := option ScopeState.

Definition is_active (a : Active) : bool := match a with Some _ => true | None => false end.

Definition reserve_request_attempt (a : Active) : Active * result CompactionBudgetExceeded (option N) :=
  match a with
  | None => (None, Ok None)
  | Some s => let '(s, r) := reserve s in (Some s, match r with Ok id => Ok (Some id) | Err e => Err e end)
  end.

Definition record_usage (u : TokenUsage) (a : Active) : Active := update_usage u <$> a.

Definition record_completed_response (a : Active) : Active * result CompactionBudgetExceeded unit :=
  match a with
  | None => (None, Ok tt)
  | Some s => let '(s, r) := complete_response s in (Some s, r)
  end.

Definition claim_outer_retry (a : Active) : Active * bool :=
  match a with
  | None => (None, true)
  | Some s => let '(s, b) := retry s in (Some s, b)
  end.
