(* ===== verification/CompactionBudget.v ===== *)
(** * A compaction stays within its budget

    Whatever the requests of one compaction do, in whatever order, the scope they share
    bounds them, and a receipt counts every token of its response once. *)
From S2P Require Import Prelude.
From stdpp Require Import list gmap.
From S2P Require Import Conversation CompactionScope.

Inductive ScopeOp :=
| Reserve
| Frame (u : TokenUsage)
| Completed
| Completion (u : option TokenUsage)
| OuterRetry.

Inductive ScopeReply :=
| Reserved (r : result CompactionBudgetExceeded N)
| Recorded
| Counted (r : result CompactionBudgetExceeded unit)
| Retried (b : bool).

Definition scope_step (s : ScopeState) (op : ScopeOp) : ScopeState * ScopeReply :=
  match op with
  | Reserve => let '(s, r) := reserve s in (s, Reserved r)
  | Frame u => (update_usage u s, Recorded)
  | Completed => let '(s, r) := complete_response s in (s, Counted r)
  | Completion u => let '(s, r) := record_completion u s in (s, Counted r)
  | OuterRetry => let '(s, b) := retry s in (s, Retried b)
  end.

Fixpoint scope_run (s : ScopeState) (ops : list ScopeOp) : ScopeState * list ScopeReply :=
  match ops with
  | [] => (s, [])
  | op :: ops => let '(s, r) := scope_step s op in let '(s, l) := scope_run s ops in (s, r :: l)
  end.

(** The attempts that were granted, in order, and how many retries were. *)
Definition granted (l : list ScopeReply) : list N :=
  omap (fun r => match r with Reserved (Ok id) => Some id | _ => None end) l.
Definition retries (l : list ScopeReply) : nat :=
  length (List.filter (fun r => match r with Retried true => true | _ => false end) l).

Definition ids (n : N) : list N := map N.of_nat (seq 1 (N.to_nat n)).

Lemma ids_succ n : ids (n + 1) = ids n ++ [(n + 1)%N].
Proof.
  unfold ids. replace (N.to_nat (n + 1)) with (N.to_nat n + 1) by lia. rewrite seq_app, map_app. cbn [seq map].
  do 2 f_equal. lia.
Qed.

Lemma ids_in n x : x ∈ ids n <-> (1 <= x <= n)%N.
Proof.
  unfold ids. rewrite list_elem_of_In, in_map_iff. setoid_rewrite in_seq. split.
  - intros (k & <- & Hk). lia.
  - intros Hx. exists (N.to_nat x). lia.
Qed.

Lemma update_last_keys u l : map rc_attempt_id (update_last u l) = map rc_attempt_id l /\
  map rc_run_id (update_last u l) = map rc_run_id l.
Proof. induction l as [|r [|r' l] [IH1 IH2]]; [done..|]. cbn [update_last map] in *. by rewrite IH1, IH2. Qed.

(** What holds of a scope at any time: its bounds, one receipt per attempt, and at most as
    many attempts with a complete response as responses counted. *)
Definition within (run : string) (s : ScopeState) : Prop :=
  (sc_attempts s <= MAX_REQUEST_ATTEMPTS)%N /\ (sc_completed_responses s <= MAX_COMPLETED_RESPONSES)%N /\
  (sc_outer_retries s <= MAX_OUTER_RETRIES)%N /\
  map rc_attempt_id (sc_receipts s) = ids (sc_attempts s) /\
  Forall (fun r => rc_run_id r = run) (sc_receipts s) /\ sc_run_id s = run /\
  (N.of_nat (size (sc_completed_attempts s)) <= sc_completed_responses s)%N /\
  forall x, x ∈ sc_completed_attempts s -> (1 <= x <= sc_attempts s)%N.

Lemma forall_runs (l : list MaintenanceUsageReceipt) run :
  Forall (fun r => rc_run_id r = run) l <-> map rc_run_id l = replicate (length l) run.
Proof.
  induction l as [|r l IH]; cbn; [split; [done|constructor]|]. rewrite Forall_cons, IH. split.
  - intros [-> ->]. done.
  - by intros [= -> ->].
Qed.

Lemma update_within run u s : within run s -> within run (update_usage u s).
Proof.
  intros (H1 & H2 & H3 & H4 & H5 & H6). unfold within. cbn. destruct (update_last_keys u (sc_receipts s)) as [K1 K2].
  rewrite K1. split_and!; try done; try apply H6.
  apply forall_runs. apply forall_runs in H5. rewrite K2. apply (f_equal length) in K2. rewrite !length_map in K2. by rewrite K2.
Qed.

Lemma complete_within run s : within run s -> within run (complete_response s).1.
Proof.
  intros Hs. unfold complete_response. destruct (_ && _) eqn:E1; [done|]. destruct (MAX_COMPLETED_RESPONSES <=? _)%N eqn:E2; [done|].
  destruct Hs as (H1 & H2 & H3 & H4 & H5 & H6 & H7 & H8). unfold within. cbn. apply N.leb_gt in E2.
  split_and!; try done; [lia| |].
  - destruct (0 <? sc_attempts s)%N eqn:E3; [|lia]. cbn [andb] in E1. apply bool_decide_eq_false in E1.
    rewrite size_union by set_solver. rewrite size_singleton. lia.
  - destruct (0 <? sc_attempts s)%N eqn:E3; [|done]. apply N.ltb_lt in E3. intros x [->%elem_of_singleton|Hx]%elem_of_union; [lia|by apply H8].
Qed.

Lemma step_within run s op : within run s -> within run (scope_step s op).1.
Proof.
  intros Hs. destruct op as [|u| |u|]; cbn [scope_step].
  - destruct (reserve s) as [s' r] eqn:E. revert E. unfold reserve.
    destruct (MAX_COMPLETED_RESPONSES <=? _)%N; [by intros [= <- _]|].
    destruct (MAX_REQUEST_ATTEMPTS <=? _)%N eqn:E2; [by intros [= <- _]|]. apply N.leb_gt in E2. intros [= <- _].
    destruct Hs as (H1 & H2 & H3 & H4 & H5 & H6 & H7 & H8). unfold within. cbn.
    rewrite map_app, H4, ids_succ. split_and!; try done; [lia| |].
    + apply Forall_app. split; [done|]. by constructor.
    + intros x Hx. specialize (H8 x Hx). lia.
  - by apply update_within.
  - pose proof (complete_within run s Hs). by destruct (complete_response s).
  - unfold record_completion. assert (within run (match u with Some u => update_usage u s | None => s end)) as Hu
      by (destruct u; [by apply update_within|done]).
    apply complete_within in Hu. by destruct (complete_response _).
  - destruct (retry s) as [s' b] eqn:E. revert E. unfold retry.
    destruct ((MAX_OUTER_RETRIES <=? sc_outer_retries s)%N) eqn:E1; cbn [orb]; [by intros [= <- _]|].
    destruct (_ || _); [by intros [= <- _]|]. apply N.leb_gt in E1. intros [= <- _].
    destruct Hs as (H1 & H2 & H3 & H4). unfold within. cbn. split_and!; try done; try apply H4. lia.
Qed.

Lemma reply_counts s op :
  let '(s', r) := scope_step s op in
  ids (sc_attempts s') = ids (sc_attempts s) ++ granted [r] /\
  sc_outer_retries s' = (sc_outer_retries s + N.of_nat (retries [r]))%N.
Proof.
  assert (forall s0, sc_attempts (complete_response s0).1 = sc_attempts s0 /\ sc_outer_retries (complete_response s0).1 = sc_outer_retries s0) as Hc.
  { intros s0. unfold complete_response. by destruct (_ && _), (MAX_COMPLETED_RESPONSES <=? sc_completed_responses s0)%N. }
  destruct op as [|u| |u|]; cbn [scope_step].
  - unfold reserve. destruct (MAX_COMPLETED_RESPONSES <=? _)%N; [cbn; rewrite app_nil_r; split; [done|lia]|].
    destruct (MAX_REQUEST_ATTEMPTS <=? _)%N; [cbn; rewrite app_nil_r; split; [done|lia]|]. cbn. split; [apply ids_succ|lia].
  - cbn. rewrite app_nil_r. split; [done|lia].
  - pose proof (Hc s) as [K1 K2]. destruct (complete_response s). cbn in *. rewrite K1, K2, app_nil_r. split; [done|lia].
  - unfold record_completion. pose proof (Hc (match u with Some u => update_usage u s | None => s end)) as [K1 K2].
    destruct (complete_response _). cbn in *. rewrite K1, K2, app_nil_r. by destruct u; cbn; (split; [done|lia]).
  - unfold retry. destruct (_ || _ || _); cbn; rewrite app_nil_r; split; try done; lia.
Qed.

Lemma granted_cons r l : granted (r :: l) = granted [r] ++ granted l.
Proof. unfold granted. cbn. by destruct r as [[]| | |]. Qed.
Lemma retries_cons r l : retries (r :: l) = retries [r] + retries l.
Proof. unfold retries. cbn. by destruct r as [| | |[]]. Qed.

Lemma run_within run ops : forall s, within run s ->
  let '(s', l) := scope_run s ops in
  within run s' /\ ids (sc_attempts s') = ids (sc_attempts s) ++ granted l /\
  sc_outer_retries s' = (sc_outer_retries s + N.of_nat (retries l))%N.
Proof.
  induction ops as [|op ops IH]; intros s Hs; cbn [scope_run].
  - cbn. rewrite app_nil_r. split_and!; [done..|lia].
  - pose proof (step_within run s op Hs) as K1. pose proof (reply_counts s op) as K2.
    destruct (scope_step s op) as [s1 r]. cbn [fst] in K1. specialize (IH s1 K1). destruct (scope_run s1 ops) as [s2 l].
    destruct IH as (H1 & H2 & H3), K2 as [K2 K3]. rewrite granted_cons, retries_cons. split_and!; [done| |lia].
    by rewrite H2, K2, app_assoc.
Qed.

Lemma new_within run : within run (scope_new run).
Proof. unfold within. cbn. split_and!; (done || set_solver || lia). Qed.

(** No run of a compaction exceeds its budget.

    Whatever the requests of a compaction reserve, receive, complete and retry, and in
    whatever order: at most four attempts are granted, numbered from one, each with its own
    receipt of this run; at most two outer retries are; at most two responses count as
    completed, an attempt at most once; and once two are, or four attempts were made,
    every further request is refused. *)
Theorem compaction_stays_in_budget run ops :
  let '(s, l) := scope_run (scope_new run) ops in
  granted l = ids (sc_attempts s) /\ length (granted l) <= 4 /\ retries l <= 2 /\
  map rc_attempt_id (sc_receipts s) = granted l /\ Forall (fun r => rc_run_id r = run) (sc_receipts s) /\
  (N.of_nat (size (sc_completed_attempts s)) <= sc_completed_responses s <= 2)%N /\
  ((exists id, (reserve s).2 = Ok id) <-> (sc_completed_responses s < 2)%N /\ length (granted l) < 4).
Proof.
  pose proof (run_within run ops _ (new_within run)) as K. destruct (scope_run (scope_new run) ops) as [s l].
  destruct K as ((H1 & H2 & H3 & H4 & H5 & _ & H7 & H8) & K1 & K2). cbn [scope_new sc_attempts sc_outer_retries] in K1, K2.
  change (ids 0) with (@nil N) in K1. cbn [app] in K1.
  unfold MAX_REQUEST_ATTEMPTS, MAX_COMPLETED_RESPONSES, MAX_OUTER_RETRIES in *.
  assert (length (granted l) = N.to_nat (sc_attempts s)) as Hl by (rewrite <- K1; unfold ids; by rewrite length_map, length_seq).
  rewrite Hl. split_and!; try done; try lia; [by rewrite H4|].
  unfold reserve, MAX_COMPLETED_RESPONSES, MAX_REQUEST_ATTEMPTS.
  destruct (N.leb_spec 2 (sc_completed_responses s)); cbn; [split; [by intros [? ?]|lia]|].
  destruct (N.leb_spec 4 (sc_attempts s)); cbn; [split; [by intros [? ?]|lia]|]. split; [intros _; lia|by eexists].
Qed.

(** ** Receipts *)

Definition max_N (l : list N) : N := foldr N.max 0%N l.

Lemma max_N_cons a l : max_N (a :: l) = N.max a (max_N l).
Proof. done. Qed.

Lemma frames_max (f : TokenUsage -> N) u us :
  (forall a b, f (merge_frame a b) = N.max (f a) (f b)) -> f (fold_left merge_frame us u) = max_N (map f (u :: us)).
Proof.
  intros Hf. revert u. induction us as [|v us IH]; intros u; cbn [fold_left map]; [by rewrite max_N_cons; cbn; rewrite N.max_0_r|].
  rewrite IH. cbn [map]. rewrite !max_N_cons, Hf. lia.
Qed.

Lemma frames_receipt us : forall r u, rc_usage r = Some u ->
  foldl (fun r u => receive_frame u r) r us = {| rc_run_id := rc_run_id r; rc_attempt_id := rc_attempt_id r; rc_usage := Some (fold_left merge_frame us u) |}.
Proof.
  induction us as [|v us IH]; intros r u Hr; cbn.
  - destruct r. cbn in *. by rewrite Hr.
  - rewrite (IH _ (merge_frame u v)); [done|]. cbn. by rewrite Hr.
Qed.

(** The usage frames of one response are cumulative: whatever their order, and however often
    one is replayed, the receipt has the greatest of each count.  A reported total is not
    merged: the first frame's stays. *)
Theorem frames_are_billed_once r u us :
  rc_usage r = None ->
  exists w, rc_usage (foldl (fun r u => receive_frame u r) r (u :: us)) = Some w /\
    input_tokens w = max_N (map input_tokens (u :: us)) /\ output_tokens w = max_N (map output_tokens (u :: us)) /\
    cache_creation_input_tokens w = max_N (map cache_creation_input_tokens (u :: us)) /\
    cache_read_input_tokens w = max_N (map cache_read_input_tokens (u :: us)) /\
    default 0%N (cost_units w) = max_N (map (fun u => default 0%N (cost_units u)) (u :: us)) /\
    reported_total_tokens w = reported_total_tokens u.
Proof.
  intros Hr. exists (fold_left merge_frame us u). cbn [foldl]. rewrite (frames_receipt us _ u) by (cbn; by rewrite Hr).
  split_and!; [done|by apply frames_max..| |].
  - apply (frames_max (fun u => default 0%N (cost_units u))). intros a b. cbn.
    destruct (cost_units a), (cost_units b); cbn; lia.
  - clear Hr. revert u. induction us as [|v us IH]; intros u; [done|]. cbn. by rewrite IH.
Qed.

Definition frame_ex (total input : N) : TokenUsage :=
  {| reported_total_tokens := Some total; input_tokens := input; output_tokens := 0; cache_creation_input_tokens := 0;
     cache_read_input_tokens := 0; cost_units := None; cost_currency := None |}.

Lemma frames_are_billed_once_witness :
  exists w, rc_usage (foldl (fun r u => receive_frame u r) {| rc_run_id := "r"; rc_attempt_id := 1; rc_usage := None |}
                        [frame_ex 10 4; frame_ex 25 9; frame_ex 10 4]) = Some w /\ input_tokens w = 9%N.
Proof.
  destruct (frames_are_billed_once {| rc_run_id := "r"; rc_attempt_id := 1; rc_usage := None |} (frame_ex 10 4)
    [frame_ex 25 9; frame_ex 10 4] eq_refl) as (w & Hw & Hi & _). exists w. split; [exact Hw|]. rewrite Hi. reflexivity.
Defined.

(** Of two cumulative frames the receipt keeps the smaller reported total. *)
Theorem receipt_keeps_a_stale_total :
  reported_total_tokens (merge_frame (frame_ex 10 4) (frame_ex 25 9)) = Some 10%N /\
  input_tokens (merge_frame (frame_ex 10 4) (frame_ex 25 9)) = 9%N.
Proof. split; reflexivity. Qed.
