(* ===== verification/SummaryCompression.v ===== *)
(** * Summary compression (runtime/src/summary_compression.rs)

    A free text that a lane reports is cut to a budget of lines and characters: its lines are
    normalised and stripped of duplicates, the most telling ones are kept in their order, and a notice
    says how many were left out. *)
From S2P Require Import Prelude.
From stdpp Require Import list gmap strings sorting.
From S2P Require Import RustStr SortedList.

#[local] Notation nl := (String (ascii_of_nat 10) "").

Record SummaryCompressionBudget := { max_chars : nat; max_lines : nat; max_line_chars : nat }.

Definition budget_default : SummaryCompressionBudget :=
  {| max_chars := N.to_nat 1200; max_lines := 24; max_line_chars := 160 |}.

Record SummaryCompressionResult := {
  sr_summary : string;
  sr_original_chars : nat;
  sr_compressed_chars : nat;
  sr_original_lines : nat;
  sr_compressed_lines : nat;
  sr_removed_duplicate_lines : nat;
  sr_omitted_lines : nat;
  sr_truncated : bool
}.

(** ** Lines *)

Definition collapse_inline_whitespace (line : string) : string := join " " (split_whitespace line).

Definition truncate_line (line : string) (max : nat) : string :=
  if (max =? 0) || (chars_count line <=? max) then line
  else if max =? 1 then "…"
  else (chars_take (max - 1) line ++ "…")%string.

Definition dedupe_key (line : string) : string := to_ascii_lowercase line.

(** The lines kept and the number of duplicates, with the keys seen so far. *)
Fixpoint normalize_from (seen : gset string) (max : nat) (raw : list string) : list string * nat :=
  match raw with
  | [] => ([], 0)
  | raw_line :: raw =>
      let normalized := collapse_inline_whitespace raw_line in
      if is_empty normalized then normalize_from seen max raw
      else
        let truncated := truncate_line normalized max in
        let key := dedupe_key truncated in
        if decide (key ∈ seen)
        then let '(ls, removed) := normalize_from seen max raw in (ls, S removed)
        else let '(ls, removed) := normalize_from ({[ key ]} ∪ seen) max raw in (truncated :: ls, removed)
  end.

Definition normalize_lines (summary : string) (max : nat) : list string * nat :=
  normalize_from ∅ max (RustStr.lines summary).

Definition CORE_DETAILS : list string :=
  ["- Scope:"; "- Current work:"; "- Pending work:"; "- Key files referenced:"; "- Tools mentioned:";
   "- Recent user requests:"; "- Previously compacted context:"; "- Newly compacted context:"].

Definition is_core_detail (line : string) : bool := existsb (starts_with line) CORE_DETAILS.
Definition is_section_header (line : string) : bool := ends_with line ":".

Definition line_priority (line : string) : nat :=
  if String.eqb line "Summary:" || String.eqb line "Conversation summary:" || is_core_detail line then 0
  else if is_section_header line then 1
  else if starts_with line "- " || starts_with line "  - " then 2
  else 3.

Definition omission_notice (omitted_lines : nat) : string :=
  ("- … " ++ pretty omitted_lines ++ " additional line(s) omitted.")%string.

Definition joined_char_count (ls : list string) : nat := sum_list (map chars_count ls) + (length ls - 1).

(** ** The selection *)

Definition fits (budget : SummaryCompressionBudget) (candidate : list string) : bool :=
  (length candidate <=? max_lines budget) && (joined_char_count candidate <=? max_chars budget).

Definition lines_at (ls : list string) (selected : list nat) : list string := map (fun i => nth i ls "") selected.

Definition select_line (ls : list string) (budget : SummaryCompressionBudget) (priority : nat)
  (selected : list nat) (entry : nat * string) : list nat :=
  let '(index, line) := entry in
  if bool_decide (index ∈ selected) || negb (line_priority line =? priority) then selected
  else if fits budget (lines_at ls selected ++ [line]) then insert_by Nat.leb index selected
  else selected.

Definition select_priority (ls : list string) (budget : SummaryCompressionBudget) (selected : list nat)
  (priority : nat) : list nat :=
  fold_left (select_line ls budget priority) (imap pair ls) selected.

(** The [BTreeSet] of indexes, in its order. *)
Definition select_line_indexes (ls : list string) (budget : SummaryCompressionBudget) : list nat :=
  fold_left (select_priority ls budget) [0; 1; 2; 3] [].

Definition push_line_with_budget (ls : list string) (line : string) (budget : SummaryCompressionBudget) : list string :=
  if fits budget (ls ++ [line]) then ls ++ [line] else ls.

(** ** The compression *)

Definition compressed (ls : list string) (budget : SummaryCompressionBudget) : list string * nat :=
  let selected := lines_at ls (select_line_indexes ls budget) in
  let kept := match selected with
              | [] => [truncate_line (nth 0 ls "") (max_chars budget)]
              | _ => selected
              end in
  let omitted := length ls - length kept in
  (if 0 <? omitted then push_line_with_budget kept (omission_notice omitted) budget else kept, omitted).

Definition compress_summary (summary : string) (budget : SummaryCompressionBudget) : SummaryCompressionResult :=
  let original_chars := chars_count summary in
  let original_lines := length (RustStr.lines summary) in
  let '(ls, removed) := normalize_lines summary (max_line_chars budget) in
  if match ls with [] => true | _ => false end || (max_chars budget =? 0) || (max_lines budget =? 0)
  then {| sr_summary := ""; sr_original_chars := original_chars; sr_compressed_chars := 0;
          sr_original_lines := original_lines; sr_compressed_lines := 0; sr_removed_duplicate_lines := removed;
          sr_omitted_lines := length ls; sr_truncated := 0 <? original_chars |}
  else
    let '(kept, omitted) := compressed ls budget in
    let text := join nl kept in
    {| sr_summary := text; sr_original_chars := original_chars; sr_compressed_chars := chars_count text;
       sr_original_lines := original_lines; sr_compressed_lines := length kept;
       sr_removed_duplicate_lines := removed; sr_omitted_lines := omitted;
       sr_truncated := negb (String.eqb text (trim summary)) |}.

Definition compress_summary_text (summary : string) : string := sr_summary (compress_summary summary budget_default).

(** ** The budget *)

Lemma joined_perm l k : l ≡ₚ k -> joined_char_count l = joined_char_count k.
Proof.
  intros H. unfold joined_char_count. rewrite (Permutation_length H). f_equal.
  induction H as [|x l k _ IH|x y l|l k m _ IH1 _ IH2]; cbn; lia.
Qed.

Lemma joined_chars l : chars_count (join nl l) = joined_char_count l.
Proof.
  unfold joined_char_count. induction l as [|x l IH]; [done|]. destruct l as [|y l]; [cbn; lia|].
  change (join nl (x :: y :: l)) with (x ++ nl ++ join nl (y :: l))%string.
  change (sum_list (map chars_count (x :: y :: l))) with (chars_count x + sum_list (map chars_count (y :: l))).
  rewrite !chars_count_app, IH. change (chars_count nl) with 1. cbn [length]. lia.
Qed.

Lemma truncated_chars line max : 0 < max -> chars_count (truncate_line line max) <= max.
Proof.
  intros Hm. unfold truncate_line. destruct (Nat.eqb_spec max 0); [lia|]. cbn [orb].
  destruct (Nat.leb_spec (chars_count line) max); [done|]. destruct (Nat.eqb_spec max 1) as [->|]; [done|].
  rewrite chars_count_app, chars_count_take. change (chars_count "…") with 1. lia.
Qed.

(** Every selection is within the budget, of lines that exist, and strictly in order. *)
Definition selection_ok (ls : list string) (budget : SummaryCompressionBudget) (selected : list nat) : Prop :=
  (selected = [] \/ fits budget (lines_at ls selected) = true) /\
  Forall (fun i => i < length ls) selected /\ StronglySorted lt selected.

Lemma insert_index_sorted i l : i ∉ l -> StronglySorted lt l -> StronglySorted lt (insert_by Nat.leb i l).
Proof.
  intros Hi H. induction H as [|x l Hl IH Hx]; cbn; [repeat constructor|]. apply not_elem_of_cons in Hi as [Hne Hi].
  destruct (Nat.leb_spec i x).
  - constructor; [by constructor|]. constructor; [lia|]. eapply Forall_impl; [exact Hx|]. cbn. lia.
  - constructor; [by apply IH|]. rewrite insert_by_Permutation. constructor; [lia|done].
Qed.

Lemma select_line_ok ls budget priority selected index line :
  ls !! index = Some line -> selection_ok ls budget selected ->
  selection_ok ls budget (select_line ls budget priority selected (index, line)).
Proof.
  intros Hl Hok. pose proof Hok as (Hf & Hb & Hs). unfold select_line. destruct (bool_decide (index ∈ selected)) eqn:Ei; cbn [orb]; [done|].
  apply bool_decide_eq_false in Ei. destruct (negb _); [done|].
  destruct (fits budget (lines_at ls selected ++ [line])) eqn:E; [|exact Hok]. split_and!.
  - right. rewrite <- E. unfold fits.
    assert (lines_at ls (insert_by Nat.leb index selected) ≡ₚ lines_at ls selected ++ [line]) as P.
    { unfold lines_at. rewrite insert_by_Permutation. cbn [map]. rewrite Permutation_app_comm. cbn.
      by rewrite (nth_lookup_Some _ _ _ _ Hl). }
    by rewrite (Permutation_length P), (joined_perm _ _ P).
  - rewrite insert_by_Permutation. constructor; [|done]. by apply lookup_lt_Some in Hl.
  - by apply insert_index_sorted.
Qed.

Lemma select_priority_ok ls budget priority selected :
  selection_ok ls budget selected -> selection_ok ls budget (select_priority ls budget selected priority).
Proof.
  unfold select_priority. intros H.
  assert (forall p, p ∈ imap pair ls -> ls !! p.1 = Some p.2) as K.
  { intros [i l] Hp. apply elem_of_lookup_imap in Hp as (j & x & [= -> ->] & Hx). done. }
  revert selected H K. generalize (imap pair ls) as entries.
  induction entries as [|[i l] entries IH]; intros selected H K; [done|]. cbn [fold_left]. apply IH.
  - apply select_line_ok; [|done]. apply (K (i, l)). left.
  - intros p Hp. apply K. by right.
Qed.

Lemma select_ok ls budget : selection_ok ls budget (select_line_indexes ls budget).
Proof.
  unfold select_line_indexes. cbn [fold_left]. do 4 apply select_priority_ok.
  split_and!; [by left|constructor|constructor].
Qed.

Lemma ordered_sublist ls : forall offset selected, StronglySorted lt selected ->
  Forall (fun i => offset <= i < offset + length ls) selected ->
  map (fun i => nth (i - offset) ls "") selected `sublist_of` ls.
Proof.
  induction ls as [|x ls IH]; intros offset selected Hs Hb; cbn [length] in Hb.
  - destruct selected as [|i selected]; [constructor|]. apply Forall_cons in Hb as [Hb _]. lia.
  - destruct selected as [|i selected]; [apply sublist_nil_l|]. apply StronglySorted_inv in Hs as [Hs Hi].
    apply Forall_cons in Hb as [Hi' Hb].
    assert (forall sel, Forall (fun j => S offset <= j) sel ->
      map (fun j => nth (j - offset) (x :: ls) "") sel = map (fun j => nth (j - S offset) ls "") sel) as Shift.
    { intros sel. induction 1 as [|j sel Hj _ IHj]; [done|]. cbn [map]. rewrite IHj.
      by replace (j - offset) with (S (j - S offset)) by lia. }
    destruct (decide (i = offset)) as [->|Hne].
    + cbn [map]. rewrite Nat.sub_diag. cbn [nth]. apply sublist_skip.
      rewrite Shift by (eapply Forall_impl; [exact Hi|]; cbn; lia). apply IH; [done|].
      apply Forall_forall. intros j Hj. rewrite Forall_forall in Hb, Hi. specialize (Hb j Hj). specialize (Hi j Hj). lia.
    + apply sublist_cons. rewrite Shift.
      * apply IH; [by constructor|]. constructor; [lia|]. apply Forall_forall. intros j Hj.
        rewrite Forall_forall in Hb, Hi. specialize (Hb j Hj). specialize (Hi j Hj). lia.
      * constructor; [lia|]. eapply Forall_impl; [exact Hi|]. cbn. lia.
Qed.

Lemma kept_in_budget ls budget :
  ls <> [] -> 0 < max_chars budget -> 0 < max_lines budget ->
  fits budget (compressed ls budget).1 = true.
Proof.
  intros Hls Hc Hn. unfold compressed. destruct (select_ok ls budget) as (Hf & _).
  set (kept := match lines_at ls (select_line_indexes ls budget) with [] => _ | _ => _ end).
  assert (fits budget kept = true) as Hk.
  { subst kept. destruct (lines_at ls (select_line_indexes ls budget)) as [|l0 rest] eqn:E.
    - unfold fits, joined_char_count. cbn [length map]. unfold sum_list.
      pose proof (truncated_chars (nth 0 ls "") (max_chars budget) Hc). set (n := chars_count _) in *.
      apply andb_true_iff. split; apply Nat.leb_le; cbn; lia.
    - destruct Hf as [Hf|Hf]; [|done]. by rewrite Hf in E. }
  cbn [fst]. destruct (0 <? _); [|done]. unfold push_line_with_budget. by destruct (fits budget (kept ++ _)) eqn:E.
Qed.

(** A compressed summary keeps to its budget of lines and characters, and states its own size. *)
Theorem compression_keeps_its_budget summary budget :
  let r := compress_summary summary budget in
  chars_count (sr_summary r) <= max_chars budget /\ sr_compressed_lines r <= max_lines budget /\
  sr_compressed_chars r = chars_count (sr_summary r).
Proof.
  unfold compress_summary. destruct (normalize_lines summary (max_line_chars budget)) as [ls removed].
  destruct (_ || _) eqn:E; [cbn; split_and!; lia|]. apply orb_false_iff in E as [E En]. apply orb_false_iff in E as [El Ec].
  apply Nat.eqb_neq in En, Ec. pose proof (kept_in_budget ls budget) as K.
  destruct (compressed ls budget) as [kept omitted]. cbn [fst] in K. cbn.
  unfold fits in K. rewrite joined_chars.
  assert ((length kept <=? max_lines budget) && (joined_char_count kept <=? max_chars budget) = true) as H
    by (apply K; [by destruct ls|lia|lia]).
  apply andb_true_iff in H as [H1 H2]. apply Nat.leb_le in H1, H2. done.
Qed.

(** What it keeps: lines of the normalised text in their order, with a notice behind them that counts
    the rest; only a text no line of which fits is cut inside its first line. *)
Theorem compression_keeps_lines_in_order ls budget :
  let '(kept, omitted) := compressed ls budget in
  exists prefix, (kept = prefix \/ kept = prefix ++ [omission_notice omitted]) /\
    omitted = length ls - length prefix /\
    (prefix `sublist_of` ls \/ prefix = [truncate_line (nth 0 ls "") (max_chars budget)]).
Proof.
  unfold compressed. destruct (select_ok ls budget) as (_ & Hb & Hs).
  set (kept := match lines_at ls (select_line_indexes ls budget) with [] => _ | _ => _ end).
  exists kept. split_and!; [|done|].
  - destruct (0 <? _); [|by left]. unfold push_line_with_budget. destruct (fits budget _); auto.
  - subst kept. destruct (lines_at ls (select_line_indexes ls budget)) eqn:E; [by right|]. left. rewrite <- E.
    unfold lines_at. set (sel := select_line_indexes ls budget) in *.
    replace (map (fun i => nth i ls "") sel) with (map (fun i => nth (i - 0) ls "") sel)
      by (apply map_ext; intros; by rewrite Nat.sub_0_r).
    apply (ordered_sublist ls 0 sel Hs). eapply Forall_impl; [exact Hb|]. cbn. lia.
Qed.

(** Two lines of the normalised text are never the same, whatever their case. *)
Lemma normalized_fresh raw seen max :
  let ls := (normalize_from seen max raw).1 in
  NoDup (map dedupe_key ls) /\ Forall (fun l => dedupe_key l ∉ seen) ls.
Proof.
  revert seen. induction raw as [|line raw IH]; intros seen; cbn [normalize_from]; [split; constructor|].
  destruct (is_empty _); [apply IH|]. destruct (decide _) as [Hin|Hin].
  - specialize (IH seen). by destruct (normalize_from seen max raw).
  - specialize (IH ({[ dedupe_key (truncate_line (collapse_inline_whitespace line) max) ]} ∪ seen)).
    destruct (normalize_from _ max raw) as [ls removed]. cbn [fst] in *. destruct IH as [H1 H2]. split.
    + cbn [map]. constructor; [|done]. intros H. apply list_elem_of_fmap in H as (l & El & Hl).
      rewrite Forall_forall in H2. specialize (H2 l Hl). set_solver.
    + constructor; [done|]. eapply Forall_impl; [exact H2|]. cbn. set_solver.
Qed.

Example compression_demo :
  compress_summary_text ("Summary:" ++ nl ++ "  some   detail" ++ nl ++ "Some detail" ++ nl ++ "- Scope: all")%string
  = ("Summary:" ++ nl ++ "some detail" ++ nl ++ "- Scope: all")%string.
Proof. vm_compute. reflexivity. Qed.
