(* ===== verification/UsageAccounting.v ===== *)
(** * Usage accounting (runtime/src/usage.rs, runtime/src/session.rs)

    [UsageTracker] is what a session shows as its bill.  It is kept while turns run, rebuilt
    from the session's messages, compaction and maintenance receipts on resume, and must say
    the same either way. *)
From S2P Require Import Prelude.
From stdpp Require Import list.
From S2P Require Import Conversation CompactionScope Compaction.

Definition has_complete_token_breakdown (u : TokenUsage) : bool :=
  match reported_total_tokens u with Some total => (total =? known_total_tokens u)%N | None => true end.

Definition context_tokens (u : TokenUsage) : option N :=
  if has_complete_token_breakdown u
  then Some (u32_saturating_add (u32_saturating_add (input_tokens u) (cache_creation_input_tokens u)) (cache_read_input_tokens u))
  else None.

Record UsageTracker := {
  ut_latest_turn : TokenUsage;
  ut_current_turn_total : TokenUsage;
  ut_current_turn_cost : UsageCostAggregation;
  ut_context_tokens : option N;
  ut_cumulative : TokenUsage;
  ut_cumulative_cost : UsageCostAggregation;
  ut_unknown_maintenance_receipts : nat;
  ut_turns : N;
  ut_latest_turn_duration_ms : option N;
  ut_cumulative_duration_ms : N
}.

Definition tracker_new : UsageTracker :=
  {| ut_latest_turn := usage_default; ut_current_turn_total := usage_default; ut_current_turn_cost := cost_default;
     ut_context_tokens := None; ut_cumulative := usage_default; ut_cumulative_cost := cost_default;
     ut_unknown_maintenance_receipts := 0; ut_turns := 0; ut_latest_turn_duration_ms := None;
     ut_cumulative_duration_ms := 0 |}.

Definition set_totals (cumulative : TokenUsage) (cost : UsageCostAggregation) (unknown : nat) (t : UsageTracker) : UsageTracker :=
  {| ut_latest_turn := ut_latest_turn t; ut_current_turn_total := ut_current_turn_total t;
     ut_current_turn_cost := ut_current_turn_cost t; ut_context_tokens := ut_context_tokens t;
     ut_cumulative := cumulative; ut_cumulative_cost := cost; ut_unknown_maintenance_receipts := unknown;
     ut_turns := ut_turns t; ut_latest_turn_duration_ms := ut_latest_turn_duration_ms t;
     ut_cumulative_duration_ms := ut_cumulative_duration_ms t |}.

(** A sum of usages and of their costs, the cost written into the sum. *)
Definition add_usage (total : TokenUsage) (cost : UsageCostAggregation) (u : TokenUsage) :
  TokenUsage * UsageCostAggregation :=
  let cost := cost_push cost u in (cost_apply_to cost (add_assign_token_counts total u), cost).

Definition record_maintenance (u : TokenUsage) (t : UsageTracker) : UsageTracker :=
  let '(total, cost) := add_usage (ut_cumulative t) (ut_cumulative_cost t) u in
  set_totals total cost (ut_unknown_maintenance_receipts t) t.

Definition set_unknown_maintenance_receipts (count : nat) (t : UsageTracker) : UsageTracker :=
  set_totals (ut_cumulative t) (ut_cumulative_cost t) count t.

Definition clear_context_usage (t : UsageTracker) : UsageTracker :=
  {| ut_latest_turn := ut_latest_turn t; ut_current_turn_total := ut_current_turn_total t;
     ut_current_turn_cost := ut_current_turn_cost t; ut_context_tokens := None; ut_cumulative := ut_cumulative t;
     ut_cumulative_cost := ut_cumulative_cost t;
     ut_unknown_maintenance_receipts := ut_unknown_maintenance_receipts t; ut_turns := ut_turns t;
     ut_latest_turn_duration_ms := ut_latest_turn_duration_ms t;
     ut_cumulative_duration_ms := ut_cumulative_duration_ms t |}.

Definition begin_turn (t : UsageTracker) : UsageTracker :=
  {| ut_latest_turn := ut_latest_turn t; ut_current_turn_total := usage_default;
     ut_current_turn_cost := cost_default; ut_context_tokens := ut_context_tokens t;
     ut_cumulative := ut_cumulative t; ut_cumulative_cost := ut_cumulative_cost t;
     ut_unknown_maintenance_receipts := ut_unknown_maintenance_receipts t; ut_turns := ut_turns t;
     ut_latest_turn_duration_ms := ut_latest_turn_duration_ms t;
     ut_cumulative_duration_ms := ut_cumulative_duration_ms t |}.

Definition record (u : TokenUsage) (t : UsageTracker) : UsageTracker :=
  let '(turn, turn_cost) := add_usage (ut_current_turn_total t) (ut_current_turn_cost t) u in
  let '(total, cost) := add_usage (ut_cumulative t) (ut_cumulative_cost t) u in
  {| ut_latest_turn := u; ut_current_turn_total := turn; ut_current_turn_cost := turn_cost;
     ut_context_tokens := context_tokens u; ut_cumulative := total; ut_cumulative_cost := cost;
     ut_unknown_maintenance_receipts := ut_unknown_maintenance_receipts t;
     ut_turns := u32_saturating_add (ut_turns t) 1; ut_latest_turn_duration_ms := ut_latest_turn_duration_ms t;
     ut_cumulative_duration_ms := ut_cumulative_duration_ms t |}.

Definition record_turn_duration (ms : N) (t : UsageTracker) : UsageTracker :=
  {| ut_latest_turn := ut_latest_turn t; ut_current_turn_total := ut_current_turn_total t;
     ut_current_turn_cost := ut_current_turn_cost t; ut_context_tokens := ut_context_tokens t;
     ut_cumulative := ut_cumulative t; ut_cumulative_cost := ut_cumulative_cost t;
     ut_unknown_maintenance_receipts := ut_unknown_maintenance_receipts t; ut_turns := ut_turns t;
     ut_latest_turn_duration_ms := Some ms;
     ut_cumulative_duration_ms := u64_saturating_add (ut_cumulative_duration_ms t) ms |}.

Definition current_context_usage (t : UsageTracker) : option N := ut_context_tokens t.
Definition current_context_tokens (t : UsageTracker) : N := default 0%N (ut_context_tokens t).
Definition current_turn_usage (t : UsageTracker) : TokenUsage := ut_latest_turn t.
Definition current_turn_total_usage (t : UsageTracker) : TokenUsage := ut_current_turn_total t.
Definition turn_usage_if_recorded (turns_before : N) (t : UsageTracker) : option TokenUsage :=
  if (turns_before <? ut_turns t)%N then Some (ut_latest_turn t) else None.

Definition without_cost (u : TokenUsage) : TokenUsage :=
  {| reported_total_tokens := reported_total_tokens u; input_tokens := input_tokens u; output_tokens := output_tokens u;
     cache_creation_input_tokens := cache_creation_input_tokens u; cache_read_input_tokens := cache_read_input_tokens u;
     cost_units := None; cost_currency := None |}.

Definition cumulative_usage (t : UsageTracker) : TokenUsage :=
  if 0 <? ut_unknown_maintenance_receipts t then without_cost (ut_cumulative t) else ut_cumulative t.

(** ** A session's ledger *)

(** What of a session its bill depends on: the usage of its compaction, if there was one, its
    messages and receipts, and whether a compaction reached its target. *)
Record Ledger := {
  lg_compaction : option (option TokenUsage);
  lg_messages : list ConversationMessage;
  lg_receipts : list MaintenanceUsageReceipt;
  lg_achievement : bool
}.

Definition restore_message (t : UsageTracker) (m : ConversationMessage) : UsageTracker :=
  let t := match usage m with Some u => record u t | None => t end in
  match duration_ms m with Some ms => record_turn_duration ms t | None => t end.

Definition unknown_receipts (l : list MaintenanceUsageReceipt) : nat :=
  length (List.filter (fun r => match rc_usage r with None => true | Some _ => false end) l).

Definition restore_receipt (t : UsageTracker) (r : MaintenanceUsageReceipt) : UsageTracker :=
  match rc_usage r with Some u => record_maintenance u t | None => t end.

Definition from_session (s : Ledger) : UsageTracker :=
  let t := match lg_compaction s with Some (Some u) => record u tracker_new | _ => tracker_new end in
  let t := fold_left restore_message (lg_messages s) t in
  let t := match lg_compaction s with
           | Some _ => clear_context_usage t
           | None => if lg_achievement s then clear_context_usage t else t
           end in
  let t := fold_left restore_receipt (lg_receipts s) t in
  set_unknown_maintenance_receipts (unknown_receipts (lg_receipts s)) t.

Definition refresh_session_totals (s : Ledger) (t : UsageTracker) : UsageTracker :=
  let r := from_session s in
  clear_context_usage
    {| ut_latest_turn := ut_latest_turn t; ut_current_turn_total := ut_current_turn_total t;
       ut_current_turn_cost := ut_current_turn_cost t; ut_context_tokens := ut_context_tokens t;
       ut_cumulative := ut_cumulative r; ut_cumulative_cost := ut_cumulative_cost r;
       ut_unknown_maintenance_receipts := ut_unknown_maintenance_receipts r; ut_turns := ut_turns r;
       ut_latest_turn_duration_ms := ut_latest_turn_duration_ms t;
       ut_cumulative_duration_ms := ut_cumulative_duration_ms r |}.

(** ** Receipts (runtime/src/session.rs) *)

Definition same_attempt (r existing : MaintenanceUsageReceipt) : bool :=
  String.eqb (rc_run_id existing) (rc_run_id r) && (rc_attempt_id existing =? rc_attempt_id r)%N.

(** The receipt onto the first of the same attempt; [None] when there is none. *)
Fixpoint settle_receipt (r : MaintenanceUsageReceipt) (l : list MaintenanceUsageReceipt) :
  option (list MaintenanceUsageReceipt * option TokenUsage) :=
  match l with
  | [] => None
  | existing :: l =>
      if same_attempt r existing then
        match rc_usage existing, rc_usage r with
        | None, Some u =>
            Some ({| rc_run_id := rc_run_id existing; rc_attempt_id := rc_attempt_id existing; rc_usage := Some u |} :: l,
                  Some u)
        | _, _ => Some (existing :: l, None)
        end
      else '(l, known) ← settle_receipt r l; Some (existing :: l, known)
  end.

Definition merge_receipt (current : list MaintenanceUsageReceipt) (r : MaintenanceUsageReceipt) :
  list MaintenanceUsageReceipt * list TokenUsage :=
  match settle_receipt r current with
  | Some (current, known) => (current, option_list known)
  | None => (current ++ [r], option_list (rc_usage r))
  end.

Fixpoint merge_maintenance_receipts (current receipts : list MaintenanceUsageReceipt) :
  list MaintenanceUsageReceipt * list TokenUsage :=
  match receipts with
  | [] => (current, [])
  | r :: receipts =>
      let '(current, known) := merge_receipt current r in
      let '(current, later) := merge_maintenance_receipts current receipts in (current, known ++ later)
  end.

(** [record_compaction_maintenance_usage] (runtime/src/conversation.rs) *)
Definition record_compaction_maintenance_usage (new_usage : list TokenUsage) (s : Ledger) (t : UsageTracker) : UsageTracker :=
  set_unknown_maintenance_receipts (unknown_receipts (lg_receipts s)) (fold_left (fun t u => record_maintenance u t) new_usage t).

(** ** A runtime: its session and its tracker *)

Record Runtime := { rt_ledger : Ledger; rt_tracker : UsageTracker }.

Definition resume (s : Ledger) : Runtime := {| rt_ledger := s; rt_tracker := from_session s |}.

Definition with_messages (l : list ConversationMessage) (s : Ledger) : Ledger :=
  {| lg_compaction := lg_compaction s; lg_messages := l; lg_receipts := lg_receipts s; lg_achievement := lg_achievement s |}.
Definition with_receipts (l : list MaintenanceUsageReceipt) (s : Ledger) : Ledger :=
  {| lg_compaction := lg_compaction s; lg_messages := lg_messages s; lg_receipts := l; lg_achievement := lg_achievement s |}.

(** A response's message is saved, its usage recorded. *)
Definition save_response (m : ConversationMessage) (r : Runtime) : Runtime :=
  {| rt_tracker := match usage m with Some u => record u (rt_tracker r) | None => rt_tracker r end;
     rt_ledger := with_messages (lg_messages (rt_ledger r) ++ [m]) (rt_ledger r) |}.

(** The turn's time goes to the tracker and onto the last assistant message. *)
Fixpoint stamp_last_assistant (ms : N) (l : list ConversationMessage) : option (list ConversationMessage) :=
  match l with
  | [] => None
  | m :: l =>
      match stamp_last_assistant ms l with
      | Some l => Some (m :: l)
      | None =>
          match role m with
          | RAssistant =>
              Some ({| history := history m; role := role m; blocks := blocks m; usage := usage m; model := model m;
                       duration_ms := Some ms |} :: l)
          | _ => None
          end
      end
  end.
Definition finish_turn (ms : N) (r : Runtime) : Runtime :=
  {| rt_tracker := record_turn_duration ms (rt_tracker r);
     rt_ledger := with_messages (default (lg_messages (rt_ledger r)) (stamp_last_assistant ms (lg_messages (rt_ledger r)))) (rt_ledger r) |}.

Definition merge_usage_receipts (receipts : list MaintenanceUsageReceipt) (r : Runtime) : Runtime :=
  let '(l, known) := merge_maintenance_receipts (lg_receipts (rt_ledger r)) receipts in
  let s := with_receipts l (rt_ledger r) in
  {| rt_ledger := s; rt_tracker := record_compaction_maintenance_usage known s (rt_tracker r) |}.

(** A compaction replaces the messages before [keep_from] by one without usage, carries their
    usage over, and is installed. *)
Definition compact (keep_from : nat) (continuation : ConversationMessage) (r : Runtime) : Runtime :=
  let s := rt_ledger r in
  {| rt_ledger :=
       {| lg_compaction := Some (aggregate_compaction_usage (lg_compaction s ≫= id) (take keep_from (lg_messages s)));
          lg_messages := continuation :: drop keep_from (lg_messages s); lg_receipts := lg_receipts s;
          lg_achievement := lg_achievement s |};
     rt_tracker := clear_context_usage (rt_tracker r) |}.

(** A durable source that changed is reloaded; the receipts of this run are kept. *)
Definition refresh_source (durable : Ledger) (r : Runtime) : Runtime :=
  let s := with_receipts (merge_maintenance_receipts (lg_receipts durable) (lg_receipts (rt_ledger r))).1 durable in
  {| rt_ledger := s; rt_tracker := refresh_session_totals s (rt_tracker r) |}.

Inductive AccountingStep :=
| BeginTurn
| SaveMessage (m : ConversationMessage)
| FinishTurn (ms : N)
| MergeReceipts (receipts : list MaintenanceUsageReceipt)
| Compact (keep_from : nat) (continuation : ConversationMessage)
| Refresh (durable : Ledger).

Definition accounting_step (r : Runtime) (a : AccountingStep) : Runtime :=
  match a with
  | BeginTurn => {| rt_ledger := rt_ledger r; rt_tracker := begin_turn (rt_tracker r) |}
  | SaveMessage m => save_response m r
  | FinishTurn ms => finish_turn ms r
  | MergeReceipts receipts => merge_usage_receipts receipts r
  | Compact keep_from continuation => compact keep_from continuation r
  | Refresh durable => refresh_source durable r
  end.
