(* ===== verification/UsageSafety.v ===== *)
(** * The bill of a session

    What a bill says of a list of usages is its [summary]: capped sums, whether a total was
    reported, whether every cost is known.  Summaries do not depend on order and survive being
    carried over by a compaction, so the bill that is kept while a session runs is the one its
    saved session restores to. *)
From S2P Require Import Prelude.
From stdpp Require Import list.
From S2P Require Import Conversation CompactionScope Compaction UsageAccounting.

(** ** Summaries *)

Record Summary := {
  sm_input : N;
  sm_output : N;
  sm_write : N;
  sm_read : N;
  sm_total : N;
  sm_reported : bool;
  sm_cost : option N;
  sm_empty : bool
}.

Definition cap32 (n : N) : N := N.min n u32_max.
Definition is_reported (u : TokenUsage) : bool := match reported_total_tokens u with Some _ => true | None => false end.
Definition none_of (us : list TokenUsage) : bool := match us with [] => true | _ => false end.

Definition summary (us : list TokenUsage) : Summary :=
  {| sm_input := cap32 (sum_N (map input_tokens us));
     sm_output := cap32 (sum_N (map output_tokens us));
     sm_write := cap32 (sum_N (map cache_creation_input_tokens us));
     sm_read := cap32 (sum_N (map cache_read_input_tokens us));
     sm_total := cap32 (sum_N (map total_tokens us));
     sm_reported := existsb is_reported us;
     sm_cost := if forallb has_cost us then Some (N.min (sum_N (map cost_of us)) u64_max) else None;
     sm_empty := none_of us |}.

(** The bill a summary makes. *)
Definition bill_of (m : Summary) : TokenUsage :=
  let cost := if sm_empty m then None else sm_cost m in
  {| reported_total_tokens := if sm_reported m then Some (sm_total m) else None;
     input_tokens := sm_input m; output_tokens := sm_output m; cache_creation_input_tokens := sm_write m;
     cache_read_input_tokens := sm_read m; cost_units := cost;
     cost_currency := match cost with Some _ => Some SudoPoint | None => None end |}.

Lemma sum_N_app l k : sum_N (l ++ k) = (sum_N l + sum_N k)%N.
Proof. unfold sum_N. induction l as [|x l IH]; cbn in *; [done|]. rewrite IH. lia. Qed.

Lemma sum_N_perm l k : l ≡ₚ k -> sum_N l = sum_N k.
Proof. unfold sum_N. induction 1; cbn in *; lia. Qed.

#[export] Instance summary_perm : Proper ((≡ₚ) ==> eq) summary.
Proof.
  intros us vs Hp. unfold summary. f_equal; try (f_equal; apply sum_N_perm; by apply Permutation_map).
  - induction Hp; cbn; [done|congruence|by rewrite !orb_assoc, (orb_comm (is_reported y))|congruence].
  - assert (forallb has_cost us = forallb has_cost vs) as ->.
    { induction Hp; cbn; [done|congruence|by rewrite !andb_assoc, (andb_comm (has_cost y))|congruence]. }
    by rewrite (sum_N_perm (map cost_of us) (map cost_of vs)) by (by apply Permutation_map).
  - destruct us, vs; try done; [by apply Permutation_nil_l in Hp|by apply Permutation_nil_r in Hp].
Qed.

Lemma cap_add a b a' b' m : N.min a m = N.min a' m -> N.min b m = N.min b' m -> N.min (a + b) m = N.min (a' + b') m.
Proof. lia. Qed.

Lemma summary_app us us' vs vs' : summary us = summary us' -> summary vs = summary vs' -> summary (us ++ vs) = summary (us' ++ vs').
Proof.
  intros [= H1 H2 H3 H4 H5 H6 H7 H8] [= K1 K2 K3 K4 K5 K6 K7 K8]. unfold summary, cap32 in *.
  rewrite !map_app, !sum_N_app, !existsb_app, !forallb_app, H6, K6.
  f_equal; try (by apply cap_add).
  - destruct (forallb has_cost us), (forallb has_cost us'), (forallb has_cost vs), (forallb has_cost vs'); try done.
    cbn. f_equal. apply cap_add; congruence.
  - destruct us, us', vs, vs'; done.
Qed.

(** ** The code's sums are summaries *)

Definition tally (us : list TokenUsage) : UsageAggregation := fold_left agg_push us agg_default.

Lemma tally_snoc us u : tally (us ++ [u]) = agg_push (tally us) u.
Proof. unfold tally. by rewrite fold_left_app. Qed.

Lemma tally_counter (f : TokenUsage -> N) us :
  (forall a u, f (agg_total (agg_push a u)) = u32_saturating_add (f (agg_total a)) (f u)) -> f usage_default = 0%N ->
  f (agg_total (tally us)) = cap32 (sum_N (map f us)).
Proof.
  intros Hf H0. unfold tally. rewrite (fold_counter f (fun a => f (agg_total a))) by (done || (cbn; rewrite H0; unfold u32_max; lia)).
  cbn [agg_default agg_total]. by rewrite H0.
Qed.

Lemma cap_l a b : cap32 (cap32 a + b) = cap32 (a + b).
Proof. unfold cap32. lia. Qed.
Lemma cap_r a b : cap32 (a + cap32 b) = cap32 (a + b).
Proof. unfold cap32. lia. Qed.

Lemma cap_four a b c d : cap32 (cap32 a + cap32 b + cap32 c + cap32 d) = cap32 (a + b + c + d).
Proof. unfold cap32. lia. Qed.

Definition known_sum (u : TokenUsage) : N :=
  (input_tokens u + output_tokens u + cache_creation_input_tokens u + cache_read_input_tokens u)%N.

Lemma known_cap u : known_total_tokens u = cap32 (known_sum u).
Proof. unfold known_total_tokens, u32_saturating_add. fold (cap32 (input_tokens u + output_tokens u)). unfold known_sum, cap32. lia. Qed.

Lemma known_add u v : known_total_tokens (add_assign_token_counts u v) = cap32 (known_sum u + known_sum v).
Proof.
  rewrite known_cap. unfold known_sum. cbn [add_assign_token_counts input_tokens output_tokens cache_creation_input_tokens cache_read_input_tokens].
  unfold u32_saturating_add. fold (cap32 (input_tokens u + input_tokens v)) (cap32 (output_tokens u + output_tokens v))
    (cap32 (cache_creation_input_tokens u + cache_creation_input_tokens v)) (cap32 (cache_read_input_tokens u + cache_read_input_tokens v)).
  rewrite cap_four. f_equal. lia.
Qed.

Lemma add_total u v : total_tokens (add_assign_token_counts u v) = u32_saturating_add (total_tokens u) (total_tokens v).
Proof.
  unfold total_tokens at 1. rewrite known_add. cbn [add_assign_token_counts reported_total_tokens].
  change (u32_saturating_add (total_tokens u) (total_tokens v)) with (cap32 (total_tokens u + total_tokens v)).
  assert (cap32 (known_sum u) <= total_tokens u)%N as Hu by (unfold total_tokens; rewrite known_cap; lia).
  assert (cap32 (known_sum v) <= total_tokens v)%N as Hv by (unfold total_tokens; rewrite known_cap; lia).
  rewrite <- (cap_l (known_sum u)), <- (cap_r _ (known_sum v)).
  destruct (reported_total_tokens u) eqn:Eu, (reported_total_tokens v) eqn:Ev; cbn [default from_option id];
    try (unfold cap32 in *; lia).
  unfold total_tokens. rewrite Eu, Ev, !known_cap. cbn [default from_option id]. by rewrite !N.max_0_l.
Qed.

Lemma tally_total us : total_tokens (agg_total (tally us)) = cap32 (sum_N (map total_tokens us)).
Proof. apply tally_counter; [|done]. intros a u. apply add_total. Qed.

Lemma tally_reported us :
  reported_total_tokens (agg_total (tally us)) =
  if existsb is_reported us then Some (cap32 (sum_N (map total_tokens us))) else None.
Proof.
  induction us as [|u us IH] using rev_ind; [done|]. rewrite tally_snoc, existsb_app, map_app, sum_N_app. cbn [agg_push agg_total].
  unfold add_assign_token_counts. cbn [reported_total_tokens existsb map]. rewrite orb_false_r.
  assert (u32_saturating_add (total_tokens (agg_total (tally us))) (total_tokens u) = cap32 (sum_N (map total_tokens us) + sum_N [total_tokens u])) as ->.
  { rewrite tally_total. unfold u32_saturating_add, cap32. cbn. lia. }
  rewrite IH. destruct (existsb is_reported us); unfold is_reported; by destruct (reported_total_tokens u).
Qed.

Lemma tally_bill us : agg_finish (tally us) = bill_of (summary us).
Proof.
  unfold agg_finish, cost_apply_to, bill_of. cbn [summary sm_reported sm_total sm_input sm_output sm_write sm_read sm_empty sm_cost].
  rewrite tally_reported, !tally_counter by done.
  assert (cost_count cost_default + invalid_cost_count cost_default <= usage_count cost_default) as Hc0 by (cbn; lia).
  destruct (fold_cost us agg_default cost_default eq_refl Hc0 ltac:(done)) as (H1 & H2 & H3 & H4). fold (tally us) in *.
  cbn [cost_default usage_count cost_count cost_units_sum Nat.add] in *. rewrite H1, H2, H4 in *.
  assert ((0 <? length us) && (length (List.filter has_cost us) =? length us) && (invalid_cost_count (agg_cost (tally us)) =? 0)
    = negb (none_of us) && forallb has_cost us) as ->.
  { destruct (forallb has_cost us) eqn:E.
    - apply filter_length_all in E. rewrite E, Nat.eqb_refl, andb_true_r.
      assert (invalid_cost_count (agg_cost (tally us)) = 0) as -> by lia. destruct us; done.
    - rewrite andb_false_r. assert (length (List.filter has_cost us) =? length us = false) as ->; [|by rewrite andb_false_r].
      apply Nat.eqb_neq. intros K. apply filter_length_all in K. congruence. }
  rewrite N.add_0_l. by destruct us as [|u us], (forallb has_cost _).
Qed.

Lemma bill_cost us : us <> [] -> has_cost (bill_of (summary us)) = forallb has_cost us.
Proof. intros Hne. unfold has_cost at 1, bill_of, summary. cbn. destruct us as [|u us]; [done|]. cbn [none_of]. by destruct (forallb _ _). Qed.

Lemma bill_cost_of us : us <> [] ->
  cost_of (bill_of (summary us)) = if forallb has_cost us then N.min (sum_N (map cost_of us)) u64_max else 0%N.
Proof.
  intros Hne. unfold cost_of at 1. rewrite (bill_cost us Hne). unfold bill_of, summary. cbn. destruct us as [|u us]; [done|]. cbn [none_of].
  by destruct (forallb _ _).
Qed.

(** A bill carried over as one usage says what the usages said. *)
Lemma carried_bill us : us <> [] -> summary [bill_of (summary us)] = summary us.
Proof.
  intros Hne. rewrite <- tally_bill.
  assert (forall f : TokenUsage -> N, (forall a u, f (agg_total (agg_push a u)) = u32_saturating_add (f (agg_total a)) (f u)) ->
     f usage_default = 0%N -> (forall a, f (agg_finish a) = f (agg_total a)) ->
     cap32 (sum_N (map f [agg_finish (tally us)])) = cap32 (sum_N (map f us))) as Hf.
  { intros f H1 H2 H3. cbn [map]. rewrite H3, tally_counter by done. unfold cap32, sum_N. cbn. lia. }
  unfold summary at 1. rewrite (Hf input_tokens), (Hf output_tokens), (Hf cache_creation_input_tokens), (Hf cache_read_input_tokens) by done.
  rewrite (Hf total_tokens) by (done || (intros a u; apply add_total)).
  unfold summary at 1. f_equal.
  - cbn [existsb]. rewrite orb_false_r. unfold is_reported at 1. cbn [agg_finish cost_apply_to reported_total_tokens].
    rewrite tally_reported. by destruct (existsb is_reported us).
  - cbn [forallb map]. rewrite andb_true_r, tally_bill, (bill_cost us Hne), (bill_cost_of us Hne).
    destruct (forallb has_cost us); [|done]. generalize (sum_N (map cost_of us)) as n. intros n.
    unfold sum_N. cbn [foldr]. f_equal. lia.
  - by destruct us.
Qed.

(** ** The tracker *)

(** The tracker has billed these usages, and those of the current turn. *)
Definition billed (us : list TokenUsage) (t : UsageTracker) : Prop :=
  ut_cumulative t = agg_finish (tally us) /\ ut_cumulative_cost t = agg_cost (tally us).
Definition turn_billed (us : list TokenUsage) (t : UsageTracker) : Prop :=
  ut_current_turn_total t = agg_finish (tally us) /\ ut_current_turn_cost t = agg_cost (tally us).

Lemma add_tally us u : add_usage (agg_finish (tally us)) (agg_cost (tally us)) u = (agg_finish (tally (us ++ [u])), agg_cost (tally (us ++ [u]))).
Proof. by rewrite tally_snoc. Qed.

Lemma new_billed : billed [] tracker_new.
Proof. done. Qed.

Lemma record_billed us u t : billed us t -> billed (us ++ [u]) (record u t).
Proof. intros [K1 K2]. unfold record, billed. rewrite K1, K2, add_tally. by destruct (add_usage (ut_current_turn_total t) _ u). Qed.

Lemma record_turn_billed us u t : turn_billed us t -> turn_billed (us ++ [u]) (record u t).
Proof. intros [K1 K2]. unfold record, turn_billed. rewrite K1, K2, add_tally. by destruct (add_usage (ut_cumulative t) _ u). Qed.

Lemma maintenance_billed us u t : billed us t -> billed (us ++ [u]) (record_maintenance u t).
Proof. intros [K1 K2]. unfold record_maintenance, billed. by rewrite K1, K2, add_tally. Qed.

Lemma maintenance_turn us u t : turn_billed us t -> turn_billed us (record_maintenance u t).
Proof. intros Ht. unfold record_maintenance. by destruct (add_usage _ _ _). Qed.

Lemma maintenances_billed us vs : forall t, billed us t -> billed (us ++ vs) (fold_left (fun t u => record_maintenance u t) vs t).
Proof.
  revert us. induction vs as [|v vs IH]; intros us t Ht; cbn; [by rewrite app_nil_r|].
  replace (us ++ v :: vs) with ((us ++ [v]) ++ vs) by (by rewrite <- app_assoc). by apply IH, maintenance_billed.
Qed.

(** The usages a session's ledger accounts for. *)
Definition message_usages (l : list ConversationMessage) : list TokenUsage := omap usage l.
Definition receipt_usages (l : list MaintenanceUsageReceipt) : list TokenUsage := omap rc_usage l.
Definition ledger_usages (s : Ledger) : list TokenUsage :=
  option_list (lg_compaction s ≫= id) ++ message_usages (lg_messages s) ++ receipt_usages (lg_receipts s).

Lemma messages_billed l : forall us t, billed us t -> billed (us ++ message_usages l) (fold_left restore_message l t).
Proof.
  unfold message_usages. induction l as [|m l IH]; intros us t Ht; cbn; [by rewrite app_nil_r|].
  assert (billed (us ++ option_list (usage m)) (restore_message t m)) as Hm.
  { unfold restore_message. destruct (usage m); cbn [option_list]; [apply (record_billed _ t0) in Ht|rewrite app_nil_r];
      by destruct (duration_ms m). }
  apply IH in Hm. destruct (usage m); cbn [option_list] in Hm; [by rewrite <- app_assoc in Hm|by rewrite app_nil_r in Hm].
Qed.

Lemma receipts_billed l : forall us t, billed us t -> billed (us ++ receipt_usages l) (fold_left restore_receipt l t).
Proof.
  unfold receipt_usages. induction l as [|r l IH]; intros us t Ht; cbn; [by rewrite app_nil_r|].
  unfold restore_receipt at 2. destruct (rc_usage r) as [u|]; [|by apply IH].
  apply (maintenance_billed _ u), IH in Ht. by rewrite <- app_assoc in Ht.
Qed.

Lemma restored_billed s : billed (ledger_usages s) (from_session s) /\
  ut_unknown_maintenance_receipts (from_session s) = unknown_receipts (lg_receipts s).
Proof.
  split; [|done]. unfold from_session, ledger_usages.
  set (t0 := match lg_compaction s with Some (Some u) => record u tracker_new | _ => tracker_new end).
  assert (billed (option_list (lg_compaction s ≫= id)) t0) as H0.
  { unfold t0. destruct (lg_compaction s) as [[u|]|]; [|exact new_billed..]. exact (record_billed [] u _ new_billed). }
  apply (messages_billed (lg_messages s)) in H0. set (t1 := fold_left restore_message _ t0) in *.
  set (t2 := match lg_compaction s with Some _ => _ | None => _ end).
  assert (billed (option_list (lg_compaction s ≫= id) ++ message_usages (lg_messages s)) t2) as H1
    by (unfold t2; destruct (lg_compaction s); [exact H0|]; by destruct (lg_achievement s)).
  apply (receipts_billed (lg_receipts s)) in H1. rewrite <- app_assoc in H1. exact H1.
Qed.

(** ** Receipts are billed once *)

Lemma settle_usages r l l' known : settle_receipt r l = Some (l', known) ->
  receipt_usages l' ≡ₚ receipt_usages l ++ option_list known.
Proof.
  unfold receipt_usages. revert l' known. induction l as [|e l IH]; intros l' known; cbn; [done|].
  destruct (same_attempt r e).
  - destruct (rc_usage e) as [u|] eqn:Ee, (rc_usage r) as [v|]; intros [= <- <-]; cbn; rewrite ?Ee; try (by rewrite app_nil_r).
    apply Permutation_cons_append.
  - destruct (settle_receipt r l) as [[l1 k1]|]; [|done]. cbn. intros [= <- <-]. cbn.
    destruct (rc_usage e); rewrite (IH _ _ eq_refl); done.
Qed.

Lemma merge_usages receipts : forall current,
  let '(l, known) := merge_maintenance_receipts current receipts in
  receipt_usages l ≡ₚ receipt_usages current ++ known.
Proof.
  induction receipts as [|r receipts IH]; intros current; cbn; [by rewrite app_nil_r|].
  destruct (merge_receipt current r) as [l1 k1] eqn:E1. specialize (IH l1).
  destruct (merge_maintenance_receipts l1 receipts) as [l2 k2]. rewrite IH, app_assoc. f_equiv.
  unfold merge_receipt in E1. destruct (settle_receipt r current) as [[l k]|] eqn:Es; injection E1 as <- <-.
  - by eapply settle_usages.
  - unfold receipt_usages. rewrite omap_app. cbn. by destruct (rc_usage r).
Qed.

(** ** Live and restored *)

(** Only assistant messages carry usage. *)
Definition assistant_usage (m : ConversationMessage) : Prop := usage m <> None -> role m = RAssistant.
Definition sound (s : Ledger) : Prop := Forall assistant_usage (lg_messages s).

Definition step_sound (a : AccountingStep) : Prop :=
  match a with
  | SaveMessage m => assistant_usage m
  | Compact _ continuation => usage continuation = None
  | Refresh durable => sound durable
  | _ => True
  end.

(** The bill that is kept is the one the session accounts for. *)
Definition agrees (r : Runtime) : Prop :=
  sound (rt_ledger r) /\
  (exists us, billed us (rt_tracker r) /\ summary us = summary (ledger_usages (rt_ledger r))) /\
  ut_unknown_maintenance_receipts (rt_tracker r) = unknown_receipts (lg_receipts (rt_ledger r)).

Lemma resume_agrees s : sound s -> agrees (resume s).
Proof.
  intros Hs. destruct (restored_billed s) as [K1 K2]. split_and!; [done| |done]. exists (ledger_usages s). by split.
Qed.

Lemma omap_role l : Forall assistant_usage l ->
  omap (fun m => match role m with RAssistant => usage m | _ => None end) l = message_usages l.
Proof.
  unfold message_usages. induction 1 as [|m l Hm _ IH]; [done|]. cbn. rewrite IH. unfold assistant_usage in Hm.
  destruct (usage m); [by rewrite Hm|]. by destruct (role m).
Qed.

(** A compaction's carried usage stands for what it removed. *)
Lemma compact_summary s k : sound s ->
  summary (option_list (aggregate_compaction_usage (lg_compaction s ≫= id) (take k (lg_messages s)))) =
  summary (option_list (lg_compaction s ≫= id) ++ message_usages (take k (lg_messages s))).
Proof.
  intros Hs. rewrite aggregate_carried. unfold carried. rewrite omap_role by (by apply Forall_take).
  destruct (option_list (lg_compaction s ≫= id) ++ message_usages (take k (lg_messages s))) as [|u us] eqn:E; [done|].
  cbn [option_list]. change (fold_left agg_push (u :: us) agg_default) with (tally (u :: us)). rewrite tally_bill.
  by apply carried_bill.
Qed.

Lemma stamp_usages ms l l' : stamp_last_assistant ms l = Some l' ->
  message_usages l' = message_usages l /\ (Forall assistant_usage l -> Forall assistant_usage l').
Proof.
  revert l'. induction l as [|m l IH]; intros l'; cbn; [done|].
  destruct (stamp_last_assistant ms l) as [l1|] eqn:E.
  - intros [= <-]. destruct (IH _ eq_refl) as [K1 K2]. unfold message_usages in *. cbn. rewrite K1. split; [done|].
    intros [Hm Hl]%Forall_cons. constructor; [done|by apply K2].
  - destruct (role m) eqn:Em; try done. intros [= <-]. split; [done|]. intros [Hm Hl]%Forall_cons. by constructor.
Qed.

Lemma step_agrees a r : agrees r -> step_sound a -> agrees (accounting_step r a).
Proof.
  intros (Hs & (us & Hb & Hsum) & Hu) Ha. destruct a as [|m|ms|receipts|k c|durable]; cbn [accounting_step step_sound] in *.
  - split_and!; [done| |done]. exists us. by split.
  - unfold save_response. split_and!.
    + cbn. apply Forall_app. split; [done|]. by constructor.
    + exists (us ++ option_list (usage m)). split.
      * cbn [rt_tracker]. destruct (usage m); cbn [option_list]; [by apply record_billed|by rewrite app_nil_r].
      * unfold ledger_usages. cbn [rt_ledger with_messages lg_compaction lg_messages lg_receipts]. unfold message_usages. rewrite omap_app.
        rewrite (summary_app us (ledger_usages (rt_ledger r)) (option_list (usage m)) (option_list (usage m))) by done.
        unfold ledger_usages. apply summary_perm. cbn [omap list_omap]. rewrite <- !app_assoc. f_equiv. unfold message_usages. f_equiv.
        rewrite Permutation_app_comm. by destruct (usage m).
    + cbn [rt_tracker rt_ledger with_messages lg_receipts]. destruct (usage m); exact Hu.
  - unfold finish_turn. destruct (stamp_last_assistant ms (lg_messages (rt_ledger r))) as [l|] eqn:E; cbn [default from_option id].
    + destruct (stamp_usages _ _ _ E) as [K1 K2]. split_and!; [by apply K2| |done].
      exists us. split; [done|]. unfold ledger_usages in *. cbn [rt_ledger with_messages lg_compaction lg_messages lg_receipts]. by rewrite K1.
    + split_and!; [done| |done]. exists us. split; [done|]. exact Hsum.
  - unfold merge_usage_receipts. pose proof (merge_usages receipts (lg_receipts (rt_ledger r))) as K.
    destruct (merge_maintenance_receipts _ _) as [l known]. split_and!; [done| |done].
    exists (us ++ known). split.
    + unfold record_compaction_maintenance_usage. cbn [rt_tracker]. by apply (maintenances_billed us known) in Hb.
    + rewrite (summary_app us (ledger_usages (rt_ledger r)) known known) by done. apply summary_perm.
      unfold ledger_usages. cbn [rt_ledger with_receipts lg_compaction lg_messages lg_receipts]. by rewrite K, <- !app_assoc.
  - unfold compact. split_and!; [|exists us; split; [done|]|done].
    + cbn. constructor; [by intros ?|]. by apply Forall_drop.
    + rewrite Hsum. unfold ledger_usages. cbn [rt_ledger lg_compaction lg_messages lg_receipts mbind option_bind id].
      change (message_usages (c :: drop k (lg_messages (rt_ledger r)))) with
        (match usage c with Some u => u :: message_usages (drop k (lg_messages (rt_ledger r))) | None => message_usages (drop k (lg_messages (rt_ledger r))) end).
      rewrite Ha. rewrite <- (take_drop k (lg_messages (rt_ledger r))) at 1. unfold message_usages at 1. rewrite omap_app, <- app_assoc, (app_assoc (option_list _)).
      apply summary_app; [|done]. symmetry. by apply compact_summary.
  - unfold refresh_source. set (s := with_receipts _ durable). destruct (restored_billed s) as [K1 K2].
    split_and!; [exact Ha| |exact K2]. exists (ledger_usages s). by split.
Qed.

Lemma run_agrees steps : forall r, agrees r -> Forall step_sound steps -> agrees (fold_left accounting_step steps r).
Proof.
  induction steps as [|a steps IH]; intros r Hr Hall; [done|]. apply Forall_cons in Hall as [Ha Hall].
  by apply IH; [apply step_agrees|].
Qed.

(** C35. A session costs what it cost.

    However a session goes on (responses saved, turns ended, receipts merged, any number of
    compactions and reloads), the bill the tracker has kept is the one the saved session
    restores to: a compaction carries over exactly what it removes, no receipt is billed
    twice, and a cost is stated only while every part of it is known. *)
Theorem restored_bill_is_the_live_bill s steps :
  sound s -> Forall step_sound steps ->
  let r := fold_left accounting_step steps (resume s) in
  cumulative_usage (rt_tracker r) = cumulative_usage (from_session (rt_ledger r)) /\
  cumulative_usage (rt_tracker r) =
    (if 0 <? unknown_receipts (lg_receipts (rt_ledger r)) then without_cost else id)
      (bill_of (summary (ledger_usages (rt_ledger r)))).
Proof.
  intros Hs Hall r. destruct (run_agrees steps _ (resume_agrees s Hs) Hall) as (_ & (us & [Hb _] & Hsum) & Hu). fold r in Hb, Hsum, Hu.
  destruct (restored_billed (rt_ledger r)) as [[Kb _] Ku].
  unfold cumulative_usage. rewrite Hb, Hu, Kb, Ku, !tally_bill, Hsum. split; [done|]. by destruct (0 <? _).
Qed.

Definition usage_ex (input cost : N) : TokenUsage :=
  {| reported_total_tokens := Some (input + 1)%N; input_tokens := input; output_tokens := 1; cache_creation_input_tokens := 0;
     cache_read_input_tokens := 0; cost_units := Some cost; cost_currency := Some SudoPoint |}.
Definition message_ex (r : MessageRole) (u : option TokenUsage) : ConversationMessage :=
  {| history := None; role := r; blocks := [Text "x"]; usage := u; model := None; duration_ms := None |}.
Definition receipt_ex (u : option TokenUsage) : MaintenanceUsageReceipt :=
  {| rc_run_id := "run"; rc_attempt_id := 1; rc_usage := u |}.
Definition empty_ledger : Ledger := {| lg_compaction := None; lg_messages := []; lg_receipts := []; lg_achievement := false |}.
Definition steps_ex : list AccountingStep :=
  [BeginTurn; SaveMessage (message_ex RUser None); SaveMessage (message_ex RAssistant (Some (usage_ex 10 3))); FinishTurn 250;
   MergeReceipts [receipt_ex None]; MergeReceipts [receipt_ex (Some (usage_ex 4 2))]; Compact 2 (message_ex RSystem None);
   BeginTurn; SaveMessage (message_ex RAssistant (Some (usage_ex 6 1))); MergeReceipts [receipt_ex (Some (usage_ex 4 2))]].

Lemma restored_bill_is_the_live_bill_witness :
  let r := fold_left accounting_step steps_ex (resume empty_ledger) in
  cumulative_usage (rt_tracker r) = cumulative_usage (from_session (rt_ledger r)) /\
  input_tokens (cumulative_usage (rt_tracker r)) = 20%N /\ cost_units (cumulative_usage (rt_tracker r)) = Some 6%N.
Proof.
  intros r. destruct (restored_bill_is_the_live_bill empty_ledger steps_ex) as [K1 K2].
  - constructor.
  - repeat constructor; intros K; try reflexivity; done.
  - split; [exact K1|]. change (fold_left accounting_step steps_ex (resume empty_ledger)) with r in K2. rewrite K2. vm_compute. split; reflexivity.
Defined.

(** A compaction forgets how long the turns it removes took: the live total keeps their time,
    the restored one does not have it. *)
Theorem compaction_forgets_durations :
  let r := fold_left accounting_step steps_ex (resume empty_ledger) in
  ut_cumulative_duration_ms (rt_tracker r) = 250%N /\ ut_cumulative_duration_ms (from_session (rt_ledger r)) = 0%N.
Proof. split; vm_compute; reflexivity. Qed.

(** ** One turn *)

Definition saved_usages (steps : list AccountingStep) : list TokenUsage :=
  omap (fun a => match a with SaveMessage m => usage m | _ => None end) steps.

(** The provider's context that still describes the history, after a step. *)
Definition context_after (c : option N) (a : AccountingStep) : option N :=
  match a with
  | SaveMessage m => match usage m with Some u => context_tokens u | None => c end
  | Compact _ _ | Refresh _ => None
  | _ => c
  end.

Lemma maintenance_run us vs : forall t, turn_billed us t ->
  turn_billed us (fold_left (fun t u => record_maintenance u t) vs t) /\
  ut_context_tokens (fold_left (fun t u => record_maintenance u t) vs t) = ut_context_tokens t.
Proof.
  induction vs as [|v vs IH]; intros t Ht; [done|]. cbn [fold_left].
  destruct (IH (record_maintenance v t)) as [K1 K2]; [by apply maintenance_turn|]. split; [exact K1|]. rewrite K2. done.
Qed.

Lemma step_turn us a r : turn_billed us (rt_tracker r) -> a <> BeginTurn ->
  turn_billed (us ++ saved_usages [a]) (rt_tracker (accounting_step r a)) /\
  ut_context_tokens (rt_tracker (accounting_step r a)) = context_after (ut_context_tokens (rt_tracker r)) a.
Proof.
  intros Ht Hne. unfold saved_usages. destruct a as [|m|ms|receipts|k c|durable]; cbn [accounting_step context_after omap list_omap]; try done.
  - unfold save_response. cbn [rt_tracker]. destruct (usage m); [|by rewrite app_nil_r]. split; [by apply record_turn_billed|].
    unfold record. done.
  - by rewrite app_nil_r.
  - rewrite app_nil_r. unfold merge_usage_receipts. destruct (merge_maintenance_receipts _ _) as [l known].
    cbn [rt_tracker]. unfold record_compaction_maintenance_usage. by destruct (maintenance_run us known _ Ht) as [K1 K2].
  - by rewrite app_nil_r.
  - by rewrite app_nil_r.
Qed.

(** What a turn shows is what the turn used.

    From its start, whatever is compacted, reloaded or billed for maintenance meanwhile, a
    turn's total is the sum of the responses it saved; and the context a provider reported
    is shown only while it describes the history, from that response to the next compaction
    or reload. *)
Theorem turn_bill_is_exact r steps :
  Forall (fun a => a <> BeginTurn) steps ->
  let r' := fold_left accounting_step steps (accounting_step r BeginTurn) in
  current_turn_total_usage (rt_tracker r') = bill_of (summary (saved_usages steps)) /\
  current_context_usage (rt_tracker r') = fold_left context_after steps (current_context_usage (rt_tracker r)).
Proof.
  intros Hall. cbn zeta.
  assert (forall us r0, turn_billed us (rt_tracker r0) ->
    turn_billed (us ++ saved_usages steps) (rt_tracker (fold_left accounting_step steps r0)) /\
    ut_context_tokens (rt_tracker (fold_left accounting_step steps r0)) = fold_left context_after steps (ut_context_tokens (rt_tracker r0))) as K.
  { induction Hall as [|a l Ha _ IH]; intros us r0 H0; cbn [fold_left]; [by rewrite app_nil_r|].
    destruct (step_turn us a r0 H0 Ha) as [K1 K2]. destruct (IH _ _ K1) as [K3 K4]. rewrite K4, K2. split; [|done].
    rewrite <- app_assoc in K3. unfold saved_usages in *. by rewrite <- omap_app in K3. }
  destruct (K [] (accounting_step r BeginTurn)) as [[K1 _] K2]; [done|]. split; [|exact K2].
  unfold current_turn_total_usage. rewrite K1. apply tally_bill.
Qed.

Lemma turn_bill_is_exact_witness :
  let r := fold_left accounting_step (take 6 (tl steps_ex)) (accounting_step (resume empty_ledger) BeginTurn) in
  input_tokens (current_turn_total_usage (rt_tracker r)) = 10%N /\ current_context_usage (rt_tracker r) = None.
Proof.
  intros r. destruct (turn_bill_is_exact (resume empty_ledger) (take 6 (tl steps_ex))) as [K1 K2]; [by repeat constructor|].
  fold r in K1, K2. rewrite K1, K2. split; vm_compute; reflexivity.
Defined.
