(* ===== verification/Cron.v ===== *)
(** * Scheduled jobs: entries, schedules, the store and the service
    (runtime/src/cron_registry.rs, cron_schedule.rs, cron_service.rs)

    A job is an entry of a JSON store that several processes share.  Every operation
    of a registry reloads the store first and writes it back under an exclusive file
    lock, so one operation is one atomic step on the store; an operation of the
    service is a sequence of them.  What the code reads from outside is part of the
    [World]: the clock, whether a write succeeds and how a send ends.  The JSON of the
    store ([StoreJson]) and the cron expression and time zone crates ([CronLib]) are
    dependencies. *)
From S2P Require Import Prelude.
From stdpp Require Import list gmap sorting.
From S2P Require Import RustStr TurnInput.

(** ** Entries *)

Inductive CronKind := KCron | KEvery | KAt.
Inductive CronTarget := NewSession | Agent (name : string).
Inductive CronCreator := CreatedByUser | CreatedByAgent.

#[export] Instance CronKind_eq_dec : EqDecision CronKind.
Proof. solve_decision. Defined.
#[export] Instance CronTarget_eq_dec : EqDecision CronTarget.
Proof. solve_decision. Defined.
#[export] Instance CronCreator_eq_dec : EqDecision CronCreator.
Proof. solve_decision. Defined.

Definition default_max_retries : N := 3.
Definition default_delivery : InputDelivery := Queue.

Record CronEntry := Entry {
  ce_id : string;
  ce_schedule : string;
  ce_prompt : string;
  ce_description : option string;
  ce_enabled : bool;
  ce_created_at : N;
  ce_updated_at : N;
  ce_last_run_at : option N;
  ce_run_count : N;
  ce_name : option string;
  ce_kind : CronKind;
  ce_tz : option string;
  ce_cwd : option string;
  ce_next_run_at : option N;
  ce_last_status : option string;
  ce_last_error : option string;
  ce_retry_count : N;
  ce_max_retries : N;
  ce_target : CronTarget;
  ce_delivery : InputDelivery;
  ce_created_by : CronCreator
}.

#[export] Instance CronEntry_eq_dec : EqDecision CronEntry.
Proof. solve_decision. Defined.

(** The assignments the code makes to an entry's fields, in groups that change together. *)
Definition put_enabled (b : bool) (retries : N) (e : CronEntry) : CronEntry :=
  Entry (ce_id e) (ce_schedule e) (ce_prompt e) (ce_description e) b (ce_created_at e)
    (ce_updated_at e) (ce_last_run_at e) (ce_run_count e) (ce_name e) (ce_kind e) (ce_tz e)
    (ce_cwd e) (ce_next_run_at e) (ce_last_status e) (ce_last_error e) retries
    (ce_max_retries e) (ce_target e) (ce_delivery e) (ce_created_by e).

Definition put_updated_at (t : N) (e : CronEntry) : CronEntry :=
  Entry (ce_id e) (ce_schedule e) (ce_prompt e) (ce_description e) (ce_enabled e)
    (ce_created_at e) t (ce_last_run_at e) (ce_run_count e) (ce_name e) (ce_kind e) (ce_tz e)
    (ce_cwd e) (ce_next_run_at e) (ce_last_status e) (ce_last_error e) (ce_retry_count e)
    (ce_max_retries e) (ce_target e) (ce_delivery e) (ce_created_by e).

Definition put_next_run (n : option N) (e : CronEntry) : CronEntry :=
  Entry (ce_id e) (ce_schedule e) (ce_prompt e) (ce_description e) (ce_enabled e)
    (ce_created_at e) (ce_updated_at e) (ce_last_run_at e) (ce_run_count e) (ce_name e)
    (ce_kind e) (ce_tz e) (ce_cwd e) n (ce_last_status e) (ce_last_error e) (ce_retry_count e)
    (ce_max_retries e) (ce_target e) (ce_delivery e) (ce_created_by e).

Definition put_retry_count (n : N) (e : CronEntry) : CronEntry :=
  put_enabled (ce_enabled e) n e.

(** The body of [record_result]'s change. *)
Definition put_result (status : string) (error : option string) (next_run_at : option N)
    (e : CronEntry) : CronEntry :=
  let fired := String.eqb status "ok" || String.eqb status "error" in
  Entry (ce_id e) (ce_schedule e) (ce_prompt e) (ce_description e) (ce_enabled e)
    (ce_created_at e) (ce_updated_at e)
    (if fired then Some (ce_updated_at e) else ce_last_run_at e)
    (if fired then u64_add (ce_run_count e) 1 else ce_run_count e)
    (ce_name e) (ce_kind e) (ce_tz e) (ce_cwd e) next_run_at (Some status) error
    (if fired then 0%N else ce_retry_count e)
    (ce_max_retries e) (ce_target e) (ce_delivery e) (ce_created_by e).

Record CronCreateParams := {
  cp_schedule : string;
  cp_kind : CronKind;
  cp_prompt : string;
  cp_description : option string;
  cp_name : option string;
  cp_tz : option string;
  cp_cwd : option string;
  cp_target : CronTarget;
  cp_delivery : option InputDelivery;
  cp_created_by : CronCreator
}.

(** The error messages, one constructor per format string. *)
Inductive CronError :=
| BadFieldCount (schedule : string)
| BadExpression (schedule error : string)
| UnknownTimezone (tz : string)
| EveryNotInteger (schedule : string)
| EveryNotPositive
| AtNotTimestamp (schedule : string)
| NeedsAgentName
| NeedsMessage
| CronNotFound (cron_id : string).

(** ** Schedules *)

(** The [cron] and [chrono_tz] crates: parsing an expression (an error message or
    nothing), the known time zones, the instants chrono represents, and the first
    match strictly after an instant in a time zone ([None]: local time). *)
Class CronLib := {
  cron_from_str : string -> option string;
  tz_known : string -> bool;
  utc_representable : N -> bool;
  cron_after : string -> option string -> N -> option Z;
  cron_after_later six tz t n : cron_after six tz t = Some n -> (Z.of_N t < n)%Z
}.

Definition i64_max : N := 9223372036854775807%N.

Section Schedule.
Context {CL : CronLib}.

Definition to_six_field (expr : string) : option string :=
  let fields := split_whitespace expr in
  if length fields =? 5 then Some ("0 " ++ join " " fields)%string
  else if length fields =? 6 then Some (join " " fields)
  else None.

Definition validate (kind : CronKind) (schedule : string) (tz : option string)
  : result CronError unit :=
  match kind with
  | KCron =>
      match to_six_field schedule with
      | None => Err (BadFieldCount schedule)
      | Some six =>
          match cron_from_str six with
          | Some e => Err (BadExpression schedule e)
          | None =>
              match tz with
              | Some tzname => if tz_known tzname then Ok tt else Err (UnknownTimezone tzname)
              | None => Ok tt
              end
          end
      end
  | KEvery =>
      match parse_u64 (trim schedule) with
      | None => Err (EveryNotInteger schedule)
      | Some secs => if (secs =? 0)%N then Err EveryNotPositive else Ok tt
      end
  | KAt =>
      match parse_u64 (trim schedule) with
      | None => Err (AtNotTimestamp schedule)
      | Some _ => Ok tt
      end
  end.

Definition next_cron (expr5 : string) (tz : option string) (after_secs : N) : option N :=
  six ← to_six_field expr5;
  match cron_from_str six with
  | Some _ => None
  | None =>
      if (after_secs <=? i64_max)%N && utc_representable after_secs then
        match tz with
        | Some tzname =>
            if tz_known tzname then
              next ← cron_after six (Some tzname) after_secs; Some (Z.to_N (Z.max next 0))
            else None
        | None => next ← cron_after six None after_secs; Some (Z.to_N (Z.max next 0))
        end
      else None
  end.

Definition next_run_after (e : CronEntry) (after_secs : N) : option N :=
  match ce_kind e with
  | KCron => next_cron (ce_schedule e) (ce_tz e) after_secs
  | KEvery =>
      interval ← parse_u64 (trim (ce_schedule e));
      if (0 <? interval)%N then Some (u64_saturating_add after_secs interval) else None
  | KAt =>
      at_ ← parse_u64 (trim (ce_schedule e));
      if (after_secs <? at_)%N then Some at_ else None
  end.

Definition first_run_at (e : CronEntry) (now_secs : N) : option N :=
  match ce_kind e with
  | KAt => parse_u64 (trim (ce_schedule e))
  | _ => next_run_after e now_secs
  end.

Definition is_due (e : CronEntry) (now_secs : N) : bool :=
  ce_enabled e && match ce_next_run_at e with Some n => (n <=? now_secs)%N | None => false end.

Definition is_one_shot (e : CronEntry) : bool := bool_decide (ce_kind e = KAt).

(** The next run is strictly later, up to the last instant a [u64] can hold. *)
Lemma next_run_after_later e t n :
  next_run_after e t = Some n -> (t < u64_max)%N -> (t < n)%N.
Proof.
  intros H Ht. unfold next_run_after in H.
  destruct (ce_kind e).
  - unfold next_cron in H. repeat (case_hyp H; simplify_option_eq; try done);
      match goal with E : cron_after _ _ _ = Some _ |- _ => apply cron_after_later in E end; lia.
  - destruct (parse_u64 _) as [i|]; [|done]. cbn in H.
    destruct (N.ltb_spec 0 i); [|done]. simplify_eq. unfold u64_saturating_add. lia.
  - destruct (parse_u64 _) as [i|]; [|done]. cbn in H.
    destruct (N.ltb_spec t i); [|done]. by simplify_eq.
Qed.

(** A schedule that was accepted arms a repeating interval or a one-shot. *)
Lemma validated_first_run e now :
  validate (ce_kind e) (ce_schedule e) (ce_tz e) = Ok tt -> ce_kind e <> KCron ->
  is_Some (first_run_at e now).
Proof.
  unfold validate, first_run_at, next_run_after. destruct (ce_kind e); [done| |].
  - destruct (parse_u64 _) as [secs|]; [|done]. cbn.
    destruct (N.eqb_spec secs 0); [done|]. intros _ _.
    destruct (N.ltb_spec 0 secs); [by eexists|lia].
  - by destruct (parse_u64 _).
Qed.

End Schedule.

(** ** The world an operation runs in *)

Inductive StoreFile :=
| NotFound
| Unreadable
| Content (raw : string).

(** The fields of an envelope the sender sets (agent_mailbox.rs). *)
Record MailboxEnvelope := {
  env_delivery : InputDelivery;
  env_from : string;
  env_to : string;
  env_body : string;
  env_summary : option string;
  env_timestamp : N;
  env_color : option string;
  env_kind : string;
  env_request_id : option string
}.

(** What a fire does outside: a message handed to the mailbox, or a session started. *)
Inductive Effect :=
| Sent (cron_id : string) (run : option N) (envelope : MailboxEnvelope)
| Started (cron_id : string) (run : option N) (prompt : string) (cwd : option string).

(** [w_clock] lists the readings to come, [w_faults] tells which of the next writes of
    the store fail, [w_outcomes] how the next fires end; an exhausted list means the
    clock stands still, the write succeeds and the fire succeeds. *)
Record World := {
  w_disk : StoreFile;
  w_now : N;
  w_clock : list N;
  w_faults : list bool;
  w_outcomes : list (result string unit);
  w_effects : list Effect
}.

Definition io (A : Type) : Type := World -> World * A.
#[export] Instance io_ret : MRet io := fun A a w => (w, a).
#[export] Instance io_bind : MBind io := fun A B f m w => let '(w, a) := m w in f a w.

Definition set_disk (w : World) (d : StoreFile) : World :=
  {| w_disk := d; w_now := w_now w; w_clock := w_clock w; w_faults := w_faults w;
     w_outcomes := w_outcomes w; w_effects := w_effects w |}.

Definition now_secs : io N := fun w =>
  match w_clock w with
  | [] => (w, w_now w)
  | t :: clock =>
      ({| w_disk := w_disk w; w_now := t; w_clock := clock; w_faults := w_faults w;
          w_outcomes := w_outcomes w; w_effects := w_effects w |}, t)
  end.

Definition read_disk : io StoreFile := fun w => (w, w_disk w).

(** Creating the directory, writing the sibling file and renaming it over the store:
    all of it happens, or the store stays as it was. *)
Definition write_disk (json : string) : io (result unit unit) := fun w =>
  match w_faults w with
  | true :: faults =>
      ({| w_disk := w_disk w; w_now := w_now w; w_clock := w_clock w; w_faults := faults;
          w_outcomes := w_outcomes w; w_effects := w_effects w |}, Err tt)
  | _ =>
      ({| w_disk := Content json; w_now := w_now w; w_clock := w_clock w;
          w_faults := tail (w_faults w); w_outcomes := w_outcomes w;
          w_effects := w_effects w |}, Ok tt)
  end.

(** ** The registry *)

Record CronStoreDoc := {
  doc_version : N;
  doc_counter : N;
  doc_crons : list CronEntry
}.

Definition doc_default : CronStoreDoc :=
  {| doc_version := 0; doc_counter := 0; doc_crons := [] |}.

(** serde_json on the store's document. *)
Class StoreJson := {
  doc_to_json : CronStoreDoc -> string;
  doc_from_json : string -> option CronStoreDoc;
  doc_from_to_json d : doc_from_json (doc_to_json d) = Some d
}.

Record CronInner := {
  ci_entries : gmap string CronEntry;
  ci_counter : N;
  ci_store_path : option string
}.

Definition put_entries (r : CronInner) (m : gmap string CronEntry) : CronInner :=
  {| ci_entries := m; ci_counter := ci_counter r; ci_store_path := ci_store_path r |}.

Definition entry_counter_hint (e : CronEntry) : N :=
  default 0%N (parse_u64 (rsplit_next (ce_id e) "_")).

(** The order of the file and of a listing: by creation, then by id. *)
Definition entry_le (a b : CronEntry) : bool :=
  (ce_created_at a <? ce_created_at b)%N
  || ((ce_created_at a =? ce_created_at b)%N && String.leb (ce_id a) (ce_id b)).

Definition sort_entries (l : list CronEntry) : list CronEntry := merge_sort entry_le l.

Definition map_values (m : gmap string CronEntry) : list CronEntry := (map_to_list m).*2.

(** The loop of [reload] over the document's entries. *)
Definition load_entry (acc : gmap string CronEntry * N) (e : CronEntry)
  : gmap string CronEntry * N :=
  (<[ce_id e := e]> (fst acc), N.max (snd acc) (entry_counter_hint e)).

Definition load_doc (r : CronInner) (d : CronStoreDoc) : CronInner :=
  let '(m, counter) := fold_left load_entry (doc_crons d) (∅, doc_counter d) in
  {| ci_entries := m; ci_counter := counter; ci_store_path := ci_store_path r |}.

Section Registry.
Context {CL : CronLib} {SJ : StoreJson}.

Definition reload (r : CronInner) : io CronInner :=
  match ci_store_path r with
  | None => mret r
  | Some _ =>
      f ← read_disk;
      mret (match f with
            | Content raw =>
                match doc_from_json raw with Some d => load_doc r d | None => r end
            | NotFound => load_doc r doc_default
            | Unreadable => r
            end)
  end.

Definition persist (r : CronInner) : io (result unit unit) :=
  match ci_store_path r with
  | None => mret (Ok tt)
  | Some _ =>
      write_disk (doc_to_json
        {| doc_version := 1; doc_counter := ci_counter r;
           doc_crons := sort_entries (map_values (ci_entries r)) |})
  end.

Definition new_registry : CronInner :=
  {| ci_entries := ∅; ci_counter := 0; ci_store_path := None |}.

Definition open_registry (path : string) : io CronInner :=
  reload {| ci_entries := ∅; ci_counter := 0; ci_store_path := Some path |}.

Definition read {T} (f : CronInner -> T) (r : CronInner) : io (CronInner * T) :=
  r ← reload r; mret (r, f r).

Definition mutate {T} (change : CronInner -> io (CronInner * result CronError T))
    (r : CronInner) : io (CronInner * result CronError T) :=
  r ← reload r;
  out ← change r;
  match snd out with
  | Err e => mret (fst out, Err e)
  | Ok t => _ ← persist (fst out); mret (fst out, Ok t)
  end.

Definition create_full (params : CronCreateParams) : CronInner -> io (CronInner * result CronError CronEntry) :=
  mutate (fun r =>
    let counter := u64_add (ci_counter r) 1 in
    ts ← now_secs;
    let cron_id := ("cron_" ++ hex08 ts ++ "_" ++ pretty counter)%string in
    let e := {|
      ce_id := cron_id; ce_schedule := cp_schedule params; ce_prompt := cp_prompt params;
      ce_description := cp_description params; ce_enabled := true; ce_created_at := ts;
      ce_updated_at := ts; ce_last_run_at := None; ce_run_count := 0;
      ce_name := cp_name params; ce_kind := cp_kind params; ce_tz := cp_tz params;
      ce_cwd := cp_cwd params; ce_next_run_at := None; ce_last_status := None;
      ce_last_error := None; ce_retry_count := 0; ce_max_retries := default_max_retries;
      ce_target := cp_target params;
      ce_delivery := default default_delivery (cp_delivery params);
      ce_created_by := cp_created_by params |} in
    mret ({| ci_entries := <[cron_id := e]> (ci_entries r); ci_counter := counter;
             ci_store_path := ci_store_path r |}, Ok e)).

Definition simple_params (schedule prompt : string) (description : option string) : CronCreateParams :=
  {| cp_schedule := schedule; cp_kind := KCron; cp_prompt := prompt;
     cp_description := description; cp_name := None; cp_tz := None; cp_cwd := None;
     cp_target := NewSession; cp_delivery := None; cp_created_by := CreatedByUser |}.

Definition registry_create (schedule prompt : string) (description : option string) :=
  create_full (simple_params schedule prompt description).

Definition registry_get (cron_id : string) : CronInner -> io (CronInner * option CronEntry) :=
  read (fun r => ci_entries r !! cron_id).

Definition registry_list (enabled_only : bool) : CronInner -> io (CronInner * list CronEntry) :=
  read (fun r => sort_entries (List.filter (fun e => negb enabled_only || ce_enabled e)
                                 (map_values (ci_entries r)))).

Definition registry_len : CronInner -> io (CronInner * nat) := read (fun r => size (ci_entries r)).

Definition registry_delete (cron_id : string) : CronInner -> io (CronInner * result CronError CronEntry) :=
  mutate (fun r =>
    mret (put_entries r (delete cron_id (ci_entries r)),
          ok_or (ci_entries r !! cron_id) (CronNotFound cron_id))).

Definition modify (cron_id : string) (change : CronEntry -> CronEntry)
  : CronInner -> io (CronInner * result CronError unit) :=
  mutate (fun r =>
    match ci_entries r !! cron_id with
    | None => mret (r, Err (CronNotFound cron_id))
    | Some e =>
        t ← now_secs;
        mret (put_entries r (<[cron_id := change (put_updated_at t e)]> (ci_entries r)), Ok tt)
    end).

Definition registry_set_enabled (cron_id : string) (enabled : bool) :=
  modify cron_id (fun e => put_enabled enabled (if enabled then 0%N else ce_retry_count e) e).
Definition registry_enable (cron_id : string) := registry_set_enabled cron_id true.
Definition registry_disable (cron_id : string) := registry_set_enabled cron_id false.

Definition set_next_run (cron_id : string) (next_run_at : option N) :=
  modify cron_id (put_next_run next_run_at).

Definition record_result (cron_id status : string) (error : option string) (next_run_at : option N) :=
  modify cron_id (put_result status error next_run_at).

Definition record_run (cron_id : string) := record_result cron_id "ok" None None.

Definition bump_retry (cron_id : string) : CronInner -> io (CronInner * result CronError N) :=
  mutate (fun r =>
    match ci_entries r !! cron_id with
    | None => mret (r, Err (CronNotFound cron_id))
    | Some e =>
        t ← now_secs;
        let e := put_updated_at t (put_retry_count (u32_add (ce_retry_count e) 1) e) in
        mret (put_entries r (<[cron_id := e]> (ci_entries r)), Ok (ce_retry_count e))
    end).

End Registry.

(** ** What the store holds *)

Definition blank : CronInner :=
  {| ci_entries := ∅; ci_counter := 0; ci_store_path := Some "" |}.

Section Loaded.
Context {SJ : StoreJson}.

Definition loaded (r : CronInner) (f : StoreFile) : CronInner :=
  match f with
  | Content raw => match doc_from_json raw with Some d => load_doc r d | None => r end
  | NotFound => load_doc r doc_default
  | Unreadable => r
  end.

Definition readable (f : StoreFile) : Prop :=
  match f with
  | Content raw => is_Some (doc_from_json raw)
  | NotFound => True
  | Unreadable => False
  end.

(** The jobs of a store, and its counter. *)
Definition jobs (f : StoreFile) : gmap string CronEntry := ci_entries (loaded blank f).
Definition store_counter (f : StoreFile) : N := ci_counter (loaded blank f).

Definition keyed (m : gmap string CronEntry) : Prop := forall id e, m !! id = Some e -> ce_id e = id.

Lemma elem_of_map_values m e : e ∈ map_values m <-> exists id, m !! id = Some e.
Proof.
  unfold map_values. rewrite list_elem_of_fmap. split.
  - intros ([id e'] & -> & H%elem_of_map_to_list). by exists id.
  - intros (id & H). exists (id, e). split; [done|]. by apply elem_of_map_to_list.
Qed.

Lemma elem_of_sort_entries l e : e ∈ sort_entries l <-> e ∈ l.
Proof. unfold sort_entries. by rewrite (merge_sort_Permutation entry_le l). Qed.

(** The loop of [reload] keeps the map keyed, and the counter above every hint. *)
Lemma load_fold l : forall m c, keyed m ->
  let '(m', c') := fold_left load_entry l (m, c) in
  keyed m' /\ (c <= c')%N
  /\ (forall id e, m' !! id = Some e -> m !! id = Some e \/ e ∈ l)
  /\ (forall e, e ∈ l -> entry_counter_hint e <= c')%N
  /\ ((forall e, e ∈ l -> entry_counter_hint e <= c)%N -> c' = c).
Proof.
  induction l as [|x l IH]; intros m c Hm; cbn [fold_left].
  - split_and!; [done|lia|auto|intros e He; by apply elem_of_nil in He|done].
  - unfold load_entry at 2; cbn [fst snd].
    specialize (IH (<[ce_id x:=x]> m) (N.max c (entry_counter_hint x))).
    destruct (fold_left _ _ _) as [m' c'] eqn:E.
    destruct IH as (Hk & Hc & Hin & Hh & Heq).
    { intros id e [[<- <-]|[_ ?]]%lookup_insert_Some; [done|by apply Hm]. }
    split_and!; [done|lia| | |].
    + intros id e He. rewrite elem_of_cons. destruct (Hin _ _ He) as [Hi|Hi]; [|auto].
      apply lookup_insert_Some in Hi as [[_ <-]|[_ ?]]; auto.
    + intros e [->|He]%elem_of_cons; [lia|auto].
    + intros Hall. assert (entry_counter_hint x <= c)%N by (apply Hall, elem_of_cons; auto).
      rewrite Heq; [lia|]. intros e He. rewrite N.max_l by lia. apply Hall, elem_of_cons; auto.
Qed.

Lemma load_fold_lookup l : forall m c id e, NoDup (ce_id <$> l) ->
  (fold_left load_entry l (m, c)).1 !! id = Some e <->
  (e ∈ l /\ ce_id e = id) \/ (m !! id = Some e /\ id ∉ ce_id <$> l).
Proof.
  induction l as [|x l IH]; intros m c id e Hnd; cbn [fold_left fmap list_fmap].
  - rewrite elem_of_nil. cbn. set_solver.
  - apply NoDup_cons in Hnd as [Hx Hnd]. unfold load_entry at 2; cbn [fst snd].
    rewrite (IH _ _ id e Hnd), lookup_insert_Some, !elem_of_cons. split.
    + intros [[He ?]|[[[? ->]|[? ?]] ?]]; [by left; auto|by left; auto|].
      right. split; [done|]. intros [?|?]; [by subst|done].
    + intros [[[->|He] <-]|[Hm Hn]].
      * right. split; [by left|done].
      * by left.
      * right. split; [|by intros ?; apply Hn; auto]. right. split; [|done]. intros <-. apply Hn; auto.
Qed.

Lemma NoDup_map_values m : keyed m -> NoDup (ce_id <$> map_values m).
Proof.
  intros Hk. unfold map_values. rewrite <- list_fmap_compose.
  assert ((ce_id ∘ snd) <$> map_to_list m = (map_to_list m).*1) as ->.
  { apply list_fmap_ext. intros i [id e] H%list_elem_of_lookup_2%elem_of_map_to_list. by apply Hk. }
  apply NoDup_fst_map_to_list.
Qed.

(** Reading back what [persist] wrote. *)
Definition stored (r : CronInner) : StoreFile :=
  Content (doc_to_json
    {| doc_version := 1; doc_counter := ci_counter r;
       doc_crons := sort_entries (map_values (ci_entries r)) |}).

Lemma loaded_keyed r f : keyed (ci_entries r) -> keyed (ci_entries (loaded r f)).
Proof.
  intros Hr. unfold loaded, load_doc.
  assert (keyed (∅ : gmap string CronEntry)) as H0 by (intros ??; by rewrite lookup_empty).
  destruct f; [|done|destruct (doc_from_json raw) as [d|]; [|done]];
    match goal with |- context [fold_left load_entry ?l ?p] => pose proof (load_fold l p.1 p.2 H0) as Hf end;
    cbn [fst snd] in Hf; destruct (fold_left _ _ _); cbn; tauto.
Qed.

Lemma blank_keyed : keyed (ci_entries blank).
Proof. intros ??. cbn. by rewrite lookup_empty. Qed.

Lemma jobs_keyed f : keyed (jobs f).
Proof. apply loaded_keyed, blank_keyed. Qed.

Lemma loaded_readable r f : readable f ->
  ci_entries (loaded r f) = jobs f /\ ci_counter (loaded r f) = store_counter f
  /\ ci_store_path (loaded r f) = ci_store_path r.
Proof.
  unfold jobs, store_counter, loaded, load_doc.
  destruct f; cbn; [done|done|]. intros [d ->]. by destruct (fold_left _ _ _).
Qed.

Lemma stored_readable r : readable (stored r).
Proof. eexists. apply doc_from_to_json. Qed.

Lemma jobs_stored r : keyed (ci_entries r) -> jobs (stored r) = ci_entries r.
Proof.
  intros Hk. unfold jobs, loaded, stored, load_doc. rewrite doc_from_to_json. cbn [doc_crons doc_counter].
  set (l := sort_entries _).
  assert (NoDup (ce_id <$> l)) as Hnd.
  { unfold l, sort_entries. rewrite (merge_sort_Permutation entry_le _). by apply NoDup_map_values. }
  apply map_eq. intros id. apply option_eq. intros e.
  pose proof (load_fold_lookup l ∅ (ci_counter r) id e Hnd) as Hl.
  destruct (fold_left load_entry l (∅, ci_counter r)) as [m c]. cbn in Hl |- *. rewrite Hl.
  rewrite lookup_empty. unfold l. rewrite elem_of_sort_entries, elem_of_map_values. split.
  - intros [[(id' & H) Hid]|[? _]]; [|done]. pose proof (Hk _ _ H). by simplify_eq.
  - intros H. left. split; [by exists id|by apply Hk].
Qed.

(** Every stored counter bounds the number at the end of every stored id. *)
Lemma counter_bounds_hints f id e : jobs f !! id = Some e -> (entry_counter_hint e <= store_counter f)%N.
Proof.
  unfold jobs, store_counter, loaded, load_doc.
  assert (keyed (∅ : gmap string CronEntry)) as H0 by (intros ??; by rewrite lookup_empty).
  destruct f; cbn [ci_entries ci_counter blank]; [|by rewrite lookup_empty|].
  - cbn. by rewrite lookup_empty.
  - destruct (doc_from_json raw) as [d|]; [|cbn; by rewrite lookup_empty].
    pose proof (load_fold (doc_crons d) ∅ (doc_counter d) H0) as Hf.
    destruct (fold_left _ _ _) as [m c]; cbn. intros H.
    destruct Hf as (_ & _ & Hin & Hh & _). apply Hh. destruct (Hin _ _ H) as [?|?]; [|done].
    by rewrite lookup_empty in *.
Qed.

End Loaded.

(** ** The operations on a store that can be read and written *)

Section Operations.
Context {CL : CronLib} {SJ : StoreJson}.

Lemma reload_eq r w : is_Some (ci_store_path r) -> reload r w = (w, loaded r (w_disk w)).
Proof. intros [p Hp]. unfold reload. by rewrite Hp. Qed.

Lemma read_eq {T} (f : CronInner -> T) r w : is_Some (ci_store_path r) ->
  read f r w = (w, (loaded r (w_disk w), f (loaded r (w_disk w)))).
Proof. intros Hp. unfold read, mbind, io_bind. by rewrite reload_eq. Qed.

Lemma mutate_eq {T} (change : CronInner -> io (CronInner * result CronError T)) r w w1 r2 out :
  is_Some (ci_store_path r) ->
  change (loaded r (w_disk w)) w = (w1, (r2, out)) ->
  mutate change r w =
    match out with
    | Ok _ => ((persist r2 w1).1, (r2, out))
    | Err _ => (w1, (r2, out))
    end.
Proof.
  intros Hp Hc. unfold mutate, mbind, io_bind. rewrite reload_eq, Hc by done. cbn.
  destruct out; [|done]. by destruct (persist r2 w1).
Qed.

Lemma persist_eq r w : is_Some (ci_store_path r) -> w_faults w = [] ->
  persist r w = (set_disk w (stored r), Ok tt).
Proof. intros [p Hp] Hf. unfold persist, write_disk. rewrite Hp, Hf. unfold set_disk. by rewrite Hf. Qed.

(** A failed write leaves the store as it was. *)
Lemma persist_fault r w l : is_Some (ci_store_path r) -> w_faults w = true :: l ->
  w_disk (persist r w).1 = w_disk w.
Proof. intros [p Hp] Hf. unfold persist, write_disk. by rewrite Hp, Hf. Qed.

(** [w'] is [w] with another store and some readings of the clock consumed. *)
Definition store_only (w w' : World) : Prop :=
  w_faults w' = w_faults w /\ w_outcomes w' = w_outcomes w /\ w_effects w' = w_effects w.

Lemma now_secs_frame w : store_only w (now_secs w).1 /\ w_disk (now_secs w).1 = w_disk w.
Proof. unfold now_secs, store_only. by destruct (w_clock w). Qed.

Lemma store_only_trans w1 w2 w3 : store_only w1 w2 -> store_only w2 w3 -> store_only w1 w3.
Proof. unfold store_only. intuition congruence. Qed.

(** What [modify] does to a store that can be read and written. *)
Lemma modify_spec id f r w :
  is_Some (ci_store_path r) -> readable (w_disk w) -> w_faults w = [] ->
  (forall e, ce_id (f e) = ce_id e) ->
  exists w' r',
    modify id f r w =
      (w', (r', match jobs (w_disk w) !! id with Some _ => Ok tt | None => Err (CronNotFound id) end))
    /\ readable (w_disk w') /\ store_only w w' /\ ci_store_path r' = ci_store_path r
    /\ jobs (w_disk w') = alter (fun e => f (put_updated_at (now_secs w).2 e)) id (jobs (w_disk w))
    /\ (w_clock w = [] -> w_clock w' = [] /\ w_now w' = w_now w).
Proof.
  intros Hp Hr Hf Hid. destruct (loaded_readable r _ Hr) as (Hj & _ & Hpath).
  pose proof (jobs_keyed (w_disk w)) as Hk. rewrite <- Hj in Hk |- *.
  unfold modify. destruct (ci_entries (loaded r (w_disk w)) !! id) as [e|] eqn:He.
  - destruct (now_secs w) as [w1 t] eqn:Ht.
    pose proof (now_secs_frame w) as [Hfr Hd]. rewrite Ht in Hfr, Hd. cbn [fst snd] in *.
    set (r2 := put_entries (loaded r (w_disk w))
                 (<[id:=f (put_updated_at t e)]> (ci_entries (loaded r (w_disk w))))).
    assert (is_Some (ci_store_path r2)) as Hp2 by (cbn; by rewrite Hpath).
    assert (w_faults w1 = []) as Hf1 by (destruct Hfr as (-> & _); done).
    eexists _, r2. split.
    { erewrite mutate_eq; [|done|]; last first.
      { cbn. rewrite He. unfold mbind, io_bind. rewrite Ht. reflexivity. }
      rewrite persist_eq by done. reflexivity. }
    cbn [w_disk set_disk fst snd].
    split_and!; [apply stored_readable|done|by cbn| |].
    + rewrite jobs_stored.
      * cbn. apply map_eq. intros j. destruct (decide (id = j)) as [<-|Hne].
        -- by rewrite lookup_insert_eq, lookup_alter_eq, He.
        -- by rewrite lookup_insert_ne, lookup_alter_ne by done.
      * intros j x Hx. cbn [ci_entries put_entries] in Hx. apply lookup_insert_Some in Hx as [[<- <-]|[_ Hx]]; [|by apply Hk]. rewrite Hid. exact (Hk _ _ He).
    + cbn. unfold now_secs in Ht. intros Hc. rewrite Hc in Ht. by injection Ht as <- <-.
  - exists w, (loaded r (w_disk w)). split.
    { erewrite mutate_eq; [|done|]; last first. { rewrite He. reflexivity. } reflexivity. }
    split_and!; [done|done|done| |done]. rewrite <- Hj.
    apply map_eq. intros j. destruct (decide (id = j)) as [<-|Hne].
    + by rewrite lookup_alter_eq, He.
    + by rewrite lookup_alter_ne by done.
Qed.

Lemma delete_spec id r w :
  is_Some (ci_store_path r) -> readable (w_disk w) -> w_faults w = [] ->
  exists w' r',
    registry_delete id r w = (w', (r', ok_or (jobs (w_disk w) !! id) (CronNotFound id)))
    /\ readable (w_disk w') /\ store_only w w' /\ ci_store_path r' = ci_store_path r
    /\ jobs (w_disk w') = delete id (jobs (w_disk w))
    /\ w_clock w' = w_clock w /\ w_now w' = w_now w.
Proof.
  intros Hp Hr Hf. destruct (loaded_readable r _ Hr) as (Hj & _ & Hpath).
  pose proof (jobs_keyed (w_disk w)) as Hk. rewrite <- Hj in Hk |- *.
  unfold registry_delete.
  set (r2 := put_entries (loaded r (w_disk w)) (delete id (ci_entries (loaded r (w_disk w))))).
  assert (is_Some (ci_store_path r2)) as Hp2 by (cbn; by rewrite Hpath).
  destruct (ci_entries (loaded r (w_disk w)) !! id) as [e|] eqn:He.
  - eexists _, r2. split.
    { erewrite mutate_eq; [|done|]; last first. { rewrite He. reflexivity. }
      cbn [ok_or]. rewrite persist_eq by done. reflexivity. }
    cbn [w_disk set_disk fst snd]. split_and!; [apply stored_readable|done|done| |done|done].
    rewrite jobs_stored; [done|]. intros j x Hx. cbn [ci_entries put_entries] in Hx. apply lookup_delete_Some in Hx as [_ Hx]. by apply Hk.
  - eexists _, r2. split.
    { erewrite mutate_eq; [|done|]; last first. { rewrite He. reflexivity. } reflexivity. }
    split_and!; try done. by rewrite <- Hj, delete_id.
Qed.

(** The entry a creation stores. *)
Definition created (params : CronCreateParams) (ts counter : N) : CronEntry :=
  {| ce_id := ("cron_" ++ hex08 ts ++ "_" ++ pretty counter)%string;
     ce_schedule := cp_schedule params; ce_prompt := cp_prompt params;
     ce_description := cp_description params; ce_enabled := true; ce_created_at := ts;
     ce_updated_at := ts; ce_last_run_at := None; ce_run_count := 0;
     ce_name := cp_name params; ce_kind := cp_kind params; ce_tz := cp_tz params;
     ce_cwd := cp_cwd params; ce_next_run_at := None; ce_last_status := None;
     ce_last_error := None; ce_retry_count := 0; ce_max_retries := default_max_retries;
     ce_target := cp_target params;
     ce_delivery := default default_delivery (cp_delivery params);
     ce_created_by := cp_created_by params |}.

Lemma create_spec params r w :
  is_Some (ci_store_path r) -> readable (w_disk w) -> w_faults w = [] ->
  let e := created params (now_secs w).2 (u64_add (store_counter (w_disk w)) 1) in
  exists w' r',
    create_full params r w = (w', (r', Ok e))
    /\ readable (w_disk w') /\ store_only w w' /\ ci_store_path r' = ci_store_path r
    /\ jobs (w_disk w') = <[ce_id e := e]> (jobs (w_disk w))
    /\ (w_clock w = [] -> w_clock w' = [] /\ w_now w' = w_now w).
Proof.
  intros Hp Hr Hf. destruct (loaded_readable r _ Hr) as (Hj & Hcount & Hpath).
  pose proof (jobs_keyed (w_disk w)) as Hk.
  destruct (now_secs w) as [w1 t] eqn:Ht. cbn [snd].
  pose proof (now_secs_frame w) as [Hfr Hd]. rewrite Ht in Hfr, Hd. cbn [fst] in *.
  set (e := created _ _ _).
  set (r2 := {| ci_entries := <[ce_id e := e]> (jobs (w_disk w));
                ci_counter := u64_add (store_counter (w_disk w)) 1;
                ci_store_path := ci_store_path r |}).
  assert (w_faults w1 = []) as Hf1 by (destruct Hfr as (-> & _); done).
  eexists _, r2. split.
  { unfold create_full. erewrite mutate_eq; [|done|]; last first.
    { unfold mbind, io_bind. rewrite Ht, Hcount, Hj, Hpath. reflexivity. }
    cbn beta iota zeta. rewrite persist_eq by done. reflexivity. }
  cbn [w_disk set_disk fst snd]. split_and!; [apply stored_readable|done|done| |].
  - apply jobs_stored. intros j x Hx. cbn [ci_entries put_entries] in Hx. apply lookup_insert_Some in Hx as [[<- <-]|[_ Hx]]; [done|by apply Hk].
  - cbn. unfold now_secs in Ht. intros Hc. rewrite Hc in Ht. by injection Ht as <- <-.
Qed.

(** The number at the end of a new id is the counter's new value. *)
Lemma created_hint params ts counter : (counter <= u64_max)%N ->
  entry_counter_hint (created params ts counter) = counter.
Proof.
  intros Hc. unfold entry_counter_hint, created. cbn [ce_id].
  assert (("cron_" ++ hex08 ts ++ "_" ++ pretty counter)%string
          = (("cron_" ++ hex08 ts) ++ String "_" (pretty counter))%string) as ->
    by (by rewrite str_app_assoc).
  rewrite rsplit_next_app; [by rewrite parse_u64_pretty|].
  eapply all_bytes_impl; [|apply pretty_N_digits].
  intros a Ha. apply negb_true_iff, Ascii.eqb_neq. by intros ->.
Qed.

End Operations.

(** ** The service every surface goes through (cron_service.rs) *)

Record CronUpdate := {
  cu_name : option string;
  cu_description : option string;
  cu_prompt : option string;
  cu_schedule : option string;
  cu_kind : option CronKind;
  cu_tz : option string;
  cu_cwd : option string;
  cu_target : option CronTarget;
  cu_delivery : option InputDelivery;
  cu_enabled : option bool
}.

Definition or_else {A} (a b : option A) : option A := match a with Some _ => a | None => b end.

(** The change [update] makes to an entry. *)
Definition put_update (kind : CronKind) (schedule : string) (tz : option string)
    (c : CronUpdate) (e : CronEntry) : CronEntry :=
  Entry (ce_id e) schedule (default (ce_prompt e) (cu_prompt c))
    (or_else (cu_description c) (ce_description e)) (ce_enabled e) (ce_created_at e)
    (ce_updated_at e) (ce_last_run_at e) (ce_run_count e)
    (or_else (cu_name c) (ce_name e)) kind tz (or_else (cu_cwd c) (ce_cwd e))
    (ce_next_run_at e) (ce_last_status e) (ce_last_error e) (ce_retry_count e)
    (ce_max_retries e) (default (ce_target e) (cu_target c))
    (default (ce_delivery e) (cu_delivery c)) (ce_created_by e).

Definition is_blank (s : string) : bool := is_empty (trim s).

Definition blank_agent (t : CronTarget) : bool :=
  match t with Agent name => is_blank name | NewSession => false end.

Section Service.
Context {CL : CronLib} {SJ : StoreJson}.
Variable store_path : string.

Definition registry : io CronInner := open_registry store_path.

Definition service_get (cron_id : string) : io (option CronEntry) :=
  r ← registry; out ← registry_get cron_id r; mret (snd out).

Definition service_list : io (list CronEntry) :=
  r ← registry; out ← registry_list false r; mret (snd out).

Definition service_remove (cron_id : string) : io (result CronError CronEntry) :=
  r ← registry; out ← registry_delete cron_id r; mret (snd out).

Definition get_or_missing (r : CronInner) (cron_id : string)
  : io (CronInner * result CronError CronEntry) :=
  out ← registry_get cron_id r;
  mret (fst out, ok_or (snd out) (CronNotFound cron_id)).

Definition arm (r : CronInner) (cron_id : string) : io (result CronError CronEntry) :=
  out ← get_or_missing r cron_id;
  match snd out with
  | Err e => mret (Err e)
  | Ok entry =>
      t ← now_secs;
      out ← set_next_run cron_id (first_run_at entry t) (fst out);
      match snd out with
      | Err e => mret (Err e)
      | Ok _ => out ← get_or_missing (fst out) cron_id; mret (snd out)
      end
  end.

Definition service_create (params : CronCreateParams) : io (result CronError CronEntry) :=
  match validate (cp_kind params) (cp_schedule params) (cp_tz params) with
  | Err e => mret (Err e)
  | Ok _ =>
      if blank_agent (cp_target params) then mret (Err NeedsAgentName)
      else if is_blank (cp_prompt params) then mret (Err NeedsMessage)
      else
        r ← registry;
        out ← create_full params r;
        match snd out with
        | Err e => mret (Err e)
        | Ok entry => arm (fst out) (ce_id entry)
        end
  end.

Definition service_set_enabled (cron_id : string) (enabled : bool) : io (result CronError CronEntry) :=
  r ← registry;
  out ← registry_set_enabled cron_id enabled r;
  match snd out with
  | Err e => mret (Err e)
  | Ok _ =>
      if enabled then arm (fst out) cron_id
      else out ← get_or_missing (fst out) cron_id; mret (snd out)
  end.

Definition service_update (cron_id : string) (change : CronUpdate) : io (result CronError CronEntry) :=
  r ← registry;
  out ← get_or_missing r cron_id;
  match snd out with
  | Err e => mret (Err e)
  | Ok current =>
      let kind := default (ce_kind current) (cu_kind change) in
      let schedule := default (ce_schedule current) (cu_schedule change) in
      let tz := or_else (cu_tz change) (ce_tz current) in
      let rescheduled := negb (bool_decide (kind = ce_kind current))
                         || negb (String.eqb schedule (ce_schedule current))
                         || negb (bool_decide (tz = ce_tz current)) in
      match (if rescheduled then validate kind schedule tz else Ok tt) with
      | Err e => mret (Err e)
      | Ok _ =>
          if map_or false blank_agent (cu_target change) then mret (Err NeedsAgentName)
          else if map_or false is_blank (cu_prompt change) then mret (Err NeedsMessage)
          else
            out ← modify cron_id (put_update kind schedule tz change) (fst out);
            match snd out with
            | Err e => mret (Err e)
            | Ok _ =>
                match cu_enabled change with
                | Some enabled => service_set_enabled cron_id enabled
                | None =>
                    if rescheduled then arm (fst out) cron_id
                    else out ← get_or_missing (fst out) cron_id; mret (snd out)
                end
            end
      end
  end.

End Service.

(** ** Ids are never minted twice *)

Section Fresh.
Context {CL : CronLib} {SJ : StoreJson}.

(** Whatever the store holds, a creation by any process adds one job under an id no
    stored job has, leaves every other job as it is, and returns the job it stored: the
    number at the end of a new id is larger than every number the store knows. *)
Theorem create_mints_a_fresh_id params r w :
  is_Some (ci_store_path r) -> readable (w_disk w) -> w_faults w = [] ->
  (store_counter (w_disk w) < u64_max)%N ->
  exists w' r' e,
    create_full params r w = (w', (r', Ok e))
    /\ jobs (w_disk w) !! ce_id e = None
    /\ jobs (w_disk w') = <[ce_id e := e]> (jobs (w_disk w))
    /\ (store_counter (w_disk w) < entry_counter_hint e <= store_counter (w_disk w'))%N
    /\ readable (w_disk w').
Proof.
  intros Hp Hr Hf Hc.
  destruct (create_spec params r w Hp Hr Hf) as (w' & r' & Heq & Hr' & _ & _ & Hj & _).
  set (e := created _ _ _) in *.
  assert (entry_counter_hint e = (store_counter (w_disk w) + 1)%N) as Hh.
  { unfold e. rewrite created_hint; unfold u64_add, u64_mod, u64_max in *;
      rewrite N.mod_small; lia. }
  exists w', r', e. split_and!; [done| |done|lia| |done].
  - destruct (jobs (w_disk w) !! ce_id e) as [e0|] eqn:He; [|done].
    pose proof (counter_bounds_hints _ _ _ He) as Hb. pose proof (jobs_keyed _ _ _ He) as Hid.
    unfold entry_counter_hint in Hb, Hh. rewrite Hid in Hb. lia.
  - apply (counter_bounds_hints (w_disk w') (ce_id e)). rewrite Hj. apply lookup_insert_eq.
Qed.

End Fresh.
