(* ===== verification/CronScheduler.v ===== *)
(** * The job scheduler (runtime/src/cron_scheduler.rs)

    Several processes share one store of jobs; the holder of an exclusive lease looks
    for due jobs, claims each one by moving its next run forward, fires it, and records
    how that went.  [tick] is that pass as one function.  The [happens] relation is the
    same pass cut at every access to the store, with crashes, takeovers of the lease
    and other processes changing, arming and triggering jobs in between. *)
From S2P Require Import Prelude.
From stdpp Require Import list gmap sorting relations.
From S2P Require Import RustStr TurnInput Cron.

Definition MISSED_GRACE_SECS : N := 600.
Definition DEFAULT_TICK_MS : N := 30000.
Definition SCHEDULED : string := "scheduled".

(** [SUDOCODE_CRON_TICK_MS] as the environment has it. *)
Definition tick_interval (var : option string) : N :=
  match var ≫= (fun ms => parse_u64 (trim ms)) with
  | Some ms => if (0 <? ms)%N then ms else DEFAULT_TICK_MS
  | None => DEFAULT_TICK_MS
  end.

Definition scheduled_envelope (e : CronEntry) (to : string) : MailboxEnvelope :=
  let label :=
    match or_else (ce_name e) (ce_description e) with
    | Some label => if is_blank label then ce_id e
                    else (label ++ " (" ++ ce_id e ++ ")")%string
    | None => ce_id e
    end in
  {| env_delivery := ce_delivery e; env_from := ""; env_to := to; env_body := ce_prompt e;
     env_summary := Some label; env_timestamp := 0; env_color := None;
     env_kind := SCHEDULED; env_request_id := None |}.

(** The effect of a fire carries the run it is for, so that runs can be counted. *)
Definition fire_effect (e : CronEntry) : Effect :=
  match ce_target e with
  | Agent name => Sent (ce_id e) (ce_next_run_at e) (scheduled_envelope e name)
  | NewSession => Started (ce_id e) (ce_next_run_at e) (ce_prompt e) (ce_cwd e)
  end.

Definition fire (e : CronEntry) : io (result string unit) := fun w =>
  ({| w_disk := w_disk w; w_now := w_now w; w_clock := w_clock w; w_faults := w_faults w;
      w_outcomes := tail (w_outcomes w); w_effects := w_effects w ++ [fire_effect e] |},
   default (Ok tt) (head (w_outcomes w))).

Definition effect_run (f : Effect) : string * option N :=
  match f with Sent id run _ => (id, run) | Started id run _ _ => (id, run) end.

Section Scheduler.
Context {CL : CronLib} {SJ : StoreJson}.
Variable store_path : string.

Definition next_of (e : CronEntry) (now : N) : option N :=
  if is_one_shot e then None else next_run_after e now.

Definition claim_next (e : CronEntry) (now : N) : io CronInner :=
  r ← registry store_path;
  out ← set_next_run (ce_id e) (next_of e now) r;
  mret (fst out).

Definition claim_disable (e : CronEntry) (r : CronInner) : io unit :=
  if is_one_shot e then _ ← registry_disable (ce_id e) r; mret tt else mret tt.

Definition claim (e : CronEntry) (now : N) : io (option N) :=
  r ← claim_next e now;
  _ ← claim_disable e r;
  mret (next_of e now).

Definition record (e : CronEntry) (outcome : result string unit) (next : option N) : io string :=
  r ← registry store_path;
  match outcome with
  | Ok _ => _ ← record_result (ce_id e) "ok" None next r; mret "ok"
  | Err error =>
      _ ← record_result (ce_id e) "error" (Some error) next r;
      mret ("error: " ++ error)%string
  end.

Definition record_missed (e : CronEntry) (next : option N) : io string :=
  r ← registry store_path;
  _ ← record_result (ce_id e) "missed" None next r;
  mret "missed".

(** [trigger] after it has read the job. *)
Definition trigger_read (e : CronEntry) : io string :=
  let next := if is_one_shot e then None else ce_next_run_at e in
  outcome ← fire e;
  record e outcome next.

Definition trigger (cron_id : string) : io (result CronError string) :=
  out ← service_get store_path cron_id;
  match out with
  | None => mret (Err (CronNotFound cron_id))
  | Some e => status ← trigger_read e; mret (Ok status)
  end.

Definition late (e : CronEntry) (now : N) : N :=
  u64_saturating_sub now (default now (ce_next_run_at e)).

Definition handle (now : N) (e : CronEntry) : io string :=
  next ← claim e now;
  if (MISSED_GRACE_SECS <? late e now)%N then record_missed e next
  else outcome ← fire e; record e outcome next.

Fixpoint tick_loop (now : N) (due : list CronEntry) (handled : list (string * string))
  : io (list (string * string)) :=
  match due with
  | [] => mret handled
  | e :: due =>
      status ← handle now e;
      tick_loop now due (handled ++ [(ce_id e, status)])
  end.

Definition due_jobs (now : N) : io (list CronEntry) :=
  l ← service_list store_path;
  mret (List.filter (fun e => is_due e now) l).

Definition tick (now : N) : io (list (string * string)) :=
  due ← due_jobs now; tick_loop now due [].

(** ** The same pass, one access at a time

    [Idle]: no process holds the lease.  The others are the points of the holder's
    pass between two accesses to the outside. *)
Inductive Pc :=
| Idle
| Looping (now : N) (rest : list CronEntry)
| Claiming (now : N) (e : CronEntry) (r : CronInner) (rest : list CronEntry)
| Claimed (now : N) (e : CronEntry) (rest : list CronEntry)
| Fired (now : N) (e : CronEntry) (outcome : result string unit) (rest : list CronEntry).

(** The jobs the holder has listed and not finished. *)
Definition in_hand (pc : Pc) : list CronEntry :=
  match pc with
  | Idle => []
  | Looping _ rest => rest
  | Claiming _ e _ rest | Claimed _ e rest | Fired _ e _ rest => e :: rest
  end.

Record Sys := { s_world : World; s_pc : Pc }.

Definition runs (w : World) : list (string * option N) := effect_run <$> w_effects w.

(** What is told of a history: a run the holder fired, one that was triggered by hand,
    and a next run that another process wrote into the store. *)
Inductive Event :=
| Fires (run : string * option N)
| Triggers (run : string * option N)
| Moves (cron_id : string) (next : option N).

(** What other processes do between two accesses of the holder, each with a registry it
    has opened: create a job, delete one, edit or enable one, write the next run of one
    (the end of [arm]), fire one by hand and record how that went (the ends of
    [trigger]).  They may have read what they write at any time before: the entry and
    the next run are any. *)
Inductive client (w : World) : list Event -> World -> Prop :=
| client_create params r :
    is_Some (ci_store_path r) -> client w [] (create_full params r w).1
| client_delete id r :
    is_Some (ci_store_path r) -> client w [] (registry_delete id r w).1
| client_modify id f r :
    is_Some (ci_store_path r) ->
    (forall e, ce_id (f e) = ce_id e /\ ce_next_run_at (f e) = ce_next_run_at e) ->
    client w [] (modify id f r w).1
| client_arm id next r :
    is_Some (ci_store_path r) -> client w [Moves id next] (set_next_run id next r w).1
| client_trigger e :
    client w [Triggers (effect_run (fire_effect e))] (fire e w).1
| client_record id status error next r :
    is_Some (ci_store_path r) -> client w [Moves id next] (record_result id status error next r w).1.

Definition wait (w : World) (t : N) : World :=
  {| w_disk := w_disk w; w_now := t; w_clock := w_clock w; w_faults := w_faults w;
     w_outcomes := w_outcomes w; w_effects := w_effects w |}.

Inductive happens : Sys -> list Event -> Sys -> Prop :=
| step_lease w :
    happens {| s_world := w; s_pc := Idle |} []
         (let out := due_jobs (w_now w) w in
          {| s_world := fst out; s_pc := Looping (w_now w) (snd out) |})
| step_claim_next w now e rest :
    happens {| s_world := w; s_pc := Looping now (e :: rest) |} []
         (let out := claim_next e now w in
          {| s_world := fst out; s_pc := Claiming now e (snd out) rest |})
| step_claim_disable w now e r rest :
    happens {| s_world := w; s_pc := Claiming now e r rest |} []
         {| s_world := (claim_disable e r w).1; s_pc := Claimed now e rest |}
| step_missed w now e rest :
    (MISSED_GRACE_SECS < late e now)%N ->
    happens {| s_world := w; s_pc := Claimed now e rest |} []
         {| s_world := (record_missed e (next_of e now) w).1; s_pc := Looping now rest |}
| step_fire w now e rest :
    (late e now <= MISSED_GRACE_SECS)%N ->
    happens {| s_world := w; s_pc := Claimed now e rest |} [Fires (effect_run (fire_effect e))]
         (let out := fire e w in
          {| s_world := fst out; s_pc := Fired now e (snd out) rest |})
| step_record w now e outcome rest :
    happens {| s_world := w; s_pc := Fired now e outcome rest |} []
         {| s_world := (record e outcome (next_of e now) w).1; s_pc := Looping now rest |}
| step_finish w now :
    happens {| s_world := w; s_pc := Looping now [] |} [] {| s_world := w; s_pc := Idle |}
| step_crash w pc :
    happens {| s_world := w; s_pc := pc |} [] {| s_world := w; s_pc := Idle |}
| step_client s events w :
    client (s_world s) events w -> happens s events {| s_world := w; s_pc := s_pc s |}
| step_wait w t pc :
    (w_now w <= t < u64_max)%N ->
    happens {| s_world := w; s_pc := pc |} [] {| s_world := wait w t; s_pc := pc |}.

Definition step (s s' : Sys) : Prop := exists events, happens s events s'.

(** What has happened since [w], and the system. *)
Inductive happened (w : World) : list Event -> Sys -> Prop :=
| happened_start : happened w [] {| s_world := w; s_pc := Idle |}
| happened_next events s more s' :
    happened w events s -> happens s more s' -> happened w (events ++ more) s'.

Lemma tick_is_a_run w :
  rtc step {| s_world := w; s_pc := Idle |}
           {| s_world := (tick (w_now w) w).1; s_pc := Idle |}.
Proof.
  assert (forall due w now handled,
    rtc step {| s_world := w; s_pc := Looping now due |}
             {| s_world := (tick_loop now due handled w).1; s_pc := Idle |}) as Hloop.
  { clear w. induction due as [|e due IH]; intros w now handled.
    { apply rtc_once. eexists. apply step_finish. }
    cbn [tick_loop]. unfold mbind, io_bind, handle, claim, mbind, io_bind.
    destruct (claim_next e now w) as [w1 r] eqn:E1.
    destruct (claim_disable e r w1) as [w2 []] eqn:E2. cbn [mret io_ret].
    eapply rtc_l; [eexists; apply step_claim_next|]. rewrite E1. cbn [fst snd].
    eapply rtc_l; [eexists; apply step_claim_disable|]. rewrite E2. cbn [fst].
    destruct (N.ltb_spec MISSED_GRACE_SECS (late e now)).
    - destruct (record_missed e _ w2) as [w3 st] eqn:E3.
      eapply rtc_l; [eexists; by apply step_missed|]. rewrite E3. apply IH.
    - destruct (fire e w2) as [w3 outcome] eqn:E3.
      destruct (record e outcome _ w3) as [w4 st] eqn:E4.
      eapply rtc_l; [eexists; by apply step_fire|]. rewrite E3. cbn [fst snd].
      eapply rtc_l; [eexists; apply step_record|]. rewrite E4. apply IH. }
  eapply rtc_l; [eexists; apply step_lease|]. unfold tick, mbind, io_bind.
  destruct (due_jobs (w_now w) w) as [w1 due]. apply Hloop.
Qed.

(** C38. The pass as one function is one of the system's runs: from a free lease the
    steps lead to exactly the world [tick] leaves behind, with the lease free again,
    and while no other process holds the lease the pass reports one status per due job,
    in the order of the listing. *)
Theorem tick_refines_steps w :
  rtc step {| s_world := w; s_pc := Idle |}
           {| s_world := (tick (w_now w) w).1; s_pc := Idle |}
  /\ (tick (w_now w) w).2.*1 = ce_id <$> (due_jobs (w_now w) w).2.
Proof.
  split; [apply tick_is_a_run|].
  assert (forall now due handled w, (tick_loop now due handled w).2.*1
                                    = handled.*1 ++ (ce_id <$> due)) as H.
  { intros now due. induction due as [|e due IH]; intros handled w2; [cbn; by rewrite app_nil_r|].
    cbn [tick_loop]. rewrite fmap_cons. unfold mbind, io_bind. destruct (handle now e w2) as [w3 st].
    rewrite (IH (handled ++ [(ce_id e, st)]) w3), fmap_app, <- app_assoc. done. }
  unfold tick, mbind, io_bind. destruct (due_jobs (w_now w) w) as [w1 due]. apply H.
Qed.

End Scheduler.

(** ** A claimed run is fired at most once *)

Section AtMostOnce.
Context {CL : CronLib} {SJ : StoreJson}.
Variable store_path : string.

(** The store can be read and written, and the clock is not at its last second. *)
Definition healthy (w : World) : Prop :=
  readable (w_disk w) /\ w_faults w = [] /\ w_clock w = [] /\ (w_now w < u64_max)%N.

Lemma healthy_now w : w_clock w = [] -> (now_secs w).2 = w_now w.
Proof. unfold now_secs. by intros ->. Qed.

Lemma registry_opens w : exists r,
  registry store_path w = (w, r) /\ is_Some (ci_store_path r).
Proof.
  unfold registry, open_registry. eexists. split; [by rewrite reload_eq|].
  unfold loaded, load_doc. destruct (w_disk w); [cbn|cbn|destruct (doc_from_json raw) as [d|]; [|cbn]];
    try destruct (fold_left _ _ _); by eexists.
Qed.

(** [w'] differs from [w] by the store, which [g] describes. *)
Definition store_step (g : gmap string CronEntry -> gmap string CronEntry) (w w' : World) : Prop :=
  healthy w' /\ w_now w' = w_now w /\ runs w' = runs w
  /\ jobs (w_disk w') = g (jobs (w_disk w)).

Lemma healthy_modify id f r w :
  healthy w -> is_Some (ci_store_path r) -> (forall e, ce_id (f e) = ce_id e) ->
  store_step (alter (fun e => f (put_updated_at (w_now w) e)) id) w (modify id f r w).1
  /\ is_Some (ci_store_path (modify id f r w).2.1).
Proof.
  intros (Hr & Hf & Hc & Hn) Hp Hid.
  destruct (modify_spec id f r w Hp Hr Hf Hid) as (w' & r' & -> & Hr' & Hs & Hp' & Hj & Hcl).
  destruct (Hcl Hc) as [Hc' Hn']. destruct Hs as (Hf' & _ & He').
  unfold store_step, healthy, runs. cbn [fst snd].
  rewrite Hj, healthy_now, Hf', He', Hn', Hp' by done. done.
Qed.

Lemma open_modify id f w :
  healthy w -> (forall e, ce_id (f e) = ce_id e) ->
  store_step (alter (fun e => f (put_updated_at (w_now w) e)) id) w
    ((r ← registry store_path; modify id f r) w).1.
Proof.
  intros Hw Hid. unfold mbind, io_bind. destruct (registry_opens w) as (r & -> & Hp).
  by apply healthy_modify.
Qed.

Lemma healthy_delete id r w :
  healthy w -> is_Some (ci_store_path r) ->
  store_step (delete id) w (registry_delete id r w).1 /\ is_Some (ci_store_path (registry_delete id r w).2.1).
Proof.
  intros (Hr & Hf & Hc & Hn) Hp.
  destruct (delete_spec id r w Hp Hr Hf) as (w' & r' & -> & Hr' & (Hf' & _ & He') & Hp' & Hj & Hc' & Hn').
  unfold store_step, healthy, runs. cbn [fst snd]. rewrite Hj, Hf', He', Hc', Hn', Hp'. done.
Qed.

Lemma healthy_create params r w :
  healthy w -> is_Some (ci_store_path r) -> exists e, ce_next_run_at e = None /\
  store_step <[ce_id e := e]> w (create_full params r w).1 /\ is_Some (ci_store_path (create_full params r w).2.1).
Proof.
  intros (Hr & Hf & Hc & Hn) Hp.
  destruct (create_spec params r w Hp Hr Hf) as (w' & r' & -> & Hr' & (Hf' & _ & He') & Hp' & Hj & Hcl).
  destruct (Hcl Hc) as [Hc' Hn']. exists (created params (now_secs w).2 (u64_add (store_counter (w_disk w)) 1)).
  split; [done|]. unfold store_step, healthy, runs. cbn [fst snd].
  rewrite Hf', He', Hc', Hn', Hp'. done.
Qed.

(** ** How often a run can still fire *)

Definition is_run (run : string * option N) (e : CronEntry) : bool :=
  bool_decide ((ce_id e, ce_next_run_at e) = run).

(** The store holds a next run of the job that is this run or an earlier one. *)
Definition stale_in (m : gmap string CronEntry) (run : string * option N) : bool :=
  match m !! run.1 ≫= ce_next_run_at, run.2 with
  | Some next, Some n => (next <=? n)%N
  | _, _ => false
  end.
Definition stale (w : World) : string * option N -> bool := stale_in (jobs (w_disk w)).

(** The holder has listed the run and not claimed it, or claimed it and not fired it. *)
Definition unclaimed (pc : Pc) : list CronEntry :=
  match pc with
  | Idle => []
  | Looping _ rest | Claiming _ _ _ rest | Claimed _ _ rest | Fired _ _ _ rest => rest
  end.
Definition taken (pc : Pc) : option CronEntry :=
  match pc with Claiming _ e _ _ | Claimed _ e _ => Some e | _ => None end.

Definition fires_left (s : Sys) (run : string * option N) : nat :=
  Nat.b2n (stale (s_world s) run || existsb (is_run run) (unclaimed (s_pc s)))
  + Nat.b2n (match taken (s_pc s) with Some e => is_run run e | None => false end).

Definition is_fire (run : string * option N) (ev : Event) : bool :=
  match ev with Fires r => bool_decide (r = run) | _ => false end.
Definition is_back (run : string * option N) (ev : Event) : bool :=
  match ev, run.2 with
  | Moves id (Some m), Some n => String.eqb id run.1 && (m <=? n)%N
  | _, _ => false
  end.

(** How often the holder fired the run, and how often another process moved the job back
    to it or to an earlier one. *)
Definition times_fired (run : string * option N) (events : list Event) : nat :=
  length (List.filter (is_fire run) events).
Definition times_moved_back (run : string * option N) (events : list Event) : nat :=
  length (List.filter (is_back run) events).

(** The run of an effect, and of the event that says so. *)
Definition event_run (ev : Event) : option (string * option N) :=
  match ev with Fires run | Triggers run => Some run | Moves _ _ => None end.

Lemma times_fired_app run l k : times_fired run (l ++ k) = times_fired run l + times_fired run k.
Proof. unfold times_fired. by rewrite List.filter_app, length_app. Qed.

Lemma times_moved_back_app run l k :
  times_moved_back run (l ++ k) = times_moved_back run l + times_moved_back run k.
Proof. unfold times_moved_back. by rewrite List.filter_app, length_app. Qed.

Lemma fired_in run events : 0 < times_fired run events -> Fires run ∈ events.
Proof.
  unfold times_fired. induction events as [|ev events IH]; cbn; [lia|]. destruct (is_fire run ev) eqn:E.
  - intros _. destruct ev; try done. apply bool_decide_eq_true in E as ->. left.
  - intros H. right. auto.
Qed.

(** The holder works on runs that had come when it listed the jobs, no run it fired was
    after that moment, and what it did and can still do is paid for. *)
Definition pass_time (pc : Pc) : option N :=
  match pc with
  | Idle => None
  | Looping now _ | Claiming now _ _ _ | Claimed now _ _ | Fired now _ _ _ => Some now
  end.

Record sys_ok (events : list Event) (s : Sys) : Prop := {
  ok_healthy : healthy (s_world s);
  ok_effects : runs (s_world s) = omap event_run events;
  ok_past id o : Fires (id, o) ∈ events ->
    exists n, o = Some n /\ (n <= w_now (s_world s))%N
      /\ forall now, pass_time (s_pc s) = Some now -> (n <= now)%N;
  ok_ids : NoDup (ce_id <$> in_hand (s_pc s));
  ok_time now : pass_time (s_pc s) = Some now -> (now <= w_now (s_world s))%N;
  ok_due now e : pass_time (s_pc s) = Some now -> e ∈ unclaimed (s_pc s) \/ taken (s_pc s) = Some e ->
    exists n, ce_next_run_at e = Some n /\ (n <= now)%N;
  ok_handle e now r rest : s_pc s = Claiming now e r rest -> is_Some (ci_store_path r);
  ok_paid run : times_fired run events + fires_left s run <= S (times_moved_back run events)
}.

Lemma next_of_later e now n : (now < u64_max)%N -> next_of e now = Some n -> (now < n)%N.
Proof.
  unfold next_of. destruct (is_one_shot e); [done|]. intros Hn Hm. by apply (next_run_after_later e now).
Qed.

Lemma due_jobs_eq w now : readable (w_disk w) ->
  due_jobs store_path now w =
  (w, List.filter (fun e => is_due e now)
        (sort_entries (List.filter (fun _ => true) (map_values (jobs (w_disk w)))))).
Proof.
  intros Hr. unfold due_jobs, service_list, registry_list, mbind, io_bind.
  destruct (registry_opens w) as (r & -> & Hp). rewrite read_eq by done.
  destruct (loaded_readable r _ Hr) as (-> & _). done.
Qed.

Lemma elem_of_due w now e :
  e ∈ List.filter (fun e => is_due e now)
        (sort_entries (List.filter (fun _ => true) (map_values (jobs (w_disk w)))))
  <-> jobs (w_disk w) !! ce_id e = Some e /\ is_due e now = true.
Proof.
  rewrite list_elem_of_In, filter_In, <- list_elem_of_In, elem_of_sort_entries,
    list_elem_of_In, filter_In, <- list_elem_of_In, elem_of_map_values. split.
  - intros [[(id & He) _] Hd]. by rewrite (jobs_keyed _ _ _ He).
  - intros [He Hd]. eauto.
Qed.

Lemma due_ids w now :
  NoDup (ce_id <$> List.filter (fun e => is_due e now)
           (sort_entries (List.filter (fun _ => true) (map_values (jobs (w_disk w)))))).
Proof.
  rewrite !(filter_all_true (fun _ => true)) by done.
  eapply sublist_NoDup; [|apply fmap_sublist, sublist_filter_bool].
  unfold sort_entries. rewrite (merge_sort_Permutation entry_le _). apply NoDup_map_values, jobs_keyed.
Qed.

Lemma existsb_run run l : existsb (is_run run) l = true <-> exists e, e ∈ l /\ (ce_id e, ce_next_run_at e) = run.
Proof.
  rewrite existsb_exists. setoid_rewrite <- list_elem_of_In. unfold is_run.
  split; intros (e & He & H); exists e; (split; [done|]); by apply bool_decide_eq_true in H || apply bool_decide_eq_true.
Qed.

(** ** The steps keep the invariant *)

Lemma stale_step g w w' run : store_step g w w' -> stale w' run = stale_in (g (jobs (w_disk w))) run.
Proof. intros (_ & _ & _ & E). unfold stale. by rewrite E. Qed.

Lemma stale_delete id m run : stale_in (delete id m) run = true -> stale_in m run = true.
Proof.
  unfold stale_in. destruct (decide (id = run.1)) as [->|Hne].
  - by rewrite lookup_delete_eq.
  - by rewrite lookup_delete_ne.
Qed.

Lemma stale_insert id e m run :
  ce_next_run_at e = None -> stale_in (<[id := e]> m) run = true -> stale_in m run = true.
Proof.
  intros He. unfold stale_in. destruct (decide (id = run.1)) as [->|Hne].
  - rewrite lookup_insert_eq. cbn. by rewrite He.
  - by rewrite lookup_insert_ne.
Qed.

Lemma stale_kept f id m run :
  (forall e, ce_next_run_at (f e) = ce_next_run_at e) -> stale_in (alter f id m) run = stale_in m run.
Proof.
  intros Hf. unfold stale_in. destruct (decide (id = run.1)) as [->|Hne].
  - rewrite lookup_alter_eq. destruct (m !! run.1) as [e|]; [|done]. cbn. by rewrite Hf.
  - by rewrite lookup_alter_ne.
Qed.

Lemma stale_moved f id next m run :
  (forall e, ce_next_run_at (f e) = next) -> stale_in (alter f id m) run = true ->
  stale_in m run = true \/ run.1 = id /\ exists k n, next = Some k /\ run.2 = Some n /\ (k <= n)%N.
Proof.
  intros Hf. unfold stale_in. destruct (decide (id = run.1)) as [->|Hne].
  - rewrite lookup_alter_eq. destruct (m !! run.1) as [e|]; [|done]. cbn. rewrite Hf.
    destruct next as [k|], run.2 as [n|]; try done. intros H%N.leb_le. right. split; [done|]. by exists k, n.
  - rewrite lookup_alter_ne by done. by left.
Qed.

(** What every step but a fire leaves to show. *)
Lemma keeps_ok events more s w' pc' :
  sys_ok events s -> healthy w' -> runs w' = runs (s_world s) ++ omap event_run more ->
  (w_now (s_world s) <= w_now w')%N -> (forall run, times_fired run more = 0) ->
  (forall now, pass_time pc' = Some now ->
     pass_time (s_pc s) = Some now \/ now = w_now (s_world s)) ->
  NoDup (ce_id <$> in_hand pc') ->
  (forall now e, pass_time pc' = Some now -> e ∈ unclaimed pc' \/ taken pc' = Some e ->
     exists n, ce_next_run_at e = Some n /\ (n <= now)%N) ->
  (forall e now r rest, pc' = Claiming now e r rest -> is_Some (ci_store_path r)) ->
  (forall run, times_fired run events = 0 /\ fires_left {| s_world := w'; s_pc := pc' |} run <= 1
     \/ fires_left {| s_world := w'; s_pc := pc' |} run <= fires_left s run + times_moved_back run more) ->
  sys_ok (events ++ more) {| s_world := w'; s_pc := pc' |}.
Proof.
  intros [Hh He Hp _ Ht _ _ Hpaid] Hh' Hr Hn Hf Hpt Hnd Hd Hreg Hl. split; cbn [s_world s_pc]; try done.
  - by rewrite Hr, He, omap_app.
  - intros id o [Hin|Hin]%elem_of_app.
    + destruct (Hp id o Hin) as (n & -> & H1 & H2). exists n. split_and!; [done|lia|].
      intros now Hnow. destruct (Hpt now Hnow) as [H| ->]; [auto|done].
    + exfalso. specialize (Hf (id, o)). unfold times_fired in Hf. apply list_elem_of_In in Hin.
      assert (In (Fires (id, o)) (List.filter (is_fire (id, o)) more)) as Hin'
        by (apply filter_In; split; [done|by apply bool_decide_eq_true]).
      by destruct (List.filter _ _).
  - intros now Hnow. destruct (Hpt now Hnow) as [H| ->]; [specialize (Ht now H); lia|done].
  - intros run. rewrite times_fired_app, times_moved_back_app, Hf. specialize (Hpaid run).
    destruct (Hl run) as [[E H]|H]; lia.
Qed.

(** A step of the store that says nothing more. *)
Lemma store_keeps g events more s w' :
  sys_ok events s -> store_step g (s_world s) w' -> omap event_run more = [] ->
  (forall run, times_fired run more = 0) ->
  (forall run, stale_in (g (jobs (w_disk (s_world s)))) run = true ->
     stale (s_world s) run = true \/ times_moved_back run more = 1) ->
  sys_ok (events ++ more) {| s_world := w'; s_pc := s_pc s |}.
Proof.
  intros Hok Hs Hm Hf Hst. pose proof Hs as (Hh & Hn & Hr & _). pose proof Hok as [_ _ _ Hnd _ Hd Hreg _].
  apply (keeps_ok events more s); try done; [by rewrite Hm, app_nil_r|lia|by left|].
  intros run. right. unfold fires_left. cbn [s_world s_pc]. rewrite (stale_step g _ _ run Hs).
  specialize (Hst run). destruct (stale_in _ run), (stale (s_world s) run), (existsb _ _); cbn; try lia;
    destruct (Hst eq_refl) as [|H]; done || lia.
Qed.

(** The next run of a job that was just dealt with lies behind everything fired so far. *)
Lemma stale_next events s w' f e now run :
  sys_ok events s -> store_step (alter f (ce_id e)) (s_world s) w' -> pass_time (s_pc s) = Some now ->
  (forall x, ce_next_run_at (f x) = next_of e now) -> times_fired run events <> 0 ->
  stale w' run = true -> stale (s_world s) run = true /\ run.1 <> ce_id e.
Proof.
  intros Hok Hs Hnow Hf Hrun Hst. pose proof (ok_healthy _ _ Hok) as (_ & _ & _ & Hmax).
  pose proof (ok_time _ _ Hok now Hnow) as Hle.
  destruct run as [id o]. destruct (ok_past _ _ Hok id o) as (n & -> & _ & Hn); [apply fired_in; lia|].
  specialize (Hn now Hnow).
  assert (forall k, next_of e now = Some k -> (now < k)%N) as Hk by (intros k; apply next_of_later; lia).
  rewrite (stale_step _ _ _ _ Hs) in Hst. destruct (decide (id = ce_id e)) as [->|Hne]; cbn [fst].
  - exfalso. unfold stale_in in Hst. cbn [fst snd] in Hst. rewrite lookup_alter_eq in Hst.
    destruct (jobs _ !! ce_id e) as [x|]; [|done]. cbn in Hst. rewrite Hf in Hst.
    destruct (next_of e now) as [k|] eqn:E; [|done]. specialize (Hk k eq_refl). apply N.leb_le in Hst. lia.
  - split; [|done]. unfold stale, stale_in in *. cbn [fst snd] in *. by rewrite lookup_alter_ne in Hst.
Qed.

Lemma claim_ok events w now e rest :
  sys_ok events {| s_world := w; s_pc := Looping now (e :: rest) |} ->
  sys_ok (events ++ []) {| s_world := (claim_next store_path e now w).1; s_pc := Claiming now e (claim_next store_path e now w).2 rest |}.
Proof.
  intros Hok. pose proof Hok as [Hw _ _ Hnd _ Hd _ _]. cbn [s_world s_pc in_hand unclaimed taken pass_time] in *.
  unfold claim_next, mbind, io_bind. destruct (registry_opens w) as (r & -> & Hp).
  pose proof (healthy_modify (ce_id e) (put_next_run (next_of e now)) r w Hw Hp (fun _ => eq_refl)) as [Hs Hp'].
  unfold set_next_run in *. destruct (modify _ _ r w) as [w' [r' res]]. cbn [fst snd] in *.
  change (sys_ok (events ++ []) {| s_world := w'; s_pc := Claiming now e r' rest |}).
  pose proof Hs as (Hh & Hn & Hr & _). apply NoDup_cons in Hnd as Hnd'. destruct Hnd' as [Hni _].
  apply (keeps_ok events [] _ _ _ Hok); cbn [s_world s_pc in_hand unclaimed taken pass_time omap list_omap]; try done.
  - by rewrite app_nil_r.
  - lia.
  - by left.
  - intros now' x [= <-] Hx. apply (Hd now x); [done|]. destruct Hx as [Hx|[= ->]]; left; by constructor.
  - by intros x now' r0 rest0 [= <- <- <- <-].
  - intros run. unfold fires_left. cbn [s_world s_pc unclaimed taken existsb].
    destruct (Hd now e eq_refl ltac:(by left; left)) as (n & En & Hle).
    assert (is_run run e = true -> existsb (is_run run) rest = false /\ stale w' run = false) as Htaken.
    { intros E. apply bool_decide_eq_true in E as <-. split.
      - apply not_true_iff_false. intros (x & Hx & [= Hid _])%existsb_run. apply Hni. rewrite <- Hid.
        by apply list_elem_of_fmap_2.
      - destruct Hw as (_ & _ & _ & Hmax). pose proof (ok_time _ _ Hok now eq_refl) as Ht. cbn in Ht.
        apply not_true_iff_false. rewrite (stale_step _ _ _ _ Hs). unfold stale_in. cbn [fst snd].
        rewrite lookup_alter_eq. destruct (jobs _ !! ce_id e) as [x|]; [|done]. cbn. rewrite En.
        destruct (next_of e now) as [k|] eqn:Ek; [|done]. apply next_of_later in Ek; [|lia]. intros H%N.leb_le. lia. }
    destruct (decide (times_fired run events = 0)) as [E|E]; [left|right].
    + split; [done|]. destruct (is_run run e); [destruct Htaken as [-> ->]; done|].
      destruct (stale w' run), (existsb _ rest); cbn; lia.
    + pose proof (stale_next events _ w' _ e now run Hok Hs eq_refl (fun _ => eq_refl) E) as Hst. cbn [s_world] in Hst.
      destruct (is_run run e); [destruct Htaken as [-> ->]; try done; cbn; destruct (stale w run); cbn; lia|].
      destruct (stale w' run); [destruct Hst as [-> _]; [done|]; cbn; lia|].
      destruct (stale w run), (existsb _ rest); cbn; lia.
Qed.

(** Recording a result: [record] and [record_missed] change the one job. *)
Lemma record_ok events status error e now w pc rest :
  sys_ok events {| s_world := w; s_pc := pc |} -> pass_time pc = Some now -> unclaimed pc = rest ->
  NoDup (ce_id <$> rest) ->
  sys_ok (events ++ [])
    {| s_world := ((r ← registry store_path; record_result (ce_id e) status error (next_of e now) r) w).1;
       s_pc := Looping now rest |}.
Proof.
  intros Hok Hnow Hrest Hnd. pose proof Hok as [Hw _ _ _ _ Hd _ _]. cbn [s_world s_pc] in *.
  pose proof (open_modify (ce_id e) (put_result status error (next_of e now)) _ Hw (fun _ => eq_refl)) as Hs.
  pose proof Hs as (Hh & Hn & Hr & _). unfold record_result.
  apply (keeps_ok events [] _ _ _ Hok); cbn [s_world s_pc in_hand unclaimed taken pass_time omap list_omap]; try done.
  - by rewrite app_nil_r.
  - lia.
  - intros now' [= <-]. by left.
  - intros now' x [= <-] [Hx|]; [|done]. apply (Hd now x Hnow). left. by rewrite Hrest.
  - intros run. unfold fires_left. cbn [s_world s_pc unclaimed taken]. rewrite Hrest.
    destruct (decide (times_fired run events = 0)) as [E|E]; [left|right].
    + split; [done|]. destruct (_ || _); cbn; lia.
    + pose proof (stale_next events _ _ _ e now run Hok Hs Hnow (fun _ => eq_refl) E) as Hst. cbn [s_world] in Hst.
      destruct (stale _ run); [destruct Hst as [-> _]; [done|]; cbn; lia|].
      destruct (stale w run), (existsb _ rest); cbn; lia.
Qed.

Lemma fire_ok events w now e rest :
  sys_ok events {| s_world := w; s_pc := Claimed now e rest |} ->
  sys_ok (events ++ [Fires (effect_run (fire_effect e))])
    {| s_world := (fire e w).1; s_pc := Fired now e (fire e w).2 rest |}.
Proof.
  intros [Hh He Hp Hnd Ht Hd _ Hpaid]. cbn [s_world s_pc in_hand unclaimed taken pass_time] in *.
  destruct (Hd now e eq_refl ltac:(by right)) as (n & En & Hle). specialize (Ht now eq_refl).
  assert (effect_run (fire_effect e) = (ce_id e, Some n)) as Erun
    by (unfold fire_effect; destruct (ce_target e); cbn; by rewrite En).
  rewrite Erun. split; cbn [s_world s_pc in_hand unclaimed taken pass_time]; try done.
  - unfold runs in *. cbn [fire fst w_effects]. rewrite fmap_app, He, omap_app. cbn. by rewrite Erun.
  - intros id o [Hin|Hin%list_elem_of_singleton]%elem_of_app; [exact (Hp id o Hin)|]. injection Hin as -> ->.
    exists n. cbn. split_and!; [done|lia|]. by intros now' [= <-].
  - by intros now' [= <-].
  - intros now' x Hnow' [Hx|]; [|done]. apply (Hd now' x Hnow'). by left.
  - intros run. rewrite times_fired_app, times_moved_back_app. specialize (Hpaid run).
    unfold fires_left in *. cbn [s_world s_pc unclaimed taken] in *.
    change (stale (fire e w).1) with (stale w). unfold times_fired at 2, times_moved_back at 2.
    cbn [List.filter is_fire is_back length]. unfold is_run in Hpaid at 2. rewrite En in Hpaid.
    case_bool_decide; cbn [length Nat.b2n] in *; lia.
Qed.

(** What the other processes do keeps the invariant. *)
Lemma client_keeps events more s w :
  client (s_world s) more w -> sys_ok events s -> sys_ok (events ++ more) {| s_world := w; s_pc := s_pc s |}.
Proof.
  intros Hc Hok. pose proof (ok_healthy _ _ Hok) as Hw.
  assert (forall id (next : option N) f, (forall e, ce_next_run_at (f e) = next) -> forall run,
    stale_in (alter f id (jobs (w_disk (s_world s)))) run = true ->
    stale (s_world s) run = true \/ times_moved_back run [Moves id next] = 1) as Hmove.
  { intros id next f Hf run H. destruct (stale_moved f id next _ run Hf H) as [|(<- & k & n & -> & Hn & Hle)]; [by left|].
    right. unfold times_moved_back. cbn. rewrite Hn, String.eqb_refl, (proj2 (N.leb_le k n) Hle). done. }
  destruct Hc as [params r Hp|id r Hp|id f r Hp Hf|id next r Hp|e|id status error next r Hp].
  - destruct (healthy_create params r _ Hw Hp) as (e & Hnone & Hs & _).
    apply (store_keeps _ _ _ _ _ Hok Hs); [done|done|]. intros run H. left. by eapply stale_insert.
  - destruct (healthy_delete id r _ Hw Hp) as [Hs _].
    apply (store_keeps _ _ _ _ _ Hok Hs); [done|done|]. intros run H. left. by eapply stale_delete.
  - destruct (healthy_modify id f r _ Hw Hp (fun e => proj1 (Hf e))) as [Hs _].
    apply (store_keeps _ _ _ _ _ Hok Hs); [done|done|]. intros run. rewrite stale_kept; [by left|].
    intros e. by rewrite (proj2 (Hf _)).
  - destruct (healthy_modify id (put_next_run next) r _ Hw Hp (fun _ => eq_refl)) as [Hs _].
    apply (store_keeps _ _ _ _ _ Hok Hs); [done|done|].
    by apply (Hmove id next (fun x => put_next_run next (put_updated_at (w_now (s_world s)) x))).
  - pose proof Hok as [_ _ _ Hnd _ Hd Hreg _].
    apply (keeps_ok events _ s); try done; [by unfold runs; cbn; rewrite fmap_app|by left|].
    intros run. right. unfold fires_left. cbn [s_world s_pc]. change (stale (fire e (s_world s)).1) with (stale (s_world s)). lia.
  - destruct (healthy_modify id (put_result status error next) r _ Hw Hp (fun _ => eq_refl)) as [Hs _].
    apply (store_keeps _ _ _ _ _ Hok Hs); [done|done|].
    by apply (Hmove id next (fun x => put_result status error next (put_updated_at (w_now (s_world s)) x))).
Qed.

Lemma lease_ok events w :
  sys_ok events {| s_world := w; s_pc := Idle |} ->
  sys_ok (events ++ []) {| s_world := (due_jobs store_path (w_now w) w).1;
                           s_pc := Looping (w_now w) (due_jobs store_path (w_now w) w).2 |}.
Proof.
  intros Hok. pose proof (ok_healthy _ _ Hok) as Hw. cbn [s_world] in Hw. pose proof Hw as (Hr & _).
  rewrite due_jobs_eq by done. cbn [fst snd]. set (due := List.filter _ _).
  assert (forall e, e ∈ due -> jobs (w_disk w) !! ce_id e = Some e
            /\ exists n, ce_next_run_at e = Some n /\ (n <= w_now w)%N) as Hdue.
  { intros e [He Hd]%elem_of_due. split; [done|]. unfold is_due in Hd. apply andb_true_iff in Hd as [_ Hd].
    destruct (ce_next_run_at e) as [n|]; [|done]. apply N.leb_le in Hd. by exists n. }
  apply (keeps_ok events [] _ _ _ Hok); cbn [s_world s_pc in_hand unclaimed taken pass_time omap list_omap]; try done.
  - by rewrite app_nil_r.
  - intros now [= <-]. by right.
  - apply due_ids.
  - intros now e [= <-] [He|]; [by apply Hdue|done].
  - intros run. right. unfold fires_left. cbn [s_world s_pc unclaimed taken existsb].
    destruct (existsb (is_run run) due) eqn:E; [|rewrite orb_false_r; lia].
    apply existsb_run in E as (e & He & <-). destruct (Hdue e He) as (Hj & n & Hn & _).
    assert (stale w (ce_id e, ce_next_run_at e) = true) as ->; [|cbn; lia].
    unfold stale, stale_in. cbn. rewrite Hj. cbn. rewrite Hn. by apply N.leb_le.
Qed.


Lemma happens_keeps events s more s' :
  happens store_path s more s' -> sys_ok events s -> sys_ok (events ++ more) s'.
Proof.
  intros Hstep Hok. pose proof (ok_healthy _ _ Hok) as Hw.
  destruct Hstep as [w|w now e rest|w now e r rest|w now e rest _|w now e rest _|w now e o rest
                    |w now|w pc|s more w Hc|w t pc Ht]; cbn [s_world s_pc] in Hw.
  - by apply lease_ok.
  - by apply claim_ok.
  - assert (forall w', (forall run, stale w' run = stale w run) -> healthy w' -> runs w' = runs w -> w_now w' = w_now w ->
      sys_ok (events ++ []) {| s_world := w'; s_pc := Claimed now e rest |}) as Hkeep.
    { intros w' Hst Hh Hr Hn. pose proof Hok as [_ _ _ Hnd _ Hd _ _].
      apply (keeps_ok events [] _ _ _ Hok); cbn [s_world s_pc in_hand unclaimed taken pass_time omap list_omap] in *; try done.
      - by rewrite Hr, app_nil_r.
      - lia.
      - by left.
      - intros run. right. unfold fires_left. cbn [s_world s_pc unclaimed taken]. rewrite Hst. lia. }
    unfold claim_disable. destruct (is_one_shot e); [|by apply Hkeep].
    pose proof (healthy_modify (ce_id e) (fun x => put_enabled false (ce_retry_count x) x) r w Hw
                  (ok_handle _ _ Hok e now r rest eq_refl) (fun _ => eq_refl)) as [Hs _].
    unfold mbind, io_bind, registry_disable, registry_set_enabled.
    destruct (modify _ _ r w) as [w' out] eqn:E. cbn [fst] in Hs |- *.
    apply (Hkeep w'); [|apply Hs..]. intros run. rewrite (stale_step _ _ _ run Hs). by apply stale_kept.
  - pose proof (ok_ids _ _ Hok) as Hnd. cbn in Hnd. apply NoDup_cons in Hnd as [_ Hnd].
    pose proof (record_ok events "missed" None e now w (Claimed now e rest) rest Hok eq_refl eq_refl Hnd) as H.
    unfold record_missed, mbind, io_bind in *. destruct (registry_opens w) as (r & Er & _).
    rewrite Er in *. by destruct (record_result _ _ _ _ r w).
  - by apply fire_ok.
  - pose proof (ok_ids _ _ Hok) as Hnd. cbn in Hnd. apply NoDup_cons in Hnd as [_ Hnd].
    pose proof (record_ok events "ok" None e now w (Fired now e o rest) rest Hok eq_refl eq_refl Hnd) as H1.
    pose proof (fun x => record_ok events "error" (Some x) e now w (Fired now e o rest) rest Hok eq_refl eq_refl Hnd) as H2.
    unfold record, mbind, io_bind in *. destruct (registry_opens w) as (r & Er & _).
    rewrite Er in *. destruct o as [|x]; [clear H2|clear H1; specialize (H2 x)];
      rewrite ?Er in *; by destruct (record_result _ _ _ _ r w).
  - apply (keeps_ok events [] _ _ _ Hok); try done; [by cbn; rewrite app_nil_r|apply NoDup_nil_2|].
    intros run. right. unfold fires_left. cbn. lia.
  - apply (keeps_ok events [] _ _ _ Hok); try done; [by cbn; rewrite app_nil_r|apply NoDup_nil_2|].
    intros run. right. unfold fires_left. cbn. rewrite orb_false_r. destruct (stale w run), (existsb _ _); cbn; lia.
  - by apply (client_keeps events more s).
  - pose proof Hok as [(? & ? & ? & _) _ _ Hnd _ Hd Hreg _]. cbn [s_world s_pc] in *.
    apply (keeps_ok events [] _ _ _ Hok); cbn [s_world s_pc]; try done;
      [by split_and!; [..|cbn; lia]|by cbn; rewrite app_nil_r|cbn; lia|by left|].
    intros run. right. unfold fires_left. cbn [s_world s_pc]. change (stale (wait w t)) with (stale w). lia.
Qed.

Lemma happened_ok w events s :
  healthy w -> w_effects w = [] -> happened store_path w events s -> sys_ok events s.
Proof.
  intros Hw He. induction 1 as [|events s more s' _ IH Hstep]; [|by eapply happens_keeps].
  split; cbn [s_world s_pc]; try done; [by unfold runs; rewrite He|by intros id o ?%elem_of_nil|apply NoDup_nil_2|].
  intros run. unfold fires_left, times_fired, times_moved_back. cbn. rewrite orb_false_r.
  destruct (stale w run); cbn; lia.
Qed.

(** C21. A due run fires once, and again only after it was moved back.  Whatever the holder
    of the lease, however often it crashes and is replaced, and whatever the other processes
    create, delete, edit, arm or trigger in between, while the store can be read and written
    the holders of the lease fire a run of a job at most once more than other processes moved the
    job's next run back to that run or to an earlier one: by arming a one-shot whose time has
    passed, or with a next run they had read before.  The effects are exactly those fires
    and the ones triggered by hand. *)
Theorem run_fires_once_unless_moved_back w events s :
  healthy w -> w_effects w = [] -> happened store_path w events s ->
  runs (s_world s) = omap event_run events
  /\ forall run, times_fired run events <= 1 + times_moved_back run events.
Proof.
  intros Hw He Hevents. pose proof (happened_ok w events s Hw He Hevents) as Hok.
  split; [apply Hok|]. intros run. pose proof (ok_paid _ _ Hok run). lia.
Qed.

(** ** What the service does is what other processes may do *)

(** [m] is made of steps of another process, and ends with a [Q]. *)
Definition acts {A} (Q : A -> Prop) (m : io A) : Prop :=
  forall w, healthy w -> healthy (m w).1 /\ Q (m w).2 /\ rtc (fun w w' => exists events, client w events w') w (m w).1.

Lemma acts_bind {A B} (Q : A -> Prop) (R : B -> Prop) (m : io A) (f : A -> io B) :
  acts Q m -> (forall a, Q a -> acts R (f a)) -> acts R (a ← m; f a).
Proof.
  intros Hm Hf w Hw. destruct (Hm w Hw) as (H1 & H2 & H3). unfold mbind, io_bind.
  destruct (m w) as [w1 a]. destruct (Hf a H2 w1 H1) as (H4 & H5 & H6).
  split_and!; [done|done|]. by etransitivity.
Qed.

Lemma acts_ret {A} (Q : A -> Prop) (a : A) : Q a -> acts Q (mret a).
Proof. intros H w Hw. split_and!; [done|done|constructor]. Qed.

(** A registry whose store is named. *)
Definition backed (r : CronInner) : Prop := is_Some (ci_store_path r).
Definition backed_fst {B} (out : CronInner * B) : Prop := backed out.1.

Lemma acts_registry : acts backed (registry store_path).
Proof. intros w Hw. destruct (registry_opens w) as (r & -> & Hp). split_and!; [done|done|constructor]. Qed.

Lemma acts_now : acts (fun _ => True) now_secs.
Proof. intros w (Hr & Hf & Hc & Hn). unfold now_secs. rewrite Hc. split_and!; [done|done|constructor]. Qed.

Lemma acts_modify id f r :
  backed r -> (forall e, ce_id (f e) = ce_id e /\ ce_next_run_at (f e) = ce_next_run_at e) -> acts backed_fst (modify id f r).
Proof.
  intros Hp Hf w Hw. destruct (healthy_modify id f r w Hw Hp (fun e => proj1 (Hf e))) as [(Hh & _) Hp'].
  split_and!; [done|done|]. apply rtc_once. eexists. by apply client_modify.
Qed.

Lemma acts_set_next_run id next r : backed r -> acts backed_fst (set_next_run id next r).
Proof.
  intros Hp w Hw. destruct (healthy_modify id (put_next_run next) r w Hw Hp (fun _ => eq_refl)) as [(Hh & _) Hp'].
  split_and!; [done|done|]. apply rtc_once. eexists. by apply client_arm.
Qed.

Lemma acts_record_result id status error next r : backed r -> acts backed_fst (record_result id status error next r).
Proof.
  intros Hp w Hw. destruct (healthy_modify id (put_result status error next) r w Hw Hp (fun _ => eq_refl)) as [(Hh & _) Hp'].
  split_and!; [done|done|]. apply rtc_once. eexists. by apply client_record.
Qed.

Lemma acts_create params r : backed r -> acts backed_fst (create_full params r).
Proof.
  intros Hp w Hw. destruct (healthy_create params r w Hw Hp) as (e & _ & (Hh & _) & Hp').
  split_and!; [done|done|]. apply rtc_once. eexists. by apply client_create.
Qed.

Lemma acts_delete id r : backed r -> acts backed_fst (registry_delete id r).
Proof.
  intros Hp w Hw. destruct (healthy_delete id r w Hw Hp) as [(Hh & _) Hp'].
  split_and!; [done|done|]. apply rtc_once. eexists. by apply client_delete.
Qed.

Lemma acts_fire e : acts (fun _ => True) (fire e).
Proof.
  intros w Hw. split_and!; [done|done|]. apply rtc_once. eexists. apply client_trigger.
Qed.

Lemma acts_read {A} (g : CronInner -> A) r : backed r -> acts backed_fst (read g r).
Proof.
  intros Hp w Hw. rewrite read_eq by done. destruct Hw as (Hr & Hw).
  destruct (loaded_readable r _ Hr) as (_ & _ & Hpath).
  split_and!; [done| |constructor]. unfold backed_fst, backed. cbn. by rewrite Hpath.
Qed.

Lemma acts_get_or_missing r id : backed r -> acts backed_fst (get_or_missing r id).
Proof.
  intros Hr. unfold get_or_missing. eapply acts_bind; [by apply acts_read|]. intros out Hout. by apply acts_ret.
Qed.

Lemma acts_arm r id : backed r -> acts (fun _ => True) (arm r id).
Proof.
  intros Hr. unfold arm. eapply acts_bind; [by apply acts_get_or_missing|]. intros [r1 [entry|e]] Hr1; cbn [fst snd].
  2: by apply acts_ret.
  eapply acts_bind; [apply acts_now|]. intros t _.
  eapply acts_bind; [by apply acts_set_next_run|]. intros [r2 [u|e]] Hr2; cbn [fst snd]; [|by apply acts_ret].
  eapply acts_bind; [by apply acts_get_or_missing|]. intros out _. by apply acts_ret.
Qed.

Lemma acts_set_enabled id enabled : acts (fun _ => True) (service_set_enabled store_path id enabled).
Proof.
  unfold service_set_enabled. eapply acts_bind; [apply acts_registry|]. intros r Hr.
  eapply acts_bind; [by apply acts_modify|]. intros [r1 [u|e]] Hr1; cbn [fst snd]; [|by apply acts_ret].
  destruct enabled; [by apply acts_arm|].
  eapply acts_bind; [by apply acts_get_or_missing|]. intros out _. by apply acts_ret.
Qed.

Lemma acts_service_create params : acts (fun _ => True) (service_create store_path params).
Proof.
  unfold service_create. destruct (validate _ _ _); [|by apply acts_ret].
  destruct (blank_agent _); [by apply acts_ret|]. destruct (is_blank _); [by apply acts_ret|].
  eapply acts_bind; [apply acts_registry|]. intros r Hr.
  eapply acts_bind; [by apply acts_create|]. intros [r1 [entry|e]] Hr1; cbn [fst snd]; [by apply acts_arm|by apply acts_ret].
Qed.

Lemma acts_update id change : acts (fun _ => True) (service_update store_path id change).
Proof.
  unfold service_update. eapply acts_bind; [apply acts_registry|]. intros r Hr.
  eapply acts_bind; [by apply acts_get_or_missing|]. intros [r1 [current|e]] Hr1; cbn [fst snd]; [|by apply acts_ret].
  destruct (if negb _ || _ || _ then validate _ _ _ else Ok tt); [|by apply acts_ret]. destruct (map_or _ _ _); [by apply acts_ret|].
  destruct (map_or _ _ _); [by apply acts_ret|].
  eapply acts_bind; [by apply acts_modify|]. intros [r2 [u|e]] Hr2; cbn [fst snd]; [|by apply acts_ret].
  destruct (cu_enabled change); [apply acts_set_enabled|]. destruct (negb _ || _ || _); [by apply acts_arm|].
  eapply acts_bind; [by apply acts_get_or_missing|]. intros out _. by apply acts_ret.
Qed.

Lemma acts_remove id : acts (fun _ => True) (service_remove store_path id).
Proof.
  unfold service_remove. eapply acts_bind; [apply acts_registry|]. intros r Hr.
  eapply acts_bind; [by apply acts_delete|]. intros out _. by apply acts_ret.
Qed.

Lemma acts_record e outcome next : acts (fun _ => True) (record store_path e outcome next).
Proof.
  unfold record. eapply acts_bind; [apply acts_registry|]. intros r Hr.
  destruct outcome; (eapply acts_bind; [by apply acts_record_result|]; intros out _; by apply acts_ret).
Qed.

Lemma acts_trigger id : acts (fun _ => True) (trigger store_path id).
Proof.
  unfold trigger, service_get. eapply acts_bind.
  { eapply (acts_bind backed (fun _ => True)); [apply acts_registry|]. intros r Hr.
    eapply acts_bind; [by apply acts_read|]. intros out _. by apply acts_ret. }
  intros [e|] _; [|by apply acts_ret]. unfold trigger_read.
  eapply (acts_bind (fun _ : string => True)); [|intros status _; by apply acts_ret].
  eapply acts_bind; [apply acts_fire|]. intros outcome _. apply acts_record.
Qed.

End AtMostOnce.
