(* ===== verification/CronSafety.v ===== *)
(** * Scheduled jobs: what every surface may rely on

    The store only ever holds jobs that pass validation, whatever sequence of service
    and scheduler calls runs and however writes fail; a job that was accepted fires or
    is recorded as missed at the first pass after its time; and two situations in
    which a run fires more than once.  The last section instantiates the store's JSON
    and the schedule crates and gives the theorems at concrete jobs. *)
From S2P Require Import Prelude.
From stdpp Require Import list gmap sorting relations.
From S2P Require Import RustStr TurnInput Cron CronScheduler.

(** ** Stored jobs are valid *)

Section Valid.
Context {CL : CronLib} {SJ : StoreJson}.
Variable store_path : string.

Definition valid_job (e : CronEntry) : Prop :=
  validate (ce_kind e) (ce_schedule e) (ce_tz e) = Ok tt
  /\ blank_agent (ce_target e) = false /\ is_blank (ce_prompt e) = false.

Definition store_valid (f : StoreFile) : Prop :=
  forall id e, jobs f !! id = Some e -> valid_job e.

Definition reg_ok (r : CronInner) : Prop :=
  keyed (ci_entries r) /\ forall id e, ci_entries r !! id = Some e -> valid_job e.

(** [m] keeps the store valid, and its result satisfies [Q]. *)
Definition keeps {A} (Q : A -> Prop) (m : io A) : Prop :=
  forall w, store_valid (w_disk w) -> store_valid (w_disk (m w).1) /\ Q (m w).2.

Lemma keeps_ret {A} (Q : A -> Prop) a : Q a -> keeps Q (mret a : io A).
Proof. by intros Ha w Hw. Qed.

Lemma keeps_bind {A B} (P : A -> Prop) (Q : B -> Prop) (m : io A) (f : A -> io B) :
  keeps P m -> (forall a, P a -> keeps Q (f a)) -> keeps Q (m ≫= f).
Proof.
  intros Hm Hf w Hw. unfold mbind, io_bind. destruct (m w) as [w1 a] eqn:E.
  destruct (Hm w Hw) as [Hw1 Ha]. rewrite E in Hw1, Ha. by apply (Hf a Ha).
Qed.

Lemma keeps_weaken {A} (P Q : A -> Prop) m : keeps P m -> (forall a, P a -> Q a) -> keeps Q m.
Proof. intros Hm HPQ w Hw. destruct (Hm w Hw). auto. Qed.

Lemma keeps_now : keeps (fun _ => True) now_secs.
Proof. intros w Hw. destruct (now_secs_frame w) as [_ ->]. done. Qed.

Lemma keeps_fire e : keeps (fun _ => True) (fire e).
Proof. by intros w Hw. Qed.

Lemma loaded_ok r f : reg_ok r -> store_valid f -> reg_ok (loaded r f).
Proof.
  intros [Hk Hv] Hf. split; [by apply loaded_keyed|]. intros id e He.
  destruct f as [| |raw]; [|by eapply Hv|].
  - by apply (Hf id e).
  - unfold store_valid, jobs in Hf. cbn [loaded] in *.
    destruct (doc_from_json raw) as [d|]; [|by eapply Hv]. apply (Hf id e).
    unfold load_doc in *. by destruct (fold_left _ _ _).
Qed.

Lemma blank_ok p : reg_ok {| ci_entries := ∅; ci_counter := 0; ci_store_path := p |}.
Proof. split; intros id e; cbn; by rewrite lookup_empty. Qed.

Lemma keeps_reload r : reg_ok r -> keeps reg_ok (reload r).
Proof.
  intros Hr w Hw. unfold reload. destruct (ci_store_path r); [|by split].
  split; [done|]. by apply loaded_ok.
Qed.

Lemma keeps_registry : keeps reg_ok (registry store_path).
Proof. apply keeps_reload, blank_ok. Qed.

Lemma keeps_persist r : reg_ok r -> keeps (fun _ => True) (persist r).
Proof.
  intros [Hk Hv] w Hw. split; [|done]. unfold persist. destruct (ci_store_path r); [|done].
  assert (store_valid (stored r)) by (intros id e; rewrite jobs_stored by done; apply Hv).
  unfold write_disk. by destruct (w_faults w) as [|[] l].
Qed.

Lemma keeps_mutate {T} (P : result CronError T -> Prop)
    (change : CronInner -> io (CronInner * result CronError T)) r :
  reg_ok r ->
  (forall r1, reg_ok r1 -> keeps (fun o => reg_ok o.1 /\ P o.2) (change r1)) ->
  keeps (fun o => reg_ok o.1 /\ P o.2) (mutate change r).
Proof.
  intros Hr Hc. unfold mutate. eapply keeps_bind; [by apply keeps_reload|]. intros r1 Hr1.
  eapply keeps_bind; [by apply Hc|]. intros [r2 [t|e]] [Hr2 HP]; [|by apply keeps_ret].
  eapply keeps_bind; [by apply keeps_persist|]. intros _ _. by apply keeps_ret.
Qed.

Lemma reg_ok_insert r id e :
  reg_ok r -> ce_id e = id -> valid_job e -> reg_ok (put_entries r (<[id := e]> (ci_entries r))).
Proof.
  intros [Hk Hv] Hid He. split; intros j x Hx; cbn [put_entries ci_entries] in Hx;
    apply lookup_insert_Some in Hx as [[<- <-]|[_ Hx]]; [done|by apply Hk|done|by eapply Hv].
Qed.

Lemma keeps_modify id f r :
  reg_ok r -> (forall e, ce_id (f e) = ce_id e) -> (forall e, valid_job e -> valid_job (f e)) ->
  keeps (fun o => reg_ok o.1) (modify id f r).
Proof.
  intros Hr Hid Hf. eapply (keeps_weaken (fun o => reg_ok o.1 /\ True)); [|by intros o [? _]].
  apply (keeps_mutate (fun _ => True)); [done|]. intros r1 Hr1.
  destruct (ci_entries r1 !! id) as [e|] eqn:He; [|by apply keeps_ret].
  eapply keeps_bind; [apply keeps_now|]. intros t _. apply keeps_ret. split; [|done].
  apply reg_ok_insert; [done| |].
  - rewrite Hid. cbn. by apply (proj1 Hr1).
  - apply Hf. by apply (proj2 Hr1 _ _ He).
Qed.

Lemma keeps_get id r : reg_ok r ->
  keeps (fun o => reg_ok o.1 /\ forall e, o.2 = Ok e -> valid_job e) (get_or_missing r id).
Proof.
  intros Hr. unfold get_or_missing, registry_get, read.
  eapply (keeps_bind (fun o => reg_ok o.1 /\ forall e, o.2 = Some e -> valid_job e)).
  - eapply keeps_bind; [by apply keeps_reload|]. intros r1 [Hk Hv]. apply keeps_ret.
    split; [done|]. intros e. apply Hv.
  - intros [r1 o] [Hr1 Ho]. apply keeps_ret. split; [done|]. intros e. destruct o; [|done].
    cbn. intros [= <-]. by apply Ho.
Qed.

Lemma keeps_arm r id : reg_ok r -> keeps (fun _ => True) (arm r id).
Proof.
  intros Hr. unfold arm. eapply keeps_bind; [by apply keeps_get|].
  intros [r1 [e|e]] [Hr1 _]; [|by apply keeps_ret]. cbn [fst snd].
  eapply keeps_bind; [apply keeps_now|]. intros t _.
  eapply keeps_bind; [by apply keeps_modify|].
  intros [r2 [u|u]] Hr2; [|by apply keeps_ret].
  eapply keeps_bind; [by apply keeps_get|]. intros o _. by apply keeps_ret.
Qed.

Lemma keeps_create params : keeps (fun _ => True) (service_create store_path params).
Proof.
  unfold service_create. destruct (validate _ _ _) as [[]|] eqn:Hv; [|by apply keeps_ret].
  destruct (blank_agent _) eqn:Ha; [by apply keeps_ret|].
  destruct (is_blank _) eqn:Hb; [by apply keeps_ret|].
  eapply keeps_bind; [apply keeps_registry|]. intros r Hr.
  eapply keeps_bind.
  - apply (keeps_mutate (fun _ => True)); [done|]. intros r1 Hr1.
    eapply keeps_bind; [apply keeps_now|]. intros t _. apply keeps_ret. split; [|done].
    exact (reg_ok_insert r1 _ (created params t (u64_add (ci_counter r1) 1)) Hr1 eq_refl
             (conj Hv (conj Ha Hb))).
  - intros [r1 [e|e]] [Hr1 _]; [by apply keeps_arm|by apply keeps_ret].
Qed.

Lemma keeps_remove id : keeps (fun _ => True) (service_remove store_path id).
Proof.
  unfold service_remove. eapply keeps_bind; [apply keeps_registry|]. intros r Hr.
  eapply keeps_bind; [|intros o _; by apply keeps_ret].
  apply (keeps_mutate (fun _ => True)); [done|]. intros r1 [Hk Hv]. apply keeps_ret. split; [|done].
  split; intros j x Hx; cbn [fst put_entries ci_entries] in Hx;
    apply lookup_delete_Some in Hx as [_ Hx]; eauto.
Qed.

Lemma keeps_set_enabled id b : keeps (fun _ => True) (service_set_enabled store_path id b).
Proof.
  unfold service_set_enabled. eapply keeps_bind; [apply keeps_registry|]. intros r Hr.
  eapply keeps_bind; [by apply keeps_modify|]. intros [r1 [u|u]] Hr1; [|by apply keeps_ret].
  destruct b; [by apply keeps_arm|].
  eapply keeps_bind; [by apply keeps_get|]. intros o _. by apply keeps_ret.
Qed.

(** An accepted update yields a valid entry from any valid one. *)
Lemma put_update_valid kind schedule tz c e :
  validate kind schedule tz = Ok tt -> map_or false blank_agent (cu_target c) = false ->
  map_or false is_blank (cu_prompt c) = false ->
  valid_job e -> valid_job (put_update kind schedule tz c e).
Proof.
  intros Hv Ht Hp (_ & Ha & Hb). split; [done|]. cbn.
  destruct (cu_target c), (cu_prompt c); cbn in *; auto.
Qed.

Lemma keeps_update id c : keeps (fun _ => True) (service_update store_path id c).
Proof.
  unfold service_update. eapply keeps_bind; [apply keeps_registry|]. intros r Hr.
  eapply keeps_bind; [by apply keeps_get|]. intros [r1 [cur|e]] [Hr1 Hcur]; [|by apply keeps_ret].
  cbn [fst snd] in *. specialize (Hcur cur eq_refl).
  set (kind := default _ _). set (schedule := default _ _). set (tz := or_else _ _).
  set (rescheduled := negb _ || _ || _).
  destruct (if rescheduled then _ else _) as [[]|e] eqn:Hv; [|by apply keeps_ret].
  destruct (map_or false blank_agent _) eqn:Ha; [by apply keeps_ret|].
  destruct (map_or false is_blank _) eqn:Hb; [by apply keeps_ret|].
  assert (validate kind schedule tz = Ok tt) as Hok.
  { destruct rescheduled eqn:Hre; [done|]. unfold rescheduled in Hre. bool_hyps.
    match goal with H : String.eqb _ _ = true |- _ => apply String.eqb_eq in H; rewrite H end.
    match goal with H1 : kind = _, H2 : tz = _ |- _ => rewrite H1, H2 end. apply Hcur. }
  eapply keeps_bind.
  { apply keeps_modify; [done|done|]. intros e. by apply put_update_valid. }
  intros [r2 [u|u]] Hr2; [|by apply keeps_ret].
  destruct (cu_enabled c) as [b|]; [by apply keeps_set_enabled|].
  destruct rescheduled; [by apply keeps_arm|].
  eapply keeps_bind; [by apply keeps_get|]. intros o _. by apply keeps_ret.
Qed.

Lemma keeps_record_result id status error next r :
  reg_ok r -> keeps (fun _ => True) (record_result id status error next r).
Proof. intros Hr. by eapply keeps_weaken; [apply keeps_modify|]. Qed.

Lemma keeps_record e outcome next : keeps (fun _ => True) (record store_path e outcome next).
Proof.
  unfold record. eapply keeps_bind; [apply keeps_registry|]. intros r Hr.
  destruct outcome; (eapply keeps_bind; [by apply keeps_record_result|]); intros o _; by apply keeps_ret.
Qed.

Lemma keeps_tick now : keeps (fun _ => True) (tick store_path now).
Proof.
  unfold tick. eapply (keeps_bind (fun _ => True)).
  - intros w Hw. unfold due_jobs, service_list, registry_list, read, mbind, io_bind.
    destruct (registry_opens store_path w) as (r & -> & Hp). by rewrite reload_eq by done.
  - intros due _. generalize (@nil (string * string)).
    induction due as [|e due IH]; intros handled; [by apply keeps_ret|].
    cbn [tick_loop]. eapply (keeps_bind (fun _ => True)); [|intros st _; apply IH].
    unfold handle, claim, claim_next, claim_disable.
    eapply (keeps_bind (fun _ => True)).
    + eapply (keeps_bind reg_ok).
      * eapply keeps_bind; [apply keeps_registry|]. intros r Hr.
        eapply keeps_bind; [by apply keeps_modify|]. intros o Ho. by apply keeps_ret.
      * intros r Hr. eapply (keeps_bind (fun _ => True)); [|intros [] _; by apply keeps_ret].
        destruct (is_one_shot e); [|by apply keeps_ret].
        eapply keeps_bind; [by apply keeps_modify|]. intros o _. by apply keeps_ret.
    + intros next _. destruct (_ <? _)%N.
      * unfold record_missed. eapply keeps_bind; [apply keeps_registry|]. intros r Hr.
        eapply keeps_bind; [by apply keeps_record_result|]. intros o _. by apply keeps_ret.
      * eapply keeps_bind; [apply keeps_fire|]. intros o _. apply keeps_record.
Qed.

Lemma keeps_trigger id : keeps (fun _ => True) (trigger store_path id).
Proof.
  unfold trigger. eapply (keeps_bind (fun _ => True)).
  - unfold service_get, registry_get, read. intros w Hw. unfold mbind, io_bind.
    destruct (registry_opens store_path w) as (r & -> & Hp). by rewrite reload_eq by done.
  - intros [e|] _; [|by apply keeps_ret]. eapply (keeps_bind (fun _ => True)).
    + eapply keeps_bind; [apply keeps_fire|]. intros o _. apply keeps_record.
    + intros s _. by apply keeps_ret.
Qed.

(** What the command line, the tools, the editor and the scheduler ask for. *)
Inductive Request :=
| RCreate (params : CronCreateParams)
| RUpdate (cron_id : string) (change : CronUpdate)
| RSetEnabled (cron_id : string) (enabled : bool)
| RRemove (cron_id : string)
| RTrigger (cron_id : string)
| RTick (now : N).

Definition serve (w : World) (q : Request) : World :=
  match q with
  | RCreate params => (service_create store_path params w).1
  | RUpdate id change => (service_update store_path id change w).1
  | RSetEnabled id b => (service_set_enabled store_path id b w).1
  | RRemove id => (service_remove store_path id w).1
  | RTrigger id => (trigger store_path id w).1
  | RTick now => (tick store_path now w).1
  end.

(** C36. The store is well typed: from an empty store, or any store of valid jobs, no
    sequence of requests (whichever writes fail, whatever the clock reads) ever stores
    a job whose schedule would be refused, whose agent name is blank or whose message
    is blank. *)
Theorem stored_jobs_are_valid requests w :
  store_valid (w_disk w) -> store_valid (w_disk (fold_left serve requests w)).
Proof.
  revert w. induction requests as [|q qs IH]; intros w Hw; [done|]. apply IH.
  destruct q; cbn [serve].
  - by apply keeps_create.
  - by apply keeps_update.
  - by apply keeps_set_enabled.
  - by apply keeps_remove.
  - by apply keeps_trigger.
  - by apply keeps_tick.
Qed.

End Valid.

(** ** Accepted jobs fire *)

Section Liveness.
Context {CL : CronLib} {SJ : StoreJson}.
Variable store_path : string.

(** [m] only adds effects. *)
Definition adds {A} (m : io A) : Prop := forall w, exists l, w_effects (m w).1 = w_effects w ++ l.

Lemma adds_ret {A} (a : A) : adds (mret a : io A).
Proof. intros w. exists []. by rewrite app_nil_r. Qed.

Lemma adds_bind {A B} (m : io A) (f : A -> io B) : adds m -> (forall a, adds (f a)) -> adds (m ≫= f).
Proof.
  intros Hm Hf w. unfold mbind, io_bind. destruct (m w) as [w1 a] eqn:E.
  destruct (Hm w) as [l1 H1], (Hf a w1) as [l2 H2]. rewrite E in H1. cbn in H1.
  exists (l1 ++ l2). by rewrite H2, H1, app_assoc.
Qed.

Lemma adds_same {A} (m : io A) : (forall w, w_effects (m w).1 = w_effects w) -> adds m.
Proof. intros H w. exists []. by rewrite H, app_nil_r. Qed.

Lemma adds_now : adds now_secs.
Proof. apply adds_same. intros w. by destruct (now_secs_frame w) as [(_ & _ & ->) _]. Qed.

Lemma adds_reload r : adds (reload r).
Proof. apply adds_same. intros w. unfold reload. by destruct (ci_store_path r). Qed.

Lemma adds_persist r : adds (persist r).
Proof.
  apply adds_same. intros w. unfold persist, write_disk.
  destruct (ci_store_path r); [|done]. by destruct (w_faults w) as [|[] ?].
Qed.

Lemma adds_modify id f r : adds (modify id f r).
Proof.
  unfold modify, mutate. apply adds_bind; [apply adds_reload|]. intros r1. apply adds_bind.
  - destruct (ci_entries r1 !! id); [|apply adds_ret].
    apply adds_bind; [apply adds_now|intros; apply adds_ret].
  - intros [r2 [u|u]]; [|apply adds_ret]. apply adds_bind; [apply adds_persist|intros; apply adds_ret].
Qed.

Lemma adds_registry : adds (registry store_path).
Proof. apply adds_reload. Qed.

Lemma adds_record e outcome next : adds (record store_path e outcome next).
Proof.
  apply adds_bind; [apply adds_registry|]. intros r.
  destruct outcome; (apply adds_bind; [apply adds_modify|intros; apply adds_ret]).
Qed.

Lemma adds_claim e now : adds (claim store_path e now).
Proof.
  unfold claim, claim_next, claim_disable. apply adds_bind.
  - apply adds_bind; [apply adds_registry|]. intros r.
    apply adds_bind; [apply adds_modify|intros; apply adds_ret].
  - intros r. apply adds_bind; [|intros; apply adds_ret]. destruct (is_one_shot e); [|apply adds_ret].
    apply adds_bind; [apply adds_modify|intros; apply adds_ret].
Qed.

(** What the pass does with one listed job. *)
Definition handled_as (e : CronEntry) (now : N) (w : World) (handled : list (string * string)) : Prop :=
  exists status, (ce_id e, status) ∈ handled
    /\ (if (MISSED_GRACE_SECS <? late e now)%N then status = "missed"
        else fire_effect e ∈ w_effects w).

Lemma handle_handles now e w :
  exists l, w_effects (handle store_path now e w).1 = w_effects w ++ l
    /\ (if (MISSED_GRACE_SECS <? late e now)%N then (handle store_path now e w).2 = "missed"
        else fire_effect e ∈ l).
Proof.
  unfold handle, mbind, io_bind. destruct (claim store_path e now w) as [w1 next] eqn:E1.
  destruct (adds_claim e now w) as [l1 H1]. rewrite E1 in H1. cbn [fst] in H1.
  destruct (_ <? _)%N.
  - unfold record_missed, mbind, io_bind. destruct (registry store_path w1) as [w2 r] eqn:E2.
    destruct (adds_registry w1) as [l2 H2]. rewrite E2 in H2. cbn [fst] in H2.
    destruct (record_result _ _ _ _ r w2) as [w3 o] eqn:E3.
    destruct (adds_modify (ce_id e) (put_result "missed" None next) r w2) as [l3 H3].
    unfold record_result in E3. rewrite E3 in H3. cbn [fst] in H3. cbn.
    exists (l1 ++ l2 ++ l3). split; [|done]. by rewrite H3, H2, H1, !app_assoc.
  - destruct (fire e w1) as [w2 outcome] eqn:E2.
    assert (w_effects w2 = w_effects w1 ++ [fire_effect e]) as H2 by (unfold fire in E2; by simplify_eq).
    destruct (adds_record e outcome next w2) as [l3 H3].
    exists (l1 ++ [fire_effect e] ++ l3). rewrite H3, H2, H1, !app_assoc. split; [done|].
    rewrite !elem_of_app, list_elem_of_singleton. auto.
Qed.

Lemma tick_loop_handles now due : forall handled w,
  let out := tick_loop store_path now due handled w in
  (exists l, w_effects out.1 = w_effects w ++ l)
  /\ (exists l, out.2 = handled ++ l)
  /\ forall e, e ∈ due -> handled_as e now out.1 out.2.
Proof.
  induction due as [|e due IH]; intros handled w.
  - cbn. split_and!; [by exists []; rewrite app_nil_r..|]. intros e He. by apply elem_of_nil in He.
  - cbn [tick_loop]. unfold mbind, io_bind.
    destruct (handle store_path now e w) as [w1 st] eqn:E1.
    destruct (handle_handles now e w) as (l1 & H1 & Hst). rewrite E1 in H1, Hst. cbn [fst snd] in H1, Hst.
    specialize (IH (handled ++ [(ce_id e, st)]) w1). cbn zeta in IH.
    destruct (tick_loop store_path now due _ w1) as [w2 out]. cbn [fst snd] in *.
    destruct IH as ([l2 H2] & [l3 H3] & Hdue). cbn zeta. split_and!.
    + exists (l1 ++ l2). by rewrite H2, H1, app_assoc.
    + exists ([(ce_id e, st)] ++ l3). by rewrite H3, app_assoc.
    + intros e' [->|He']%elem_of_cons; [|by apply Hdue]. exists st. split.
      * rewrite H3, !elem_of_app, list_elem_of_singleton. auto.
      * destruct (_ <? _)%N; [done|]. rewrite H2, H1, !elem_of_app. auto.
Qed.

(** Every enabled job whose run has arrived is handled by the next pass, whatever else
    the store holds, however the sends end and whichever writes fail. *)
Lemma tick_handles_due e now w :
  readable (w_disk w) -> jobs (w_disk w) !! ce_id e = Some e -> is_due e now = true ->
  handled_as e now (tick store_path now w).1 (tick store_path now w).2.
Proof.
  intros Hr He Hd. unfold tick, mbind, io_bind. rewrite due_jobs_eq by done.
  apply tick_loop_handles. by apply elem_of_due.
Qed.

Lemma get_or_missing_eq r id w : is_Some (ci_store_path r) -> readable (w_disk w) ->
  get_or_missing r id w =
    (w, (loaded r (w_disk w), ok_or (jobs (w_disk w) !! id) (CronNotFound id))).
Proof.
  intros Hp Hr. unfold get_or_missing, registry_get, mbind, io_bind. rewrite read_eq by done.
  by destruct (loaded_readable r _ Hr) as (-> & _).
Qed.

Lemma arm_spec r id e w :
  is_Some (ci_store_path r) -> readable (w_disk w) -> w_faults w = [] ->
  jobs (w_disk w) !! id = Some e ->
  exists w' t t' next, arm r id w = (w', Ok (put_next_run next (put_updated_at t' e)))
    /\ next = first_run_at e t
    /\ readable (w_disk w') /\ jobs (w_disk w') !! id = Some (put_next_run next (put_updated_at t' e)).
Proof.
  intros Hp Hr Hf He. destruct (loaded_readable r _ Hr) as (_ & _ & Hpath).
  unfold arm, mbind, io_bind. rewrite get_or_missing_eq, He by done. cbn [fst snd ok_or].
  destruct (now_secs w) as [w1 t] eqn:Et.
  destruct (now_secs_frame w) as [(Hf1 & _ & _) Hd1]. rewrite Et in Hf1, Hd1. cbn [fst] in Hf1, Hd1.
  destruct (modify_spec id (put_next_run (first_run_at e t)) (loaded r (w_disk w)) w1) as
    (w2 & r2 & Heq & Hr2 & _ & Hp2 & Hj2 & _); [by rewrite Hpath|by rewrite Hd1|by rewrite Hf1|done|].
  unfold set_next_run. rewrite Heq, Hd1, He. cbn [fst snd].
  assert (is_Some (ci_store_path r2)) as Hp2' by (by rewrite Hp2, Hpath).
  rewrite get_or_missing_eq by done.
  assert (jobs (w_disk w2) !! id
          = Some (put_next_run (first_run_at e t) (put_updated_at (now_secs w1).2 e))) as Hfin.
  { rewrite Hj2, lookup_alter_eq, Hd1, He. done. }
  rewrite Hfin. exists w2, t, (now_secs w1).2, (first_run_at e t). done.
Qed.

Lemma service_create_spec params w w' e :
  readable (w_disk w) -> w_faults w = [] ->
  service_create store_path params w = (w', Ok e) ->
  readable (w_disk w') /\ jobs (w_disk w') !! ce_id e = Some e /\ ce_enabled e = true
  /\ validate (ce_kind e) (ce_schedule e) (ce_tz e) = Ok tt /\ ce_kind e = cp_kind params
  /\ exists t, ce_next_run_at e = first_run_at e t.
Proof.
  intros Hr Hf. unfold service_create.
  destruct (validate _ _ _) as [[]|] eqn:Hv; [|done]. destruct (blank_agent _); [done|].
  destruct (is_blank _); [done|].
  unfold mbind, io_bind. destruct (registry_opens store_path w) as (r & -> & Hp).
  destruct (create_spec params r w Hp Hr Hf) as (w1 & r1 & -> & Hr1 & (Hf1 & _) & Hp1 & Hj1 & _).
  cbn [fst snd]. set (e0 := created _ _ _) in *.
  destruct (arm_spec r1 (ce_id e0) e0 w1) as (w2 & t & t' & next & -> & Hn & Hr2 & Hj2);
    [by rewrite Hp1|done|by rewrite Hf1|by rewrite Hj1, lookup_insert_eq|].
  intros [= <- <-]. split_and!; [done|done|done|done|done|]. exists t. by rewrite Hn.
Qed.

(** An accepted job runs.  When a creation succeeds, the stored job is enabled, an
    interval or a one-shot is armed, and once its time has come the next pass of the
    scheduler over any store that still holds the job fires it, or records it as missed
    when the pass is more than the grace period late; other jobs, failed sends and
    failed writes do not get in its way. *)
Theorem accepted_job_fires params w w' e :
  readable (w_disk w) -> w_faults w = [] ->
  service_create store_path params w = (w', Ok e) ->
  jobs (w_disk w') !! ce_id e = Some e
  /\ (cp_kind params <> KCron -> is_Some (ce_next_run_at e))
  /\ forall n w2 now,
       ce_next_run_at e = Some n -> (n <= now)%N ->
       readable (w_disk w2) -> jobs (w_disk w2) !! ce_id e = Some e ->
       exists status, (ce_id e, status) ∈ (tick store_path now w2).2
         /\ ((now <= n + MISSED_GRACE_SECS)%N -> fire_effect e ∈ w_effects (tick store_path now w2).1)
         /\ ((n + MISSED_GRACE_SECS < now)%N -> status = "missed").
Proof.
  intros Hr Hf Hc.
  destruct (service_create_spec _ _ _ _ Hr Hf Hc) as (Hr' & Hj & Hen & Hv & Hk & t & Hn).
  split_and!; [done| |].
  - intros Hne. rewrite Hn. apply validated_first_run; [done|by rewrite Hk].
  - intros n w2 now Hnext Hle Hr2 Hj2.
    destruct (tick_handles_due e now w2 Hr2 Hj2) as (status & Hin & Hst).
    { unfold is_due. rewrite Hen, Hnext. by apply N.leb_le. }
    exists status. split; [done|]. unfold late, u64_saturating_sub in Hst. rewrite Hnext in Hst.
    change (default now (Some n)) with n in Hst. unfold MISSED_GRACE_SECS in *.
    destruct (N.ltb_spec 600 (now - n)); split; intros; [lia|done|done|lia].
Qed.

End Liveness.

(** ** Runs that fire more than once *)

Section Refire.
Context {CL : CronLib} {SJ : StoreJson}.
Variable store_path : string.

(** At least the next [n] writes fail. *)
Definition failing (n : nat) (w : World) : Prop := exists m, n <= m /\ w_faults w = replicate m true.

Lemma failing_modify n id f r w :
  failing (S n) w -> failing n (modify id f r w).1 /\ w_disk (modify id f r w).1 = w_disk w.
Proof.
  intros (m & Hm & Hf). unfold modify, mutate, mbind, io_bind.
  assert (reload r w = (w, (reload r w).2)) as ->.
  { unfold reload. by destruct (ci_store_path r). }
  destruct (ci_entries (reload r w).2 !! id) as [e|]; cbn; [|split; [exists m; split; [lia|done]|done]].
  destruct (now_secs w) as [w1 t] eqn:Et. destruct (now_secs_frame w) as [(Hf1 & _) Hd1].
  rewrite Et in Hf1, Hd1. cbn in *. unfold persist. cbn [put_entries ci_store_path].
  destruct (ci_store_path (reload r w).2); cbn.
  - unfold write_disk. rewrite Hf1, Hf. destruct m as [|m]; [lia|]. cbn.
    split; [exists m; split; [lia|done]|done].
  - split; [exists m; split; [lia|congruence]|done].
Qed.

Lemma failing_weaken m n w : failing m w -> n <= m -> failing n w.
Proof. intros (k & ? & ?) ?. exists k. split; [lia|done]. Qed.

Lemma failing_handle n now e w :
  failing (3 + n) w ->
  failing n (handle store_path now e w).1 /\ w_disk (handle store_path now e w).1 = w_disk w.
Proof.
  intros Hf. unfold handle, claim, claim_next, mbind, io_bind.
  destruct (registry_opens store_path w) as (r & -> & _).
  pose proof (failing_modify (2 + n) (ce_id e) (put_next_run (next_of e now)) r w Hf) as [Hf1 Hd1].
  unfold set_next_run. destruct (modify _ _ r w) as [w1 [r1 o1]]. cbn [fst snd mret io_ret] in *.
  assert (failing (1 + n) (claim_disable e r1 w1).1 /\ w_disk (claim_disable e r1 w1).1 = w_disk w1)
    as [Hf2 Hd2].
  { unfold claim_disable. destruct (is_one_shot e); [|split; [by apply (failing_weaken (2 + n)); [|lia]|done]].
    unfold mbind, io_bind, registry_disable, registry_set_enabled.
    pose proof (failing_modify (1 + n) (ce_id e) (fun x => put_enabled false (ce_retry_count x) x) r1 w1 Hf1) as H.
    by destruct (modify _ _ r1 w1). }
  destruct (claim_disable e r1 w1) as [w2 []]. cbn [fst] in *. rewrite <- Hd1, <- Hd2. clear Hf Hf1 Hd1 Hd2 w w1.
  assert (forall status error next,
    failing n ((r ← registry store_path; record_result (ce_id e) status error next r) w2).1
    /\ w_disk ((r ← registry store_path; record_result (ce_id e) status error next r) w2).1 = w_disk w2) as Hrec.
  { intros status error next. unfold mbind, io_bind, record_result.
    destruct (registry_opens store_path w2) as (r' & -> & _). by apply failing_modify. }
  destruct (_ <? _)%N.
  - specialize (Hrec "missed" None (next_of e now)). unfold record_missed, mbind, io_bind, mret, io_ret in *.
    destruct (registry store_path w2) as [w3 r3]. by destruct (record_result _ _ _ _ r3 w3).
  - unfold mret, io_ret. unfold fire. destruct (default (Ok tt) _) as [|x]; unfold record, mbind, io_bind, record_result in *;
      match goal with |- context [registry store_path ?w3] =>
        destruct (registry_opens store_path w3) as (r3 & -> & _);
        assert (failing (S n) w3) as H3 by exact Hf2 end;
      match goal with |- context [modify ?id ?f ?r ?w] =>
        pose proof (failing_modify n id f r w H3) as H; by destruct (modify id f r w) end.
Qed.

Lemma failing_tick_loop now due : forall n handled w,
  failing (3 * length due + n) w ->
  failing n (tick_loop store_path now due handled w).1
  /\ w_disk (tick_loop store_path now due handled w).1 = w_disk w.
Proof.
  induction due as [|e due IH]; intros n handled w Hf; [done|].
  cbn [tick_loop]. unfold mbind, io_bind.
  destruct (failing_handle (3 * length due + n) now e w) as [Hf1 Hd1];
    [by replace (3 + _) with (3 * length (e :: due) + n) by (cbn; lia)|].
  destruct (handle store_path now e w) as [w1 st]. cbn [fst] in *. rewrite <- Hd1. by apply IH.
Qed.

(** [p] passes of the scheduler at the same instant. *)
Fixpoint passes (p : nat) (now : N) (w : World) : World :=
  match p with 0 => w | S p => passes p now (tick store_path now w).1 end.

Definition fires_of (e : CronEntry) (w : World) : nat :=
  length (List.filter (fun x => bool_decide (effect_run x = (ce_id e, ce_next_run_at e))) (w_effects w)).

(** The claim in front of a fire is only as good as the write behind it: while the
    store can be read and not be written, every pass fires every due job again, one
    effect for the same run per pass. *)
Theorem unwritable_store_refires p now e w :
  readable (w_disk w) -> jobs (w_disk w) !! ce_id e = Some e -> is_due e now = true ->
  (late e now <= MISSED_GRACE_SECS)%N ->
  failing (3 * length (due_jobs store_path now w).2 * p) w ->
  fires_of e w + p <= fires_of e (passes p now w) /\ w_disk (passes p now w) = w_disk w.
Proof.
  intros Hr He Hd Hl. revert w Hr He. induction p as [|p IH]; intros w Hr He Hf.
  { split; [cbn [passes]; lia|done]. }
  cbn [passes]. set (k := length (due_jobs store_path now w).2) in *.
  assert (failing (3 * k * p) (tick store_path now w).1 /\ w_disk (tick store_path now w).1 = w_disk w)
    as [Hf1 Hd1].
  { unfold tick, mbind, io_bind. unfold k in *. rewrite due_jobs_eq in * by done. cbn [snd] in *.
    apply failing_tick_loop. eapply failing_weaken; [exact Hf|]. lia. }
  destruct (IH (tick store_path now w).1) as [Hn Hdisk];
    [by rewrite Hd1|by rewrite Hd1| |].
  { unfold k in Hf1. rewrite due_jobs_eq in * by (try rewrite Hd1; done). cbn [snd] in *. by rewrite Hd1. }
  split; [|by rewrite Hdisk]. etrans; [|exact Hn].
  unfold tick, mbind, io_bind. rewrite due_jobs_eq by done.
  set (due := List.filter _ _). assert (e ∈ due) as Hin by (by apply elem_of_due).
  clearbody due. clear -Hin Hl. generalize (@nil (string * string)). revert w.
  assert (forall w l x, w_effects x = w_effects w ++ l -> fires_of e w <= fires_of e x) as Hmono.
  { intros w l x Hx. unfold fires_of. rewrite Hx, List.filter_app, length_app. lia. }
  induction due as [|e' due IH]; intros w handled; [by apply elem_of_nil in Hin|].
  cbn [tick_loop]. unfold mbind, io_bind.
  destruct (handle_handles store_path now e' w) as (l & Hw & Hst).
  destruct (handle store_path now e' w) as [w1 st]. cbn [fst snd] in *.
  apply elem_of_cons in Hin as [<-|Hin].
  - destruct (tick_loop_handles store_path now due (handled ++ [(ce_id e, st)]) w1) as [[l2 H2] _].
    enough (S (fires_of e w) <= fires_of e w1) by (specialize (Hmono _ _ _ H2); lia).
    unfold fires_of. rewrite Hw, List.filter_app, length_app.
    destruct (N.ltb_spec MISSED_GRACE_SECS (late e now)); [lia|].
    assert (fire_effect e ∈ List.filter (fun x => bool_decide (effect_run x = (ce_id e, ce_next_run_at e))) l) as Hx.
    { rewrite list_elem_of_In, filter_In, <- list_elem_of_In. split; [done|].
      apply bool_decide_eq_true. unfold fire_effect. by destruct (ce_target e). }
    destruct (List.filter _ l); [by apply elem_of_nil in Hx|cbn; lia].
  - specialize (IH Hin w1 (handled ++ [(ce_id e', st)])). specialize (Hmono _ _ _ Hw). lia.
Qed.

(** Running a job by hand writes back the next run it read before it fired: if a
    pass of the scheduler claimed and fired that run in between, and stored a later one,
    the fired run is stored as still to come and is due again. *)
Theorem stale_trigger_restores_a_fired_run e n w1 now :
  healthy w1 -> is_Some (jobs (w_disk w1) !! ce_id e) ->
  ce_kind e <> KAt -> ce_next_run_at e = Some n -> (n <= now)%N ->
  exists e', let w2 := (trigger_read store_path e w1).1 in
    jobs (w_disk w2) !! ce_id e = Some e' /\ ce_next_run_at e' = Some n
    /\ (ce_enabled e' = true -> is_due e' now = true).
Proof.
  intros Hw [e1 He1] Hk Hn Hle. unfold trigger_read.
  assert (is_one_shot e = false) as -> by (by apply bool_decide_eq_false).
  unfold mbind, io_bind. destruct (fire e w1) as [wf o] eqn:Ef.
  assert (healthy wf /\ jobs (w_disk wf) = jobs (w_disk w1)) as [Hwf Hj]
    by (unfold fire in Ef; by injection Ef as <- <-).
  assert (exists status error,
    (record store_path e o (ce_next_run_at e) wf).1
    = ((r ← registry store_path; record_result (ce_id e) status error (ce_next_run_at e) r) wf).1)
    as (status & error & Heq).
  { unfold record. destruct o as [|x]; [exists "ok", None|exists "error", (Some x)];
      unfold mbind, io_bind; destruct (registry store_path wf) as [w0 r];
      by destruct (record_result _ _ _ _ r w0). }
  destruct (open_modify store_path (ce_id e) (put_result status error (ce_next_run_at e)) wf Hwf
              (fun _ => eq_refl)) as (_ & _ & _ & Hjobs).
  exists (put_result status error (ce_next_run_at e) (put_updated_at (w_now wf) e1)). cbn zeta.
  split_and!.
  - rewrite Heq. unfold record_result. by rewrite Hjobs, lookup_alter_eq, Hj, He1.
  - done.
  - unfold is_due. cbn. rewrite Hn. intros ->. by apply N.leb_le.
Qed.

End Refire.

(** ** A concrete store and the theorems at concrete jobs *)

#[export] Instance CronKind_countable : Countable CronKind.
Proof.
  refine (inj_countable' (fun k => match k with KCron => 0 | KEvery => 1 | KAt => 2 end)
            (fun n => match n with 0 => KCron | 1 => KEvery | _ => KAt end) _). by intros [].
Defined.
#[export] Instance CronTarget_countable : Countable CronTarget.
Proof.
  refine (inj_countable' (fun t => match t with NewSession => None | Agent n => Some n end)
            (fun o => match o with None => NewSession | Some n => Agent n end) _). by intros [].
Defined.
#[export] Instance CronCreator_countable : Countable CronCreator.
Proof.
  refine (inj_countable' (fun c => match c with CreatedByUser => true | CreatedByAgent => false end)
            (fun b : bool => if b then CreatedByUser else CreatedByAgent) _). by intros [].
Defined.
#[export] Instance InputDelivery_countable : Countable InputDelivery.
Proof.
  refine (inj_countable' is_steer (fun b : bool => if b then Steer else Queue) _). by intros [].
Defined.
#[export] Instance CronEntry_countable : Countable CronEntry.
Proof.
  refine (inj_countable'
    (fun e => (ce_id e, ce_schedule e, ce_prompt e, ce_description e, ce_enabled e,
               ce_created_at e, ce_updated_at e,
               (ce_last_run_at e, ce_run_count e, ce_name e, ce_kind e, ce_tz e, ce_cwd e,
                ce_next_run_at e),
               (ce_last_status e, ce_last_error e, ce_retry_count e, ce_max_retries e,
                ce_target e, ce_delivery e, ce_created_by e)))
    (fun '(a, b, c, d, e, f, g, (h, i, j, k, l, m, n), (o, p, q, r, s, t, u)) =>
       Entry a b c d e f g h i j k l m n o p q r s t u) _).
  by intros [].
Defined.

Fixpoint bits (p : positive) : string :=
  match p with
  | xH => ""
  | xO p => String "0" (bits p)
  | xI p => String "1" (bits p)
  end.
Fixpoint unbits (s : string) : positive :=
  match s with
  | "" => xH
  | String a s => if Ascii.eqb a "0" then xO (unbits s) else xI (unbits s)
  end.
Lemma unbits_bits p : unbits (bits p) = p.
Proof. induction p as [p IH|p IH|]; cbn; by rewrite ?IH. Qed.

#[export] Instance model_store : StoreJson.
Proof.
  refine {| doc_to_json d := bits (encode (doc_version d, doc_counter d, doc_crons d));
            doc_from_json s :=
              '(v, c, l) ← decode (unbits s);
              Some {| doc_version := v; doc_counter := c; doc_crons := l |} |}.
  intros [v c l]. cbn. by rewrite unbits_bits, decode_encode.
Defined.

(** Every expression runs once a minute, on the minute. *)
#[export] Instance model_cron : CronLib.
Proof.
  refine {| cron_from_str _ := None; tz_known _ := true; utc_representable _ := true;
            cron_after _ _ t := Some (60 * (Z.of_N t / 60) + 60)%Z |}.
  intros _ _ t n [= <-]. pose proof (Z.mod_pos_bound (Z.of_N t) 60). 
  rewrite (Z.div_mod (Z.of_N t) 60) at 1; lia.
Defined.

Definition empty_world (now : N) : World :=
  {| w_disk := NotFound; w_now := now; w_clock := []; w_faults := []; w_outcomes := [];
     w_effects := [] |}.

Definition hourly : CronCreateParams :=
  {| cp_schedule := "3600"; cp_kind := KEvery; cp_prompt := "check"; cp_description := None;
     cp_name := Some "hourly"; cp_tz := None; cp_cwd := None; cp_target := Agent "main";
     cp_delivery := None; cp_created_by := CreatedByAgent |}.

Definition hourly_world : World := (service_create "crons.json" hourly (empty_world 1000)).1.
Definition hourly_job : CronEntry :=
  put_next_run (Some 4600%N) (created hourly 1000 1).

Example hourly_created :
  (service_create "crons.json" hourly (empty_world 1000)).2 = Ok hourly_job
  /\ jobs (w_disk hourly_world) !! ce_id hourly_job = Some hourly_job
  /\ ce_id hourly_job = "cron_000003e8_1"
  /\ (tick "crons.json" 4700 hourly_world).2 = [("cron_000003e8_1", "ok")]
  /\ runs (tick "crons.json" 4700 hourly_world).1 = [("cron_000003e8_1", Some 4600%N)]
  /\ (tick "crons.json" 9000 hourly_world).2 = [("cron_000003e8_1", "missed")].
Proof. by vm_compute. Qed.

Definition readableb (f : StoreFile) : bool :=
  match f with
  | Content raw => match doc_from_json raw with Some _ => true | None => false end
  | NotFound => true
  | Unreadable => false
  end.

Lemma readable_true f : readableb f = true -> readable f.
Proof. destruct f; [done|done|]. unfold readableb, readable. destruct (doc_from_json raw); [by eexists|done]. Qed.

Lemma hourly_readable : readable (w_disk hourly_world).
Proof. apply readable_true. by vm_compute. Qed.

Lemma hourly_healthy : healthy hourly_world.
Proof. split_and!; [apply hourly_readable|by vm_compute..]. Qed.

Lemma empty_healthy : healthy (empty_world 1000).
Proof. by split_and!. Qed.

Lemma create_mints_a_fresh_id_witness : exists w' r' e,
  create_full hourly blank (empty_world 1000) = (w', (r', Ok e))
  /\ jobs NotFound !! ce_id e = None
  /\ jobs (w_disk w') = <[ce_id e := e]> (jobs NotFound)
  /\ (store_counter NotFound < entry_counter_hint e <= store_counter (w_disk w'))%N
  /\ readable (w_disk w').
Proof.
  apply (create_mints_a_fresh_id hourly blank (empty_world 1000)); [by eexists|done|done|done].
Defined.

Lemma stored_jobs_are_valid_witness :
  store_valid (w_disk (fold_left (serve "crons.json")
    [RCreate hourly; RTick 4700; RSetEnabled "cron_000003e8_1" false; RTrigger "cron_000003e8_1"]
    (empty_world 1000))).
Proof.
  apply (stored_jobs_are_valid "crons.json" _ (empty_world 1000)).
  intros id e He. assert (jobs NotFound = ∅) as E by (by vm_compute).
  change (jobs NotFound !! id = Some e) in He. by rewrite E, lookup_empty in He.
Defined.

Lemma accepted_job_fires_witness :
  exists status, (ce_id hourly_job, status) ∈ (tick "crons.json" 4700 hourly_world).2
    /\ ((4700 <= 4600 + MISSED_GRACE_SECS)%N ->
        fire_effect hourly_job ∈ w_effects (tick "crons.json" 4700 hourly_world).1)
    /\ ((4600 + MISSED_GRACE_SECS < 4700)%N -> status = "missed").
Proof.
  destruct (accepted_job_fires "crons.json" hourly (empty_world 1000) hourly_world hourly_job)
    as (Hj & _ & H);
    [done|done|rewrite <- (proj1 hourly_created); apply surjective_pairing|].
  apply (H 4600%N hourly_world 4700%N); [done|done|apply hourly_readable|done].
Defined.

Definition hourly_later : World := wait hourly_world 4700.
Definition hourly_fired : World := (tick "crons.json" (w_now hourly_later) hourly_later).1.

(** The holder's next access. *)
Definition holder_step (s : Sys) : list Event * Sys :=
  let w := s_world s in
  match s_pc s with
  | Idle => let out := due_jobs "crons.json" (w_now w) w in
            ([], {| s_world := fst out; s_pc := Looping (w_now w) (snd out) |})
  | Looping now [] => ([], {| s_world := w; s_pc := Idle |})
  | Looping now (e :: rest) =>
      let out := claim_next "crons.json" e now w in
      ([], {| s_world := fst out; s_pc := Claiming now e (snd out) rest |})
  | Claiming now e r rest => ([], {| s_world := (claim_disable e r w).1; s_pc := Claimed now e rest |})
  | Claimed now e rest =>
      if (MISSED_GRACE_SECS <? late e now)%N
      then ([], {| s_world := (record_missed "crons.json" e (next_of e now) w).1; s_pc := Looping now rest |})
      else let out := fire e w in
           ([Fires (effect_run (fire_effect e))], {| s_world := fst out; s_pc := Fired now e (snd out) rest |})
  | Fired now e outcome rest =>
      ([], {| s_world := (record "crons.json" e outcome (next_of e now) w).1; s_pc := Looping now rest |})
  end.

Lemma holder_step_happens s : happens "crons.json" s (holder_step s).1 (holder_step s).2.
Proof.
  destruct s as [w pc]. unfold holder_step. cbn [s_world s_pc].
  destruct pc as [|now [|e rest]|now e r rest|now e rest|now e o rest]; try constructor.
  destruct (N.ltb_spec MISSED_GRACE_SECS (late e now)); by constructor.
Qed.

Fixpoint holder (n : nat) (h : list Event * Sys) : list Event * Sys :=
  match n with
  | 0 => h
  | S n => holder n (h.1 ++ (holder_step h.2).1, (holder_step h.2).2)
  end.

Lemma holder_happens n w : forall h, happened "crons.json" w h.1 h.2 -> happened "crons.json" w (holder n h).1 (holder n h).2.
Proof.
  induction n as [|n IH]; intros h H; cbn [holder]; [done|]. apply IH. cbn [fst snd].
  eapply happened_next; [exact H|apply holder_step_happens].
Qed.

(** A one-shot that ran is enabled again: its time has passed, so it is due, and runs again. *)
Definition one_shot : CronCreateParams :=
  {| cp_schedule := "4600"; cp_prompt := "look"; cp_description := None; cp_name := None;
     cp_kind := KAt; cp_tz := None; cp_cwd := None; cp_target := NewSession;
     cp_delivery := None; cp_created_by := CreatedByUser |}.
Definition shot_id : string := "cron_000003e8_1".
Definition shot_world : World := (service_create "crons.json" one_shot (empty_world 1000)).1.
Definition shot_fired : list Event * Sys :=
  holder 6 ([], {| s_world := wait shot_world 4700; s_pc := Idle |}).
Definition shot_enabled : World :=
  (registry_set_enabled shot_id true (registry "crons.json" (s_world shot_fired.2)).2 (s_world shot_fired.2)).1.
Definition shot_armed : World :=
  (set_next_run shot_id (Some 4600%N) (registry "crons.json" shot_enabled).2 shot_enabled).1.
Definition shot_again : list Event * Sys :=
  holder 6 (shot_fired.1 ++ [Moves shot_id (Some 4600%N)], {| s_world := shot_armed; s_pc := Idle |}).

Example enabled_again_it_fires_again :
  shot_again.1 = [Fires (shot_id, Some 4600%N); Moves shot_id (Some 4600%N); Fires (shot_id, Some 4600%N)]
  /\ runs (s_world shot_again.2) = [(shot_id, Some 4600%N); (shot_id, Some 4600%N)]
  /\ jobs (w_disk (service_set_enabled "crons.json" shot_id true (s_world shot_fired.2)).1) !! shot_id
     = jobs (w_disk shot_armed) !! shot_id.
Proof. split_and!; vm_compute; reflexivity. Qed.

Lemma shot_readable : readable (w_disk shot_world).
Proof. apply readable_true. by vm_compute. Qed.

Lemma shot_healthy : healthy shot_world.
Proof. split_and!; [apply shot_readable|by vm_compute..]. Qed.

Lemma shot_later : (w_now shot_world <= 4700 < u64_max)%N.
Proof. split; [by vm_compute|done]. Qed.

Lemma shot_fired_idle : s_pc shot_fired.2 = Idle.
Proof. by vm_compute. Qed.

Lemma shot_fired_happened : happened "crons.json" shot_world shot_fired.1 shot_fired.2.
Proof.
  apply (holder_happens 6 shot_world ([], {| s_world := wait shot_world 4700; s_pc := Idle |})).
  exact (happened_next _ shot_world [] _ [] _ (happened_start _ _) (step_wait _ _ 4700 Idle shot_later)).
Qed.

Lemma shot_again_happened : happened "crons.json" shot_world shot_again.1 shot_again.2.
Proof.
  apply (holder_happens 6 shot_world (shot_fired.1 ++ [Moves shot_id (Some 4600%N)], {| s_world := shot_armed; s_pc := Idle |})).
  cbn [fst snd]. pose proof shot_fired_happened as H1. pose proof shot_fired_idle as Hpc.
  unfold shot_armed, shot_enabled. destruct shot_fired as [events [w pc]]. cbn [fst snd s_pc s_world] in *. subst pc.
  assert (happened "crons.json" shot_world (events ++ [])
    {| s_world := (registry_set_enabled shot_id true (registry "crons.json" w).2 w).1; s_pc := Idle |}) as H2.
  { eapply happened_next; [exact H1|].
    apply (step_client _ {| s_world := w; s_pc := Idle |}), client_modify; [|done].
    destruct (registry_opens "crons.json" w) as (r & -> & H). exact H. }
  rewrite app_nil_r in H2. eapply happened_next; [exact H2|]. set (w2 := (registry_set_enabled _ _ _ _).1).
  apply (step_client _ {| s_world := w2; s_pc := Idle |}), client_arm.
  destruct (registry_opens "crons.json" w2) as (r & -> & H). exact H.
Qed.

Lemma run_fires_once_unless_moved_back_witness :
  runs (s_world shot_again.2) = omap event_run shot_again.1
  /\ times_fired (shot_id, Some 4600%N) shot_again.1 <= 1 + times_moved_back (shot_id, Some 4600%N) shot_again.1.
Proof.
  destruct (run_fires_once_unless_moved_back "crons.json" shot_world shot_again.1 shot_again.2
    shot_healthy eq_refl shot_again_happened) as [H1 H2].
  split; [exact H1|apply H2].
Defined.

Lemma unwritable_store_refires_witness :
  let w := {| w_disk := w_disk hourly_world; w_now := 4700; w_clock := [];
              w_faults := replicate 9 true; w_outcomes := []; w_effects := [] |} in
  fires_of hourly_job w + 3 <= fires_of hourly_job (passes "crons.json" 3 4700 w)
  /\ w_disk (passes "crons.json" 3 4700 w) = w_disk w.
Proof.
  intros w. apply (unwritable_store_refires "crons.json" 3 4700 hourly_job w).
  - apply hourly_readable.
  - apply hourly_created.
  - done.
  - done.
  - exists 9. split; [|done]. assert (length (due_jobs "crons.json" 4700 w).2 = 1) as -> by (by vm_compute). lia.
Defined.

Lemma stale_trigger_restores_a_fired_run_witness :
  exists e', let w2 := (trigger_read "crons.json" hourly_job hourly_fired).1 in
    jobs (w_disk w2) !! ce_id hourly_job = Some e' /\ ce_next_run_at e' = Some 4600%N
    /\ (ce_enabled e' = true -> is_due e' 4700 = true).
Proof.
  apply (stale_trigger_restores_a_fired_run "crons.json" hourly_job 4600 hourly_fired 4700); [|vm_compute; by eexists|done|done|done].
  split_and!; [apply readable_true|..]; by vm_compute.
Defined.
