(* ===== verification/WorkerScreen.v ===== *)
(** * Reading a worker's terminal (runtime/src/worker_boot.rs)

    The heuristics that decide, from the text of a screen, whether a worker waits on a
    trust question, is ready for a prompt, is working, or received its prompt in the
    wrong place.  Resolving symbolic links is the file system's, a parameter. *)
From S2P Require Import Prelude RustStr.

Inductive WorkerPromptTarget := Shell | WrongTarget | WrongTask | UnknownTarget.

#[export] Instance WorkerPromptTarget_eq_dec : EqDecision WorkerPromptTarget.
Proof. solve_decision. Defined.

Record WorkerTaskReceipt := {
  wr_repo : string;
  wr_task_kind : string;
  wr_source_surface : string;
  wr_expected_artifacts : list string;
  wr_objective_preview : string
}.

#[export] Instance WorkerTaskReceipt_eq_dec : EqDecision WorkerTaskReceipt.
Proof. solve_decision. Defined.

Record PromptDeliveryObservation := {
  obs_target : WorkerPromptTarget;
  obs_cwd : option string;
  obs_prompt_preview : option string
}.

Definition any_needle (needles : list string) (lowered : string) : bool :=
  existsb (contains lowered) needles.

Definition detect_trust_prompt (lowered : string) : bool :=
  any_needle ["do you trust the files in this folder"; "trust the files in this folder";
              "trust this folder"; "allow and continue"; "yes, proceed"] lowered.

Definition is_shell_prompt (trimmed : string) : bool :=
  ends_with trimmed "$" || ends_with trimmed "%" || ends_with trimmed "#"
  || starts_with trimmed "$" || starts_with trimmed "%" || starts_with trimmed "#".

Definition detect_ready_for_prompt (screen_text lowered : string) : bool :=
  if any_needle ["ready for input"; "ready for your input"; "ready for prompt";
                 "send a message"] lowered then true
  else
    match List.find (fun line => negb (is_empty (trim line))) (rev (lines screen_text)) with
    | None => false
    | Some line =>
        let trimmed := trim line in
        if is_shell_prompt trimmed then false
        else String.eqb trimmed ">" || String.eqb trimmed "›" || String.eqb trimmed "❯"
             || starts_with trimmed "> " || starts_with trimmed "› " || starts_with trimmed "❯ "
             || contains trimmed "│ >" || contains trimmed "│ ›" || contains trimmed "│ ❯"
    end.

Definition detect_running_cue (lowered : string) : bool :=
  any_needle ["thinking"; "working"; "running tests"; "inspecting"; "analyzing"] lowered.

Definition prompt_preview (prompt : string) : string :=
  let trimmed := trim prompt in
  if chars_count trimmed <=? 48 then trimmed
  else (trim_end (chars_take 48 trimmed) ++ "…")%string.

(** [find_map] *)
Fixpoint find_map {A B} (f : A -> option B) (l : list A) : option B :=
  match l with
  | [] => None
  | x :: l => match f x with Some b => Some b | None => find_map f l end
  end.

Definition detect_prompt_echo (screen_text : string) : option string :=
  find_map (fun line =>
    value ← strip_prefix (trim_start line) "›";
    let value := trim value in
    if is_empty value then None else Some value) (lines screen_text).

Definition task_receipt_visible (lowered : string) (receipt : WorkerTaskReceipt) : bool :=
  forallb (contains lowered)
    [to_ascii_lowercase (wr_repo receipt); to_ascii_lowercase (wr_task_kind receipt);
     to_ascii_lowercase (wr_source_surface receipt);
     to_ascii_lowercase (wr_objective_preview receipt)]
  && forallb (fun artifact => contains lowered (to_ascii_lowercase artifact))
       (wr_expected_artifacts receipt).

Definition prompt_misdelivery_detail (o : PromptDeliveryObservation) : string :=
  match obs_target o with
  | Shell => "shell misdelivery detected"
  | WrongTarget => "prompt landed in wrong target"
  | WrongTask => "prompt receipt mismatched expected task context"
  | UnknownTarget => "prompt delivery failure detected"
  end.

Definition is_shell_prompt_token (token : string) : bool :=
  str_in token ["$"; "%"; "#"; ">"; "›"; "❯"].

Definition looks_like_cwd_label (candidate : string) : bool :=
  starts_with candidate "/" || starts_with candidate "~" || starts_with candidate "."
  || contains candidate "/".

(** The token in front of the first prompt token: [position] and [checked_sub]. *)
Fixpoint before_prompt_token (previous : option string) (tokens : list string) : option string :=
  match tokens with
  | [] => None
  | token :: rest =>
      if is_shell_prompt_token token then previous else before_prompt_token (Some token) rest
  end.

Definition detect_observed_shell_cwd (screen_text : string) : option string :=
  find_map (fun line =>
    candidate ← before_prompt_token None (split_whitespace line);
    if looks_like_cwd_label candidate then Some candidate else None) (lines screen_text).

Section Paths.
Variable canonicalize : string -> option string.

Definition normalize_path (path : string) : string := default path (canonicalize path).

Definition path_matches_allowlist (cwd trusted_root : string) : bool :=
  let cwd := normalize_path cwd in
  let trusted_root := normalize_path trusted_root in
  path_eqb cwd trusted_root || path_starts_with cwd trusted_root.

Definition cwd_matches_observed_target (expected_cwd observed_cwd : string) : bool :=
  let expected := normalize_path expected_cwd in
  let expected_base := default expected (file_name expected) in
  let observed_base := default (trim_matches observed_cwd ":") (file_name observed_cwd) in
  ends_with expected observed_cwd || ends_with observed_cwd expected
  || String.eqb expected_base observed_base.

Definition detect_prompt_misdelivery (screen_text lowered : string) (prompt : option string)
    (expected_cwd : string) (expected_receipt : option WorkerTaskReceipt)
  : option PromptDeliveryObservation :=
  match prompt with
  | None => None
  | Some prompt =>
      let prompt_snippet :=
        match List.find (fun line => negb (is_empty (trim line))) (lines prompt) with
        | Some line => to_ascii_lowercase (trim line)
        | None => ""
        end in
      if is_empty prompt_snippet then None
      else
        let prompt_visible := contains lowered prompt_snippet in
        let observed_prompt_preview := detect_prompt_echo screen_text in
        let wrong_task :=
          match expected_receipt with
          | None => false
          | Some receipt =>
              let receipt_visible := task_receipt_visible lowered receipt in
              let mismatched_prompt_visible :=
                match observed_prompt_preview with
                | Some preview => negb (contains (to_ascii_lowercase preview) prompt_snippet)
                | None => false
                end in
              (prompt_visible || mismatched_prompt_visible) && negb receipt_visible
          end in
        if wrong_task then
          Some {| obs_target := WrongTask; obs_cwd := detect_observed_shell_cwd screen_text;
                  obs_prompt_preview := observed_prompt_preview |}
        else
          let wrong_target :=
            match detect_observed_shell_cwd screen_text with
            | Some observed_cwd =>
                if prompt_visible && negb (cwd_matches_observed_target expected_cwd observed_cwd)
                then Some observed_cwd else None
            | None => None
            end in
          match wrong_target with
          | Some observed_cwd =>
              Some {| obs_target := WrongTarget; obs_cwd := Some observed_cwd;
                      obs_prompt_preview := observed_prompt_preview |}
          | None =>
              let shell_error :=
                any_needle ["command not found"; "syntax error near unexpected token";
                            "parse error near"; "no such file or directory"; "unknown command"]
                  lowered in
              if shell_error && prompt_visible then
                Some {| obs_target := Shell; obs_cwd := None;
                        obs_prompt_preview := observed_prompt_preview |}
              else None
          end
  end.

End Paths.
