(* ===== verification/WorkerBoot.v ===== *)
(** * Worker start-up (runtime/src/worker_boot.rs)

    A registry of workers, each a small state machine driven by what its terminal shows
    and by what the control plane asks.  Every method locks the registry for its whole
    body, so it is one atomic step.  [clock i] is the [i]-th reading of the clock inside
    a call; the state file written after every event is output and not modelled beyond
    its contents ([state_snapshot]). *)
From S2P Require Import Prelude.
From stdpp Require Import list gmap relations.
From S2P Require Import RustStr WorkerScreen.

Inductive WorkerStatus :=
| Spawning | TrustRequired | ToolPermissionRequired | ReadyForPrompt | Running | Finished | Failed.

Definition status_display (s : WorkerStatus) : string :=
  match s with
  | Spawning => "spawning"
  | TrustRequired => "trust_required"
  | ToolPermissionRequired => "tool_permission_required"
  | ReadyForPrompt => "ready_for_prompt"
  | Running => "running"
  | Finished => "finished"
  | Failed => "failed"
  end.

(** [{:?}] *)
Definition status_debug (s : WorkerStatus) : string :=
  match s with
  | Spawning => "Spawning"
  | TrustRequired => "TrustRequired"
  | ToolPermissionRequired => "ToolPermissionRequired"
  | ReadyForPrompt => "ReadyForPrompt"
  | Running => "Running"
  | Finished => "Finished"
  | Failed => "Failed"
  end.

Inductive WorkerFailureKind :=
| TrustGate | ToolPermissionGate | PromptDeliveryFailure | Protocol | Provider
| StartupNoEvidenceFailure.

Record WorkerFailure := { wf_kind : WorkerFailureKind; wf_message : string; wf_created_at : N }.

Inductive WorkerEventKind :=
| ESpawning | ETrustRequired | ETrustResolved | EToolPermissionRequired | EReadyForPrompt
| EPromptMisdelivery | EPromptReplayArmed | ERunning | ERestarted | EFinished | EFailed
| EStartupNoEvidence.

Inductive WorkerTrustResolution := AutoAllowlisted | ManualApproval.

Inductive StartupFailureClassification :=
| CTrustRequired | CToolPermissionRequired | CPromptMisdelivery | CPromptAcceptanceTimeout
| CTransportDead | CWorkerCrashed | CUnknown.

Definition classification_debug (c : StartupFailureClassification) : string :=
  match c with
  | CTrustRequired => "TrustRequired"
  | CToolPermissionRequired => "ToolPermissionRequired"
  | CPromptMisdelivery => "PromptMisdelivery"
  | CPromptAcceptanceTimeout => "PromptAcceptanceTimeout"
  | CTransportDead => "TransportDead"
  | CWorkerCrashed => "WorkerCrashed"
  | CUnknown => "Unknown"
  end.

#[export] Instance WorkerStatus_eq_dec : EqDecision WorkerStatus.
Proof. solve_decision. Defined.
#[export] Instance WorkerFailureKind_eq_dec : EqDecision WorkerFailureKind.
Proof. solve_decision. Defined.
#[export] Instance WorkerEventKind_eq_dec : EqDecision WorkerEventKind.
Proof. solve_decision. Defined.
#[export] Instance StartupFailureClassification_eq_dec : EqDecision StartupFailureClassification.
Proof. solve_decision. Defined.

Record StartupEvidenceBundle := {
  sb_last_lifecycle_state : WorkerStatus;
  sb_pane_command : string;
  sb_prompt_sent_at : option N;
  sb_prompt_acceptance_state : bool;
  sb_trust_prompt_detected : bool;
  sb_tool_permission_prompt_detected : bool;
  sb_tool_permission_prompt_age_seconds : option N;
  sb_transport_healthy : bool;
  sb_mcp_healthy : bool;
  sb_elapsed_seconds : N
}.

Inductive WorkerEventPayload :=
| TrustPrompt (cwd : string) (resolution : option WorkerTrustResolution)
| ToolPermissionPrompt (server tool : option string)
| PromptDelivery (preview : string) (observed_target : WorkerPromptTarget)
    (observed_cwd observed_prompt_preview : option string)
    (task_receipt : option WorkerTaskReceipt) (recovery_armed : bool)
| StartupNoEvidence (evidence : StartupEvidenceBundle)
    (classification : StartupFailureClassification).

Record WorkerEvent := {
  we_seq : N;
  we_kind : WorkerEventKind;
  we_status : WorkerStatus;
  we_detail : option string;
  we_payload : option WorkerEventPayload;
  we_timestamp : N
}.

Record Worker := Mk {
  worker_id : string;
  w_cwd : string;
  w_status : WorkerStatus;
  trust_auto_resolve : bool;
  trust_gate_cleared : bool;
  auto_recover : bool;
  delivery_attempts : N;
  prompt_in_flight : bool;
  last_prompt : option string;
  expected_receipt : option WorkerTaskReceipt;
  replay_prompt : option string;
  last_error : option WorkerFailure;
  w_created_at : N;
  w_updated_at : N;
  w_events : list WorkerEvent
}.

(** The assignments that occur together in the code. *)
Definition put_gate (gate : bool) (w : Worker) : Worker :=
  Mk (worker_id w) (w_cwd w) (w_status w) (trust_auto_resolve w) gate (auto_recover w)
    (delivery_attempts w) (prompt_in_flight w) (last_prompt w) (expected_receipt w)
    (replay_prompt w) (last_error w) (w_created_at w) (w_updated_at w) (w_events w).
Definition put_error (e : option WorkerFailure) (w : Worker) : Worker :=
  Mk (worker_id w) (w_cwd w) (w_status w) (trust_auto_resolve w) (trust_gate_cleared w)
    (auto_recover w) (delivery_attempts w) (prompt_in_flight w) (last_prompt w)
    (expected_receipt w) (replay_prompt w) e (w_created_at w) (w_updated_at w) (w_events w).
Definition put_status (s : WorkerStatus) (w : Worker) : Worker :=
  Mk (worker_id w) (w_cwd w) s (trust_auto_resolve w) (trust_gate_cleared w)
    (auto_recover w) (delivery_attempts w) (prompt_in_flight w) (last_prompt w)
    (expected_receipt w) (replay_prompt w) (last_error w) (w_created_at w) (w_updated_at w)
    (w_events w).
Definition put_in_flight (b : bool) (w : Worker) : Worker :=
  Mk (worker_id w) (w_cwd w) (w_status w) (trust_auto_resolve w) (trust_gate_cleared w)
    (auto_recover w) (delivery_attempts w) b (last_prompt w) (expected_receipt w)
    (replay_prompt w) (last_error w) (w_created_at w) (w_updated_at w) (w_events w).
Definition put_replay (p : option string) (w : Worker) : Worker :=
  Mk (worker_id w) (w_cwd w) (w_status w) (trust_auto_resolve w) (trust_gate_cleared w)
    (auto_recover w) (delivery_attempts w) (prompt_in_flight w) (last_prompt w)
    (expected_receipt w) p (last_error w) (w_created_at w) (w_updated_at w) (w_events w).

Definition push_event (timestamp : N) (kind : WorkerEventKind) (status : WorkerStatus)
    (detail : option string) (payload : option WorkerEventPayload) (w : Worker) : Worker :=
  Mk (worker_id w) (w_cwd w) status (trust_auto_resolve w) (trust_gate_cleared w)
    (auto_recover w) (delivery_attempts w) (prompt_in_flight w) (last_prompt w)
    (expected_receipt w) (replay_prompt w) (last_error w) (w_created_at w) timestamp
    (w_events w ++ [{| we_seq := N.of_nat (length (w_events w)) + 1; we_kind := kind;
                       we_status := status; we_detail := detail; we_payload := payload;
                       we_timestamp := timestamp |}]).

Record StateSnapshot := {
  ss_worker_id : string;
  ss_status : WorkerStatus;
  ss_is_ready : bool;
  ss_trust_gate_cleared : bool;
  ss_prompt_in_flight : bool;
  ss_last_event : option WorkerEvent;
  ss_updated_at : N;
  ss_seconds_since_update : N
}.

Definition state_snapshot (w : Worker) (now : N) : StateSnapshot :=
  {| ss_worker_id := worker_id w; ss_status := w_status w;
     ss_is_ready := bool_decide (w_status w = ReadyForPrompt);
     ss_trust_gate_cleared := trust_gate_cleared w; ss_prompt_in_flight := prompt_in_flight w;
     ss_last_event := list.last (w_events w); ss_updated_at := w_updated_at w;
     ss_seconds_since_update := u64_saturating_sub now (w_updated_at w) |}.

Record WorkerReadySnapshot := {
  rs_worker_id : string;
  rs_status : WorkerStatus;
  rs_ready : bool;
  rs_blocked : bool;
  rs_replay_prompt_ready : bool;
  rs_last_error : option WorkerFailure
}.

Record WorkerRegistry := { workers : gmap string Worker; wr_counter : N }.

Definition registry_new : WorkerRegistry := {| workers := ∅; wr_counter := 0 |}.

Definition prompt_misdelivery_is_relevant (w : Worker) : bool :=
  prompt_in_flight w && bool_decide (is_Some (last_prompt w)).

Definition classify_startup_failure (e : StartupEvidenceBundle) : StartupFailureClassification :=
  let sent := bool_decide (is_Some (sb_prompt_sent_at e)) in
  if negb (sb_transport_healthy e) then CTransportDead
  else if sb_trust_prompt_detected e && bool_decide (sb_last_lifecycle_state e = TrustRequired)
  then CTrustRequired
  else if sb_tool_permission_prompt_detected e then CToolPermissionRequired
  else if sent && negb (sb_prompt_acceptance_state e)
          && bool_decide (sb_last_lifecycle_state e = Running)
  then CPromptAcceptanceTimeout
  else if sent && negb (sb_prompt_acceptance_state e) && (30 <? sb_elapsed_seconds e)%N
  then CPromptMisdelivery
  else if negb (sb_mcp_healthy e) && sb_transport_healthy e then CWorkerCrashed
  else CUnknown.

Definition bool_display (b : bool) : string := if b then "true" else "false".

Section Operations.
Variable canonicalize : string -> option string.

Definition create (clock : nat -> N) (cwd : string) (trusted_roots : list string)
    (auto_recover_prompt_misdelivery : bool) (r : WorkerRegistry) : WorkerRegistry * Worker :=
  let counter := u64_add (wr_counter r) 1 in
  let ts := clock 0 in
  let id := ("worker_" ++ hex08 ts ++ "_" ++ pretty counter)%string in
  let w := push_event (clock 1) ESpawning Spawning (Some "worker created") None
    (Mk id cwd Spawning (existsb (path_matches_allowlist canonicalize cwd) trusted_roots) false
       auto_recover_prompt_misdelivery 0 false None None None None ts ts []) in
  ({| workers := <[id := w]> (workers r); wr_counter := counter |}, w).

Definition get (id : string) (r : WorkerRegistry) : option Worker := workers r !! id.

(** The trust part of [observe]: the worker after it, and whether the call returns. *)
Definition observe_trust (clock : nat -> N) (lowered : string) (w : Worker) : Worker * bool :=
  if negb (trust_gate_cleared w) && detect_trust_prompt lowered then
    let w := put_error (Some {| wf_kind := TrustGate;
                                wf_message := "worker boot blocked on trust prompt";
                                wf_created_at := clock 0 |}) (put_status TrustRequired w) in
    let w := push_event (clock 1) ETrustRequired TrustRequired (Some "trust prompt detected")
               (Some (TrustPrompt (w_cwd w) None)) w in
    if trust_auto_resolve w then
      let w := put_status Spawning (put_error None (put_gate true w)) in
      (push_event (clock 2) ETrustResolved Spawning
         (Some "allowlisted repo auto-resolved trust prompt")
         (Some (TrustPrompt (w_cwd w) (Some AutoAllowlisted))) w, false)
    else (w, true)
  else (w, false).

Definition misdelivery_message (w : Worker) (target : WorkerPromptTarget) (preview : string) : string :=
  match target with
  | Shell => "worker prompt landed in shell instead of coding agent: " ++ preview
  | WrongTarget =>
      "worker prompt landed in the wrong target instead of " ++ w_cwd w ++ ": " ++ preview
  | WrongTask =>
      "worker prompt receipt mismatched the expected task context for " ++ w_cwd w ++ ": "
      ++ preview
  | UnknownTarget => "worker prompt delivery failed before reaching coding agent: " ++ preview
  end%string.

Definition observe_misdelivery (clock : nat -> N) (o : PromptDeliveryObservation) (w : Worker) : Worker :=
  let preview := prompt_preview (default "" (last_prompt w)) in
  let w := put_in_flight false
    (put_error (Some {| wf_kind := PromptDeliveryFailure;
                        wf_message := misdelivery_message w (obs_target o) preview;
                        wf_created_at := clock 3 |}) w) in
  let w := push_event (clock 4) EPromptMisdelivery Failed (Some (prompt_misdelivery_detail o))
    (Some (PromptDelivery preview (obs_target o) (obs_cwd o) (obs_prompt_preview o)
             (expected_receipt w) false)) w in
  if auto_recover w then
    let w := put_status ReadyForPrompt (put_replay (last_prompt w) w) in
    push_event (clock 5) EPromptReplayArmed ReadyForPrompt
      (Some "prompt replay armed after prompt misdelivery")
      (Some (PromptDelivery preview (obs_target o) (obs_cwd o) (obs_prompt_preview o)
               (expected_receipt w) true)) w
  else put_status Failed w.

Definition is_trust_failure (e : option WorkerFailure) : bool :=
  match e with Some f => bool_decide (wf_kind f = TrustGate) | None => false end.

Definition observe_progress (clock : nat -> N) (screen_text lowered : string) (w : Worker) : Worker :=
  let w := if detect_running_cue lowered && prompt_in_flight w
           then put_error None (put_status Running (put_in_flight false w)) else w in
  if detect_ready_for_prompt screen_text lowered && negb (bool_decide (w_status w = ReadyForPrompt))
  then
    let w := put_in_flight false (put_status ReadyForPrompt w) in
    let w := if is_trust_failure (last_error w) then put_error None w else w in
    push_event (clock 6) EReadyForPrompt ReadyForPrompt
      (Some "worker is ready for prompt delivery") None w
  else w.

Definition misdelivery (screen_text lowered : string) (w : Worker) : option PromptDeliveryObservation :=
  if prompt_misdelivery_is_relevant w
  then detect_prompt_misdelivery canonicalize screen_text lowered (last_prompt w) (w_cwd w)
         (expected_receipt w)
  else None.

Definition observe_worker (clock : nat -> N) (screen_text : string) (w : Worker) : Worker :=
  let lowered := to_ascii_lowercase screen_text in
  let '(w, blocked) := observe_trust clock lowered w in
  if blocked then w
  else match misdelivery screen_text lowered w with
       | Some o => observe_misdelivery clock o w
       | None => observe_progress clock screen_text lowered w
       end.

Definition not_found (id : string) : string := ("worker not found: " ++ id)%string.

(** A method that looks its worker up and changes it in place. *)
Definition with_worker (id : string) (f : Worker -> result string Worker) (r : WorkerRegistry)
  : WorkerRegistry * result string Worker :=
  match workers r !! id with
  | None => (r, Err (not_found id))
  | Some w =>
      match f w with
      | Err e => (r, Err e)
      | Ok w => ({| workers := <[id := w]> (workers r); wr_counter := wr_counter r |}, Ok w)
      end
  end.

Definition observe (clock : nat -> N) (id screen_text : string) :=
  with_worker id (fun w => Ok (observe_worker clock screen_text w)).

Definition resolve_trust (clock : nat -> N) (id : string) :=
  with_worker id (fun w =>
    if negb (bool_decide (w_status w = TrustRequired)) then
      Err ("worker " ++ id ++ " is not waiting on trust; current status: "
           ++ status_display (w_status w))%string
    else
      let w := put_status Spawning (put_error None (put_gate true w)) in
      Ok (push_event (clock 0) ETrustResolved Spawning (Some "trust prompt resolved manually")
            (Some (TrustPrompt (w_cwd w) (Some ManualApproval))) w)).

Definition next_prompt (prompt : option string) (w : Worker) : option string :=
  match prompt with
  | Some p => if is_empty (trim p) then replay_prompt w else Some (trim p)
  | None => replay_prompt w
  end.

Definition dispatch (clock : nat -> N) (next : string) (receipt : option WorkerTaskReceipt)
    (w : Worker) : Worker :=
  push_event (clock 0) ERunning Running
    (Some ("prompt dispatched to worker: " ++ prompt_preview next)%string) None
    (Mk (worker_id w) (w_cwd w) Running (trust_auto_resolve w) (trust_gate_cleared w)
       (auto_recover w) (u32_add (delivery_attempts w) 1) true (Some next) receipt None None
       (w_created_at w) (w_updated_at w) (w_events w)).

Definition send_prompt (clock : nat -> N) (id : string) (prompt : option string)
    (task_receipt : option WorkerTaskReceipt) :=
  with_worker id (fun w =>
    if negb (bool_decide (w_status w = ReadyForPrompt)) then
      Err ("worker " ++ id ++ " is not ready for prompt delivery; current status: "
           ++ status_display (w_status w))%string
    else
      match next_prompt prompt w with
      | None => Err ("worker " ++ id ++ " has no prompt to send or replay")%string
      | Some next => Ok (dispatch clock next task_receipt w)
      end).

Definition await_ready (id : string) (r : WorkerRegistry) : result string WorkerReadySnapshot :=
  match get id r with
  | None => Err (not_found id)
  | Some w =>
      Ok {| rs_worker_id := worker_id w; rs_status := w_status w;
            rs_ready := bool_decide (w_status w = ReadyForPrompt);
            rs_blocked := bool_decide (w_status w = TrustRequired)
                          || bool_decide (w_status w = Failed);
            rs_replay_prompt_ready := bool_decide (is_Some (replay_prompt w));
            rs_last_error := last_error w |}
  end.

Definition restart (clock : nat -> N) (id : string) :=
  with_worker id (fun w =>
    Ok (push_event (clock 0) ERestarted Spawning (Some "worker restarted") None
          (Mk (worker_id w) (w_cwd w) Spawning (trust_auto_resolve w) false (auto_recover w) 0
             false None (expected_receipt w) None None (w_created_at w) (w_updated_at w)
             (w_events w)))).

Definition terminate (clock : nat -> N) (id : string) :=
  with_worker id (fun w =>
    Ok (push_event (clock 0) EFinished Finished (Some "worker terminated by control plane") None
          (put_in_flight false (put_status Finished w)))).

Definition is_provider_failure (finish_reason : string) (tokens_output : N) : bool :=
  (String.eqb finish_reason "unknown" && (tokens_output =? 0)%N)
  || String.eqb finish_reason "error".

Definition observe_completion (clock : nat -> N) (id finish_reason : string) (tokens_output : N) :=
  with_worker id (fun w =>
    if is_provider_failure finish_reason tokens_output then
      let message :=
        if String.eqb finish_reason "unknown" && (tokens_output =? 0)%N
        then "session completed with finish='unknown' and zero output — provider degraded or context exhausted"
        else ("session failed with finish='" ++ finish_reason ++ "' — provider error")%string in
      Ok (push_event (clock 1) EFailed Failed (Some "provider failure classified") None
            (put_in_flight false (put_status Failed
               (put_error (Some {| wf_kind := Provider; wf_message := message;
                                   wf_created_at := clock 0 |}) w))))
    else
      Ok (push_event (clock 0) EFinished Finished
            (Some ("session completed: finish='" ++ finish_reason ++ "', tokens="
                   ++ pretty tokens_output)%string) None
            (put_error None (put_in_flight false (put_status Finished w))))).

Definition has_event (kind : WorkerEventKind) (w : Worker) : bool :=
  existsb (fun e => bool_decide (we_kind e = kind)) (w_events w).

Definition startup_evidence (now : N) (pane_command : string) (transport_healthy mcp_healthy : bool)
    (w : Worker) : StartupEvidenceBundle :=
  {| sb_last_lifecycle_state := w_status w;
     sb_pane_command := pane_command;
     sb_prompt_sent_at := if (0 <? delivery_attempts w)%N then Some (w_updated_at w) else None;
     sb_prompt_acceptance_state := bool_decide (w_status w = Running) && negb (prompt_in_flight w);
     sb_trust_prompt_detected := has_event ETrustRequired w;
     sb_tool_permission_prompt_detected := has_event EToolPermissionRequired w;
     sb_tool_permission_prompt_age_seconds := None;
     sb_transport_healthy := transport_healthy;
     sb_mcp_healthy := mcp_healthy;
     sb_elapsed_seconds := u64_saturating_sub now (w_created_at w) |}.

Definition observe_startup_timeout (clock : nat -> N) (id pane_command : string)
    (transport_healthy mcp_healthy : bool) :=
  with_worker id (fun w =>
    let now := clock 0 in
    let evidence := startup_evidence now pane_command transport_healthy mcp_healthy w in
    let classification := classify_startup_failure evidence in
    let message := ("worker startup stalled after " ++ pretty (sb_elapsed_seconds evidence)
                    ++ "s — classified as " ++ classification_debug classification)%string in
    let detail := ("startup timeout with evidence: last_state="
                   ++ status_debug (sb_last_lifecycle_state evidence) ++ ", trust_detected="
                   ++ bool_display (sb_trust_prompt_detected evidence) ++ ", prompt_accepted="
                   ++ bool_display (sb_prompt_acceptance_state evidence))%string in
    Ok (push_event (clock 1) EStartupNoEvidence Failed (Some detail)
          (Some (StartupNoEvidence evidence classification))
          (put_in_flight false (put_status Failed
             (put_error (Some {| wf_kind := StartupNoEvidenceFailure; wf_message := message;
                                 wf_created_at := now |}) w))))).

(** ** The registry as a state machine: one constructor per method that changes it. *)

Inductive step (r : WorkerRegistry) : WorkerRegistry -> Prop :=
| step_create clock cwd roots recover : step r (create clock cwd roots recover r).1
| step_observe clock id screen : step r (observe clock id screen r).1
| step_resolve_trust clock id : step r (resolve_trust clock id r).1
| step_send_prompt clock id prompt receipt : step r (send_prompt clock id prompt receipt r).1
| step_restart clock id : step r (restart clock id r).1
| step_terminate clock id : step r (terminate clock id r).1
| step_completion clock id reason tokens : step r (observe_completion clock id reason tokens r).1
| step_timeout clock id pane transport mcp :
    step r (observe_startup_timeout clock id pane transport mcp r).1.

Definition reachable (r : WorkerRegistry) : Prop := rtc step registry_new r.

(** ** What a worker's fields say about each other *)

Definition numbered (events : list WorkerEvent) : Prop :=
  we_seq <$> events = N.of_nat <$> seq 1 (length events).

Record worker_ok (id : string) (w : Worker) : Prop := {
  ok_id : worker_id w = id;
  ok_numbered : numbered (w_events w);
  (* a prompt on its way is the last prompt, and the worker is not done or waiting for one *)
  ok_flight : prompt_in_flight w = true ->
    is_Some (last_prompt w) /\ replay_prompt w = None
    /\ (w_status w = Running \/ w_status w = Spawning \/ w_status w = TrustRequired);
  (* a replay is the last prompt again, and only armed for workers that recover *)
  ok_replay p : replay_prompt w = Some p ->
    last_prompt w = Some p /\ prompt_in_flight w = false /\ auto_recover w = true;
  ok_prompt p : last_prompt w = Some p -> is_empty p = false;
  (* a worker waits on trust only while the gate is closed and nobody may open it for it *)
  ok_trust : w_status w = TrustRequired ->
    trust_gate_cleared w = false /\ trust_auto_resolve w = false
    /\ is_trust_failure (last_error w) = true;
  ok_ready : w_status w = ReadyForPrompt -> is_trust_failure (last_error w) = false;
  ok_status : w_status w <> ToolPermissionRequired
}.

End Operations.
