(* ===== verification/WorkerSafety.v ===== *)
(** * Worker start-up: the invariant and what callers rely on

    Every worker of every reachable registry is well formed ([worker_ok]); a prompt is
    dispatched exactly when its worker is ready; a misdelivered prompt comes back; the
    classification of a stalled start; and two ways in which states that look final or
    blocked are left by what a screen shows. *)
From S2P Require Import Prelude.
From stdpp Require Import list gmap relations.
From S2P Require Import RustStr WorkerScreen WorkerBoot.

Lemma numbered_push events e :
  numbered events -> we_seq e = (N.of_nat (length events) + 1)%N -> numbered (events ++ [e]).
Proof.
  unfold numbered. intros H He. rewrite fmap_app, H, length_app, seq_app, fmap_app. cbn.
  do 2 f_equal. rewrite He. lia.
Qed.

Lemma numbered_event t k s d p w :
  numbered (w_events w) -> numbered (w_events (push_event t k s d p w)).
Proof. intros H. by apply numbered_push. Qed.

(** The invariant as a fact about the fields alone. *)
Definition fields_ok (st : WorkerStatus) (gate auto recover flight : bool)
    (last replay : option string) (trust_failure : bool) : Prop :=
  (flight = true -> is_Some last /\ replay = None
                    /\ (st = Running \/ st = Spawning \/ st = TrustRequired))
  /\ (forall p, replay = Some p -> last = Some p /\ flight = false /\ recover = true)
  /\ (forall p, last = Some p -> is_empty p = false)
  /\ (st = TrustRequired -> gate = false /\ auto = false /\ trust_failure = true)
  /\ (st = ReadyForPrompt -> trust_failure = false)
  /\ st <> ToolPermissionRequired.

Definition worker_fields_ok (w : Worker) : Prop :=
  fields_ok (w_status w) (trust_gate_cleared w) (trust_auto_resolve w) (auto_recover w)
    (prompt_in_flight w) (last_prompt w) (replay_prompt w) (is_trust_failure (last_error w)).

Lemma worker_ok_iff id w :
  worker_ok id w <-> worker_id w = id /\ numbered (w_events w) /\ worker_fields_ok w.
Proof.
  split.
  - intros []. by unfold worker_fields_ok, fields_ok.
  - intros (? & ? & ? & ? & ? & ? & ? & ?). by constructor.
Qed.

(** Splits [worker_ok] of a changed worker: the events, and the fields by their values. *)
Ltac worker_parts :=
  apply worker_ok_iff; split; [cbn [worker_id push_event put_status put_error put_gate
    put_in_flight put_replay]; done|split; [
    repeat (cbn [w_events put_status put_error put_gate put_in_flight put_replay];
            try apply numbered_event);
    first [done | exact eq_refl | assumption] |]];
  unfold worker_fields_ok; cbn [w_status trust_gate_cleared trust_auto_resolve auto_recover
    prompt_in_flight last_prompt replay_prompt last_error push_event put_status put_error
    put_gate put_in_flight put_replay is_trust_failure wf_kind];
  unfold fields_ok in *.

Section Invariant.
Variable canonicalize : string -> option string.

Lemma create_ok clock cwd roots recover r :
  let w := (create canonicalize clock cwd roots recover r).2 in worker_ok (worker_id w) w.
Proof. cbn zeta. unfold create. cbn [snd]. worker_parts. naive_solver. Qed.

Lemma observe_trust_ok clock lowered id w :
  worker_ok id w -> worker_ok id (observe_trust clock lowered w).1.
Proof.
  intros (Hid & Hnum & Hf)%worker_ok_iff. unfold observe_trust.
  destruct (negb (trust_gate_cleared w) && _) eqn:E; [|by apply worker_ok_iff].
  apply andb_true_iff in E as [Hg%negb_true_iff _].
  unfold worker_fields_ok, fields_ok in Hf.
  match goal with |- context [if trust_auto_resolve ?x then _ else _] =>
    change (trust_auto_resolve x) with (trust_auto_resolve w) end.
  destruct (trust_auto_resolve w) eqn:Ha; cbn [fst]; worker_parts; rewrite ?Hg, ?Ha; naive_solver.
Qed.

Lemma observe_misdelivery_ok clock o id w :
  worker_ok id w -> prompt_misdelivery_is_relevant w = true ->
  worker_ok id (observe_misdelivery clock o w).
Proof.
  intros (Hid & Hnum & Hf)%worker_ok_iff [Hfl _]%andb_true_iff. unfold observe_misdelivery.
  unfold worker_fields_ok, fields_ok in Hf.
  match goal with |- context [if auto_recover ?x then _ else _] =>
    change (auto_recover x) with (auto_recover w) end.
  destruct (auto_recover w) eqn:Ha; worker_parts; rewrite ?Ha; naive_solver.
Qed.

Lemma observe_progress_ok clock screen lowered id w :
  worker_ok id w -> worker_ok id (observe_progress clock screen lowered w).
Proof.
  intros Hw. unfold observe_progress.
  assert (worker_ok id (if detect_running_cue lowered && prompt_in_flight w
           then put_error None (put_status Running (put_in_flight false w)) else w)) as Hw1.
  { destruct (detect_running_cue lowered && prompt_in_flight w) eqn:E; [|done].
    apply andb_true_iff in E as [_ Hfl].
    apply worker_ok_iff in Hw as (Hid & Hnum & Hf). unfold worker_fields_ok, fields_ok in Hf.
    worker_parts; naive_solver. }
  revert Hw1. generalize (if detect_running_cue lowered && prompt_in_flight w
           then put_error None (put_status Running (put_in_flight false w)) else w).
  clear w Hw. intros w (Hid & Hnum & Hf)%worker_ok_iff.
  destruct (_ && _); [|by apply worker_ok_iff].
  unfold worker_fields_ok, fields_ok in Hf.
  match goal with |- context [is_trust_failure (last_error ?x)] =>
    change (last_error x) with (last_error w) end.
  destruct (is_trust_failure (last_error w)) eqn:He; worker_parts; rewrite ?He; naive_solver.
Qed.

Lemma observe_worker_ok clock screen id w :
  worker_ok id w -> worker_ok id (observe_worker canonicalize clock screen w).
Proof.
  intros Hw. unfold observe_worker. pose proof (observe_trust_ok clock (to_ascii_lowercase screen) id w Hw) as H.
  destruct (observe_trust _ _ w) as [w1 []]; cbn [fst] in H; [done|].
  destruct (misdelivery _ _ _ w1) as [o|] eqn:E.
  - apply observe_misdelivery_ok; [done|]. unfold misdelivery in E.
    by destruct (prompt_misdelivery_is_relevant w1).
  - by apply observe_progress_ok.
Qed.

Lemma worker_dispatch_ok clock next receipt id w :
  worker_ok id w -> is_empty next = false -> worker_ok id (dispatch clock next receipt w).
Proof.
  intros (Hid & Hnum & Hf)%worker_ok_iff Hn. unfold dispatch. unfold worker_fields_ok, fields_ok in Hf.
  worker_parts. naive_solver.
Qed.

Lemma next_prompt_nonempty id w prompt next :
  worker_ok id w -> next_prompt prompt w = Some next -> is_empty next = false.
Proof.
  intros [] H. assert (replay_prompt w = Some next -> is_empty next = false) as Hr.
  { intros Hn. by apply ok_prompt, ok_replay. }
  unfold next_prompt in H. destruct prompt as [p|]; [|auto].
  destruct (is_empty (trim p)) eqn:E; [auto|by injection H as <-].
Qed.

(** ** Reachable registries *)

Definition registry_ok (r : WorkerRegistry) : Prop :=
  forall id w, workers r !! id = Some w -> worker_ok id w.

Lemma with_worker_ok id f r :
  registry_ok r -> (forall w w', worker_ok id w -> f w = Ok w' -> worker_ok id w') ->
  registry_ok (with_worker id f r).1.
Proof.
  intros Hr Hf. unfold with_worker. destruct (workers r !! id) as [w|] eqn:E; [|done].
  destruct (f w) as [w'|] eqn:Ef; [|done]. intros j x Hx. cbn in Hx.
  apply lookup_insert_Some in Hx as [[<- <-]|[_ Hx]]; [|by apply Hr]. eapply Hf; [by apply Hr|done].
Qed.

(** The methods that end a worker's run, whatever the worker. *)
Lemma restart_ok clock id r : registry_ok r -> registry_ok (restart clock id r).1.
Proof.
  intros Hr. apply with_worker_ok; [done|].
  intros w w' (Hid & Hnum & Hf)%worker_ok_iff [= <-]. unfold worker_fields_ok, fields_ok in Hf.
  worker_parts. naive_solver.
Qed.

Lemma terminate_ok clock id r : registry_ok r -> registry_ok (terminate clock id r).1.
Proof.
  intros Hr. apply with_worker_ok; [done|].
  intros w w' (Hid & Hnum & Hf)%worker_ok_iff [= <-]. unfold worker_fields_ok, fields_ok in Hf.
  worker_parts. naive_solver.
Qed.

Lemma resolve_trust_ok clock id r : registry_ok r -> registry_ok (resolve_trust clock id r).1.
Proof.
  intros Hr. apply with_worker_ok; [done|]. intros w w' (Hid & Hnum & Hf)%worker_ok_iff.
  destruct (bool_decide (w_status w = TrustRequired)) eqn:E; cbn [negb]; [|done].
  apply bool_decide_eq_true in E. intros [= <-]. unfold worker_fields_ok, fields_ok in Hf.
  worker_parts. naive_solver.
Qed.

Lemma send_prompt_ok clock id prompt receipt r :
  registry_ok r -> registry_ok (send_prompt clock id prompt receipt r).1.
Proof.
  intros Hr. apply with_worker_ok; [done|]. intros w w' Hw.
  destruct (negb _); [done|]. destruct (next_prompt prompt w) as [next|] eqn:En; [|done].
  intros H. injection H as <-. apply worker_dispatch_ok; [done|]. by apply (next_prompt_nonempty id w prompt).
Qed.

Lemma completion_ok clock id reason tokens r :
  registry_ok r -> registry_ok (observe_completion clock id reason tokens r).1.
Proof.
  intros Hr. apply with_worker_ok; [done|]. intros w w' (Hid & Hnum & Hf)%worker_ok_iff H.
  unfold worker_fields_ok, fields_ok in Hf.
  destruct (is_provider_failure reason tokens); injection H as <-; worker_parts; naive_solver.
Qed.

Lemma timeout_ok clock id pane transport mcp r :
  registry_ok r -> registry_ok (observe_startup_timeout clock id pane transport mcp r).1.
Proof.
  intros Hr. apply with_worker_ok; [done|]. intros w w' (Hid & Hnum & Hf)%worker_ok_iff H.
  unfold worker_fields_ok, fields_ok in Hf. injection H as <-. worker_parts. naive_solver.
Qed.

Lemma step_ok r r' : step canonicalize r r' -> registry_ok r -> registry_ok r'.
Proof.
  intros [clock cwd roots recover|clock id screen|clock id|clock id prompt receipt|clock id
         |clock id|clock id reason tokens|clock id pane transport mcp] Hr.
  - pose proof (create_ok clock cwd roots recover r) as Hw. unfold create in *. cbn [fst snd] in *.
    intros j x Hx. cbn [workers] in Hx. apply lookup_insert_Some in Hx as [[<- <-]|[_ Hx]]; [exact Hw|by apply Hr].
  - apply with_worker_ok; [done|]. intros w w' Hw H. injection H as <-. by apply observe_worker_ok.
  - by apply resolve_trust_ok.
  - by apply send_prompt_ok.
  - by apply restart_ok.
  - by apply terminate_ok.
  - by apply completion_ok.
  - by apply timeout_ok.
Qed.

Lemma registry_reachable_ok r : reachable canonicalize r -> registry_ok r.
Proof.
  assert (registry_ok registry_new) as H0.
  { intros id w H. cbn in H. by rewrite lookup_empty in H. }
  unfold reachable. revert H0. generalize registry_new. intros r0 H0 Hsteps.
  induction Hsteps as [r1|r1 r2 r3 Hstep _ IH]; [done|]. by apply IH, (step_ok r1).
Qed.

(** C22. Whatever screens are observed and whatever is asked, in any order, every worker
    of a registry is well formed: a prompt in flight is the last prompt, not blank, and
    its worker is not finished, failed or ready; an armed replay repeats the last prompt
    of a worker that recovers; waiting on trust means the gate is closed and nobody may
    open it automatically; events are numbered from one. *)
Theorem worker_registry_invariant r id w :
  reachable canonicalize r -> workers r !! id = Some w -> worker_ok id w.
Proof. intros Hr. by apply registry_reachable_ok. Qed.

(** ** Prompts *)

(** A prompt is dispatched exactly when its worker exists, is ready, and there is
    something to send: the given text without the surrounding white space, or else the
    armed replay.  It is then the one prompt in flight of a running worker; otherwise
    the call reports an error and nothing changes. *)
Theorem send_prompt_spec clock id prompt receipt r :
  let '(r', out) := send_prompt clock id prompt receipt r in
  match out with
  | Ok w' => exists w next,
      workers r !! id = Some w /\ w_status w = ReadyForPrompt
      /\ next = (match prompt with
                 | Some p => if is_empty (trim p) then default "" (replay_prompt w) else trim p
                 | None => default "" (replay_prompt w)
                 end)
      /\ w_status w' = Running /\ prompt_in_flight w' = true /\ last_prompt w' = Some next
      /\ replay_prompt w' = None /\ last_error w' = None /\ expected_receipt w' = receipt
      /\ length (w_events w') = S (length (w_events w))
      /\ workers r' = <[id := w']> (workers r)
  | Err _ =>
      r' = r
      /\ (forall w, workers r !! id = Some w -> w_status w = ReadyForPrompt ->
           replay_prompt w = None /\ match prompt with Some p => is_empty (trim p) = true | None => True end)
  end.
Proof.
  unfold send_prompt, with_worker. destruct (workers r !! id) as [w|] eqn:Ew; [|by split].
  destruct (bool_decide (w_status w = ReadyForPrompt)) eqn:Es; cbn [negb].
  2:{ apply bool_decide_eq_false in Es. split; [done|]. by intros w0 [= <-] ?. }
  apply bool_decide_eq_true in Es.
  destruct (next_prompt prompt w) as [next|] eqn:En.
  - exists w, next. unfold next_prompt in En. split_and!; try done.
    + destruct prompt as [p|]; [destruct (is_empty (trim p))|]; by rewrite ?En; simplify_eq.
    + cbn. rewrite length_app. cbn. lia.
  - split; [done|]. intros w0 [= <-] _. unfold next_prompt in En.
    destruct prompt as [p|]; [destruct (is_empty (trim p)) eqn:Ep|]; by rewrite ?En.
Qed.

(** A misdelivered prompt comes back.  When a screen shows that the prompt in flight
    of a recovering worker went to the wrong place (and shows no trust question the gate
    still has to answer), the observation leaves the worker ready, and sending without
    naming a prompt then dispatches the same prompt again. *)
Theorem misdelivered_prompt_is_replayed clock clock' id screen o r w :
  reachable canonicalize r -> workers r !! id = Some w -> auto_recover w = true ->
  (trust_gate_cleared w = true \/ detect_trust_prompt (to_ascii_lowercase screen) = false) ->
  misdelivery canonicalize screen (to_ascii_lowercase screen) w = Some o ->
  exists p w1 w2,
    last_prompt w = Some p
    /\ (observe canonicalize clock id screen r).2 = Ok w1
    /\ w_status w1 = ReadyForPrompt /\ prompt_in_flight w1 = false
    /\ (send_prompt clock' id None (expected_receipt w)
          (observe canonicalize clock id screen r).1).2 = Ok w2
    /\ w_status w2 = Running /\ prompt_in_flight w2 = true /\ last_prompt w2 = Some p
    /\ expected_receipt w2 = expected_receipt w
    /\ delivery_attempts w2 = u32_add (delivery_attempts w) 1.
Proof.
  intros Hr Hw Ha Ht Ho. pose proof (registry_reachable_ok r Hr id w Hw) as Hok.
  assert (prompt_misdelivery_is_relevant w = true) as Hrel
    by (unfold misdelivery in Ho; by destruct (prompt_misdelivery_is_relevant w)).
  apply andb_true_iff in Hrel as [Hfl Hl]. apply bool_decide_eq_true in Hl as [p Hp].
  pose proof (ok_prompt _ _ Hok p Hp) as Hne.
  assert (observe_worker canonicalize clock screen w = observe_misdelivery clock o w) as Hobs.
  { unfold observe_worker, observe_trust.
    assert (negb (trust_gate_cleared w) && detect_trust_prompt (to_ascii_lowercase screen) = false) as ->.
    { destruct Ht as [->| ->]; [done|by rewrite andb_false_r]. }
    by rewrite Ho. }
  unfold observe, with_worker. rewrite Hw, Hobs. unfold observe_misdelivery.
  match goal with |- context [if auto_recover ?x then _ else _] =>
    change (auto_recover x) with (auto_recover w) end. rewrite Ha.
  eexists p, _, _. cbn [fst snd]. split; [done|]. split; [reflexivity|].
  split; [done|]. split; [done|]. split.
  { unfold send_prompt, with_worker. cbn [workers]. rewrite lookup_insert_eq.
    cbn [w_status push_event bool_decide negb next_prompt replay_prompt put_status put_replay last_prompt
         put_in_flight put_error].
    rewrite Hp. reflexivity. }
  done.
Qed.

(** ** A stalled start *)

(** No event is ever a tool permission prompt, and waiting on trust was announced. *)
Definition events_ok (w : Worker) : Prop :=
  has_event EToolPermissionRequired w = false
  /\ (w_status w = TrustRequired -> has_event ETrustRequired w = true).

Lemma has_event_push kind t k s d p w :
  has_event kind (push_event t k s d p w) = has_event kind w || bool_decide (k = kind).
Proof. unfold has_event. cbn [w_events push_event]. rewrite existsb_app. cbn. by rewrite orb_false_r. Qed.

Lemma events_push t k s d p w :
  has_event EToolPermissionRequired w = false -> k <> EToolPermissionRequired ->
  (s = TrustRequired -> k = ETrustRequired) -> events_ok (push_event t k s d p w).
Proof.
  intros Ht Hk Hs. split; rewrite has_event_push.
  - rewrite Ht. by apply bool_decide_eq_false.
  - cbn. intros ->. rewrite Hs by done. by rewrite orb_true_r.
Qed.

Lemma events_observe clock screen w :
  events_ok w -> events_ok (observe_worker canonicalize clock screen w).
Proof.
  intros Hw. unfold observe_worker.
  assert (events_ok (observe_trust clock (to_ascii_lowercase screen) w).1) as H1.
  { unfold observe_trust. destruct (_ && _); [|done].
    match goal with |- context [if ?b then _ else _] => destruct b end; cbn [fst].
    - apply events_push; [|done|done].
      match goal with |- has_event ?k (put_status _ (put_error _ (put_gate _ ?x))) = _ =>
        change (has_event k x = false) end.
      rewrite has_event_push. apply orb_false_iff. split; [exact (proj1 Hw)|done].
    - apply events_push; [exact (proj1 Hw)|done|done]. }
  destruct (observe_trust _ _ w) as [w1 []]; cbn [fst] in H1; [done|]. clear w Hw.
  destruct (misdelivery _ _ _ w1) as [o|].
  - unfold observe_misdelivery.
    match goal with |- context [if ?b then _ else _] => destruct b end.
    + apply events_push; [|done|done].
      match goal with |- has_event ?k (put_status _ (put_replay _ ?x)) = _ =>
        change (has_event k x = false) end.
      rewrite has_event_push. apply orb_false_iff. split; [exact (proj1 H1)|done].
    + split; [|done].
      match goal with |- has_event ?k (put_status _ ?x) = _ => change (has_event k x = false) end.
      rewrite has_event_push. apply orb_false_iff. split; [exact (proj1 H1)|done].
  - unfold observe_progress.
    set (w2 := if detect_running_cue _ && _ then _ else _).
    assert (events_ok w2) as H2.
    { unfold w2. destruct (_ && _); [|done]. by split; [apply H1|]. }
    clearbody w2. destruct (detect_ready_for_prompt _ _ && _); [|done]. apply events_push; [|done|done].
    destruct (is_trust_failure _); exact (proj1 H2).
Qed.

Lemma events_step r r' :
  step canonicalize r r' ->
  (forall id w, workers r !! id = Some w -> events_ok w) ->
  forall id w, workers r' !! id = Some w -> events_ok w.
Proof.
  assert (forall id f r, (forall id w, workers r !! id = Some w -> events_ok w) ->
    (forall w w', events_ok w -> f w = Ok w' -> events_ok w') ->
    forall j w, workers (with_worker id f r).1 !! j = Some w -> events_ok w) as Hwith.
  { intros id f r0 Hr Hf j x. unfold with_worker. destruct (workers r0 !! id) as [w|] eqn:E; [|apply Hr].
    destruct (f w) as [w'|] eqn:Ef; [|apply Hr]. cbn [fst workers].
    intros [[<- <-]|[_ Hx]]%lookup_insert_Some; [|by eapply Hr]. eapply Hf; [by eapply Hr|done]. }
  intros [clock cwd roots recover|clock id screen|clock id|clock id prompt receipt|clock id
         |clock id|clock id reason tokens|clock id pane transport mcp] Hr.
  - intros id w. unfold create. cbn [fst workers].
    intros [[<- <-]|[_ Hx]]%lookup_insert_Some; [|by eapply Hr]. by apply events_push.
  - apply Hwith; [done|]. intros w w' Hw H. injection H as <-. by apply events_observe.
  - apply Hwith; [done|]. intros w w' [Hw _]. destruct (negb _); [done|]. intros H. injection H as <-.
    by apply events_push.
  - apply Hwith; [done|]. intros w w' [Hw _]. destruct (negb _); [done|].
    destruct (next_prompt prompt w); [|done]. intros H. injection H as <-. by apply events_push.
  - apply Hwith; [done|]. intros w w' [Hw _] H. injection H as <-. by apply events_push.
  - apply Hwith; [done|]. intros w w' [Hw _] H. injection H as <-. by apply events_push.
  - apply Hwith; [done|]. intros w w' [Hw _]. destruct (is_provider_failure _ _);
      intros H; injection H as <-; by apply events_push.
  - apply Hwith; [done|]. intros w w' [Hw _] H. injection H as <-. by apply events_push.
Qed.

Lemma reachable_events r id w :
  reachable canonicalize r -> workers r !! id = Some w -> events_ok w.
Proof.
  unfold reachable. assert (forall id w, workers registry_new !! id = Some w -> events_ok w) as H0.
  { intros i x H. cbn in H. by rewrite lookup_empty in H. }
  revert H0. generalize registry_new. intros r0 H0 Hsteps.
  induction Hsteps as [r1|r1 r2 r3 Hstep _ IH]; [apply H0|].
  apply IH. by apply (events_step r1).
Qed.

(** What [classify_startup_failure] comes to for a worker of a reachable registry. *)
Definition stalled_because (now : N) (transport mcp : bool) (w : Worker) : StartupFailureClassification :=
  let sent := (0 <? delivery_attempts w)%N in
  let running := bool_decide (w_status w = Running) in
  if negb transport then CTransportDead
  else if bool_decide (w_status w = TrustRequired) then CTrustRequired
  else if sent && running && prompt_in_flight w then CPromptAcceptanceTimeout
  else if sent && negb running && (w_created_at w + 30 <? now)%N then CPromptMisdelivery
  else if mcp then CUnknown else CWorkerCrashed.

(** A stalled start fails its worker and is classified from the worker's own state: a
    dead transport first, then a trust question, then a prompt nobody picked up, then a
    prompt sent more than thirty seconds into a start that is not running, then an
    unhealthy MCP server.  The branch for tool permission prompts is never taken: no
    method ever records one. *)
Theorem startup_timeout_classification clock id pane transport mcp r w :
  reachable canonicalize r -> workers r !! id = Some w ->
  exists w' e,
    (observe_startup_timeout clock id pane transport mcp r).2 = Ok w'
    /\ w_status w' = Failed /\ prompt_in_flight w' = false
    /\ list.last (w_events w') = Some e
    /\ we_payload e = Some (StartupNoEvidence (startup_evidence (clock 0) pane transport mcp w)
                              (stalled_because (clock 0) transport mcp w)).
Proof.
  intros Hr Hw. destruct (reachable_events r id w Hr Hw) as [Htool Htrust].
  unfold observe_startup_timeout, with_worker. rewrite Hw. eexists _, _. cbn [snd].
  split; [reflexivity|]. split; [done|]. split; [done|]. split; [apply last_snoc|].
  cbn [we_payload]. do 2 f_equal.
  unfold classify_startup_failure, stalled_because, startup_evidence.
  cbn [sb_prompt_sent_at sb_transport_healthy sb_trust_prompt_detected sb_last_lifecycle_state
       sb_tool_permission_prompt_detected sb_prompt_acceptance_state sb_elapsed_seconds sb_mcp_healthy].
  rewrite Htool. destruct transport; cbn [negb andb]; [|done].
  destruct (bool_decide (w_status w = TrustRequired)) eqn:Et.
  { apply bool_decide_eq_true in Et. by rewrite Htrust. }
  rewrite andb_false_r.
  assert (N.ltb 30 (u64_saturating_sub (clock 0) (w_created_at w)) = N.ltb (w_created_at w + 30) (clock 0)) as ->.
  { unfold u64_saturating_sub. apply eq_bool_prop_intro. rewrite !Is_true_true, !N.ltb_lt. lia. }
  destruct (N.ltb 0 (delivery_attempts w)).
  - rewrite bool_decide_eq_true_2 by by eexists.
    destruct (bool_decide (w_status w = Running)), (prompt_in_flight w), mcp; cbn [andb orb negb];
      try done; by destruct (_ <? clock 0)%N.
  - rewrite bool_decide_eq_false_2 by (by intros [? ?]). by destruct mcp.
Qed.

(** Being terminated is not final: a late observation of a terminated worker whose
    screen still says it is ready makes it ready again, and the next prompt is
    dispatched to it. *)
Theorem terminated_worker_is_revived clock clock' clock'' id p receipt r w :
  workers r !! id = Some w -> is_empty (trim p) = false ->
  exists w1 w2 w3,
    (terminate clock id r).2 = Ok w1 /\ w_status w1 = Finished
    /\ (observe canonicalize clock' id "ready for input" (terminate clock id r).1).2 = Ok w2
    /\ w_status w2 = ReadyForPrompt
    /\ (send_prompt clock'' id (Some p) receipt
          (observe canonicalize clock' id "ready for input" (terminate clock id r).1).1).2 = Ok w3
    /\ w_status w3 = Running /\ last_prompt w3 = Some (trim p).
Proof.
  intros Hw Hp. unfold terminate, with_worker. rewrite Hw. cbn [fst snd].
  eexists _, _, _. split; [reflexivity|]. split; [done|].
  unfold observe, with_worker. cbn [workers]. rewrite lookup_insert_eq. cbn [fst snd].
  assert (forall x, w_status x = Finished -> prompt_in_flight x = false ->
    w_status (observe_worker canonicalize clock' "ready for input" x) = ReadyForPrompt) as Hready.
  { intros x Hs Hfl. unfold observe_worker, observe_trust.
    change (detect_trust_prompt (to_ascii_lowercase "ready for input")) with false.
    rewrite andb_false_r. unfold misdelivery, prompt_misdelivery_is_relevant. rewrite Hfl. cbn [andb].
    unfold observe_progress. change (detect_running_cue (to_ascii_lowercase "ready for input")) with false.
    cbn [andb]. change (detect_ready_for_prompt "ready for input" (to_ascii_lowercase "ready for input")) with true.
    rewrite Hs. done. }
  split; [reflexivity|]. split; [by apply Hready|].
  unfold send_prompt, with_worker. cbn [workers]. rewrite lookup_insert_eq, Hready by done.
  cbn [bool_decide]. rewrite bool_decide_eq_true_2 by done. cbn [negb].
  unfold next_prompt. rewrite Hp. split; [reflexivity|]. done.
Qed.

End Invariant.

(** ** The theorems at a concrete worker *)

Definition no_links (path : string) : option string := None.
Definition at_100 (i : nat) : N := (100 + N.of_nat i)%N.
Definition wid : string := "worker_00000064_1".
Definition boot1 := (create no_links at_100 "/repo" ["/trusted"] true registry_new).1.
Definition boot2 := (observe no_links at_100 wid "Ready for input" boot1).1.
Definition boot3 := (send_prompt at_100 wid (Some " fix the bug ") None boot2).1.
Definition shell_screen : string := "zsh: fix the bug: command not found".

Lemma boot3_reachable : reachable no_links boot3.
Proof.
  eapply rtc_l; [apply step_create|]. eapply rtc_l; [apply (step_observe _ _ at_100 wid)|].
  eapply rtc_l; [apply (step_send_prompt _ _ at_100 wid)|]. apply rtc_refl.
Qed.

Definition boot_worker : Worker := default (Mk "" "" Failed false false false 0 false None None None None 0 0 [])
  (workers boot3 !! wid).

Lemma boot_worker_there : workers boot3 !! wid = Some boot_worker.
Proof. by vm_compute. Qed.

Example boot_runs :
  w_status boot_worker = Running /\ last_prompt boot_worker = Some "fix the bug"
  /\ prompt_in_flight boot_worker = true
  /\ obs_target <$> misdelivery no_links shell_screen (to_ascii_lowercase shell_screen) boot_worker
     = Some Shell
  /\ length (w_events boot_worker) = 3.
Proof. by vm_compute. Qed.

Lemma worker_registry_invariant_witness : worker_ok wid boot_worker.
Proof.
  apply (worker_registry_invariant no_links boot3); [apply boot3_reachable|apply boot_worker_there].
Defined.

Lemma misdelivered_prompt_is_replayed_witness :
  exists p w1 w2,
    last_prompt boot_worker = Some p
    /\ (observe no_links at_100 wid shell_screen boot3).2 = Ok w1
    /\ w_status w1 = ReadyForPrompt /\ prompt_in_flight w1 = false
    /\ (send_prompt at_100 wid None (expected_receipt boot_worker)
          (observe no_links at_100 wid shell_screen boot3).1).2 = Ok w2
    /\ w_status w2 = Running /\ prompt_in_flight w2 = true /\ last_prompt w2 = Some p
    /\ expected_receipt w2 = expected_receipt boot_worker
    /\ delivery_attempts w2 = u32_add (delivery_attempts boot_worker) 1.
Proof.
  apply (misdelivered_prompt_is_replayed no_links at_100 at_100 wid shell_screen
           {| obs_target := Shell; obs_cwd := None; obs_prompt_preview := None |});
    [apply boot3_reachable|apply boot_worker_there|by vm_compute|right; by vm_compute|by vm_compute].
Defined.

Lemma startup_timeout_classification_witness :
  exists w' e,
    (observe_startup_timeout at_100 wid "scode" true false boot3).2 = Ok w'
    /\ w_status w' = Failed /\ prompt_in_flight w' = false
    /\ list.last (w_events w') = Some e
    /\ we_payload e = Some (StartupNoEvidence (startup_evidence (at_100 0) "scode" true false boot_worker)
                              (stalled_because (at_100 0) true false boot_worker)).
Proof.
  apply (startup_timeout_classification no_links at_100 wid "scode" true false boot3);
    [apply boot3_reachable|apply boot_worker_there].
Defined.

Lemma terminated_worker_is_revived_witness :
  exists w1 w2 w3,
    (terminate at_100 wid boot3).2 = Ok w1 /\ w_status w1 = Finished
    /\ (observe no_links at_100 wid "ready for input" (terminate at_100 wid boot3).1).2 = Ok w2
    /\ w_status w2 = ReadyForPrompt
    /\ (send_prompt at_100 wid (Some "again") None
          (observe no_links at_100 wid "ready for input" (terminate at_100 wid boot3).1).1).2 = Ok w3
    /\ w_status w3 = Running /\ last_prompt w3 = Some (trim "again").
Proof.
  apply (terminated_worker_is_revived no_links at_100 at_100 at_100 wid "again" None boot3 boot_worker);
    [apply boot_worker_there|by vm_compute].
Defined.
