(* ===== verification/Lanes.v ===== *)
(** * Unattended lanes: policies, recovery, contracts and locks
    (runtime/src/policy_engine.rs, recovery_recipes.rs, green_contract.rs, stale_branch.rs,
    stale_base.rs, branch_lock.rs, task_packet.rs, tools/src/lane_completion.rs)

    The decisions made for a lane of unattended work: which actions its policy rules ask
    for, whether a failure may be recovered automatically once more, whether a test level
    satisfies its contract, what to do about a branch that fell behind, which lanes would
    edit the same files, and whether a task packet is complete.  Durations are
    nanoseconds; what git answers is a parameter. *)
From S2P Require Import Prelude.
From stdpp Require Import list gmap.
From S2P Require Import RustStr SortedList WorkerBoot.

(** ** Policies *)

Inductive LaneBlocker := NoBlocker | StartupBlocker | ExternalBlocker.
Inductive ReviewStatus := Pending | Approved | Rejected.
Inductive DiffScope := Full | Scoped.
Inductive ReconcileReason := AlreadyMerged | Superseded | EmptyDiff | ManualClose.

#[export] Instance LaneBlocker_eq_dec : EqDecision LaneBlocker.
Proof. solve_decision. Defined.
#[export] Instance ReviewStatus_eq_dec : EqDecision ReviewStatus.
Proof. solve_decision. Defined.
#[export] Instance DiffScope_eq_dec : EqDecision DiffScope.
Proof. solve_decision. Defined.

Definition HOUR_NS : N := 3600000000000.
Definition STALE_BRANCH_THRESHOLD : N := HOUR_NS.

Record LaneContext := {
  lane_id : string;
  green_level : N;
  branch_freshness : N;
  lane_blocker : LaneBlocker;
  review_status : ReviewStatus;
  diff_scope : DiffScope;
  lane_completed : bool;
  lane_reconciled : bool
}.

Definition context_new (id : string) (green freshness : N) (blocker : LaneBlocker)
    (review : ReviewStatus) (scope : DiffScope) (completed : bool) : LaneContext :=
  {| lane_id := id; green_level := green; branch_freshness := freshness; lane_blocker := blocker;
     review_status := review; diff_scope := scope; lane_completed := completed;
     lane_reconciled := false |}.

Definition context_reconciled (id : string) : LaneContext :=
  {| lane_id := id; green_level := 0; branch_freshness := 0; lane_blocker := NoBlocker;
     review_status := Pending; diff_scope := Full; lane_completed := true;
     lane_reconciled := true |}.

Inductive PolicyCondition :=
| And (conditions : list PolicyCondition)
| Or (conditions : list PolicyCondition)
| GreenAt (level : N)
| StaleBranch
| StartupBlocked
| LaneCompleted
| LaneReconciled
| ReviewPassed
| ScopedDiff
| TimedOut (duration : N).

Fixpoint condition_matches (c : PolicyCondition) (ctx : LaneContext) : bool :=
  match c with
  | And conditions => forallb (fun c => condition_matches c ctx) conditions
  | Or conditions => existsb (fun c => condition_matches c ctx) conditions
  | GreenAt level => (level <=? green_level ctx)%N
  | StaleBranch => (STALE_BRANCH_THRESHOLD <=? branch_freshness ctx)%N
  | StartupBlocked => bool_decide (lane_blocker ctx = StartupBlocker)
  | LaneCompleted => lane_completed ctx
  | LaneReconciled => lane_reconciled ctx
  | ReviewPassed => bool_decide (review_status ctx = Approved)
  | ScopedDiff => bool_decide (diff_scope ctx = Scoped)
  | TimedOut duration => (duration <=? branch_freshness ctx)%N
  end.

Inductive PolicyAction :=
| MergeToDev
| MergeForward
| RecoverOnce
| Escalate (reason : string)
| CloseoutLane
| CleanupSession
| Reconcile (reason : ReconcileReason)
| Notify (channel : string)
| Block (reason : string)
| Chain (actions : list PolicyAction).

Fixpoint flatten (a : PolicyAction) : list PolicyAction :=
  match a with
  | Chain chained => flat_map flatten chained
  | _ => [a]
  end.

Record PolicyRule := {
  rule_name : string;
  rule_condition : PolicyCondition;
  rule_action : PolicyAction;
  rule_priority : N
}.

Definition rule_matches (r : PolicyRule) (ctx : LaneContext) : bool :=
  condition_matches (rule_condition r) ctx.

Definition priority_le (a b : PolicyRule) : bool := (rule_priority a <=? rule_priority b)%N.

(** [PolicyEngine::new] keeps the rules sorted by priority, stably. *)
Definition engine_new (rules : list PolicyRule) : list PolicyRule := sort_by priority_le rules.

Fixpoint evaluate_loop (rules : list PolicyRule) (ctx : LaneContext) (actions : list PolicyAction)
  : list PolicyAction :=
  match rules with
  | [] => actions
  | rule :: rest =>
      evaluate_loop rest ctx
        (if rule_matches rule ctx then actions ++ flatten (rule_action rule) else actions)
  end.

Definition evaluate (engine : list PolicyRule) (ctx : LaneContext) : list PolicyAction :=
  evaluate_loop engine ctx [].

(** ** Completion (tools/src/lane_completion.rs) *)

(** The fields of an agent's output the detector reads; a blocker only by its presence. *)
Record AgentOutput := {
  ao_agent_id : string;
  ao_status : string;
  ao_error : option string;
  ao_blocked : bool
}.

Definition eq_ignore_ascii_case (a b : string) : bool :=
  String.eqb (to_ascii_lowercase a) (to_ascii_lowercase b).

Definition detect_lane_completion (output : AgentOutput) (test_green has_pushed : bool)
  : option LaneContext :=
  if bool_decide (is_Some (ao_error output)) then None
  else if negb (eq_ignore_ascii_case (ao_status output) "completed")
          && negb (eq_ignore_ascii_case (ao_status output) "finished") then None
  else if ao_blocked output then None
  else if negb test_green then None
  else if negb has_pushed then None
  else Some {| lane_id := ao_agent_id output; green_level := 3; branch_freshness := 0;
               lane_blocker := NoBlocker; review_status := Approved; diff_scope := Scoped;
               lane_completed := true; lane_reconciled := false |}.

Definition evaluate_completed_lane (ctx : LaneContext) : list PolicyAction :=
  evaluate (engine_new
    [{| rule_name := "closeout-completed-lane";
        rule_condition := And [LaneCompleted; GreenAt 3];
        rule_action := CloseoutLane; rule_priority := 10 |};
     {| rule_name := "cleanup-completed-session"; rule_condition := LaneCompleted;
        rule_action := CleanupSession; rule_priority := 5 |}]) ctx.

(** ** Recovery *)

Inductive FailureScenario :=
| TrustPromptUnresolved | PromptMisdelivery | StaleBranchScenario | CompileRedCrossCrate
| McpHandshakeFailure | PartialPluginStartup | ProviderFailure.

#[export] Instance FailureScenario_eq_dec : EqDecision FailureScenario.
Proof. solve_decision. Defined.

Definition all_scenarios : list FailureScenario :=
  [TrustPromptUnresolved; PromptMisdelivery; StaleBranchScenario; CompileRedCrossCrate;
   McpHandshakeFailure; PartialPluginStartup; ProviderFailure].

Definition from_worker_failure_kind (k : WorkerFailureKind) : FailureScenario :=
  match k with
  | TrustGate | ToolPermissionGate => TrustPromptUnresolved
  | PromptDeliveryFailure => PromptMisdelivery
  | Protocol => McpHandshakeFailure
  | Provider | StartupNoEvidenceFailure => ProviderFailure
  end.

Definition scenario_display (s : FailureScenario) : string :=
  match s with
  | TrustPromptUnresolved => "trust_prompt_unresolved"
  | PromptMisdelivery => "prompt_misdelivery"
  | StaleBranchScenario => "stale_branch"
  | CompileRedCrossCrate => "compile_red_cross_crate"
  | McpHandshakeFailure => "mcp_handshake_failure"
  | PartialPluginStartup => "partial_plugin_startup"
  | ProviderFailure => "provider_failure"
  end.

Inductive RecoveryStep :=
| AcceptTrustPrompt | RedirectPromptToAgent | RebaseBranch | CleanBuild
| RetryMcpHandshake (timeout : N)
| RestartPlugin (name : string)
| RestartWorker
| EscalateToHuman (reason : string).

Inductive EscalationPolicy := AlertHuman | LogAndContinue | Abort_.

Record RecoveryRecipe := {
  recipe_scenario : FailureScenario;
  recipe_steps : list RecoveryStep;
  recipe_max_attempts : N;
  recipe_escalation : EscalationPolicy
}.

Inductive RecoveryResult :=
| Recovered (steps_taken : N)
| PartialRecovery (recovered remaining : list RecoveryStep)
| EscalationRequired (reason : string).

Inductive RecoveryEvent :=
| RecoveryAttempted (scenario : FailureScenario) (recipe : RecoveryRecipe) (result : RecoveryResult)
| RecoverySucceeded
| RecoveryFailed
| Escalated.

Record RecoveryContext := {
  attempts : FailureScenario -> option N;
  rec_events : list RecoveryEvent;
  fail_at_step : option nat
}.

Definition recovery_new : RecoveryContext :=
  {| attempts := fun _ => None; rec_events := []; fail_at_step := None |}.
Definition with_fail_at_step (c : RecoveryContext) (index : nat) : RecoveryContext :=
  {| attempts := attempts c; rec_events := rec_events c; fail_at_step := Some index |}.
Definition attempt_count (c : RecoveryContext) (s : FailureScenario) : N := default 0%N (attempts c s).

Definition recipe_for (s : FailureScenario) : RecoveryRecipe :=
  let recipe steps policy := {| recipe_scenario := s; recipe_steps := steps;
                                recipe_max_attempts := 1; recipe_escalation := policy |} in
  match s with
  | TrustPromptUnresolved => recipe [AcceptTrustPrompt] AlertHuman
  | PromptMisdelivery => recipe [RedirectPromptToAgent] AlertHuman
  | StaleBranchScenario => recipe [RebaseBranch; CleanBuild] AlertHuman
  | CompileRedCrossCrate => recipe [CleanBuild] AlertHuman
  | McpHandshakeFailure => recipe [RetryMcpHandshake 5000] Abort_
  | PartialPluginStartup => recipe [RestartPlugin "stalled"; RetryMcpHandshake 3000] LogAndContinue
  | ProviderFailure => recipe [RestartWorker] AlertHuman
  end.

Definition set_attempts (c : RecoveryContext) (s : FailureScenario) (n : N) : RecoveryContext :=
  {| attempts := fun s' => if bool_decide (s = s') then Some n else attempts c s';
     rec_events := rec_events c; fail_at_step := fail_at_step c |}.

Definition push_events (c : RecoveryContext) (l : list RecoveryEvent) : RecoveryContext :=
  {| attempts := attempts c; rec_events := rec_events c ++ l; fail_at_step := fail_at_step c |}.

(** The loop over the steps: the ones executed, and whether one failed. *)
Fixpoint run_steps (fail_index : option nat) (i : nat) (steps executed : list RecoveryStep)
  : list RecoveryStep * bool :=
  match steps with
  | [] => (executed, false)
  | step :: rest =>
      if bool_decide (fail_index = Some i) then (executed, true)
      else run_steps fail_index (S i) rest (executed ++ [step])
  end.

Definition outcome_event (r : RecoveryResult) : RecoveryEvent :=
  match r with
  | Recovered _ => RecoverySucceeded
  | PartialRecovery _ _ => RecoveryFailed
  | EscalationRequired _ => Escalated
  end.

Definition attempt_recovery (s : FailureScenario) (c : RecoveryContext)
  : RecoveryContext * RecoveryResult :=
  let recipe := recipe_for s in
  let count := default 0%N (attempts c s) in
  let c := set_attempts c s count in
  if (recipe_max_attempts recipe <=? count)%N then
    let result := EscalationRequired
      ("max recovery attempts (" ++ pretty (recipe_max_attempts recipe) ++ ") exceeded for "
       ++ scenario_display s)%string in
    (push_events c [RecoveryAttempted s recipe result; Escalated], result)
  else
    let c := set_attempts c s (u32_add count 1) in
    let '(executed, failed) := run_steps (fail_at_step c) 0 (recipe_steps recipe) [] in
    let result :=
      if failed then
        match executed with
        | [] => EscalationRequired ("recovery failed at first step for " ++ scenario_display s)%string
        | _ => PartialRecovery executed (drop (length executed) (recipe_steps recipe))
        end
      else Recovered (N.of_nat (length (recipe_steps recipe))) in
    (push_events c [RecoveryAttempted s recipe result; outcome_event result], result).

(** ** The green contract *)

Inductive GreenLevel := TargetedTests | Package | Workspace | MergeReady.

#[export] Instance GreenLevel_eq_dec : EqDecision GreenLevel.
Proof. solve_decision. Defined.

(** The derived order: by declaration. *)
Definition green_rank (l : GreenLevel) : N :=
  match l with TargetedTests => 0 | Package => 1 | Workspace => 2 | MergeReady => 3 end.
Definition green_ge (a b : GreenLevel) : bool := (green_rank b <=? green_rank a)%N.

Inductive GreenContractOutcome :=
| Satisfied (required observed : GreenLevel)
| Unsatisfied (required : GreenLevel) (observed : option GreenLevel).

Definition contract_evaluate (required : GreenLevel) (observed : option GreenLevel)
  : GreenContractOutcome :=
  match observed with
  | Some level => if green_ge level required then Satisfied required level
                  else Unsatisfied required observed
  | None => Unsatisfied required observed
  end.
Definition is_satisfied_by (required observed : GreenLevel) : bool := green_ge observed required.
Definition is_satisfied (o : GreenContractOutcome) : bool :=
  match o with Satisfied _ _ => true | Unsatisfied _ _ => false end.

(** ** Branch freshness *)

Inductive BranchFreshness :=
| Fresh
| Stale (commits_behind : N) (missing_fixes : list string)
| Diverged (ahead behind : N) (missing_fixes : list string).

Inductive StaleBranchPolicy := AutoRebase | AutoMergeForward | WarnOnly | BlockPolicy.

Inductive StaleBranchAction :=
| Noop
| Warn (message : string)
| BlockAction (message : string)
| Rebase
| MergeForwardAction.

Definition format_missing_fixes (missing_fixes : list string) : string :=
  match missing_fixes with [] => "(none)" | _ => join "; " missing_fixes end.

Definition apply_policy (f : BranchFreshness) (p : StaleBranchPolicy) : StaleBranchAction :=
  match f with
  | Fresh => Noop
  | Stale behind missing =>
      match p with
      | WarnOnly => Warn ("Branch is " ++ pretty behind ++ " commit(s) behind main. Missing fixes: "
                          ++ format_missing_fixes missing)%string
      | BlockPolicy => BlockAction ("Branch is " ++ pretty behind
                          ++ " commit(s) behind main and must be updated before proceeding.")%string
      | AutoRebase => Rebase
      | AutoMergeForward => MergeForwardAction
      end
  | Diverged ahead behind missing =>
      match p with
      | WarnOnly => Warn ("Branch has diverged: " ++ pretty ahead ++ " commit(s) ahead, "
                          ++ pretty behind ++ " commit(s) behind main. Missing fixes: "
                          ++ format_missing_fixes missing)%string
      | BlockPolicy => BlockAction ("Branch has diverged (" ++ pretty ahead ++ " ahead, "
                          ++ pretty behind ++ " behind) and must be reconciled before proceeding. Missing fixes: "
                          ++ format_missing_fixes missing)%string
      | AutoRebase => Rebase
      | AutoMergeForward => MergeForwardAction
      end
  end.

(** What [git rev-list --count] and [git log --format=%s] print, when they succeed. *)
Class Git := {
  git_rev_list_count : string -> string -> option string;
  git_log_subjects : string -> string -> option string;
  git_rev_parse : string -> option string
}.

Section Freshness.
Context {G : Git}.

Definition rev_list_count (a b : string) : N :=
  default 0%N (out ← git_rev_list_count a b; parse_u64 (trim out)).

Definition missing_fix_subjects (a b : string) : list string :=
  match git_log_subjects a b with
  | Some out => List.filter (fun l => negb (is_empty l)) (lines out)
  | None => []
  end.

Definition check_freshness_in (branch main_ref : string) : BranchFreshness :=
  let behind := rev_list_count main_ref branch in
  let ahead := rev_list_count branch main_ref in
  if (behind =? 0)%N then Fresh
  else if (0 <? ahead)%N then Diverged ahead behind (missing_fix_subjects main_ref branch)
  else Stale behind (missing_fix_subjects main_ref branch).

(** The expected base commit (stale_base.rs). *)
Inductive BaseCommitState :=
| Matches
| BaseDiverged (expected actual : string)
| NoExpectedBase
| NotAGitRepo.

Inductive BaseCommitSource := FromFlag (value : string) | FromFile (value : string).

Definition read_sudocode_base_file (content : option string) : option string :=
  content ← content;
  let trimmed := trim content in
  if is_empty trimmed then None else Some trimmed.

Definition resolve_expected_base (flag_value content : option string) : option BaseCommitSource :=
  let from_file := FromFile <$> read_sudocode_base_file content in
  match flag_value with
  | Some value => if is_empty (trim value) then from_file else Some (FromFlag (trim value))
  | None => from_file
  end.

Definition resolve_rev (rev : string) : option string :=
  sha ← git_rev_parse rev;
  let trimmed := trim sha in
  if is_empty trimmed then None else Some trimmed.

Definition check_base_commit (expected_base : option BaseCommitSource) : BaseCommitState :=
  match expected_base with
  | None => NoExpectedBase
  | Some source =>
      let expected_raw := match source with FromFlag v | FromFile v => v end in
      match resolve_rev "HEAD" with
      | None => NotAGitRepo
      | Some head_sha =>
          match resolve_rev expected_raw with
          | None =>
              if starts_with head_sha expected_raw || starts_with expected_raw head_sha then Matches
              else BaseDiverged expected_raw head_sha
          | Some expected_sha =>
              if String.eqb head_sha expected_sha then Matches
              else BaseDiverged expected_sha head_sha
          end
      end
  end.

Definition format_stale_base_warning (s : BaseCommitState) : option string :=
  match s with
  | BaseDiverged expected actual =>
      Some ("warning: worktree HEAD (" ++ actual ++ ") does not match expected base commit ("
            ++ expected ++ "). Session may run against a stale codebase.")%string
  | NotAGitRepo => Some "warning: stale-base check skipped — not inside a git repository."
  | Matches | NoExpectedBase => None
  end.

End Freshness.

(** ** Branch locks *)

Record BranchLockIntent := {
  bl_lane_id : string;
  bl_branch : string;
  bl_worktree : option string;
  bl_modules : list string
}.

Record BranchLockCollision := Collision {
  bc_branch : string;
  bc_module : string;
  bc_lane_ids : list string
}.

#[export] Instance BranchLockCollision_eq_dec : EqDecision BranchLockCollision.
Proof. solve_decision. Defined.

Definition modules_overlap (left right : string) : bool :=
  String.eqb left right || starts_with left (right ++ "/")%string
  || starts_with right (left ++ "/")%string.

Definition shared_scope (left right : string) : string :=
  if starts_with left (right ++ "/")%string || String.eqb left right then right else left.

Definition overlapping_modules (left right : list string) : list string :=
  dedup (sort_by leb_of
    (flat_map (fun l => flat_map (fun r => if modules_overlap l r then [shared_scope l r] else [])
                          right) left)).

Definition pair_collisions (left right : BranchLockIntent) : list BranchLockCollision :=
  if String.eqb (bl_branch left) (bl_branch right) then
    map (fun m => Collision (bl_branch left) m [bl_lane_id left; bl_lane_id right])
      (overlapping_modules (bl_modules left) (bl_modules right))
  else [].

(** The two nested loops: each intent with every later one. *)
Fixpoint all_collisions (intents : list BranchLockIntent) : list BranchLockCollision :=
  match intents with
  | [] => []
  | intent :: rest => flat_map (pair_collisions intent) rest ++ all_collisions rest
  end.

Definition collision_key (c : BranchLockCollision) : string * (string * list string) :=
  (bc_branch c, (bc_module c, bc_lane_ids c)).
Definition collision_le (a b : BranchLockCollision) : bool :=
  leb_of (collision_key a) (collision_key b).

Definition detect_branch_lock_collisions (intents : list BranchLockIntent) : list BranchLockCollision :=
  dedup (sort_by collision_le (all_collisions intents)).

(** ** Task packets *)

Inductive TaskScope := ScopeWorkspace | ScopeModule | ScopeSingleFile | ScopeCustom.

Definition scope_display (s : TaskScope) : string :=
  match s with
  | ScopeWorkspace => "workspace"
  | ScopeModule => "module"
  | ScopeSingleFile => "single-file"
  | ScopeCustom => "custom"
  end.

Record TaskPacket := {
  tp_objective : string;
  tp_scope : TaskScope;
  tp_scope_path : option string;
  tp_repo : string;
  tp_worktree : option string;
  tp_branch_policy : string;
  tp_acceptance_tests : list string;
  tp_commit_policy : string;
  tp_reporting_contract : string;
  tp_escalation_policy : string
}.

Definition validate_required (field value : string) : list string :=
  if is_empty (trim value) then [(field ++ " must not be empty")%string] else [].

Definition validate_scope_requirements (p : TaskPacket) : list string :=
  let needs_scope_path := match tp_scope p with ScopeWorkspace => false | _ => true end in
  if needs_scope_path && match tp_scope_path p with Some s => is_empty (trim s) | None => true end
  then [("scope_path is required for scope '" ++ scope_display (tp_scope p) ++ "'")%string] else [].

Fixpoint validate_tests (index : nat) (tests : list string) : list string :=
  match tests with
  | [] => []
  | test :: rest =>
      (if is_empty (trim test)
       then [("acceptance_tests contains an empty value at index " ++ pretty (N.of_nat index))%string]
       else []) ++ validate_tests (S index) rest
  end.

Definition packet_errors (p : TaskPacket) : list string :=
  validate_required "objective" (tp_objective p)
  ++ validate_required "repo" (tp_repo p)
  ++ validate_required "branch_policy" (tp_branch_policy p)
  ++ validate_required "commit_policy" (tp_commit_policy p)
  ++ validate_required "reporting_contract" (tp_reporting_contract p)
  ++ validate_required "escalation_policy" (tp_escalation_policy p)
  ++ validate_scope_requirements p
  ++ validate_tests 0 (tp_acceptance_tests p).

Definition validate_packet (p : TaskPacket) : result (list string) TaskPacket :=
  match packet_errors p with [] => Ok p | errors => Err errors end.
