(* ===== verification/LaneSafety.v ===== *)
(** * Unattended lanes: what the decisions amount to *)
From S2P Require Import Prelude.
From stdpp Require Import list gmap.
From S2P Require Import RustStr SortedList WorkerBoot Lanes.

(** ** Policies *)

Lemma priority_total a b : priority_le a b = true \/ priority_le b a = true.
Proof. unfold priority_le. rewrite !N.leb_le. lia. Qed.
Lemma priority_trans a b c :
  priority_le a b = true -> priority_le b c = true -> priority_le a c = true.
Proof. unfold priority_le. rewrite !N.leb_le. lia. Qed.

Lemma evaluate_loop_spec rules ctx : forall actions,
  evaluate_loop rules ctx actions
  = actions ++ flat_map (fun r => flatten (rule_action r)) (List.filter (fun r => rule_matches r ctx) rules).
Proof.
  induction rules as [|r rules IH]; intros actions; cbn; [by rewrite app_nil_r|].
  rewrite IH. destruct (rule_matches r ctx); cbn; by rewrite ?app_assoc.
Qed.

(** The actions a rule set asks for, in order: the reference the engine is compared to. *)
Definition wanted (rules : list PolicyRule) (ctx : LaneContext) : list PolicyAction :=
  flat_map (fun r => flatten (rule_action r))
    (sort_by priority_le (List.filter (fun r => rule_matches r ctx) rules)).

Lemma evaluate_wanted rules ctx : evaluate (engine_new rules) ctx = wanted rules ctx.
Proof.
  unfold evaluate, engine_new, wanted. rewrite evaluate_loop_spec. cbn.
  by rewrite (sort_by_filter _ priority_total priority_trans).
Qed.

(** An action that is not a chain. *)
Definition is_leaf (a : PolicyAction) : Prop := match a with Chain _ => False | _ => True end.

Fixpoint flatten_leaves (a : PolicyAction) : Forall is_leaf (flatten a).
Proof.
  destruct a; cbn; try (constructor; [done|constructor]).
  induction actions as [|a actions IH]; cbn; [constructor|].
  apply Forall_app. split; [apply flatten_leaves|done].
Qed.

(** The engine's answer is the matching rules' actions, chains taken apart, by
    ascending priority and, among equal priorities, in the order the rules were given:
    rules that do not match have no influence, and the order in which rules of different
    priorities are listed has none either. *)
Theorem policy_evaluation_spec rules ctx :
  evaluate (engine_new rules) ctx = wanted rules ctx
  /\ Forall is_leaf (evaluate (engine_new rules) ctx)
  /\ (forall p, List.filter (fun r => (rule_priority r =? p)%N)
                  (sort_by priority_le (List.filter (fun r => rule_matches r ctx) rules))
               = List.filter (fun r => (rule_priority r =? p)%N && rule_matches r ctx) rules)
  /\ (forall rules', rules ≡ₚ rules' -> NoDup (rule_priority <$> rules) ->
        evaluate (engine_new rules) ctx = evaluate (engine_new rules') ctx).
Proof.
  split_and!.
  - apply evaluate_wanted.
  - rewrite evaluate_wanted. unfold wanted. induction (sort_by _ _) as [|r l IH]; cbn; [constructor|].
    apply Forall_app. split; [apply flatten_leaves|done].
  - intros p.
    assert (forall l, List.filter (fun r => (rule_priority r =? p)%N) (sort_by priority_le l)
                      = List.filter (fun r => (rule_priority r =? p)%N) l) as Hst.
    { intros l. rewrite (sort_by_filter _ priority_total priority_trans).
      apply sort_by_sorted_id. induction l as [|r l IH]; cbn; [constructor|].
      destruct (N.eqb_spec (rule_priority r) p); [|done]. constructor; [done|].
      apply Forall_forall. intros x. rewrite list_elem_of_In, filter_In.
      intros [_ Hx%N.eqb_eq]. unfold priority_le. apply N.leb_le. lia. }
    rewrite Hst. clear Hst. induction rules as [|r rules IH]; cbn; [done|].
    destruct (rule_matches r ctx); cbn; [|by rewrite andb_false_r].
    rewrite andb_true_r. destruct (rule_priority r =? p)%N; by rewrite IH.
  - intros rules' HP Hnd. unfold evaluate, engine_new. f_equal.
    apply sort_by_unique; [apply priority_total|apply priority_trans|done|].
    intros x y Hx Hy Hxy Hyx. unfold priority_le in *. rewrite N.leb_le in *.
    assert (rule_priority x = rule_priority y) as He by lia.
    apply list_elem_of_lookup in Hx as [i Hi], Hy as [j Hj].
    assert (i = j) as ->; [|congruence].
    eapply NoDup_lookup; [exact Hnd|by rewrite list_lookup_fmap, Hi|].
    by rewrite list_lookup_fmap, Hj, He.
Qed.

(** ** Recovery *)

Lemma run_steps_spec fail steps : forall i executed,
  run_steps fail i steps executed =
  match fail with
  | Some k => if (i <=? k) && (k <? i + length steps)
              then (executed ++ take (k - i) steps, true) else (executed ++ steps, false)
  | None => (executed ++ steps, false)
  end.
Proof.
  induction steps as [|s steps IH]; intros i executed; cbn [run_steps].
  - destruct fail as [k|]; cbn [length]; rewrite ?app_nil_r; [|done].
    destruct (Nat.leb_spec i k), (Nat.ltb_spec k (i + 0)); cbn [andb]; try done; lia.
  - case_bool_decide as E.
    + subst fail. rewrite Nat.leb_refl. cbn [andb length].
      destruct (Nat.ltb_spec i (i + S (length steps))); [|lia]. by rewrite Nat.sub_diag, app_nil_r.
    + rewrite IH. destruct fail as [k|]; [|by rewrite <- app_assoc].
      assert (k <> i) by congruence. cbn [length].
      destruct (Nat.leb_spec (S i) k), (Nat.leb_spec i k); cbn [andb]; try lia;
        [|by rewrite <- app_assoc].
      destruct (Nat.ltb_spec k (S i + length steps)), (Nat.ltb_spec k (i + S (length steps))); try lia;
        rewrite <- app_assoc; cbn; [|done].
      by replace (k - i) with (S (k - S i)) by lia.
Qed.

(** What one automatic attempt comes to, by the step that is made to fail. *)
Definition recovery_result (s : FailureScenario) (fail : option nat) : RecoveryResult :=
  let steps := recipe_steps (recipe_for s) in
  match fail with
  | Some 0 => EscalationRequired ("recovery failed at first step for " ++ scenario_display s)%string
  | Some k => if k <? length steps then PartialRecovery (take k steps) (drop k steps)
              else Recovered (N.of_nat (length steps))
  | None => Recovered (N.of_nat (length steps))
  end.

Lemma attempt_first s c : attempt_count c s = 0%N ->
  (attempt_recovery s c).2 = recovery_result s (fail_at_step c)
  /\ attempt_count (attempt_recovery s c).1 s = 1%N
  /\ rec_events (attempt_recovery s c).1
     = rec_events c ++ [RecoveryAttempted s (recipe_for s) (recovery_result s (fail_at_step c));
                        outcome_event (recovery_result s (fail_at_step c))].
Proof.
  unfold attempt_count, attempt_recovery. intros ->.
  assert (recipe_max_attempts (recipe_for s) = 1%N) as -> by (by destruct s).
  cbn [N.leb N.compare fail_at_step set_attempts]. rewrite run_steps_spec. cbn [app].
  assert (1 <= length (recipe_steps (recipe_for s))) as Hlen by (destruct s; cbn; lia).
  unfold recovery_result. destruct (fail_at_step c) as [[|k]|].
  - rewrite Nat.leb_refl. cbn [andb]. destruct (Nat.ltb_spec 0 (0 + length (recipe_steps (recipe_for s)))); [|lia].
    cbn. rewrite bool_decide_eq_true_2 by done. done.
  - cbn [Nat.leb andb]. rewrite Nat.sub_0_r. cbn [Nat.add].
    destruct (Nat.ltb_spec (S k) (length (recipe_steps (recipe_for s)))).
    + rewrite length_take, Nat.min_l by lia.
      destruct (recipe_steps (recipe_for s)) as [|x l] eqn:E; [cbn in *; lia|].
      cbn. rewrite bool_decide_eq_true_2 by done. done.
    + cbn. rewrite bool_decide_eq_true_2 by done. done.
  - cbn. rewrite bool_decide_eq_true_2 by done. done.
Qed.

Lemma attempt_again s c : (1 <= attempt_count c s)%N ->
  exists reason, (attempt_recovery s c).2 = EscalationRequired reason
  /\ attempt_count (attempt_recovery s c).1 s = attempt_count c s
  /\ rec_events (attempt_recovery s c).1
     = rec_events c ++ [RecoveryAttempted s (recipe_for s) (EscalationRequired reason); Escalated].
Proof.
  unfold attempt_count, attempt_recovery. intros Hc.
  assert (recipe_max_attempts (recipe_for s) = 1%N) as -> by (by destruct s).
  apply N.leb_le in Hc. rewrite Hc. cbn. rewrite bool_decide_eq_true_2 by done. eauto.
Qed.

Lemma attempt_other s s' c : s <> s' ->
  attempt_count (attempt_recovery s c).1 s' = attempt_count c s'
  /\ fail_at_step (attempt_recovery s c).1 = fail_at_step c.
Proof.
  intros Hne. unfold attempt_count, attempt_recovery.
  destruct (_ <=? _)%N; [|destruct (run_steps _ _ _ _)]; cbn; by rewrite ?bool_decide_eq_false_2.
Qed.

Lemma attempt_fail s c : fail_at_step (attempt_recovery s c).1 = fail_at_step c.
Proof. unfold attempt_recovery. destruct (_ <=? _)%N; [|destruct (run_steps _ _ _ _)]; done. Qed.

(** The results of a sequence of attempts. *)
Fixpoint attempt_all (l : list FailureScenario) (c : RecoveryContext) : list RecoveryResult :=
  match l with
  | [] => []
  | s :: l => (attempt_recovery s c).2 :: attempt_all l (attempt_recovery s c).1
  end.

Definition is_escalation (r : RecoveryResult) : Prop := exists reason, r = EscalationRequired reason.

(** However failures repeat and interleave, each scenario is recovered automatically
    once: its first attempt runs the recipe (all of it, or up to the step that fails, with
    the rest reported as remaining), and every later attempt is escalated. *)
Theorem one_recovery_then_escalation l fail i s :
  let c := {| attempts := fun _ => None; rec_events := []; fail_at_step := fail |} in
  l !! i = Some s ->
  exists r, attempt_all l c !! i = Some r
    /\ (s ∉ take i l -> r = recovery_result s fail)
    /\ (s ∈ take i l -> is_escalation r).
Proof.
  cbn zeta. set (c := {| attempts := _; rec_events := _; fail_at_step := _ |}).
  enough (forall l i c, fail_at_step c = fail -> l !! i = Some s ->
    exists r, attempt_all l c !! i = Some r
      /\ (attempt_count c s = 0%N -> s ∉ take i l -> r = recovery_result s fail)
      /\ ((1 <= attempt_count c s)%N \/ s ∈ take i l -> is_escalation r)) as H.
  { intros Hi. destruct (H l i c eq_refl Hi) as (r & Hr & H1 & H2). exists r. split_and!; auto. }
  clear. induction l as [|x l IH]; intros i c Hf Hi; [done|].
  destruct i as [|i]; cbn in Hi.
  - simplify_eq. eexists. split; [reflexivity|]. cbn [take]. split.
    + intros Hc _. by apply attempt_first.
    + intros [Hc|Hx]; [|by apply elem_of_nil in Hx].
      destruct (attempt_again s c Hc) as (reason & -> & _). by eexists.
  - destruct (IH i (attempt_recovery x c).1) as (r & Hr & H1 & H2); [by rewrite attempt_fail|done|].
    exists r. cbn [attempt_all lookup list_lookup take]. split; [done|].
    rewrite elem_of_cons. destruct (decide (x = s)) as [->|Hne].
    + assert (1 <= attempt_count (attempt_recovery s c).1 s)%N as Hone.
      { destruct (decide (attempt_count c s = 0%N)) as [E|E].
        - destruct (attempt_first s c E) as (_ & -> & _). done.
        - destruct (attempt_again s c) as (? & _ & -> & _); lia. }
      split; [intros _ Hn; destruct Hn; by left|]. intros _. apply H2. by left.
    + destruct (attempt_other x s c Hne) as [Hc _]. rewrite Hc in H1, H2. split.
      * intros E Hn. apply H1; [done|]. intros Hin. apply Hn. by right.
      * intros [?|[->|?]]; [apply H2; auto|done|apply H2; auto].
Qed.

(** The second failure of a kind, with another in between. *)
Lemma one_recovery_then_escalation_witness :
  let l := [StaleBranchScenario; ProviderFailure; StaleBranchScenario] in
  let c := {| attempts := fun _ => None; rec_events := []; fail_at_step := Some 1 |} in
  l !! 2 = Some StaleBranchScenario /\ StaleBranchScenario ∈ take 2 l
  /\ exists r, attempt_all l c !! 2 = Some r
     /\ (StaleBranchScenario ∉ take 2 l -> r = recovery_result StaleBranchScenario (Some 1))
     /\ (StaleBranchScenario ∈ take 2 l -> is_escalation r).
Proof.
  split; [reflexivity|]. split; [left|].
  exact (one_recovery_then_escalation [StaleBranchScenario; ProviderFailure; StaleBranchScenario]
           (Some 1) 2 StaleBranchScenario eq_refl).
Defined.

(** ** Branch locks *)

Lemma collision_le_total a b : collision_le a b = true \/ collision_le b a = true.
Proof. apply leb_of_total. Qed.
Lemma collision_le_trans a b c :
  collision_le a b = true -> collision_le b c = true -> collision_le a c = true.
Proof. apply leb_of_trans. Qed.
Lemma collision_le_antisym a b : collision_le a b = true -> collision_le b a = true -> a = b.
Proof.
  intros H1 H2. pose proof (leb_of_antisym _ _ H1 H2) as E. destruct a, b. unfold collision_key in E.
  cbn in E. by simplify_eq.
Qed.

Lemma elem_of_overlapping m left right :
  m ∈ overlapping_modules left right <->
  exists l r, l ∈ left /\ r ∈ right /\ modules_overlap l r = true /\ m = shared_scope l r.
Proof.
  unfold overlapping_modules. rewrite elem_of_dedup, elem_of_sort_by.
  rewrite list_elem_of_In, in_flat_map. setoid_rewrite in_flat_map. split.
  - intros (l & Hl & r & Hr & Hm). exists l, r.
    destruct (modules_overlap l r); [|done]. destruct Hm as [<-|[]]. rewrite !list_elem_of_In. done.
  - intros (l & r & Hl & Hr & Ho & ->). rewrite !list_elem_of_In in *. exists l. split; [done|].
    exists r. rewrite Ho. split; [done|]. by left.
Qed.

Lemma elem_of_pair c a b :
  c ∈ pair_collisions a b <->
  bl_branch a = bl_branch b
  /\ exists l r, l ∈ bl_modules a /\ r ∈ bl_modules b /\ modules_overlap l r = true
       /\ c = Collision (bl_branch a) (shared_scope l r) [bl_lane_id a; bl_lane_id b].
Proof.
  unfold pair_collisions. destruct (String.eqb_spec (bl_branch a) (bl_branch b)) as [E|E].
  - rewrite list_elem_of_In, in_map_iff. split.
    + intros (m & <- & Hm%list_elem_of_In). apply elem_of_overlapping in Hm as (l & r & ? & ? & ? & ->).
      eauto 10.
    + intros (_ & l & r & Hl & Hr & Ho & ->). exists (shared_scope l r). split; [done|].
      apply list_elem_of_In, elem_of_overlapping. exists l, r. done.
  - rewrite elem_of_nil. naive_solver.
Qed.

Lemma elem_of_all_collisions c intents :
  c ∈ all_collisions intents <->
  exists i j a b, i < j /\ intents !! i = Some a /\ intents !! j = Some b /\ c ∈ pair_collisions a b.
Proof.
  induction intents as [|x rest IH]; cbn [all_collisions].
  - rewrite elem_of_nil. split; [done|]. intros (i & j & a & b & _ & Hi & _). done.
  - rewrite elem_of_app, IH, list_elem_of_In, in_flat_map. split.
    + intros [(y & Hy%list_elem_of_In & Hc%list_elem_of_In)|(i & j & a & b & Hlt & Hi & Hj & Hc)].
      * apply list_elem_of_lookup in Hy as [j Hj]. exists 0, (S j), x, y. split_and!; [lia|done..].
      * exists (S i), (S j), a, b. split_and!; [lia|done..].
    + intros ([|i] & [|j] & a & b & Hlt & Hi & Hj & Hc); try lia; cbn in Hi, Hj; simplify_eq.
      * left. exists b. rewrite <- !list_elem_of_In. split; [by eapply list_elem_of_lookup_2|done].
      * right. exists i, j, a, b. split_and!; [lia|done..].
Qed.

(** One path is the other or lies below it, by whole segments. *)
Definition inside (inner outer : string) : Prop :=
  inner = outer \/ exists rest, inner = (outer ++ "/" ++ rest)%string.

Lemma starts_with_inside a b :
  starts_with a (b ++ "/")%string = true <-> exists rest, a = (b ++ "/" ++ rest)%string.
Proof. rewrite starts_with_iff. split; intros [r ->]; exists r; by rewrite str_app_assoc. Qed.

Lemma modules_overlap_iff l r : modules_overlap l r = true <-> inside l r \/ inside r l.
Proof.
  unfold modules_overlap, inside. rewrite !orb_true_iff, String.eqb_eq, !starts_with_inside. naive_solver.
Qed.

Lemma shared_scope_spec l r : modules_overlap l r = true ->
  inside l (shared_scope l r) /\ inside r (shared_scope l r).
Proof.
  rewrite modules_overlap_iff. unfold shared_scope.
  destruct (starts_with l (r ++ "/")%string || String.eqb l r) eqn:E; intros H.
  - apply orb_true_iff in E as [E%starts_with_inside|E%String.eqb_eq]; split; unfold inside; auto.
  - apply orb_false_iff in E as [E1 E2]. apply String.eqb_neq in E2.
    split; [by left|]. destruct H as [[?|H%starts_with_inside]|?]; [done|congruence|done].
Qed.

(** Lock collisions are exactly the overlaps: for each pair of intents on one branch
    and each pair of their modules of which one is the other or lies below it, the report
    names the outer module and the two lanes in the order given; nothing else is
    reported, nothing twice, and the report is sorted. *)
Theorem branch_lock_collisions_exact intents :
  let report := detect_branch_lock_collisions intents in
  (forall c, c ∈ report <->
     exists i j a b l r, i < j /\ intents !! i = Some a /\ intents !! j = Some b
       /\ bl_branch a = bl_branch b /\ l ∈ bl_modules a /\ r ∈ bl_modules b
       /\ (inside l r \/ inside r l)
       /\ c = Collision (bl_branch a) (shared_scope l r) [bl_lane_id a; bl_lane_id b])
  /\ (forall l r, inside l r \/ inside r l ->
       inside l (shared_scope l r) /\ inside r (shared_scope l r))
  /\ NoDup report /\ sorted collision_le report.
Proof.
  cbn zeta. unfold detect_branch_lock_collisions.
  destruct (sort_dedup_spec collision_le (all_collisions intents) collision_le_total
              collision_le_trans collision_le_antisym) as (Hs & Hn & Hin).
  split_and!; [|intros l r H%modules_overlap_iff; by apply shared_scope_spec|done|done].
  intros c. rewrite Hin, elem_of_all_collisions. setoid_rewrite elem_of_pair. split.
  - intros (i & j & a & b & ? & ? & ? & ? & l & r & ? & ? & Ho%modules_overlap_iff & ->).
    exists i, j, a, b, l, r. done.
  - intros (i & j & a & b & l & r & ? & ? & ? & ? & ? & ? & Ho%modules_overlap_iff & ->).
    exists i, j, a, b. split_and!; try done. eauto 10.
Qed.

(** ** Completion and contracts *)

(** A lane is completed automatically exactly when its agent finished without an
    error or a blocker, tests are green and code was pushed; and the policy of a lane
    completed that way first cleans up its session and then closes the lane out. *)
Theorem completed_lane_is_closed_out output test_green has_pushed :
  (is_Some (detect_lane_completion output test_green has_pushed) <->
     ao_error output = None /\ ao_blocked output = false /\ test_green = true /\ has_pushed = true
     /\ (to_ascii_lowercase (ao_status output) = "completed"
         \/ to_ascii_lowercase (ao_status output) = "finished"))
  /\ forall ctx, detect_lane_completion output test_green has_pushed = Some ctx ->
       lane_id ctx = ao_agent_id output
       /\ evaluate_completed_lane ctx = [CleanupSession; CloseoutLane].
Proof.
  unfold detect_lane_completion. split.
  - unfold eq_ignore_ascii_case.
    change (to_ascii_lowercase "completed") with "completed".
    change (to_ascii_lowercase "finished") with "finished".
    destruct (ao_error output) as [e|].
    { rewrite bool_decide_eq_true_2 by by eexists. split; [by intros [? ?]|by intros [? _]]. }
    rewrite bool_decide_eq_false_2 by (by intros [? ?]).
    destruct (String.eqb_spec (to_ascii_lowercase (ao_status output)) "completed"),
      (String.eqb_spec (to_ascii_lowercase (ao_status output)) "finished"),
      (ao_blocked output), test_green, has_pushed; cbn [negb andb];
      split; try (intros [? ?]; done); try (intros (? & ? & ? & ? & ?); by intuition);
      intros _; eauto 10.
  - intros ctx. destruct (bool_decide _); [done|]. destruct (_ && _); [done|].
    destruct (ao_blocked output); [done|]. destruct test_green; [|done]. destruct has_pushed; [|done].
    intros H. injection H as <-. split; [done|]. by vm_compute.
Qed.

(** ** Task packets *)

Lemma validate_required_nil field value : validate_required field value = [] <-> is_empty (trim value) = false.
Proof. unfold validate_required. by destruct (is_empty (trim value)). Qed.

Lemma validate_tests_nil tests : forall i,
  validate_tests i tests = [] <-> forall t, t ∈ tests -> is_empty (trim t) = false.
Proof.
  induction tests as [|t tests IH]; intros i; cbn [validate_tests].
  - split; [|done]. intros _ t Ht. by apply elem_of_nil in Ht.
  - setoid_rewrite elem_of_cons. destruct (is_empty (trim t)) eqn:E; cbn.
    + split; [done|]. intros H. specialize (H t (or_introl eq_refl)). congruence.
    + rewrite IH. naive_solver.
Qed.

(** A task packet is accepted exactly when every required text and every acceptance
    test is more than white space and a scope narrower than the workspace names its
    path; acceptance does not change the packet, and a refusal lists at least one error. *)
Theorem packet_accepted_iff p :
  match validate_packet p with
  | Ok p' => p' = p
  | Err errors => errors <> []
  end
  /\ ((exists p', validate_packet p = Ok p') <->
      is_empty (trim (tp_objective p)) = false /\ is_empty (trim (tp_repo p)) = false
      /\ is_empty (trim (tp_branch_policy p)) = false /\ is_empty (trim (tp_commit_policy p)) = false
      /\ is_empty (trim (tp_reporting_contract p)) = false
      /\ is_empty (trim (tp_escalation_policy p)) = false
      /\ (tp_scope p <> ScopeWorkspace -> exists path, tp_scope_path p = Some path /\ is_empty (trim path) = false)
      /\ forall t, t ∈ tp_acceptance_tests p -> is_empty (trim t) = false).
Proof.
  split; [unfold validate_packet; by destruct (packet_errors p)|].
  transitivity (packet_errors p = []).
  { unfold validate_packet. destruct (packet_errors p); split; try done; [by eexists|by intros [? ?]]. }
  unfold packet_errors. repeat (rewrite app_nil || rewrite app_eq_nil).
  rewrite !validate_required_nil, validate_tests_nil.
  assert (validate_scope_requirements p = [] <->
    (tp_scope p <> ScopeWorkspace -> exists path, tp_scope_path p = Some path /\ is_empty (trim path) = false)) as ->.
  { unfold validate_scope_requirements.
    destruct (tp_scope p), (tp_scope_path p) as [s|]; cbn [andb];
      try destruct (is_empty (trim s)) eqn:E; split; intros H; try done.
    all: try (intros _; eexists; done).
    all: destruct H as (q & Hq & He); [done|]; congruence. }
  tauto.
Qed.
