(* ===== verification/LaneEvents.v ===== *)
(** * Lane events (runtime/src/lane_events.rs)

    What a lane of work reports: its events, the builder, and the two passes that remove
    duplicates before the events are shown, one for repeated terminal events and one for
    commits that were replaced.  The JSON of the attached data and the standard library's
    hasher are parameters. *)
From S2P Require Import Prelude.
From stdpp Require Import list gmap.
From S2P Require Import RustStr Json JsonModel.

Inductive LaneEventName :=
| Started | Ready | PromptMisdelivery | Blocked | Red | Green | CommitCreated | PrOpened
| MergeReady | Finished | Failed | Reconciled | Merged | Superseded | Closed
| BranchStaleAgainstMain | BranchWorkspaceMismatch | ShipPrepared | ShipCommitsSelected
| ShipMerged | ShipPushedMain.

Inductive LaneEventStatus :=
| SRunning | SReady | SBlocked | SRed | SGreen | SCompleted | SFailed | SReconciled | SMerged
| SSuperseded | SClosed.

Inductive LaneFailureClass :=
| PromptDelivery | TrustGate | BranchDivergence | Compile | Test_ | PluginStartup | McpStartup
| McpHandshake | GatewayRouting | ToolRuntime | WorkspaceMismatch | Infra.

Inductive EventProvenance := LiveLane | TestProvenance | Healthcheck | Replay | Transport.
Inductive WatcherAction := Act | Observe | Ignore.

#[export] Instance LaneEventName_eq_dec : EqDecision LaneEventName.
Proof. solve_decision. Defined.

(** [{:?}] *)
Definition event_debug (e : LaneEventName) : string :=
  match e with
  | Started => "Started" | Ready => "Ready" | PromptMisdelivery => "PromptMisdelivery"
  | Blocked => "Blocked" | Red => "Red" | Green => "Green" | CommitCreated => "CommitCreated"
  | PrOpened => "PrOpened" | MergeReady => "MergeReady" | Finished => "Finished"
  | Failed => "Failed" | Reconciled => "Reconciled" | Merged => "Merged"
  | Superseded => "Superseded" | Closed => "Closed"
  | BranchStaleAgainstMain => "BranchStaleAgainstMain"
  | BranchWorkspaceMismatch => "BranchWorkspaceMismatch" | ShipPrepared => "ShipPrepared"
  | ShipCommitsSelected => "ShipCommitsSelected" | ShipMerged => "ShipMerged"
  | ShipPushedMain => "ShipPushedMain"
  end.

Definition lane_status_debug (s : LaneEventStatus) : string :=
  match s with
  | SRunning => "Running" | SReady => "Ready" | SBlocked => "Blocked" | SRed => "Red"
  | SGreen => "Green" | SCompleted => "Completed" | SFailed => "Failed"
  | SReconciled => "Reconciled" | SMerged => "Merged" | SSuperseded => "Superseded"
  | SClosed => "Closed"
  end.

Record SessionIdentity := {
  si_title : string;
  si_workspace : string;
  si_purpose : string;
  si_placeholder_reason : option string
}.

Record LaneOwnership := { lo_owner : string; lo_workflow_scope : string; lo_watcher_action : WatcherAction }.

Record LaneEventMetadata := {
  md_seq : N;
  md_provenance : EventProvenance;
  md_session_identity : option SessionIdentity;
  md_ownership : option LaneOwnership;
  md_nudge_id : option string;
  md_event_fingerprint : option string;
  md_timestamp_ms : N
}.

Definition identity_new (title workspace purpose : string) : SessionIdentity :=
  {| si_title := title; si_workspace := workspace; si_purpose := purpose; si_placeholder_reason := None |}.
Definition identity_with_placeholder (title workspace purpose reason : string) : SessionIdentity :=
  {| si_title := title; si_workspace := workspace; si_purpose := purpose;
     si_placeholder_reason := Some reason |}.

Definition metadata_new (now_ms seq : N) (provenance : EventProvenance) : LaneEventMetadata :=
  {| md_seq := seq; md_provenance := provenance; md_session_identity := None;
     md_ownership := None; md_nudge_id := None; md_event_fingerprint := None;
     md_timestamp_ms := now_ms |}.

Definition md_with_identity (i : SessionIdentity) (m : LaneEventMetadata) : LaneEventMetadata :=
  {| md_seq := md_seq m; md_provenance := md_provenance m; md_session_identity := Some i;
     md_ownership := md_ownership m; md_nudge_id := md_nudge_id m;
     md_event_fingerprint := md_event_fingerprint m; md_timestamp_ms := md_timestamp_ms m |}.
Definition md_with_ownership (o : LaneOwnership) (m : LaneEventMetadata) : LaneEventMetadata :=
  {| md_seq := md_seq m; md_provenance := md_provenance m;
     md_session_identity := md_session_identity m; md_ownership := Some o;
     md_nudge_id := md_nudge_id m; md_event_fingerprint := md_event_fingerprint m;
     md_timestamp_ms := md_timestamp_ms m |}.
Definition md_with_nudge_id (n : string) (m : LaneEventMetadata) : LaneEventMetadata :=
  {| md_seq := md_seq m; md_provenance := md_provenance m;
     md_session_identity := md_session_identity m; md_ownership := md_ownership m;
     md_nudge_id := Some n; md_event_fingerprint := md_event_fingerprint m;
     md_timestamp_ms := md_timestamp_ms m |}.
Definition md_with_fingerprint (f : string) (m : LaneEventMetadata) : LaneEventMetadata :=
  {| md_seq := md_seq m; md_provenance := md_provenance m;
     md_session_identity := md_session_identity m; md_ownership := md_ownership m;
     md_nudge_id := md_nudge_id m; md_event_fingerprint := Some f;
     md_timestamp_ms := md_timestamp_ms m |}.

Inductive BlockedSubphase :=
| BTrustPrompt (gate_repo : string)
| BPromptDelivery (attempt : N)
| BPluginInit (plugin_name : string)
| BMcpHandshake (server_name : string) (attempt : N)
| BBranchFreshness (behind_main : N)
| BTestHang (elapsed_secs : N) (test_name : option string)
| BReportPending (since_secs : N).

Record LaneEventBlocker := {
  lb_failure_class : LaneFailureClass;
  lb_detail : string;
  lb_subphase : option BlockedSubphase
}.

Record LaneCommitProvenance := {
  lc_commit : string;
  lc_branch : string;
  lc_worktree : option string;
  lc_canonical_commit : option string;
  lc_superseded_by : option string;
  lc_lineage : list string
}.

Inductive ShipMergeMethod := DirectPush | FastForward | MergeCommit | SquashMerge | RebaseMerge.

Record ShipProvenance := {
  sp_source_branch : string;
  sp_base_commit : string;
  sp_commit_count : N;
  sp_commit_range : string;
  sp_merge_method : ShipMergeMethod;
  sp_actor : string;
  sp_pr_number : option N
}.

Definition is_terminal_event (e : LaneEventName) : bool :=
  match e with Finished | Failed | Superseded | Closed | Merged => true | _ => false end.

(** [to_value] of the attached data, [to_string] of a value, and [DefaultHasher] over the
    strings written to it.  A field that is [None] is left out of its object. *)
Class LaneData `{SerdeJson} := {
  commit_to_value : LaneCommitProvenance -> Value;
  subphase_to_value : BlockedSubphase -> Value;
  ship_to_value : ShipProvenance -> Value;
  value_to_string : Value -> string;
  default_hasher : list string -> N;
  commit_field_commit p : get (commit_to_value p) "commit" ≫= as_str = Some (lc_commit p);
  commit_field_canonical p :
    match lc_canonical_commit p with
    | Some c => get (commit_to_value p) "canonicalCommit" ≫= as_str = Some c
    | None => get (commit_to_value p) "canonicalCommit" = None
    end;
  commit_field_superseded p :
    match lc_superseded_by p with
    | Some c => get (commit_to_value p) "supersededBy" ≫= as_str = Some c
    | None => get (commit_to_value p) "supersededBy" = None
    end
}.

Section Events.
Context {SJ : SerdeJson} {LD : LaneData}.

Record LaneEvent := {
  le_event : LaneEventName;
  le_status : LaneEventStatus;
  le_emitted_at : string;
  le_failure_class : option LaneFailureClass;
  le_detail : option string;
  le_data : option Value;
  le_metadata : LaneEventMetadata
}.

(** [{:016x}] *)
Definition hex016 (n : N) : string :=
  let s := hex_digits 16 n "" in pad_zeros (16 - String.length s) s.

Definition compute_event_fingerprint (event : LaneEventName) (status : LaneEventStatus)
    (data : option Value) : string :=
  hex016 (default_hasher
    ([event_debug event; lane_status_debug status]
     ++ match data with Some d => [value_to_string d] | None => [] end)).

(** ** The builder *)

Record LaneEventBuilder := {
  lbd_event : LaneEventName;
  lbd_status : LaneEventStatus;
  lbd_emitted_at : string;
  lbd_metadata : LaneEventMetadata;
  lbd_detail : option string;
  lbd_failure_class : option LaneFailureClass;
  lbd_data : option Value
}.

Definition builder_new (now_ms : N) (event : LaneEventName) (status : LaneEventStatus)
    (emitted_at : string) (seq : N) (provenance : EventProvenance) : LaneEventBuilder :=
  {| lbd_event := event; lbd_status := status; lbd_emitted_at := emitted_at;
     lbd_metadata := metadata_new now_ms seq provenance; lbd_detail := None;
     lbd_failure_class := None; lbd_data := None |}.

Definition builder_metadata (f : LaneEventMetadata -> LaneEventMetadata) (b : LaneEventBuilder)
  : LaneEventBuilder :=
  {| lbd_event := lbd_event b; lbd_status := lbd_status b; lbd_emitted_at := lbd_emitted_at b;
     lbd_metadata := f (lbd_metadata b); lbd_detail := lbd_detail b;
     lbd_failure_class := lbd_failure_class b; lbd_data := lbd_data b |}.
Definition builder_with_session_identity (i : SessionIdentity) := builder_metadata (md_with_identity i).
Definition builder_with_ownership (o : LaneOwnership) := builder_metadata (md_with_ownership o).
Definition builder_with_nudge_id (n : string) := builder_metadata (md_with_nudge_id n).
Definition builder_with_detail (d : string) (b : LaneEventBuilder) : LaneEventBuilder :=
  {| lbd_event := lbd_event b; lbd_status := lbd_status b; lbd_emitted_at := lbd_emitted_at b;
     lbd_metadata := lbd_metadata b; lbd_detail := Some d;
     lbd_failure_class := lbd_failure_class b; lbd_data := lbd_data b |}.
Definition builder_with_failure_class (f : LaneFailureClass) (b : LaneEventBuilder) : LaneEventBuilder :=
  {| lbd_event := lbd_event b; lbd_status := lbd_status b; lbd_emitted_at := lbd_emitted_at b;
     lbd_metadata := lbd_metadata b; lbd_detail := lbd_detail b;
     lbd_failure_class := Some f; lbd_data := lbd_data b |}.
Definition builder_with_data (d : Value) (b : LaneEventBuilder) : LaneEventBuilder :=
  {| lbd_event := lbd_event b; lbd_status := lbd_status b; lbd_emitted_at := lbd_emitted_at b;
     lbd_metadata := lbd_metadata b; lbd_detail := lbd_detail b;
     lbd_failure_class := lbd_failure_class b; lbd_data := Some d |}.

Definition build (b : LaneEventBuilder) : LaneEvent :=
  {| le_event := lbd_event b; le_status := lbd_status b; le_emitted_at := lbd_emitted_at b;
     le_failure_class := lbd_failure_class b; le_detail := lbd_detail b; le_data := lbd_data b;
     le_metadata := lbd_metadata b |}.

Definition build_terminal (b : LaneEventBuilder) : LaneEvent :=
  build (builder_metadata
    (md_with_fingerprint (compute_event_fingerprint (lbd_event b) (lbd_status b) (lbd_data b))) b).

(** ** The constructors *)

Definition event_new (now_ms : N) (event : LaneEventName) (status : LaneEventStatus)
    (emitted_at : string) : LaneEvent :=
  {| le_event := event; le_status := status; le_emitted_at := emitted_at;
     le_failure_class := None; le_detail := None; le_data := None;
     le_metadata := metadata_new now_ms 0 LiveLane |}.

Definition with_failure_class (f : LaneFailureClass) (e : LaneEvent) : LaneEvent :=
  {| le_event := le_event e; le_status := le_status e; le_emitted_at := le_emitted_at e;
     le_failure_class := Some f; le_detail := le_detail e; le_data := le_data e;
     le_metadata := le_metadata e |}.
Definition with_optional_detail (d : option string) (e : LaneEvent) : LaneEvent :=
  {| le_event := le_event e; le_status := le_status e; le_emitted_at := le_emitted_at e;
     le_failure_class := le_failure_class e; le_detail := d; le_data := le_data e;
     le_metadata := le_metadata e |}.
Definition with_detail (d : string) := with_optional_detail (Some d).
Definition with_data (d : Value) (e : LaneEvent) : LaneEvent :=
  {| le_event := le_event e; le_status := le_status e; le_emitted_at := le_emitted_at e;
     le_failure_class := le_failure_class e; le_detail := le_detail e; le_data := Some d;
     le_metadata := le_metadata e |}.

Definition started (now_ms : N) (emitted_at : string) : LaneEvent :=
  event_new now_ms Started SRunning emitted_at.
Definition finished (now_ms : N) (emitted_at : string) (detail : option string) : LaneEvent :=
  with_optional_detail detail (event_new now_ms Finished SCompleted emitted_at).
Definition commit_created (now_ms : N) (emitted_at : string) (detail : option string)
    (p : LaneCommitProvenance) : LaneEvent :=
  with_data (commit_to_value p)
    (with_optional_detail detail (event_new now_ms CommitCreated SCompleted emitted_at)).
Definition superseded (now_ms : N) (emitted_at : string) (detail : option string)
    (p : LaneCommitProvenance) : LaneEvent :=
  with_data (commit_to_value p)
    (with_optional_detail detail (event_new now_ms Superseded SSuperseded emitted_at)).
Definition with_blocker (b : LaneEventBlocker) (e : LaneEvent) : LaneEvent :=
  let e := with_detail (lb_detail b) (with_failure_class (lb_failure_class b) e) in
  match lb_subphase b with Some s => with_data (subphase_to_value s) e | None => e end.
Definition blocked (now_ms : N) (emitted_at : string) (b : LaneEventBlocker) : LaneEvent :=
  with_blocker b (event_new now_ms Blocked SBlocked emitted_at).
Definition failed (now_ms : N) (emitted_at : string) (b : LaneEventBlocker) : LaneEvent :=
  with_blocker b (event_new now_ms Failed SFailed emitted_at).
Definition ship_prepared (now_ms : N) (emitted_at : string) (p : ShipProvenance) : LaneEvent :=
  with_data (ship_to_value p) (event_new now_ms ShipPrepared SReady emitted_at).
Definition ship_commits_selected (now_ms : N) (emitted_at : string) (commit_count : N)
    (commit_range : string) : LaneEvent :=
  with_detail (pretty commit_count ++ " commits: " ++ commit_range)%string
    (event_new now_ms ShipCommitsSelected SReady emitted_at).
Definition ship_merged (now_ms : N) (emitted_at : string) (p : ShipProvenance) : LaneEvent :=
  with_data (ship_to_value p) (event_new now_ms ShipMerged SCompleted emitted_at).
Definition ship_pushed_main (now_ms : N) (emitted_at : string) (p : ShipProvenance) : LaneEvent :=
  with_data (ship_to_value p) (event_new now_ms ShipPushedMain SCompleted emitted_at).

(** ** Repeated terminal events *)

Definition terminal_fingerprint (e : LaneEvent) : option string :=
  if is_terminal_event (le_event e) then md_event_fingerprint (le_metadata e) else None.

Fixpoint dedupe_terminal_loop (seen : gset string) (events : list LaneEvent) : list LaneEvent :=
  match events with
  | [] => []
  | e :: rest =>
      match terminal_fingerprint e with
      | Some fp => if bool_decide (fp ∈ seen) then dedupe_terminal_loop seen rest
                   else e :: dedupe_terminal_loop ({[fp]} ∪ seen) rest
      | None => e :: dedupe_terminal_loop seen rest
      end
  end.

Definition dedupe_terminal_events (events : list LaneEvent) : list LaneEvent :=
  dedupe_terminal_loop ∅ events.

(** ** Replaced commits *)

Definition commit_data (e : LaneEvent) : option Value :=
  if bool_decide (le_event e = CommitCreated) then le_data e else None.

Definition commit_key (data : Value) : option string :=
  v ← match get data "canonicalCommit" with Some v => Some v | None => get data "commit" end;
  as_str v.

Definition commit_superseded (data : Value) : bool :=
  bool_decide (is_Some (get data "supersededBy" ≫= as_str)).

(** The loop: the [keep] vector and the latest index of every key. *)
Fixpoint supersede_loop (index : nat) (events : list LaneEvent) (keep : list bool)
    (latest : gmap string nat) : list bool :=
  match events with
  | [] => keep
  | e :: rest =>
      match commit_data e with
      | None => supersede_loop (S index) rest keep latest
      | Some data =>
          if commit_superseded data then
            supersede_loop (S index) rest (<[index := false]> keep) latest
          else
            match commit_key data with
            | None => supersede_loop (S index) rest keep latest
            | Some key =>
                let keep := match latest !! key with
                            | Some previous => <[previous := false]> keep
                            | None => keep
                            end in
                supersede_loop (S index) rest keep (<[key := index]> latest)
            end
      end
  end.

Fixpoint retain (events : list LaneEvent) (keep : list bool) : list LaneEvent :=
  match events, keep with
  | e :: events, true :: keep => e :: retain events keep
  | _ :: events, false :: keep => retain events keep
  | _, _ => []
  end.

Definition dedupe_superseded_commit_events (events : list LaneEvent) : list LaneEvent :=
  retain events (supersede_loop 0 events (replicate (length events) true) ∅).

(** ** What the passes keep *)

(** The commit an event stands for while it is not replaced. *)
Definition live_key (e : LaneEvent) : option string :=
  match commit_data e with
  | Some data => if commit_superseded data then None else commit_key data
  | None => None
  end.
Definition replaced (e : LaneEvent) : bool :=
  match commit_data e with Some data => commit_superseded data | None => false end.

(** Kept: not marked as replaced, and no later event is live for the same commit. *)
Fixpoint kept (events : list LaneEvent) : list LaneEvent :=
  match events with
  | [] => []
  | e :: rest =>
      if replaced e
         || match live_key e with
            | Some k => existsb (fun x => bool_decide (live_key x = Some k)) rest
            | None => false
            end
      then kept rest else e :: kept rest
  end.

Definition keep_flag (e : LaneEvent) (rest : list LaneEvent) : bool :=
  negb (replaced e
        || match live_key e with
           | Some k => existsb (fun x => bool_decide (live_key x = Some k)) rest
           | None => false
           end).

Fixpoint flags (events : list LaneEvent) : list bool :=
  match events with [] => [] | e :: rest => keep_flag e rest :: flags rest end.

Lemma retain_flags events : retain events (flags events) = kept events.
Proof.
  induction events as [|e rest IH]; [done|]. cbn [retain flags kept]. unfold keep_flag.
  destruct (_ || _); cbn; by rewrite IH.
Qed.

Lemma flags_length events : length (flags events) = length events.
Proof. induction events; cbn; auto. Qed.

Lemma flags_snoc pre e :
  flags (pre ++ [e]) =
  zip_with andb (flags pre)
    (map (fun x => negb (match live_key x with
                         | Some k => bool_decide (live_key e = Some k) | None => false end)) pre)
  ++ [negb (replaced e)].
Proof.
  induction pre as [|x pre IH]; cbn.
  - unfold keep_flag. cbn. destruct (live_key e); by rewrite orb_false_r.
  - rewrite IH. f_equal. unfold keep_flag. destruct (live_key x) as [k|]; cbn.
    + rewrite existsb_app. cbn. rewrite orb_false_r.
      destruct (replaced x), (existsb _ pre), (bool_decide (live_key e = Some k)); done.
    + by rewrite andb_true_r.
Qed.

(** What the loop knows after a prefix. *)
Definition loop_ok (pre : list LaneEvent) (n : nat) (keep : list bool) (latest : gmap string nat) : Prop :=
  keep = flags pre ++ replicate n true
  /\ forall k, match latest !! k with
               | Some j => exists x, pre !! j = Some x /\ live_key x = Some k
                    /\ forall i y, j < i -> pre !! i = Some y -> live_key y <> Some k
               | None => forall i y, pre !! i = Some y -> live_key y <> Some k
               end.

Lemma flags_lookup pre i x :
  pre !! i = Some x -> flags pre !! i = Some (keep_flag x (drop (S i) pre)).
Proof.
  revert i. induction pre as [|y pre IH]; intros [|i]; cbn; try done; [by intros [= ->]|apply IH].
Qed.

Lemma earlier_dropped pre i j x y k :
  pre !! i = Some x -> pre !! j = Some y -> i < j -> live_key x = Some k -> live_key y = Some k ->
  flags pre !! i = Some false.
Proof.
  intros Hi Hj Hlt Hx Hy. rewrite (flags_lookup _ _ _ Hi). unfold keep_flag. rewrite Hx.
  assert (existsb (fun z => bool_decide (live_key z = Some k)) (drop (S i) pre) = true) as ->.
  { apply existsb_exists. exists y. split; [|by apply bool_decide_eq_true].
    apply list_elem_of_In. apply (list_elem_of_lookup_2 _ (j - S i)). rewrite lookup_drop.
    by replace (S i + (j - S i)) with j by lia. }
  by rewrite orb_true_r.
Qed.

Lemma lookup_map {A B} (f : A -> B) (l : list A) i : map f l !! i = f <$> (l !! i).
Proof. exact (list_lookup_fmap f l i). Qed.

Lemma loop_step_other pre e n keep latest :
  live_key e = None -> loop_ok pre (S n) keep latest ->
  loop_ok (pre ++ [e]) n (if replaced e then <[length pre := false]> keep else keep) latest.
Proof.
  intros He [-> Hl]. split.
  - rewrite flags_snoc. assert (zip_with andb (flags pre) (map (fun x => negb
      (match live_key x with Some k => bool_decide (live_key e = Some k) | None => false end)) pre)
      = flags pre) as ->.
    { clear Hl. rewrite He. generalize (flags pre) (flags_length pre). induction pre as [|x pre IH];
        intros [|b l]; cbn; try done. intros [= Hlen]. rewrite IH by done.
      destruct (live_key x); cbn; by rewrite andb_true_r. }
    rewrite <- app_assoc. destruct (replaced e); cbn.
    + replace (length pre) with (length (flags pre) + 0) by (rewrite flags_length; lia).
      by rewrite insert_app_r.
    + done.
  - intros k. specialize (Hl k). destruct (latest !! k) as [j|].
    + destruct Hl as (x & Hx & Hk & Hlater). exists x. split_and!.
      * by apply lookup_app_l_Some.
      * done.
      * intros i y Hi [Hy|[_ Hy]]%lookup_app_Some; [by eapply Hlater|].
        apply list_lookup_singleton_Some in Hy as [_ <-]. congruence.
    + intros i y [Hy|[_ Hy]]%lookup_app_Some; [by eapply Hl|].
      apply list_lookup_singleton_Some in Hy as [_ <-]. congruence.
Qed.

Lemma loop_step_live pre e n keep latest k :
  live_key e = Some k -> replaced e = false -> loop_ok pre (S n) keep latest ->
  loop_ok (pre ++ [e]) n
    (match latest !! k with Some j => <[j := false]> keep | None => keep end)
    (<[k := length pre]> latest).
Proof.
  intros He Hr [-> Hl]. split.
  - rewrite flags_snoc, Hr, He, <- app_assoc. cbn.
    apply list_eq. intros i.
    specialize (Hl k).
    assert (length (zip_with andb (flags pre) (map (fun x => negb
      (match live_key x with Some k0 => bool_decide (Some k = Some k0) | None => false end)) pre))
      = length pre) as Hlen by (rewrite length_zip_with, length_map, flags_length; lia).
    destruct (decide (i < length pre)) as [Hi|Hi].
    + rewrite (lookup_app_l (zip_with _ _ _)) by lia.
      destruct (lookup_lt_is_Some_2 pre i Hi) as [x Hx].
      rewrite lookup_zip_with, (flags_lookup _ _ _ Hx). cbn.
      rewrite lookup_map, Hx. cbn.
      destruct (latest !! k) as [j|] eqn:Ej.
      * destruct Hl as (y & Hy & Hky & Hlater).
        assert (j < length pre) by (by eapply lookup_lt_Some).
        destruct (decide (i = j)) as [->|Hne].
        -- rewrite list_lookup_insert_eq by (rewrite length_app, flags_length; lia).
           simplify_eq. rewrite Hky, bool_decide_eq_true_2 by done. cbn. by rewrite andb_false_r.
        -- rewrite list_lookup_insert_ne by done.
           rewrite lookup_app_l by (rewrite flags_length; lia). rewrite (flags_lookup _ _ _ Hx).
           destruct (live_key x) as [k'|] eqn:Ek; cbn; [|by rewrite andb_true_r].
           case_bool_decide as E; cbn; [|by rewrite andb_true_r]. injection E as ->.
           destruct (decide (i < j)); [|exfalso; apply (Hlater i x); [lia|done|done]].
           pose proof (earlier_dropped pre i j x y k' Hx Hy ltac:(lia) Ek Hky) as Hd.
           rewrite (flags_lookup _ _ _ Hx) in Hd. injection Hd as ->. done.
      * rewrite lookup_app_l by (rewrite flags_length; lia). rewrite (flags_lookup _ _ _ Hx).
        destruct (live_key x) as [k'|] eqn:Ek; cbn; [|by rewrite andb_true_r].
        rewrite bool_decide_eq_false_2; [by rewrite andb_true_r|]. intros [= ->]. by apply (Hl i x).
    + rewrite (lookup_app_r (zip_with _ _ _)) by lia. rewrite Hlen.
      assert ((flags pre ++ true :: replicate n true) !! i = (true :: replicate n true) !! (i - length pre)) as Hr'.
      { rewrite lookup_app_r by (rewrite flags_length; lia). by rewrite flags_length. }
      destruct (latest !! k) as [j|] eqn:Ej; [|done].
      destruct Hl as (y & Hy & _). assert (j < length pre) by (by eapply lookup_lt_Some).
      by rewrite list_lookup_insert_ne by lia.
  - intros k'. destruct (decide (k = k')) as [<-|Hne].
    + rewrite lookup_insert_eq. exists e. split_and!; [|done|].
      * by rewrite lookup_app_r, Nat.sub_diag by lia.
      * intros i y Hi Hy. apply lookup_lt_Some in Hy. rewrite length_app in Hy. cbn in Hy. lia.
    + rewrite lookup_insert_ne by done. specialize (Hl k'). destruct (latest !! k') as [j|].
      * destruct Hl as (x & Hx & Hk & Hlater). exists x. split_and!; [by apply lookup_app_l_Some|done|].
        intros i y Hi [Hy|[_ Hy]]%lookup_app_Some; [by eapply Hlater|].
        apply list_lookup_singleton_Some in Hy as [_ <-]. congruence.
      * intros i y [Hy|[_ Hy]]%lookup_app_Some; [by eapply Hl|].
        apply list_lookup_singleton_Some in Hy as [_ <-]. congruence.
Qed.

Lemma supersede_loop_spec events : forall pre keep latest,
  loop_ok pre (length events) keep latest ->
  supersede_loop (length pre) events keep latest = flags (pre ++ events).
Proof.
  induction events as [|e rest IH]; intros pre keep latest Hok.
  - destruct Hok as [-> _]. cbn. by rewrite !app_nil_r.
  - specialize (IH (pre ++ [e])). rewrite length_app, <- app_assoc in IH. cbn [app length] in IH.
    replace (length pre + 1) with (S (length pre)) in IH by lia.
    cbn [supersede_loop length] in *.
    pose proof (loop_step_other pre e (length rest) keep latest) as Hother.
    pose proof (fun k => loop_step_live pre e (length rest) keep latest k) as Hlive.
    unfold live_key, replaced in Hother, Hlive.
    destruct (commit_data e) as [data|]; [|by apply IH, Hother].
    destruct (commit_superseded data); [by apply IH, Hother|].
    destruct (commit_key data) as [k|]; [by apply IH, Hlive|by apply IH, Hother].
Qed.

Lemma dedupe_superseded_kept events : dedupe_superseded_commit_events events = kept events.
Proof.
  unfold dedupe_superseded_commit_events.
  rewrite (supersede_loop_spec events [] _ ∅); [apply retain_flags|].
  split; [done|]. intros k. rewrite lookup_empty. intros i y. by rewrite lookup_nil.
Qed.

Lemma kept_sublist events : kept events `sublist_of` events.
Proof. induction events as [|e r IH]; cbn; [constructor|]. destruct (_ || _); by constructor. Qed.

Lemma live_later k l :
  existsb (fun x => bool_decide (live_key x = Some k)) l = true
  <-> exists x, x ∈ l /\ live_key x = Some k.
Proof.
  rewrite existsb_exists. setoid_rewrite bool_decide_eq_true. by setoid_rewrite list_elem_of_In.
Qed.

Lemma live_not_replaced e k : live_key e = Some k -> replaced e = false.
Proof.
  unfold live_key, replaced. destruct (commit_data e) as [d|]; [|done].
  by destruct (commit_superseded d).
Qed.

Lemma kept_live k events :
  (exists e, e ∈ events /\ live_key e = Some k) -> exists e, e ∈ kept events /\ live_key e = Some k.
Proof.
  induction events as [|x r IH]; cbn; [by intros (e & He%elem_of_nil & _)|].
  intros (e & He & Hk). apply elem_of_cons in He as [->|He].
  - rewrite (live_not_replaced x k Hk), Hk. cbn.
    destruct (existsb _ r) eqn:E; [by apply IH, live_later|].
    exists x. split; [left|done].
  - destruct IH as (e' & He' & Hk'); [by eexists|].
    destruct (_ || _); [by exists e'|]. exists e'. split; [by right|done].
Qed.

Lemma kept_idemp events : kept (kept events) = kept events.
Proof.
  induction events as [|e r IH]; cbn; [done|].
  destruct (replaced e) eqn:Hr; cbn; [done|].
  destruct (live_key e) as [k|] eqn:Hk; cbn; [|by rewrite Hr, Hk, IH].
  destruct (existsb _ r) eqn:E; [done|]. cbn. rewrite Hr, Hk, IH. cbn.
  destruct (existsb _ (kept r)) eqn:E'; [|done].
  apply live_later in E' as (x & Hx & Hxk).
  assert (existsb (fun x => bool_decide (live_key x = Some k)) r = true); [|congruence].
  apply live_later. exists x. split; [|done]. by apply (elem_of_submseteq _ _ _ Hx), sublist_submseteq, kept_sublist.
Qed.

Lemma kept_keys_unique events : NoDup (omap live_key (kept events)).
Proof.
  induction events as [|e r IH]; cbn; [constructor|].
  destruct (replaced e) eqn:Hr; cbn; [done|].
  destruct (live_key e) as [k|] eqn:Hk; cbn; [|by rewrite Hk].
  destruct (existsb _ r) eqn:E; [done|]. cbn. rewrite Hk. apply NoDup_cons. split; [|done].
  rewrite list_elem_of_omap. intros (x & Hx & Hxk).
  assert (existsb (fun x => bool_decide (live_key x = Some k)) r = true); [|congruence].
  apply live_later. exists x. split; [|done]. by apply (elem_of_submseteq _ _ _ Hx), sublist_submseteq, kept_sublist.
Qed.

(** The pass over replaced commits, a loop over a vector of flags and a map of indices,
    equals its declarative form: an event stays unless it is marked as replaced or a later
    event is live for the same commit.  Hence the order is kept, every commit that has a
    live event is reported exactly once, and running the pass again changes nothing. *)
Theorem dedupe_superseded_keeps_latest events :
  let out := dedupe_superseded_commit_events events in
  out = kept events
  /\ out `sublist_of` events
  /\ NoDup (omap live_key out)
  /\ (forall k, (exists e, e ∈ events /\ live_key e = Some k) -> exists e, e ∈ out /\ live_key e = Some k)
  /\ dedupe_superseded_commit_events out = out.
Proof.
  intros out. unfold out. rewrite !dedupe_superseded_kept. split_and!.
  - done.
  - apply kept_sublist.
  - apply kept_keys_unique.
  - intros k. apply kept_live.
  - apply kept_idemp.
Qed.

(** ** Terminal events *)

Lemma terminal_loop_sublist events : forall seen, dedupe_terminal_loop seen events `sublist_of` events.
Proof.
  induction events as [|e r IH]; intros seen; cbn; [constructor|].
  destruct (terminal_fingerprint e); [case_bool_decide|]; by constructor.
Qed.

Lemma terminal_loop_fresh events : forall seen,
  NoDup (omap terminal_fingerprint (dedupe_terminal_loop seen events))
  /\ forall fp, fp ∈ omap terminal_fingerprint (dedupe_terminal_loop seen events) -> fp ∉ seen.
Proof.
  induction events as [|e r IH]; intros seen; cbn; [split; [constructor|by intros fp ?%elem_of_nil]|].
  destruct (terminal_fingerprint e) as [fp|] eqn:E; cbn; [case_bool_decide as Hs; [apply IH|]|].
  - cbn. rewrite E. destruct (IH ({[fp]} ∪ seen)) as [IHn IHf]. split.
    + apply NoDup_cons. split; [|done]. intros Hin. apply (IHf fp Hin). set_solver.
    + intros fp' [->|Hin]%elem_of_cons; [done|]. specialize (IHf _ Hin). set_solver.
  - cbn. rewrite E. apply IH.
Qed.

Lemma terminal_loop_first events : forall seen e pre post,
  events = pre ++ e :: post ->
  match terminal_fingerprint e with
  | Some fp => fp ∉ seen /\ fp ∉ omap terminal_fingerprint pre
  | None => True
  end ->
  exists pre', dedupe_terminal_loop seen events
    = pre' ++ e :: dedupe_terminal_loop
        (list_to_set (option_list (terminal_fingerprint e) ++ omap terminal_fingerprint pre) ∪ seen) post.
Proof.
  induction events as [|x r IH]; intros seen e [|y pre] post [=]; subst; intros Hf.
  - exists []. cbn. destruct (terminal_fingerprint e) as [fp|]; cbn.
    + rewrite bool_decide_eq_false_2 by apply Hf. do 2 f_equal. set_solver.
    + do 2 f_equal. set_solver.
  - cbn [dedupe_terminal_loop omap list_omap] in *. cbn.
    destruct (terminal_fingerprint y) as [fp|] eqn:Ey; [case_bool_decide as Hs|].
    + destruct (IH seen e pre post eq_refl) as [pre' ->].
      { destruct (terminal_fingerprint e); [|done]. destruct Hf as [Hf1 Hf2].
        split; [done|]. intros Hin. apply Hf2. by right. }
      exists pre'. do 3 f_equal. set_solver.
    + destruct (IH ({[fp]} ∪ seen) e pre post eq_refl) as [pre' ->].
      { destruct (terminal_fingerprint e) as [fe|]; [|done]. destruct Hf as [Hf1 Hf2].
        rewrite not_elem_of_cons in Hf2. set_solver. }
      exists (y :: pre'). cbn. do 4 f_equal. set_solver.
    + destruct (IH seen e pre post eq_refl Hf) as [pre' ->]. by exists (y :: pre').
Qed.

Lemma terminal_loop_idemp events : forall seen seen',
  seen' ⊆ seen ->
  dedupe_terminal_loop seen' (dedupe_terminal_loop seen events) = dedupe_terminal_loop seen events.
Proof.
  induction events as [|e r IH]; intros seen seen' Hs; cbn; [done|].
  destruct (terminal_fingerprint e) as [fp|] eqn:E; cbn.
  - case_bool_decide as Hin; [by apply IH|]. cbn. rewrite E, bool_decide_eq_false_2 by set_solver.
    f_equal. apply IH. set_solver.
  - rewrite E. f_equal. by apply IH.
Qed.

(** The pass over terminal events keeps the order and every event that is not
    terminal or has no fingerprint; of the terminal events with one fingerprint it keeps
    the first and no other; running it again changes nothing. *)
Theorem dedupe_terminal_keeps_first events :
  let out := dedupe_terminal_events events in
  out `sublist_of` events
  /\ NoDup (omap terminal_fingerprint out)
  /\ (forall e pre post, events = pre ++ e :: post ->
        match terminal_fingerprint e with Some fp => fp ∉ omap terminal_fingerprint pre | None => True end ->
        exists pre' post', out = pre' ++ e :: post' /\ post' `sublist_of` post)
  /\ dedupe_terminal_events out = out.
Proof.
  intros out. unfold out, dedupe_terminal_events. split_and!.
  - apply terminal_loop_sublist.
  - apply terminal_loop_fresh.
  - intros e pre post He Hf. destruct (terminal_loop_first events ∅ e pre post He) as [pre' ->].
    { destruct (terminal_fingerprint e); [|done]. split; [set_solver|done]. }
    eexists pre', _. split; [done|]. apply terminal_loop_sublist.
  - by apply terminal_loop_idemp.
Qed.

(** ** Commits as they are reported *)

Definition commit_id (p : LaneCommitProvenance) : string := default (lc_commit p) (lc_canonical_commit p).
Definition is_live (p : LaneCommitProvenance) : bool := bool_decide (lc_superseded_by p = None).

(** Of the commits not marked as replaced, the last one of each canonical commit. *)
Fixpoint current_commits (l : list LaneCommitProvenance) : list LaneCommitProvenance :=
  match l with
  | [] => []
  | p :: r =>
      if is_live p && negb (existsb (fun q => is_live q && bool_decide (commit_id q = commit_id p)) r)
      then p :: current_commits r else current_commits r
  end.

Lemma commit_value_superseded p : commit_superseded (commit_to_value p) = negb (is_live p).
Proof.
  unfold commit_superseded, is_live. pose proof (commit_field_superseded p) as Hs.
  destruct (lc_superseded_by p) as [x|]; by rewrite Hs.
Qed.

Lemma commit_value_key p : commit_key (commit_to_value p) = Some (commit_id p).
Proof.
  unfold commit_key, commit_id. pose proof (commit_field_commit p) as Hc.
  pose proof (commit_field_canonical p) as Hk. destruct (lc_canonical_commit p) as [c|].
  - by destruct (get (commit_to_value p) "canonicalCommit").
  - rewrite Hk. exact Hc.
Qed.

Lemma commit_created_live now at_ detail p :
  live_key (commit_created now at_ detail p) = (if is_live p then Some (commit_id p) else None)
  /\ replaced (commit_created now at_ detail p) = negb (is_live p).
Proof.
  unfold live_key, replaced.
  change (commit_data (commit_created now at_ detail p)) with (Some (commit_to_value p)). cbv iota.
  rewrite commit_value_superseded, commit_value_key. by destruct (is_live p).
Qed.

(** For commits reported through [commit_created], the pass shows the events of
    exactly the commits that are current: not marked as replaced, and the last of those
    with their canonical commit (the commit itself where none is given). *)
Theorem current_commits_are_shown now at_ detail l :
  dedupe_superseded_commit_events (map (commit_created now at_ detail) l)
  = map (commit_created now at_ detail) (current_commits l).
Proof.
  rewrite dedupe_superseded_kept. induction l as [|p r IH]; cbn; [done|].
  destruct (commit_created_live now at_ detail p) as [-> ->].
  destruct (is_live p); cbn; [|done].
  assert (existsb (fun x => bool_decide (live_key x = Some (commit_id p))) (map (commit_created now at_ detail) r)
    = existsb (fun q => is_live q && bool_decide (commit_id q = commit_id p)) r) as ->.
  { clear IH. induction r as [|q r IH]; cbn; [done|]. rewrite IH.
    destruct (commit_created_live now at_ detail q) as [-> _]. f_equal.
    destruct (is_live q); cbn; repeat case_bool_decide; congruence. }
  destruct (existsb _ r); cbn; by rewrite IH.
Qed.

End Events.

(** ** A concrete instance *)

Definition optional_field (key : string) (v : option string) : list (string * tree) :=
  match v with Some s => [(key, t_str s)] | None => [] end.

Definition tree_commit (p : LaneCommitProvenance) : tree :=
  t_obj ([("commit", t_str (lc_commit p)); ("branch", t_str (lc_branch p))]
    ++ optional_field "worktree" (lc_worktree p)
    ++ optional_field "canonicalCommit" (lc_canonical_commit p)
    ++ optional_field "supersededBy" (lc_superseded_by p)
    ++ [("lineage", t_arr (map t_str (lc_lineage p)))]).

#[export] Instance tree_lane_data : LaneData.
Proof.
  refine {| commit_to_value := tree_commit;
            subphase_to_value := fun _ => t_str "subphase";
            ship_to_value := fun _ => t_str "ship";
            value_to_string := fun _ => "";
            default_hasher := fun l => N.of_nat (length (concat (map list_ascii_of_string l))) |};
    intros [c b [w|] [k|] [s|] li]; done.
Defined.

Definition sample_commit (c : string) (canonical superseded : option string) : LaneCommitProvenance :=
  {| lc_commit := c; lc_branch := "feature"; lc_worktree := None; lc_canonical_commit := canonical;
     lc_superseded_by := superseded; lc_lineage := [] |}.

(** The pass on three commits of which the first is marked and the second is repeated. *)
Lemma current_commits_are_shown_witness :
  let l := [sample_commit "old" (Some "k") (Some "new"); sample_commit "a" (Some "k") None;
            sample_commit "b" (Some "k") None] in
  current_commits l = [sample_commit "b" (Some "k") None]
  /\ dedupe_superseded_commit_events (map (commit_created 0 "t" None) l)
     = map (commit_created 0 "t" None) (current_commits l).
Proof. split; [reflexivity|]. exact (current_commits_are_shown 0 "t" None _). Defined.
