(* ===== verification/McpLifecycle.v ===== *)
(** * The lifecycle of tool servers and plugins
    (runtime/src/mcp_lifecycle_hardened.rs, plugin_lifecycle.rs)

    The validator records the phases a tool server goes through, refuses phases out of
    order and keeps the errors; the degraded report says which expected tools are missing.
    A plugin's state is derived from the health of its servers.  The clock is an argument. *)
From S2P Require Import Prelude.
From stdpp Require Import list gmap sorting.
From S2P Require Import RustStr SortedList.

(** ** Phases *)

Inductive McpLifecyclePhase :=
| ConfigLoad | ServerRegistration | SpawnConnect | InitializeHandshake | ToolDiscovery
| ResourceDiscovery | PhaseReady | Invocation | ErrorSurfacing | Shutdown | Cleanup.

#[export] Instance McpLifecyclePhase_eq_dec : EqDecision McpLifecyclePhase.
Proof. solve_decision. Defined.

Definition all_phases : list McpLifecyclePhase :=
  [ConfigLoad; ServerRegistration; SpawnConnect; InitializeHandshake; ToolDiscovery;
   ResourceDiscovery; PhaseReady; Invocation; ErrorSurfacing; Shutdown; Cleanup].

Definition phase_display (p : McpLifecyclePhase) : string :=
  match p with
  | ConfigLoad => "config_load"
  | ServerRegistration => "server_registration"
  | SpawnConnect => "spawn_connect"
  | InitializeHandshake => "initialize_handshake"
  | ToolDiscovery => "tool_discovery"
  | ResourceDiscovery => "resource_discovery"
  | PhaseReady => "ready"
  | Invocation => "invocation"
  | ErrorSurfacing => "error_surfacing"
  | Shutdown => "shutdown"
  | Cleanup => "cleanup"
  end.

(** [McpLifecycleValidator::validate_phase_transition] *)
Definition validate_phase_transition (from to : McpLifecyclePhase) : bool :=
  match from, to with
  | ConfigLoad, ServerRegistration
  | ServerRegistration, SpawnConnect
  | SpawnConnect, InitializeHandshake
  | InitializeHandshake, ToolDiscovery
  | ToolDiscovery, ResourceDiscovery
  | ToolDiscovery, PhaseReady
  | ResourceDiscovery, PhaseReady
  | PhaseReady, Invocation
  | Invocation, PhaseReady
  | ErrorSurfacing, PhaseReady
  | ErrorSurfacing, Shutdown
  | Shutdown, Cleanup => true
  | from, Shutdown => bool_decide (from <> Cleanup)
  | from, ErrorSurfacing => bool_decide (from <> Cleanup) && bool_decide (from <> Shutdown)
  | _, _ => false
  end.

(** A [BTreeMap] of strings is its association list in key order. *)
Record McpErrorSurface := {
  es_phase : McpLifecyclePhase;
  es_server_name : option string;
  es_message : string;
  es_context : list (string * string);
  es_recoverable : bool;
  es_timestamp : N
}.

Definition context_insert (key value : string) (l : list (string * string)) : list (string * string) :=
  insert_by (fun a b => leb_of a.1 b.1) (key, value)
    (List.filter (fun p => negb (String.eqb p.1 key)) l).

Definition error_new (now : N) (phase : McpLifecyclePhase) (server_name : option string)
    (message : string) (context : list (string * string)) (recoverable : bool) : McpErrorSurface :=
  {| es_phase := phase; es_server_name := server_name; es_message := message;
     es_context := context; es_recoverable := recoverable; es_timestamp := now |}.

Inductive McpPhaseResult :=
| Success (phase : McpLifecyclePhase) (duration : N)
| Failure (phase : McpLifecyclePhase) (error : McpErrorSurface)
| Timeout (phase : McpLifecyclePhase) (waited : N) (error : McpErrorSurface).

Definition result_phase (r : McpPhaseResult) : McpLifecyclePhase :=
  match r with Success p _ | Failure p _ | Timeout p _ _ => p end.

(** The maps keyed by a phase are total functions over the eleven phases. *)
Record McpLifecycleState := {
  current_phase : option McpLifecyclePhase;
  phase_errors : McpLifecyclePhase -> list McpErrorSurface;
  phase_timestamps : McpLifecyclePhase -> option N;
  phase_results : list McpPhaseResult
}.

Definition lifecycle_new : McpLifecycleState :=
  {| current_phase := None; phase_errors := fun _ => []; phase_timestamps := fun _ => None;
     phase_results := [] |}.

Definition record_phase (now : N) (phase : McpLifecyclePhase) (s : McpLifecycleState)
  : McpLifecycleState :=
  {| current_phase := Some phase; phase_errors := phase_errors s;
     phase_timestamps := fun p => if bool_decide (p = phase) then Some now else phase_timestamps s p;
     phase_results := phase_results s |}.

Definition record_error (error : McpErrorSurface) (s : McpLifecycleState) : McpLifecycleState :=
  {| current_phase := current_phase s;
     phase_errors := fun p => if bool_decide (p = es_phase error) then phase_errors s p ++ [error]
                              else phase_errors s p;
     phase_timestamps := phase_timestamps s; phase_results := phase_results s |}.

Definition lifecycle_record_result (r : McpPhaseResult) (s : McpLifecycleState) : McpLifecycleState :=
  {| current_phase := current_phase s; phase_errors := phase_errors s;
     phase_timestamps := phase_timestamps s; phase_results := phase_results s ++ [r] |}.

Definition can_resume_after_error (s : McpLifecycleState) : bool :=
  match list.last (phase_results s) with
  | Some (Failure _ error) | Some (Timeout _ _ error) => es_recoverable error
  | _ => false
  end.

(** [McpLifecycleValidator::record_failure] *)
Definition record_failure (now : N) (error : McpErrorSurface) (s : McpLifecycleState)
  : McpLifecycleState * McpPhaseResult :=
  let result := Failure (es_phase error) error in
  (lifecycle_record_result result (record_phase now ErrorSurfacing (record_error error s)), result).

Definition transition_context (from to : McpLifecyclePhase) : list (string * string) :=
  [("from", phase_display from); ("to", phase_display to)].

Definition enter_phase (now elapsed : N) (phase : McpLifecyclePhase) (s : McpLifecycleState)
  : McpLifecycleState * McpPhaseResult :=
  let result := Success phase elapsed in
  (lifecycle_record_result result (record_phase now phase s), result).

(** [McpLifecycleValidator::run_phase] *)
Definition run_phase (now elapsed : N) (phase : McpLifecyclePhase) (s : McpLifecycleState)
  : McpLifecycleState * McpPhaseResult :=
  match current_phase s with
  | Some current =>
      if bool_decide (current = ErrorSurfacing) && bool_decide (phase = PhaseReady)
         && negb (can_resume_after_error s) then
        record_failure now
          (error_new now phase None
             "cannot return to ready after a non-recoverable MCP lifecycle failure"
             (transition_context current phase) false) s
      else if negb (validate_phase_transition current phase) then
        record_failure now
          (error_new now phase None
             ("invalid MCP lifecycle transition from " ++ phase_display current ++ " to "
              ++ phase_display phase)%string
             (transition_context current phase) false) s
      else enter_phase now elapsed phase s
  | None =>
      if bool_decide (phase <> ConfigLoad) then
        record_failure now
          (error_new now phase None ("invalid initial MCP lifecycle phase " ++ phase_display phase)%string
             [("phase", phase_display phase)] false) s
      else enter_phase now elapsed phase s
  end.

(** [McpLifecycleValidator::record_timeout]; [waited] is in milliseconds. *)
Definition record_timeout (now : N) (phase : McpLifecyclePhase) (waited : N)
    (server_name : option string) (context : list (string * string)) (s : McpLifecycleState)
  : McpLifecycleState * McpPhaseResult :=
  let context := context_insert "waited_ms" (pretty waited) context in
  let error := error_new now phase server_name
    ("MCP lifecycle phase " ++ phase_display phase ++ " timed out after " ++ pretty waited ++ " ms")%string
    context true in
  let result := Timeout phase waited error in
  (lifecycle_record_result result (record_phase now ErrorSurfacing (record_error error s)), result).

(** ** The degraded report *)

Record McpFailedServer := {
  fs_server_name : string;
  fs_phase : McpLifecyclePhase;
  fs_error : McpErrorSurface
}.

Record McpDegradedReport := {
  working_servers : list string;
  failed_servers : list McpFailedServer;
  available_tools : list string;
  missing_tools : list string
}.

Definition dedupe_sorted (values : list string) : list string := dedup (sort_by leb_of values).

Definition degraded_report_new (working : list string) (failed : list McpFailedServer)
    (available expected : list string) : McpDegradedReport :=
  let working := dedupe_sorted working in
  let available := dedupe_sorted available in
  let available_set : gset string := list_to_set available in
  let expected := dedupe_sorted expected in
  {| working_servers := working; failed_servers := failed; available_tools := available;
     missing_tools := List.filter (fun tool => negb (bool_decide (tool ∈ available_set))) expected |}.

(** ** Plugins *)

Inductive ServerStatus := ServerHealthy | ServerDegraded | ServerFailed.

#[export] Instance ServerStatus_eq_dec : EqDecision ServerStatus.
Proof. solve_decision. Defined.

Record ServerHealth := {
  sh_server_name : string;
  sh_status : ServerStatus;
  sh_capabilities : list string;
  sh_last_error : option string
}.

Inductive PluginState :=
| Unconfigured
| Validated
| PluginStarting
| PluginHealthy
| PluginDegraded (healthy_servers : list string) (failed : list ServerHealth)
| PluginFailed (reason : string)
| ShuttingDown
| Stopped.

Definition is_nil {A} (l : list A) : bool := match l with [] => true | _ => false end.

Definition from_servers (servers : list ServerHealth) : PluginState :=
  match servers with
  | [] => PluginFailed "no servers available"
  | _ =>
      let is_failed s := bool_decide (sh_status s = ServerFailed) in
      let healthy := map sh_server_name (List.filter (fun s => negb (is_failed s)) servers) in
      let failed := List.filter is_failed servers in
      let has_degraded := existsb (fun s => bool_decide (sh_status s = ServerDegraded)) servers in
      if is_nil failed && negb has_degraded then PluginHealthy
      else if is_nil healthy then
        PluginFailed ("all " ++ pretty (N.of_nat (length failed)) ++ " servers failed")%string
      else PluginDegraded healthy failed
  end.

Record PluginHealthcheck := {
  ph_plugin_name : string;
  ph_state : PluginState;
  ph_servers : list ServerHealth;
  ph_last_check : N
}.

Definition healthcheck_new (now : N) (plugin_name : string) (servers : list ServerHealth)
  : PluginHealthcheck :=
  {| ph_plugin_name := plugin_name; ph_state := from_servers servers; ph_servers := servers;
     ph_last_check := now |}.

Record DegradedMode := {
  dm_available_tools : list string;
  dm_unavailable_tools : list string;
  dm_reason : string
}.

(** [degraded_mode]; of the discovery result it reads the names of the tools. *)
Definition degraded_mode (check : PluginHealthcheck) (tool_names : list string) : option DegradedMode :=
  match ph_state check with
  | PluginDegraded healthy failed =>
      Some {| dm_available_tools := tool_names;
              dm_unavailable_tools := flat_map sh_capabilities failed;
              dm_reason := (pretty (N.of_nat (length healthy)) ++ " servers healthy, "
                            ++ pretty (N.of_nat (length failed)) ++ " servers failed")%string |}
  | _ => None
  end.

(** ** Sequences of calls *)

Inductive LifecycleOp :=
| RunPhase (now elapsed : N) (phase : McpLifecyclePhase)
| RecordFailure (now : N) (error : McpErrorSurface)
| RecordTimeout (now : N) (phase : McpLifecyclePhase) (waited : N) (server_name : option string)
    (context : list (string * string)).

Definition lifecycle_apply (s : McpLifecycleState) (op : LifecycleOp) : McpLifecycleState :=
  match op with
  | RunPhase now elapsed phase => (run_phase now elapsed phase s).1
  | RecordFailure now error => (record_failure now error s).1
  | RecordTimeout now phase waited server context => (record_timeout now phase waited server context s).1
  end.

Definition lifecycle_run (ops : list LifecycleOp) (s : McpLifecycleState) : McpLifecycleState :=
  foldl lifecycle_apply s ops.

(** The reported failures among the calls are not recoverable, and nothing timed out. *)
Definition hard_failures (op : LifecycleOp) : Prop :=
  match op with
  | RunPhase _ _ _ => True
  | RecordFailure _ error => es_recoverable error = false
  | RecordTimeout _ _ _ _ _ => False
  end.

Definition entered (r : McpPhaseResult) : option McpLifecyclePhase :=
  match r with Success p _ => Some p | _ => None end.

(** The phases before [p] on every way to it, [p] included. *)
Definition startup (p : McpLifecyclePhase) : list McpLifecyclePhase :=
  match p with
  | ConfigLoad => [ConfigLoad]
  | ServerRegistration => [ConfigLoad; ServerRegistration]
  | SpawnConnect => [ConfigLoad; ServerRegistration; SpawnConnect]
  | InitializeHandshake => [ConfigLoad; ServerRegistration; SpawnConnect; InitializeHandshake]
  | ToolDiscovery | ResourceDiscovery | PhaseReady | Invocation =>
      [ConfigLoad; ServerRegistration; SpawnConnect; InitializeHandshake; ToolDiscovery]
  | ErrorSurfacing | Shutdown | Cleanup => []
  end.

Definition usable (p : McpLifecyclePhase) : bool :=
  match p with ErrorSurfacing | Shutdown | Cleanup => false | _ => true end.

Definition succeeded (r : McpPhaseResult) : Prop := match r with Success _ _ => True | _ => False end.

(** What the calls keep: the phases behind the current one were entered in order, an error
    that is surfaced cannot be resumed from, and a usable server has not failed. *)
Definition lifecycle_ok (s : McpLifecycleState) : Prop :=
  match current_phase s with
  | Some p => startup p `sublist_of` omap entered (phase_results s)
              /\ (usable p = false -> can_resume_after_error s = false)
              /\ (usable p = true -> Forall succeeded (phase_results s))
  | None => phase_results s = []
  end.

Lemma can_resume_record r s :
  can_resume_after_error (lifecycle_record_result r s) =
  match r with Success _ _ => false | Failure _ e | Timeout _ _ e => es_recoverable e end.
Proof.
  unfold can_resume_after_error. cbn [phase_results lifecycle_record_result].
  rewrite last_snoc. by destruct r.
Qed.

Lemma record_failure_ok now e s : es_recoverable e = false -> lifecycle_ok (record_failure now e s).1.
Proof.
  intros He. unfold record_failure, lifecycle_ok. cbn [fst current_phase lifecycle_record_result record_phase].
  split_and!; [apply sublist_nil_l| |done]. intros _. by rewrite can_resume_record.
Qed.

Lemma startup_step p q :
  validate_phase_transition p q = true -> usable p = true -> startup q `sublist_of` startup p ++ [q].
Proof.
  destruct p, q; intros Hv Hu; try done; cbn;
    repeat first [apply sublist_nil_l|apply sublist_skip|apply sublist_cons].
Qed.

Lemma recovery_step p q :
  validate_phase_transition p q = true -> usable p = false -> p = ErrorSurfacing -> q <> PhaseReady ->
  usable q = false.
Proof. intros Hv Hu -> Hq. by destruct q. Qed.

Lemma closing_step p q :
  validate_phase_transition p q = true -> usable p = false -> p <> ErrorSurfacing -> usable q = false.
Proof. intros Hv Hu Hp. by destruct p, q. Qed.

Lemma enter_phase_ok now elapsed q s :
  startup q `sublist_of` omap entered (phase_results s) ++ [q] ->
  (usable q = true -> Forall succeeded (phase_results s)) ->
  lifecycle_ok (enter_phase now elapsed q s).1.
Proof.
  intros Hq Hu. unfold enter_phase, lifecycle_ok.
  cbn [fst current_phase phase_results lifecycle_record_result record_phase].
  split_and!; [by rewrite omap_app| |].
  - intros _. by rewrite can_resume_record.
  - intros E. apply Forall_app. split; [by apply Hu|by repeat constructor].
Qed.

(** A phase is entered in a state that keeps the invariant only behind its startup. *)
Lemma run_phase_cases now elapsed q s :
  lifecycle_ok s ->
  (exists e, run_phase now elapsed q s = record_failure now e s /\ es_recoverable e = false)
  \/ (run_phase now elapsed q s = enter_phase now elapsed q s
      /\ startup q `sublist_of` omap entered (phase_results s) ++ [q]
      /\ (usable q = true -> Forall succeeded (phase_results s))).
Proof.
  unfold lifecycle_ok, run_phase. destruct (current_phase s) as [p|]; intros Hs.
  - destruct Hs as (Hp & Hr & Hf).
    destruct (bool_decide (p = ErrorSurfacing) && _ && _) eqn:E1; [left; by eexists|].
    destruct (validate_phase_transition p q) eqn:E2; cbn [negb]; [|left; by eexists].
    right. destruct (usable p) eqn:Eu.
    + split_and!; [done| |by intros _; apply Hf]. etrans; [by apply (startup_step p)|].
      by apply sublist_app.
    + assert (usable q = false) as Eq.
      { destruct (decide (p = ErrorSurfacing)) as [->|Hne]; [|by eapply closing_step].
        eapply recovery_step; [done..|]. intros ->. rewrite (Hr eq_refl) in E1. done. }
      split_and!; [done| |congruence]. destruct q; cbn in Eq; try done; apply sublist_nil_l.
  - case_bool_decide as E; [left; by eexists|]. right. subst q.
    rewrite Hs. split_and!; [done|done|]. intros _. constructor.
Qed.

Lemma lifecycle_apply_ok s op : lifecycle_ok s -> hard_failures op -> lifecycle_ok (lifecycle_apply s op).
Proof.
  destruct op as [now elapsed q|now e|]; cbn [hard_failures lifecycle_apply]; intros Hs Hop; [| |done].
  - destruct (run_phase_cases now elapsed q s Hs) as [(e & -> & He)|(-> & Hq & Hu)].
    + by apply record_failure_ok.
    + by apply enter_phase_ok.
  - by apply record_failure_ok.
Qed.

Lemma lifecycle_run_ok ops : forall s,
  lifecycle_ok s -> Forall hard_failures ops -> lifecycle_ok (lifecycle_run ops s).
Proof.
  induction ops as [|op ops IH]; intros s Hs Hops; [done|].
  apply Forall_cons in Hops as [Hop Hops]. by apply IH; [apply lifecycle_apply_ok|].
Qed.

(** Each call appends one result. *)
Lemma lifecycle_apply_results s op : exists r, phase_results (lifecycle_apply s op) = phase_results s ++ [r].
Proof.
  destruct op as [now elapsed q|now e|]; cbn [lifecycle_apply]; [|by eexists..].
  unfold run_phase. destruct (current_phase s) as [c|]; [|case_bool_decide; by eexists].
  destruct (bool_decide (c = ErrorSurfacing) && _ && _); [by eexists|].
  destruct (negb _); by eexists.
Qed.

Lemma lifecycle_run_results ops : forall s, exists l, phase_results (lifecycle_run ops s) = phase_results s ++ l.
Proof.
  induction ops as [|op ops IH]; intros s; [exists []; by rewrite app_nil_r|].
  destruct (IH (lifecycle_apply s op)) as [l Hl], (lifecycle_apply_results s op) as [r Hr].
  exists (r :: l). unfold lifecycle_run in *. cbn [foldl]. by rewrite Hl, Hr, <- app_assoc.
Qed.

Lemma entered_behind_startup ops : forall s,
  lifecycle_ok s -> Forall hard_failures ops ->
  forall pre q d post, phase_results (lifecycle_run ops s) = pre ++ Success q d :: post ->
  length (phase_results s) <= length pre ->
  startup q `sublist_of` omap entered pre ++ [q] /\ (usable q = true -> Forall succeeded pre).
Proof.
  induction ops as [|op ops IH]; intros s Hs Hops pre q d post Hr Hlen.
  - cbn in Hr. apply (f_equal length) in Hr. rewrite length_app in Hr. cbn in Hr. lia.
  - apply Forall_cons in Hops as [Hop Hops].
    destruct (lifecycle_apply_results s op) as [r Hres].
    destruct (decide (length (phase_results s) = length pre)) as [Heq|Hne].
    2: { eapply (IH (lifecycle_apply s op)); [by apply lifecycle_apply_ok|done|exact Hr|].
         rewrite Hres, length_app. cbn. lia. }
    destruct (lifecycle_run_results ops (lifecycle_apply s op)) as [l Hl].
    rewrite Hres, <- app_assoc in Hl. unfold lifecycle_run in Hl. cbn [lifecycle_run foldl] in Hr.
    rewrite Hl in Hr.
    apply app_inj_1 in Hr as [<- [= -> ->]]; [|done].
    destruct op as [now elapsed q'|now e|]; cbn [lifecycle_apply hard_failures] in *; [| |done].
    + destruct (run_phase_cases now elapsed q' s Hs) as [(e & E & He)|(E & Hq & Hu)];
        rewrite E in Hres; cbn in Hres; apply app_inj_2 in Hres as [_ Hres]; try done.
      by injection Hres as -> ->.
    + apply app_inj_2 in Hres as [_ Hres]; done.
Qed.

(** While no reported failure is recoverable and nothing times out, every phase that is
    entered comes after its whole startup, in order; in particular a server is declared
    ready only after its handshake and its tool discovery.  A usable phase is entered only
    while every earlier call succeeded: after one failure, of whatever kind, the server is
    never declared ready or invoked again. *)
Theorem ready_needs_the_whole_startup ops pre q d post :
  Forall hard_failures ops ->
  phase_results (lifecycle_run ops lifecycle_new) = pre ++ Success q d :: post ->
  startup q `sublist_of` omap entered pre ++ [q] /\ (usable q = true -> Forall succeeded pre).
Proof.
  intros Hops Hr. apply (entered_behind_startup ops lifecycle_new eq_refl Hops pre q d post Hr).
  cbn. lia.
Qed.

(** A whole startup. *)
Definition demo_startup : list LifecycleOp :=
  [RunPhase 0 0 ConfigLoad; RunPhase 1 0 ServerRegistration; RunPhase 2 0 SpawnConnect;
   RunPhase 3 0 InitializeHandshake; RunPhase 4 0 ToolDiscovery; RunPhase 5 7 PhaseReady].

Lemma ready_needs_the_whole_startup_witness :
  exists pre, phase_results (lifecycle_run demo_startup lifecycle_new) = pre ++ [Success PhaseReady 7]
  /\ startup PhaseReady `sublist_of` omap entered pre ++ [PhaseReady]
  /\ Forall succeeded pre.
Proof.
  set (pre := map (fun p => Success p 0)
                [ConfigLoad; ServerRegistration; SpawnConnect; InitializeHandshake; ToolDiscovery]).
  assert (phase_results (lifecycle_run demo_startup lifecycle_new) = pre ++ [Success PhaseReady 7]) as E
    by reflexivity.
  assert (Forall hard_failures demo_startup) as Hops by (repeat constructor).
  destruct (ready_needs_the_whole_startup demo_startup pre PhaseReady 7 [] Hops E) as [H1 H2].
  exists pre. split; [exact E|]. split; [exact H1|exact (H2 eq_refl)].
Defined.

(** A timeout is recorded in every state and is always recoverable, so it opens a way
    around the startup: whatever happened before, the next request for the ready phase is
    granted, without a handshake or after a failure that was not recoverable. *)
Theorem timeout_bypasses_startup s now phase waited server context now' elapsed :
  let s' := (record_timeout now phase waited server context s).1 in
  (run_phase now' elapsed PhaseReady s').2 = Success PhaseReady elapsed
  /\ current_phase (run_phase now' elapsed PhaseReady s').1 = Some PhaseReady.
Proof.
  unfold run_phase, record_timeout. cbn [fst current_phase lifecycle_record_result record_phase].
  rewrite can_resume_record. done.
Qed.

(** ** The report and the plugin state *)

Lemma elem_of_missing available expected tool :
  tool ∈ missing_tools (degraded_report_new [] [] available expected)
  <-> tool ∈ expected /\ tool ∉ available.
Proof.
  cbn [missing_tools degraded_report_new]. rewrite list_elem_of_In, filter_In, <- list_elem_of_In.
  unfold dedupe_sorted. rewrite elem_of_dedup, elem_of_sort_by, negb_true_iff, bool_decide_eq_false.
  by rewrite elem_of_list_to_set, elem_of_dedup, elem_of_sort_by.
Qed.

Definition listed (l values : list string) : Prop :=
  sorted leb_of l /\ NoDup l /\ forall x, x ∈ l <-> x ∈ values.

Lemma dedupe_sorted_listed values : listed (dedupe_sorted values) values.
Proof. apply sort_dedup_spec; [apply leb_of_total|apply leb_of_trans|apply leb_of_antisym]. Qed.

Lemma sorted_list_filter {A} (le : A -> A -> bool) (p : A -> bool) l :
  sorted le l -> sorted le (List.filter p l).
Proof.
  induction 1 as [|x l Hl IH Hall]; cbn; [constructor|]. destruct (p x); [|done].
  constructor; [done|]. apply Forall_forall. intros y.
  rewrite list_elem_of_In, filter_In, <- list_elem_of_In. rewrite Forall_forall in Hall. intros [Hy _]. auto.
Qed.

(** The degraded report lists every working server and every available tool once, in
    order, passes the failed servers on, and reports as missing exactly the expected tools
    that are not available, each once and in order. *)
Theorem degraded_report_exact working failed available expected :
  let r := degraded_report_new working failed available expected in
  listed (working_servers r) working
  /\ failed_servers r = failed
  /\ listed (available_tools r) available
  /\ sorted leb_of (missing_tools r) /\ NoDup (missing_tools r)
  /\ forall tool, tool ∈ missing_tools r <-> tool ∈ expected /\ tool ∉ available.
Proof.
  cbn zeta. destruct (dedupe_sorted_listed expected) as (Hs & Hn & _). split_and!.
  - apply dedupe_sorted_listed.
  - done.
  - apply dedupe_sorted_listed.
  - by apply sorted_list_filter.
  - by apply NoDup_ListNoDup, List.NoDup_filter, NoDup_ListNoDup.
  - apply elem_of_missing.
Qed.
