(* ===== verification/AssistantMessage.v ===== *)
(** * From streamed events to an assistant message (runtime/src/conversation.rs)

    The events a provider stream delivers, the builder that folds them into the blocks of
    one assistant message, the hook feedback merged into tool outputs, and the errors of the
    turn loop.  The same fold runs on every prefix that ends with a tool call, when the
    message is saved before the tool may run. *)
From S2P Require Import Prelude.
From stdpp Require Import list.
From S2P Require Import RustStr Conversation.

Record PromptCacheEvent := {
  pc_unexpected : bool;
  pc_reason : string;
  pc_previous_cache_read : N;
  pc_current_cache_read : N;
  pc_token_drop : N
}.

Inductive AssistantEvent :=
| EModel (model : string)
| EThinkingStart
| EThinking (thinking : string) (signature : option string)
| ERedactedThinking (data : string)
| ETextDelta (delta : string)
| EToolUse (id name input : string) (thought_signature : option string)
| EUsage (usage : TokenUsage)
| EPromptCache (event : PromptCacheEvent)
| EMessageStop
| EResponseBlockStart.

(** ** Errors *)

Inductive RuntimeErrorKind :=
| Generic | ThinkingReplayRejected | CompactionPathNotSupported | InvalidCompactionSummary
| StreamInterrupted | ContextWindowBlocked.

#[export] Instance RuntimeErrorKind_eq_dec : EqDecision RuntimeErrorKind.
Proof. solve_decision. Defined.

Record RuntimeError := {
  re_message : string;
  re_kind : RuntimeErrorKind;
  re_retryable : bool
}.

Definition error_of_kind (kind : RuntimeErrorKind) (message : string) : RuntimeError :=
  {| re_message := message; re_kind := kind; re_retryable := false |}.
Definition runtime_error (message : string) : RuntimeError := error_of_kind Generic message.
Definition context_window_blocked (message : string) : RuntimeError :=
  error_of_kind ContextWindowBlocked message.
Definition auto_compaction_off : RuntimeError := context_window_blocked
  "Context is full and automatic compaction is off (autoCompactEnabled = false). Run /compact, then resend. History preserved; no model request sent.".
Definition is_kind (kind : RuntimeErrorKind) (e : RuntimeError) : bool := bool_decide (re_kind e = kind).

(** ** Messages *)

Definition message_of (r : MessageRole) (blocks : list ContentBlock) (u : option TokenUsage)
  : ConversationMessage :=
  {| history := None; role := r; blocks := blocks; usage := u; model := None; duration_ms := None |}.
Definition assistant_with_usage (blocks : list ContentBlock) (u : option TokenUsage)
  : ConversationMessage := message_of RAssistant blocks u.
Definition user_blocks (blocks : list ContentBlock) : ConversationMessage := message_of RUser blocks None.
Definition tool_result (id name output : string) (is_error : bool) : ConversationMessage :=
  message_of RTool [ToolResult id name output is_error] None.

(** ** The fold *)

Definition flush_text_block (text : string) (blocks : list ContentBlock) : list ContentBlock :=
  if is_empty text then blocks else blocks ++ [Text text].

(** Appends to the thinking block that is last, or starts one unless there is no text. *)
Definition push_thinking_block (blocks : list ContentBlock) (thinking : string)
    (signature : option string) : list ContentBlock :=
  match list.last blocks with
  | Some (Thinking existing existing_signature) =>
      let signature := match signature with
                       | Some chunk => Some (default "" existing_signature ++ chunk)%string
                       | None => existing_signature
                       end in
      removelast blocks ++ [Thinking (existing ++ thinking) signature]
  | _ => if is_empty thinking then blocks else blocks ++ [Thinking thinking signature]
  end.

Definition start_thinking_block (text : string) (blocks : list ContentBlock) : list ContentBlock :=
  flush_text_block text blocks ++ [Thinking "" None].

Definition is_placeholder (block : ContentBlock) : bool :=
  match block with
  | Thinking thinking signature =>
      is_empty thinking && match signature with Some s => is_empty s | None => true end
  | _ => false
  end.

Definition finish_assistant_blocks (text : string) (blocks : list ContentBlock) : list ContentBlock :=
  List.filter (fun b => negb (is_placeholder b)) (flush_text_block text blocks).

(** The text and the blocks of the loop, which two functions share. *)
Definition content_event (s : string * list ContentBlock) (e : AssistantEvent)
  : string * list ContentBlock :=
  let '(text, blocks) := s in
  match e with
  | EThinkingStart => ("", start_thinking_block text blocks)
  | EThinking thinking signature =>
      ("", push_thinking_block (flush_text_block text blocks) thinking signature)
  | ERedactedThinking data => ("", flush_text_block text blocks ++ [RedactedThinking data])
  | ETextDelta delta => ((text ++ delta)%string, blocks)
  | EToolUse id name input sig => ("", flush_text_block text blocks ++ [ToolUse id name input sig])
  | EModel _ | EUsage _ | EPromptCache _ | EMessageStop | EResponseBlockStart => s
  end.

Definition content (events : list AssistantEvent) : string * list ContentBlock :=
  fold_left content_event events ("", []).

Definition assistant_blocks (events : list AssistantEvent) : list ContentBlock :=
  let '(text, blocks) := content events in finish_assistant_blocks text blocks.

Record Metadata := {
  meta_usage : option TokenUsage;
  meta_prompt_cache_events : list PromptCacheEvent;
  meta_response_model : option string;
  meta_finished : bool
}.

Definition metadata_event (m : Metadata) (e : AssistantEvent) : Metadata :=
  match e with
  | EModel model => {| meta_usage := meta_usage m; meta_prompt_cache_events := meta_prompt_cache_events m;
                       meta_response_model := Some model; meta_finished := meta_finished m |}
  | EUsage u => {| meta_usage := Some u; meta_prompt_cache_events := meta_prompt_cache_events m;
                   meta_response_model := meta_response_model m; meta_finished := meta_finished m |}
  | EPromptCache event => {| meta_usage := meta_usage m;
                   meta_prompt_cache_events := meta_prompt_cache_events m ++ [event];
                   meta_response_model := meta_response_model m; meta_finished := meta_finished m |}
  | EMessageStop => {| meta_usage := meta_usage m; meta_prompt_cache_events := meta_prompt_cache_events m;
                       meta_response_model := meta_response_model m; meta_finished := true |}
  | _ => m
  end.

Definition metadata (events : list AssistantEvent) : Metadata :=
  fold_left metadata_event events
    {| meta_usage := None; meta_prompt_cache_events := []; meta_response_model := None;
       meta_finished := false |}.

Record BuiltAssistantMessage := {
  built_message : ConversationMessage;
  built_usage : option TokenUsage;
  built_prompt_cache_events : list PromptCacheEvent;
  built_response_model : option string
}.

Definition NO_STOP : string := "assistant stream ended without a message stop event".
Definition NO_CONTENT : string := "assistant stream produced no content".

Definition build_assistant_message (events : list AssistantEvent)
  : result RuntimeError BuiltAssistantMessage :=
  let m := metadata events in
  let blocks := assistant_blocks events in
  if negb (meta_finished m) then Err (runtime_error NO_STOP)
  else match blocks with
       | [] => Err (runtime_error NO_CONTENT)
       | _ => Ok {| built_message := assistant_with_usage blocks (meta_usage m);
                    built_usage := meta_usage m;
                    built_prompt_cache_events := meta_prompt_cache_events m;
                    built_response_model := meta_response_model m |}
       end.

Definition has_pending_tool_uses (message : ConversationMessage) : bool :=
  existsb is_tool_use (blocks message).

Definition is_generation_tool_name (name : string) : bool :=
  str_in name ["write_file"; "edit_file"; "bash"; "PowerShell"].

Definition message_has_generation_tool_use (message : ConversationMessage) : bool :=
  existsb (fun b => match b with ToolUse _ name _ _ => is_generation_tool_name name | _ => false end)
    (blocks message).

(** Metadata keeps the previous boundary; a consecutive thinking block is none. *)
Definition next_response_boundary (event : AssistantEvent) (previous : bool) : bool :=
  match event with
  | EThinkingStart | EThinking _ _ | ERedactedThinking _ => false
  | EResponseBlockStart | ETextDelta _ | EToolUse _ _ _ _ | EMessageStop => true
  | EModel _ | EUsage _ | EPromptCache _ => previous
  end.

(** ** Hook feedback *)

Definition newline : string := String (ascii_of_nat 10) "".

Definition format_hook_message (messages : list string) (fallback : string) : string :=
  match messages with [] => fallback | _ => join newline messages end.

Definition merge_hook_feedback (messages : list string) (output : string) (is_error : bool) : string :=
  match messages with
  | [] => output
  | _ =>
      let label := if is_error then "Hook feedback (error)" else "Hook feedback" in
      join (newline ++ newline)%string
        ((if is_empty (trim output) then [] else [output])
         ++ [(label ++ ":" ++ newline ++ join newline messages)%string])
  end.

Definition MAX_TOOL_USE_CONCURRENCY : nat := 10.
(** The environment variable's value, when it is set. *)
Definition max_tool_use_concurrency (raw : option string) : nat :=
  match (raw ← raw; parse_u64 (trim raw)) with
  | Some limit => if (0 <? limit)%N then N.to_nat limit else MAX_TOOL_USE_CONCURRENCY
  | None => MAX_TOOL_USE_CONCURRENCY
  end.

Definition INTERRUPT_MESSAGE : string := "Interrupted · What should Sudo Code do instead?".

(** ** What a block says *)

Definition text_of (b : ContentBlock) : string := match b with Text t => t | _ => "" end.
Definition thinking_of (b : ContentBlock) : string := match b with Thinking t _ => t | _ => "" end.
Definition call_of (b : ContentBlock) : option (string * string * string * option string) :=
  match b with ToolUse id name input sig => Some (id, name, input, sig) | _ => None end.
Definition redacted_of (b : ContentBlock) : option string :=
  match b with RedactedThinking d => Some d | _ => None end.

Definition event_text (e : AssistantEvent) : string := match e with ETextDelta d => d | _ => "" end.
Definition event_thinking (e : AssistantEvent) : string := match e with EThinking t _ => t | _ => "" end.
Definition event_call (e : AssistantEvent) : option (string * string * string * option string) :=
  match e with EToolUse id name input sig => Some (id, name, input, sig) | _ => None end.
Definition event_redacted (e : AssistantEvent) : option string :=
  match e with ERedactedThinking d => Some d | _ => None end.

(** All the strings of a list, one after the other. *)
Fixpoint concat_str {A} (f : A -> string) (l : list A) : string :=
  match l with [] => "" | x :: r => (f x ++ concat_str f r)%string end.

Lemma concat_str_app {A} (f : A -> string) l k :
  concat_str f (l ++ k) = (concat_str f l ++ concat_str f k)%string.
Proof. induction l as [|x l IH]; cbn; [done|]. by rewrite IH, str_app_assoc. Qed.

Lemma concat_str_snoc {A} (f : A -> string) l x :
  concat_str f (l ++ [x]) = (concat_str f l ++ f x)%string.
Proof. rewrite concat_str_app. cbn. by rewrite str_app_nil_r. Qed.

Lemma is_empty_eq s : is_empty s = true -> s = "".
Proof. by destruct s. Qed.

Lemma last_snoc_inv {A} (l : list A) x : list.last l = Some x -> l = removelast l ++ [x].
Proof.
  intros H. apply last_Some in H as [l' ->]. by rewrite removelast_last.
Qed.

(** A fact about one block that the fold keeps whatever the block is about. *)
Section Folded.
Context (f : ContentBlock -> string).
Hypothesis f_thinking : forall t t' s s', f (Thinking (t ++ t') s) = (f (Thinking t s') ++ f (Thinking t' None))%string.
Hypothesis f_signature : forall t s, f (Thinking t s) = f (Thinking t None).
Hypothesis f_nothing : f (Thinking "" None) = "" /\ f (Text "") = "".

Lemma concat_flush text l : concat_str f (flush_text_block text l) = (concat_str f l ++ f (Text text))%string.
Proof.
  unfold flush_text_block. destruct (is_empty text) eqn:E; [|by rewrite concat_str_snoc].
  apply is_empty_eq in E as ->. by rewrite (proj2 f_nothing), str_app_nil_r.
Qed.

Lemma concat_push l t s : concat_str f (push_thinking_block l t s) = (concat_str f l ++ f (Thinking t None))%string.
Proof.
  unfold push_thinking_block. destruct (list.last l) as [b|] eqn:El.
  2: { destruct (is_empty t) eqn:E; [apply is_empty_eq in E as ->|].
       - by rewrite (proj1 f_nothing), str_app_nil_r.
       - by rewrite concat_str_snoc, f_signature. }
  assert (concat_str f (if is_empty t then l else l ++ [Thinking t s])
          = (concat_str f l ++ f (Thinking t None))%string) as Hother.
  { destruct (is_empty t) eqn:E; [apply is_empty_eq in E as ->|].
    - by rewrite (proj1 f_nothing), str_app_nil_r.
    - by rewrite concat_str_snoc, f_signature. }
  destruct b as [| |e es| | |]; try done.
  rewrite (last_snoc_inv _ _ El) at 2. rewrite !concat_str_snoc, (f_thinking e t _ es).
  by rewrite str_app_assoc.
Qed.

Lemma concat_finish text l :
  concat_str f (finish_assistant_blocks text l) = (concat_str f l ++ f (Text text))%string.
Proof.
  unfold finish_assistant_blocks. rewrite <- concat_flush. generalize (flush_text_block text l) as k.
  induction k as [|b k IH]; cbn; [done|]. destruct (is_placeholder b) eqn:E; cbn; [|by rewrite IH].
  rewrite IH. destruct b; try done. cbn in E. apply andb_true_iff in E as [E _].
  apply is_empty_eq in E as ->. by rewrite f_signature, (proj1 f_nothing).
Qed.

End Folded.

(** A projection that only some blocks have, kept in order. *)
Section Projected.
Context {B : Type} (g : ContentBlock -> option B).
Hypothesis g_none : (forall t s, g (Thinking t s) = None) /\ forall t, g (Text t) = None.

Lemma omap_flush text l : omap g (flush_text_block text l) = omap g l.
Proof.
  unfold flush_text_block. destruct (is_empty text); [done|].
  rewrite omap_app. cbn. by rewrite (proj2 g_none), app_nil_r.
Qed.

Lemma omap_push l t s : omap g (push_thinking_block l t s) = omap g l.
Proof.
  assert (omap g (if is_empty t then l else l ++ [Thinking t s]) = omap g l) as Hother.
  { destruct (is_empty t); [done|]. rewrite omap_app. cbn. by rewrite (proj1 g_none), app_nil_r. }
  unfold push_thinking_block. destruct (list.last l) as [b|] eqn:El; [|done].
  destruct b as [| |e es| | |]; try done.
  rewrite (last_snoc_inv _ _ El) at 2. rewrite !omap_app. cbn. by rewrite !(proj1 g_none).
Qed.

Lemma omap_finish text l : omap g (finish_assistant_blocks text l) = omap g l.
Proof.
  unfold finish_assistant_blocks. rewrite <- (omap_flush text l). generalize (flush_text_block text l) as k.
  induction k as [|b k IH]; cbn; [done|]. destruct b; cbn [is_placeholder negb]; cbn; try (by rewrite IH).
  destruct (negb _); cbn; by rewrite ?(proj1 g_none).
Qed.

Lemma omap_content (h : AssistantEvent -> option B) events :
  (forall d, g (RedactedThinking d) = h (ERedactedThinking d)) ->
  (forall a b c d, g (ToolUse a b c d) = h (EToolUse a b c d)) ->
  (forall e, match e with ERedactedThinking _ | EToolUse _ _ _ _ => True | _ => h e = None end) ->
  omap g (content events).2 = omap h events.
Proof.
  intros Hr Ht Hn. unfold content.
  induction events as [|e l IH] using rev_ind; [done|].
  rewrite fold_left_app, omap_app, <- IH. cbn [fold_left].
  destruct (fold_left content_event l ("", [])) as [text k]. cbn [snd].
  pose proof (Hn e) as He. destruct e; cbn [content_event snd];
    rewrite ?omap_app, ?omap_push, ?omap_flush; cbn; rewrite ?Hr, ?Ht, ?He, ?app_nil_r; try done.
  unfold start_thinking_block. rewrite omap_app, omap_flush. cbn. by rewrite (proj1 g_none), app_nil_r.
Qed.

End Projected.

Lemma content_text events :
  (concat_str text_of (content events).2 ++ (content events).1)%string = concat_str event_text events.
Proof.
  unfold content. induction events as [|e l IH] using rev_ind; [done|].
  rewrite fold_left_app, concat_str_snoc, <- IH. cbn [fold_left].
  destruct (fold_left content_event l ("", [])) as [text k]. cbn [fst snd].
  assert (forall t, (concat_str text_of (flush_text_block t k)) = (concat_str text_of k ++ t)%string) as Hf
    by (intros t; rewrite concat_flush; done).
  destruct e; cbn [content_event fst snd event_text];
    rewrite ?str_app_nil_r, ?concat_push, ?concat_str_snoc, ?Hf; cbn; rewrite ?str_app_nil_r, ?str_app_assoc; try done.
  unfold start_thinking_block. by rewrite concat_str_snoc, Hf, str_app_nil_r.
Qed.

Lemma content_thinking events :
  concat_str thinking_of (content events).2 = concat_str event_thinking events.
Proof.
  unfold content. induction events as [|e l IH] using rev_ind; [done|].
  rewrite fold_left_app, concat_str_snoc, <- IH. cbn [fold_left].
  destruct (fold_left content_event l ("", [])) as [text k]. cbn [fst snd].
  assert (forall t, (concat_str thinking_of (flush_text_block t k)) = concat_str thinking_of k) as Hf
    by (intros t; rewrite concat_flush; cbn; by rewrite ?str_app_nil_r).
  destruct e; cbn [content_event fst snd event_thinking];
    rewrite ?concat_push, ?concat_str_snoc, ?Hf; cbn; rewrite ?str_app_nil_r; try done.
  unfold start_thinking_block. by rewrite concat_str_snoc, Hf, str_app_nil_r.
Qed.

Lemma metadata_spec events :
  metadata events =
  {| meta_usage := list.last (omap (fun e => match e with EUsage u => Some u | _ => None end) events);
     meta_prompt_cache_events := omap (fun e => match e with EPromptCache c => Some c | _ => None end) events;
     meta_response_model := list.last (omap (fun e => match e with EModel m => Some m | _ => None end) events);
     meta_finished := existsb (fun e => match e with EMessageStop => true | _ => false end) events |}.
Proof.
  unfold metadata. induction events as [|e l IH] using rev_ind; [done|].
  rewrite fold_left_app, IH. cbn [fold_left]. rewrite !omap_app, existsb_app.
  destruct e; cbn; rewrite ?app_nil_r, ?orb_false_r, ?orb_true_r, ?last_snoc; done.
Qed.

(** Nothing a provider streams is lost or reordered: a message is built exactly when
    the stream stopped and left content; its texts are the text deltas in order, its
    thinking the thinking deltas, its tool calls and redacted blocks the events' own, in
    order; no placeholder is left; usage and model are the last reported ones.  Otherwise
    the error says which of the two was missing. *)
Theorem built_message_keeps_the_stream events :
  let stopped := existsb (fun e => match e with EMessageStop => true | _ => false end) events in
  match build_assistant_message events with
  | Ok b =>
      stopped = true
      /\ blocks (built_message b) <> []
      /\ concat_str text_of (blocks (built_message b)) = concat_str event_text events
      /\ concat_str thinking_of (blocks (built_message b)) = concat_str event_thinking events
      /\ omap call_of (blocks (built_message b)) = omap event_call events
      /\ omap redacted_of (blocks (built_message b)) = omap event_redacted events
      /\ Forall (fun x => is_placeholder x = false) (blocks (built_message b))
      /\ built_usage b = list.last (omap (fun e => match e with EUsage u => Some u | _ => None end) events)
      /\ built_prompt_cache_events b = omap (fun e => match e with EPromptCache c => Some c | _ => None end) events
      /\ built_response_model b = list.last (omap (fun e => match e with EModel m => Some m | _ => None end) events)
  | Err e =>
      (stopped = false /\ e = runtime_error NO_STOP)
      \/ (stopped = true /\ assistant_blocks events = [] /\ e = runtime_error NO_CONTENT)
  end.
Proof.
  unfold build_assistant_message. rewrite metadata_spec. cbn [meta_finished meta_usage meta_prompt_cache_events meta_response_model].
  destruct (existsb _ events); cbn [negb]; [|by left].
  destruct (assistant_blocks events) as [|b0 bs] eqn:Eb; [by right|].
  cbn [built_message built_usage built_prompt_cache_events built_response_model assistant_with_usage message_of blocks].
  rewrite <- Eb. unfold assistant_blocks. pose proof (content_text events) as Ht.
  pose proof (content_thinking events) as Hk.
  pose proof (omap_content call_of (conj (fun _ _ => eq_refl) (fun _ => eq_refl)) event_call events
    (fun _ => eq_refl) (fun _ _ _ _ => eq_refl) ltac:(by intros [])) as Hc.
  pose proof (omap_content redacted_of (conj (fun _ _ => eq_refl) (fun _ => eq_refl)) event_redacted events
    (fun _ => eq_refl) (fun _ _ _ _ => eq_refl) ltac:(by intros [])) as Hd.
  unfold assistant_blocks in Eb.
  destruct (content events) as [text l]. cbn [fst snd] in *. split_and!; try done.
  - by rewrite Eb.
  - rewrite concat_finish; done.
  - rewrite concat_finish; try done. cbn. by rewrite str_app_nil_r.
  - rewrite omap_finish; done.
  - rewrite omap_finish; done.
  - apply Forall_forall. intros x. unfold finish_assistant_blocks.
    rewrite list_elem_of_In, filter_In. intros [_ Hx]. by apply negb_true_iff in Hx.
Qed.

(** ** Saved prefixes *)

(** A message saved when a tool call is complete is the beginning of every later version:
    blocks behind a tool call never change. *)
Definition closed (l : list ContentBlock) : Prop :=
  match list.last l with Some (Thinking _ _) => False | _ => True end.

Lemma flush_extends k more text :
  exists more', flush_text_block text (k ++ more) = k ++ more'.
Proof.
  unfold flush_text_block. destruct (is_empty text); [by eexists|].
  rewrite <- app_assoc. by eexists.
Qed.

Lemma push_extends k more t s :
  closed k -> exists more', push_thinking_block (k ++ more) t s = k ++ more'.
Proof.
  intros Hk. unfold push_thinking_block.
  assert (exists more', (if is_empty t then k ++ more else (k ++ more) ++ [Thinking t s]) = k ++ more') as Hother.
  { destruct (is_empty t); [by eexists|]. rewrite <- app_assoc. by eexists. }
  destruct more as [|m more].
  { rewrite app_nil_r in *. unfold closed in Hk. destruct (list.last k) as [[]|]; try done. }
  destruct (list.last (k ++ m :: more)) as [b|] eqn:El; [|done].
  destruct b as [| |e es| | |]; try done.
  rewrite removelast_app by done. rewrite <- app_assoc. by eexists.
Qed.

Lemma content_event_extends k more text e :
  closed k -> exists text' more', content_event (text, k ++ more) e = (text', k ++ more').
Proof.
  intros Hk. destruct (flush_extends k more text) as [m Hm].
  destruct e; cbn [content_event]; unfold start_thinking_block; rewrite ?Hm; try (by eexists _, _).
  - eexists _, _. by rewrite <- app_assoc.
  - destruct (push_extends k m thinking signature Hk) as [m' ->]. by eexists _, _.
  - eexists _, _. by rewrite <- app_assoc.
  - eexists _, _. by rewrite <- app_assoc.
Qed.

Lemma content_extends events : forall k more text,
  closed k -> exists text' more', fold_left content_event events (text, k ++ more) = (text', k ++ more').
Proof.
  induction events as [|e l IH]; intros k more text Hk; [by eexists _, _|]. cbn [fold_left].
  destruct (content_event_extends k more text e Hk) as (text' & more' & ->). by apply IH.
Qed.

Lemma finish_extends k more text :
  exists rest, finish_assistant_blocks text (k ++ more) = finish_assistant_blocks "" k ++ rest.
Proof.
  unfold finish_assistant_blocks. destruct (flush_extends k more text) as [m ->].
  rewrite List.filter_app. by eexists.
Qed.

Lemma assistant_blocks_prefix pre call post :
  is_Some (event_call call) ->
  assistant_blocks (pre ++ [call; EMessageStop]) `prefix_of` assistant_blocks (pre ++ call :: post).
Proof.
  intros [c Hc]. destruct call as [| | | | |id name input sig| | | |]; try done. clear Hc.
  unfold assistant_blocks, content. rewrite !fold_left_app. cbn [fold_left].
  destruct (fold_left content_event pre ("", [])) as [text l]. cbn [content_event].
  set (k := flush_text_block text l ++ [ToolUse id name input sig]).
  assert (closed k) as Hk by (unfold closed, k; by rewrite last_snoc).
  destruct (content_extends post k [] "" Hk) as (text' & more & E). rewrite app_nil_r in E. rewrite E.
  destruct (finish_extends k more text') as [rest ->]. by exists rest.
Qed.
