(* ===== verification/ProviderStream.v ===== *)
(** * A provider's chunks as stream events (api/src/types.rs, api/src/providers/
    openai_compat.rs, inline_reasoning.rs)

    An OpenAI-compatible provider sends chunks of text, reasoning and tool-call fragments;
    [ChatStreamState] turns them into the block events every other part reads.  Some
    deployments put their reasoning in the text, behind a tag: [InlineReasoning] takes it out
    again.  Counters of 32 bits are natural numbers; the sum of indices wraps at their width.
    [empty_object] is [json!({})]. *)
From S2P Require Import Prelude.
From stdpp Require Import list.
From S2P Require Import RustStr BTree Json Conversation.

(** ** Usage (api/src/types.rs) *)

Record Usage := {
  u_reported_total_tokens : option N;
  u_input_tokens : N;
  u_cache_creation_input_tokens : N;
  u_cache_read_input_tokens : N;
  u_output_tokens : N;
  u_cost_units : option N;
  u_cost_currency : option string
}.

#[export] Instance Usage_eq_dec : EqDecision Usage.
Proof. solve_decision. Defined.

Definition usage_default : Usage :=
  {| u_reported_total_tokens := None; u_input_tokens := 0; u_cache_creation_input_tokens := 0;
     u_cache_read_input_tokens := 0; u_output_tokens := 0; u_cost_units := None; u_cost_currency := None |}.

Definition positive_or (incoming kept : N) : N := if (0 <? incoming)%N then incoming else kept.
Definition some_or {A} (incoming kept : option A) : option A :=
  match incoming with Some x => Some x | None => kept end.

Definition merge_snapshot (u incoming : Usage) : Usage :=
  {| u_reported_total_tokens :=
       match u_reported_total_tokens incoming with
       | Some total => Some (N.max (default 0%N (u_reported_total_tokens u)) total)
       | None => u_reported_total_tokens u
       end;
     u_input_tokens := positive_or (u_input_tokens incoming) (u_input_tokens u);
     u_cache_creation_input_tokens :=
       positive_or (u_cache_creation_input_tokens incoming) (u_cache_creation_input_tokens u);
     u_cache_read_input_tokens := positive_or (u_cache_read_input_tokens incoming) (u_cache_read_input_tokens u);
     u_output_tokens := positive_or (u_output_tokens incoming) (u_output_tokens u);
     u_cost_units := some_or (u_cost_units incoming) (u_cost_units u);
     u_cost_currency := some_or (u_cost_currency incoming) (u_cost_currency u) |}.

(** [parse_usage_cost_currency] (runtime/src/usage.rs) *)
Definition parse_usage_cost_currency (value : option string) : option UsageCostCurrency :=
  match value with
  | Some c => if String.eqb c "sudo_point" then Some SudoPoint else None
  | None => None
  end.

Definition token_usage (u : Usage) : TokenUsage :=
  {| reported_total_tokens := u_reported_total_tokens u; input_tokens := u_input_tokens u;
     output_tokens := u_output_tokens u; cache_creation_input_tokens := u_cache_creation_input_tokens u;
     cache_read_input_tokens := u_cache_read_input_tokens u; cost_units := u_cost_units u;
     cost_currency := parse_usage_cost_currency (u_cost_currency u) |}.

(** What the provider reports (openai_compat.rs). *)
Record PromptTokensDetails := { cache_write_tokens : N; cached_tokens : N }.

Record OpenAiUsage := {
  oa_total_tokens : option N;
  oa_input_tokens : N;
  oa_output_tokens : N;
  oa_input_tokens_details : PromptTokensDetails;
  oa_prompt_tokens : N;
  oa_completion_tokens : N;
  oa_prompt_tokens_details : PromptTokensDetails;
  oa_cost_units : option N;
  oa_cost_currency : option string;
  oa_quota : option N
}.

Definition effective_cost_units (u : OpenAiUsage) : option N := some_or (oa_cost_units u) (oa_quota u).
Definition effective_cost_currency (u : OpenAiUsage) : option string :=
  some_or (oa_cost_currency u)
    (match oa_cost_units u, oa_quota u with None, Some _ => Some "sudo_point"%string | _, _ => None end).

Definition to_api_usage (u : OpenAiUsage) : Usage :=
  let input := N.max (oa_prompt_tokens u) (oa_input_tokens u) in
  let cached := N.max (cached_tokens (oa_prompt_tokens_details u)) (cached_tokens (oa_input_tokens_details u)) in
  let written := N.max (cache_write_tokens (oa_prompt_tokens_details u))
                       (cache_write_tokens (oa_input_tokens_details u)) in
  {| u_reported_total_tokens :=
       match oa_total_tokens u with Some t => if (0 <? t)%N then Some t else None | None => None end;
     u_input_tokens := input - cached - written;
     u_cache_creation_input_tokens := written;
     u_cache_read_input_tokens := cached;
     u_output_tokens := N.max (oa_completion_tokens u) (oa_output_tokens u);
     u_cost_units := effective_cost_units u;
     u_cost_currency := effective_cost_currency u |}.

(** ** Inline reasoning (inline_reasoning.rs) *)

Inductive Phase := PhasePrefix | PhaseThinking | PhaseAnswer.
#[export] Instance Phase_eq_dec : EqDecision Phase.
Proof. solve_decision. Defined.

Record InlineReasoning := { ir_phase : Phase; ir_pending : string }.

Definition OPEN_TAG : string := "<think>".
Definition CLOSE_TAG : string := "</think>".

Definition for_model (model : string) : option InlineReasoning :=
  let model := rsplit_next (to_ascii_lowercase model) "/" in
  if starts_with model "deepseek-" && ends_with model "-azure"
  then Some {| ir_phase := PhasePrefix; ir_pending := "" |}
  else None.

(** Reasoning or not, and the text. *)
Definition Segment : Type := bool * string.

Definition push_prefix (p : InlineReasoning) : InlineReasoning * bool :=
  match ir_phase p with
  | PhasePrefix =>
      let prefix := trim_start (ir_pending p) in
      match strip_prefix prefix OPEN_TAG with
      | Some rest => ({| ir_phase := PhaseThinking; ir_pending := rest |}, false)
      | None =>
          if starts_with OPEN_TAG prefix then (p, true)
          else ({| ir_phase := PhaseAnswer; ir_pending := ir_pending p |}, false)
      end
  | _ => (p, false)
  end.

(** The longest end of the text that may be the start of the closing tag. *)
Definition retained (pending : string) : nat :=
  default 0 (List.find (fun n => ends_with pending (str_take n CLOSE_TAG)) [7; 6; 5; 4; 3; 2; 1]).

Definition thought (end_ : nat) (pending : string) : list Segment :=
  if 0 <? end_ then [(true, str_take end_ pending)] else [].

Definition push_thinking (p : InlineReasoning) : InlineReasoning * list Segment :=
  match ir_phase p with
  | PhaseThinking =>
      match find_str (ir_pending p) CLOSE_TAG with
      | Some end_ =>
          ({| ir_phase := PhaseAnswer; ir_pending := str_skip (end_ + len CLOSE_TAG) (ir_pending p) |},
           thought end_ (ir_pending p))
      | None =>
          let end_ := len (ir_pending p) - retained (ir_pending p) in
          ({| ir_phase := PhaseThinking; ir_pending := str_skip end_ (ir_pending p) |}, thought end_ (ir_pending p))
      end
  | _ => (p, [])
  end.

Definition push_answer (p : InlineReasoning) : InlineReasoning * list Segment :=
  match ir_phase p with
  | PhaseAnswer =>
      if is_empty (ir_pending p) then (p, [])
      else ({| ir_phase := PhaseAnswer; ir_pending := "" |}, [(false, ir_pending p)])
  | _ => (p, [])
  end.

Definition inline_push (p : InlineReasoning) (text : string) : InlineReasoning * list Segment :=
  let p := {| ir_phase := ir_phase p; ir_pending := (ir_pending p ++ text)%string |} in
  let '(p, waits) := push_prefix p in
  if waits : bool then (p, [])
  else let '(p, thinking) := push_thinking p in
       let '(p, answer) := push_answer p in (p, thinking ++ answer).

Definition MISSING_CLOSE : string := "Azure DeepSeek inline reasoning is missing its closing tag".

Definition inline_finish (p : InlineReasoning) : result string (InlineReasoning * list Segment) :=
  match ir_phase p with
  | PhaseThinking => Err MISSING_CLOSE
  | _ => Ok (if is_empty (ir_pending p) then (p, [])
             else ({| ir_phase := ir_phase p; ir_pending := "" |}, [(false, ir_pending p)]))
  end.

(** ** Events (api/src/types.rs) *)

Section Events.
Context `{SerdeJson}.

Inductive OutputContentBlock :=
| OutText (text : string)
| OutToolUse (id name : string) (input : Value) (thought_signature : option string)
| OutThinking (thinking : string) (signature : option string)
| OutRedactedThinking (data : Value).

Record MessageResponse := {
  mr_id : string;
  mr_kind : string;
  mr_role : string;
  mr_content : list OutputContentBlock;
  mr_model : string;
  mr_stop_reason : option string;
  mr_stop_sequence : option string;
  mr_usage : Usage;
  mr_request_id : option string;
  mr_gateway_request_id : option string
}.

Record MessageDelta := { md_stop_reason : option string; md_stop_sequence : option string }.

Inductive ContentBlockDelta :=
| TextDelta (text : string)
| InputJsonDelta (partial_json : string)
| ThinkingDelta (thinking : string)
| SignatureDelta (signature : string).

Inductive StreamEvent :=
| MessageStart (message : MessageResponse)
| MessageDeltaEvent (delta : MessageDelta) (usage : Usage)
| ContentBlockStart (index : N) (content_block : OutputContentBlock)
| ContentBlockDeltaEvent (index : N) (delta : ContentBlockDelta)
| ContentBlockStop (index : N)
| MessageStop.
End Events.

(** ** Chunks (openai_compat.rs) *)

Record DeltaToolCall := {
  dt_index : N;
  dt_id : option string;
  dt_name : option string;
  dt_arguments : option string
}.

Record ChunkDelta := {
  cd_content : option string;
  cd_reasoning : option string;
  cd_reasoning_content : option string;
  cd_tool_calls : list DeltaToolCall
}.

Record ChunkChoice := { cc_delta : ChunkDelta; cc_finish_reason : option string }.

Record ChatCompletionChunk := {
  ck_id : string;
  ck_model : option string;
  ck_choices : list ChunkChoice;
  ck_usage : option OpenAiUsage
}.

Definition normalize_reasoning (reasoning reasoning_content : option string) : option string :=
  match reasoning, reasoning_content with
  | Some r, legacy => if is_empty r then some_or legacy (Some r) else Some r
  | None, legacy => legacy
  end.

Definition normalize_finish_reason (value : string) : string :=
  if String.eqb value "stop" then "end_turn"
  else if String.eqb value "tool_calls" then "tool_use"
  else value.

(** ** Tool calls in progress *)

Record ToolCallState := {
  tc_openai_index : N;
  tc_id : option string;
  tc_name : option string;
  tc_arguments : string;
  tc_emitted_len : nat;
  tc_started : bool;
  tc_stopped : bool
}.
Definition tool_call_default : ToolCallState :=
  {| tc_openai_index := 0; tc_id := None; tc_name := None; tc_arguments := ""; tc_emitted_len := 0;
     tc_started := false; tc_stopped := false |}.

Definition tool_apply (s : ToolCallState) (call : DeltaToolCall) : ToolCallState :=
  {| tc_openai_index := dt_index call; tc_id := some_or (dt_id call) (tc_id s);
     tc_name := some_or (dt_name call) (tc_name s);
     tc_arguments := (tc_arguments s ++ default "" (dt_arguments call))%string;
     tc_emitted_len := tc_emitted_len s; tc_started := tc_started s; tc_stopped := tc_stopped s |}.
Definition tool_started (s : ToolCallState) : ToolCallState :=
  {| tc_openai_index := tc_openai_index s; tc_id := tc_id s; tc_name := tc_name s; tc_arguments := tc_arguments s;
     tc_emitted_len := tc_emitted_len s; tc_started := true; tc_stopped := tc_stopped s |}.
Definition tool_stopped (s : ToolCallState) : ToolCallState :=
  {| tc_openai_index := tc_openai_index s; tc_id := tc_id s; tc_name := tc_name s; tc_arguments := tc_arguments s;
     tc_emitted_len := tc_emitted_len s; tc_started := tc_started s; tc_stopped := true |}.
Definition tool_emitted (s : ToolCallState) : ToolCallState :=
  {| tc_openai_index := tc_openai_index s; tc_id := tc_id s; tc_name := tc_name s; tc_arguments := tc_arguments s;
     tc_emitted_len := len (tc_arguments s); tc_started := tc_started s; tc_stopped := tc_stopped s |}.

Definition block_index (s : ToolCallState) (offset : N) : N := ((tc_openai_index s + offset) mod 2 ^ 32)%N.

Section Chat.
Context `{SerdeJson} (empty_object : Value).

Definition tool_id (s : ToolCallState) : string :=
  default ("tool_call_" ++ pretty (tc_openai_index s))%string (tc_id s).

Definition start_event (s : ToolCallState) (offset : N) : option StreamEvent :=
  name ← tc_name s;
  Some (ContentBlockStart (block_index s offset) (OutToolUse (tool_id s) name empty_object None)).

(** What was not emitted of the arguments, if anything. *)
Definition tool_delta (s : ToolCallState) (offset : N) : ToolCallState * list StreamEvent :=
  if len (tc_arguments s) <=? tc_emitted_len s then (s, [])
  else (tool_emitted s,
        [ContentBlockDeltaEvent (block_index s offset) (InputJsonDelta (str_skip (tc_emitted_len s) (tc_arguments s)))]).

(** ** The state of one response *)

Record ChatStreamState := {
  cs_model : string;
  cs_message_id : option string;
  cs_response_model : option string;
  cs_message_started : bool;
  cs_text_started : bool;
  cs_text_finished : bool;
  cs_finished : bool;
  cs_stop_reason : option string;
  cs_usage : option Usage;
  cs_tool_calls : list (N * ToolCallState);
  cs_thinking_started : bool;
  cs_thinking_finished : bool;
  cs_inline : option InlineReasoning
}.

Definition chat_new (model : string) : ChatStreamState :=
  {| cs_model := model; cs_message_id := None; cs_response_model := None; cs_message_started := false;
     cs_text_started := false; cs_text_finished := false; cs_finished := false; cs_stop_reason := None;
     cs_usage := None; cs_tool_calls := []; cs_thinking_started := false; cs_thinking_finished := false;
     cs_inline := for_model model |}.

Definition set_header (id model : option string) (u : option Usage) (s : ChatStreamState) : ChatStreamState :=
  {| cs_model := cs_model s; cs_message_id := id; cs_response_model := model;
     cs_message_started := cs_message_started s; cs_text_started := cs_text_started s;
     cs_text_finished := cs_text_finished s; cs_finished := cs_finished s; cs_stop_reason := cs_stop_reason s;
     cs_usage := u; cs_tool_calls := cs_tool_calls s; cs_thinking_started := cs_thinking_started s;
     cs_thinking_finished := cs_thinking_finished s; cs_inline := cs_inline s |}.
Definition set_flags (message text text_end thinking thinking_end : bool) (s : ChatStreamState) : ChatStreamState :=
  {| cs_model := cs_model s; cs_message_id := cs_message_id s; cs_response_model := cs_response_model s;
     cs_message_started := message; cs_text_started := text; cs_text_finished := text_end;
     cs_finished := cs_finished s; cs_stop_reason := cs_stop_reason s; cs_usage := cs_usage s;
     cs_tool_calls := cs_tool_calls s; cs_thinking_started := thinking; cs_thinking_finished := thinking_end;
     cs_inline := cs_inline s |}.
Definition set_message_started (s : ChatStreamState) : ChatStreamState :=
  set_flags true (cs_text_started s) (cs_text_finished s) (cs_thinking_started s) (cs_thinking_finished s) s.
Definition set_text_started (s : ChatStreamState) : ChatStreamState :=
  set_flags (cs_message_started s) true (cs_text_finished s) (cs_thinking_started s) (cs_thinking_finished s) s.
Definition set_text_finished (s : ChatStreamState) : ChatStreamState :=
  set_flags (cs_message_started s) (cs_text_started s) true (cs_thinking_started s) (cs_thinking_finished s) s.
Definition set_thinking_started (s : ChatStreamState) : ChatStreamState :=
  set_flags (cs_message_started s) (cs_text_started s) (cs_text_finished s) true (cs_thinking_finished s) s.
Definition set_thinking_finished (s : ChatStreamState) : ChatStreamState :=
  set_flags (cs_message_started s) (cs_text_started s) (cs_text_finished s) (cs_thinking_started s) true s.
Definition set_rest (finished : bool) (stop : option string) (calls : list (N * ToolCallState))
    (inline : option InlineReasoning) (s : ChatStreamState) : ChatStreamState :=
  {| cs_model := cs_model s; cs_message_id := cs_message_id s; cs_response_model := cs_response_model s;
     cs_message_started := cs_message_started s; cs_text_started := cs_text_started s;
     cs_text_finished := cs_text_finished s; cs_finished := finished; cs_stop_reason := stop;
     cs_usage := cs_usage s; cs_tool_calls := calls; cs_thinking_started := cs_thinking_started s;
     cs_thinking_finished := cs_thinking_finished s; cs_inline := inline |}.
Definition set_finished (s : ChatStreamState) : ChatStreamState :=
  set_rest true (cs_stop_reason s) (cs_tool_calls s) (cs_inline s) s.
Definition set_stop_reason (reason : string) (s : ChatStreamState) : ChatStreamState :=
  set_rest (cs_finished s) (Some reason) (cs_tool_calls s) (cs_inline s) s.
Definition set_tool_calls (calls : list (N * ToolCallState)) (s : ChatStreamState) : ChatStreamState :=
  set_rest (cs_finished s) (cs_stop_reason s) calls (cs_inline s) s.
Definition set_inline (inline : option InlineReasoning) (s : ChatStreamState) : ChatStreamState :=
  set_rest (cs_finished s) (cs_stop_reason s) (cs_tool_calls s) inline s.

(** A method that pushes events: the state it leaves and what it pushed. *)
Definition Emits : Type := ChatStreamState * list StreamEvent.
Definition then_ (x : Emits) (f : ChatStreamState -> Emits) : Emits :=
  let '(s, e) := f x.1 in (s, x.2 ++ e).

Definition text_block_index (s : ChatStreamState) : N := if cs_thinking_started s then 1%N else 0%N.
Definition tool_index_offset (s : ChatStreamState) : N := if cs_thinking_started s then 2%N else 1%N.

Definition ensure_message_started (s : ChatStreamState) : Emits :=
  if cs_message_started s then (s, [])
  else (set_message_started s,
        [MessageStart {| mr_id := default "" (cs_message_id s); mr_kind := "message"; mr_role := "assistant";
           mr_content := []; mr_model := default (cs_model s) (cs_response_model s); mr_stop_reason := None;
           mr_stop_sequence := None; mr_usage := usage_default; mr_request_id := None;
           mr_gateway_request_id := None |}]).

Definition close_thinking (s : ChatStreamState) : Emits :=
  if cs_thinking_started s && negb (cs_thinking_finished s)
  then (set_thinking_finished s, [ContentBlockStop 0])
  else (s, []).

Definition ingest_thinking (thinking : string) (s : ChatStreamState) : Emits :=
  let opened :=
    if cs_thinking_started s then (s, [])
    else then_ (ensure_message_started s) (fun s =>
           (set_thinking_started s, [ContentBlockStart 0 (OutThinking "" None)])) in
  then_ opened (fun s =>
    (s, if is_empty thinking then [] else [ContentBlockDeltaEvent 0 (ThinkingDelta thinking)])).

Definition ingest_text (text : string) (s : ChatStreamState) : Emits :=
  then_ (close_thinking s) (fun s =>
  then_ (if cs_text_started s then (s, [])
         else then_ (ensure_message_started s) (fun s =>
                let s := set_text_started s in (s, [ContentBlockStart (text_block_index s) (OutText "")])))
    (fun s => (s, [ContentBlockDeltaEvent (text_block_index s) (TextDelta text)]))).

Fixpoint ingest_content (segments : list Segment) (s : ChatStreamState) : Emits :=
  match segments with
  | [] => (s, [])
  | (reasoning, text) :: segments =>
      then_ (if reasoning : bool then ingest_thinking text s else ingest_text text s) (ingest_content segments)
  end.

(** ** Chunks *)

Definition ingest_reasoning (reasoning : string) (s : ChatStreamState) : Emits :=
  ingest_thinking reasoning (if is_empty reasoning then s else set_inline None s).

Definition ingest_answer (content : string) (s : ChatStreamState) : Emits :=
  if is_empty content then (s, [])
  else match cs_inline s with
       | Some p => let '(p, segments) := inline_push p content in ingest_content segments (set_inline (Some p) s)
       | None => ingest_content [(false, content)] s
       end.

(** The start, when the call starts now, what its arguments gained, and the stop, when the
    chunk ends the calls. *)
Definition call_events (ends : bool) (offset : N) (t : ToolCallState) (start : list StreamEvent) :
  ToolCallState * list StreamEvent :=
  let '(t, delta) := tool_delta t offset in
  if ends && negb (tc_stopped t)
  then (tool_stopped t, start ++ delta ++ [ContentBlockStop (block_index t offset)])
  else (t, start ++ delta).

Definition open_call (offset : N) (t : ToolCallState) : option (ToolCallState * list StreamEvent) :=
  if tc_started t then Some (t, [])
  else e ← start_event t offset; Some (tool_started t, [e]).

Definition store_call (index : N) (t : ToolCallState) (s : ChatStreamState) : ChatStreamState :=
  set_tool_calls (bt_insert index t (cs_tool_calls s)) s.

Definition known_call (index : N) (s : ChatStreamState) : ToolCallState :=
  default tool_call_default (bt_get index (cs_tool_calls s)).

Definition ingest_tool_call (ends : bool) (call : DeltaToolCall) (s : ChatStreamState) : Emits :=
  then_ (close_thinking s) (fun s =>
    let offset := tool_index_offset s in
    let t := tool_apply (known_call (dt_index call) s) call in
    match open_call offset t with
    | None => (store_call (dt_index call) t s, [])
    | Some (t, start) =>
        let '(t, e) := call_events ends offset t start in
        let s := store_call (dt_index call) t s in
        then_ (match start with [] => (s, []) | _ => ensure_message_started s end) (fun s => (s, e))
    end).

Fixpoint ingest_tool_calls (ends : bool) (calls : list DeltaToolCall) (s : ChatStreamState) : Emits :=
  match calls with
  | [] => (s, [])
  | call :: calls => then_ (ingest_tool_call ends call s) (ingest_tool_calls ends calls)
  end.

(** Stops the calls that are open, in the order of their indices. *)
Definition stop_call (offset : N) (t : ToolCallState) : ToolCallState * list StreamEvent :=
  if tc_started t && negb (tc_stopped t)
  then (tool_stopped t, [ContentBlockStop (block_index t offset)]) else (t, []).

Fixpoint each_call (f : ToolCallState -> ToolCallState * list StreamEvent) (l : list (N * ToolCallState)) :
  list (N * ToolCallState) * list StreamEvent :=
  match l with
  | [] => ([], [])
  | (i, t) :: l => let '(t, e) := f t in let '(l, e') := each_call f l in ((i, t) :: l, e ++ e')
  end.

Definition ingest_finish_reason (reason : string) (s : ChatStreamState) : Emits :=
  then_ (if String.eqb reason "content_filter" then ensure_message_started s else (s, [])) (fun s =>
    let s := set_stop_reason (normalize_finish_reason reason) s in
    if String.eqb reason "tool_calls" then
      let '(calls, e) := each_call (stop_call (tool_index_offset s)) (cs_tool_calls s) in (set_tool_calls calls s, e)
    else (s, [])).

Definition ingest_choice (choice : ChunkChoice) (s : ChatStreamState) : Emits :=
  let delta := cc_delta choice in
  let ends := bool_decide (cc_finish_reason choice = Some "tool_calls"%string) in
  then_ (match normalize_reasoning (cd_reasoning delta) (cd_reasoning_content delta) with
         | Some r => ingest_reasoning r s
         | None => (s, [])
         end) (fun s =>
  then_ (match cd_content delta with Some c => ingest_answer c s | None => (s, []) end) (fun s =>
  then_ (ingest_tool_calls ends (cd_tool_calls delta) s) (fun s =>
    match cc_finish_reason choice with Some reason => ingest_finish_reason reason s | None => (s, []) end))).

Fixpoint ingest_choices (choices : list ChunkChoice) (s : ChatStreamState) : Emits :=
  match choices with
  | [] => (s, [])
  | choice :: choices => then_ (ingest_choice choice s) (ingest_choices choices)
  end.

Definition non_empty (x : option string) : option string :=
  match x with Some t => if is_empty t then None else Some t | None => None end.

Definition ingest_chunk (chunk : ChatCompletionChunk) (s : ChatStreamState) : Emits :=
  let id := match cs_message_id s with
            | Some id => Some id
            | None => if is_empty (ck_id chunk) then None else Some (ck_id chunk)
            end in
  let model := some_or (cs_response_model s) (non_empty (ck_model chunk)) in
  let u := match ck_usage chunk with
           | Some u => Some (merge_snapshot (default usage_default (cs_usage s)) (to_api_usage u))
           | None => cs_usage s
           end in
  ingest_choices (ck_choices chunk) (set_header id model u s).

(** ** The end *)

Definition finish_call (offset : N) (t : ToolCallState) : ToolCallState * list StreamEvent :=
  let '(t, opened) :=
    if tc_started t then (t, [])
    else match start_event t offset with
         | Some e => let '(t, delta) := tool_delta (tool_started t) offset in (t, e :: delta)
         | None => (t, [])
         end in
  let '(t, stop) := stop_call offset t in (t, opened ++ stop).

Definition finish_tools (s : ChatStreamState) : Emits :=
  let '(calls, e) := each_call (finish_call (tool_index_offset s)) (cs_tool_calls s) in
  let s := set_tool_calls calls s in
  then_ (match e with [] => (s, []) | _ => ensure_message_started s end) (fun s => (s, e)).

Definition finish_message (s : ChatStreamState) : Emits :=
  (s, if cs_message_started s
      then [MessageDeltaEvent {| md_stop_reason := Some (default "end_turn" (cs_stop_reason s)); md_stop_sequence := None |}
              (default usage_default (cs_usage s)); MessageStop]
      else []).

Definition finish_inline (s : ChatStreamState) : result string Emits :=
  match cs_inline s with
  | None => Ok (s, [])
  | Some p =>
      match inline_finish p with
      | Ok (p, segments) => Ok (ingest_content segments (set_inline (Some p) s))
      | Err e => Err e
      end
  end.

Definition finish_text (s : ChatStreamState) : Emits :=
  if cs_text_started s && negb (cs_text_finished s)
  then (set_text_finished s, [ContentBlockStop (text_block_index s)]) else (s, []).

Definition chat_finish (s : ChatStreamState) : ChatStreamState * result string (list StreamEvent) :=
  if cs_finished s then (s, Ok [])
  else
    let s := set_finished s in
    match finish_inline s with
    | Err e => (s, Err e)
    | Ok x =>
        let '(s, e) := then_ (then_ (then_ (then_ x close_thinking) finish_text) finish_tools) finish_message in
        (s, Ok e)
    end.

Fixpoint ingest_chunks (chunks : list ChatCompletionChunk) (s : ChatStreamState) : Emits :=
  match chunks with
  | [] => (s, [])
  | chunk :: chunks => then_ (ingest_chunk chunk s) (ingest_chunks chunks)
  end.

(** A whole response: the events of its chunks and of its end. *)
Definition chat_events (model : string) (chunks : list ChatCompletionChunk) : result string (list StreamEvent) :=
  let '(s, e) := ingest_chunks chunks (chat_new model) in
  match (chat_finish s).2 with Ok e' => Ok (e ++ e') | Err err => Err err end.
End Chat.
