(* ===== verification/InlineSafety.v ===== *)
(** * Chunks never show in inline reasoning

    However a provider cuts its text, the reasoning taken out of it and the answer that is
    left are those of the whole text. *)
From S2P Require Import Prelude.
From stdpp Require Import list.
From S2P Require Import RustStr AssistantMessage ProviderStream.

(** ** The reference: one text *)

Definition split_reasoning (text : string) : result string (string * string) :=
  match strip_prefix (trim_start text) OPEN_TAG with
  | Some rest =>
      match find_str rest CLOSE_TAG with
      | Some i => Ok (str_take i rest, str_skip (i + len CLOSE_TAG) rest)
      | None => Err MISSING_CLOSE
      end
  | None => Ok ("", text)
  end.

Definition reasoning_of (l : list Segment) : string := concat_str (fun x => if x.1 : bool then x.2 else "") l.
Definition answer_of (l : list Segment) : string := concat_str (fun x => if x.1 : bool then "" else x.2) l.

Fixpoint inline_run (p : InlineReasoning) (chunks : list string) : InlineReasoning * list Segment :=
  match chunks with
  | [] => (p, [])
  | c :: chunks =>
      let '(p, l) := inline_push p c in let '(p, l') := inline_run p chunks in (p, l ++ l')
  end.

Definition inline_new : InlineReasoning := {| ir_phase := PhasePrefix; ir_pending := "" |}.

(** What a whole response delivers. *)
Definition inline_split (chunks : list string) : result string (string * string) :=
  let '(p, l) := inline_run inline_new chunks in
  match inline_finish p with
  | Ok (_, l') => Ok (reasoning_of (l ++ l'), answer_of (l ++ l'))
  | Err e => Err e
  end.

(** A text that begins at a character: as every [str] does. *)
Definition aligned (s : string) : bool := match s with String a _ => negb (is_cont a) | EmptyString => true end.

(** ** White space at the front *)

Lemma ws2_cont a b : ws2 a b = true -> is_cont b = true.
Proof.
  unfold ws2, is_cont. rewrite !andb_true_iff, orb_true_iff, !Nat.eqb_eq, Nat.leb_le, Nat.ltb_lt. lia.
Qed.

Lemma ws3_cont a b c : ws3 a b c = true -> is_cont b = true /\ is_cont c = true.
Proof.
  unfold ws3, is_cont. repeat rewrite ?orb_true_iff, ?andb_true_iff, ?Nat.eqb_eq, ?Nat.leb_le, ?Nat.ltb_lt. lia.
Qed.

Lemma trim_start_step s : trim_start s = s \/ exists k, 0 < k <= len s /\ trim_start s = trim_start (str_skip k s)
  /\ forall x, trim_start (s ++ x)%string = trim_start (str_skip k s ++ x)%string.
Proof.
  destruct s as [|a s]; [by left|]. cbn [trim_start append]. destruct (ws1 a) eqn:E1.
  { right. exists 1. cbn. split; [lia|done]. }
  destruct s as [|b s]; [by left|]. cbn [append]. destruct (ws2 a b) eqn:E2.
  { right. exists 2. cbn. split; [lia|done]. }
  destruct s as [|c s]; [by left|]. cbn [append]. destruct (ws3 a b c) eqn:E3; [|by left].
  right. exists 3. cbn. split; [lia|done].
Qed.

(** Text after the white space is not trimmed; after white space only, all of it is. *)
Lemma trim_start_app s x : aligned x = true ->
  trim_start (s ++ x)%string = if is_empty (trim_start s) then trim_start x else (trim_start s ++ x)%string.
Proof.
  intros Hx. remember (len s) as n eqn:Hn. revert s Hn. induction n as [n IH] using lt_wf_ind. intros s Hn.
  destruct (trim_start_step s) as [E|(k & Hk & E & Ex)].
  - destruct s as [|a s]; [done|]. rewrite E. cbn [is_empty].
    cbn [trim_start append] in *. destruct (ws1 a) eqn:E1.
    { exfalso. pose proof (len_trim_start s) as Hl. rewrite E in Hl. cbn in Hl. lia. }
    destruct s as [|b s]; cbn [append] in *.
    + destruct x as [|b x]; [done|]. destruct (ws2 a b) eqn:E2.
      { apply ws2_cont in E2. cbn in Hx. by rewrite E2 in Hx. }
      destruct x as [|c x]; [done|]. destruct (ws3 a b c) eqn:E3; [|done].
      apply ws3_cont in E3 as [E3 _]. cbn in Hx. by rewrite E3 in Hx.
    + destruct (ws2 a b) eqn:E2.
      { exfalso. pose proof (len_trim_start s) as Hl. rewrite E in Hl. cbn in Hl. lia. }
      destruct s as [|c s]; cbn [append] in *.
      * destruct x as [|c x]; [done|]. destruct (ws3 a b c) eqn:E3; [|done].
        apply ws3_cont in E3 as [_ E3]. cbn in Hx. by rewrite E3 in Hx.
      * destruct (ws3 a b c) eqn:E3; [|done].
        exfalso. pose proof (len_trim_start s) as Hl. rewrite E in Hl. cbn in Hl. lia.
  - rewrite Ex, E. eapply IH; [|reflexivity]. rewrite len_skip. lia.
Qed.

Lemma aligned_app s x : aligned s = true -> aligned x = true -> aligned (s ++ x)%string = true.
Proof. by destruct s. Qed.

(** ** Looking for the tag *)

Lemma prefix_len p s : is_prefix p s = true -> len p <= len s.
Proof. intros [r ->]%prefix_app. rewrite len_app. lia. Qed.

Lemma prefix_app_long p s x : len p <= len s -> is_prefix p (s ++ x)%string = is_prefix p s.
Proof.
  revert s. induction p as [|a p IH]; intros [|b s]; cbn; try done; [lia|]. intros Hl. rewrite IH by lia. done.
Qed.

(** A prefix of a longer text: it ends in [p], or [p] goes on in [x]. *)
Lemma prefix_app_short p s x : len s <= len p -> is_prefix p (s ++ x)%string = true -> s = str_take (len s) p.
Proof.
  revert s. induction p as [|a p IH]; intros [|b s]; cbn; try done; [lia|].
  intros Hl [->%Ascii.eqb_eq Hp]%andb_true_iff. f_equal. apply IH; [lia|done].
Qed.

Lemma find_str_none s p k : find_str s p = None -> k <= len s -> is_prefix p (str_skip k s) = false.
Proof.
  revert k. induction s as [|a s IH]; intros k; cbn [find_str].
  - destruct (is_prefix p "") eqn:E; [done|]. intros _ Hk. by destruct k.
  - destruct (is_prefix p (String a s)) eqn:E; [done|]. destruct (find_str s p) eqn:Ef; [done|].
    intros _ Hk. destruct k as [|k]; [done|]. cbn. apply IH; [done|]. cbn in Hk. lia.
Qed.

(** Text in which no occurrence begins can be set aside. *)
Lemma find_str_after k s p :
  k <= len s -> (forall j, j < k -> is_prefix p (str_skip j s) = false) ->
  find_str s p = Nat.add k <$> find_str (str_skip k s) p.
Proof.
  revert k. induction s as [|a s IH]; intros k Hk Hno.
  - cbn in Hk. assert (k = 0) as -> by lia. cbn [str_skip]. by destruct (find_str "" p).
  - destruct k as [|k]; [cbn [str_skip]; by destruct (find_str (String a s) p)|].
    pose proof (Hno 0 ltac:(lia)) as H0. cbn [str_skip] in H0. cbn [find_str str_skip]. rewrite H0.
    rewrite (IH k); [|cbn in Hk; lia|].
    + destruct (find_str (str_skip k s) p); done.
    + intros j Hj. exact (Hno (S j) ltac:(lia)).
Qed.

Lemma find_str_le s p i : find_str s p = Some i -> i + len p <= len s.
Proof.
  intros (r & Hr & Hl)%find_str_spec. apply (f_equal len) in Hr. rewrite !len_app, len_take in Hr. lia.
Qed.

Lemma find_str_app s x p i : find_str s p = Some i -> find_str (s ++ x)%string p = Some i.
Proof.
  revert i. induction s as [|a s IH]; intros i; cbn [find_str append].
  - destruct (is_prefix p "") eqn:E; [|done]. intros [= <-].
    apply prefix_app in E as [r Hr]. destruct p; [|done]. by destruct x.
  - destruct (is_prefix p (String a s)) eqn:E.
    + intros [= <-]. change (String a (s ++ x)) with (String a s ++ x)%string.
      by rewrite prefix_app_long by (by apply prefix_len); rewrite E.
    + destruct (find_str s p) as [j|] eqn:Ej; [|done]. intros [= <-].
      assert (is_prefix p (String a (s ++ x)) = false) as ->.
      { apply find_str_le in Ej. change (String a (s ++ x)) with (String a s ++ x)%string.
        rewrite prefix_app_long; [done|]. cbn. lia. }
      by rewrite (IH j eq_refl).
Qed.

Lemma str_skip_app_le k s x : k <= len s -> str_skip k (s ++ x)%string = (str_skip k s ++ x)%string.
Proof.
  revert s. induction k as [|k IH]; intros [|a s]; cbn; try done; [lia|]. intros Hk. apply IH. lia.
Qed.

Lemma str_take_app_le k s x : k <= len s -> str_take k (s ++ x)%string = str_take k s.
Proof.
  revert s. induction k as [|k IH]; intros [|a s]; cbn; try done; [lia|]. intros Hk. by rewrite IH by lia.
Qed.

Lemma str_skip_skip k j s : str_skip j (str_skip k s) = str_skip (k + j) s.
Proof. revert s. induction k as [|k IH]; intros s; [done|]. destruct s; cbn; [by destruct j|apply IH]. Qed.

(** Nothing that is emitted as reasoning can begin the closing tag. *)
Lemma retained_covers p x j :
  find_str p CLOSE_TAG = None -> j < len p - retained p -> is_prefix CLOSE_TAG (str_skip j p ++ x)%string = false.
Proof.
  intros Hno Hj. destruct (is_prefix CLOSE_TAG (str_skip j p ++ x)%string) eqn:E; [|done]. exfalso.
  assert (len (str_skip j p) = len p - j) as Hlen by apply len_skip.
  destruct (decide (len CLOSE_TAG <= len (str_skip j p))) as [Hl|Hl].
  - rewrite prefix_app_long in E by done. rewrite (find_str_none p CLOSE_TAG j) in E; [done|done|lia].
  - apply prefix_app_short in E; [|lia]. change (len CLOSE_TAG) with 8 in Hl.
    assert (ends_with p (str_take (len p - j) CLOSE_TAG) = true) as He.
    { apply ends_with_iff. exists (str_take j p). rewrite <- Hlen, <- E. by rewrite str_take_skip. }
    assert (len p - j <= retained p) as Hr; [|lia].
    assert (1 <= len p - j <= 7) as Hm by lia. revert Hm He. generalize (len p - j) as m. clear. intros m Hm He.
    unfold retained. cbn [List.find].
    assert (m = 1 \/ m = 2 \/ m = 3 \/ m = 4 \/ m = 5 \/ m = 6 \/ m = 7) as Hcases by lia. clear Hm.
    destruct Hcases as [->|[->|[->|[->|[->|[->| ->]]]]]];
      repeat match goal with |- context [if ?b then _ else _] => destruct b eqn:? end; cbn; (lia || congruence).
Qed.

(** ** The invariant *)

(** After the text [s]: what is pending, and what was delivered as reasoning and answer. *)
Definition split_so_far (s : string) (p : InlineReasoning) (reasoning answer : string) : Prop :=
  match ir_phase p with
  | PhasePrefix =>
      ir_pending p = s /\ reasoning = "" /\ answer = "" /\ starts_with OPEN_TAG (trim_start s) = true
      /\ strip_prefix (trim_start s) OPEN_TAG = None
  | PhaseThinking =>
      answer = "" /\ strip_prefix (trim_start s) OPEN_TAG = Some (reasoning ++ ir_pending p)%string
      /\ find_str (reasoning ++ ir_pending p) CLOSE_TAG = None
      /\ forall x, find_str (reasoning ++ ir_pending p ++ x) CLOSE_TAG = Nat.add (len reasoning) <$> find_str (ir_pending p ++ x) CLOSE_TAG
  | PhaseAnswer =>
      ir_pending p = "" /\ forall x, aligned x = true -> split_reasoning (s ++ x) = Ok (reasoning, (answer ++ x)%string)
  end.

Lemma strip_tag_app s t x r :
  strip_prefix s t = Some r -> strip_prefix (s ++ x)%string t = Some (r ++ x)%string.
Proof.
  unfold strip_prefix, starts_with. destruct (is_prefix t s) eqn:E; [|done]. intros [= <-].
  rewrite prefix_app_long, E by (by apply prefix_len). by rewrite str_skip_app_le by (by apply prefix_len).
Qed.

(** Once the text begins with neither the tag nor a part of it, it stays an answer. *)
Lemma diverged s x : aligned x = true -> strip_prefix (trim_start s) OPEN_TAG = None ->
  starts_with OPEN_TAG (trim_start s) = false -> strip_prefix (trim_start (s ++ x)) OPEN_TAG = None.
Proof.
  intros Hx Hn Hs. rewrite trim_start_app by done.
  destruct (trim_start s) as [|a t] eqn:Et; [done|]. cbn [is_empty]. rewrite <- Et in *.
  unfold strip_prefix, starts_with in *. destruct (is_prefix OPEN_TAG (trim_start s)) eqn:E; [done|].
  destruct (is_prefix OPEN_TAG (trim_start s ++ x)) eqn:E2; [|done]. exfalso.
  destruct (decide (len OPEN_TAG <= len (trim_start s))) as [Hl|Hl].
  - rewrite prefix_app_long in E2 by done. congruence.
  - apply prefix_app_short in E2; [|lia].
    assert (is_prefix (trim_start s) OPEN_TAG = true); [|congruence]. apply prefix_app.
    exists (str_skip (len (trim_start s)) OPEN_TAG). rewrite E2 at 1. by rewrite str_take_skip.
Qed.

Lemma thought_text l n p : thought n p = l -> reasoning_of l = str_take n p /\ answer_of l = "".
Proof. intros <-. unfold thought. destruct n; [done|]. cbn. by rewrite str_app_nil_r. Qed.

Lemma trim_after_tag s x r : aligned x = true -> strip_prefix (trim_start s) OPEN_TAG = Some r ->
  strip_prefix (trim_start (s ++ x)) OPEN_TAG = Some (r ++ x)%string.
Proof.
  intros Hx Hs. rewrite trim_start_app by done. destruct (trim_start s) as [|a t] eqn:Et; [done|].
  cbn [is_empty]. rewrite <- Et in *. by apply strip_tag_app.
Qed.

(** The two later phases, from the text [reasoning] that was delivered and [q] that is pending. *)
Lemma thinking_step s reasoning q p l :
  strip_prefix (trim_start s) OPEN_TAG = Some (reasoning ++ q)%string ->
  (forall x, find_str (reasoning ++ q ++ x) CLOSE_TAG = Nat.add (len reasoning) <$> find_str (q ++ x) CLOSE_TAG) ->
  (let '(p, thinking) := push_thinking {| ir_phase := PhaseThinking; ir_pending := q |} in
   let '(p, answer) := push_answer p in (p, thinking ++ answer)) = (p, l) ->
  split_so_far s p (reasoning ++ reasoning_of l) (answer_of l).
Proof.
  intros Hs Hfind. unfold push_thinking. cbn [ir_phase ir_pending].
  destruct (find_str q CLOSE_TAG) as [i|] eqn:Ei.
  - set (rest := str_skip (i + len CLOSE_TAG) q).
    assert (forall a, reasoning_of (thought i q ++ [(false, a)]) = str_take i q /\ answer_of (thought i q ++ [(false, a)]) = a) as Hl.
    { intros a. unfold reasoning_of, answer_of. rewrite !concat_str_app. destruct (thought_text _ i q eq_refl) as [K1 K2].
      unfold reasoning_of, answer_of in K1, K2. rewrite K1, K2. cbn. by rewrite !str_app_nil_r. }
    assert (forall x, aligned x = true -> split_reasoning (s ++ x) = Ok ((reasoning ++ str_take i q)%string, (rest ++ x)%string)) as Hsplit.
    { intros x Hx. unfold split_reasoning. rewrite (trim_after_tag _ _ _ Hx Hs), str_app_assoc, Hfind.
      rewrite (find_str_app _ x _ _ Ei). cbn [fmap option_fmap option_map].
      pose proof (find_str_le _ _ _ Ei) as Hle.
      assert (forall k (a b : string), str_take (len a + k) (a ++ b)%string = (a ++ str_take k b)%string) as Ht
        by (intros k a b; induction a as [|c a IH]; [done|]; cbn; by rewrite IH).
      assert (forall k (a b : string), str_skip (len a + k) (a ++ b)%string = str_skip k b) as Hk
        by (intros k a b; induction a as [|c a IH]; [done|]; cbn; by rewrite IH).
      rewrite <- Nat.add_assoc, Ht, Hk, str_take_app_le, str_skip_app_le by lia. done. }
    unfold push_answer. cbn [ir_phase ir_pending]. fold rest. destruct (is_empty rest) eqn:Er.
    + intros [= <- <-]. rewrite app_nil_r. destruct (thought_text _ i q eq_refl) as [-> ->]. cbn.
      apply is_empty_eq in Er. split; [done|]. intros x Hx. rewrite (Hsplit x Hx), Er. done.
    + intros [= <- <-]. destruct (Hl rest) as [-> ->]. cbn. by split.
  - unfold push_answer. cbn [ir_phase]. set (k := len q - retained q). rewrite app_nil_r. intros [= <- <-].
    destruct (thought_text _ k q eq_refl) as [-> ->]. cbn [split_so_far ir_phase ir_pending].
    assert (forall x, ((reasoning ++ str_take k q) ++ str_skip k q ++ x = reasoning ++ q ++ x)%string) as Hq.
    { intros x. rewrite str_app_assoc, <- (str_app_assoc (str_take k q)). by rewrite str_take_skip. }
    pose proof (Hq "") as Hq0. rewrite !str_app_nil_r in Hq0. unfold split_so_far. cbn [ir_phase ir_pending].
    split_and!; [done|by rewrite Hq0| |].
    + rewrite Hq0. pose proof (Hfind "") as H0. rewrite !str_app_nil_r in H0. by rewrite H0, Ei.
    + intros x. rewrite Hq, Hfind, len_app, len_take, Nat.min_l by (unfold k; lia).
      rewrite (find_str_after k (q ++ x)).
      * rewrite str_skip_app_le by (unfold k; lia). rewrite <- option_fmap_compose. apply option_fmap_ext.
        intros n. unfold compose. lia.
      * rewrite len_app. unfold k. lia.
      * intros j Hj. rewrite str_skip_app_le by (unfold k in Hj; lia). by apply retained_covers.
Qed.

Lemma split_step s p reasoning answer c p' l :
  split_so_far s p reasoning answer -> aligned c = true -> inline_push p c = (p', l) ->
  split_so_far (s ++ c) p' (reasoning ++ reasoning_of l) (answer ++ answer_of l).
Proof.
  intros Hp Hc. destruct p as [ph q]. unfold split_so_far in Hp. cbn [ir_phase ir_pending] in Hp.
  unfold inline_push. cbn [ir_phase ir_pending]. destruct ph.
  - destruct Hp as (-> & -> & -> & Hstart & Hno). unfold push_prefix. cbn [ir_phase ir_pending].
    destruct (strip_prefix (trim_start (s ++ c)) OPEN_TAG) as [rest|] eqn:Es.
    + intros Hpush. apply (thinking_step (s ++ c) "" rest p' l); [done| |exact Hpush].
      intros x. cbn. by destruct (find_str (rest ++ x) CLOSE_TAG).
    + destruct (starts_with OPEN_TAG (trim_start (s ++ c))) eqn:Est; [by intros [= <- <-]|].
      unfold push_thinking, push_answer. cbn [ir_phase ir_pending].
      assert (forall x, aligned x = true -> split_reasoning ((s ++ c) ++ x) = Ok ("", ((s ++ c) ++ x)%string)) as Hsplit.
      { intros x Hx. unfold split_reasoning. by rewrite (diverged _ x Hx Es Est). }
      destruct (is_empty (s ++ c)) eqn:Ee; intros [= <- <-].
      * apply is_empty_eq in Ee. rewrite Ee in *. by split.
      * cbn. split; [done|]. intros x Hx. rewrite (Hsplit x Hx), str_app_nil_r. done.
  - destruct Hp as (-> & Hs & _ & Hfind). intros Hpush. apply (thinking_step (s ++ c) reasoning (q ++ c) p' l).
    + rewrite <- str_app_assoc. by apply trim_after_tag.
    + intros x. rewrite !str_app_assoc. apply Hfind.
    + exact Hpush.
  - destruct Hp as [-> Hsplit]. unfold push_prefix, push_thinking, push_answer. cbn [ir_phase ir_pending append].
    destruct (is_empty c) eqn:Ee; intros [= <- <-]; cbn; rewrite !str_app_nil_r.
    + apply is_empty_eq in Ee as ->. rewrite str_app_nil_r. by split.
    + split; [done|]. intros x Hx. rewrite !str_app_assoc. apply Hsplit. by apply aligned_app.
Qed.

Lemma reasoning_of_app l l' : reasoning_of (l ++ l') = (reasoning_of l ++ reasoning_of l')%string.
Proof. apply concat_str_app. Qed.
Lemma answer_of_app l l' : answer_of (l ++ l') = (answer_of l ++ answer_of l')%string.
Proof. apply concat_str_app. Qed.

Lemma split_run chunks : forall s p reasoning answer p' l,
  split_so_far s p reasoning answer -> Forall (fun c => aligned c = true) chunks ->
  inline_run p chunks = (p', l) ->
  split_so_far (s ++ concat_str id chunks) p' (reasoning ++ reasoning_of l) (answer ++ answer_of l).
Proof.
  induction chunks as [|c chunks IH]; intros s p reasoning answer p' l Hp Hall; cbn [inline_run concat_str].
  - intros [= <- <-]. cbn. by rewrite !str_app_nil_r.
  - apply Forall_cons in Hall as [Hc Hall]. destruct (inline_push p c) as [p1 l1] eqn:E1.
    destruct (inline_run p1 chunks) as [p2 l2] eqn:E2. intros [= <- <-].
    rewrite reasoning_of_app, answer_of_app, <- !str_app_assoc.
    eapply IH; [by eapply split_step|done|done].
Qed.

Lemma inline_split_spec chunks :
  Forall (fun c => aligned c = true) chunks ->
  inline_split chunks = split_reasoning (concat_str id chunks).
Proof.
  intros Hall. unfold inline_split. destruct (inline_run inline_new chunks) as [p l] eqn:E.
  assert (split_so_far "" inline_new "" "") as Hnew by done.
  pose proof (split_run chunks _ _ _ _ _ _ Hnew Hall E) as Hs. cbn [append] in Hs.
  set (s := concat_str id chunks) in *. unfold split_so_far in Hs. unfold inline_finish.
  destruct p as [ph q]. cbn [ir_phase ir_pending] in *. destruct ph.
  - destruct Hs as (-> & Hr & Ha & _ & Hno). unfold split_reasoning. rewrite Hno.
    destruct (is_empty s) eqn:Ee; rewrite reasoning_of_app, answer_of_app, Hr, Ha; cbn; [|by rewrite str_app_nil_r].
    by apply is_empty_eq in Ee as ->.
  - destruct Hs as (_ & Hs & Hno & _). unfold split_reasoning. by rewrite Hs, Hno.
  - destruct Hs as [-> Hs]. specialize (Hs "" eq_refl). rewrite !str_app_nil_r in Hs. rewrite Hs. cbn. by rewrite app_nil_r.
Qed.

(** C33. Where a provider cuts its text never shows.

    Whatever the pieces a response's text arrives in, the reasoning and the answer that are
    delivered are those of the whole text: what stands between a leading tag and the first
    closing tag, even one cut in two, and what follows it; or the text as it is when it does
    not begin with the tag; a tag that is never closed is an error at the end. *)
Theorem inline_chunking_is_invisible chunks :
  Forall (fun c => aligned c = true) chunks ->
  inline_split chunks = split_reasoning (concat_str id chunks).
Proof. apply inline_split_spec. Qed.

Lemma inline_chunking_is_invisible_witness :
  inline_split ["  <thi"; "nk>so"; "me</th"; "ought</"; "think>an"; "swer</think>"]
    = Ok ("some</thought", "answer</think>").
Proof.
  rewrite inline_chunking_is_invisible; [reflexivity|]. repeat constructor.
Defined.
