(* ===== verification/SessionCodec.v ===== *)
(** * Sessions as JSON (runtime/src/session.rs, session_history.rs, prompt.rs)

    How messages, usages and the metadata of a session are written as the store's JSON values
    and read back.  Text is [chars] of a string on the way out and [utf8] on the way in.
    [serde_json] on derived types is a parameter: it reads a message's identity and writes and
    reads a compaction report. *)
From S2P Require Import Prelude.
From stdpp Require Import list gmap strings.
From S2P Require Import RustStr JsonText Utf8 Conversation CompactionScope ProviderStream.

(** [SessionError], as far as the codec raises it. *)
Inductive CodecError :=
| Format (message : string)
| Json (message : text).

(** [CompactionReport] (runtime/src/compact.rs), a type serde derives a codec for. *)
Inductive CompactionOutcome := TargetMet | Skipped | Failed | Cancelled.

Record CompactionReport := {
  cr_run_id : string;
  cr_before_history : N;
  cr_after_history : N;
  cr_target_history : option N;
  cr_ideal_history : option N;
  cr_source_safe_history_budget : N;
  cr_safe_history_budget : N;
  cr_actual_fixed_overhead : N;
  cr_method : option string;
  cr_outcome : CompactionOutcome;
  cr_reason : option string;
  cr_attempts : N;
  cr_completed_responses : N;
  cr_estimate_source : string
}.

Definition i64_max : Z := 9223372036854775807.

Section Codec.
Context `{SN : SerdeNumber}.

(** ** Objects *)

Fixpoint entries_get (k : text) (m : list (text * JsonValue)) : option JsonValue :=
  match m with
  | [] => None
  | (k', v) :: r => if bool_decide (k = k') then Some v else entries_get k r
  end.

Definition get (key : string) (m : list (text * JsonValue)) : option JsonValue := entries_get (txt key) m.

Definition insert (key : string) (v : JsonValue) (m : list (text * JsonValue)) : list (text * JsonValue) :=
  entries_insert (txt key) v m.
Definition insert_opt (key : string) (v : option JsonValue) (m : list (text * JsonValue)) : list (text * JsonValue) :=
  match v with Some v => insert key v m | None => m end.

Definition jstr (s : string) : JsonValue := JString (chars s).
Definition as_string (v : JsonValue) : option string := utf8 <$> as_str v.

Definition jnum (n : N) : JsonValue := JNumber (Z.of_N n).
(** [i64::try_from(n).unwrap_or(i64::MAX)] *)
Definition jnum_saturating (n : N) : JsonValue := JNumber (Z.min (Z.of_N n) i64_max).

Definition missing (key : string) : CodecError := Format ("missing " ++ key).
Definition out_of_range (key : string) : CodecError := Format (key ++ " out of range").

Definition required_string (m : list (text * JsonValue)) (key : string) : result CodecError string :=
  ok_or (get key m ≫= as_string) (missing key).

Definition optional_string (m : list (text * JsonValue)) (key : string) : result CodecError (option string) :=
  match get key m with
  | Some v => Some <$> ok_or (as_string v) (Format (key ++ " must be a string"))
  | None => Ok None
  end.

Definition unsigned (max : N) (z : Z) : option N := if (z <? 0)%Z || (Z.of_N max <? z)%Z then None else Some (Z.to_N z).

Definition required_u32 (m : list (text * JsonValue)) (key : string) : result CodecError N :=
  z ← ok_or (get key m ≫= as_i64) (missing key); ok_or (unsigned 4294967295 z) (out_of_range key).

Definition required_u64_from_value (v : JsonValue) (key : string) : result CodecError N :=
  z ← ok_or (as_i64 v) (missing key); ok_or (unsigned u64_max z) (out_of_range key).

Definition required_u64 (m : list (text * JsonValue)) (key : string) : result CodecError N :=
  v ← ok_or (get key m) (missing key); required_u64_from_value v key.

Definition optional_u64 (m : list (text * JsonValue)) (key : string) : result CodecError (option N) :=
  match get key m with Some v => Some <$> required_u64_from_value v key | None => Ok None end.

Definition required_usize (m : list (text * JsonValue)) (key : string) : result CodecError N :=
  z ← ok_or (get key m ≫= as_i64) (missing key); ok_or (unsigned u64_max z) (out_of_range key).

Definition i64_from_u64 (n : N) (key : string) : result CodecError JsonValue :=
  if (Z.of_N n <=? i64_max)%Z then Ok (jnum n) else Err (Format (key ++ " out of range for JSON number")).

(** [collect::<Result<Vec<_>, _>>()] *)
Fixpoint collect {A B} (f : A -> result CodecError B) (l : list A) : result CodecError (list B) :=
  match l with
  | [] => Ok []
  | a :: l => b ← f a; bs ← collect f l; Ok (b :: bs)
  end.

(** [.get(key).map(f).transpose()] *)
Definition optional {A} (f : JsonValue -> result CodecError A) (key : string) (m : list (text * JsonValue)) :
  result CodecError (option A) :=
  match get key m with Some v => Some <$> f v | None => Ok None end.

Definition object_or (message : string) (v : JsonValue) : result CodecError (list (text * JsonValue)) :=
  ok_or (as_object v) (Format message).

(** ** Usage *)

Definition usage_to_json (u : TokenUsage) : JsonValue :=
  JObject
    (insert_opt "cost_currency" (match cost_currency u with Some SudoPoint => Some (jstr "sudo_point") | None => None end)
    (insert_opt "cost_units" (match cost_units u with
                              | Some n => if (Z.of_N n <=? i64_max)%Z then Some (jnum n) else None
                              | None => None
                              end)
    (insert "cache_read_input_tokens" (jnum (cache_read_input_tokens u))
    (insert "cache_creation_input_tokens" (jnum (cache_creation_input_tokens u))
    (insert "output_tokens" (jnum (output_tokens u))
    (insert "input_tokens" (jnum (input_tokens u))
    (insert_opt "reported_total_tokens" (jnum <$> reported_total_tokens u) []))))))).

Definition usage_from_json (v : JsonValue) : result CodecError TokenUsage :=
  m ← object_or "usage must be an object" v;
  total ← match get "reported_total_tokens" m with
          | Some JNull | None => Ok None
          | Some _ => Some <$> required_u32 m "reported_total_tokens"
          end;
  input ← required_u32 m "input_tokens";
  output ← required_u32 m "output_tokens";
  creation ← required_u32 m "cache_creation_input_tokens";
  read ← required_u32 m "cache_read_input_tokens";
  units ← optional_u64 m "cost_units";
  currency ← optional_string m "cost_currency";
  Ok {| reported_total_tokens := total; input_tokens := input; output_tokens := output;
        cache_creation_input_tokens := creation; cache_read_input_tokens := read; cost_units := units;
        cost_currency := parse_usage_cost_currency currency |}.

(** ** Content blocks *)

(** [JsonValue::parse(..).ok()]; the parser always answers ([JsonText.parse_total]). *)
Definition parse_ok (s : string) : option JsonValue :=
  match parse (chars s) with Ret (Ok v) => Some v | _ => None end.

Definition tool_input_to_json (input : string) : JsonValue :=
  match parse_ok input with Some (JObject m) => JObject m | _ => jstr input end.

Definition typed (name : string) : list (text * JsonValue) := insert "type" (jstr name) [].

Definition block_to_json (b : ContentBlock) : JsonValue :=
  JObject
    match b with
    | Text s => insert "text" (jstr s) (typed "text")
    | Image data mime_type => insert "mime_type" (jstr mime_type) (insert "data" (jstr data) (typed "image"))
    | Thinking thinking signature =>
        insert_opt "signature" (jstr <$> signature) (insert "thinking" (jstr thinking) (typed "thinking"))
    | RedactedThinking data => insert "data" (jstr data) (typed "redacted_thinking")
    | ToolUse id name input signature =>
        insert_opt "thought_signature" (jstr <$> signature)
          (insert "input" (tool_input_to_json input)
             (insert "name" (jstr name) (insert "id" (jstr id) (typed "tool_use"))))
    | ToolResult tool_use_id tool_name output is_error =>
        insert "is_error" (JBool is_error)
          (insert "output" (jstr output)
             (insert "tool_name" (jstr tool_name) (insert "tool_use_id" (jstr tool_use_id) (typed "tool_result"))))
    end.

Definition tool_input_from_json (m : list (text * JsonValue)) : result CodecError string :=
  match get "input" m with
  | Some (JObject input) => Ok (utf8 (render (JObject input)))
  | _ => required_string m "input"
  end.

Definition block_from_json (v : JsonValue) : result CodecError ContentBlock :=
  m ← object_or "block must be an object" v;
  type ← ok_or (get "type" m ≫= as_string) (Format "missing block type");
  if String.eqb type "text" then text ← required_string m "text"; Ok (Text text)
  else if String.eqb type "image" then
    data ← required_string m "data"; mime_type ← required_string m "mime_type"; Ok (Image data mime_type)
  else if String.eqb type "thinking" then
    thinking ← required_string m "thinking"; Ok (Thinking thinking (get "signature" m ≫= as_string))
  else if String.eqb type "redacted_thinking" then data ← required_string m "data"; Ok (RedactedThinking data)
  else if String.eqb type "tool_use" then
    id ← required_string m "id"; name ← required_string m "name"; input ← tool_input_from_json m;
    Ok (ToolUse id name input (get "thought_signature" m ≫= as_string))
  else if String.eqb type "tool_result" then
    tool_use_id ← required_string m "tool_use_id"; tool_name ← required_string m "tool_name";
    output ← required_string m "output";
    is_error ← ok_or (get "is_error" m ≫= as_bool) (Format "missing is_error");
    Ok (ToolResult tool_use_id tool_name output is_error)
  else Err (Format ("unsupported block type: " ++ type)).

(** ** Identities *)

(** A map of strings as an object, and back; [None] when a value is not a string. *)
Definition map_to_json (m : gmap string string) : JsonValue :=
  JObject (foldr (fun e o => entries_insert (chars e.1) (jstr e.2) o) [] (map_to_list m)).

Fixpoint strings_of (l : list (text * JsonValue)) : option (gmap string string) :=
  match l with
  | [] => Some ∅
  | (k, v) :: l => s ← as_string v; m ← strings_of l; Some (<[utf8 k := s]> m)
  end.

Definition identity_to_json (i : MessageIdentity) : JsonValue :=
  JObject
    (insert_opt "tool_origins"
       (if bool_decide (identity_tool_origins i = ∅) then None else Some (map_to_json (identity_tool_origins i)))
    (insert "parent_id" (match identity_parent_id i with Some id => jstr id | None => JNull end)
    (insert "id" (jstr (identity_id i)) []))).

(** What serde derives for [MessageIdentity]: unknown fields are refused, a missing parent or
    map is its default; a sequence of the fields is accepted as well. *)
Definition parent_of_value (v : JsonValue) : option (option string) :=
  match v with JNull => Some None | JString t => Some (Some (utf8 t)) | _ => None end.

Definition origins_of_value (v : JsonValue) : option (gmap string string) := as_object v ≫= strings_of.

Definition identity_fields : list text := [txt "id"; txt "parent_id"; txt "tool_origins"].

Definition identity_of_value (v : JsonValue) : option MessageIdentity :=
  match v with
  | JObject m =>
      if forallb (fun e => bool_decide (e.1 ∈ identity_fields)) m then
        id ← get "id" m ≫= as_string;
        parent ← match get "parent_id" m with Some v => parent_of_value v | None => Some None end;
        origins ← match get "tool_origins" m with Some v => origins_of_value v | None => Some ∅ end;
        Some {| identity_id := id; identity_parent_id := parent; identity_tool_origins := origins |}
      else None
  | JArray (v :: p :: l) =>
      id ← as_string v; parent ← parent_of_value p;
      origins ← match l with [] => Some ∅ | [v] => origins_of_value v | _ => None end;
      Some {| identity_id := id; identity_parent_id := parent; identity_tool_origins := origins |}
  | _ => None
  end.

(** serde_json: the value a text denotes; what it says of a text it cannot read as an identity;
    a compaction report as text and back. *)
Class SerdeDerived := {
  read_value : text -> option JsonValue;
  identity_error : text -> string;
  report_to_string : CompactionReport -> result string text;
  report_from_str : text -> result string CompactionReport
}.

Context `{SD : SerdeDerived}.

Definition identity_from_json (v : JsonValue) : result CodecError MessageIdentity :=
  ok_or (read_value (render v) ≫= identity_of_value)
    (Format ("invalid message identity: " ++ identity_error (render v))).

(** ** Messages *)

Definition role_str (r : MessageRole) : string :=
  match r with RSystem => "system" | RUser => "user" | RAssistant => "assistant" | RTool => "tool" end.

Definition message_to_json (m : ConversationMessage) : JsonValue :=
  JObject
    (insert_opt "duration_ms" (jnum_saturating <$> duration_ms m)
    (insert_opt "model" (jstr <$> model m)
    (insert_opt "usage" (usage_to_json <$> usage m)
    (insert "blocks" (JArray (map block_to_json (blocks m)))
    (insert "role" (jstr (role_str (role m)))
    (insert_opt "history" (identity_to_json <$> history m) [])))))).

Definition role_from_str (s : string) : result CodecError MessageRole :=
  if String.eqb s "system" then Ok RSystem
  else if String.eqb s "user" then Ok RUser
  else if String.eqb s "assistant" then Ok RAssistant
  else if String.eqb s "tool" then Ok RTool
  else Err (Format ("unsupported message role: " ++ s)).

Definition message_from_json (v : JsonValue) : result CodecError ConversationMessage :=
  m ← object_or "message must be an object" v;
  role ← (s ← ok_or (get "role" m ≫= as_string) (Format "missing role"); role_from_str s);
  blocks ← (l ← ok_or (get "blocks" m ≫= as_array) (Format "missing blocks"); collect block_from_json l);
  usage ← optional usage_from_json "usage" m;
  let model := get "model" m ≫= as_string in
  let duration_ms := z ← get "duration_ms" m ≫= as_i64; unsigned u64_max z in
  history ← optional identity_from_json "history" m;
  Ok {| history := history; role := role; blocks := blocks; usage := usage; model := model; duration_ms := duration_ms |}.

Definition message_record (m : ConversationMessage) : list (text * JsonValue) :=
  insert "message" (message_to_json m) (typed "message").
End Codec.
