(* ===== verification/SessionRoundtrip.v ===== *)
(** * A message survives the session file (runtime/src/session.rs)

    The lemmas about objects of the session store that its codec theorems share, and the round
    trip of messages: what [ConversationMessage::to_json] renders is parsed, and read back as
    the message, with its tool inputs in the form the store gives them. *)
From S2P Require Import Prelude.
From stdpp Require Import list gmap strings sorting.
From S2P Require Import RustStr JsonText Utf8 Conversation CompactionScope ProviderStream SessionCodec.

(** ** Keys *)

Lemma txt_inj s s' : txt s = txt s' -> s = s'.
Proof.
  unfold txt. intros E. apply (f_equal (map ascii_of_N)) in E. rewrite !map_map in E.
  assert (K : forall l : list ascii, map (fun a => ascii_of_N (ch a)) l = l).
  { intros l. induction l as [|a l IH]; [done|]. cbn [map]. rewrite IH. unfold ch. by rewrite ascii_N_embedding. }
  rewrite !K in E. apply (f_equal string_of_list_ascii) in E. by rewrite !string_of_list_ascii_of_string in E.
Qed.

Lemma txt_scalars s : forallb (fun a => N_of_ascii a <? 128)%N (list_ascii_of_string s) = true -> scalars (txt s).
Proof.
  unfold scalars, txt. rewrite Forall_map, forallb_forall, Forall_forall. intros K a Ha.
  specialize (K a ltac:(by apply list_elem_of_In)). apply N.ltb_lt in K. unfold is_scalar, char_in, ch. cbn.
  apply orb_true_iff. left. apply N.ltb_lt. lia.
Qed.

Lemma text_lt_trans a b c : text_lt a b = true -> text_lt b c = true -> text_lt a c = true.
Proof.
  revert b c. induction a as [|x a IH]; intros [|y b] [|z c]; cbn; try done.
  rewrite !orb_true_iff, !andb_true_iff, !N.ltb_lt, !N.eqb_eq.
  intros [?|[-> ?]] [?|[-> ?]]; [left; lia|by left|by left|]. right. split; [done|]. by eapply IH.
Qed.

Lemma text_lt_total a b : text_lt a b = false -> a <> b -> text_lt b a = true.
Proof.
  revert b. induction a as [|x a IH]; intros [|y b]; cbn; try done.
  destruct (N.ltb_spec x y), (N.ltb_spec y x), (N.eqb_spec x y), (N.eqb_spec y x); cbn; try lia; try done.
  subst. intros E D. apply IH; congruence.
Qed.

Section Objects.
Context `{SN : SerdeNumber}.

Definition wf_entries (m : list (text * JsonValue)) : Prop :=
  Forall (fun e => scalars e.1 /\ well_formed e.2) m /\
  StronglySorted (fun a b => text_lt a b = true) (map fst m).

Lemma wf_entries_object m : wf_entries m -> well_formed (JObject m).
Proof. intros [F S]. by constructor. Qed.

Lemma entries_get_insert k k' v m :
  entries_get k (entries_insert k' v m) = if bool_decide (k = k') then Some v else entries_get k m.
Proof.
  induction m as [|[k1 v1] m IH]; cbn [entries_insert].
  { cbn. by case_bool_decide. }
  destruct (text_lt k' k1) eqn:L; [cbn; by case_bool_decide|].
  destruct (bool_decide_reflect (k' = k1)) as [->|Hne].
  { cbn. by repeat case_bool_decide. }
  cbn [entries_get]. rewrite IH. by repeat case_bool_decide; simplify_eq.
Qed.

Lemma get_insert key key' v m :
  get key (insert key' v m) = if String.eqb key key' then Some v else get key m.
Proof.
  unfold get, insert. rewrite entries_get_insert. destruct (String.eqb_spec key key') as [->|Hne].
  - by rewrite bool_decide_eq_true_2.
  - rewrite bool_decide_eq_false_2; [done|]. intros E. apply Hne. by apply txt_inj.
Qed.

Lemma get_insert_opt key key' v m :
  get key (insert_opt key' v m) = if String.eqb key key' then match v with Some v => Some v | None => get key m end else get key m.
Proof. destruct v as [v|]; cbn [insert_opt]; [apply get_insert|]. by destruct (String.eqb _ _). Qed.

Lemma get_nil key : get key [] = None.
Proof. done. Qed.

Lemma insert_keys k v (m : list (text * JsonValue)) e :
  e ∈ entries_insert k v m -> e = (k, v) \/ e ∈ m.
Proof.
  induction m as [|[k1 v1] m IH]; cbn [entries_insert].
  - rewrite elem_of_cons, elem_of_nil. naive_solver.
  - destruct (text_lt k k1); [|case_bool_decide]; rewrite !elem_of_cons; naive_solver.
Qed.

Lemma insert_sorted k v (m : list (text * JsonValue)) :
  StronglySorted (fun a b => text_lt a b = true) (map fst m) ->
  StronglySorted (fun a b => text_lt a b = true) (map fst (entries_insert k v m)).
Proof.
  induction m as [|[k1 v1] m IH]; intros S; cbn [entries_insert map].
  { repeat constructor. }
  cbn [map fst] in S. apply StronglySorted_inv in S as [S F].
  destruct (text_lt k k1) eqn:L.
  { cbn [map fst]. constructor; [by constructor|]. constructor; [done|].
    eapply Forall_impl; [exact F|]. intros x Hx. by eapply text_lt_trans. }
  case_bool_decide as E; cbn [map fst].
  { subst. by constructor. }
  constructor; [by apply IH|]. apply Forall_map, Forall_forall. intros e He.
  apply insert_keys in He as [->|He]; cbn [fst]; [apply text_lt_total; congruence|].
  rewrite Forall_map, Forall_forall in F. by apply F.
Qed.

Lemma wf_entries_insert k v m : scalars k -> well_formed v -> wf_entries m -> wf_entries (entries_insert k v m).
Proof.
  intros Hk Hv [F S]. split; [|by apply insert_sorted]. apply Forall_forall. intros e He.
  apply insert_keys in He as [->|He]; [done|]. rewrite Forall_forall in F. by apply F.
Qed.

Lemma wf_insert key v m :
  forallb (fun a => N_of_ascii a <? 128)%N (list_ascii_of_string key) = true ->
  well_formed v -> wf_entries m -> wf_entries (insert key v m).
Proof. intros Hk. apply wf_entries_insert. by apply txt_scalars. Qed.

Lemma wf_insert_opt key v m :
  forallb (fun a => N_of_ascii a <? 128)%N (list_ascii_of_string key) = true ->
  from_option well_formed True v -> wf_entries m -> wf_entries (insert_opt key v m).
Proof. destruct v; [apply wf_insert|done]. Qed.

Lemma wf_entries_nil : wf_entries [].
Proof. repeat constructor. Qed.

Lemma wf_jstr s : rust_string s -> well_formed (jstr s).
Proof. intros [_ K]. by constructor. Qed.

Lemma wf_jnum n : (n <= u64_max)%N -> (Z.of_N n <= i64_max)%Z -> well_formed (jnum n).
Proof. intros Hn Hz. constructor. unfold i64_range, i64_max in *. lia. Qed.

Lemma wf_jnum_u32 n : (n <= 4294967295)%N -> well_formed (jnum n).
Proof. intros Hn. constructor. unfold i64_range. lia. Qed.

Lemma wf_jnum_saturating n : well_formed (jnum_saturating n).
Proof. constructor. unfold i64_range, i64_max. lia. Qed.

(** ** What fields are read as *)

Lemma as_string_jstr s : rust_string s -> as_string (jstr s) = Some s.
Proof. intros R. unfold as_string, jstr. cbn. by rewrite utf8_chars. Qed.

Lemma required_string_spec m key s : get key m = Some (jstr s) -> rust_string s -> required_string m key = Ok s.
Proof. unfold required_string. intros -> R. cbn. by rewrite utf8_chars. Qed.

Lemma unsigned_of_N max n : (n <= max)%N -> unsigned max (Z.of_N n) = Some n.
Proof.
  intros Hn. unfold unsigned. destruct (Z.ltb_spec (Z.of_N n) 0); [lia|].
  destruct (Z.ltb_spec (Z.of_N max) (Z.of_N n)); [lia|]. cbn. by rewrite N2Z.id.
Qed.

Lemma required_u32_spec m key n : get key m = Some (jnum n) -> (n <= 4294967295)%N -> required_u32 m key = Ok n.
Proof. unfold required_u32. intros -> R. cbn. by rewrite unsigned_of_N. Qed.

Lemma optional_u64_spec m key n : get key m = Some (jnum n) -> (n <= u64_max)%N -> optional_u64 m key = Ok (Some n).
Proof. unfold optional_u64. intros -> R. cbn. by rewrite unsigned_of_N. Qed.

(** An optional text field is read as it was written. *)
Lemma optional_text (o : option string) :
  from_option rust_string True o -> (jstr <$> o) ≫= as_string = o.
Proof. destruct o as [s|]; cbn; [|done]. intros R. by rewrite utf8_chars. Qed.

Lemma collect_map {A B C} (f : A -> B) (g : B -> result CodecError C) (h : A -> C) l :
  Forall (fun a => g (f a) = Ok (h a)) l -> collect g (map f l) = Ok (map h l).
Proof. induction 1 as [|a l E _ IH]; cbn; [done|]. rewrite E. cbn. by rewrite IH. Qed.
End Objects.

(** Keys of literal fields are compared by evaluation; fields are found in the order they
    were inserted. *)
Ltac gets :=
  repeat (first [rewrite get_insert | rewrite get_insert_opt]; cbn [String.eqb Ascii.eqb Bool.eqb]);
  rewrite ?get_nil; cbn.

(** A constructed object is well formed when its fields are. *)
Ltac wf_steps :=
  repeat first [apply wf_insert_opt; [reflexivity| |] | apply wf_insert; [reflexivity| |] | apply wf_entries_nil].

Ltac wf_fields := apply wf_entries_object; wf_steps.

(** ** What is rendered is text *)

Section Rendered.
Context `{SN : SerdeNumber}.

(** Printable chars: none below the space. *)
Definition ok_char (c : char) : Prop := is_scalar c = true /\ (32 <= c)%N.
Definition shown (t : text) : Prop := Forall ok_char t.

Lemma shown_scalars t : shown t -> scalars t.
Proof. intros S. eapply Forall_impl; [exact S|]. by intros c []. Qed.

Lemma shown_app a b : shown (a ++ b) <-> shown a /\ shown b.
Proof. apply Forall_app. Qed.

Lemma shown_cons c t : ok_char c -> shown t -> shown (c :: t).
Proof. by constructor. Qed.

Lemma ascii_ok c : (32 <= c < 128)%N -> ok_char c.
Proof. intros Hc. split; [|lia]. unfold is_scalar. rewrite (proj2 (N.ltb_lt c 0xD800)); [done|lia]. Qed.

(** A literal of printable chars. *)
Definition ascii_text (t : text) : bool := forallb (fun c => (32 <=? c) && (c <? 128))%N t.

Lemma literal_shown t : ascii_text t = true -> shown t.
Proof.
  unfold ascii_text. intros K. apply Forall_forall. intros c Hc. rewrite forallb_forall in K.
  apply ascii_ok. specialize (K c ltac:(by apply list_elem_of_In)). apply andb_true_iff in K as [K1%N.leb_le K2%N.ltb_lt]. done.
Qed.

Lemma take_digits_shown t : shown (take_digits t).1.
Proof.
  induction t as [|c t IH]; cbn; [constructor|]. destruct (is_digit c) eqn:D; [|constructor].
  destruct (take_digits t) as [d r]. cbn in *. apply shown_cons; [|done]. apply ascii_ok.
  unfold is_digit, char_in in D. apply andb_true_iff in D as [D1%N.leb_le D2%N.leb_le]. lia.
Qed.

Lemma either_shown x y c : ok_char x -> ok_char y -> (c =? x)%N || (c =? y)%N = true -> ok_char c.
Proof. by intros Hx Hy [->%N.eqb_eq| ->%N.eqb_eq]%orb_true_iff. Qed.

Lemma skip_fraction_shown t : shown (skip_fraction t).1.
Proof.
  unfold skip_fraction. destruct (try_consume _ t) as [r|]; [|constructor].
  pose proof (take_digits_shown r). destruct (take_digits r). by apply shown_cons; [apply ascii_ok|].
Qed.

Lemma skip_sign_shown t : shown (skip_sign t).1.
Proof.
  unfold skip_sign. destruct t as [|c t]; [constructor|]. destruct (_ || _) eqn:E; [|constructor].
  apply shown_cons; [|constructor]. by eapply either_shown, E; apply ascii_ok.
Qed.

Lemma skip_exponent_shown t : shown (skip_exponent t).1.
Proof.
  unfold skip_exponent. destruct t as [|e r]; [constructor|]. destruct (_ || _) eqn:E; [|constructor].
  pose proof (skip_sign_shown r) as S. destruct (skip_sign r) as [sg r1].
  pose proof (take_digits_shown r1) as D. destruct (take_digits r1). cbn [fst] in *.
  apply shown_cons; [by eapply either_shown, E; apply ascii_ok|by apply shown_app].
Qed.

Lemma skip_tail_shown t : shown (skip_number_tail t).1.
Proof.
  unfold skip_number_tail. pose proof (skip_fraction_shown t) as F. destruct (skip_fraction t) as [f t1].
  pose proof (skip_exponent_shown t1) as E. destruct (skip_exponent t1). by apply shown_app.
Qed.

Lemma number_shown t : number_literal t -> shown t.
Proof.
  unfold number_literal. pose proof (skip_minus_split t) as E1.
  assert (M : shown (skip_minus t).1) by (unfold skip_minus; destruct (try_consume _ t); by apply literal_shown).
  destruct (skip_minus t) as [minus cs]. cbn [fst snd] in *. pose proof (take_digits_split cs) as E2.
  pose proof (take_digits_shown cs) as D. destruct (take_digits cs) as [digits r]. cbn [fst snd] in *. intros [_ E].
  pose proof (skip_number_tail_split r) as E3. rewrite E, app_nil_r in E3. subst t cs.
  apply shown_app. split; [done|]. apply shown_app. split; [done|]. rewrite <- E3. apply skip_tail_shown.
Qed.

Lemma show_digits_shown fuel n acc : shown acc -> shown (show_digits fuel n acc).
Proof.
  revert n acc. induction fuel as [|fuel IH]; intros n acc A; cbn; [done|].
  assert (K : shown ((48 + n mod 10)%N :: acc)).
  { apply shown_cons; [|done]. apply ascii_ok. pose proof (N.mod_lt n 10 ltac:(done)) as K. revert K.
    generalize (n mod 10)%N. lia. }
  destruct (n / 10 =? 0)%N; [done|]. by apply IH.
Qed.

Lemma hex_digit_shown n : (n < 16)%N -> ok_char (hex_digit n).
Proof. intros Hn. apply ascii_ok. unfold hex_digit. destruct (n <? 10)%N; lia. Qed.

Lemma nibble_small a : (N.land a 0xF < 16)%N.
Proof. change 0xF%N with (N.ones 4). rewrite N.land_ones. by apply N.mod_lt. Qed.

Lemma escape_shown c : shown (push_unicode_escape c).
Proof.
  unfold push_unicode_escape. apply shown_app. split; [by apply literal_shown|].
  unfold shown. rewrite Forall_map. apply Forall_forall. intros shift _. by apply hex_digit_shown, nibble_small.
Qed.

Lemma render_char_shown c : is_scalar c = true -> shown (render_char c).
Proof.
  intros Hc. unfold render_char.
  repeat (match goal with |- context [if (c =? ?x)%N then _ else _] => destruct (c =? x)%N end; [by apply literal_shown|]).
  destruct (is_control c) eqn:E; [apply escape_shown|]. apply shown_cons; [|constructor]. split; [done|].
  unfold is_control in E. apply orb_false_iff in E as [E%N.ltb_ge _]. done.
Qed.

Lemma render_string_shown s : scalars s -> shown (render_string s).
Proof.
  intros Hs. apply shown_cons; [by apply ascii_ok|]. apply shown_app. split; [|by apply literal_shown].
  induction Hs as [|c s Hc _ IH]; [constructor|]. apply shown_app. split; [by apply render_char_shown|done].
Qed.

Lemma join_comma_shown l : Forall shown l -> shown (join_comma l).
Proof.
  induction 1 as [|x l Hx Hl IH]; [constructor|]. cbn [join_comma]. destruct l as [|y l]; [done|].
  apply shown_app. split; [done|]. by apply shown_cons; [apply ascii_ok|].
Qed.

Lemma bracketed_shown (o c : char) t : ok_char o -> ok_char c -> shown t -> shown (o :: t ++ [c]).
Proof. intros Ho Hc Ht. apply shown_cons; [done|]. apply shown_app. split; [done|]. by apply shown_cons; [|constructor]. Qed.

Lemma render_shown v : well_formed v -> shown (render v).
Proof.
  induction v as [|b|z|n|s|vs IH|es IH] using JsonValue_nested_ind; intros W;
    inversion W as [| |? Hz|? L P I|? Hs|? Ha|? Ho Sd]; subst; cbn [render].
  - by apply literal_shown.
  - destruct b; by apply literal_shown.
  - unfold show_i64. destruct (_ <? _)%Z; [apply shown_cons; [by apply ascii_ok|]|]; by apply show_digits_shown; constructor.
  - by apply number_shown.
  - by apply render_string_shown.
  - apply bracketed_shown; [by apply ascii_ok..|]. apply join_comma_shown, Forall_map.
    rewrite Forall_forall in IH, Ha |- *. naive_solver.
  - apply bracketed_shown; [by apply ascii_ok..|]. apply join_comma_shown, Forall_map.
    rewrite Forall_forall in IH, Ho |- *. intros e He. destruct (Ho e He) as [Hk Hv]. apply shown_app.
    split; [by apply render_string_shown|]. apply shown_cons; [by apply ascii_ok|]. by apply IH.
Qed.

Lemma render_scalars v : well_formed v -> scalars (render v).
Proof. intros W. by apply shown_scalars, render_shown. Qed.
End Rendered.

(** ** Messages *)

(** serde_json reads the text of a well-formed value as that value. *)
Class SerdeDerivedLaws `{SerdeDerived} := {
  read_value_render v : well_formed v -> read_value (render v) = Some v
}.

Section Messages.
Context `{SN : SerdeNumber} `{SL : !SerdeNumberLaws} `{SD : !SerdeDerived} `{DL : !SerdeDerivedLaws}.

(** The messages of a running program: text is UTF-8 and counts fit their fields.  A tool input
    that is a JSON object is one the number library displays as it reads it. *)
Definition rust_option : option string -> Prop := from_option rust_string True.

Definition readable_input (input : string) : Prop :=
  forall m, parse_ok input = Some (JObject m) -> well_formed (JObject m).

Definition rust_block (b : ContentBlock) : Prop :=
  match b with
  | Text s => rust_string s
  | Image data mime_type => rust_string data /\ rust_string mime_type
  | Thinking thinking signature => rust_string thinking /\ rust_option signature
  | RedactedThinking data => rust_string data
  | ToolUse id name input signature =>
      rust_string id /\ rust_string name /\ rust_string input /\ rust_option signature /\ readable_input input
  | ToolResult tool_use_id tool_name output _ =>
      rust_string tool_use_id /\ rust_string tool_name /\ rust_string output
  end.

Definition u32 (n : N) : Prop := (n <= 4294967295)%N.
Definition u64 (n : N) : Prop := (n <= u64_max)%N.

Definition rust_usage (u : TokenUsage) : Prop :=
  from_option u32 True (reported_total_tokens u) /\ u32 (input_tokens u) /\ u32 (output_tokens u) /\
  u32 (cache_creation_input_tokens u) /\ u32 (cache_read_input_tokens u) /\ from_option u64 True (cost_units u).

Definition rust_map (m : gmap string string) : Prop := map_Forall (fun k v => rust_string k /\ rust_string v) m.

Definition rust_identity (i : MessageIdentity) : Prop :=
  rust_string (identity_id i) /\ rust_option (identity_parent_id i) /\ rust_map (identity_tool_origins i).

Definition rust_message (m : ConversationMessage) : Prop :=
  from_option rust_identity True (history m) /\ Forall rust_block (blocks m) /\
  from_option rust_usage True (usage m) /\ rust_option (model m) /\ from_option u64 True (duration_ms m).

(** The form in which the store keeps a message: tool inputs that are objects as the store
    renders them, amounts past [i64] saturated (a duration) or left out (a cost). *)
Definition canon_input (input : string) : string :=
  match parse_ok input with Some (JObject m) => utf8 (render (JObject m)) | _ => input end.

Definition canon_block (b : ContentBlock) : ContentBlock :=
  match b with ToolUse id name input signature => ToolUse id name (canon_input input) signature | _ => b end.

Definition canon_usage (u : TokenUsage) : TokenUsage :=
  {| reported_total_tokens := reported_total_tokens u; input_tokens := input_tokens u; output_tokens := output_tokens u;
     cache_creation_input_tokens := cache_creation_input_tokens u; cache_read_input_tokens := cache_read_input_tokens u;
     cost_units := n ← cost_units u; if (Z.of_N n <=? i64_max)%Z then Some n else None;
     cost_currency := cost_currency u |}.

Definition canon_message (m : ConversationMessage) : ConversationMessage :=
  {| history := history m; role := role m; blocks := map canon_block (blocks m); usage := canon_usage <$> usage m;
     model := model m; duration_ms := N.min (Z.to_N i64_max) <$> duration_ms m |}.

(** *** Usage *)

Lemma literal_rust s : is_utf8 s = true -> rust_string s.
Proof. apply is_utf8_spec. Qed.

Lemma usage_wf u : rust_usage u -> well_formed (usage_to_json u).
Proof.
  intros (Ht & Hi & Ho & Hc & Hr & Hu). unfold usage_to_json. wf_fields; try by apply wf_jnum_u32.
  - destruct (cost_currency u) as [[]|]; [|done]. by apply wf_jstr, literal_rust.
  - destruct (cost_units u) as [n|]; [|done]. cbn in *. destruct (Z.leb_spec (Z.of_N n) i64_max); [|done]. by apply wf_jnum.
  - destruct (reported_total_tokens u); [by apply wf_jnum_u32|done].
Qed.

Lemma usage_back u : rust_usage u -> usage_from_json (usage_to_json u) = Ok (canon_usage u).
Proof.
  intros (Ht & Hi & Ho & Hc & Hr & Hu). unfold usage_from_json, usage_to_json.
  cbn [object_or as_object ok_or mbind result_bind]. set (m := insert_opt "cost_currency" _ _).
  assert (E : match get "reported_total_tokens" m with
              | Some JNull | None => Ok None
              | Some _ => Some <$> required_u32 m "reported_total_tokens"
              end = Ok (reported_total_tokens u)).
  { unfold m. gets. destruct (reported_total_tokens u) as [n|] eqn:En; cbn; [|done].
    rewrite (required_u32_spec _ _ n); [done| |done]. by gets. }
  rewrite E. cbn [mbind result_bind].
  rewrite (required_u32_spec m "input_tokens" (input_tokens u)) by (first [done | unfold m; gets; done]).
  rewrite (required_u32_spec m "output_tokens" (output_tokens u)) by (first [done | unfold m; gets; done]).
  rewrite (required_u32_spec m "cache_creation_input_tokens" (cache_creation_input_tokens u)) by (first [done | unfold m; gets; done]).
  rewrite (required_u32_spec m "cache_read_input_tokens" (cache_read_input_tokens u)) by (first [done | unfold m; gets; done]).
  cbn [mbind result_bind].
  assert (Eu : optional_u64 m "cost_units" = Ok (cost_units (canon_usage u))).
  { unfold m, canon_usage. cbn [cost_units mbind option_bind]. clear E m. destruct (cost_units u) as [n|]; [|unfold optional_u64; by gets].
    cbn [mbind option_bind]. destruct (_ <=? _)%Z; [|unfold optional_u64; by gets].
    apply optional_u64_spec; [by gets|done]. }
  rewrite Eu. cbn [mbind result_bind].
  assert (Ec : optional_string m "cost_currency" =
    Ok (match cost_currency u with Some SudoPoint => Some "sudo_point" | None => None end)).
  { unfold optional_string, m. gets. by destruct (cost_currency u) as [[]|]. }
  rewrite Ec. cbn [mbind result_bind]. f_equal. unfold canon_usage. f_equal. by destruct (cost_currency u) as [[]|].
Qed.

(** *** Content blocks *)

Lemma parse_ok_render v : well_formed v -> parse_ok (utf8 (render v)) = Some v.
Proof.
  intros W. unfold parse_ok. rewrite chars_utf8 by (by apply render_scalars). by rewrite parse_of_render.
Qed.

Lemma input_cases input :
  (exists m, parse_ok input = Some (JObject m) /\ tool_input_to_json input = JObject m /\ canon_input input = utf8 (render (JObject m))) \/
  (tool_input_to_json input = jstr input /\ canon_input input = input).
Proof.
  unfold tool_input_to_json, canon_input. destruct (parse_ok input) as [[]|]; try (by right). left. by eexists.
Qed.

Lemma input_wf input : rust_string input -> readable_input input -> well_formed (tool_input_to_json input).
Proof. intros R A. destruct (input_cases input) as [(m & E & -> & _)|[-> _]]; [by apply A|by apply wf_jstr]. Qed.

Lemma input_back m input :
  get "input" m = Some (tool_input_to_json input) -> rust_string input ->
  tool_input_from_json m = Ok (canon_input input).
Proof.
  unfold tool_input_from_json. intros E R. destruct (input_cases input) as [(o & _ & Eo & ->)|[Eo ->]].
  - by rewrite E, Eo.
  - rewrite E, Eo. cbn [jstr]. apply required_string_spec; [|done]. by rewrite E, Eo.
Qed.

Lemma input_same input : readable_input input -> tool_input_to_json (canon_input input) = tool_input_to_json input.
Proof.
  intros A. destruct (input_cases input) as [(m & E & -> & ->)|[_ ->]]; [|done].
  unfold tool_input_to_json. by rewrite parse_ok_render by (by apply A).
Qed.

Lemma wf_text_option o : rust_option o -> from_option well_formed True (jstr <$> o).
Proof. destruct o; cbn; [apply wf_jstr|done]. Qed.

Lemma block_wf b : rust_block b -> well_formed (block_to_json b).
Proof.
  intros R. destruct b; cbn [rust_block] in R; unfold block_to_json; destruct_and?; wf_fields;
    first [by apply wf_text_option | by apply input_wf | by constructor | apply wf_jstr; by first [done | apply literal_rust]].
Qed.

(** The text of a field that was written as text. *)
Lemma text_back m key s : get key m = Some (jstr s) -> rust_string s -> get key m ≫= as_string = Some s.
Proof. intros -> R. cbn. by rewrite utf8_chars. Qed.

Lemma text_option_back m key o : get key m = (jstr <$> o) -> rust_option o -> get key m ≫= as_string = o.
Proof. intros -> R. by apply optional_text. Qed.

Lemma bind_text {A} m key (k : string -> result CodecError A) s :
  get key m = Some (jstr s) -> rust_string s -> (required_string m key ≫= k) = k s.
Proof. intros E R. by rewrite (required_string_spec _ _ _ E R). Qed.

Lemma block_back b : rust_block b -> block_from_json (block_to_json b) = Ok (canon_block b).
Proof.
  intros R. unfold block_from_json, block_to_json. cbn [object_or as_object ok_or mbind result_bind].
  destruct b as [s|data mime|th sig|data|id name input sig|id name output err]; cbn [rust_block] in R; destruct_and?;
    (match goal with |- context [get "type" ?o] => set (m := o) end);
    (erewrite (text_back m "type"); [|unfold m, typed; by gets|by apply literal_rust]); cbn [ok_or mbind result_bind String.eqb Ascii.eqb Bool.eqb];
    repeat (erewrite (bind_text m); [|unfold m, typed; by gets|done]).
  - done.
  - done.
  - rewrite (text_option_back m "signature" sig); [done|unfold m, typed; gets; by destruct sig|done].
  - done.
  - rewrite (input_back m input) by (first [done | unfold m, typed; gets; by destruct sig]).
    cbn [mbind result_bind].
    rewrite (text_option_back m "thought_signature" sig); [done|unfold m, typed; gets; by destruct sig|done].
  - unfold m, typed. gets. done.
Qed.

Lemma block_same b : rust_block b -> block_to_json (canon_block b) = block_to_json b.
Proof.
  destruct b; cbn [rust_block canon_block]; try done. intros R. destruct_and?. unfold block_to_json.
  by rewrite input_same.
Qed.

(** *** Identities *)

Lemma strings_of_insert k s o :
  rust_string k -> rust_string s ->
  Forall (fun e => scalars e.1 /\ e.1 <> chars k) o ->
  strings_of (entries_insert (chars k) (jstr s) o) = <[k := s]> <$> strings_of o.
Proof.
  intros Rk Rs. induction 1 as [|[k1 v1] o [Hk Hne] _ IH]; cbn [entries_insert].
  { cbn. by rewrite !utf8_chars. }
  cbn [fst] in *. assert (Hkey : utf8 k1 <> k).
  { intros <-. apply Hne. by rewrite chars_utf8. }
  destruct (text_lt _ _).
  - change (strings_of ((chars k, jstr s) :: ?l)) with (s ← as_string (jstr s); m ← strings_of l; Some (<[utf8 (chars k) := s]> m)).
    rewrite as_string_jstr by done. rewrite (utf8_chars k) by done. cbn [mbind option_bind].
    by destruct (strings_of _).
  - rewrite bool_decide_eq_false_2 by done. cbn [strings_of]. rewrite IH.
    destruct (as_string v1) as [s1|]; [|done]. cbn [mbind option_bind]. destruct (strings_of o) as [m|]; [|done].
    cbn. by rewrite insert_insert_ne.
Qed.

Lemma map_entries_spec (l : list (string * string)) :
  NoDup (l.*1) -> Forall (fun e => rust_string e.1 /\ rust_string e.2) l ->
  let o := foldr (fun e o => entries_insert (chars e.1) (jstr e.2) o) [] l in
  wf_entries o /\ Forall (fun e => e.1 ∈ chars <$> l.*1) o /\ strings_of o = Some (list_to_map l).
Proof.
  induction l as [|[k s] l IH]; intros N F; cbn [foldr list_to_map].
  { split_and!; [apply wf_entries_nil|constructor|done]. }
  apply NoDup_cons in N as [Nk N]. apply Forall_cons in F as [[Rk Rs] F]. cbn [fst snd] in *.
  destruct (IH N F) as (W & K & E). set (o := foldr _ _ _) in *. split_and!.
  - apply wf_entries_insert; [by apply chars_scalars|by apply wf_jstr|done].
  - apply Forall_forall. intros e He. apply insert_keys in He as [->|He]; [by left|].
    right. rewrite Forall_forall in K. by apply K.
  - rewrite strings_of_insert; [by rewrite E|done|done|].
    destruct W as [Fw _]. rewrite Forall_forall in Fw, K |- *. intros e He. split; [by apply Fw|].
    intros Ee. pose proof (K e He) as Ke. rewrite Ee in Ke. apply list_elem_of_fmap in Ke as (k' & Ek & Hk').
    apply chars_inj in Ek; [by subst|done|]. apply list_elem_of_fmap in Hk' as ([k1 s1] & -> & H1).
    rewrite Forall_forall in F. by apply (F _ H1).
Qed.

Lemma map_to_json_spec m :
  rust_map m -> exists o, map_to_json m = JObject o /\ wf_entries o /\ strings_of o = Some m.
Proof.
  intros R. destruct (map_entries_spec (map_to_list m)) as (W & _ & E).
  - apply NoDup_fst_map_to_list.
  - apply Forall_forall. intros [k v] Hm. apply elem_of_map_to_list in Hm. by apply (R k v).
  - eexists. split; [done|]. split; [done|]. by rewrite E, list_to_map_to_list.
Qed.

Lemma identity_wf i : rust_identity i -> well_formed (identity_to_json i).
Proof.
  intros (Ri & Rp & Rm). unfold identity_to_json. wf_fields.
  - case_bool_decide; [done|]. destruct (map_to_json_spec _ Rm) as (o & -> & W & _). by apply wf_entries_object.
  - destruct (identity_parent_id i); [by apply wf_jstr|constructor].
  - by apply wf_jstr.
Qed.

Lemma identity_keys i e :
  as_object (identity_to_json i) = Some e -> forallb (fun e => bool_decide (e.1 ∈ identity_fields)) e = true.
Proof.
  intros [= <-]. apply forallb_forall. intros x Hx%list_elem_of_In. apply bool_decide_eq_true_2.
  assert (K : forall k v (m : list (text * JsonValue)), x ∈ insert k v m -> x.1 = txt k \/ x ∈ m).
  { intros k v m [->|H]%insert_keys; [by left|by right]. }
  unfold identity_fields. case_bool_decide; cbn [insert_opt] in Hx;
    repeat (apply K in Hx as [->|Hx]; [by set_solver|]); by apply elem_of_nil in Hx.
Qed.

Lemma identity_value i : rust_identity i -> identity_of_value (identity_to_json i) = Some i.
Proof.
  intros (Ri & Rp & Rm). unfold identity_of_value. unfold identity_to_json at 1. cbn match.
  pose proof (identity_keys i _ eq_refl) as K. unfold identity_to_json in K. cbn [as_object] in K.
  match goal with |- context [get "id" ?o] => set (m := o) in * end. rewrite K.
  rewrite (text_back m "id" (identity_id i)) by (first [done | unfold m; by gets]). cbn [mbind option_bind].
  assert (Ep : get "parent_id" m = Some (match identity_parent_id i with Some id => jstr id | None => JNull end))
    by (unfold m; by gets).
  assert (Eo : get "tool_origins" m =
    if bool_decide (identity_tool_origins i = ∅) then None else Some (map_to_json (identity_tool_origins i)))
    by (unfold m; gets; by case_bool_decide).
  rewrite Ep, Eo. assert (parent_of_value match identity_parent_id i with Some id => jstr id | None => JNull end = Some (identity_parent_id i)) as ->.
  { destruct (identity_parent_id i) as [id|]; [|done]. cbn in *. by rewrite utf8_chars. }
  cbn [mbind option_bind]. destruct i as [id parent origins]. cbn [identity_tool_origins identity_id identity_parent_id] in *.
  case_bool_decide as D; [by rewrite D|]. destruct (map_to_json_spec _ Rm) as (o & -> & _ & Es).
  unfold origins_of_value. cbn [as_object mbind option_bind]. by rewrite Es.
Qed.

Lemma identity_back i : rust_identity i -> identity_from_json (identity_to_json i) = Ok i.
Proof.
  intros R. unfold identity_from_json. rewrite read_value_render by (by apply identity_wf). cbn [mbind option_bind].
  by rewrite identity_value.
Qed.

(** *** The message *)

Lemma role_back r : role_from_str (role_str r) = Ok r.
Proof. by destruct r. Qed.

Lemma role_rust r : rust_string (role_str r).
Proof. destruct r; by apply literal_rust. Qed.

Lemma wf_optional {A} (f : A -> JsonValue) (P : A -> Prop) o :
  (forall a, P a -> well_formed (f a)) -> from_option P True o -> from_option well_formed True (f <$> o).
Proof. destruct o; cbn; auto. Qed.

Lemma message_wf m : rust_message m -> well_formed (message_to_json m).
Proof.
  intros (Rh & Rb & Ru & Rm & Rd). unfold message_to_json. wf_fields.
  - eapply (wf_optional jnum_saturating); [intros ? _; apply wf_jnum_saturating|done].
  - by apply wf_text_option.
  - by eapply wf_optional; [apply usage_wf|].
  - constructor. apply Forall_map. eapply Forall_impl; [exact Rb|]. apply block_wf.
  - apply wf_jstr, role_rust.
  - by eapply wf_optional; [apply identity_wf|].
Qed.

(** An optional field that is written when there is one is read back. *)
Lemma optional_back {A} (f : A -> JsonValue) (g : JsonValue -> result CodecError A) (h : A -> A) key m o :
  get key m = (f <$> o) -> from_option (fun a => g (f a) = Ok (h a)) True o -> optional g key m = Ok (h <$> o).
Proof. unfold optional. intros ->. destruct o as [a|]; cbn; [|done]. by intros ->. Qed.

Lemma duration_back d :
  from_option u64 True d ->
  (z ← (jnum_saturating <$> d) ≫= as_i64; unsigned u64_max z) = (N.min (Z.to_N i64_max) <$> d).
Proof.
  destruct d as [n|]; cbn; [|done]. unfold u64. intros Hn. unfold unsigned, i64_max, u64_max in *.
  destruct (Z.ltb_spec (Z.min (Z.of_N n) 9223372036854775807) 0); [lia|].
  match goal with |- context [(?a <? ?b)%Z] => destruct (Z.ltb_spec a b) end; [lia|]. cbn. f_equal. lia.
Qed.

Lemma message_back m : rust_message m -> message_from_json (message_to_json m) = Ok (canon_message m).
Proof.
  intros (Rh & Rb & Ru & Rm & Rd). unfold message_from_json, message_to_json.
  cbn [object_or as_object ok_or mbind result_bind].
  match goal with |- context [get "role" ?o] => set (o' := o) end.
  rewrite (text_back o' "role" (role_str (role m))); [|by unfold o'; gets|apply role_rust].
  cbn [ok_or mbind result_bind]. rewrite role_back. cbn [mbind result_bind].
  assert (get "blocks" o' = Some (JArray (map block_to_json (blocks m)))) as -> by by unfold o'; gets.
  cbn [mbind option_bind as_array ok_or result_bind]. rewrite (collect_map _ _ canon_block); cycle 1.
  { eapply Forall_impl; [exact Rb|]. apply block_back. }
  cbn [mbind result_bind]. rewrite (optional_back usage_to_json _ canon_usage _ _ (usage m)); cycle 1.
  { unfold o'. gets. by destruct (usage m). }
  { destruct (usage m); cbn in *; [by apply usage_back|done]. }
  cbn [mbind result_bind]. rewrite (text_option_back _ _ (model m)); [|unfold o'; gets; by destruct (model m)|done].
  assert (get "duration_ms" o' = (jnum_saturating <$> duration_ms m)) as ->.
  { unfold o'. gets. by destruct (duration_ms m). }
  rewrite duration_back by done.
  rewrite (optional_back identity_to_json _ id _ _ (history m)); cycle 1.
  { unfold o'. gets. by destruct (history m). }
  { destruct (history m); cbn in *; [by apply identity_back|done]. }
  cbn [mbind result_bind]. rewrite option_fmap_id. done.
Qed.

Lemma usage_same u : usage_to_json (canon_usage u) = usage_to_json u.
Proof.
  unfold usage_to_json. do 3 f_equal. cbn. destruct (cost_units u) as [n|]; [|done]. cbn.
  destruct (Z.of_N n <=? i64_max)%Z eqn:E; [by rewrite E|done].
Qed.

(** The store does not tell a message from the form in which it keeps it. *)
Lemma message_same m : rust_message m -> message_to_json (canon_message m) = message_to_json m.
Proof.
  intros (Rh & Rb & Ru & Rm & Rd). unfold message_to_json. cbn [canon_message usage model duration_ms blocks role history].
  assert (map block_to_json (map canon_block (blocks m)) = map block_to_json (blocks m)) as ->.
  { rewrite map_map. apply map_ext_Forall. eapply Forall_impl; [exact Rb|]. apply block_same. }
  assert (usage_to_json <$> (canon_usage <$> usage m) = usage_to_json <$> usage m) as ->.
  { destruct (usage m); [|done]. cbn. by rewrite usage_same. }
  assert (jnum_saturating <$> (N.min (Z.to_N i64_max) <$> duration_ms m) = jnum_saturating <$> duration_ms m) as ->; [|done].
  destruct (duration_ms m) as [n|]; [|done]. cbn. unfold jnum_saturating, i64_max. do 2 f_equal. lia.
Qed.

(** A message survives the session file: the text the store writes for a message parses, and
    reads back as the message, its tool inputs in the store's form; writing that message again
    gives the same text. *)
Theorem message_survives_the_file m :
  rust_message m ->
  exists v, parse (render (message_to_json m)) = Ret (Ok v) /\ message_from_json v = Ok (canon_message m) /\
            render (message_to_json (canon_message m)) = render (message_to_json m).
Proof.
  intros R. exists (message_to_json m). split_and!; [by apply parse_of_render, message_wf|by apply message_back|].
  by rewrite message_same.
Qed.
End Messages.
