(* ===== verification/SessionRecord.v ===== *)
(** * A session's record (runtime/src/session.rs, prompt.rs)

    The state of a session and its metadata as the store's JSON: prompts, compactions, forks,
    hosted identities and maintenance receipts, [Session::to_json], [Session::from_json] and
    the checkpoint a session writes. *)
From S2P Require Import Prelude.
From stdpp Require Import list gmap strings.
From S2P Require Import RustStr JsonText Utf8 Conversation CompactionScope UsageAccounting SessionCodec.

(** ** The parts of a session *)

Record SessionCompaction := {
  sk_count : N;
  sk_removed_message_count : N;
  sk_summary : string;
  sk_usage : option TokenUsage;
  (** a [BTreeSet], in its order *)
  sk_pre_compact_discovered_tools : list string
}.

Record SessionFork := { sf_parent_session_id : string; sf_branch_name : option string }.

Record SessionPromptEntry := { pe_timestamp_ms : N; pe_text : string }.

Inductive SessionMode := Interactive | NonInteractive.

#[export] Instance SessionMode_eq_dec : EqDecision SessionMode.
Proof. solve_decision. Defined.

Record HostedSessionIdentity := {
  hi_agent_name : string;
  hi_owner_id : string;
  hi_zone_id : string;
  hi_repos : gmap string string
}.

Record CompactionAchievement := {
  ca_fingerprint : string;
  ca_before_history : N;
  ca_target_history : N;
  ca_after_history : N;
  ca_policy_version : string
}.

(** [SystemPrompt] (runtime/src/prompt.rs), without the cache of its rendering. *)
Record SystemPrompt := {
  static_sections : list string;
  dynamic_sections : list string;
  builtin_static_sections : N;
  explicit_override : bool
}.

Record SessionPromptSnapshot := {
  sn_prompt : SystemPrompt;
  sn_workspace_root : string;
  sn_agent_name : string;
  sn_memory_enabled : bool
}.

(** A session without its writer; paths are their bytes. *)
Record Session := {
  ss_version : N;
  ss_session_id : string;
  ss_created_at_ms : N;
  ss_updated_at_ms : N;
  ss_messages : list ConversationMessage;
  ss_compaction : option SessionCompaction;
  ss_maintenance_usage : list MaintenanceUsageReceipt;
  ss_compaction_achievement : option CompactionAchievement;
  ss_last_compaction_report : option CompactionReport;
  ss_fork : option SessionFork;
  ss_workspace_root : option string;
  ss_identity : option HostedSessionIdentity;
  ss_prompt_history : list SessionPromptEntry;
  ss_last_health_check_ms : option N;
  ss_model : option string;
  ss_mode : SessionMode;
  ss_prompt_snapshot : option SessionPromptSnapshot;
  ss_prompt_snapshot_dirty : bool;
  ss_pending_tool_repairs : N;
  ss_restored_history_head : option string;
  ss_view_revision : N
}.

(** [BTreeSet::insert], in byte order. *)
Fixpoint set_insert (x : string) (l : list string) : list string :=
  match l with
  | [] => [x]
  | y :: r =>
      if text_lt (txt x) (txt y) then x :: l
      else if String.eqb x y then l
      else y :: set_insert x r
  end.

Definition collect_set (l : list string) : list string := fold_left (fun s x => set_insert x s) l [].

(** What std prints in error texts: [Path::display] of a path that is not text, and [{:?}] of an
    optional text. *)
Class StdFormat := { path_display : string -> string; debug_option : option string -> string }.

Section Record.
Context `{SN : SerdeNumber} `{SD : !SerdeDerived} `{SF : StdFormat}.

(** [JsonValue::parse(..)?]; the parser always answers ([JsonText.parse_total]). *)
Definition parse_json (t : text) : result CodecError JsonValue :=
  match parse t with
  | Ret (Ok v) => Ok v
  | Ret (Err message) => Err (Json message)
  | _ => Err (Json [])
  end.

(** [BTreeMap::remove] *)
Definition remove (key : string) (m : list (text * JsonValue)) : list (text * JsonValue) :=
  filter (fun e => e.1 <> txt key) m.

Definition strings (l : list string) : JsonValue := JArray (map jstr l).

(** A list in a field that is left out when it is empty. *)
Definition list_field {A} (f : A -> JsonValue) (l : list A) : option JsonValue :=
  match l with [] => None | _ => Some (JArray (map f l)) end.

(** ** Prompts *)

Definition SystemPrompt_to_json (p : SystemPrompt) : JsonValue :=
  JObject
    (insert "builtin_count" (jnum_saturating (builtin_static_sections p))
    (insert "dynamic" (strings (dynamic_sections p))
    (insert "static" (strings (static_sections p))
    (insert "explicit_override" (JBool (explicit_override p)) [])))).

Definition section_texts (m : list (text * JsonValue)) (key : string) : result CodecError (list string) :=
  l ← ok_or (get key m ≫= as_array) (Json (txt ("system prompt missing " ++ key)));
  collect (fun v => ok_or (as_string v) (Json (txt "system prompt section must be text"))) l.

Definition SystemPrompt_from_json (v : JsonValue) : result CodecError SystemPrompt :=
  m ← ok_or (as_object v) (Json (txt "system prompt must be an object"));
  static ← section_texts m "static";
  dynamic ← section_texts m "dynamic";
  builtin ← ok_or (z ← get "builtin_count" m ≫= as_i64; n ← unsigned u64_max z;
                   if (n <=? N.of_nat (length static))%N then Some n else None)
              (Json (txt "invalid system prompt builtin_count"));
  Ok {| static_sections := static; dynamic_sections := dynamic; builtin_static_sections := builtin;
        explicit_override := default false (get "explicit_override" m ≫= as_bool) |}.

Definition SessionPromptSnapshot_to_json (s : SessionPromptSnapshot) : JsonValue :=
  JObject
    (insert "memory_enabled" (JBool (sn_memory_enabled s))
    (insert "agent_name" (jstr (sn_agent_name s))
    (insert "workspace_root" (jstr (sn_workspace_root s))
    (insert "prompt" (SystemPrompt_to_json (sn_prompt s)) [])))).

Definition snapshot_text (m : list (text * JsonValue)) (key : string) : result CodecError string :=
  ok_or (get key m ≫= as_string) (Json (txt ("prompt snapshot missing " ++ key))).

Definition SessionPromptSnapshot_from_json (v : JsonValue) : result CodecError SessionPromptSnapshot :=
  m ← ok_or (as_object v) (Json (txt "prompt snapshot must be an object"));
  prompt ← ok_or (get "prompt" m) (Json (txt "prompt snapshot missing prompt"));
  memory_enabled ← ok_or (get "memory_enabled" m ≫= as_bool) (Json (txt "prompt snapshot missing memory mode"));
  prompt ← SystemPrompt_from_json prompt;
  workspace_root ← snapshot_text m "workspace_root";
  agent_name ← snapshot_text m "agent_name";
  Ok {| sn_prompt := prompt; sn_workspace_root := workspace_root; sn_agent_name := agent_name;
        sn_memory_enabled := memory_enabled |}.

(** ** Compactions *)

Definition compaction_fields (c : SessionCompaction) (m : list (text * JsonValue)) :
  result CodecError (list (text * JsonValue)) :=
  removed ← i64_from_u64 (sk_removed_message_count c) "removed_message_count";
  Ok (insert_opt "pre_compact_discovered_tools"
        (list_field jstr (sk_pre_compact_discovered_tools c))
     (insert_opt "usage" (usage_to_json <$> sk_usage c)
     (insert "summary" (jstr (sk_summary c))
     (insert "removed_message_count" removed
     (insert "count" (jnum (sk_count c)) m))))).

Definition SessionCompaction_to_json (c : SessionCompaction) : result CodecError JsonValue :=
  JObject <$> compaction_fields c [].

Definition to_jsonl_record (c : SessionCompaction) : result CodecError JsonValue :=
  JObject <$> compaction_fields c (typed "compaction").

Definition SessionCompaction_from_json (v : JsonValue) : result CodecError SessionCompaction :=
  m ← object_or "compaction must be an object" v;
  let tools := match get "pre_compact_discovered_tools" m ≫= as_array with
               | Some l => collect_set (omap as_string l)
               | None => []
               end in
  count ← required_u32 m "count";
  removed ← required_usize m "removed_message_count";
  summary ← required_string m "summary";
  usage ← optional usage_from_json "usage" m;
  Ok {| sk_count := count; sk_removed_message_count := removed; sk_summary := summary; sk_usage := usage;
        sk_pre_compact_discovered_tools := tools |}.

(** ** Forks, prompt entries, modes, identities *)

Definition SessionFork_to_json (f : SessionFork) : JsonValue :=
  JObject
    (insert_opt "branch_name" (jstr <$> sf_branch_name f)
    (insert "parent_session_id" (jstr (sf_parent_session_id f)) [])).

Definition SessionFork_from_json (v : JsonValue) : result CodecError SessionFork :=
  m ← object_or "fork metadata must be an object" v;
  parent ← required_string m "parent_session_id";
  Ok {| sf_parent_session_id := parent; sf_branch_name := get "branch_name" m ≫= as_string |}.

Definition SessionPromptEntry_to_jsonl_record (e : SessionPromptEntry) : JsonValue :=
  JObject
    (insert "text" (jstr (pe_text e))
    (insert "timestamp_ms" (jnum_saturating (pe_timestamp_ms e)) (typed "prompt_history"))).

Definition SessionPromptEntry_from_json_opt (v : JsonValue) : option SessionPromptEntry :=
  m ← as_object v;
  timestamp_ms ← (z ← get "timestamp_ms" m ≫= as_i64; unsigned u64_max z);
  text ← get "text" m ≫= as_string;
  Some {| pe_timestamp_ms := timestamp_ms; pe_text := text |}.

Definition SessionMode_as_str (m : SessionMode) : string :=
  match m with Interactive => "interactive" | NonInteractive => "non_interactive" end.

Definition SessionMode_from_str (s : string) : option SessionMode :=
  if String.eqb s "interactive" then Some Interactive
  else if String.eqb s "non_interactive" then Some NonInteractive
  else None.

Definition HostedSessionIdentity_to_json (i : HostedSessionIdentity) : JsonValue :=
  JObject
    (insert "repos" (map_to_json (hi_repos i))
    (insert "zone_id" (jstr (hi_zone_id i))
    (insert "owner_id" (jstr (hi_owner_id i))
    (insert "agent_name" (jstr (hi_agent_name i)) [])))).

Definition HostedSessionIdentity_from_json (v : JsonValue) : result CodecError HostedSessionIdentity :=
  m ← object_or "session identity must be an object" v;
  l ← ok_or (get "repos" m ≫= as_object) (Format "session identity is missing repos");
  repos ← ok_or (strings_of l) (Format "session repo must be a path string");
  agent_name ← required_string m "agent_name";
  owner_id ← required_string m "owner_id";
  zone_id ← required_string m "zone_id";
  Ok {| hi_agent_name := agent_name; hi_owner_id := owner_id; hi_zone_id := zone_id; hi_repos := repos |}.

(** ** Maintenance *)

Definition MaintenanceUsageReceipt_to_json (r : MaintenanceUsageReceipt) : JsonValue :=
  JObject
    (insert_opt "usage" (usage_to_json <$> rc_usage r)
    (insert "attempt_id" (jnum (rc_attempt_id r))
    (insert "run_id" (jstr (rc_run_id r)) []))).

Definition MaintenanceUsageReceipt_from_json (v : JsonValue) : result CodecError MaintenanceUsageReceipt :=
  m ← object_or "maintenance receipt must be an object" v;
  run_id ← required_string m "run_id";
  attempt_id ← required_u32 m "attempt_id";
  usage ← optional usage_from_json "usage" m;
  Ok {| rc_run_id := run_id; rc_attempt_id := attempt_id; rc_usage := usage |}.

Definition maintenance_usage_from_json (m : list (text * JsonValue)) : result CodecError (list MaintenanceUsageReceipt) :=
  match get "maintenance_usage" m with
  | Some v => l ← ok_or (as_array v) (Format "maintenance_usage must be an array");
              collect MaintenanceUsageReceipt_from_json l
  | None => Ok []
  end.

(** A count of tokens, refused past [i64]. *)
Definition history_count (key : string) (n : N) : result CodecError JsonValue :=
  if (Z.of_N n <=? i64_max)%Z then Ok (jnum n) else Err (Format (key ++ " overflow")).

Definition CompactionAchievement_to_json (a : CompactionAchievement) : result CodecError JsonValue :=
  before ← history_count "before_history" (ca_before_history a);
  target ← history_count "target_history" (ca_target_history a);
  after ← history_count "after_history" (ca_after_history a);
  Ok (JObject
    (insert "policy_version" (jstr (ca_policy_version a))
    (insert "after_history" after
    (insert "target_history" target
    (insert "before_history" before
    (insert "fingerprint" (jstr (ca_fingerprint a)) [])))))).

Definition CompactionAchievement_from_json (v : JsonValue) : result CodecError CompactionAchievement :=
  m ← object_or "compaction achievement must be an object" v;
  fingerprint ← required_string m "fingerprint";
  before ← required_u64 m "before_history";
  target ← required_u64 m "target_history";
  after ← required_u64 m "after_history";
  policy ← required_string m "policy_version";
  Ok {| ca_fingerprint := fingerprint; ca_before_history := before; ca_target_history := target;
        ca_after_history := after; ca_policy_version := policy |}.

Definition compaction_report_from_json (m : list (text * JsonValue)) : result CodecError (option CompactionReport) :=
  optional (fun v => match report_from_str (render v) with Ok r => Ok r | Err e => Err (Format e) end)
    "last_compaction_report" m.

Definition report_to_json (r : CompactionReport) : result CodecError JsonValue :=
  match report_to_string r with Ok t => parse_json t | Err e => Err (Format e) end.

(** An optional field whose rendering can fail. *)
Definition insert_result {A} (f : A -> result CodecError JsonValue) (key : string) (o : option A) (m : list (text * JsonValue)) :
  result CodecError (list (text * JsonValue)) :=
  match o with Some a => v ← f a; Ok (insert key v m) | None => Ok m end.

Definition insert_maintenance_metadata (s : Session) (m : list (text * JsonValue)) :
  result CodecError (list (text * JsonValue)) :=
  let m := insert_opt "maintenance_usage"
             (list_field MaintenanceUsageReceipt_to_json (ss_maintenance_usage s)) m in
  m ← insert_result CompactionAchievement_to_json "compaction_achievement" (ss_compaction_achievement s) m;
  insert_result report_to_json "last_compaction_report" (ss_last_compaction_report s) m.

(** ** The session *)

Definition workspace_root_to_string (path : string) : result CodecError JsonValue :=
  if is_utf8 path then Ok (jstr path) else Err (Format ("workspace_root is not valid UTF-8: " ++ path_display path)).

Definition meta_record (s : Session) : result CodecError (list (text * JsonValue)) :=
  created ← i64_from_u64 (ss_created_at_ms s) "created_at_ms";
  updated ← i64_from_u64 (ss_updated_at_ms s) "updated_at_ms";
  let m := insert_opt "identity" (HostedSessionIdentity_to_json <$> ss_identity s)
          (insert_opt "prompt_snapshot" (SessionPromptSnapshot_to_json <$> ss_prompt_snapshot s)
          (insert_opt "fork" (SessionFork_to_json <$> ss_fork s)
          (insert "updated_at_ms" updated
          (insert "created_at_ms" created
          (insert "session_id" (jstr (ss_session_id s))
          (insert "version" (jnum (ss_version s)) (typed "session_meta"))))))) in
  m ← insert_result workspace_root_to_string "workspace_root" (ss_workspace_root s) m;
  insert_maintenance_metadata s
    (insert_opt "mode" (if bool_decide (ss_mode s = Interactive) then None else Some (jstr (SessionMode_as_str (ss_mode s))))
    (insert_opt "model" (jstr <$> ss_model s) m)).

Definition context_metadata (s : Session) : result CodecError (list (text * JsonValue)) :=
  m ← meta_record s;
  m ← insert_result SessionCompaction_to_json "compaction" (ss_compaction s) (remove "type" m);
  Ok (insert_opt "prompt_history"
        (list_field SessionPromptEntry_to_jsonl_record (ss_prompt_history s)) m).

Definition to_json (s : Session) : result CodecError JsonValue :=
  m ← context_metadata s;
  Ok (JObject (insert "messages" (JArray (map message_to_json (ss_messages s))) m)).

(** [now] is the clock and [fresh_id] a new session id, for a record without them. *)
Definition from_json (now : N) (fresh_id : string) (v : JsonValue) : result CodecError Session :=
  m ← object_or "session must be an object" v;
  z ← ok_or (get "version" m ≫= as_i64) (Format "missing version");
  version ← ok_or (unsigned 4294967295 z) (Format "version out of range");
  l ← ok_or (get "messages" m ≫= as_array) (Format "missing messages");
  messages ← collect message_from_json l;
  let session_id := default fresh_id (get "session_id" m ≫= as_string) in
  created ← optional (fun v => required_u64_from_value v "created_at_ms") "created_at_ms" m;
  let created := default now created in
  updated ← optional (fun v => required_u64_from_value v "updated_at_ms") "updated_at_ms" m;
  let updated := default created updated in
  compaction ← optional SessionCompaction_from_json "compaction" m;
  maintenance ← maintenance_usage_from_json m;
  achievement ← optional CompactionAchievement_from_json "compaction_achievement" m;
  report ← compaction_report_from_json m;
  fork ← optional SessionFork_from_json "fork" m;
  identity ← optional HostedSessionIdentity_from_json "identity" m;
  let workspace_root := get "workspace_root" m ≫= as_string in
  let prompts := match get "prompt_history" m ≫= as_array with
                 | Some l => omap SessionPromptEntry_from_json_opt l
                 | None => []
                 end in
  snapshot ← optional SessionPromptSnapshot_from_json "prompt_snapshot" m;
  let model := get "model" m ≫= as_string in
  let mode := default Interactive ((get "mode" m ≫= as_string) ≫= SessionMode_from_str) in
  Ok {| ss_version := version; ss_session_id := session_id; ss_created_at_ms := created; ss_updated_at_ms := updated;
        ss_messages := messages; ss_compaction := compaction; ss_maintenance_usage := maintenance;
        ss_compaction_achievement := achievement; ss_last_compaction_report := report; ss_fork := fork;
        ss_workspace_root := workspace_root; ss_identity := identity; ss_prompt_history := prompts;
        ss_last_health_check_ms := None; ss_model := model; ss_mode := mode; ss_prompt_snapshot := snapshot;
        ss_prompt_snapshot_dirty := false; ss_pending_tool_repairs := 0; ss_restored_history_head := None;
        ss_view_revision := 0 |}.
End Record.
