(* ===== verification/SessionRecordSafety.v ===== *)
(** * A session's record is read back

    What [SessionRecord] writes of a session is a well-formed value, and reading it gives the
    session again, its messages and amounts in the store's form. *)
From S2P Require Import Prelude.
From stdpp Require Import list gmap strings sorting.
From S2P Require Import RustStr JsonText Utf8 Conversation CompactionScope UsageAccounting SessionCodec SessionRoundtrip SessionRecord.

(** ** Sets of text *)

Definition str_lt (x y : string) : Prop := text_lt (txt x) (txt y) = true.

Lemma set_insert_last x l : Forall (fun y => str_lt y x) l -> set_insert x l = l ++ [x].
Proof.
  induction 1 as [|y l Hy _ IH]; cbn; [done|]. rewrite (text_lt_asym _ _ Hy).
  destruct (String.eqb_spec x y) as [->|_]; [|by rewrite IH].
  unfold str_lt in Hy. by rewrite text_lt_irrefl in Hy.
Qed.

Lemma fold_set_sorted l l' :
  StronglySorted str_lt (l ++ l') -> fold_left (fun s x => set_insert x s) l' l = l ++ l'.
Proof.
  revert l. induction l' as [|x l' IH]; intros l S; cbn [fold_left]; [by rewrite app_nil_r|].
  rewrite set_insert_last.
  - rewrite IH by (by rewrite <- app_assoc). by rewrite <- app_assoc.
  - apply StronglySorted_app in S as (K & _ & _). apply Forall_forall. intros y Hy. apply K; [done|left].
Qed.

Lemma collect_set_sorted l : StronglySorted str_lt l -> collect_set l = l.
Proof. apply (fold_set_sorted []). Qed.

Section Record.
Context `{SN : SerdeNumber} `{SL : !SerdeNumberLaws} `{SD : !SerdeDerived} `{DL : !SerdeDerivedLaws} `{SF : StdFormat}.

Lemma get_remove key key' m : get key (remove key' m) = if String.eqb key key' then None else get key m.
Proof.
  unfold get, remove. induction m as [|[k v] m IH]; [by destruct (String.eqb _ _)|].
  rewrite filter_cons. cbn [fst]. destruct (decide (k <> txt key')) as [Hne|Heq].
  - cbn [entries_get]. case_bool_decide as E; [|done]. destruct (String.eqb_spec key key') as [->|_]; [congruence|done].
  - rewrite IH. apply dec_stable in Heq. destruct (String.eqb_spec key key') as [->|Hd]; [done|].
    cbn [entries_get]. case_bool_decide as E; [|done]. destruct Hd. apply txt_inj. congruence.
Qed.

Lemma sorted_filter (P : text * JsonValue -> Prop) `{!forall e, Decision (P e)} m :
  StronglySorted (fun a b => text_lt a b = true) (map fst m) ->
  StronglySorted (fun a b => text_lt a b = true) (map fst (filter P m)).
Proof.
  induction m as [|e m IH]; intros S; [done|]. cbn [map] in S. apply StronglySorted_inv in S as [S F].
  rewrite filter_cons. destruct (decide (P e)); [|by apply IH]. cbn [map]. constructor; [by apply IH|].
  rewrite Forall_map, Forall_forall in F |- *. intros x [_ Hx]%list_elem_of_filter. by apply F.
Qed.

Lemma wf_remove key m : wf_entries m -> wf_entries (remove key m).
Proof.
  intros [F S]. split; [|by apply sorted_filter]. apply Forall_forall. intros e [_ He]%list_elem_of_filter.
  rewrite Forall_forall in F. by apply F.
Qed.

(** ** Codecs *)

(** [f] writes what satisfies [P] as a well-formed value that [g] reads back in the form [h]. *)
Definition coded {A} (P : A -> Prop) (f : A -> result CodecError JsonValue) (g : JsonValue -> result CodecError A)
  (h : A -> A) : Prop :=
  forall a, P a -> exists v, f a = Ok v /\ well_formed v /\ g v = Ok (h a).

Definition pure {A} (f : A -> JsonValue) (a : A) : result CodecError JsonValue := Ok (f a).

Definition written {A} (f : A -> result CodecError JsonValue) (a : A) : JsonValue :=
  match f a with Ok v => v | Err _ => JNull end.

Lemma insert_result_ok {A} P (f : A -> result CodecError JsonValue) g h key o m :
  coded P f g h -> from_option P True o -> insert_result f key o m = Ok (insert_opt key (written f <$> o) m).
Proof.
  intros C Ho. destruct o as [a|]; [|done]. destruct (C a Ho) as (v & E & _). cbn. unfold written. by rewrite E.
Qed.

Lemma written_wf {A} P (f : A -> result CodecError JsonValue) g h o :
  coded P f g h -> from_option P True o -> from_option well_formed True (written f <$> o).
Proof.
  intros C Ho. destruct o as [a|]; [|done]. destruct (C a Ho) as (v & E & W & _). cbn. unfold written. by rewrite E.
Qed.

Lemma written_back {A} P (f : A -> result CodecError JsonValue) g h key m o :
  coded P f g h -> from_option P True o -> get key m = (written f <$> o) -> optional g key m = Ok (h <$> o).
Proof.
  intros C Ho E. eapply optional_back; [exact E|]. destruct o as [a|]; [|done]. cbn.
  destruct (C a Ho) as (v & Ev & _ & B). unfold written. by rewrite Ev.
Qed.

(** A list in a field that is left out when it is empty. *)
Lemma coded_list {A} P (f : A -> JsonValue) g h l :
  coded P (pure f) g h -> Forall P l ->
  Forall well_formed (map f l) /\ collect g (map f l) = Ok (map h l).
Proof.
  intros C F. split.
  - apply Forall_map. eapply Forall_impl; [exact F|]. intros a Ha. by destruct (C a Ha) as (v & [= <-] & W & _).
  - apply collect_map. eapply Forall_impl; [exact F|]. intros a Ha. by destruct (C a Ha) as (v & [= <-] & _ & B).
Qed.

Lemma pure_wf {A} P (f : A -> JsonValue) g h a : coded P (pure f) g h -> P a -> well_formed (f a).
Proof. intros C Ha. by destruct (C a Ha) as (v & [= <-] & W & _). Qed.

Lemma pure_wf_option {A} P (f : A -> JsonValue) g h o :
  coded P (pure f) g h -> from_option P True o -> from_option well_formed True (f <$> o).
Proof. intros C Ho. destruct o as [a|]; [|done]. by eapply pure_wf. Qed.

Lemma pure_back {A} P (f : A -> JsonValue) g h key m o :
  coded P (pure f) g h -> from_option P True o -> get key m = (f <$> o) -> optional g key m = Ok (h <$> o).
Proof.
  intros C Ho E. eapply optional_back; [exact E|]. destruct o as [a|]; [|done]. cbn.
  by destruct (C a Ho) as (v & [= <-] & _ & B).
Qed.

Lemma usage_coded : coded rust_usage (pure usage_to_json) usage_from_json canon_usage.
Proof. intros u R. eexists. split; [done|]. split; [by apply usage_wf|by apply usage_back]. Qed.

Lemma message_coded : coded rust_message (pure message_to_json) message_from_json canon_message.
Proof. intros u R. eexists. split; [done|]. split; [by apply message_wf|by apply message_back]. Qed.

(** ** Prompts *)

Definition rust_prompt (p : SystemPrompt) : Prop :=
  Forall rust_string (static_sections p) /\ Forall rust_string (dynamic_sections p) /\
  (builtin_static_sections p <= N.of_nat (length (static_sections p)))%N /\
  (Z.of_N (builtin_static_sections p) <= i64_max)%Z.

Definition rust_snapshot (s : SessionPromptSnapshot) : Prop :=
  rust_prompt (sn_prompt s) /\ rust_string (sn_workspace_root s) /\ rust_string (sn_agent_name s).

Lemma strings_wf l : Forall rust_string l -> well_formed (strings l).
Proof. intros F. constructor. apply Forall_map. eapply Forall_impl; [exact F|]. apply wf_jstr. Qed.

Lemma strings_back l (e : CodecError) :
  Forall rust_string l -> collect (fun v => ok_or (as_string v) e) (map jstr l) = Ok l.
Proof.
  intros F. rewrite (collect_map _ _ id), map_id; [done|]. eapply Forall_impl; [exact F|].
  intros s R. by rewrite as_string_jstr.
Qed.

Lemma prompt_coded : coded rust_prompt (pure SystemPrompt_to_json) SystemPrompt_from_json id.
Proof.
  intros p (Rs & Rd & Rb & Rz). eexists. split; [done|]. unfold SystemPrompt_to_json. split.
  - wf_fields; try by apply strings_wf. apply wf_jnum_saturating. constructor.
  - unfold SystemPrompt_from_json, section_texts. cbn [as_object ok_or mbind result_bind].
    match goal with |- context [get "static" ?o] => set (m := o) end.
    assert (get "static" m = Some (strings (static_sections p))) as -> by by unfold m; gets.
    assert (get "dynamic" m = Some (strings (dynamic_sections p))) as -> by by unfold m; gets.
    cbn [mbind option_bind strings as_array ok_or result_bind]. rewrite !strings_back by done. cbn [mbind result_bind].
    assert (get "builtin_count" m = Some (jnum_saturating (builtin_static_sections p))) as -> by by unfold m; gets.
    assert (get "explicit_override" m = Some (JBool (explicit_override p))) as -> by by unfold m; gets.
    cbn [mbind option_bind jnum_saturating as_i64 as_bool]. rewrite Z.min_l by done. rewrite unsigned_of_N.
    2: { unfold u64_max, i64_max in *. lia. }
    cbn [mbind option_bind]. rewrite (proj2 (N.leb_le _ _) Rb). cbn. by destruct p.
Qed.

Lemma snapshot_coded : coded rust_snapshot (pure SessionPromptSnapshot_to_json) SessionPromptSnapshot_from_json id.
Proof.
  intros s (Rp & Rw & Ra). destruct (prompt_coded _ Rp) as (v & [= <-] & Wp & Bp). eexists. split; [done|].
  unfold SessionPromptSnapshot_to_json. split.
  - wf_fields; [constructor|by apply wf_jstr|by apply wf_jstr|done].
  - unfold SessionPromptSnapshot_from_json, snapshot_text. cbn [as_object ok_or mbind result_bind].
    match goal with |- context [get "prompt" ?o] => set (m := o) end.
    assert (get "prompt" m = Some (SystemPrompt_to_json (sn_prompt s))) as -> by by unfold m; gets.
    assert (get "memory_enabled" m = Some (JBool (sn_memory_enabled s))) as -> by by unfold m; gets.
    cbn [mbind option_bind as_bool ok_or result_bind]. rewrite Bp. cbn [mbind result_bind].
    rewrite (text_back m "workspace_root" (sn_workspace_root s)) by (first [done | unfold m; by gets]).
    rewrite (text_back m "agent_name" (sn_agent_name s)) by (first [done | unfold m; by gets]). by destruct s.
Qed.

(** ** Compactions *)

Definition rust_compaction (c : SessionCompaction) : Prop :=
  u32 (sk_count c) /\ u64 (sk_removed_message_count c) /\ (Z.of_N (sk_removed_message_count c) <= i64_max)%Z /\
  rust_string (sk_summary c) /\ from_option rust_usage True (sk_usage c) /\
  Forall rust_string (sk_pre_compact_discovered_tools c) /\ StronglySorted str_lt (sk_pre_compact_discovered_tools c).

Definition canon_compaction (c : SessionCompaction) : SessionCompaction :=
  {| sk_count := sk_count c; sk_removed_message_count := sk_removed_message_count c; sk_summary := sk_summary c;
     sk_usage := canon_usage <$> sk_usage c; sk_pre_compact_discovered_tools := sk_pre_compact_discovered_tools c |}.

Lemma wf_list_option {A} (f : A -> JsonValue) l :
  Forall well_formed (map f l) -> from_option well_formed True (list_field f l).
Proof. destruct l; [done|]. intros F. by constructor. Qed.

(** A list that is left out when it is empty is read as that list. *)
Lemma list_field_back {A B} (f : A -> JsonValue) (k : list JsonValue -> list B) l :
  k [] = [] -> match list_field f l ≫= as_array with Some vs => k vs | None => [] end = k (map f l).
Proof. by destruct l. Qed.

Lemma usage_field m o :
  get "usage" m = (usage_to_json <$> o) -> from_option rust_usage True o ->
  optional usage_from_json "usage" m = Ok (canon_usage <$> o).
Proof. intros E R. eapply optional_back; [exact E|]. destruct o; [|done]. by apply usage_back. Qed.

Lemma omap_strings l : Forall rust_string l -> omap as_string (map jstr l) = l.
Proof. induction 1 as [|s l R _ IH]; [done|]. cbn. rewrite utf8_chars by done. f_equal. exact IH. Qed.

Lemma compaction_coded : coded rust_compaction SessionCompaction_to_json SessionCompaction_from_json canon_compaction.
Proof.
  intros c (Rc & Ru & Rr & Rs & Rg & Rt & St). unfold SessionCompaction_to_json, compaction_fields, i64_from_u64.
  rewrite (proj2 (Z.leb_le _ _) Rr). cbn [mbind result_bind fmap result_fmap]. eexists. split; [done|].
  split.
  - wf_fields.
    + apply wf_list_option, Forall_map. eapply Forall_impl; [exact Rt|]. apply wf_jstr.
    + by eapply wf_optional; [apply usage_wf|].
    + by apply wf_jstr.
    + by apply wf_jnum.
    + by apply wf_jnum_u32.
  - unfold SessionCompaction_from_json. cbn [object_or as_object ok_or mbind result_bind].
    match goal with |- context [get "usage" ?o] => set (m := o) | |- context [required_u32 ?o] => set (m := o) end.
    assert (match get "pre_compact_discovered_tools" m ≫= as_array with Some l => collect_set (omap as_string l) | None => [] end
            = sk_pre_compact_discovered_tools c) as ->.
    { assert (get "pre_compact_discovered_tools" m = list_field jstr (sk_pre_compact_discovered_tools c)) as ->.
      { unfold m. gets. by destruct (sk_pre_compact_discovered_tools c). }
      rewrite (list_field_back jstr (fun l => collect_set (omap as_string l))) by done.
      rewrite omap_strings by done. by apply collect_set_sorted. }
    rewrite (required_u32_spec m "count" (sk_count c)) by (first [done | unfold m; by gets]).
    assert (required_usize m "removed_message_count" = Ok (sk_removed_message_count c)) as ->.
    { unfold required_usize, m. gets. by rewrite unsigned_of_N. }
    rewrite (required_string_spec m "summary" (sk_summary c)) by (first [done | unfold m; by gets]).
    cbn [mbind result_bind]. rewrite (usage_field m (sk_usage c)); [done| |done]. unfold m. gets. by destruct (sk_usage c).
Qed.

(** ** Forks, prompt entries, modes, identities *)

Definition rust_fork (f : SessionFork) : Prop := rust_string (sf_parent_session_id f) /\ rust_option (sf_branch_name f).

Lemma fork_coded : coded rust_fork (pure SessionFork_to_json) SessionFork_from_json id.
Proof.
  intros f (Rp & Rb). eexists. split; [done|]. unfold SessionFork_to_json. split.
  - wf_fields; [by apply wf_text_option|by apply wf_jstr].
  - unfold SessionFork_from_json. cbn [object_or as_object ok_or mbind result_bind].
    match goal with |- context [get "branch_name" ?o] => set (m := o) end.
    rewrite (required_string_spec m "parent_session_id" (sf_parent_session_id f)) by (first [done | unfold m; by gets]).
    rewrite (text_option_back m _ (sf_branch_name f)); [by destruct f|unfold m; gets; by destruct (sf_branch_name f)|done].
Qed.

Definition rust_entry (e : SessionPromptEntry) : Prop := u64 (pe_timestamp_ms e) /\ rust_string (pe_text e).

Definition canon_entry (e : SessionPromptEntry) : SessionPromptEntry :=
  {| pe_timestamp_ms := N.min (Z.to_N i64_max) (pe_timestamp_ms e); pe_text := pe_text e |}.

Lemma entry_wf e : rust_entry e -> well_formed (SessionPromptEntry_to_jsonl_record e).
Proof.
  intros (Rt & Rs). unfold SessionPromptEntry_to_jsonl_record, typed.
  wf_fields; [by apply wf_jstr|apply wf_jnum_saturating|by apply wf_jstr, literal_rust].
Qed.

Lemma entry_back e :
  rust_entry e -> SessionPromptEntry_from_json_opt (SessionPromptEntry_to_jsonl_record e) = Some (canon_entry e).
Proof.
  intros (Rt & Rs). unfold SessionPromptEntry_from_json_opt, SessionPromptEntry_to_jsonl_record.
  cbn [as_object mbind option_bind]. match goal with |- context [get "text" ?o] => set (m := o) end.
  assert (get "timestamp_ms" m = (jnum_saturating <$> Some (pe_timestamp_ms e))) as -> by by unfold m, typed; gets.
  rewrite duration_back by done. cbn [fmap option_fmap option_map mbind option_bind].
  by rewrite (text_back m "text" (pe_text e)) by (first [done | unfold m, typed; by gets]).
Qed.

Lemma entries_back l :
  Forall rust_entry l -> omap SessionPromptEntry_from_json_opt (map SessionPromptEntry_to_jsonl_record l) = map canon_entry l.
Proof. induction 1 as [|e l R _ IH]; [done|]. cbn [map omap list_omap]. rewrite entry_back by done. f_equal. exact IH. Qed.

Definition rust_hosted (i : HostedSessionIdentity) : Prop :=
  rust_string (hi_agent_name i) /\ rust_string (hi_owner_id i) /\ rust_string (hi_zone_id i) /\ rust_map (hi_repos i).

Lemma hosted_coded : coded rust_hosted (pure HostedSessionIdentity_to_json) HostedSessionIdentity_from_json id.
Proof.
  intros i (Ra & Ro & Rz & Rm). destruct (map_to_json_spec _ Rm) as (o & Eo & Wo & So). eexists. split; [done|].
  unfold HostedSessionIdentity_to_json. rewrite Eo. split.
  - wf_fields; [by apply wf_entries_object|by apply wf_jstr|by apply wf_jstr|by apply wf_jstr].
  - unfold HostedSessionIdentity_from_json. cbn [object_or as_object ok_or mbind result_bind].
    match goal with |- context [get "repos" ?o] => set (m := o) end.
    assert (get "repos" m = Some (JObject o)) as -> by by unfold m; gets.
    cbn [mbind option_bind as_object ok_or result_bind]. rewrite So. cbn [ok_or mbind result_bind].
    rewrite (required_string_spec m "agent_name" (hi_agent_name i)) by (first [done | unfold m; by gets]).
    rewrite (required_string_spec m "owner_id" (hi_owner_id i)) by (first [done | unfold m; by gets]).
    rewrite (required_string_spec m "zone_id" (hi_zone_id i)) by (first [done | unfold m; by gets]). by destruct i.
Qed.

(** ** Maintenance *)

Definition rust_receipt (r : MaintenanceUsageReceipt) : Prop :=
  rust_string (rc_run_id r) /\ u32 (rc_attempt_id r) /\ from_option rust_usage True (rc_usage r).

Definition canon_receipt (r : MaintenanceUsageReceipt) : MaintenanceUsageReceipt :=
  {| rc_run_id := rc_run_id r; rc_attempt_id := rc_attempt_id r; rc_usage := canon_usage <$> rc_usage r |}.

Lemma receipt_coded : coded rust_receipt (pure MaintenanceUsageReceipt_to_json) MaintenanceUsageReceipt_from_json canon_receipt.
Proof.
  intros r (Ri & Ra & Ru). eexists. split; [done|]. unfold MaintenanceUsageReceipt_to_json. split.
  - wf_fields; [by eapply wf_optional; [apply usage_wf|]|by apply wf_jnum_u32|by apply wf_jstr].
  - unfold MaintenanceUsageReceipt_from_json. cbn [object_or as_object ok_or mbind result_bind].
    match goal with |- context [required_u32 ?o] => set (m := o) end.
    rewrite (required_string_spec m "run_id" (rc_run_id r)) by (first [done | unfold m; by gets]).
    rewrite (required_u32_spec m "attempt_id" (rc_attempt_id r)) by (first [done | unfold m; by gets]).
    cbn [mbind result_bind]. rewrite (usage_field m (rc_usage r)); [done| |done]. unfold m. gets. by destruct (rc_usage r).
Qed.

Definition rust_achievement (a : CompactionAchievement) : Prop :=
  rust_string (ca_fingerprint a) /\ rust_string (ca_policy_version a) /\ (Z.of_N (ca_before_history a) <= i64_max)%Z /\
  (Z.of_N (ca_target_history a) <= i64_max)%Z /\ (Z.of_N (ca_after_history a) <= i64_max)%Z.

Lemma i64_u64 n : (Z.of_N n <= i64_max)%Z -> (n <= u64_max)%N.
Proof. unfold i64_max, u64_max. lia. Qed.

Lemma required_u64_spec m key n : get key m = Some (jnum n) -> (n <= u64_max)%N -> required_u64 m key = Ok n.
Proof. unfold required_u64. intros -> R. cbn. by rewrite unsigned_of_N. Qed.

Lemma achievement_coded : coded rust_achievement CompactionAchievement_to_json CompactionAchievement_from_json id.
Proof.
  intros a (Rf & Rp & Hb & Ht & Ha). unfold CompactionAchievement_to_json, history_count.
  rewrite !(proj2 (Z.leb_le _ _)) by done. cbn [mbind result_bind]. eexists. split; [done|]. split.
  - wf_fields; try by apply wf_jstr. all: by apply wf_jnum; [apply i64_u64|].
  - unfold CompactionAchievement_from_json. cbn [object_or as_object ok_or mbind result_bind].
    match goal with |- context [required_u64 ?o] => set (m := o) end.
    rewrite (required_string_spec m "fingerprint" (ca_fingerprint a)) by (first [done | unfold m; by gets]).
    rewrite (required_u64_spec m "before_history" (ca_before_history a)) by (first [by apply i64_u64 | unfold m; by gets]).
    rewrite (required_u64_spec m "target_history" (ca_target_history a)) by (first [by apply i64_u64 | unfold m; by gets]).
    rewrite (required_u64_spec m "after_history" (ca_after_history a)) by (first [by apply i64_u64 | unfold m; by gets]).
    rewrite (required_string_spec m "policy_version" (ca_policy_version a)) by (first [done | unfold m; by gets]). by destruct a.
Qed.

(** A report that serde writes as an object of this store and reads back. *)
Definition readable_report (r : CompactionReport) : Prop :=
  exists t v, report_to_string r = Ok t /\ parse t = Ret (Ok v) /\ well_formed v /\ report_from_str (render v) = Ok r.

Definition report_from_json (v : JsonValue) : result CodecError CompactionReport :=
  match report_from_str (render v) with Ok r => Ok r | Err e => Err (Format e) end.

Lemma report_coded : coded readable_report report_to_json report_from_json id.
Proof.
  intros r (t & v & Et & Ep & W & Eb). exists v. unfold report_to_json, parse_json, report_from_json.
  rewrite Et, Ep, Eb. done.
Qed.

Lemma root_coded : coded rust_string workspace_root_to_string
  (fun v => ok_or (as_string v) (Format "")) id.
Proof.
  intros p R. unfold workspace_root_to_string. rewrite (proj2 (is_utf8_spec p) R). exists (jstr p).
  split; [done|]. split; [by apply wf_jstr|]. by rewrite as_string_jstr.
Qed.

(** ** The session *)

Definition rust_session (s : Session) : Prop :=
  u32 (ss_version s) /\ rust_string (ss_session_id s) /\
  (Z.of_N (ss_created_at_ms s) <= i64_max)%Z /\ (Z.of_N (ss_updated_at_ms s) <= i64_max)%Z /\
  Forall rust_message (ss_messages s) /\ from_option rust_compaction True (ss_compaction s) /\
  Forall rust_receipt (ss_maintenance_usage s) /\ from_option rust_achievement True (ss_compaction_achievement s) /\
  from_option readable_report True (ss_last_compaction_report s) /\ from_option rust_fork True (ss_fork s) /\
  rust_option (ss_workspace_root s) /\ from_option rust_hosted True (ss_identity s) /\
  Forall rust_entry (ss_prompt_history s) /\ rust_option (ss_model s) /\ from_option rust_snapshot True (ss_prompt_snapshot s).

(** The session as it is loaded: the store's form of its parts, and the state of a loaded
    session for what is not stored. *)
Definition canon_session (s : Session) : Session :=
  {| ss_version := ss_version s; ss_session_id := ss_session_id s; ss_created_at_ms := ss_created_at_ms s;
     ss_updated_at_ms := ss_updated_at_ms s; ss_messages := map canon_message (ss_messages s);
     ss_compaction := canon_compaction <$> ss_compaction s; ss_maintenance_usage := map canon_receipt (ss_maintenance_usage s);
     ss_compaction_achievement := ss_compaction_achievement s; ss_last_compaction_report := ss_last_compaction_report s;
     ss_fork := ss_fork s; ss_workspace_root := ss_workspace_root s; ss_identity := ss_identity s;
     ss_prompt_history := map canon_entry (ss_prompt_history s); ss_last_health_check_ms := None; ss_model := ss_model s;
     ss_mode := ss_mode s; ss_prompt_snapshot := ss_prompt_snapshot s; ss_prompt_snapshot_dirty := false;
     ss_pending_tool_repairs := 0; ss_restored_history_head := None; ss_view_revision := 0 |}.

(** What an object must hold to be read as the session's metadata. *)
Record metadata_of (s : Session) (m : list (text * JsonValue)) : Prop := {
  mo_version : get "version" m = Some (jnum (ss_version s));
  mo_id : get "session_id" m = Some (jstr (ss_session_id s));
  mo_created : get "created_at_ms" m = Some (jnum (ss_created_at_ms s));
  mo_updated : get "updated_at_ms" m = Some (jnum (ss_updated_at_ms s));
  mo_compaction : get "compaction" m = (written SessionCompaction_to_json <$> ss_compaction s);
  mo_maintenance : get "maintenance_usage" m = list_field MaintenanceUsageReceipt_to_json (ss_maintenance_usage s);
  mo_achievement : get "compaction_achievement" m = (written CompactionAchievement_to_json <$> ss_compaction_achievement s);
  mo_report : get "last_compaction_report" m = (written report_to_json <$> ss_last_compaction_report s);
  mo_fork : get "fork" m = (SessionFork_to_json <$> ss_fork s);
  mo_root : get "workspace_root" m = (written workspace_root_to_string <$> ss_workspace_root s);
  mo_identity : get "identity" m = (HostedSessionIdentity_to_json <$> ss_identity s);
  mo_prompts : get "prompt_history" m = list_field SessionPromptEntry_to_jsonl_record (ss_prompt_history s);
  mo_model : get "model" m = (jstr <$> ss_model s);
  mo_mode : get "mode" m = if bool_decide (ss_mode s = Interactive) then None else Some (jstr (SessionMode_as_str (ss_mode s)));
  mo_snapshot : get "prompt_snapshot" m = (SessionPromptSnapshot_to_json <$> ss_prompt_snapshot s)
}.

Lemma from_some_none {A} (o : option A) : match o with Some v => Some v | None => None end = o.
Proof. by destruct o. Qed.

#[local] Opaque get insert insert_opt remove.

Lemma context_metadata_ok s :
  rust_session s -> exists m, context_metadata s = Ok m /\ metadata_of s m /\ wf_entries m.
Proof.
  intros (Rv & Ri & Hc & Hu & Rm & Rk & Rr & Ra & Rp & Rf & Rw & Rh & Re & Rd & Rs).
  unfold context_metadata, meta_record, insert_maintenance_metadata, i64_from_u64.
  rewrite !(proj2 (Z.leb_le _ _)) by done. cbn [mbind result_bind].
  rewrite (insert_result_ok _ _ _ _ _ _ _ root_coded Rw). cbn [mbind result_bind].
  rewrite (insert_result_ok _ _ _ _ _ _ _ achievement_coded Ra). cbn [mbind result_bind].
  rewrite (insert_result_ok _ _ _ _ _ _ _ report_coded Rp). cbn [mbind result_bind].
  rewrite (insert_result_ok _ _ _ _ _ _ _ compaction_coded Rk). cbn [mbind result_bind].
  eexists. split; [done|]. split.
  - unfold typed. split.
    all: repeat (first [rewrite get_insert | rewrite get_insert_opt | rewrite get_remove]; cbn [String.eqb Ascii.eqb Bool.eqb]).
    all: by rewrite ?get_nil, ?from_some_none.
  - unfold typed. do 2 wf_steps.
    + apply wf_list_option, Forall_map. eapply Forall_impl; [exact Re|apply entry_wf].
    + by eapply written_wf; [apply compaction_coded|].
    + apply wf_remove. wf_steps.
      * by eapply written_wf; [apply report_coded|].
      * by eapply written_wf; [apply achievement_coded|].
      * by apply wf_list_option; eapply coded_list; [apply receipt_coded|].
      * case_bool_decide; [done|]. destruct (ss_mode s); by apply wf_jstr, literal_rust.
      * by apply wf_text_option.
      * by eapply written_wf; [apply root_coded|].
      * by eapply pure_wf_option; [apply hosted_coded|].
      * by eapply pure_wf_option; [apply snapshot_coded|].
      * by eapply pure_wf_option; [apply fork_coded|].
      * by apply wf_jnum; [apply i64_u64|].
      * by apply wf_jnum; [apply i64_u64|].
      * by apply wf_jstr.
      * by apply wf_jnum_u32.
      * by apply wf_jstr, literal_rust.
Qed.

Lemma required_u64_value key n : (Z.of_N n <= i64_max)%Z -> required_u64_from_value (jnum n) key = Ok n.
Proof. intros Hn. unfold required_u64_from_value. cbn. by rewrite unsigned_of_N by (by apply i64_u64). Qed.

Lemma time_back m key n :
  (Z.of_N n <= i64_max)%Z -> get key m = Some (jnum n) -> optional (fun v => required_u64_from_value v key) key m = Ok (Some n).
Proof. intros Hn E. unfold optional. by rewrite E, required_u64_value. Qed.

Lemma mode_back (s : SessionMode) :
  default Interactive
    (((if bool_decide (s = Interactive) then None else Some (jstr (SessionMode_as_str s))) ≫= as_string) ≫= SessionMode_from_str) = s.
Proof. by destruct s. Qed.

Lemma maintenance_back m l :
  get "maintenance_usage" m = list_field MaintenanceUsageReceipt_to_json l -> Forall rust_receipt l ->
  maintenance_usage_from_json m = Ok (map canon_receipt l).
Proof.
  intros E R. unfold maintenance_usage_from_json. rewrite E. destruct l as [|r l]; [done|].
  unfold list_field. cbn [as_array ok_or mbind result_bind]. by rewrite (proj2 (coded_list _ _ _ _ _ receipt_coded R)).
Qed.

(** An object with a session's metadata and messages is read as that session. *)
Lemma session_back s m now fresh_id :
  rust_session s -> metadata_of s m -> get "messages" m = Some (JArray (map message_to_json (ss_messages s))) ->
  from_json now fresh_id (JObject m) = Ok (canon_session s).
Proof.
  intros (Rv & Ri & Hc & Hu & Rm & Rk & Rr & Ra & Rp & Rf & Rw & Rh & Re & Rd & Rs) M Em. destruct M.
  unfold from_json. cbn [object_or as_object ok_or mbind result_bind].
  rewrite mo_version0, Em. cbn [mbind option_bind as_i64 as_array ok_or result_bind jnum].
  rewrite unsigned_of_N by done. cbn [ok_or mbind result_bind].
  rewrite (proj2 (coded_list _ _ _ _ _ message_coded Rm)). cbn [mbind result_bind]. cbv zeta.
  rewrite (text_back m "session_id" (ss_session_id s)) by done. cbn [default].
  rewrite (time_back _ _ _ Hc mo_created0), (time_back _ _ _ Hu mo_updated0). cbn [mbind result_bind default].
  rewrite (written_back _ _ _ _ _ _ _ compaction_coded Rk mo_compaction0). cbn [mbind result_bind].
  rewrite (maintenance_back _ _ mo_maintenance0 Rr). cbn [mbind result_bind].
  rewrite (written_back _ _ _ _ _ _ _ achievement_coded Ra mo_achievement0). cbn [mbind result_bind].
  change (compaction_report_from_json m) with (optional report_from_json "last_compaction_report" m).
  rewrite (written_back _ _ _ _ _ _ _ report_coded Rp mo_report0). cbn [mbind result_bind].
  rewrite (pure_back _ _ _ _ _ _ _ fork_coded Rf mo_fork0). cbn [mbind result_bind].
  rewrite (pure_back _ _ _ _ _ _ _ hosted_coded Rh mo_identity0). cbn [mbind result_bind].
  rewrite (pure_back _ _ _ _ _ _ _ snapshot_coded Rs mo_snapshot0). cbn [mbind result_bind].
  rewrite mo_prompts0, (list_field_back _ (omap SessionPromptEntry_from_json_opt)), entries_back by done.
  rewrite (text_option_back _ _ _ mo_model0 Rd). rewrite mo_mode0, mode_back.
  assert (get "workspace_root" m ≫= as_string = ss_workspace_root s) as ->.
  { rewrite mo_root0. destruct (ss_workspace_root s) as [p|]; [|done]. cbn.
    destruct (root_coded p Rw) as (v & E & _ & B). unfold written. rewrite E. by destruct (as_string v); [injection B as ->|]. }
  rewrite !option_fmap_id. done.
Qed.

(** ** The store does not tell a session from its form in the store *)

Lemma list_field_same {A} (f : A -> JsonValue) h l : Forall (fun a => f (h a) = f a) l -> list_field f (map h l) = list_field f l.
Proof.
  intros F. unfold list_field. assert (map f (map h l) = map f l) as ->; [|by destruct l].
  rewrite map_map. by apply map_ext_Forall.
Qed.

Lemma usage_option_same (o : option TokenUsage) : usage_to_json <$> (canon_usage <$> o) = usage_to_json <$> o.
Proof. destruct o; [|done]. cbn. by rewrite usage_same. Qed.

Lemma bind_ext {E A B} (r : result E A) (f g : A -> result E B) : (forall a, f a = g a) -> (r ≫= f) = (r ≫= g).
Proof. destruct r; cbn; [auto|done]. Qed.

Lemma compaction_same o key m :
  insert_result SessionCompaction_to_json key (canon_compaction <$> o) m = insert_result SessionCompaction_to_json key o m.
Proof.
  destruct o as [c|]; [|done]. cbn [fmap option_fmap option_map insert_result].
  unfold SessionCompaction_to_json, compaction_fields. cbn [canon_compaction sk_usage sk_count sk_removed_message_count sk_summary sk_pre_compact_discovered_tools].
  by rewrite usage_option_same.
Qed.

Lemma receipt_same r : MaintenanceUsageReceipt_to_json (canon_receipt r) = MaintenanceUsageReceipt_to_json r.
Proof. unfold MaintenanceUsageReceipt_to_json. cbn [canon_receipt rc_usage rc_attempt_id rc_run_id]. by rewrite usage_option_same. Qed.

Lemma entry_same e : SessionPromptEntry_to_jsonl_record (canon_entry e) = SessionPromptEntry_to_jsonl_record e.
Proof.
  unfold SessionPromptEntry_to_jsonl_record. cbn [canon_entry pe_text pe_timestamp_ms].
  assert (jnum_saturating (N.min (Z.to_N i64_max) (pe_timestamp_ms e)) = jnum_saturating (pe_timestamp_ms e)) as ->; [|done].
  unfold jnum_saturating, i64_max. f_equal. lia.
Qed.

Lemma session_same s : Forall rust_message (ss_messages s) -> to_json (canon_session s) = to_json s.
Proof.
  intros R. unfold to_json, context_metadata, meta_record, insert_maintenance_metadata. cbn [canon_session
    ss_version ss_session_id ss_created_at_ms ss_updated_at_ms ss_messages ss_compaction ss_maintenance_usage
    ss_compaction_achievement ss_last_compaction_report ss_fork ss_workspace_root ss_identity ss_prompt_history
    ss_model ss_mode ss_prompt_snapshot].
  rewrite (list_field_same _ canon_receipt), (list_field_same _ canon_entry) by (apply Forall_forall; intros; first [apply receipt_same|apply entry_same]).
  assert (map message_to_json (map canon_message (ss_messages s)) = map message_to_json (ss_messages s)) as ->.
  { rewrite map_map. apply map_ext_Forall. eapply Forall_impl; [exact R|]. apply message_same. }
  apply (f_equal (fun r => r ≫= _)). apply bind_ext. intros m. by rewrite compaction_same.
Qed.

(** C18. A session survives its file: the record of a session renders, the text parses and is read
    as the session, its messages, bills, receipts and prompts in the store's form; saving what
    was read gives the same record. *)
Theorem session_survives_the_file s now fresh_id :
  rust_session s ->
  exists v, to_json s = Ok v /\ parse (render v) = Ret (Ok v) /\ from_json now fresh_id v = Ok (canon_session s) /\
            to_json (canon_session s) = Ok v.
Proof.
  intros R. pose proof (session_same s ltac:(by destruct_and! R)) as Same.
  destruct (context_metadata_ok s R) as (m & E & M & W). unfold to_json in Same at 2. unfold to_json at 1.
  rewrite E in Same |- *. cbn [mbind result_bind] in Same |- *. eexists. split; [done|]. split_and!; [| |done].
  - apply parse_of_render, wf_entries_object, wf_insert; [done| |done]. constructor.
    destruct R as (_ & _ & _ & _ & Rm & _). by apply (coded_list _ _ _ _ _ message_coded).
  - apply session_back; [done| |by rewrite get_insert]. destruct M. by split; rewrite get_insert.
Qed.
End Record.
