(* ===== verification/StreamCollect.v ===== *)
(** * A whole response out of a stream (api/src/stream_collect.rs, api/src/client.rs)

    [ResponseAccumulator] folds stream events into the response a request without streaming
    would return: blocks by the index their events carry, the arguments of a tool call
    buffered until the end.  A compaction's stream also reports to its scope. *)
From S2P Require Import Prelude.
From stdpp Require Import list.
From S2P Require Import RustStr BTree Json Conversation CompactionScope ProviderStream.

Section Collect.
Context `{SerdeJson} (empty_object : Value).

Record ResponseAccumulator := {
  ra_provider : string;
  ra_model : string;
  ra_id : string;
  ra_blocks : list (N * OutputContentBlock);
  ra_tool_input_json : list (N * string);
  ra_usage : Usage;
  ra_stop_reason : option string;
  ra_stop_sequence : option string;
  ra_saw_any_event : bool
}.

Definition accumulator_new (provider model : string) : ResponseAccumulator :=
  {| ra_provider := provider; ra_model := model; ra_id := ""; ra_blocks := []; ra_tool_input_json := [];
     ra_usage := usage_default; ra_stop_reason := None; ra_stop_sequence := None; ra_saw_any_event := false |}.

(** [incomplete_stream]: the retryable failure, with its provider, model and detail. *)
Record IncompleteStream := { is_provider : string; is_model : string; is_detail : string }.

Definition with_blocks (blocks : list (N * OutputContentBlock)) (a : ResponseAccumulator) : ResponseAccumulator :=
  {| ra_provider := ra_provider a; ra_model := ra_model a; ra_id := ra_id a; ra_blocks := blocks;
     ra_tool_input_json := ra_tool_input_json a; ra_usage := ra_usage a; ra_stop_reason := ra_stop_reason a;
     ra_stop_sequence := ra_stop_sequence a; ra_saw_any_event := ra_saw_any_event a |}.
Definition with_tool_input (inputs : list (N * string)) (a : ResponseAccumulator) : ResponseAccumulator :=
  {| ra_provider := ra_provider a; ra_model := ra_model a; ra_id := ra_id a; ra_blocks := ra_blocks a;
     ra_tool_input_json := inputs; ra_usage := ra_usage a; ra_stop_reason := ra_stop_reason a;
     ra_stop_sequence := ra_stop_sequence a; ra_saw_any_event := ra_saw_any_event a |}.
Definition with_seen_event (a : ResponseAccumulator) : ResponseAccumulator :=
  {| ra_provider := ra_provider a; ra_model := ra_model a; ra_id := ra_id a; ra_blocks := ra_blocks a;
     ra_tool_input_json := ra_tool_input_json a; ra_usage := ra_usage a; ra_stop_reason := ra_stop_reason a;
     ra_stop_sequence := ra_stop_sequence a; ra_saw_any_event := true |}.
Definition with_end (usage : Usage) (reason sequence : option string) (a : ResponseAccumulator) : ResponseAccumulator :=
  {| ra_provider := ra_provider a; ra_model := ra_model a; ra_id := ra_id a; ra_blocks := ra_blocks a;
     ra_tool_input_json := ra_tool_input_json a; ra_usage := merge_snapshot (ra_usage a) usage;
     ra_stop_reason := some_or reason (ra_stop_reason a); ra_stop_sequence := some_or sequence (ra_stop_sequence a);
     ra_saw_any_event := ra_saw_any_event a |}.
Definition with_identity (id model : string) (a : ResponseAccumulator) : ResponseAccumulator :=
  {| ra_provider := ra_provider a; ra_model := if is_empty model then ra_model a else model; ra_id := id;
     ra_blocks := ra_blocks a; ra_tool_input_json := ra_tool_input_json a; ra_usage := ra_usage a;
     ra_stop_reason := ra_stop_reason a; ra_stop_sequence := ra_stop_sequence a;
     ra_saw_any_event := ra_saw_any_event a |}.

(** [u32::try_from(index).unwrap_or(u32::MAX)] *)
Definition saturating_index (index : nat) : N := N.min (N.of_nat index) (2 ^ 32 - 1).

Fixpoint insert_content (index : nat) (content : list OutputContentBlock) (blocks : list (N * OutputContentBlock)) :
  list (N * OutputContentBlock) :=
  match content with
  | [] => blocks
  | b :: content => insert_content (S index) content (bt_insert (saturating_index index) b blocks)
  end.

(** A delta for a block that never started infers it. *)
Definition inferred (d : ContentBlockDelta) : OutputContentBlock :=
  match d with ThinkingDelta _ | SignatureDelta _ => OutThinking "" None | _ => OutText "" end.

Definition extend_block (b : OutputContentBlock) (d : ContentBlockDelta) : OutputContentBlock :=
  match b, d with
  | OutText text, TextDelta fragment => OutText (text ++ fragment)
  | OutThinking thinking signature, ThinkingDelta fragment => OutThinking (thinking ++ fragment) signature
  | OutThinking thinking signature, SignatureDelta fragment =>
      OutThinking thinking (Some (default "" signature ++ fragment)%string)
  | _, _ => b
  end.

Definition apply_delta (index : N) (d : ContentBlockDelta) (a : ResponseAccumulator) : ResponseAccumulator :=
  match d with
  | InputJsonDelta partial_json =>
      match bt_get index (ra_blocks a) with
      | Some (OutToolUse _ _ _ _) =>
          with_tool_input
            (bt_insert index (default "" (bt_get index (ra_tool_input_json a)) ++ partial_json)%string
               (ra_tool_input_json a)) a
      | _ => a
      end
  | _ =>
      with_blocks (bt_insert index (extend_block (default (inferred d) (bt_get index (ra_blocks a))) d)
                     (ra_blocks a)) a
  end.

Definition accumulate (a : ResponseAccumulator) (event : StreamEvent) : ResponseAccumulator :=
  let a := with_seen_event a in
  match event with
  | MessageStart m =>
      let a := with_end (mr_usage m) (mr_stop_reason m) (mr_stop_sequence m)
                 (with_identity (mr_id m) (mr_model m) a) in
      with_blocks (insert_content 0 (mr_content m) (ra_blocks a)) a
  | ContentBlockStart index block => with_blocks (bt_insert index block (ra_blocks a)) a
  | ContentBlockDeltaEvent index d => apply_delta index d a
  | ContentBlockStop _ | MessageStop => a
  | MessageDeltaEvent d usage => with_end usage (md_stop_reason d) (md_stop_sequence d) a
  end.

Definition parse_tool_input (raw : string) : option Value :=
  if is_empty (trim raw) then Some empty_object else from_str raw.

Fixpoint parse_inputs (a : ResponseAccumulator) (inputs : list (N * string)) (blocks : list (N * OutputContentBlock)) :
  result IncompleteStream (list (N * OutputContentBlock)) :=
  match inputs with
  | [] => Ok blocks
  | (index, raw) :: inputs =>
      match bt_get index blocks with
      | Some (OutToolUse id name _ signature) =>
          match parse_tool_input raw with
          | Some v => parse_inputs a inputs (bt_insert index (OutToolUse id name v signature) blocks)
          | None =>
              Err {| is_provider := ra_provider a; is_model := ra_model a;
                     is_detail := ("tool_use block " ++ pretty index ++ " has unparseable arguments: " ++ raw)%string |}
          end
      | _ => parse_inputs a inputs blocks
      end
  end.

Definition accumulator_finish (a : ResponseAccumulator) (request_id : option string) :
  result IncompleteStream MessageResponse :=
  if negb (ra_saw_any_event a) then
    Err {| is_provider := ra_provider a; is_model := ra_model a;
           is_detail := "stream closed without emitting a single event" |}
  else
    match parse_inputs a (ra_tool_input_json a) (ra_blocks a) with
    | Err e => Err e
    | Ok blocks =>
        Ok {| mr_id := ra_id a; mr_kind := "message"; mr_role := "assistant"; mr_content := bt_values blocks;
              mr_model := ra_model a; mr_stop_reason := ra_stop_reason a; mr_stop_sequence := ra_stop_sequence a;
              mr_usage := ra_usage a; mr_request_id := request_id; mr_gateway_request_id := None |}
    end.

(** ** A stream collected (api/src/client.rs) *)

Inductive CollectError :=
| Incomplete (e : IncompleteStream)
| Configuration (e : CompactionBudgetExceeded).

Definition is_terminal (event : StreamEvent) : bool :=
  match event with
  | MessageStop => true
  | MessageDeltaEvent d _ => match md_stop_reason d with Some _ => true | None => false end
  | MessageStart m => match mr_stop_reason m with Some _ => true | None => false end
  | _ => false
  end.

Definition event_usage (event : StreamEvent) : option Usage :=
  match event with
  | MessageStart m => Some (mr_usage m)
  | MessageDeltaEvent _ u => Some u
  | _ => None
  end.

(** What an event tells the compaction it belongs to, if it runs in one. *)
Definition record_compaction_stream_event (scope : Active) (event : StreamEvent) :
  Active * result CompactionBudgetExceeded unit :=
  let scope := match event_usage event with
               | Some u => if bool_decide (u = usage_default) then scope else record_usage (token_usage u) scope
               | None => scope
               end in
  if is_terminal event then record_completed_response scope else (scope, Ok tt).

Fixpoint collect_loop (events : list StreamEvent) (scope : Active) (a : ResponseAccumulator) (saw_terminal : bool) :
  Active * result CollectError (ResponseAccumulator * bool) :=
  match events with
  | [] => (scope, Ok (a, saw_terminal))
  | event :: events =>
      match record_compaction_stream_event scope event with
      | (scope, Err e) => (scope, Err (Configuration e))
      | (scope, Ok _) => collect_loop events scope (accumulate a event) (saw_terminal || is_terminal event)
      end
  end.

Definition collect_response (scope : Active) (provider model : string) (request_id : option string)
    (events : list StreamEvent) : Active * result CollectError MessageResponse :=
  match collect_loop events scope (accumulator_new provider model) false with
  | (scope, Err e) => (scope, Err e)
  | (scope, Ok (a, saw_terminal)) =>
      (scope,
       if is_active scope && negb saw_terminal then
         Err (Incomplete {| is_provider := provider; is_model := model;
                            is_detail := "summary stream ended without a provider terminal event" |})
       else match accumulator_finish a request_id with Ok r => Ok r | Err e => Err (Incomplete e) end)
  end.
End Collect.
