(* ===== verification/EngineStream.v ===== *)
(** * From stream events to assistant events (engine-core/src/engine_client.rs)

    The engine reads a provider's stream event by event: text and thinking go on at once, a
    tool call when its block stops.  A stream that ends without usable content is asked for
    once more; one that ends in the middle is an error.  [json_text] renders a value,
    [is_empty_object] says whether it is the empty object; the prompt cache's records and the
    answer to the second request are the environment's. *)
From S2P Require Import Prelude.
From stdpp Require Import list.
From S2P Require Import RustStr Json Conversation AssistantMessage ProviderStream.

Section Engine.
Context `{SerdeJson} (json_text : Value -> string) (is_empty_object : Value -> bool).

(** A tool call whose input is still streaming: id, name, input, signature. *)
Definition PendingTool : Type := string * string * string * option string.

(** What [process_provider_event] reads and writes. *)
Record EventState := {
  ev_buffer : list AssistantEvent;
  ev_pending_tool : option PendingTool;
  ev_saw_stop : bool;
  ev_has_content : bool;
  ev_usage : Usage
}.

Definition emit (events : list AssistantEvent) (s : EventState) : EventState :=
  {| ev_buffer := ev_buffer s ++ events; ev_pending_tool := ev_pending_tool s; ev_saw_stop := ev_saw_stop s;
     ev_has_content := ev_has_content s; ev_usage := ev_usage s |}.
Definition set_pending (t : option PendingTool) (s : EventState) : EventState :=
  {| ev_buffer := ev_buffer s; ev_pending_tool := t; ev_saw_stop := ev_saw_stop s;
     ev_has_content := ev_has_content s; ev_usage := ev_usage s |}.
Definition set_has_content (s : EventState) : EventState :=
  {| ev_buffer := ev_buffer s; ev_pending_tool := ev_pending_tool s; ev_saw_stop := ev_saw_stop s;
     ev_has_content := true; ev_usage := ev_usage s |}.
Definition set_saw_stop (s : EventState) : EventState :=
  {| ev_buffer := ev_buffer s; ev_pending_tool := ev_pending_tool s; ev_saw_stop := true;
     ev_has_content := ev_has_content s; ev_usage := ev_usage s |}.
Definition merge_usage (u : Usage) (s : EventState) : EventState :=
  {| ev_buffer := ev_buffer s; ev_pending_tool := ev_pending_tool s; ev_saw_stop := ev_saw_stop s;
     ev_has_content := ev_has_content s; ev_usage := merge_snapshot (ev_usage s) u |}.
Definition emit_usage (s : EventState) : EventState := emit [EUsage (token_usage (ev_usage s))] s.

Definition push_output_block (streaming_tool_input : bool) (s : EventState) (block : OutputContentBlock) : EventState :=
  match block with
  | OutText text =>
      let s := emit [EResponseBlockStart] s in
      if is_empty text then s else emit [ETextDelta text] (set_has_content s)
  | OutToolUse id name input signature =>
      let initial := if streaming_tool_input && is_object input && is_empty_object input then ""%string else json_text input in
      set_pending (Some (id, name, initial, signature)) (emit [EResponseBlockStart] s)
  | OutThinking thinking signature => emit [EThinkingStart; EThinking thinking signature] s
  | OutRedactedThinking data => emit [ERedactedThinking (json_text data)] s
  end.

Definition process_delta (s : EventState) (d : ContentBlockDelta) : EventState :=
  match d with
  | TextDelta text => if is_empty text then s else emit [ETextDelta text] (set_has_content s)
  | InputJsonDelta partial_json =>
      match ev_pending_tool s with
      | Some (id, name, input, signature) => set_pending (Some (id, name, (input ++ partial_json)%string, signature)) s
      | None => s
      end
  | ThinkingDelta thinking => emit [EThinking thinking None] s
  | SignatureDelta signature => emit [EThinking "" (Some signature)] s
  end.

Definition process_provider_event (s : EventState) (event : StreamEvent) : EventState :=
  match event with
  | MessageStart m =>
      let s := emit_usage (merge_usage (mr_usage m) s) in
      let s := if is_empty (mr_model m) then s else emit [EModel (mr_model m)] s in
      fold_left (push_output_block true) (mr_content m) s
  | ContentBlockStart _ block => push_output_block true s block
  | ContentBlockDeltaEvent _ d => process_delta s d
  | ContentBlockStop _ =>
      match ev_pending_tool s with
      | Some (id, name, input, signature) =>
          emit [EToolUse id name (if is_empty input then "{}" else input)%string signature]
            (set_has_content (set_pending None s))
      | None => s
      end
  | MessageDeltaEvent _ usage => emit_usage (merge_usage usage s)
  | MessageStop => emit [EMessageStop] (set_saw_stop s)
  end.

Definition event_state_new : EventState :=
  {| ev_buffer := []; ev_pending_tool := None; ev_saw_stop := false; ev_has_content := false; ev_usage := usage_default |}.

(** ** A collected response as events *)

Definition response_block (s : EventState) (block : OutputContentBlock) : EventState :=
  let s := push_output_block false s block in
  match ev_pending_tool s with
  | Some (id, name, input, signature) => emit [EToolUse id name input signature] (set_pending None s)
  | None => s
  end.

Definition response_to_events (response : MessageResponse) : list AssistantEvent :=
  ev_buffer (fold_left response_block (mr_content response) event_state_new)
  ++ [EUsage (token_usage (mr_usage response)); EMessageStop].

(** ** The stream *)

Record StreamState := {
  ss_events : EventState;
  ss_retry : bool;    (* the original request is still held for a second try *)
  ss_done : bool
}.

Definition stream_state_new : StreamState := {| ss_events := event_state_new; ss_retry := true; ss_done := false |}.

(** The environment of one call: what the provider's stream delivers next (events, then an
    error or its end), the cache records taken at its end, and the answer to the second request. *)
Record StreamEnd := {
  se_error : option RuntimeError;
  se_cache : option PromptCacheEvent;
  se_retry : result RuntimeError MessageResponse;
  se_retry_cache : option PromptCacheEvent
}.

Definition NO_MESSAGE_STOP : string := "provider stream ended without message_stop; partial progress preserved".

Definition pop (s : StreamState) : option AssistantEvent * StreamState :=
  match ev_buffer (ss_events s) with
  | [] => (None, s)
  | e :: rest =>
      (Some e, {| ss_events := {| ev_buffer := rest; ev_pending_tool := ev_pending_tool (ss_events s);
                                  ev_saw_stop := ev_saw_stop (ss_events s);
                                  ev_has_content := ev_has_content (ss_events s); ev_usage := ev_usage (ss_events s) |};
                  ss_retry := ss_retry s; ss_done := ss_done s |})
  end.

Definition cache_events (c : option PromptCacheEvent) : list AssistantEvent :=
  match c with Some e => [EPromptCache e] | None => [] end.

(** The provider's stream has ended. *)
Definition stream_ends (end_ : StreamEnd) (s : StreamState) :
  result RuntimeError (option AssistantEvent * StreamState) :=
  let ev := emit (cache_events (se_cache end_)) (ss_events s) in
  if negb (ev_saw_stop ev) && ev_has_content ev then Err (runtime_error NO_MESSAGE_STOP)
  else if negb (ev_has_content ev) && ss_retry s then
    match se_retry end_ with
    | Err e => Err e
    | Ok response =>
        Ok (pop {| ss_events := emit (response_to_events response ++ cache_events (se_retry_cache end_)) ev;
                   ss_retry := false; ss_done := true |})
    end
  else Ok (pop {| ss_events := ev; ss_retry := ss_retry s; ss_done := true |}).

(** [next_event]; what is left of the provider's events comes back with the event. *)
Fixpoint next_loop (end_ : StreamEnd) (s : StreamState) (provider : list StreamEvent) :
  result RuntimeError (option AssistantEvent * StreamState * list StreamEvent) :=
  match provider with
  | [] =>
      match se_error end_ with
      | Some e => Err e
      | None => '(e, s) ← stream_ends end_ s; Ok (e, s, [])
      end
  | event :: provider =>
      let ev := process_provider_event (ss_events s) event in
      let s := {| ss_events := ev; ss_retry := ss_retry s && negb (ev_has_content ev); ss_done := ss_done s |} in
      match pop s with
      | (Some e, s) => Ok (Some e, s, provider)
      | (None, s) => next_loop end_ s provider
      end
  end.

Definition next_event (end_ : StreamEnd) (s : StreamState) (provider : list StreamEvent) :
  result RuntimeError (option AssistantEvent * StreamState * list StreamEvent) :=
  match pop s with
  | (Some e, s) => Ok (Some e, s, provider)
  | (None, s) => if ss_done s then Ok (None, s, provider) else next_loop end_ s provider
  end.

(** The stream read to its end: what was delivered, and the error, if any. *)
Fixpoint read_stream (fuel : nat) (end_ : StreamEnd) (s : StreamState) (provider : list StreamEvent) :
  run (list AssistantEvent * option RuntimeError) :=
  match fuel with
  | O => NoFuel
  | S fuel =>
      match next_event end_ s provider with
      | Err e => Ret ([], Some e)
      | Ok (None, _, _) => Ret ([], None)
      | Ok (Some e, s, provider) => '(l, r) ← read_stream fuel end_ s provider; Ret (e :: l, r)
      end
  end.
End Engine.
