(* ===== verification/EngineSafety.v ===== *)
(** * From a provider's chunks to the message

    What the chunks say reaches the assistant events: all text and all reasoning, in order; with
    inline reasoning, the two parts of the text, but for what the filter holds back when a native
    reasoning comes after all.  The counts of a usage report stay within what it says. *)
From S2P Require Import Prelude.
From stdpp Require Import list.
From S2P Require Import RustStr BTree Json JsonModel Conversation AssistantMessage ProviderStream InlineSafety StreamCollect EngineStream.

#[local] Arguments then_ : simpl never.

(** ** Usage *)

(** No count is lost or wraps: the three input counts a provider's report is split into stay
    within what it reported, and add up to its prompt tokens whenever the cached and written
    parts are parts of it; and the snapshots of a stream never lose a count. *)
Theorem usage_split_is_bounded u (v : Usage) :
  let w := to_api_usage u in
  let prompt := N.max (oa_prompt_tokens u) (oa_input_tokens u) in
  (u_input_tokens w <= prompt)%N /\
  ((u_cache_read_input_tokens w + u_cache_creation_input_tokens w <= prompt)%N ->
     (u_input_tokens w + u_cache_read_input_tokens w + u_cache_creation_input_tokens w = prompt)%N) /\
  ((prompt < 2 ^ 32)%N -> (u_input_tokens w < 2 ^ 32)%N) /\
  (u_input_tokens (merge_snapshot v w) = u_input_tokens v \/ u_input_tokens (merge_snapshot v w) = u_input_tokens w) /\
  (u_reported_total_tokens v = None \/ exists a b, u_reported_total_tokens v = Some a /\
     u_reported_total_tokens (merge_snapshot v w) = Some b /\ (a <= b)%N).
Proof.
  cbn -[N.pow]. split_and!; [lia|lia|lia| |].
  - unfold positive_or. destruct (0 <? _)%N; [by right|by left].
  - destruct (u_reported_total_tokens v) as [a|]; [right|by left]. cbn.
    exists a.
    destruct (oa_total_tokens u) as [b|]; [destruct (0 <? b)%N|]; eexists; (split; [done|]); (split; [reflexivity|]); lia.
Qed.

Section Engine.
Context `{SerdeJson} (empty_object : Value) (json_text : Value -> string) (is_empty_object : Value -> bool).

Notation process := (process_provider_event json_text is_empty_object).
Notation eng := (fold_left (process_provider_event json_text is_empty_object)).

(** ** Text and reasoning *)

Definition out_text (b : OutputContentBlock) : string := match b with OutText t => t | _ => "" end.
Definition out_thinking (b : OutputContentBlock) : string := match b with OutThinking t _ => t | _ => "" end.

Definition stream_text (e : StreamEvent) : string :=
  match e with
  | MessageStart m => concat_str out_text (mr_content m)
  | ContentBlockStart _ b => out_text b
  | ContentBlockDeltaEvent _ (TextDelta t) => t
  | _ => ""
  end.
Definition stream_thinking (e : StreamEvent) : string :=
  match e with
  | MessageStart m => concat_str out_thinking (mr_content m)
  | ContentBlockStart _ b => out_thinking b
  | ContentBlockDeltaEvent _ (ThinkingDelta t) => t
  | _ => ""
  end.

(** The text and the reasoning delivered so far. *)
Definition delivered (s : EventState) (text thinking : string) : Prop :=
  concat_str event_text (ev_buffer s) = text /\ concat_str event_thinking (ev_buffer s) = thinking.

Lemma emit_delivered l s text thinking :
  delivered s text thinking ->
  delivered (emit l s) (text ++ concat_str event_text l) (thinking ++ concat_str event_thinking l).
Proof. intros [K1 K2]. split; cbn; by rewrite concat_str_app, ?K1, ?K2. Qed.

Lemma push_block_delivered b streaming s text thinking :
  delivered s text thinking ->
  delivered (push_output_block json_text is_empty_object streaming s b) (text ++ out_text b) (thinking ++ out_thinking b).
Proof.
  intros Hs. destruct b as [t|id name input sg|t sg|data]; cbn [push_output_block out_text out_thinking].
  - apply (emit_delivered [EResponseBlockStart]) in Hs. cbn in Hs. rewrite !str_app_nil_r in Hs.
    destruct (is_empty t) eqn:E; [apply is_empty_eq in E as ->; by rewrite !str_app_nil_r|].
    apply (emit_delivered [ETextDelta t]) in Hs. cbn in Hs. rewrite !str_app_nil_r in Hs. rewrite !str_app_nil_r. exact Hs.
  - apply (emit_delivered [EResponseBlockStart]) in Hs. exact Hs.
  - apply (emit_delivered [EThinkingStart; EThinking t sg]) in Hs. cbn in Hs. by rewrite !str_app_nil_r in *.
  - apply (emit_delivered [ERedactedThinking (json_text data)]) in Hs. exact Hs.
Qed.

Lemma process_delivered e s text thinking :
  delivered s text thinking -> delivered (process s e) (text ++ stream_text e) (thinking ++ stream_thinking e).
Proof.
  intros Hs. destruct e as [m|d u|i b|i d|i|]; cbn [process_provider_event stream_text stream_thinking].
  - assert (delivered (emit_usage (merge_usage (mr_usage m) s)) text thinking) as K1.
    { apply (emit_delivered [EUsage (token_usage (merge_snapshot (ev_usage s) (mr_usage m)))]) in Hs.
      cbn in Hs. by rewrite !str_app_nil_r in Hs. }
    assert (delivered (if is_empty (mr_model m) then emit_usage (merge_usage (mr_usage m) s)
      else emit [EModel (mr_model m)] (emit_usage (merge_usage (mr_usage m) s))) text thinking) as K2.
    { destruct (is_empty (mr_model m)); [done|]. apply (emit_delivered [EModel (mr_model m)]) in K1.
      cbn in K1. by rewrite !str_app_nil_r in K1. }
    revert K2. generalize (if is_empty (mr_model m) then emit_usage (merge_usage (mr_usage m) s)
      else emit [EModel (mr_model m)] (emit_usage (merge_usage (mr_usage m) s))). clear.
    revert text thinking. induction (mr_content m) as [|b l IH]; intros text thinking s K; cbn; [by rewrite !str_app_nil_r|].
    rewrite <- !str_app_assoc. apply IH. by apply push_block_delivered.
  - apply (emit_delivered [EUsage (token_usage (merge_snapshot (ev_usage s) u))]) in Hs. exact Hs.
  - by apply push_block_delivered.
  - destruct d as [t|j|t|sg]; cbn [process_delta].
    + destruct (is_empty t) eqn:E; [apply is_empty_eq in E as ->; by rewrite !str_app_nil_r|].
      apply (emit_delivered [ETextDelta t]) in Hs. cbn in Hs. rewrite !str_app_nil_r in *. exact Hs.
    + rewrite !str_app_nil_r. by destruct (ev_pending_tool s) as [[[[id name] input] sg]|].
    + apply (emit_delivered [EThinking t None]) in Hs. cbn in Hs. by rewrite !str_app_nil_r in *.
    + apply (emit_delivered [EThinking "" (Some sg)]) in Hs. exact Hs.
  - destruct (ev_pending_tool s) as [[[[id name] input] sg]|]; [|by rewrite !str_app_nil_r].
    apply (emit_delivered [EToolUse id name (if is_empty input then "{}" else input)%string sg]) in Hs. exact Hs.
  - apply (emit_delivered [EMessageStop]) in Hs. exact Hs.
Qed.

Lemma eng_delivered l : forall s text thinking, delivered s text thinking ->
  delivered (eng l s) (text ++ concat_str stream_text l) (thinking ++ concat_str stream_thinking l).
Proof.
  induction l as [|e l IH]; intros s text thinking Hs; cbn; [by rewrite !str_app_nil_r|].
  rewrite <- !str_app_assoc. apply IH. by apply process_delivered.
Qed.

(** ** What the chunks say *)

(** The events of [x] carry this text and this reasoning. *)
Definition says (x : Emits) (text thinking : string) : Prop :=
  concat_str stream_text x.2 = text /\ concat_str stream_thinking x.2 = thinking.

Lemma says_then x f t1 r1 t2 r2 : says x t1 r1 -> says (f x.1) t2 r2 -> says (then_ x f) (t1 ++ t2) (r1 ++ r2).
Proof.
  unfold then_, says. destruct (f x.1) as [s e]. cbn. intros [<- <-] [<- <-]. by rewrite !concat_str_app.
Qed.

Lemma says_then_quiet x f t r : says x "" "" -> says (f x.1) t r -> says (then_ x f) t r.
Proof. intros Hx Hf. exact (says_then x f "" "" t r Hx Hf). Qed.

Lemma says_then_last x f t r : says x t r -> says (f x.1) "" "" -> says (then_ x f) t r.
Proof. intros Hx Hf. pose proof (says_then x f t r "" "" Hx Hf) as K. by rewrite !str_app_nil_r in K. Qed.

Lemma says_ensure s : says (ensure_message_started s) "" "".
Proof. unfold ensure_message_started. by destruct (cs_message_started s). Qed.
Lemma says_close s : says (close_thinking s) "" "".
Proof. unfold close_thinking. by destruct (_ && _). Qed.

Lemma says_thinking t s : says (ingest_thinking t s) "" t.
Proof.
  unfold ingest_thinking. apply says_then_quiet.
  - destruct (cs_thinking_started s); [done|]. apply says_then_quiet; [apply says_ensure|done].
  - destruct (is_empty t) eqn:E; [by apply is_empty_eq in E as ->|]. split; cbn; by rewrite ?str_app_nil_r.
Qed.

Lemma says_text t s : says (ingest_text t s) t "".
Proof.
  unfold ingest_text. apply says_then_quiet; [apply says_close|]. apply says_then_quiet.
  - destruct (cs_text_started _); [done|]. apply says_then_quiet; [apply says_ensure|done].
  - split; cbn; by rewrite ?str_app_nil_r.
Qed.

(** Events without text or reasoning. *)
Definition mute (e : StreamEvent) : Prop := stream_text e = "" /\ stream_thinking e = "".

Lemma says_mute (s : ChatStreamState) l : Forall mute l -> says (s, l) "" "".
Proof.
  induction 1 as [|e l [K1 K2] _ [IH1 IH2]]; [done|]. unfold says in *. cbn in *. by rewrite K1, K2, IH1, IH2.
Qed.

Lemma tool_delta_mute t offset : Forall mute (tool_delta t offset).2.
Proof. unfold tool_delta. destruct (_ <=? _); [constructor|]. by repeat constructor. Qed.

Lemma open_call_mute offset t t' start : open_call empty_object offset t = Some (t', start) -> Forall mute start.
Proof.
  unfold open_call, start_event. destruct (tc_started t); [by intros [= _ <-]|].
  destruct (tc_name t); [|done]. intros [= _ <-]. by repeat constructor.
Qed.

Lemma call_events_mute ends offset t start : Forall mute start -> Forall mute (call_events ends offset t start).2.
Proof.
  intros Hs. unfold call_events. pose proof (tool_delta_mute t offset) as Hd. destruct (tool_delta t offset) as [t' delta].
  destruct (ends && _); cbn in *; repeat (apply Forall_app; split); try done. by repeat constructor.
Qed.

Lemma says_tool_call ends call s : says (ingest_tool_call empty_object ends call s) "" "".
Proof.
  unfold ingest_tool_call. apply says_then_quiet; [apply says_close|]. cbn zeta.
  destruct (open_call _ _ _) as [[t start]|] eqn:Eo; [|done]. apply open_call_mute in Eo.
  pose proof (call_events_mute ends (tool_index_offset (close_thinking s).1) t start Eo) as Hc.
  destruct (call_events _ _ _ _) as [t' e]. apply says_then_quiet; [destruct start; [done|apply says_ensure]|].
  by apply says_mute.
Qed.

Lemma each_call_mute f l : (forall t, Forall mute (f t).2) -> Forall mute (each_call f l).2.
Proof.
  intros Hf. induction l as [|[i t] l IH]; [constructor|]. cbn. pose proof (Hf t) as K.
  destruct (f t) as [t' e]. destruct (each_call f l) as [l' e']. by apply Forall_app.
Qed.

Lemma stop_call_mute offset t : Forall mute (stop_call offset t).2.
Proof. unfold stop_call. destruct (_ && _); [by repeat constructor|constructor]. Qed.

Lemma finish_call_mute offset t : Forall mute (finish_call empty_object offset t).2.
Proof.
  unfold finish_call. 
  assert (Forall mute (if tc_started t then (t, []) else match start_event empty_object t offset with
     | Some e => let '(t, delta) := tool_delta (tool_started t) offset in (t, e :: delta) | None => (t, []) end).2) as K.
  { destruct (tc_started t); [constructor|]. unfold start_event. destruct (tc_name t); [|constructor]. cbn.
    pose proof (tool_delta_mute (tool_started t) offset). destruct (tool_delta _ _). by constructor. }
  destruct (if tc_started t then _ else _) as [t1 opened]. pose proof (stop_call_mute offset t1).
  destruct (stop_call offset t1). by apply Forall_app.
Qed.

Lemma says_finish_reason reason s : says (ingest_finish_reason reason s) "" "".
Proof.
  unfold ingest_finish_reason. apply says_then_quiet; [destruct (String.eqb _ _); [apply says_ensure|done]|]. cbn zeta.
  destruct (String.eqb reason "tool_calls"); [|done].
  pose proof (each_call_mute (stop_call (tool_index_offset (set_stop_reason (normalize_finish_reason reason)
    (if String.eqb reason "content_filter" then ensure_message_started s else (s, [])).1)))
    (cs_tool_calls (set_stop_reason (normalize_finish_reason reason)
    (if String.eqb reason "content_filter" then ensure_message_started s else (s, [])).1)) (stop_call_mute _)) as K.
  destruct (each_call _ _). by apply says_mute.
Qed.

(** ** Inline reasoning in the stream *)

(** [f] leaves the inline parser as it is. *)
Definition keeps_inline (f : ChatStreamState -> Emits) : Prop := forall s, cs_inline (f s).1 = cs_inline s.

Lemma keeps_then x f : cs_inline (then_ x f).1 = cs_inline (f x.1).1.
Proof. unfold then_. by destruct (f x.1). Qed.

Lemma keeps_ensure : keeps_inline ensure_message_started.
Proof. intros s. unfold ensure_message_started. by destruct (cs_message_started s). Qed.
Lemma keeps_close : keeps_inline close_thinking.
Proof. intros s. unfold close_thinking. by destruct (_ && _). Qed.
Lemma keeps_thinking t : keeps_inline (ingest_thinking t).
Proof.
  intros s. unfold ingest_thinking. rewrite keeps_then. cbn. destruct (cs_thinking_started s); [done|].
  rewrite keeps_then. apply keeps_ensure.
Qed.
Lemma keeps_text t : keeps_inline (ingest_text t).
Proof.
  intros s. unfold ingest_text. rewrite !keeps_then. cbn. destruct (cs_text_started _); [apply keeps_close|].
  rewrite keeps_then. cbn. rewrite keeps_ensure. apply keeps_close.
Qed.
Lemma keeps_content l : keeps_inline (ingest_content l).
Proof.
  induction l as [|[[] t] l IH]; intros s; cbn; [done|..]; rewrite keeps_then, IH; [apply keeps_thinking|apply keeps_text].
Qed.
Lemma keeps_tool_call ends call : keeps_inline (ingest_tool_call empty_object ends call).
Proof.
  intros s. unfold ingest_tool_call. rewrite keeps_then. cbn zeta.
  destruct (open_call _ _ _) as [[t start]|]; [|apply keeps_close]. destruct (call_events _ _ _ _) as [t' e].
  rewrite keeps_then. cbn. destruct start; [apply keeps_close|]. rewrite keeps_ensure. apply keeps_close.
Qed.
Lemma keeps_tool_calls ends l : keeps_inline (ingest_tool_calls empty_object ends l).
Proof. induction l as [|c l IH]; intros s; cbn; [done|]. rewrite keeps_then, IH. apply keeps_tool_call. Qed.
Lemma keeps_finish_reason reason : keeps_inline (ingest_finish_reason reason).
Proof.
  intros s. unfold ingest_finish_reason. rewrite keeps_then. cbn zeta.
  assert (cs_inline (if String.eqb reason "content_filter" then ensure_message_started s else (s, [])).1 = cs_inline s) as K
    by (destruct (String.eqb _ _); [apply keeps_ensure|done]).
  destruct (String.eqb reason "tool_calls"); [destruct (each_call _ _)|]; exact K.
Qed.

Lemma says_content l : forall s, says (ingest_content l s) (answer_of l) (reasoning_of l).
Proof.
  induction l as [|[[] t] l IH]; intros s; cbn; [done|..].
  - exact (says_then _ _ _ _ _ _ (says_thinking t s) (IH _)).
  - exact (says_then _ _ _ _ _ _ (says_text t s) (IH _)).
Qed.

Lemma says_tool_calls ends l : forall s, says (ingest_tool_calls empty_object ends l s) "" "".
Proof. induction l as [|c l IH]; intros s; cbn; [done|]. apply says_then_quiet; [apply says_tool_call|apply IH]. Qed.

(** The content and the reasoning of a chunk's choice. *)
Definition choice_text (c : ChunkChoice) : string := default "" (cd_content (cc_delta c)).
Definition choice_reasoning (c : ChunkChoice) : string :=
  default "" (normalize_reasoning (cd_reasoning (cc_delta c)) (cd_reasoning_content (cc_delta c))).

(** The inline parser, if there is one, after the text of a choice, and what it delivered. *)
Definition filtered (p : option InlineReasoning) (text : string) : option InlineReasoning * list Segment :=
  if is_empty text then (p, [])
  else match p with
       | Some p => let '(p, l) := inline_push p text in (Some p, l)
       | None => (None, [(false, text)])
       end.

Lemma says_reasoning r s :
  says (ingest_reasoning r s) "" r /\ cs_inline (ingest_reasoning r s).1 = if is_empty r then cs_inline s else None.
Proof. unfold ingest_reasoning. split; [apply says_thinking|]. rewrite keeps_thinking. by destruct (is_empty r). Qed.

Lemma says_answer text s :
  says (ingest_answer text s) (answer_of (filtered (cs_inline s) text).2) (reasoning_of (filtered (cs_inline s) text).2)
  /\ cs_inline (ingest_answer text s).1 = (filtered (cs_inline s) text).1.
Proof.
  unfold ingest_answer, filtered. destruct (is_empty text); [done|].
  destruct (cs_inline s) as [p|] eqn:Ep.
  - destruct (inline_push p text) as [p' l]. split; [apply says_content|]. apply keeps_content.
  - split; [apply (says_content [(false, text)])|]. by rewrite (keeps_content [(false, text)]).
Qed.

Lemma says_choice c s :
  let p := if is_empty (choice_reasoning c) then cs_inline s else None in
  says (ingest_choice empty_object c s) (answer_of (filtered p (choice_text c)).2)
    (choice_reasoning c ++ reasoning_of (filtered p (choice_text c)).2)
  /\ cs_inline (ingest_choice empty_object c s).1 = (filtered p (choice_text c)).1.
Proof.
  cbn zeta. unfold ingest_choice.
  set (x := match normalize_reasoning _ _ with Some r => ingest_reasoning r s | None => (s, []) end).
  assert (says x "" (choice_reasoning c) /\ cs_inline x.1 = if is_empty (choice_reasoning c) then cs_inline s else None) as [K1 K2].
  { unfold x, choice_reasoning. destruct (normalize_reasoning _ _); [apply says_reasoning|done]. }
  set (y := match cd_content (cc_delta c) with Some t => ingest_answer t x.1 | None => (x.1, []) end).
  assert (says y (answer_of (filtered (cs_inline x.1) (choice_text c)).2) (reasoning_of (filtered (cs_inline x.1) (choice_text c)).2)
    /\ cs_inline y.1 = (filtered (cs_inline x.1) (choice_text c)).1) as [K3 K4].
  { unfold y, choice_text. destruct (cd_content (cc_delta c)) as [t|]; [apply says_answer|done]. }
  rewrite K2 in *. split.
  - apply (says_then x _ "" (choice_reasoning c)); [exact K1|]. fold y. apply says_then_last; [exact K3|].
    apply says_then_quiet; [apply says_tool_calls|]. destruct (cc_finish_reason c); [apply says_finish_reason|done].
  - rewrite keeps_then. fold y. rewrite !keeps_then, <- K4.
    destruct (cc_finish_reason c); [rewrite keeps_finish_reason|]; cbn [fst]; apply keeps_tool_calls.
Qed.

(** ** Whole responses *)

Definition all_choices (chunks : list ChatCompletionChunk) : list ChunkChoice := chunks ≫= ck_choices.

Fixpoint filtered_all (p : option InlineReasoning) (l : list ChunkChoice) : option InlineReasoning * list Segment :=
  match l with
  | [] => (p, [])
  | c :: l =>
      let q := if is_empty (choice_reasoning c) then p else None in
      let '(q, e) := filtered q (choice_text c) in
      let '(q, e') := filtered_all q l in
      (q, (if is_empty (choice_reasoning c) then [] else [(true, choice_reasoning c)]) ++ e ++ e')
  end.

Lemma reasoning_prefix r l :
  reasoning_of ((if is_empty r then [] else [(true, r)]) ++ l) = (r ++ reasoning_of l)%string
  /\ answer_of ((if is_empty r then [] else [(true, r)]) ++ l) = answer_of l.
Proof. destruct (is_empty r) eqn:E; [by apply is_empty_eq in E as ->|]. done. Qed.

Lemma says_choices l : forall s,
  says (ingest_choices empty_object l s) (answer_of (filtered_all (cs_inline s) l).2) (reasoning_of (filtered_all (cs_inline s) l).2)
  /\ cs_inline (ingest_choices empty_object l s).1 = (filtered_all (cs_inline s) l).1.
Proof.
  induction l as [|c l IH]; intros s; cbn [ingest_choices filtered_all]; [done|]. destruct (says_choice c s) as [K1 K2]. cbn zeta in K1, K2.
  destruct (filtered _ (choice_text c)) as [q e] eqn:Ef. cbn [fst snd] in K1, K2.
  destruct (IH (ingest_choice empty_object c s).1) as [K3 K4]. rewrite K2 in K3, K4.
  destruct (filtered_all q l) as [q' e'] eqn:Eq. cbn [fst snd] in *. split.
  - destruct (reasoning_prefix (choice_reasoning c) (e ++ e')) as [-> ->].
    rewrite answer_of_app, reasoning_of_app, <- str_app_assoc. by apply says_then.
  - by rewrite keeps_then.
Qed.

Lemma filtered_all_app l k p :
  filtered_all p (l ++ k) =
    let '(q, e) := filtered_all p l in let '(q, e') := filtered_all q k in (q, e ++ e').
Proof.
  revert p. induction l as [|c l IH]; intros p; cbn [app filtered_all]; [by destruct (filtered_all p k)|].
  destruct (filtered _ (choice_text c)) as [q e]. rewrite IH. destruct (filtered_all q l) as [q1 e1].
  destruct (filtered_all q1 k) as [q2 e2]. by rewrite !app_assoc.
Qed.

Lemma says_chunks l : forall s,
  says (ingest_chunks empty_object l s) (answer_of (filtered_all (cs_inline s) (all_choices l)).2)
    (reasoning_of (filtered_all (cs_inline s) (all_choices l)).2)
  /\ cs_inline (ingest_chunks empty_object l s).1 = (filtered_all (cs_inline s) (all_choices l)).1.
Proof.
  induction l as [|c l IH]; intros s; [done|]. cbn [ingest_chunks]. unfold all_choices. rewrite bind_cons.
  fold (all_choices l). rewrite filtered_all_app.
  assert (says (ingest_chunk empty_object c s) (answer_of (filtered_all (cs_inline s) (ck_choices c)).2)
      (reasoning_of (filtered_all (cs_inline s) (ck_choices c)).2)
    /\ cs_inline (ingest_chunk empty_object c s).1 = (filtered_all (cs_inline s) (ck_choices c)).1) as [K1 K2]
    by apply (says_choices (ck_choices c) (set_header _ _ _ s)).
  destruct (filtered_all (cs_inline s) (ck_choices c)) as [q e] eqn:Ef. cbn [fst snd] in K1, K2.
  destruct (IH (ingest_chunk empty_object c s).1) as [K3 K4]. rewrite K2 in K3, K4.
  destruct (filtered_all q (all_choices l)) as [q' e'] eqn:Eq. cbn [fst snd] in *. split.
  - rewrite answer_of_app, reasoning_of_app. by apply says_then.
  - by rewrite keeps_then.
Qed.

Lemma says_chat_finish s : cs_finished s = false ->
  match match cs_inline s with Some p => inline_finish p | None => Ok (inline_new, []) end with
  | Err e => (chat_finish empty_object s).2 = Err e
  | Ok (_, l) => exists e, (chat_finish empty_object s).2 = Ok e /\ says (s, e) (answer_of l) (reasoning_of l)
  end.
Proof.
  intros Hs. unfold chat_finish. rewrite Hs. unfold finish_inline. cbn [cs_inline set_finished set_rest].
  assert (forall x l, says x (answer_of l) (reasoning_of l) ->
    exists e, (let '(s, e) := then_ (then_ (then_ (then_ x close_thinking) finish_text) (finish_tools empty_object)) finish_message in
               (s, Ok e : result string (list StreamEvent))).2 = Ok e /\ says (s, e) (answer_of l) (reasoning_of l)) as Hrest.
  { intros x l Hx. 
    assert (says (then_ (then_ (then_ (then_ x close_thinking) finish_text) (finish_tools empty_object)) finish_message)
      (answer_of l) (reasoning_of l)) as K.
    { apply says_then_last; [|by unfold finish_message; destruct (cs_message_started _)].
      apply says_then_last.
      - apply says_then_last; [apply says_then_last; [exact Hx|apply says_close]|].
        unfold finish_text. by destruct (_ && _).
      - unfold finish_tools. pose proof (each_call_mute _ (cs_tool_calls (then_ (then_ x close_thinking) finish_text).1)
          (finish_call_mute (tool_index_offset (then_ (then_ x close_thinking) finish_text).1))) as Hm.
        destruct (each_call _ _) as [calls e]. apply says_then_quiet; [destruct e; [done|apply says_ensure]|]. by apply says_mute. }
    destruct (then_ _ finish_message) as [s' e]. by exists e. }
  destruct (cs_inline s) as [p|].
  - destruct (inline_finish p) as [[p' l]|e]; [|done]. apply Hrest, says_content.
  - apply (Hrest _ []). done.
Qed.

Lemma filtered_all_none l :
  exists e, filtered_all None l = (None, e) /\
    answer_of e = concat_str choice_text l /\ reasoning_of e = concat_str choice_reasoning l.
Proof.
  induction l as [|c l (e & IH & K1 & K2)]; [by exists []|]. cbn [filtered_all].
  assert (exists e0, filtered (if is_empty (choice_reasoning c) then None else None) (choice_text c) = (None, e0)
    /\ answer_of e0 = choice_text c /\ reasoning_of e0 = "") as (e0 & -> & K3 & K4).
  { replace (if is_empty (choice_reasoning c) then None else None) with (@None InlineReasoning) by (by destruct (is_empty _)).
    unfold filtered. destruct (is_empty (choice_text c)) eqn:E.
    - apply is_empty_eq in E as ->. by exists [].
    - eexists. split; [done|]. cbn. by rewrite !str_app_nil_r. }
  rewrite IH. eexists. split; [done|]. destruct (reasoning_prefix (choice_reasoning c) (e0 ++ e)) as [-> ->].
  rewrite answer_of_app, reasoning_of_app, K1, K2, K3, K4. done.
Qed.

Definition texts (l : list ChunkChoice) : list string :=
  List.filter (fun t => negb (is_empty t)) (map choice_text l).

Lemma filtered_all_inline l : Forall (fun c => choice_reasoning c = "") l ->
  forall p, let '(q, e) := inline_run p (texts l) in filtered_all (Some p) l = (Some q, e).
Proof.
  induction 1 as [|c l Hc _ IH]; intros p; [done|]. cbn [filtered_all]. rewrite Hc. cbn [is_empty app].
  unfold texts. cbn [map List.filter]. fold (texts l). unfold filtered. destruct (is_empty (choice_text c)).
  - cbn [negb]. specialize (IH p). destruct (inline_run p (texts l)) as [q e]. by rewrite IH.
  - cbn [negb inline_run]. destruct (inline_push p (choice_text c)) as [p1 e1]. specialize (IH p1).
    destruct (inline_run p1 (texts l)) as [q e]. by rewrite IH.
Qed.

Lemma concat_texts l : concat_str id (texts l) = concat_str choice_text l.
Proof.
  unfold texts. induction l as [|c l IH]; cbn; [done|]. destruct (is_empty (choice_text c)) eqn:E; cbn; rewrite IH; [|done].
  by apply is_empty_eq in E as ->.
Qed.

Lemma emits_unfinished (f : ChatStreamState -> Emits) x :
  cs_finished x.1 = false -> (forall s, cs_finished s = false -> cs_finished (f s).1 = false) ->
  cs_finished (then_ x f).1 = false.
Proof. intros Hx Hf. unfold then_. specialize (Hf _ Hx). by destruct (f x.1). Qed.

Ltac unfinished :=
  repeat (intros; cbn zeta;
    match goal with
    | |- cs_finished (then_ _ _).1 = false => apply emits_unfinished
    | |- cs_finished (match ?x with _ => _ end).1 = false => destruct x
    | |- cs_finished (ensure_message_started _).1 = false => unfold ensure_message_started
    | |- cs_finished (close_thinking _).1 = false => unfold close_thinking
    | |- cs_finished (ingest_thinking _ _).1 = false => unfold ingest_thinking
    | |- cs_finished (ingest_text _ _).1 = false => unfold ingest_text
    | |- _ => solve [assumption | cbn; assumption]
    end).

Lemma chunks_unfinished chunks model : cs_finished (ingest_chunks empty_object chunks (chat_new model)).1 = false.
Proof.
  assert (forall l s, cs_finished s = false -> cs_finished (ingest_content l s).1 = false) as Hcontent.
  { induction l as [|[b t] l IH]; intros s Hs; [done|]. cbn [ingest_content]. apply emits_unfinished; [|exact IH].
    destruct b; unfinished. }
  assert (forall ends l s, cs_finished s = false -> cs_finished (ingest_tool_calls empty_object ends l s).1 = false) as Htools.
  { intros ends. induction l as [|c l IH]; intros s Hs; [done|]. cbn [ingest_tool_calls]. apply emits_unfinished; [|exact IH].
    unfold ingest_tool_call. unfinished. }
  assert (forall c s, cs_finished s = false -> cs_finished (ingest_choice empty_object c s).1 = false) as Hchoice.
  { intros c s Hs. unfold ingest_choice. apply emits_unfinished.
    { destruct (normalize_reasoning _ _) as [r|]; [|done]. unfold ingest_reasoning. destruct (is_empty r); unfinished. }
    intros s1 H1. apply emits_unfinished.
    { destruct (cd_content _) as [t|]; [|done]. unfold ingest_answer. destruct (is_empty t); [done|].
      destruct (cs_inline s1); [destruct (inline_push _ _)|]; by apply Hcontent. }
    intros s2 H2. apply emits_unfinished; [by apply Htools|].
    intros s3 H3. destruct (cc_finish_reason c); [|done]. unfold ingest_finish_reason. unfinished. }
  assert (forall l s, cs_finished s = false -> cs_finished (ingest_choices empty_object l s).1 = false) as Hchoices.
  { induction l as [|c l IH]; intros s Hs; [done|]. cbn [ingest_choices]. apply emits_unfinished; [by apply Hchoice|exact IH]. }
  assert (forall s, cs_finished s = false -> cs_finished (ingest_chunks empty_object chunks s).1 = false) as Hchunks; [|by apply Hchunks].
  induction chunks as [|c l IH]; intros s Hs; [done|]. cbn [ingest_chunks]. apply emits_unfinished; [|exact IH].
  unfold ingest_chunk. by apply Hchoices.
Qed.

(** The events of a response, from what its chunks and its end say. *)
Lemma chat_events_say model chunks :
  let '(q, e) := filtered_all (for_model model) (all_choices chunks) in
  match match q with Some p => inline_finish p | None => Ok (inline_new, []) end with
  | Err err => chat_events empty_object model chunks = Err err
  | Ok (_, l) => exists events, chat_events empty_object model chunks = Ok events /\
      delivered (eng events event_state_new) (answer_of (e ++ l)) (reasoning_of (e ++ l))
  end.
Proof.
  unfold chat_events. destruct (says_chunks chunks (chat_new model)) as [K1 K2].
  assert (cs_finished (ingest_chunks empty_object chunks (chat_new model)).1 = false) as Hf by apply chunks_unfinished.
  pose proof (says_chat_finish _ Hf) as K3. rewrite K2 in K3. cbn [cs_inline chat_new] in *.
  destruct (filtered_all (for_model model) (all_choices chunks)) as [q e]. cbn [fst snd] in *.
  destruct (ingest_chunks empty_object chunks (chat_new model)) as [s evs]. cbn [fst] in *.
  destruct (match q with Some p => inline_finish p | None => _ end) as [[p l]|err]; [|by rewrite K3].
  destruct K3 as (evs' & -> & K3). eexists. split; [done|].
  destruct K1 as [K1 K1'], K3 as [K3 K3']. cbn [snd] in *.
  assert (delivered event_state_new "" "") as Hnew by done.
  pose proof (eng_delivered (evs ++ evs') _ _ _ Hnew) as Hd. cbn [append] in Hd.
  rewrite !concat_str_app, K1, K1', K3, K3' in Hd. by rewrite answer_of_app, reasoning_of_app.
Qed.

(** The first native reasoning ends the filter. *)
Lemma filtered_all_native before c after :
  Forall (fun c => choice_reasoning c = "") before -> choice_reasoning c <> "" ->
  exists e, filtered_all (Some inline_new) (before ++ c :: after)
      = (None, (inline_run inline_new (texts before)).2 ++ e)
    /\ answer_of e = concat_str choice_text (c :: after) /\ reasoning_of e = concat_str choice_reasoning (c :: after).
Proof.
  intros Hb Hc. rewrite filtered_all_app. pose proof (filtered_all_inline _ Hb inline_new) as Hf.
  destruct (inline_run inline_new (texts before)) as [p l]. rewrite Hf. cbn [snd].
  destruct (filtered_all_none (c :: after)) as (e & He & K1 & K2). exists e. split; [|done].
  assert (filtered_all (Some p) (c :: after) = filtered_all None (c :: after)) as ->; [|by rewrite He].
  cbn [filtered_all]. destruct (is_empty (choice_reasoning c)) eqn:E; [by apply is_empty_eq in E|done].
Qed.

(** C31. What of a provider's text reaches the turn.

    Whatever the chunks of a response, and though tool calls, metadata and empty pieces come
    between them: for a model without inline reasoning the text and the reasoning the engine
    delivers are those of the chunks, in order and complete.  For a deployment with inline
    reasoning whose chunks carry no native reasoning they are the two parts of the whole text, and a
    reasoning that is never closed fails the response.  Where such a deployment sends a native
    reasoning after all, what the filter had delivered before it is followed by the rest as it is:
    the text that the filter still held back then is lost ([held_back_text_is_lost]). *)
Theorem provider_text_is_delivered model chunks :
  let text := concat_str choice_text (all_choices chunks) in
  let reasoning := concat_str choice_reasoning (all_choices chunks) in
  (for_model model = None ->
     exists events, chat_events empty_object model chunks = Ok events /\
       delivered (eng events event_state_new) text reasoning) /\
  (for_model model <> None -> Forall (fun c => choice_reasoning c = "" /\ aligned (choice_text c) = true) (all_choices chunks) ->
     match split_reasoning text with
     | Ok (r, a) => exists events, chat_events empty_object model chunks = Ok events /\
                      delivered (eng events event_state_new) a r
     | Err e => chat_events empty_object model chunks = Err e
     end) /\
  (forall before c after, for_model model <> None -> all_choices chunks = before ++ c :: after ->
     Forall (fun c => choice_reasoning c = "") before -> choice_reasoning c <> "" ->
     let passed := (inline_run inline_new (texts before)).2 in
     exists events, chat_events empty_object model chunks = Ok events /\
       delivered (eng events event_state_new) (answer_of passed ++ concat_str choice_text (c :: after))
         (reasoning_of passed ++ concat_str choice_reasoning (c :: after))).
Proof.
  cbn zeta. pose proof (chat_events_say model chunks) as K.
  assert (for_model model <> None -> for_model model = Some inline_new) as Hinline
    by (unfold for_model; by destruct (_ && _)).
  split_and!.
  - intros Hm. rewrite Hm in K. destruct (filtered_all_none (all_choices chunks)) as (e & He & K1 & K2).
    rewrite He, app_nil_r in K. by rewrite K1, K2 in K.
  - intros Hm Hall. rewrite (Hinline Hm) in K. apply Forall_and in Hall as [Hr Ha].
    pose proof (filtered_all_inline _ Hr inline_new) as Hf. rewrite <- concat_texts.
    assert (Forall (fun c => aligned c = true) (texts (all_choices chunks))) as Htexts.
    { unfold texts. apply Forall_forall. intros t [Ht _]%list_elem_of_In%filter_In.
      apply in_map_iff in Ht as (c & <- & Hc%list_elem_of_In). rewrite Forall_forall in Ha. by apply Ha. }
    rewrite <- (inline_split_spec _ Htexts). unfold inline_split.
    destruct (inline_run inline_new (texts (all_choices chunks))) as [p l]. rewrite Hf in K.
    by destruct (inline_finish p) as [[p' l']|err].
  - intros before c after Hm Hall Hb Hc. rewrite (Hinline Hm), Hall in K.
    destruct (filtered_all_native before c after Hb Hc) as (e & He & K1 & K2). rewrite He in K.
    by rewrite app_nil_r, answer_of_app, reasoning_of_app, K1, K2 in K.
Qed.
End Engine.

(** ** A native reasoning in the middle of a tag's prefix *)

Definition piece (content reasoning : option string) : ChatCompletionChunk :=
  {| ck_id := "r"; ck_model := None; ck_usage := None;
     ck_choices := [{| cc_delta := {| cd_content := content; cd_reasoning := reasoning; cd_reasoning_content := None;
                                      cd_tool_calls := [] |};
                       cc_finish_reason := None |}] |}.

(** The start of a tag that the filter held back is not among the answer. *)
Example held_back_text_is_lost :
  exists events, chat_events (t_obj []) "deepseek-v3-azure" [piece (Some "<thi") None; piece None (Some "x"); piece (Some "hello") None]
      = Ok events
    /\ delivered (fold_left (process_provider_event (fun _ => ""%string) (fun v => bool_decide (v = t_obj []))) events
                    event_state_new) "hello" "x".
Proof. eexists. split; [vm_compute; reflexivity|]. vm_compute. done. Qed.
