(* ===== verification/CollectSafety.v ===== *)
(** * A collected response

    [ResponseAccumulator] keys everything by the index the events carry, so only the order of
    the events of each block matters; the engine's reading of the same stream keeps a single
    open call, and forgets the first of two calls that overlap. *)
From S2P Require Import Prelude.
From stdpp Require Import list.
From S2P Require Import RustStr BTree Json JsonModel Conversation CompactionScope AssistantMessage ProviderStream StreamCollect EngineStream.

Section Collect.
Context `{SerdeJson} (empty_object : Value).
Implicit Types (a b : ResponseAccumulator) (e : StreamEvent) (i : N).

(** The events that block [i] depends on: its own, and those of no block. *)
Definition touches i e : bool :=
  match e with
  | ContentBlockStart j _ | ContentBlockDeltaEvent j _ | ContentBlockStop j => (i =? j)%N
  | _ => true
  end.

(** What an accumulator holds of block [i] and of the response as a whole. *)
Definition block_view i a :=
  (bt_get i (ra_blocks a), bt_get i (ra_tool_input_json a), ra_provider a, ra_model a, ra_id a, ra_usage a,
   (ra_stop_reason a, ra_stop_sequence a)).

Lemma insert_content_get content : forall k (l l' : list (N * OutputContentBlock)) i,
  bt_get i l = bt_get i l' -> bt_get i (insert_content k content l) = bt_get i (insert_content k content l').
Proof.
  induction content as [|c content IH]; intros k l l' i Hl; [done|]. cbn. apply IH. rewrite !bt_get_insert. by rewrite Hl.
Qed.

Lemma delta_view i d a b : block_view i a = block_view i b -> block_view i (apply_delta i d a) = block_view i (apply_delta i d b).
Proof.
  intros [= Hb Ht Hp Hm Hi Hu Hr Hs]. destruct d as [t|j|t|t]; cbn [apply_delta];
    try (unfold block_view; cbn; rewrite !bt_get_insert, N.eqb_refl, Hb; congruence).
  rewrite Hb. destruct (bt_get i (ra_blocks b)) as [[]|] eqn:E; unfold block_view; cbn; rewrite ?bt_get_insert, ?N.eqb_refl; congruence.
Qed.

Lemma delta_other i j d a : i <> j -> block_view i (apply_delta j d a) = block_view i a.
Proof.
  intros Hij. apply N.eqb_neq in Hij. destruct d as [t|x|t|t]; cbn [apply_delta];
    try (unfold block_view; cbn; by rewrite bt_get_insert, Hij).
  destruct (bt_get j (ra_blocks a)) as [[]|]; try done. unfold block_view. cbn. by rewrite bt_get_insert, Hij.
Qed.

Lemma seen_view i a : block_view i (with_seen_event a) = block_view i a.
Proof. done. Qed.

Lemma step_view i e a b : touches i e = true -> block_view i a = block_view i b ->
  block_view i (accumulate a e) = block_view i (accumulate b e).
Proof.
  intros Ht Hv. destruct e as [m|d u|j c|j d|j|]; cbn [touches accumulate] in *; try done.
  - injection Hv as Hb Hti Hp Hm Hi Hu Hr Hs. unfold block_view. cbn. rewrite Hti, Hp, Hu, Hr, Hs.
    rewrite (insert_content_get _ 0 (ra_blocks a) (ra_blocks b) i Hb). destruct (is_empty (mr_model m)); [by rewrite Hm|done].
  - injection Hv as Hb Hti Hp Hm Hi Hu Hr Hs. unfold block_view. cbn. congruence.
  - apply N.eqb_eq in Ht as <-. injection Hv as Hb Hti Hp Hm Hi Hu Hr Hs. unfold block_view. cbn.
    rewrite !bt_get_insert, N.eqb_refl. congruence.
  - apply N.eqb_eq in Ht as <-. by apply delta_view.
Qed.

Lemma skip_view i e a : touches i e = false -> block_view i (accumulate a e) = block_view i a.
Proof.
  intros Ht. destruct e as [m|d u|j c|j d|j|]; cbn [touches accumulate] in *; try done.
  - unfold block_view. cbn. by rewrite bt_get_insert, Ht.
  - apply N.eqb_neq in Ht. by rewrite delta_other.
Qed.

Lemma fold_view i events : forall a b, block_view i a = block_view i b ->
  block_view i (fold_left accumulate events a) = block_view i (fold_left accumulate (List.filter (touches i) events) b).
Proof.
  induction events as [|e events IH]; intros a b Hv; [done|]. cbn. destruct (touches i e) eqn:Et.
  - apply IH. by apply step_view.
  - apply IH. by rewrite skip_view.
Qed.

(** ** Sortedness *)

Definition ordered a : Prop := bt_sorted (ra_blocks a) /\ bt_sorted (ra_tool_input_json a).

Lemma insert_content_sorted content : forall k (l : list (N * OutputContentBlock)),
  bt_sorted l -> bt_sorted (insert_content k content l).
Proof. induction content as [|c content IH]; intros k l Hl; [done|]. cbn. by apply IH, bt_insert_sorted. Qed.

Lemma accumulate_ordered e a : ordered a -> ordered (accumulate a e).
Proof.
  intros [Hb Ht]. destruct e as [m|d u|j c|j d|j|]; cbn [accumulate]; try done.
  - split; [|done]. by apply insert_content_sorted.
  - split; [|done]. by apply bt_insert_sorted.
  - destruct d; cbn [apply_delta]; try (split; [by apply bt_insert_sorted|done]).
    destruct (bt_get j _) as [[]|]; try done. split; [done|]. by apply bt_insert_sorted.
Qed.

Lemma fold_ordered events : forall a, ordered a -> ordered (fold_left accumulate events a).
Proof. induction events as [|e events IH]; intros a Ha; [done|]. by apply IH, accumulate_ordered. Qed.

Lemma seen_step e a : ra_saw_any_event (accumulate a e) = true.
Proof. destruct e as [m|d u|j c|j d|j|]; try done. cbn. destruct d; try done. cbn. by destruct (bt_get j _) as [[]|]. Qed.

Lemma fold_seen events a : ra_saw_any_event a = true -> ra_saw_any_event (fold_left accumulate events a) = true.
Proof. revert a. induction events as [|e events IH]; intros a Ha; [done|]. apply IH, seen_step. Qed.

Lemma filters_nil events : (forall i, List.filter (touches i) events = []) -> events = [].
Proof.
  destruct events as [|e events]; [done|]. intros Hall.
  assert (exists i, touches i e = true) as [i Hi].
  { destruct e as [m|d u|j c|j d|j|]; [by exists 0%N|by exists 0%N|exists j..|by exists 0%N]; apply N.eqb_refl. }
  specialize (Hall i). cbn in Hall. by rewrite Hi in Hall.
Qed.

Lemma views_determine a b : ordered a -> ordered b -> ra_saw_any_event a = ra_saw_any_event b ->
  (forall i, block_view i a = block_view i b) -> a = b.
Proof.
  intros [Ha Ha'] [Hb Hb'] Hseen Hv.
  assert (ra_blocks a = ra_blocks b) by (apply bt_ext; [done..|]; intros i; by injection (Hv i)).
  assert (ra_tool_input_json a = ra_tool_input_json b) by (apply bt_ext; [done..|]; intros i; by injection (Hv i)).
  specialize (Hv 0%N). injection Hv as _ _ Hp Hm Hi Hu Hr Hs. destruct a, b; cbn in *; congruence.
Qed.

(** ** The scope of a compaction *)

(** What a stream reports to its scope: the scope it leaves, or the error it stops with. *)
Fixpoint scope_reports (events : list StreamEvent) (scope : Active) : Active * result CollectError unit :=
  match events with
  | [] => (scope, Ok tt)
  | e :: events =>
      match record_compaction_stream_event scope e with
      | (scope, Err err) => (scope, Err (Configuration err))
      | (scope, Ok _) => scope_reports events scope
      end
  end.

Lemma collect_loop_reports events : forall scope a saw,
  collect_loop events scope a saw =
  match scope_reports events scope with
  | (scope, Err e) => (scope, Err e)
  | (scope, Ok _) => (scope, Ok (fold_left accumulate events a, saw || existsb is_terminal events))
  end.
Proof.
  induction events as [|e events IH]; intros scope a saw; cbn; [by rewrite orb_false_r|].
  destruct (record_compaction_stream_event scope e) as [scope' [?|err]]; [|done]. rewrite IH.
  destruct (scope_reports events scope') as [s [?|?]]; [|done]. by rewrite orb_assoc.
Qed.

(** A block's events report nothing. *)
Lemma untouched_reports i e scope : touches i e = false -> record_compaction_stream_event scope e = (scope, Ok tt) /\ is_terminal e = false.
Proof. by destruct e. Qed.

Lemma scope_reports_filter i events : forall scope,
  scope_reports (List.filter (touches i) events) scope = scope_reports events scope.
Proof.
  induction events as [|e events IH]; intros scope; [done|]. cbn. destruct (touches i e) eqn:Et; cbn.
  - destruct (record_compaction_stream_event scope e) as [scope' [?|err]]; [apply IH|done].
  - destruct (untouched_reports i e scope Et) as [-> _]. apply IH.
Qed.

Lemma terminal_filter i events : existsb is_terminal (List.filter (touches i) events) = existsb is_terminal events.
Proof.
  induction events as [|e events IH]; [done|]. cbn. destruct (touches i e) eqn:Et; cbn; [by rewrite IH|].
  by destruct (untouched_reports i e None Et) as [_ ->].
Qed.

(** C34. How the blocks of a stream interleave does not matter.

    Two streams whose events agree for every block, each block's own events in order among
    those that belong to no block, collect to the same response or the same failure, and
    report the same to the compaction they belong to: no fragment of text, of reasoning or of
    a call's arguments lands in another block. *)
Theorem interleaving_is_invisible scope provider model request_id events events' :
  (forall i, List.filter (touches i) events = List.filter (touches i) events') ->
  collect_response empty_object scope provider model request_id events =
  collect_response empty_object scope provider model request_id events'.
Proof.
  intros Hsame. unfold collect_response. rewrite !collect_loop_reports.
  rewrite <- (scope_reports_filter 0 events), <- (scope_reports_filter 0 events'), <- (terminal_filter 0 events), <- (terminal_filter 0 events'), Hsame.
  assert (fold_left accumulate events (accumulator_new provider model) = fold_left accumulate events' (accumulator_new provider model)) as ->; [|done].
  apply views_determine.
  - by apply fold_ordered; split; constructor.
  - by apply fold_ordered; split; constructor.
  - destruct events as [|e events], events' as [|e' events']; [done|..].
    + pose proof (filters_nil (e' :: events')) as K. discriminate K. intros i. by rewrite <- Hsame.
    + pose proof (filters_nil (e :: events)) as K. discriminate K. intros i. by rewrite Hsame.
    + cbn [fold_left]. by rewrite !fold_seen by apply seen_step.
  - intros i. rewrite (fold_view i events _ _ eq_refl), (fold_view i events' _ _ eq_refl). by rewrite Hsame.
Qed.
End Collect.

(** ** Two calls at once *)

(** Two calls, each fragment in a chunk of its own, and the reason they end for. *)
Definition tool_chunk (calls : list DeltaToolCall) (reason : option string) : ChatCompletionChunk :=
  {| ck_id := "c"; ck_model := None; ck_usage := None;
     ck_choices := [{| cc_delta := {| cd_content := None; cd_reasoning := None; cd_reasoning_content := None;
                                      cd_tool_calls := calls |}; cc_finish_reason := reason |}] |}.
Definition named_call (index : N) (id name : string) : DeltaToolCall :=
  {| dt_index := index; dt_id := Some id; dt_name := Some name; dt_arguments := None |}.
Definition two_calls : list ChatCompletionChunk :=
  [tool_chunk [named_call 0 "a" "read_file"] None; tool_chunk [named_call 1 "b" "grep_search"] None;
   tool_chunk [] (Some "tool_calls"%string)].

Definition call_start (index : N) (id name : string) : StreamEvent :=
  ContentBlockStart index (OutToolUse id name (t_obj []) None).
Definition first_event : StreamEvent :=
  MessageStart {| mr_id := "c"; mr_kind := "message"; mr_role := "assistant"; mr_content := []; mr_model := "gpt-5";
                  mr_stop_reason := None; mr_stop_sequence := None; mr_usage := usage_default; mr_request_id := None;
                  mr_gateway_request_id := None |}.
Definition last_events : list StreamEvent :=
  [MessageDeltaEvent {| md_stop_reason := Some "tool_use"%string; md_stop_sequence := None |} usage_default; MessageStop].

(** The events of the two calls, and the same blocks one after the other. *)
Definition overlapping : list StreamEvent :=
  first_event :: [call_start 1 "a" "read_file"; call_start 2 "b" "grep_search"; ContentBlockStop 1; ContentBlockStop 2] ++ last_events.
Definition in_turn : list StreamEvent :=
  first_event :: [call_start 1 "a" "read_file"; ContentBlockStop 1; call_start 2 "b" "grep_search"; ContentBlockStop 2] ++ last_events.

Definition event_name (e : AssistantEvent) : option string :=
  match e with EToolUse _ name _ _ => Some name | _ => None end.
Definition block_name (b : OutputContentBlock) : option string :=
  match b with OutToolUse _ name _ _ => Some name | _ => None end.

Definition engine_calls (events : list StreamEvent) : list string :=
  omap event_name (ev_buffer (fold_left (process_provider_event (fun _ => ""%string) (fun v => bool_decide (v = t_obj [])))
                                events event_state_new)).
Definition collected_calls (events : list StreamEvent) : option (list string) :=
  match (collect_response (t_obj []) None "openai" "gpt-5" None events).2 with
  | Ok r => Some (omap block_name (mr_content r))
  | Err _ => None
  end.

(** The provider's parser opens a call's block as soon as it can name the call and stops every
    block when the calls end, so two calls overlap; the engine keeps one open call, and the
    first of the two is never delivered.  The collected response has both. *)
Theorem parallel_calls_lose_the_first :
  chat_events (t_obj []) "gpt-5" two_calls = Ok overlapping /\ engine_calls overlapping = ["grep_search"%string] /\
  engine_calls in_turn = ["read_file"; "grep_search"]%string /\
  collected_calls overlapping = Some ["read_file"; "grep_search"]%string.
Proof. vm_compute. split_and!; (done || reflexivity). Qed.

Lemma interleaving_is_invisible_witness :
  collect_response (t_obj []) (Some (scope_new "run")) "openai" "gpt-5" None overlapping =
  collect_response (t_obj []) (Some (scope_new "run")) "openai" "gpt-5" None in_turn.
Proof.
  apply interleaving_is_invisible. intros i. unfold in_turn, overlapping. cbn [List.filter touches app first_event last_events call_start].
  destruct (i =? 1)%N eqn:E1; [apply N.eqb_eq in E1 as ->; reflexivity|].
  destruct (i =? 2)%N eqn:E2; reflexivity.
Defined.
