(* ===== verification/EngineReading.v ===== *)
(** * A provider's stream, read to its end

    The engine hands out what it assembled one event at a time and asks the provider for more
    only when nothing is left; at the end it may fail, or send the request again. *)
From S2P Require Import Prelude.
From stdpp Require Import list.
From S2P Require Import RustStr Json JsonModel Conversation AssistantMessage ProviderStream EngineStream.

Section Reading.
Context `{SerdeJson} (json_text : Value -> string) (is_empty_object : Value -> bool).
Implicit Types (s : StreamState) (v : EventState) (provider : list StreamEvent) (out : list AssistantEvent).

Notation process := (process_provider_event json_text is_empty_object).
Notation next := (next_event json_text is_empty_object).
Notation read := (read_stream json_text is_empty_object).

(** ** Assembling does not look at what was assembled *)

Definition prepend (l : list AssistantEvent) v : EventState :=
  {| ev_buffer := l ++ ev_buffer v; ev_pending_tool := ev_pending_tool v; ev_saw_stop := ev_saw_stop v;
     ev_has_content := ev_has_content v; ev_usage := ev_usage v |}.

Lemma emit_prepend l out v : emit out (prepend l v) = prepend l (emit out v).
Proof. unfold emit, prepend. cbn. by rewrite app_assoc. Qed.

Lemma push_prepend l streaming b v :
  push_output_block json_text is_empty_object streaming (prepend l v) b =
  prepend l (push_output_block json_text is_empty_object streaming v b).
Proof.
  destruct b as [t|id name input sg|t sg|data]; cbn [push_output_block]; rewrite ?emit_prepend; try done.
  destruct (is_empty t); [done|]. exact (emit_prepend l [ETextDelta t] (set_has_content (emit [EResponseBlockStart] v))).
Qed.

Lemma blocks_prepend l blocks : forall v,
  fold_left (push_output_block json_text is_empty_object true) blocks (prepend l v) =
  prepend l (fold_left (push_output_block json_text is_empty_object true) blocks v).
Proof. induction blocks as [|b blocks IH]; intros v; [done|]. cbn. by rewrite push_prepend, IH. Qed.

Lemma process_prepend l e v : process (prepend l v) e = prepend l (process v e).
Proof.
  destruct e as [m|d u|i b|i d|i|]; cbn [process_provider_event].
  - rewrite <- blocks_prepend. f_equal. destruct (is_empty (mr_model m)).
    + exact (emit_prepend l _ (merge_usage (mr_usage m) v)).
    + rewrite <- emit_prepend. f_equal. exact (emit_prepend l _ (merge_usage (mr_usage m) v)).
  - exact (emit_prepend l _ (merge_usage u v)).
  - apply push_prepend.
  - destruct d as [t|j|t|sg]; cbn [process_delta]; try apply emit_prepend.
    + destruct (is_empty t); [done|]. exact (emit_prepend l _ (set_has_content v)).
    + cbn [prepend ev_pending_tool]. by destruct (ev_pending_tool v) as [[[[id name] input] sg]|].
  - cbn [prepend ev_pending_tool]. destruct (ev_pending_tool v) as [[[[id name] input] sg]|]; [|done].
    exact (emit_prepend l _ (set_has_content (set_pending None v))).
  - exact (emit_prepend l _ (set_saw_stop v)).
Qed.

Lemma fold_prepend l provider : forall v, fold_left process provider (prepend l v) = prepend l (fold_left process provider v).
Proof. induction provider as [|e provider IH]; intros v; [done|]. cbn. by rewrite process_prepend, IH. Qed.

(** Usable content is never forgotten. *)
Lemma push_content streaming b v : ev_has_content v = true ->
  ev_has_content (push_output_block json_text is_empty_object streaming v b) = true.
Proof. intros Hv. destruct b as [t| | |]; cbn [push_output_block]; try done. by destruct (is_empty t). Qed.

Lemma process_content e v : ev_has_content v = true -> ev_has_content (process v e) = true.
Proof.
  intros Hv. destruct e as [m|d u|i b|i d|i|]; cbn [process_provider_event]; try done.
  - assert (forall blocks w, ev_has_content w = true ->
      ev_has_content (fold_left (push_output_block json_text is_empty_object true) blocks w) = true) as K.
    { induction blocks as [|b blocks IH]; intros w Hw; [done|]. by apply IH, push_content. }
    apply K. by destruct (is_empty (mr_model m)).
  - by apply push_content.
  - destruct d as [t|j|t|sg]; cbn [process_delta]; try done; [by destruct (is_empty t)|].
    by destruct (ev_pending_tool v) as [[[[id name] input] sg]|].
  - by destruct (ev_pending_tool v) as [[[[id name] input] sg]|].
Qed.

(** ** The outcome of a stream *)

(** What is delivered of a stream that was assembled to [v], and the failure, if any. *)
Definition stream_outcome (end_ : StreamEnd) v : list AssistantEvent * option RuntimeError :=
  match se_error end_ with
  | Some e => (ev_buffer v, Some e)
  | None =>
      if ev_has_content v then
        if ev_saw_stop v then (ev_buffer v ++ cache_events (se_cache end_), None)
        else (ev_buffer v, Some (runtime_error NO_MESSAGE_STOP))
      else
        match se_retry end_ with
        | Err e => (ev_buffer v, Some e)
        | Ok response =>
            (ev_buffer v ++ cache_events (se_cache end_) ++ response_to_events json_text is_empty_object response
               ++ cache_events (se_retry_cache end_), None)
        end
  end.

Context (end_ : StreamEnd).

Definition reads s provider (r : list AssistantEvent * option RuntimeError) : Prop :=
  exists n, forall fuel, n <= fuel -> read fuel end_ s provider = Ret r.

Definition with_events v s : StreamState := {| ss_events := v; ss_retry := ss_retry s; ss_done := ss_done s |}.

Lemma reads_same s s' provider provider' r :
  next end_ s provider = next end_ s' provider' -> reads s' provider' r -> reads s provider r.
Proof.
  intros Hn [n Hr]. exists (S n). intros [|fuel] Hf; [lia|]. rewrite <- (Hr (S fuel)) by lia. cbn [read_stream].
  by rewrite Hn.
Qed.

Lemma reads_fails s provider e : next end_ s provider = Err e -> reads s provider ([], Some e).
Proof. intros Hn. exists 1. intros [|fuel] Hf; [lia|]. cbn [read_stream]. by rewrite Hn. Qed.

(** What waits in the buffer comes first. *)
Lemma reads_buffer out : forall v s provider out' r,
  reads (with_events v s) provider (out', r) -> reads (with_events (prepend out v) s) provider (out ++ out', r).
Proof.
  induction out as [|e out IH]; intros v s provider out' r Hr; [by destruct v|].
  destruct (IH v s provider out' r Hr) as [n Hn]. exists (S n). intros [|fuel] Hf; [lia|].
  cbn [read_stream]. unfold next_event, pop. cbn. change (read fuel end_ (with_events (prepend out v) s) provider ≫= (fun '(l, x) => Ret (e :: l, x)) = Ret (e :: out ++ out', r)).
  by rewrite Hn by lia.
Qed.

Definition drained v : EventState :=
  {| ev_buffer := []; ev_pending_tool := ev_pending_tool v; ev_saw_stop := ev_saw_stop v;
     ev_has_content := ev_has_content v; ev_usage := ev_usage v |}.

Lemma prepend_drained v : prepend (ev_buffer v) (drained v) = v.
Proof. destruct v. unfold prepend. cbn. by rewrite app_nil_r. Qed.

Lemma reads_done v s provider : ss_done s = true -> reads (with_events v s) provider (ev_buffer v, None).
Proof.
  intros Hd. rewrite <- (prepend_drained v) at 1. rewrite <- (app_nil_r (ev_buffer v)) at 2. apply reads_buffer.
  exists 1. intros [|fuel] Hf; [lia|]. cbn. by rewrite Hd.
Qed.

(** The end, when nothing waits. *)
Lemma reads_end s : ss_done s = false -> ev_buffer (ss_events s) = [] -> ss_retry s = negb (ev_has_content (ss_events s)) ->
  reads s [] (stream_outcome end_ (ss_events s)).
Proof.
  intros Hd Hb Hr. unfold stream_outcome. rewrite Hb.
  assert (next end_ s [] = next_loop json_text is_empty_object end_ s []) as Hn.
  { unfold next_event, pop. by rewrite Hb, Hd. }
  cbn [next_loop] in Hn. destruct (se_error end_) as [e|]; [by apply reads_fails|].
  assert (forall v retry, Ok (pop {| ss_events := v; ss_retry := retry; ss_done := true |}) = stream_ends json_text is_empty_object end_ s ->
    reads s [] (ev_buffer v, None)) as Hdone.
  { intros v retry He. rewrite <- He in Hn. apply (reads_same _ {| ss_events := v; ss_retry := retry; ss_done := true |} _ []).
    - rewrite Hn. unfold next_event, pop. cbn. by destruct (ev_buffer v).
    - exact (reads_done v {| ss_events := v; ss_retry := retry; ss_done := true |} [] eq_refl). }
  unfold stream_ends in *. cbn [ev_saw_stop ev_has_content emit] in *. rewrite Hr in *.
  destruct (ev_has_content (ss_events s)); cbn [negb andb] in *.
  - rewrite andb_true_r in *. destruct (ev_saw_stop (ss_events s)); cbn [negb] in *; [|by apply reads_fails].
    pose proof (Hdone _ _ eq_refl) as K. cbn [emit ev_buffer] in K. by rewrite Hb in K.
  - rewrite andb_false_r in *. destruct (se_retry end_) as [response|e]; [|by apply reads_fails].
    pose proof (Hdone _ _ eq_refl) as K. cbn [emit ev_buffer] in K. rewrite Hb, <- app_assoc in K. exact K.
Qed.

Definition advance e s : StreamState :=
  {| ss_events := process (ss_events s) e;
     ss_retry := ss_retry s && negb (ev_has_content (process (ss_events s) e)); ss_done := ss_done s |}.

Lemma next_advance e s provider : ss_done s = false -> ev_buffer (ss_events s) = [] ->
  next end_ s (e :: provider) = next end_ (advance e s) provider.
Proof.
  intros Hd Hb. unfold next_event at 1. unfold pop at 1. rewrite Hb, Hd. cbn [next_loop]. unfold next_event.
  change {| ss_events := _; ss_retry := _; ss_done := ss_done s |} with (advance e s).
  destruct (pop (advance e s)) as [[a|] s'] eqn:Ep; [done|].
  unfold pop in Ep. destruct (ev_buffer (ss_events (advance e s))); [|done]. injection Ep as <-. cbn [advance ss_done]. by rewrite Hd.
Qed.

Lemma outcome_prepend out v out' r : stream_outcome end_ v = (out', r) -> stream_outcome end_ (prepend out v) = (out ++ out', r).
Proof.
  unfold stream_outcome. cbn. destruct (se_error end_); [by intros [= <- <-]|].
  destruct (ev_has_content v), (ev_saw_stop v), (se_retry end_); intros [= <- <-]; by rewrite ?app_assoc.
Qed.

Lemma reads_all provider : forall s, ss_done s = false -> ss_retry s = negb (ev_has_content (ss_events s)) ->
  reads s provider (stream_outcome end_ (fold_left process provider (ss_events s))).
Proof.
  assert (forall provider s,
    (forall s', ss_done s' = false -> ev_buffer (ss_events s') = [] -> ss_retry s' = negb (ev_has_content (ss_events s')) ->
       reads s' provider (stream_outcome end_ (fold_left process provider (ss_events s')))) ->
    ss_done s = false -> ss_retry s = negb (ev_has_content (ss_events s)) ->
    reads s provider (stream_outcome end_ (fold_left process provider (ss_events s)))) as Hbuffer.
  { intros p s IH Hd Hr. specialize (IH (with_events (drained (ss_events s)) s) Hd eq_refl Hr). cbn [with_events ss_events] in IH.
    rewrite <- (prepend_drained (ss_events s)), fold_prepend.
    destruct (stream_outcome end_ (fold_left process p (drained (ss_events s)))) as [out' r] eqn:Eo.
    rewrite (outcome_prepend _ _ _ _ Eo). apply (reads_buffer (ev_buffer (ss_events s))) in IH.
    rewrite prepend_drained in IH. by destruct s. }
  induction provider as [|e provider IH]; intros s; apply Hbuffer; clear s.
  - intros s Hd Hb Hr. by apply reads_end.
  - intros s Hd Hb Hr. apply (reads_same _ (advance e s) _ provider); [by apply next_advance|]. cbn [fold_left].
    apply (IH (advance e s)); [done|]. cbn [advance ss_retry ss_events]. rewrite Hr.
    destruct (ev_has_content (ss_events s)) eqn:Ec; [|by rewrite andb_true_l]. by rewrite process_content.
Qed.

(** C32. A stream is read to its end.

    Whatever a provider sends, reading terminates, and what is delivered is what its events
    assemble to, in order: a transport error comes after everything before it; an end without
    [message_stop] after usable content is an error and is never asked for again; an end
    without usable content, however framed, is asked for once more and the answer delivered. *)
Theorem stream_is_read_to_its_end provider :
  exists n, forall fuel, n <= fuel ->
    read fuel end_ stream_state_new provider =
    Ret (stream_outcome end_ (fold_left process provider event_state_new)).
Proof. by apply reads_all. Qed.
End Reading.
