(* ===== verification/Transcript.v ===== *)
(** * The transcript in memory (runtime/src/session.rs, runtime/src/session_history.rs)

    The messages of one session as its turns change them: identities given to appended and
    to legacy messages, appending, and extending the assistant message in flight.  Storage
    is the environment: every operation is given what the store answers it.  An operation
    returns the messages it leaves behind and its error, since one that fails may have
    given identities to legacy messages already. *)
From S2P Require Import Prelude.
From stdpp Require Import list gmap.
From S2P Require Import RustStr Conversation AssistantMessage.
From S2P Require Compaction.

#[export] Instance UsageCostCurrency_eq_dec : EqDecision UsageCostCurrency.
Proof. solve_decision. Defined.
#[export] Instance TokenUsage_eq_dec : EqDecision TokenUsage.
Proof. solve_decision. Defined.
#[export] Instance MessageIdentity_eq_dec : EqDecision MessageIdentity.
Proof. solve_decision. Defined.
#[export] Instance ConversationMessage_eq_dec : EqDecision ConversationMessage.
Proof. solve_decision. Defined.

Definition set_history (h : option MessageIdentity) (m : ConversationMessage) : ConversationMessage :=
  {| history := h; role := role m; blocks := blocks m; usage := usage m; model := model m;
     duration_ms := duration_ms m |}.
Definition set_model (name : option string) (m : ConversationMessage) : ConversationMessage :=
  {| history := history m; role := role m; blocks := blocks m; usage := usage m; model := name;
     duration_ms := duration_ms m |}.
Definition set_duration (ms : N) (m : ConversationMessage) : ConversationMessage :=
  {| history := history m; role := role m; blocks := blocks m; usage := usage m; model := model m;
     duration_ms := Some ms |}.

(** ** Identities (runtime/src/session_history.rs) *)

Definition identity_new (uuid : string) (parent : option string) : MessageIdentity :=
  {| identity_id := uuid; identity_parent_id := parent; identity_tool_origins := ∅ |}.

Definition calls_tool (call_id : string) (m : ConversationMessage) : bool :=
  existsb (fun b => match b with ToolUse id _ _ _ => String.eqb id call_id | _ => false end) (blocks m).

(** The assistant message a result answers: the latest that made the call, and the one the
    result names when it names one. *)
Definition originates (expected : option string) (call_id : string) (ancestor : ConversationMessage)
  : bool :=
  bool_decide (role ancestor = RAssistant)
  && match expected with
     | None => true
     | Some origin => match history ancestor with
                      | Some identity => String.eqb (identity_id identity) origin
                      | None => false
                      end
     end
  && calls_tool call_id ancestor.

Definition find_origin (m : ConversationMessage) (ancestors : list ConversationMessage) (call_id : string)
  : option string :=
  ancestor ← List.find (originates (Compaction.tool_origin m call_id) call_id) (rev ancestors);
  identity_id <$> history ancestor.

Fixpoint append_origins (m : ConversationMessage) (ancestors : list ConversationMessage)
    (l : list ContentBlock) (identity : MessageIdentity) : result string MessageIdentity :=
  match l with
  | [] => Ok identity
  | ToolResult call_id _ _ _ :: l =>
      match find_origin m ancestors call_id with
      | Some origin =>
          append_origins m ancestors l
            {| identity_id := identity_id identity; identity_parent_id := identity_parent_id identity;
               identity_tool_origins := <[call_id := origin]> (identity_tool_origins identity) |}
      | None => Err ("tool result has no originating assistant: " ++ call_id)%string
      end
  | _ :: l => append_origins m ancestors l identity
  end.

Definition identify_append (uuid : string) (m : ConversationMessage) (ancestors : list ConversationMessage)
  : result string ConversationMessage :=
  let parent := (a ← list.last ancestors; identity_id <$> history a) in
  match append_origins m ancestors (blocks m) (identity_new uuid parent) with
  | Ok identity => Ok (set_history (Some identity) m)
  | Err e => Err e
  end.

Section Legacy.
(** The digest of the session's id, the index and the message. *)
Context (legacy_id : nat -> ConversationMessage -> string).

Fixpoint legacy_ids (index : nat) (parent : option string) (l : list ConversationMessage)
  : list ConversationMessage :=
  match l with
  | [] => []
  | m :: l =>
      let m := match history m with
               | Some _ => m
               | None => set_history (Some (identity_new (legacy_id index m) parent)) m
               end in
      m :: legacy_ids (S index) (identity_id <$> history m) l
  end.

(** One block: a call is recorded under its message, a result takes the call's message
    unless it names one. *)
Definition legacy_block (s : gmap string string * MessageIdentity) (b : ContentBlock)
  : gmap string string * MessageIdentity :=
  let '(origins, identity) := s in
  match b with
  | ToolUse id _ _ _ => (<[id := identity_id identity]> origins, identity)
  | ToolResult call_id _ _ _ =>
      match origins !! call_id, identity_tool_origins identity !! call_id with
      | Some origin, None =>
          (origins, {| identity_id := identity_id identity; identity_parent_id := identity_parent_id identity;
                       identity_tool_origins := <[call_id := origin]> (identity_tool_origins identity) |})
      | _, _ => s
      end
  | _ => s
  end.

Fixpoint legacy_origins (origins : gmap string string) (l : list ConversationMessage)
  : list ConversationMessage :=
  match l with
  | [] => []
  | m :: l =>
      match history m with
      | None => m :: legacy_origins origins l
      | Some identity =>
          let '(origins, identity) := fold_left legacy_block (blocks m) (origins, identity) in
          set_history (Some identity) m :: legacy_origins origins l
      end
  end.

Definition identify_legacy (l : list ConversationMessage) : list ConversationMessage :=
  legacy_origins ∅ (legacy_ids 0 None l).

(** A replacement context gets identities of its own; a result's origin follows its message
    to the new one, or is the latest call of that id. *)
Definition replacements (uuid : nat -> string) (l : list ConversationMessage) : gmap string string :=
  fold_left (fun r p => match history p.2 with
                        | Some identity => <[identity_id identity := uuid p.1]> r
                        | None => r
                        end) (imap pair l) ∅.

Definition rebase_block (replaced : gmap string string) (previous : option MessageIdentity)
    (s : gmap string string * MessageIdentity) (b : ContentBlock) : gmap string string * MessageIdentity :=
  let '(origins, identity) := s in
  match b with
  | ToolUse id _ _ _ => (<[id := identity_id identity]> origins, identity)
  | ToolResult call_id _ _ _ =>
      let moved := (previous ← previous; origin ← identity_tool_origins previous !! call_id; replaced !! origin) in
      match (match moved with Some o => Some o | None => origins !! call_id end) with
      | Some origin =>
          (origins, {| identity_id := identity_id identity; identity_parent_id := identity_parent_id identity;
                       identity_tool_origins := <[call_id := origin]> (identity_tool_origins identity) |})
      | None => s
      end
  | _ => s
  end.

Fixpoint rebase_messages (uuid : nat -> string) (replaced : gmap string string) (index : nat)
    (parent : option string) (origins : gmap string string) (l : list ConversationMessage)
  : list ConversationMessage :=
  match l with
  | [] => []
  | m :: l =>
      let '(origins, identity) :=
        fold_left (rebase_block replaced (history m)) (blocks m) (origins, identity_new (uuid index) parent) in
      set_history (Some identity) m
      :: rebase_messages uuid replaced (S index) (Some (identity_id identity)) origins l
  end.

Definition rebase (uuid : nat -> string) (l : list ConversationMessage) : list ConversationMessage :=
  rebase_messages uuid (replacements uuid l) 0 None ∅ l.

(** [Session::record_context_replacement]: retained messages keep their identities, the rest
    get one behind the message before them; then the legacy origins are filled in. *)
Fixpoint replace_context (uuid : nat -> string) (index : nat) (parent : option string)
    (l : list ConversationMessage) : list ConversationMessage :=
  match l with
  | [] => []
  | m :: l =>
      let m := match history m with
               | Some _ => m
               | None => set_history (Some (identity_new (uuid index) parent)) m
               end in
      m :: replace_context uuid (S index) (identity_id <$> history m) l
  end.

Definition record_context_replacement (uuid : nat -> string) : list ConversationMessage -> list ConversationMessage :=
  fun l => identify_legacy (replace_context uuid 0 None l).

(** ** Appending and extending (runtime/src/session.rs)

    What the store answers one operation: an error of activating it, of the context that
    must be saved first, or of the append; the fresh id; the head it has of the messages,
    when there is a store; whether it took an update as history. *)
Record Storage := {
  st_activate : option string;
  st_context : option string;
  st_uuid : string;
  st_head : option (result string (option string));
  st_update : option (result string bool);
  st_append : option string
}.

Definition set_parent (parent : option string) (m : ConversationMessage) : ConversationMessage :=
  match history m with
  | Some identity => set_history (Some {| identity_id := identity_id identity; identity_parent_id := parent;
                                          identity_tool_origins := identity_tool_origins identity |}) m
  | None => m
  end.

Definition push_message (st : Storage) (m : ConversationMessage) (messages : list ConversationMessage)
  : list ConversationMessage * option string :=
  match st_activate st with
  | Some e => (messages, Some e)
  | None =>
      let messages := match list.last messages with
                      | Some l => match history l with None => identify_legacy messages | Some _ => messages end
                      | None => messages
                      end in
      match st_context st with
      | Some e => (messages, Some e)
      | None =>
          match identify_append (st_uuid st) m messages with
          | Err e => (messages, Some e)
          | Ok m =>
              match st_head st with
              | Some (Err e) => (messages, Some e)
              | head =>
                  let m := match head with Some (Ok parent) => set_parent parent m | _ => m end in
                  match st_append st with
                  | Some e => (messages, Some e)
                  | None => (messages ++ [m], None)
                  end
              end
          end
      end
  end.

Definition I64_MAX : N := 9223372036854775807.

Definition update_assistant_message (st : Storage) (index : nat) (m : ConversationMessage)
    (messages : list ConversationMessage) : list ConversationMessage * option string :=
  match messages !! index with
  | None => (messages, Some "assistant update index out of range"%string)
  | Some previous =>
      if negb (bool_decide (role previous = RAssistant)) || negb (bool_decide (role m = RAssistant)) then
        (messages, Some "stream update requires an assistant message"%string)
      else
        let m := set_history (history previous) m in
        if bool_decide (previous = m) then (messages, None)
        else if (I64_MAX <? N.of_nat index)%N then (messages, Some "assistant index overflow"%string)
        else match st_update st with
             | Some (Ok true) => (<[index := m]> messages, None)
             | Some (Err e) => (messages, Some e)
             | _ => match st_append st with
                    | Some e => (messages, Some e)
                    | None => (<[index := m]> messages, None)
                    end
             end
  end.

Definition push_user_blocks (st : Storage) (blocks : list ContentBlock) := push_message st (user_blocks blocks).
Definition push_user_text (st : Storage) (text : string) := push_message st (user_blocks [Text text]).

(** The index of the last assistant message. *)
Fixpoint last_assistant (index : nat) (l : list ConversationMessage) : option nat :=
  match l with
  | [] => None
  | m :: l => match last_assistant (S index) l with
              | Some i => Some i
              | None => if bool_decide (role m = RAssistant) then Some index else None
              end
  end.

Definition record_turn_duration (st : Storage) (ms : N) (messages : list ConversationMessage)
  : list ConversationMessage * option string :=
  match last_assistant 0 messages with
  | None => (messages, None)
  | Some index =>
      match messages !! index with
      | Some m => update_assistant_message st index (set_duration ms m) messages
      | None => (messages, None)
      end
  end.

(** ** Messages up to their identities

    Appending may name the messages before it; nothing else of them changes. *)
Definition anonymous (m : ConversationMessage) : ConversationMessage := set_history None m.

Definition same_messages (l k : list ConversationMessage) : Prop := map anonymous l = map anonymous k.

#[export] Instance same_messages_equiv : Equivalence same_messages.
Proof. unfold same_messages. split; [done|by intros ???|by intros ??? -> ->]. Qed.

#[export] Instance same_messages_app : Proper (same_messages ==> same_messages ==> same_messages) app.
Proof. intros l l' Hl k k' Hk. unfold same_messages in *. by rewrite !map_app, Hl, Hk. Qed.

Lemma legacy_ids_same l : forall index parent, same_messages (legacy_ids index parent l) l.
Proof.
  unfold same_messages. induction l as [|m l IH]; intros index parent; [done|]. cbn [legacy_ids map].
  rewrite IH. f_equal. by destruct (history m).
Qed.

Lemma legacy_origins_same l : forall origins, same_messages (legacy_origins origins l) l.
Proof.
  unfold same_messages. induction l as [|m l IH]; intros origins; [done|]. cbn [legacy_origins].
  destruct (history m); [|cbn; by rewrite IH].
  destruct (fold_left _ _ _) as [origins' identity']. cbn. by rewrite IH.
Qed.

Lemma identify_legacy_same l : same_messages (identify_legacy l) l.
Proof. unfold identify_legacy. etransitivity; [apply legacy_origins_same|apply legacy_ids_same]. Qed.

Lemma rebase_same uuid l : same_messages (rebase uuid l) l.
Proof.
  unfold rebase, same_messages. generalize (replacements uuid l) as r, 0 as i, (@None string) as parent, (∅ : gmap string string) as o.
  induction l as [|m l IH]; intros r i parent o; [done|]. cbn [rebase_messages].
  destruct (fold_left _ _ _) as [o' identity]. cbn. by rewrite IH.
Qed.

Lemma replace_context_same uuid l : forall i parent, same_messages (replace_context uuid i parent l) l.
Proof.
  unfold same_messages. induction l as [|m l IH]; intros i parent; [done|]. cbn [replace_context map].
  rewrite IH. f_equal. by destruct (history m).
Qed.

Lemma record_context_replacement_same uuid l : same_messages (record_context_replacement uuid l) l.
Proof. unfold record_context_replacement. etransitivity; [apply identify_legacy_same|apply replace_context_same]. Qed.

Lemma identify_append_same uuid m ancestors m' :
  identify_append uuid m ancestors = Ok m' -> anonymous m' = anonymous m.
Proof. unfold identify_append. destruct (append_origins _ _ _ _); [|done]. by intros [= <-]. Qed.

Lemma set_parent_same parent m : anonymous (set_parent parent m) = anonymous m.
Proof. unfold set_parent. by destruct (history m). Qed.

(** A push either fails and leaves the same messages or appends its own. *)
Lemma push_message_spec st m messages :
  let '(messages', error) := push_message st m messages in
  same_messages messages' (match error with Some _ => messages | None => messages ++ [m] end).
Proof.
  unfold push_message. destruct (st_activate st); [done|].
  set (known := match list.last messages with Some l => _ | None => _ end).
  assert (same_messages known messages) as Hknown.
  { unfold known. destruct (list.last messages) as [l|]; [|done]. destruct (history l); [done|].
    apply identify_legacy_same. }
  destruct (st_context st); [done|]. destruct (identify_append _ _ _) as [m'|e] eqn:E; [|done].
  apply identify_append_same in E.
  destruct (st_head st) as [[parent|e]|]; [| done|]; destruct (st_append st); try done;
    unfold same_messages in *; rewrite !map_app, Hknown; cbn; by rewrite ?set_parent_same, E.
Qed.

(** An update either fails and changes nothing or replaces the message at its index. *)
Lemma update_assistant_message_spec st index m messages :
  let '(messages', error) := update_assistant_message st index m messages in
  match error with
  | Some _ => messages' = messages
  | None => exists previous, messages !! index = Some previous /\ role previous = RAssistant /\ role m = RAssistant
      /\ messages' = <[index := set_history (history previous) m]> messages
  end.
Proof.
  unfold update_assistant_message. destruct (messages !! index) as [previous|] eqn:Ei; [|done].
  destruct (bool_decide (role previous = RAssistant)) eqn:Ep; [|done].
  destruct (bool_decide (role m = RAssistant)) eqn:Em; [|done]. cbn [negb orb].
  apply bool_decide_eq_true in Ep, Em.
  destruct (bool_decide (previous = _)) eqn:E.
  { apply bool_decide_eq_true in E. exists previous. split_and!; try done. rewrite <- E. by rewrite list_insert_id. }
  destruct (_ <? _)%N; [done|].
  destruct (st_update st) as [[[]|]|]; try done; destruct (st_append st); try done; by exists previous.
Qed.

End Legacy.
