(* ===== verification/CompactionText.v ===== *)
(** * The texts and messages of a compaction (runtime/src/compact.rs)

    What goes to the summariser and what comes back: the pruning of tool results, the prompt and
    the messages of a summary request, the checks of an answer and of a summary, the local summary
    and its merging with an earlier one, the tools discovered so far, and the structural
    compaction of a session. *)
From S2P Require Import Prelude.
From stdpp Require Import list gmap strings.
From S2P Require Import RustStr SortedList Json Conversation Compaction CompactionScope AssistantMessage SessionCodec SessionRecord Transcript.

#[local] Notation nl := (String (ascii_of_nat 10) "").

(** ** Errors and outcomes *)

Definition COMPACTION_FAILED : string := "Context compaction failed".

Inductive CompactionError :=
| NotSupported
| NothingToCompact
| ApiError (message : string)
| InvalidSummary (message : string)
| Persistence (message : string)
| CompactionFailed (message : string).

Definition error_text (e : CompactionError) : string :=
  match e with
  | NotSupported => "compaction not supported by this API client"
  | NothingToCompact => "session too small to compact"
  | ApiError message => ("compaction API error: " ++ message ++ "; history preserved")%string
  | InvalidSummary message => ("invalid compaction summary: " ++ message ++ "; history preserved")%string
  | Persistence message => ("compaction persistence failed: " ++ message ++ "; history preserved")%string
  | CompactionFailed message => (COMPACTION_FAILED ++ ": " ++ message)%string
  end.

Definition into_terminal (e : CompactionError) : CompactionError :=
  let rendered := error_text e in
  if contains rendered COMPACTION_FAILED then e else CompactionFailed rendered.

Inductive CompactionSummarySource :=
| ToolPruning
| Llm
| Local (fallback_reason : option string).

Definition source_text (s : CompactionSummarySource) : string :=
  match s with
  | ToolPruning => "tool output pruning"
  | Llm => "llm"
  | Local None => "local"
  | Local (Some reason) => ("local (LLM compaction failed: " ++ reason ++ ")")%string
  end.

(** ** Changing a session *)

Definition set_context (messages : list ConversationMessage) (compaction : option SessionCompaction)
  (revision : N) (s : Session) : Session :=
  {| ss_version := ss_version s; ss_session_id := ss_session_id s; ss_created_at_ms := ss_created_at_ms s;
     ss_updated_at_ms := ss_updated_at_ms s; ss_messages := messages; ss_compaction := compaction;
     ss_maintenance_usage := ss_maintenance_usage s; ss_compaction_achievement := ss_compaction_achievement s;
     ss_last_compaction_report := ss_last_compaction_report s; ss_fork := ss_fork s;
     ss_workspace_root := ss_workspace_root s; ss_identity := ss_identity s;
     ss_prompt_history := ss_prompt_history s; ss_last_health_check_ms := ss_last_health_check_ms s;
     ss_model := ss_model s; ss_mode := ss_mode s; ss_prompt_snapshot := ss_prompt_snapshot s;
     ss_prompt_snapshot_dirty := ss_prompt_snapshot_dirty s; ss_pending_tool_repairs := ss_pending_tool_repairs s;
     ss_restored_history_head := ss_restored_history_head s; ss_view_revision := revision |}.

Definition set_maintenance (updated : N) (receipts : list MaintenanceUsageReceipt)
  (achievement : option CompactionAchievement) (report : option CompactionReport) (s : Session) : Session :=
  {| ss_version := ss_version s; ss_session_id := ss_session_id s; ss_created_at_ms := ss_created_at_ms s;
     ss_updated_at_ms := updated; ss_messages := ss_messages s; ss_compaction := ss_compaction s;
     ss_maintenance_usage := receipts; ss_compaction_achievement := achievement;
     ss_last_compaction_report := report; ss_fork := ss_fork s;
     ss_workspace_root := ss_workspace_root s; ss_identity := ss_identity s;
     ss_prompt_history := ss_prompt_history s; ss_last_health_check_ms := ss_last_health_check_ms s;
     ss_model := ss_model s; ss_mode := ss_mode s; ss_prompt_snapshot := ss_prompt_snapshot s;
     ss_prompt_snapshot_dirty := ss_prompt_snapshot_dirty s; ss_pending_tool_repairs := ss_pending_tool_repairs s;
     ss_restored_history_head := ss_restored_history_head s; ss_view_revision := ss_view_revision s |}.

Definition touch (now : N) (s : Session) : Session :=
  set_maintenance now (ss_maintenance_usage s) (ss_compaction_achievement s) (ss_last_compaction_report s) s.

Section Text.
Context (legacy_id : string -> nat -> ConversationMessage -> string).

(** A [wrapping_add] at 64 bits. *)
Definition bump_view (revision : N) : N := ((revision + 1) mod 18446744073709551616)%N.

Definition replace_view (uuid : nat -> string) (s : Session) : Session :=
  set_context (Transcript.record_context_replacement (legacy_id (ss_session_id s)) uuid (ss_messages s))
    (ss_compaction s) (bump_view (ss_view_revision s)) s.

Definition record_compaction_with_usage (now : N) (uuid : nat -> string) (summary : string)
  (removed_message_count : nat) (usage : option TokenUsage) (discovered : list string) (s : Session) : Session :=
  let s := touch now s in
  let count := match ss_compaction s with Some c => ((sk_count c + 1) mod 4294967296)%N | None => 1%N end in
  replace_view uuid
    (set_context (ss_messages s)
       (Some {| sk_count := count; sk_removed_message_count := N.of_nat removed_message_count;
                sk_summary := summary; sk_usage := usage; sk_pre_compact_discovered_tools := discovered |})
       (ss_view_revision s) s).

(** ** Pruning tool results *)

(** [chars[n..]] *)
Fixpoint chars_skip (n : nat) (s : string) : string :=
  match s with
  | EmptyString => EmptyString
  | String a r =>
      if is_cont a then chars_skip n r
      else match n with 0 => s | S n => chars_skip n r end
  end.

Definition PRUNED_NOTE : string :=
  (nl ++ nl ++ "[... tool result middle pruned; original retained in pre-compaction transcript ...]" ++ nl ++ nl)%string.

Definition prune_output (output : string) : option string :=
  let count := chars_count output in
  if (8192 <? N.of_nat count)%N
  then Some (chars_take (N.to_nat 4096) output ++ PRUNED_NOTE ++ chars_skip (count - N.to_nat 1024) output)%string
  else None.

(** The block, and whether it was pruned. *)
Definition prune_block (block : ContentBlock) : ContentBlock * nat :=
  match block with
  | ToolResult tool_use_id tool_name output is_error =>
      if String.eqb tool_name "ToolSearch" || String.eqb tool_name "tool_search" then (block, 0)
      else match prune_output output with
           | Some output => (ToolResult tool_use_id tool_name output is_error, 1)
           | None => (block, 0)
           end
  | _ => (block, 0)
  end.

Definition prune_message (fresh : string) (m : ConversationMessage) : ConversationMessage * nat :=
  let pruned := map prune_block (blocks m) in
  let count := sum_list (map snd pruned) in
  ({| history := if 0 <? count
                 then (fun i => {| identity_id := fresh; identity_parent_id := identity_parent_id i;
                                   identity_tool_origins := identity_tool_origins i |}) <$> history m
                 else history m;
      role := role m; blocks := map fst pruned; usage := usage m; model := model m;
      duration_ms := duration_ms m |}, count).

Definition prune_messages (fresh : nat -> string) (l : list ConversationMessage) : list (ConversationMessage * nat) :=
  imap (fun i m => prune_message (fresh i) m) l.

Definition prune_tool_results (fresh uuid : nat -> string) (s : Session) : Session * nat :=
  let pruned := prune_messages fresh (ss_messages s) in
  let count := sum_list (map snd pruned) in
  let s := set_context (map fst pruned) (ss_compaction s) (ss_view_revision s) s in
  (if 0 <? count then replace_view uuid s else s, count).

(** ** The answer of a summariser *)

Record TextCompletion := {
  tc_text : string;
  tc_usage : option TokenUsage;
  tc_stop_reason : option string;
  tc_has_tool_calls : bool
}.

Definition invalid_compaction_summary (message : string) : RuntimeError :=
  error_of_kind InvalidCompactionSummary message.
Definition is_invalid_compaction_summary (e : RuntimeError) : bool := is_kind InvalidCompactionSummary e.

Definition validate_completion (response : TextCompletion) : result RuntimeError string :=
  if match tc_stop_reason response with
     | Some reason => str_in reason ["max_tokens"; "length"; "incomplete"]
     | None => false
     end
  then Err (invalid_compaction_summary "compaction summary was truncated at the output limit")
  else if tc_has_tool_calls response
  then Err (invalid_compaction_summary "compaction returned tool calls instead of a complete checkpoint")
  else if is_empty (trim (tc_text response))
  then Err (invalid_compaction_summary "compaction returned no summary text")
  else Ok (tc_text response).

Definition validate_summary (summary : string) (removed : list ConversationMessage) : result CompactionError unit :=
  let text := format_compact_summary summary in
  if is_empty (trim text) || String.eqb (trim text) "Summary:" then Err (InvalidSummary "empty text")
  else if contains summary "<summary>" && negb (contains summary "</summary>")
  then Err (InvalidSummary "unclosed summary")
  else
    let replacement := user_text (get_compact_continuation_message summary true true None) in
    let before := estimate_session_tokens removed in
    if before <=? estimate_message_tokens replacement
    then Err (InvalidSummary "replacement does not reduce context")
    else Ok tt.

(** ** The prompt *)

Definition NO_TOOLS_PREAMBLE : string :=
  ("CRITICAL: Respond with TEXT ONLY. Do NOT call any tools." ++ nl ++ nl
   ++ "- Do NOT use Read, Bash, Grep, Glob, Edit, Write, or ANY other tool." ++ nl
   ++ "- You already have all the context you need in the conversation above." ++ nl
   ++ "- Tool calls will be REJECTED and will waste your only turn — you will fail the task." ++ nl
   ++ "- Your entire response must be plain text: a <summary> block." ++ nl ++ nl)%string.

Definition BASE_COMPACT_PROMPT : string :=
  ("Create a concise checkpoint for continuing this coding task. Aim to keep the entire summary within 8,000 tokens while preserving the information needed to continue the task. Output only a <summary> block with these sections, using short bullets and (none) for empty sections:" ++ nl ++ nl
   ++ "1. Primary Request and Intent" ++ nl ++ "2. Key Technical Concepts" ++ nl ++ "3. Files and Code" ++ nl
   ++ "4. Errors and Fixes" ++ nl ++ "5. Pending Tasks" ++ nl ++ "6. Current Work" ++ nl ++ "7. Next Step" ++ nl
   ++ "8. Critical Context" ++ nl ++ nl
   ++ "Preserve exact paths, commands, identifiers, important code fragments, user corrections, constraints and decisions with their rationale. Distinguish completed work from pending work. Keep the latest request and next action precise. If the conversation contains a previous summary, consolidate it with the newer history: retain still-valid facts, remove superseded details, and never copy the previous summary wholesale. Do not perform the task or call tools.")%string.

Definition NO_TOOLS_TRAILER : string :=
  (nl ++ nl ++ "REMINDER: Do NOT call any tools. Respond with plain text only — a <summary> block. Tool calls will be rejected and you will fail the task.")%string.

Definition COMPACTION_SYSTEM_PROMPT : string :=
  "You are a helpful AI assistant tasked with summarizing conversations.".

Definition COMPACT_MAX_OUTPUT_TOKENS : nat := N.to_nat 12000.

(** [str::replacen] with one replacement. *)
Definition replace_first (s pat to : string) : string :=
  match find_str s pat with
  | Some i => (str_take i s ++ to ++ str_skip (i + len pat) s)%string
  | None => s
  end.

Definition build_compaction_prompt_with_metadata (custom_instructions : option string) (peer_metadata : bool)
  : string :=
  ((if peer_metadata
    then replace NO_TOOLS_PREAMBLE "a <summary> block."
           "a <summary> block followed by the peer-description metadata requested below."
         ++ replace_first BASE_COMPACT_PROMPT "Output only a <summary> block with these sections"
              "Output a <summary> block with these sections"
    else NO_TOOLS_PREAMBLE ++ BASE_COMPACT_PROMPT)
   ++ match custom_instructions with
      | Some instructions =>
          if is_empty (trim instructions) then ""
          else nl ++ nl ++ "Additional Instructions:" ++ nl ++ instructions
      | None => ""
      end
   ++ (if peer_metadata
       then replace NO_TOOLS_TRAILER "a <summary> block."
              "a <summary> block followed by the requested peer-description metadata."
       else NO_TOOLS_TRAILER))%string.

Definition build_compaction_prompt (custom_instructions : option string) : string :=
  build_compaction_prompt_with_metadata custom_instructions false.

(** ** The messages of a request *)

Definition summary_block (block : ContentBlock) : option ContentBlock :=
  match block with
  | Image _ mime_type => Some (Text ("[image: " ++ mime_type ++ "]")%string)
  | Thinking _ _ | RedactedThinking _ => None
  | _ => Some block
  end.

Definition summary_message (m : ConversationMessage) : option ConversationMessage :=
  match omap summary_block (blocks m) with
  | [] => None
  | bs => Some (message_of (match role m with RSystem => RUser | r => r end) bs None)
  end.

Definition build_compaction_messages (removed : list ConversationMessage) (prompt : string)
  : list ConversationMessage := omap summary_message removed ++ [user_text prompt].

(** ** The local summary *)

Definition block_tool_name (block : ContentBlock) : option string :=
  match block with
  | ToolUse _ name _ _ => Some name
  | ToolResult _ tool_name _ _ => Some tool_name
  | _ => None
  end.

Definition count_role (r : MessageRole) (l : list ConversationMessage) : nat :=
  length (List.filter (fun m => bool_decide (role m = r)) l).

Definition summarize_messages_local (messages : list ConversationMessage) : string :=
  let names := omap block_tool_name (concat (map blocks messages)) in
  let tool_names := dedup (sort_by String.leb names) in
  join nl
    (["<summary>"; "Conversation summary:";
      "- Scope: " ++ pretty (length messages) ++ " earlier messages compacted (user="
        ++ pretty (count_role RUser messages) ++ ", assistant=" ++ pretty (count_role RAssistant messages)
        ++ ", tool=" ++ pretty (count_role RTool messages) ++ ")."]%string
     ++ match tool_names with
        | [] => []
        | _ => [("- Tools mentioned: " ++ join ", " tool_names ++ ".")%string]
        end
     ++ ["</summary>"]).

Definition MERGED_PREVIOUS_CONTEXT_HEADER : string := "- Previously compacted context:".
Definition MERGED_NEW_CONTEXT_HEADER : string := "- Newly compacted context:".

Definition is_merge_header (line : string) : bool :=
  String.eqb line MERGED_PREVIOUS_CONTEXT_HEADER || String.eqb line MERGED_NEW_CONTEXT_HEADER.

(** Every round drops a header, so the number of lines bounds the loop. *)
Fixpoint flatten_rounds (fuel : nat) (highlights : list string) : run (list string) :=
  if existsb is_merge_header highlights then
    match fuel with
    | 0 => NoFuel
    | S fuel =>
        flatten_rounds fuel (map (fun line => default line (strip_prefix line "  "))
                               (List.filter (fun line => negb (is_merge_header line)) highlights))
    end
  else Ret highlights.

Definition flatten_merged_highlights (highlights : list string) : run (list string) :=
  flatten_rounds (length highlights) highlights.

Fixpoint highlight_lines (ls : list string) : list string :=
  match ls with
  | [] => []
  | line :: ls =>
      let trimmed := trim_end line in
      if is_empty trimmed || String.eqb trimmed "Summary:" || String.eqb trimmed "Conversation summary:"
      then highlight_lines ls
      else if String.eqb trimmed "- Key timeline:" then []
      else trimmed :: highlight_lines ls
  end.

Definition extract_summary_highlights (summary : string) : list string :=
  highlight_lines (RustStr.lines (format_compact_summary summary)).

Fixpoint timeline_lines (in_timeline : bool) (ls : list string) : list string :=
  match ls with
  | [] => []
  | line :: ls =>
      let trimmed := trim_end line in
      if String.eqb trimmed "- Key timeline:" then timeline_lines true ls
      else if negb in_timeline then timeline_lines in_timeline ls
      else if is_empty trimmed then []
      else trimmed :: timeline_lines in_timeline ls
  end.

Definition extract_summary_timeline (summary : string) : list string :=
  timeline_lines false (RustStr.lines (format_compact_summary summary)).

(** A header and its lines, indented; nothing when there are none. *)
Definition merged_section (header : string) (ls : list string) : list string :=
  match ls with [] => [] | _ => header :: map (fun line => ("  " ++ line)%string) ls end.

Definition merge_compact_summaries (existing_summary : option string) (new_summary : string) : run string :=
  match existing_summary with
  | None => Ret new_summary
  | Some existing_summary =>
      previous ← flatten_merged_highlights (extract_summary_highlights existing_summary);
      let new_formatted := format_compact_summary new_summary in
      Ret (join nl
             (["<summary>"; "Conversation summary:"]
              ++ merged_section MERGED_PREVIOUS_CONTEXT_HEADER previous
              ++ merged_section MERGED_NEW_CONTEXT_HEADER (extract_summary_highlights new_formatted)
              ++ merged_section "- Key timeline:" (extract_summary_timeline new_formatted)
              ++ ["</summary>"]))
  end.

(** ** The tools discovered so far *)

Section Discovered.
Context {J : SerdeJson} (as_array : Value -> option (list Value)).

Definition search_matches (output : string) : list string :=
  match from_str output with
  | Some parsed =>
      match Json.get parsed "matches" with
      | Some found => omap Json.as_str (default [] (as_array found))
      | None => []
      end
  | None => []
  end.

Definition discovered_block (found : list string) (block : ContentBlock) : list string :=
  match block with
  | ToolResult _ tool_name output _ =>
      if String.eqb tool_name "ToolSearch"
      then fold_left (fun found name => set_insert name found) (search_matches output) found
      else found
  | _ => found
  end.

Definition extract_pre_compact_discovered_tools (s : Session) : list string :=
  fold_left discovered_block (concat (map blocks (ss_messages s)))
    (match ss_compaction s with Some c => sk_pre_compact_discovered_tools c | None => [] end).

End Discovered.

(** ** The todo list *)

(** [Todo] (runtime/src/todo_store.rs), as the block shows it. *)
Record Todo := { td_status : string; td_content : string }.

Definition format_todo_continuity_block (todos : list Todo) : option string :=
  match todos with
  | [] => None
  | _ =>
      Some ("<system-reminder>" ++ nl
            ++ "Your todo list survived the compaction above. It is the authoritative working plan — the next TodoWrite must send this full list (with any updates), since TodoWrite replaces the list wholesale." ++ nl
            ++ String.concat "" (map (fun t => "- [" ++ td_status t ++ "] " ++ td_content t ++ nl)%string todos)
            ++ "</system-reminder>")%string
  end.

(** ** Results of a compaction *)

(** [DescriptionUpdate] (runtime/src/agent_description.rs), without the snapshot it was made from. *)
Record CompactionResult := {
  co_summary : string;
  co_formatted_summary : string;
  co_compacted_session : Session;
  co_removed_message_count : nat;
  co_summary_source : CompactionSummarySource;
  co_report : option CompactionReport;
  co_source_revision : option string;
  co_agent_description : option string
}.

Definition unchanged_compaction (s : Session) : CompactionResult :=
  {| co_summary := ""; co_formatted_summary := ""; co_compacted_session := s; co_removed_message_count := 0;
     co_summary_source := Llm; co_report := None; co_source_revision := None; co_agent_description := None |}.

Definition with_source (source : CompactionSummarySource) (r : CompactionResult) : CompactionResult :=
  {| co_summary := co_summary r; co_formatted_summary := co_formatted_summary r;
     co_compacted_session := co_compacted_session r; co_removed_message_count := co_removed_message_count r;
     co_summary_source := source; co_report := co_report r; co_source_revision := co_source_revision r;
     co_agent_description := co_agent_description r |}.

(** The system message in front of the retained messages. *)
Definition continuation_message (continuation : string) : ConversationMessage :=
  message_of RSystem [Text continuation] None.

Section Compact.
Context {J : SerdeJson} (as_array : Value -> option (list Value)).
Context (now : N) (uuid : nat -> string).

(** The replacement all ways of compacting install: a continuation and the retained messages. *)
Definition replaced (s : Session) (summary continuation : string) (prefix keep : nat) : Session :=
  record_compaction_with_usage now uuid summary (keep - prefix)
    (aggregate_compaction_usage (ss_compaction s ≫= sk_usage) (drop prefix (take keep (ss_messages s))))
    (extract_pre_compact_discovered_tools as_array s)
    (set_context (continuation_message continuation :: drop keep (ss_messages s)) (ss_compaction s)
       (ss_view_revision s) s).

(** [todo] is the block of the todo list the store has. *)
Definition summary_result (s : Session) (summary : string) (prefix keep : nat) (source : CompactionSummarySource)
  (todo : option string) : CompactionResult :=
  let continuation := get_compact_continuation_message summary true (keep <? length (ss_messages s)) todo in
  {| co_summary := summary; co_formatted_summary := format_compact_summary summary;
     co_compacted_session := replaced s summary continuation prefix keep;
     co_removed_message_count := keep - prefix; co_summary_source := source; co_report := None;
     co_source_revision := None; co_agent_description := None |}.

(** [removed] is a slice from the summary of an earlier compaction to the boundary: it panics
    when the boundary is in front of it. *)
Definition compact_session_sync (s : Session) (config : CompactionConfig) (todo : option string)
  : run CompactionResult :=
  if negb (should_compact (ss_messages s) config) then Ret (with_source (Local None) (unchanged_compaction s))
  else
    let existing := head (ss_messages s) ≫= extract_existing_compacted_summary in
    let prefix := match existing with Some _ => 1 | None => 0 end in
    keep ← find_safe_compaction_boundary (ss_messages s)
             (length (ss_messages s) - preserve_recent_messages config) prefix;
    if keep <? prefix then Panic
    else
      summary ← merge_compact_summaries existing
                  (summarize_messages_local (drop prefix (take keep (ss_messages s))));
      Ret (summary_result s summary prefix keep (Local None) todo).

Definition compact_session_sync_after_llm_failure (s : Session) (error : CompactionError) : CompactionResult :=
  with_source (Local (Some (error_text error))) (unchanged_compaction s).

Definition MAX_COMPACT_RETRIES : nat := 2.

(** The answers of [send_compaction], one for each call; the retries wait in between. *)
Fixpoint send_loop (retries : nat) (send : nat -> result RuntimeError string) (attempt : nat)
  : result CompactionError string :=
  match send attempt with
  | Ok summary => Ok summary
  | Err error =>
      match retries with
      | S retries =>
          if re_retryable error && negb (is_kind ContextWindowBlocked error)
          then send_loop retries send (S attempt)
          else Err (ApiError (re_message error))
      | 0 => Err (ApiError (re_message error))
      end
  end.

(** [send] answers the messages and the output limit of a request. *)
Definition compact_session (send : list ConversationMessage -> nat -> nat -> result RuntimeError string)
  (max_output_tokens : nat) (s : Session) (config : CompactionConfig) (custom : option string)
  (todo : option string) : run (result CompactionError CompactionResult) :=
  if (length (ss_messages s) <=? preserve_recent_messages config)
     || (estimate_session_tokens (ss_messages s) <? max_estimated_tokens config)
  then Ret (Err NothingToCompact)
  else
    keep ← find_safe_compaction_boundary (ss_messages s)
             (length (ss_messages s) - preserve_recent_messages config) 0;
    let removed := take keep (ss_messages s) in
    if keep =? 0 then Ret (Err NothingToCompact)
    else
      let messages := build_compaction_messages removed (build_compaction_prompt custom) in
      let max_tokens := Nat.min COMPACT_MAX_OUTPUT_TOKENS max_output_tokens in
      Ret (summary ← send_loop MAX_COMPACT_RETRIES (send messages max_tokens) 0;
           _ ← validate_summary summary removed;
           Ok (summary_result s summary 0 keep Llm todo)).

End Compact.
End Text.
