(* ===== verification/CompactionRun.v ===== *)
(** * One compaction (runtime/src/compact.rs, conversation.rs, agent_description.rs)

    A run freezes its source, prunes or summarises it in requests that share one budget
    ([CompactionScope]), and yields a candidate; the owner installs the candidate when it is saved.
    What the provider answers, what its requests do to the budget, what the store says and when the
    user cancels are the environment of each step. *)
From S2P Require Import Prelude.
From stdpp Require Import list gmap strings.
From S2P Require Import RustStr JsonText Utf8 Json Conversation Compaction CompactionScope CompactionBudget UsageAccounting AssistantMessage SessionCodec SessionRecord Transcript CompactionText.

#[local] Notation nl := (String (ascii_of_nat 10) "").

(** ** Models and their client *)

(** What the lookups of runtime/src/model_capabilities.rs answer for the model of a run. *)
Record ModelCaps := {
  mc_max_output_tokens : nat;
  mc_request_max_output_tokens : nat;
  mc_budgeted_thinking : bool
}.

Definition MIN_THINKING_BUDGET_TOKENS : nat := N.to_nat 1024.
Definition thinking_budget_tokens (m : ModelCaps) : nat :=
  Nat.max (mc_request_max_output_tokens m / 2) MIN_THINKING_BUDGET_TOKENS.

Record ApiRequest := {
  rq_system_prompt : SystemPrompt;
  rq_messages : list ConversationMessage;
  rq_discovered_tools : list string
}.

(** The questions a run asks [ApiClient], a trait: they do not send. *)
Class ApiClient := {
  client_thinking_enabled : bool;
  context_budget_for_request : ApiRequest -> ContextBudget;
  (** the output cap, and whether the tools are included *)
  context_budget_for_completion : ApiRequest -> nat -> bool -> ContextBudget
}.

Definition prompt_default : SystemPrompt :=
  {| static_sections := []; dynamic_sections := []; builtin_static_sections := 0; explicit_override := false |}.
Definition append_static_section (text : string) (p : SystemPrompt) : SystemPrompt :=
  {| static_sections := static_sections p ++ [text]; dynamic_sections := dynamic_sections p;
     builtin_static_sections := builtin_static_sections p; explicit_override := true |}.

(** ** The peer description an answer may carry *)

Definition MAX_DESCRIPTION_CHARS : nat := 160.

(** [char::is_control] *)
Definition is_control (c : char) : bool := (c <? 32)%N || ((127 <=? c)%N && (c <? 160)%N).

Definition valid_description (text : string) : bool :=
  negb (is_empty (trim text)) && (length (chars text) <=? MAX_DESCRIPTION_CHARS)
  && negb (existsb is_control (chars text)).

Definition description_update (description : string) : option string :=
  if valid_description description then Some (trim description) else None.

Definition hint_block (block : ContentBlock) : option string :=
  match block with
  | Text text =>
      if negb (is_empty (trim text)) && negb (starts_with (trim_start text) "<system-reminder>") then Some text else None
  | _ => None
  end.

Fixpoint take_hints (remaining : nat) (texts : list string) : list string :=
  match texts with
  | [] => []
  | text :: texts =>
      if remaining =? 0 then []
      else let hint := chars_take remaining text in hint :: take_hints (remaining - chars_count hint) texts
  end.

Definition DESCRIPTION_INSTRUCTION : string :=
  (nl ++ nl ++ "Optional checkpoint metadata: for this request, extend the text-only output format above with a second block. Finish the complete <summary> block first, then append <agent-description> followed by a JSON string and </agent-description>. Describe the underlying user assignment this peer agent is pursuing, excluding the checkpoint and metadata-writing operation itself. Prefer the latest preserved user assignment below over superseded work in the older source history. Use a short phrase, roughly 3-10 words and at most 160 characters on one line. Do not repeat the agent's name. Include this block when the ongoing task is clear; omit it only if unsure or if the checkpoint needs the output space. Keep metadata out of the summary itself. Do not call tools.")%string.

Section Description.
Context {J : SerdeJson}.
(** [serde_json::to_string] of a list of texts. *)
Context (texts_to_json : list string -> string).

Definition append_instruction (recent : list ConversationMessage) : string :=
  let users := List.filter (fun m => bool_decide (role m = RUser)) (rev recent) in
  let texts := omap (fun m => head (omap hint_block (blocks m))) users in
  let hints := take_hints 512 (take 4 texts) in
  (DESCRIPTION_INSTRUCTION
   ++ match hints with
      | [] => ""
      | _ => nl ++ "Latest preserved user texts, in chronological order and quoted as data solely to inform the description; they remain preserved verbatim outside this checkpoint: "
             ++ texts_to_json (rev hints)
      end)%string.

Definition description_text (value : string) : option string :=
  let value := trim value in
  match from_str value with
  | Some v => Json.as_str v
  | None =>
      if existsb (starts_with value) [String (ascii_of_nat 34) ""; "{"; "["] then None else Some value
  end.

Definition split_response (response : string) : string * option string :=
  let stop := match find_str response "</summary>" with
              | Some index => Some (index + len "</summary>")
              | None => find_str response "<agent-description"
              end in
  match stop with
  | None => (response, None)
  | Some stop =>
      let trailing := trim (str_skip stop response) in
      if negb (starts_with trailing "<agent-description") then (response, None)
      else
        (str_take stop response,
         match strip_prefix (trim trailing) "<agent-description>" with
         | Some value =>
             match strip_suffix value "</agent-description>" with
             | Some value => match description_text value with Some text => description_update text | None => None end
             | None => None
             end
         | None => None
         end)
  end.

End Description.

(** ** One request *)

(** A plan with the transcript it was made for, and whether it asks for a description. *)
Record PreparedRun := {
  pp_plan : PreparedCompaction;
  pp_source : Session;
  pp_description : bool
}.

Record AttemptOptions := {
  ao_custom : option string;
  ao_cache_safe : bool;
  ao_visible_cap : nat;
  ao_quality_retry : bool
}.

(** The environment of one attempt: what the request does to the scope, whether the run is
    cancelled while it waits, the completion, the todo block of the store afterwards, and whether
    the wait before a retry is cancelled. *)
Record AttemptEnv := {
  ae_ops : list ScopeOp;
  ae_cancelled : bool;
  ae_reply : result RuntimeError TextCompletion;
  ae_todo : option string;
  ae_sleep_cancelled : bool
}.

Section Run.
Context {J : SerdeJson} (as_array : Value -> option (list Value)) (texts_to_json : list string -> string).
Context (legacy_id : string -> nat -> ConversationMessage -> string).
Context (now : N) (uuid : nat -> string).
Context {C : ApiClient} (caps : ModelCaps) (system : SystemPrompt).

Definition thinking_tokens (cache_safe : bool) : nat :=
  if cache_safe && client_thinking_enabled && mc_budgeted_thinking caps
     && (MIN_THINKING_BUDGET_TOKENS <? mc_request_max_output_tokens caps)
  then thinking_budget_tokens caps else 0.

Definition attempt_cap (p : PreparedRun) (o : AttemptOptions) : nat :=
  Nat.min (Nat.min (Nat.min (ao_visible_cap o) (raw_summary_budget (pp_plan p))) COMPACT_MAX_OUTPUT_TOKENS)
    (mc_max_output_tokens caps - thinking_tokens (ao_cache_safe o)).

Definition attempt_prompt (p : PreparedRun) (o : AttemptOptions) : string :=
  let cap := attempt_cap p o in
  let ideal := ideal_summary_budget (pp_plan p) in
  let aim := if ideal =? 0 then Nat.min cap (N.to_nat 8000) else Nat.min (Nat.min ideal (N.to_nat 8000)) cap in
  let retry_aim := Nat.min cap (Nat.max ideal (cap * 3 / 4)) in
  (build_compaction_prompt_with_metadata (ao_custom o) (pp_description p)
   ++ nl ++ nl ++ "This run requires the entire summary to fit within " ++ pretty cap ++ " tokens. Aim for "
   ++ pretty aim
   ++ " tokens. Preserve all task-critical facts; consolidate redundant history. This is a strict ceiling, including all eight sections and summary tags."
   ++ (if ao_quality_retry o
       then nl ++ "The preceding checkpoint was rejected. Start again from the full original source above. Remove repetition and superseded details, keep every active constraint and pending action, and aim below "
            ++ pretty retry_aim
            ++ " tokens so the checkpoint closes completely. Do not copy the rejected checkpoint."
       else "")
   ++ (if pp_description p
       then append_instruction texts_to_json (drop (keep_from (pp_plan p)) (ss_messages (pp_source p)))
       else ""))%string.

(** The request as it is priced and sent: the prompt is its last message. *)
Definition attempt_request (p : PreparedRun) (o : AttemptOptions) : ApiRequest :=
  let removed := take (keep_from (pp_plan p)) (ss_messages (pp_source p)) in
  let prompt := attempt_prompt p o in
  {| rq_system_prompt := if ao_cache_safe o then system
                         else append_static_section COMPACTION_SYSTEM_PROMPT prompt_default;
     rq_messages := if ao_cache_safe o then removed ++ [user_text prompt]
                    else build_compaction_messages removed prompt;
     rq_discovered_tools := extract_pre_compact_discovered_tools as_array (pp_source p) |}.

(** The checks before anything is sent: the request and its output cap. *)
Definition preflight (p : PreparedRun) (o : AttemptOptions) : result RuntimeError (ApiRequest * nat) :=
  let cap := attempt_cap p o in
  if cap =? 0 then Err (runtime_error "protected history leaves no summary budget")
  else
    let request := attempt_request p o in
    let output := cap + thinking_tokens (ao_cache_safe o) in
    if mc_max_output_tokens caps <? output
    then Err (context_window_blocked "cache-safe summary output reservation exceeds routed model output limit")
    else
      let budget := context_budget_for_completion request output (ao_cache_safe o) in
      if negb (fits_buffered budget (N.of_nat (estimate_session_tokens (rq_messages request))))
      then Err (context_window_blocked "summary request exceeds its context budget; no request sent")
      else Ok (request, output).

(** From a completed response to a candidate. *)
Definition candidate (p : PreparedRun) (o : AttemptOptions) (response : string) : result RuntimeError CompactionResult :=
  let keep := keep_from (pp_plan p) in
  let source := pp_source p in
  let '(summary, description) := if pp_description p then split_response response else (response, None) in
  match validate_summary summary (take keep (ss_messages source)) with
  | Err (InvalidSummary reason) => Err (invalid_compaction_summary reason)
  | Err error => Err (invalid_compaction_summary (error_text error))
  | Ok _ =>
      if attempt_cap p o <? len summary / 4 + 1
      then Err (invalid_compaction_summary "summary exceeds visible output ceiling")
      else
        let continuation :=
          frozen_continuation summary (plan_todo (pp_plan p)) (keep <? length (ss_messages source)) in
        Ok {| co_summary := summary; co_formatted_summary := format_compact_summary summary;
              co_compacted_session := replaced legacy_id as_array now uuid source summary continuation 0 keep;
              co_removed_message_count := keep; co_summary_source := Llm; co_report := None;
              co_source_revision := None; co_agent_description := description |}
  end.

(** [None]: the run was cancelled while the request was under way. *)
Definition attempt (p : PreparedRun) (o : AttemptOptions) (env : AttemptEnv) (scope : ScopeState)
  : ScopeState * option (result RuntimeError CompactionResult) :=
  match preflight p o with
  | Err error => (scope, Some (Err error))
  | Ok _ =>
      let scope := (scope_run scope (ae_ops env)).1 in
      if ae_cancelled env then (scope, None)
      else (scope, Some (match ae_reply env with
                         | Err error => Err error
                         | Ok response =>
                             match validate_completion response with
                             | Err error => Err error
                             | Ok text => candidate p o text
                             end
                         end))
  end.

(** ** Budgets and reports of a run *)

Definition COMPACTION_POLICY_VERSION : string := "strict-history-v2-estimator-v1".

(** The tokens of the input that waits behind the compaction, and the fingerprint of a session's
    next request: a SHA-256 digest of what [Debug] prints of it. *)
Context (pending : N) (fingerprint : Session -> option string -> string).

Definition history_request (s : Session) : ApiRequest :=
  {| rq_system_prompt := system; rq_messages := ss_messages s;
     rq_discovered_tools := match ss_compaction s with Some c => sk_pre_compact_discovered_tools c | None => [] end |}.

Definition safe_history_budget (s : Session) : ContextBudget * nat :=
  let budget := context_budget_for_request (history_request s) in
  (budget, N.to_nat (u64_saturating_sub (history_budget budget) pending)).

Definition compaction_retention (s : Session) (config : CompactionConfig) : CompactionConfig :=
  let '(budget, safe) := safe_history_budget s in
  let tokens := Nat.min (Nat.min (N.to_nat (context_limit budget * 16 / 100)) (safe / 2))
                  (estimate_session_tokens (ss_messages s) / 5) in
  with_token_retention config (ss_messages s) tokens.

Definition update_report (after : N) (target ideal : option N) (safe overhead : N) (method : option string)
  (outcome : CompactionOutcome) (reason : option string) (r : CompactionReport) : CompactionReport :=
  {| cr_run_id := cr_run_id r; cr_before_history := cr_before_history r; cr_after_history := after;
     cr_target_history := target; cr_ideal_history := ideal;
     cr_source_safe_history_budget := cr_source_safe_history_budget r; cr_safe_history_budget := safe;
     cr_actual_fixed_overhead := overhead; cr_method := method; cr_outcome := outcome; cr_reason := reason;
     cr_attempts := cr_attempts r; cr_completed_responses := cr_completed_responses r;
     cr_estimate_source := cr_estimate_source r |}.

Definition with_outcome (outcome : CompactionOutcome) (after : N) (reason : option string) (r : CompactionReport)
  : CompactionReport :=
  update_report after (cr_target_history r) (cr_ideal_history r) (cr_safe_history_budget r)
    (cr_actual_fixed_overhead r) (cr_method r) outcome reason r.

Definition skipped_report (reason : string) (r : CompactionReport) : CompactionReport :=
  update_report (cr_after_history r) None None (cr_safe_history_budget r) (cr_actual_fixed_overhead r) (cr_method r)
    Skipped (Some reason) r.

Definition with_counts (scope : ScopeState) (r : CompactionReport) : CompactionReport :=
  {| cr_run_id := cr_run_id r; cr_before_history := cr_before_history r; cr_after_history := cr_after_history r;
     cr_target_history := cr_target_history r; cr_ideal_history := cr_ideal_history r;
     cr_source_safe_history_budget := cr_source_safe_history_budget r;
     cr_safe_history_budget := cr_safe_history_budget r; cr_actual_fixed_overhead := cr_actual_fixed_overhead r;
     cr_method := cr_method r; cr_outcome := cr_outcome r; cr_reason := cr_reason r;
     cr_attempts := sc_attempts scope; cr_completed_responses := sc_completed_responses scope;
     cr_estimate_source := cr_estimate_source r |}.

(** The target of a candidate: half of the source, within what its own next request leaves. *)
Definition current_target (before safe : nat) : nat := Nat.min (before / 2) safe.
Definition ideal_of (before target : nat) : nat := Nat.min (before * 30 / 100) target.

Definition measured (before : nat) (budget : ContextBudget) (safe : nat) (after : N) (method : option string)
  (outcome : CompactionOutcome) (r : CompactionReport) : CompactionReport :=
  let target := current_target before safe in
  update_report after (Some (N.of_nat target)) (Some (N.of_nat (ideal_of before target))) (N.of_nat safe)
    (overhead_tokens budget) method outcome (cr_reason r) r.

Definition budget_text (e : CompactionBudgetExceeded) : string :=
  match e with
  | RequestAttempts => "compaction request attempt budget exhausted"
  | CompletedResponses => "compaction completed response budget exhausted"
  end.

(** ** The attempts of a run *)

Record RunOptions := { allow_pruning : bool; allow_repeat_skip : bool }.

(** What a run leaves: the scope, the report, whether it was cancelled, and its result. *)
Record RunEnd := {
  re_scope : ScopeState;
  re_report : CompactionReport;
  re_cancelled : bool;
  re_result : result CompactionError CompactionResult
}.

Definition ended (scope : ScopeState) (report : CompactionReport) (r : result CompactionError CompactionResult) : RunEnd :=
  {| re_scope := scope; re_report := report; re_cancelled := false; re_result := r |}.
Definition cancelled_end (scope : ScopeState) (report : CompactionReport) : RunEnd :=
  {| re_scope := scope; re_report := report; re_cancelled := true; re_result := Err (ApiError "cancelled") |}.

(** The response is counted by the run when its request did not. *)
Definition count_response (completed_before : N) (r : result RuntimeError CompactionResult) (scope : ScopeState)
  : ScopeState * result CompactionBudgetExceeded unit :=
  if (sc_completed_responses scope =? completed_before)%N
     && match r with Ok _ => true | Err e => is_invalid_compaction_summary e end
  then record_completion None scope
  else (scope, Ok tt).

(** The cap of the next attempt, the shape of its request, or the end of the run. *)
Inductive Next :=
| NextAttempt (cap : nat) (cache_safe : bool) (scope : ScopeState) (report : CompactionReport)
| RunOver (e : RunEnd).

(** An attempt that yielded a candidate. *)
Definition after_candidate (before : nat) (p : PreparedRun) (env : AttemptEnv) (cap : nat) (cache_safe : bool)
  (quality : nat) (scope : ScopeState) (report : CompactionReport) (c : CompactionResult) : Next :=
  let after := estimate_session_tokens (ss_messages (co_compacted_session c)) in
  let '(budget, safe) := safe_history_budget (co_compacted_session c) in
  let target := current_target before safe in
  let report' := measured before budget safe (cr_after_history report) (cr_method report) (cr_outcome report) report in
  if negb (bool_decide (plan_todo (pp_plan p) = ae_todo env))
  then RunOver (ended scope report' (Err (InvalidSummary "Todo changed during compaction; retry with fresh source")))
  else if (after <? before) && (after <=? target)
  then RunOver (ended scope (measured before budget safe (N.of_nat after) (Some "llm_summary") TargetMet report) (Ok c))
  else if (2 <=? quality) || (2 <=? sc_completed_responses scope)%N
  then RunOver (ended scope report' (Err (InvalidSummary
         ("target not met: candidate " ++ pretty after ++ ", target " ++ pretty target)%string)))
  else NextAttempt (Nat.min (cap - (after - target)) (cap * 3 / 4)) cache_safe scope report'.

(** An attempt that failed. *)
Definition after_error (env : AttemptEnv) (cap : nat) (cache_safe completed : bool) (quality : nat)
  (scope : ScopeState) (report : CompactionReport) (error : RuntimeError) : Next :=
  let message := re_message error in
  let blocked := is_kind ContextWindowBlocked error in
  if cache_safe && negb completed && (blocked || is_kind CompactionPathNotSupported error)
  then NextAttempt cap false scope report
  else
    let '(scope, claimed) :=
      if re_retryable error && negb blocked && (sc_attempts scope <? 4)%N && (sc_completed_responses scope <? 2)%N
      then retry scope else (scope, false) in
    if claimed then
      if ae_sleep_cancelled env then RunOver (cancelled_end scope report) else NextAttempt cap cache_safe scope report
    else if completed && is_invalid_compaction_summary error then
      let cache_safe := cache_safe && negb (contains message "truncated" || contains message "visible output ceiling") in
      if (2 <=? quality) || (2 <=? sc_completed_responses scope)%N
      then RunOver (ended scope report (Err (InvalidSummary message)))
      else NextAttempt (if contains message "truncated" then cap else cap * 3 / 4) cache_safe scope report
    else RunOver (ended scope report (Err (ApiError message))).

(** The cap shrinks, or one of the four other things is used up: the request shape, the retries,
    the responses. *)
Fixpoint attempts_loop (fuel : nat) (before : nat) (custom : option string) (p : PreparedRun) (env : nat -> AttemptEnv)
  (k cap : nat) (cache_safe : bool) (quality : nat) (scope : ScopeState) (report : CompactionReport) : run RunEnd :=
  match fuel with
  | 0 => NoFuel
  | S fuel =>
      if cap =? 0
      then Ret (ended scope report (Err (InvalidSummary "protected history makes revised target infeasible")))
      else
        let completed_before := sc_completed_responses scope in
        let options := {| ao_custom := custom; ao_cache_safe := cache_safe; ao_visible_cap := cap;
                          ao_quality_retry := 0 <? quality |} in
        let '(scope, outcome) := attempt p options (env k) scope in
        match outcome with
        | None => Ret (cancelled_end scope report)
        | Some r =>
            let '(scope, counted) := count_response completed_before r scope in
            match counted with
            | Err e => Ret (ended scope report (Err (InvalidSummary (budget_text e))))
            | Ok _ =>
                let completed := (completed_before <? sc_completed_responses scope)%N in
                let quality := if completed then S quality else quality in
                match match r with
                      | Ok c => after_candidate before p (env k) cap cache_safe quality scope report c
                      | Err error => after_error (env k) cap cache_safe completed quality scope report error
                      end with
                | RunOver e => Ret e
                | NextAttempt cap cache_safe scope report =>
                    attempts_loop fuel before custom p env (S k) cap cache_safe quality scope report
                end
            end
        end
  end.

Definition achieved (fingerprint : string) (before : nat) (safe : N) (s : Session) : bool :=
  match ss_compaction_achievement s with
  | Some a =>
      String.eqb (ca_fingerprint a) fingerprint && String.eqb (ca_policy_version a) COMPACTION_POLICY_VERSION
      && (ca_after_history a =? N.of_nat before)%N && (ca_after_history a <=? ca_target_history a)%N
      && (ca_target_history a <=? ca_before_history a / 2)%N
  | None => false
  end && (N.of_nat before <=? safe)%N.

(** What a run finds besides its source: the identities of pruned messages, the todo block, whether
    it can ask for a peer description, and its attempts. *)
Record RunEnv := {
  rv_fresh : nat -> string;
  rv_todo : option string;
  rv_description : bool;
  rv_attempts : nat -> AttemptEnv
}.

(** The pruned source that meets the target on its own. *)
Definition pruned_end (before target : nat) (frozen : Session) (report : CompactionReport)
  : option (CompactionReport * CompactionResult) :=
  let after := estimate_session_tokens (ss_messages frozen) in
  let '(budget, safe) := safe_history_budget frozen in
  if (after <? before) && (after <=? Nat.min target safe)
  then Some (measured before budget safe (N.of_nat after) (Some "tool_pruning") TargetMet report,
             with_source ToolPruning (unchanged_compaction frozen))
  else None.

Definition run_compaction_attempts (source : Session) (config : CompactionConfig) (custom : option string)
  (options : RunOptions) (env : RunEnv) (scope : ScopeState) (report : CompactionReport) : run RunEnd :=
  let before := estimate_session_tokens (ss_messages source) in
  let budget := (safe_history_budget source).1 in
  let fail message := Ret (ended scope report (Err (InvalidSummary message))) in
  if negb (fits_buffered budget pending)
  then fail "fixed request overhead and reservations exceed the context window"
  else
    let target := N.to_nat (default 0%N (cr_target_history report)) in
    let ideal := N.to_nat (default 0%N (cr_ideal_history report)) in
    if allow_repeat_skip options
       && achieved (fingerprint source custom) before (cr_safe_history_budget report) source
    then Ret (ended scope (skipped_report "unchanged_achieved_target" report) (Ok (unchanged_compaction source)))
    else
      let '(frozen, pruned) :=
        if allow_pruning options then prune_tool_results legacy_id (rv_fresh env) uuid source else (source, 0) in
      match (if 0 <? pruned then pruned_end before target frozen report else None) with
      | Some (report, result) => Ret (ended scope report (Ok result))
      | None =>
          plan ← prepare (ss_messages frozen) (rv_todo env) (compaction_retention frozen config) target ideal;
          let p := {| pp_plan := plan; pp_source := frozen; pp_description := rv_description env |} in
          if negb (has_source plan) then
            if allow_repeat_skip options && (N.of_nat before <=? cr_safe_history_budget report)%N
            then Ret (ended scope (skipped_report "nothing_compactable" report) (Ok (unchanged_compaction source)))
            else fail "no summarizable source and request is oversized"
          else if raw_summary_budget plan =? 0 then fail "protected history makes target infeasible"
          else
            attempts_loop (raw_summary_budget plan + 6) before custom p (rv_attempts env) 0
              (raw_summary_budget plan) true 0 scope report
      end.

(** ** The run and its report *)

Definition initial_report (run_id : string) (source : Session) : CompactionReport :=
  let before := estimate_session_tokens (ss_messages source) in
  let '(budget, safe) := safe_history_budget source in
  let target := current_target before safe in
  {| cr_run_id := run_id; cr_before_history := N.of_nat before; cr_after_history := N.of_nat before;
     cr_target_history := Some (N.of_nat target); cr_ideal_history := Some (N.of_nat (ideal_of before target));
     cr_source_safe_history_budget := N.of_nat safe; cr_safe_history_budget := N.of_nat safe;
     cr_actual_fixed_overhead := overhead_tokens budget; cr_method := None; cr_outcome := Failed; cr_reason := None;
     cr_attempts := 0; cr_completed_responses := 0; cr_estimate_source := "local_history_estimate_v1" |}.

Definition failure_reason (aborted : bool) (scope : ScopeState) (error : CompactionError) : string :=
  if aborted then "cancelled"
  else
    let exhausted := (4 <=? sc_attempts scope)%N || (2 <=? sc_completed_responses scope)%N
                     || (2 <=? sc_outer_retries scope)%N in
    match error with
    | InvalidSummary text =>
        if contains text "target not met" then "summary_target_unmet"
        else if contains text "protected history" then "retention_limited"
        else if contains text "exceed" && contains text "context" then "required_context_exceeds_budget"
        else if exhausted then "attempts_exhausted" else "invalid_summary"
    | ApiError text =>
        if contains text "context budget" || contains text "output reservation" then "required_context_exceeds_budget"
        else if exhausted then "attempts_exhausted" else "provider_error"
    | _ => if exhausted then "attempts_exhausted" else "provider_error"
    end.

(** What of the runtime a compaction changes.  The revision is absent until the source was read;
    a source in memory has none. *)
Record CompactionRuntime := {
  cx_session : Session;
  cx_last_report : option CompactionReport;
  cx_source_revision : option (option string);
  cx_source_stale : bool;
  cx_tracker : UsageTracker
}.

Definition with_session (s : Session) (x : CompactionRuntime) : CompactionRuntime :=
  {| cx_session := s; cx_last_report := cx_last_report x; cx_source_revision := cx_source_revision x;
     cx_source_stale := cx_source_stale x; cx_tracker := cx_tracker x |}.
Definition with_last_report (r : option CompactionReport) (x : CompactionRuntime) : CompactionRuntime :=
  {| cx_session := cx_session x; cx_last_report := r; cx_source_revision := cx_source_revision x;
     cx_source_stale := cx_source_stale x; cx_tracker := cx_tracker x |}.
Definition with_source_state (revision : option (option string)) (stale : bool) (x : CompactionRuntime)
  : CompactionRuntime :=
  {| cx_session := cx_session x; cx_last_report := cx_last_report x; cx_source_revision := revision;
     cx_source_stale := stale; cx_tracker := cx_tracker x |}.
Definition with_tracker (t : UsageTracker) (x : CompactionRuntime) : CompactionRuntime :=
  {| cx_session := cx_session x; cx_last_report := cx_last_report x; cx_source_revision := cx_source_revision x;
     cx_source_stale := cx_source_stale x; cx_tracker := t |}.

Definition session_report (r : option CompactionReport) (s : Session) : Session :=
  set_maintenance (ss_updated_at_ms s) (ss_maintenance_usage s) (ss_compaction_achievement s) r s.
Definition session_achievement (a : option CompactionAchievement) (s : Session) : Session :=
  set_maintenance (ss_updated_at_ms s) (ss_maintenance_usage s) a (ss_last_compaction_report s) s.

Definition ledger_of (s : Session) : Ledger :=
  {| lg_compaction := sk_usage <$> ss_compaction s; lg_messages := ss_messages s;
     lg_receipts := ss_maintenance_usage s;
     lg_achievement := bool_decide (is_Some (ss_compaction_achievement s)) |}.

Definition merge_maintenance_usage (receipts : list MaintenanceUsageReceipt) (s : Session)
  : Session * list TokenUsage :=
  let '(merged, known) := merge_maintenance_receipts (ss_maintenance_usage s) receipts in
  (set_maintenance (match receipts with [] => ss_updated_at_ms s | _ => now end) merged
     (ss_compaction_achievement s) (ss_last_compaction_report s) s, known).

(** The receipts into the live session and its tracker. *)
Definition settle_receipts (receipts : list MaintenanceUsageReceipt) (x : CompactionRuntime) : CompactionRuntime :=
  let '(s, known) := merge_maintenance_usage receipts (cx_session x) in
  with_tracker (record_compaction_maintenance_usage known (ledger_of s) (cx_tracker x)) (with_session s x).

Definition set_compaction_report (r : CompactionReport) (x : CompactionRuntime) : CompactionRuntime :=
  with_last_report (Some r) (with_session (session_report (Some r) (cx_session x)) x).

(** ** The store of the session *)

(** [SessionError], as far as a compaction tells its values apart. *)
Inductive SourceFailure := SourceChanged | SourceFailed (message : string).

Definition source_failure_text (e : SourceFailure) : string :=
  match e with SourceChanged => "session source changed during compaction" | SourceFailed message => message end.
Definition is_changed (e : SourceFailure) : bool := match e with SourceChanged => true | _ => false end.

(** Whether the session has a file. *)
Context (has_path : bool).

(** [reload] is the durable session, or the error of reading it. *)
Definition refresh_compaction_source (reload : result string Session) (x : CompactionRuntime)
  : CompactionRuntime * result string unit :=
  let x := with_source_state None true x in
  if negb has_path then (with_source_state None false x, Ok tt)
  else match reload with
       | Err e => (x, Err e)
       | Ok refreshed =>
           let refreshed := (merge_maintenance_usage (ss_maintenance_usage (cx_session x)) refreshed).1 in
           (with_source_state None false
              (with_session refreshed
                 (with_tracker (refresh_session_totals (ledger_of refreshed) (cx_tracker x)) x)), Ok tt)
       end.

(** Only a source that changed is reloaded; the error of the reload, when it failed. *)
Definition refresh_if_changed (error : SourceFailure) (reload : result string Session) (x : CompactionRuntime)
  : CompactionRuntime * option string :=
  if is_changed error then
    match refresh_compaction_source reload x with
    | (x, Err e) => (x, Some e)
    | (x, Ok _) => (x, None)
    end
  else (x, None).

Definition active_history (x : CompactionRuntime) : N :=
  N.of_nat (estimate_session_tokens (ss_messages (cx_session x))).

Definition changed_reason (suffix : string) (refresh_error : option string) : string :=
  match refresh_error with
  | None => ("source_changed" ++ suffix)%string
  | Some refresh => ("source_changed; source reload failed: " ++ refresh ++ suffix)%string
  end.

Record PersistEnv := {
  pm_write : result SourceFailure unit;
  pm_capture : result SourceFailure (option string * list MaintenanceUsageReceipt);
  pm_reload : result string Session
}.

Definition persist_compaction_maintenance (env : PersistEnv) (x : CompactionRuntime) : CompactionRuntime :=
  let x := with_session (session_report (cx_last_report x) (cx_session x)) x in
  match cx_source_revision x with
  | None => x
  | Some _ =>
      match pm_write env with
      | Err error =>
          let '(x, refresh_error) := refresh_if_changed error (pm_reload env) x in
          match cx_last_report x with
          | None => x
          | Some report =>
              let report :=
                if is_changed error
                then with_outcome Failed (active_history x) (Some (changed_reason "" refresh_error)) report
                else report in
              let reason := (default "failed" (cr_reason report) ++ "; maintenance metadata could not be saved: "
                             ++ source_failure_text error)%string in
              set_compaction_report
                (with_outcome (cr_outcome report) (cr_after_history report) (Some reason) report) x
          end
      | Ok _ =>
          match pm_capture env with
          | Ok (revision, receipts) => with_source_state (Some revision) false (settle_receipts receipts x)
          | Err error =>
              let '(x, refresh_error) := refresh_if_changed error (pm_reload env) (with_source_state None true x) in
              match cx_last_report x with
              | None => x
              | Some report =>
                  let reason := if is_changed error then changed_reason "" refresh_error
                                else ("source_revision_read_failed: " ++ source_failure_text error)%string in
                  set_compaction_report (with_outcome Failed (active_history x) (Some reason) report) x
              end
          end
      end
  end.

(** ** The run of an owner *)

(** Reading the source and preparing the route, cancellation before and during them, and the run. *)
Record OwnerEnv := {
  ow_capture : result SourceFailure (option string * list MaintenanceUsageReceipt);
  ow_reload : result string Session;
  ow_cancelled : bool;
  ow_route : result RuntimeError unit;
  ow_aborted : bool;
  ow_cancelled_first : bool;
  ow_run : RunEnv;
  ow_aborted_after : bool;
  ow_persist : PersistEnv
}.

Definition run_compaction_inner (source : Session) (config : CompactionConfig) (custom : option string)
  (options : RunOptions) (run_id : string) (env : OwnerEnv) (x : CompactionRuntime)
  : run (CompactionRuntime * result CompactionError CompactionResult) :=
  let before := estimate_session_tokens (ss_messages source) in
  let report := initial_report run_id source in
  e ← (if ow_cancelled_first env then Ret (cancelled_end (scope_new run_id) report)
       else run_compaction_attempts source config custom options (ow_run env) (scope_new run_id) report);
  let scope := re_scope e in
  let report := with_counts scope (re_report e) in
  let x := settle_receipts (sc_receipts scope) x in
  match re_result e with
  | Ok c =>
      let session := (merge_maintenance_usage (sc_receipts scope) (co_compacted_session c)).1 in
      let session :=
        match cr_outcome report with
        | TargetMet =>
            session_achievement
              (Some {| ca_fingerprint := fingerprint session custom; ca_before_history := N.of_nat before;
                       ca_target_history := default (N.of_nat (current_target before (safe_history_budget source).2))
                                              (cr_target_history report);
                       ca_after_history := cr_after_history report;
                       ca_policy_version := COMPACTION_POLICY_VERSION |}) session
        | _ => session
        end in
      Ret (with_last_report (Some report) x,
           Ok {| co_summary := co_summary c; co_formatted_summary := co_formatted_summary c;
                 co_compacted_session := session_report (Some report) session;
                 co_removed_message_count := co_removed_message_count c; co_summary_source := co_summary_source c;
                 co_report := Some report;
                 co_source_revision := match cx_source_revision x with Some r => r | None => None end;
                 co_agent_description := co_agent_description c |})
  | Err error =>
      let aborted := re_cancelled e || ow_aborted_after env in
      let report := with_outcome (if aborted then Cancelled else Failed) (N.of_nat before)
                      (Some (failure_reason aborted scope error)) report in
      let x := set_compaction_report report x in
      let x := match sc_receipts scope with [] => x | _ => persist_compaction_maintenance (ow_persist env) x end in
      Ret (with_last_report (Some (default report (cx_last_report x))) x, Err error)
  end.

Definition preparation_report (run_id : string) (source : Session) (changed aborted : bool) (x : CompactionRuntime)
  : CompactionReport :=
  let before := estimate_session_tokens (ss_messages source) in
  with_outcome (if aborted && negb changed then Cancelled else Failed)
    (if changed then active_history x else N.of_nat before)
    (Some (if changed then "source_changed" else if aborted then "cancelled"
           else match cx_source_revision x with None => "source_read_failed" | Some _ => "route_preparation_failed" end))
    (initial_report run_id source).

Definition run_compaction (source : Session) (config : CompactionConfig) (custom : option string)
  (options : RunOptions) (run_id : string) (env : OwnerEnv) (x : CompactionRuntime)
  : run (CompactionRuntime * result CompactionError CompactionResult) :=
  let x := with_source_state None (cx_source_stale x) (with_last_report None x) in
  let failed source changed message x :=
    Ret (set_compaction_report
           (preparation_report run_id source changed (ow_cancelled env || ow_aborted env) x) x, Err (ApiError message)) in
  match ow_capture env with
  | Ok (revision, receipts) =>
      let source := (merge_maintenance_usage receipts source).1 in
      let x := with_source_state (Some revision) false (settle_receipts (ss_maintenance_usage source) x) in
      if ow_cancelled env then failed source false "cancelled" x
      else match ow_route env with
           | Err error => failed source false (re_message error) x
           | Ok _ => run_compaction_inner source config custom options run_id env x
           end
  | Err error =>
      let x := with_source_state None true x in
      let '(x, refresh) := refresh_if_changed error (ow_reload env) x in
      failed source (is_changed error)
        (match refresh with
         | None => "source revision could not be read: " ++ source_failure_text error
         | Some refresh => source_failure_text error ++ "; latest source could not be reloaded: " ++ refresh
         end)%string x
  end.

(** [compact_with_method_for_run]: a manual compaction, whose candidate the caller saves. *)
Definition compact_with_method_for_run (config : CompactionConfig) (custom : option string) (run_id : string)
  (env : OwnerEnv) (x : CompactionRuntime) : run (CompactionRuntime * result CompactionError CompactionResult) :=
  run_compaction (cx_session x)
    {| preserve_recent_messages := preserve_recent_messages config; max_estimated_tokens := 0 |} custom
    {| allow_pruning := false; allow_repeat_skip := true |} run_id env x.

Definition install_compacted_session (s : Session) (x : CompactionRuntime) : CompactionRuntime :=
  with_tracker (clear_context_usage (cx_tracker x)) (with_session s x).

(** ** Compacting the live session *)

Inductive CompactionTrigger := Preflight | InTurnBudget | ProviderRejection | PostTurnUsage.

Record InPlaceEnv := {
  ip_owner : OwnerEnv;
  ip_aborted : bool;
  ip_save : result SourceFailure unit;
  ip_reload : result string Session;
  ip_persist : PersistEnv
}.

Definition update_last_report (f : CompactionReport -> CompactionReport) (x : CompactionRuntime) : CompactionRuntime :=
  with_last_report (f <$> cx_last_report x) x.

(** The saved replacement could not be: the report says why, and a source that changed is reloaded. *)
Definition save_failed (env : InPlaceEnv) (error : SourceFailure) (x : CompactionRuntime) : CompactionRuntime :=
  let '(x, refresh_error) := refresh_if_changed error (ip_reload env) x in
  let reason := if is_changed error
                then changed_reason "; maintenance metadata remains in memory" refresh_error
                else "persistence_failed" in
  let x := update_last_report (with_outcome Failed (active_history x) (Some reason)) x in
  if is_changed error then with_session (session_report (cx_last_report x) (cx_session x)) x
  else persist_compaction_maintenance (ip_persist env) x.

(** The source changed under a run that had nothing to install. *)
Definition changed_under (x : CompactionRuntime) : bool :=
  match cx_last_report x with
  | Some report =>
      match cr_outcome report with Failed => true | _ => false end
      && match cr_reason report with Some reason => starts_with reason "source_changed" | None => false end
  | None => false
  end.

(** The messages it removed and its report, when a replacement was installed. *)
Definition compact_in_place_inner (config : CompactionConfig) (trigger : CompactionTrigger) (run_id : string)
  (env : InPlaceEnv) (x : CompactionRuntime)
  : run (CompactionRuntime * result CompactionError (option (nat * option CompactionReport))) :=
  let source := cx_session x in
  let before := estimate_session_tokens (ss_messages source) in
  '(x, r) ← run_compaction source config None
              {| allow_pruning := true;
                 allow_repeat_skip := match trigger with ProviderRejection => false | _ => true end |}
              run_id (ip_owner env) x;
  match r with
  | Err error => Ret (x, Err error)
  | Ok result =>
      if bool_decide (ss_messages (co_compacted_session result) = ss_messages (cx_session x)) then
        let x := match co_report result with Some report => set_compaction_report report x | None => x end in
        let x := persist_compaction_maintenance (ip_persist env) x in
        if changed_under x then Ret (x, Err (Persistence (source_failure_text SourceChanged)))
        else Ret (x, Ok None)
      else if ip_aborted env then
        let x := update_last_report (with_outcome Cancelled (N.of_nat before) (Some "cancelled_before_commit")) x in
        Ret (persist_compaction_maintenance (ip_persist env) x, Err (ApiError "cancelled"))
      else
        match (if has_path then ip_save env else Ok tt) with
        | Err error => Ret (save_failed env error x, Err (Persistence (source_failure_text error)))
        | Ok _ =>
            Ret (install_compacted_session (co_compacted_session result) x,
                 Ok (Some (co_removed_message_count result, co_report result)))
        end
  end.

Definition compact_in_place (config : CompactionConfig) (trigger : CompactionTrigger) (run_id : string)
  (env : InPlaceEnv) (x : CompactionRuntime)
  : run (CompactionRuntime * result CompactionError (option (nat * option CompactionReport))) :=
  '(x, r) ← compact_in_place_inner config trigger run_id env x;
  Ret (x, match r with Ok v => Ok v | Err e => Err (into_terminal e) end).

(** What observers are told of a run that is over. *)
Inductive CompactionStatus := StatusStarted | StatusCompleted | StatusFailed | StatusCancelled.

Definition progress_status (report : option CompactionReport) (is_ok aborted : bool) : CompactionStatus :=
  match cr_outcome <$> report with
  | Some (TargetMet | Skipped) => StatusCompleted
  | Some Cancelled => StatusCancelled
  | None => if is_ok then StatusCompleted else if aborted then StatusCancelled else StatusFailed
  | Some Failed => StatusFailed
  end.

Definition forced_compaction_config : CompactionConfig :=
  {| preserve_recent_messages := preserve_recent_messages config_default; max_estimated_tokens := 0 |}.

End Run.
