(* ===== verification/SessionLog.v ===== *)
(** * The session log (runtime/src/session_history.rs, session.rs)

    Reading a session back from its file: the records of the log and its torn tail, the replay of
    messages, updates and checkpoints into a graph of messages, the projection of one branch of
    it, the older logs without checkpoints, and the checkpoint a session writes.  The identities
    of messages are those of [Transcript]. *)
From S2P Require Import Prelude.
From stdpp Require Import list gmap strings pretty.
From S2P Require Import RustStr JsonText Utf8 Conversation CompactionScope UsageAccounting SessionCodec SessionRecord Transcript.

Definition HISTORY_VERSION : Z := 1.
Definition SESSION_VERSION : N := 1.

(** sha2: the hex of the digest of some bytes. *)
Class Sha256 := { sha256_hex : string -> string }.

(** [u64::to_be_bytes] *)
Definition to_be_bytes (n : N) : string :=
  string_of_list_ascii (map (fun i => byte (N.shiftr n (8 * i) mod 256)) [7; 6; 5; 4; 3; 2; 1; 0]%N).

Definition zero_byte : string := String (byte 0) "".

(** ** Lines *)

Definition newline : char := 10%N.

(** [str::split_inclusive('\n')] *)
Fixpoint split_inclusive (t : text) : list text :=
  match t with
  | [] => []
  | c :: t =>
      if (c =? newline)%N then [c] :: split_inclusive t
      else match split_inclusive t with [] => [[c]] | l :: ls => (c :: l) :: ls end
  end.

(** [char::is_whitespace] *)
Definition is_whitespace (c : char) : bool :=
  char_in c 9 13 || (c =? 32)%N || (c =? 0x85)%N || (c =? 0xA0)%N || (c =? 0x1680)%N || char_in c 0x2000 0x200A
  || (c =? 0x2028)%N || (c =? 0x2029)%N || (c =? 0x202F)%N || (c =? 0x205F)%N || (c =? 0x3000)%N.

(** [trim().is_empty()] *)
Definition blank (t : text) : bool := forallb is_whitespace t.

Definition ends_line (t : text) : bool := match list.last t with Some c => (c =? newline)%N | None => false end.

(** [str::contains] *)
Fixpoint text_prefix (p t : text) : bool :=
  match p, t with
  | [], _ => true
  | a :: p, b :: t => (a =? b)%N && text_prefix p t
  | _, [] => false
  end.

Fixpoint text_contains (t p : text) : bool :=
  text_prefix p t || match t with [] => false | _ :: t => text_contains t p end.

Section Log.
Context `{SN : SerdeNumber} `{SD : !SerdeDerived} `{SF : StdFormat} `{SH : Sha256} {NE : EqDecision Number}.

Definition error_text (e : CodecError) : string :=
  match e with Format message => message | Json message => utf8 message end.

(** [map_err(SessionError::Format)] *)
Definition format_err {A} (r : result string A) : result CodecError A :=
  match r with Ok a => Ok a | Err e => Err (Format e) end.

(** [map_err(|error| error.to_string())] *)
Definition to_string_err {A} (r : result CodecError A) : result string A :=
  match r with Ok a => Ok a | Err e => Err (error_text e) end.

(** ** Records *)

Definition numbered := (nat * JsonValue)%type.

Definition record_of (index : nat) (line : text) : option (result CodecError numbered) :=
  if blank line then None
  else match parse_json line with
       | Ok v => Some (Ok (S index, v))
       | Err e =>
           if ends_line line then
             Some (Err (Format ("invalid JSONL record at line " ++ pretty (N.of_nat (S index)) ++ ": " ++ error_text e)))
           else None
       end.

Definition records (contents : text) : list (result CodecError numbered) :=
  omap id (imap record_of (split_inclusive contents)).

(** ** Identities of messages *)

(** The digest of a message at a place in a session. *)
Definition message_digest (tag session_id : string) (index : N) (message : ConversationMessage) : string :=
  sha256_hex (tag ++ zero_byte ++ session_id ++ to_be_bytes index ++ utf8 (render (message_to_json message))).

(** The messages of a legacy session, named by their digests ([Transcript.identify_legacy]). *)
Definition legacy_id (session_id : string) (index : nat) (message : ConversationMessage) : string :=
  "legacy-" ++ message_digest "sudocode-message-v1" session_id (N.of_nat index) message.

Definition identify_session (session_id : string) : list ConversationMessage -> list ConversationMessage :=
  identify_legacy (legacy_id session_id).

(** ** The replay *)

Inductive HistoryNode :=
| MessageNode (message : ConversationMessage) (prompt_snapshot : option JsonValue)
| CheckpointNode (parent : option string) (metadata : JsonValue) (view : option (list string)).

Record HistoryReplay := {
  hr_nodes : gmap string HistoryNode;
  hr_head : option string;
  hr_genesis : option string;
  hr_receipts : list MaintenanceUsageReceipt
}.

Definition empty_replay : HistoryReplay := {| hr_nodes := ∅; hr_head := None; hr_genesis := None; hr_receipts := [] |}.

Definition replay_insert (message : ConversationMessage) (snapshot : option JsonValue) (r : HistoryReplay) :
  result string HistoryReplay :=
  i ← ok_or (history message) "message identity missing";
  if String.eqb (identity_id i) "" || bool_decide (identity_parent_id i = Some (identity_id i)) then
    Err "invalid message identity"
  else if decide (is_Some (hr_nodes r !! identity_id i)) then Err ("duplicate history identity: " ++ identity_id i)%string
  else Ok {| hr_nodes := <[identity_id i := MessageNode message snapshot]> (hr_nodes r); hr_head := Some (identity_id i);
             hr_genesis := hr_genesis r; hr_receipts := hr_receipts r |}.

(** [==] on the store's values. *)
Fixpoint json_eqb (v w : JsonValue) {struct v} : bool :=
  match v, w with
  | JNull, JNull => true
  | JBool a, JBool b => Bool.eqb a b
  | JNumber a, JNumber b => (a =? b)%Z
  | JNumberValue a, JNumberValue b => bool_decide (a = b)
  | JString a, JString b => bool_decide (a = b)
  | JArray l, JArray l' =>
      (fix go (l l' : list JsonValue) : bool :=
         match l, l' with
         | [], [] => true
         | a :: l, b :: l' => json_eqb a b && go l l'
         | _, _ => false
         end) l l'
  | JObject l, JObject l' =>
      (fix go (l l' : list (text * JsonValue)) : bool :=
         match l, l' with
         | [], [] => true
         | (k, a) :: l, (k', b) :: l' => bool_decide (k = k') && json_eqb a b && go l l'
         | _, _ => false
         end) l l'
  | _, _ => false
  end.

(** A message of a checkpoint: new, or one the graph has already. *)
Definition checkpoint_message (r : HistoryReplay) (message : ConversationMessage) : result string HistoryReplay :=
  i ← ok_or (history message) "checkpoint message identity missing";
  match hr_nodes r !! identity_id i with
  | Some (MessageNode previous _) =>
      if bool_decide (previous = message) || json_eqb (message_to_json previous) (message_to_json message) then Ok r
      else Err "checkpoint changes an existing message; append an update instead"
  | Some (CheckpointNode _ _ _) => Err "checkpoint changes an existing message; append an update instead"
  | None => replay_insert message None r
  end.

Fixpoint checkpoint_messages (r : HistoryReplay) (messages : list ConversationMessage) : result string HistoryReplay :=
  match messages with
  | [] => Ok r
  | m :: messages => r ← checkpoint_message r m; checkpoint_messages r messages
  end.

Definition is_message (n : option HistoryNode) : bool := match n with Some (MessageNode _ _) => true | _ => false end.

(** A view selects messages of the graph, each once. *)
Fixpoint view_ok (nodes : gmap string HistoryNode) (selected : gset string) (view : list string) : bool :=
  match view with
  | [] => true
  | id :: view => negb (bool_decide (id ∈ selected)) && is_message (nodes !! id) && view_ok nodes ({[id]} ∪ selected) view
  end.

Definition checkpoint (id : string) (parent : option string) (metadata : JsonValue) (messages : list ConversationMessage)
  (view : option (list string)) (replaces_context : bool) (r : HistoryReplay) : result string HistoryReplay :=
  source ← ok_or (as_object metadata) "checkpoint metadata must be an object";
  receipts ← to_string_err (maintenance_usage_from_json source);
  let merged := (merge_maintenance_receipts (hr_receipts r) receipts).1 in
  let previous_head := hr_head r in
  r ← checkpoint_messages {| hr_nodes := hr_nodes r; hr_head := hr_head r; hr_genesis := hr_genesis r; hr_receipts := merged |} messages;
  if String.eqb id "" || bool_decide (is_Some (hr_nodes r !! id)) || bool_decide (parent = Some id) then
    Err "invalid checkpoint identity"
  else if match view with Some view => negb (view_ok (hr_nodes r) ∅ view) | None => false end then
    Err "checkpoint view contains a missing or repeated message"
  else Ok {| hr_nodes := <[id := CheckpointNode parent metadata view]> (hr_nodes r);
             hr_head := if replaces_context || bool_decide (previous_head = None) || bool_decide (previous_head = parent)
                        then Some id else previous_head;
             hr_genesis := Some (default id (hr_genesis r)); hr_receipts := hr_receipts r |}.

Definition update (message : ConversationMessage) (r : HistoryReplay) : result string HistoryReplay :=
  i ← ok_or (history message) "message identity missing";
  match hr_nodes r !! identity_id i with
  | Some (MessageNode original snapshot) =>
      if bool_decide (history original = Some i) && bool_decide (role original = RAssistant) && bool_decide (role message = RAssistant)
      then Ok {| hr_nodes := <[identity_id i := MessageNode message snapshot]> (hr_nodes r); hr_head := hr_head r;
                 hr_genesis := hr_genesis r; hr_receipts := hr_receipts r |}
      else Err "assistant update changes message identity"
  | _ => Err "assistant update target missing"
  end.

(** ** The projection of a branch *)

(** What the walk to the root collects: the metadata of the nearest checkpoint, the prompt of a
    message above it, and the messages, nearest last. *)
Record Branch := { br_metadata : option JsonValue; br_snapshot : option JsonValue; br_chain : list ConversationMessage }.

Fixpoint view_messages (nodes : gmap string HistoryNode) (view : list string) : result string (list ConversationMessage) :=
  match view with
  | [] => Ok []
  | id :: view =>
      match nodes !! id with
      | Some (MessageNode message _) => messages ← view_messages nodes view; Ok (message :: messages)
      | _ => Err "checkpoint view message missing"
      end
  end.

(** [fuel] bounds the walk, which visits a node at most once. *)
Fixpoint walk (fuel : nat) (nodes : gmap string HistoryNode) (visited : gset string) (cursor : option string) (b : Branch) :
  result string Branch :=
  match cursor with
  | None => Ok b
  | Some id =>
      match fuel with
      | O => Err "cycle in session history"
      | S fuel =>
          if bool_decide (id ∈ visited) then Err "cycle in session history"
          else match nodes !! id with
               | None => Err "session ancestor missing"
               | Some (MessageNode message prompt_snapshot) =>
                   walk fuel nodes ({[id]} ∪ visited) (history message ≫= identity_parent_id)
                     {| br_metadata := br_metadata b;
                        br_snapshot := match br_metadata b, br_snapshot b with None, None => prompt_snapshot | _, _ => br_snapshot b end;
                        br_chain := message :: br_chain b |}
               | Some (CheckpointNode parent metadata view) =>
                   let m := Some (default metadata (br_metadata b)) in
                   match view with
                   | Some view =>
                       messages ← view_messages nodes view;
                       Ok {| br_metadata := m; br_snapshot := br_snapshot b; br_chain := messages ++ br_chain b |}
                   | None =>
                       walk fuel nodes ({[id]} ∪ visited) parent
                         {| br_metadata := m; br_snapshot := br_snapshot b; br_chain := br_chain b |}
                   end
               end
      end
  end.

Definition walk_from (nodes : gmap string HistoryNode) (cursor : option string) : result string Branch :=
  walk (S (size nodes)) nodes ∅ cursor {| br_metadata := None; br_snapshot := None; br_chain := [] |}.

Definition genesis_metadata (r : HistoryReplay) : option JsonValue :=
  id ← hr_genesis r;
  match hr_nodes r !! id with Some (CheckpointNode _ metadata _) => Some metadata | _ => None end.

Definition with_receipts (l : list MaintenanceUsageReceipt) (head : option string) (s : Session) : Session :=
  {| ss_version := ss_version s; ss_session_id := ss_session_id s; ss_created_at_ms := ss_created_at_ms s;
     ss_updated_at_ms := ss_updated_at_ms s; ss_messages := ss_messages s; ss_compaction := ss_compaction s;
     ss_maintenance_usage := l; ss_compaction_achievement := ss_compaction_achievement s;
     ss_last_compaction_report := ss_last_compaction_report s; ss_fork := ss_fork s; ss_workspace_root := ss_workspace_root s;
     ss_identity := ss_identity s; ss_prompt_history := ss_prompt_history s; ss_last_health_check_ms := ss_last_health_check_ms s;
     ss_model := ss_model s; ss_mode := ss_mode s; ss_prompt_snapshot := ss_prompt_snapshot s;
     ss_prompt_snapshot_dirty := ss_prompt_snapshot_dirty s; ss_pending_tool_repairs := ss_pending_tool_repairs s;
     ss_restored_history_head := head; ss_view_revision := ss_view_revision s |}.

(** The clock and the id a session without one is given. *)
Context (now : N) (fresh_id : string).

Definition project (r : HistoryReplay) (head : option string) : result string Session :=
  b ← walk_from (hr_nodes r) head;
  match match br_metadata b with Some m => Some m | None => genesis_metadata r end with
  | Some (JObject metadata) =>
      let metadata := insert_opt "prompt_snapshot" (br_snapshot b) metadata in
      let metadata := insert "messages" (JArray (map message_to_json (br_chain b))) metadata in
      session ← to_string_err (from_json now fresh_id (JObject metadata));
      Ok (with_receipts (merge_maintenance_receipts (ss_maintenance_usage session) (hr_receipts r)).1 head session)
  | _ => Err "session metadata missing"
  end.

(** An unversioned message of an older writer, bound to its place in the file. *)
Definition legacy_append (session_id : string) (line_number : nat) (message : ConversationMessage) (r : HistoryReplay) :
  result string ConversationMessage :=
  let id := ("legacy-tail-" ++ message_digest "sudocode-legacy-tail-v1" session_id (N.of_nat line_number) message)%string in
  session ← project r (hr_head r);
  match list.last (identify_session session_id (ss_messages session ++ [message])) with
  | Some message =>
      Ok (set_history (Some {| identity_id := id; identity_parent_id := hr_head r;
                               identity_tool_origins := default ∅ (identity_tool_origins <$> history message) |}) message)
  | None => Err "legacy append was inserted"
  end.

(** ** Reading the log *)

Definition message_reference (v : JsonValue) : result CodecError string :=
  ok_or (as_string v) (Format "checkpoint message reference must be a string").

Definition view_of (v : JsonValue) : result CodecError (list string) :=
  l ← ok_or (as_array v) (Format "checkpoint view must be an array"); collect message_reference l.

Definition replay_checkpoint (m : list (text * JsonValue)) (st : HistoryReplay * option string) :
  result CodecError (HistoryReplay * option string) :=
  let '(r, session_id) := st in
  if negb (bool_decide (get "history_version" m ≫= as_i64 = Some HISTORY_VERSION)) then
    Err (Format "unsupported session history version")
  else
    metadata ← ok_or (get "meta" m) (Format "history checkpoint metadata missing");
    id ← ok_or (fields ← as_object metadata; get "session_id" fields ≫= as_string) (Format "history checkpoint session ID missing");
    if match session_id with Some previous => negb (String.eqb previous id) | None => false end then
      Err (Format "history checkpoint changes session identity")
    else
      l ← ok_or (get "messages" m ≫= as_array) (Format "history checkpoint messages missing");
      messages ← collect message_from_json l;
      node ← ok_or (get "id" m ≫= as_string) (Format "history checkpoint identity missing");
      parent ← match get "parent_id" m with
               | Some JNull => Ok None
               | Some (JString t) => Ok (Some (utf8 t))
               | _ => Err (Format "history checkpoint parent missing")
               end;
      view ← optional view_of "view" m;
      r ← format_err (checkpoint node parent metadata messages view
                        (default false (get "replaces_context" m ≫= as_bool)) r);
      Ok (r, Some id).

Definition parse_record (st : HistoryReplay * option string) (record : numbered) :
  result CodecError (HistoryReplay * option string) :=
  let '(line_number, value) := record in
  let '(r, session_id) := st in
  m ← object_or ("history record " ++ pretty (N.of_nat line_number) ++ " must be an object") value;
  let type := get "type" m ≫= as_string in
  if bool_decide (type = Some "history_checkpoint") then replay_checkpoint m st
  else if bool_decide (type = Some "message") then
    payload ← ok_or (get "message" m) (Format "message payload missing");
    message ← message_from_json payload;
    message ← match history message with
              | Some _ => Ok message
              | None =>
                  id ← ok_or session_id (Format "legacy append session identity missing");
                  format_err (legacy_append id line_number message r)
              end;
    r ← format_err (replay_insert message (get "prompt_snapshot" m) r);
    Ok (r, session_id)
  else if bool_decide (type = Some "assistant_update") then
    id ← ok_or (get "message_id" m ≫= as_string) (Format "assistant update identity missing");
    payload ← ok_or (get "message" m) (Format "assistant update payload missing");
    message ← message_from_json payload;
    if negb (bool_decide (identity_id <$> history message = Some id)) then Err (Format "assistant update identity mismatch")
    else r ← format_err (update message r); Ok (r, session_id)
  else Err (Format ("unsupported shared history record: " ++ debug_option type)).

Fixpoint parse_records (st : HistoryReplay * option string) (l : list (result CodecError numbered)) :
  result CodecError (HistoryReplay * option string) :=
  match l with
  | [] => Ok st
  | record :: l => record ← record; st ← parse_record st record; parse_records st l
  end.

Definition parse_log (contents : text) : result CodecError HistoryReplay :=
  fst <$> parse_records (empty_replay, None) (records contents).

Inductive Selection := Latest | Head (head : option string).

Definition replay (contents : text) (selected : Selection) : result CodecError Session :=
  r ← parse_log contents;
  format_err (project r (match selected with Latest => hr_head r | Head head => head end)).

(** Nearest-first ancestry, across checkpoints. *)
Fixpoint ancestors (fuel : nat) (nodes : gmap string HistoryNode) (seen : gset string) (cursor : option string) :
  result CodecError (list string) :=
  match cursor with
  | None => Ok []
  | Some id =>
      match fuel with
      | O => Err (Format "cycle in session history")
      | S fuel =>
          if bool_decide (id ∈ seen) then Err (Format "cycle in session history")
          else
            next ← match nodes !! id with
                   | Some (MessageNode message _) => Ok (history message ≫= identity_parent_id)
                   | Some (CheckpointNode parent _ _) => Ok parent
                   | None => Err (Format "session ancestor missing")
                   end;
            rest ← ancestors fuel nodes ({[id]} ∪ seen) next;
            Ok (id :: rest)
      end
  end.

Definition ancestry (contents : text) (head : option string) : result CodecError (list string) :=
  r ← parse_log contents; ancestors (S (size (hr_nodes r))) (hr_nodes r) ∅ head.

(** ** Logs without checkpoints *)

(** [Session::new] *)
Definition new_session : Session :=
  {| ss_version := SESSION_VERSION; ss_session_id := fresh_id; ss_created_at_ms := now; ss_updated_at_ms := now;
     ss_messages := []; ss_compaction := None; ss_maintenance_usage := []; ss_compaction_achievement := None;
     ss_last_compaction_report := None; ss_fork := None; ss_workspace_root := None; ss_identity := None;
     ss_prompt_history := []; ss_last_health_check_ms := None; ss_model := None; ss_mode := Interactive;
     ss_prompt_snapshot := None; ss_prompt_snapshot_dirty := false; ss_pending_tool_repairs := 0;
     ss_restored_history_head := None; ss_view_revision := 0 |}.

(** The view that is accumulated; [known] when the session's metadata was read.  What the code
    keeps as missing options is here the clock and the new id it is given at the end. *)
Record LegacyView := { lv_known : bool; lv_session : Session }.

Definition legacy_meta (m : list (text * JsonValue)) : result CodecError Session :=
  maintenance ← maintenance_usage_from_json m;
  achievement ← optional CompactionAchievement_from_json "compaction_achievement" m;
  report ← compaction_report_from_json m;
  version ← required_u32 m "version";
  session_id ← required_string m "session_id";
  created ← required_u64 m "created_at_ms";
  updated ← required_u64 m "updated_at_ms";
  fork ← optional SessionFork_from_json "fork" m;
  identity ← optional HostedSessionIdentity_from_json "identity" m;
  snapshot ← optional SessionPromptSnapshot_from_json "prompt_snapshot" m;
  Ok {| ss_version := version; ss_session_id := session_id; ss_created_at_ms := created; ss_updated_at_ms := updated;
        ss_messages := []; ss_compaction := None; ss_maintenance_usage := maintenance;
        ss_compaction_achievement := achievement; ss_last_compaction_report := report; ss_fork := fork;
        ss_workspace_root := get "workspace_root" m ≫= as_string; ss_identity := identity; ss_prompt_history := [];
        ss_last_health_check_ms := None; ss_model := get "model" m ≫= as_string;
        ss_mode := default Interactive ((get "mode" m ≫= as_string) ≫= SessionMode_from_str);
        ss_prompt_snapshot := snapshot; ss_prompt_snapshot_dirty := false; ss_pending_tool_repairs := 0;
        ss_restored_history_head := None; ss_view_revision := 0 |}.

Definition with_view (messages : list ConversationMessage) (compaction : option SessionCompaction)
  (prompts : list SessionPromptEntry) (snapshot : option SessionPromptSnapshot) (v : LegacyView) : LegacyView :=
  let s := lv_session v in
  {| lv_known := lv_known v;
     lv_session :=
       {| ss_version := ss_version s; ss_session_id := ss_session_id s; ss_created_at_ms := ss_created_at_ms s;
          ss_updated_at_ms := ss_updated_at_ms s; ss_messages := messages; ss_compaction := compaction;
          ss_maintenance_usage := ss_maintenance_usage s; ss_compaction_achievement := ss_compaction_achievement s;
          ss_last_compaction_report := ss_last_compaction_report s; ss_fork := ss_fork s;
          ss_workspace_root := ss_workspace_root s; ss_identity := ss_identity s; ss_prompt_history := prompts;
          ss_last_health_check_ms := ss_last_health_check_ms s; ss_model := ss_model s; ss_mode := ss_mode s;
          ss_prompt_snapshot := snapshot; ss_prompt_snapshot_dirty := ss_prompt_snapshot_dirty s;
          ss_pending_tool_repairs := ss_pending_tool_repairs s; ss_restored_history_head := ss_restored_history_head s;
          ss_view_revision := ss_view_revision s |} |}.

Definition legacy_message (line : string) (m : list (text * JsonValue)) (v : LegacyView) : result CodecError LegacyView :=
  let s := lv_session v in
  snapshot ← match get "prompt_snapshot" m with
             | Some value => Some <$> SessionPromptSnapshot_from_json value
             | None => Ok (ss_prompt_snapshot s)
             end;
  payload ← ok_or (get "message" m) (Format ("JSONL record at line " ++ line ++ " missing message"));
  message ← message_from_json payload;
  Ok (with_view (ss_messages s ++ [message]) (ss_compaction s) (ss_prompt_history s) snapshot v).

Definition legacy_update (m : list (text * JsonValue)) (v : LegacyView) : result CodecError LegacyView :=
  let s := lv_session v in
  index ← required_u64 m "index";
  payload ← ok_or (get "message" m) (Format "assistant update missing message");
  message ← message_from_json payload;
  slot ← ok_or (ss_messages s !! N.to_nat index) (Format "assistant update index out of range");
  if bool_decide (role slot = RAssistant) && bool_decide (role message = RAssistant) then
    Ok (with_view (<[N.to_nat index := message]> (ss_messages s)) (ss_compaction s) (ss_prompt_history s) (ss_prompt_snapshot s) v)
  else Err (Format "assistant update target is not assistant").

Definition legacy_record (v : LegacyView) (record : numbered) : result CodecError LegacyView :=
  let '(line_number, value) := record in
  let line := pretty (N.of_nat line_number) in
  let s := lv_session v in
  m ← object_or ("JSONL record at line " ++ line ++ " must be an object") value;
  type ← ok_or (get "type" m ≫= as_string) (Format ("JSONL record at line " ++ line ++ " missing type"));
  if String.eqb type "session_meta" then s ← legacy_meta m; Ok {| lv_known := true; lv_session := s |}
  else if String.eqb type "message" then legacy_message line m v
  else if String.eqb type "assistant_update" then legacy_update m v
  else if String.eqb type "compaction" then
    c ← SessionCompaction_from_json (JObject m);
    Ok (with_view (ss_messages s) (Some c) (ss_prompt_history s) (ss_prompt_snapshot s) v)
  else if String.eqb type "prompt_history" then
    match SessionPromptEntry_from_json_opt (JObject m) with
    | Some entry => Ok (with_view (ss_messages s) (ss_compaction s) (ss_prompt_history s ++ [entry]) (ss_prompt_snapshot s) v)
    | None => Ok v
    end
  else Err (Format ("unsupported JSONL record type at line " ++ line ++ ": " ++ type)).

Fixpoint legacy_records (v : LegacyView) (l : list (result CodecError numbered)) : result CodecError LegacyView :=
  match l with
  | [] => Ok v
  | record :: l => record ← record; v ← legacy_record v record; legacy_records v l
  end.

Definition from_legacy_jsonl (contents : text) : result CodecError Session :=
  v ← legacy_records {| lv_known := false; lv_session := new_session |} (records contents);
  if negb (lv_known v) && negb (blank contents) then Err (Format "session metadata missing") else Ok (lv_session v).

(** The log from its first checkpoint on; [None] when it has none. *)
Fixpoint suffix_of (lines : list text) : result string (option text) :=
  match lines with
  | [] => Ok None
  | line :: rest =>
      if text_contains line (txt "history_checkpoint") then
        match parse_json line with
        | Ok v =>
            if bool_decide ((m ← as_object v; get "type" m ≫= as_string) = Some "history_checkpoint")
            then Ok (Some (concat lines)) else suffix_of rest
        | Err e => if ends_line line then Err (error_text e) else Ok None
        end
      else suffix_of rest
  end.

Definition shared_history_suffix (contents : text) : result string (option text) := suffix_of (split_inclusive contents).

Definition from_jsonl (contents : text) : result CodecError Session :=
  shared ← format_err (shared_history_suffix contents);
  match shared with Some shared => replay shared Latest | None => from_legacy_jsonl contents end.

(** ** Writing the log *)

(** What a checkpoint asks of a session's persistence at its path: the messages of the log, the
    head of an active writer, and the view of the last checkpoint. *)
Record Persistence := {
  ps_committed : gset string;
  ps_active_head : option (option string);
  ps_checkpoint_view : option N
}.

Definition message_id (m : ConversationMessage) : option string := identity_id <$> history m.

Definition is_committed (p : option Persistence) (m : ConversationMessage) : bool :=
  match p, message_id m with Some p, Some id => bool_decide (id ∈ ps_committed p) | _, _ => false end.

Definition checkpoint_parent (s : Session) (p : option Persistence) : option string :=
  p ← p; match ps_active_head p with Some head => head | None => ss_restored_history_head s end.

Definition needs_view (s : Session) (p : option Persistence) : bool :=
  match p with
  | Some p => match ps_checkpoint_view p with Some revision => negb (revision =? ss_view_revision s)%N | None => true end
  | None => true
  end.

Definition identified (s : Session) : list ConversationMessage :=
  if forallb (fun m => bool_decide (is_Some (history m))) (ss_messages s) then ss_messages s
  else identify_session (ss_session_id s) (ss_messages s).

Definition history_checkpoint (uuid : string) (s : Session) (p : option Persistence) : result CodecError JsonValue :=
  let messages := identified s in
  let pending := List.filter (fun m => negb (is_committed p m)) messages in
  meta ← context_metadata s;
  Ok (JObject
    (insert_opt "view" (if needs_view s p then Some (strings (omap message_id messages)) else None)
    (insert "messages" (JArray (map message_to_json pending))
    (insert "meta" (JObject meta)
    (insert "parent_id" (match checkpoint_parent s p with Some id => jstr id | None => JNull end)
    (insert "id" (jstr uuid)
    (insert "type" (jstr "history_checkpoint")
    (insert "history_version" (JNumber HISTORY_VERSION)
    (insert "replaces_context"
       (JBool (needs_view s p && (negb (ss_view_revision s =? 0)%N || bool_decide (p = None)))) []))))))))).

Definition line_of (v : JsonValue) : text := render v ++ [newline].

Definition render_jsonl_snapshot (uuid : string) (s : Session) : result CodecError text :=
  line_of <$> history_checkpoint uuid s None.

(** What is appended for a message. *)
Definition append_record (s : Session) (message : ConversationMessage) : JsonValue :=
  JObject (insert_opt "prompt_snapshot"
             (if ss_prompt_snapshot_dirty s then SessionPromptSnapshot_to_json <$> ss_prompt_snapshot s else None)
             (message_record message)).

(** What is appended when an assistant message grows. *)
Definition update_record (index : N) (message : ConversationMessage) : result CodecError JsonValue :=
  if (Z.of_N index <=? i64_max)%Z then
    Ok (JObject
      (insert "message" (message_to_json message)
         (match message_id message with
          | Some id => insert "message_id" (jstr id) (typed "assistant_update")
          | None => insert "index" (jnum index) (typed "assistant_update")
          end)))
  else Err (Format "assistant index overflow").
End Log.
