(* ===== verification/SessionLogSafety.v ===== *)
(** * The session log is safe to append to

    A crash in the middle of an append leaves the log as it was, or complete; and what another
    writer appends leaves every branch that was there as it was. *)
From S2P Require Import Prelude.
From stdpp Require Import list gmap strings.
From S2P Require Import RustStr JsonText Utf8 Conversation CompactionScope UsageAccounting SessionCodec SessionRoundtrip SessionRecord SessionLog.

(** ** Lines *)

(** A log of whole lines. *)
Definition closed (log : text) : Prop := log = [] \/ ends_line log = true.

Lemma split_inclusive_app log t : closed log -> split_inclusive (log ++ t) = split_inclusive log ++ split_inclusive t.
Proof.
  induction log as [|c log IH]; intros C; [done|]. cbn [split_inclusive app].
  destruct C as [?|C]; [done|]. destruct (N.eqb_spec c newline) as [->|Hc].
  - rewrite IH; [done|]. destruct log as [|d log]; [by left|by right].
  - assert (C' : closed log).
    { destruct log as [|d log]; [|by right]. unfold ends_line in C. cbn in C. by apply N.eqb_eq in C. }
    rewrite (IH C'). destruct log as [|d log].
    { unfold ends_line in C. cbn in C. by apply N.eqb_eq in C. }
    destruct (split_inclusive (d :: log)) as [|l ls] eqn:E; [|done].
    cbn [split_inclusive] in E. destruct (d =? newline)%N; [done|]. by destruct (split_inclusive log).
Qed.

Lemma split_inclusive_line t : newline ∉ t -> t <> [] -> split_inclusive t = [t].
Proof.
  induction t as [|c t IH]; intros Hn Ht; [done|]. cbn [split_inclusive].
  destruct (N.eqb_spec c newline) as [->|_]; [by destruct Hn; left|].
  destruct t as [|d t]; [done|]. rewrite IH; [done| |done]. intros H. apply Hn. by right.
Qed.

Lemma split_inclusive_closed t : newline ∉ t -> split_inclusive (t ++ [newline]) = [t ++ [newline]].
Proof.
  induction t as [|c t IH]; intros Hn; [done|]. cbn [split_inclusive app].
  destruct (N.eqb_spec c newline) as [->|_]; [by destruct Hn; left|].
  rewrite IH; [done|]. intros H. apply Hn. by right.
Qed.

Lemma concat_split t : concat (split_inclusive t) = t.
Proof.
  induction t as [|c t IH]; [done|]. cbn [split_inclusive]. destruct (c =? newline)%N; cbn; [by rewrite IH|].
  destruct (split_inclusive t) as [|l ls]; cbn in *; [by rewrite <- IH|by rewrite <- IH].
Qed.

Lemma ends_line_app t c : ends_line (t ++ [c]) = (c =? newline)%N.
Proof. unfold ends_line. by rewrite last_snoc. Qed.

Section Lines.
Context `{SN : SerdeNumber} `{SL : !SerdeNumberLaws}.

Lemma shown_line t : shown t -> newline ∉ t.
Proof. unfold shown. rewrite Forall_forall. intros S H. destruct (S _ H) as [_ K]. by apply N.leb_le in K. Qed.

Lemma ends_shown t : shown t -> ends_line t = false.
Proof.
  intros S. unfold ends_line. destruct (list.last t) as [c|] eqn:E; [|done]. apply last_Some in E as [l ->].
  apply shown_app in S as [_ S]. apply (proj1 (Forall_singleton _ _)) in S as [_ S]. apply N.eqb_neq. unfold newline. lia.
Qed.

Lemma ends_line_of v : ends_line (line_of v) = true.
Proof. apply ends_line_app. Qed.

(** A whole line parses as its record. *)
Lemma parse_line m : well_formed (JObject m) -> parse (line_of (JObject m)) = Ret (Ok (JObject m)).
Proof. intros W. by apply parse_object_app. Qed.

(** A prefix of an object's line: all of it, all but its line end, or torn. *)
Lemma prefix_cases m t r :
  well_formed (JObject m) -> t ++ r = line_of (JObject m) ->
  t = line_of (JObject m) \/ t = render (JObject m) \/
  (shown t /\ forall v, parse t <> Ret (Ok v)).
Proof.
  intros W E. destruct r as [|c r] using rev_ind; [left; by rewrite app_nil_r in E|]. clear IHr. right.
  unfold line_of in E. rewrite app_assoc in E. apply app_inj_tail in E as [E _].
  destruct r as [|d r]; [left; by rewrite app_nil_r in E|]. right. split.
  - pose proof (render_shown _ W) as S. rewrite <- E in S. by apply shown_app in S as [S _].
  - by eapply torn_object.
Qed.

Lemma object_not_blank m t : well_formed (JObject m) -> blank (render (JObject m) ++ t) = false.
Proof. done. Qed.
End Lines.

Section Append.
Context `{SN : SerdeNumber} `{SL : !SerdeNumberLaws} `{SD : !SerdeDerived} `{SF : StdFormat} `{SH : Sha256} {NE : EqDecision Number}.
Context (now : N) (fresh_id : string).

(** ** A torn append *)

Lemma records_app log t :
  closed log -> records (log ++ t) =
  records log ++ omap id (imap (fun i => record_of (length (split_inclusive log) + i)) (split_inclusive t)).
Proof.
  intros C. unfold records. rewrite split_inclusive_app by done. by rewrite imap_app, omap_app.
Qed.

(** A torn line gives no record, and no error. *)
Lemma torn_record i t : shown t -> (forall v, parse t <> Ret (Ok v)) -> record_of i t = None.
Proof.
  intros S T. unfold record_of. destruct (blank t); [done|]. unfold parse_json. rewrite (ends_shown _ S).
  destruct (parse t) as [[v|e]| |]; try done. by destruct (T v).
Qed.

Lemma torn_records i t :
  shown t -> (forall v, parse t <> Ret (Ok v)) -> omap id (imap (fun j => record_of (i + j)) (split_inclusive t)) = [].
Proof.
  intros S T. destruct t as [|c t]; [done|]. rewrite split_inclusive_line; [|by apply shown_line|done].
  cbn. by rewrite torn_record.
Qed.

(** A line counts whether or not its line end was written. *)
Lemma line_record i m t :
  well_formed (JObject m) -> t = line_of (JObject m) \/ t = render (JObject m) ->
  omap id (imap (fun j => record_of (i + j)) (split_inclusive t)) = [Ok (S i, JObject m)].
Proof.
  intros W Ht. assert (E : split_inclusive t = [t] /\ parse t = Ret (Ok (JObject m)) /\ blank t = false).
  { pose proof (shown_line _ (render_shown _ W)) as Hn. destruct Ht as [-> | ->].
    - split_and!; [by apply split_inclusive_closed|by apply parse_line|done].
    - split_and!; [by apply split_inclusive_line|by apply parse_of_render|done]. }
  destruct E as (-> & P & B). cbn. unfold record_of, parse_json. rewrite B, P. cbn. by rewrite Nat.add_0_r.
Qed.

Lemma records_torn log m t r :
  closed log -> well_formed (JObject m) -> t ++ r = line_of (JObject m) ->
  records (log ++ t) = records log \/ records (log ++ t) = records (log ++ line_of (JObject m)).
Proof.
  intros C W E. rewrite !records_app by done. destruct (prefix_cases m t r W E) as [->|[->|[S T]]].
  - by right.
  - right. by rewrite (line_record _ m _ W (or_introl eq_refl)), (line_record _ m _ W (or_intror eq_refl)).
  - left. rewrite torn_records by done. by rewrite app_nil_r.
Qed.

Lemma replay_records a b sel : records a = records b -> replay now fresh_id a sel = replay now fresh_id b sel.
Proof. unfold replay, parse_log. by intros ->. Qed.

Lemma legacy_same a b :
  records a = records b -> blank a = blank b -> from_legacy_jsonl now fresh_id a = from_legacy_jsonl now fresh_id b.
Proof. unfold from_legacy_jsonl. by intros -> ->. Qed.

(** ** The shared part of a log *)

Lemma split_ends log : closed log -> Forall (fun l => ends_line l = true) (split_inclusive log).
Proof.
  induction log as [|c log IH]; intros C; [constructor|]. cbn [split_inclusive]. destruct C as [?|C]; [done|].
  destruct (N.eqb_spec c newline) as [->|Hc].
  - constructor; [done|]. apply IH. destruct log as [|d log]; [by left|by right].
  - destruct log as [|d log]; [unfold ends_line in C; cbn in C; by apply N.eqb_eq in C|].
    assert (C' : closed (d :: log)) by by right. specialize (IH C').
    destruct (split_inclusive (d :: log)) as [|l ls] eqn:E.
    + cbn [split_inclusive] in E. by repeat case_match.
    + apply Forall_cons in IH as [Hl IH]. constructor; [|done].
      destruct l as [|x l]; [done|]. exact Hl.
Qed.

Lemma concat_closed ls : Forall (fun l => ends_line l = true) ls -> closed (concat ls).
Proof.
  intros F. destruct ls as [|l ls] using rev_ind; [by left|]. clear IHls. right.
  apply Forall_app in F as [_ F]. apply (proj1 (Forall_singleton _ _)) in F. rewrite concat_app. cbn [concat].
  rewrite app_nil_r. unfold ends_line in *. rewrite last_app. by case_match.
Qed.

Lemma suffix_of_app ls ls' :
  Forall (fun l => ends_line l = true) ls ->
  match suffix_of ls with
  | Ok (Some x) => closed x /\ suffix_of (ls ++ ls') = Ok (Some (x ++ concat ls'))
  | Ok None => suffix_of (ls ++ ls') = suffix_of ls'
  | Err e => suffix_of (ls ++ ls') = Err e
  end.
Proof.
  induction 1 as [|l ls Hl F IH]; [done|]. cbn [suffix_of app]. destruct (text_contains l _); [|exact IH].
  destruct (parse_json l) as [v|e]; [|by rewrite Hl]. case_bool_decide; [|exact IH].
  split; [apply concat_closed; by constructor|]. cbn [concat]. by rewrite concat_app, app_assoc.
Qed.

Lemma prefix_line p a c : c ∉ p -> text_prefix p (a ++ [c]) = text_prefix p a.
Proof.
  revert a. induction p as [|x p IH]; intros a H; [done|]. destruct a as [|b a]; cbn.
  - destruct (N.eqb_spec x c) as [->|_]; [by destruct H; left|done].
  - rewrite IH; [done|]. intros K. apply H. by right.
Qed.

Lemma contains_line p a c : p <> [] -> c ∉ p -> text_contains (a ++ [c]) p = text_contains a p.
Proof.
  intros Hp Hc. induction a as [|b a IH]; cbn [app text_contains].
  - change [c] with ([] ++ [c]) at 1. rewrite prefix_line by done. destruct p; [done|]. done.
  - change (b :: a ++ [c]) with ((b :: a) ++ [c]). rewrite prefix_line by done. by rewrite IH.
Qed.

Lemma suffix_torn t : shown t -> (forall v, parse t <> Ret (Ok v)) -> suffix_of (split_inclusive t) = Ok None.
Proof.
  intros S T. destruct t as [|c t]; [done|]. rewrite split_inclusive_line; [|by apply shown_line|done].
  cbn [suffix_of]. destruct (text_contains _ _); [|done]. unfold parse_json. rewrite (ends_shown _ S).
  destruct (parse (c :: t)) as [[v|e]| |]; try done. by destruct (T v).
Qed.

Lemma suffix_line m :
  well_formed (JObject m) ->
  (suffix_of (split_inclusive (render (JObject m))) = Ok None /\ suffix_of (split_inclusive (line_of (JObject m))) = Ok None) \/
  (suffix_of (split_inclusive (render (JObject m))) = Ok (Some (render (JObject m))) /\
   suffix_of (split_inclusive (line_of (JObject m))) = Ok (Some (line_of (JObject m)))).
Proof.
  intros W. pose proof (shown_line _ (render_shown _ W)) as Hn.
  rewrite split_inclusive_line by done. unfold line_of. rewrite split_inclusive_closed by done.
  cbn [suffix_of]. rewrite contains_line; [|done|by vm_compute; set_solver].
  destruct (text_contains _ _); [|by left]. unfold parse_json. rewrite (parse_of_render _ W).
  change (parse (render (JObject m) ++ [newline])) with (parse (line_of (JObject m))). rewrite (parse_line _ W).
  case_bool_decide; [right|by left]. cbn [concat]. by rewrite !app_nil_r.
Qed.

(** ** Appends are atomic *)

Lemma blank_app a b : blank (a ++ b) = blank a && blank b.
Proof. apply forallb_app. Qed.

(** What a reader makes of a log is decided by its records and by where its shared part starts. *)
Lemma from_jsonl_app log t :
  closed log -> blank log = false ->
  (records (log ++ t) = records log -> suffix_of (split_inclusive t) = Ok None ->
   (forall x, closed x -> records (x ++ t) = records x) ->
   from_jsonl now fresh_id (log ++ t) = from_jsonl now fresh_id log).
Proof.
  intros C B Er Es Ex. unfold from_jsonl, shared_history_suffix. rewrite split_inclusive_app by done.
  pose proof (suffix_of_app (split_inclusive log) (split_inclusive t) (split_ends _ C)) as K.
  destruct (suffix_of (split_inclusive log)) as [[x|]|e]; [destruct K as [Cx ->]|rewrite K, Es|by rewrite K]; cbn [format_err mbind result_bind].
  - rewrite concat_split. by apply replay_records, Ex.
  - apply legacy_same; [done|]. by rewrite blank_app, B.
Qed.

Lemma from_jsonl_line log m :
  closed log -> blank log = false -> well_formed (JObject m) ->
  from_jsonl now fresh_id (log ++ render (JObject m)) = from_jsonl now fresh_id (log ++ line_of (JObject m)).
Proof.
  intros C B W.
  assert (Er : forall x, closed x -> records (x ++ render (JObject m)) = records (x ++ line_of (JObject m))).
  { intros x Cx. rewrite !records_app by done.
    by rewrite (line_record _ m _ W (or_introl eq_refl)), (line_record _ m _ W (or_intror eq_refl)). }
  unfold from_jsonl, shared_history_suffix. rewrite !split_inclusive_app by done.
  pose proof (suffix_of_app (split_inclusive log) (split_inclusive (render (JObject m))) (split_ends _ C)) as K1.
  pose proof (suffix_of_app (split_inclusive log) (split_inclusive (line_of (JObject m))) (split_ends _ C)) as K2.
  destruct (suffix_of (split_inclusive log)) as [[x|]|e].
  - destruct K1 as [Cx ->], K2 as [_ ->]. cbn [format_err mbind result_bind]. rewrite !concat_split. by apply replay_records, Er.
  - rewrite K1, K2. destruct (suffix_line m W) as [[-> ->]|[-> ->]]; cbn [format_err mbind result_bind].
    + apply legacy_same; [by apply Er|]. by rewrite !blank_app, B.
    + apply replay_records, (Er []). by left.
  - by rewrite K1, K2.
Qed.

(** C7. Appends are atomic: whatever prefix of a record's line a crash leaves at the end of a log of
    whole lines, the session is read as if the append had not begun, or as if it had finished. *)
Theorem append_is_atomic log m t r :
  closed log -> blank log = false -> well_formed (JObject m) -> t ++ r = line_of (JObject m) ->
  from_jsonl now fresh_id (log ++ t) = from_jsonl now fresh_id log \/
  from_jsonl now fresh_id (log ++ t) = from_jsonl now fresh_id (log ++ line_of (JObject m)).
Proof.
  intros C B W E. destruct (prefix_cases m t r W E) as [->|[->|[S T]]]; [by right|right; by apply from_jsonl_line|left].
  assert (Er : forall x, closed x -> records (x ++ t) = records x).
  { intros x Cx. rewrite records_app by done. rewrite torn_records by done. by rewrite app_nil_r. }
  apply from_jsonl_app; [done|done|by apply Er|by apply suffix_torn|done].
Qed.
End Append.
