(* ===== verification/SessionBranches.v ===== *)
(** * Branches of a session log

    The walk to the root ends, and what is appended to a log, by this runtime or another, leaves
    the conversation of every branch that was there as it was. *)
From S2P Require Import Prelude.
From stdpp Require Import list gmap strings.
From S2P Require Import RustStr JsonText Utf8 Conversation CompactionScope UsageAccounting SessionCodec SessionRoundtrip SessionRecord SessionLog.

Section Branches.
Context `{SN : SerdeNumber} `{SD : !SerdeDerived} `{SF : StdFormat} `{SH : Sha256} {NE : EqDecision Number}.
Context (now : N) (fresh_id : string).

Implicit Types (nodes : gmap string HistoryNode) (r : HistoryReplay).

(** ** The walk ends *)

(** Nodes the walk has not visited. *)
Definition unvisited nodes (visited : gset string) : nat := size (dom nodes ∖ visited).

Lemma unvisited_visit nodes visited id :
  is_Some (nodes !! id) -> id ∉ visited -> unvisited nodes ({[id]} ∪ visited) < unvisited nodes visited.
Proof.
  intros Hid Hv. unfold unvisited. apply subset_size.
  assert (id ∈ dom nodes) by by apply elem_of_dom. split; [set_solver|]. intros Sub.
  assert (id ∈ dom nodes ∖ ({[id]} ∪ visited)) by (apply Sub; set_solver). set_solver.
Qed.

Lemma walk_enough nodes fuel fuel' visited cursor b :
  unvisited nodes visited < fuel -> unvisited nodes visited < fuel' ->
  walk fuel nodes visited cursor b = walk fuel' nodes visited cursor b.
Proof.
  revert fuel' visited cursor b. induction fuel as [|fuel IH]; intros fuel' visited cursor b Hf Hf'; [lia|].
  destruct fuel' as [|fuel']; [lia|]. destruct cursor as [id|]; [|done]. cbn [walk].
  case_bool_decide as Hv; [done|]. destruct (nodes !! id) as [n|] eqn:E; [|done].
  pose proof (unvisited_visit nodes visited id ltac:(by rewrite E) Hv).
  destruct n as [m snap|parent meta [view|]]; [apply IH; lia|done|apply IH; lia].
Qed.

(** The walk from any message to the root of its branch ends: the fuel of [walk_from], one more
    than the nodes of the log, is never what stops it. *)
Theorem walk_ends nodes fuel cursor b :
  size nodes < fuel -> walk fuel nodes ∅ cursor b = walk (S (size nodes)) nodes ∅ cursor b.
Proof.
  intros Hf. assert (unvisited nodes ∅ = size nodes).
  { unfold unvisited. rewrite difference_empty_L. by apply size_dom. }
  apply walk_enough; lia.
Qed.

(** ** Larger logs *)

Lemma view_messages_mono nodes nodes' view l :
  nodes ⊆ nodes' -> view_messages nodes view = Ok l -> view_messages nodes' view = Ok l.
Proof.
  intros Hn. revert l. induction view as [|id view IH]; intros l; cbn [view_messages]; [done|].
  destruct (nodes !! id) as [n|] eqn:E; [|done]. rewrite (lookup_weaken _ _ _ _ E Hn).
  destruct n as [m snap|]; [|done]. destruct (view_messages nodes view) as [l'|]; [|done]. cbn. by rewrite (IH l' eq_refl).
Qed.

Lemma walk_mono nodes nodes' fuel fuel' visited cursor b x :
  nodes ⊆ nodes' -> fuel <= fuel' ->
  walk fuel nodes visited cursor b = Ok x -> walk fuel' nodes' visited cursor b = Ok x.
Proof.
  intros Hn. revert fuel' visited cursor b. induction fuel as [|fuel IH]; intros fuel' visited cursor b Hf.
  { by destruct cursor, fuel'. }
  destruct fuel' as [|fuel']; [lia|]. destruct cursor as [id|]; [|done]. cbn [walk]. case_bool_decide; [done|].
  destruct (nodes !! id) as [n|] eqn:E; [|done]. rewrite (lookup_weaken _ _ _ _ E Hn).
  destruct n as [m snap|parent meta [view|]]; [apply IH; lia| |apply IH; lia].
  destruct (view_messages nodes view) as [l|] eqn:V; [|done]. cbn. by rewrite (view_messages_mono _ _ _ _ Hn V).
Qed.

Lemma walk_from_mono nodes nodes' cursor x :
  nodes ⊆ nodes' -> walk_from nodes cursor = Ok x -> walk_from nodes' cursor = Ok x.
Proof.
  intros Hn. apply walk_mono; [done|]. apply le_n_S. rewrite <- !size_dom. apply subseteq_size. by apply subseteq_dom.
Qed.

(** ** What an append keeps *)

Record keeps r r' : Prop := {
  kp_nodes : hr_nodes r ⊆ hr_nodes r';
  kp_genesis : forall id, hr_genesis r = Some id -> hr_genesis r' = Some id
}.

Lemma log_keeps_refl r : keeps r r.
Proof. by split. Qed.

Lemma log_keeps_trans r1 r2 r3 : keeps r1 r2 -> keeps r2 r3 -> keeps r1 r3.
Proof. intros [N1 G1] [N2 G2]. split; [by etrans|auto]. Qed.

(** The same session but for the bills of maintenance that are known. *)
Definition same_conversation (s s' : Session) : Prop :=
  s' = with_receipts (ss_maintenance_usage s') (ss_restored_history_head s) s.

Lemma same_conversation_intro l l' head s : same_conversation (with_receipts l head s) (with_receipts l' head s).
Proof. done. Qed.

Lemma branch_metadata r r' b m :
  keeps r r' ->
  match br_metadata b with Some m => Some m | None => genesis_metadata r end = Some m ->
  match br_metadata b with Some m => Some m | None => genesis_metadata r' end = Some m.
Proof.
  intros [Hn Hg]. destruct (br_metadata b); [done|]. unfold genesis_metadata.
  destruct (hr_genesis r) as [id|] eqn:G; [|done]. rewrite (Hg id eq_refl). cbn.
  destruct (hr_nodes r !! id) as [n|] eqn:E; [|done]. by rewrite (lookup_weaken _ _ _ _ E Hn).
Qed.

Lemma project_kept r r' head s :
  keeps r r' -> project now fresh_id r head = Ok s ->
  exists s', project now fresh_id r' head = Ok s' /\ same_conversation s s'.
Proof.
  intros K. unfold project. destruct (walk_from (hr_nodes r) head) as [b|] eqn:E; [|done].
  rewrite (walk_from_mono _ _ _ _ (kp_nodes _ _ K) E). cbn [mbind result_bind].
  destruct (match br_metadata b with Some m => Some m | None => genesis_metadata r end) as [m|] eqn:M; [|done].
  rewrite (branch_metadata _ _ _ _ K M). destruct m as [| | | | | |m]; try done.
  destruct (to_string_err _) as [session|]; [|done]. cbn [mbind result_bind]. intros [= <-].
  eexists. split; [done|]. apply same_conversation_intro.
Qed.

Lemma insert_keeps message snapshot r r' : replay_insert message snapshot r = Ok r' -> keeps r r'.
Proof.
  unfold replay_insert. destruct (history message) as [i|]; [|done]. cbn [ok_or mbind result_bind].
  destruct (_ || _); [done|]. destruct (decide _) as [|Hn]; [done|]. intros [= <-]. split; [|done]. cbn.
  apply insert_subseteq. by apply eq_None_not_Some.
Qed.

Lemma checkpoint_messages_keep messages r r' : checkpoint_messages r messages = Ok r' -> keeps r r'.
Proof.
  revert r. induction messages as [|m messages IH]; intros r; cbn [checkpoint_messages]; [intros [= <-]; apply log_keeps_refl|].
  destruct (checkpoint_message r m) as [r1|] eqn:E; [|done]. cbn. intros H. apply IH in H. eapply log_keeps_trans; [|exact H].
  unfold checkpoint_message in E. destruct (history m) as [i|]; [|done]. cbn [ok_or mbind result_bind] in E.
  destruct (hr_nodes r !! identity_id i) as [[previous snap|]|]; [|done|by eapply insert_keeps].
  destruct (_ || _); [|done]. injection E as <-. apply log_keeps_refl.
Qed.

Lemma checkpoint_keeps id parent metadata messages view replaces r r' :
  checkpoint id parent metadata messages view replaces r = Ok r' -> keeps r r'.
Proof.
  unfold checkpoint. destruct (ok_or (as_object metadata) _) as [source|]; [|done]. cbn [mbind result_bind].
  destruct (to_string_err _) as [receipts|]; [|done]. cbn [mbind result_bind].
  destruct (checkpoint_messages _ messages) as [r1|] eqn:E; [|done]. cbn [mbind result_bind].
  apply checkpoint_messages_keep in E as [N1 G1]. cbn in N1, G1.
  destruct (_ || bool_decide (parent = Some id)) eqn:D; [done|]. destruct (match view with Some _ => _ | None => _ end); [done|].
  intros [= <-]. split; cbn.
  - etrans; [exact N1|]. apply insert_subseteq. apply orb_false_iff in D as [[_ D]%orb_false_iff _].
    by apply bool_decide_eq_false, eq_None_not_Some in D.
  - intros id' G. by rewrite (G1 id' G).
Qed.

(** A record that grows an assistant message, the only one that changes a node. *)
Definition is_update (record : numbered) : bool :=
  bool_decide ((m ← as_object record.2; get "type" m ≫= as_string) = Some "assistant_update").

Lemma record_keeps st record st' :
  is_update record = false -> parse_record now fresh_id st record = Ok st' -> keeps st.1 st'.1.
Proof.
  destruct record as [n v], st as [r id]. unfold is_update, parse_record. cbn [snd fst].
  destruct v as [| | | | | |m]; try done. cbn [object_or as_object ok_or mbind result_bind option_bind]. intros Hu%bool_decide_eq_false.
  case_bool_decide as Hc.
  { unfold replay_checkpoint. destruct (negb _); [done|]. intros H.
    repeat match type of H with
    | (?x ≫= _) = Ok _ => destruct x eqn:?; [cbn [mbind result_bind] in H|done]
    | (if ?b then _ else _) = Ok _ => destruct b; [done|]
    | Ok _ = Ok _ => injection H as <-
    end. cbn [fst].
    match goal with E : format_err ?x = Ok _ |- _ => destruct x eqn:?; [injection E as <-|done] end.
    by eapply checkpoint_keeps. }
  case_bool_decide as Hm.
  { intros H.
    repeat match type of H with
    | (?x ≫= _) = Ok _ => destruct x eqn:?; [cbn [mbind result_bind] in H|done]
    | Ok _ = Ok _ => injection H as <-
    end. cbn [fst].
    match goal with E : format_err (replay_insert _ _ _) = Ok _ |- _ => rename E into E1 end.
    destruct (replay_insert _ _ _) eqn:?; [injection E1 as <-|done]. by eapply insert_keeps. }
  by rewrite bool_decide_eq_false_2.
Qed.

Lemma records_keep l st st' :
  forallb (fun record => match record with Ok record => negb (is_update record) | Err _ => true end) l = true ->
  parse_records now fresh_id st l = Ok st' -> keeps st.1 st'.1.
Proof.
  revert st. induction l as [|[record|e] l IH]; intros st; cbn [forallb parse_records]; [intros _ [= <-]; apply log_keeps_refl| |done].
  intros [Hu Hl]%andb_true_iff. cbn [mbind result_bind]. destruct (parse_record _ _ st record) as [st1|] eqn:E; [|done].
  cbn [mbind result_bind]. intros H. eapply log_keeps_trans; [eapply record_keeps, E; by apply negb_true_iff|by apply IH].
Qed.

(** C19. Branches are isolated: after any further records but updates of an answer in progress, from
    this runtime or another, a branch that could be read is read with the same conversation. *)
Theorem appends_keep_branches st l st' head s :
  forallb (fun record => match record with Ok record => negb (is_update record) | Err _ => true end) l = true ->
  parse_records now fresh_id st l = Ok st' -> project now fresh_id st.1 head = Ok s ->
  exists s', project now fresh_id st'.1 head = Ok s' /\ same_conversation s s'.
Proof. intros Hl H. apply project_kept. by eapply records_keep. Qed.
End Branches.
