(* ===== verification/SessionLive.v ===== *)
(** * A session, its log and a restart

    The checkpoint a session writes into a new log, and the messages it appends after it, are read
    back as the session with those messages; and what [Transcript.push_message] leaves in memory of
    a live session is what a restart reads from its file. *)
From S2P Require Import Prelude.
From stdpp Require Import list gmap strings sorting.
From S2P Require Import RustStr JsonText Utf8 Conversation CompactionScope UsageAccounting SessionCodec SessionRoundtrip SessionRecord SessionRecordSafety Transcript SessionLog SessionLogSafety SessionBranches.

(** ** Receipts that are known *)

Definition attempt_key (r : MaintenanceUsageReceipt) : string * N := (rc_run_id r, rc_attempt_id r).

(** One receipt for each attempt. *)
Definition distinct_attempts (l : list MaintenanceUsageReceipt) : Prop := NoDup (map attempt_key l).

Lemma same_attempt_spec r e : same_attempt r e = true <-> attempt_key e = attempt_key r.
Proof.
  unfold same_attempt, attempt_key. rewrite andb_true_iff, String.eqb_eq, N.eqb_eq. split; [by intros [-> ->]|by intros [= -> ->]].
Qed.

Lemma settle_fresh r l : attempt_key r ∉ map attempt_key l -> settle_receipt r l = None.
Proof.
  induction l as [|e l IH]; cbn [settle_receipt map]; [done|]. intros [Hne Hl]%not_elem_of_cons.
  destruct (same_attempt r e) eqn:E; [by apply same_attempt_spec in E|]. by rewrite IH.
Qed.

Lemma settle_known r l1 l2 :
  distinct_attempts (l1 ++ r :: l2) -> settle_receipt r (l1 ++ r :: l2) = Some (l1 ++ r :: l2, None).
Proof.
  unfold distinct_attempts. induction l1 as [|e l1 IH]; intros D; cbn [settle_receipt app].
  - rewrite (proj2 (same_attempt_spec r r) eq_refl). by destruct r as [? ? [u|]].
  - cbn [map app] in D. apply NoDup_cons in D as [Hn D]. destruct (same_attempt r e) eqn:E; [|by rewrite IH].
    apply same_attempt_spec in E. destruct Hn. rewrite E, map_app. apply elem_of_app. right. left.
Qed.

Lemma merge_fresh l1 l2 : distinct_attempts (l1 ++ l2) -> (merge_maintenance_receipts l1 l2).1 = l1 ++ l2.
Proof.
  revert l1. induction l2 as [|r l2 IH]; intros l1 D; cbn [merge_maintenance_receipts]; [by rewrite app_nil_r|].
  unfold merge_receipt. rewrite settle_fresh.
  - specialize (IH (l1 ++ [r])). rewrite <- app_assoc in IH. specialize (IH D).
    by destruct (merge_maintenance_receipts (l1 ++ [r]) l2).
  - unfold distinct_attempts in D. rewrite map_app in D. apply NoDup_app in D as (_ & D & _).
    intros H. apply (D _ H). left.
Qed.

Lemma merge_known l1 l2 : distinct_attempts (l1 ++ l2) -> (merge_maintenance_receipts (l1 ++ l2) l2).1 = l1 ++ l2.
Proof.
  revert l1. induction l2 as [|r l2 IH]; intros l1 D; cbn [merge_maintenance_receipts]; [done|].
  unfold merge_receipt. rewrite settle_known by done. specialize (IH (l1 ++ [r])). rewrite <- app_assoc in IH.
  specialize (IH D). cbn [app] in IH. by destruct (merge_maintenance_receipts (l1 ++ r :: l2) l2).
Qed.

Lemma canon_receipts_keys l : map attempt_key (map canon_receipt l) = map attempt_key l.
Proof. by rewrite map_map. Qed.

Section Reload.
Context `{SN : SerdeNumber} `{SL : !SerdeNumberLaws} `{SD : !SerdeDerived} `{DL : !SerdeDerivedLaws}.
Context `{SF : StdFormat} `{SH : Sha256} {NE : EqDecision Number}.
Context (now : N) (fresh_id : string).

(** ** The lines of a log *)

Lemma text_prefix_app p a b : text_prefix p a = true -> text_prefix p (a ++ b) = true.
Proof.
  revert a. induction p as [|x p IH]; intros [|y a]; cbn; try done. rewrite !andb_true_iff. intros [? ?]. auto.
Qed.

Lemma text_contains_app_r a b p : text_contains a p = true -> text_contains (a ++ b) p = true.
Proof.
  induction a as [|x a IH]; cbn [text_contains app]; rewrite orb_true_iff.
  - intros [H|?]; [|done]. destruct p; [|done]. by destruct b.
  - intros [H|H]; rewrite orb_true_iff; [left; by apply (text_prefix_app p (x :: a))|right; by apply IH].
Qed.

Lemma text_contains_app_l a b p : text_contains b p = true -> text_contains (a ++ b) p = true.
Proof.
  intros H. induction a as [|x a IH]; [done|]. cbn [text_contains app]. by rewrite IH, orb_true_r.
Qed.

Lemma contains_join x l p : x ∈ l -> text_contains x p = true -> text_contains (join_comma l) p = true.
Proof.
  intros Hx H. induction l as [|y l IH]; [by apply elem_of_nil in Hx|]. cbn [join_comma].
  apply elem_of_cons in Hx as [<-|Hx]; destruct l as [|z l]; try done; [by apply text_contains_app_r|by apply elem_of_nil in Hx|].
  apply text_contains_app_l. change (ch "," :: ?t) with ([ch ","] ++ t). apply text_contains_app_l. by apply IH.
Qed.

Lemma get_elem key m v : get key m = Some v -> (txt key, v) ∈ m.
Proof.
  unfold get. induction m as [|[k w] m IH]; cbn [entries_get]; [done|].
  case_bool_decide as E; [intros [= ->]; subst; left|intros H; right; by apply IH].
Qed.

(** A field's text is in the text of its object. *)
Lemma contains_field key m v p : get key m = Some v -> text_contains (render v) p = true -> text_contains (render (JObject m)) p = true.
Proof.
  intros G%get_elem H. cbn [render]. change (ch "{" :: ?t) with ([ch "{"] ++ t). apply text_contains_app_l, text_contains_app_r.
  eapply contains_join; [apply list_elem_of_fmap; by exists (txt key, v)|]. cbn [fst snd].
  apply text_contains_app_l. change (ch ":" :: ?t) with ([ch ":"] ++ t). by apply text_contains_app_l.
Qed.

Definition object_line (m : list (text * JsonValue)) : text := line_of (JObject m).

Lemma lines_closed ms : closed (concat (map object_line ms)).
Proof. apply concat_closed, Forall_map, Forall_forall. intros m _. apply ends_line_of. Qed.

Lemma split_lines ms :
  Forall (fun m => well_formed (JObject m)) ms -> split_inclusive (concat (map object_line ms)) = map object_line ms.
Proof.
  induction 1 as [|m ms W _ IH]; [done|]. cbn [map concat].
  rewrite split_inclusive_app by (right; apply ends_line_of). rewrite IH.
  unfold object_line at 1, line_of. rewrite split_inclusive_closed; [done|]. by apply shown_line, render_shown.
Qed.

Lemma lines_records k ms :
  Forall (fun m => well_formed (JObject m)) ms ->
  omap id (imap (fun i l => record_of (k + i) l) (map object_line ms)) = imap (fun i m => Ok (S (k + i), JObject m)) ms.
Proof.
  intros F. revert k. induction F as [|m ms W _ IH]; intros k; [done|]. cbn [map imap].
  change (omap id (?x :: ?l)) with (match x with Some y => y :: omap id l | None => omap id l end).
  assert (record_of (k + 0) (object_line m) = Some (Ok (S (k + 0), JObject m))) as ->.
  { unfold record_of, parse_json, object_line. by rewrite (parse_line _ W). }
  f_equal. specialize (IH (S k)).
  assert (A : forall B C (f g : nat -> B -> C) l, (forall i x, f i x = g i x) -> imap f l = imap g l).
  { intros B C f g l H. by apply imap_ext. }
  etransitivity; [|etransitivity; [exact IH|]].
  - f_equal. apply A. intros i x. cbn. f_equal. lia.
  - apply A. intros i x. cbn. do 3 f_equal. lia.
Qed.

Lemma records_lines ms :
  Forall (fun m => well_formed (JObject m)) ms ->
  records (concat (map object_line ms)) = imap (fun i m => Ok (S i, JObject m)) ms.
Proof. intros F. unfold records. rewrite split_lines by done. apply (lines_records 0 _ F). Qed.

(** A log that starts with a checkpoint is replayed. *)
Lemma from_jsonl_checkpoint m ms :
  Forall (fun m => well_formed (JObject m)) (m :: ms) -> get "type" m = Some (jstr "history_checkpoint") ->
  from_jsonl now fresh_id (concat (map object_line (m :: ms))) = replay now fresh_id (concat (map object_line (m :: ms))) Latest.
Proof.
  intros F T. unfold from_jsonl, shared_history_suffix. rewrite split_lines by done. cbn [map suffix_of].
  assert (text_contains (object_line m) (txt "history_checkpoint") = true) as ->.
  { unfold object_line, line_of. apply text_contains_app_r. eapply contains_field; [exact T|]. by vm_compute. }
  apply Forall_cons in F as [W _]. unfold parse_json. change (object_line m) with (line_of (JObject m)). rewrite (parse_line _ W).
  rewrite bool_decide_eq_true_2; [done|]. cbn [as_object mbind option_bind]. by rewrite T.
Qed.

(** ** The graph a checkpoint builds *)

Implicit Types (nodes : gmap string HistoryNode) (r : HistoryReplay).

(** An identified message that is not its own parent. *)
Definition placed (m : ConversationMessage) : Prop :=
  exists i, history m = Some i /\ identity_id i <> "" /\ identity_parent_id i <> Some (identity_id i).

Definition ids_of (ms : list ConversationMessage) : list string := omap message_id ms.

Lemma placed_id m : placed m -> exists id, message_id m = Some id.
Proof. intros (i & E & _). exists (identity_id i). unfold message_id. by rewrite E. Qed.

Lemma insert_placed m snapshot r id :
  placed m -> message_id m = Some id -> hr_nodes r !! id = None ->
  replay_insert m snapshot r =
  Ok {| hr_nodes := <[id := MessageNode m snapshot]> (hr_nodes r); hr_head := Some id; hr_genesis := hr_genesis r;
        hr_receipts := hr_receipts r |}.
Proof.
  intros (i & E & Hne & Hp) Eid Hn. unfold message_id in Eid. rewrite E in Eid. injection Eid as <-.
  unfold replay_insert. rewrite E. cbn [ok_or mbind result_bind].
  destruct (String.eqb_spec (identity_id i) ""); [done|]. rewrite bool_decide_eq_false_2 by done. cbn [orb].
  destruct (decide _) as [[x Hx]|_]; [by rewrite Hn in Hx|done].
Qed.

Lemma checkpoint_messages_ok ms r :
  Forall placed ms -> NoDup (ids_of ms) -> Forall (fun id => hr_nodes r !! id = None) (ids_of ms) ->
  exists r', checkpoint_messages r ms = Ok r' /\ hr_genesis r' = hr_genesis r /\ hr_receipts r' = hr_receipts r /\
    Forall (fun m => exists id, message_id m = Some id /\ hr_nodes r' !! id = Some (MessageNode m None)) ms /\
    (forall id, id ∉ ids_of ms -> hr_nodes r' !! id = hr_nodes r !! id).
Proof.
  intros P. revert r. induction P as [|m ms Pm P IH]; intros r N F; cbn [checkpoint_messages].
  { exists r. by split_and!. }
  destruct (placed_id m Pm) as [id Eid]. unfold ids_of in N, F. cbn [omap list_omap] in N, F. rewrite Eid in N, F.
  apply NoDup_cons in N as [Hid N]. apply Forall_cons in F as [Fid F].
  unfold checkpoint_message. pose proof Pm as (i & Ei & _). rewrite Ei. cbn [ok_or mbind result_bind].
  assert (identity_id i = id) as -> by (unfold message_id in Eid; rewrite Ei in Eid; by injection Eid).
  rewrite Fid, (insert_placed _ None _ _ Pm Eid Fid). cbn [mbind result_bind].
  match goal with |- context [checkpoint_messages ?x] => set (r1 := x) end.
  assert (F1 : Forall (fun id => hr_nodes r1 !! id = None) (ids_of ms)).
  { rewrite Forall_forall in F |- *. intros id' H. cbn. rewrite lookup_insert_ne by (intros ->; by apply Hid). by apply F. }
  destruct (IH r1 N F1) as (r' & E & G & R & M & O). exists r'. split_and!; [done|done|done| |].
  - constructor; [|done]. exists id. split; [done|]. rewrite O by done. cbn. by rewrite lookup_insert_eq.
  - intros id' H. unfold ids_of in H. cbn [omap list_omap] in H. rewrite Eid in H. apply not_elem_of_cons in H as [Hne H].
    rewrite O by done. cbn. by rewrite lookup_insert_ne.
Qed.

Definition holds_messages nodes (ms : list ConversationMessage) : Prop :=
  Forall (fun m => exists id, message_id m = Some id /\ nodes !! id = Some (MessageNode m None)) ms.

Lemma view_is_ok nodes ms sel :
  holds_messages nodes ms -> NoDup (ids_of ms) -> (forall id, id ∈ ids_of ms -> id ∉ sel) ->
  view_ok nodes sel (ids_of ms) = true.
Proof.
  intros H. revert sel. induction H as [|m ms (id & Eid & En) _ IH]; intros sel N D; [done|].
  unfold ids_of in *. cbn [omap list_omap] in *. rewrite Eid in *. apply NoDup_cons in N as [Hid N]. cbn [view_ok].
  rewrite bool_decide_eq_false_2 by (apply D; left). rewrite En. cbn. apply IH; [done|].
  intros id' H. assert (id' ∉ sel) by (apply D; by right). assert (id' <> id) by (by intros ->). set_solver.
Qed.

Lemma view_is_read nodes ms : holds_messages nodes ms -> view_messages nodes (ids_of ms) = Ok ms.
Proof.
  induction 1 as [|m ms (id & Eid & En) _ IH]; [done|]. unfold ids_of in *. cbn [omap list_omap]. rewrite Eid.
  cbn [view_messages]. rewrite En, IH. done.
Qed.

Lemma holds_weaken nodes nodes' ms : nodes ⊆ nodes' -> holds_messages nodes ms -> holds_messages nodes' ms.
Proof.
  intros Hn H. eapply Forall_impl; [exact H|]. intros m (id & Eid & En). exists id. split; [done|]. by eapply lookup_weaken.
Qed.

(** ** The branch that is read *)

(** From [cursor], in any walk that has not been there, the branch's metadata, its messages and
    its prompt are found. *)
Definition branch_reads nodes (cursor : string) (meta : JsonValue) (ms : list ConversationMessage) (snap : option JsonValue) : Prop :=
  forall visited b, visited ## dom nodes -> br_metadata b = None ->
  walk (S (size nodes)) nodes visited (Some cursor) b =
  Ok {| br_metadata := Some meta; br_snapshot := match br_snapshot b with Some x => Some x | None => snap end;
        br_chain := ms ++ br_chain b |}.

Lemma branch_of_checkpoint nodes id parent meta view ms :
  nodes !! id = Some (CheckpointNode parent meta (Some view)) -> view_messages nodes view = Ok ms ->
  branch_reads nodes id meta ms None.
Proof.
  intros En Ev visited b Hv Hb. cbn [walk].
  assert (id ∈ dom nodes) by (apply elem_of_dom; by rewrite En). rewrite bool_decide_eq_false_2 by set_solver.
  rewrite En, Ev, Hb. cbn. by destruct (br_snapshot b).
Qed.

Lemma walk_message fuel nodes visited id m snapshot b :
  id ∉ visited -> nodes !! id = Some (MessageNode m snapshot) ->
  walk (S fuel) nodes visited (Some id) b =
  walk fuel nodes ({[id]} ∪ visited) (history m ≫= identity_parent_id)
    {| br_metadata := br_metadata b;
       br_snapshot := match br_metadata b, br_snapshot b with None, None => snapshot | _, _ => br_snapshot b end;
       br_chain := m :: br_chain b |}.
Proof. intros Hv E. cbn [walk]. by rewrite bool_decide_eq_false_2, E. Qed.

Lemma branch_of_message nodes id m snapshot prev meta ms snap :
  branch_reads nodes prev meta ms snap -> nodes !! id = None -> (history m ≫= identity_parent_id) = Some prev ->
  branch_reads (<[id := MessageNode m snapshot]> nodes) id meta (ms ++ [m])
    (match snapshot with Some x => Some x | None => snap end).
Proof.
  intros B Hn Hp visited b Hv Hb. rewrite dom_insert_L in Hv. rewrite map_size_insert_None by done.
  rewrite (walk_message _ _ _ _ m snapshot) by (first [set_solver | by rewrite lookup_insert_eq]). rewrite Hp, Hb.
  assert (id ∉ dom nodes) by by apply not_elem_of_dom.
  eapply walk_mono; [by apply insert_subseteq|done|]. rewrite B; [|set_solver|done]. cbn [br_snapshot br_chain]. f_equal. f_equal.
  - by destruct (br_snapshot b).
  - by rewrite <- app_assoc.
Qed.

(** ** Records *)

(** A session with other messages and another prompt. *)
Definition with_conversation (ms : list ConversationMessage) (snap : option SessionPromptSnapshot) (s : Session) : Session :=
  {| ss_version := ss_version s; ss_session_id := ss_session_id s; ss_created_at_ms := ss_created_at_ms s;
     ss_updated_at_ms := ss_updated_at_ms s; ss_messages := ms; ss_compaction := ss_compaction s;
     ss_maintenance_usage := ss_maintenance_usage s; ss_compaction_achievement := ss_compaction_achievement s;
     ss_last_compaction_report := ss_last_compaction_report s; ss_fork := ss_fork s; ss_workspace_root := ss_workspace_root s;
     ss_identity := ss_identity s; ss_prompt_history := ss_prompt_history s; ss_last_health_check_ms := ss_last_health_check_ms s;
     ss_model := ss_model s; ss_mode := ss_mode s; ss_prompt_snapshot := snap;
     ss_prompt_snapshot_dirty := ss_prompt_snapshot_dirty s; ss_pending_tool_repairs := ss_pending_tool_repairs s;
     ss_restored_history_head := ss_restored_history_head s; ss_view_revision := ss_view_revision s |}.

(** A message that was appended, with the prompt that was new then. *)
Definition Appended : Type := option SessionPromptSnapshot * ConversationMessage.

Definition appended_fields (a : Appended) : list (text * JsonValue) :=
  insert_opt "prompt_snapshot" (SessionPromptSnapshot_to_json <$> a.1) (message_record a.2).

Lemma append_record_fields s m :
  append_record s m = JObject (appended_fields (if ss_prompt_snapshot_dirty s then ss_prompt_snapshot s else None, m)).
Proof. unfold append_record, appended_fields. by destruct (ss_prompt_snapshot_dirty s). Qed.

Definition rust_appended (a : Appended) : Prop := from_option rust_snapshot True a.1 /\ rust_message a.2.

Lemma appended_wf a : rust_appended a -> well_formed (JObject (appended_fields a)).
Proof.
  intros [Rs Rm]. unfold appended_fields, message_record, typed. wf_fields.
  - by eapply pure_wf_option; [apply snapshot_coded|].
  - by apply message_wf.
  - by apply wf_jstr, literal_rust.
Qed.

Lemma canon_history m : history (canon_message m) = history m.
Proof. done. Qed.

Lemma canon_id m : message_id (canon_message m) = message_id m.
Proof. done. Qed.

Lemma canon_placed m : placed m -> placed (canon_message m).
Proof. done. Qed.

Lemma canon_ids ms : ids_of (map canon_message ms) = ids_of ms.
Proof. induction ms as [|m ms IH]; [done|]. unfold ids_of in *. cbn [map omap list_omap]. rewrite canon_id. by destruct (message_id m); rewrite IH. Qed.

Lemma append_is_read r sid n a id :
  rust_appended a -> placed a.2 -> message_id a.2 = Some id -> hr_nodes r !! id = None ->
  parse_record now fresh_id (r, Some sid) (n, JObject (appended_fields a)) =
  Ok ({| hr_nodes := <[id := MessageNode (canon_message a.2) (SessionPromptSnapshot_to_json <$> a.1)]> (hr_nodes r);
         hr_head := Some id; hr_genesis := hr_genesis r; hr_receipts := hr_receipts r |}, Some sid).
Proof.
  intros [Rs Rm] P E Hn. unfold parse_record. cbn [object_or as_object ok_or mbind result_bind].
  set (m := appended_fields a).
  assert (get "type" m ≫= as_string = Some "message") as ->.
  { apply (text_back m "type" "message"); [unfold m, appended_fields, message_record, typed; by gets|by apply literal_rust]. }
  rewrite (bool_decide_eq_false_2 (Some "message" = Some "history_checkpoint")), bool_decide_eq_true_2 by done.
  assert (get "message" m = Some (message_to_json a.2)) as -> by by unfold m, appended_fields, message_record; gets.
  cbn [ok_or mbind result_bind]. rewrite message_back by done. cbn [mbind result_bind]. rewrite canon_history.
  destruct P as (i & Ei & P). rewrite Ei. cbn [mbind result_bind].
  assert (get "prompt_snapshot" m = (SessionPromptSnapshot_to_json <$> a.1)) as ->.
  { unfold m, appended_fields, message_record, typed. gets. by destruct a.1. }
  rewrite (insert_placed (canon_message a.2) _ _ id); [done| |by rewrite canon_id|done]. apply canon_placed. by exists i.
Qed.

(** Messages appended one after another, after [prev]. *)
Fixpoint chained (used : gset string) (prev : string) (l : list Appended) : Prop :=
  match l with
  | [] => True
  | a :: l =>
      rust_appended a /\ placed a.2 /\ (history a.2 ≫= identity_parent_id) = Some prev /\
      exists id, message_id a.2 = Some id /\ id ∉ used /\ chained ({[id]} ∪ used) id l
  end.

Fixpoint last_head (prev : string) (l : list Appended) : string :=
  match l with [] => prev | a :: l => last_head (default prev (message_id a.2)) l end.

Fixpoint last_snapshot (snap : option SessionPromptSnapshot) (l : list Appended) : option SessionPromptSnapshot :=
  match l with [] => snap | a :: l => last_snapshot (match a.1 with Some x => Some x | None => snap end) l end.

Lemma appends_are_read l used prev ms snap k r sid meta :
  chained used prev l -> dom (hr_nodes r) ⊆ used -> hr_head r = Some prev ->
  branch_reads (hr_nodes r) prev meta ms (SessionPromptSnapshot_to_json <$> snap) ->
  exists r', parse_records now fresh_id (r, Some sid) (imap (fun i m => Ok (k + i, JObject m)) (map appended_fields l)) = Ok (r', Some sid) /\
    hr_head r' = Some (last_head prev l) /\ hr_receipts r' = hr_receipts r /\
    branch_reads (hr_nodes r') (last_head prev l) meta (ms ++ map (fun a : Appended => canon_message a.2) l)
      (SessionPromptSnapshot_to_json <$> last_snapshot snap l).
Proof.
  revert used prev ms snap k r. induction l as [|a l IH]; intros used prev ms snap k r C D H B.
  { exists r. cbn. by rewrite app_nil_r. }
  destruct C as (R & P & Hp & id & Ei & Hid & C).
  assert (Hn : hr_nodes r !! id = None) by (apply not_elem_of_dom; set_solver).
  cbn [map imap parse_records]. cbn [mbind result_bind].
  rewrite (append_is_read r sid _ a id R P Ei Hn). cbn [mbind result_bind].
  match goal with |- context [(?x, Some sid)] => set (r1 := x) end.
  edestruct (IH ({[id]} ∪ used) id (ms ++ [canon_message a.2]) (match a.1 with Some x => Some x | None => snap end) (S k) r1 C)
    as (r' & E & Hh & Hr & Br).
  - cbn. rewrite dom_insert_L. set_solver.
  - done.
  - pose proof (branch_of_message _ id (canon_message a.2) (SessionPromptSnapshot_to_json <$> a.1) _ _ _ _ B Hn Hp) as K.
    by destruct a.1.
  - exists r'. split_and!.
    + rewrite <- E. f_equal. apply imap_ext. intros i x _. cbn. do 2 f_equal. lia.
    + cbn [last_head]. by rewrite Ei.
    + done.
    + cbn [last_head last_snapshot map]. rewrite Ei. cbn [default]. by rewrite <- app_assoc in Br.
Qed.

(** ** The checkpoint *)

(** The persistence of a session whose log is new, or none. *)
Definition new_log (s : Session) (p : option Persistence) : Prop :=
  checkpoint_parent s p = None /\ needs_view s p = true /\ forall m, is_committed p m = false.

Lemma identified_placed s : Forall placed (ss_messages s) -> identified s = ss_messages s.
Proof.
  intros P. unfold identified. assert (forallb (fun m => bool_decide (is_Some (history m))) (ss_messages s) = true) as ->; [|done].
  apply forallb_forall. intros m H%list_elem_of_In. rewrite Forall_forall in P. destruct (P m H) as (i & E & _).
  by rewrite bool_decide_eq_true_2 by (by rewrite E).
Qed.

Lemma filter_all {A} (f : A -> bool) l : (forall a, f a = true) -> List.filter f l = l.
Proof. intros H. induction l as [|a l IH]; [done|]. cbn. by rewrite H, IH. Qed.

Lemma message_ids_rust ms : Forall rust_message ms -> Forall rust_string (ids_of ms).
Proof.
  induction 1 as [|m ms (Rh & _) _ IH]; [constructor|]. unfold ids_of. cbn [omap list_omap]. unfold message_id at 1.
  destruct (history m) as [i|]; [|done]. cbn. constructor; [|done]. by destruct Rh.
Qed.

(** The fields of the checkpoint of a session in a new log. *)
Definition checkpoint_fields (uuid : string) (s : Session) (replaces : bool) (meta : list (text * JsonValue)) : list (text * JsonValue) :=
  insert_opt "view" (Some (strings (ids_of (ss_messages s))))
    (insert "messages" (JArray (map message_to_json (ss_messages s)))
    (insert "meta" (JObject meta)
    (insert "parent_id" JNull
    (insert "id" (jstr uuid)
    (insert "type" (jstr "history_checkpoint")
    (insert "history_version" (JNumber HISTORY_VERSION)
    (insert "replaces_context" (JBool replaces) []))))))).

Lemma history_checkpoint_ok uuid s p :
  rust_session s -> Forall placed (ss_messages s) -> new_log s p -> rust_string uuid ->
  exists meta replaces, history_checkpoint uuid s p = Ok (JObject (checkpoint_fields uuid s replaces meta)) /\
    metadata_of s meta /\ well_formed (JObject (checkpoint_fields uuid s replaces meta)).
Proof.
  intros R P (Np & Nv & Nc) Ru. destruct (context_metadata_ok s R) as (meta & E & M & W).
  exists meta. eexists. unfold history_checkpoint. rewrite E, identified_placed, Np, Nv by done. cbn [mbind result_bind].
  rewrite filter_all by (intros m; by rewrite Nc). split; [done|]. split; [done|]. unfold checkpoint_fields.
  destruct R as (_ & _ & _ & _ & Rm & _). wf_fields.
  - cbn. by apply strings_wf, message_ids_rust.
  - constructor. by apply (coded_list _ _ _ _ _ message_coded).
  - by apply wf_entries_object.
  - constructor.
  - by apply wf_jstr.
  - by apply wf_jstr, literal_rust.
  - constructor. by unfold i64_range, HISTORY_VERSION.
  - constructor.
Qed.

Lemma view_back ms : Forall rust_message ms -> collect message_reference (map jstr (ids_of ms)) = Ok (ids_of ms).
Proof.
  intros R. rewrite (collect_map _ _ id), map_id; [done|]. eapply Forall_impl; [by apply message_ids_rust|].
  intros s Rs. unfold message_reference. by rewrite as_string_jstr.
Qed.

Lemma checkpoint_is_read uuid s replaces meta :
  rust_session s -> Forall placed (ss_messages s) -> NoDup (ids_of (ss_messages s)) -> uuid ∉ ids_of (ss_messages s) ->
  uuid <> "" -> rust_string uuid -> distinct_attempts (ss_maintenance_usage s) -> metadata_of s meta ->
  exists r, parse_record now fresh_id (empty_replay, None) (1, JObject (checkpoint_fields uuid s replaces meta)) =
              Ok (r, Some (ss_session_id s)) /\
    hr_head r = Some uuid /\ hr_receipts r = map canon_receipt (ss_maintenance_usage s) /\
    dom (hr_nodes r) ⊆ {[uuid]} ∪ list_to_set (ids_of (ss_messages s)) /\
    branch_reads (hr_nodes r) uuid (JObject meta) (map canon_message (ss_messages s)) None.
Proof.
  intros R P N Hu Hne Ru D M. pose proof R as (_ & Ri & _ & _ & Rm & _ & Rr & _).
  unfold parse_record. cbn [object_or as_object ok_or mbind result_bind]. set (m := checkpoint_fields uuid s replaces meta).
  assert (get "type" m ≫= as_string = Some "history_checkpoint") as ->.
  { apply (text_back m "type" "history_checkpoint"); [unfold m, checkpoint_fields; by gets|by apply literal_rust]. }
  rewrite bool_decide_eq_true_2 by done. unfold replay_checkpoint.
  assert (get "history_version" m = Some (JNumber HISTORY_VERSION)) as -> by by unfold m, checkpoint_fields; gets.
  cbn [mbind option_bind as_i64]. rewrite bool_decide_eq_true_2 by done. cbn [negb].
  assert (get "meta" m = Some (JObject meta)) as -> by by unfold m, checkpoint_fields; gets.
  cbn [ok_or mbind result_bind option_bind as_object]. rewrite (text_back _ _ _ (mo_id _ _ M) Ri). cbn [ok_or mbind result_bind].
  assert (get "messages" m = Some (JArray (map message_to_json (ss_messages s)))) as -> by by unfold m, checkpoint_fields; gets.
  cbn [mbind option_bind as_array ok_or result_bind]. rewrite (proj2 (coded_list _ _ _ _ _ message_coded Rm)).
  cbn [mbind result_bind]. rewrite (text_back m "id" uuid) by (first [done | unfold m, checkpoint_fields; by gets]).
  cbn [ok_or mbind result_bind].
  assert (get "parent_id" m = Some JNull) as -> by by unfold m, checkpoint_fields; gets. cbn [mbind result_bind].
  assert (optional view_of "view" m = Ok (Some (ids_of (ss_messages s)))) as ->.
  { unfold optional. assert (get "view" m = Some (strings (ids_of (ss_messages s)))) as -> by by unfold m, checkpoint_fields; gets.
    unfold view_of, strings. cbn [as_array ok_or mbind result_bind]. by rewrite view_back. }
  cbn [mbind result_bind]. unfold checkpoint. cbn [as_object ok_or mbind result_bind].
  rewrite (maintenance_back _ _ (mo_maintenance _ _ M) Rr). cbn [to_string_err mbind result_bind].
  rewrite merge_fresh by (cbn [app empty_replay hr_receipts]; unfold distinct_attempts; by rewrite canon_receipts_keys).
  cbn [app empty_replay hr_nodes hr_head hr_genesis hr_receipts].
  edestruct (checkpoint_messages_ok (map canon_message (ss_messages s))) as (r' & E & G & Hr & Hm & Ho); cycle 3.
  { rewrite E. cbn [mbind result_bind]. destruct (String.eqb_spec uuid ""); [done|].
    rewrite canon_ids in Ho. rewrite bool_decide_eq_false_2 by (rewrite Ho by done; cbn; by intros [? ?]).
    rewrite bool_decide_eq_false_2 by done. cbn [orb].
    assert (V : view_ok (hr_nodes r') ∅ (ids_of (ss_messages s)) = true).
    { rewrite <- (canon_ids (ss_messages s)). apply view_is_ok; [done|by rewrite canon_ids|set_solver]. }
    rewrite V. cbn [negb]. rewrite (bool_decide_eq_true_2 (None = None)), orb_true_r by done. cbn [orb format_err mbind result_bind].
    eexists. split; [done|]. cbn [hr_head hr_receipts hr_nodes]. split_and!; [done|done| |].
    - rewrite dom_insert_L. intros x Hx. apply elem_of_union in Hx as [?|Hx]; [set_solver|].
      destruct (decide (x ∈ ids_of (ss_messages s))); [set_solver|]. apply elem_of_dom in Hx. rewrite Ho in Hx by done.
      by destruct Hx.
    - eapply branch_of_checkpoint; [by rewrite lookup_insert_eq|]. rewrite <- (canon_ids (ss_messages s)). apply view_is_read.
      eapply holds_weaken; [|exact Hm]. apply insert_subseteq. by rewrite Ho. }
  - apply Forall_map. eapply Forall_impl; [exact P|]. intros x. apply canon_placed.
  - by rewrite canon_ids.
  - apply Forall_forall. intros x _. done.
Qed.

(** ** The session *)

Lemma conversation_rust s l :
  rust_session s -> Forall rust_appended l ->
  rust_session (with_conversation (ss_messages s ++ map snd l) (last_snapshot (ss_prompt_snapshot s) l) s).
Proof.
  intros (Rv & Ri & Hc & Hu & Rm & Rk & Rr & Ra & Rp & Rf & Rw & Rh & Re & Rd & Rs) F.
  assert (Rl : Forall rust_message (map snd l)) by (apply Forall_map; eapply Forall_impl; [exact F|]; by intros a []).
  assert (Sn : forall snap, from_option rust_snapshot True snap -> from_option rust_snapshot True (last_snapshot snap l)).
  { clear -F. induction F as [|a l [Rs _] _ IH]; intros snap Hs; [done|]. cbn. apply IH. by destruct a.1. }
  split_and!; try done; cbn; [by apply Forall_app|by apply Sn].
Qed.

Lemma chained_rust used prev l : chained used prev l -> Forall rust_appended l.
Proof.
  revert used prev. induction l as [|a l IH]; intros used prev; [constructor|].
  intros (R & _ & _ & id & _ & _ & C). constructor; [done|by eapply IH].
Qed.

Lemma canon_messages_same ms : Forall rust_message ms -> map message_to_json (map canon_message ms) = map message_to_json ms.
Proof. intros R. rewrite map_map. apply map_ext_Forall. eapply Forall_impl; [exact R|]. apply message_same. Qed.

Lemma last_snapshot_spec snap l : last_snapshot snap l = match last_snapshot None l with Some x => Some x | None => snap end.
Proof.
  revert snap. induction l as [|a l IH]; intros snap; [done|]. cbn. destruct a.1 as [x|]; [|apply IH].
  rewrite (IH (Some x)). by destruct (last_snapshot None l).
Qed.

(** What a reader of the branch makes of it. *)
Lemma branch_is_projected r s l head meta :
  rust_session s -> Forall rust_appended l -> metadata_of s meta -> distinct_attempts (ss_maintenance_usage s) ->
  hr_receipts r = map canon_receipt (ss_maintenance_usage s) ->
  branch_reads (hr_nodes r) head (JObject meta) (map canon_message (ss_messages s) ++ map (fun a : Appended => canon_message a.2) l)
    (SessionPromptSnapshot_to_json <$> last_snapshot None l) ->
  project now fresh_id r (Some head) =
  Ok (with_receipts (map canon_receipt (ss_maintenance_usage s)) (Some head)
        (canon_session (with_conversation (ss_messages s ++ map snd l) (last_snapshot (ss_prompt_snapshot s) l) s))).
Proof.
  intros R Rl M D Hr B. unfold project, walk_from. rewrite B by (done || set_solver).
  cbn [mbind result_bind br_metadata br_snapshot br_chain]. rewrite app_nil_r.
  set (s' := with_conversation _ _ s). pose proof (conversation_rust s l R Rl) as R'. fold s' in R'.
  assert (Em : map (fun a : Appended => canon_message a.2) l = map canon_message (map snd l)) by by rewrite map_map.
  rewrite Em, <- map_app, canon_messages_same by by destruct R' as (_ & _ & _ & _ & Rm & _).
  rewrite (session_back s'); [|done| |by gets].
  - cbn [to_string_err mbind result_bind canon_session ss_maintenance_usage s' with_conversation]. rewrite Hr.
    pose proof (merge_known [] (map canon_receipt (ss_maintenance_usage s))) as K. cbn [app] in K.
    rewrite K by (unfold distinct_attempts; by rewrite canon_receipts_keys). done.
  - destruct M. split; rewrite get_insert, get_insert_opt; cbn [String.eqb Ascii.eqb Bool.eqb]; try done.
    rewrite mo_snapshot. cbn [ss_prompt_snapshot s' with_conversation]. rewrite (last_snapshot_spec (ss_prompt_snapshot s)).
    by destruct (last_snapshot None l).
Qed.

(** A session is restored from its log: the checkpoint that starts a new log, and the messages
    appended after it, are read back as the session with these messages, the newest prompt, its
    bills and its head, in the store's form. *)
Theorem log_restores_session uuid s p l :
  rust_session s -> Forall placed (ss_messages s) -> NoDup (ids_of (ss_messages s)) ->
  distinct_attempts (ss_maintenance_usage s) -> new_log s p ->
  rust_string uuid -> uuid <> "" -> uuid ∉ ids_of (ss_messages s) ->
  chained ({[uuid]} ∪ list_to_set (ids_of (ss_messages s))) uuid l ->
  exists v, history_checkpoint uuid s p = Ok v /\
    from_jsonl now fresh_id (line_of v ++ concat (map (fun a => line_of (JObject (appended_fields a))) l)) =
    Ok (with_receipts (map canon_receipt (ss_maintenance_usage s)) (Some (last_head uuid l))
          (canon_session (with_conversation (ss_messages s ++ map snd l) (last_snapshot (ss_prompt_snapshot s) l) s))).
Proof.
  intros R P N D Np Ru Hne Hu C. destruct (history_checkpoint_ok uuid s p R P Np Ru) as (meta & replaces & -> & M & W).
  eexists. split; [done|]. set (m := checkpoint_fields uuid s replaces meta) in *. pose proof (chained_rust _ _ _ C) as Rl.
  assert (F : Forall (fun m => well_formed (JObject m)) (m :: map appended_fields l)).
  { constructor; [done|]. apply Forall_map. eapply Forall_impl; [exact Rl|]. apply appended_wf. }
  replace (line_of (JObject m) ++ _) with (concat (map object_line (m :: map appended_fields l)))
    by (cbn [map concat]; by rewrite map_map).
  rewrite from_jsonl_checkpoint by (first [done | unfold m, checkpoint_fields; by gets]).
  unfold replay, parse_log. rewrite records_lines by done. cbn [imap parse_records mbind result_bind].
  destruct (checkpoint_is_read uuid s replaces meta R P N Hu Hne Ru D M) as (r & E0 & Hh & Hr & Hd & B).
  fold m in E0. rewrite E0. cbn [mbind result_bind].
  destruct (appends_are_read l _ uuid _ None 2 r (ss_session_id s) (JObject meta) C Hd Hh B) as (r' & E & Hh' & Hr' & B').
  change (imap _ (map appended_fields l)) with (imap (fun i m => Ok (E := CodecError) (2 + i, JObject m)) (map appended_fields l)).
  rewrite E. cbn [fmap result_fmap fst mbind result_bind]. rewrite Hh'.
  by rewrite (branch_is_projected r' s l _ meta) by first [done | congruence].
Qed.
End Reload.

(** ** The live session *)

Section Live.
Context `{SN : SerdeNumber} `{SL : !SerdeNumberLaws} `{SD : !SerdeDerived} `{DL : !SerdeDerivedLaws}.
Context `{SF : StdFormat} `{SH : Sha256} {NE : EqDecision Number}.
Context (now : N) (fresh_id : string).

(** The messages in memory, the head the writer knows, and the file. *)
Record Live := { lv_messages : list ConversationMessage; lv_head : string; lv_log : text }.

(** A store that takes the append: the writer's head and the fresh id it is given. *)
Definition taking_store (head uuid : string) : Storage :=
  {| st_activate := None; st_context := None; st_uuid := uuid; st_head := Some (Ok (Some head)); st_update := None; st_append := None |}.

(** [Session::push_message] with [append_persisted_message], when both succeed. *)
Definition live_push (s : Session) (uuid : string) (m : ConversationMessage) (l : Live) : option Live :=
  match push_message (legacy_id (ss_session_id s)) (taking_store (lv_head l) uuid) m (lv_messages l) with
  | (messages, None) =>
      m ← list.last messages;
      Some {| lv_messages := messages; lv_head := uuid; lv_log := lv_log l ++ line_of (append_record s m) |}
  | (_, Some _) => None
  end.

Fixpoint live_pushes (s : Session) (pushes : list (string * ConversationMessage)) (l : Live) : option Live :=
  match pushes with
  | [] => Some l
  | (uuid, m) :: pushes => l ← live_push s uuid m l; live_pushes s pushes l
  end.

(** ** One append *)

Lemma find_origin_rust m ancestors call_id origin :
  Forall rust_message ancestors -> find_origin m ancestors call_id = Some origin -> rust_string origin.
Proof.
  unfold find_origin. intros R E. destruct (List.find _ _) as [a|] eqn:F; [|done]. cbn in E.
  apply List.find_some in F as [F _]. apply List.in_rev, list_elem_of_In in F. rewrite Forall_forall in R.
  destruct (R a F) as (Rh & _). destruct (history a) as [i|]; [|done]. injection E as <-. by destruct Rh.
Qed.

Lemma append_origins_rust m ancestors bs i i' :
  Forall rust_block bs -> Forall rust_message ancestors -> rust_map (identity_tool_origins i) ->
  append_origins m ancestors bs i = Ok i' ->
  identity_id i' = identity_id i /\ rust_map (identity_tool_origins i').
Proof.
  intros Rb Ra. revert i. induction Rb as [|b bs Rb _ IH]; intros i Ri; cbn [append_origins]; [by intros [= <-]|].
  destruct b as [| | | | |call_id name output err]; try by apply IH.
  destruct (find_origin m ancestors call_id) as [origin|] eqn:F; [|done]. intros E.
  apply IH in E; [done|]. cbn. intros k v [[<- <-]|[_ H]]%lookup_insert_Some; [|by apply (Ri k v)].
  split; [by destruct Rb|by eapply find_origin_rust].
Qed.

(** A message to push: not in the log yet, under a new id. *)
Definition pushable (used : gset string) (uuid : string) (m : ConversationMessage) : Prop :=
  rust_string uuid /\ uuid <> "" /\ uuid ∉ used /\ rust_message m.

Lemma live_push_spec s uuid m l l' used :
  ss_prompt_snapshot_dirty s = false -> Forall rust_message (lv_messages l) -> Forall placed (lv_messages l) ->
  rust_string (lv_head l) -> lv_head l ∈ used -> pushable used uuid m -> live_push s uuid m l = Some l' ->
  exists m', lv_messages l' = lv_messages l ++ [m'] /\ lv_head l' = uuid /\
    lv_log l' = lv_log l ++ line_of (JObject (appended_fields (None, m'))) /\
    rust_message m' /\ placed m' /\ message_id m' = Some uuid /\ (history m' ≫= identity_parent_id) = Some (lv_head l).
Proof.
  intros Hd Rm P Rh Hh (Ru & Hne & Hu & R). unfold live_push, push_message. cbn [taking_store st_activate st_context st_uuid st_head st_append].
  assert (match list.last (lv_messages l) with
          | Some x => match history x with None => identify_legacy (legacy_id (ss_session_id s)) (lv_messages l) | Some _ => lv_messages l end
          | None => lv_messages l
          end = lv_messages l) as ->.
  { destruct (list.last (lv_messages l)) as [x|] eqn:E; [|done]. apply last_Some in E as [k E]. rewrite E in P.
    apply Forall_app in P as [_ P]. apply (proj1 (Forall_singleton _ _)) in P as (i & -> & _). done. }
  unfold identify_append. destruct (append_origins _ _ _ _) as [i|] eqn:E; [|done].
  apply append_origins_rust in E as [Ei Ro]; [| |done|by intros k v H; cbn in H; rewrite lookup_empty in H]; [|by destruct R as (_ & ? & _)].
  rewrite last_snoc. cbn [mbind option_bind]. intros [= <-]. cbn in Ei.
  set (m' := set_parent _ _). exists m'. cbn [lv_messages lv_head lv_log]. split; [done|]. split; [done|].
  assert (Hm : history m' = Some {| identity_id := uuid; identity_parent_id := Some (lv_head l); identity_tool_origins := identity_tool_origins i |})
    by (unfold m'; cbn; by rewrite Ei).
  split_and!.
  - by rewrite append_record_fields, Hd.
  - destruct R as (_ & Rb & Rus & Rmo & Rdu). split_and!; [rewrite Hm; split_and!; done|done..].
  - eexists. split; [exact Hm|]. cbn. split; [done|]. intros [= K]. by rewrite <- K in Hu.
  - unfold message_id. by rewrite Hm.
  - by rewrite Hm.
Qed.

(** ** A run of appends *)

Fixpoint all_pushable (used : gset string) (pushes : list (string * ConversationMessage)) : Prop :=
  match pushes with
  | [] => True
  | (uuid, m) :: pushes => pushable used uuid m /\ all_pushable ({[uuid]} ∪ used) pushes
  end.

Lemma live_pushes_spec s pushes l l' used :
  ss_prompt_snapshot_dirty s = false -> Forall rust_message (lv_messages l) -> Forall placed (lv_messages l) ->
  rust_string (lv_head l) -> lv_head l ∈ used -> all_pushable used pushes -> live_pushes s pushes l = Some l' ->
  exists a, chained used (lv_head l) a /\ lv_messages l' = lv_messages l ++ map snd a /\ lv_head l' = last_head (lv_head l) a /\
    lv_log l' = lv_log l ++ concat (map (fun x => line_of (JObject (appended_fields x))) a) /\
    forall snap, last_snapshot snap a = snap.
Proof.
  intros Hd. revert l used. induction pushes as [|[uuid m] pushes IH]; intros l used Rm P Rh Hh; cbn [all_pushable live_pushes].
  { intros _ [= <-]. exists []. cbn. by rewrite !app_nil_r. }
  intros [Hp Hall]. destruct (live_push s uuid m l) as [l1|] eqn:E; [|done]. cbn [mbind option_bind]. intros Er.
  pose proof Hp as (Ru & _ & Hu & _).
  destruct (live_push_spec s uuid m l l1 used Hd Rm P Rh Hh Hp E) as (m' & Em & Eh & El & Rm' & Pm' & Eid & Epar).
  destruct (IH l1 ({[uuid]} ∪ used)) as (a & C & Ea & Ela & Elog & Hs); try done.
  - rewrite Em. apply Forall_app. by split; [|apply Forall_singleton].
  - rewrite Em. apply Forall_app. by split; [|apply Forall_singleton].
  - by rewrite Eh.
  - rewrite Eh. set_solver.
  - exists ((None, m') :: a). rewrite Eh in C, Ela. cbn [chained last_head last_snapshot map concat fst snd]. rewrite Eid. split_and!.
    + by split.
    + done.
    + done.
    + by exists uuid.
    + by rewrite Ea, Em, <- app_assoc.
    + done.
    + by rewrite Elog, El, <- app_assoc.
    + done.
Qed.

(** C6. What is live is what a restart reads: a session writes a new log and appends messages to it;
    its file is then read as the session with the messages in memory, in the form the file stores
    ([canon_session]: a tool's input is rendered again, a cost that is too large is dropped, a
    duration capped), and the head its writer knows.  The session's values are ones Rust can hold,
    its messages have distinct ids, its prompt snapshot is not dirty, and each message is pushed
    under an id that is new to the log. *)
Theorem live_session_is_restored uuid s p v pushes l :
  rust_session s -> Forall placed (ss_messages s) -> NoDup (ids_of (ss_messages s)) ->
  distinct_attempts (ss_maintenance_usage s) -> new_log s p -> ss_prompt_snapshot_dirty s = false ->
  rust_string uuid -> uuid <> "" -> uuid ∉ ids_of (ss_messages s) ->
  all_pushable ({[uuid]} ∪ list_to_set (ids_of (ss_messages s))) pushes ->
  history_checkpoint uuid s p = Ok v ->
  live_pushes s pushes {| lv_messages := ss_messages s; lv_head := uuid; lv_log := line_of v |} = Some l ->
  from_jsonl now fresh_id (lv_log l) =
  Ok (with_receipts (map canon_receipt (ss_maintenance_usage s)) (Some (lv_head l))
        (canon_session (with_conversation (lv_messages l) (ss_prompt_snapshot s) s))).
Proof.
  intros R P N D Np Hd Ru Hne Hu Hp Hc Hl.
  assert (Rm : Forall rust_message (ss_messages s)) by by destruct R as (_ & _ & _ & _ & Rm & _).
  assert (Hin : uuid ∈ ({[uuid]} ∪ list_to_set (ids_of (ss_messages s)) : gset string)) by set_solver.
  destruct (live_pushes_spec s pushes {| lv_messages := ss_messages s; lv_head := uuid; lv_log := line_of v |} l _ Hd Rm P Ru Hin Hp Hl) as (a & C & Em & Eh & El & Hs).
  destruct (log_restores_session now fresh_id uuid s p a R P N D Np Ru Hne Hu C) as (w & Ew & Hw).
  rewrite Hc in Ew. injection Ew as <-. rewrite El. cbn [lv_log]. rewrite Hw, Em, Eh. by rewrite Hs.
Qed.
End Live.
