(* ===== verification/SessionDemo.v ===== *)
(** * A session in its file, by evaluation

    A concrete number library and serde, and a session with every part of its record, on which the
    theorems about session files are applied. *)
From S2P Require Import Prelude.
From stdpp Require Import list gmap strings sorting.
From S2P Require Import RustStr JsonText Utf8 Conversation CompactionScope UsageAccounting SessionCodec SessionRoundtrip SessionRecord SessionRecordSafety SessionLog SessionLogSafety Transcript SessionBranches SessionLive.

Definition demo_report : CompactionReport :=
  {| cr_run_id := "run-1"; cr_before_history := 9000; cr_after_history := 900; cr_target_history := Some 1000%N;
     cr_ideal_history := None; cr_source_safe_history_budget := 8000; cr_safe_history_budget := 8000;
     cr_actual_fixed_overhead := 10; cr_method := Some "summary"; cr_outcome := TargetMet; cr_reason := None; cr_attempts := 1;
     cr_completed_responses := 1; cr_estimate_source := "estimate" |}.

#[local] Instance DemoSerde : @SerdeDerived IntNumber := {
  read_value t := match parse t with Ret (Ok v) => Some v | _ => None end;
  identity_error _ := "invalid";
  report_to_string _ := Ok (txt "{}");
  report_from_str _ := Ok demo_report
}.

#[local] Instance DemoSerdeLaws : SerdeDerivedLaws.
Proof. split. intros v W. cbn. by rewrite parse_of_render. Qed.

#[local] Instance DemoFormat : StdFormat := { path_display p := p; debug_option o := default "None" o }.
#[local] Instance DemoSha : Sha256 := { sha256_hex s := pretty.pretty (N.of_nat (String.length s)) }.
#[local] Instance DemoNumberEq : EqDecision Number := Z.eq_dec.

(** A tool input that is an object, with white space the store does not keep. *)
Definition demo_input : string := utf8 (txt "{ " ++ [quote; 233%N; quote] ++ txt " : [1, 2] }").

Definition demo_usage : TokenUsage :=
  {| reported_total_tokens := Some 30%N; input_tokens := 10; output_tokens := 20; cache_creation_input_tokens := 0;
     cache_read_input_tokens := 5; cost_units := Some 18446744073709551615%N; cost_currency := Some SudoPoint |}.

Definition demo_identity (id : string) (parent : option string) (origins : gmap string string) : option MessageIdentity :=
  Some {| identity_id := id; identity_parent_id := parent; identity_tool_origins := origins |}.

Definition demo_user : ConversationMessage :=
  {| history := demo_identity "m1" None ∅; role := RUser; blocks := [Text "Hello"; Image "aGk" "image/png"]; usage := None;
     model := None; duration_ms := None |}.

Definition demo_assistant : ConversationMessage :=
  {| history := demo_identity "m2" (Some "m1") ∅; role := RAssistant;
     blocks := [Thinking "hm" (Some "sig"); RedactedThinking "x"; ToolUse "call" "read_file" demo_input (Some "thought")];
     usage := Some demo_usage; model := Some "model-1"; duration_ms := Some 18446744073709551615%N |}.

Definition demo_tool : ConversationMessage :=
  {| history := demo_identity "m3" (Some "c1") {["call" := "m2"]}; role := RTool;
     blocks := [ToolResult "call" "read_file" "text" false]; usage := None; model := None; duration_ms := None |}.

Definition demo_answer : ConversationMessage :=
  {| history := demo_identity "m4" (Some "m3") ∅; role := RAssistant; blocks := [Text "Done."]; usage := None; model := None;
     duration_ms := Some 7%N |}.

Definition demo_prompt : SystemPrompt :=
  {| static_sections := ["You are an agent."; "Be brief."]; dynamic_sections := ["Today."]; builtin_static_sections := 1;
     explicit_override := true |}.

Definition demo_snapshot (agent : string) : SessionPromptSnapshot :=
  {| sn_prompt := demo_prompt; sn_workspace_root := "/work"; sn_agent_name := agent; sn_memory_enabled := true |}.

Definition demo_session : Session :=
  {| ss_version := 1; ss_session_id := "session-1"; ss_created_at_ms := 1000; ss_updated_at_ms := 2000;
     ss_messages := [demo_user; demo_assistant];
     ss_compaction := Some {| sk_count := 1; sk_removed_message_count := 12; sk_summary := "Earlier work."; sk_usage := Some demo_usage;
                              sk_pre_compact_discovered_tools := ["grep"; "read_file"] |};
     ss_maintenance_usage := [{| rc_run_id := "run-1"; rc_attempt_id := 1; rc_usage := Some demo_usage |};
                              {| rc_run_id := "run-1"; rc_attempt_id := 2; rc_usage := None |}];
     ss_compaction_achievement := Some {| ca_fingerprint := "f"; ca_before_history := 9000; ca_target_history := 1000;
                                          ca_after_history := 900; ca_policy_version := "v1" |};
     ss_last_compaction_report := Some demo_report;
     ss_fork := Some {| sf_parent_session_id := "session-0"; sf_branch_name := Some "try" |};
     ss_workspace_root := Some "/work";
     ss_identity := Some {| hi_agent_name := "agent"; hi_owner_id := "owner"; hi_zone_id := "zone"; hi_repos := {["main" := "/repo"]} |};
     ss_prompt_history := [{| pe_timestamp_ms := 18446744073709551615; pe_text := "Hello" |}];
     ss_last_health_check_ms := Some 5%N; ss_model := Some "model-1"; ss_mode := NonInteractive;
     ss_prompt_snapshot := Some (demo_snapshot "agent"); ss_prompt_snapshot_dirty := false; ss_pending_tool_repairs := 0;
     ss_restored_history_head := None; ss_view_revision := 0 |}.

(** Well-formedness, by evaluation. *)
Ltac literal := by apply literal_rust; vm_compute.

Lemma demo_input_readable : readable_input demo_input.
Proof.
  assert (E : parse_ok demo_input = Some (JObject [([233%N], JArray [JNumber 1; JNumber 2])])) by reflexivity.
  intros m. rewrite E. intros [= <-]. apply wf_object; [|repeat constructor]. repeat constructor; by vm_compute.
Qed.

Lemma demo_usage_rust : rust_usage demo_usage.
Proof. split_and!; by vm_compute. Qed.

Lemma empty_map_rust : rust_map ∅.
Proof. intros k v H. by rewrite lookup_empty in H. Qed.

Lemma single_map_rust k v : rust_string k -> rust_string v -> rust_map {[k := v]}.
Proof. intros Hk Hv k' v' [<- <-]%lookup_singleton_Some. done. Qed.

Lemma demo_user_rust : rust_message demo_user.
Proof.
  split_and!; [split_and!; [literal|done|apply empty_map_rust]| |done|done|done].
  repeat constructor; literal.
Qed.

Lemma demo_assistant_rust : rust_message demo_assistant.
Proof.
  split_and!; [split_and!; [literal|literal|apply empty_map_rust]| |apply demo_usage_rust|literal|by vm_compute].
  apply Forall_cons; split; [split; literal|]. apply Forall_cons; split; [literal|]. apply Forall_singleton.
  split_and!; [literal|literal|literal|literal|apply demo_input_readable].
Qed.

Lemma demo_tool_rust : rust_message demo_tool.
Proof.
  split_and!; [split_and!; [literal|literal|apply single_map_rust; literal]| |done|done|done].
  apply Forall_singleton. split_and!; literal.
Qed.

Lemma demo_answer_rust : rust_message demo_answer.
Proof.
  split_and!; [split_and!; [literal|literal|apply empty_map_rust]| |done|done|by vm_compute].
  apply Forall_singleton. literal.
Qed.

Lemma demo_snapshot_rust agent : rust_string agent -> rust_snapshot (demo_snapshot agent).
Proof.
  intros R. split_and!; [|literal|done]. split_and!; [repeat constructor; literal|repeat constructor; literal|by vm_compute|by vm_compute].
Qed.

Lemma demo_session_rust : rust_session demo_session.
Proof.
  split_and!.
  - by vm_compute.
  - literal.
  - by vm_compute.
  - by vm_compute.
  - apply Forall_cons; split; [apply demo_user_rust|]. apply Forall_singleton, demo_assistant_rust.
  - split_and!; [by vm_compute|by vm_compute|by vm_compute|literal|apply demo_usage_rust|repeat constructor; literal|].
    repeat constructor; by vm_compute.
  - apply Forall_cons; split; [|apply Forall_singleton]; (split; [literal|split; [by vm_compute|first [done|apply demo_usage_rust]]]).
  - split_and!; [literal|literal|by vm_compute..].
  - exists (txt "{}"), (JObject []). split_and!; [done|reflexivity|repeat constructor|done].
  - split; literal.
  - literal.
  - split_and!; [literal|literal|literal|]. apply single_map_rust; literal.
  - apply Forall_singleton. split; [by vm_compute|literal].
  - literal.
  - apply demo_snapshot_rust. literal.
Qed.

Lemma session_survives_the_file_witness :
  rust_session demo_session /\
  exists v, to_json demo_session = Ok v /\ parse (render v) = Ret (Ok v) /\ from_json 0 "new" v = Ok (canon_session demo_session) /\
            to_json (canon_session demo_session) = Ok v.
Proof. split; [apply demo_session_rust|]. apply (session_survives_the_file demo_session 0 "new"). apply demo_session_rust. Defined.

(** ** The log *)

Definition demo_appended : list Appended := [(Some (demo_snapshot "other"), demo_tool); (None, demo_answer)].

Lemma demo_chained : chained ({["c1"]} ∪ list_to_set (ids_of (ss_messages demo_session))) "c1" demo_appended.
Proof.
  split_and!; [split; [apply demo_snapshot_rust; literal|apply demo_tool_rust]|by eexists|done|].
  exists "m3". split; [done|]. split; [by vm_compute|].
  split_and!; [split; [done|apply demo_answer_rust]|by eexists|done|]. exists "m4". split; [done|]. split; [by vm_compute|done].
Qed.

Lemma log_restores_session_witness :
  exists v, history_checkpoint "c1" demo_session None = Ok v /\
    from_jsonl 0 "new" (line_of v ++ concat (map (fun a => line_of (JObject (appended_fields a))) demo_appended)) =
    Ok (with_receipts (map canon_receipt (ss_maintenance_usage demo_session)) (Some "m4")
          (canon_session (with_conversation [demo_user; demo_assistant; demo_tool; demo_answer] (Some (demo_snapshot "other"))
                            demo_session))).
Proof.
  apply (log_restores_session 0 "new" "c1" demo_session None demo_appended); [apply demo_session_rust| | | | |literal|done| |].
  - repeat constructor; by eexists.
  - by apply (bool_decide_eq_true _); vm_compute.
  - by apply (bool_decide_eq_true _); vm_compute.
  - by split_and!.
  - by apply (bool_decide_eq_true _); vm_compute.
  - apply demo_chained.
Defined.

(** A log of one line, and half of a second one. *)
Definition demo_log : text := line_of (JObject (appended_fields (None, demo_answer))).
Definition demo_line : text := line_of (JObject (appended_fields (None, demo_tool))).

Lemma append_is_atomic_witness :
  let t := take 40 demo_line in
  from_jsonl 0 "new" (demo_log ++ t) = from_jsonl 0 "new" demo_log \/
  from_jsonl 0 "new" (demo_log ++ t) = from_jsonl 0 "new" (demo_log ++ demo_line).
Proof.
  apply (append_is_atomic 0 "new" demo_log (appended_fields (None, demo_tool)) (take 40 demo_line) (drop 40 demo_line)).
  - right. apply ends_line_of.
  - reflexivity.
  - apply appended_wf. split; [done|apply demo_tool_rust].
  - apply take_drop.
Defined.

Lemma walk_ends_witness :
  let nodes : gmap string HistoryNode := {["m1" := MessageNode demo_user None]} in
  let b := {| br_metadata := None; br_snapshot := None; br_chain := [] |} in
  size nodes < 9 /\ walk 9 nodes ∅ (Some "m1") b = walk (S (size nodes)) nodes ∅ (Some "m1") b.
Proof.
  assert (H : size ({["m1" := MessageNode demo_user None]} : gmap string HistoryNode) < 9) by (rewrite map_size_singleton; lia).
  split; [exact H|]. apply (walk_ends _ 9 (Some "m1") _ H).
Defined.

(** The demo session's checkpoint, read. *)
Lemma demo_checkpoint_read :
  exists r, hr_nodes r !! "m3" = None /\ exists s, project 0 "new" r (Some "c1") = Ok s.
Proof.
  destruct (history_checkpoint_ok "c1" demo_session None demo_session_rust) as (meta & replaces & _ & M & _);
    [repeat constructor; by eexists|by split_and!|literal|].
  assert (D : distinct_attempts (ss_maintenance_usage demo_session)) by (by apply (bool_decide_eq_true _); vm_compute).
  destruct (checkpoint_is_read 0 "new" "c1" demo_session replaces meta demo_session_rust) as (r & _ & _ & Hr & Hd & B);
    [repeat constructor; by eexists|by apply (bool_decide_eq_true _); vm_compute|by apply (bool_decide_eq_true _); vm_compute
    |done|literal|done|done|].
  exists r. split.
  - apply not_elem_of_dom. intros H%Hd. by apply (bool_decide_eq_true _) in H; vm_compute in H.
  - eexists. apply (branch_is_projected 0 "new" r demo_session [] "c1" meta); [apply demo_session_rust|constructor|done|done|done|].
    cbn [map]. by rewrite app_nil_r.
Qed.

Lemma appends_keep_branches_witness :
  exists st l st' s, parse_records 0 "new" st l = Ok st' /\ project 0 "new" st.1 (Some "c1") = Ok s /\
  exists s', project 0 "new" st'.1 (Some "c1") = Ok s' /\ same_conversation s s'.
Proof.
  destruct demo_checkpoint_read as (r & Hn & s & Hs).
  assert (P : exists st', parse_records 0 "new" (r, Some "session-1") [Ok (2, JObject (appended_fields (None, demo_tool)))] = Ok st').
  { eexists. cbn [parse_records mbind result_bind].
    rewrite (append_is_read 0 "new" r "session-1" 2 (None, demo_tool) "m3"); [done| |by eexists|done|done].
    split; [done|apply demo_tool_rust]. }
  destruct P as (st' & P). exists (r, Some "session-1"). do 3 eexists. split; [exact P|]. split; [exact Hs|].
  apply (appends_keep_branches 0 "new" (r, Some "session-1") [Ok (2, JObject (appended_fields (None, demo_tool)))] st' (Some "c1") s); [|exact P|exact Hs]. reflexivity.
Defined.

(** ** The demo session, live *)

Definition demo_pushes : list (string * ConversationMessage) := [("m3", set_history None demo_tool); ("m4", set_history None demo_answer)].

Lemma without_history_rust m : rust_message m -> rust_message (set_history None m).
Proof. intros (_ & R). by split. Qed.

Lemma demo_pushable : all_pushable ({["c1"]} ∪ list_to_set (ids_of (ss_messages demo_session))) demo_pushes.
Proof.
  split; [split_and!; [literal|done|by vm_compute|apply without_history_rust, demo_tool_rust]|].
  split; [|done]. split_and!; [literal|done|by vm_compute|apply without_history_rust, demo_answer_rust].
Qed.

Lemma live_session_is_restored_witness :
  exists v l, history_checkpoint "c1" demo_session None = Ok v /\
    live_pushes demo_session demo_pushes {| lv_messages := ss_messages demo_session; lv_head := "c1"; lv_log := line_of v |} = Some l /\
    length (lv_messages l) = 4 /\
    from_jsonl 0 "new" (lv_log l) =
    Ok (with_receipts (map canon_receipt (ss_maintenance_usage demo_session)) (Some (lv_head l))
          (canon_session (with_conversation (lv_messages l) (ss_prompt_snapshot demo_session) demo_session))).
Proof.
  assert (P : Forall placed (ss_messages demo_session)) by (repeat constructor; by eexists).
  assert (Np : new_log demo_session None) by by split_and!.
  destruct (history_checkpoint_ok "c1" demo_session None demo_session_rust P Np) as (meta & replaces & Hc & _); [literal|].
  eexists. eexists. split; [exact Hc|]. split; [reflexivity|]. split; [reflexivity|].
  eapply (live_session_is_restored 0 "new" "c1" demo_session None _ demo_pushes);
    [apply demo_session_rust|exact P| | |exact Np|done|literal|done| |apply demo_pushable|exact Hc|reflexivity];
    by apply (bool_decide_eq_true _); vm_compute.
Defined.
