(* ===== verification/ToolHistory.v ===== *)
(** * Repairing the tool calls of a history (runtime/src/session.rs, api/src/completion.rs)

    A turn may stop between a call and its result, and an imported history may hold results
    nobody asked for.  [ToolHistoryRepairs] plans the repair of both; a session gains the
    missing results for good, and what a provider is sent also has its unpaired results
    turned into text.  Then the messages become the provider's. *)
From S2P Require Import Prelude.
From stdpp Require Import list.
From S2P Require Import RustStr Json Conversation AssistantMessage Transcript.
From S2P Require Compaction.

(** ** The plan *)

(** A call without a result: its id, its tool and the assistant message it was made in. *)
Definition PendingCall : Type := string * string * option string.

Record ToolHistoryRepairs := {
  missing : list (nat * list ConversationMessage);
  unpaired : list (nat * nat)
}.
Definition repairs_default : ToolHistoryRepairs := {| missing := []; unpaired := [] |}.
Definition repairs_is_empty (r : ToolHistoryRepairs) : bool :=
  match missing r, unpaired r with [], [] => true | _, _ => false end.

Definition INTERRUPTED : string :=
  "[Tool execution was interrupted before a final result was received. Side effects may already have occurred. Inspect the current state before retrying.]".
Definition interrupted (call : PendingCall) : ConversationMessage :=
  tool_result call.1.1 call.1.2 INTERRUPTED true.

Definition finish_batch (r : ToolHistoryRepairs) (before : nat) (pending : list PendingCall) :
  ToolHistoryRepairs :=
  match pending with
  | [] => r
  | _ => {| missing := missing r ++ [(before, map interrupted pending)]; unpaired := unpaired r |}
  end.

Definition is_tool_result (b : ContentBlock) : bool :=
  match b with ToolResult _ _ _ _ => true | _ => false end.
Definition is_result_message (m : ConversationMessage) : bool :=
  match role m with RTool | RUser => existsb is_tool_result (blocks m) | _ => false end.

Definition block_call (m : ConversationMessage) (b : ContentBlock) : option PendingCall :=
  match b with ToolUse id name _ _ => Some (id, name, Compaction.tool_origin m id) | _ => None end.
Definition message_calls (m : ConversationMessage) : list PendingCall :=
  match role m with RAssistant => omap (block_call m) (blocks m) | _ => [] end.

Fixpoint position {A} (f : A -> bool) (l : list A) : option nat :=
  match l with
  | [] => None
  | x :: l => if f x then Some 0 else S <$> position f l
  end.

(** A result with an origin answers the call of that message only. *)
Definition answers (m : ConversationMessage) (tool_use_id : string) (call : PendingCall) : bool :=
  String.eqb call.1.1 tool_use_id
  && match Compaction.tool_origin m tool_use_id with
     | None => true
     | Some expected => bool_decide (call.2 = Some expected)
     end.

Definition paired_with (m : ConversationMessage) (pending : list PendingCall) (tool_use_id : string) :
  option nat :=
  match position (answers m tool_use_id) pending with
  | Some i => if is_result_message m then Some i else None
  | None => None
  end.

Fixpoint plan_blocks (index block_index : nat) (m : ConversationMessage) (bs : list ContentBlock)
    (s : list (nat * nat) * list PendingCall) : list (nat * nat) * list PendingCall :=
  match bs with
  | [] => s
  | b :: bs =>
      plan_blocks index (S block_index) m bs
        match b with
        | ToolResult tool_use_id _ _ _ =>
            match paired_with m s.2 tool_use_id with
            | Some i => (s.1, delete i s.2)
            | None => (s.1 ++ [(index, block_index)], s.2)
            end
        | _ => s
        end
  end.

Definition plan_message (index : nat) (m : ConversationMessage)
    (s : ToolHistoryRepairs * list PendingCall) : ToolHistoryRepairs * list PendingCall :=
  let '(r, pending) :=
    if is_result_message m then s else (finish_batch s.1 index s.2, []) in
  let pending := pending ++ message_calls m in
  let '(u, pending) := plan_blocks index 0 m (blocks m) (unpaired r, pending) in
  ({| missing := missing r; unpaired := u |}, pending).

Fixpoint plan_messages (index : nat) (l : list ConversationMessage)
    (s : ToolHistoryRepairs * list PendingCall) : ToolHistoryRepairs * list PendingCall :=
  match l with
  | [] => s
  | m :: l => plan_messages (S index) l (plan_message index m s)
  end.

Definition plan (messages : list ConversationMessage) : ToolHistoryRepairs :=
  let '(r, pending) := plan_messages 0 messages (repairs_default, []) in
  finish_batch r (length messages) pending.

(** ** Applying it *)

Definition show_bool (b : bool) : string := if b then "true" else "false".
Definition unpaired_text (tool_use_id tool_name output : string) (is_error : bool) : string :=
  "[Unpaired historical tool result: " ++ tool_name ++ ", id=" ++ tool_use_id ++ ", is_error="
    ++ show_bool is_error ++ "]" ++ String "010" output.

Definition set_blocks (bs : list ContentBlock) (m : ConversationMessage) : ConversationMessage :=
  {| history := history m; role := role m; blocks := bs; usage := usage m; model := model m;
     duration_ms := duration_ms m |}.

(** [messages[message].blocks[block] = ...]; an index out of range or another block panics. *)
Definition rewrite_unpaired (messages : list ConversationMessage) (at_ : nat * nat) :
  run (list ConversationMessage) :=
  match messages !! at_.1 with
  | Some m =>
      match blocks m !! at_.2 with
      | Some (ToolResult tool_use_id tool_name output is_error) =>
          Ret (<[at_.1 := set_blocks (<[at_.2 := Text (unpaired_text tool_use_id tool_name output is_error)]>
                                        (blocks m)) m]> messages)
      | _ => Panic
      end
  | None => Panic
  end.

Fixpoint rewrite_all (l : list (nat * nat)) (messages : list ConversationMessage) :
  run (list ConversationMessage) :=
  match l with
  | [] => Ret messages
  | at_ :: l => messages ← rewrite_unpaired messages at_; rewrite_all l messages
  end.

(** [messages.splice(before..before, batch)] *)
Definition splice (before : nat) (batch messages : list ConversationMessage) :
  run (list ConversationMessage) :=
  if length messages <? before then Panic else Ret (take before messages ++ batch ++ drop before messages).

Fixpoint splice_all (l : list (nat * list ConversationMessage)) (messages : list ConversationMessage) :
  run (list ConversationMessage) :=
  match l with
  | [] => Ret messages
  | (before, batch) :: l => messages ← splice before batch messages; splice_all l messages
  end.

Definition batch_count (l : list (nat * list ConversationMessage)) : nat :=
  sum_list (map (fun p => length p.2) l).

Definition apply_missing (r : ToolHistoryRepairs) (messages : list ConversationMessage) :
  run (list ConversationMessage * nat) :=
  messages ← splice_all (rev (missing r)) messages;
  Ret (messages, batch_count (missing r)).

Definition apply_repairs (r : ToolHistoryRepairs) (messages : list ConversationMessage) :
  run (list ConversationMessage * nat) :=
  messages ← rewrite_all (unpaired r) messages;
  '(messages, _) ← apply_missing {| missing := missing r; unpaired := [] |} messages;
  Ret (messages, length (unpaired r) + batch_count (missing r)).

Definition model_tool_history (messages : list ConversationMessage) : run (list ConversationMessage) :=
  let repairs := plan messages in
  if repairs_is_empty repairs then Ret messages
  else '(history, _) ← apply_repairs repairs messages; Ret history.

Definition sanitize_orphan_tool_uses (messages : list ConversationMessage) :
  run (list ConversationMessage * nat) :=
  apply_missing (plan messages) messages.

(** ** A session's repair *)

(** The part of [Session] the repair reads and writes. *)
Record RepairState := {
  rs_messages : list ConversationMessage;
  rs_pending_repairs : nat;
  rs_view_revision : N
}.

(** [ensure] and [rewrite]: the errors, if any, of saving the context and of rewriting it. *)
Definition repair_orphan_tool_uses (uuid : nat -> string) (ensure rewrite : option string) (s : RepairState) :
  run (RepairState * result string nat) :=
  let repairs := plan (rs_messages s) in
  let none_missing := match missing repairs with [] => true | _ => false end in
  if none_missing && (rs_pending_repairs s =? 0) then
    Ret (s, match ensure with Some e => Err e | None => Ok 0 end)
  else
    '(messages, added) ← apply_missing repairs (rs_messages s);
    let repaired := rs_pending_repairs s + added in
    let messages := if none_missing then messages else rebase uuid messages in
    let view := if none_missing then rs_view_revision s
                else N.modulo (rs_view_revision s + 1) (2 ^ 64) in
    match rewrite with
    | Some e =>
        Ret ({| rs_messages := if none_missing then messages else rs_messages s;
                rs_pending_repairs := rs_pending_repairs s; rs_view_revision := view |}, Err e)
    | None =>
        Ret ({| rs_messages := messages; rs_pending_repairs := 0; rs_view_revision := view |}, Ok repaired)
    end.

(** ** What the provider is sent (api/src/completion.rs) *)

Section Provider.
(** [serde_json] on a tool's input and on redacted thinking: [parsed] is [from_str],
    [raw] is [json!({ "raw": input })] and [text_value] is [Value::String]. *)
Context `{SerdeJson} (raw text_value : string -> Value).

Inductive InputContentBlock :=
| InText (text : string)
| InThinking (thinking : string) (signature : option string)
| InRedactedThinking (data : Value)
| InToolUse (id name : string) (input : Value) (thought_signature : option string)
| InToolResult (tool_use_id : string) (content : list string) (is_error : bool)
| InImage (source_type media_type data : string).

Record InputMessage := { in_role : string; in_content : list InputContentBlock }.

Definition convert_block (b : ContentBlock) : option InputContentBlock :=
  match b with
  | Text text => Some (InText text)
  | Thinking thinking signature =>
      match signature with
      | Some s => if is_empty s then None else Some (InThinking thinking (Some s))
      | None => None
      end
  | RedactedThinking data => Some (InRedactedThinking (default (text_value data) (from_str data)))
  | ToolUse id name input thought_signature =>
      Some (InToolUse id name (default (raw input) (from_str input)) thought_signature)
  | ToolResult tool_use_id _ output is_error => Some (InToolResult tool_use_id [output] is_error)
  | Image data mime_type => Some (InImage "base64" mime_type data)
  end.

Definition provider_role (r : MessageRole) : string :=
  match r with RAssistant => "assistant" | _ => "user" end.

Definition in_is_result (b : InputContentBlock) : bool :=
  match b with InToolResult _ _ _ => true | _ => false end.

(** Consecutive results belong to one message of the provider. *)
Definition merges (m : ConversationMessage) (last : option InputMessage) : option InputMessage :=
  match role m, last with
  | RTool, Some last => if String.eqb (in_role last) "user" && existsb in_is_result (in_content last) then Some last else None
  | _, _ => None
  end.

Definition convert_message (result : list InputMessage) (m : ConversationMessage) : list InputMessage :=
  let content := omap convert_block (blocks m) in
  match content with
  | [] => result
  | _ =>
      match merges m (list.last result) with
      | Some last =>
          take (length result - 1) result ++ [{| in_role := in_role last; in_content := in_content last ++ content |}]
      | None => result ++ [{| in_role := provider_role (role m); in_content := content |}]
      end
  end.

(** [sort_by_key] is stable and its key has two values: every result before the rest. *)
Definition results_first (m : InputMessage) : InputMessage :=
  {| in_role := in_role m;
     in_content := List.filter in_is_result (in_content m)
                   ++ List.filter (fun b => negb (in_is_result b)) (in_content m) |}.

Definition convert_messages (messages : list ConversationMessage) : run (list InputMessage) :=
  history ← model_tool_history messages;
  Ret (map results_first (fold_left convert_message history [])).
End Provider.
