(* ===== verification/ToolHistorySafety.v ===== *)
(** * What a repaired history promises

    The plan by indices is one pass over the messages; a history whose missing results were
    inserted needs no more of them; and what a provider is sent answers every call of an
    assistant message in the next message, results first, and holds no other result. *)
From S2P Require Import Prelude.
From stdpp Require Import list.
From S2P Require Import RustStr Json JsonModel Conversation AssistantMessage ToolHistory.
From S2P Require Compaction.

(** ** The reference: one pass *)

(** The calls still pending after the blocks of [m], and the blocks with unpaired results
    turned into text. *)
Fixpoint scan_blocks (m : ConversationMessage) (bs : list ContentBlock) (p : list PendingCall) :
  list PendingCall * list ContentBlock :=
  match bs with
  | [] => (p, [])
  | ToolResult id name output is_error :: bs =>
      match paired_with m p id with
      | Some i => let '(q, bs) := scan_blocks m bs (delete i p) in
                  (q, ToolResult id name output is_error :: bs)
      | None => let '(q, bs) := scan_blocks m bs p in (q, Text (unpaired_text id name output is_error) :: bs)
      end
  | b :: bs => let '(q, bs) := scan_blocks m bs p in (q, b :: bs)
  end.

(** The calls the results of [m] may answer: its own, and the batch's if [m] continues it. *)
Definition in_batch (m : ConversationMessage) (p : list PendingCall) : list PendingCall :=
  (if is_result_message m then p else []) ++ message_calls m.
Definition left_pending (m : ConversationMessage) (p : list PendingCall) : list PendingCall :=
  (scan_blocks m (blocks m) (in_batch m p)).1.
Definition rewritten (m : ConversationMessage) (p : list PendingCall) : ConversationMessage :=
  set_blocks (scan_blocks m (blocks m) (in_batch m p)).2 m.

(** A batch ends at a message that holds no result, and its open calls are answered there;
    with [rewrite] the unpaired results become text. *)
Fixpoint repaired (rewrite : bool) (p : list PendingCall) (l : list ConversationMessage) :
  list ConversationMessage :=
  match l with
  | [] => map interrupted p
  | m :: l =>
      (if is_result_message m then [] else map interrupted p)
      ++ (if rewrite then rewritten m p else m) :: repaired rewrite (left_pending m p) l
  end.

(** ** The plan, without accumulators *)

Definition batch (i : nat) (p : list PendingCall) : list (nat * list ConversationMessage) :=
  match p with [] => [] | _ => [(i, map interrupted p)] end.

Fixpoint gaps (i : nat) (p : list PendingCall) (l : list ConversationMessage) :
  list (nat * list ConversationMessage) :=
  match l with
  | [] => batch i p
  | m :: l => (if is_result_message m then [] else batch i p) ++ gaps (S i) (left_pending m p) l
  end.

Fixpoint block_strays (m : ConversationMessage) (j : nat) (bs : list ContentBlock) (p : list PendingCall) :
  list nat :=
  match bs with
  | [] => []
  | ToolResult id _ _ _ :: bs =>
      match paired_with m p id with
      | Some i => block_strays m (S j) bs (delete i p)
      | None => j :: block_strays m (S j) bs p
      end
  | _ :: bs => block_strays m (S j) bs p
  end.

Fixpoint strays (i : nat) (p : list PendingCall) (l : list ConversationMessage) : list (nat * nat) :=
  match l with
  | [] => []
  | m :: l => map (pair i) (block_strays m 0 (blocks m) (in_batch m p)) ++ strays (S i) (left_pending m p) l
  end.

Lemma plan_blocks_spec i m bs : forall j u p,
  plan_blocks i j m bs (u, p) = (u ++ map (pair i) (block_strays m j bs p), (scan_blocks m bs p).1).
Proof.
  induction bs as [|b bs IH]; intros j u p; cbn [plan_blocks block_strays scan_blocks map]; [by rewrite app_nil_r|].
  destruct b as [| | | | |id name output e]; cbn [fst snd];
    try (rewrite IH; by destruct (scan_blocks m bs p)).
  destruct (paired_with m p id) as [k|]; rewrite IH.
  - by destruct (scan_blocks m bs (delete k p)).
  - cbn [map]. rewrite <- app_assoc. by destruct (scan_blocks m bs p).
Qed.

Lemma finish_batch_spec r i p :
  finish_batch r i p = {| missing := missing r ++ batch i p; unpaired := unpaired r |}.
Proof. destruct p, r; cbn; by rewrite ?app_nil_r. Qed.

Lemma plan_message_spec i m r p :
  plan_message i m (r, p) =
    ({| missing := missing r ++ (if is_result_message m then [] else batch i p);
        unpaired := unpaired r ++ map (pair i) (block_strays m 0 (blocks m) (in_batch m p)) |},
     left_pending m p).
Proof.
  unfold plan_message, in_batch, left_pending, in_batch. destruct (is_result_message m); cbn [fst snd].
  - rewrite plan_blocks_spec. by rewrite app_nil_r.
  - rewrite finish_batch_spec. cbn [missing unpaired]. by rewrite plan_blocks_spec.
Qed.

Lemma plan_messages_spec l : forall i r p,
  (let '(r, p) := plan_messages i l (r, p) in finish_batch r (i + length l) p) =
    {| missing := missing r ++ gaps i p l; unpaired := unpaired r ++ strays i p l |}.
Proof.
  induction l as [|m l IH]; intros i r p; cbn [plan_messages gaps strays length].
  - by rewrite Nat.add_0_r, finish_batch_spec, app_nil_r.
  - rewrite plan_message_spec, Nat.add_succ_r. rewrite (IH (S i)). cbn [missing unpaired]. by rewrite <- !app_assoc.
Qed.

Lemma plan_spec l : plan l = {| missing := gaps 0 [] l; unpaired := strays 0 [] l |}.
Proof. exact (plan_messages_spec l 0 repairs_default []). Qed.

(** ** Applying the plan *)

Lemma rewrite_all_app a : forall b l, rewrite_all (a ++ b) l = (l ← rewrite_all a l; rewrite_all b l).
Proof. induction a as [|x a IH]; intros b l; cbn; [done|]. destruct (rewrite_unpaired l x); cbn; [apply IH|done|done]. Qed.

Lemma splice_all_app a : forall b l, splice_all (a ++ b) l = (l ← splice_all a l; splice_all b l).
Proof.
  induction a as [|[i x] a IH]; intros b l; cbn; [done|]. destruct (splice i x l); cbn; [apply IH|done|done].
Qed.

Lemma rewrite_message pre post m bs : forall bpre p,
  rewrite_all (map (pair (length pre)) (block_strays m (length bpre) bs p)) (pre ++ set_blocks (bpre ++ bs) m :: post)
  = Ret (pre ++ set_blocks (bpre ++ (scan_blocks m bs p).2) m :: post).
Proof.
  induction bs as [|b bs IH]; intros bpre p; cbn [block_strays scan_blocks map rewrite_all]; [done|].
  assert (forall b' q, rewrite_all (map (pair (length pre)) (block_strays m (S (length bpre)) bs q))
      (pre ++ set_blocks (bpre ++ b' :: bs) m :: post)
    = Ret (pre ++ set_blocks (bpre ++ b' :: (scan_blocks m bs q).2) m :: post)) as Hstep.
  { intros b' q. specialize (IH (bpre ++ [b']) q). rewrite length_app, Nat.add_1_r, <- !app_assoc in IH. exact IH. }
  destruct b as [| | | | |id name output e]; try (rewrite Hstep; by destruct (scan_blocks m bs p)).
  destruct (paired_with m p id) as [k|]; [rewrite Hstep; by destruct (scan_blocks m bs (delete k p))|].
  cbn [map rewrite_all]. unfold rewrite_unpaired. cbn [fst snd].
  rewrite list_lookup_middle by done. cbn [blocks set_blocks]. rewrite list_lookup_middle by done.
  rewrite !insert_app_r_alt, !Nat.sub_diag by done. cbn [mbind run_bind]. cbn.
  specialize (Hstep (Text (unpaired_text id name output e)) p). unfold set_blocks in *. cbn in *.
  rewrite Hstep. by destruct (scan_blocks m bs p).
Qed.

Fixpoint rewritten_all (p : list PendingCall) (l : list ConversationMessage) : list ConversationMessage :=
  match l with [] => [] | m :: l => rewritten m p :: rewritten_all (left_pending m p) l end.

Lemma set_blocks_same m : set_blocks (blocks m) m = m.
Proof. by destruct m. Qed.

Lemma rewrite_messages l : forall pre p,
  rewrite_all (strays (length pre) p l) (pre ++ l) = Ret (pre ++ rewritten_all p l).
Proof.
  induction l as [|m l IH]; intros pre p; cbn [strays rewritten_all]; [done|].
  rewrite rewrite_all_app. pose proof (rewrite_message pre l m (blocks m) [] (in_batch m p)) as Hm.
  cbn [app length] in Hm. rewrite set_blocks_same in Hm. rewrite Hm. cbn [mbind run_bind].
  specialize (IH (pre ++ [rewritten m p]) (left_pending m p)).
  rewrite length_app, Nat.add_1_r, <- !app_assoc in IH. exact IH.
Qed.

(** The messages [l'] with the results the plan of [l] is missing. *)
Fixpoint weave (p : list PendingCall) (l l' : list ConversationMessage) : list ConversationMessage :=
  match l, l' with
  | m :: l, m' :: l' =>
      (if is_result_message m then [] else map interrupted p) ++ m' :: weave (left_pending m p) l l'
  | _, _ => map interrupted p
  end.

Lemma splice_batch pre p l : splice_all (rev (batch (length pre) p)) (pre ++ l) = Ret (pre ++ map interrupted p ++ l).
Proof.
  destruct p as [|c p]; [done|]. cbn [batch rev app splice_all]. unfold splice.
  assert (length (pre ++ l) <? length pre = false) as -> by (apply Nat.ltb_ge; rewrite length_app; lia).
  cbn [mbind run_bind]. by rewrite take_app_length, drop_app_length.
Qed.

Lemma splice_gaps l : forall pre l' p, length l' = length l ->
  splice_all (rev (gaps (length pre) p l)) (pre ++ l') = Ret (pre ++ weave p l l').
Proof.
  induction l as [|m l IH]; intros pre [|m' l'] p Hlen; try done; cbn [gaps weave].
  - rewrite (splice_batch pre p []). by rewrite app_nil_r.
  - rewrite rev_app_distr, splice_all_app. injection Hlen as Hlen.
    specialize (IH (pre ++ [m']) l' (left_pending m p) Hlen).
    rewrite length_app, Nat.add_1_r, <- !app_assoc in IH. cbn [app] in IH. rewrite IH. cbn [mbind run_bind].
    destruct (is_result_message m); [done|]. apply splice_batch.
Qed.

Lemma weave_rewritten l : forall p, weave p l (rewritten_all p l) = repaired true p l.
Proof. induction l as [|m l IH]; intros p; cbn; [done|]. by rewrite IH. Qed.

Lemma weave_same l : forall p, weave p l l = repaired false p l.
Proof. induction l as [|m l IH]; intros p; cbn; [done|]. by rewrite IH. Qed.

Lemma length_rewritten_all l : forall p, length (rewritten_all p l) = length l.
Proof. induction l as [|m l IH]; intros p; cbn; [done|]. by rewrite IH. Qed.

Lemma batch_count_app a b : batch_count (a ++ b) = batch_count a + batch_count b.
Proof. unfold batch_count. induction a as [|x a IH]; cbn; [done|]. rewrite IH. lia. Qed.

Lemma batch_count_batch i p : batch_count (batch i p) = length p.
Proof. destruct p as [|c p]; cbn; [done|]. rewrite length_map. lia. Qed.

Lemma length_repaired rw l : forall i p, length (repaired rw p l) = length l + batch_count (gaps i p l).
Proof.
  induction l as [|m l IH]; intros i p; cbn [repaired gaps length].
  - by rewrite batch_count_batch, length_map.
  - rewrite length_app, batch_count_app. cbn [length]. rewrite (IH (S i)).
    destruct (is_result_message m); cbn [length]; [cbn; lia|]. rewrite length_map, batch_count_batch. lia.
Qed.

Lemma nothing_missing_nothing_inserted l : forall i p, gaps i p l = [] -> strays i p l = [] -> repaired true p l = l.
Proof.
  induction l as [|m l IH]; intros i p; cbn [gaps strays repaired].
  - by destruct p.
  - intros [Hb Hg]%app_eq_nil [Hs Hr]%app_eq_nil. rewrite (IH _ _ Hg Hr).
    assert (rewritten m p = m) as ->.
    { pose proof (rewrite_message [] [] m (blocks m) [] (in_batch m p)) as Hm. cbn [app length] in Hm.
      cbn [length] in Hm. rewrite set_blocks_same in Hm. apply map_eq_nil in Hs. rewrite Hs in Hm. by injection Hm. }
    destruct (is_result_message m); [done|]. by destruct p.
Qed.

Lemma sanitize_spec l :
  sanitize_orphan_tool_uses l = Ret (repaired false [] l, length (repaired false [] l) - length l).
Proof.
  unfold sanitize_orphan_tool_uses, apply_missing. rewrite plan_spec. cbn [missing].
  pose proof (splice_gaps l [] l [] eq_refl) as Hs. cbn [app length] in Hs. rewrite Hs. cbn [mbind run_bind].
  rewrite weave_same, (length_repaired false l 0 []). do 2 f_equal. lia.
Qed.

Lemma model_tool_history_spec l : model_tool_history l = Ret (repaired true [] l).
Proof.
  unfold model_tool_history. rewrite plan_spec.
  destruct (repairs_is_empty _) eqn:E.
  - unfold repairs_is_empty in E. cbn in E. destruct (gaps 0 [] l) eqn:Eg; [|done].
    destruct (strays 0 [] l) eqn:Es; [|done]. by rewrite (nothing_missing_nothing_inserted l 0 []).
  - unfold apply_repairs, apply_missing. cbn [unpaired missing].
    pose proof (rewrite_messages l [] []) as Hr. cbn [app length] in Hr. rewrite Hr. cbn [mbind run_bind].
    pose proof (splice_gaps l [] (rewritten_all [] l) [] (length_rewritten_all l [])) as Hs. cbn [app length] in Hs.
    rewrite Hs. cbn [mbind run_bind]. by rewrite weave_rewritten.
Qed.

(** The index-based repair is one pass, and never panics.

    Planning by message and block indices, rewriting those blocks and then splicing the
    missing results in from the last batch to the first gives exactly the single left-to-right
    pass that closes a batch at the first message without a result; the count returned is the
    number of messages added. *)
Theorem repair_is_one_pass l :
  model_tool_history l = Ret (repaired true [] l) /\
  sanitize_orphan_tool_uses l = Ret (repaired false [] l, length (repaired false [] l) - length l).
Proof. split; [apply model_tool_history_spec|apply sanitize_spec]. Qed.

(** ** After the repair nothing is missing *)

Lemma interrupted_answers c p : left_pending (interrupted c) (c :: p) = p.
Proof.
  assert (paired_with (interrupted c) (c :: p) c.1.1 = Some 0) as Hp.
  { unfold paired_with, answers. cbn. by rewrite String.eqb_refl. }
  unfold left_pending. change (in_batch (interrupted c) (c :: p)) with ((c :: p) ++ []). rewrite app_nil_r.
  change (blocks (interrupted c)) with [ToolResult c.1.1 c.1.2 INTERRUPTED true]. cbn [scan_blocks].
  by rewrite Hp.
Qed.

Lemma gaps_answered p : forall i k, gaps i p (map interrupted p ++ k) = gaps (i + length p) [] k.
Proof.
  induction p as [|c p IH]; intros i k; [by rewrite Nat.add_0_r|].
  change (map interrupted (c :: p) ++ k) with (interrupted c :: (map interrupted p ++ k)). cbn [gaps].
  assert (is_result_message (interrupted c) = true) as -> by done. cbn [app].
  rewrite interrupted_answers, IH. cbn [length]. f_equal. lia.
Qed.

Lemma repaired_has_no_gaps l : forall i p, gaps i p (repaired false p l) = [].
Proof.
  induction l as [|m l IH]; intros i p; cbn [repaired].
  - rewrite <- (app_nil_r (map interrupted p)). by rewrite gaps_answered.
  - destruct (is_result_message m) eqn:Em; cbn [app].
    + cbn [gaps]. rewrite Em. apply IH.
    + rewrite gaps_answered. cbn [gaps]. rewrite Em. cbn [batch app].
      assert (left_pending m [] = left_pending m p) as -> by (unfold left_pending, in_batch; by rewrite Em).
      apply IH.
Qed.

Lemma repaired_keeps_messages l : forall p, l `sublist_of` repaired false p l.
Proof.
  induction l as [|m l IH]; intros p; cbn [repaired]; [apply sublist_nil_l|].
  apply sublist_inserts_l. by apply sublist_skip.
Qed.

(** A repaired session needs no further repair.

    Inserting the missing results keeps every message in its order, leaves no call of the
    history without a result, and repairing again adds nothing, whatever the history was. *)
Theorem sanitizing_completes_the_history l :
  exists l' n, sanitize_orphan_tool_uses l = Ret (l', n) /\
    l `sublist_of` l' /\ length l' = length l + n /\
    missing (plan l') = [] /\ sanitize_orphan_tool_uses l' = Ret (l', 0).
Proof.
  exists (repaired false [] l), (length (repaired false [] l) - length l).
  assert (missing (plan (repaired false [] l)) = []) as Hm
    by (rewrite plan_spec; apply repaired_has_no_gaps).
  split_and!; [apply sanitize_spec|apply repaired_keeps_messages| |done|].
  - rewrite (length_repaired false l 0 []). lia.
  - unfold sanitize_orphan_tool_uses, apply_missing. by rewrite Hm.
Qed.

(** ** What the provider accepts *)

Section Provider.
Context `{SerdeJson} (raw text_value : string -> Value).

Notation convert := (convert_message raw text_value).
Notation convert_all := (fold_left (convert_message raw text_value)).

Definition in_result (b : InputContentBlock) : option string :=
  match b with InToolResult id _ _ => Some id | _ => None end.
Definition in_call (b : InputContentBlock) : option string :=
  match b with InToolUse id _ _ _ => Some id | _ => None end.
Definition in_results (m : InputMessage) : list string := omap in_result (in_content m).
Definition in_calls (m : InputMessage) : list string := omap in_call (in_content m).

(** Reading the messages in order, [due] are the calls of the last assistant message: the
    next message, a user's, holds exactly their results; no other message holds any. *)
Fixpoint provider_reads (due : list string) (l : list InputMessage) : option (list string) :=
  match l with
  | [] => Some due
  | m :: l =>
      if String.eqb (in_role m) "assistant"
      then if bool_decide (due = []) && bool_decide (in_results m = []) then provider_reads (in_calls m) l else None
      else if bool_decide (in_results m ≡ₚ due) then provider_reads [] l else None
  end.

(** A history whose batches are answered in place: while calls are open, a message with
    results answers one of them, and only the first of the batch may be a user's. *)
Fixpoint answers_in_place (started : bool) (p : list PendingCall) (l : list ConversationMessage) : bool :=
  match l with
  | [] => true
  | m :: l =>
      let kept := existsb is_tool_result (blocks (rewritten m p)) in
      if is_result_message m then
        (bool_decide (p = []) || kept && (bool_decide (role m = RTool) || negb started))
        && answers_in_place (started || kept) (left_pending m p) l
      else answers_in_place false (left_pending m p) l
  end.

Definition ids (p : list PendingCall) : list string := map (fun c => c.1.1) p.
Definition result_id (b : ContentBlock) : option string :=
  match b with ToolResult id _ _ _ => Some id | _ => None end.

Lemma provider_reads_app a : forall due b,
  provider_reads due (a ++ b) = (due ← provider_reads due a; provider_reads due b).
Proof.
  induction a as [|m a IH]; intros due b; cbn; [done|].
  destruct (String.eqb _ _); [destruct (_ && _)|destruct (bool_decide _)]; by rewrite ?IH.
Qed.

Lemma provider_reads_snoc due a m d :
  provider_reads due a = Some d ->
  provider_reads due (a ++ [m]) = provider_reads d [m].
Proof. intros Ha. rewrite provider_reads_app, Ha. done. Qed.

Lemma converted_results (bs : list ContentBlock) : omap in_result (omap (convert_block raw text_value) bs) = omap result_id bs.
Proof.
  induction bs as [|b bs IH]; cbn; [done|]. destruct b; cbn; try (by rewrite <- IH).
  destruct signature as [sg|]; cbn; [destruct (is_empty sg)|]; cbn; exact IH.
Qed.

Lemma converted_calls (bs : list ContentBlock) : omap in_call (omap (convert_block raw text_value) bs) = omap tool_use_id_of bs.
Proof.
  induction bs as [|b bs IH]; cbn; [done|]. destruct b; cbn; try (by rewrite <- IH).
  destruct signature as [sg|]; cbn; [destruct (is_empty sg)|]; cbn; exact IH.
Qed.

Lemma has_result_omap (l : list InputContentBlock) : existsb in_is_result l = true <-> omap in_result l <> [].
Proof. induction l as [|b l IH]; cbn; [done|]. destruct b; cbn; done. Qed.

Lemma has_tool_result_omap (l : list ContentBlock) : existsb is_tool_result l = true <-> omap result_id l <> [].
Proof. induction l as [|b l IH]; cbn; [done|]. destruct b; cbn; done. Qed.

(** ** The loop over the repaired history *)

(** The calls [due] of the batch in progress: none answered yet, or the last message holds
    the results of the others. *)
Inductive owes (acc : list InputMessage) : list string -> bool -> Prop :=
| owes_none s : provider_reads [] acc = Some [] -> owes acc [] s
| owes_all due : provider_reads [] acc = Some due -> owes acc due false
| owes_rest acc0 u all due :
    acc = acc0 ++ [u] -> provider_reads [] acc0 = Some all -> in_role u = "user" -> in_results u <> [] ->
    in_results u ++ due ≡ₚ all -> owes acc due true.

Lemma owes_closed acc s : owes acc [] s -> provider_reads [] acc = Some [].
Proof.
  inversion 1 as [s' Hr|due Hr|acc0 u all due -> Hr Hu _ Hp]; subst; [done|done|].
  rewrite (provider_reads_snoc _ _ _ _ Hr). cbn. rewrite Hu. cbn. rewrite app_nil_r in Hp.
  by rewrite bool_decide_eq_true_2.
Qed.

Lemma owes_last acc due s : owes acc due s -> due <> [] -> s = false ->
  provider_reads [] acc = Some due /\
  (forall u, list.last acc = Some u -> in_role u = "assistant").
Proof.
  intros Ho Hd ->. assert (provider_reads [] acc = Some due) as Hr by (by inversion Ho; subst).
  split; [done|]. intros u Hu. apply last_Some in Hu as [acc0 ->]. rewrite provider_reads_app in Hr.
  destruct (provider_reads [] acc0) as [d|]; [|done]. cbn in Hr.
  destruct (String.eqb_spec (in_role u) "assistant") as [|_]; [done|]. destruct (bool_decide _); congruence.
Qed.

Lemma provider_role_user m : role m <> RAssistant -> provider_role (role m) = "user".
Proof. by destruct (role m). Qed.

Lemma reads_user r c due : r = "user" -> omap in_result c ≡ₚ due ->
  provider_reads due [{| in_role := r; in_content := c |}] = Some [].
Proof.
  intros -> Hp. cbn [provider_reads in_role]. change (String.eqb "user" "assistant") with false. cbn iota.
  unfold in_results. cbn [in_content]. by rewrite (bool_decide_eq_true_2 _ Hp).
Qed.

Lemma reads_assistant c : omap in_result c = [] ->
  provider_reads [] [{| in_role := "assistant"; in_content := c |}] = Some (omap in_call c).
Proof.
  intros Hc. cbn [provider_reads in_role]. change (String.eqb "assistant" "assistant") with true. cbn iota.
  unfold in_results. cbn [in_content]. by rewrite Hc.
Qed.

(** A message without results and calls changes nothing that is owed. *)
Lemma convert_plain acc m :
  provider_reads [] acc = Some [] -> role m <> RAssistant -> omap result_id (blocks m) = [] ->
  provider_reads [] (convert acc m) = Some [].
Proof.
  intros Hr Hm Hres. unfold convert_message. rewrite <- converted_results in Hres.
  destruct (omap (convert_block raw text_value) (blocks m)) as [|b c]; [done|].
  destruct (merges m (list.last acc)) as [u|] eqn:Eu.
  - assert (list.last acc = Some u /\ in_role u = "user") as [Hlast Hu].
    { revert Eu. unfold merges. destruct (role m), (list.last acc) as [w|]; try done.
      destruct (String.eqb_spec (in_role w) "user"); [|done]. cbn. destruct (existsb _ _); [|done]. by intros [= <-]. }
    apply last_Some in Hlast as [acc0 ->]. rewrite length_app, Nat.add_sub, take_app_length.
    rewrite provider_reads_app in Hr |- *. destruct (provider_reads [] acc0) as [d|]; [|done]. cbn in Hr |- *.
    rewrite Hu in Hr |- *. cbn in Hr |- *. unfold in_results in *. cbn [in_content].
    by rewrite omap_app, Hres, app_nil_r.
  - rewrite (provider_reads_snoc _ _ _ _ Hr). apply reads_user; [by apply provider_role_user|by rewrite Hres].
Qed.

(** A message of results, some of what is owed, pays them. *)
Lemma convert_results acc due s m left :
  owes acc due s -> role m <> RAssistant -> omap result_id (blocks m) <> [] ->
  omap result_id (blocks m) ++ left ≡ₚ due -> role m = RTool \/ s = false ->
  owes (convert acc m) left true.
Proof.
  intros Ho Hm Hne Hp Hs. unfold convert_message. rewrite <- converted_results in Hne, Hp.
  assert (due <> []) as Hdue.
  { intros ->. symmetry in Hp. apply Permutation_nil in Hp. by apply app_eq_nil in Hp as [? _]. }
  destruct (omap (convert_block raw text_value) (blocks m)) as [|b c] eqn:Ec; [done|].
  assert (forall d, provider_reads [] acc = Some d -> d = due ->
    owes (acc ++ [{| in_role := provider_role (role m); in_content := b :: c |}]) left true) as Hpush.
  { intros d Hr ->. eapply owes_rest; [done|exact Hr|by apply provider_role_user|exact Hne|exact Hp]. }
  destruct s.
  - destruct Hs as [Ht|]; [|done].
    inversion Ho as [s' Hr|due' Hr|acc0 u all due' -> Hr Hu Hru Hperm]; subst; [done|].
    unfold merges. rewrite Ht, last_snoc, Hu. apply has_result_omap in Hru as Hex. rewrite Hex. cbn [String.eqb andb].
    change (String.eqb "user" "user") with true. cbn [andb].
    rewrite length_app, Nat.add_sub, take_app_length. eapply owes_rest; [done|exact Hr|done|..]; unfold in_results in *; cbn [in_content]; rewrite omap_app.
    + intros [Hnil _]%app_eq_nil. done.
    + rewrite <- app_assoc. by rewrite Hp.
  - destruct (owes_last _ _ _ Ho Hdue eq_refl) as [Hr Hl].
    assert (merges m (list.last acc) = None) as ->; [|by eapply Hpush].
    unfold merges. destruct (role m), (list.last acc) as [u|] eqn:El; try done. by rewrite (Hl u eq_refl).
Qed.

Lemma convert_interrupted p : forall acc s, owes acc (ids p) s -> exists s', owes (convert_all (map interrupted p) acc) [] s'.
Proof.
  induction p as [|c p IH]; intros acc s Ho; [by exists s|]. cbn [map fold_left].
  apply (IH _ true). apply (convert_results acc (ids (c :: p)) s); [done|done|done|done|by left].
Qed.

Lemma scan_results m bs : forall p,
  omap result_id (scan_blocks m bs p).2 ++ ids (scan_blocks m bs p).1 ≡ₚ ids p.
Proof.
  induction bs as [|b bs IH]; intros p; cbn [scan_blocks]; [done|].
  destruct b as [| | | | |id name out e]; try (specialize (IH p); by destruct (scan_blocks m bs p)).
  destruct (paired_with m p id) as [i|] eqn:Ep.
  - specialize (IH (delete i p)). destruct (scan_blocks m bs (delete i p)) as [q bs']. cbn in *. rewrite IH.
    unfold paired_with in Ep. destruct (position (answers m id) p) as [k|] eqn:Ek; [|done].
    destruct (is_result_message m); [|done]. injection Ep as ->.
    assert (exists c, p !! i = Some c /\ c.1.1 = id) as (c & Hc & <-).
    { clear IH. revert i Ek. induction p as [|c p IHp]; intros i; cbn; [done|].
      destruct (answers m id c) eqn:Ea.
      - intros [= <-]. exists c. split; [done|]. unfold answers in Ea. apply andb_true_iff in Ea as [Ea _].
        by apply String.eqb_eq.
      - destruct (position (answers m id) p) as [j|] eqn:Ej; [|done]. intros [= <-]. by apply (IHp j). }
    symmetry. exact (Permutation_map (fun c => c.1.1) (delete_Permutation p i c Hc)).
  - specialize (IH p). destruct (scan_blocks m bs p) as [q bs']. done.
Qed.

Lemma scan_no_batch m bs : is_result_message m = false ->
  forall p, (scan_blocks m bs p).1 = p /\ omap result_id (scan_blocks m bs p).2 = []
    /\ omap tool_use_id_of (scan_blocks m bs p).2 = omap tool_use_id_of bs.
Proof.
  intros Hm. induction bs as [|b bs IH]; intros p; cbn [scan_blocks]; [done|].
  destruct (IH p) as (K1 & K2 & K3).
  assert (forall id, paired_with m p id = None) as Hp.
  { intros id. unfold paired_with. rewrite Hm. by destruct (position _ _). }
  destruct b as [| | | | |id name out e]; rewrite ?Hp; destruct (scan_blocks m bs p) as [q bs']; cbn in *; try done.
  by rewrite K3.
Qed.

Lemma message_call_ids m : role m = RAssistant -> ids (message_calls m) = omap tool_use_id_of (blocks m).
Proof.
  intros Hm. unfold message_calls. rewrite Hm. unfold ids, block_call.
  induction (blocks m) as [|b bs IH]; cbn; [done|]. destruct b; cbn; try done. by rewrite <- IH.
Qed.

(** A message that ends a batch, once the batch was answered. *)
Lemma convert_boundary acc m :
  provider_reads [] acc = Some [] -> is_result_message m = false ->
  owes (convert acc (rewritten m [])) (ids (left_pending m [])) false.
Proof.
  intros Hr Hm. unfold left_pending, rewritten, in_batch. rewrite Hm. cbn [app].
  destruct (scan_no_batch m (blocks m) Hm (message_calls m)) as (-> & Hres & Hcalls).
  destruct (decide (role m = RAssistant)) as [Ha|Hna].
  - rewrite message_call_ids by done. unfold convert_message. cbn [blocks set_blocks role].
    rewrite <- Hcalls, <- converted_calls. rewrite <- converted_results in Hres.
    destruct (omap (convert_block raw text_value) _) as [|b c]; [by apply owes_all|].
    unfold merges. cbn [role set_blocks]. rewrite Ha. apply owes_all.
    rewrite (provider_reads_snoc _ _ _ _ Hr). by apply reads_assistant.
  - assert (message_calls m = []) as Hmc by (unfold message_calls; by destruct (role m)).
    rewrite Hmc in *. apply owes_none. by apply convert_plain.
Qed.

Lemma convert_repaired l : forall acc p s,
  owes acc (ids p) s -> answers_in_place s p l = true ->
  provider_reads [] (convert_all (repaired true p l) acc) = Some [].
Proof.
  induction l as [|m l IH]; intros acc p s Ho Ht; cbn [repaired].
  - destruct (convert_interrupted p acc s Ho) as [s' Hc]. by apply owes_closed in Hc.
  - cbn [answers_in_place] in Ht. rewrite fold_left_app. cbn [fold_left].
    destruct (is_result_message m) eqn:Em; cbn [fold_left].
    + apply andb_true_iff in Ht as [Hplace Ht]. eapply IH; [|exact Ht]. clear IH Ht.
      assert (role (rewritten m p) <> RAssistant) as Hna.
      { unfold is_result_message in Em. cbn. by destruct (role m). }
      assert (in_batch m p = p) as Hb.
      { unfold in_batch, message_calls, is_result_message in *. destruct (role m); try done; by rewrite Em, app_nil_r. }
      assert (omap result_id (blocks (rewritten m p)) ++ ids (left_pending m p) ≡ₚ ids p) as Hperm.
      { unfold left_pending, rewritten. cbn [blocks set_blocks]. rewrite <- Hb at 3. apply scan_results. }
      destruct (existsb is_tool_result (blocks (rewritten m p))) eqn:Ek.
      * apply has_tool_result_omap in Ek. rewrite orb_true_r.
        destruct p as [|c p]; [by apply Permutation_nil_r, app_eq_nil in Hperm as [? _]|].
        cbn [andb] in Hplace. rewrite bool_decide_eq_false_2 in Hplace by done. cbn in Hplace.
        eapply convert_results; [exact Ho|done|done|exact Hperm|].
        apply orb_true_iff in Hplace as [Hp|Hp]; [left; by apply bool_decide_eq_true in Hp|right; by destruct s].
      * cbn [andb] in Hplace. rewrite orb_false_r in Hplace. apply bool_decide_eq_true in Hplace as ->.
        assert (omap result_id (blocks (rewritten m [])) = []) as Hno.
        { destruct (omap result_id (blocks (rewritten m []))) eqn:E; [done|].
          assert (existsb is_tool_result (blocks (rewritten m [])) = true) by (apply has_tool_result_omap; by rewrite E).
          congruence. }
        rewrite Hno in Hperm. cbn in Hperm. symmetry in Hperm. apply Permutation_nil in Hperm. rewrite Hperm.
        rewrite orb_false_r. apply owes_none, convert_plain; [by eapply owes_closed|done|done].
    + destruct (convert_interrupted p acc s Ho) as [s' Hc]. apply owes_closed in Hc.
      assert (left_pending m p = left_pending m []) as Hl by (unfold left_pending, in_batch; by rewrite Em).
      assert (rewritten m p = rewritten m []) as -> by (unfold rewritten, in_batch; by rewrite Em).
      rewrite Hl in *. eapply IH; [by apply convert_boundary|exact Ht].
Qed.

Lemma results_first_reads l : forall due, provider_reads due (map results_first l) = provider_reads due l.
Proof.
  assert (forall (c : list InputContentBlock),
    omap in_result (List.filter in_is_result c ++ List.filter (fun b => negb (in_is_result b)) c) = omap in_result c
    /\ omap in_call (List.filter in_is_result c ++ List.filter (fun b => negb (in_is_result b)) c) = omap in_call c) as Hc.
  { intros c. rewrite !omap_app.
    assert (omap in_result (List.filter (fun b => negb (in_is_result b)) c) = []
      /\ omap in_call (List.filter in_is_result c) = []
      /\ omap in_result (List.filter in_is_result c) = omap in_result c
      /\ omap in_call (List.filter (fun b => negb (in_is_result b)) c) = omap in_call c) as (-> & -> & -> & ->).
    { induction c as [|b c (K1 & K2 & K3 & K4)]; [done|]. destruct b; cbn; rewrite ?K1, ?K2, ?K3, ?K4; done. }
    by rewrite app_nil_r. }
  induction l as [|m l IH]; intros due; cbn; [done|].
  unfold in_results, in_calls. cbn [in_content results_first]. destruct (Hc (in_content m)) as [-> ->].
  by rewrite !IH.
Qed.

(** C3. Where the results of a history come in place, every call a provider is sent is answered in
    the next message, and nothing else is.

    The results come in place when, while calls are open, every message with results answers one
    of them, and a user's message only the first of a batch ([answers_in_place]; a stray result in
    front of a batch breaks it, and the conclusion, [stray_result_splits_a_batch]).  Then in the
    converted messages each assistant message is
    followed by a user's message that holds exactly one result for each of its calls, ahead of
    anything else, and no other message holds a result, whatever was interrupted, missing or
    unpaired in the history. *)
Theorem provider_history_is_paired l :
  answers_in_place false [] l = true ->
  exists sent, convert_messages raw text_value l = Ret sent /\
    provider_reads [] sent = Some [] /\
    Forall (fun m => exists results rest, in_content m = results ++ rest /\
      Forall (fun b => in_is_result b = true) results /\ Forall (fun b => in_is_result b = false) rest) sent.
Proof.
  intros Ht. unfold convert_messages. rewrite model_tool_history_spec. cbn [mbind run_bind].
  eexists. split; [done|]. split.
  - rewrite results_first_reads. apply (convert_repaired l [] [] false); [by apply owes_none|done].
  - apply Forall_map. apply Forall_true. intros m. eexists _, _. split; [done|].
    split; apply Forall_forall; intros b [_ Hb]%list_elem_of_In%filter_In; [done|by apply negb_true_iff].
Qed.
End Provider.

(** ** Concrete histories *)

Definition call_of (id : string) : ContentBlock := ToolUse id "bash" "{}" None.
Definition model_raw (s : string) : Value := t_obj [("raw", t_str s)].

Definition model_text (s : string) : Value := t_str s.

(** Two calls, one answered by a user's message, then the turn was cut off; a result of an
    unknown call is left behind. *)
Definition cut_off : list ConversationMessage :=
  [user_blocks [Text "go"]; assistant_with_usage [Text "on it"; call_of "a"; call_of "b"] None;
   user_blocks [ToolResult "a" "bash" "ok" false; Image "data" "image/png"];
   user_blocks [Text "again"]; tool_result "x" "bash" "late" false].

Lemma provider_history_is_paired_witness :
  exists sent, convert_messages model_raw model_text cut_off = Ret sent /\ provider_reads [] sent = Some [].
Proof.
  destruct (provider_history_is_paired model_raw model_text cut_off) as (sent & Hs & Hr & _);
    [vm_compute; reflexivity|].
  exists sent. split; [exact Hs|exact Hr].
Defined.

(** A stray result in front of the results of a batch: the repair turns it into text, so the
    results are no longer in the message after the call. *)
Definition stray_first : list ConversationMessage :=
  [assistant_with_usage [call_of "a"] None; tool_result "x" "bash" "late" false; tool_result "a" "bash" "ok" false].

(** A damaged history may stay unanswerable: the provider is sent a call whose next message
    holds no result of it, and repairing the view again would not find it in order. *)
Theorem stray_result_splits_a_batch :
  exists sent view, convert_messages model_raw model_text stray_first = Ret sent /\
    provider_reads [] sent = None /\
    model_tool_history stray_first = Ret view /\ missing (plan view) <> [].
Proof. do 2 eexists. split_and!; [vm_compute; reflexivity..|]. vm_compute. discriminate. Qed.
