(* ===== verification/ContextHistory.v ===== *)
(** * One runtime's continuation of a history (runtime/src/session/history/context.rs)

    A [ContextHistory] owns one context of the shared log: it opens it, appends to it, and
    completes its turns.  Every operation is a program over the calls of the transport.  Fresh
    ids and clock readings are arguments; [null] is [Value::Null], [session_value] the session
    as [HistoryRecord::initialize] writes it, [set_messages] replaces a session's messages. *)
From S2P Require Import Prelude.
From stdpp Require Import list gmap.
From S2P Require Import RustStr Json Conversation HistoryGraph HistoryLog.
From S2P Require ToolHistory.

Section ContextLog.
Context `{SessionCodec} `{!HistoryDigests} (encode_error : HistoryRecord -> option string) (polls : nat).
Context (null : Value) (session_value : Session -> result string Value)
  (set_messages : Session -> list ConversationMessage -> Session).

Record ContextHistory := {
  ch_history : HistoryLog;
  ch_context : string;
  ch_failed : option string
}.
Definition with_history (h : HistoryLog) (s : ContextHistory) : ContextHistory :=
  {| ch_history := h; ch_context := ch_context s; ch_failed := ch_failed s |}.
Definition with_failed (e : string) (s : ContextHistory) : ContextHistory :=
  {| ch_history := ch_history s; ch_context := ch_context s; ch_failed := Some e |}.

(** The random id and the clock reading of one new record. *)
Record Fresh := { fr_uuid : string; fr_now : N }.

(** ** Operations *)

(** An operation: the continuation it leaves and its result. *)
Definition Operation (A : Type) : Type := Prog (ContextHistory * result string A).

Definition op_bind {A B} (p : Operation A) (f : ContextHistory -> A -> Operation B) : Operation B :=
  prog_bind p (fun '(s, r) => match r with Ok a => f s a | Err e => Done (s, Err e) end).

(** What the graph computes: an [io::Result], or a panic. *)
Definition computed {A} (s : ContextHistory) (r : result Stop A) : Operation A :=
  match r with
  | Ok a => Done (s, Ok a)
  | Err (StopInvalid e) | Err (StopReject e) => Done (s, Err e)
  | Err StopPanic => Crash
  end.

Definition on_log {A} (f : HistoryLog -> Method A) (s : ContextHistory) : Operation A :=
  prog_bind (f (ch_history s)) (fun '(h, r) => Done (with_history h s, r)).

Definition graph_of (s : ContextHistory) : HistoryGraph := hl_graph (ch_history s).

Definition check (s : ContextHistory) : result string unit :=
  match ch_failed s with
  | None => Ok tt
  | Some reason => Err ("session history requires restore: " ++ reason)%string
  end.

(** An operation behind [check]. *)
Definition checked {A} (s : ContextHistory) (p : Operation A) : Operation A :=
  match check s with Ok _ => p | Err e => Done (s, Err e) end.

Definition commit_record (s : ContextHistory) (record : HistoryRecord) : Operation unit :=
  checked s
    (prog_bind (commit encode_error polls record (ch_history s)) (fun '(h, r) =>
       let s := with_history h s in
       match r with
       | Ok Applied => Done (s, Ok tt)
       | Ok (Rejected reason) => Done (s, Err reason)
       | Err e => Done (with_failed e s, Err e)
       end)).

Definition session (s : ContextHistory) : Operation Session :=
  checked s (computed s (context_session (graph_of s) (ch_context s))).

Definition refresh_session (s : ContextHistory) : Operation Session :=
  checked s (op_bind (on_log refresh s) (fun s _ => session s)).

Definition revision (s : ContextHistory) : Operation string :=
  checked s
    match graph_revision (graph_of s) (ch_context s) with
    | Some r => Done (s, Ok r)
    | None => Done (s, Err "context missing")
    end.

Definition context_head (s : ContextHistory) : Operation (option string) :=
  checked s (Done (s, message_head (graph_of s) (ch_context s))).

(** A new record of this context behind its revision. *)
Definition next_record (f : Fresh) (s : ContextHistory) (rev : string) (event : HistoryEvent) : HistoryRecord :=
  record_new (fr_uuid f) (fr_now f) (ch_context s) (Some rev) event.

Definition clock_of (v : Value) : N := default 0%N (get v "updated_at_ms" ≫= as_u64).

Definition save_metadata_value (f : Fresh) (s : ContextHistory) (metadata : Value) : Operation unit :=
  checked s
    (op_bind (Done (s, context_metadata (graph_of s) (ch_context s))) (fun s stored =>
       let updated := N.max (clock_of metadata) (clock_of stored) in
       let metadata := set_field metadata "updated_at_ms" (of_u64 updated) in
       if bool_decide (metadata = stored) then Done (s, Ok tt)
       else op_bind (revision s) (fun s rev => commit_record s (next_record f s rev (Metadata metadata))))).

Definition save_metadata (f : Fresh) (s : ContextHistory) (x : Session) : Operation unit :=
  op_bind (Done (s, metadata_value x)) (fun s metadata => save_metadata_value f s metadata).

(** [fm]: the metadata record, [f] and [uuid]: the message's. *)
Definition append (fm f : Fresh) (uuid : string) (s : ContextHistory) (message : ConversationMessage) (x : Session) :
  Operation unit :=
  checked s
    (op_bind (Done (s, metadata_value x)) (fun s metadata =>
     op_bind (Done (s, context_metadata (graph_of s) (ch_context s))) (fun s stored =>
     let metadata := set_field metadata "updated_at_ms" (default null (get stored "updated_at_ms")) in
     op_bind (save_metadata_value fm s metadata) (fun s _ =>
     op_bind (computed s (prepare_message (fr_uuid f) uuid (fr_now f) (graph_of s) (ch_context s) message)) (fun s record =>
     commit_record s record))))).

Definition update (f : Fresh) (s : ContextHistory) (message : ConversationMessage) : Operation unit :=
  match history message with
  | None => Done (s, Err "message identity missing")
  | Some identity =>
      op_bind (revision s) (fun s rev =>
      op_bind (Done (s, to_value message)) (fun s value =>
      commit_record s (next_record f s rev (AssistantUpdate (identity_id identity) value))))
  end.

(** For every message the source it keeps, if it is one. *)
Definition retained_ids (source : list string) (messages : list ConversationMessage) : list (option string) :=
  map (fun m => match identity_id <$> history m with
                | Some id => if bool_decide (id ∈ source) then Some id else None
                | None => None
                end) messages.

Fixpoint same_view (current : list string) (messages : list ConversationMessage) : bool :=
  match current, messages with
  | [], [] => true
  | id :: current, m :: messages =>
      bool_decide (identity_id <$> history m = Some id) && same_view current messages
  | _, _ => false
  end.

(** [uuids]: the ids of the messages that get one. *)
Definition commit_projection (f : Fresh) (uuids : nat -> string) (s : ContextHistory) (x : Session)
    (source : list string) : Operation unit :=
  op_bind (revision s) (fun s rev =>
  op_bind (computed s (prepare_projection (fr_uuid f) uuids (fr_now f) (graph_of s) (ch_context s) rev x
                         (retained_ids source (session_messages x)))) (fun s record =>
  commit_record s record)).

Definition save (f : Fresh) (uuids : nat -> string) (s : ContextHistory) (x : Session) (replace_view : bool) :
  Operation unit :=
  checked s
    (op_bind (Done (s, message_ids (graph_of s) (ch_context s))) (fun s current =>
     if replace_view then commit_projection f uuids s x current
     else if same_view current (session_messages x) then save_metadata f s x
     else Done (s, Err "metadata save cannot replace the message view"))).

Definition finish (f : Fresh) (s : ContextHistory) (turn_id : string) : Operation unit :=
  checked s
    (op_bind (Done (s, has_open_tools (graph_of s) (ch_context s))) (fun s (open : bool) =>
     if open then Done (s, Err "cannot complete a turn with unfinished tools")
     else op_bind (Done (s, has_uncommitted_messages (graph_of s) (ch_context s))) (fun s (uncommitted : bool) =>
     if uncommitted
     then op_bind (revision s) (fun s rev => commit_record s (next_record f s rev (CommitTurn turn_id)))
     else Done (s, Ok tt)))).

(** ** Opening *)

Definition recover_inherited_calls (f : Fresh) (uuids : nat -> string) (s : ContextHistory) : Operation unit :=
  op_bind (session s) (fun s x =>
    match ToolHistory.sanitize_orphan_tool_uses (session_messages x) with
    | Ret (messages, O) => Done (s, Ok tt)
    | Ret (messages, S _) =>
        op_bind (Done (s, message_ids (graph_of s) (ch_context s))) (fun s source =>
        commit_projection f uuids s (set_messages x messages) source)
    | _ => Crash
    end).

(** The ids of the record that opens the context: its own and the context's. *)
Definition branch (f : Fresh) (context : string) (source : option string) : HistoryRecord :=
  match source with
  | None => record_branch_latest_completed (fr_uuid f) context (fr_now f)
  | Some commit => record_branch (fr_uuid f) context (fr_now f) commit
  end.

Definition record_initialize (f : Fresh) (context : string) (x : Session) : result string HistoryRecord :=
  value ← session_value x; Ok (record_new (fr_uuid f) (fr_now f) context None (Initialize value)).

Definition opening (f : Fresh) (context : string) (g : HistoryGraph) (seed : option Session)
    (source : option string) : result string HistoryRecord :=
  match latest_commit g with
  | None => match seed with
            | Some x => record_initialize f context x
            | None => Err "new history requires a seed"
            end
  | Some _ => Ok (branch f context source)
  end.

Definition open_result (p : Operation unit) : Prog (result string ContextHistory) :=
  prog_bind p (fun '(s, r) => Done (match r with Ok _ => Ok s | Err e => Err e end)).

Definition ALREADY_INITIALIZED : string := "history_already_initialized".

(** [f], [context]: of the first record; [fb], [bcontext]: of the branch taken when another
    client initialized first; [fr], [uuids]: of the recovery. *)
Definition open (f : Fresh) (context : string) (fb : Fresh) (bcontext : string) (fr : Fresh)
    (uuids : nat -> string) (seed : option Session) (source : option string) :
  Prog (result string ContextHistory) :=
  prog_bind (refresh log_new) (fun '(h, r) =>
    match r with
    | Err e => Done (Err e)
    | Ok _ =>
        match opening f context (hl_graph h) seed source with
        | Err e => Done (Err e)
        | Ok record =>
            prog_bind (commit encode_error polls record h) (fun '(h, r) =>
              let current := {| ch_history := h; ch_context := rec_context_id record; ch_failed := None |} in
              match r with
              | Err e => Done (Err e)
              | Ok Applied => open_result (recover_inherited_calls fr uuids current)
              | Ok (Rejected reason) =>
                  if String.eqb reason ALREADY_INITIALIZED then
                    let record := branch fb bcontext source in
                    let current := {| ch_history := h; ch_context := rec_context_id record; ch_failed := None |} in
                    open_result (op_bind (commit_record current record) (fun s _ =>
                      recover_inherited_calls fr uuids s))
                  else Done (Err reason)
              end)
        end
    end).
End ContextLog.
