(* ===== verification/ContextSafety.v ===== *)
(** * What a continuation's writes promise

    No operation of a [ContextHistory] panics; one that reports success has its record
    settled as applied in the shared log; and after an append of unknown outcome the
    continuation answers nothing until the session is restored. *)
From S2P Require Import Prelude.
From stdpp Require Import list gmap.
From S2P Require Import RustStr Json Conversation HistoryGraph HistoryInvariant HistoryLog HistoryLogSafety ContextHistory.
From S2P Require ToolHistory ToolHistorySafety.

Section Safety.
Context `{SessionCodec} `{!HistoryDigests} (encode_error : HistoryRecord -> option string) (polls : nat).
Context (null : Value) (session_value : Session -> result string Value)
  (set_messages : Session -> list ConversationMessage -> Session).

(** ** No panics *)

Lemma collect_no_panic {A} (l : list (result Stop A)) : Forall no_panic l -> no_panic (collect l).
Proof.
  induction 1 as [|x l Hx _ IH]; cbn; [done|].
  destruct x as [a|e]; [by apply no_panic_bind|]. intros [= ->]. by apply Hx.
Qed.

Lemma context_session_no_panic g cid : graph_ok g -> no_panic (context_session g cid).
Proof.
  intros Hg. unfold context_session. destruct (g_contexts g !! cid) as [c|] eqn:Hc; [|done].
  apply no_panic_bind; [|done]. unfold graph_session. apply no_panic_bind; [|intros; apply no_panic_or_invalid].
  apply collect_no_panic, Forall_map, Forall_forall. intros id Hid.
  destruct (go_ctx _ Hg _ _ Hc) as [[_ Hix] _ _ _]. unfold message_value.
  apply no_panic_bind; [by apply no_panic_or_panic, Hix|]. intros node _.
  apply no_panic_bind; [apply no_panic_or_invalid|]. done.
Qed.

Lemma prepare_message_spec uuid um now g cid m :
  no_panic (prepare_message uuid um now g cid m) /\
  forall record, prepare_message uuid um now g cid m = Ok record ->
    rec_id record = uuid /\ rec_context_id record = cid /\
    exists parent value, to_value m = Ok value /\
      rec_event record = Message (default um (identity_id <$> history m)) parent value.
Proof.
  unfold prepare_message. destruct (g_contexts g !! cid) as [c|]; [|done]. 
  match goal with |- context [if ?b then _ else _] => destruct b end; [done|].
  destruct (to_value m) as [value|e]; [|done]. cbn. split; [done|]. intros record [= <-]. cbn.
  split_and!; [done|done|]. eexists _, _. split; [done|]. by destruct (history m).
Qed.

Lemma bind_messages_no_panic uuids ms (source : gset string) pairs : (forall id, id ∈ source -> is_Some (ms !! id)) ->
  forall used index, no_panic (bind_messages uuids ms source pairs used index).
Proof.
  intros Hs. induction pairs as [|[m r] pairs IH]; intros used index; cbn [bind_messages]; [done|].
  apply no_panic_bind; [apply no_panic_or_invalid|]. intros payload _.
  apply no_panic_bind; [|intros [entry used'] _; apply no_panic_bind; [apply IH|done]].
  destruct r as [id|]; [|done]. destruct (bool_decide (id ∈ source)) eqn:Hid; [|done]. cbn.
  destruct (negb _); [|done]. apply bool_decide_eq_true in Hid.
  apply no_panic_bind; [by apply no_panic_or_panic, Hs|]. intros node _.
  apply no_panic_bind; [apply no_panic_or_invalid|]. intros value _. by destruct (bool_decide _).
Qed.

Lemma prepare_projection_spec uuid uuids now g cid rev x retained : graph_ok g ->
  no_panic (prepare_projection uuid uuids now g cid rev x retained) /\
  forall record, prepare_projection uuid uuids now g cid rev x retained = Ok record ->
    rec_id record = uuid /\ rec_context_id record = cid /\
    exists metadata entries, metadata_value x = Ok metadata /\ rec_event record = ProjectionEvent metadata entries.
Proof.
  intros Hg. unfold prepare_projection. destruct (g_contexts g !! cid) as [c|] eqn:Hc; [|done].
  destruct (negb (String.eqb _ _)); [done|]. destruct (negb _); [done|]. split.
  - apply no_panic_bind; [|intros entries _; apply no_panic_bind; [apply no_panic_or_invalid|done]].
    apply bind_messages_no_panic. intros id Hid%elem_of_list_to_set. by apply (co_proj _ _ (go_ctx _ Hg _ _ Hc)).
  - intros record (entries & _ & Hr)%result_bind_ok. apply result_bind_ok in Hr as (metadata & Hm & [= <-]).
    split_and!; [done|done|]. eexists _, _. split; [by apply or_invalid_ok|done].
Qed.

(** ** Programs of operations *)

Lemma wp_op {A B} (p : Operation A) (f : ContextHistory -> A -> Operation B) l Q :
  wp p l (fun x l' => match x.2 with Ok a => wp (f x.1 a) l' Q | Err e => Q (x.1, Err e) l' end) ->
  wp (op_bind p f) l Q.
Proof.
  intros Hp. unfold op_bind. apply log_wp_bind. eapply wp_conseq; [|exact Hp].
  intros [s [a|e]] l' _ Hq; exact Hq.
Qed.

Lemma folded_ok l h : folded l h -> graph_ok (hl_graph h).
Proof. intros (rs & _ & Hf & _). by eapply folds_ok. Qed.

(** The operation left the log folded; if it succeeded, [Q]. *)
Definition leaves {A} (s : ContextHistory) (Q : ContextHistory -> A -> list Frame -> Prop)
    (x : ContextHistory * result string A) (l : list Frame) : Prop :=
  folded l (ch_history x.1) /\ ch_context x.1 = ch_context s /\ forall a, x.2 = Ok a -> Q x.1 a l.

Lemma leaves_err {A} s s' e (Q : ContextHistory -> A -> list Frame -> Prop) l :
  folded l (ch_history s') -> ch_context s' = ch_context s -> leaves s Q (s', Err e) l.
Proof. intros Hf Hc. by split. Qed.

Lemma op_step {A B} (p : Operation A) (f : ContextHistory -> A -> Operation B) l s
    (P : ContextHistory -> A -> list Frame -> Prop) Q :
  wp p l (leaves s P) ->
  (forall s' a l', folded l' (ch_history s') -> ch_context s' = ch_context s -> P s' a l' -> wp (f s' a) l' (leaves s Q)) ->
  wp (op_bind p f) l (leaves s Q).
Proof.
  intros Hp Hf. apply wp_op. eapply wp_conseq; [|exact Hp].
  intros [s' [a|e]] l' _ (Hfold & Hc & HP); cbn in *; [by apply Hf; [| |apply HP]|by apply leaves_err].
Qed.

(** A step that only computes. *)
Lemma op_pure {A B} s (r : result string A) (f : ContextHistory -> A -> Operation B) l Q :
  folded l (ch_history s) -> (forall a, r = Ok a -> wp (f s a) l (leaves s Q)) ->
  wp (op_bind (Done (s, r)) f) l (leaves s Q).
Proof. intros Hfold Hf. cbn. destruct r as [a|e]; [by apply Hf|by apply leaves_err]. Qed.

Lemma op_computed {A B} s (r : result Stop A) (f : ContextHistory -> A -> Operation B) l Q :
  folded l (ch_history s) -> no_panic r -> (forall a, r = Ok a -> wp (f s a) l (leaves s Q)) ->
  wp (op_bind (computed s r) f) l (leaves s Q).
Proof.
  intros Hfold Hn Hf. destruct r as [a|[e|e|]]; cbn; [by apply Hf|by apply leaves_err..|by destruct Hn].
Qed.

Lemma op_checked {A} s (p : Operation A) l Q :
  folded l (ch_history s) -> wp p l (leaves s Q) -> wp (checked s p) l (leaves s Q).
Proof. intros Hfold Hp. unfold checked. destruct (check s); [done|by apply leaves_err]. Qed.

Lemma leaves_from {A} s s' (Q : ContextHistory -> A -> list Frame -> Prop) x l :
  ch_context s' = ch_context s -> leaves s' Q x l -> leaves s Q x l.
Proof. intros Hc (Hf & Hx & HQ). split_and!; [done|congruence|done]. Qed.

(** A later step of an operation that began at [s]. *)
Lemma wp_from {A} s s' (p : Operation A) l Q :
  ch_context s' = ch_context s -> wp p l (leaves s' Q) -> wp p l (leaves s Q).
Proof. intros Hc. apply wp_conseq. intros x l' _. by apply leaves_from. Qed.

(** ** Writes *)

(** A record of [context] with [f]'s id and an event that is [P], applied in the log. *)
Definition wrote (f : Fresh) (context : string) (P : HistoryEvent -> Prop) (l : list Frame) : Prop :=
  exists record, rec_id record = fr_uuid f /\ rec_context_id record = context /\ P (rec_event record)
    /\ settled l record Applied.

Lemma commit_record_ok s record l :
  folded l (ch_history s) ->
  wp (commit_record encode_error polls s record) l
    (leaves s (fun s' _ l' => settled l' record Applied /\ ch_failed s' = ch_failed s)).
Proof.
  intros Hfold. apply op_checked; [done|]. apply log_wp_bind.
  eapply wp_conseq; [|apply (commit_ok encode_error polls record _ l Hfold)].
  intros [h r] l' _ [Hf Hr]. cbn in Hf. destruct r as [[|reason]|e]; cbn.
  - split_and!; [done|done|]. intros [] _. split; [by apply Hr|done].
  - by apply leaves_err.
  - by apply leaves_err.
Qed.

Lemma commit_wrote s record f l (P : HistoryEvent -> Prop) :
  folded l (ch_history s) -> rec_id record = fr_uuid f -> rec_context_id record = ch_context s -> P (rec_event record) ->
  wp (commit_record encode_error polls s record) l (leaves s (fun _ _ l' => wrote f (ch_context s) P l')).
Proof.
  intros Hfold Hid Hc HP. eapply wp_conseq; [|by apply commit_record_ok].
  intros x l' _ (Hf & Hx & HQ). split_and!; [done|done|]. intros a Ha. exists record.
  split_and!; [done|done|done|]. by destruct (HQ a Ha).
Qed.

Lemma revision_ok s l : folded l (ch_history s) -> wp (revision s) l (leaves s (fun s' _ _ => s' = s)).
Proof.
  intros Hfold. apply op_checked; [done|]. destruct (graph_revision _ _); cbn; [|by apply leaves_err].
  by split_and!.
Qed.

(** Committing an event of the context behind its revision. *)
Lemma commit_next s f l (event : HistoryEvent) :
  folded l (ch_history s) ->
  wp (op_bind (revision s) (fun s rev => commit_record encode_error polls s (next_record f s rev event))) l
    (leaves s (fun _ _ l' => wrote f (ch_context s) (fun e => e = event) l')).
Proof.
  intros Hfold. eapply op_step; [by apply revision_ok|]. intros s' rev l' Hf Hc ->. by apply commit_wrote.
Qed.

Lemma save_metadata_value_ok f s metadata l :
  folded l (ch_history s) ->
  wp (save_metadata_value encode_error polls f s metadata) l (leaves s (fun _ _ _ => True)).
Proof.
  intros Hfold. apply op_checked; [done|]. apply op_pure; [done|]. intros stored _. cbn zeta.
  destruct (bool_decide _); [by split_and!|].
  eapply wp_conseq; [|by apply commit_next]. intros x l' _ (? & ? & _). by split_and!.
Qed.

Lemma append_ok fm f uuid s m x l :
  folded l (ch_history s) ->
  wp (append encode_error polls null fm f uuid s m x) l
    (leaves s (fun _ _ l' => wrote f (ch_context s) (fun e => exists parent value,
       to_value m = Ok value /\ e = Message (default uuid (identity_id <$> history m)) parent value) l')).
Proof.
  intros Hfold. apply op_checked; [done|]. apply op_pure; [done|]. intros metadata _.
  apply op_pure; [done|]. intros stored _. cbn zeta.
  eapply op_step; [by apply save_metadata_value_ok|]. intros s' [] l' Hf Hc _. apply (wp_from s s'); [done|].
  destruct (prepare_message_spec (fr_uuid f) uuid (fr_now f) (graph_of s') (ch_context s') m) as [Hn Hrec].
  apply op_computed; [done|done|]. intros record Hp. destruct (Hrec _ Hp) as (Hid & Hctx & Hev).
  rewrite <- Hc. apply commit_wrote; [done|done|done|].
  destruct Hev as (parent & value & Hv & ->). by exists parent, value.
Qed.

Lemma update_ok f s m l :
  folded l (ch_history s) ->
  wp (update encode_error polls f s m) l
    (leaves s (fun _ _ l' => wrote f (ch_context s) (fun e => exists identity value,
       history m = Some identity /\ to_value m = Ok value /\ e = AssistantUpdate (identity_id identity) value) l')).
Proof.
  intros Hfold. unfold update. destruct (history m) as [identity|]; [|by apply leaves_err].
  eapply op_step; [by apply revision_ok|]. intros s' rev l' Hf Hc ->.
  apply op_pure; [done|]. intros value Hv. apply commit_wrote; [done|done|done|]. by exists identity, value.
Qed.

Lemma commit_projection_ok f uuids s x source l :
  folded l (ch_history s) ->
  wp (commit_projection encode_error polls f uuids s x source) l
    (leaves s (fun _ _ l' => wrote f (ch_context s) (fun e => exists metadata entries,
       metadata_value x = Ok metadata /\ e = ProjectionEvent metadata entries) l')).
Proof.
  intros Hfold. eapply op_step; [by apply revision_ok|]. intros s' rev l' Hf Hc ->.
  destruct (prepare_projection_spec (fr_uuid f) uuids (fr_now f) (graph_of s) (ch_context s) rev x
              (retained_ids source (session_messages x)) (folded_ok _ _ Hf)) as [Hn Hrec].
  apply op_computed; [done|done|]. intros record Hp. destruct (Hrec _ Hp) as (Hid & Hctx & Hev).
  apply commit_wrote; [done|done|done|]. destruct Hev as (metadata & entries & Hm & ->). by exists metadata, entries.
Qed.

Lemma save_ok f uuids s x replace l :
  folded l (ch_history s) ->
  wp (save encode_error polls f uuids s x replace) l
    (leaves s (fun _ _ l' => replace = true -> wrote f (ch_context s) (fun e => exists metadata entries,
       metadata_value x = Ok metadata /\ e = ProjectionEvent metadata entries) l')).
Proof.
  intros Hfold. apply op_checked; [done|]. apply op_pure; [done|]. intros current _. destruct replace.
  - eapply wp_conseq; [|by apply commit_projection_ok]. intros y l' _ (? & ? & HQ). split_and!; [done|done|].
    intros a Ha _. by apply (HQ a).
  - destruct (same_view _ _); [|by apply leaves_err]. apply op_pure; [done|]. intros metadata _.
    eapply wp_conseq; [|by apply save_metadata_value_ok]. intros y l' _ (? & ? & _). by split_and!.
Qed.

Lemma finish_wrote f s turn l :
  folded l (ch_history s) ->
  wp (finish encode_error polls f s turn) l
    (leaves s (fun _ _ l' => has_uncommitted_messages (graph_of s) (ch_context s) = Ok false
       \/ wrote f (ch_context s) (fun e => e = CommitTurn turn) l')).
Proof.
  intros Hfold. apply op_checked; [done|]. apply op_pure; [done|]. intros open Hopen.
  destruct open; [by apply leaves_err|]. apply op_pure; [done|]. intros [] Hu.
  - eapply wp_conseq; [|by apply commit_next]. intros y l' _ (? & ? & HQ). split_and!; [done|done|].
    intros a Ha. right. by apply (HQ a).
  - split_and!; [done|done|]. intros a _. by left.
Qed.

(** C17. A write that succeeded was applied.

    Whatever the transport answers, appending, updating, replacing the view and completing a
    turn panic nowhere and keep the context; when one returns success, the log holds a record
    of this context with the write's own id and content, settled as applied for every reader;
    only a turn without uncommitted messages is completed by writing nothing. *)
Theorem acknowledged_writes_are_applied fm f uuid uuids s m x turn l :
  folded l (ch_history s) ->
  wp (append encode_error polls null fm f uuid s m x) l
    (leaves s (fun _ _ l' => wrote f (ch_context s) (fun e => exists parent value,
       to_value m = Ok value /\ e = Message (default uuid (identity_id <$> history m)) parent value) l')) /\
  wp (update encode_error polls f s m) l
    (leaves s (fun _ _ l' => wrote f (ch_context s) (fun e => exists identity value,
       history m = Some identity /\ to_value m = Ok value /\ e = AssistantUpdate (identity_id identity) value) l')) /\
  wp (save encode_error polls f uuids s x true) l
    (leaves s (fun _ _ l' => wrote f (ch_context s) (fun e => exists metadata entries,
       metadata_value x = Ok metadata /\ e = ProjectionEvent metadata entries) l')) /\
  wp (finish encode_error polls f s turn) l
    (leaves s (fun _ _ l' => has_uncommitted_messages (graph_of s) (ch_context s) = Ok false
       \/ wrote f (ch_context s) (fun e => e = CommitTurn turn) l')).
Proof.
  intros Hfold. split_and!; [by apply append_ok|by apply update_ok| |by apply finish_wrote].
  eapply wp_conseq; [|by apply save_ok]. intros y l' _ (? & ? & HQ). split_and!; [done|done|].
  intros a Ha. by apply (HQ a).
Qed.

(** ** Retirement *)

(** [p] answers an error without a call of the transport, and changes nothing. *)
Definition refuses {A} (s : ContextHistory) (p : Operation A) : Prop := exists e, p = Done (s, Err e).

Lemma checked_refuses {A} s (p : Operation A) : ch_failed s <> None -> refuses s (checked s p).
Proof. intros Hs. unfold checked, check. destruct (ch_failed s) as [e|]; [by eexists|done]. Qed.

(** An uncertain writer is retired.

    A commit whose outcome stays unknown marks the continuation as failed, and from then on
    every operation answers an error at once, without reading or writing the log, so nothing
    is built on a record that may or may not be there. *)
Theorem uncertain_writer_is_retired s record l fm f uuid uuids m x turn replace :
  folded l (ch_history s) ->
  wp (commit_record encode_error polls s record) l (fun '(s', r) l' =>
    match r with
    | Ok _ => settled l' record Applied
    | Err e => ch_failed s' = None -> settled l' record (Rejected e)
    end) /\
  (ch_failed s <> None ->
    refuses s (session s) /\ refuses s (refresh_session s) /\ refuses s (revision s) /\
    refuses s (context_head s) /\ refuses s (append encode_error polls null fm f uuid s m x) /\
    refuses s (update encode_error polls f s m) /\ refuses s (save encode_error polls f uuids s x replace) /\
    refuses s (finish encode_error polls f s turn) /\ refuses s (commit_record encode_error polls s record)).
Proof.
  intros Hfold. split.
  - unfold commit_record, checked, check. destruct (ch_failed s) as [e|] eqn:Ef; [cbn; congruence|].
    apply log_wp_bind. eapply wp_conseq; [|apply (commit_ok encode_error polls record _ l Hfold)].
    intros [h r] l' _ [_ Hr]. destruct r as [[|reason]|e]; cbn; [by apply Hr|intros _; by apply Hr|done].
  - intros Hs. split_and!; try (by apply checked_refuses).
    unfold update. destruct (history m) as [identity|]; [|by eexists].
    destruct (checked_refuses s (match graph_revision (graph_of s) (ch_context s) with
      | Some r => Done (s, Ok r) | None => Done (s, Err "context missing"%string) end) Hs) as [e He].
    unfold revision. rewrite He. cbn. by eexists.
Qed.

(** ** Opening *)

Lemma session_ok s l : folded l (ch_history s) -> wp (session s) l (leaves s (fun s' _ _ => s' = s)).
Proof.
  intros Hfold. apply op_checked; [done|].
  pose proof (context_session_no_panic _ (ch_context s) (folded_ok _ _ Hfold)) as Hn.
  unfold graph_of. destruct (context_session _ _) as [x|[e|e|]]; cbn; [by split_and!|by apply leaves_err..|by destruct Hn].
Qed.

Lemma recover_folds f uuids s l :
  folded l (ch_history s) ->
  wp (recover_inherited_calls encode_error polls set_messages f uuids s) l (leaves s (fun _ _ _ => True)).
Proof.
  intros Hfold. eapply op_step; [by apply session_ok|]. intros s' x l' Hf Hc ->.
  rewrite ToolHistorySafety.sanitize_spec. destruct (length _ - length _); [by split_and!|].
  apply op_pure; [done|]. intros source _.
  eapply wp_conseq; [|by apply commit_projection_ok]. intros y l2 _ (? & ? & _). by split_and!.
Qed.

(** [context] was opened by an applied record. *)
Definition opened (context : string) (l : list Frame) : Prop :=
  exists record, rec_context_id record = context /\ opens (rec_event record) = true /\ settled l record Applied.

Lemma opened_mono context l l' : l `prefix_of` l' -> opened context l -> opened context l'.
Proof. intros Hl (record & Hc & Ho & Hs). exists record. split_and!; [done|done|by eapply settled_mono]. Qed.

Lemma branch_opens f context source :
  rec_context_id (branch f context source) = context /\ opens (rec_event (branch f context source)) = true.
Proof. by destruct source. Qed.

Lemma opening_opens f context g seed source record :
  opening session_value f context g seed source = Ok record ->
  rec_context_id record = context /\ opens (rec_event record) = true.
Proof.
  unfold opening. destruct (latest_commit g) as [cm|]; [intros [= <-]; apply branch_opens|].
  destruct seed as [x|]; [|done]. unfold record_initialize. destruct (session_value x) as [v|e]; [|done].
  by intros [= <-].
Qed.

(** Opening a continuation ends in a context that is open.

    Opening reads the log, initializes it or branches from a completed turn, branches after
    all when another client initialized it first, and repairs the calls it inherited; it
    panics nowhere, and the continuation it returns folds a prefix of the log and owns a context whose opening record is applied. *)
Theorem open_owns_an_opened_context f context fb bcontext fr uuids seed source l :
  wp (open encode_error polls session_value set_messages f context fb bcontext fr uuids seed source) l
    (fun r l' => forall s, r = Ok s ->
       folded l' (ch_history s) /\ (ch_context s = context \/ ch_context s = bcontext) /\ opened (ch_context s) l').
Proof.
  unfold open. apply log_wp_bind. eapply wp_conseq; [|apply refresh_ok, folded_new].
  intros [h r] l1 _ [Hf _]. cbn in Hf. destruct r as [[]|e]; [|done].
  destruct (opening session_value f context (hl_graph h) seed source) as [record|e] eqn:Eo; [|done].
  destruct (opening_opens _ _ _ _ _ _ Eo) as [Hc Ho]. apply log_wp_bind.
  eapply wp_conseq; [|apply (commit_ok encode_error polls record h l1 Hf)].
  intros [h2 r2] l2 _ [Hf2 Hr2]. cbn in Hf2. destruct r2 as [[|reason]|e]; [| |done].
  - apply log_wp_bind. eapply wp_conseq; [|apply recover_folds; exact Hf2].
    intros [s [[]|e]] l3 Hl3 (Hf3 & Hc3 & _); cbn in *; [|done]. intros s' [= <-].
    split_and!; [done|left; congruence|]. rewrite Hc3. apply (opened_mono _ l2 l3 Hl3).
    exists record. split_and!; [done|done|]. by apply Hr2.
  - destruct (String.eqb reason ALREADY_INITIALIZED); [|done].
    destruct (branch_opens fb bcontext source) as [Hbc Hbo]. apply log_wp_bind, wp_op.
    eapply wp_conseq; [|apply commit_record_ok; exact Hf2].
    intros [s [[]|e]] l3 _ (Hf3 & Hc3 & Ha); cbn in *; [|done]. destruct (Ha tt eq_refl) as [Hset _].
    eapply wp_conseq; [|apply recover_folds; exact Hf3].
    intros [s2 [[]|e]] l4 Hl4 (Hf4 & Hc4 & _); cbn in *; [|done]. intros s' [= <-].
    split_and!; [done|right; congruence|]. rewrite Hc4, Hc3. apply (opened_mono _ l3 l4 Hl4).
    exists (branch fb bcontext source). by split_and!.
Qed.
End Safety.
