(* ===== verification/ContextModel.v ===== *)
(** * A continuation at work

    The theorems about continuations at a log that evaluates: a session is opened, a message
    appended and the turn completed; then the store fails an append and the continuation is
    retired. *)
From S2P Require Import Prelude.
From stdpp Require Import list gmap.
From S2P Require Import RustStr Json JsonModel Conversation HistoryGraph HistoryInvariant HistoryModel HistoryLog HistoryLogSafety HistoryLogModel ContextHistory ContextSafety.

(** A run of a program satisfies what holds of all of them. *)
Lemma play_wp {A} (p : Prog A) : forall log log' x Q, wp p log Q -> play log p = Some (log', x) -> Q x log'.
Proof.
  induction p as [a| |cursor k IH|record k IH]; intros log log' x Q Hwp; cbn [play]; [|done|..].
  - by intros [= <- <-].
  - intros Hp. by apply (IH _ _ _ _ _ (Hwp log (full_answer log cursor) (reflexivity _) (full_answer_allowed log cursor))).
  - intros Hp. by apply (IH _ _ _ _ _ (proj1 (Hwp log (reflexivity _)))).
Qed.

Definition model_session (messages : list ConversationMessage) : Session :=
  {| ts_id := "s"; ts_messages := messages; ts_head := None |}.
Definition model_value (s : Session) : result string Value :=
  Ok (t_obj [("session_id", t_str (ts_id s)); ("messages", t_arr (map t_message (ts_messages s)))]).
Definition model_set (s : Session) (messages : list ConversationMessage) : Session :=
  {| ts_id := ts_id s; ts_messages := messages; ts_head := ts_head s |}.
Definition model_null : Value := t_arr [].

Definition fresh (id : string) : Fresh := {| fr_uuid := id; fr_now := 7%N |}.
Definition opening_program : Prog (result string ContextHistory) :=
  open encodes 3 model_value model_set (fresh "r0") "c0" (fresh "r1") "c1" (fresh "r2") (fun _ => "u"%string)
    (Some (model_session [])) None.
Definition nobody : ContextHistory := {| ch_history := log_new; ch_context := ""; ch_failed := None |}.
Definition session_log : list Frame := match play [] opening_program with Some (log, _) => log | None => [] end.
Definition owner : ContextHistory :=
  match play [] opening_program with Some (_, Ok s) => s | _ => nobody end.

Lemma opening_program_runs : play [] opening_program = Some (session_log, Ok owner).
Proof. vm_compute. reflexivity. Qed.

Definition user_message : ConversationMessage := plain_message RUser [Text "hi"].
Definition appending : Operation unit :=
  append encodes 3 model_null (fresh "r3") (fresh "r4") "m1" owner user_message (model_session []).
Definition after_append : list Frame := match play session_log appending with Some (log, _) => log | None => [] end.
Definition writer : ContextHistory :=
  match play session_log appending with Some (_, (s, _)) => s | None => nobody end.

Lemma appending_runs : play session_log appending = Some (after_append, (writer, Ok tt)).
Proof. vm_compute. reflexivity. Qed.

Lemma owner_folded : folded session_log (ch_history owner).
Proof.
  by destruct (play_wp _ _ _ _ _
    (open_owns_an_opened_context encodes 3 model_value model_set (fresh "r0") "c0" (fresh "r1") "c1" (fresh "r2")
       (fun _ => "u"%string) (Some (model_session [])) None []) opening_program_runs owner eq_refl).
Qed.

Lemma acknowledged_writes_are_applied_witness :
  wrote (fresh "r4") "c0" (fun e => exists parent value,
    to_value user_message = Ok value /\ e = Message "m1" parent value) after_append.
Proof.
  destruct (acknowledged_writes_are_applied encodes 3 model_null (fresh "r3") (fresh "r4") "m1" (fun _ => "u"%string)
    owner user_message (model_session []) "turn" session_log owner_folded) as [Ha _].
  destruct (play_wp _ _ _ _ _ Ha appending_runs) as (_ & _ & Hw). exact (Hw tt eq_refl).
Defined.

(** The same continuation after an append whose outcome stayed unknown. *)
Definition retired : ContextHistory := with_failed "timed out" owner.

Lemma uncertain_writer_is_retired_witness :
  refuses retired (append encodes 3 model_null (fresh "r3") (fresh "r4") "m1" retired user_message (model_session [])).
Proof.
  apply (uncertain_writer_is_retired encodes 3 model_null retired (record_branch "r9" "c9" 7%N "r0") session_log
    (fresh "r3") (fresh "r4") "m1" (fun _ => "u"%string) user_message (model_session []) "turn" true owner_folded).
  discriminate.
Defined.
