(* ===== verification/ToolScheduler.v ===== *)
(** * The tool scheduler of one response (runtime/src/conversation/tool_execution.rs)

    The calls of one assistant message, from the moment the provider has streamed them to
    their results: hooks before and after, authorisation, execution.  Hooks, the prompter
    and the executor are the environment: a started stage may end at any time with any
    answer.  The abort flag is an argument.  The context handed to the executor, and the
    random identifier a result's history gets before the session replaces it, are not
    modelled. *)
From S2P Require Import Prelude.
From stdpp Require Import list.
From S2P Require Import RustStr Json Conversation Permissions AssistantMessage.

(** ** Data *)

Inductive Phase :=
| Queued | Preparing | Prepared | Authorizing | Authorized | Running | Finishing | Complete.

#[export] Instance Phase_eq_dec : EqDecision Phase.
Proof. solve_decision. Defined.

(** runtime/src/hooks.rs *)
Record HookRunResult := {
  hr_denied : bool;
  hr_failed : bool;
  hr_cancelled : bool;
  hr_messages : list string;
  hr_permission_override : option PermissionOverride;
  hr_permission_reason : option string;
  hr_updated_input : option string
}.

Definition hook_allow (messages : list string) : HookRunResult :=
  {| hr_denied := false; hr_failed := false; hr_cancelled := false; hr_messages := messages;
     hr_permission_override := None; hr_permission_reason := None; hr_updated_input := None |}.

(** runtime/src/image_input.rs *)
Inductive ToolContextAction := RestartFromCurrentExchange.

Record ToolOutput := {
  to_text : string;
  to_attachments : list ContentBlock;
  to_context_action : option ToolContextAction
}.

Definition output_text (text : string) : ToolOutput :=
  {| to_text := text; to_attachments := []; to_context_action := None |}.
Definition with_text (text : string) (o : ToolOutput) : ToolOutput :=
  {| to_text := text; to_attachments := to_attachments o; to_context_action := to_context_action o |}.

Definition into_message (o : ToolOutput) (id name : string) (is_error : bool) : ConversationMessage :=
  let message := tool_result id name (to_text o) is_error in
  if is_error then message
  else {| history := history message; role := role message;
          blocks := blocks message ++ to_attachments o; usage := usage message;
          model := model message; duration_ms := duration_ms message |}.

Record Invocation := {
  inv_id : string;
  inv_origin : option string;
  inv_name : string;
  inv_input : string;
  inv_parent : option ConversationMessage;
  inv_parallel : bool;
  inv_phase : Phase;
  inv_pre_hook : HookRunResult;
  inv_output : option ToolOutput;
  inv_is_error : bool;
  inv_result : option ConversationMessage
}.

(** What a pushed future computes. *)
Inductive Work :=
| WPreHook
| WAuthorize (reply : PromptReply PermissionOutcome)
| WExecute
| WPostHook.

Inductive Stage :=
| StagePrepared (hook : HookRunResult)
| StageAuthorized (outcome : PermissionOutcome)
| StageExecuted (answer : result string ToolOutput)
| StageFinished (hook : HookRunResult).

Inductive ToolUpdate :=
| Started (id name input : string)
| Completed (index : nat) (message : ConversationMessage) (denial : option string) (input : string)
    (action : option ToolContextAction).

Record ToolScheduler := {
  calls : list Invocation;
  active : list (nat * Work);
  updates : list ToolUpdate;
  policy : PermissionPolicy;
  limit : nat;
  sched_action : option ToolContextAction
}.

(** ** Field updates *)

Definition set_phase (p : Phase) (c : Invocation) : Invocation :=
  {| inv_id := inv_id c; inv_origin := inv_origin c; inv_name := inv_name c; inv_input := inv_input c;
     inv_parent := inv_parent c; inv_parallel := inv_parallel c; inv_phase := p;
     inv_pre_hook := inv_pre_hook c; inv_output := inv_output c; inv_is_error := inv_is_error c;
     inv_result := inv_result c |}.
Definition drop_parent (c : Invocation) : Invocation :=
  {| inv_id := inv_id c; inv_origin := inv_origin c; inv_name := inv_name c; inv_input := inv_input c;
     inv_parent := None; inv_parallel := inv_parallel c; inv_phase := inv_phase c;
     inv_pre_hook := inv_pre_hook c; inv_output := inv_output c; inv_is_error := inv_is_error c;
     inv_result := inv_result c |}.
Definition set_prepared (input : string) (parallel : bool) (hook : HookRunResult) (c : Invocation)
  : Invocation :=
  {| inv_id := inv_id c; inv_origin := inv_origin c; inv_name := inv_name c; inv_input := input;
     inv_parent := inv_parent c; inv_parallel := parallel; inv_phase := Prepared;
     inv_pre_hook := hook; inv_output := inv_output c; inv_is_error := inv_is_error c;
     inv_result := inv_result c |}.
Definition set_executed (output : ToolOutput) (is_error : bool) (c : Invocation) : Invocation :=
  {| inv_id := inv_id c; inv_origin := inv_origin c; inv_name := inv_name c; inv_input := inv_input c;
     inv_parent := inv_parent c; inv_parallel := inv_parallel c; inv_phase := Finishing;
     inv_pre_hook := inv_pre_hook c; inv_output := Some output; inv_is_error := is_error;
     inv_result := inv_result c |}.
Definition take_output (c : Invocation) : Invocation :=
  {| inv_id := inv_id c; inv_origin := inv_origin c; inv_name := inv_name c; inv_input := inv_input c;
     inv_parent := inv_parent c; inv_parallel := inv_parallel c; inv_phase := inv_phase c;
     inv_pre_hook := inv_pre_hook c; inv_output := None; inv_is_error := inv_is_error c;
     inv_result := inv_result c |}.
Definition set_result (m : ConversationMessage) (c : Invocation) : Invocation :=
  {| inv_id := inv_id c; inv_origin := inv_origin c; inv_name := inv_name c; inv_input := inv_input c;
     inv_parent := inv_parent c; inv_parallel := inv_parallel c; inv_phase := inv_phase c;
     inv_pre_hook := inv_pre_hook c; inv_output := inv_output c; inv_is_error := inv_is_error c;
     inv_result := Some m |}.

Definition set_calls (l : list Invocation) (s : ToolScheduler) : ToolScheduler :=
  {| calls := l; active := active s; updates := updates s; policy := policy s; limit := limit s;
     sched_action := sched_action s |}.
Definition set_active (l : list (nat * Work)) (s : ToolScheduler) : ToolScheduler :=
  {| calls := calls s; active := l; updates := updates s; policy := policy s; limit := limit s;
     sched_action := sched_action s |}.
Definition set_updates (l : list ToolUpdate) (s : ToolScheduler) : ToolScheduler :=
  {| calls := calls s; active := active s; updates := l; policy := policy s; limit := limit s;
     sched_action := sched_action s |}.
Definition set_call (i : nat) (c : Invocation) (s : ToolScheduler) : ToolScheduler :=
  set_calls (<[i := c]> (calls s)) s.
Definition set_action (a : option ToolContextAction) (s : ToolScheduler) : ToolScheduler :=
  {| calls := calls s; active := active s; updates := updates s; policy := policy s; limit := limit s;
     sched_action := match a with Some _ => a | None => sched_action s end |}.

Section Scheduler.
Context {J : SerdeJson}.
(** [ToolExecutor::is_concurrency_safe] of the executor, and the JSON text of an interrupted
    shell result. *)
Context (is_concurrency_safe : string -> string -> bool).
Context (interrupted_bash : string).

Definition interrupted_tool_output (tool_name : string) : string :=
  if String.eqb (to_ascii_lowercase tool_name) "bash" then interrupted_bash else INTERRUPT_MESSAGE.

Definition scheduler_new (p : PermissionPolicy) (limit : nat) : ToolScheduler :=
  {| calls := []; active := []; updates := []; policy := p; limit := limit; sched_action := None |}.

Definition enqueue (s : ToolScheduler) (id name input : string) (parent : option ConversationMessage)
  : result RuntimeError ToolScheduler :=
  if existsb (fun c => String.eqb (inv_id c) id) (calls s) then
    Err (runtime_error ("duplicate tool_use id in assistant response: " ++ id)%string)
  else
    Ok (set_calls (calls s ++
      [{| inv_id := id; inv_origin := (m ← parent; identity_id <$> history m); inv_name := name;
          inv_input := input; inv_parent := parent; inv_parallel := is_concurrency_safe name input;
          inv_phase := Queued; inv_pre_hook := hook_allow []; inv_output := None;
          inv_is_error := false; inv_result := None |}]) s).

Definition is_complete (c : Invocation) : bool := bool_decide (inv_phase c = Complete).
Definition is_finished (s : ToolScheduler) : bool :=
  forallb is_complete (calls s) && match updates s with [] => true | _ => false end.

(** ** Admission *)

Definition is_inflight (c : Invocation) : bool :=
  match inv_phase c with Queued | Complete => false | _ => true end.
Definition inflight_count (l : list Invocation) : nat := length (List.filter is_inflight l).

(** What the loop does to one call: its new state, the future it pushes, its update. *)
Record Intake := {
  ad_call : Invocation;
  ad_work : option Work;
  ad_update : option ToolUpdate
}.
Definition unchanged (c : Invocation) : Intake :=
  {| ad_call := c; ad_work := None; ad_update := None |}.

Definition hook_context (hook : HookRunResult) : PermissionContext :=
  {| override_decision := hr_permission_override hook; override_reason := hr_permission_reason hook |}.

Definition admit_ready (p : PermissionPolicy) (prompter : option PermissionPrompter) (c : Invocation)
  : Intake :=
  match inv_phase c with
  | Prepared =>
      {| ad_call := set_phase Authorizing c;
         ad_work := Some (WAuthorize (begin_authorization p (inv_name c) (inv_input c)
                                        (hook_context (inv_pre_hook c)) prompter));
         ad_update := None |}
  | Authorized =>
      {| ad_call := drop_parent (set_phase Running c); ad_work := Some WExecute;
         ad_update := Some (Started (inv_id c) (inv_name c) (inv_input c)) |}
  | _ => unchanged c
  end.

(** A call the loop may take in, with the counters behind it. *)
Definition admit_one (p : PermissionPolicy) (prompter : option PermissionPrompter) (inflight : nat)
    (earlier_unclassified : bool) (c : Invocation) : Intake * nat * bool :=
  match inv_phase c with
  | Queued => ({| ad_call := set_phase Preparing c; ad_work := Some WPreHook; ad_update := None |},
               S inflight, true)
  | Preparing => (unchanged c, inflight, true)
  | _ => (if earlier_unclassified then unchanged c else admit_ready p prompter c,
          inflight, earlier_unclassified)
  end.

Fixpoint admit_loop (p : PermissionPolicy) (limit : nat) (prompter : option PermissionPrompter)
    (inflight : nat) (earlier_pending earlier_unclassified : bool) (l : list Invocation)
  : list Intake :=
  match l with
  | [] => []
  | c :: rest =>
      if is_complete c then
        unchanged c :: admit_loop p limit prompter inflight earlier_pending earlier_unclassified rest
      else if negb (inv_parallel c) && earlier_pending then map unchanged (c :: rest)
      else if bool_decide (inv_phase c = Queued) && (limit <=? inflight) then map unchanged (c :: rest)
      else
        let '(a, inflight, earlier_unclassified) :=
          admit_one p prompter inflight earlier_unclassified c in
        if inv_parallel c then
          a :: admit_loop p limit prompter inflight true earlier_unclassified rest
        else a :: map unchanged rest
  end.

Fixpoint new_work (i : nat) (l : list Intake) : list (nat * Work) :=
  match l with
  | [] => []
  | a :: rest => match ad_work a with
                 | Some w => (i, w) :: new_work (S i) rest
                 | None => new_work (S i) rest
                 end
  end.

Definition admit_calls (prompter : option PermissionPrompter) (s : ToolScheduler) : ToolScheduler :=
  let l := admit_loop (policy s) (limit s) prompter (inflight_count (calls s)) false false (calls s) in
  {| calls := map ad_call l; active := active s ++ new_work 0 l;
     updates := updates s ++ omap ad_update l; policy := policy s; limit := limit s;
     sched_action := sched_action s |}.

(** ** Completion: [None] is a panic *)

(** The history of a result names the message its call came from. *)
Definition with_origin (origin : option string) (id : string) (m : ConversationMessage)
  : ConversationMessage :=
  match origin with
  | None => m
  | Some o => {| history := Some {| identity_id := ""; identity_parent_id := None;
                                    identity_tool_origins := {[id := o]} |};
                 role := role m; blocks := blocks m; usage := usage m; model := model m;
                 duration_ms := duration_ms m |}
  end.

Definition complete (s : ToolScheduler) (index : nat) (output : ToolOutput) (is_error : bool)
    (denial : option string) : option ToolScheduler :=
  c ← calls s !! index;
  let output := match denial with
                | Some _ => with_text (merge_hook_feedback (hr_messages (inv_pre_hook c)) (to_text output) true) output
                | None => output
                end in
  let action := if is_error then None else to_context_action output in
  let message := with_origin (inv_origin c) (inv_id c) (into_message output (inv_id c) (inv_name c) is_error) in
  let s := set_action action s in
  let s := set_call index (drop_parent (set_phase Complete c)) s in
  Some (set_updates (updates s ++ [Completed index message denial (inv_input c) action]) s).

Definition hook_action (hook : HookRunResult) : string :=
  if hr_cancelled hook then "cancelled" else if hr_failed hook then "failed for" else "denied".
Definition hook_refuses (hook : HookRunResult) : bool :=
  hr_cancelled hook || hr_failed hook || hr_denied hook.

Definition advance (aborted : bool) (s : ToolScheduler) (index : nat) (stage : Stage)
  : option ToolScheduler :=
  c ← calls s !! index;
  match stage with
  | StagePrepared hook =>
      let input := default (inv_input c) (hr_updated_input hook) in
      let c := set_prepared input (is_concurrency_safe (inv_name c) input) hook c in
      let s := set_call index c s in
      if hook_refuses hook then
        let reason := format_hook_message (hr_messages hook)
          ("PreToolUse hook " ++ hook_action hook ++ " tool `" ++ inv_name c ++ "`")%string in
        complete s index (output_text reason) true (Some reason)
      else Some s
  | StageAuthorized OutcomeAllow => Some (set_call index (set_phase Authorized c) s)
  | StageAuthorized (OutcomeDeny reason) => complete s index (output_text reason) true (Some reason)
  | StageExecuted answer =>
      let '(output, is_error) := match answer with
                                 | Ok output => (output, false)
                                 | Err error => (output_text error, true)
                                 end in
      let output := with_text (merge_hook_feedback (hr_messages (inv_pre_hook c)) (to_text output) false) output in
      let s := set_call index (set_executed output (is_error || aborted) c) s in
      Some (set_active (active s ++ [(index, WPostHook)]) s)
  | StageFinished hook =>
      output ← inv_output c;
      let failed := hr_denied hook || hr_failed hook || hr_cancelled hook in
      let output := with_text (merge_hook_feedback (hr_messages hook) (to_text output) failed) output in
      complete (set_call index (take_output c) s) index output (inv_is_error c || failed) None
  end.

Definition store_result (s : ToolScheduler) (index : nat) (m : ConversationMessage)
  : option ToolScheduler :=
  c ← calls s !! index; Some (set_call index (set_result m c) s).

Definition scheduler_result (s : ToolScheduler) (index : nat) : option ConversationMessage :=
  c ← calls s !! index; inv_result c.

(** Answers every unfinished call, keeping the output of one that only waits for its hook. *)
Definition cancel_call (s : ToolScheduler) (index : nat) : option ToolScheduler :=
  c ← calls s !! index;
  if is_complete c then Some s
  else
    let output := default (output_text (interrupted_tool_output (inv_name c))) (inv_output c) in
    complete (set_call index (take_output c) s) index output true None.

Definition cancel (s : ToolScheduler) : option ToolScheduler :=
  foldl (fun o index => s ← o; cancel_call s index) (Some (set_active [] s)) (seq 0 (length (calls s))).

Definition take_update (s : ToolScheduler) : option (ToolUpdate * ToolScheduler) :=
  match updates s with
  | [] => None
  | u :: rest => Some (u, set_updates rest s)
  end.

Definition into_results (s : ToolScheduler) : option (list ConversationMessage) :=
  mapM inv_result (calls s).

(** ** Delivery (runtime/src/conversation/response.rs, [observe_tool_update])

    A completed result may be spilled to a file and replaced by a preview before it is
    stored; a context restart keeps its document. *)
Context (offload : string -> string -> string -> string).

Definition settle_block (action : option ToolContextAction) (b : ContentBlock) : ContentBlock :=
  match b, action with
  | ToolResult id name output is_error, None => ToolResult id name (offload id name output) is_error
  | _, _ => b
  end.

Definition settle_message (action : option ToolContextAction) (m : ConversationMessage)
  : ConversationMessage :=
  {| history := history m; role := role m; blocks := map (settle_block action) (blocks m);
     usage := usage m; model := model m; duration_ms := duration_ms m |}.

Definition observe_tool_update (s : ToolScheduler) (u : ToolUpdate) : option ToolScheduler :=
  match u with
  | Started _ _ _ => Some s
  | Completed index message _ _ action => store_result s index (settle_message action message)
  end.

(** The updates left behind when the scheduler is cancelled. *)
Fixpoint drain (fuel : nat) (s : ToolScheduler) : option ToolScheduler :=
  match fuel with
  | O => Some s
  | S fuel => match take_update s with
              | Some (u, s) => s ← observe_tool_update s u; drain fuel s
              | None => Some s
              end
  end.

(** [next] while nothing is aborted, up to the first change: an update is delivered, or the
    environment ends one of the started stages.  Nothing happens when none is started. *)
Definition poll (prompter : option PermissionPrompter) (choose : list (nat * Work) -> nat)
    (answer : nat * Work -> Stage) (s : ToolScheduler) : option ToolScheduler :=
  let s := admit_calls prompter s in
  match take_update s with
  | Some (u, s) => observe_tool_update s u
  | None =>
      let k := choose (active s) mod length (active s) in
      match active s !! k with
      | Some (i, w) => advance false (set_active (delete k (active s)) s) i (answer (i, w))
      | None => Some s
      end
  end.

Fixpoint drive (fuel : nat) (prompter : option PermissionPrompter)
    (choose : list (nat * Work) -> nat) (answer : nat * Work -> Stage) (s : ToolScheduler)
  : option ToolScheduler :=
  if is_finished s then Some s
  else match fuel with
       | O => Some s
       | S fuel => s ← poll prompter choose answer s; drive fuel prompter choose answer s
       end.

(** ** Runs

    A started stage ends with any answer of its kind; an authorisation ends with the reply
    it was given. *)
Definition stage_of (w : Work) (stage : Stage) : Prop :=
  match w, stage with
  | WPreHook, StagePrepared _ => True
  | WAuthorize reply, StageAuthorized outcome => outcome = await reply
  | WExecute, StageExecuted _ => True
  | WPostHook, StageFinished _ => True
  | _, _ => False
  end.

Inductive sched_step (s : ToolScheduler) : list ToolUpdate -> ToolScheduler -> Prop :=
| step_enqueue id name input parent s' :
    enqueue s id name input parent = Ok s' -> sched_step s [] s'
| step_admit prompter : sched_step s [] (admit_calls prompter s)
| step_advance aborted k i w stage s' :
    active s !! k = Some (i, w) -> stage_of w stage ->
    advance aborted (set_active (delete k (active s)) s) i stage = Some s' -> sched_step s [] s'
| step_deliver u s1 s2 :
    take_update s = Some (u, s1) -> observe_tool_update s1 u = Some s2 -> sched_step s [u] s2
| step_cancel s' : cancel s = Some s' -> sched_step s [] s'.

(** The updates delivered so far, and the state. *)
Inductive sched_run (p : PermissionPolicy) (n : nat) : list ToolUpdate -> ToolScheduler -> Prop :=
| run_new : sched_run p n [] (scheduler_new p n)
| run_step trace s us s' :
    sched_run p n trace s -> sched_step s us s' -> sched_run p n (trace ++ us) s'.

End Scheduler.
