(* ===== verification/SchedulerSafety.v ===== *)
(** * What the tool scheduler guarantees

    The invariant of every run of the scheduler, whatever the hooks, the prompter and the
    executor answer and however their answers interleave, and what follows from it: a call
    that may not share its time runs alone, nothing runs without authorisation, the limit
    holds, every call is answered once, and the scheduler always finishes. *)
From S2P Require Import Prelude.
From stdpp Require Import list.
From S2P Require Import RustStr Json Conversation Permissions AssistantMessage ToolScheduler JsonModel.

Lemma filter_none {A} (f : A -> bool) l : (forall x, x ∈ l -> f x = false) -> List.filter f l = [].
Proof.
  induction l as [|x l IH]; intros H; [done|]. cbn. rewrite (H x) by left. apply IH.
  intros y Hy. apply H. by right.
Qed.

(** ** Work of one call *)

Definition works (i : nat) (l : list (nat * Work)) : list Work :=
  map snd (List.filter (fun p => p.1 =? i) l).

Lemma works_app i l k : works i (l ++ k) = works i l ++ works i k.
Proof. unfold works. by rewrite List.filter_app, map_app. Qed.

Lemma works_delete_other i j l k w : l !! k = Some (j, w) -> i <> j -> works i (delete k l) = works i l.
Proof.
  intros Hk Hne. rewrite <- (take_drop_middle l k (j, w) Hk) at 2. rewrite delete_take_drop, !works_app.
  f_equal. unfold works. cbn. destruct (Nat.eqb_spec j i); [congruence|done].
Qed.

Lemma works_delete_same i l k w v : l !! k = Some (i, w) -> works i l = [v] -> w = v /\ works i (delete k l) = [].
Proof.
  intros Hk Hw. rewrite <- (take_drop_middle l k (i, w) Hk) in Hw. rewrite delete_take_drop, works_app.
  rewrite works_app in Hw. change (works i ((i, w) :: drop (S k) l)) with
    (map snd (if i =? i then (i, w) :: List.filter (fun p => p.1 =? i) (drop (S k) l)
              else List.filter (fun p => p.1 =? i) (drop (S k) l))) in Hw.
  rewrite Nat.eqb_refl in Hw. cbn in Hw. fold (works i (drop (S k) l)) in Hw.
  destruct (works i (take k l)) as [|x r]; cbn in Hw; [by injection Hw as -> ->|].
  exfalso. injection Hw as _ Hw. by destruct r.
Qed.

Lemma works_in i w l : (i, w) ∈ l -> works i l <> [].
Proof.
  intros Hin Hn. apply list_elem_of_lookup in Hin as [k Hk].
  rewrite <- (take_drop_middle l k (i, w) Hk), works_app in Hn. apply app_eq_nil in Hn as [_ Hn].
  unfold works in Hn. cbn in Hn. by rewrite Nat.eqb_refl in Hn.
Qed.

Lemma works_new i l : forall n,
  works (n + i) (new_work n l) = match l !! i with Some a => option_list (ad_work a) | None => [] end.
Proof.
  revert i. induction l as [|a l IH]; intros i n; [done|]. cbn [new_work].
  assert (works (n + i) (match ad_work a with Some w => (n, w) :: new_work (S n) l | None => new_work (S n) l end)
          = (if n =? n + i then option_list (ad_work a) else []) ++ works (n + i) (new_work (S n) l)) as ->.
  { destruct (ad_work a); unfold works; cbn; destruct (n =? n + i); done. }
  destruct i as [|i]; cbn [lookup list_lookup].
  - rewrite Nat.add_0_r, Nat.eqb_refl.
    assert (works n (new_work (S n) l) = []) as ->; [|by rewrite app_nil_r].
    clear IH. assert (forall m, n < m -> works n (new_work m l) = []) as H; [|by apply H; lia].
    induction l as [|b l IH]; intros m Hm; [done|]. cbn [new_work].
    destruct (ad_work b); unfold works in *; cbn; [destruct (Nat.eqb_spec m n); [lia|]|]; apply IH; lia.
  - destruct (Nat.eqb_spec n (n + S i)); [lia|]. cbn [app].
    transitivity (works (S n + i) (new_work (S n) l)); [f_equal; lia|apply IH].
Qed.

(** ** Pairs of calls *)

Definition pending_call (c : Invocation) : bool := negb (is_complete c).
Definition unclassified (c : Invocation) : bool :=
  match inv_phase c with Queued | Preparing => true | _ => false end.
(** From the start of its authorisation to the end of its last hook. *)
Definition in_progress (c : Invocation) : bool :=
  match inv_phase c with Authorizing | Authorized | Running | Finishing => true | _ => false end.

(** A call in progress behind an unfinished one: both may share their time, and the earlier
    one is known not to be changed by its hook any more.  Calls are taken in order: nothing is
    under way behind a call that waits to be taken. *)
Definition in_order (c d : Invocation) : Prop :=
  (pending_call c = true -> in_progress d = true ->
   unclassified c = false /\ inv_parallel c = true /\ inv_parallel d = true)
  /\ (inv_phase c = Queued -> is_inflight d = false).

Definition pairwise (R : Invocation -> Invocation -> Prop) (l : list Invocation) : Prop :=
  forall i j c d, i < j -> l !! i = Some c -> l !! j = Some d -> R c d.

Lemma pairwise_nil R : pairwise R [].
Proof. intros i j c d _ Hi. by rewrite lookup_nil in Hi. Qed.

Lemma pairwise_cons R c l : pairwise R (c :: l) <-> (forall j d, l !! j = Some d -> R c d) /\ pairwise R l.
Proof.
  split.
  - intros H. split; [intros j d Hj; by apply (H 0 (S j)); [lia|..]|].
    intros i j x y Hij Hi Hj. by apply (H (S i) (S j)); [lia|..].
  - intros [H1 H2] [|i] [|j] x y Hij Hi Hj; cbn in *; try lia; [|by apply (H2 i j); [lia|..]].
    injection Hi as <-. by apply (H1 j).
Qed.

Lemma pairwise_snoc R l d : pairwise R l -> (forall c, c ∈ l -> R c d) -> pairwise R (l ++ [d]).
Proof.
  intros Hl Hd i j x y Hij Hi Hj. apply lookup_app_Some in Hi as [Hi|[Hn Hi]].
  - apply lookup_app_Some in Hj as [Hj|[_ Hj]]; [by apply (Hl i j)|].
    apply list_lookup_singleton_Some in Hj as [_ <-]. apply Hd. by eapply list_elem_of_lookup_2.
  - apply list_lookup_singleton_Some in Hi as [Hi <-].
    apply lookup_lt_Some in Hj. rewrite length_app in Hj. cbn in Hj. lia.
Qed.

Lemma pairwise_insert (R : Invocation -> Invocation -> Prop) l i c c' :
  l !! i = Some c -> pairwise R l ->
  (forall d, R c d -> R c' d) -> (forall d, R d c -> R d c') -> pairwise R (<[i := c']> l).
Proof.
  intros Hi Hl Hf Hb j k x y Hjk Hj Hk.
  destruct (decide (j = i)) as [->|Hji]; destruct (decide (k = i)) as [->|Hki]; [lia| | |].
  - rewrite list_lookup_insert_eq in Hj by (by eapply lookup_lt_Some). injection Hj as <-.
    rewrite list_lookup_insert_ne in Hk by done. by apply Hf, (Hl i k).
  - rewrite list_lookup_insert_eq in Hk by (by eapply lookup_lt_Some). injection Hk as <-.
    rewrite list_lookup_insert_ne in Hj by done. by apply Hb, (Hl j i).
  - rewrite list_lookup_insert_ne in Hj, Hk by done. by apply (Hl j k).
Qed.

(** A call may be replaced by one further on, with its class kept once it is known. *)
Definition further (c c' : Invocation) : Prop :=
  inv_phase c' <> Queued /\ is_inflight c = true
  /\ (pending_call c' = true -> pending_call c = true)
  /\ (in_progress c' = true -> in_progress c = true)
  /\ (unclassified c' = true -> unclassified c = true)
  /\ (unclassified c = false -> inv_parallel c' = inv_parallel c).

Lemma in_order_further c c' : further c c' -> forall d, in_order c d -> in_order c' d.
Proof.
  intros (Hq' & Hq & Hp & Hi & Hu & Hc) d [H1 H2]. split; [|done].
  intros Hpend Hd. destruct (H1 (Hp Hpend) Hd) as (E1 & E2 & E3).
  split_and!; [|by rewrite Hc|done]. destruct (unclassified c') eqn:E; [|done].
  by rewrite Hu in E1.
Qed.

Lemma in_progress_classified c : in_progress c = true -> unclassified c = false.
Proof. unfold in_progress, unclassified. by destruct (inv_phase c). Qed.

Lemma in_order_further_r c c' : further c c' -> forall d, in_order d c -> in_order d c'.
Proof.
  intros (Hq' & Hq & Hp & Hi & Hu & Hc) d [H1 H2]. split; [|intros E; specialize (H2 E); congruence].
  intros Hpend Hd. destruct (H1 Hpend (Hi Hd)) as (E1 & E2 & E3).
  split_and!; [done|done|]. rewrite Hc; [done|]. by apply in_progress_classified, Hi.
Qed.

Section Safety.
Context {J : SerdeJson}.
Context (is_concurrency_safe : string -> string -> bool) (interrupted_bash : string).
Context (offload : string -> string -> string -> string).

(** ** Admission of one call *)

Definition admitted (p : PermissionPolicy) (prompter : option PermissionPrompter) (c : Invocation)
    (a : Intake) : Prop :=
  a = unchanged c \/ (inv_phase c = Queued /\ a = {| ad_call := set_phase Preparing c;
                                                     ad_work := Some WPreHook; ad_update := None |})
  \/ a = admit_ready p prompter c.

Lemma admit_ready_phase p prompter c :
  (inv_phase c = Prepared /\ inv_phase (ad_call (admit_ready p prompter c)) = Authorizing)
  \/ (inv_phase c = Authorized /\ inv_phase (ad_call (admit_ready p prompter c)) = Running)
  \/ admit_ready p prompter c = unchanged c.
Proof. unfold admit_ready. destruct (inv_phase c); auto. Qed.

Lemma admitted_kept p prompter c a :
  admitted p prompter c a ->
  inv_id (ad_call a) = inv_id c /\ inv_parallel (ad_call a) = inv_parallel c
  /\ pending_call (ad_call a) = pending_call c /\ unclassified (ad_call a) = unclassified c
  /\ inv_result (ad_call a) = inv_result c
  /\ (inv_phase (ad_call a) = Queued -> inv_phase c = Queued).
Proof.
  intros [->|[[Hq ->]| ->]]; [done| |].
  - cbn. unfold pending_call, is_complete, unclassified. cbn. rewrite Hq. done.
  - unfold admit_ready. destruct (inv_phase c) eqn:E; cbn; try done;
      unfold pending_call, is_complete, unclassified; cbn; by rewrite E.
Qed.

Lemma admit_one_spec p prompter inflight eu c a inflight' eu' :
  admit_one p prompter inflight eu c = (a, inflight', eu') ->
  admitted p prompter c a
  /\ inflight' = inflight + (if is_inflight (ad_call a) then 1 else 0) - (if is_inflight c then 1 else 0)
  /\ inflight <= inflight'
  /\ eu' = (eu || unclassified c) 
  /\ inv_phase (ad_call a) <> Queued
  /\ (in_progress (ad_call a) = true -> in_progress c = true \/ eu = false).
Proof.
  unfold admit_one, admitted, admit_ready, is_inflight, unclassified, in_progress. intros H.
  destruct (inv_phase c) eqn:E; [| |destruct eu..]; injection H as <- <- <-; cbn; rewrite ?E; cbn;
    rewrite ?E; split_and!; rewrite ?orb_true_r; auto; try lia; done.
Qed.

(** ** The admission loop *)

(** A property of one step of the loop, threaded through its recursion. *)
Lemma admit_loop_cases p n prompter inflight ep eu c rest :
  let l := admit_loop p n prompter inflight ep eu (c :: rest) in
  (is_complete c = true /\ l = unchanged c :: admit_loop p n prompter inflight ep eu rest)
  \/ l = map unchanged (c :: rest)
  \/ (is_complete c = false /\ (ep = true -> inv_parallel c = true)
      /\ (inv_phase c = Queued -> inflight < n)
      /\ exists a inflight' eu', admit_one p prompter inflight eu c = (a, inflight', eu')
         /\ ((inv_parallel c = true /\ l = a :: admit_loop p n prompter inflight' true eu' rest)
             \/ (inv_parallel c = false /\ l = a :: map unchanged rest))).
Proof.
  cbn [admit_loop]. destruct (is_complete c); [by left|]. right.
  destruct (negb (inv_parallel c) && ep) eqn:E1; [by left|].
  destruct (bool_decide (inv_phase c = Queued) && (n <=? inflight)) eqn:E2; [by left|]. right.
  split; [done|]. split.
  { intros ->. by destruct (inv_parallel c). }
  split.
  { intros Hq. rewrite (bool_decide_eq_true_2 _ Hq) in E2. cbn in E2. by apply Nat.leb_gt in E2. }
  destruct (admit_one p prompter inflight eu c) as [[a inflight'] eu'].
  exists a, inflight', eu'. split; [done|]. destruct (inv_parallel c); auto.
Qed.

Lemma lookup_map_unchanged l k a :
  map unchanged l !! k = Some a -> exists c, l !! k = Some c /\ a = unchanged c.
Proof.
  change (map unchanged l) with (unchanged <$> l). rewrite list_lookup_fmap.
  destruct (l !! k) as [c|]; [|done]. intros [= <-]. by exists c.
Qed.

Lemma map_unchanged l : map ad_call (map unchanged l) = l.
Proof. induction l as [|x l IH]; cbn; [done|]. by rewrite IH. Qed.

Lemma admit_loop_length p n prompter l : forall inflight ep eu,
  length (admit_loop p n prompter inflight ep eu l) = length l.
Proof.
  induction l as [|c rest IH]; intros inflight ep eu; [done|].
  destruct (admit_loop_cases p n prompter inflight ep eu c rest)
    as [[_ ->]|[->|(_ & _ & _ & a & i' & eu' & _ & [[_ ->]|[_ ->]])]];
    cbn [length map]; rewrite ?IH, ?length_map; done.
Qed.

Lemma admit_loop_lookup p n prompter l : forall inflight ep eu k a,
  admit_loop p n prompter inflight ep eu l !! k = Some a ->
  exists c, l !! k = Some c /\ admitted p prompter c a
    /\ (in_progress (ad_call a) = true ->
        in_progress c = true \/ (eu = false /\ (ep = true -> inv_parallel c = true))).
Proof.
  induction l as [|c rest IH]; intros inflight ep eu k a Hk; [done|].
  assert (Hrest : forall k a, map unchanged rest !! k = Some a ->
    exists c, rest !! k = Some c /\ admitted p prompter c a
      /\ (in_progress (ad_call a) = true -> in_progress c = true)).
  { intros k' a' (c' & Hc' & ->)%lookup_map_unchanged. exists c'. split_and!; [done|by left|done]. }
  destruct (admit_loop_cases p n prompter inflight ep eu c rest)
    as [[Hc E]|[E|(Hc & Hp & _ & a0 & i' & eu' & Hone & [[Hpar E]|[Hpar E]])]]; rewrite E in Hk.
  - destruct k as [|k]; cbn in Hk; [|by apply (IH inflight ep eu)].
    injection Hk as <-. exists c. split_and!; [done|by left|by left].
  - apply lookup_map_unchanged in Hk as (c' & Hc' & ->). exists c'. split_and!; [done|by left|by left].
  - apply admit_one_spec in Hone as (Hadm & _ & _ & -> & _ & Hprog).
    destruct k as [|k]; cbn in Hk.
    + injection Hk as <-. exists c. split_and!; [done|done|]. intros H. destruct (Hprog H); auto.
    + destruct (IH _ _ _ _ _ Hk) as (c' & Hc' & Ha & Hlive). exists c'. split_and!; [done|done|].
      intros H. destruct (Hlive H) as [|[Heu Hpar']]; [by left|right].
      apply orb_false_iff in Heu as [-> _]. split; [done|]. intros _. by apply Hpar'.
  - apply admit_one_spec in Hone as (Hadm & _ & _ & -> & _ & Hprog).
    destruct k as [|k]; cbn in Hk.
    + injection Hk as <-. exists c. split_and!; [done|done|]. intros H. destruct (Hprog H); auto.
    + destruct (Hrest _ _ Hk) as (c' & Hc' & Ha & Hlive). exists c'. split_and!; auto.
Qed.

Lemma lookup_calls (l : list Intake) k d :
  map ad_call l !! k = Some d -> exists a, l !! k = Some a /\ d = ad_call a.
Proof.
  change (map ad_call l) with (ad_call <$> l). rewrite list_lookup_fmap.
  destruct (l !! k) as [a|]; [|done]. intros [= <-]. by exists a.
Qed.

(** The pair of an admitted call and a later one that was admitted or left alone. *)
Lemma in_order_admitted p prompter c a d b :
  in_order c d -> admitted p prompter c a -> admitted p prompter d b ->
  (inv_phase (ad_call a) = Queued -> ad_call b = d) ->
  (in_progress (ad_call b) = true -> in_progress d = true \/ pending_call c = false
     \/ (unclassified c = false /\ inv_parallel c = true /\ inv_parallel d = true)) ->
  in_order (ad_call a) (ad_call b).
Proof.
  intros [H1 H2] Ha Hb Hq Hp.
  destruct (admitted_kept _ _ _ _ Ha) as (_ & Epa & Ep & Eu & _ & Eq).
  destruct (admitted_kept _ _ _ _ Hb) as (_ & Epb & _ & _ & _ & _). split.
  - rewrite Ep, Eu, Epa, Epb. intros Hpend Hprog. destruct (Hp Hprog) as [Hd|[Hd|Hd]]; [auto|congruence|done].
  - intros E. rewrite (Hq E). by apply H2, Eq.
Qed.

Lemma admit_loop_in_order p n prompter l : forall inflight ep eu,
  pairwise in_order l -> pairwise in_order (map ad_call (admit_loop p n prompter inflight ep eu l)).
Proof.
  induction l as [|c rest IH]; intros inflight ep eu Hl; [done|].
  pose proof Hl as Hl'. apply pairwise_cons in Hl' as [Hc Hrest].
  destruct (admit_loop_cases p n prompter inflight ep eu c rest)
    as [[Hcomp E]|[E|(Hcomp & Hp & _ & a & i' & eu' & Hone & [[Hpar E]|[Hpar E]])]]; rewrite E.
  2: by rewrite map_unchanged.
  all: cbn [map ad_call unchanged]; apply pairwise_cons; split; [|by rewrite ?map_unchanged; auto].
  - intros j x (b & Hb & ->)%lookup_calls.
    destruct (admit_loop_lookup _ _ _ _ _ _ _ _ _ Hb) as (d & Hd & Hadm & Hlive).
    apply (in_order_admitted p prompter c (unchanged c) d b); [by apply (Hc j)|by left|done| |].
    + cbn. intros Eq. unfold is_complete in Hcomp. rewrite Eq in Hcomp. done.
    + intros _. right. left. unfold pending_call. by rewrite Hcomp.
  - apply admit_one_spec in Hone as (Hadm & _ & _ & -> & Hnq & _).
    intros j x (b & Hb & ->)%lookup_calls.
    destruct (admit_loop_lookup _ _ _ _ _ _ _ _ _ Hb) as (d & Hd & Hadmd & Hlive).
    apply (in_order_admitted p prompter c a d b); [by apply (Hc j)|done|done|done|].
    intros H. destruct (Hlive H) as [|[Heu Hpd]]; [by left|right; right].
    apply orb_false_iff in Heu as [_ ->]. split_and!; auto.
  - apply admit_one_spec in Hone as (Hadm & _ & _ & -> & Hnq & _). rewrite map_unchanged.
    intros j d Hd. apply (in_order_admitted p prompter c a d (unchanged d)); [by apply (Hc j)|done|by left|done|].
    cbn. by left.
Qed.

Lemma inflight_cons c l : inflight_count (c :: l) = (if is_inflight c then 1 else 0) + inflight_count l.
Proof. unfold inflight_count. cbn. by destruct (is_inflight c). Qed.

Lemma admitted_inflight p prompter c a :
  admitted p prompter c a -> is_inflight c = true -> is_inflight (ad_call a) = true.
Proof.
  intros [->|[[Hq ->]| ->]]; [done|done|]. unfold admit_ready, is_inflight. by destruct (inv_phase c) eqn:E; cbn; rewrite ?E.
Qed.

Lemma admit_loop_limit p n prompter l : forall inflight ep eu,
  inflight <= n ->
  inflight_count (map ad_call (admit_loop p n prompter inflight ep eu l)) + inflight
  <= n + inflight_count l.
Proof.
  induction l as [|c rest IH]; intros inflight ep eu Hn; [cbn; lia|].
  destruct (admit_loop_cases p n prompter inflight ep eu c rest)
    as [[_ E]|[E|(_ & _ & Hlt & a & i' & eu' & Hone & Hl)]]; [rewrite E|rewrite E|].
  - cbn [map ad_call unchanged]. rewrite !inflight_cons. specialize (IH inflight ep eu Hn). lia.
  - rewrite map_unchanged. lia.
  - assert (i' <= n /\ (if is_inflight (ad_call a) then 1 else 0) + inflight = i' + (if is_inflight c then 1 else 0)) as [Hi' Hsum].
    { pose proof (admit_one_spec _ _ _ _ _ _ _ _ Hone) as (Hadm & Ei & Hle & _ & Hnq & _).
      pose proof (admitted_inflight _ _ _ _ Hadm) as Hin.
      unfold admit_one in Hone. destruct (inv_phase c) eqn:Ec; injection Hone as <- <- _;
        try specialize (Hlt eq_refl); unfold is_inflight in *; rewrite ?Ec in *; cbn in *; rewrite ?Ec in *;
        try destruct eu; cbn in *; rewrite ?Ec in *; try (split; lia);
        destruct (inv_phase (ad_call (admit_ready p prompter c))); split; try lia; by destruct (Hin eq_refl). }
    destruct Hl as [[_ E]|[_ E]]; rewrite E; cbn [map]; rewrite !inflight_cons.
    + specialize (IH i' true eu' Hi'). lia.
    + rewrite map_unchanged. lia.
Qed.

(** ** The invariant *)

(** The policy lets the call run with some prompter's answers. *)
Definition may_run (p : PermissionPolicy) (name input : string) : Prop :=
  exists context prompter, await (begin_authorization p name input context prompter) = OutcomeAllow.

Definition call_ok (p : PermissionPolicy) (c : Invocation) (ws : list Work) : Prop :=
  match inv_phase c with
  | Queued => ws = [] /\ inv_output c = None
  | Preparing => ws = [WPreHook] /\ inv_output c = None
  | Prepared => ws = [] /\ inv_output c = None /\ hook_refuses (inv_pre_hook c) = false
  | Authorizing => inv_output c = None /\ hook_refuses (inv_pre_hook c) = false
      /\ exists prompter, ws = [WAuthorize (begin_authorization p (inv_name c) (inv_input c)
                                              (hook_context (inv_pre_hook c)) prompter)]
  | Authorized => ws = [] /\ inv_output c = None /\ may_run p (inv_name c) (inv_input c)
  | Running => ws = [WExecute] /\ inv_output c = None
  | Finishing => ws = [WPostHook] /\ is_Some (inv_output c)
  | Complete => ws = []
  end.

(** The message answers the call. *)
Definition answers (m : ConversationMessage) (id : string) : Prop :=
  role m = RTool /\ exists name output is_error rest, blocks m = ToolResult id name output is_error :: rest.

Definition completes (i : nat) (u : ToolUpdate) : bool :=
  match u with Completed j _ _ _ _ => j =? i | Started _ _ _ => false end.
Definition completions (i : nat) (us : list ToolUpdate) : nat := length (List.filter (completes i) us).

Definition update_ok (p : PermissionPolicy) (ids : list string) (u : ToolUpdate) : Prop :=
  match u with
  | Started _ name input => may_run p name input
  | Completed i m _ _ _ => exists id, ids !! i = Some id /\ answers m id
  end.

Definition count (b : bool) : nat := if b then 1 else 0.

(** The calls and the undelivered updates, with the futures each call has. *)
Record sched_inv (p : PermissionPolicy) (n : nat) (ws : nat -> list Work) (l : list Invocation)
    (us : list ToolUpdate) : Prop := {
  inv_calls i c : l !! i = Some c -> call_ok p c (ws i);
  inv_class i c : l !! i = Some c -> inv_parallel c = is_concurrency_safe (inv_name c) (inv_input c);
  inv_pairs : pairwise in_order l;
  inv_limit : inflight_count l <= n;
  inv_answers i c : l !! i = Some c ->
    completions i us + count (bool_decide (is_Some (inv_result c))) = count (is_complete c);
  inv_updates : Forall (update_ok p (map inv_id l)) us;
  inv_results i c m : l !! i = Some c -> inv_result c = Some m -> answers m (inv_id c);
  inv_ids : NoDup (map inv_id l)
}.

Definition sched_ok (p : PermissionPolicy) (n : nat) (s : ToolScheduler) : Prop :=
  policy s = p /\ limit s = n
  /\ sched_inv p n (fun i => works i (active s)) (calls s) (updates s)
  /\ forall i w, (i, w) ∈ active s -> i < length (calls s).

Lemma lookup_ids l i c : l !! i = Some c -> map inv_id l !! i = Some (inv_id c).
Proof. intros H. change (map inv_id l) with (inv_id <$> l). by rewrite list_lookup_fmap, H. Qed.

Lemma map_insert_same {B} (f : Invocation -> B) l i c c' :
  l !! i = Some c -> f c' = f c -> map f (<[i := c']> l) = map f l.
Proof.
  revert i. induction l as [|x l IH]; intros [|i] Hi Hf; cbn in *; try done.
  - injection Hi as ->. by rewrite Hf.
  - f_equal. by apply IH.
Qed.

Lemma inflight_insert l i c c' :
  l !! i = Some c ->
  inflight_count (<[i := c']> l) + count (is_inflight c) = inflight_count l + count (is_inflight c').
Proof.
  revert i. induction l as [|x l IH]; intros [|i] Hi; [done|done| |].
  - injection Hi as ->. change (<[0:=c']> (c :: l)) with (c' :: l). rewrite !inflight_cons. unfold count. lia.
  - change (<[S i:=c']> (x :: l)) with (x :: <[i:=c']> l). rewrite !inflight_cons. specialize (IH i Hi).
    unfold count in *. lia.
Qed.

Lemma lookup_insert_cases {A} (l : list A) i (x : A) j d :
  i < length l -> <[i := x]> l !! j = Some d -> (j = i /\ d = x) \/ (j <> i /\ l !! j = Some d).
Proof.
  intros Hlt Hj. destruct (decide (j = i)) as [->|Hne].
  - rewrite list_lookup_insert_eq in Hj by done. injection Hj as <-. by left.
  - rewrite list_lookup_insert_ne in Hj by done. by right.
Qed.

(** One call moves on: everything the invariant says about the others stays. *)
Lemma sched_inv_call p n ws ws' l us i c c' :
  sched_inv p n ws l us -> l !! i = Some c -> further c c' ->
  inv_id c' = inv_id c -> inv_result c' = inv_result c -> is_complete c' = is_complete c ->
  is_inflight c = true ->
  inv_parallel c' = is_concurrency_safe (inv_name c') (inv_input c') ->
  (forall j, j <> i -> ws' j = ws j) -> call_ok p c' (ws' i) ->
  sched_inv p n ws' (<[i := c']> l) us.
Proof.
  intros [Hc Hcl Hp Hl Ha Hu Hr Hi] Hic Hf Eid Eres Ecomp Einf Ecl Hw Hok.
  pose proof (lookup_lt_Some _ _ _ Hic) as Hlt.
  split.
  - intros j d [[-> ->]|[Hne Hj]]%lookup_insert_cases; [done| |done]. rewrite Hw by done. by apply Hc.
  - intros j d [[-> ->]|[Hne Hj]]%lookup_insert_cases; [done|by apply (Hcl j)|done].
  - apply (pairwise_insert in_order _ _ _ _ Hic Hp); [by apply in_order_further|by apply in_order_further_r].
  - pose proof (inflight_insert l i c c' Hic) as E. rewrite Einf in E. cbn in E.
    destruct (is_inflight c'); cbn in E; lia.
  - intros j d [[-> ->]|[Hne Hj]]%lookup_insert_cases; [|by apply Ha|done]. rewrite Eres, Ecomp. by apply Ha.
  - by rewrite (map_insert_same inv_id _ _ _ _ Hic Eid).
  - intros j d m [[-> ->]|[Hne Hj]]%lookup_insert_cases; [|by apply (Hr j)|done].
    rewrite Eres, Eid. by apply (Hr i).
  - by rewrite (map_insert_same inv_id _ _ _ _ Hic Eid).
Qed.

(** ** Completion *)

Lemma into_message_answers o id name is_error origin :
  answers (with_origin origin id (into_message o id name is_error)) id.
Proof.
  unfold into_message, with_origin, answers.
  destruct is_error, origin; cbn; (split; [done|]); by eexists _, _, _, _.
Qed.

Lemma completions_app i us vs : completions i (us ++ vs) = completions i us + completions i vs.
Proof. unfold completions. by rewrite List.filter_app, length_app. Qed.

Lemma completions_one i j m d input a : completions i [Completed j m d input a] = count (j =? i).
Proof. unfold completions. cbn. by destruct (j =? i). Qed.

Definition clear (i : nat) (ws : nat -> list Work) : nat -> list Work :=
  fun j => if j =? i then [] else ws j.

Lemma inflight_incomplete c : is_inflight c = true -> is_complete c = false.
Proof. intros H. apply bool_decide_eq_false_2. intros E. unfold is_inflight in H. by rewrite E in H. Qed.

Definition completed (c : Invocation) : Invocation := drop_parent (set_phase Complete c).

Lemma sched_inv_complete p n ws l us i c c' m denial input action :
  sched_inv p n ws l us -> l !! i = Some c -> is_complete c = false ->
  inv_phase c' = Complete -> inv_id c' = inv_id c -> inv_result c' = inv_result c -> answers m (inv_id c) ->
  inv_parallel c' = is_concurrency_safe (inv_name c') (inv_input c') ->
  sched_inv p n (clear i ws) (<[i := c']> l) (us ++ [Completed i m denial input action]).
Proof.
  intros [Hc Hcl Hp Hl Ha Hu Hr Hi] Hic Hinc Hph Eid Eres Hm Ecl.
  pose proof (lookup_lt_Some _ _ _ Hic) as Hlt.
  assert (Hcomp : is_complete c' = true) by by apply bool_decide_eq_true_2.
  split.
  - intros j d [[-> ->]|[Hne Hj]]%lookup_insert_cases; [| |done]; unfold clear, call_ok.
    + by rewrite Hph, Nat.eqb_refl.
    + destruct (Nat.eqb_spec j i); [done|]. by apply Hc.
  - intros j d [[-> ->]|[Hne Hj]]%lookup_insert_cases; [done|by apply (Hcl j)|done].
  - apply (pairwise_insert in_order _ _ c); [done|done| |]; intros d [H1 H2]; (split; [|]).
    + unfold pending_call. by rewrite Hcomp.
    + by rewrite Hph.
    + unfold in_progress at 1. by rewrite Hph.
    + intros _. unfold is_inflight. by rewrite Hph.
  - pose proof (inflight_insert l i c c' Hic) as E. unfold is_inflight at 2 in E. rewrite Hph in E.
    cbn in E. lia.
  - intros j d [[-> ->]|[Hne Hj]]%lookup_insert_cases; [| |done]; rewrite completions_app, completions_one.
    + specialize (Ha i c Hic). rewrite Hinc in Ha. cbn [count] in Ha. rewrite Eres, Nat.eqb_refl, Hcomp. cbn [count]. lia.
    + specialize (Ha j d Hj). destruct (Nat.eqb_spec i j); [congruence|]. cbn [count]. lia.
  - rewrite (map_insert_same inv_id _ _ _ _ Hic Eid). apply Forall_app. split; [done|].
    apply Forall_singleton. exists (inv_id c). split; [by apply lookup_ids|done].
  - intros j d x [[-> ->]|[Hne Hj]]%lookup_insert_cases; [|by apply (Hr j)|done].
    rewrite Eid, Eres. by apply (Hr i).
  - by rewrite (map_insert_same inv_id _ _ _ _ Hic Eid).
Qed.

Lemma complete_eq s i c output is_error denial :
  calls s !! i = Some c ->
  exists s' m action, complete s i output is_error denial = Some s'
    /\ calls s' = <[i := completed c]> (calls s) /\ active s' = active s
    /\ updates s' = updates s ++ [Completed i m denial (inv_input c) action]
    /\ policy s' = policy s /\ limit s' = limit s /\ answers m (inv_id c).
Proof.
  intros Hc. unfold complete. rewrite Hc. cbn [mbind option_bind].
  eexists _, _, _. split; [reflexivity|]. split_and!; [done..|]. apply into_message_answers.
Qed.

(** ** The work that is left *)

Definition weight (c : Invocation) : nat :=
  match inv_phase c with
  | Queued | Preparing => 6
  | Prepared | Authorizing => 5
  | Authorized => 4
  | Running => 3
  | Finishing => 2
  | Complete => 0
  end.

Definition weights (l : list Invocation) : nat := sum_list_with weight l.

(** An upper bound of the stages that can still end and the updates still to deliver. *)
Definition work_left (s : ToolScheduler) : nat := weights (calls s) + length (updates s).

Lemma weights_insert l i c c' :
  l !! i = Some c -> weights (<[i := c']> l) + weight c = weights l + weight c'.
Proof.
  revert i. induction l as [|x l IH]; intros [|i] Hi; [done|done| |].
  - injection Hi as ->. unfold weights. cbn. lia.
  - change (<[S i:=c']> (x :: l)) with (x :: <[i:=c']> l). unfold weights in *. cbn. specialize (IH i Hi). lia.
Qed.

Lemma weights_admitted p prompter l : forall inflight n ep eu,
  let k := admit_loop p n prompter inflight ep eu l in
  weights (map ad_call k) + length (omap ad_update k) = weights l.
Proof.
  assert (Hone : forall c a, admitted p prompter c a ->
            weight (ad_call a) + length (option_list (ad_update a)) = weight c).
  { intros c a [->|[[Hq ->]| ->]]; unfold weight, admit_ready; cbn; [lia|rewrite Hq; cbn; lia|].
    destruct (inv_phase c) eqn:E; cbn; rewrite ?E; cbn; lia. }
  assert (Hall : forall k l, length k = length l ->
            (forall i a, k !! i = Some a -> exists c, l !! i = Some c /\ admitted p prompter c a) ->
            weights (map ad_call k) + length (omap ad_update k) = weights l).
  { intros k. induction k as [|a k IH]; intros [|c r] Hlen Hk; try done.
    destruct (Hk 0 a eq_refl) as (c' & [= <-] & Ha). specialize (Hone c a Ha).
    injection Hlen as Hlen. specialize (IH r Hlen (fun i => Hk (S i))). unfold weights in *. cbn in *.
    destruct (ad_update a); cbn in *; lia. }
  intros inflight n ep eu. apply Hall; [apply admit_loop_length|].
  intros i a Hi. destruct (admit_loop_lookup _ _ _ _ _ _ _ _ _ Hi) as (c & Hc & Ha & _). by exists c.
Qed.

(** ** The steps *)

Lemma enqueue_ok p n s id name input parent s' :
  sched_ok p n s -> enqueue is_concurrency_safe s id name input parent = Ok s' -> sched_ok p n s'.
Proof.
  intros (Hp & Hn & [Hc Hcl Hpr Hl Ha Hu Hr Hi] & Hact) He. unfold enqueue in He.
  destruct (existsb _ _) eqn:Ex; [done|]. injection He as <-.
  set (c := {| inv_id := id |}).
  assert (Hnew : forall i d, (calls s ++ [c]) !! i = Some d ->
            calls s !! i = Some d \/ (i = length (calls s) /\ d = c)).
  { intros i d [Hd|[Hge Hd]]%lookup_app_Some; [by left|right].
    apply list_lookup_singleton_Some in Hd as [Hd <-]. split; [lia|done]. }
  assert (Hnone : forall i, length (calls s) <= i -> works i (active s) = []).
  { intros i Hle. unfold works. rewrite filter_none; [done|]. intros [j w] Hj. cbn.
    apply Nat.eqb_neq. specialize (Hact j w Hj). lia. }
  split_and!; [done|done| |]; cbn [calls active updates set_calls].
  - split.
    + intros i d [Hd|[-> ->]]%Hnew; [by apply Hc|]. cbn. by rewrite Hnone.
    + intros i d [Hd|[-> ->]]%Hnew; [by apply (Hcl i)|done].
    + apply pairwise_snoc; [done|]. intros d _. by split.
    + unfold inflight_count in *. rewrite List.filter_app, length_app. cbn. lia.
    + intros i d [Hd|[-> ->]]%Hnew; [by apply Ha|]. cbn. rewrite Nat.add_0_r.
      unfold completions. rewrite filter_none; [done|]. intros u Hin.
      rewrite Forall_forall in Hu. specialize (Hu u Hin). destruct u as [|j m dn inp ac]; [done|].
      destruct Hu as (id' & Hid & _). apply lookup_lt_Some in Hid. rewrite length_map in Hid.
      cbn. apply Nat.eqb_neq. lia.
    + rewrite map_app. eapply Forall_impl; [exact Hu|]. intros [|i m dn inp ac]; [done|].
      intros (id' & Hid & Hm). exists id'. split; [by apply lookup_app_l_Some|done].
    + intros i d m [Hd|[-> ->]]%Hnew; [by apply (Hr i)|done].
    + rewrite map_app. apply NoDup_app. split_and!; [done| |apply NoDup_singleton].
      intros x Hx Hs. apply list_elem_of_singleton in Hs as ->. cbn in Hx.
      change (map inv_id (calls s)) with (inv_id <$> calls s) in Hx.
      apply list_elem_of_fmap in Hx as (d & -> & Hd).
      assert (existsb (fun c => String.eqb (inv_id c) (inv_id d)) (calls s) = true); [|congruence].
      apply existsb_exists. exists d. split; [by apply list_elem_of_In|apply String.eqb_refl].
  - intros i w Hw. rewrite length_app. specialize (Hact i w Hw). cbn. lia.
Qed.

Lemma admit_ok p n s prompter : sched_ok p n s -> sched_ok p n (admit_calls prompter s).
Proof.
  intros (Hp & Hn & [Hc Hcl Hpr Hl Ha Hu Hr Hi] & Hact). unfold admit_calls. rewrite Hp, Hn.
  set (k := admit_loop _ _ _ _ _ _ _).
  assert (Hk : forall i d, map ad_call k !! i = Some d -> exists a c, k !! i = Some a /\ d = ad_call a
            /\ calls s !! i = Some c /\ admitted p prompter c a).
  { intros i d (a & Hia & ->)%lookup_calls.
    destruct (admit_loop_lookup _ _ _ _ _ _ _ _ _ Hia) as (c & Hic & Hadm & _). by eexists _, _. }
  assert (Hlen : length k = length (calls s)) by apply admit_loop_length.
  assert (Hids : map inv_id (map ad_call k) = map inv_id (calls s)).
  { change (inv_id <$> (ad_call <$> k) = inv_id <$> calls s). apply list_eq. intros i.
    rewrite !list_lookup_fmap. destruct (k !! i) as [a|] eqn:E.
    - destruct (admit_loop_lookup _ _ _ _ _ _ _ _ _ E) as (c & -> & Hadm & _). cbn. f_equal.
      by apply (admitted_kept _ _ _ _ Hadm).
    - apply lookup_ge_None in E. symmetry. rewrite (proj2 (lookup_ge_None (calls s) i)); [done|lia]. }
  assert (Hups : forall u, u ∈ omap ad_update k -> exists c, u = Started (inv_id c) (inv_name c) (inv_input c)
            /\ may_run p (inv_name c) (inv_input c)).
  { intros u Hin. apply list_elem_of_omap in Hin as (b & Hb' & Hub). apply list_elem_of_lookup in Hb' as [j Hj].
    destruct (admit_loop_lookup _ _ _ _ _ _ _ _ _ Hj) as (d & Hd & Hadm' & _).
    destruct Hadm' as [->|[[_ ->]| ->]]; try done. unfold admit_ready in Hub.
    destruct (inv_phase d) eqn:E; try done. injection Hub as <-. exists d. split; [done|].
    specialize (Hc j d Hd). unfold call_ok in Hc. rewrite E in Hc. apply Hc. }
  split_and!; [done|done| |]; cbn [calls active updates].
  - split.
    + intros i d (a & c & Hia & -> & Hic & Hadm)%Hk. specialize (Hc i c Hic). cbn beta.
      rewrite works_app. pose proof (works_new i k 0) as Ew. cbn [Nat.add] in Ew. rewrite Ew, Hia.
      destruct Hadm as [->|[[Hq ->]| ->]]; cbn [ad_work ad_call unchanged option_list];
        [by rewrite app_nil_r| |]; unfold call_ok in Hc |- *.
      * rewrite Hq in Hc. cbn. by destruct Hc as [-> ->].
      * unfold admit_ready. destruct (inv_phase c) eqn:E; cbn; rewrite ?E, ?app_nil_r; try done.
        -- destruct Hc as (-> & Ho & Hd). split_and!; [done|done|]. by eexists.
        -- by destruct Hc as (-> & Ho & _).
    + intros i d (a & c & Hia & -> & Hic & Hadm)%Hk. specialize (Hcl i c Hic).
      destruct Hadm as [->|[[_ ->]| ->]]; [done|done|]. unfold admit_ready. by destruct (inv_phase c).
    + by apply admit_loop_in_order.
    + pose proof (admit_loop_limit p n prompter (calls s) (inflight_count (calls s)) false false Hl). fold k in H. lia.
    + intros i d (a & c & Hia & -> & Hic & Hadm)%Hk.
      destruct (admitted_kept _ _ _ _ Hadm) as (_ & _ & Epend & _ & -> & _).
      assert (is_complete (ad_call a) = is_complete c) as ->.
      { unfold pending_call in Epend. by destruct (is_complete (ad_call a)), (is_complete c). }
      rewrite completions_app, <- (Ha i c Hic).
      assert (completions i (omap ad_update k) = 0) as ->; [|lia].
      unfold completions. rewrite filter_none; [done|]. intros u (d & -> & _)%Hups. done.
    + rewrite Hids. apply Forall_app. split; [done|]. apply Forall_forall. by intros u (d & -> & Hd)%Hups.
    + intros i d m (a & c & Hia & -> & Hic & Hadm)%Hk.
      destruct (admitted_kept _ _ _ _ Hadm) as (-> & _ & _ & _ & -> & _). by apply (Hr i).
    + by rewrite Hids.
  - intros i w Hw. rewrite length_map, Hlen. apply elem_of_app in Hw as [Hw|Hw]; [by eapply Hact|].
    apply works_in in Hw. pose proof (works_new i k 0) as Ew. cbn [Nat.add] in Ew. rewrite Ew in Hw.
    destruct (k !! i) as [a|] eqn:E; [|done]. apply lookup_lt_Some in E. lia.
Qed.

Lemma set_call_same s i c : calls s !! i = Some c -> set_call i c s = s.
Proof. intros H. unfold set_call, set_calls. rewrite list_insert_id by done. by destruct s. Qed.

(** A stage that ends belongs to a call that waits for it. *)
Lemma stage_call p n s k i w :
  sched_ok p n s -> active s !! k = Some (i, w) ->
  exists c, calls s !! i = Some c /\ is_inflight c = true /\ works i (active s) = [w]
    /\ call_ok p c [w]
    /\ works i (delete k (active s)) = []
    /\ (forall j, j <> i -> works j (delete k (active s)) = works j (active s))
    /\ (forall j v, (j, v) ∈ delete k (active s) -> j < length (calls s)).
Proof.
  intros (_ & _ & [Hc _ _ _ _ _ _ _] & Hact) Hk.
  assert ((i, w) ∈ active s) as Hin by by eapply list_elem_of_lookup_2.
  destruct (lookup_lt_is_Some_2 (calls s) i (Hact i w Hin)) as [c Hic].
  specialize (Hc i c Hic). cbn beta in Hc. pose proof (works_in i w (active s) Hin) as Hne.
  assert (exists v, works i (active s) = [v] /\ is_inflight c = true) as (v & Hv & Hinf).
  { unfold call_ok, is_inflight in *. destruct (inv_phase c); naive_solver. }
  destruct (works_delete_same i (active s) k w v Hk Hv) as [<- Hdel]. rewrite Hv in Hc.
  exists c. split_and!; try done.
  - intros j Hj. by eapply works_delete_other.
  - intros j v Hj. apply (Hact j v). eapply elem_of_submseteq; [exact Hj|].
    apply sublist_submseteq, sublist_delete.
Qed.

Lemma advance_ok p n s k i w stage aborted :
  sched_ok p n s -> active s !! k = Some (i, w) -> stage_of w stage ->
  exists s', advance is_concurrency_safe aborted (set_active (delete k (active s)) s) i stage = Some s'
    /\ sched_ok p n s' /\ work_left s' < work_left s.
Proof.
  intros Hok Hk Hst. destruct (stage_call p n s k i w Hok Hk) as (c & Hic & Hinf & Hw & Hc & Hdel & Hoth & Hact).
  destruct Hok as (Hp & Hn & Hinv & _). pose proof (lookup_lt_Some _ _ _ Hic) as Hlt.
  pose proof (inflight_incomplete c Hinf) as Hinc. pose proof (inv_class _ _ _ _ _ Hinv i c Hic) as Hcl.
  set (s1 := set_active (delete k (active s)) s).
  (* a call that ends, from a state that differs only in this call *)
  assert (Hend : forall c1 output is_error denial, inv_id c1 = inv_id c -> inv_result c1 = inv_result c ->
    inv_parallel c1 = is_concurrency_safe (inv_name c1) (inv_input c1) ->
    exists s', complete (set_call i c1 s1) i output is_error denial = Some s'
      /\ sched_ok p n s' /\ work_left s' < work_left s).
  { intros c1 output is_error denial Eid Eres Ecl.
    destruct (complete_eq (set_call i c1 s1) i c1 output is_error denial) as (s' & m & action & E & Ec & Ea & Eu & Ep & El & Hm);
      [by apply list_lookup_insert_eq|].
    exists s'. split; [done|]. cbn [calls updates active policy limit set_call set_calls set_active s1] in *.
    rewrite list_insert_insert_eq in Ec. split.
    - split_and!; [congruence|congruence| |].
      + rewrite Ec, Eu, Ea. rewrite Eid in Hm.
        pose proof (sched_inv_complete p n _ _ _ i c (completed c1) m denial (inv_input c1) action
          Hinv Hic Hinc eq_refl Eid Eres Hm Ecl) as [H1 H0 H2 H3 H4 H5 H6 H7].
        split; try done. intros j d Hd. specialize (H1 j d Hd). unfold clear in H1.
        destruct (Nat.eqb_spec j i) as [->|Hne]; [by rewrite Hdel|by rewrite Hoth].
      + rewrite Ea, Ec. setoid_rewrite length_insert. exact Hact.
    - unfold work_left. rewrite Ec, Eu, length_app. cbn [length].
      pose proof (weights_insert (calls s) i c (completed c1) Hic) as Ew.
      assert (weight (completed c1) = 0 /\ 2 <= weight c) as [Ez Eg].
      { split; [done|]. unfold weight, is_inflight in *. destruct (inv_phase c); lia || done. }
      lia. }
  (* a call that moves on *)
  assert (Hmove : forall c1 new, inv_id c1 = inv_id c -> inv_result c1 = inv_result c -> further c c1 ->
    is_complete c1 = false -> weight c1 < weight c ->
    inv_parallel c1 = is_concurrency_safe (inv_name c1) (inv_input c1) -> call_ok p c1 (works i (map (pair i) new)) ->
    let s' := set_active (delete k (active s) ++ map (pair i) new) (set_call i c1 s1) in
    sched_ok p n s' /\ work_left s' < work_left s).
  { intros c1 new Eid Eres Hf Hc1 Hwt Hcl1 Hok1. cbn zeta. split.
    - split_and!; [done|done| |]; cbn [calls updates active set_call set_calls set_active s1].
      + apply (sched_inv_call p n (fun j => works j (active s)) _ _ _ i c c1); try done; [congruence| |];
          [|by rewrite works_app, Hdel].
        intros j Hj. rewrite works_app, Hoth by done.
        assert (works j (map (pair i) new) = []) as ->; [|by rewrite app_nil_r].
        unfold works. rewrite filter_none; [done|]. intros [j' v] Hin.
        change (map (pair i) new) with (pair i <$> new) in Hin. apply list_elem_of_fmap in Hin as (v' & [= -> ->] & _).
        cbn. apply Nat.eqb_neq. congruence.
      + intros j v Hj. rewrite length_insert. apply elem_of_app in Hj as [Hj|Hj]; [by eapply Hact|].
        change (map (pair i) new) with (pair i <$> new) in Hj. by apply list_elem_of_fmap in Hj as (v' & [= -> ->] & _).
    - unfold work_left. cbn [calls updates set_call set_calls set_active s1].
      pose proof (weights_insert (calls s) i c c1 Hic). lia. }
  unfold advance. change (calls s1 !! i) with (calls s !! i). rewrite Hic. cbn [mbind option_bind].
  destruct w as [|reply| |], stage as [hook|outcome|answer|hook]; try done; cbn [stage_of] in Hst.
  - assert (inv_phase c = Preparing /\ inv_output c = None) as [Hph Hout].
    { unfold call_ok in Hc. destruct (inv_phase c); naive_solver. }
    destruct (hook_refuses hook) eqn:Eh; [by apply Hend; auto|].
    eexists. split; [reflexivity|].
    match goal with |- sched_ok _ _ (set_call _ ?c1 _) /\ _ => pose proof (Hmove c1 []) as H end.
    cbn [map] in H. rewrite app_nil_r in H. apply H; try done.
    + split_and!; try done; [|unfold in_progress, unclassified; cbn; by rewrite Hph..].
      intros _. unfold pending_call. by rewrite Hinc.
    + unfold weight. cbn. rewrite Hph. lia.
  - assert (inv_phase c = Authorizing /\ inv_output c = None /\ hook_refuses (inv_pre_hook c) = false
      /\ exists prompter, reply = begin_authorization p (inv_name c) (inv_input c) (hook_context (inv_pre_hook c)) prompter)
      as (Hph & Hout & Hh & prompter & ->).
    { unfold call_ok in Hc. destruct (inv_phase c); naive_solver. }
    destruct outcome as [|reason].
    2: { rewrite <- (set_call_same s1 i c Hic). by apply Hend; auto. }
    eexists. split; [reflexivity|].
    match goal with |- sched_ok _ _ (set_call _ ?c1 _) /\ _ => pose proof (Hmove c1 []) as H end.
    cbn [map] in H. rewrite app_nil_r in H. apply H; try done.
    + split_and!; try done; [|unfold in_progress, unclassified; cbn; by rewrite Hph..].
      intros _. unfold pending_call. by rewrite Hinc.
    + unfold weight. cbn. rewrite Hph. lia.
    + cbn. split_and!; [done|done|]. by exists (hook_context (inv_pre_hook c)), prompter.
  - assert (inv_phase c = Running /\ inv_output c = None) as [Hph Hout].
    { unfold call_ok in Hc. destruct (inv_phase c); naive_solver. }
    destruct (match answer with Ok output => _ | Err error => _ end) as [output is_error].
    eexists. split; [reflexivity|].
    match goal with |- sched_ok _ _ (set_active _ (set_call _ ?c1 _)) /\ _ => apply (Hmove c1 [WPostHook]) end; try done.
    + split_and!; try done; [|unfold in_progress, unclassified; cbn; by rewrite Hph..].
      intros _. unfold pending_call. by rewrite Hinc.
    + unfold weight. cbn. rewrite Hph. lia.
    + cbn. rewrite Nat.eqb_refl. cbn. by split.
  - assert (inv_phase c = Finishing /\ is_Some (inv_output c)) as [Hph [output Hout]].
    { unfold call_ok in Hc. destruct (inv_phase c); naive_solver. }
    rewrite Hout. cbn [mbind option_bind]. apply Hend; auto.
Qed.

Lemma settle_answers action m id : answers m id -> answers (settle_message offload action m) id.
Proof.
  intros [Hr (name & output & is_error & rest & Hb)]. split; [done|]. cbn. rewrite Hb. cbn.
  destruct action; by eexists _, _, _, _.
Qed.

Lemma deliver_ok p n s u s1 :
  sched_ok p n s -> take_update s = Some (u, s1) ->
  exists s2, observe_tool_update offload s1 u = Some s2 /\ sched_ok p n s2
    /\ S (work_left s2) = work_left s /\ map inv_id (calls s2) = map inv_id (calls s).
Proof.
  unfold take_update. intros (Hp & Hn & Hinv & Hact) Hu.
  destruct (updates s) as [|u' us] eqn:Eus; [done|]. injection Hu as -> <-.
  destruct Hinv as [H1 H0 H2 H3 H4 H5 H6 H7]. apply Forall_cons in H5 as [Hu5 H5].
  destruct u as [id name input|i m denial input action]; cbn [observe_tool_update].
  - eexists. split; [reflexivity|]. unfold work_left, sched_ok. rewrite Eus. cbn. by split_and!.
  - destruct Hu5 as (id & Hid & Hm). change (map inv_id (calls s)) with (inv_id <$> calls s) in Hid.
    rewrite list_lookup_fmap in Hid. destruct (calls s !! i) as [c|] eqn:Hic; [|done]. injection Hid as <-.
    pose proof (lookup_lt_Some _ _ _ Hic) as Hlt.
    unfold store_result. cbn [calls set_updates]. rewrite Hic. cbn [mbind option_bind].
    eexists. split; [reflexivity|]. cbn [calls set_call set_calls set_updates].
    set (c' := set_result _ c).
    assert (Hcount : completions i us = 0 /\ inv_result c = None /\ is_complete c = true).
    { specialize (H4 i c Hic). change (Completed i m denial input action :: us) with
        ([Completed i m denial input action] ++ us) in H4. rewrite completions_app, completions_one, Nat.eqb_refl in H4.
      destruct (inv_result c); [rewrite bool_decide_eq_true_2 in H4 by done|rewrite bool_decide_eq_false_2 in H4 by (by intros [])];
        destruct (is_complete c); cbn [count] in H4; split_and!; done || lia. }
    destruct Hcount as (Hz & Hnone & Hcomp). split_and!.
    + split_and!; [done|done| |]; cbn [calls active updates policy limit set_call set_calls set_updates];
        [|by setoid_rewrite length_insert]. split.
      * intros j d [[-> ->]|[_ Hj]]%lookup_insert_cases; [exact (H1 i c Hic)|by apply H1|done].
      * intros j d [[-> ->]|[_ Hj]]%lookup_insert_cases; [exact (H0 i c Hic)|by apply (H0 j)|done].
      * by apply (pairwise_insert in_order _ _ c).
      * pose proof (inflight_insert (calls s) i c c' Hic) as E. change (is_inflight c') with (is_inflight c) in E. lia.
      * intros j d [[-> ->]|[Hne Hj]]%lookup_insert_cases; [| |done].
        -- rewrite Hz, bool_decide_eq_true_2 by (by eexists). change (is_complete c') with (is_complete c).
           by rewrite Hcomp.
        -- specialize (H4 j d Hj). change (Completed i m denial input action :: us) with
             ([Completed i m denial input action] ++ us) in H4. rewrite completions_app, completions_one in H4.
           destruct (Nat.eqb_spec i j); [congruence|]. done.
      * by rewrite (map_insert_same inv_id _ _ c).
      * intros j d x [[-> ->]|[Hne Hj]]%lookup_insert_cases; [|by apply (H6 j)|done].
        intros [= <-]. by apply settle_answers.
      * by rewrite (map_insert_same inv_id _ _ c).
    + unfold work_left. rewrite Eus. cbn [calls updates set_call set_calls set_updates length].
      pose proof (weights_insert (calls s) i c c' Hic) as E. change (weight c') with (weight c) in E. lia.
    + by rewrite (map_insert_same inv_id _ _ c).
Qed.

(** Cancelling answers the calls one after the other; the futures are gone. *)
Lemma cancel_calls p n todo : forall done_ s ws,
  policy s = p -> limit s = n -> active s = [] -> sched_inv p n ws (calls s) (updates s) ->
  done_ + todo = length (calls s) ->
  (forall i c, i < done_ -> calls s !! i = Some c -> is_complete c = true) ->
  exists s' ws', foldl (fun o index => s ← o; cancel_call interrupted_bash s index) (Some s) (seq done_ todo) = Some s'
    /\ policy s' = p /\ limit s' = n /\ active s' = [] /\ sched_inv p n ws' (calls s') (updates s')
    /\ map inv_id (calls s') = map inv_id (calls s)
    /\ (forall i c, calls s' !! i = Some c -> is_complete c = true).
Proof.
  induction todo as [|todo IH]; intros done_ s ws Hp Hn Ha Hinv Hlen Hdone.
  - exists s, ws. split_and!; try done. intros i c Hic. apply (Hdone i); [|done].
    apply lookup_lt_Some in Hic. lia.
  - cbn [seq foldl mbind option_bind].
    destruct (lookup_lt_is_Some_2 (calls s) done_) as [c Hic]; [lia|].
    assert (exists s1 ws1, cancel_call interrupted_bash s done_ = Some s1 /\ policy s1 = p /\ limit s1 = n
      /\ active s1 = [] /\ sched_inv p n ws1 (calls s1) (updates s1) /\ map inv_id (calls s1) = map inv_id (calls s)
      /\ length (calls s1) = length (calls s)
      /\ (forall i c, i < S done_ -> calls s1 !! i = Some c -> is_complete c = true))
      as (s1 & ws1 & E1 & Hp1 & Hn1 & Ha1 & Hinv1 & Hids1 & Hlen1 & Hdone1).
    { unfold cancel_call. rewrite Hic. cbn [mbind option_bind]. destruct (is_complete c) eqn:Ec.
      - exists s, ws. split_and!; try done. intros i d Hi Hd. destruct (decide (i = done_)) as [->|]; [congruence|].
        apply (Hdone i); [lia|done].
      - set (c1 := take_output c).
        match goal with |- context[complete _ _ ?o true None] => set (out := o) end.
        destruct (complete_eq (set_call done_ c1 s) done_ c1 out true None)
          as (s1 & m & action & E & Ec1 & Ea1 & Eu1 & Ep1 & El1 & Hm);
          [apply list_lookup_insert_eq; by eapply lookup_lt_Some|].
        cbn [calls active updates policy limit set_call set_calls] in *. rewrite list_insert_insert_eq in Ec1.
        exists s1, (clear done_ ws). split_and!; try congruence.
        + rewrite Ec1, Eu1. apply (sched_inv_complete p n ws _ _ done_ c (completed c1)); try done.
          exact (inv_class _ _ _ _ _ Hinv done_ c Hic).
        + rewrite Ec1. by apply (map_insert_same inv_id _ _ c).
        + by rewrite Ec1, length_insert.
        + rewrite Ec1. intros i d Hi [[-> ->]|[Hne Hd]]%lookup_insert_cases; [done|apply (Hdone i); [lia|done]|].
          by eapply lookup_lt_Some. }
    rewrite E1. destruct (IH (S done_) s1 ws1 Hp1 Hn1 Ha1 Hinv1) as (s' & ws' & E' & H); [lia|done|].
    exists s', ws'. split; [exact E'|]. by rewrite Hids1 in H.
Qed.

Lemma scheduler_cancel_ok p n s :
  sched_ok p n s ->
  exists s', cancel interrupted_bash s = Some s' /\ sched_ok p n s' /\ active s' = []
    /\ map inv_id (calls s') = map inv_id (calls s)
    /\ (forall i c, calls s' !! i = Some c -> is_complete c = true).
Proof.
  intros (Hp & Hn & Hinv & _).
  destruct (cancel_calls p n (length (calls s)) 0 (set_active [] s) _ Hp Hn eq_refl Hinv eq_refl)
    as (s' & ws' & E & Hp' & Hn' & Ha' & Hinv' & Hids & Hall); [lia|].
  exists s'. split_and!; [exact E| |done|done|done]. split_and!; [done|done| |].
  - destruct Hinv' as [H1 H0 H2 H3 H4 H5 H6 H7]. split; try done.
    intros i c Hic. specialize (H1 i c Hic). specialize (Hall i c Hic). rewrite Ha'.
    apply bool_decide_eq_true in Hall. unfold call_ok in *. by rewrite Hall.
  - intros i w Hin. rewrite Ha' in Hin. by apply elem_of_nil in Hin.
Qed.

Lemma new_ok p n : sched_ok p n (scheduler_new p n).
Proof.
  split_and!; [done|done| |by intros i w ?%elem_of_nil]. split; cbn.
  - intros i c Hi. by rewrite lookup_nil in Hi.
  - intros i c Hi. by rewrite lookup_nil in Hi.
  - apply pairwise_nil.
  - unfold inflight_count. cbn. lia.
  - intros i c Hi. by rewrite lookup_nil in Hi.
  - done.
  - intros i c m Hi. by rewrite lookup_nil in Hi.
  - constructor.
Qed.

Lemma sched_step_ok p n s us s' :
  sched_ok p n s -> sched_step is_concurrency_safe interrupted_bash offload s us s' -> sched_ok p n s'.
Proof.
  intros Hok [id name input parent s1 He|prompter|aborted k i w stage s1 Hk Hst Ha|u s1 s2 Ht Ho|s1 Hc].
  - by eapply enqueue_ok.
  - by apply admit_ok.
  - destruct (advance_ok p n s k i w stage aborted Hok Hk Hst) as (s2 & E & H & _). congruence.
  - destruct (deliver_ok p n s u s1 Hok Ht) as (s3 & E & H & _). congruence.
  - destruct (scheduler_cancel_ok p n s Hok) as (s2 & E & H & _). congruence.
Qed.

Lemma sched_run_ok p n trace s :
  sched_run is_concurrency_safe interrupted_bash offload p n trace s -> sched_ok p n s.
Proof. induction 1; [apply new_ok|by eapply sched_step_ok]. Qed.

(** ** Progress *)

Definition has_work (c : Invocation) : bool :=
  match inv_phase c with Preparing | Authorizing | Running | Finishing => true | _ => false end.

Lemma inflight_none l : inflight_count l = 0 \/ exists d, d ∈ l /\ is_inflight d = true.
Proof.
  induction l as [|c l IH]; [by left|]. rewrite inflight_cons.
  destruct (is_inflight c) eqn:E; [right; exists c; split; [left|done]|].
  destruct IH as [->|(d & Hd & Hi)]; [by left|right; exists d; split; [by right|done]].
Qed.

Lemma admit_loop_progress p prompter n l : forall m,
  0 < n -> pairwise in_order l -> (exists c, c ∈ l /\ is_complete c = false) ->
  (exists c, c ∈ l /\ has_work c = true)
  \/ new_work m (admit_loop p n prompter (inflight_count l) false false l) <> [].
Proof.
  induction l as [|c r IH]; intros m Hn Hp (d & Hd & Hinc); [by apply elem_of_nil in Hd|].
  apply pairwise_cons in Hp as [Hc Hr].
  destruct (is_complete c) eqn:Ec.
  - apply elem_of_cons in Hd as [->|Hd]; [congruence|].
    assert (is_inflight c = false) as Ei.
    { apply bool_decide_eq_true in Ec. unfold is_inflight. by rewrite Ec. }
    destruct (IH (S m) Hn Hr) as [(x & Hx & Hw)|H]; [by exists d|left; exists x; split; [by right|done]|right].
    cbn [admit_loop]. rewrite Ec. cbn [new_work unchanged ad_work]. by rewrite inflight_cons, Ei.
  - destruct (has_work c) eqn:Ew; [left; exists c; split; [left|done]|]. right.
    cbn [admit_loop]. rewrite Ec, andb_false_r.
    assert (bool_decide (inv_phase c = Queued) && (n <=? inflight_count (c :: r)) = false) as ->.
    { case_bool_decide as Eq; [|done]. apply Nat.leb_gt. rewrite inflight_cons.
      assert (is_inflight c = false) as -> by (unfold is_inflight; by rewrite Eq).
      destruct (inflight_none r) as [->|(x & Hx & Hix)]; [lia|].
      apply list_elem_of_lookup in Hx as [j Hj]. destruct (Hc j x Hj) as [_ Hq].
      rewrite (Hq Eq) in Hix. done. }
    unfold is_complete in Ec. apply bool_decide_eq_false in Ec.
    unfold admit_one, admit_ready, has_work in *.
    destruct (inv_phase c); try done; destruct (inv_parallel c); cbn; done.
Qed.

Lemma unfinished_exists l : forallb is_complete l = false -> exists c, c ∈ l /\ is_complete c = false.
Proof.
  induction l as [|c l IH]; cbn; [done|]. destruct (is_complete c) eqn:E; cbn; intros H.
  - destruct (IH H) as (d & Hd & Hi). exists d. split; [by right|done].
  - exists c. split; [left|done].
Qed.

(** While calls are unfinished there is an update to deliver or a stage that can end. *)
Lemma admit_progress p n s prompter :
  sched_ok p n s -> 0 < n -> is_finished s = false ->
  updates (admit_calls prompter s) <> [] \/ active (admit_calls prompter s) <> [].
Proof.
  intros (Hp & Hn & [Hc _ Hpr _ _ _ _ _] & _) Hpos Hf. unfold admit_calls. rewrite Hp, Hn. cbn [updates active].
  unfold is_finished in Hf. apply andb_false_iff in Hf as [Hf|Hf].
  2: { left. destruct (updates s); [done|]. by destruct (omap _ _). }
  assert (exists c, c ∈ calls s /\ is_complete c = false) as Hex by by apply unfinished_exists.
  right. destruct (admit_loop_progress p prompter n (calls s) 0 Hpos Hpr Hex) as [(c & Hin & Hw)|Hnew].
  - apply list_elem_of_lookup in Hin as [i Hi]. specialize (Hc i c Hi). cbn beta in Hc.
    assert (active s <> []) as Ha.
    { intros Hz. unfold call_ok, has_work in *. rewrite Hz in Hc.
      change (works i []) with (@nil Work) in Hc.
      destruct (inv_phase c); try done; destruct Hc as [Hc Hc']; try done. by destruct Hc' as (_ & ? & [=]). }
    by destruct (active s).
  - by destruct (active s), (new_work _ _).
Qed.

Lemma work_left_admit p n s prompter : sched_ok p n s -> work_left (admit_calls prompter s) = work_left s.
Proof.
  intros (Hp & Hn & _). unfold work_left, admit_calls. cbn [calls updates]. rewrite length_app.
  pose proof (weights_admitted (policy s) prompter (calls s) (inflight_count (calls s)) (limit s) false false) as H.
  cbn zeta in H. lia.
Qed.

Lemma admit_ids p n s prompter : sched_ok p n s -> map inv_id (calls (admit_calls prompter s)) = map inv_id (calls s).
Proof.
  intros _. unfold admit_calls. cbn [calls]. change (inv_id <$> (ad_call <$> admit_loop (policy s) (limit s) prompter
    (inflight_count (calls s)) false false (calls s)) = inv_id <$> calls s). apply list_eq. intros i.
  rewrite !list_lookup_fmap. destruct (admit_loop _ _ _ _ _ _ _ !! i) as [a|] eqn:E.
  - destruct (admit_loop_lookup _ _ _ _ _ _ _ _ _ E) as (c & -> & Hadm & _). cbn. f_equal.
    by apply (admitted_kept _ _ _ _ Hadm).
  - apply lookup_ge_None in E. rewrite admit_loop_length in E. symmetry.
    by rewrite (proj2 (lookup_ge_None (calls s) i)).
Qed.

Lemma poll_ok p n s prompter choose answer :
  sched_ok p n s -> 0 < n -> is_finished s = false -> (forall i w, stage_of w (answer (i, w))) ->
  exists s', poll is_concurrency_safe offload prompter choose answer s = Some s'
    /\ sched_ok p n s' /\ work_left s' < work_left s.
Proof.
  intros Hok Hpos Hf Hans. pose proof (admit_ok p n s prompter Hok) as Hok1.
  pose proof (admit_progress p n s prompter Hok Hpos Hf) as Hprog.
  rewrite <- (work_left_admit p n s prompter Hok). unfold poll. set (s1 := admit_calls prompter s) in *.
  destruct (take_update s1) as [[u s2]|] eqn:Eu.
  - destruct (deliver_ok p n s1 u s2 Hok1 Eu) as (s3 & E & H1 & H2 & _). exists s3. split_and!; [done|done|lia].
  - unfold take_update in Eu. destruct (updates s1) as [|]; [|done]. destruct Hprog as [|Hact]; [done|].
    assert (choose (active s1) mod length (active s1) < length (active s1)) as Hk.
    { apply Nat.mod_upper_bound. by destruct (active s1). }
    destruct (lookup_lt_is_Some_2 (active s1) _ Hk) as [[i w] Hiw]. rewrite Hiw.
    by apply (advance_ok p n s1 _ i w).
Qed.

Lemma drive_ok p n prompter choose answer fuel : forall s,
  sched_ok p n s -> 0 < n -> (forall i w, stage_of w (answer (i, w))) -> work_left s <= fuel ->
  exists s', drive is_concurrency_safe offload fuel prompter choose answer s = Some s'
    /\ sched_ok p n s' /\ is_finished s' = true.
Proof.
  induction fuel as [|fuel IH]; intros s Hok Hpos Hans Hw; cbn [drive]; destruct (is_finished s) eqn:Ef;
    try (by exists s).
  - destruct (poll_ok p n s prompter choose answer Hok Hpos Ef Hans) as (s' & _ & _ & H). lia.
  - destruct (poll_ok p n s prompter choose answer Hok Hpos Ef Hans) as (s' & -> & Hok' & H).
    cbn [mbind option_bind]. apply IH; [done|done|done|lia].
Qed.

(** ** Results *)

Lemma finished_results p n s :
  sched_ok p n s -> is_finished s = true ->
  exists results, into_results s = Some results /\ Forall2 answers results (map inv_id (calls s)).
Proof.
  intros (_ & _ & [_ _ _ _ Ha _ Hr _] & _) Hf. unfold is_finished in Hf.
  apply andb_true_iff in Hf as [Hall Hu]. destruct (updates s) as [|]; [|done].
  unfold into_results. revert Ha Hr Hall. generalize (calls s) as l. intros l.
  induction l as [|c l IH]; intros Ha Hr Hall; [exists []; by split|].
  cbn in Hall. apply andb_true_iff in Hall as [Hc Hall].
  destruct (IH (fun i => Ha (S i)) (fun i => Hr (S i)) Hall) as (results & E & HF).
  specialize (Ha 0 c eq_refl). rewrite Hc in Ha. cbn in Ha.
  destruct (inv_result c) as [m|] eqn:Em; [|by rewrite bool_decide_eq_false_2 in Ha by (by intros [])].
  exists (m :: results). cbn [mapM]. rewrite Em. cbn [mbind option_bind]. rewrite E. cbn. split; [done|].
  constructor; [by apply (Hr 0)|done].
Qed.

Lemma forallb_complete (l : list Invocation) :
  (forall i c, l !! i = Some c -> is_complete c = true) -> forallb is_complete l = true.
Proof.
  induction l as [|c l IH]; intros H; [done|]. cbn. rewrite (H 0 c eq_refl). apply IH.
  intros i d Hi. by apply (H (S i)).
Qed.

(** Delivering stores results: no call changes its phase. *)
Lemma deliver_phases s u s1 s2 :
  take_update s = Some (u, s1) -> observe_tool_update offload s1 u = Some s2 ->
  map inv_phase (calls s2) = map inv_phase (calls s)
  /\ length (updates s) = S (length (updates s2)).
Proof.
  unfold take_update. destruct (updates s) as [|v vs]; [done|]. intros [= -> <-].
  destruct u as [|i m d inp ac]; cbn [observe_tool_update]; [by intros [= <-]|].
  unfold store_result. destruct (calls (set_updates vs s) !! i) as [c|] eqn:Ei; [|done].
  cbn [mbind option_bind]. intros [= <-]. split; [|done]. by apply (map_insert_same inv_phase _ _ c).
Qed.

Lemma drain_ok p n fuel : forall s,
  sched_ok p n s -> length (updates s) <= fuel ->
  exists s', drain offload fuel s = Some s' /\ sched_ok p n s' /\ updates s' = []
    /\ map inv_id (calls s') = map inv_id (calls s)
    /\ map inv_phase (calls s') = map inv_phase (calls s).
Proof.
  induction fuel as [|fuel IH]; intros s Hok Hlen; cbn [drain].
  - exists s. split_and!; try done. destruct (updates s); [done|cbn in Hlen; lia].
  - destruct (take_update s) as [[u s1]|] eqn:Eu.
    + destruct (deliver_ok p n s u s1 Hok Eu) as (s2 & E & Hok2 & _ & Hids). rewrite E. cbn [mbind option_bind].
      destruct (deliver_phases s u s1 s2 Eu E) as [Hph Hlen2].
      destruct (IH s2 Hok2) as (s' & E' & H1 & H2 & H3 & H4); [lia|]. exists s'. by rewrite <- Hids, <- Hph.
    + exists s. split_and!; try done. unfold take_update in Eu. by destruct (updates s).
Qed.

Lemma complete_phases l : forallb is_complete l = true <-> Forall (eq Complete) (map inv_phase l).
Proof.
  induction l as [|c l IH]; cbn; [by split|]. rewrite andb_true_iff, Forall_cons, <- IH.
  unfold is_complete. rewrite bool_decide_eq_true. by split; intros [-> ?].
Qed.

Lemma cancel_and_drain p n s :
  sched_ok p n s ->
  exists s1 s2, cancel interrupted_bash s = Some s1 /\ drain offload (length (updates s1)) s1 = Some s2
    /\ sched_ok p n s2 /\ is_finished s2 = true /\ map inv_id (calls s2) = map inv_id (calls s).
Proof.
  intros Hok. destruct (scheduler_cancel_ok p n s Hok) as (s1 & E1 & Hok1 & _ & Hids1 & Hall).
  destruct (drain_ok p n (length (updates s1)) s1 Hok1 ltac:(done)) as (s2 & E2 & Hok2 & Hu & Hids2 & Hph).
  exists s1, s2. split_and!; try done; [|by rewrite Hids2].
  unfold is_finished. rewrite Hu, andb_true_r. apply complete_phases. rewrite Hph.
  by apply complete_phases, forallb_complete.
Qed.

(** ** The calls keep their identifiers *)

Lemma set_call_ids s i c c' :
  calls s !! i = Some c -> inv_id c' = inv_id c -> map inv_id (calls (set_call i c' s)) = map inv_id (calls s).
Proof. intros Hi E. cbn. by apply (map_insert_same inv_id _ _ c). Qed.

Lemma complete_ids s i output is_error denial s' :
  complete s i output is_error denial = Some s' -> map inv_id (calls s') = map inv_id (calls s).
Proof.
  unfold complete. destruct (calls s !! i) as [c|] eqn:Ei; [|done]. cbn [mbind option_bind].
  intros [= <-]. by apply (set_call_ids s i c).
Qed.

Lemma advance_ids aborted s i stage s' :
  advance is_concurrency_safe aborted s i stage = Some s' -> map inv_id (calls s') = map inv_id (calls s).
Proof.
  unfold advance. destruct (calls s !! i) as [c|] eqn:Ei; [|done]. cbn [mbind option_bind].
  destruct stage as [hook|[|reason]|answer|hook].
  - set (c1 := set_prepared _ _ _ _). assert (E1 : map inv_id (calls (set_call i c1 s)) = map inv_id (calls s))
      by by apply (set_call_ids s i c).
    destruct (hook_refuses hook); [intros H; by rewrite (complete_ids _ _ _ _ _ _ H)|by intros [= <-]].
  - intros [= <-]. by apply (set_call_ids s i c).
  - apply complete_ids.
  - destruct answer; intros [= <-]; by apply (set_call_ids s i c).
  - destruct (inv_output c) as [o|]; [|done]. cbn [mbind option_bind]. intros H.
    rewrite (complete_ids _ _ _ _ _ _ H). by apply (set_call_ids s i c).
Qed.

Lemma poll_ids p n s prompter choose answer s' :
  sched_ok p n s -> poll is_concurrency_safe offload prompter choose answer s = Some s' ->
  map inv_id (calls s') = map inv_id (calls s).
Proof.
  intros Hok. rewrite <- (admit_ids p n s prompter Hok). pose proof (admit_ok p n s prompter Hok) as Hok1.
  unfold poll. set (s1 := admit_calls prompter s) in *. destruct (take_update s1) as [[u s2]|] eqn:Eu.
  - destruct (deliver_ok p n s1 u s2 Hok1 Eu) as (s3 & E & _ & _ & Hids). intros H.
    rewrite E in H. by injection H as <-.
  - destruct (active s1 !! _) as [[i w]|]; [intros H; by apply advance_ids in H|by intros [= <-]].
Qed.

Lemma drive_ids p n prompter choose answer fuel : forall s s',
  sched_ok p n s -> 0 < n -> (forall i w, stage_of w (answer (i, w))) ->
  drive is_concurrency_safe offload fuel prompter choose answer s = Some s' ->
  map inv_id (calls s') = map inv_id (calls s).
Proof.
  induction fuel as [|fuel IH]; intros s s' Hok Hpos Hans; cbn [drive];
    (destruct (is_finished s) eqn:Ef; [by intros [= <-]|]); [by intros [= <-]|].
  destruct (poll_ok p n s prompter choose answer Hok Hpos Ef Hans) as (s1 & E & Hok1 & _).
  rewrite E. cbn [mbind option_bind]. intros H. rewrite (IH s1 s' Hok1 Hpos Hans H).
  by apply (poll_ids p n s prompter choose answer).
Qed.

(** ** What led to a start

    The same runs with everything that happened in them: who was asked at each admission,
    which stage ended and how, and what was delivered. *)
Inductive Deed :=
| Enqueues
| Admits (prompter : option PermissionPrompter)
| Ends (index : nat) (stage : Stage)
| Delivers (u : ToolUpdate)
| Cancels.

Inductive does (s : ToolScheduler) : Deed -> ToolScheduler -> Prop :=
| does_enqueue id name input parent s' :
    enqueue is_concurrency_safe s id name input parent = Ok s' -> does s Enqueues s'
| does_admit prompter : does s (Admits prompter) (admit_calls prompter s)
| does_advance aborted k i w stage s' :
    active s !! k = Some (i, w) -> stage_of w stage ->
    advance is_concurrency_safe aborted (set_active (delete k (active s)) s) i stage = Some s' ->
    does s (Ends i stage) s'
| does_deliver u s1 s2 :
    take_update s = Some (u, s1) -> observe_tool_update offload s1 u = Some s2 -> does s (Delivers u) s2
| does_cancel s' : cancel interrupted_bash s = Some s' -> does s Cancels s'.

(** Each state of the run with what happened in it, and the state now. *)
Inductive recorded (p : PermissionPolicy) (n : nat) : list (ToolScheduler * Deed) -> ToolScheduler -> Prop :=
| recorded_new : recorded p n [] (scheduler_new p n)
| recorded_next h s d s' : recorded p n h s -> does s d s' -> recorded p n (h ++ [(s, d)]) s'.

Definition delivered (d : Deed) : list ToolUpdate := match d with Delivers u => [u] | _ => [] end.

Lemma does_step s us s' :
  sched_step is_concurrency_safe interrupted_bash offload s us s' <-> exists d, does s d s' /\ us = delivered d.
Proof.
  split.
  - intros [id name input parent s1 H|prompter|aborted k i w stage s1 Hk Hst Ha|u s1 s2 Ht Ho|s1 Hc].
    + exists Enqueues. split; [by eapply does_enqueue|done].
    + exists (Admits prompter). split; [constructor|done].
    + exists (Ends i stage). split; [by eapply does_advance|done].
    + exists (Delivers u). split; [by eapply does_deliver|done].
    + exists Cancels. split; [by eapply does_cancel|done].
  - intros (d & [id name input parent s1 H|prompter|aborted k i w stage s1 Hk Hst Ha|u s1 s2 Ht Ho|s1 Hc] & ->);
      [by eapply step_enqueue|constructor|by eapply step_advance|by eapply step_deliver|by eapply step_cancel].
Qed.

(** The histories are the runs. *)
Lemma history_run p n trace s :
  sched_run is_concurrency_safe interrupted_bash offload p n trace s
  <-> exists h, recorded p n h s /\ trace = concat (map (delivered ∘ snd) h).
Proof.
  split.
  - induction 1 as [|trace s us s' _ (h & Hh & ->) Hstep]; [exists []; split; [constructor|done]|].
    apply does_step in Hstep as (d & Hd & ->). exists (h ++ [(s, d)]). split; [by econstructor|].
    rewrite map_app, concat_app. cbn. by rewrite app_nil_r.
  - intros (h & Hh & ->). induction Hh as [|h s d s' _ IH Hd]; [constructor|].
    rewrite map_app, concat_app. cbn. rewrite app_nil_r. eapply run_step; [exact IH|]. apply does_step. by exists d.
Qed.

Lemma history_ok p n h s : recorded p n h s -> sched_ok p n s.
Proof. intros Hh. eapply sched_run_ok, history_run. by exists h. Qed.

(** The call's hook ended without refusing it, and left it with its input. *)
Definition prepared_by (h : list (ToolScheduler * Deed)) (i : nat) (c : Invocation) : Prop :=
  exists j sj c0, h !! j = Some (sj, Ends i (StagePrepared (inv_pre_hook c))) /\ calls sj !! i = Some c0
    /\ inv_id c0 = inv_id c /\ inv_input c = default (inv_input c0) (hr_updated_input (inv_pre_hook c))
    /\ hook_refuses (inv_pre_hook c) = false.

(** An admission took the prepared call in for authorisation, with this prompter. *)
Definition asked (h : list (ToolScheduler * Deed)) (i : nat) (c : Invocation)
    (prompter : option PermissionPrompter) : Prop :=
  exists j sj, h !! j = Some (sj, Admits prompter) /\ calls sj !! i = Some c /\ inv_phase c = Prepared
    /\ (inv_phase <$> calls (admit_calls prompter sj) !! i) = Some Authorizing /\ prepared_by (take j h) i c.

Definition reply_of (p : PermissionPolicy) (c : Invocation) (prompter : option PermissionPrompter)
  : PromptReply PermissionOutcome :=
  begin_authorization p (inv_name c) (inv_input c) (hook_context (inv_pre_hook c)) prompter.

(** Which call is meant: what does not change between its preparation and its start. *)
Definition same_call (c d : Invocation) : Prop :=
  inv_id c = inv_id d /\ inv_name c = inv_name d /\ inv_input c = inv_input d /\ inv_pre_hook c = inv_pre_hook d.

Lemma same_reply p c d prompter : same_call c d -> reply_of p c prompter = reply_of p d prompter.
Proof. intros (_ & E1 & E2 & E3). unfold reply_of. by rewrite E1, E2, E3. Qed.

Definition granted (p : PermissionPolicy) (h : list (ToolScheduler * Deed)) (id name input : string) : Prop :=
  exists i c prompter, asked h i c prompter /\ inv_id c = id /\ inv_name c = name /\ inv_input c = input
    /\ await (reply_of p c prompter) = OutcomeAllow.

Record led (p : PermissionPolicy) (h : list (ToolScheduler * Deed)) (s : ToolScheduler) : Prop := {
  led_prepared i c : calls s !! i = Some c -> inv_phase c = Prepared -> prepared_by h i c;
  led_asked i c : calls s !! i = Some c -> inv_phase c = Authorizing ->
    exists d prompter, asked h i d prompter /\ same_call c d /\ works i (active s) = [WAuthorize (reply_of p d prompter)];
  led_granted i c : calls s !! i = Some c -> inv_phase c = Authorized ->
    exists d prompter, asked h i d prompter /\ same_call c d /\ await (reply_of p d prompter) = OutcomeAllow;
  led_started id name input : Started id name input ∈ updates s -> granted p h id name input
}.

Lemma prepared_longer h k i c : prepared_by h i c -> prepared_by (h ++ k) i c.
Proof. intros (j & sj & c0 & Hj & H). exists j, sj, c0. split; [by apply lookup_app_l_Some|done]. Qed.

Lemma asked_longer h k i c prompter : asked h i c prompter -> asked (h ++ k) i c prompter.
Proof.
  intros (j & sj & Hj & H1 & H2 & H3 & H4). exists j, sj. split_and!; [by apply lookup_app_l_Some|done|done|done|].
  rewrite take_app_le; [done|]. apply lookup_lt_Some in Hj. lia.
Qed.

Lemma granted_longer p h k id name input : granted p h id name input -> granted p (h ++ k) id name input.
Proof. intros (i & c & prompter & H & Hc). exists i, c, prompter. split; [by apply asked_longer|done]. Qed.

(** Calls that are where they were keep their reasons. *)
Lemma led_longer p h k s s' :
  led p h s ->
  (forall i c, calls s' !! i = Some c ->
     (calls s !! i = Some c /\ works i (active s') = works i (active s))
     \/ (inv_phase c <> Prepared /\ inv_phase c <> Authorizing /\ inv_phase c <> Authorized)) ->
  (forall id name input, Started id name input ∈ updates s' -> Started id name input ∈ updates s) ->
  led p (h ++ k) s'.
Proof.
  intros [Hp Ha Hg Hs] Hc Hu. split.
  - intros i c Hic Hph. destruct (Hc i c Hic) as [[Hi _]|(? & _)]; [|done]. by apply prepared_longer, (Hp i).
  - intros i c Hic Hph. destruct (Hc i c Hic) as [[Hi Hw]|(_ & ? & _)]; [|done].
    destruct (Ha i c Hi Hph) as (d & prompter & H1 & H2 & H3). exists d, prompter. rewrite Hw.
    split_and!; [by apply asked_longer|done|done].
  - intros i c Hic Hph. destruct (Hc i c Hic) as [[Hi _]|(_ & _ & ?)]; [|done].
    destruct (Hg i c Hi Hph) as (d & prompter & H1 & H2). exists d, prompter. split; [by apply asked_longer|done].
  - intros id name input Hin. by apply granted_longer, Hs, Hu.
Qed.

Lemma led_enqueue p h k s id name input parent s' :
  led p h s -> enqueue is_concurrency_safe s id name input parent = Ok s' -> led p (h ++ k) s'.
Proof.
  intros Hl He. unfold enqueue in He. destruct (existsb _ _); [done|]. injection He as <-.
  apply (led_longer p h k s); [done| |done]. cbn [calls active updates set_calls].
  intros i c [Hi|[_ Hi]]%lookup_app_Some; [by left|]. apply list_lookup_singleton_Some in Hi as [_ <-]. by right.
Qed.

Lemma led_admit p n h s prompter :
  sched_ok p n s -> led p h s -> led p (h ++ [(s, Admits prompter)]) (admit_calls prompter s).
Proof.
  intros (Hpol & _ & Hinv & _) [Hp Ha Hg Hs].
  set (k := admit_loop (policy s) (limit s) prompter (inflight_count (calls s)) false false (calls s)).
  assert (Hk : forall i c', calls (admit_calls prompter s) !! i = Some c' -> exists a c, k !! i = Some a /\ c' = ad_call a
            /\ calls s !! i = Some c /\ admitted p prompter c a
            /\ works i (active (admit_calls prompter s)) = works i (active s) ++ option_list (ad_work a)).
  { intros i c' (a & Hia & ->)%lookup_calls.
    destruct (admit_loop_lookup _ _ _ _ _ _ _ _ _ Hia) as (c & Hic & Hadm & _). exists a, c.
    rewrite Hpol in Hadm. split_and!; try done. cbn [admit_calls active]. rewrite works_app. f_equal.
    pose proof (works_new i k 0) as Ew. cbn [Nat.add] in Ew. unfold k in *. by rewrite Ew, Hia. }
  split.
  - intros i c' Hi Hph. destruct (Hk i c' Hi) as (a & c & _ & -> & Hic & [->|[[_ ->]| ->]] & _); [| |].
    + by apply prepared_longer, (Hp i).
    + done.
    + unfold admit_ready in *. destruct (inv_phase c) eqn:E; cbn in Hph; congruence.
  - intros i c' Hi Hph. destruct (Hk i c' Hi) as (a & c & Hia & -> & Hic & Hadm & Hw).
    destruct Hadm as [->|[[_ ->]| ->]]; [|done|].
    + cbn [unchanged ad_call ad_work option_list] in *. rewrite app_nil_r in Hw.
      destruct (Ha i c Hic Hph) as (d & pr & H1 & H2 & H3). exists d, pr. rewrite Hw. split_and!; [by apply asked_longer|done|done].
    + unfold admit_ready in Hph, Hw |- *. destruct (inv_phase c) eqn:E; cbn in Hph; try congruence;
        cbn [ad_call ad_work unchanged option_list] in *.
      * exists c, prompter. split_and!; [|done|].
        -- exists (length h), s. split_and!; [by rewrite lookup_app_r, Nat.sub_diag by lia|done|done| |].
           ++ rewrite Hi. cbn. unfold admit_ready. by rewrite E.
           ++ rewrite take_app_length. by apply (Hp i).
        -- rewrite Hw. pose proof (inv_calls _ _ _ _ _ Hinv i c Hic) as Hok. unfold call_ok in Hok. rewrite E in Hok.
           destruct Hok as (-> & _). done.
      * rewrite app_nil_r in Hw. destruct (Ha i c Hic E) as (d & pr & H1 & H2 & H3). exists d, pr. rewrite Hw. split_and!; [by apply asked_longer|done|done].
  - intros i c' Hi Hph. destruct (Hk i c' Hi) as (a & c & _ & -> & Hic & [->|[[_ ->]| ->]] & _); [|done|].
    + destruct (Hg i c Hic Hph) as (d & pr & H1 & H2). exists d, pr. split; [by apply asked_longer|done].
    + unfold admit_ready in Hph. destruct (inv_phase c) eqn:E; cbn in Hph; congruence.
  - intros id name input Hin. cbn [admit_calls updates] in Hin. apply elem_of_app in Hin as [Hin|Hin]; [by apply granted_longer, Hs|].
    apply list_elem_of_omap in Hin as (a & Hin & Hu). apply list_elem_of_lookup in Hin as [i Hia].
    destruct (admit_loop_lookup _ _ _ _ _ _ _ _ _ Hia) as (c & Hic & Hadm & _).
    destruct Hadm as [->|[[_ ->]| ->]]; try done. unfold admit_ready in Hu. destruct (inv_phase c) eqn:E; try done.
    injection Hu as <- <- <-. destruct (Hg i c Hic E) as (d & pr & H1 & (E1 & E2 & E3 & _) & H3).
    exists i, d, pr. split_and!; [by apply asked_longer|done..].
Qed.

(** The end of a stage changes its own call only, and starts nothing. *)
Lemma advance_spec aborted l s i c stage s' :
  calls s !! i = Some c -> advance is_concurrency_safe aborted (set_active l s) i stage = Some s' ->
  exists c' new, calls s' = <[i := c']> (calls s) /\ active s' = l ++ map (pair i) new
    /\ (forall id name input, Started id name input ∈ updates s' -> Started id name input ∈ updates s)
    /\ match stage with
       | StagePrepared hook =>
           if hook_refuses hook then inv_phase c' = Complete
           else exists parallel, c' = set_prepared (default (inv_input c) (hr_updated_input hook)) parallel hook c
       | StageAuthorized OutcomeAllow => c' = set_phase Authorized c
       | StageAuthorized (OutcomeDeny _) | StageFinished _ => inv_phase c' = Complete
       | StageExecuted _ => inv_phase c' = Finishing
       end.
Proof.
  intros Hic Ha. pose proof (lookup_lt_Some _ _ _ Hic) as Hlt.
  assert (Hend : forall c1 output is_error denial s', complete (set_call i c1 (set_active l s)) i output is_error denial = Some s' ->
    exists c', calls s' = <[i := c']> (calls s) /\ active s' = l /\ inv_phase c' = Complete
      /\ (forall id name input, Started id name input ∈ updates s' -> Started id name input ∈ updates s)).
  { intros c1 output is_error denial s1 H.
    destruct (complete_eq (set_call i c1 (set_active l s)) i c1 output is_error denial) as (s2 & m & action & E & Ec & Ea & Eu & _);
      [by apply list_lookup_insert_eq|]. rewrite E in H. injection H as <-.
    cbn [calls active updates set_call set_calls set_active] in *. rewrite list_insert_insert_eq in Ec.
    eexists. split_and!; [exact Ec|done|done|]. intros id name input. rewrite Eu.
    intros [Hin|Hin%list_elem_of_singleton]%elem_of_app; done. }
  assert (set_active l s = set_call i c (set_active l s)) as Hsame by (symmetry; by apply set_call_same).
  unfold advance in Ha. change (calls (set_active l s) !! i) with (calls s !! i) in Ha. rewrite Hic in Ha. cbn [mbind option_bind] in Ha.
  destruct stage as [hook|[|reason]|answer|hook].
  - destruct (hook_refuses hook).
    + destruct (Hend _ _ _ _ _ Ha) as (c' & H1 & H2 & H3 & H4). exists c', []. cbn. rewrite app_nil_r. by split_and!.
    + injection Ha as <-. eexists _, []. cbn. rewrite app_nil_r. split_and!; [done|done|done|by eexists].
  - injection Ha as <-. eexists _, []. cbn. rewrite app_nil_r. by split_and!.
  - rewrite Hsame in Ha. destruct (Hend _ _ _ _ _ Ha) as (c' & H1 & H2 & H3 & H4). exists c', []. cbn. rewrite app_nil_r. by split_and!.
  - destruct (match answer with Ok output => _ | Err error => _ end) as [output is_error]. injection Ha as <-.
    eexists _, [WPostHook]. by split_and!.
  - destruct (inv_output c) as [output|]; [|done]. cbn [mbind option_bind] in Ha.
    destruct (Hend _ _ _ _ _ Ha) as (c' & H1 & H2 & H3 & H4). exists c', []. cbn. rewrite app_nil_r. by split_and!.
Qed.

(** One call moves on, for a reason. *)
Lemma led_one p h k s s' i c' :
  led p h s -> i < length (calls s) -> calls s' = <[i := c']> (calls s) ->
  (forall j, j <> i -> works j (active s') = works j (active s)) ->
  (forall id name input, Started id name input ∈ updates s' -> Started id name input ∈ updates s) ->
  (inv_phase c' = Prepared -> prepared_by (h ++ k) i c') -> inv_phase c' <> Authorizing ->
  (inv_phase c' = Authorized -> exists d prompter, asked h i d prompter /\ same_call c' d
     /\ await (reply_of p d prompter) = OutcomeAllow) ->
  led p (h ++ k) s'.
Proof.
  intros [Hp Ha Hg Hs] Hlt Ec Hw Hu H1 H2 H3. split; [..|intros id name input Hin; by apply granted_longer, Hs, Hu];
    rewrite Ec; intros j d [[-> ->]|[Hne Hj]]%lookup_insert_cases Hph; try done.
  - by auto.
  - by apply prepared_longer, (Hp j).
  - rewrite Hw by done. destruct (Ha j d Hj Hph) as (x & prompter & Hx & Hrest). exists x, prompter.
    split; [by apply asked_longer|done].
  - destruct (H3 Hph) as (x & prompter & Hx & Hrest). exists x, prompter. split; [by apply asked_longer|done].
  - destruct (Hg j d Hj Hph) as (x & prompter & Hx & Hrest). exists x, prompter. split; [by apply asked_longer|done].
Qed.

Lemma led_advance p n h s aborted k i w stage s' :
  sched_ok p n s -> led p h s -> active s !! k = Some (i, w) -> stage_of w stage ->
  advance is_concurrency_safe aborted (set_active (delete k (active s)) s) i stage = Some s' ->
  led p (h ++ [(s, Ends i stage)]) s'.
Proof.
  intros Hok Hl Hk Hst Ha. destruct (stage_call p n s k i w Hok Hk) as (c & Hic & _ & Hw & Hcall & _ & Hoth & _).
  pose proof (lookup_lt_Some _ _ _ Hic) as Hlt.
  destruct (advance_spec aborted _ s i c stage s' Hic Ha) as (c' & new & Ec & Eact & Hu & Hc').
  apply (led_one p h _ s s' i c'); try done.
  - intros j Hne. rewrite Eact, works_app, Hoth by done.
    assert (works j (map (pair i) new) = []) as ->; [|by rewrite app_nil_r].
    unfold works. rewrite filter_none; [done|]. intros [j' v] Hin. change (map (pair i) new) with (pair i <$> new) in Hin.
    apply list_elem_of_fmap in Hin as (v' & [= -> ->] & _). cbn. apply Nat.eqb_neq. congruence.
  - intros Hph. destruct stage as [hook|[|reason]|answer|hook]; try congruence; [|by subst c'].
    destruct (hook_refuses hook) eqn:Eh; [congruence|]. destruct Hc' as [parallel ->].
    exists (length h), s, c. split_and!; [by rewrite lookup_app_r, Nat.sub_diag by lia|done..].
  - intros Hph. destruct stage as [hook|[|reason]|answer|hook]; try congruence; [|by subst c'].
    destruct (hook_refuses hook); [congruence|]. by destruct Hc' as [parallel ->].
  - intros Hph. destruct stage as [hook|[|reason]|answer|hook]; try congruence.
    + destruct (hook_refuses hook); [congruence|]. by destruct Hc' as [parallel ->].
    + subst c'. destruct w as [|reply| |]; try done. cbn in Hst.
      assert (inv_phase c = Authorizing) as Hauth by (unfold call_ok in Hcall; destruct (inv_phase c); naive_solver).
      destruct (led_asked _ _ _ Hl i c Hic Hauth) as (d & prompter & H1 & H2 & H3). rewrite Hw in H3. injection H3 as ->.
      by exists d, prompter.
Qed.

Lemma led_deliver p h k s u s1 s2 :
  led p h s -> take_update s = Some (u, s1) -> observe_tool_update offload s1 u = Some s2 ->
  (forall i m d input a c, u = Completed i m d input a -> calls s !! i = Some c -> is_complete c = true) -> led p (h ++ k) s2.
Proof.
  intros Hl Ht Ho Hcomp. unfold take_update in Ht. destruct (updates s) as [|u' us] eqn:Eus; [done|]. injection Ht as -> <-.
  assert (forall id name input, Started id name input ∈ us -> Started id name input ∈ updates s) as Hus
    by (intros; rewrite Eus; by right).
  destruct u as [id name input|i m denial input action]; cbn [observe_tool_update] in Ho.
  - injection Ho as <-. apply (led_longer p h k s); [done|by intros j c Hj; left|done].
  - unfold store_result in Ho. cbn [calls set_updates] in Ho. destruct (calls s !! i) as [c|] eqn:Hic; [|done].
    cbn [mbind option_bind] in Ho. injection Ho as <-. apply (led_longer p h k s); [done| |done].
    cbn [calls active set_call set_calls set_updates]. intros j d Hj.
    specialize (Hcomp i m denial input action c eq_refl Hic). apply bool_decide_eq_true in Hcomp.
    apply lookup_lt_Some in Hic as Hlt. apply lookup_insert_cases in Hj as [[-> ->]|[Hne Hj]]; [right|by left|done].
    cbn. by rewrite Hcomp.
Qed.

Lemma cancel_started id name input s s' :
  cancel interrupted_bash s = Some s' -> Started id name input ∈ updates s' -> Started id name input ∈ updates s.
Proof.
  unfold cancel. change (updates s) with (updates (set_active [] s)). generalize (set_active [] s).
  generalize (seq 0 (length (calls s))). intros l. induction l as [|i l IH]; intros s0; cbn [foldl]; [by intros [= ->]|].
  cbn [mbind option_bind]. destruct (cancel_call interrupted_bash s0 i) as [s1|] eqn:E.
  - intros H Hin. specialize (IH s1 H Hin). clear H Hin. unfold cancel_call in E.
    destruct (calls s0 !! i) as [c|] eqn:Hi; [|done]. cbn [mbind option_bind] in E.
    destruct (is_complete c); [by injection E as ->|].
    destruct (complete_eq (set_call i (take_output c) s0) i (take_output c)
      (default (output_text (interrupted_tool_output interrupted_bash (inv_name c))) (inv_output c)) true None)
      as (s2 & m & action & E2 & _ & _ & Eu & _); [apply list_lookup_insert_eq; by eapply lookup_lt_Some|].
    rewrite E2 in E. injection E as <-. rewrite Eu in IH. cbn [updates set_call set_calls] in IH.
    by apply elem_of_app in IH as [H|H%list_elem_of_singleton].
  - intros H. exfalso. revert H. clear. induction l as [|j l IH]; cbn [foldl]; [done|]. exact IH.
Qed.

Lemma history_led p n h s : recorded p n h s -> led p h s.
Proof.
  induction 1 as [|h s d s' Hh IH Hd]; 
    [split; [intros i c Hi; done..|by intros id name input ?%elem_of_nil]|].
  pose proof (history_ok p n h s Hh) as Hok.
  destruct Hd as [id name input parent s1 H|prompter|aborted k i w stage s1 Hk Hst Ha|u s1 s2 Ht Ho|s1 Hc].
  - by eapply led_enqueue.
  - by eapply led_admit.
  - by eapply led_advance.
  - eapply led_deliver; [exact IH|exact Ht|exact Ho|]. intros i m d input a c -> Hic.
    destruct Hok as (_ & _ & Hinv & _). pose proof (inv_answers _ _ _ _ _ Hinv i c Hic) as Hn.
    unfold take_update in Ht. destruct (updates s) as [|v vs]; [done|]. injection Ht as -> _.
    change (Completed i m d input a :: vs) with ([Completed i m d input a] ++ vs) in Hn.
    rewrite completions_app, completions_one, Nat.eqb_refl in Hn. destruct (is_complete c); [done|]. cbn in Hn. lia.
  - destruct (scheduler_cancel_ok p n s Hok) as (s2 & E & _ & _ & _ & Hall). rewrite E in Hc. injection Hc as <-.
    apply (led_longer p h _ s); [done| |intros id name input; by eapply cancel_started].
    intros i c Hi. right. specialize (Hall i c Hi). apply bool_decide_eq_true in Hall. by rewrite Hall.
Qed.

Lemma history_lookup p n h s k sk d :
  recorded p n h s -> h !! k = Some (sk, d) -> recorded p n (take k h) sk /\ exists s', does sk d s'.
Proof.
  induction 1 as [|h s d' s' Hh IH Hd]; intros Hk; [by rewrite lookup_nil in Hk|].
  apply lookup_app_Some in Hk as [Hk|[Hge Hk]].
  - rewrite take_app_le by (apply lookup_lt_Some in Hk; lia). by apply IH.
  - apply list_lookup_singleton_Some in Hk as [Hk [= -> ->]].
    replace k with (length h) by lia. rewrite take_app_length. split; [done|by exists s'].
Qed.

(** The policy let the call through: no deny rule names it, and it needed no question or the
    prompter, shown the very tool and input, answered yes. *)
Lemma allowed_cases p name input context prompter :
  await (begin_authorization p name input context prompter) = OutcomeAllow ->
  find_matching_rule (deny_rules p) name input = None
  /\ (evaluate p name input context = EvalAllow
      \/ exists asked_one request, prompter = Some asked_one /\ evaluate p name input context = EvalPrompt request
         /\ req_tool_name request = name /\ req_input request = input
         /\ await (begin_decision asked_one request) = DecisionAllow).
Proof.
  intros H. split.
  - destruct (find_matching_rule (deny_rules p) name input) as [rule|] eqn:E; [|done].
    unfold begin_authorization in H. by rewrite (evaluate_denied _ _ _ _ _ E) in H.
  - unfold begin_authorization in H.
    destruct (evaluate p name input context) as [| |request] eqn:E; [by left|done|right].
    destruct prompter as [pr|]; [|done]. cbn in H. exists pr, request.
    destruct (evaluate_prompt_request _ _ _ _ _ E) as (E1 & E2 & _).
    split_and!; [done|done|done|done|]. unfold await in *. by destruct (begin_decision pr request tt).
Qed.

(** ** Claims *)

(** C13. A call that may not share its time runs alone, in every run of the scheduler and
    whatever its hooks answer: while an earlier call is unfinished, a call is authorised, run
    or finished behind it only if the executor declared both, on the inputs their hooks left
    them with, safe to run together.  No more than the limit are ever taken at once. *)
Theorem writers_run_alone p n trace s
    (Hrun : sched_run is_concurrency_safe interrupted_bash offload p n trace s) :
  (forall i j c d, i < j -> calls s !! i = Some c -> calls s !! j = Some d ->
     pending_call c = true -> in_progress d = true ->
     unclassified c = false
     /\ is_concurrency_safe (inv_name c) (inv_input c) = true
     /\ is_concurrency_safe (inv_name d) (inv_input d) = true)
  /\ inflight_count (calls s) <= n.
Proof.
  destruct (sched_run_ok _ _ _ _ Hrun) as (_ & _ & Hinv & _). split; [|by apply (inv_limit _ _ _ _ _ Hinv)].
  intros i j c d Hij Hi Hj Hc Hd. destruct (inv_pairs _ _ _ _ _ Hinv i j c d Hij Hi Hj) as [H _].
  rewrite <- (inv_class _ _ _ _ _ Hinv i c Hi), <- (inv_class _ _ _ _ _ Hinv j d Hj). by apply H.
Qed.

(** C11. Nothing runs without authorisation.  Whenever the scheduler announces, anywhere in a
    run, that a call starts, the hook of that call ended earlier in the run without refusing
    it and left it the input it starts with; after that an admission of the run asked for
    its authorisation; no deny rule of the policy matches the tool and that input; and under
    what that hook said, either the policy allows it unprompted or the prompter of that very
    admission, shown that tool and input, answered yes. *)
Theorem no_tool_starts_unauthorized p n h s k sk id name input
    (Hrun : recorded p n h s)
    (Hstart : h !! k = Some (sk, Delivers (Started id name input))) :
  exists i c prompter j sj, j < k /\ h !! j = Some (sj, Admits prompter)
    /\ calls sj !! i = Some c /\ inv_phase c = Prepared
    /\ (inv_phase <$> calls (admit_calls prompter sj) !! i) = Some Authorizing
    /\ inv_id c = id /\ inv_name c = name /\ inv_input c = input
    /\ (exists j' sj' c', j' < j /\ h !! j' = Some (sj', Ends i (StagePrepared (inv_pre_hook c)))
         /\ calls sj' !! i = Some c' /\ inv_id c' = id
         /\ input = default (inv_input c') (hr_updated_input (inv_pre_hook c))
         /\ hook_refuses (inv_pre_hook c) = false)
    /\ find_matching_rule (deny_rules p) name input = None
    /\ (evaluate p name input (hook_context (inv_pre_hook c)) = EvalAllow
        \/ exists asked_one request, prompter = Some asked_one
           /\ evaluate p name input (hook_context (inv_pre_hook c)) = EvalPrompt request
           /\ req_tool_name request = name /\ req_input request = input
           /\ await (begin_decision asked_one request) = DecisionAllow).
Proof.
  destruct (history_lookup p n h s k sk _ Hrun Hstart) as (Hk & s' & Hd).
  assert (granted p (take k h) id name input) as (i & c & prompter & (j & sj & Hj & Hc & Hph & Hask & Hprep) & E1 & E2 & E3 & Hr).
  { apply (led_started _ _ _ (history_led p n _ _ Hk)). inversion Hd as [| | |u s1 s2 Ht _|]; subst.
    unfold take_update in Ht. destruct (updates sk); [done|]. injection Ht as -> _. left. }
  unfold reply_of in Hr. subst id name input. destruct (allowed_cases _ _ _ _ _ Hr) as [Hdeny Hyes].
  rewrite lookup_take_Some in Hj. destruct Hj as [Hj Hlt].
  exists i, c, prompter, j, sj. split_and!; try done.
  destruct Hprep as (j' & sj' & c' & Hj' & Hc' & Eid & Ein & Href).
  rewrite !lookup_take_Some in Hj'. destruct Hj' as [[Hj' _] Hlt'].
  exists j', sj', c'. by split_and!.
Qed.

(** C27. Cancelling answers every call.  From any state of any run, cancelling and
    delivering what is left neither panics nor leaves a call open: there is exactly one
    result per call, in the order of the calls, each a tool message whose first block
    answers that call, and no two calls share an identifier. *)
Theorem cancel_answers_every_call p n trace s
    (Hrun : sched_run is_concurrency_safe interrupted_bash offload p n trace s) :
  exists s1 s2 results,
    cancel interrupted_bash s = Some s1
    /\ drain offload (length (updates s1)) s1 = Some s2
    /\ is_finished s2 = true
    /\ into_results s2 = Some results
    /\ Forall2 answers results (map inv_id (calls s))
    /\ NoDup (map inv_id (calls s)).
Proof.
  pose proof (sched_run_ok _ _ _ _ Hrun) as Hok.
  destruct (cancel_and_drain p n s Hok) as (s1 & s2 & E1 & E2 & Hok2 & Hf & Hids).
  destruct (finished_results p n s2 Hok2 Hf) as (results & Er & HF).
  exists s1, s2, results. split_and!; try done; [by rewrite <- Hids|].
  destruct Hok as (_ & _ & Hinv & _). apply (inv_ids _ _ _ _ _ Hinv).
Qed.

(** C28. The scheduler always finishes.  From any state of any run, with a positive limit,
    as long as every started stage ends with some answer of its kind, whichever of them ends
    first and whatever it answers, the loop reaches a state where every call is complete and
    every update delivered, within a number of rounds computed from the state, with one
    result per call in order. *)
Theorem scheduler_always_finishes p n trace s prompter choose answer
    (Hrun : sched_run is_concurrency_safe interrupted_bash offload p n trace s)
    (Hlimit : 0 < n) (Hends : forall i w, stage_of w (answer (i, w))) :
  exists s' results,
    drive is_concurrency_safe offload (work_left s) prompter choose answer s = Some s'
    /\ is_finished s' = true
    /\ into_results s' = Some results
    /\ Forall2 answers results (map inv_id (calls s)).
Proof.
  pose proof (sched_run_ok _ _ _ _ Hrun) as Hok.
  destruct (drive_ok p n prompter choose answer (work_left s) s Hok Hlimit Hends ltac:(done)) as (s' & E & Hok' & Hf).
  destruct (finished_results p n s' Hok' Hf) as (results & Er & HF).
  exists s', results. split_and!; try done.
  by rewrite <- (drive_ids p n prompter choose answer (work_left s) s s' Hok Hlimit Hends E).
Qed.

End Safety.

(** ** A run, for the witnesses

    Two reads and a write in a policy that allows everything: the reads run together and the
    write waits for both. *)
Section Script.
Context {J : SerdeJson}.
Context (is_concurrency_safe : string -> string -> bool) (interrupted_bash : string).
Context (offload : string -> string -> string -> string).

Inductive action := Call (id name input : string) | Admission | Stop (k : nat) | Deliver.

Definition plain_answer (w : Work) : Stage :=
  match w with
  | WPreHook => StagePrepared (hook_allow [])
  | WAuthorize reply => StageAuthorized (await reply)
  | WExecute => StageExecuted (Ok (output_text "done"))
  | WPostHook => StageFinished (hook_allow [])
  end.

Lemma plain_answer_stage w : stage_of w (plain_answer w).
Proof. by destruct w. Qed.

Definition act (a : action) (s : ToolScheduler) : option (list ToolUpdate * ToolScheduler) :=
  match a with
  | Call id name input =>
      match enqueue is_concurrency_safe s id name input None with Ok s => Some ([], s) | Err _ => None end
  | Admission => Some ([], admit_calls None s)
  | Stop k => '(i, w) ← active s !! k;
              s ← advance is_concurrency_safe false (set_active (delete k (active s)) s) i (plain_answer w);
              Some ([], s)
  | Deliver => '(u, s) ← take_update s; s ← observe_tool_update offload s u; Some ([u], s)
  end.

Fixpoint play (script : list action) (trace : list ToolUpdate) (s : ToolScheduler)
  : option (list ToolUpdate * ToolScheduler) :=
  match script with
  | [] => Some (trace, s)
  | a :: script => '(us, s) ← act a s; play script (trace ++ us) s
  end.

Lemma act_step a s us s' :
  act a s = Some (us, s') -> sched_step is_concurrency_safe interrupted_bash offload s us s'.
Proof.
  destruct a as [id name input| |k|]; cbn [act].
  - destruct (enqueue _ _ _ _ _ _) eqn:E; [|done]. intros [= <- <-]. by eapply step_enqueue.
  - intros [= <- <-]. constructor.
  - destruct (active s !! k) as [[i w]|] eqn:Ek; [|done]. cbn [mbind option_bind].
    destruct (advance _ _ _ _ _) eqn:E; [|done]. cbn [mbind option_bind]. intros [= <- <-].
    eapply step_advance; [exact Ek|apply plain_answer_stage|exact E].
  - destruct (take_update s) as [[u s1]|] eqn:Eu; [|done]. cbn [mbind option_bind].
    destruct (observe_tool_update _ _ _) eqn:E; [|done]. cbn [mbind option_bind]. intros [= <- <-].
    by eapply step_deliver.
Qed.

Lemma play_run p n script : forall trace s trace' s',
  sched_run is_concurrency_safe interrupted_bash offload p n trace s ->
  play script trace s = Some (trace', s') ->
  sched_run is_concurrency_safe interrupted_bash offload p n trace' s'.
Proof.
  induction script as [|a script IH]; intros trace s trace' s' Hrun; cbn [play]; [by intros [= <- <-]|].
  destruct (act a s) as [[us s1]|] eqn:E; [|done]. cbn [mbind option_bind].
  apply IH. eapply run_step; [exact Hrun|by apply (act_step a)].
Qed.

(** The same with its deeds: every admission asks this prompter, and every first hook ends
    like this one. *)
Definition enact (prompter : option PermissionPrompter) (hook : HookRunResult) (a : action) (s : ToolScheduler)
  : option (Deed * ToolScheduler) :=
  match a with
  | Call id name input =>
      match enqueue is_concurrency_safe s id name input None with Ok s => Some (Enqueues, s) | Err _ => None end
  | Admission => Some (Admits prompter, admit_calls prompter s)
  | Stop k => '(i, w) ← active s !! k;
              let stage := match w with WPreHook => StagePrepared hook | _ => plain_answer w end in
              s ← advance is_concurrency_safe false (set_active (delete k (active s)) s) i stage;
              Some (Ends i stage, s)
  | Deliver => '(u, s) ← take_update s; s ← observe_tool_update offload s u; Some (Delivers u, s)
  end.

Fixpoint perform prompter hook (script : list action) (h : list (ToolScheduler * Deed)) (s : ToolScheduler)
  : option (list (ToolScheduler * Deed) * ToolScheduler) :=
  match script with
  | [] => Some (h, s)
  | a :: script => '(d, s') ← enact prompter hook a s; perform prompter hook script (h ++ [(s, d)]) s'
  end.

Lemma enact_does prompter hook a s d s' :
  enact prompter hook a s = Some (d, s') -> does is_concurrency_safe interrupted_bash offload s d s'.
Proof.
  destruct a as [id name input| |k|]; cbn [enact].
  - destruct (enqueue _ _ _ _ _ _) eqn:E; [|done]. intros [= <- <-]. by eapply does_enqueue.
  - intros [= <- <-]. constructor.
  - destruct (active s !! k) as [[i w]|] eqn:Ek; [|done]. cbn [mbind option_bind].
    destruct (advance _ _ _ _ _) eqn:E; [|done]. cbn [mbind option_bind]. intros [= <- <-].
    eapply does_advance; [exact Ek| |exact E]. by destruct w.
  - destruct (take_update s) as [[u s1]|] eqn:Eu; [|done]. cbn [mbind option_bind].
    destruct (observe_tool_update _ _ _) eqn:E; [|done]. cbn [mbind option_bind]. intros [= <- <-].
    by eapply does_deliver.
Qed.

Lemma perform_history p n prompter hook script : forall h s h' s',
  recorded is_concurrency_safe interrupted_bash offload p n h s ->
  perform prompter hook script h s = Some (h', s') ->
  recorded is_concurrency_safe interrupted_bash offload p n h' s'.
Proof.
  induction script as [|a script IH]; intros h s h' s' Hh; cbn [perform]; [by intros [= <- <-]|].
  destruct (enact prompter hook a s) as [[d s1]|] eqn:E; [|done]. cbn [mbind option_bind].
  apply IH. eapply recorded_next; [exact Hh|by eapply enact_does].
Qed.

End Script.

Definition reads_share (name input : string) : bool := String.eqb name "Read".
Definition keep_output (id name output : string) : string := output.
Definition everything_allowed : PermissionPolicy := policy_new ModeAllow.

Definition sample_script : list action :=
  [Call "a" "Read" "{}"; Call "b" "Read" "{}"; Call "c" "Write" "{}";
   Admission; Stop 0; Stop 0; Admission; Stop 0; Stop 0; Admission; Deliver; Deliver; Stop 1].

Definition sample_played : list ToolUpdate * ToolScheduler :=
  default ([], scheduler_new everything_allowed 2)
    (play reads_share keep_output sample_script [] (scheduler_new everything_allowed 2)).

Lemma sample_run :
  sched_run reads_share "interrupted" keep_output everything_allowed 2 sample_played.1 sample_played.2.
Proof.
  eapply (play_run reads_share "interrupted" keep_output everything_allowed 2 sample_script);
    [apply run_new|vm_compute; reflexivity].
Qed.

Lemma writers_run_alone_witness :
  (exists c d, calls sample_played.2 !! 0 = Some c /\ calls sample_played.2 !! 1 = Some d
     /\ pending_call c = true /\ in_progress d = true
     /\ reads_share (inv_name c) (inv_input c) = true)
  /\ inflight_count (calls sample_played.2) <= 2.
Proof.
  destruct (writers_run_alone reads_share "interrupted" keep_output everything_allowed 2 _ _ sample_run)
    as [Hpair Hlimit]. split; [|exact Hlimit].
  destruct (calls sample_played.2 !! 0) as [c|] eqn:Ec; [|vm_compute in Ec; discriminate].
  destruct (calls sample_played.2 !! 1) as [d|] eqn:Ed; [|vm_compute in Ed; discriminate].
  assert (pending_call c = true) as Hc by (vm_compute in Ec; injection Ec as <-; reflexivity).
  assert (in_progress d = true) as Hd by (vm_compute in Ed; injection Ed as <-; reflexivity).
  exists c, d. split; [done|]. split; [done|]. split; [exact Hc|]. split; [exact Hd|].
  apply (Hpair 0 1 c d); [lia|exact Ec|exact Ed|exact Hc|exact Hd].
Defined.

(** A hook turns a harmless command into one that a rule asks about, and the user says yes. *)
Definition rewriting_hook : HookRunResult :=
  {| hr_denied := false; hr_failed := false; hr_cancelled := false; hr_messages := [];
     hr_permission_override := None; hr_permission_reason := None; hr_updated_input := Some "git push" |}.
Definition asking_performed : list (ToolScheduler * Deed) * ToolScheduler :=
  default ([], scheduler_new sample_policy 2)
    (perform reads_share keep_output (Some yes_prompter) rewriting_hook
       [Call "a" "bash" "git status"; Admission; Stop 0; Admission; Stop 0; Admission; Deliver]
       [] (scheduler_new sample_policy 2)).

Lemma asking_history :
  recorded reads_share "interrupted" keep_output sample_policy 2 asking_performed.1 asking_performed.2.
Proof.
  eapply (perform_history reads_share "interrupted" keep_output sample_policy 2 (Some yes_prompter) rewriting_hook
    [Call "a" "bash" "git status"; Admission; Stop 0; Admission; Stop 0; Admission; Deliver]);
    [apply recorded_new|vm_compute; reflexivity].
Qed.

Lemma asking_hooks j sj i hook :
  asking_performed.1 !! j = Some (sj, Ends i (StagePrepared hook)) -> j < 6 -> hook = rewriting_hook.
Proof.
  intros Hh Hj. do 6 (destruct j as [|j]; [vm_compute in Hh; try discriminate; injection Hh as _ _ <-; reflexivity|]). lia.
Qed.

Lemma no_tool_starts_unauthorized_witness :
  evaluate sample_policy "bash" "git push" (hook_context rewriting_hook) <> EvalAllow
  /\ exists asked_one request,
    evaluate sample_policy "bash" "git push" (hook_context rewriting_hook) = EvalPrompt request
    /\ req_input request = "git push" /\ await (begin_decision asked_one request) = DecisionAllow.
Proof.
  assert (evaluate sample_policy "bash" "git push" (hook_context rewriting_hook) <> EvalAllow) as Hask
    by (vm_compute; discriminate).
  split; [exact Hask|].
  destruct (asking_performed.1 !! 6) as [[sk d]|] eqn:Ek; [|vm_compute in Ek; discriminate].
  assert (d = Delivers (Started "a" "bash" "git push")) as -> by (vm_compute in Ek; injection Ek as _ <-; reflexivity).
  destruct (no_tool_starts_unauthorized reads_share "interrupted" keep_output sample_policy 2 _ _ 6 sk "a" "bash" "git push"
    asking_history Ek) as (i & c & prompter & j & sj & Hj & _ & _ & _ & _ & _ & _ & _ & Hhook & _ & Hyes).
  assert (inv_pre_hook c = rewriting_hook) as E.
  { destruct Hhook as (j' & sj' & c' & Hlt & Hh & _). apply (asking_hooks j' sj' i); [exact Hh|lia]. }
  rewrite E in Hyes. destruct Hyes as [Hyes|(pr & request & _ & H1 & _ & H2 & H3)]; [congruence|].
  exists pr, request. split; [exact H1|]. split; [exact H2|exact H3].
Defined.

Lemma cancel_answers_every_call_witness :
  exists s1 s2 results,
    cancel "interrupted" sample_played.2 = Some s1
    /\ drain keep_output (length (updates s1)) s1 = Some s2
    /\ is_finished s2 = true
    /\ into_results s2 = Some results
    /\ Forall2 answers results ["a"; "b"; "c"]
    /\ NoDup ["a"; "b"; "c"].
Proof.
  apply (cancel_answers_every_call reads_share "interrupted" keep_output everything_allowed 2 _ _ sample_run).
Defined.

Lemma scheduler_always_finishes_witness :
  exists s' results,
    drive reads_share keep_output (work_left sample_played.2) None (fun _ => 0) (fun p => plain_answer p.2) sample_played.2 = Some s'
    /\ is_finished s' = true
    /\ into_results s' = Some results
    /\ Forall2 answers results ["a"; "b"; "c"].
Proof.
  apply (scheduler_always_finishes reads_share "interrupted" keep_output everything_allowed 2 _ _ None (fun _ => 0)
           (fun p => plain_answer p.2) sample_run); [lia|].
  intros i w. apply plain_answer_stage.
Defined.
