(* ===== verification/ConcurrencySafety.v ===== *)
(** * Overlapping calls

    The scheduler asks the executor which calls may overlap (ToolScheduler), the executor of a
    process answers from the tools it discovered and the classifier of built-in calls
    (ToolConcurrency).  Together: of two calls that overlap, each only reads, or is one of
    the listed tools. *)
From S2P Require Import Prelude.
From stdpp Require Import list.
From S2P Require Import RustStr Json ToolNames ToolRegistry RegistrySafety ShellFlags ToolConcurrency Conversation Permissions AssistantMessage ToolScheduler SchedulerSafety JsonModel.

Section Overlap.
Context {J : SerdeJson}.
Context (shell_split : string -> option (list string)) (parser : string -> option Node) (has_error : Node -> bool).
Context (registry : GlobalToolRegistry).
Context (interrupted_bash : string) (offload : string -> string -> string -> string).

(** The executor's answer; it never panics ([executor_answers]). *)
Definition shares (name input : string) : bool :=
  default false (executor_is_concurrency_safe shell_split parser has_error registry name input).

Lemma executor_answers name input :
  exists b, executor_is_concurrency_safe shell_split parser has_error registry name input = Some b.
Proof.
  unfold executor_is_concurrency_safe, builtin_is_concurrency_safe.
  destruct (has_runtime_tool _ _); [by eexists|]. destruct (from_str input) as [v|]; [|by eexists].
  destruct (String.eqb _ _); [|by eexists]. destruct (get v "command") as [c|]; [|by eexists].
  destruct (as_str c); [|by eexists]. apply bash_is_read_only_total.
Qed.

(** A shell command every program of which only reads. *)
Definition only_reads (command : string) : Prop :=
  exists root, parser command = Some root /\ has_error root = false
    /\ (forall n, reaches root n -> plain_node shell_split n)
    /\ (forall n, reaches root n -> kind n = "command" ->
          exists words, command_words shell_split (named_children n) = Some words /\ ~ may_write words).

(** Why a call may overlap: a tool discovered at run time whose transport allows it (for the
    generic tool the one its input names), a listed tool, or a shell command that only reads. *)
Inductive shareable (name input : string) : Prop :=
| share_runtime target tool :
    target = (if String.eqb (canonicalize_tool_name name) "MCPTool" then mcp_target input
              else Some (canonicalize_tool_name name)) ->
    In tool (runtime_tools registry) -> target = Some (rt_name tool) -> rt_is_concurrency_safe tool = true -> shareable name input
| share_listed : In (canonicalize_tool_name name) SAFE_TOOLS -> shareable name input
| share_shell v field command :
    canonicalize_tool_name name = "bash" -> from_str input = Some v -> get v "command" = Some field ->
    as_str field = Some command -> only_reads command -> shareable name input.

Lemma runtime_tool_safe target :
  runtime_tool_is_concurrency_safe registry target = true ->
  exists tool, In tool (runtime_tools registry) /\ rt_name tool = target /\ rt_is_concurrency_safe tool = true.
Proof.
  unfold runtime_tool_is_concurrency_safe. rewrite existsb_exists.
  intros (tool & Hin & [Hn%String.eqb_eq Hs]%andb_true_iff). by exists tool.
Qed.

Lemma shares_shareable name input : shares name input = true -> shareable name input.
Proof.
  unfold shares, executor_is_concurrency_safe. destruct (has_runtime_tool _ _).
  - cbn [default from_option]. set (target := if String.eqb _ _ then _ else _).
    destruct target as [t|] eqn:E; [|done]. intros H. cbn in H. apply runtime_tool_safe in H as (tool & Hin & <- & Hs).
    by apply (share_runtime _ _ (Some (rt_name tool)) tool).
  - unfold builtin_is_concurrency_safe. destruct (from_str input) as [v|] eqn:Ev; [|done].
    rewrite canonicalize_idempotent. destruct (String.eqb_spec (canonicalize_tool_name name) "bash") as [Eb|Hne].
    + destruct (get v "command") as [field|] eqn:Ef; [|done]. destruct (as_str field) as [command|] eqn:Ec; [|done].
      destruct (bash_is_read_only shell_split parser has_error command) as [[|]|] eqn:H; [|done|done]. intros _.
      apply (share_shell _ _ v field command); [done..|].
      destruct (bash_is_read_only_inv _ _ _ _ H) as (root & cmds & Hp & He & Hc & Hread & _).
      assert (checked shell_split cmds root) as Hroot by (by apply (checked_statement _ _ _ cmds); [|apply incl_refl]).
      exists root. split_and!; [done|done| |].
      * intros n Hn. by eapply checked_plain, reached_checked.
      * intros n Hn Hk. destruct (checked_command shell_split cmds n) as (p & a & Hw & Hin);
          [by eapply reached_checked|done|].
        exists (p :: a). split; [done|]. by apply command_only_reads, Hread.
    + cbn [default from_option]. intros H. apply share_listed. by apply str_in_In.
Qed.

(** C14. What overlaps only reads.  In every run of the scheduler over the executor of a process,
    when a call is authorised, runs or is finished while an earlier one is unfinished, each of
    the two calls, on the input its hooks left it with, is a listed tool, a discovered tool whose
    transport allows it, or a shell command whose syntax tree consists of readers.  The executor
    answers for every call. *)
Theorem overlapping_calls_only_read p n trace s i j c d
    (Hrun : sched_run shares interrupted_bash offload p n trace s)
    (Horder : i < j) (Hc : calls s !! i = Some c) (Hd : calls s !! j = Some d)
    (Hpending : pending_call c = true) (Hprogress : in_progress d = true) :
  shareable (inv_name c) (inv_input c) /\ shareable (inv_name d) (inv_input d)
  /\ is_Some (executor_is_concurrency_safe shell_split parser has_error registry (inv_name d) (inv_input d)).
Proof.
  destruct (sched_run_ok _ _ _ _ _ _ _ Hrun) as (_ & _ & Hinv & _).
  destruct (inv_pairs _ _ _ _ _ _ Hinv i j c d Horder Hc Hd) as [H _].
  destruct (H Hpending Hprogress) as (_ & Hsc & Hsd).
  rewrite (inv_class _ _ _ _ _ _ Hinv i c Hc) in Hsc. rewrite (inv_class _ _ _ _ _ _ Hinv j d Hd) in Hsd.
  split_and!; [by apply shares_shareable..|]. destruct (executor_answers (inv_name d) (inv_input d)) as [b ->]. by eexists.
Qed.

End Overlap.

(** ** Two shell commands at once, for the witness *)

(** A JSON library that reads every text as the object whose command it is. *)
Definition command_json : SerdeJson := {|
  Value := Value;
  Value_eq_dec := Value_eq_dec;
  from_str := fun text => Some (t_obj [("command", t_str text)]);
  is_object := is_object;
  get := get;
  as_str := as_str;
  as_u64 := as_u64;
  set_field := set_field;
  remove_field := remove_field;
  of_u64 := of_u64;
  of_array := of_array
|}.

Definition sample_shares : string -> string -> bool :=
  shares (J := command_json) sample_split sample_parser no_error registry_builtin.
Definition two_commands : list action :=
  [Call "a" "Bash" "cat notes | sort -r 2>&1"; Call "b" "Bash" "cat notes"; Admission; Stop 0; Stop 0; Admission].
Definition two_played : list ToolUpdate * ToolScheduler :=
  default ([], scheduler_new everything_allowed 2)
    (play (J := command_json) sample_shares keep_output two_commands [] (scheduler_new everything_allowed 2)).

Lemma two_commands_run :
  sched_run (J := command_json) sample_shares "interrupted" keep_output everything_allowed 2 two_played.1 two_played.2.
Proof.
  eapply (play_run (J := command_json) sample_shares "interrupted" keep_output everything_allowed 2 two_commands);
    [apply run_new|vm_compute; reflexivity].
Qed.

Lemma overlapping_calls_only_read_witness :
  exists c d, calls two_played.2 !! 0 = Some c /\ calls two_played.2 !! 1 = Some d
    /\ shareable (J := command_json) sample_split sample_parser no_error registry_builtin (inv_name c) (inv_input c)
    /\ shareable (J := command_json) sample_split sample_parser no_error registry_builtin (inv_name d) (inv_input d).
Proof.
  destruct (calls two_played.2 !! 0) as [c|] eqn:Ec; [|vm_compute in Ec; discriminate].
  destruct (calls two_played.2 !! 1) as [d|] eqn:Ed; [|vm_compute in Ed; discriminate].
  assert (pending_call c = true) as Hc by (vm_compute in Ec; injection Ec as <-; reflexivity).
  assert (in_progress d = true) as Hd by (vm_compute in Ed; injection Ed as <-; reflexivity).
  destruct (overlapping_calls_only_read (J := command_json) sample_split sample_parser no_error registry_builtin "interrupted" keep_output
    everything_allowed 2 _ _ 0 1 c d two_commands_run) as (Hsc & Hsd & _); [lia|exact Ec|exact Ed|exact Hc|exact Hd|].
  exists c, d. split; [reflexivity|]. split; [reflexivity|]. split; [exact Hsc|exact Hsd].
Defined.
