(* ===== verification/ResponseLoop.v ===== *)
(** * One provider response and its tools (runtime/src/conversation/response.rs)

    The loop that polls the provider's stream, the inbox, the abort signal and the tool
    scheduler together, as a step relation: whichever is ready may go next (the code
    prefers the abort signal, then the inbox, then the scheduler).  The transcript is
    written as the stream arrives: the assistant message before any of its calls may run,
    each result as it is ready.  Observers and trace records are not modelled; a panic of
    the code is [None]. *)
From S2P Require Import Prelude.
From stdpp Require Import list.
From S2P Require Import RustStr Json Conversation Permissions AssistantMessage ToolScheduler Transcript.

Definition STEP_LIMIT_TOOLS : string := "model requested tools after the computation step limit was reached".
Definition blank_line : string := (newline ++ newline)%string.
Definition CANCELLED_NOTE : string := (blank_line ++ "[" ++ INTERRUPT_MESSAGE ++ "]")%string.
Definition FAILED_NOTE : string :=
  (blank_line ++ "[Provider stream failed; unfinished tool calls were cancelled.]")%string.

Record Response := {
  rs_messages : list ConversationMessage;
  rs_scheduler : ToolScheduler;
  rs_events : list AssistantEvent;
  rs_ended : bool;
  rs_yielded : bool;
  rs_at_boundary : bool;
  rs_assistant_index : option nat;
  rs_persisted_results : nat
}.

(** Where the loop is: still polling, or left with its error and whether it was cancelled. *)
Inductive Loop :=
| Polling (r : Response)
| Left (r : Response) (error : option RuntimeError) (cancelled : bool).

Record ExecutedResponse := {
  ex_messages : list ConversationMessage;
  ex_events : list AssistantEvent;
  ex_results : list ConversationMessage;
  ex_error : option RuntimeError;
  ex_cancelled : bool;
  ex_yielded : bool;
  ex_assistant_index : option nat;
  ex_persisted_results : nat;
  ex_context_action : option ToolContextAction
}.

Definition set_messages (l : list ConversationMessage) (r : Response) : Response :=
  {| rs_messages := l; rs_scheduler := rs_scheduler r; rs_events := rs_events r; rs_ended := rs_ended r;
     rs_yielded := rs_yielded r; rs_at_boundary := rs_at_boundary r;
     rs_assistant_index := rs_assistant_index r; rs_persisted_results := rs_persisted_results r |}.
Definition set_scheduler (s : ToolScheduler) (r : Response) : Response :=
  {| rs_messages := rs_messages r; rs_scheduler := s; rs_events := rs_events r; rs_ended := rs_ended r;
     rs_yielded := rs_yielded r; rs_at_boundary := rs_at_boundary r;
     rs_assistant_index := rs_assistant_index r; rs_persisted_results := rs_persisted_results r |}.
Definition set_events (l : list AssistantEvent) (r : Response) : Response :=
  {| rs_messages := rs_messages r; rs_scheduler := rs_scheduler r; rs_events := l; rs_ended := rs_ended r;
     rs_yielded := rs_yielded r; rs_at_boundary := rs_at_boundary r;
     rs_assistant_index := rs_assistant_index r; rs_persisted_results := rs_persisted_results r |}.
Definition set_ended (yielded : bool) (r : Response) : Response :=
  {| rs_messages := rs_messages r; rs_scheduler := rs_scheduler r; rs_events := rs_events r; rs_ended := true;
     rs_yielded := yielded; rs_at_boundary := rs_at_boundary r;
     rs_assistant_index := rs_assistant_index r; rs_persisted_results := rs_persisted_results r |}.
Definition set_boundary (b : bool) (r : Response) : Response :=
  {| rs_messages := rs_messages r; rs_scheduler := rs_scheduler r; rs_events := rs_events r; rs_ended := rs_ended r;
     rs_yielded := rs_yielded r; rs_at_boundary := b;
     rs_assistant_index := rs_assistant_index r; rs_persisted_results := rs_persisted_results r |}.
Definition set_index (i : option nat) (r : Response) : Response :=
  {| rs_messages := rs_messages r; rs_scheduler := rs_scheduler r; rs_events := rs_events r; rs_ended := rs_ended r;
     rs_yielded := rs_yielded r; rs_at_boundary := rs_at_boundary r;
     rs_assistant_index := i; rs_persisted_results := rs_persisted_results r |}.
Definition set_persisted (n : nat) (r : Response) : Response :=
  {| rs_messages := rs_messages r; rs_scheduler := rs_scheduler r; rs_events := rs_events r; rs_ended := rs_ended r;
     rs_yielded := rs_yielded r; rs_at_boundary := rs_at_boundary r;
     rs_assistant_index := rs_assistant_index r; rs_persisted_results := n |}.

Section Response.
Context {J : SerdeJson}.
Context (legacy_id : nat -> ConversationMessage -> string).
Context (is_concurrency_safe : string -> string -> bool) (interrupted_bash : string).
Context (offload : string -> string -> string -> string).
Context (running_model : string).

(** ** Checkpoints *)

Definition checkpoint_assistant (st : Storage) (m : ConversationMessage) (r : Response)
  : Response * option RuntimeError :=
  match rs_assistant_index r with
  | Some index =>
      let '(messages, error) := update_assistant_message st index m (rs_messages r) in
      (set_messages messages r, runtime_error <$> error)
  | None =>
      let next := length (rs_messages r) in
      match push_message legacy_id st m (rs_messages r) with
      | (messages, Some error) => (set_messages messages r, Some (runtime_error error))
      | (messages, None) => (set_index (Some next) (set_messages messages r), None)
      end
  end.

(** Saves the complete tool block before the scheduler can run it. *)
Definition checkpoint_tool_parent (st : Storage) (event : AssistantEvent) (r : Response)
  : option (Response * result RuntimeError ConversationMessage) :=
  match build_assistant_message (rs_events r ++ [event; EMessageStop]) with
  | Err _ => None
  | Ok built =>
      let parent := set_model (Some running_model) (built_message built) in
      match checkpoint_assistant st parent r with
      | (r, Some error) => Some (r, Err error)
      | (r, None) =>
          index ← rs_assistant_index r;
          saved ← rs_messages r !! index;
          Some (r, Ok (set_history (history saved) parent))
      end
  end.

Definition checkpoint_stopped_assistant (st : Storage) (r : Response) : Response * option RuntimeError :=
  match rs_assistant_index r, build_assistant_message (rs_events r) with
  | Some _, Ok built => checkpoint_assistant st (set_model (Some running_model) (built_message built)) r
  | _, _ => (r, None)
  end.

(** Appends the results that are ready, in the order of their calls, each with the store's
    answer for its turn. *)
Fixpoint persist_results (st : nat -> Storage) (fuel : nat) (r : Response)
  : Response * option RuntimeError :=
  match fuel with
  | O => (r, None)
  | S fuel =>
      let next := rs_persisted_results r in
      match scheduler_result (rs_scheduler r) next with
      | None => (r, None)
      | Some m =>
          match push_message legacy_id (st next) m (rs_messages r) with
          | (messages, Some error) => (set_messages messages r, Some (runtime_error error))
          | (messages, None) => persist_results st fuel (set_persisted (S next) (set_messages messages r))
          end
      end
  end.

Definition persist_ready_results (st : nat -> Storage) (r : Response) : Response * option RuntimeError :=
  persist_results st (S (length (calls (rs_scheduler r)))) r.

(** ** One event of the stream *)

Definition polled (step : Response * option RuntimeError) : Loop :=
  match step with
  | (r, Some error) => Left r (Some error) false
  | (r, None) => Polling r
  end.

(** After a tool block was dispatched or for another event: record it, and save the message
    again when it stopped. *)
Definition record_event (st : Storage) (event : AssistantEvent) (r : Response) : Loop :=
  let r := set_events (rs_events r ++ [event]) r in
  match event with
  | EMessageStop => polled (checkpoint_stopped_assistant st r)
  | _ => Polling r
  end.

Definition on_event (st : Storage) (allow_tools : bool) (event : AssistantEvent) (r : Response)
  : option Loop :=
  let r := set_boundary (next_response_boundary event (rs_at_boundary r)) r in
  match event with
  | EToolUse id name input _ =>
      if negb allow_tools then Some (Left r (Some (runtime_error STEP_LIMIT_TOOLS)) false)
      else
        '(r, parent) ← checkpoint_tool_parent st event r;
        match parent with
        | Err error => Some (Left r (Some error) false)
        | Ok parent =>
            match enqueue is_concurrency_safe (rs_scheduler r) id name input (Some parent) with
            | Err error => Some (Left r (Some error) false)
            | Ok s => Some (record_event st event (set_scheduler s r))
            end
        end
  | _ => Some (record_event st event r)
  end.

Definition has_stop (events : list AssistantEvent) : bool :=
  existsb (fun e => match e with EMessageStop => true | _ => false end) events.

Definition on_end (r : Response) : Loop :=
  let r := set_ended (rs_yielded r) r in
  if has_stop (rs_events r) then Polling r else Left r (Some (runtime_error NO_STOP)) false.

(** A new input stops the sampling; admitted tools go on. *)
Definition on_input (r : Response) : Response :=
  set_events (rs_events r ++ [EMessageStop]) (set_ended true r).

Definition on_update (st : nat -> Storage) (u : ToolUpdate) (s : ToolScheduler) (r : Response)
  : option Loop :=
  s ← observe_tool_update offload s u;
  Some (polled (persist_ready_results st (set_scheduler s r))).

(** ** The loop *)

Definition response_new (p : PermissionPolicy) (n : nat) (messages : list ConversationMessage) : Response :=
  {| rs_messages := messages; rs_scheduler := scheduler_new p n; rs_events := []; rs_ended := false;
     rs_yielded := false; rs_at_boundary := true; rs_assistant_index := None;
     rs_persisted_results := 0 |}.

Definition response_done (r : Response) : bool := rs_ended r && is_finished (rs_scheduler r).

Inductive response_step (allow_tools : bool) (r : Response) : Loop -> Prop :=
| on_done : response_done r = true -> response_step allow_tools r (Left r None false)
| on_abort : response_done r = false -> response_step allow_tools r (Left r None true)
| on_input_ready :
    response_done r = false -> rs_ended r = false -> rs_at_boundary r = true ->
    response_step allow_tools r (Polling (on_input r))
| on_tools_admitted prompter :
    response_done r = false ->
    response_step allow_tools r (Polling (set_scheduler (admit_calls prompter (rs_scheduler r)) r))
| on_tool_stage aborted k i w stage s :
    response_done r = false -> active (rs_scheduler r) !! k = Some (i, w) -> stage_of w stage ->
    advance is_concurrency_safe aborted (set_active (delete k (active (rs_scheduler r))) (rs_scheduler r)) i stage
      = Some s ->
    response_step allow_tools r (Polling (set_scheduler s r))
| on_tool_update st u s l :
    response_done r = false -> take_update (rs_scheduler r) = Some (u, s) -> on_update st u s r = Some l ->
    response_step allow_tools r l
| on_stream_event st event l :
    response_done r = false -> rs_ended r = false -> on_event st allow_tools event r = Some l ->
    response_step allow_tools r l
| on_stream_error error :
    response_done r = false -> rs_ended r = false -> response_step allow_tools r (Left r (Some error) false)
| on_stream_end :
    response_done r = false -> rs_ended r = false -> response_step allow_tools r (on_end r).

Inductive response_run (allow_tools : bool) (p : PermissionPolicy) (n : nat)
    (messages : list ConversationMessage) : Loop -> Prop :=
| response_start : response_run allow_tools p n messages (Polling (response_new p n messages))
| response_next r l :
    response_run allow_tools p n messages (Polling r) -> response_step allow_tools r l ->
    response_run allow_tools p n messages l.

(** ** After the loop *)

(** A response that failed or was cancelled closes every call and says so. *)
Definition close_response (cancelled : bool) (r : Response) : option Response :=
  s ← cancel interrupted_bash (rs_scheduler r);
  s ← drain offload (length (updates s)) s;
  Some (set_events (rs_events r ++ [ETextDelta (if cancelled then CANCELLED_NOTE else FAILED_NOTE); EMessageStop])
          (set_scheduler s r)).

Definition conclude (st : nat -> Storage) (r : Response) (error : option RuntimeError) (cancelled : bool)
  : option ExecutedResponse :=
  r ← (if cancelled || match error with Some _ => true | None => false end then close_response cancelled r else Some r);
  let '(r, failure) := persist_ready_results st r in
  results ← into_results (rs_scheduler r);
  Some {| ex_messages := rs_messages r; ex_events := rs_events r; ex_results := results;
          ex_error := match failure with Some _ => failure | None => error end;
          ex_cancelled := cancelled; ex_yielded := rs_yielded r;
          ex_assistant_index := rs_assistant_index r;
          ex_persisted_results := rs_persisted_results r;
          ex_context_action := sched_action (rs_scheduler r) |}.

End Response.
