(* ===== verification/ResponseSafety.v ===== *)
(** * What one response leaves in the transcript

    The invariant of the response loop, on every interleaving of stream events, inputs, tool
    updates, storage failures and cancellation, and what the loop promises the turn: a call
    is saved before it may run, and the finished exchange is one assistant message followed
    by exactly one result for each of its calls, in order. *)
From S2P Require Import Prelude.
From stdpp Require Import list.
From S2P Require Import RustStr Json Conversation Permissions AssistantMessage Transcript ToolScheduler SchedulerSafety ResponseLoop JsonModel.

(** ** The calls of events and blocks *)

Definition call_ids (l : list ContentBlock) : list string := omap tool_use_id_of l.
Definition event_id (e : AssistantEvent) : option string :=
  match e with EToolUse id _ _ _ => Some id | _ => None end.

Lemma call_ids_spec events : call_ids (assistant_blocks events) = omap event_id events.
Proof.
  unfold call_ids, assistant_blocks. destruct (content events) as [text l] eqn:E.
  rewrite (omap_finish tool_use_id_of (conj (fun _ _ => eq_refl) (fun _ => eq_refl))).
  pose proof (omap_content tool_use_id_of (conj (fun _ _ => eq_refl) (fun _ => eq_refl)) event_id events
    (fun _ => eq_refl) (fun _ _ _ _ => eq_refl) ltac:(by intros [])) as H.
  by rewrite E in H.
Qed.

Lemma built_ok events b :
  build_assistant_message events = Ok b ->
  role (built_message b) = RAssistant /\ call_ids (blocks (built_message b)) = omap event_id events.
Proof.
  unfold build_assistant_message. destruct (negb _); [done|].
  destruct (assistant_blocks events) as [|x l] eqn:E; [done|]. intros [= <-]. cbn. split; [done|].
  by rewrite <- call_ids_spec, E.
Qed.

Lemma has_stop_metadata events : meta_finished (metadata events) = has_stop events.
Proof. by rewrite metadata_spec. Qed.

(** A stream that stopped and made a call, or wrote some text, has a message. *)
Lemma build_with_calls events :
  has_stop events = true -> omap event_id events <> [] -> exists b, build_assistant_message events = Ok b.
Proof.
  intros Hs Hc. unfold build_assistant_message. rewrite has_stop_metadata, Hs. cbn [negb].
  destruct (assistant_blocks events) eqn:E; [|by eexists].
  exfalso. apply Hc. rewrite <- call_ids_spec. by rewrite E.
Qed.

Lemma build_fails events e :
  build_assistant_message events = Err e -> has_stop events = true -> omap event_id events = [].
Proof.
  intros H Hs. destruct (decide (omap event_id events = [])) as [|Hn]; [done|].
  destruct (build_with_calls events Hs Hn) as [b E]. congruence.
Qed.

Lemma build_with_text events text :
  is_empty text = false -> exists b, build_assistant_message (events ++ [ETextDelta text; EMessageStop]) = Ok b.
Proof.
  intros Ht. unfold build_assistant_message. rewrite has_stop_metadata.
  unfold has_stop at 1. rewrite existsb_app. cbn [existsb]. rewrite orb_true_r. cbn [negb].
  destruct (assistant_blocks _) as [|] eqn:E; [|by eexists]. exfalso.
  unfold assistant_blocks, content in E. rewrite fold_left_app in E. cbn [fold_left] in E.
  destruct (fold_left content_event events ("", [])) as [t l]. cbn [content_event] in E.
  unfold finish_assistant_blocks, flush_text_block in E.
  assert (is_empty (t ++ text) = false) as Hne by (destruct t, text; done).
  rewrite Hne, List.filter_app in E. by destruct (List.filter _ l).
Qed.

Section Safety.
Context {J : SerdeJson}.
Context (legacy_id : nat -> ConversationMessage -> string).
Context (is_concurrency_safe : string -> string -> bool) (interrupted_bash : string).
Context (offload : string -> string -> string -> string).
Context (running_model : string).

(** ** The invariant *)

Definition ids (s : ToolScheduler) : list string := map inv_id (calls s).

(** The saved part of the exchange: nothing, or the assistant message and the results that
    were ready. *)
Definition saved (base messages : list ConversationMessage) (index : option nat) (ids : list string)
    (persisted : nat) : Prop :=
  match index with
  | None => same_messages messages base /\ ids = [] /\ persisted = 0
  | Some i => i = length base /\ exists a results,
      same_messages messages (base ++ a :: results) /\ role a = RAssistant
      /\ ids `prefix_of` call_ids (blocks a)
      /\ length results = persisted /\ Forall2 answers results (take persisted ids)
  end.

Record response_inv (p : PermissionPolicy) (n : nat) (base : list ConversationMessage) (r : Response) : Prop := {
  ri_sched : sched_ok is_concurrency_safe p n (rs_scheduler r);
  ri_events : omap event_id (rs_events r) = ids (rs_scheduler r);
  ri_saved : saved base (rs_messages r) (rs_assistant_index r) (ids (rs_scheduler r)) (rs_persisted_results r)
}.

Lemma saved_same base messages messages' index l persisted :
  same_messages messages' messages -> saved base messages index l persisted -> saved base messages' index l persisted.
Proof.
  intros Hs. unfold saved. destruct index as [i|].
  - intros (-> & a & results & H & Hrest). split; [done|]. exists a, results. split; [by etransitivity|done].
  - intros (H & Hrest). split; [by etransitivity|done].
Qed.

Lemma same_length l k : same_messages l k -> length l = length k.
Proof. intros H. rewrite <- (length_map anonymous l), H. by rewrite length_map. Qed.

Lemma answers_anonymous m m' id : anonymous m' = anonymous m -> answers m id -> answers m' id.
Proof.
  intros E. unfold answers. assert (role m' = role m /\ blocks m' = blocks m) as [-> ->].
  { unfold anonymous, set_history in E. by injection E. }
  done.
Qed.

(** ** Saving the assistant message *)

Lemma same_insert base a a' results messages :
  same_messages messages (base ++ a :: results) ->
  same_messages (<[length base := a']> messages) (base ++ a' :: results).
Proof.
  unfold same_messages. intros H.
  change (map anonymous ?l) with (anonymous <$> l) in *. rewrite list_fmap_insert, H.
  rewrite !fmap_app, !fmap_cons. rewrite insert_app_r_alt by (by rewrite length_fmap).
  by rewrite length_fmap, Nat.sub_diag.
Qed.

Lemma prefix_trans_ids (l k : list string) : l `prefix_of` k -> forall j, k `prefix_of` j -> l `prefix_of` j.
Proof. intros H j H'. by etransitivity. Qed.

Lemma checkpoint_assistant_ok base st m r :
  role m = RAssistant -> ids (rs_scheduler r) `prefix_of` call_ids (blocks m) ->
  saved base (rs_messages r) (rs_assistant_index r) (ids (rs_scheduler r)) (rs_persisted_results r) ->
  let '(r', error) := checkpoint_assistant legacy_id st m r in
  (rs_scheduler r' = rs_scheduler r /\ rs_ended r' = rs_ended r) /\ rs_events r' = rs_events r
  /\ rs_persisted_results r' = rs_persisted_results r
  /\ saved base (rs_messages r') (rs_assistant_index r') (ids (rs_scheduler r')) (rs_persisted_results r')
  /\ (error = None -> rs_assistant_index r' = Some (length base)
       /\ exists a results, same_messages (rs_messages r') (base ++ a :: results) /\ anonymous a = anonymous m
            /\ length results = rs_persisted_results r
            /\ Forall2 answers results (take (rs_persisted_results r) (ids (rs_scheduler r)))).
Proof.
  intros Hrole Hpre Hs. unfold checkpoint_assistant. destruct (rs_assistant_index r) as [i|] eqn:Ei.
  - destruct Hs as (-> & a & results & Hsame & Ha & Hp & Hlen & Hans).
    pose proof (update_assistant_message_spec st (length base) m (rs_messages r)) as Hu.
    destruct (update_assistant_message st (length base) m (rs_messages r)) as [messages [e|]]; cbn.
    + subst messages. split_and!; try done. rewrite Ei. split; [done|]. by exists a, results.
    + destruct Hu as (previous & Hprev & Hprole & _ & ->).
      assert (same_messages (<[length base := set_history (history previous) m]> (rs_messages r))
                (base ++ set_history (history previous) m :: results)) as Hsame' by by apply (same_insert base a).
      split_and!; try done.
      * rewrite Ei. split; [done|]. by exists (set_history (history previous) m), results.
      * intros _. split; [done|]. by exists (set_history (history previous) m), results.
  - destruct Hs as (Hsame & Hids & Hpersist).
    pose proof (push_message_spec legacy_id st m (rs_messages r)) as Hu.
    destruct (push_message legacy_id st m (rs_messages r)) as [messages [e|]]; cbn.
    + split_and!; try done. rewrite Ei. split; [by etransitivity|done].
    + assert (same_messages messages (base ++ [m])) as Hsame'.
      { etransitivity; [exact Hu|]. by rewrite Hsame. }
      rewrite (same_length _ _ Hsame), Hids, Hpersist.
      split_and!; try done.
      * exists m, []. split_and!; try done. apply prefix_nil.
      * intros _. split; [done|]. exists m, []. split_and!; try done.
Qed.

Lemma saved_persisted_le base messages index l persisted :
  saved base messages index l persisted -> persisted <= length l.
Proof.
  destruct index as [i|]; cbn; [|intros (_ & -> & ->); done].
  intros (_ & a & results & _ & _ & _ & Hlen & HF). apply Forall2_length in HF.
  rewrite length_take in HF. lia.
Qed.

Lemma anonymous_blocks m m' : anonymous m = anonymous m' -> blocks m = blocks m' /\ role m = role m'.
Proof. unfold anonymous, set_history. intros E. by injection E. Qed.

Lemma tool_parent_builds events id name input sig :
  exists b, build_assistant_message (events ++ [EToolUse id name input sig; EMessageStop]) = Ok b
    /\ role (built_message b) = RAssistant
    /\ call_ids (blocks (built_message b)) = omap event_id events ++ [id].
Proof.
  destruct (build_with_calls (events ++ [EToolUse id name input sig; EMessageStop])) as [b E].
  - unfold has_stop. rewrite existsb_app. cbn. by rewrite orb_true_r.
  - rewrite omap_app. cbn. by destruct (omap event_id events).
  - exists b. split; [done|]. destruct (built_ok _ _ E) as [H1 H2]. rewrite omap_app in H2. by split.
Qed.

(** The message with the new call is saved, and named, before the call is dispatched. *)
Lemma checkpoint_tool_parent_ok p n base st id name input sig r :
  response_inv p n base r ->
  exists r' parent, checkpoint_tool_parent legacy_id running_model st (EToolUse id name input sig) r = Some (r', parent)
    /\ (rs_scheduler r' = rs_scheduler r /\ rs_ended r' = rs_ended r) /\ rs_events r' = rs_events r
    /\ rs_persisted_results r' = rs_persisted_results r
    /\ saved base (rs_messages r') (rs_assistant_index r') (ids (rs_scheduler r')) (rs_persisted_results r')
    /\ ((exists m, parent = Ok m) ->
        saved base (rs_messages r') (rs_assistant_index r') (ids (rs_scheduler r') ++ [id]) (rs_persisted_results r')).
Proof.
  intros [_ Hev Hs]. unfold checkpoint_tool_parent.
  destruct (tool_parent_builds (rs_events r) id name input sig) as (b & -> & Hrole & Hcalls).
  set (m := set_model (Some running_model) (built_message b)).
  assert (call_ids (blocks m) = ids (rs_scheduler r) ++ [id]) as Hm by by rewrite <- Hev.
  pose proof (checkpoint_assistant_ok base st m r Hrole) as H. rewrite Hm in H.
  specialize (H (prefix_app_r _ _ _ (reflexivity _)) Hs).
  destruct (checkpoint_assistant legacy_id st m r) as [r' [e|]]; destruct H as ((H1 & He) & H2 & H3 & H4 & H5).
  - exists r', (Err e). split_and!; try done. by intros [].
  - destruct (H5 eq_refl) as (Hi & a & results & Hsame & Ha & Hlen & HF). rewrite Hi. cbn [mbind option_bind].
    destruct (anonymous_blocks _ _ Ha) as [Hbl Hro].
    destruct (lookup_lt_is_Some_2 (rs_messages r') (length base)) as [x Hx].
    { rewrite (same_length _ _ Hsame), length_app. cbn. lia. }
    rewrite Hx. cbn [mbind option_bind]. eexists _, _. split; [done|]. split_and!; try done.
    intros _. rewrite Hi, H1, H3. split; [done|]. exists a, results.
    split_and!; [done|by rewrite Hro|by rewrite Hbl, Hm|done|].
    apply saved_persisted_le in Hs. by rewrite take_app_le.
Qed.

(** ** Persisting results *)

Lemma result_answers p n s i m :
  sched_ok is_concurrency_safe p n s -> scheduler_result s i = Some m -> exists id, ids s !! i = Some id /\ answers m id.
Proof.
  intros (_ & _ & Hinv & _). unfold scheduler_result, ids. destruct (calls s !! i) as [c|] eqn:Ec; [|done].
  intros H. exists (inv_id c). split; [by apply lookup_ids|]. by apply (inv_results _ _ _ _ _ _ Hinv i).
Qed.

Lemma persist_results_ok p n base st fuel : forall r,
  response_inv p n base r ->
  let '(r', _) := persist_results legacy_id st fuel r in
  response_inv p n base r' /\ rs_scheduler r' = rs_scheduler r /\ rs_events r' = rs_events r
  /\ rs_ended r' = rs_ended r.
Proof.
  induction fuel as [|fuel IH]; intros r Hinv; [done|]. cbn [persist_results].
  destruct Hinv as [Hok Hev Hs].
  destruct (scheduler_result (rs_scheduler r) (rs_persisted_results r)) as [m|] eqn:Em; [|done].
  destruct (result_answers p n _ _ _ Hok Em) as (id & Hid & Hans).
  pose proof (push_message_spec legacy_id (st (rs_persisted_results r)) m (rs_messages r)) as Hp.
  destruct (push_message legacy_id _ m (rs_messages r)) as [messages [e|]].
  - split_and!; try done. split; [done|done|]. by eapply saved_same.
  - match goal with |- context [persist_results _ _ _ ?x] => set (r1 := x) end.
    assert (response_inv p n base r1) as Hr1.
    { split; [done|done|]. unfold r1. cbn.
      destruct (rs_assistant_index r) as [i|].
      - destruct Hs as (-> & a & results & Hsame & Ha & Hpre & Hlen & HF). split; [done|]. exists a, (results ++ [m]).
        split_and!; try done.
        + etransitivity; [exact Hp|]. rewrite Hsame. by rewrite <- app_assoc.
        + rewrite length_app, Hlen. cbn. lia.
        + rewrite (take_S_r _ _ id) by done. apply Forall2_app; [done|by constructor].
      - destruct Hs as (_ & Hn & _). by rewrite Hn, lookup_nil in Hid. }
    specialize (IH r1 Hr1). by destruct (persist_results _ _ _ _).
Qed.

Lemma persist_ready_results_ok p n base st r :
  response_inv p n base r ->
  let '(r', _) := persist_ready_results legacy_id st r in
  response_inv p n base r' /\ rs_scheduler r' = rs_scheduler r /\ rs_events r' = rs_events r
  /\ rs_ended r' = rs_ended r.
Proof. apply persist_results_ok. Qed.

(** ** The steps *)

Definition loop_response (l : Loop) : Response := match l with Polling r | Left r _ _ => r end.
Definition loop_inv (p : PermissionPolicy) (n : nat) (base : list ConversationMessage) (l : Loop) : Prop :=
  response_inv p n base (loop_response l)
  /\ match l with
     | Left r None false => has_stop (rs_events r) = true /\ is_finished (rs_scheduler r) = true
     | Polling r => rs_ended r = true -> has_stop (rs_events r) = true
     | _ => True
     end.

Lemma has_stop_snoc events e : has_stop events = true -> has_stop (events ++ [e]) = true.
Proof. unfold has_stop. rewrite existsb_app. by intros ->. Qed.

Lemma polled_loop p n base r e :
  response_inv p n base r -> (rs_ended r = true -> has_stop (rs_events r) = true) ->
  loop_inv p n base (polled (r, e)).
Proof. intros H Hs. by destruct e. Qed.

Lemma checkpoint_stopped_ok p n base st r :
  response_inv p n base r ->
  let '(r', _) := checkpoint_stopped_assistant legacy_id running_model st r in
  response_inv p n base r' /\ rs_events r' = rs_events r.
Proof.
  intros Hinv. unfold checkpoint_stopped_assistant. destruct (rs_assistant_index r) as [i|] eqn:Ei; [|done].
  destruct (build_assistant_message (rs_events r)) as [b|] eqn:Eb; [|done].
  destruct Hinv as [Hok Hev Hs].
  destruct (built_ok _ _ Eb) as [Hrole Hcalls].
  pose proof (checkpoint_assistant_ok base st (set_model (Some running_model) (built_message b)) r Hrole) as H.
  cbn [blocks set_model] in H. rewrite Hcalls, Hev in H. specialize (H (reflexivity _) Hs). destruct (checkpoint_assistant _ _ _ _) as [r' e]; destruct H as ((H1 & _) & H2 & H3 & H4 & _).
  split; [|done]. split; [by rewrite H1|by rewrite H1, H2|done].
Qed.

Lemma record_event_ok p n base st e r :
  sched_ok is_concurrency_safe p n (rs_scheduler r) ->
  omap event_id (rs_events r ++ [e]) = ids (rs_scheduler r) ->
  saved base (rs_messages r) (rs_assistant_index r) (ids (rs_scheduler r)) (rs_persisted_results r) ->
  rs_ended r = false ->
  loop_inv p n base (record_event legacy_id running_model st e r).
Proof.
  intros Hok Hev Hs Hended. unfold record_event.
  assert (response_inv p n base (set_events (rs_events r ++ [e]) r)) as Hinv by by split.
  destruct e; try (by split; [|cbn; rewrite Hended]).
  pose proof (checkpoint_stopped_ok p n base st _ Hinv) as H.
  destruct (checkpoint_stopped_assistant _ _ _ _) as [r' e']. destruct H as [H1 H2].
  apply polled_loop; [done|]. intros _. rewrite H2. unfold has_stop. cbn. rewrite existsb_app. cbn.
  by rewrite orb_true_r.
Qed.

Lemma enqueue_ids s id name input parent s' :
  enqueue is_concurrency_safe s id name input parent = Ok s' -> ids s' = ids s ++ [id].
Proof. unfold enqueue, ids. destruct (existsb _ _); [done|]. intros [= <-]. cbn. by rewrite map_app. Qed.

Lemma saved_boundary p n base b r : response_inv p n base r -> response_inv p n base (set_boundary b r).
Proof. by intros [H1 H2 H3]. Qed.

Lemma on_event_ok p n base st allow_tools e r :
  response_inv p n base r -> rs_ended r = false ->
  exists l, on_event legacy_id is_concurrency_safe running_model st allow_tools e r = Some l /\ loop_inv p n base l.
Proof.
  intros Hinv Hended. unfold on_event. apply (saved_boundary _ _ _ (next_response_boundary e (rs_at_boundary r))) in Hinv.
  set (r1 := set_boundary _ r) in *. assert (rs_ended r1 = false) as Hended1 by done. clearbody r1. clear Hended r.
  pose proof Hinv as [Hok Hev Hs].
  assert (event_id e = None -> loop_inv p n base (record_event legacy_id running_model st e r1)) as Hother.
  { intros He. apply record_event_ok; try done. rewrite omap_app. cbn. by rewrite He, app_nil_r. }
  destruct e; try (by eexists; split; [done|apply Hother]).
  destruct allow_tools; cbn [negb]; [|by eexists].
  destruct (checkpoint_tool_parent_ok p n base st id name input thought_signature r1 Hinv)
    as (r' & parent & -> & (E1 & E2) & E3 & E4 & Hs' & Hs2). cbn [mbind option_bind].
  assert (response_inv p n base r') as Hinv' by (split; [by rewrite E1|by rewrite E1, E3|done]).
  destruct parent as [parent|e]; [|by eexists].
  specialize (Hs2 (ex_intro _ _ eq_refl)).
  destruct (enqueue _ _ _ _ _ _) as [s|e] eqn:En; [|by eexists].
  eexists. split; [done|]. pose proof (enqueue_ids _ _ _ _ _ _ En) as Hids. apply record_event_ok.
  - eapply enqueue_ok; [exact (ri_sched _ _ _ _ Hinv')|exact En].
  - cbn [set_scheduler rs_scheduler rs_events]. rewrite omap_app, E3, Hev, Hids. cbn. by rewrite E1.
  - cbn [set_scheduler rs_scheduler rs_messages rs_assistant_index rs_persisted_results]. by rewrite Hids.
  - cbn. by rewrite E2.
Qed.

(** A scheduler that keeps its calls may replace the one of the response. *)
Lemma set_scheduler_ok p n base s r :
  response_inv p n base r -> sched_ok is_concurrency_safe p n s -> ids s = ids (rs_scheduler r) ->
  response_inv p n base (set_scheduler s r).
Proof. intros [H1 H2 H3] Hs E. split; cbn; [done|by rewrite E|by rewrite E]. Qed.

Lemma on_update_ok p n base st u s r :
  response_inv p n base r -> (rs_ended r = true -> has_stop (rs_events r) = true) ->
  take_update (rs_scheduler r) = Some (u, s) ->
  exists l, on_update legacy_id offload st u s r = Some l /\ loop_inv p n base l.
Proof.
  intros Hinv Hended Hu. pose proof Hinv as [Hok _ _].
  destruct (deliver_ok is_concurrency_safe offload p n _ u s Hok Hu) as (s' & E & Hok' & _ & Hids).
  unfold on_update. rewrite E. cbn [mbind option_bind]. eexists. split; [done|].
  pose proof (persist_ready_results_ok p n base st _ (set_scheduler_ok p n base s' r Hinv Hok' Hids)) as H.
  destruct (persist_ready_results _ _ _) as [r' e]. destruct H as (H1 & _ & H2 & H3).
  apply polled_loop; [done|]. rewrite H2, H3. exact Hended.
Qed.

Lemma response_step_ok allow_tools p n base r l :
  loop_inv p n base (Polling r) ->
  response_step legacy_id is_concurrency_safe offload running_model allow_tools r l -> loop_inv p n base l.
Proof.
  intros [Hinv Hstop] Hstep. cbn [loop_response] in *. pose proof Hinv as [Hok Hev Hs].
  destruct Hstep as [Hd|Hd|Hd He Hb|prompter Hd|aborted k i w stage s Hd Hk Hst Ha|st u s l Hd Hu Hl
                    |st e l Hd He Hl|error Hd He|Hd He].
  - split; [done|]. unfold response_done in Hd. apply andb_true_iff in Hd as [Hd Hf]. split; [by apply Hstop|done].
  - by split.
  - assert (has_stop (rs_events r ++ [EMessageStop]) = true) as Hnew.
    { unfold has_stop. rewrite existsb_app. cbn. by rewrite orb_true_r. }
    split; [|by intros _]. split; cbn; [done| |done].
    change (rs_events (set_ended true r)) with (rs_events r). rewrite omap_app. cbn. by rewrite app_nil_r.
  - split; [|done]. apply set_scheduler_ok; [done|by apply admit_ok|by eapply admit_ids].
  - split; [|done]. destruct (advance_ok is_concurrency_safe interrupted_bash offload p n _ k i w stage aborted Hok Hk Hst) as (s' & E & H & _).
    rewrite E in Ha. injection Ha as <-. apply set_scheduler_ok; [done|done|]. by apply advance_ids in E.
  - destruct (on_update_ok p n base st u s r Hinv Hstop Hu) as (l' & E & H). congruence.
  - destruct (on_event_ok p n base st allow_tools e r Hinv He) as (l' & E & H). congruence.
  - by split.
  - unfold on_end. cbn [set_ended rs_events]. destruct (has_stop (rs_events r)) eqn:Es; by split.
Qed.

Lemma response_run_ok allow_tools p n base l :
  response_run legacy_id is_concurrency_safe offload running_model allow_tools p n base l -> loop_inv p n base l.
Proof.
  induction 1 as [|r l _ IH Hstep]; [|by eapply response_step_ok].
  split; [|done]. split; cbn; [apply new_ok|done|by split_and!].
Qed.

(** Without permission for tools no call is ever dispatched. *)
Lemma checkpoint_assistant_scheduler st m r :
  rs_scheduler (checkpoint_assistant legacy_id st m r).1 = rs_scheduler r.
Proof.
  unfold checkpoint_assistant. destruct (rs_assistant_index r) as [i|].
  - by destruct (update_assistant_message _ _ _ _).
  - by destruct (push_message _ _ _ _) as [messages [e|]].
Qed.

Lemma record_event_scheduler st e r :
  rs_scheduler (loop_response (record_event legacy_id running_model st e r)) = rs_scheduler r.
Proof.
  unfold record_event. destruct e; try done. unfold checkpoint_stopped_assistant.
  destruct (rs_assistant_index _); [|done]. destruct (build_assistant_message _) as [b|]; [|done].
  change (rs_scheduler r) with (rs_scheduler (set_events (rs_events r ++ [EMessageStop]) r)).
  rewrite <- (checkpoint_assistant_scheduler st (set_model (Some running_model) (built_message b))
    (set_events (rs_events r ++ [EMessageStop]) r)).
  by destruct (checkpoint_assistant _ _ _ _) as [r' [e|]].
Qed.

Lemma forbidden_step_ids p n base r l :
  loop_inv p n base (Polling r) ->
  response_step legacy_id is_concurrency_safe offload running_model false r l ->
  ids (rs_scheduler (loop_response l)) = ids (rs_scheduler r).
Proof.
  intros [Hinv _] Hstep. pose proof (ri_sched _ _ _ _ Hinv) as Hok. cbn [loop_response] in *.
  destruct Hstep as [Hd|Hd|Hd He Hb|prompter Hd|aborted k i w stage s Hd Hk Hst Ha|st u s l Hd Hu Hl
                    |st e l Hd He Hl|error Hd He|Hd He]; try done.
  - by eapply admit_ids.
  - by apply advance_ids in Ha.
  - destruct (deliver_ok is_concurrency_safe offload p n _ u s Hok Hu) as (s' & E & Hok' & _ & Hids).
    unfold on_update in Hl. rewrite E in Hl. cbn [mbind option_bind] in Hl. injection Hl as <-.
    pose proof (persist_ready_results_ok p n base st _ (set_scheduler_ok p n base s' r Hinv Hok' Hids)) as H.
    destruct (persist_ready_results _ _ _) as [r' e]. destruct H as (_ & H & _).
    destruct e; cbn; by rewrite H.
  - unfold on_event in Hl. destruct e; apply (inj Some) in Hl as <-; by rewrite ?record_event_scheduler.
  - unfold on_end. by destruct (has_stop _).
Qed.

Lemma no_tools_no_calls p n base l :
  response_run legacy_id is_concurrency_safe offload running_model false p n base l ->
  calls (rs_scheduler (loop_response l)) = [].
Proof.
  intros Hrun. assert (ids (rs_scheduler (loop_response l)) = []) as H; [|by apply map_eq_nil in H].
  induction Hrun as [|r l Hrun IH Hstep]; [done|]. pose proof (response_run_ok _ _ _ _ _ Hrun) as Hinv.
  by rewrite (forbidden_step_ids _ _ _ _ _ Hinv Hstep).
Qed.

(** While nothing failed, the assistant message is saved only with a call. *)
Definition dispatched (r : Response) : Prop := ids (rs_scheduler r) = [] -> rs_assistant_index r = None.
Definition loop_dispatched (l : Loop) : Prop :=
  match l with Polling r | Left r None false => dispatched r | Left _ _ _ => True end.

Lemma persist_results_index st fuel : forall r,
  rs_assistant_index (persist_results legacy_id st fuel r).1 = rs_assistant_index r.
Proof.
  induction fuel as [|fuel IH]; intros r; [done|]. cbn [persist_results].
  destruct (scheduler_result _ _); [|done]. destruct (push_message _ _ _ _) as [messages [e|]]; [done|]. by rewrite IH.
Qed.

Lemma polled_dispatched r e : dispatched r -> loop_dispatched (polled (r, e)).
Proof. by destruct e. Qed.

Lemma record_event_dispatched st e r :
  dispatched r -> loop_dispatched (record_event legacy_id running_model st e r).
Proof.
  intros H. unfold record_event. destruct e; try done. unfold checkpoint_stopped_assistant.
  destruct (rs_assistant_index _) as [i|] eqn:Ei; [|by apply polled_dispatched].
  destruct (build_assistant_message _) as [b|]; [|by apply polled_dispatched].
  pose proof (checkpoint_assistant_scheduler st (set_model (Some running_model) (built_message b))
    (set_events (rs_events r ++ [EMessageStop]) r)) as Hs.
  destruct (checkpoint_assistant _ _ _ _) as [r' e]. apply polled_dispatched. cbn in Hs.
  intros Hn. rewrite Hs in Hn. specialize (H Hn). cbn in Ei. congruence.
Qed.

Lemma dispatched_step allow_tools p n base r l :
  loop_inv p n base (Polling r) -> dispatched r ->
  response_step legacy_id is_concurrency_safe offload running_model allow_tools r l -> loop_dispatched l.
Proof.
  intros [Hinv _] Hdis Hstep. pose proof (ri_sched _ _ _ _ Hinv) as Hok. cbn [loop_response] in *.
  destruct Hstep as [Hd|Hd|Hd He Hb|prompter Hd|aborted k i w stage s Hd Hk Hst Ha|st u s l Hd Hu Hl
                    |st e l Hd He Hl|error Hd He|Hd He]; try done.
  - intros Hn. apply Hdis. unfold ids in *. cbn [set_scheduler rs_scheduler] in Hn.
    by rewrite (admit_ids is_concurrency_safe p n _ prompter Hok) in Hn.
  - intros Hn. apply Hdis. apply advance_ids in Ha. unfold ids in *. cbn [set_scheduler rs_scheduler] in Hn. by rewrite Ha in Hn.
  - destruct (deliver_ok is_concurrency_safe offload p n _ u s Hok Hu) as (s' & E & Hok' & _ & Hids).
    unfold on_update in Hl. rewrite E in Hl. cbn [mbind option_bind] in Hl. apply (inj Some) in Hl as <-.
    pose proof (persist_ready_results_ok p n base st _ (set_scheduler_ok p n base s' r Hinv Hok' Hids)) as H.
    pose proof (persist_results_index st (S (length (calls s'))) (set_scheduler s' r)) as Hi.
    unfold persist_ready_results in *. cbn [set_scheduler rs_scheduler rs_assistant_index] in *.
    destruct (persist_results _ _ _ _) as [r' e]. destruct H as (_ & H & _).
    apply polled_dispatched. intros Hn. cbn [fst] in Hi. rewrite Hi. apply Hdis. unfold ids in *. rewrite H in Hn. by rewrite <- Hids.
  - unfold on_event in Hl. set (r1 := set_boundary _ r) in Hl.
    assert (dispatched r1) as Hr1 by exact Hdis.
    assert (response_inv p n base r1) as Hinv1 by by apply saved_boundary.
    clearbody r1. destruct e; try (apply (inj Some) in Hl as <-; by apply record_event_dispatched).
    destruct allow_tools; cbn [negb] in Hl; [|by apply (inj Some) in Hl as <-].
    destruct (checkpoint_tool_parent _ _ _ _ _) as [[r' parent]|]; [|done]. cbn [mbind option_bind] in Hl.
    destruct parent as [parent|e]; [|by apply (inj Some) in Hl as <-].
    destruct (enqueue _ _ _ _ _ _) as [s|e] eqn:En; [|by apply (inj Some) in Hl as <-].
    apply (inj Some) in Hl as <-. apply record_event_dispatched. intros Hn. exfalso.
    cbn [set_scheduler rs_scheduler] in Hn. rewrite (enqueue_ids _ _ _ _ _ _ En) in Hn. by destruct (ids (rs_scheduler r')).
  - unfold on_end. by destruct (has_stop _).
Qed.

Lemma response_run_dispatched allow_tools p n base l :
  response_run legacy_id is_concurrency_safe offload running_model allow_tools p n base l -> loop_dispatched l.
Proof.
  induction 1 as [|r l Hrun IH Hstep]; [done|]. eapply dispatched_step; [by eapply response_run_ok|exact IH|exact Hstep].
Qed.

(** ** After the loop *)

Lemma close_response_ok p n base cancelled r :
  response_inv p n base r ->
  exists r', close_response interrupted_bash offload cancelled r = Some r' /\ response_inv p n base r'
    /\ has_stop (rs_events r') = true /\ is_finished (rs_scheduler r') = true
    /\ (ids (rs_scheduler r') = ids (rs_scheduler r) /\ rs_assistant_index r' = rs_assistant_index r)
    /\ exists b, build_assistant_message (rs_events r') = Ok b.
Proof.
  intros Hinv. pose proof Hinv as [Hok Hev _]. unfold close_response.
  destruct (cancel_and_drain is_concurrency_safe interrupted_bash offload p n (rs_scheduler r) Hok)
    as (s1 & s2 & -> & E2 & Hok2 & Hf & Hids).
  cbn [mbind option_bind]. rewrite E2. cbn [mbind option_bind]. eexists. split; [done|].
  pose proof (set_scheduler_ok p n base s2 r Hinv Hok2 Hids) as [H1 H2 H3].
  set (note := ETextDelta _). split_and!; [|cbn| | | |].
  - split; cbn; [done| |done]. rewrite omap_app. cbn. rewrite app_nil_r. exact H2.
  - unfold has_stop. rewrite existsb_app. cbn. by rewrite orb_true_r.
  - done.
  - done.
  - done.
  - apply build_with_text. by destruct cancelled.
Qed.

(** What [conclude] hands to the turn. *)
Record concluded (base : list ConversationMessage) (l : list string) (x : ExecutedResponse) : Prop := {
  co_events : omap event_id (ex_events x) = l;
  co_results : Forall2 answers (ex_results x) l;
  co_saved : saved base (ex_messages x) (ex_assistant_index x) l (ex_persisted_results x);
  co_stop : has_stop (ex_events x) = true
}.

(** Without a message for its events, a response left the transcript as it was. *)
Definition nothing_left (base : list ConversationMessage) (x : ExecutedResponse) : Prop :=
  forall e, build_assistant_message (ex_events x) = Err e -> same_messages (ex_messages x) base.

Lemma conclude_ok p n base st r error cancelled :
  loop_inv p n base (Left r error cancelled) -> loop_dispatched (Left r error cancelled) ->
  exists x, conclude legacy_id interrupted_bash offload st r error cancelled = Some x
    /\ concluded base (ids (rs_scheduler r)) x
    /\ NoDup (ids (rs_scheduler r))
    /\ nothing_left base x
    /\ ((error <> None \/ cancelled = true) -> exists b, build_assistant_message (ex_events x) = Ok b).
Proof.
  intros [Hinv Hleft] Hdis. cbn [loop_response] in *. unfold conclude.
  assert (exists r', (if cancelled || match error with Some _ => true | None => false end
                      then close_response interrupted_bash offload cancelled r else Some r) = Some r'
    /\ response_inv p n base r' /\ has_stop (rs_events r') = true /\ is_finished (rs_scheduler r') = true
    /\ (ids (rs_scheduler r') = ids (rs_scheduler r) /\ rs_assistant_index r' = rs_assistant_index r)
    /\ ((error <> None \/ cancelled = true) -> exists b, build_assistant_message (rs_events r') = Ok b))
    as (r' & E & Hinv' & Hstop & Hf & (Hids & Hindex) & Hb).
  { destruct (close_response_ok p n base cancelled r Hinv) as (r' & E & H1 & H2 & H3 & (H4 & H4') & H5).
    destruct cancelled; cbn [orb]; [by exists r'; split_and!|]. destruct error as [e|]; [by exists r'; split_and!|].
    exists r. destruct Hleft. split_and!; try done. by intros [|]. }
  rewrite E. cbn [mbind option_bind].
  pose proof (persist_ready_results_ok p n base st r' Hinv') as Hp.
  pose proof (persist_results_index st (S (length (calls (rs_scheduler r')))) r') as Hpi.
  unfold persist_ready_results in *.
  destruct (persist_results _ _ _ r') as [r2 failure]. cbn [fst] in Hpi. destruct Hp as ([Hok Hev Hs] & H1 & H2 & H3).
  destruct (finished_results is_concurrency_safe p n (rs_scheduler r2) Hok) as (results & Er & HF); [by rewrite H1|].
  rewrite Er. cbn [mbind option_bind]. eexists. split; [done|].
  assert (ids (rs_scheduler r2) = ids (rs_scheduler r)) as Hids2 by by rewrite H1.
  split_and!.
  - split; cbn; [by rewrite Hev|by rewrite <- Hids2|by rewrite <- Hids2|by rewrite H2].
  - destruct Hok as (_ & _ & Hsi & _). rewrite <- Hids2. apply (inv_ids _ _ _ _ _ _ Hsi).
  - intros e. cbn [ex_events ex_messages]. intros Hbuild. rewrite H2 in Hbuild.
    assert (error = None /\ cancelled = false) as [-> ->].
    { destruct error; [destruct Hb as [b Hb]; [by left|congruence]|].
      destruct cancelled; [destruct Hb as [b Hb]; [by right|congruence]|done]. }
    pose proof (build_fails _ _ Hbuild Hstop) as Hnone.
    rewrite H2, Hids2 in Hev. rewrite Hnone in Hev. specialize (Hdis (eq_sym Hev)).
    rewrite Hpi, Hindex, Hdis in Hs. by destruct Hs.
  - intros H. cbn. rewrite H2. by apply Hb.
Qed.

(** ** Claims *)

(** C24. A call is saved before it may run.  On every interleaving of the stream, the inbox,
    the tools and storage failures, at every moment of the loop, every call the scheduler
    holds is in the transcript already: the message at the assistant index is an assistant
    message whose tool calls begin with the scheduler's calls in order; everything before it
    is the transcript the response started from, everything behind it is the results of the
    first calls, in order; and no call is there at all when tools are not allowed. *)
Theorem calls_are_saved_before_they_run allow_tools p n base l
    (Hrun : response_run legacy_id is_concurrency_safe offload running_model allow_tools p n base l)
    (Hcall : calls (rs_scheduler (loop_response l)) <> []) :
  allow_tools = true
  /\ exists a results,
    rs_assistant_index (loop_response l) = Some (length base)
    /\ same_messages (rs_messages (loop_response l)) (base ++ a :: results)
    /\ role a = RAssistant
    /\ map inv_id (calls (rs_scheduler (loop_response l))) `prefix_of` call_ids (blocks a)
    /\ Forall2 answers results
        (take (rs_persisted_results (loop_response l)) (map inv_id (calls (rs_scheduler (loop_response l))))).
Proof.
  split.
  - destruct allow_tools; [done|]. by apply no_tools_no_calls in Hrun.
  - apply response_run_ok in Hrun as [[_ _ Hs] _]. unfold saved, ids in Hs.
    destruct (rs_assistant_index (loop_response l)) as [i|].
    + destruct Hs as (-> & a & results & H1 & H2 & H3 & _ & H5). by exists a, results.
    + destruct Hs as (_ & Hids & _). by destruct (calls (rs_scheduler (loop_response l))).
Qed.

(** C37. Closing a response never panics and leaves no call open: whatever state the loop was
    left in, and whatever the store answers, there is exactly one result per call, in the
    order of the calls of the recorded events, the results already saved are the first of
    them, and after a failure or a cancellation the events make a message. *)
Theorem response_concludes allow_tools p n base r error cancelled st
    (Hrun : response_run legacy_id is_concurrency_safe offload running_model allow_tools p n base (Left r error cancelled)) :
  exists x, conclude legacy_id interrupted_bash offload st r error cancelled = Some x
    /\ Forall2 answers (ex_results x) (omap event_id (ex_events x))
    /\ NoDup (omap event_id (ex_events x))
    /\ ex_persisted_results x <= length (ex_results x)
    /\ ((error <> None \/ cancelled = true) -> exists b, build_assistant_message (ex_events x) = Ok b).
Proof.
  pose proof (response_run_dispatched _ _ _ _ _ Hrun) as Hdis. apply response_run_ok in Hrun.
  destruct (conclude_ok p n base st r error cancelled Hrun Hdis) as (x & E & [H1 H2 H3 H4] & Hnd & _ & Hb).
  exists x. split_and!; [done|by rewrite H1|by rewrite H1| |done].
  apply saved_persisted_le in H3. by rewrite (Forall2_length _ _ _ H2).
Qed.

End Safety.

(** ** A run, for the witnesses: one call is streamed, then the turn is cancelled *)

Definition working_storage : Storage :=
  {| st_activate := None; st_context := None; st_uuid := "m2"; st_head := Some (Ok (Some "m1"%string));
     st_update := Some (Ok true); st_append := None |}.
Definition plain_legacy_id (index : nat) (m : ConversationMessage) : string := "legacy".
Definition asked : list ConversationMessage := [user_blocks [Text "look"]].
Definition read_call : AssistantEvent := EToolUse "a" "Read" "{}" None.

Definition sample_response : Response :=
  match on_event plain_legacy_id reads_share "model" working_storage true read_call
          (response_new everything_allowed 2 asked) with
  | Some (Polling r) => r
  | _ => response_new everything_allowed 2 asked
  end.

Lemma sample_response_run :
  response_run plain_legacy_id reads_share keep_output "model" true everything_allowed 2 asked (Polling sample_response).
Proof.
  eapply response_next; [apply response_start|].
  eapply (on_stream_event _ _ _ _ _ _ working_storage read_call); [reflexivity..|vm_compute; reflexivity].
Qed.

Lemma calls_are_saved_before_they_run_witness :
  true = true
  /\ exists a results,
    rs_assistant_index sample_response = Some 1
    /\ same_messages (rs_messages sample_response) (asked ++ a :: results)
    /\ role a = RAssistant
    /\ ["a"%string] `prefix_of` call_ids (blocks a)
    /\ Forall2 answers results (take (rs_persisted_results sample_response) ["a"%string]).
Proof.
  apply (calls_are_saved_before_they_run plain_legacy_id reads_share "interrupted" keep_output "model" true
           everything_allowed 2 asked (Polling sample_response) sample_response_run).
  vm_compute. discriminate.
Defined.

Lemma response_concludes_witness :
  exists x, conclude plain_legacy_id "interrupted" keep_output (fun _ => working_storage) sample_response None true = Some x
    /\ Forall2 answers (ex_results x) (omap event_id (ex_events x))
    /\ NoDup (omap event_id (ex_events x))
    /\ ex_persisted_results x <= length (ex_results x)
    /\ ((@None RuntimeError <> None \/ true = true) -> exists b, build_assistant_message (ex_events x) = Ok b).
Proof.
  apply (response_concludes plain_legacy_id reads_share "interrupted" keep_output "model" true everything_allowed 2 asked).
  eapply response_next; [apply sample_response_run|]. apply on_abort. vm_compute. reflexivity.
Defined.
