(* ===== verification/TurnLoop.v ===== *)
(** * The turn loop (runtime/src/conversation/turn.rs)

    One turn: its input is committed, then the loop prepares an iteration, keeps the
    transcript within the model's budget, opens a stream, drives the response with its
    tools and settles what it left, until the model answers without calling tools.  The
    limits of the turn (iterations, steps, compactions, continuations) live in its
    progress.  What the provider, the store, the compactor and the abort signal answer is
    the environment of each operation; a panic, or fuel that runs out, is [None].
    Observers, trace records and file tracking are not modelled. *)
From S2P Require Import Prelude.
From stdpp Require Import list gmap.
From stdpp Require pretty.
From S2P Require Import Compaction.
From S2P Require Import RustStr Json Conversation Permissions TurnInput AssistantMessage Transcript ToolScheduler ResponseLoop.
Import stdpp.pretty.

Definition MAX_STREAM_CONTINUATIONS : N := 3.
Definition MAX_TURN_COMPACTIONS : nat := 8.
Definition MAX_CONSECUTIVE_AUTO_COMPACT_NOOPS : N := 3.

Definition UNANSWERED_TURN_TEXT : string := "No response requested.".
Definition EMPTY_POST_TOOL_DELIVERABLE_REMINDER : string :=
  ("<system-reminder>" ++ newline ++
   "The previous model response was empty after a tool completed. The user requested a file deliverable, but the current turn has not produced a matching final file yet. Continue the same task now: create or execute whatever is needed to produce the requested file, then verify it exists before ending the turn."
   ++ newline ++ "</system-reminder>")%string.
Definition STREAM_INTERRUPTED_REMINDER : string :=
  ("<system-reminder>" ++ newline ++
   "Your previous response was cut off by a connection error before it finished. Continue from where it stopped. Do not repeat what you already wrote."
   ++ newline ++ "</system-reminder>")%string.
Definition step_limit_reminder (completed : N) : string :=
  ("<system-reminder>" ++ newline ++ "The computation step limit (" ++ pretty completed
   ++ " steps) has been reached. No further tools or execution steps are available in this turn. Answer the user's question using the results already obtained. Clearly distinguish completed work, findings, and remaining uncertainties. Explain any unfinished work and suggest concrete next steps for discussion with the user. Do not claim unperformed work is complete. Respond in the user's language."
   ++ newline ++ "</system-reminder>")%string.

(** ** Progress of a turn *)

Record AutoCompactionEvent := { removed_message_count : nat; ac_report : option string }.

Definition merge_auto_compaction (first second : option AutoCompactionEvent) : option AutoCompactionEvent :=
  match first, second with
  | None, None => None
  | Some e, None | None, Some e => Some e
  | Some a, Some b => Some {| removed_message_count := removed_message_count a + removed_message_count b;
                              ac_report := ac_report b |}
  end.

Record StepProgress := { completed : N; final_requested : bool }.
Record TurnRecovery := {
  retried_empty_post_tool : bool;
  repaired_thinking : bool;
  stream_continuations : N
}.
Record TurnCompactions := {
  compaction_count : nat;
  recorded_exhausted : bool;
  overflow : option AutoCompactionEvent
}.
Record TurnProgress := {
  assistant_messages : list ConversationMessage;
  tool_results : list ConversationMessage;
  prompt_cache_events : list PromptCacheEvent;
  iterations : N;
  response_model : option string;
  steps : StepProgress;
  recovery : TurnRecovery;
  compactions : TurnCompactions
}.

Definition progress_default : TurnProgress :=
  {| assistant_messages := []; tool_results := []; prompt_cache_events := []; iterations := 0;
     response_model := None; steps := {| completed := 0; final_requested := false |};
     recovery := {| retried_empty_post_tool := false; repaired_thinking := false; stream_continuations := 0 |};
     compactions := {| compaction_count := 0; recorded_exhausted := false; overflow := None |} |}.

(** The session's messages and inbox, the context size the provider last reported, the
    automatic compactions in a row that changed nothing, and the progress. *)
Record Turn := {
  t_messages : list ConversationMessage;
  t_inbox : Inbox;
  t_reported : N;
  t_noops : N;
  t_progress : TurnProgress
}.

Definition with_messages (l : list ConversationMessage) (t : Turn) : Turn :=
  {| t_messages := l; t_inbox := t_inbox t; t_reported := t_reported t; t_noops := t_noops t;
     t_progress := t_progress t |}.
Definition with_inbox (b : Inbox) (t : Turn) : Turn :=
  {| t_messages := t_messages t; t_inbox := b; t_reported := t_reported t; t_noops := t_noops t;
     t_progress := t_progress t |}.
Definition with_reported (n : N) (t : Turn) : Turn :=
  {| t_messages := t_messages t; t_inbox := t_inbox t; t_reported := n; t_noops := t_noops t;
     t_progress := t_progress t |}.
Definition with_noops (n : N) (t : Turn) : Turn :=
  {| t_messages := t_messages t; t_inbox := t_inbox t; t_reported := t_reported t; t_noops := n;
     t_progress := t_progress t |}.
Definition with_progress (p : TurnProgress) (t : Turn) : Turn :=
  {| t_messages := t_messages t; t_inbox := t_inbox t; t_reported := t_reported t; t_noops := t_noops t;
     t_progress := p |}.

Definition set_iterations (n : N) (p : TurnProgress) : TurnProgress :=
  {| assistant_messages := assistant_messages p; tool_results := tool_results p;
     prompt_cache_events := prompt_cache_events p; iterations := n; response_model := response_model p;
     steps := steps p; recovery := recovery p; compactions := compactions p |}.
Definition set_steps (s : StepProgress) (p : TurnProgress) : TurnProgress :=
  {| assistant_messages := assistant_messages p; tool_results := tool_results p;
     prompt_cache_events := prompt_cache_events p; iterations := iterations p; response_model := response_model p;
     steps := s; recovery := recovery p; compactions := compactions p |}.
Definition set_recovery (r : TurnRecovery) (p : TurnProgress) : TurnProgress :=
  {| assistant_messages := assistant_messages p; tool_results := tool_results p;
     prompt_cache_events := prompt_cache_events p; iterations := iterations p; response_model := response_model p;
     steps := steps p; recovery := r; compactions := compactions p |}.
Definition set_compactions (c : TurnCompactions) (p : TurnProgress) : TurnProgress :=
  {| assistant_messages := assistant_messages p; tool_results := tool_results p;
     prompt_cache_events := prompt_cache_events p; iterations := iterations p; response_model := response_model p;
     steps := steps p; recovery := recovery p; compactions := c |}.
Definition set_response_model (m : option string) (p : TurnProgress) : TurnProgress :=
  {| assistant_messages := assistant_messages p; tool_results := tool_results p;
     prompt_cache_events := prompt_cache_events p; iterations := iterations p; response_model := m;
     steps := steps p; recovery := recovery p; compactions := compactions p |}.
Definition add_assistant (m : ConversationMessage) (events : list PromptCacheEvent) (p : TurnProgress)
  : TurnProgress :=
  {| assistant_messages := assistant_messages p ++ [m]; tool_results := tool_results p;
     prompt_cache_events := prompt_cache_events p ++ events; iterations := iterations p;
     response_model := response_model p; steps := steps p; recovery := recovery p; compactions := compactions p |}.
Definition add_result (m : ConversationMessage) (p : TurnProgress) : TurnProgress :=
  {| assistant_messages := assistant_messages p; tool_results := tool_results p ++ [m];
     prompt_cache_events := prompt_cache_events p; iterations := iterations p;
     response_model := response_model p; steps := steps p; recovery := recovery p; compactions := compactions p |}.

Definition count_compaction (event : AutoCompactionEvent) (p : TurnProgress) : TurnProgress :=
  let c := compactions p in
  set_compactions {| compaction_count := S (compaction_count c); recorded_exhausted := recorded_exhausted c;
                     overflow := merge_auto_compaction (overflow c) (Some event) |} p.
Definition record_exhausted (p : TurnProgress) : TurnProgress :=
  let c := compactions p in
  set_compactions {| compaction_count := compaction_count c; recorded_exhausted := true; overflow := overflow c |} p.

Record TurnSummary := {
  sum_assistant_messages : list ConversationMessage;
  sum_tool_results : list ConversationMessage;
  sum_prompt_cache_events : list PromptCacheEvent;
  sum_iterations : N;
  sum_turn_usage : TokenUsage;
  sum_auto_compaction : option AutoCompactionEvent;
  sum_cancelled : bool;
  sum_response_model : option string
}.

Definition sum_assistant_message_usage (l : list ConversationMessage) : TokenUsage :=
  Compaction.agg_finish
    (fold_left (fun a m => match usage m with Some u => Compaction.agg_push a u | None => a end) l
       Compaction.agg_default).

Definition cancelled_summary (p : TurnProgress) : TurnSummary :=
  {| sum_assistant_messages := assistant_messages p; sum_tool_results := tool_results p;
     sum_prompt_cache_events := prompt_cache_events p; sum_iterations := iterations p;
     sum_turn_usage := sum_assistant_message_usage (assistant_messages p); sum_auto_compaction := None;
     sum_cancelled := true; sum_response_model := None |}.

(** ** The next request against the budget (runtime/src/conversation.rs) *)

Fixpoint unreported_blocks (rev_messages : list ConversationMessage) : list ContentBlock :=
  match rev_messages with
  | [] => []
  | m :: l => if bool_decide (role m = RAssistant) then [] else blocks m ++ unreported_blocks l
  end.

Definition projected_context_tokens (reported : N) (messages : list ConversationMessage) : N :=
  let unreported := N.of_nat (sum_list_with Compaction.estimate_single_block_tokens (unreported_blocks (rev messages))) in
  Compaction.u32_saturating_add reported (if (unreported <=? Compaction.u32_max)%N then unreported else Compaction.u32_max).

Definition fits_now (b : Compaction.ContextBudget) (messages : list ConversationMessage) : bool :=
  Compaction.fits_buffered b (N.of_nat (Compaction.estimate_session_tokens messages)).

Definition next_request_exceeds_budget (b : Compaction.ContextBudget) (reported : N)
    (messages : list ConversationMessage) : bool :=
  negb (fits_now b messages)
  || (Compaction.reported_context_budget b <? projected_context_tokens reported messages)%N.

(** [TokenUsage::context_tokens] and [UsageTracker::current_context_tokens] after a record. *)
Definition has_complete_token_breakdown (u : TokenUsage) : bool :=
  match reported_total_tokens u with Some total => (total =? Compaction.known_total_tokens u)%N | None => true end.
Definition context_tokens (u : TokenUsage) : option N :=
  if has_complete_token_breakdown u then
    Some (Compaction.u32_saturating_add
            (Compaction.u32_saturating_add (input_tokens u) (cache_creation_input_tokens u))
            (cache_read_input_tokens u))
  else None.
Definition record_usage (u : TokenUsage) (t : Turn) : Turn := with_reported (default 0%N (context_tokens u)) t.

(** ** The environment of a turn *)

(** An attempt to compact: what it returns, and the messages and reported context behind it.
    The environment answers every list of messages. *)
Record Attempt := {
  at_result : result string (option AutoCompactionEvent);
  at_messages : list ConversationMessage;
  at_reported : N;
  at_aborted : bool;
  at_failed_report : bool
}.

(** Preparing one input that waits in the inbox. *)
Record InputEnv := {
  ie_aborted : bool;
  ie_prepared : result RuntimeError (list ContentBlock);
  ie_aborted_after : bool;
  ie_storage : Storage
}.

Record RepairEnv := { rp_capture : option string; rp_uuid : nat -> string; rp_save : option string }.

Inductive OpenAnswer :=
| OpenAborted (st : nat -> Storage)
| OpenInput
| OpenStream
| OpenError (error : RuntimeError) (repair : RepairEnv) (attempt : list ConversationMessage -> Attempt).

Inductive TurnStream := StreamReady | StreamYielded | StreamCancelled.

(** A request: whether it asks for the final answer, and its messages. *)
Definition Request : Type := bool * list ConversationMessage.

Inductive Resolved := ResolvedBuilt (b : BuiltAssistantMessage) | ResolvedRetry | ResolvedEmptyPostTool.

Definition is_err {E A} (r : result E A) : bool := match r with Err _ => true | Ok _ => false end.
(** A cancelled attempt, unless it failed on its own account. *)
Definition attempt_stops (a : Attempt) : bool :=
  at_aborted a && negb (is_err (at_result a) && at_failed_report a).
Definition after_attempt (a : Attempt) (t : Turn) : Turn :=
  with_reported (at_reported a) (with_messages (at_messages a) t).

Record TurnConfig := {
  cf_max_steps : option N;
  cf_max_iterations : N;
  cf_auto_compaction : bool;
  cf_auto_compact_threshold : N
}.

Section TurnLoop.
Context {J : SerdeJson}.
Context (legacy_id : nat -> ConversationMessage -> string).
Context (is_concurrency_safe : string -> string -> bool) (interrupted_bash : string).
Context (offload : string -> string -> string -> string).
Context (running_model : string).
Context (cfg : TurnConfig).
(** [ApiClient::context_budget_for_request] of the client for these messages. *)
Context (context_budget : list ConversationMessage -> Compaction.ContextBudget).
(** [has_unfinished_requested_deliverable_after_tool_empty] of the turn's intent. *)
Context (unfinished_deliverable : list ConversationMessage -> list ConversationMessage -> bool).

Definition exceeds (t : Turn) : bool :=
  next_request_exceeds_budget (context_budget (t_messages t)) (t_reported t) (t_messages t).

Definition push (st : Storage) (m : ConversationMessage) (t : Turn) : Turn * option string :=
  let '(messages, error) := push_message legacy_id st m (t_messages t) in (with_messages messages t, error).

(** ** Cancellation before a response *)

Fixpoint push_all (st : nat -> Storage) (k : nat) (l : list ConversationMessage) (t : Turn) : Turn :=
  match l with
  | [] => t
  | m :: l => push_all st (S k) l (push (st k) m t).1
  end.

(** Whatever arrived, the note, and a failed result for each call; failures are ignored. *)
Definition finalize_cancelled_turn (st : nat -> Storage) (events : list AssistantEvent) (t : Turn) : Turn :=
  let blocks := assistant_blocks events ++ [Text CANCELLED_NOTE] in
  let calls := omap (fun b => match b with ToolUse id name _ _ => Some (id, name) | _ => None end) blocks in
  push_all st 0
    (assistant_with_usage blocks None
     :: map (fun c => tool_result c.1 c.2 (interrupted_tool_output interrupted_bash c.2) true) calls) t.

(** ** The input of a turn *)

Definition is_system (m : ConversationMessage) : bool := bool_decide (role m = RSystem).

(** The last message that is not the system's asks for an answer. *)
Definition needs_boundary (messages : list ConversationMessage) : bool :=
  match List.find (fun m => negb (is_system m)) (rev messages) with
  | Some m => bool_decide (role m = RUser) || bool_decide (role m = RTool)
  | None => false
  end.

Definition unanswered_turn_boundary : ConversationMessage := assistant_with_usage [Text UNANSWERED_TURN_TEXT] None.

(** After the probe and the preparation of the blocks. *)
Definition begin_turn_input (probe : option string) (prepared : result RuntimeError (list ContentBlock))
    (st_boundary st_input : Storage) (t : Turn) : Turn * option RuntimeError :=
  match probe with
  | Some error =>
      (t, Some (runtime_error ("Session health probe failed after compaction: " ++ error ++
         ". The session may be in an inconsistent state. Consider starting a fresh session with /session new.")%string))
  | None =>
      match prepared with
      | Err e => (t, Some e)
      | Ok blocks =>
          let '(t, error) := if needs_boundary (t_messages t) then push st_boundary unanswered_turn_boundary t
                             else (t, None) in
          match error with
          | Some e => (t, Some (runtime_error e))
          | None => let '(t, error) := push st_input (user_blocks blocks) t in (t, runtime_error <$> error)
          end
      end
  end.

Fixpoint commit_inputs (env : nat -> InputEnv) (k : nat) (inputs : list TurnInput) (t : Turn)
  : Turn * option RuntimeError :=
  match inputs with
  | [] => (t, None)
  | i :: inputs =>
      if ie_aborted (env k) then (t, None)
      else
        let prepared := match ti_source i with
                        | Human => ie_prepared (env k)
                        | _ => Ok [Text (ti_text i)]
                        end in
        if ie_aborted_after (env k) then (t, None)
        else match prepared with
             | Err e => (t, Some e)
             | Ok blocks =>
                 match push (ie_storage (env k)) (user_blocks blocks) t with
                 | (t, Some e) => (t, Some (runtime_error e))
                 | (t, None) => commit_inputs env (S k) inputs (with_inbox (inbox_committed (t_inbox t) (ti_id i)) t)
                 end
             end
  end.

Definition commit_turn_inputs (env : nat -> InputEnv) (t : Turn) : Turn * option RuntimeError :=
  commit_inputs env 0 (inbox_batch (t_inbox t)) t.

(** ** One iteration, up to its request *)

Definition MAX_ITERATIONS_ERROR : string := "conversation loop exceeded the maximum number of iterations".

Definition prepare_turn_iteration (st : Storage) (t : Turn) : Turn * result RuntimeError bool :=
  let p := t_progress t in
  let final_answer := match cf_max_steps cfg with Some limit => (limit <=? completed (steps p))%N | None => false end in
  let '(t, error) :=
    if final_answer && negb (final_requested (steps p)) then
      match push st (user_blocks [Text (step_limit_reminder (completed (steps p)))]) t with
      | (t, Some e) => (t, Some e)
      | (t, None) => (with_progress (set_steps {| completed := completed (steps p); final_requested := true |} p) t, None)
      end
    else (t, None) in
  match error with
  | Some e => (t, Err (runtime_error e))
  | None =>
      let p := t_progress t in
      let t := with_progress (set_iterations (iterations p + 1) p) t in
      if (cf_max_iterations cfg <? iterations p + 1)%N then (t, Err (runtime_error MAX_ITERATIONS_ERROR))
      else (t, Ok final_answer)
  end.

Definition NOT_COMPACTABLE : string :=
  "Context cannot be compacted safely; history preserved. No model request sent.".
Definition COMPACTION_EXHAUSTED : string :=
  "Compaction retry budget exhausted; history preserved. No model request sent.".
Definition CONTEXT_TOO_LARGE : string :=
  "Context remains too large after compaction; history preserved. No model request sent.".

(** [Ok false]: the turn was cancelled meanwhile.  The environment answers the attempt of
    each count. *)
Fixpoint budget_loop (fuel : nat) (env : nat -> list ConversationMessage -> Attempt) (t : Turn)
  : option (Turn * result RuntimeError bool) :=
  if negb (exceeds t) then
    if negb (fits_now (context_budget (t_messages t)) (t_messages t))
    then Some (t, Err (context_window_blocked CONTEXT_TOO_LARGE))
    else Some (t, Ok true)
  else
    match fuel with
    | O => None
    | S fuel =>
        if negb (cf_auto_compaction cfg) then Some (t, Err auto_compaction_off)
        else
          let again (t : Turn) :=
            if (MAX_TURN_COMPACTIONS <=? compaction_count (compactions (t_progress t))) && exceeds t
            then Some (t, Err (context_window_blocked COMPACTION_EXHAUSTED))
            else budget_loop fuel env t in
          let count := compaction_count (compactions (t_progress t)) in
          if count <? MAX_TURN_COMPACTIONS then
            let a := env count (t_messages t) in
            let t := after_attempt a t in
            if attempt_stops a then Some (t, Ok false)
            else match at_result a with
                 | Err e => Some (t, Err (runtime_error e))
                 | Ok None => Some (t, Err (context_window_blocked NOT_COMPACTABLE))
                 | Ok (Some event) => again (with_progress (count_compaction event (t_progress t)) t)
                 end
          else again (with_progress (record_exhausted (t_progress t)) t)
    end.

Definition enforce_turn_request_budget
  : (nat -> list ConversationMessage -> Attempt) -> Turn -> option (Turn * result RuntimeError bool) :=
  budget_loop (MAX_TURN_COMPACTIONS + 1).

(** ** Opening the stream *)

Definition is_thinking (b : ContentBlock) : bool :=
  match b with Thinking _ _ | RedactedThinking _ => true | _ => false end.

Definition without_thinking (m : ConversationMessage) : ConversationMessage :=
  if bool_decide (role m = RAssistant) then
    {| history := history m; role := role m; blocks := List.filter (fun b => negb (is_thinking b)) (blocks m);
       usage := usage m; model := model m; duration_ms := duration_ms m |}
  else m.

Definition removed_thinking (messages : list ConversationMessage) : nat :=
  sum_list_with (fun m => if bool_decide (role m = RAssistant) then length (List.filter is_thinking (blocks m)) else 0)
    messages.

Definition repair_rejected_thinking (env : RepairEnv) (t : Turn) : Turn * result RuntimeError nat :=
  let preserved error := runtime_error ("Thinking repair preserved history: " ++ error)%string in
  match rp_capture env with
  | Some e => (t, Err (preserved e))
  | None =>
      let removed := removed_thinking (t_messages t) in
      if removed =? 0 then (t, Ok 0)
      else
        let candidate := rebase (rp_uuid env) (map without_thinking (t_messages t)) in
        match rp_save env with
        | Some e => (t, Err (preserved e))
        | None => (with_messages candidate t, Ok removed)
        end
  end.

Definition set_repaired (p : TurnProgress) : TurnProgress :=
  let r := recovery p in
  set_recovery {| retried_empty_post_tool := retried_empty_post_tool r; repaired_thinking := true;
                  stream_continuations := stream_continuations r |} p.

(** A request that failed: the context-window rejection is compacted away when it can be. *)
Definition request_failed (attempt : list ConversationMessage -> Attempt) (error : RuntimeError) (t : Turn)
  : Turn * result RuntimeError TurnStream :=
  if is_kind ContextWindowBlocked error && negb (cf_auto_compaction cfg) then (t, Err auto_compaction_off)
  else if is_kind ContextWindowBlocked error
          && (compaction_count (compactions (t_progress t)) <? MAX_TURN_COMPACTIONS) then
    let a := attempt (t_messages t) in
    let t := after_attempt a t in
    if attempt_stops a then (t, Ok StreamCancelled)
    else match at_result a with
         | Err e => (t, Err (runtime_error e))
         | Ok (Some event) => (with_progress (count_compaction event (t_progress t)) t, Ok StreamYielded)
         | Ok None => (t, Err error)
         end
  else (t, Err error).

(** The requests prepared, and how it ended.  The environment answers the first request and
    the one after a repair. *)
Fixpoint open_loop (fuel : nat) (env : nat -> OpenAnswer) (final_answer : bool) (t : Turn)
  : option (Turn * list Request * result RuntimeError TurnStream) :=
  match fuel with
  | O => None
  | S fuel' =>
      let request := (final_answer, t_messages t) in
      match env fuel with
      | OpenAborted st => Some (finalize_cancelled_turn st [] t, [request], Ok StreamCancelled)
      | OpenInput => Some (t, [request], Ok StreamYielded)
      | OpenStream => Some (t, [request], Ok StreamReady)
      | OpenError error repair attempt =>
          if is_kind ThinkingReplayRejected error && negb (repaired_thinking (recovery (t_progress t))) then
            let t := with_progress (set_repaired (t_progress t)) t in
            match repair_rejected_thinking repair t with
            | (t, Err e) => Some (t, [request], Err e)
            | (t, Ok (S _)) =>
                '(t, requests, answer) ← open_loop fuel' env final_answer t;
                Some (t, request :: requests, answer)
            | (t, Ok O) => let '(t, answer) := request_failed attempt error t in Some (t, [request], answer)
            end
          else let '(t, answer) := request_failed attempt error t in Some (t, [request], answer)
      end
  end.

Definition open_turn_stream (env : nat -> OpenAnswer) (final_answer : bool) (t : Turn)
  : option (Turn * list Request * result RuntimeError TurnStream) := open_loop 2 env final_answer t.

(** ** After the response *)

Definition DELIVERABLE_MISSING : string :=
  "model returned an empty response after tool use before producing the requested file deliverable".

Definition set_retried (p : TurnProgress) : TurnProgress :=
  let r := recovery p in
  set_recovery {| retried_empty_post_tool := true; repaired_thinking := repaired_thinking r;
                  stream_continuations := stream_continuations r |} p.

Definition resolve_turn_assistant (st : Storage) (events : list AssistantEvent) (yielded final_answer : bool)
    (t : Turn) : Turn * result RuntimeError Resolved :=
  match build_assistant_message events with
  | Ok built => (t, Ok (ResolvedBuilt built))
  | Err error =>
      let empty := String.eqb (re_message error) NO_CONTENT in
      let p := t_progress t in
      if yielded && empty then (t, Ok ResolvedRetry)
      else if final_answer then (t, Err error)
      else if match list.last (assistant_messages p) with Some m => has_pending_tool_uses m | None => false end && empty then
        if inbox_has_pending (t_inbox t) then (t, Ok ResolvedRetry)
        else
          let unfinished := unfinished_deliverable (assistant_messages p) (tool_results p) in
          if unfinished && negb (retried_empty_post_tool (recovery p)) then
            let t := with_progress (set_retried p) t in
            match push st (user_blocks [Text EMPTY_POST_TOOL_DELIVERABLE_REMINDER]) t with
            | (t, Some e) => (t, Err (runtime_error e))
            | (t, None) => (t, Ok ResolvedRetry)
            end
          else if unfinished then (t, Err (runtime_error DELIVERABLE_MISSING))
          else
            let '(inbox, sealed) := inbox_seal_if_empty (t_inbox t) in
            let t := with_inbox inbox t in
            if sealed then (t, Ok ResolvedEmptyPostTool) else (t, Ok ResolvedRetry)
      else (t, Err error)
  end.

(** The results that the response had not saved, in order; all of them are reported. *)
Fixpoint save_results (st : nat -> Storage) (persisted index : nat) (results : list ConversationMessage) (t : Turn)
  : Turn * option RuntimeError :=
  match results with
  | [] => (t, None)
  | m :: results =>
      let '(t, error) := if persisted <=? index then push (st index) m t else (t, None) in
      match error with
      | Some e => (t, Some (runtime_error e))
      | None => save_results st persisted (S index) results (with_progress (add_result m (t_progress t)) t)
      end
  end.

Definition running_model_label : option string :=
  if is_empty running_model then None else Some running_model.

(** The start of the exchange and the number of its calls. *)
Definition checkpoint_turn_response (st_assistant : Storage) (st : nat -> Storage) (built : BuiltAssistantMessage)
    (x : ExecutedResponse) (t : Turn) : Turn * result RuntimeError (nat * nat) :=
  let t := with_progress (set_response_model (built_response_model built) (t_progress t)) t in
  let message := set_model running_model_label (built_message built) in
  let t := match built_usage built with Some u => record_usage u t | None => t end in
  let p := t_progress t in
  let t := with_progress {| assistant_messages := assistant_messages p; tool_results := tool_results p;
                            prompt_cache_events := prompt_cache_events p ++ built_prompt_cache_events built;
                            iterations := iterations p; response_model := response_model p; steps := steps p;
                            recovery := recovery p; compactions := compactions p |} t in
  let pending := length (List.filter is_tool_use (blocks message)) in
  let exchange_start := default (length (t_messages t)) (ex_assistant_index x) in
  let '(t, error) :=
    match ex_assistant_index x with
    | Some index => let '(messages, error) := update_assistant_message st_assistant index message (t_messages t) in
                    (with_messages messages t, error)
    | None => push st_assistant message t
    end in
  match error with
  | Some e => (t, Err (runtime_error e))
  | None =>
      let t := with_progress (add_assistant message [] (t_progress t)) t in
      match save_results st (ex_persisted_results x) 0 (ex_results x) t with
      | (t, Some e) => (t, Err e)
      | (t, None) => (t, Ok (exchange_start, pending))
      end
  end.

Definition continue_stream (p : TurnProgress) : TurnProgress :=
  let r := recovery p in
  set_recovery {| retried_empty_post_tool := retried_empty_post_tool r; repaired_thinking := repaired_thinking r;
                  stream_continuations := stream_continuations r + 1 |} p.

(** [save]: the failure of writing the whole transcript, when there is a store. *)
Definition recover_turn_stream (save : option string) (st : Storage) (error : RuntimeError)
    (cancelled : bool) (pending : nat) (t : Turn) : Turn * option RuntimeError :=
  match save with
  | Some failure =>
      (t, Some (runtime_error ("failed to persist interrupted tools: " ++ failure ++ "; provider error: " ++ re_message error)%string))
  | None =>
      if is_kind StreamInterrupted error
         && (stream_continuations (recovery (t_progress t)) <? MAX_STREAM_CONTINUATIONS)%N && negb cancelled then
        let t := with_progress (continue_stream (t_progress t)) t in
        if pending =? 0 then
          let '(t, failure) := push st (user_blocks [Text STREAM_INTERRUPTED_REMINDER]) t in (t, runtime_error <$> failure)
        else (t, None)
      else (t, Some error)
  end.

(** [restart_from_current_exchange] (runtime/src/conversation/tool_context.rs): only the
    exchange that approved a plan stays, behind a continuation. *)
Definition PLAN_CONTINUATION : string :=
  "Exploration context was cleared after the user approved the implementation plan in the following write_plan call.".

Definition restart_from_current_exchange (todos : option string) (uuid : nat -> string) (save : option string)
    (exchange_start : nat) (t : Turn) : option (Turn * option RuntimeError) :=
  if length (t_messages t) <? exchange_start then None
  else
    let continuation := match todos with
                        | Some todos => (PLAN_CONTINUATION ++ blank_line ++ todos)%string
                        | None => PLAN_CONTINUATION
                        end in
    let messages := user_blocks [Text continuation] :: drop exchange_start (t_messages t) in
    match save with
    | Some e => Some (t, Some (runtime_error ("failed to persist approved-plan continuation: " ++ e)%string))
    | None => Some (with_reported 0 (with_messages (record_context_replacement legacy_id uuid messages) t), None)
    end.

Definition apply_tool_context_action (todos : option string) (uuid : nat -> string) (save : option string)
    (action : ToolContextAction) (exchange_start : nat) (t : Turn) : option (Turn * option RuntimeError) :=
  match action with
  | RestartFromCurrentExchange => restart_from_current_exchange todos uuid save exchange_start t
  end.

(** ** The end of a turn *)

(** [maybe_auto_compact]: no attempt while it is off, below the threshold, or after too many
    attempts in a row changed nothing. *)
Definition maybe_auto_compact (a : Attempt) (t : Turn) : Turn * result RuntimeError (option AutoCompactionEvent) :=
  if negb (cf_auto_compaction cfg) then (t, Ok None)
  else if (t_reported t <? cf_auto_compact_threshold cfg)%N then (t, Ok None)
  else if (MAX_CONSECUTIVE_AUTO_COMPACT_NOOPS <=? t_noops t)%N then (t, Ok None)
  else
    let t := after_attempt a t in
    match at_result a with
    | Err e => (t, Err (runtime_error e))
    | Ok (Some event) => (with_noops 0 t, Ok (Some event))
    | Ok None => (with_noops (N.min (t_noops t + 1) 255) t, Ok None)
    end.

Definition turn_summary (event : option AutoCompactionEvent) (p : TurnProgress) : TurnSummary :=
  {| sum_assistant_messages := assistant_messages p; sum_tool_results := tool_results p;
     sum_prompt_cache_events := prompt_cache_events p; sum_iterations := iterations p;
     sum_turn_usage := sum_assistant_message_usage (assistant_messages p); sum_auto_compaction := event;
     sum_cancelled := false; sum_response_model := response_model p |}.

(** [elapsed]: the milliseconds of a turn that was started, with the store's answer. *)
Definition finish_turn_state (env : list ConversationMessage -> Attempt) (elapsed : option (N * Storage)) (t : Turn)
  : Turn * result RuntimeError TurnSummary :=
  let a := env (t_messages t) in
  let '(t, attempt) := maybe_auto_compact a t in
  if at_aborted a && negb (is_err attempt && at_failed_report a) then (t, Ok (cancelled_summary (t_progress t)))
  else match attempt with
       | Err e => (t, Err e)
       | Ok event =>
           let event := merge_auto_compaction (overflow (compactions (t_progress t))) event in
           let '(t, error) := match elapsed with
                              | Some (ms, st) =>
                                  let '(messages, error) := record_turn_duration st ms (t_messages t) in
                                  (with_messages messages t, error)
                              | None => (t, None)
                              end in
           match error with
           | Some e => (t, Err (runtime_error ("failed to persist turn duration: " ++ e)%string))
           | None => (t, Ok (turn_summary event (t_progress t)))
           end
       end.

(** ** The loop *)

Inductive TurnPoint :=
| AtLoop (t : Turn)
| AtResponse (t : Turn) (final_answer : bool) (l : Loop)
| Over (t : Turn) (r : result RuntimeError TurnSummary).

Record IterationEnv := {
  ev_aborted : bool;
  ev_cancel : nat -> Storage;
  ev_inputs : nat -> InputEnv;
  ev_reminder : Storage;
  ev_attempts : nat -> list ConversationMessage -> Attempt;
  ev_open : nat -> OpenAnswer
}.

Record SettleEnv := {
  ev_conclude : nat -> Storage;
  ev_resolve : Storage;
  ev_assistant : Storage;
  ev_results : nat -> Storage;
  ev_save : option string;
  ev_continue : Storage;
  ev_aborted_now : bool;
  ev_todos : option string;
  ev_uuid : nat -> string;
  ev_context_save : option string;
  ev_finish : list ConversationMessage -> Attempt;
  ev_elapsed : N * Storage
}.

Context (p : PermissionPolicy) (n : nat).

(** From the top of the loop to the response's stream. *)
Definition turn_iteration (e : IterationEnv) (t : Turn) : option (TurnPoint * list Request) :=
  if ev_aborted e then
    let t := finalize_cancelled_turn (ev_cancel e) [] t in
    Some (Over t (Ok (cancelled_summary (t_progress t))), [])
  else
    match commit_turn_inputs (ev_inputs e) t with
    | (t, Some error) => Some (Over t (Err error), [])
    | (t, None) =>
        match prepare_turn_iteration (ev_reminder e) t with
        | (t, Err error) => Some (Over t (Err error), [])
        | (t, Ok final_answer) =>
            '(t, within) ← enforce_turn_request_budget (ev_attempts e) t;
            match within with
            | Err error => Some (Over t (Err error), [])
            | Ok false => Some (Over t (Ok (cancelled_summary (t_progress t))), [])
            | Ok true =>
                '(t, requests, stream) ← open_turn_stream (ev_open e) final_answer t;
                Some (match stream with
                      | Err error => Over t (Err error)
                      | Ok StreamCancelled => Over t (Ok (cancelled_summary (t_progress t)))
                      | Ok StreamYielded => AtLoop t
                      | Ok StreamReady => AtResponse t final_answer (Polling (response_new p n (t_messages t)))
                      end, requests)
            end
        end
    end.

Definition count_step (p : TurnProgress) : TurnProgress :=
  set_steps {| completed := Compaction.u32_saturating_add (completed (steps p)) 1;
               final_requested := final_requested (steps p) |} p.

(** What a settled response leaves to do. *)
Definition after_checkpoint (e : SettleEnv) (x : ExecutedResponse) (exchange_start pending : nat) (t : Turn)
  : option TurnPoint :=
  match ex_error x with
  | Some error =>
      Some (match recover_turn_stream (ev_save e) (ev_continue e) error (ex_cancelled x) pending t with
            | (t, Some error) => Over t (Err error)
            | (t, None) => AtLoop t
            end)
  | None =>
      if ex_cancelled x || ev_aborted_now e then Some (Over t (Ok (cancelled_summary (t_progress t))))
      else
        '(t, failure) ← match ex_context_action x with
                        | Some action => apply_tool_context_action (ev_todos e) (ev_uuid e) (ev_context_save e)
                                           action exchange_start t
                        | None => Some (t, None)
                        end;
        match failure with
        | Some error => Some (Over t (Err error))
        | None =>
            let '(inbox, sealed) := if pending =? 0 then inbox_seal_if_empty (t_inbox t) else (t_inbox t, false) in
            let t := with_inbox inbox t in
            if sealed then
              let '(t, r) := finish_turn_state (ev_finish e) (Some (ev_elapsed e)) t in Some (Over t r)
            else Some (AtLoop (with_progress (count_step (t_progress t)) t))
        end
  end.

(** From the end of the response's loop to the top of the turn's. *)
Definition settle_response (e : SettleEnv) (final_answer : bool) (r : Response) (error : option RuntimeError)
    (cancelled : bool) (t : Turn) : option TurnPoint :=
  x ← conclude legacy_id interrupted_bash offload (ev_conclude e) r error cancelled;
  let t := with_messages (ex_messages x) t in
  match resolve_turn_assistant (ev_resolve e) (ex_events x) (ex_yielded x) final_answer t with
  | (t, Err error) => Some (Over t (Err error))
  | (t, Ok ResolvedRetry) => Some (AtLoop t)
  | (t, Ok ResolvedEmptyPostTool) =>
      let t := with_progress (set_response_model None (t_progress t)) t in
      let '(t, r) := finish_turn_state (ev_finish e) None t in Some (Over t r)
  | (t, Ok (ResolvedBuilt built)) =>
      match checkpoint_turn_response (ev_assistant e) (ev_results e) built x t with
      | (t, Err error) => Some (Over t (Err error))
      | (t, Ok (exchange_start, pending)) => after_checkpoint e x exchange_start pending t
      end
  end.

(** What is expected of the environment, if anything: of what an iteration is given, of a response
    on its way, and of what a settlement is given. *)
Record Expectation := {
  of_iteration : IterationEnv -> Prop;
  of_response : Loop -> Prop;
  of_settlement : SettleEnv -> Prop
}.
Definition anything : Expectation :=
  {| of_iteration _ := True; of_response _ := True; of_settlement _ := True |}.

Context (expected : Expectation).

Inductive turn_step : TurnPoint -> list Request -> TurnPoint -> Prop :=
| step_iteration e t point requests :
    of_iteration expected e -> turn_iteration e t = Some (point, requests) -> turn_step (AtLoop t) requests point
| step_response t final_answer r l :
    response_step legacy_id is_concurrency_safe offload running_model (negb final_answer) r l ->
    of_response expected l ->
    turn_step (AtResponse t final_answer (Polling r)) [] (AtResponse t final_answer l)
| step_settle e t final_answer r error cancelled point :
    of_settlement expected e -> settle_response e final_answer r error cancelled t = Some point ->
    turn_step (AtResponse t final_answer (Left r error cancelled)) [] point.

(** The requests of a turn so far, and where it is. *)
Inductive turn_run (t : Turn) : list Request -> TurnPoint -> Prop :=
| turn_start : turn_run t [] (AtLoop t)
| turn_next requests point more point' :
    turn_run t requests point -> turn_step point more point' -> turn_run t (requests ++ more) point'.

End TurnLoop.
