(* ===== verification/CompactionRunSafety.v ===== *)
(** * What a compaction guarantees

    A run ends whatever the provider answers; the replacement it yields is the continuation and a
    verbatim tail in which every call keeps its result, is at most half of the source and fits the
    next request; and the live session changes only when the replacement was saved. *)
From S2P Require Import Prelude.
From stdpp Require Import list gmap strings.
From S2P Require Import RustStr Json Conversation Compaction CompactionScope CompactionBudget UsageAccounting AssistantMessage SessionCodec SessionRecord Transcript CompactionText CompactionRun ToolScheduler SchedulerSafety ResponseSafety TurnLoop JsonModel.

(** ** Answered transcripts

    A message without calls that is no tool result, or an assistant message with exactly one
    result behind it for each of its calls, in their order. *)
Inductive answered : list ConversationMessage -> Prop :=
| answered_nil : answered []
| answered_plain m l : role m <> RTool -> call_ids (blocks m) = [] -> answered l -> answered (m :: l)
| answered_exchange a results l :
    role a = RAssistant -> Forall2 answers results (call_ids (blocks a)) -> answered l ->
    answered (a :: results ++ l).

Lemma answered_app l k : answered l -> answered k -> answered (l ++ k).
Proof.
  induction 1 as [|m l Hr Hc _ IH|a results l Hr HF _ IH]; intros Hk; [done|by apply answered_plain, IH|].
  rewrite <- app_comm_cons, <- app_assoc. apply answered_exchange; [done|done|by apply IH].
Qed.

Lemma answered_user bs : call_ids bs = [] -> answered [user_blocks bs].
Proof. intros H. apply answered_plain; [done|done|constructor]. Qed.

Lemma answers_map f results l :
  (forall m id, answers m id -> answers (f m) id) -> Forall2 answers results l -> Forall2 answers (map f results) l.
Proof. intros Hf. induction 1; constructor; [by apply Hf|done]. Qed.

(** A change of single messages that keeps roles, calls and answers. *)
Lemma answered_map f l :
  (forall m, role (f m) = role m) -> (forall m, call_ids (blocks (f m)) = call_ids (blocks m)) ->
  (forall m id, answers m id -> answers (f m) id) -> answered l -> answered (map f l).
Proof.
  intros Hr Hc Ha. induction 1 as [|m l Hm Hn _ IH|a results l Hm HF _ IH]; cbn; [constructor| |].
  - apply answered_plain; [by rewrite Hr|by rewrite Hc|done].
  - rewrite map_app. apply answered_exchange; [by rewrite Hr| |done]. rewrite Hc. by apply answers_map.
Qed.

(** What answering depends on. *)
Definition payload (m : ConversationMessage) : MessageRole * list ContentBlock := (role m, blocks m).

Lemma payload_eq m m' : payload m = payload m' -> role m = role m' /\ blocks m = blocks m'.
Proof. by intros [= -> ->]. Qed.

Lemma answers_payload results results' l :
  map payload results = map payload results' -> Forall2 answers results l -> Forall2 answers results' l.
Proof.
  intros Hs HF. revert results' Hs.
  induction HF as [|m id results l Ha _ IH]; intros [|m' results'] Hs; cbn in Hs; try done.
  apply (inj2 cons) in Hs as [E Hs]. constructor; [|by apply IH].
  destruct (payload_eq _ _ E) as [Hr Hb]. unfold answers in *. by rewrite <- Hb, <- Hr.
Qed.

Lemma answered_payload l k : map payload l = map payload k -> answered l -> answered k.
Proof.
  intros Hs Hl. revert k Hs.
  induction Hl as [|m l Hm Hn _ IH|a results l Hm HF _ IH]; intros [|m' k] Hs; try done; [constructor| |].
  - cbn in Hs. apply (inj2 cons) in Hs as [E Hs]. destruct (payload_eq _ _ E) as [Hr Hb].
    apply answered_plain; [by rewrite <- Hr|by rewrite <- Hb|by apply IH].
  - cbn in Hs. apply (inj2 cons) in Hs as [E Hs]. destruct (payload_eq _ _ E) as [Hr Hb].
    rewrite map_app in Hs. symmetry in Hs. apply map_eq_app in Hs as (results' & l' & -> & H1 & H2).
    apply answered_exchange; [by rewrite <- Hr| |by apply IH]. rewrite <- Hb.
    by apply (answers_payload results).
Qed.

Lemma same_payload l k : same_messages l k -> map payload l = map payload k.
Proof.
  unfold same_messages. revert k. induction l as [|m l IH]; intros [|m' k] H; cbn in H; try done.
  apply (inj2 cons) in H as [E H]. destruct (anonymous_blocks _ _ E) as [Hb Hr]. cbn. f_equal; [|by apply IH].
  unfold payload. by rewrite Hb, Hr.
Qed.

Lemma answered_same l k : same_messages l k -> answered l -> answered k.
Proof. intros H. by apply answered_payload, same_payload. Qed.

#[export] Instance answered_proper : Proper (same_messages ==> iff) answered.
Proof. intros l k H. split; apply answered_same; [done|by symmetry]. Qed.

(** ** Exchanges that a boundary cannot split

    A response does not repeat the id of a call nor carry a result, and a result message has one
    result. *)
Definition result_ids (bs : list ContentBlock) : list string :=
  omap (fun b => match b with ToolResult id _ _ _ => Some id | _ => None end) bs.

Definition tidy (m : ConversationMessage) : Prop :=
  match role m with
  | RAssistant => NoDup (call_ids (blocks m)) /\ result_ids (blocks m) = []
  | RTool => length (result_ids (blocks m)) <= 1
  | _ => True
  end.

(** What a turn and a compaction owe each other. *)
Definition sound (l : list ConversationMessage) : Prop := answered l /\ Forall tidy l.

Lemma result_in id tool output err bs : ToolResult id tool output err ∈ bs -> id ∈ result_ids bs.
Proof. intros H. apply list_elem_of_omap. by exists (ToolResult id tool output err). Qed.

Lemma call_in id bs : id ∈ call_ids bs -> exists name input sig, ToolUse id name input sig ∈ bs.
Proof.
  intros H. apply list_elem_of_omap in H as (b & Hb & E). destruct b; try done. injection E as ->. eauto.
Qed.

Lemma answers_result m id : tidy m -> answers m id -> result_ids (blocks m) = [id].
Proof.
  intros Ht (Hr & name & output & err & rest & Hb). unfold tidy in Ht. rewrite Hr, Hb in Ht. rewrite Hb. cbn in *.
  by destruct (omap _ rest); cbn in *; [|lia].
Qed.

(** The calls of an exchange that is cut after [k] of its results are not all answered. *)
Lemma cut_exchange pre a results l k :
  tidy a -> Forall tidy results -> role a = RAssistant -> Forall2 answers results (call_ids (blocks a)) ->
  k < length results -> exchanges_whole (pre ++ a :: results ++ l) (length pre + S k) -> False.
Proof.
  intros Ta Tr Ra HF Hk Hw.
  assert (k < length (call_ids (blocks a))) as Hk' by (apply Forall2_length in HF; lia).
  destruct (lookup_lt_is_Some_2 _ _ Hk') as [id Hid].
  destruct (call_in id (blocks a)) as (name & input & sig & Hc); [by eapply list_elem_of_lookup_2|].
  unfold tidy in Ta. rewrite Ra in Ta. destruct Ta as [Hn Hnone].
  destruct (Hw (length pre) a id name input sig) as (j & m' & tool & output & err & H1 & H2 & Hm & Hr & _);
    [lia|by rewrite lookup_app_r, Nat.sub_diag by lia|done|].
  apply result_in in Hr. rewrite lookup_app_r in Hm by lia.
  destruct (j - length pre) as [|i] eqn:Ej; cbn in Hm.
  - injection Hm as <-. rewrite Hnone in Hr. by apply elem_of_nil in Hr.
  - change ((results ++ l) !! i = Some m') in Hm. rewrite lookup_app_l in Hm by lia. destruct (Forall2_lookup_l _ _ _ _ _ HF Hm) as (id' & Hid' & Ha).
    rewrite Forall_lookup in Tr. rewrite (answers_result m' id') in Hr by eauto.
    apply list_elem_of_singleton in Hr as ->.
    assert (i = k) by (eapply NoDup_lookup; eauto). lia.
Qed.

Lemma whole_tail l : answered l -> forall pre b, Forall tidy l -> exchanges_whole (pre ++ l) (length pre + b) ->
  b <= length l -> answered (drop b l).
Proof.
  induction 1 as [|m l Hr Hc Hl IH|a results l Hr HF Hl IH]; intros pre b T Hw Hb.
  - rewrite drop_nil. constructor.
  - destruct b as [|b]; [by apply answered_plain|]. apply Forall_cons in T as [_ T]. cbn [drop].
    apply (IH (pre ++ [m])); [done| |cbn in Hb; lia]. rewrite <- app_assoc, length_app. cbn.
    by replace (length pre + 1 + b) with (length pre + S b) by lia.
  - destruct b as [|b]; [by apply answered_exchange|]. apply Forall_cons in T as [Ta T].
    apply Forall_app in T as [Tr T]. cbn [drop]. destruct (decide (b < length results)) as [Hlt|Hge].
    + destruct (cut_exchange pre a results l b); done.
    + rewrite drop_app_ge by lia. apply (IH (pre ++ a :: results)); [done| |cbn in Hb; rewrite length_app in Hb; lia].
      rewrite <- app_assoc, length_app. cbn. replace (length pre + S (length results) + (b - length results)) with
        (length pre + S b) by lia. done.
Qed.

(** What a compaction keeps behind a safe boundary. *)
Lemma kept_tail l b : answered l -> Forall tidy l -> whole_or_nothing l b -> answered (drop b l).
Proof. intros Ha Ht [Hb Hw]. by apply (whole_tail l Ha []). Qed.

(** A response that repeats the id of a call: the first result closes both calls, and a boundary
    between the results is accepted. *)
Definition repeated_calls : list ConversationMessage :=
  [ message_of RUser [Text "go"] None;
    message_of RAssistant [ToolUse "x" "read" "1" None; ToolUse "x" "read" "2" None] None;
    message_of RTool [ToolResult "x" "read" "one" false] None;
    message_of RTool [ToolResult "x" "read" "two" false] None ].

Example repeated_ids_are_split :
  find_safe_compaction_boundary repeated_calls 3 0 = Ret 3 /\
  drop 3 repeated_calls = [message_of RTool [ToolResult "x" "read" "two" false] None].
Proof. split; vm_compute; reflexivity. Qed.

(** ** Pruning *)

Section Text.
Context (legacy_id : string -> nat -> ConversationMessage -> string).

Definition prune_plain (m : ConversationMessage) : ConversationMessage := (prune_message "" m).1.

Lemma prune_calls bs : call_ids (map fst (map prune_block bs)) = call_ids bs.
Proof.
  unfold call_ids. induction bs as [|b bs IH]; [done|]. cbn [map]. destruct b; cbn; rewrite ?IH; try done.
  destruct (_ || _); [by rewrite <- IH|]. by destruct (prune_output output); cbn; rewrite <- IH.
Qed.

Lemma prune_results bs : result_ids (map fst (map prune_block bs)) = result_ids bs.
Proof.
  unfold result_ids. induction bs as [|b bs IH]; [done|]. cbn [map]. destruct b; cbn; rewrite ?IH; try done.
  destruct (_ || _); [by rewrite <- IH|]. by destruct (prune_output output); cbn; rewrite <- IH.
Qed.

Lemma prune_answers m id : answers m id -> answers (prune_plain m) id.
Proof.
  intros (Hr & name & output & err & rest & Hb). split; [done|]. cbn. rewrite Hb. cbn [map prune_block].
  destruct (_ || _); [by eexists _, _, _, _|]. by destruct (prune_output output); eexists _, _, _, _.
Qed.

Lemma pruned_payload fresh l : map payload (map fst (prune_messages fresh l)) = map payload (map prune_plain l).
Proof.
  unfold prune_messages. revert fresh. induction l as [|m l IH]; intros fresh; [done|].
  cbn [imap map]. apply (f_equal2 cons); [done|]. apply (IH (fresh ∘ S)).
Qed.

(** What of a session's messages a request depends on. *)
Lemma replace_view_payload uuid s : map payload (ss_messages (replace_view legacy_id uuid s)) = map payload (ss_messages s).
Proof. apply same_payload, record_context_replacement_same. Qed.

Lemma prune_payload fresh uuid s :
  map payload (ss_messages (prune_tool_results legacy_id fresh uuid s).1) = map payload (map prune_plain (ss_messages s)).
Proof.
  unfold prune_tool_results. rewrite <- (pruned_payload fresh). cbn [fst].
  destruct (0 <? _); [apply replace_view_payload|done].
Qed.

Lemma tidy_payload l k : map payload l = map payload k -> Forall tidy l -> Forall tidy k.
Proof.
  revert k. induction l as [|m l IH]; intros [|m' k] E T; try done. apply (inj2 cons) in E as [E Es].
  apply Forall_cons in T as [Tm T]. constructor; [|by apply IH]. unfold tidy in *.
  destruct (payload_eq _ _ E) as [<- <-]. done.
Qed.

Lemma prune_tidy m : tidy m -> tidy (prune_plain m).
Proof. unfold tidy. cbn. rewrite prune_calls, prune_results. by destruct (role m). Qed.

(** Pruning changes the text of results only: it keeps which calls are answered. *)
Lemma pruned_plain_answered l : answered l -> answered (map prune_plain l).
Proof. apply answered_map; [done|intros; apply prune_calls|apply prune_answers]. Qed.

Lemma chars_count_skip n s : chars_count (chars_skip n s) = chars_count s - n.
Proof.
  revert n. induction s as [|a s IH]; intros n; [done|]. cbn [chars_skip chars_count].
  destruct (is_cont a) eqn:E; [apply IH|]. destruct n as [|n]; [cbn; by rewrite E|]. by rewrite IH.
Qed.

(** What is left of an oversized result, in characters; a second pass leaves it alone. *)
Lemma pruned_output output s :
  prune_output output = Some s -> N.of_nat (chars_count s) = 5207%N /\ prune_output s = None.
Proof.
  unfold prune_output. destruct (N.ltb_spec 8192 (N.of_nat (chars_count output))) as [H|H]; [|done].
  intros Hs. apply (inj Some) in Hs as <-. set (n := chars_count output) in *.
  assert (N.of_nat (chars_count (chars_take (N.to_nat 4096) output ++ PRUNED_NOTE ++ chars_skip (n - N.to_nat 1024) output)) = 5207%N) as E.
  { rewrite !chars_count_app, chars_count_take, chars_count_skip. fold n.
    assert (N.of_nat (chars_count PRUNED_NOTE) = 87%N) by (vm_compute; reflexivity). lia. }
  split; [done|]. cbv zeta. by rewrite E.
Qed.

Lemma prune_block_once b : prune_block (prune_block b).1 = ((prune_block b).1, 0).
Proof.
  destruct b; try done. cbn [prune_block]. destruct (_ || _) eqn:E; cbn [fst prune_block]; [by rewrite E|].
  destruct (prune_output output) as [s|] eqn:P; cbn [fst prune_block]; rewrite E; [|by rewrite P].
  by destruct (pruned_output _ _ P) as [_ ->].
Qed.

Lemma prune_blocks_once bs : map prune_block (map fst (map prune_block bs)) = map (fun b => (b, 0)) (map fst (map prune_block bs)).
Proof. rewrite !map_map. apply map_ext. apply prune_block_once. Qed.

Lemma sum_zeros {A} (l : list A) : sum_list (map snd (map (fun b => (b, 0)) l)) = 0.
Proof. induction l; [done|]. cbn. done. Qed.

(** Pruning is done in one pass: no result that was shortened is shortened again, whatever the
    identities in between. *)
Theorem pruning_is_one_pass fresh uuid fresh' uuid' s :
  (prune_tool_results legacy_id fresh' uuid' (prune_tool_results legacy_id fresh uuid s).1).2 = 0.
Proof.
  set (s' := (prune_tool_results legacy_id fresh uuid s).1).
  assert (Forall (fun m => map prune_block (blocks m) = map (fun b => (b, 0)) (blocks m)) (ss_messages s')) as H.
  { assert (forall l k, map payload l = map payload k ->
      Forall (fun m => map prune_block (blocks m) = map (fun b => (b, 0)) (blocks m)) l ->
      Forall (fun m => map prune_block (blocks m) = map (fun b => (b, 0)) (blocks m)) k) as K.
    { intros l. induction l as [|m l IH]; intros [|m' k] E F; try done. apply (inj2 cons) in E as [E Es].
      apply Forall_cons in F as [Fm F]. constructor; [|by apply IH]. destruct (payload_eq _ _ E) as [_ <-]. done. }
    eapply K; [symmetry; apply prune_payload|]. rewrite Forall_map. apply Forall_true. intros m.
    apply prune_blocks_once. }
  unfold prune_tool_results, prune_messages. cbn [snd]. revert fresh'. generalize (ss_messages s') H.
  intros l. induction l as [|m l IH]; intros F fresh'; [done|]. apply Forall_cons in F as [Fm F].
  cbn [imap map sum_list foldr]. cbn [snd prune_message]. unfold prune_message at 1. rewrite Fm. cbn [snd].
  rewrite sum_zeros. apply (IH F (fresh' ∘ S)).
Qed.

(** ** The replacement *)

Section Replacement.
Context {J : SerdeJson} (as_array : Value -> option (list Value)) (now : N) (uuid : nat -> string).

Lemma replaced_payload s summary continuation prefix keep :
  map payload (ss_messages (replaced legacy_id as_array now uuid s summary continuation prefix keep)) =
  map payload (continuation_message continuation :: drop keep (ss_messages s)).
Proof. unfold replaced, record_compaction_with_usage. by rewrite replace_view_payload. Qed.

(** The continuation has no calls, and the tail keeps its own answered. *)
Lemma replaced_answered l s' continuation keep :
  map payload (ss_messages s') = map payload (continuation_message continuation :: drop keep l) ->
  Forall tidy l -> answered (drop keep l) -> answered (ss_messages s') /\ Forall tidy (ss_messages s').
Proof.
  intros E Ht Ha. symmetry in E. split.
  - apply (answered_payload _ _ E). by apply answered_plain.
  - apply (tidy_payload _ _ E). constructor; [done|]. by apply Forall_drop.
Qed.

(** ** The structural compaction *)

Lemma flatten_total fuel ls : length ls <= fuel ->
  exists out, flatten_rounds fuel ls = Ret out /\ existsb is_merge_header out = false.
Proof.
  revert ls. induction fuel as [|fuel IH]; intros ls Hf; cbn [flatten_rounds].
  - destruct ls; [by exists []|cbn in Hf; lia].
  - destruct (existsb is_merge_header ls) eqn:E; [|by exists ls]. apply IH. rewrite length_map.
    apply existsb_exists in E as (line & Hin & Hh). apply in_split in Hin as (l1 & l2 & ->).
    rewrite List.filter_app, length_app. cbn. rewrite Hh. cbn.
    pose proof (filter_length_le (fun line => negb (is_merge_header line)) l1).
    pose proof (filter_length_le (fun line => negb (is_merge_header line)) l2). rewrite length_app in Hf. cbn in Hf. lia.
Qed.

(** Merging ends, and what it keeps of the earlier summary has none of its own headers left, so
    they do not nest however often a session is compacted. *)
Theorem merged_headers_do_not_nest existing new :
  exists previous, flatten_merged_highlights (extract_summary_highlights existing) = Ret previous /\
    Forall (fun line => is_merge_header line = false) previous /\
    merge_compact_summaries (Some existing) new = Ret (join (String (ascii_of_nat 10) "")
      (["<summary>"; "Conversation summary:"] ++ merged_section MERGED_PREVIOUS_CONTEXT_HEADER previous
       ++ merged_section MERGED_NEW_CONTEXT_HEADER (extract_summary_highlights (format_compact_summary new))
       ++ merged_section "- Key timeline:" (extract_summary_timeline (format_compact_summary new)) ++ ["</summary>"])).
Proof.
  destruct (flatten_total (length (extract_summary_highlights existing)) (extract_summary_highlights existing) ltac:(lia))
    as (previous & E & H).
  exists previous. unfold merge_compact_summaries, flatten_merged_highlights. rewrite E. split_and!; [done| |done].
  apply Forall_forall. intros line Hin. apply not_true_iff_false. intros Hl.
  assert (existsb is_merge_header previous = true); [|congruence]. apply existsb_exists. exists line.
  by apply list_elem_of_In in Hin.
Qed.

Lemma boundary_at_least messages prefix fuel b r :
  prefix <= b -> boundary_loop fuel messages b prefix = Ret r -> prefix <= r.
Proof.
  revert b. induction fuel as [|fuel IH]; intros b Hb; [done|]. cbn [boundary_loop].
  destruct (min_value _) as [start|]; [|by intros [= <-]].
  destruct (Nat.leb_spec start prefix); [intros [= <-]; lia|apply IH; lia].
Qed.

(** An earlier summary is a system message: the messages behind it are answered on their own. *)
Lemma behind_summary l : answered l -> answered (drop (compacted_summary_prefix_len l) l).
Proof.
  unfold compacted_summary_prefix_len. intros Ha. destruct Ha as [|m l Hr Hc Ha|a results l Hr HF Ha].
  - constructor.
  - cbn [head mbind option_bind]. destruct (extract_existing_compacted_summary m); [done|]. by apply answered_plain.
  - cbn [head mbind option_bind]. unfold extract_existing_compacted_summary. rewrite Hr. by apply answered_exchange.
Qed.

(** A structural compaction always answers: it keeps the calls of the retained messages answered, and
    is the session itself when there is too little to compact. *)
Theorem structural_compaction_answers s config todo :
  answered (ss_messages s) -> Forall tidy (ss_messages s) ->
  exists r, compact_session_sync legacy_id as_array now uuid s config todo = Ret r /\
    answered (ss_messages (co_compacted_session r)) /\
    (should_compact (ss_messages s) config = false -> co_compacted_session r = s).
Proof.
  intros Ha Ht. unfold compact_session_sync. destruct (should_compact (ss_messages s) config) eqn:Es; cbn [negb].
  2: by eexists.
  pose proof (behind_summary _ Ha) as Hp. unfold compacted_summary_prefix_len in *.
  unfold should_compact, compacted_summary_prefix_len in Es.
  destruct (head (ss_messages s) ≫= extract_existing_compacted_summary) as [text|] eqn:Ee;
    apply andb_true_iff in Es as [Hn _]; apply Nat.ltb_lt in Hn; rewrite length_drop in Hn.
  all: set (raw := length (ss_messages s) - preserve_recent_messages config).
  - destruct (find_boundary_spec (ss_messages s) raw 1) as (b & E & Hb & _). rewrite E. cbn [mbind run_bind].
    unfold find_safe_compaction_boundary in E. apply boundary_at_least in E; [|lia].
    destruct (Nat.ltb_spec b 1); [lia|].
    destruct (merged_headers_do_not_nest text (summarize_messages_local (drop 1 (take b (ss_messages s)))))
      as (previous & _ & _ & ->). cbn [mbind run_bind]. eexists. split_and!; [done| |done].
    eapply replaced_answered; [apply replaced_payload|done|].
    destruct Hb as [->|[Hb He]]; [done|]. apply kept_tail; [done|done|]. split; [lia|]. apply no_open_calls_whole; [lia|done].
  - destruct (find_boundary_spec (ss_messages s) raw 0) as (b & E & Hb & _). rewrite E. cbn [mbind run_bind].
    cbn [merge_compact_summaries mbind run_bind]. eexists. split_and!; [done| |done].
    eapply replaced_answered; [apply replaced_payload|done|].
    destruct Hb as [->|[Hb He]]; [done|]. apply kept_tail; [done|done|]. split; [lia|]. apply no_open_calls_whole; [lia|done].
Qed.

(** A compaction by a model ends, and either fails or keeps the calls of the retained messages
    answered and shrinks what it removes by the measure of [validate_summary]. *)
Theorem model_compaction_answers send max_output_tokens s config custom todo :
  answered (ss_messages s) -> Forall tidy (ss_messages s) ->
  exists r, compact_session legacy_id as_array now uuid send max_output_tokens s config custom todo = Ret r /\
    match r with
    | Err _ => True
    | Ok c =>
        answered (ss_messages (co_compacted_session c)) /\
        let keep := co_removed_message_count c in
        0 < keep /\
        map payload (tail (ss_messages (co_compacted_session c))) = map payload (drop keep (ss_messages s)) /\
        estimate_message_tokens (user_text (get_compact_continuation_message (co_summary c) true true None))
        < estimate_session_tokens (take keep (ss_messages s))
    end.
Proof.
  intros Ha Ht. unfold compact_session. destruct (_ || _); [by eexists|].
  destruct (find_boundary_whole (ss_messages s) (length (ss_messages s) - preserve_recent_messages config)) as (b & -> & W).
  cbn [mbind run_bind]. destruct (Nat.eqb_spec b 0) as [|Hb]; [by eexists|]. eexists. split; [done|].
  destruct (send_loop _ _ 0) as [summary|e]; [|done]. cbn [mbind result_bind].
  destruct (validate_summary summary (take b (ss_messages s))) as [[]|e] eqn:Ev; [|done]. cbn [mbind result_bind].
  unfold summary_result. cbn [co_compacted_session co_removed_message_count co_summary]. rewrite Nat.sub_0_r.
  split_and!; [|lia| |].
  - eapply replaced_answered; [apply replaced_payload|done|by apply kept_tail].
  - pose proof (replaced_payload s summary (get_compact_continuation_message summary true (b <? length (ss_messages s)) todo) 0 b) as E.
    destruct (ss_messages (replaced _ _ _ _ _ _ _ _ _)); [done|]. by apply (inj2 cons) in E as [_ E].
  - unfold validate_summary in Ev. destruct (_ || _); [done|]. destruct (_ && _); [done|].
    destruct (Nat.leb_spec (estimate_session_tokens (take b (ss_messages s)))
      (estimate_message_tokens (user_text (get_compact_continuation_message summary true true None)))); [done|lia].
Qed.

End Replacement.

(** ** A run *)

Section Run.
Context {J : SerdeJson} (as_array : Value -> option (list Value)) (texts_to_json : list string -> string).
Context (now : N) (uuid : nat -> string).
Context {C : ApiClient} (caps : ModelCaps) (system : SystemPrompt).
Context (pending : N) (fingerprint : Session -> option string -> string).

#[local] Notation attempt := (CompactionRun.attempt as_array texts_to_json legacy_id now uuid caps system).
#[local] Notation loop := (attempts_loop as_array texts_to_json legacy_id now uuid caps system pending).
#[local] Notation attempts := (run_compaction_attempts as_array texts_to_json legacy_id now uuid caps system pending fingerprint).
#[local] Notation next_candidate := (after_candidate system pending).
#[local] Notation safe := (safe_history_budget system pending).

(** What is left for a run to use up. *)
Definition fuel_left (cap : nat) (cache_safe : bool) (quality : nat) (scope : ScopeState) : nat :=
  cap + Nat.b2n cache_safe + (2 - quality) + N.to_nat (2 - sc_outer_retries scope).

Lemma step_retries s op : (sc_outer_retries s <= sc_outer_retries (scope_step s op).1)%N.
Proof. pose proof (reply_counts s op) as H. destruct (scope_step s op) as [s' r]. cbn. destruct H as [_ ->]. lia. Qed.

Lemma run_retries ops s : (sc_outer_retries s <= sc_outer_retries (scope_run s ops).1)%N.
Proof.
  revert s. induction ops as [|op ops IH]; intros s; [done|]. cbn [scope_run]. pose proof (step_retries s op).
  destruct (scope_step s op) as [s1 r]. specialize (IH s1). destruct (scope_run s1 ops). cbn in *. lia.
Qed.

Lemma attempt_retries p o env scope : (sc_outer_retries scope <= sc_outer_retries (attempt p o env scope).1)%N.
Proof.
  unfold CompactionRun.attempt. destruct (preflight _ _ _ _ _ _); [|done]. pose proof (run_retries (ae_ops env) scope).
  by destruct (ae_cancelled env).
Qed.

Lemma count_retries before r scope : (sc_outer_retries scope <= sc_outer_retries (count_response before r scope).1)%N.
Proof.
  unfold count_response. destruct (_ && _); [|done]. pose proof (step_retries scope (Completion None)) as H. cbn in H.
  by destruct (record_completion None scope).
Qed.

Lemma candidate_next before p env cap cache_safe quality scope report c :
  0 < cap ->
  match next_candidate before p env cap cache_safe quality scope report c with
  | NextAttempt cap' cache_safe' scope' _ => cap' < cap /\ cache_safe' = cache_safe /\ scope' = scope
  | RunOver _ => True
  end.
Proof.
  intros Hc. unfold after_candidate. destruct (safe_history_budget _ _ _) as [budget safe].
  destruct (negb _); [done|]. destruct (_ && _); [done|]. destruct (_ || _); [done|].
  assert (cap * 3 / 4 < cap) by (apply Nat.Div0.div_lt_upper_bound; lia). split_and!; [lia|done|done].
Qed.

Lemma retry_next scope scope' : retry scope = (scope', true) ->
  N.to_nat (2 - sc_outer_retries scope') < N.to_nat (2 - sc_outer_retries scope).
Proof.
  unfold retry. destruct (N.leb_spec MAX_OUTER_RETRIES (sc_outer_retries scope)); cbn [orb]; [done|].
  destruct (_ || _); [done|]. intros [= <-]. unfold MAX_OUTER_RETRIES in *. cbn [sc_outer_retries]. lia.
Qed.

Lemma retry_refused scope scope' : retry scope = (scope', false) -> scope' = scope.
Proof. unfold retry. destruct (_ || _); by intros [= <-]. Qed.

Lemma error_next env cap cache_safe (completed : bool) quality scope report error :
  let quality' := if completed then S quality else quality in
  match after_error env cap cache_safe completed quality' scope report error with
  | NextAttempt cap' cache_safe' scope' _ =>
      fuel_left cap' cache_safe' quality' scope' < fuel_left cap cache_safe quality scope
  | RunOver _ => True
  end.
Proof.
  cbn zeta. unfold after_error. destruct (cache_safe && negb completed && _) eqn:E1.
  { apply andb_true_iff in E1 as [E1 _]. apply andb_true_iff in E1 as [-> E1]. destruct completed; [done|].
    unfold fuel_left. cbn. lia. }
  clear E1. set (q := if completed then S quality else quality).
  assert (quality <= q) as Hq by (subst q; destruct completed; lia).
  destruct (re_retryable error && _ && _ && _).
  - destruct (retry scope) as [scope' []] eqn:Er.
    + apply retry_next in Er. destruct (ae_sleep_cancelled env); [done|]. unfold fuel_left. lia.
    + apply retry_refused in Er as ->. revert Hq. subst q.
      destruct completed; cbn [andb]; [|done]. destruct (is_invalid_compaction_summary error); [|done]. intros _.
      destruct ((2 <=? S quality) || _) eqn:E2; [done|]. apply orb_false_iff in E2 as [E2 _].
      apply Nat.leb_gt in E2. unfold fuel_left.
      assert (cap * 3 / 4 <= cap) by (apply Nat.Div0.div_le_upper_bound; lia).
      destruct cache_safe, (contains _ "truncated"), (contains _ _); cbn [Nat.b2n andb orb negb]; lia.
  - revert Hq. subst q. destruct completed; cbn [andb]; [|done]. destruct (is_invalid_compaction_summary error); [|done]. intros _.
    destruct ((2 <=? S quality) || _) eqn:E2; [done|]. apply orb_false_iff in E2 as [E2 _].
    apply Nat.leb_gt in E2. unfold fuel_left.
    assert (cap * 3 / 4 <= cap) by (apply Nat.Div0.div_le_upper_bound; lia).
    destruct cache_safe, (contains _ "truncated"), (contains _ _); cbn [Nat.b2n andb orb negb]; lia.
Qed.

(** What the result of a run is: a candidate of one of its attempts that meets the target. *)
Definition good_end (before : nat) (p : PreparedRun) (e : RunEnd) : Prop :=
  forall c, re_result e = Ok c ->
    (exists o text, candidate as_array legacy_id now uuid caps p o text = Ok c) /\
    let after := estimate_session_tokens (ss_messages (co_compacted_session c)) in
    after < before /\ after <= current_target before (safe (co_compacted_session c)).2 /\
    cr_outcome (re_report e) = TargetMet /\ cr_after_history (re_report e) = N.of_nat after /\
    cr_target_history (re_report e) = Some (N.of_nat (current_target before (safe (co_compacted_session c)).2)).

Lemma candidate_end before p env cap cache_safe quality scope report c o text :
  candidate as_array legacy_id now uuid caps p o text = Ok c ->
  match next_candidate before p env cap cache_safe quality scope report c with
  | RunOver e => good_end before p e
  | NextAttempt _ _ _ _ => True
  end.
Proof.
  intros Hc. unfold after_candidate, good_end. destruct (safe_history_budget _ _ _) as [budget s] eqn:E.
  destruct (negb _); [done|]. destruct (_ && _) eqn:Et; [|by destruct (_ || _)].
  apply andb_true_iff in Et as [H1 H2]. apply Nat.ltb_lt in H1. apply Nat.leb_le in H2.
  intros c' [= <-]. rewrite E. split; [by exists o, text|]. cbn. by split_and!.
Qed.

Lemma error_end before p env cap cache_safe completed quality scope report error :
  match after_error env cap cache_safe completed quality scope report error with
  | RunOver e => good_end before p e
  | NextAttempt _ _ _ _ => True
  end.
Proof.
  unfold after_error, good_end. destruct (_ && _ && _); [done|]. match goal with |- context [let (_, _) := ?x in _] => destruct x as [scope' []] end.
  - by destruct (ae_sleep_cancelled env).
  - destruct (_ && _); [|done]. by destruct (_ || _).
Qed.

Lemma attempt_candidate p o env scope scope' c :
  attempt p o env scope = (scope', Some (Ok c)) ->
  exists text, candidate as_array legacy_id now uuid caps p o text = Ok c.
Proof.
  unfold CompactionRun.attempt. destruct (preflight _ _ _ _ _ _); [|done]. destruct (ae_cancelled env); [done|].
  destruct (ae_reply env) as [response|]; [|done]. destruct (validate_completion response) as [text|]; [|done].
  intros [= _ E]. by exists text.
Qed.

(** Everything a run does to its scope keeps it within its budget. *)
Lemma attempt_within run p o env scope : within run scope -> within run (attempt p o env scope).1.
Proof.
  intros W. unfold CompactionRun.attempt. destruct (preflight _ _ _ _ _ _); [|done].
  pose proof (run_within run (ae_ops env) scope W) as H. destruct (scope_run scope (ae_ops env)).
  by destruct (ae_cancelled env), H.
Qed.

Lemma count_within run before r scope : within run scope -> within run (count_response before r scope).1.
Proof.
  intros W. unfold count_response. destruct (_ && _); [|done].
  pose proof (step_within run scope (Completion None) W) as H. cbn in H. by destruct (record_completion None scope).
Qed.

Definition next_scope (n : Next) : ScopeState :=
  match n with NextAttempt _ _ scope _ => scope | RunOver e => re_scope e end.

Lemma candidate_scope before p env cap cache_safe quality scope report c :
  next_scope (next_candidate before p env cap cache_safe quality scope report c) = scope.
Proof.
  unfold after_candidate. destruct (safe_history_budget _ _ _). destruct (negb _); [done|].
  destruct (_ && _); [done|]. by destruct (_ || _).
Qed.

Lemma error_within run env cap cache_safe completed quality scope report error :
  within run scope -> within run (next_scope (after_error env cap cache_safe completed quality scope report error)).
Proof.
  intros W. unfold after_error. destruct (_ && _ && _); [done|].
  pose proof (step_within run scope OuterRetry W) as H. cbn in H.
  assert (forall b : bool, within run (if b then retry scope else (scope, false)).1) as K
    by (intros []; [by destruct (retry scope)|done]).
  specialize (K (re_retryable error && negb (is_kind ContextWindowBlocked error) && (sc_attempts scope <? 4)%N
                 && (sc_completed_responses scope <? 2)%N)).
  match goal with |- context [let (_, _) := ?x in _] => destruct x as [scope' []] end; cbn [fst] in K.
  - by destruct (ae_sleep_cancelled env).
  - destruct (_ && _); [|done]. by destruct (_ || _).
Qed.

(** The loop ends within the fuel that is left, with a good end. *)
Lemma loop_ends run fuel before custom p env : forall k cap cache_safe quality scope report,
  fuel_left cap cache_safe quality scope < fuel -> within run scope ->
  exists e, loop fuel before custom p env k cap cache_safe quality scope report = Ret e /\ good_end before p e /\
    within run (re_scope e).
Proof.
  induction fuel as [|fuel IH]; intros k cap cache_safe quality scope report Hf W; [lia|]. cbn [attempts_loop].
  destruct (Nat.eqb_spec cap 0) as [|Hcap]; [by eexists|].
  set (o := {| ao_custom := custom |}). pose proof (attempt_retries p o (env k) scope) as R1.
  pose proof (attempt_candidate p o (env k) scope) as Hc. apply (attempt_within run p o (env k)) in W.
  destruct (attempt p o (env k) scope) as [scope1 [r|]]; [|by eexists]. cbn [fst] in R1, W.
  pose proof (count_retries (sc_completed_responses scope) r scope1) as R2.
  apply (count_within run (sc_completed_responses scope) r) in W.
  destruct (count_response _ r scope1) as [scope2 [[]|e]]; [|by eexists]. cbn [fst] in R2, W.
  set (completed := (sc_completed_responses scope <? sc_completed_responses scope2)%N).
  set (quality' := if completed then S quality else quality).
  destruct r as [c|error].
  - destruct (Hc scope1 c eq_refl) as [text Ht].
    pose proof (candidate_next before p (env k) cap cache_safe quality' scope2 report c ltac:(lia)) as Hn.
    pose proof (candidate_end before p (env k) cap cache_safe quality' scope2 report c o text Ht) as He.
    pose proof (candidate_scope before p (env k) cap cache_safe quality' scope2 report c) as Hs.
    destruct (next_candidate _ _ _ _ _ _ _ _ _) as [cap' cs' scope' report'|e]; cbn [next_scope] in Hs.
    + destruct Hn as (Hl & -> & ->). apply IH; [|done]. unfold fuel_left in *. subst quality'. destruct completed; lia.
    + exists e. by rewrite Hs.
  - pose proof (error_next (env k) cap cache_safe completed quality scope2 report error) as Hn. cbn zeta in Hn.
    pose proof (error_end before p (env k) cap cache_safe completed quality' scope2 report error) as He.
    apply (error_within run (env k) cap cache_safe completed quality' scope2 report error) in W.
    fold quality' in Hn.
    destruct (after_error _ _ _ _ _ _ _ _) as [cap' cs' scope' report'|e]; cbn [next_scope] in W; [|by exists e].
    apply IH; [|done]. unfold fuel_left in *. lia.
Qed.

(** ** A run of its source *)

(** What may stand in for a transcript: itself, its pruned form, or a continuation of either in
    front of the messages from a boundary on. *)
Definition stands_in (source result : list ConversationMessage) : Prop :=
  exists frozen, (map payload frozen = map payload source \/ map payload frozen = map payload (map prune_plain source)) /\
    (map payload result = map payload frozen \/
     exists text keep, 0 < keep /\ whole_or_nothing frozen keep /\
       map payload result = map payload (continuation_message text :: drop keep frozen)).

Lemma stands_in_answered source result :
  stands_in source result -> answered source -> Forall tidy source -> answered result /\ Forall tidy result.
Proof.
  intros (frozen & Hf & Hr) Ha Ht.
  assert (answered frozen /\ Forall tidy frozen) as [Ha' Ht'].
  { destruct Hf as [E|E]; symmetry in E; (split; [apply (answered_payload _ _ E)|apply (tidy_payload _ _ E)]); try done.
    - by apply pruned_plain_answered.
    - rewrite Forall_map. eapply Forall_impl; [exact Ht|]. apply prune_tidy. }
  destruct Hr as [E|(text & keep & _ & Hw & E)]; symmetry in E.
  - split; [by apply (answered_payload _ _ E)|by apply (tidy_payload _ _ E)].
  - split; [apply (answered_payload _ _ E), answered_plain; [done|done|by apply kept_tail]|].
    apply (tidy_payload _ _ E). constructor; [done|]. by apply Forall_drop.
Qed.

Lemma candidate_stands_in source p o text c :
  candidate as_array legacy_id now uuid caps p o text = Ok c ->
  (map payload (ss_messages (pp_source p)) = map payload source \/
   map payload (ss_messages (pp_source p)) = map payload (map prune_plain source)) ->
  0 < keep_from (pp_plan p) -> whole_or_nothing (ss_messages (pp_source p)) (keep_from (pp_plan p)) ->
  stands_in source (ss_messages (co_compacted_session c)).
Proof.
  intros Hc Hs Hk Hw. unfold candidate in Hc.
  match type of Hc with context [let (_, _) := ?x in _] => destruct x as [summary description] end.
  destruct (validate_summary _ _) as [|[]]; try done. destruct (_ <? _); [done|]. injection Hc as <-.
  exists (ss_messages (pp_source p)). split; [done|]. right. eexists _, (keep_from (pp_plan p)). split_and!; [done|done|].
  apply replaced_payload.
Qed.

(** The result of a run is the source, skipped, or a replacement that reaches the target. *)
Definition run_result (source : Session) (e : RunEnd) : Prop :=
  forall c, re_result e = Ok c ->
    stands_in (ss_messages source) (ss_messages (co_compacted_session c)) /\
    let before := estimate_session_tokens (ss_messages source) in
    let after := estimate_session_tokens (ss_messages (co_compacted_session c)) in
    (ss_messages (co_compacted_session c) = ss_messages source /\ cr_outcome (re_report e) = Skipped) \/
    (cr_outcome (re_report e) = TargetMet /\ cr_after_history (re_report e) = N.of_nat after /\
     after < before /\ after <= current_target before (safe (co_compacted_session c)).2).

Lemma skipped_result source scope reason report :
  run_result source (ended scope (skipped_report reason report) (Ok (unchanged_compaction source))).
Proof. intros c [= <-]. split; [|by left]. exists (ss_messages source). split; by left. Qed.

Lemma pruned_result source target frozen report report' r scope :
  map payload (ss_messages frozen) = map payload (map prune_plain (ss_messages source)) ->
  target <= estimate_session_tokens (ss_messages source) / 2 ->
  pruned_end system pending (estimate_session_tokens (ss_messages source)) target frozen report = Some (report', r) ->
  run_result source (ended scope report' (Ok r)).
Proof.
  intros Hf Ht. unfold pruned_end. destruct (safe_history_budget _ _ frozen) as [budget s] eqn:E.
  destruct (_ && _) eqn:Eb; [|done]. apply andb_true_iff in Eb as [H1 H2].
  apply Nat.ltb_lt in H1. apply Nat.leb_le in H2. intros [= <- <-] c [= <-]. split.
  - exists (ss_messages frozen). split; [by right|by left].
  - right. cbn [unchanged_compaction with_source co_compacted_session]. rewrite E. unfold current_target.
    split_and!; [done|done|done|]. cbn [snd]. lia.
Qed.

(** A run of a source ends, within its budget, with a result that can stand in for the source. *)
Lemma attempts_end source config custom options env run_id scope report :
  within run_id scope -> sc_outer_retries scope = 0%N ->
  N.to_nat (default 0%N (cr_target_history report)) <= estimate_session_tokens (ss_messages source) / 2 ->
  exists e, attempts source config custom options env scope report = Ret e /\
    run_result source e /\ within run_id (re_scope e).
Proof.
  intros W Hr Ht. unfold run_compaction_attempts.
  destruct (negb _); [by eexists|]. destruct (_ && _).
  { eexists. split_and!; [done|apply skipped_result|done]. }
  set (pruning := if allow_pruning options then _ else _).
  assert (map payload (ss_messages pruning.1) = map payload (map prune_plain (ss_messages source)) \/
          map payload (ss_messages pruning.1) = map payload (ss_messages source) /\ pruning.2 = 0) as Hp
    by (subst pruning; destruct (allow_pruning options); [left; apply prune_payload|by right]).
  destruct pruning as [frozen pruned]. cbn [fst snd] in Hp.
  destruct (if 0 <? pruned then _ else None) as [[report' r]|] eqn:Ep.
  { destruct (Nat.ltb_spec 0 pruned) as [Hpos|]; [|done]. eexists. split_and!; [done| |done].
    eapply pruned_result; [|exact Ht|exact Ep]. destruct Hp as [?|[_ ?]]; [done|lia]. }
  destruct (prepare_whole (ss_messages frozen) (rv_todo env) (compaction_retention system pending frozen config)
    (N.to_nat (default 0%N (cr_target_history report))) (N.to_nat (default 0%N (cr_ideal_history report))))
    as (plan & -> & Hw & _). cbn [mbind run_bind].
  destruct (has_source plan) eqn:Hs; cbn [negb].
  2: { destruct (_ && _); [|by eexists]. eexists. split_and!; [done|apply skipped_result|done]. }
  destruct (_ =? 0); [by eexists|].
  set (p := {| pp_plan := plan |}).
  destruct (loop_ends run_id (raw_summary_budget plan + 6) (estimate_session_tokens (ss_messages source)) custom p
    (rv_attempts env) 0 (raw_summary_budget plan) true 0 scope report) as (e & E & Hg & We);
    [unfold fuel_left; rewrite Hr; cbn; lia|done|].
  exists e. split_and!; [done| |done]. intros c Hc. destruct (Hg c Hc) as ((o & text & Hcand) & H1 & H2 & H3 & H4 & _).
  apply Nat.ltb_lt in Hs. split; [|by right]. eapply (candidate_stands_in _ p); [done| |done|done]. tauto.
Qed.

Lemma initial_target run_id source :
  N.to_nat (default 0%N (cr_target_history (initial_report system pending run_id source)))
  <= estimate_session_tokens (ss_messages source) / 2.
Proof.
  unfold initial_report. destruct (safe_history_budget _ _ source) as [b s]. cbn [cr_target_history default].
  unfold current_target. cbn. lia.
Qed.

(** C26. A compaction run ends whatever happens during it: whatever the provider answers to each request,
    however its requests use the shared scope, and whenever the user cancels, the attempts, the
    retries and the shrinking of the summary's cap run out; it never panics, and at most four
    requests, two completed responses and two outer retries were spent on it. *)
Theorem compaction_run_ends source config custom options env run_id :
  exists e, attempts source config custom options env (scope_new run_id)
              (initial_report system pending run_id source) = Ret e /\
    (sc_attempts (re_scope e) <= 4)%N /\ (sc_completed_responses (re_scope e) <= 2)%N /\
    (sc_outer_retries (re_scope e) <= 2)%N /\
    N.of_nat (length (sc_receipts (re_scope e))) = sc_attempts (re_scope e).
Proof.
  destruct (attempts_end source config custom options env run_id (scope_new run_id)
    (initial_report system pending run_id source)) as (e & E & _ & H1 & H2 & H3 & H4 & _);
    [by apply new_within|done|apply initial_target|].
  exists e. split_and!; [done..|]. apply (f_equal length) in H4. rewrite length_map in H4. rewrite H4.
  unfold CompactionBudget.ids. rewrite length_map, length_seq. lia.
Qed.

(** ** The live session *)

Context (has_path : bool).

#[local] Notation run_owner := (run_compaction as_array texts_to_json legacy_id now uuid caps system pending fingerprint has_path).
#[local] Notation in_place := (compact_in_place as_array texts_to_json legacy_id now uuid caps system pending fingerprint has_path).
#[local] Notation in_place_inner := (compact_in_place_inner as_array texts_to_json legacy_id now uuid caps system pending fingerprint has_path).

#[local] Notation live x := (ss_messages (cx_session x)).

(** The durable session that an answer of the store makes a session with a file take over: only when
    the store said that the source had changed, and it could be read. *)
Definition changed_reload {A} (answer : result SourceFailure A) (reload : result string Session) : list Session :=
  match answer, reload with
  | Err SourceChanged, Ok durable => if has_path then [durable] else []
  | _, _ => []
  end.

(** The messages a session has without a replacement: its own, or those of a durable session that
    was reloaded because the source had changed. *)
Definition unmoved (reloads : list Session) (l l' : list ConversationMessage) : Prop :=
  l' = l \/ exists durable, durable ∈ reloads /\ l' = ss_messages durable.

Lemma unmoved_self rs l : unmoved rs l l.
Proof. by left. Qed.

Lemma unmoved_then rs l k m : unmoved rs l k -> unmoved rs k m -> unmoved rs l m.
Proof. intros [->|Hk] [->|Hm]; unfold unmoved; auto. Qed.

Lemma unmoved_widen rs rs' l k : unmoved rs l k -> (forall r, r ∈ rs -> r ∈ rs') -> unmoved rs' l k.
Proof. intros [->|(d & Hd & ->)] H; [by left|]. right. exists d. auto. Qed.

Lemma merge_messages receipts s : ss_messages (merge_maintenance_usage now receipts s).1 = ss_messages s.
Proof. unfold merge_maintenance_usage. by destruct (merge_maintenance_receipts _ _). Qed.

Lemma settle_live receipts x : live (settle_receipts now receipts x) = live x.
Proof.
  unfold settle_receipts. pose proof (merge_messages receipts (cx_session x)) as H.
  by destruct (merge_maintenance_usage now receipts (cx_session x)).
Qed.

Lemma refresh_if_live {A} error reload x :
  unmoved (changed_reload (A := A) (Err error) reload) (live x) (live (refresh_if_changed now has_path error reload x).1).
Proof.
  unfold refresh_if_changed, refresh_compaction_source. destruct error; [|by left]. cbn [is_changed changed_reload].
  destruct has_path; cbn [negb]; [|by left]. destruct reload as [d|e]; [|by left].
  right. exists d. split; [by left|]. cbn. apply merge_messages.
Qed.

(** Saving the metadata may find the source changed, at the write or at reading it back. *)
Definition persist_reloads (env : PersistEnv) : list Session :=
  changed_reload (pm_write env) (pm_reload env) ++ changed_reload (pm_capture env) (pm_reload env).

Lemma persist_live env x :
  unmoved (persist_reloads env) (live x) (live (persist_compaction_maintenance now has_path env x)).
Proof.
  unfold persist_compaction_maintenance, persist_reloads. cbn [with_session cx_source_revision].
  destruct (cx_source_revision x); [|by left].
  set (x0 := with_session _ x). assert (live x0 = live x) as E0 by done.
  destruct (pm_write env) as [u|error].
  - destruct (pm_capture env) as [[revision receipts]|error].
    + left. rewrite <- E0. apply settle_live.
    + pose proof (refresh_if_live (A := option string * list MaintenanceUsageReceipt) error (pm_reload env)
        (with_source_state None true x0)) as H.
      destruct (refresh_if_changed _ _ _ _ _) as [x1 refresh]. cbn [fst] in H. by destruct (cx_last_report x1).
  - pose proof (refresh_if_live (A := unit) error (pm_reload env) x0) as H.
    destruct (refresh_if_changed _ _ _ _ _) as [x1 refresh]. cbn [fst] in H.
    assert (unmoved (changed_reload (A := unit) (Err error) (pm_reload env) ++ changed_reload (pm_capture env) (pm_reload env))
      (live x0) (live x1)) as H' by (eapply unmoved_widen; [exact H|set_solver]).
    by destruct (cx_last_report x1).
Qed.

(** The result of an owner's run, against the live messages it started from. *)
Definition owner_result (source : list ConversationMessage) (c : CompactionResult) : Prop :=
  stands_in source (ss_messages (co_compacted_session c)) /\
  let before := estimate_session_tokens source in
  let after := estimate_session_tokens (ss_messages (co_compacted_session c)) in
  ss_messages (co_compacted_session c) = source \/
  (after < before /\ after <= current_target before (safe (co_compacted_session c)).2 /\
   exists report, co_report c = Some report /\ cr_outcome report = TargetMet /\ cr_after_history report = N.of_nat after).

Lemma inner_ends source config custom options run_id env x :
  exists x' r, run_compaction_inner as_array texts_to_json legacy_id now uuid caps system pending fingerprint has_path
                 source config custom options run_id env x = Ret (x', r) /\
    unmoved (persist_reloads (ow_persist env)) (live x) (live x') /\
    match r with Ok c => owner_result (ss_messages source) c /\ live x' = live x | Err _ => True end.
Proof.
  unfold run_compaction_inner.
  assert (exists e, (if ow_cancelled_first env then Ret (cancelled_end (scope_new run_id) (initial_report system pending run_id source))
       else attempts source config custom options (ow_run env) (scope_new run_id) (initial_report system pending run_id source))
       = Ret e /\ run_result source e) as (e & -> & He).
  { destruct (ow_cancelled_first env); [by eexists|].
    destruct (attempts_end source config custom options (ow_run env) run_id (scope_new run_id)
      (initial_report system pending run_id source)) as (e & E & H & _); [apply new_within|done|apply initial_target|by exists e]. }
  cbn [mbind run_bind]. pose proof (settle_live (sc_receipts (re_scope e)) x) as Hx.
  set (x1 := settle_receipts now _ x) in *. destruct (re_result e) as [c|error] eqn:Er.
  - eexists _, _. split; [done|]. split; [left; exact Hx|]. split; [|exact Hx].
    destruct (He c Er) as [Hs Hr]. set (scope := re_scope e) in *. clearbody scope x1.
    pose proof (merge_messages (sc_receipts scope) (co_compacted_session c)) as Hm.
    set (merged := (merge_maintenance_usage now (sc_receipts scope) (co_compacted_session c)).1) in *.
    assert (ss_compaction merged = ss_compaction (co_compacted_session c)) as Hc.
    { subst merged. unfold merge_maintenance_usage. by destruct (merge_maintenance_receipts _ _). }
    unfold owner_result. cbn [co_compacted_session co_report]. cbn [with_counts cr_outcome cr_after_history].
    set (final := session_report _ _).
    assert (ss_messages final = ss_messages (co_compacted_session c)) as Hf
      by (subst final; rewrite <- Hm; cbn; by destruct (cr_outcome (re_report e))).
    assert (safe final = safe (co_compacted_session c)) as Hsafe.
    { unfold safe_history_budget, history_request. rewrite Hf. rewrite <- Hc. subst final. cbn.
      by destruct (cr_outcome (re_report e)). }
    rewrite Hf, Hsafe. split; [done|]. destruct Hr as [[? _]|(H1 & H2 & H3 & H4)]; [by left|right].
    split_and!; [done|done|]. eexists. split_and!; [done|done|done].
  - eexists _, _. split; [done|]. split; [|done]. cbn [with_last_report cx_session].
    set (x2 := set_compaction_report _ x1). assert (live x2 = live x) as E2 by exact Hx. rewrite <- E2.
    destruct (sc_receipts (re_scope e)); [apply unmoved_self|apply persist_live].
Qed.

(** The reloads of an owner's run: at reading the source, and at saving its metadata. *)
Definition owner_reloads (env : OwnerEnv) : list Session :=
  changed_reload (ow_capture env) (ow_reload env) ++ persist_reloads (ow_persist env).

Lemma owner_ends source config custom options run_id env x :
  exists x' r, run_owner source config custom options run_id env x = Ret (x', r) /\
    unmoved (owner_reloads env) (live x) (live x') /\
    match r with Ok c => owner_result (ss_messages source) c /\ live x' = live x | Err _ => True end.
Proof.
  unfold run_compaction, owner_reloads. set (x0 := with_source_state _ _ _). assert (live x0 = live x) as E0 by done.
  destruct (ow_capture env) as [[revision receipts]|error].
  - set (x1 := with_source_state _ _ (settle_receipts _ _ _)).
    assert (live x1 = live x) as E1 by (rewrite <- E0; apply settle_live).
    destruct (ow_cancelled env); [eexists _, _; split_and!; [done|by left|done]|].
    destruct (ow_route env); [|eexists _, _; split_and!; [done|by left|done]].
    destruct (inner_ends (merge_maintenance_usage now receipts source).1 config custom options run_id env x1)
      as (x' & r & E & Hu & Hr). rewrite E1 in Hu. exists x', r. split_and!; [done| |].
    + eapply unmoved_widen; [exact Hu|]. set_solver.
    + destruct r as [c|]; [|done]. rewrite merge_messages, E1 in Hr. exact Hr.
  - pose proof (refresh_if_live (A := option string * list MaintenanceUsageReceipt) error (ow_reload env)
      (with_source_state None true x0)) as H.
    destruct (refresh_if_changed _ _ _ _ _) as [x1 refresh]. eexists _, _. split_and!; [done| |done].
    eapply unmoved_widen; [exact H|]. set_solver.
Qed.

(** The reloads an environment of a compaction in place may cause. *)
Definition reloads (env : InPlaceEnv) : list Session :=
  owner_reloads (ip_owner env) ++ changed_reload (ip_save env) (ip_reload env) ++ persist_reloads (ip_persist env).

Lemma save_failed_live env error x :
  unmoved (changed_reload (A := unit) (Err error) (ip_reload env) ++ persist_reloads (ip_persist env))
    (live x) (live (save_failed now has_path env error x)).
Proof.
  unfold save_failed. pose proof (refresh_if_live (A := unit) error (ip_reload env) x) as H.
  destruct (refresh_if_changed _ _ _ _ _) as [x1 refresh]. cbn [fst] in H.
  set (rs := _ ++ _).
  assert (unmoved rs (live x) (live x1)) as H' by (eapply unmoved_widen; [exact H|set_solver]).
  destruct (is_changed error); [exact H'|]. eapply unmoved_then; [exact H'|].
  set (x2 := update_last_report _ x1). change (live x1) with (live x2).
  eapply unmoved_widen; [apply persist_live|set_solver].
Qed.

(** A compaction in place: it installed a replacement, or left the messages alone. *)
Lemma in_place_ends config trigger run_id env x :
  exists x' r, in_place config trigger run_id env x = Ret (x', r) /\
    match r with
    | Ok (Some (removed, report)) =>
        exists c, cx_session x' = co_compacted_session c /\ owner_result (live x) c /\ live x' <> live x /\
          report = co_report c
    | _ => unmoved (reloads env) (live x) (live x')
    end.
Proof.
  unfold compact_in_place, compact_in_place_inner.
  destruct (owner_ends (cx_session x) config None
    {| allow_pruning := true; allow_repeat_skip := match trigger with ProviderRejection => false | _ => true end |}
    run_id (ip_owner env) x) as (x1 & r & -> & Hu & Hr).
  cbn [mbind run_bind].
  assert (unmoved (reloads env) (live x) (live x1)) as Hu' by (eapply unmoved_widen; [exact Hu|set_solver]).
  destruct r as [c|error]; cbn [mbind run_bind]; [|by eexists _, _].
  destruct Hr as [Hc Hx1]. destruct (bool_decide _) eqn:Ed.
  - set (x2 := match co_report c with Some report => _ | None => x1 end).
    assert (live x2 = live x1) as E2 by (subst x2; by destruct (co_report c)).
    assert (unmoved (reloads env) (live x) (live (persist_compaction_maintenance now has_path (ip_persist env) x2))) as H.
    { eapply unmoved_then; [exact Hu'|]. rewrite <- E2. eapply unmoved_widen; [apply persist_live|set_solver]. }
    destruct (changed_under _); cbn [mbind run_bind]; by eexists _, _.
  - apply bool_decide_eq_false in Ed. destruct (ip_aborted env); cbn [mbind run_bind].
    + eexists _, _. split; [done|]. eapply unmoved_then; [exact Hu'|].
      set (x2 := update_last_report _ x1). change (live x1) with (live x2).
      eapply unmoved_widen; [apply persist_live|set_solver].
    + destruct (if has_path then ip_save env else Ok tt) as [u|error] eqn:Es; cbn [mbind run_bind].
      * eexists _, _. split; [done|]. exists c. split_and!; [done|done| |done]. by rewrite <- Hx1.
      * eexists _, _. split; [done|]. eapply unmoved_then; [exact Hu'|].
        assert (ip_save env = Err error) as Es' by (destruct has_path; [exact Es|done]).
        eapply unmoved_widen; [apply save_failed_live|]. unfold reloads. rewrite Es'. set_solver.
Qed.

(** What the turn loop sees of a compaction in place. *)
Definition attempt_of (aborted : bool) (x : CompactionRuntime)
  (r : result CompactionError (option (nat * option CompactionReport))) : Attempt :=
  {| at_result := match r with
                  | Ok None => Ok None
                  | Ok (Some (removed, report)) =>
                      Ok (Some {| removed_message_count := removed; ac_report := cr_run_id <$> report |})
                  | Err e => Err (error_text e)
                  end;
     at_messages := live x;
     at_reported := current_context_tokens (cx_tracker x);
     at_aborted := aborted;
     at_failed_report := match cr_outcome <$> cx_last_report x with Some Failed => true | _ => false end |}.

Lemma in_place_sound config trigger run_id env x :
  sound (live x) -> Forall (fun d => sound (ss_messages d)) (reloads env) ->
  exists x' r, in_place config trigger run_id env x = Ret (x', r) /\ sound (live x').
Proof.
  intros Hs Hd. destruct (in_place_ends config trigger run_id env x) as (x' & r & E & Hr).
  exists x', r. split; [done|].
  assert (unmoved (reloads env) (live x) (live x') -> sound (live x')) as Hu.
  { rewrite Forall_forall in Hd. intros [->|(d & Hin & ->)]; [done|by apply Hd]. }
  destruct r as [[[removed report]|]|e]; auto.
  destruct Hr as (c & Ec & [Hst _] & _). rewrite Ec. destruct Hs. by apply (stands_in_answered (live x)).
Qed.

(** C4. A compaction keeps what a turn requires of it.  When every call of the live transcript is
    answered by the messages behind it, no response in it repeats the id of a call or carries a
    result, and no result message holds two results, then, whatever the provider, the store and the
    user do during a compaction in place, it answers, and the live transcript is again such a one,
    after a replacement, a refusal, a failure or a cancellation; a durable session that it takes over
    because its source had changed is required to be such a transcript itself.  (Where a response
    repeats an id, a boundary can split its exchange: [repeated_ids_are_split]; the response loop
    refuses such a response.) *)
Theorem compaction_keeps_calls_answered config trigger run_id env aborted x :
  sound (live x) -> Forall (fun d => sound (ss_messages d)) (reloads env) ->
  exists x' r, in_place config trigger run_id env x = Ret (x', r) /\
    sound (at_messages (attempt_of aborted x' r)).
Proof. apply in_place_sound. Qed.

(** C5. A compaction in place installs a replacement that shrinks the session, or none: a
    replacement is the session's messages, its long results possibly shortened, or a continuation in
    front of a tail of them; it is estimated at no more than half of what was there, fits the history
    budget of its own next request, and its report says so; without one, the messages are what they
    were, or those of a durable session that was read because the store had answered that the source
    changed under the compaction. *)
Theorem compaction_shrinks_or_keeps config trigger run_id env x :
  exists x' r, in_place config trigger run_id env x = Ret (x', r) /\
    match r with
    | Ok (Some (removed, report)) =>
        let before := estimate_session_tokens (live x) in
        let after := estimate_session_tokens (live x') in
        stands_in (live x) (live x') /\ after < before /\ after <= before / 2 /\
        after <= (safe_history_budget system pending (cx_session x')).2 /\
        exists p, report = Some p /\ cr_outcome p = TargetMet /\ cr_after_history p = N.of_nat after
    | _ => unmoved (reloads env) (live x) (live x')
    end.
Proof.
  destruct (in_place_ends config trigger run_id env x) as (x' & r & E & Hr). exists x', r. split; [done|].
  destruct r as [[[removed report]|]|e]; [|done..].
  destruct Hr as (c & -> & [Hs Hm] & Hne & ->). cbn zeta in Hm |- *. split; [done|].
  destruct Hm as [Hm|(H1 & H2 & p & H3 & H4 & H5)]; [done|]. unfold current_target in H2.
  split_and!; [done|lia|lia|by exists p].
Qed.

End Run.
End Text.

(** The attempts a turn may see: those of a compaction in place of these messages, with any runtime,
    settings and environment, whose reloaded sessions are sound. *)
Inductive compacts (l : list ConversationMessage) : Attempt -> Prop :=
| compacts_in_place {J : SerdeJson} legacy_id as_array texts_to_json now uuid {C : ApiClient} caps system pending
    fingerprint has_path config trigger run_id env x x' r aborted :
    ss_messages (cx_session x) = l -> Forall (fun d => sound (ss_messages d)) (reloads has_path env) ->
    compact_in_place as_array texts_to_json legacy_id now uuid caps system pending fingerprint has_path config trigger
      run_id env x = Ret (x', r) ->
    compacts l (attempt_of aborted x' r).

Lemma compacts_sound l a : compacts l a -> sound l -> sound (at_messages a).
Proof.
  intros [J legacy_id as_array texts_to_json now uuid C caps system pending fingerprint has_path config trigger
    run_id env x x' r aborted <- Hd E] Hl.
  destruct (in_place_sound legacy_id as_array texts_to_json now uuid caps system pending fingerprint has_path config
    trigger run_id env x Hl Hd) as (x2 & r2 & E2 & H). rewrite E in E2. by injection E2 as <- <-.
Qed.

(** ** A run, by evaluation *)

Definition long_text : string := String.concat "" (replicate 80 "twenty-five bytes of text").

Definition demo_history : list ConversationMessage :=
  replicate 6 (message_of RUser [Text long_text] None)
  ++ [ message_of RUser [Text "list the files"] None;
       message_of RAssistant [ToolUse "call-1" "bash" "ls" None] None;
       message_of RTool [ToolResult "call-1" "bash" "a.txt" false] None;
       message_of RAssistant [Text "one file"] None ].

Definition session_of (messages : list ConversationMessage) : Session :=
  {| ss_version := 1; ss_session_id := "s"; ss_created_at_ms := 0; ss_updated_at_ms := 0; ss_messages := messages;
     ss_compaction := None; ss_maintenance_usage := []; ss_compaction_achievement := None;
     ss_last_compaction_report := None; ss_fork := None; ss_workspace_root := None; ss_identity := None;
     ss_prompt_history := []; ss_last_health_check_ms := None; ss_model := None; ss_mode := Interactive;
     ss_prompt_snapshot := None; ss_prompt_snapshot_dirty := false; ss_pending_tool_repairs := 0;
     ss_restored_history_head := None; ss_view_revision := 0 |}.

Definition demo_live : CompactionRuntime :=
  {| cx_session := session_of demo_history; cx_last_report := None; cx_source_revision := None;
     cx_source_stale := false; cx_tracker := tracker_new |}.

Definition demo_budget : ContextBudget :=
  {| context_limit := 200000; max_output_tokens := 1000; overhead_tokens := 100; buffer_tokens := 1000 |}.
#[export] Instance demo_client : ApiClient :=
  {| client_thinking_enabled := false; context_budget_for_request _ := demo_budget;
     context_budget_for_completion _ _ _ := demo_budget |}.
Definition demo_caps : ModelCaps :=
  {| mc_max_output_tokens := N.to_nat 8000; mc_request_max_output_tokens := N.to_nat 8000; mc_budgeted_thinking := false |}.

Definition demo_answer (reason : string) (text : string) : AttemptEnv :=
  {| ae_ops := [CompactionBudget.Reserve; CompactionBudget.Completed]; ae_cancelled := false;
     ae_reply := Ok {| tc_text := text; tc_usage := None; tc_stop_reason := Some reason; tc_has_tool_calls := false |};
     ae_todo := None; ae_sleep_cancelled := false |}.

Definition demo_run_env : RunEnv :=
  {| rv_fresh _ := "fresh"; rv_todo := None; rv_description := false;
     rv_attempts k := match k with
                      | 0 => demo_answer "max_tokens" "<summary>1. Primary"
                      | _ => demo_answer "end_turn" "<summary>1. Primary Request: list the files</summary>"
                      end |}.

Definition demo_persist : PersistEnv :=
  {| pm_write := Ok tt; pm_capture := Ok (None, []); pm_reload := Err "no file" |}.
Definition demo_env : InPlaceEnv :=
  {| ip_owner := {| ow_capture := Ok (None, []); ow_reload := Err "no file"; ow_cancelled := false; ow_route := Ok tt;
                    ow_aborted := false; ow_cancelled_first := false; ow_run := demo_run_env; ow_aborted_after := false;
                    ow_persist := demo_persist |};
     ip_aborted := false; ip_save := Ok tt; ip_reload := Err "no file"; ip_persist := demo_persist |}.

Definition demo_in_place (env : InPlaceEnv) : run (CompactionRuntime * result CompactionError (option (nat * option CompactionReport))) :=
  compact_in_place (fun _ => None) (fun _ => "") (fun _ _ _ => "legacy") 0%N (fun _ => "fresh") demo_caps prompt_default
    0%N (fun _ _ => "print") false forced_compaction_config InTurnBudget "run-1" env demo_live.

(** What the compaction leaves: the messages removed, the tokens before and after, the attempts and
    the roles of the messages. *)
Definition demo_outcome (env : InPlaceEnv) : option (nat * N * N * N * list MessageRole) :=
  match demo_in_place env with
  | Ret (x, Ok (Some (removed, Some r))) =>
      Some (removed, cr_before_history r, cr_after_history r, cr_attempts r, map role (ss_messages (cx_session x)))
  | _ => None
  end.

(** The first answer was cut off, the second is installed: four messages are summarised. *)
Example demo_compaction : demo_outcome demo_env =
  Some (4, 3018%N, 1130%N, 2%N, [RSystem; RUser; RUser; RUser; RAssistant; RTool; RAssistant]).
Proof. vm_compute. reflexivity. Qed.

Lemma demo_answered : answered demo_history.
Proof.
  unfold demo_history. apply answered_app.
  - unfold replicate. repeat (apply answered_plain; [done|done|]). constructor.
  - apply answered_plain; [done|done|].
    apply (answered_exchange (message_of RAssistant [ToolUse "call-1" "bash" "ls" None] None)
      [message_of RTool [ToolResult "call-1" "bash" "a.txt" false] None]); [done| |].
    + constructor; [|constructor]. split; [done|]. by eexists _, _, _, _.
    + apply answered_plain; [done|done|constructor].
Qed.

Lemma demo_tidy : Forall tidy demo_history.
Proof.
  apply Forall_forall. intros m Hm. unfold demo_history in Hm. apply elem_of_app in Hm as [Hm|Hm].
  - apply elem_of_replicate in Hm as [-> _]. exact I.
  - repeat (apply elem_of_cons in Hm as [->|Hm]); [exact I| | | |by apply elem_of_nil in Hm].
    + split; [apply NoDup_singleton|done].
    + cbn. lia.
    + split; [apply NoDup_nil; done|done].
Qed.

Lemma compaction_keeps_calls_answered_witness :
  exists x r, demo_in_place demo_env = Ret (x, r) /\ sound (at_messages (attempt_of false x r)).
Proof.
  apply (compaction_keeps_calls_answered (fun _ _ _ => "legacy") (fun _ => None) (fun _ => "") 0%N (fun _ => "fresh")
    demo_caps prompt_default 0%N (fun _ _ => "print") false forced_compaction_config InTurnBudget "run-1" demo_env
    false demo_live (conj demo_answered demo_tidy)).
  constructor.
Defined.

(** ** Texts the functions do not expect *)

Definition tags (s : string) : string := strip_tag_block s "analysis".

(** A closing tag in front of the opening one: what lies between them is kept twice. *)
Example tags_out_of_order : tags "a </analysis> b <analysis> c" = "a </analysis> b  b <analysis> c".
Proof. vm_compute. reflexivity. Qed.

(** The summary of an earlier compaction is read back with the todo list of that time. *)
Example earlier_todo_is_summary :
  option_map (fun s => contains s "- [pending] ship it")
    (extract_existing_compacted_summary
       (continuation_message
          (get_compact_continuation_message "<summary>done so far</summary>" true true
             (format_todo_continuity_block [{| td_status := "pending"; td_content := "ship it" |}])))) = Some true.
Proof. vm_compute. reflexivity. Qed.

(** A summary is measured without the todo list that is installed with it: the session grows. *)
Definition grown : option (nat * nat) :=
  let s := session_of (replicate 2 (message_of RUser [Text long_text] None)) in
  match compact_session (fun _ _ _ => "legacy") (fun _ => None) 0%N (fun _ => "fresh")
          (fun _ _ _ => Ok "<summary>short</summary>") (N.to_nat 8000) s
          {| preserve_recent_messages := 1; max_estimated_tokens := 0 |} None
          (format_todo_continuity_block [{| td_status := "pending"; td_content := long_text |}]) with
  | Ret (Ok c) => Some (estimate_session_tokens (ss_messages s), estimate_session_tokens (ss_messages (co_compacted_session c)))
  | _ => None
  end.

Example todo_list_is_not_measured : match grown with Some (before, after) => before < after | None => False end.
Proof. vm_compute. repeat constructor. Qed.
