(* ===== verification/TurnSafety.v ===== *)
(** * What a turn guarantees

    Every request carries a transcript in which each tool call is answered, as long as what
    comes from outside the loop is: the transcript the turn starts with, the sessions a
    compaction reloads, prepared inputs without tool blocks, and tool outputs that attach
    no results; the compactions are those of the program itself.  The limits of a turn, how
    often it compacts, continues and iterates, and that tools stop at the step limit, and
    that it always goes on, hold whatever the environment answers. *)
From S2P Require Import Prelude.
From stdpp Require Import list.
From S2P Require Import Compaction SessionCodec SessionRecord CompactionText CompactionRun.
From S2P Require Import RustStr Json Conversation Permissions TurnInput AssistantMessage Transcript ToolScheduler SchedulerSafety ResponseLoop ResponseSafety TurnLoop CompactionRunSafety JsonModel.

Lemma answered_thinking l : answered l -> answered (map without_thinking l).
Proof.
  apply answered_map; intros m; unfold without_thinking; destruct (bool_decide (role m = RAssistant)) eqn:E; try done.
  - cbn. unfold call_ids. induction (blocks m) as [|b l' IH]; [done|]. destruct b; cbn; by rewrite ?IH.
  - apply bool_decide_eq_true in E. intros id (Hr & _). congruence.
Qed.

Lemma sound_app l k : sound l -> sound k -> sound (l ++ k).
Proof. intros [Hl Tl] [Hk Tk]. split; [by apply answered_app|by apply Forall_app]. Qed.

Lemma sound_payload l k : map payload l = map payload k -> sound l -> sound k.
Proof. intros E [Ha Ht]. split; [by apply (answered_payload l)|by apply (tidy_payload l)]. Qed.

Lemma sound_same l k : same_messages l k -> sound l -> sound k.
Proof. intros H. by apply sound_payload, same_payload. Qed.

#[export] Instance sound_proper : Proper (same_messages ==> iff) sound.
Proof. intros l k H. split; apply sound_same; [done|by symmetry]. Qed.

(** A message that is neither a call nor a result may stand anywhere. *)
Definition plain (m : ConversationMessage) : Prop :=
  role m <> RTool /\ call_ids (blocks m) = [] /\ (role m = RAssistant -> result_ids (blocks m) = []).

Lemma sound_plain m l : plain m -> sound l -> sound (m :: l).
Proof.
  intros (Hr & Hc & Hn) [Ha Ht]. split; [by apply answered_plain|]. constructor; [|done].
  unfold tidy. destruct (role m); try done. rewrite Hc. split; [apply NoDup_nil_2|by apply Hn].
Qed.

Lemma plain_user bs : call_ids bs = [] -> plain (user_blocks bs).
Proof. by intros H. Qed.

Lemma plain_text text : plain (user_blocks [Text text]).
Proof. by apply plain_user. Qed.

Lemma sound_thinking l : sound l -> sound (map without_thinking l).
Proof.
  intros [Ha Ht]. split; [by apply answered_thinking|]. rewrite Forall_map. eapply Forall_impl; [exact Ht|].
  intros m. unfold without_thinking. destruct (bool_decide (role m = RAssistant)) eqn:E; [|done].
  apply bool_decide_eq_true in E. unfold tidy. cbn [role blocks]. rewrite E. intros [Hn Hres].
  assert (forall (g : ContentBlock -> option string), (forall b, is_thinking b = true -> g b = None) -> forall bs,
    omap g (List.filter (fun b => negb (is_thinking b)) bs) = omap g bs) as Hf.
  { intros g Hg bs. induction bs as [|b bs IH]; [done|]. cbn. destruct (is_thinking b) eqn:Eb; cbn; rewrite IH; [|done].
    by rewrite (Hg b Eb). }
  unfold call_ids, result_ids in *. rewrite !Hf; [done|by intros []..].
Qed.

(** ** Tools that attach no results

    A result message has one result unless the output of its tool brought more. *)
Definition single (m : ConversationMessage) : Prop := role m = RTool -> length (result_ids (blocks m)) <= 1.

Lemma single_same l k : same_messages l k -> Forall single l -> Forall single k.
Proof.
  intros H%same_payload. revert k H. induction l as [|m l IH]; intros [|m' k] E F; try done.
  apply (inj2 cons) in E as [E Es]. apply Forall_cons in F as [Fm F]. constructor; [|by apply IH].
  destruct (payload_eq _ _ E) as [Hr Hb]. unfold single. by rewrite <- Hr, <- Hb.
Qed.

#[export] Instance single_proper : Proper (same_messages ==> iff) (Forall single).
Proof. intros l k H. split; apply single_same; [done|by symmetry]. Qed.

Lemma tidy_single m : tidy m -> single m.
Proof. unfold tidy, single. by intros H E; rewrite E in H. Qed.

(** No output that a tool has answered with attaches results (they attach images). *)
Definition attach_no_results (s : ToolScheduler) : Prop :=
  forall i c o, calls s !! i = Some c -> inv_output c = Some o -> result_ids (to_attachments o) = [].

Definition sched_single (s : ToolScheduler) : Prop :=
  (forall i c m, calls s !! i = Some c -> inv_result c = Some m -> single m)
  /\ (forall i m d input a, Completed i m d input a ∈ updates s -> single m).

Lemma into_message_single o id name is_error origin :
  is_error = true \/ result_ids (to_attachments o) = [] ->
  single (with_origin origin id (into_message o id name is_error)).
Proof.
  intros H _. assert (length (result_ids (blocks (into_message o id name is_error))) <= 1) as Hb.
  { unfold into_message. destruct is_error; [cbn; lia|]. destruct H as [|H]; [done|].
    cbn. unfold result_ids in H. rewrite H. cbn. lia. }
  by destruct origin.
Qed.

Lemma complete_single s i output is_error denial s' :
  sched_single s -> is_error = true \/ result_ids (to_attachments output) = [] ->
  complete s i output is_error denial = Some s' -> sched_single s'.
Proof.
  intros [Hr Hu] Ho. unfold complete. destruct (calls s !! i) as [c|] eqn:Hi; [|done]. cbn [mbind option_bind].
  intros [= <-]. split; cbn.
  - intros j d m [[-> ->]|[_ Hj]]%lookup_insert_cases; [by apply (Hr i c)|by apply (Hr j d)|by eapply lookup_lt_Some].
  - intros j m d input a [Hin|Hin%list_elem_of_singleton]%elem_of_app; [by eapply Hu|].
    injection Hin as _ -> _ _ _. apply into_message_single. by destruct denial.
Qed.

Lemma set_call_single s i c c' :
  calls s !! i = Some c -> inv_result c' = inv_result c -> sched_single s -> sched_single (set_call i c' s).
Proof.
  intros Hi E [Hr Hu]. split; [|done]. cbn. intros j d m [[-> ->]|[_ Hj]]%lookup_insert_cases; [|by apply (Hr j d)|by eapply lookup_lt_Some].
  rewrite E. by apply (Hr i c).
Qed.

Section Turn.
Context {J : SerdeJson}.
Context (legacy_id : nat -> ConversationMessage -> string).
Context (is_concurrency_safe : string -> string -> bool) (interrupted_bash : string).
Context (offload : string -> string -> string -> string).
Context (running_model : string).
Context (cfg : TurnConfig).
Context (context_budget : list ConversationMessage -> Compaction.ContextBudget).
Context (unfinished_deliverable : list ConversationMessage -> list ConversationMessage -> bool).
Context (p : PermissionPolicy) (n : nat).

(** *** The scheduler *)

Lemma advance_single aborted s i stage s' :
  attach_no_results s -> sched_single s -> advance is_concurrency_safe aborted s i stage = Some s' -> sched_single s'.
Proof.
  intros Hn Hs. unfold advance. destruct (calls s !! i) as [c|] eqn:Hi; [|done]. cbn [mbind option_bind].
  destruct stage as [hook|[|reason]|answer|hook].
  - destruct (hook_refuses hook).
    + apply complete_single; [|by left]. by apply (set_call_single s i c).
    + intros [= <-]. by apply (set_call_single s i c).
  - intros [= <-]. by apply (set_call_single s i c).
  - apply complete_single; [done|by left].
  - destruct (match answer with Ok output => _ | Err error => _ end) as [output is_error]. intros [= <-].
    by apply (set_call_single s i c).
  - destruct (inv_output c) as [output|] eqn:Eo; [|done]. cbn [mbind option_bind].
    apply complete_single; [by apply (set_call_single s i c)|]. right. cbn. by apply (Hn i c).
Qed.

Lemma admit_single prompter s : sched_single s -> sched_single (admit_calls prompter s).
Proof.
  intros [Hr Hu]. split; cbn [admit_calls calls updates].
  - intros i c m (a & Ha & ->)%lookup_calls. destruct (admit_loop_lookup _ _ _ _ _ _ _ _ _ Ha) as (d & Hd & Hadm & _).
    destruct (admitted_kept _ _ _ _ Hadm) as (_ & _ & _ & _ & -> & _). by apply (Hr i).
  - intros i m d input a [Hin|Hin]%elem_of_app; [by eapply Hu|]. exfalso.
    apply list_elem_of_omap in Hin as (b & Hin & Hb). apply list_elem_of_lookup in Hin as [k Hk].
    destruct (admit_loop_lookup _ _ _ _ _ _ _ _ _ Hk) as (c & _ & [->|[[_ ->]| ->]] & _); try done.
    unfold admit_ready in Hb. by destruct (inv_phase c).
Qed.

Lemma deliver_single s u s1 s2 :
  sched_single s -> take_update s = Some (u, s1) -> observe_tool_update offload s1 u = Some s2 -> sched_single s2.
Proof.
  intros [Hr Hu]. unfold take_update. destruct (updates s) as [|u' us] eqn:Eu; [done|]. intros [= -> <-].
  assert (sched_single (set_updates us s)) as Hs.
  { split; [done|]. cbn. intros i m d input a Hin. apply (Hu i m d input a). by right. }
  destruct u as [id name input|i m d input a]; cbn [observe_tool_update]; [by intros [= <-]|].
  unfold store_result. cbn [calls set_updates]. destruct (calls s !! i) as [c|] eqn:Hi; [|done]. cbn [mbind option_bind].
  intros [= <-]. split; [|apply Hs]. cbn. intros j x m' [[-> ->]|[_ Hj]]%lookup_insert_cases; [|by apply (Hr j x)|by eapply lookup_lt_Some].
  intros [= <-]. unfold single. cbn. intros E. specialize (Hu i m d input a ltac:(by left) E).
  assert (forall bs, result_ids (map (settle_block offload a) bs) = result_ids bs) as ->; [|done].
  intros bs. unfold result_ids. induction bs as [|b bs IH]; [done|]. cbn [map].
  destruct b, a; cbn; rewrite ?IH; done.
Qed.

Lemma cancel_single s s' : sched_single s -> cancel interrupted_bash s = Some s' -> sched_single s'.
Proof.
  intros Hs. unfold cancel. assert (sched_single (set_active [] s)) as H by done. revert H.
  generalize (set_active [] s). generalize (seq 0 (length (calls s))). clear Hs s. intros l.
  induction l as [|i l IH]; intros s Hs; cbn [foldl mbind option_bind]; [by intros [= <-]|].
  destruct (cancel_call interrupted_bash s i) as [s1|] eqn:E.
  - apply IH. unfold cancel_call in E. destruct (calls s !! i) as [c|] eqn:Hi; [|done]. cbn [mbind option_bind] in E.
    destruct (is_complete c); [by injection E as <-|]. revert E. apply complete_single; [|by left]. by apply (set_call_single s i c).
  - intros H. exfalso. revert H. clear. induction l as [|j l IH]; cbn [foldl]; [done|]. exact IH.
Qed.

Lemma drain_single fuel : forall s s', sched_single s -> drain offload fuel s = Some s' -> sched_single s'.
Proof.
  induction fuel as [|fuel IH]; intros s s' Hs; cbn [drain]; [by intros [= <-]|].
  destruct (take_update s) as [[u s1]|] eqn:Eu; [|by intros [= <-]].
  destruct (observe_tool_update offload s1 u) as [s2|] eqn:Eo; [|done]. cbn [mbind option_bind].
  apply IH. by eapply deliver_single.
Qed.

(** *** The response *)

Definition response_single (r : Response) : Prop := sched_single (rs_scheduler r) /\ Forall single (rs_messages r).

Lemma new_single messages : Forall single messages -> response_single (response_new p n messages).
Proof. intros H. split; [|done]. split; [done|]. by intros i m d input a Hin%elem_of_nil. Qed.

Lemma push_single st m messages :
  single m -> Forall single messages -> Forall single (push_message legacy_id st m messages).1.
Proof.
  intros Hm Hf. pose proof (push_message_spec legacy_id st m messages) as H.
  destruct (push_message legacy_id st m messages) as [messages' [e|]]; cbn; rewrite H; [done|]. apply Forall_app. by split; [|constructor].
Qed.

Lemma update_single st i m messages :
  Forall single messages -> Forall single (update_assistant_message st i m messages).1.
Proof.
  intros Hf. pose proof (update_assistant_message_spec st i m messages) as H.
  destruct (update_assistant_message st i m messages) as [messages' [e|]]; cbn; [by rewrite H|].
  destruct H as (previous & _ & _ & Hr & ->). apply Forall_insert; [done|]. unfold single. cbn. congruence.
Qed.

Lemma checkpoint_assistant_single st m r :
  role m = RAssistant -> response_single r -> response_single (checkpoint_assistant legacy_id st m r).1.
Proof.
  intros Hm [Hs Hf]. unfold checkpoint_assistant. destruct (rs_assistant_index r) as [i|].
  - pose proof (update_single st i m (rs_messages r) Hf) as H. by destruct (update_assistant_message _ _ _ _).
  - assert (single m) as Hsm by (unfold single; congruence).
    pose proof (push_single st m (rs_messages r) Hsm Hf) as H.
    by destruct (push_message _ _ _ _) as [messages [e|]].
Qed.

Lemma persist_single st fuel : forall r, response_single r -> response_single (persist_results legacy_id st fuel r).1.
Proof.
  induction fuel as [|fuel IH]; intros r [Hs Hf]; [done|]. cbn [persist_results].
  destruct (scheduler_result _ _) as [m|] eqn:Em; [|done].
  assert (single m) as Hm.
  { unfold scheduler_result in Em. destruct (calls _ !! _) as [c|] eqn:Ec; [|done]. exact (proj1 Hs _ c m Ec Em). }
  pose proof (push_single (st (rs_persisted_results r)) m (rs_messages r) Hm Hf) as H.
  destruct (push_message _ _ _ _) as [messages [e|]]; [done|]. by apply IH.
Qed.

Lemma record_event_single st e r : response_single r -> response_single (loop_response (record_event legacy_id running_model st e r)).
Proof.
  intros Hr. unfold record_event. destruct e; try done. unfold checkpoint_stopped_assistant.
  destruct (rs_assistant_index _); [|done]. destruct (build_assistant_message _) as [b|] eqn:Eb; [|done].
  assert (response_single (set_events (rs_events r ++ [EMessageStop]) r)) as H by done.
  apply (checkpoint_assistant_single st (set_model (Some running_model) (built_message b))) in H; [|by apply (built_ok _ _ Eb)].
  by destruct (checkpoint_assistant _ _ _ _) as [r' [e|]].
Qed.

Lemma response_step_single allow_tools r l :
  attach_no_results (rs_scheduler r) -> response_single r ->
  response_step legacy_id is_concurrency_safe offload running_model allow_tools r l -> response_single (loop_response l).
Proof.
  intros Hn [Hs Hf] Hstep.
  destruct Hstep as [Hd|Hd|Hd He Hb|prompter Hd|aborted k i w stage s Hd Hk Hst Ha|st u s l Hd Hu Hl
                    |st e l Hd He Hl|error Hd He|Hd He]; try done.
  - split; [by apply admit_single|done].
  - split; [|done]. by apply (advance_single aborted (set_active (delete k (active (rs_scheduler r))) (rs_scheduler r)) i stage).
  - unfold on_update in Hl. destruct (observe_tool_update offload s u) as [s'|] eqn:Eo; [|done]. cbn [mbind option_bind] in Hl.
    injection Hl as <-.
    assert (response_single (set_scheduler s' r)) as H by (split; [by eapply deliver_single|done]).
    apply (persist_single st (S (length (calls (rs_scheduler (set_scheduler s' r)))))) in H. unfold persist_ready_results.
    by destruct (persist_results _ _ _ _) as [r' [e|]].
  - unfold on_event in Hl. set (r1 := set_boundary _ r) in Hl. assert (response_single r1) as Hr1 by done. clearbody r1.
    destruct e; try (apply (inj Some) in Hl as <-; by apply record_event_single).
    destruct allow_tools; cbn [negb] in Hl; [|by apply (inj Some) in Hl as <-].
    unfold checkpoint_tool_parent in Hl. destruct (build_assistant_message _) as [b|] eqn:Eb; [|done].
    pose proof (checkpoint_assistant_single st (set_model (Some running_model) (built_message b)) r1
      (proj1 (built_ok _ _ Eb)) Hr1) as H.
    destruct (checkpoint_assistant _ _ _ _) as [r' [error|]]; cbn [mbind option_bind fst] in *;
      [by apply (inj Some) in Hl as <-|].
    destruct (rs_assistant_index r') as [index|]; [|done]. cbn [mbind option_bind] in Hl.
    destruct (rs_messages r' !! index) as [saved|]; [|done]. cbn [mbind option_bind] in Hl.
    destruct (enqueue _ _ _ _ _ _) as [s|error] eqn:En; apply (inj Some) in Hl as <-; [|done].
    apply record_event_single. split; [|apply H]. cbn. unfold enqueue in En. destruct (existsb _ _); [done|].
    injection En as <-. destruct H as [[H1 H2] _]. split; [|done]. cbn. intros i c m [Hi|[_ Hi]]%lookup_app_Some; [by apply (H1 i c)|].
    by apply list_lookup_singleton_Some in Hi as [_ <-].
  - unfold on_end. by destruct (has_stop _).
Qed.

Lemma conclude_single st r error cancelled x :
  response_single r -> conclude legacy_id interrupted_bash offload st r error cancelled = Some x ->
  Forall single (ex_messages x) /\ Forall single (ex_results x).
Proof.
  intros Hr. unfold conclude.
  assert (forall r', (if cancelled || match error with Some _ => true | None => false end
    then close_response interrupted_bash offload cancelled r else Some r) = Some r' -> response_single r') as Hclose.
  { intros r'. destruct (cancelled || _); [|by intros [= <-]]. unfold close_response.
    destruct (cancel interrupted_bash (rs_scheduler r)) as [s|] eqn:Ec; [|done]. cbn [mbind option_bind].
    destruct (drain offload (length (updates s)) s) as [s2|] eqn:Ed; [|done]. cbn [mbind option_bind]. intros [= <-].
    destruct Hr as [Hs Hf]. split; [|done]. cbn. eapply drain_single; [|exact Ed]. by eapply cancel_single. }
  destruct (if cancelled || _ then _ else Some r) as [r'|]; [|done]. specialize (Hclose r' eq_refl). cbn [mbind option_bind].
  apply (persist_single st (S (length (calls (rs_scheduler r'))))) in Hclose. unfold persist_ready_results.
  destruct (persist_results _ _ _ r') as [r2 failure]. cbn [fst] in Hclose. destruct Hclose as [[Hs _] Hf].
  destruct (into_results (rs_scheduler r2)) as [results|] eqn:Er; [|done]. cbn [mbind option_bind]. intros [= <-].
  split; [done|]. cbn. unfold into_results in Er. apply mapM_Some in Er. apply Forall_forall. intros m Hm.
  apply list_elem_of_lookup in Hm as [i Hi]. destruct (Forall2_lookup_r _ _ _ _ _ Er Hi) as (c & Hc & Em). by apply (Hs i c).
Qed.

(** The blocks of a built message hold no results. *)
Lemma built_no_results events b :
  build_assistant_message events = Ok b -> result_ids (blocks (built_message b)) = [].
Proof.
  unfold build_assistant_message. destruct (negb _); [done|]. destruct (assistant_blocks events) as [|x l] eqn:E; [done|].
  intros [= <-]. cbn [built_message blocks]. rewrite <- E. unfold assistant_blocks. destruct (content events) as [text k] eqn:Ec.
  unfold result_ids. set (g := fun b : ContentBlock => match b with ToolResult id _ _ _ => Some id | _ => None end).
  change (blocks _) with (finish_assistant_blocks text k). rewrite (omap_finish g (conj (fun _ _ => eq_refl) (fun _ => eq_refl))).
  pose proof (omap_content g (conj (fun _ _ => eq_refl) (fun _ => eq_refl)) (fun _ => None) events (fun _ => eq_refl)
    (fun _ _ _ _ => eq_refl) ltac:(by intros [])) as H.
  rewrite Ec in H. cbn [snd] in H. rewrite H. clear. by induction events.
Qed.

(** ** The operations keep the transcript sound *)

Lemma push_spec st m t :
  let '(t', error) := push legacy_id st m t in
  same_messages (t_messages t') (match error with Some _ => t_messages t | None => t_messages t ++ [m] end)
  /\ t_progress t' = t_progress t /\ t_inbox t' = t_inbox t /\ t_reported t' = t_reported t.
Proof.
  unfold push. pose proof (push_message_spec legacy_id st m (t_messages t)) as H.
  by destruct (push_message legacy_id st m (t_messages t)) as [messages error].
Qed.

(** What [push] of a message without calls and results keeps. *)
Lemma push_plain st m t :
  plain m ->
  let '(t', error) := push legacy_id st m t in
  (sound (t_messages t) -> sound (t_messages t')) /\ t_progress t' = t_progress t.
Proof.
  intros Hm. pose proof (push_spec st m t) as H. destruct (push legacy_id st m t) as [t' error].
  destruct H as (H & Hp & _). split; [|done]. intros Hs. rewrite H. destruct error; [done|].
  apply sound_app; [done|]. apply sound_plain; [done|]. split; constructor.
Qed.

Lemma finalize_ok st t :
  (sound (t_messages t) -> sound (t_messages (finalize_cancelled_turn legacy_id interrupted_bash st [] t)))
  /\ t_progress (finalize_cancelled_turn legacy_id interrupted_bash st [] t) = t_progress t.
Proof.
  unfold finalize_cancelled_turn. cbn [assistant_blocks content fold_left omap list_omap map push_all app].
  pose proof (push_plain (st 0) (assistant_with_usage [Text CANCELLED_NOTE] None) t ltac:(by split_and!)) as H.
  change (assistant_blocks []) with (@nil ContentBlock). cbn [app omap list_omap map push_all].
  by destruct (push legacy_id (st 0) _ t).
Qed.

(** A prepared input is texts and images. *)
Definition plain_input (e : InputEnv) : Prop :=
  forall blocks, ie_prepared e = Ok blocks -> call_ids blocks = [].

Lemma commit_inputs_ok env inputs : forall k t,
  let '(t', _) := commit_inputs legacy_id env k inputs t in
  ((forall j, plain_input (env j)) -> sound (t_messages t) -> sound (t_messages t')) /\ t_progress t' = t_progress t.
Proof.
  induction inputs as [|i inputs IH]; intros k t; [done|]. cbn [commit_inputs].
  destruct (ie_aborted (env k)); [done|]. destruct (ie_aborted_after (env k)); [done|].
  destruct (match ti_source i with Human => _ | _ => _ end) as [bs|e] eqn:Eb; [|done].
  assert ((forall j, plain_input (env j)) -> plain (user_blocks bs)) as Hb.
  { intros He. apply plain_user. destruct (ti_source i); try (by injection Eb as <-). by apply (He k). }
  pose proof (push_spec (ie_storage (env k)) (user_blocks bs) t) as Hp.
  pose proof (fun H => push_plain (ie_storage (env k)) (user_blocks bs) t H) as H.
  destruct (push _ _ _ t) as [t' [e|]]; destruct Hp as (_ & Hp & _); [split; [|done]; intros He; by apply H, Hb|].
  pose proof (IH (S k) (with_inbox (inbox_committed (t_inbox t') (ti_id i)) t')) as Hn.
  destruct (commit_inputs _ _ _ _ _). cbn in Hn. destruct Hn as [Hn ->]. split; [|done].
  intros He Hs. apply Hn; [done|]. by apply H, Hs; apply Hb.
Qed.

(** ** Limits *)

Definition limits (q : TurnProgress) : Prop :=
  compaction_count (compactions q) <= MAX_TURN_COMPACTIONS
  /\ (stream_continuations (recovery q) <= MAX_STREAM_CONTINUATIONS)%N.

(** What an operation that sends no answer leaves alone. *)
Definition keeps (q q' : TurnProgress) : Prop :=
  iterations q' = iterations q /\ steps q' = steps q
  /\ stream_continuations (recovery q') = stream_continuations (recovery q).

Lemma keeps_refl q : keeps q q.
Proof. by split_and!. Qed.

Lemma keeps_trans q1 q2 q3 : keeps q1 q2 -> keeps q2 q3 -> keeps q1 q3.
Proof. intros (E1 & E2 & E3) (F1 & F2 & F3). unfold keeps. by rewrite F1, F2, F3. Qed.

Lemma prepare_ok st t :
  let '(t', r) := prepare_turn_iteration legacy_id cfg st t in
  (sound (t_messages t) -> sound (t_messages t'))
  /\ (exists b, steps (t_progress t') = {| completed := completed (steps (t_progress t)); final_requested := b |})
  /\ (recovery (t_progress t') = recovery (t_progress t) /\ compactions (t_progress t') = compactions (t_progress t)
      /\ (iterations (t_progress t) <= iterations (t_progress t'))%N)
  /\ (forall final_answer, r = Ok final_answer ->
        iterations (t_progress t') = (iterations (t_progress t) + 1)%N
        /\ (iterations (t_progress t') <= cf_max_iterations cfg)%N
        /\ final_answer = match cf_max_steps cfg with
                          | Some limit => (limit <=? completed (steps (t_progress t)))%N
                          | None => false
                          end).
Proof.
  unfold prepare_turn_iteration. set (final := match cf_max_steps cfg with Some limit => _ | None => _ end).
  set (reminder := user_blocks [Text _]).
  pose proof (push_plain st reminder t (plain_text _)) as Hpush.
  destruct (push legacy_id st reminder t) as [t1 error]. destruct Hpush as [H1 H2].
  assert (exists b, steps (t_progress t) = {| completed := completed (steps (t_progress t)); final_requested := b |}) as Hsteps
    by (exists (final_requested (steps (t_progress t))); by destruct (steps (t_progress t))).
  destruct (final && negb (final_requested (steps (t_progress t)))).
  - destruct error as [e|]; [by rewrite H2; split_and!|]. cbn [with_progress t_progress set_steps iterations].
    destruct (cf_max_iterations cfg <? _)%N eqn:El; (split_and!; [done|by exists true|done|done|cbn; lia|]); [done|].
    intros fa [= <-]. apply N.ltb_ge in El. by split_and!.
  - cbn [with_progress t_progress set_iterations iterations].
    destruct (cf_max_iterations cfg <? _)%N eqn:El; (split_and!; [done|done|done|done|cbn; lia|]); [done|].
    intros fa [= <-]. apply N.ltb_ge in El. by split_and!.
Qed.

Lemma exceeds_fits t :
  exceeds context_budget t = false -> fits_now (context_budget (t_messages t)) (t_messages t) = true.
Proof.
  unfold exceeds, next_request_exceeds_budget. intros H. apply orb_false_iff in H as [H _].
  by apply negb_false_iff in H.
Qed.

(** The budget loop always ends: each round counts a compaction or is the last one. *)
Lemma budget_loop_ok fuel env : forall t,
  limits (t_progress t) ->
  MAX_TURN_COMPACTIONS < fuel + compaction_count (compactions (t_progress t)) ->
  exists t' r, budget_loop cfg context_budget fuel env t = Some (t', r)
    /\ ((forall k l, compacts l (env k l)) -> sound (t_messages t) -> sound (t_messages t'))
    /\ limits (t_progress t') /\ keeps (t_progress t) (t_progress t')
    /\ (r = Ok true -> exceeds context_budget t' = false).
Proof.
  induction fuel as [|fuel IH]; intros t [Hl1 Hl2] Hfuel; cbn [budget_loop];
    (destruct (exceeds context_budget t) eqn:Ex; cbn [negb];
     [|rewrite exceeds_fits by done; cbn [negb]; eexists _, _; split_and!; done]).
  - unfold MAX_TURN_COMPACTIONS in *. lia.
  - destruct (cf_auto_compaction cfg); cbn [negb]; [|eexists _, _; split_and!; done].
    destruct (compaction_count (compactions (t_progress t)) <? MAX_TURN_COMPACTIONS) eqn:Ec.
    + apply Nat.ltb_lt in Ec. set (a := env _ (t_messages t)).
      assert ((forall k l, compacts l (env k l)) -> sound (t_messages t) -> sound (at_messages a)) as Ha2
        by (intros He Hs; eapply compacts_sound; [apply He|exact Hs]).
      destruct (attempt_stops a); [eexists _, _; split_and!; done|].
      destruct (at_result a) as [[event|]|e]; [|eexists _, _; split_and!; done..].
      set (t1 := with_progress _ _).
      destruct ((_ <=? _) && exceeds context_budget t1); [eexists _, _; split_and!; try done; cbn; lia|].
      destruct (IH t1) as (t' & r & E & H1 & H2 & H3 & H4); [split; [cbn; lia|done]|cbn; lia|].
      exists t', r. split_and!; try done; [intros He Hs; by apply H1, Ha2|apply H3..].
    + apply Nat.ltb_ge in Ec. set (t1 := with_progress _ _).
      assert ((MAX_TURN_COMPACTIONS <=? compaction_count (compactions (t_progress t1))) && exceeds context_budget t1 = true)
        as ->.
      { apply andb_true_iff. split; [by apply Nat.leb_le|exact Ex]. }
      eexists _, _. by split_and!.
Qed.

Lemma repair_ok env t :
  let '(t', _) := repair_rejected_thinking env t in
  (sound (t_messages t) -> sound (t_messages t')) /\ t_progress t' = t_progress t.
Proof.
  unfold repair_rejected_thinking. destruct (rp_capture env); [done|].
  destruct (_ =? 0); [done|]. destruct (rp_save env); [done|]. split; [|done]. cbn [with_messages t_messages].
  intros Hs. rewrite rebase_same. by apply sound_thinking.
Qed.

Lemma request_failed_ok attempt error t :
  limits (t_progress t) ->
  let '(t', _) := request_failed cfg attempt error t in
  ((forall l, compacts l (attempt l)) -> sound (t_messages t) -> sound (t_messages t'))
  /\ limits (t_progress t') /\ keeps (t_progress t) (t_progress t').
Proof.
  intros Hl. unfold request_failed. destruct (is_kind ContextWindowBlocked error && negb _); [by split_and!|].
  destruct (is_kind ContextWindowBlocked error && (_ <? _)) eqn:Ec; [|by split_and!].
  apply andb_true_iff in Ec as [_ Ec]. apply Nat.ltb_lt in Ec. destruct Hl as [Hl1 Hl2].
  assert ((forall l, compacts l (attempt l)) -> sound (t_messages t) -> sound (at_messages (attempt (t_messages t)))) as Ha'
    by (intros He Hs; eapply compacts_sound; [apply He|exact Hs]).
  destruct (attempt_stops _); [by split_and!|].
  destruct (at_result _) as [[event|]|e]; [|by split_and!..].
  split_and!; try done.
Qed.

Lemma open_loop_ok fuel env final_answer : forall t,
  limits (t_progress t) ->
  (if repaired_thinking (recovery (t_progress t)) then 1 else 2) <= fuel ->
  exists t' requests r, open_loop legacy_id interrupted_bash cfg fuel env final_answer t = Some (t', requests, r)
    /\ (limits (t_progress t') /\ keeps (t_progress t) (t_progress t'))
    /\ ((forall k error repair a l, env k = OpenError error repair a -> compacts l (a l)) -> sound (t_messages t) ->
        sound (t_messages t') /\ Forall (fun q : Request => sound q.2) requests)
    /\ length requests <= fuel /\ List.hd_error requests = Some (final_answer, t_messages t).
Proof.
  induction fuel as [|fuel IH]; intros t Hl Hfuel; [destruct (repaired_thinking _); lia|]. cbn [open_loop].
  assert (sound (t_messages t) -> Forall (fun q : Request => sound q.2) [(final_answer, t_messages t)]) as Hone
    by by constructor.
  assert (length [(final_answer, t_messages t)] <= S fuel) as H1 by (cbn; lia).
  destruct (env (S fuel)) as [st| | |error repair a] eqn:Ee; try (eexists _, _, _; split_and!; try done; by auto).
  { destruct (finalize_ok st t) as [F1 F2]. eexists _, _, _. rewrite F2. split_and!; try done; auto. }
  assert ((forall k error repair a l, env k = OpenError error repair a -> compacts l (a l)) -> forall l, compacts l (a l))
    as Hattempt by (intros He l; by apply (He (S fuel) error repair)).
  destruct (is_kind ThinkingReplayRejected error && negb (repaired_thinking (recovery (t_progress t)))) eqn:Er.
  - apply andb_true_iff in Er as [_ Er]. apply negb_true_iff in Er. rewrite Er in Hfuel.
    set (t1 := with_progress (set_repaired (t_progress t)) t).
    pose proof (repair_ok repair t1) as Hr. destruct (repair_rejected_thinking repair t1) as [t2 [[|k]|e]];
      destruct Hr as [R1 R2].
    + pose proof (request_failed_ok a error t2) as H. rewrite R2 in H. specialize (H Hl).
      destruct (request_failed cfg a error t2) as [t' r]. destruct H as (F1 & F2 & F3).
      eexists _, _, _. split_and!; try done. intros He Hs. split; [|by auto]. apply F1; [by apply Hattempt|by apply R1].
    + destruct (IH t2) as (t' & requests & r & -> & I1 & I2 & I3 & I4); [by rewrite R2|rewrite R2; cbn; lia|].
      cbn [mbind option_bind]. eexists _, _, _. rewrite R2 in I1.
      split_and!; [done|by apply I1|apply I1| |cbn; lia|done]. intros He Hs. destruct (I2 He (R1 Hs)) as [J1 J2].
      split; [done|by constructor].
    + eexists _, _, _. rewrite R2. split_and!; try done; try apply Hl. auto.
  - pose proof (request_failed_ok a error t Hl) as H.
    destruct (request_failed cfg a error t) as [t' r]. destruct H as (F1 & F2 & F3).
    eexists _, _, _. split_and!; try done. intros He Hs. split; [|by auto]. by apply F1; [apply Hattempt|].
Qed.

(** ** Settling a response *)

Definition unmoved (q q' : TurnProgress) : Prop :=
  iterations q' = iterations q /\ steps q' = steps q /\ recovery q' = recovery q /\ compactions q' = compactions q.

Lemma unmoved_limits q q' : unmoved q q' -> limits q -> limits q'.
Proof. intros (_ & _ & E1 & E2). unfold limits. by rewrite E1, E2. Qed.

Lemma unmoved_trans q1 q2 q3 : unmoved q1 q2 -> unmoved q2 q3 -> unmoved q1 q3.
Proof. intros (E1 & E2 & E3 & E4) (F1 & F2 & F3 & F4). unfold unmoved. by rewrite F1, F2, F3, F4. Qed.

Lemma save_results_ok st persisted results : forall index t,
  let '(t', error) := save_results legacy_id st persisted index results t in
  unmoved (t_progress t) (t_progress t')
  /\ (error = None -> same_messages (t_messages t') (t_messages t ++ drop (persisted - index) results)).
Proof.
  induction results as [|m results IH]; intros index t; cbn [save_results].
  { split; [by split_and!|]. intros _. by rewrite drop_nil, app_nil_r. }
  pose proof (push_spec (st index) m t) as Hp. destruct (persisted <=? index) eqn:Ei.
  - apply Nat.leb_le in Ei. destruct (push legacy_id (st index) m t) as [t1 [e|]]; destruct Hp as (H1 & H2 & _).
    + split; [by rewrite H2|done].
    + set (t2 := with_progress _ t1). specialize (IH (S index) t2).
      destruct (save_results _ _ _ _ _ t2) as [t' error]. destruct IH as [I1 I2]. split.
      * eapply unmoved_trans; [|exact I1]. cbn. by rewrite H2.
      * intros E. rewrite (I2 E). cbn [with_progress t_messages t2]. rewrite H1.
        replace (persisted - S index) with 0 by lia. replace (persisted - index) with 0 by lia.
        cbn [drop]. by rewrite <- app_assoc.
  - apply Nat.leb_gt in Ei. set (t2 := with_progress _ t). specialize (IH (S index) t2).
    destruct (save_results _ _ _ _ _ t2) as [t' error]. destruct IH as [I1 I2]. split.
    + by eapply unmoved_trans; [|exact I1].
    + intros E. rewrite (I2 E). replace (persisted - index) with (S (persisted - S index)) by lia. done.
Qed.

(** A recorded exchange: the transcript before it, its assistant message, and its results. *)
Definition exchange (base messages : list ConversationMessage) (m : ConversationMessage) : Prop :=
  exists a results, same_messages messages (base ++ a :: results) /\ anonymous a = anonymous m
    /\ Forall2 answers results (call_ids (blocks m)).

Lemma exchange_length base messages m : exchange base messages m -> length base <= length messages.
Proof. intros (a & results & Hs & _). rewrite (same_length _ _ Hs), length_app. lia. Qed.

Lemma exchange_sound base messages m :
  tidy m -> role m = RAssistant -> sound base -> Forall single messages -> exchange base messages m ->
  sound messages /\ sound (drop (length base) messages).
Proof.
  intros Tm Hr Hb Hsingle (a & results & Hs & Ha & HF). destruct (anonymous_blocks _ _ Ha) as [Hbl Hro].
  assert (sound (a :: results)) as Hx.
  { split.
    - rewrite <- (app_nil_r results). apply answered_exchange; [by rewrite Hro|by rewrite Hbl|constructor].
    - constructor; [by unfold tidy; rewrite Hbl, Hro|]. rewrite Hs in Hsingle.
      apply Forall_app in Hsingle as [_ Hsingle]. apply Forall_cons in Hsingle as [_ Hsingle].
      rewrite Forall_forall in Hsingle. apply Forall_forall. intros x Hx. specialize (Hsingle x Hx).
      apply list_elem_of_lookup in Hx as [i Hi]. destruct (Forall2_lookup_l _ _ _ _ _ HF Hi) as (id & _ & Hrole & _).
      unfold tidy. rewrite Hrole. by apply Hsingle. }
  split.
  - rewrite Hs. by apply sound_app.
  - assert (same_messages (drop (length base) messages) (a :: results)) as ->; [|done].
    unfold same_messages in *. change (map anonymous ?l) with (anonymous <$> l) in *.
    rewrite fmap_drop, Hs, <- fmap_drop. by rewrite drop_app_length.
Qed.

(** The transcript behind the response, when everything could be saved. *)
Lemma checkpoint_ok base l st_assistant st built x t :
  concluded base l x -> build_assistant_message (ex_events x) = Ok built -> t_messages t = ex_messages x ->
  let '(t', r) := checkpoint_turn_response legacy_id running_model st_assistant st built x t in
  unmoved (t_progress t) (t_progress t')
  /\ (forall start pending, r = Ok (start, pending) ->
        start = length base /\ pending = length l
        /\ exchange base (t_messages t') (set_model (running_model_label running_model) (built_message built))).
Proof.
  intros [Hev Hres Hs Hstop] Hb Ht. destruct (built_ok _ _ Hb) as [Hrole Hcalls].
  unfold checkpoint_turn_response. set (m := set_model _ (built_message built)).
  assert (call_ids (blocks m) = l) as Hm by exact (eq_trans Hcalls Hev).
  assert (role m = RAssistant) as Hmr by done.
  assert (length (List.filter is_tool_use (blocks m)) = length l) as Hpend.
  { rewrite <- Hm. clear. unfold call_ids. induction (blocks m) as [|b k IH]; [done|]. destruct b; cbn; by rewrite ?IH. }
  set (t1 := with_progress (set_response_model _ _) t).
  set (t2 := match built_usage built with Some u => record_usage u t1 | None => t1 end).
  set (t3 := with_progress _ t2).
  assert (t_messages t3 = ex_messages x) as Ht3 by (unfold t3, t2; by destruct (built_usage built)).
  assert (unmoved (t_progress t) (t_progress t3)) as Hu3 by (unfold t3, t2; by destruct (built_usage built)).
  clearbody t3. clear t1 t2.
  (* the assistant message, then the results *)
  assert (forall t4, unmoved (t_progress t) (t_progress t4) ->
    (exists a results, same_messages (t_messages t4) (base ++ a :: results) /\ anonymous a = anonymous m
       /\ length results = ex_persisted_results x
       /\ Forall2 answers results (take (ex_persisted_results x) l)) ->
    let '(t', error) := save_results legacy_id st (ex_persisted_results x) 0 (ex_results x) t4 in
    unmoved (t_progress t) (t_progress t') /\ (error = None -> exchange base (t_messages t') m)) as Hsave.
  { intros t4 Hu4 (a & results & H1 & H2 & H3 & H4).
    pose proof (save_results_ok st (ex_persisted_results x) (ex_results x) 0 t4) as H.
    destruct (save_results _ _ _ _ _ t4) as [t' error]. destruct H as [Hu H]. split; [by eapply unmoved_trans|].
    intros E. exists a, (results ++ drop (ex_persisted_results x) (ex_results x)). split_and!; [|done|].
    - rewrite (H E), H1, Nat.sub_0_r. by rewrite <- app_assoc.
    - rewrite Hm, <- (take_drop (ex_persisted_results x) l). apply Forall2_app; [done|by apply Forall2_drop]. }
  destruct (ex_assistant_index x) as [i|]; cbn [default].
  - destruct Hs as (-> & a & results & H1 & H2 & H3 & H4 & H5).
    pose proof (update_assistant_message_spec st_assistant (length base) m (t_messages t3)) as Hu.
    destruct (update_assistant_message _ _ m (t_messages t3)) as [messages [e|]]; [by split|].
    destruct Hu as (previous & _ & _ & _ & ->). set (t4 := with_progress _ _).
    specialize (Hsave t4 Hu3). destruct (save_results _ _ _ _ _ t4) as [t' [e|]];
      (destruct Hsave as [Hu Hx];
       [exists (set_history (history previous) m), results; split_and!; try done;
        cbn; rewrite Ht3; by apply (same_insert base a)|]); (split; [done|]); [done|].
    intros start pending [= <- <-]. split_and!; [done|done|by apply Hx].
  - destruct Hs as (H1 & -> & H2). pose proof (push_spec st_assistant m t3) as Hp.
    destruct (push legacy_id st_assistant m t3) as [t4 [e|]]; destruct Hp as (P1 & P2 & _).
    { split; [by rewrite P2|done]. }
    set (t5 := with_progress _ t4). assert (unmoved (t_progress t) (t_progress t5)) as Hu5.
    { cbn. by rewrite P2. }
    specialize (Hsave t5 Hu5). rewrite H2 in *.
    destruct (save_results _ _ _ _ _ t5) as [t' [e|]];
      (destruct Hsave as [Hu Hx];
       [exists m, []; split_and!; try done; cbn; rewrite P1, Ht3; by rewrite H1|]); (split; [done|]); [done|].
    intros start pending [= <- <-]. split_and!; [|done|by apply Hx]. rewrite Ht3. by apply same_length.
Qed.

Lemma save_results_single st persisted results : forall index t,
  Forall single (t_messages t) -> Forall single results ->
  Forall single (t_messages (save_results legacy_id st persisted index results t).1).
Proof.
  induction results as [|m results IH]; intros index t Ht Hr; cbn [save_results]; [done|].
  apply Forall_cons in Hr as [Hm Hr]. pose proof (push_single (st index) m (t_messages t) Hm Ht) as Hp.
  unfold push. destruct (persisted <=? index); [|by apply IH].
  destruct (push_message _ _ _ _) as [messages [e|]]; [done|]. by apply IH.
Qed.

Lemma checkpoint_single st_assistant st built x t :
  build_assistant_message (ex_events x) = Ok built -> Forall single (ex_results x) -> Forall single (t_messages t) ->
  Forall single (t_messages (checkpoint_turn_response legacy_id running_model st_assistant st built x t).1).
Proof.
  intros Hb Hr Ht. unfold checkpoint_turn_response. set (m := set_model _ (built_message built)).
  assert (single m) as Hm by (intros E; change (role (built_message built) = RTool) in E; by rewrite (proj1 (built_ok _ _ Hb)) in E).
  set (t1 := with_progress (set_response_model _ _) t).
  set (t2 := match built_usage built with Some u => record_usage u t1 | None => t1 end).
  set (t3 := with_progress _ t2).
  assert (Forall single (t_messages t3)) as Ht3 by (unfold t3, t2; by destruct (built_usage built)).
  clearbody t3. clear t1 t2. destruct (ex_assistant_index x) as [i|].
  - pose proof (update_single st_assistant i m (t_messages t3) Ht3) as Hu.
    destruct (update_assistant_message _ _ _ _) as [messages [e|]]; [done|].
    match goal with |- context [save_results _ _ _ _ _ ?t] => set (t4 := t) end.
    pose proof (save_results_single st (ex_persisted_results x) (ex_results x) 0 t4 Hu Hr) as H.
    by destruct (save_results _ _ _ _ _ t4) as [t' [e|]].
  - pose proof (push_single st_assistant m (t_messages t3) Hm Ht3) as Hu. unfold push.
    destruct (push_message _ _ _ _) as [messages [e|]]; [done|].
    match goal with |- context [save_results _ _ _ _ _ ?t] => set (t4 := t) end.
    pose proof (save_results_single st (ex_persisted_results x) (ex_results x) 0 t4 Hu Hr) as H.
    by destruct (save_results _ _ _ _ _ t4) as [t' [e|]].
Qed.

Lemma resolve_ok st events yielded final_answer t :
  let '(t', r) := resolve_turn_assistant legacy_id unfinished_deliverable st events yielded final_answer t in
  keeps (t_progress t) (t_progress t') /\ compactions (t_progress t') = compactions (t_progress t)
  /\ (sound (t_messages t) -> sound (t_messages t'))
  /\ (forall built, r = Ok (ResolvedBuilt built) -> t' = t /\ build_assistant_message events = Ok built).
Proof.
  unfold resolve_turn_assistant. destruct (build_assistant_message events) as [built|error] eqn:Eb.
  { split_and!; try done. by intros b [= <-]. }
  destruct (yielded && _); [by split_and!|]. destruct final_answer; [by split_and!|].
  destruct (_ && _); [|by split_and!]. destruct (inbox_has_pending (t_inbox t)) eqn:Ep; [by split_and!|].
  destruct (unfinished_deliverable _ _ && negb _).
  - pose proof (push_plain st (user_blocks [Text EMPTY_POST_TOOL_DELIVERABLE_REMINDER])
      (with_progress (set_retried (t_progress t)) t) (plain_text _)) as H.
    destruct (push _ _ _ _) as [t' [e|]]; destruct H as [H1 H2]; rewrite H2; by split_and!.
  - destruct (unfinished_deliverable _ _); [by split_and!|]. unfold inbox_seal_if_empty. rewrite Ep. by split_and!.
Qed.

Lemma recover_ok save st error cancelled pending t :
  limits (t_progress t) ->
  let '(t', _) := recover_turn_stream legacy_id save st error cancelled pending t in
  (sound (t_messages t) -> sound (t_messages t'))
  /\ limits (t_progress t') /\ iterations (t_progress t') = iterations (t_progress t).
Proof.
  intros [Hl1 Hl2]. unfold recover_turn_stream. destruct save; [by split_and!|].
  destruct (is_kind StreamInterrupted error && _ && negb cancelled) eqn:E; [|by split_and!].
  apply andb_true_iff in E as [E _]. apply andb_true_iff in E as [_ E]. apply N.ltb_lt in E.
  set (t1 := with_progress _ t).
  assert (limits (t_progress t1)) as Hl by (split; [done|cbn; lia]).
  destruct (pending =? 0); [|by split_and!].
  pose proof (push_plain st (user_blocks [Text STREAM_INTERRUPTED_REMINDER]) t1 (plain_text _)) as H.
  destruct (push _ _ _ t1) as [t' e]. destruct H as [H1 H2]. by rewrite H2.
Qed.

(** Cutting a sound transcript where an exchange starts. *)
Lemma context_action_ok todos uuid save action start t :
  start <= length (t_messages t) ->
  exists t' failure, apply_tool_context_action legacy_id todos uuid save action start t = Some (t', failure)
    /\ (sound (t_messages t) -> sound (drop start (t_messages t)) -> sound (t_messages t'))
    /\ t_progress t' = t_progress t.
Proof.
  intros Hlen. destruct action. cbn [apply_tool_context_action]. unfold restart_from_current_exchange.
  assert (length (t_messages t) <? start = false) as -> by (apply Nat.ltb_ge; lia).
  destruct save; [by eexists _, _|]. eexists _, _. split_and!; [done| |done]. cbn [with_reported with_messages t_messages].
  intros _ Hd. rewrite record_context_replacement_same. apply sound_plain; [|done]. by apply plain_user.
Qed.

Lemma last_assistant_lookup l : forall i j, last_assistant i l = Some j -> i <= j.
Proof.
  induction l as [|m l IH]; intros i j; cbn; [done|]. destruct (last_assistant (S i) l) as [k|] eqn:E.
  - intros [= <-]. apply IH in E. lia.
  - destruct (bool_decide _); [|done]. by intros [= <-].
Qed.

Lemma record_turn_duration_payload st ms messages :
  map payload (record_turn_duration st ms messages).1 = map payload messages.
Proof.
  unfold record_turn_duration. destruct (last_assistant 0 messages) as [i|]; [|done].
  destruct (messages !! i) as [m|] eqn:Em; [|done].
  pose proof (update_assistant_message_spec st i (set_duration ms m) messages) as H.
  destruct (update_assistant_message st i (set_duration ms m) messages) as [messages' [e|]]; cbn; [by rewrite H|].
  destruct H as (previous & Hp & _ & _ & ->). rewrite Em in Hp. injection Hp as <-.
  change (map payload ?l) with (payload <$> l). rewrite list_fmap_insert. apply list_insert_id.
  by rewrite list_lookup_fmap, Em.
Qed.

Lemma finish_ok env elapsed t :
  let '(t', r) := finish_turn_state cfg env elapsed t in
  t_progress t' = t_progress t /\ ((forall l, compacts l (env l)) -> sound (t_messages t) -> sound (t_messages t')).
Proof.
  unfold finish_turn_state.
  assert (let '(t1, _) := maybe_auto_compact cfg (env (t_messages t)) t in
          t_progress t1 = t_progress t
          /\ ((forall l, compacts l (env l)) -> sound (t_messages t) -> sound (t_messages t1))) as Hm.
  { unfold maybe_auto_compact. destruct (negb _); [done|]. destruct (_ <? _)%N; [done|]. destruct (_ <=? _)%N; [done|].
    assert ((forall l, compacts l (env l)) -> sound (t_messages t) -> sound (at_messages (env (t_messages t)))) as Ha'
      by (intros He Hs; eapply compacts_sound; [apply He|exact Hs]).
    by destruct (at_result _) as [[event|]|e]. }
  destruct (maybe_auto_compact _ _ t) as [t1 attempt]. destruct Hm as [Hp Ha1].
  destruct (at_aborted _ && _); [done|]. destruct attempt as [event|e]; [|done].
  destruct elapsed as [[ms st]|]; [|done].
  pose proof (record_turn_duration_payload st ms (t_messages t1)) as Hd.
  destruct (record_turn_duration st ms (t_messages t1)) as [messages [e|]]; cbn in Hd;
    (split; [exact Hp|]; intros He Hs; apply (sound_payload (t_messages t1)); [by symmetry|by apply Ha1]).
Qed.

(** ** The points of a turn *)

Definition at_limit (q : TurnProgress) : bool :=
  match cf_max_steps cfg with Some limit => (limit <=? completed (steps q))%N | None => false end.

(** What holds whatever the environment answers. *)
Definition point_ok (point : TurnPoint) : Prop :=
  match point with
  | AtLoop t => limits (t_progress t) /\ (iterations (t_progress t) <= cf_max_iterations cfg)%N
  | AtResponse t final_answer l => limits (t_progress t)
      /\ (iterations (t_progress t) <= cf_max_iterations cfg)%N
      /\ final_answer = at_limit (t_progress t)
      /\ response_run legacy_id is_concurrency_safe offload running_model (negb final_answer) p n (t_messages t) l
  | Over t _ => limits (t_progress t)
  end.

(** What holds while the environment is sound. *)
Definition point_sound (point : TurnPoint) : Prop :=
  match point with
  | AtLoop t => sound (t_messages t)
  | AtResponse t _ l => sound (t_messages t) /\ response_single (loop_response l)
      /\ attach_no_results (rs_scheduler (loop_response l))
  | Over t r => forall s, r = Ok s -> sound (t_messages t)
  end.

Definition point_turn (point : TurnPoint) : Turn :=
  match point with AtLoop t | AtResponse t _ _ | Over t _ => t end.

Definition iteration_env_ok (e : IterationEnv) : Prop :=
  (forall k, plain_input (ev_inputs e k)) /\ (forall k l, compacts l (ev_attempts e k l))
  /\ (forall k error repair a l, ev_open e k = OpenError error repair a -> compacts l (a l)).
Definition settle_env_ok (e : SettleEnv) : Prop := forall l, compacts l (ev_finish e l).

(** The program's own compactions, inputs without tool blocks, outputs that attach no results. *)
Definition sound_environment : Expectation :=
  {| of_iteration := iteration_env_ok;
     of_response l := attach_no_results (rs_scheduler (loop_response l));
     of_settlement := settle_env_ok |}.

Lemma after_checkpoint_ok e x base m pending t :
  exchange base (t_messages t) m -> limits (t_progress t) ->
  (iterations (t_progress t) <= cf_max_iterations cfg)%N ->
  exists point, after_checkpoint legacy_id cfg e x (length base) pending t = Some point /\ point_ok point
    /\ iterations (t_progress (point_turn point)) = iterations (t_progress t)
    /\ (settle_env_ok e -> sound (t_messages t) -> sound (drop (length base) (t_messages t)) -> point_sound point).
Proof.
  intros Hx Hl Hi. unfold after_checkpoint. destruct (ex_error x) as [error|].
  { pose proof (recover_ok (ev_save e) (ev_continue e) error (ex_cancelled x) pending t Hl) as H.
    destruct (recover_turn_stream _ _ _ _ _ _ t) as [t' [error'|]]; destruct H as (H1 & H2 & H3);
      (eexists; split; [done|]); cbn; rewrite ?H3; split_and!; try done; [apply H2..|intros _ Hs _; by apply H1]. }
  destruct (ex_cancelled x || ev_aborted_now e).
  { eexists. split; [done|]. split_and!; [done..|]. by intros _ Hs _ s _. }
  assert (exists t1 failure, match ex_context_action x with
      | Some action => apply_tool_context_action legacy_id (ev_todos e) (ev_uuid e) (ev_context_save e) action (length base) t
      | None => Some (t, None) end = Some (t1, failure)
      /\ (sound (t_messages t) -> sound (drop (length base) (t_messages t)) -> sound (t_messages t1))
      /\ t_progress t1 = t_progress t) as (t1 & failure & -> & Ha1 & Hp1).
  { destruct (ex_context_action x) as [action|]; [apply context_action_ok; by eapply exchange_length|by eexists _, _]. }
  cbn [mbind option_bind]. destruct failure as [error|].
  { eexists. split; [done|]. cbn. rewrite Hp1. by split_and!. }
  destruct (if pending =? 0 then _ else _) as [inbox sealed]. destruct sealed.
  - pose proof (finish_ok (ev_finish e) (Some (ev_elapsed e)) (with_inbox inbox t1)) as H.
    destruct (finish_turn_state _ _ _ _) as [t2 r]. destruct H as [H1 H2]. eexists. split; [done|]. cbn in *.
    rewrite H1, Hp1. split_and!; [apply Hl..|done|]. intros He Hs Hd s _. by apply H2, Ha1.
  - eexists. split; [done|]. cbn. rewrite Hp1. split_and!; [apply Hl..|done|done|]. by intros He Hs Hd; apply Ha1.
Qed.

Lemma settle_ok e final_answer r error cancelled t :
  point_ok (AtResponse t final_answer (Left r error cancelled)) ->
  exists point, settle_response legacy_id interrupted_bash offload running_model cfg unfinished_deliverable
      e final_answer r error cancelled t = Some point /\ point_ok point
    /\ iterations (t_progress (point_turn point)) = iterations (t_progress t)
    /\ (settle_env_ok e -> point_sound (AtResponse t final_answer (Left r error cancelled)) -> point_sound point).
Proof.
  intros (Hl & Hi & Hfa & Hrun). unfold settle_response.
  pose proof (response_run_dispatched legacy_id is_concurrency_safe interrupted_bash offload running_model _ _ _ _ _ Hrun)
    as Hdis.
  apply (response_run_ok legacy_id is_concurrency_safe interrupted_bash offload running_model) in Hrun.
  destruct (conclude_ok legacy_id is_concurrency_safe interrupted_bash offload p n (t_messages t) (ev_conclude e) r error
    cancelled Hrun Hdis) as (x & Ex & Hx & Hnd & Hnothing & _). rewrite Ex. cbn [mbind option_bind].
  set (t1 := with_messages (ex_messages x) t).
  destruct (build_assistant_message (ex_events x)) as [built|err] eqn:Eb.
  - unfold resolve_turn_assistant. rewrite Eb.
    pose proof (checkpoint_ok (t_messages t) _ (ev_assistant e) (ev_results e) built x t1 Hx Eb eq_refl) as H.
    pose proof (checkpoint_single (ev_assistant e) (ev_results e) built x t1 Eb) as Hsingle.
    destruct (checkpoint_turn_response _ _ _ _ built x t1) as [t2 [[start pending]|err]]; destruct H as [Hu H].
    + destruct (H start pending eq_refl) as (-> & _ & Hex). set (m := set_model _ (built_message built)) in Hex.
      assert (tidy m) as Hm.
      { destruct (built_ok _ _ Eb) as [Hrole Hcalls]. unfold tidy, m. cbn [role blocks set_model]. rewrite Hrole, Hcalls.
        rewrite (co_events _ _ _ Hx). split; [done|]. by eapply built_no_results. }
      destruct (after_checkpoint_ok e x (t_messages t) m pending t2 Hex) as (point & E & H1 & H2 & H3);
        [by eapply unmoved_limits|by destruct Hu as (-> & _)|].
      exists point. split_and!; [done|done|rewrite H2; by destruct Hu as (-> & _)|].
      intros He (Hs & Hr & _). destruct (conclude_single _ _ _ _ _ Hr Ex) as [S1 S2].
      destruct (exchange_sound _ _ _ Hm (proj1 (built_ok _ _ Eb)) Hs (Hsingle S2 S1) Hex) as [G1 G2]. by apply H3.
    + eexists. split; [done|]. split_and!; [by eapply unmoved_limits..|apply Hu|done].
  - pose proof (Hnothing err Eb) as Hsame.
    assert (sound (t_messages t) -> sound (t_messages t1)) as Ha1 by (intros Hs; unfold t1; cbn; by rewrite Hsame).
    pose proof (resolve_ok (ev_resolve e) (ex_events x) (ex_yielded x) final_answer t1) as H.
    destruct (resolve_turn_assistant _ _ _ _ _ _ t1) as [t2 [[built| |]|error']];
      destruct H as ((H1 & H2 & H3) & H4 & H5 & H6);
      (assert (limits (t_progress t2)) as Hl2 by (unfold limits; rewrite H3, H4; exact Hl)).
    + destruct (H6 built eq_refl) as [_ H]. congruence.
    + eexists. split; [done|]. cbn. rewrite H1. split_and!; [apply Hl2..|done|done|]. intros _ (Hs & _). by apply H5, Ha1.
    + set (t3 := with_progress _ t2). pose proof (finish_ok (ev_finish e) None t3) as H.
      destruct (finish_turn_state _ _ _ t3) as [t4 result]. destruct H as [F1 F2]. eexists. split; [done|]. cbn.
      rewrite F1. split_and!; [apply Hl2..|exact H1|]. intros He (Hs & _) s _. by apply F2, H5, Ha1.
    + eexists. split; [done|]. cbn. rewrite H1. split_and!; [apply Hl2..|done|done].
Qed.

(** One iteration: the requests it prepared and where it leads. *)
Lemma iteration_ok e t :
  point_ok (AtLoop t) ->
  exists point requests,
    turn_iteration legacy_id interrupted_bash cfg context_budget p n e t = Some (point, requests)
    /\ point_ok point
    /\ (iteration_env_ok e -> sound (t_messages t) -> point_sound point /\ Forall (fun q : Request => sound q.2) requests)
    /\ (requests = [] \/ (length requests <= 2
        /\ (iterations (t_progress (point_turn point)) = iterations (t_progress t) + 1)%N
        /\ (iterations (t_progress (point_turn point)) <= cf_max_iterations cfg)%N))
    /\ (iterations (t_progress t) <= iterations (t_progress (point_turn point)))%N
    /\ (forall q, List.hd_error requests = Some q -> fits_now (context_budget q.2) q.2 = true).
Proof.
  intros (Hl & Hi). unfold turn_iteration. destruct (ev_aborted e).
  { destruct (finalize_ok (ev_cancel e) t) as [F1 F2]. eexists _, _. split; [done|].
    cbn [point_ok point_turn]. rewrite F2. split_and!; [apply Hl..| |by left|done|done].
    intros _ Hs. split; [|done]. intros s _. by apply F1. }
  pose proof (commit_inputs_ok (ev_inputs e) (inbox_batch (t_inbox t)) 0 t) as H. unfold commit_turn_inputs.
  destruct (commit_inputs _ _ _ _ t) as [t1 [error|]]; destruct H as [Ha1 Hp1].
  { eexists _, _. split; [done|]. cbn. rewrite Hp1. split_and!; [apply Hl..|done|by left|done|done]. }
  pose proof (prepare_ok (ev_reminder e) t1) as H.
  destruct (prepare_turn_iteration legacy_id cfg (ev_reminder e) t1) as [t2 r];
    destruct H as (Ha2 & (b & Hs2) & (Hr2 & Hc2 & Hi2) & Hnext).
  assert (limits (t_progress t2)) as Hl2 by (unfold limits; rewrite Hr2, Hc2, Hp1; exact Hl). rewrite Hp1 in *.
  destruct r as [final_answer|error].
  2: { eexists _, _. split; [done|]. split_and!; [apply Hl2..|done|by left|done|done]. }
  destruct (Hnext final_answer eq_refl) as (Hit & Hmax & Hfinal).
  destruct (budget_loop_ok (MAX_TURN_COMPACTIONS + 1) (ev_attempts e) t2 Hl2) as (t3 & within & E3 & Ha3 & Hl3 & Hk3 & Hfit);
    [lia|]. unfold enforce_turn_request_budget. rewrite E3. cbn [mbind option_bind].
  assert (iterations (t_progress t3) = iterations (t_progress t) + 1)%N as Hit3 by (destruct Hk3 as (-> & _); done).
  assert (iteration_env_ok e -> sound (t_messages t) -> sound (t_messages t3)) as Hs3
    by (intros (He1 & He2 & _) Hs; by apply Ha3, Ha2, Ha1).
  destruct within as [[|]|error].
  2, 3: eexists _, _; (split; [done|]); cbn [point_ok point_turn point_sound]; split_and!; try done; try (by left); try lia.
  2: by intros He Hs; split; [intros s _; by apply Hs3|].
  destruct (open_loop_ok 2 (ev_open e) final_answer t3) as (t4 & requests & stream & E4 & (Hl4 & Hk4) & Hreq & Hlen & Hhd);
    [done|by destruct (repaired_thinking _); lia|].
  unfold open_turn_stream. rewrite E4. cbn [mbind option_bind]. eexists _, _. split; [done|].
  assert (iterations (t_progress t4) = iterations (t_progress t) + 1)%N as Hit4 by (destruct Hk4 as (-> & _); done).
  assert (final_answer = at_limit (t_progress t4)) as Hfinal4.
  { unfold at_limit. destruct Hk4 as (_ & -> & _), Hk3 as (_ & -> & _). rewrite Hfinal. by rewrite Hs2. }
  split_and!.
  - destruct stream as [[| |]|error]; cbn [point_ok]; split_and!; try apply Hl4; try done; try lia. constructor.
  - intros He Hs. destruct (Hreq (proj2 (proj2 He)) (Hs3 He Hs)) as [G1 G2]. split; [|done].
    destruct stream as [[| |]|error]; cbn [point_sound]; try done. split; [done|]. split; [|done]. apply new_single.
    eapply Forall_impl; [apply G1|apply tidy_single].
  - right. destruct stream as [[| |]|error]; cbn [point_turn]; (split_and!; [done|done|lia]).
  - destruct stream as [[| |]|error]; cbn [point_turn]; lia.
  - intros q Hq. rewrite Hhd in Hq. injection Hq as <-. cbn [snd]. by apply exceeds_fits, Hfit.
Qed.

(** ** Runs *)

Definition turn_runs : Expectation -> Turn -> list Request -> TurnPoint -> Prop :=
  turn_run legacy_id is_concurrency_safe interrupted_bash offload running_model cfg context_budget
    unfinished_deliverable p n.

(** Nothing is counted yet. *)
Definition fresh (t : Turn) : Prop := t_progress t = progress_default.

Lemma run_ok expected t requests point :
  fresh t -> turn_runs expected t requests point ->
  point_ok point
  /\ (N.of_nat (length requests) <= 2 * N.min (iterations (t_progress (point_turn point))) (cf_max_iterations cfg))%N.
Proof.
  intros Hp Hrun. induction Hrun as [|requests point more point' Hrun IH Hstep].
  { cbn [point_ok point_turn]. rewrite Hp. split_and!; try done; try apply N.le_0_l.
    split; [apply Nat.le_0_l|apply N.le_0_l]. }
  destruct IH as (Hok & Hcount).
  destruct Hstep as [e t' point requests' _ E|t' final_answer r l Hstep _|e t' final_answer r error cancelled point _ E].
  - destruct (iteration_ok e t' Hok) as (point' & more & E' & Hok' & _ & Hmore & Hi & _).
    rewrite E in E'. injection E' as <- <-. split; [done|].
    cbn [point_turn] in Hcount. rewrite length_app. destruct Hmore as [->|(H1 & H2 & H3)]; cbn; lia.
  - rewrite app_nil_r. split; [|done]. destruct Hok as (H2 & H3 & H4 & H5). split_and!; try apply H2; try done.
    by eapply response_next.
  - rewrite app_nil_r. destruct (settle_ok e final_answer r error cancelled t' Hok) as (point' & E' & Hok' & Hi & _).
    rewrite E in E'. injection E' as <-. split; [done|]. by rewrite Hi.
Qed.

Lemma run_sound t requests point :
  fresh t -> sound (t_messages t) -> turn_runs sound_environment t requests point ->
  point_sound point /\ Forall (fun q : Request => sound q.2) requests.
Proof.
  intros Hp Hs Hrun. induction Hrun as [|requests point more point' Hrun IH Hstep]; [done|].
  destruct IH as [Hsound Hreq]. destruct (run_ok _ _ _ _ Hp Hrun) as [Hok _].
  destruct Hstep as [e t' point requests' He E|t' final_answer r l Hstep Hl|e t' final_answer r error cancelled point He E].
  - destruct (iteration_ok e t' Hok) as (point' & more & E' & _ & H & _). rewrite E in E'. injection E' as <- <-.
    destruct (H He Hsound) as [H1 H2]. split; [done|]. by apply Forall_app.
  - rewrite app_nil_r. split; [|done]. destruct Hsound as (H1 & H2 & H3). split_and!; [done| |done].
    by eapply response_step_single.
  - rewrite app_nil_r. split; [|done]. destruct (settle_ok e final_answer r error cancelled t' Hok) as (point' & E' & _ & _ & H).
    rewrite E in E'. injection E' as <-. by apply H.
Qed.

(** ** Claims *)

(** C2. Every request is answerable.  In every run of a turn whose transcript starts answered (every
    call followed by exactly its results in order, no id twice in a message and no message with two
    results), whatever the provider streams, however the tools, the inputs, the cancellations and the
    failures of the store interleave with it, every request the turn prepares carries such a
    transcript, and a turn that ends without an error leaves one behind.  Expected of the rest of
    the program: prepared inputs hold no tool blocks, tool outputs attach no results, and an attempt
    to compact is a compaction in place, with any outcome, whose reloaded sessions are answered. *)
Theorem requests_are_answered t requests point
    (Hfresh : fresh t) (Hsound : sound (t_messages t)) (Hrun : turn_runs sound_environment t requests point) :
  Forall (fun q : Request => sound q.2) requests
  /\ (forall t' summary, point = Over t' (Ok summary) -> sound (t_messages t')).
Proof.
  destruct (run_sound t requests point Hfresh Hsound Hrun) as (Hpoint & Hreq). split; [done|].
  intros t' summary ->. by apply (Hpoint summary).
Qed.

(** C25. A turn keeps to its limits, on every run and whatever the environment answers: the
    compactions counted before its requests are at most eight (the one at the end of a turn comes in
    addition and is not counted), a dropped stream is continued at most three times, one pass of the
    loop prepares at most two requests and the run at most twice the configured iterations, and once
    the configured steps are completed no response holds a tool call, whatever the provider
    streams. *)
Theorem turn_keeps_its_limits t requests point
    (Hfresh : fresh t) (Hrun : turn_runs anything t requests point) :
  compaction_count (compactions (t_progress (point_turn point))) <= 8
  /\ (stream_continuations (recovery (t_progress (point_turn point))) <= 3)%N
  /\ (forall t' e next more, point = AtLoop t' ->
        turn_iteration legacy_id interrupted_bash cfg context_budget p n e t' = Some (next, more) -> length more <= 2)
  /\ (N.of_nat (length requests) <= 2 * cf_max_iterations cfg)%N
  /\ (forall t' final_answer l limit, point = AtResponse t' final_answer l -> cf_max_steps cfg = Some limit ->
        (limit <= completed (steps (t_progress t')))%N -> calls (rs_scheduler (loop_response l)) = []).
Proof.
  destruct (run_ok anything t requests point Hfresh Hrun) as (Hok & Hcount).
  assert (limits (t_progress (point_turn point))) as [Hl1 Hl2] by (destruct point; apply Hok).
  split_and!; [done|done| |lia|].
  - intros t' e next more -> E. destruct (iteration_ok e t' Hok) as (next' & more' & E' & _ & _ & Hmore & _).
    rewrite E in E'. injection E' as <- <-. destruct Hmore as [->|[? _]]; [cbn; lia|done].
  - intros t' final_answer l limit -> Hmax Hlimit. destruct Hok as (_ & _ & Hfinal & Hresp).
    assert (final_answer = true) as ->.
    { rewrite Hfinal. unfold at_limit. rewrite Hmax. by apply N.leb_le. }
    by apply (no_tools_no_calls legacy_id is_concurrency_safe interrupted_bash offload running_model p n (t_messages t')).
Qed.

(** A response that is still polled takes whatever comes next. *)
Lemma polling_moves_on t final_answer r :
  point_ok (AtResponse t final_answer (Polling r)) -> response_done r = false ->
  (rs_ended r = false -> forall st event, exists l,
     on_event legacy_id is_concurrency_safe running_model st (negb final_answer) event r = Some l)
  /\ (forall aborted k i w stage, active (rs_scheduler r) !! k = Some (i, w) -> stage_of w stage -> exists s,
     advance is_concurrency_safe aborted (set_active (delete k (active (rs_scheduler r))) (rs_scheduler r)) i stage = Some s)
  /\ (forall st u s, take_update (rs_scheduler r) = Some (u, s) -> exists l, on_update legacy_id offload st u s r = Some l).
Proof.
  intros (_ & _ & _ & Hrun) Hdone.
  apply (response_run_ok legacy_id is_concurrency_safe interrupted_bash offload running_model) in Hrun as [Hinv Hstop].
  cbn [loop_response] in Hinv. split_and!.
  - intros He st event. destruct (on_event_ok legacy_id is_concurrency_safe running_model p n (t_messages t) st (negb final_answer)
      event r Hinv He) as (l & E & _). by exists l.
  - intros aborted k i w stage Hk Hst. destruct (advance_ok is_concurrency_safe interrupted_bash offload p n _ k i w stage aborted
      (ri_sched _ _ _ _ _ Hinv) Hk Hst) as (s & E & _). by exists s.
  - intros st u s Hu. destruct (on_update_ok legacy_id is_concurrency_safe offload p n (t_messages t) st u s r Hinv Hstop Hu)
      as (l & E & _). by exists l.
Qed.

(** C40. A turn is never stuck and never panics.  From every point a run reaches, whatever the
    environment has answered and whatever it answers next: the top of the loop leads on, in as many
    compactions and requests as it has fuel for, and the first request of an iteration fits the
    model's context by the turn's estimate; a response that is still polled takes every event of the
    stream, every end of a started stage and every update that comes, and can be left when it is
    done and by cancelling when it is not, and leaving it can be settled; so can every response that
    was left. *)
Theorem turn_moves_on t requests point
    (Hfresh : fresh t) (Hrun : turn_runs anything t requests point) :
  match point with
  | AtLoop t' => forall e, exists next more,
      turn_iteration legacy_id interrupted_bash cfg context_budget p n e t' = Some (next, more)
      /\ (forall q, List.hd_error more = Some q -> fits_now (context_budget q.2) q.2 = true)
  | AtResponse t' final_answer (Polling r) =>
      (response_done r = false ->
         (rs_ended r = false -> forall st event, exists l,
            on_event legacy_id is_concurrency_safe running_model st (negb final_answer) event r = Some l)
         /\ (forall aborted k i w stage, active (rs_scheduler r) !! k = Some (i, w) -> stage_of w stage -> exists s,
            advance is_concurrency_safe aborted (set_active (delete k (active (rs_scheduler r))) (rs_scheduler r)) i stage
              = Some s)
         /\ (forall st u s, take_update (rs_scheduler r) = Some (u, s) ->
            exists l, on_update legacy_id offload st u s r = Some l))
      /\ (let cancelled := negb (response_done r) in
          response_step legacy_id is_concurrency_safe offload running_model (negb final_answer) r (Left r None cancelled)
          /\ forall e, exists next, settle_response legacy_id interrupted_bash offload running_model cfg unfinished_deliverable
               e final_answer r None cancelled t' = Some next)
  | AtResponse t' final_answer (Left r error cancelled) => forall e, exists next,
      settle_response legacy_id interrupted_bash offload running_model cfg unfinished_deliverable
        e final_answer r error cancelled t' = Some next
  | Over _ _ => True
  end.
Proof.
  destruct (run_ok anything t requests point Hfresh Hrun) as (Hok & _).
  destruct point as [t'|t' final_answer [r|r error cancelled]|]; [| | |done].
  - intros e. destruct (iteration_ok e t' Hok) as (next & more & E & _ & _ & _ & _ & H). by exists next, more.
  - split; [by apply (polling_moves_on t')|]. cbv zeta.
    assert (response_step legacy_id is_concurrency_safe offload running_model (negb final_answer) r
      (Left r None (negb (response_done r)))) as Hstep.
    { destruct (response_done r) eqn:Ed; [by apply on_done|by apply on_abort]. }
    split; [exact Hstep|]. intros e.
    assert (point_ok (AtResponse t' final_answer (Left r None (negb (response_done r))))) as Hok'.
    { destruct Hok as (H1 & H2 & H3 & H4). split_and!; try apply H1; try done. by eapply response_next. }
    destruct (settle_ok e final_answer r None _ t' Hok') as (next & E & _). by exists next.
  - intros e. destruct (settle_ok e final_answer r error cancelled t' Hok) as (next & E & _). by exists next.
Qed.

End Turn.

(** ** A turn, for the witnesses

    A question, a call of a tool that runs through its stages, and an answer.  What would compact
    is the compaction of [CompactionRunSafety]'s run, on whatever the transcript holds. *)

Definition demo_attempt (l : list ConversationMessage) : Attempt :=
  match compact_in_place (fun _ => None) (fun _ => "") (fun _ _ _ => "legacy") 0%N (fun _ => "fresh") demo_caps
          prompt_default 0%N (fun _ _ => "print") false forced_compaction_config InTurnBudget "run-1" demo_env
          (with_session (session_of l) demo_live) with
  | Ret (x, r) => attempt_of false x r
  | _ => {| at_result := Ok None; at_messages := l; at_reported := 0; at_aborted := false; at_failed_report := false |}
  end.

Lemma demo_compacts l : compacts l (demo_attempt l).
Proof.
  destruct (in_place_ends (fun _ _ _ => "legacy") (fun _ => None) (fun _ => "") 0%N (fun _ => "fresh") demo_caps
    prompt_default 0%N (fun _ _ => "print") false forced_compaction_config InTurnBudget "run-1" demo_env
    (with_session (session_of l) demo_live)) as (x & r & E & _).
  unfold demo_attempt. rewrite E. eapply compacts_in_place; [| |exact E]; [done|constructor].
Qed.

Definition sample_cfg : TurnConfig :=
  {| cf_max_steps := Some 4%N; cf_max_iterations := 20; cf_auto_compaction := true; cf_auto_compact_threshold := 1000 |}.
Definition wide_budget (l : list ConversationMessage) : Compaction.ContextBudget :=
  {| Compaction.context_limit := 100000; Compaction.max_output_tokens := 1000; Compaction.overhead_tokens := 100;
     Compaction.buffer_tokens := 100 |}.
Definition nothing_unfinished (a r : list ConversationMessage) : bool := false.
Definition sample_input : InputEnv :=
  {| ie_aborted := false; ie_prepared := Ok []; ie_aborted_after := false; ie_storage := working_storage |}.
Definition sample_iteration : IterationEnv :=
  {| ev_aborted := false; ev_cancel := fun _ => working_storage; ev_inputs := fun _ => sample_input;
     ev_reminder := working_storage; ev_attempts := fun _ => demo_attempt; ev_open := fun _ => OpenStream |}.
Definition sample_settle : SettleEnv :=
  {| ev_conclude := fun _ => working_storage; ev_resolve := working_storage; ev_assistant := working_storage;
     ev_results := fun _ => working_storage; ev_save := None; ev_continue := working_storage;
     ev_aborted_now := false; ev_todos := None; ev_uuid := fun _ => "m9"%string; ev_context_save := None;
     ev_finish := demo_attempt; ev_elapsed := (7%N, working_storage) |}.
Definition sample_turn : Turn :=
  {| t_messages := asked; t_inbox := inbox_begin inbox_default; t_reported := 0; t_noops := 0;
     t_progress := progress_default |}.

Definition sample_runs : Expectation -> list Request -> TurnPoint -> Prop := fun expected =>
  turn_runs plain_legacy_id reads_share "interrupted" keep_output "model" sample_cfg wide_budget nothing_unfinished
    everything_allowed 2 expected sample_turn.

Lemma sample_sound : sound asked.
Proof. apply sound_plain; [apply plain_text|by split; constructor]. Qed.

Lemma sample_iteration_ok : iteration_env_ok sample_iteration.
Proof. split_and!; [by intros k bs [= <-]|intros k l; apply demo_compacts|done]. Qed.

Inductive move := Iterate | Receive (event : AssistantEvent) | CloseStream | AdmitCalls | StageEnds (k : nat) | Delivery | Settle.

Definition attaches_nothing (s : ToolScheduler) : bool :=
  forallb (fun c => match inv_output c with Some o => length (result_ids (to_attachments o)) =? 0 | None => true end) (calls s).

Lemma attaches_nothing_spec s : attaches_nothing s = true -> attach_no_results s.
Proof.
  intros H i c o Hi Ho. unfold attaches_nothing in H. rewrite forallb_forall in H.
  specialize (H c (proj1 (list_elem_of_In _ _) (list_elem_of_lookup_2 _ _ _ Hi))). rewrite Ho in H.
  apply Nat.eqb_eq in H. by destruct (result_ids _).
Qed.

Definition respond (final_answer : bool) (r : Response) (m : move) : option Loop :=
  if response_done r then match m with Settle => Some (Left r None false) | _ => None end
  else match m with
       | Receive event =>
           if rs_ended r then None
           else on_event plain_legacy_id reads_share "model" working_storage (negb final_answer) event r
       | CloseStream => if rs_ended r then None else Some (on_end r)
       | AdmitCalls => Some (Polling (set_scheduler (admit_calls None (rs_scheduler r)) r))
       | StageEnds k =>
           '(i, w) ← active (rs_scheduler r) !! k;
           s ← advance reads_share false (set_active (delete k (active (rs_scheduler r))) (rs_scheduler r)) i (plain_answer w);
           Some (Polling (set_scheduler s r))
       | Delivery => '(u, s) ← take_update (rs_scheduler r); on_update plain_legacy_id keep_output (fun _ => working_storage) u s r
       | _ => None
       end.

Lemma respond_step final_answer r m l :
  respond final_answer r m = Some l ->
  response_step plain_legacy_id reads_share keep_output "model" (negb final_answer) r l.
Proof.
  unfold respond. destruct (response_done r) eqn:Ed; [by destruct m; intros [= <-]; constructor|].
  destruct m as [|event| | |k| |]; try done.
  - destruct (rs_ended r) eqn:Ee; [done|]. by apply on_stream_event.
  - destruct (rs_ended r) eqn:Ee; [done|]. intros [= <-]. by apply on_stream_end.
  - intros [= <-]. by apply on_tools_admitted.
  - destruct (active (rs_scheduler r) !! k) as [[i w]|] eqn:Ek; [|done]. cbn [mbind option_bind].
    destruct (advance _ _ _ _ _) as [s|] eqn:Es; [|done]. intros [= <-].
    eapply on_tool_stage; [done|exact Ek| |exact Es]. by destruct w.
  - destruct (take_update (rs_scheduler r)) as [[u s]|] eqn:Eu; [|done]. by eapply on_tool_update.
Qed.

Definition make (m : move) (point : TurnPoint) : option (list Request * TurnPoint) :=
  match point with
  | AtLoop t =>
      '(point, requests) ← turn_iteration plain_legacy_id "interrupted" sample_cfg wide_budget everything_allowed 2
                             sample_iteration t;
      Some (requests, point)
  | AtResponse t final_answer (Polling r) =>
      l ← respond final_answer r m;
      if attaches_nothing (rs_scheduler (loop_response l)) then Some ([], AtResponse t final_answer l) else None
  | AtResponse t final_answer (Left r error cancelled) =>
      point ← settle_response plain_legacy_id "interrupted" keep_output "model" sample_cfg nothing_unfinished sample_settle
                final_answer r error cancelled t;
      Some ([], point)
  | Over _ _ => None
  end.

Lemma make_step m point requests point' :
  make m point = Some (requests, point') ->
  turn_step plain_legacy_id reads_share "interrupted" keep_output "model" sample_cfg wide_budget nothing_unfinished
    everything_allowed 2 sound_environment point requests point'.
Proof.
  destruct point as [t|t final_answer [r|r error cancelled]|]; cbn [make]; [| | |done].
  - destruct (turn_iteration _ _ _ _ _ _ _ _) as [[next more]|] eqn:E; [|done]. intros [= <- <-].
    eapply step_iteration; [apply sample_iteration_ok|exact E].
  - destruct (respond final_answer r m) as [l|] eqn:E; [|done]. cbn [mbind option_bind].
    destruct (attaches_nothing _) eqn:Ea; [|done]. intros [= <- <-].
    apply step_response; [by apply (respond_step final_answer r m)|by apply attaches_nothing_spec].
  - destruct (settle_response _ _ _ _ _ _ _ _ _ _ _ _) as [next|] eqn:E; [|done]. intros [= <- <-].
    eapply (step_settle _ _ _ _ _ _ _ _ _ _ _ sample_settle); [intros l; apply demo_compacts|exact E].
Qed.

Fixpoint play (script : list move) (requests : list Request) (point : TurnPoint) : option (list Request * TurnPoint) :=
  match script with
  | [] => Some (requests, point)
  | m :: script => '(more, point') ← make m point; play script (requests ++ more) point'
  end.

Lemma turn_played script : forall requests point requests' point',
  sample_runs sound_environment requests point -> play script requests point = Some (requests', point') ->
  sample_runs sound_environment requests' point'.
Proof.
  induction script as [|m script IH]; intros requests point requests' point' Hrun; cbn [play]; [by intros [= <- <-]|].
  destruct (make m point) as [[more next]|] eqn:E; [|done]. cbn [mbind option_bind]. apply IH.
  eapply turn_next; [exact Hrun|by eapply make_step].
Qed.

(** Nothing is lost when less is expected. *)
Lemma runs_anything expected requests point : sample_runs expected requests point -> sample_runs anything requests point.
Proof.
  intros H. induction H as [|requests point more point' H IH Hstep]; [apply turn_start|].
  eapply turn_next; [exact IH|]. destruct Hstep; by econstructor.
Qed.

Definition sample_script : list move :=
  [Iterate; Receive read_call; Receive EMessageStop; AdmitCalls; StageEnds 0; AdmitCalls; StageEnds 0; AdmitCalls;
   StageEnds 0; StageEnds 0; Delivery; Delivery; CloseStream; Settle; Settle;
   Iterate; Receive (ETextDelta "yes"); Receive EMessageStop; CloseStream; Settle; Settle].

Definition sample_played : list Request * TurnPoint := default ([], AtLoop sample_turn) (play sample_script [] (AtLoop sample_turn)).

Lemma sample_played_run : sample_runs sound_environment sample_played.1 sample_played.2.
Proof.
  apply (turn_played sample_script [] (AtLoop sample_turn)); [apply turn_start|].
  unfold sample_played. destruct (play sample_script [] (AtLoop sample_turn)) as [[requests point]|] eqn:E; [done|].
  vm_compute in E. discriminate.
Qed.

(** The second request carries the call and its result. *)
Lemma requests_are_answered_witness :
  map (fun q : Request => map (fun m => (role m, call_ids (blocks m), result_ids (blocks m))) q.2) sample_played.1
    = [[(RUser, [], [])];
       [(RUser, [], []); (RAssistant, ["a"%string], []); (RTool, [], ["a"%string])]]
  /\ Forall (fun q : Request => sound q.2) sample_played.1
  /\ (exists t' summary, sample_played.2 = Over t' (Ok summary) /\ sum_cancelled summary = false /\ sound (t_messages t')).
Proof.
  destruct (requests_are_answered plain_legacy_id reads_share "interrupted" keep_output "model" sample_cfg wide_budget
    nothing_unfinished everything_allowed 2 sample_turn sample_played.1 sample_played.2 eq_refl sample_sound
    sample_played_run) as [Hreq Hend]. split; [vm_compute; reflexivity|]. split; [exact Hreq|].
  destruct sample_played.2 as [t'|t' f l|t' [summary|e]] eqn:E; try (vm_compute in E; discriminate).
  exists t', summary. split; [done|]. split; [|by apply (Hend t' summary)].
  vm_compute in E. by injection E as _ <-.
Defined.

Lemma turn_keeps_its_limits_witness :
  compaction_count (compactions (t_progress (point_turn sample_played.2))) <= 8
  /\ (stream_continuations (recovery (t_progress (point_turn sample_played.2))) <= 3)%N
  /\ (forall t' e next more, sample_played.2 = AtLoop t' ->
        turn_iteration plain_legacy_id "interrupted" sample_cfg wide_budget everything_allowed 2 e t' = Some (next, more) ->
        length more <= 2)
  /\ (N.of_nat (length sample_played.1) <= 2 * cf_max_iterations sample_cfg)%N
  /\ (forall t' final_answer l limit, sample_played.2 = AtResponse t' final_answer l -> cf_max_steps sample_cfg = Some limit ->
        (limit <= completed (steps (t_progress t')))%N -> calls (rs_scheduler (loop_response l)) = []).
Proof.
  apply (turn_keeps_its_limits plain_legacy_id reads_share "interrupted" keep_output "model" sample_cfg wide_budget
    nothing_unfinished everything_allowed 2 sample_turn sample_played.1 sample_played.2 eq_refl
    (runs_anything sound_environment sample_played.1 sample_played.2 sample_played_run)).
Defined.

(** Where the tool of the run has been called and waits to be admitted. *)
Definition sample_polling : list Request * TurnPoint :=
  default ([], AtLoop sample_turn) (play (take 3 sample_script) [] (AtLoop sample_turn)).

Lemma sample_polling_run : sample_runs anything sample_polling.1 sample_polling.2.
Proof.
  apply (runs_anything sound_environment), (turn_played (take 3 sample_script) [] (AtLoop sample_turn)); [apply turn_start|].
  unfold sample_polling. destruct (play (take 3 sample_script) [] (AtLoop sample_turn)) as [[requests point]|] eqn:E; [done|].
  vm_compute in E. discriminate.
Qed.

Lemma turn_moves_on_witness :
  (exists next more,
     turn_iteration plain_legacy_id "interrupted" sample_cfg wide_budget everything_allowed 2 sample_iteration sample_turn
       = Some (next, more)
     /\ (forall q, List.hd_error more = Some q -> fits_now (wide_budget q.2) q.2 = true))
  /\ (exists t' r, sample_polling.2 = AtResponse t' false (Polling r) /\ response_done r = false
     /\ forall e, exists next, settle_response plain_legacy_id "interrupted" keep_output "model" sample_cfg
          nothing_unfinished e false r None true t' = Some next).
Proof.
  split.
  - apply (turn_moves_on plain_legacy_id reads_share "interrupted" keep_output "model" sample_cfg wide_budget
      nothing_unfinished everything_allowed 2 sample_turn [] (AtLoop sample_turn) eq_refl
      (turn_start _ _ _ _ _ _ _ _ _ _ _ _) sample_iteration).
  - pose proof (turn_moves_on plain_legacy_id reads_share "interrupted" keep_output "model" sample_cfg wide_budget
      nothing_unfinished everything_allowed 2 sample_turn sample_polling.1 sample_polling.2 eq_refl sample_polling_run) as H.
    destruct sample_polling.2 as [t'|t' [|] [r|r error cancelled]|] eqn:E; try (vm_compute in E; discriminate).
    exists t', r. assert (response_done r = false) as Hd by (vm_compute in E; by injection E as _ <-).
    rewrite Hd in H. split; [done|]. split; [exact Hd|]. apply H.
Defined.
